(* ===== verification/_CoqProject ===== *)
-Q . S2P
Prelude.v
RaftTypes.v
RaftLogs.v
RaftNode.v
RaftStore.v
RaftLogic.v
RaftSafety.v
RaftDurability.v
RaftCluster.v
RaftExamples.v
CoreTypes.v
CoreCodec.v
EngineExpr.v
EngineCatalog.v
EngineTxn.v
EngineState.v
EngineChains.v
EngineInv.v
EngineCommit.v
EngineSteps.v
EngineRecords.v
EngineProps.v
EngineReads.v
EngineLive.v
EngineQuery.v
EngineExamples.v
StorageBytes.v
StoragePage.v
StorageIo.v
StorageWal.v
StorageFrames.v
StorageScan.v
StorageGroups.v
StoragePager.v
StorageLaws.v
StorageReplay.v
StorageRecovery.v
StorageApply.v
StorageInstall.v
StorageProps.v
StorageExamples.v
BtreeNode.v
StorageHeap.v
HeapProps.v
BtreeOps.v
BtreeFuel.v
BtreeTree.v
BtreeStore.v
BtreeSteps.v
BtreeSearch.v
BtreeInsert.v
BtreeDelete.v
BtreeProps.v
SqlAst.v
SqlLexer.v
SqlParser.v
SqlParsing.v
SqlPrinter.v
SqlExprRoundtrip.v
SqlRoundtrip.v
SqlText.v
SqlExamples.v
SqlCatalog.v
SqlPlan.v
SqlEval.v
SqlBinder.v
SqlTyping.v
SqlBinding.v
DbExecutor.v
DbOptimize.v
DbDatabase.v
DbProps.v
DbExamples.v
DbRecords.v
DbFiles.v
DbState.v
DbPages.v
DbDurable.v
DbRestart.v
