(* ===== verification/Prelude.v ===== *)
(** * AsterDB: a verification library

    AsterDB is a replicated SQL database in Rust.  This library is a shallow
    embedding of its core crates: the code is translated function by function
    into executable Rocq definitions that keep the names of the source, and
    the theorems say what makes the parts correct.

    ** The program and its parts

    - [crates/aster-raft]: a consensus core without I/O.  [Raft::step] takes
      one input (tick, message, proposal, read) and returns an ordered list of
      actions: persist, send, apply, install a snapshot.
    - [crates/aster-runtime]: executes these actions.  [StableStore] keeps the
      durable Raft state and refuses every mutation that would break it.
    - [crates/aster-core]: values, rows, schemas, the row codec and the
      order-preserving key encoding.
    - [crates/aster-engine]: the multi-version transaction engine, the state
      machine to which committed entries are applied: snapshots, staged writes,
      first-committer-wins validation, secondary indexes, client sessions,
      vacuum, engine snapshots, queries.
    - [crates/aster-storage]: pages with checksums, the write-ahead log of page
      images, superblocks, crash recovery and the durable pager; slotted heap
      pages, the B+tree and the buffer pool.
    - [crates/aster-sql]: lexer, parser, binder, planner and evaluator.
    - [crates/aster-db]: the statement executor over the engine and the
      database that ties SQL, engine and replication together.
    - [crates/aster-protocol], [aster-server], [aster-cli]: framing, network
      server, client.

    A client statement is lexed, parsed, bound against the catalog, planned and
    executed on a snapshot of the engine; its writes become an attempt whose
    canonical bytes are proposed to Raft; every node applies the committed
    attempt to its engine, which validates it again and answers the client
    through its session record; the stable store makes the Raft state durable
    before any message that depends on it leaves the node.

    ** Files

    Shared: [Prelude] (results, machine integers, list and map lemmas, the
    tactics [bool_prop] and its like).

    Raft: [RaftTypes] (types.rs, with the arithmetic of quorums),
    [RaftLogs] (log.rs), [RaftNode] (node.rs: every handler reached from
    [step]), [RaftStore] (aster-runtime stable.rs, and [execute_actions] of
    lib.rs).  [RaftLogic] and [RaftSafety] are the program logic in
    which each handler is verified against the durable image; [RaftDurability]
    and [RaftCluster] hold the theorems on one step and on whole clusters;
    [RaftExamples] the concrete runs.

    Core and engine: [CoreTypes], [CoreCodec] (aster-core lib.rs),
    [EngineExpr] (expression.rs, error.rs), [EngineCatalog] (catalog.rs),
    [EngineTxn] (transaction.rs), [EngineState] (engine.rs), [EngineQuery]
    (query.rs, [execute_query]), [EngineRecords] (the snapshot records of
    engine.rs).  [EngineChains], [EngineInv], [EngineCommit], [EngineSteps]
    build the invariant; [EngineProps], [EngineReads], [EngineLive] hold the
    theorems; [EngineExamples] a concrete database.

    Storage: [StorageBytes] (checksum.rs), [StoragePage] (page.rs, lib.rs),
    [StorageIo] (disk.rs and the devices of wal.rs), [StorageWal] (wal.rs),
    [StoragePager] (recovery.rs).  [StorageFrames], [StorageScan],
    [StorageGroups] are the theory of the log; [StorageLaws] the contract of
    the devices and the crash model; [StorageReplay],
    [StorageRecovery], [StorageApply], [StorageInstall] the proofs;
    [StorageProps] the theorems; [StorageExamples] an implementation of the
    contract and concrete runs.  [StorageHeap] (heap.rs) are the slotted pages
    and [HeapProps] shows that a page is a table of records.

    B+ tree: [BtreeNode] (the node codec of btree.rs), [BtreeOps] (the page
    stores and every operation of [BPlusTree]).  [BtreeTree] is the abstract
    tree with its contexts; [BtreeStore] the contract [PageStoreLaws] of
    [trait PageStore] and the weakest preconditions in which [BtreeSteps],
    [BtreeSearch], [BtreeInsert] and [BtreeDelete] verify the operations;
    [BtreeProps] verifies validation and holds the theorems on any such store; [BtreeFuel]
    shows that a larger limit on the loops never changes a result.

    SQL: [SqlAst] (ast.rs, lib.rs), [SqlLexer] (lexer.rs), [SqlParser]
    (parser.rs).  [SqlParsing] shows termination; [SqlPrinter],
    [SqlExprRoundtrip], [SqlRoundtrip], [SqlText] the round trip from
    statements to text and back; [SqlExamples] concrete statements.
    [SqlCatalog] (catalog.rs), [SqlPlan] (plan.rs), [SqlEval] (eval.rs),
    [SqlBinder] (binder.rs); [SqlTyping] and [SqlBinding] are the type system
    and its soundness.

    Database: [DbExecutor] (aster-db executor.rs, catalog.rs, error.rs),
    [DbDatabase] (database.rs, and the request records of persistence.rs);
    [DbOptimize] relates optimized plans to sequential scans and nested loops;
    [DbProps] holds the theorems on the operations of the database;
    [DbExamples] a database in memory and concrete runs.  [DbRecords] is the
    record codec of persistence.rs and [DbFiles] its two page stores and
    [FilePersistence].  [DbState] shows that the stored records read back as
    the state, [DbPages] that the two page stores keep the contract of the
    B+ tree, [DbDurable] that a state is stored and installed atomically,
    and [DbRestart] holds concrete runs on the simulated devices.

    ** How the code is modelled

    A struct is a record with its fields, an enum an inductive type with its
    constructors, [Result] the type [result] below with [?] as its bind.  A
    method on [&mut self] takes and returns the state.  [u64], [usize] and
    [i64] are [Z] with the checked or wrapping operation of the source written
    out; bytes are integers from 0 to 255; a [BTreeMap] is a [gmap], or a
    sorted list where its order is visible.  A Raft handler is a function from
    the node to the node and the actions it pushes.  A storage operation runs
    on a world that holds the devices and returns the world also when it fails;
    a statement of [DbExecutor] likewise returns the transaction it was changing
    also when it fails, so the copy the database makes of it can be seen.

    Code outside the repository is a parameter: SHA-256 ([Sha256] and the
    digest of [RaftTypes], with injectivity or its 32-byte length as a named
    hypothesis where a theorem needs it), the JSON encoding and file calls of
    the stable store and the calls into the database ([StoreIo]), the storage
    devices ([WalIo], [Disk] with the laws [StorageLaws], implemented by
    [StorageExamples]), the Unicode tables ([UnicodeTables]), and serde_json
    ([SerdeJson], with the round trip [SerdeJsonOk]).  Between components of the
    repository there are two interfaces: [SqlCatalog], through which the SQL
    front end sees tables and indexes, and [Persistence], through which the
    database writes its state, with the laws [PersistenceLaws]: what a reopened
    database loads after a call that succeeded or failed.  [PersistenceLaws] is
    an assumption of the theorems of [DbProps] that need it, on any state and
    any file; there is no instance for [FilePersistence].  [DbDurable] proves
    the corresponding guarantees of [FilePersistence] under conditions of their
    own: files at rest, well-formed and typed states, counters and log below
    their widths, and, for what a failed [persist_state] leaves behind, that no
    checkpoint was taken since the last apply or that no device failed.

    A crash of the storage layer may keep, per page and for the tail of the
    log, any content since the last sync, and may tear the page or the append
    that was being written.  A crash of a Raft node stops it after any prefix of
    the actions of a step.

    Fuel: loops that are not structural take a number of turns.  [apply_loop],
    [first_index_loop] and [skip_staged] get the distance they have to cover;
    [utf8_scan], [decode_loop] and [lex_loop] one turn per byte or character;
    the parser one turn per token left; the loops of the B+ tree get a limit
    of at least as many turns as there are page identifiers, and reaching the
    limit, like an index out of bounds, is a result the theorems exclude;
    a larger limit gives the same results ([BtreeFuel], [DbRestart]).  The
    theorems on the other loops show that the fuel is never what ends them
    (C-numbered termination theorems, and lemmas beside the definitions).

    ** What the theorems show

    - Raft: election safety in every reachable cluster; the actions of a step
      bring the stable store from the old to the new durable state; a crash
      after any prefix of them recovers; votes and acknowledgements are durable
      before they are visible; committed entries are never replaced by a step
      and are applied in order.  One theorem is a run in which a follower
      commits entries its leader never sent it.
    - Engine: the invariant of every reachable state; refinement of an abstract
      multi-version store; first committer wins; stable snapshots; index scans
      equal filtered table scans; exactly-once requests; replay; a prepared
      transaction commits; snapshot round trip; query results.
    - Codecs: the row codec is a bijection on its image, the key encoding
      preserves order and is prefix-free, canonical bytes identify an attempt.
      The expression evaluator computes exactly a declarative meaning, errors
      included.
    - Storage: an apply that returned is durable; one that was stopped is all
      or nothing when no checkpoint was taken since the last apply; checkpoint
      and snapshot installation are atomic across crashes and recovery is
      repeatable; group append is all or nothing; a damaged page is detected;
      decoding terminates.  One theorem shows the case left out to be a defect:
      a store that crashes after logging the first group behind a checkpoint
      opens once and never again.  A heap page answers as a table of records.
    - B+ tree: the operations are those of a finite map on any page store that
      keeps its contract: lookup, range scan, insertion with splits, deletion
      with merging, validation; with fixed-size keys and small values no
      operation is ever refused for a size.  Nothing is claimed of a tree after
      a refused operation, and an example shows such a tree that no longer opens.
    - SQL: lexer and parser terminate on every text; every statement has a text
      that reads back as it; expressions of bound statements evaluate to values
      of their types; the optimizer keeps the rows of a query over distinct
      tables, for a transaction on the latest state.
    - Persistence: storing a state through the record tree and the pager is
      durable once acknowledged, atomic across crashes under the condition
      above, and succeeds when the devices do; installing a snapshot is atomic;
      a state's records read back as that state.
    - Database: every operation keeps requests and engine in agreement and the
      open transactions in order; what is acknowledged is durable; a failed
      statement leaves no trace; a retry is answered from its record; a prepared
      command commits on every replica whose persistence accepts it; a snapshot
      carries the state over.  The examples run a transaction that loses sight
      of a row because another client created an index, self joins whose two
      uses of a table are confused, and the replay of a retried command that is
      taken for corruption.

    ** Not modelled

    The simulator of aster-raft (a test harness; [RaftCluster] has its own
    cluster relation), the buffer pool, threads, sockets,
    processes, file calls, and JSON serialization (serde) in all crates; the
    depth of the call stack. *)

From Stdlib Require Export ZArith Lia.
From stdpp Require Export base tactics numbers option list gmap sorting strings pretty.

#[global] Open Scope Z_scope.

(** ** Results

    [Result<T, E>] of the source.  [?] is the monadic bind. *)

Inductive result (E A : Type) : Type :=
| Ok (a : A)
| Err (e : E).

Arguments Ok {E A} a.
Arguments Err {E A} e.

#[export] Instance result_ret {E} : MRet (result E) := λ A a, Ok a.
#[export] Instance result_bind {E} : MBind (result E) := λ A B f r,
  match r with Ok a => f a | Err e => Err e end.
#[export] Instance result_fmap {E} : FMap (result E) := λ A B f r,
  match r with Ok a => Ok (f a) | Err e => Err e end.

Definition is_ok {E A} (r : result E A) : bool :=
  match r with Ok _ => true | Err _ => false end.

Definition map_err {E F A} (f : E → F) (r : result E A) : result F A :=
  match r with Ok a => Ok a | Err e => Err (f e) end.

Definition ok_or {E A} (o : option A) (e : E) : result E A :=
  match o with Some a => Ok a | None => Err e end.

(** [if c { return Err(e) }] *)
Definition ensure {E} (c : bool) (e : E) : result E unit :=
  if c then Ok tt else Err e.

Lemma Ok_inj {E A} (a b : A) : Ok (E := E) a = Ok b → a = b.
Proof. by intros [= ->]. Qed.

Lemma result_bind_Ok {E A B} (f : A → result E B) (r : result E A) b :
  r ≫= f = Ok b ↔ ∃ a, r = Ok a ∧ f a = Ok b.
Proof. destruct r; cbn; naive_solver. Qed.

Lemma ensure_Ok {E} c (e : E) u : ensure c e = Ok u ↔ c = true.
Proof. destruct c, u; cbn; naive_solver. Qed.

Lemma ok_or_Ok {E A} (o : option A) (e : E) a : ok_or o e = Ok a ↔ o = Some a.
Proof. destruct o; cbn; naive_solver. Qed.

(** Loops of the form [for x in xs { body(x)?; }] threading a state. *)
Fixpoint foldM {E A S} (f : S → A → result E S) (s : S) (l : list A) : result E S :=
  match l with
  | [] => Ok s
  | x :: l => s' ← f s x; foldM f s' l
  end.

(** [iter.map(f).collect::<Result<Vec<_>, _>>()] *)
Fixpoint mapM_result {E A B} (f : A → result E B) (l : list A) : result E (list B) :=
  match l with
  | [] => Ok []
  | x :: l => y ← f x; ys ← mapM_result f l; Ok (y :: ys)
  end.

Lemma foldM_app {E A S} (f : S → A → result E S) s l1 l2 :
  foldM f s (l1 ++ l2) = (s' ← foldM f s l1; foldM f s' l2).
Proof.
  revert s. induction l1 as [|x l1 IH]; intros s; [done|].
  cbn. destruct (f s x); cbn; auto.
Qed.

(** ** Machine integers

    A [u64] (and a [usize], on the 64-bit targets the model fixes) is a [Z]
    kept in [0 .. 2^64 - 1].  Plain [+] wraps, as in the release profile. *)

Definition u64_max : Z := 18446744073709551615.
Definition u32_max : Z := 4294967295.
Definition u16_max : Z := 65535.
Definition i64_min : Z := -9223372036854775808.
Definition i64_max : Z := 9223372036854775807.
Definition usize_max : Z := u64_max.

Definition u64_ok (x : Z) : Prop := 0 ≤ x ≤ u64_max.
Definition i64_ok (x : Z) : Prop := i64_min ≤ x ≤ i64_max.

Definition wrapping_add (x y : Z) : Z := (x + y) mod (u64_max + 1).
Definition wrapping_sub (x y : Z) : Z := (x - y) mod (u64_max + 1).
Definition checked_add (x y : Z) : option Z :=
  if x + y <=? u64_max then Some (x + y) else None.
Definition saturating_add (x y : Z) : Z := Z.min u64_max (x + y).
Definition saturating_sub (x y : Z) : Z := Z.max 0 (x - y).
Definition usize_try_from (x : Z) : option Z :=
  if x <=? usize_max then Some x else None.
Definition u32_try_from (x : Z) : option Z :=
  if x <=? u32_max then Some x else None.
Definition u16_try_from (x : Z) : option Z :=
  if x <=? u16_max then Some x else None.

(** Checked signed arithmetic, [i64::checked_*]. *)
Definition i64_checked (x : Z) : option Z :=
  if (i64_min <=? x) && (x <=? i64_max) then Some x else None.

Declare Scope u64_scope.
Delimit Scope u64_scope with u64.
Notation "x + y" := (wrapping_add x y) : u64_scope.
Notation "x - y" := (wrapping_sub x y) : u64_scope.

(** [ulia] is [lia] with the machine bounds in sight. *)
Ltac ulia :=
  unfold u64_ok, i64_ok, usize_max, u64_max, u32_max, u16_max, i64_min, i64_max in *; lia.

Lemma wrapping_add_small x y : 0 ≤ x + y ≤ u64_max → (x + y)%u64 = x + y.
Proof. intros. unfold wrapping_add. apply Z.mod_small. ulia. Qed.

Lemma wrapping_sub_small x y : 0 ≤ x - y ≤ u64_max → (x - y)%u64 = x - y.
Proof. intros. unfold wrapping_sub. apply Z.mod_small. ulia. Qed.

Lemma wrapping_add_ok x y : u64_ok (x + y)%u64.
Proof.
  unfold wrapping_add. pose proof (Z.mod_pos_bound (x + y) (u64_max + 1)).
  ulia.
Qed.

Lemma saturating_add_small x y : x + y ≤ u64_max → saturating_add x y = x + y.
Proof. unfold saturating_add. lia. Qed.

Lemma checked_add_Some x y z : checked_add x y = Some z ↔ z = x + y ∧ x + y ≤ u64_max.
Proof. unfold checked_add. case_match; naive_solver lia. Qed.

Lemma usize_try_from_Some x y : usize_try_from x = Some y ↔ x = y ∧ x ≤ u64_max.
Proof. unfold usize_try_from, usize_max. case_match; naive_solver lia. Qed.

(** ** Vectors

    Lengths and positions are machine integers. *)

Definition zlen {A} (l : list A) : Z := Z.of_nat (length l).
Definition ztake {A} (n : Z) (l : list A) : list A := take (Z.to_nat n) l.
Definition zdrop {A} (n : Z) (l : list A) : list A := drop (Z.to_nat n) l.
Definition znth {A} (l : list A) (i : Z) : option A :=
  if i <? 0 then None else l !! Z.to_nat i.

(** [slice.get(start..end)] *)
Definition slice_get {A} (l : list A) (a b : Z) : option (list A) :=
  if (a <=? b) && (b <=? zlen l) then Some (ztake (b - a) (zdrop a l)) else None.

(** [slice.get(start..)] *)
Definition slice_from {A} (l : list A) (a : Z) : option (list A) :=
  if a <=? zlen l then Some (zdrop a l) else None.

Definition is_empty {A} (l : list A) : bool :=
  match l with [] => true | _ => false end.

(** [Vec::dedup]: drop consecutive equal elements. *)
Fixpoint vec_dedup {A} `{EqDecision A} (l : list A) : list A :=
  match l with
  | x :: ((y :: _) as t) => if decide (x = y) then vec_dedup t else x :: vec_dedup t
  | _ => l
  end.

Lemma zlen_nonneg {A} (l : list A) : 0 ≤ zlen l.
Proof. unfold zlen. lia. Qed.

Lemma zlen_app {A} (l k : list A) : zlen (l ++ k) = zlen l + zlen k.
Proof. unfold zlen. rewrite length_app. lia. Qed.

Lemma zlen_cons {A} x (l : list A) : zlen (x :: l) = 1 + zlen l.
Proof. unfold zlen. cbn. lia. Qed.

Lemma znth_Some {A} (l : list A) i x :
  znth l i = Some x ↔ 0 ≤ i ∧ l !! Z.to_nat i = Some x.
Proof. unfold znth. destruct (Z.ltb_spec i 0); naive_solver lia. Qed.

Lemma znth_lt {A} (l : list A) i x : znth l i = Some x → 0 ≤ i < zlen l.
Proof. rewrite znth_Some. intros [? ?%lookup_lt_Some]. unfold zlen. lia. Qed.

Lemma znth_is_Some {A} (l : list A) i : 0 ≤ i < zlen l → ∃ x, znth l i = Some x.
Proof.
  unfold zlen. intros. destruct (lookup_lt_is_Some_2 l (Z.to_nat i)) as [x ?]; [lia|].
  exists x. apply znth_Some. split; [lia|done].
Qed.

Lemma znth_None {A} (l : list A) i : zlen l ≤ i → znth l i = None.
Proof.
  unfold znth, zlen. intros. destruct (Z.ltb_spec i 0); [done|].
  apply lookup_ge_None. lia.
Qed.

Lemma znth_app_l {A} (l k : list A) i : i < zlen l → znth (l ++ k) i = znth l i.
Proof.
  unfold znth, zlen. intros. destruct (Z.ltb_spec i 0); [done|].
  apply lookup_app_l. lia.
Qed.

Lemma znth_app_r {A} (l k : list A) i :
  zlen l ≤ i → znth (l ++ k) i = znth k (i - zlen l).
Proof.
  intros Hi. pose proof (zlen_nonneg l). unfold znth, zlen in *.
  destruct (Z.ltb_spec i 0); [lia|].
  destruct (Z.ltb_spec (i - Z.of_nat (length l)) 0); [lia|].
  rewrite lookup_app_r by lia. f_equal. lia.
Qed.

Lemma znth_ztake {A} (l : list A) n i : i < n → znth (ztake n l) i = znth l i.
Proof.
  unfold znth, ztake. intros. destruct (Z.ltb_spec i 0); [done|].
  apply lookup_take_lt. lia.
Qed.

Lemma zlen_ztake {A} (l : list A) n : 0 ≤ n → zlen (ztake n l) = Z.min n (zlen l).
Proof. unfold zlen, ztake. rewrite length_take. lia. Qed.

Lemma znth_zdrop {A} (l : list A) n i :
  0 ≤ n → 0 ≤ i → znth (zdrop n l) i = znth l (n + i).
Proof.
  unfold znth, zdrop. intros. destruct (Z.ltb_spec i 0), (Z.ltb_spec (n + i) 0); try lia.
  rewrite lookup_drop. f_equal. lia.
Qed.

Lemma zlen_zdrop {A} (l : list A) n : 0 ≤ n → zlen (zdrop n l) = Z.max 0 (zlen l - n).
Proof. unfold zlen, zdrop. rewrite length_drop. lia. Qed.

Lemma ztake_all {A} (l : list A) n : zlen l ≤ n → ztake n l = l.
Proof. unfold zlen, ztake. intros. apply take_ge. lia. Qed.

Lemma elem_of_vec_dedup {A} `{EqDecision A} (l : list A) x : x ∈ vec_dedup l ↔ x ∈ l.
Proof.
  induction l as [|a [|b l] IH]; [done..|].
  change (vec_dedup (a :: b :: l)) with
    (if decide (a = b) then vec_dedup (b :: l) else a :: vec_dedup (b :: l)).
  case_decide; subst; set_solver.
Qed.

(** ** Ordered keys and B-tree maps

    [BTreeMap] and [BTreeSet] are [gmap] and [gset]; what the code observes
    beyond their extension is the ascending iteration order. *)

Class Compare (K : Type) := cmp : K → K → comparison.

Class CompareLaws (K : Type) `{Compare K} : Prop := {
  cmp_eq : ∀ x y : K, cmp x y = Eq ↔ x = y;
  cmp_antisym : ∀ x y : K, cmp y x = CompOpp (cmp x y);
  cmp_lt_trans : ∀ x y z : K, cmp x y = Lt → cmp y z = Lt → cmp x z = Lt
}.

Definition cmp_le {K} `{Compare K} (x y : K) : Prop := cmp x y ≠ Gt.
Definition cmp_lt {K} `{Compare K} (x y : K) : Prop := cmp x y = Lt.

#[export] Instance cmp_le_dec {K} `{Compare K} (x y : K) : Decision (cmp_le x y).
Proof. unfold cmp_le. solve_decision. Defined.
#[export] Instance cmp_lt_dec {K} `{Compare K} (x y : K) : Decision (cmp_lt x y).
Proof. unfold cmp_lt. solve_decision. Defined.

#[export] Instance compare_Z : Compare Z := Z.compare.

Fixpoint list_cmp {K} `{Compare K} (l k : list K) : comparison :=
  match l, k with
  | [], [] => Eq
  | [], _ :: _ => Lt
  | _ :: _, [] => Gt
  | x :: l, y :: k => match cmp x y with Eq => list_cmp l k | c => c end
  end.
#[export] Instance compare_list {K} `{Compare K} : Compare (list K) := list_cmp.

#[export] Instance compare_prod {A B} `{Compare A, Compare B} : Compare (A * B) := λ p q,
  match cmp p.1 q.1 with Eq => cmp p.2 q.2 | c => c end.

#[export] Instance compare_laws_Z : CompareLaws Z.
Proof.
  split; unfold cmp, compare_Z.
  - apply Z.compare_eq_iff.
  - intros. apply Z.compare_antisym.
  - intros x y z. rewrite !Z.compare_lt_iff. lia.
Qed.

Section CompareFacts.
Context {K} `{CompareLaws K}.

Lemma cmp_refl (x : K) : cmp x x = Eq.
Proof. by apply cmp_eq. Qed.

Lemma cmp_gt_lt (x y : K) : cmp x y = Gt ↔ cmp y x = Lt.
Proof. rewrite (cmp_antisym x y). destruct (cmp x y); naive_solver. Qed.

Lemma cmp_le_lt_or_eq (x y : K) : cmp_le x y ↔ cmp_lt x y ∨ x = y.
Proof.
  unfold cmp_le, cmp_lt. rewrite <-cmp_eq. destruct (cmp x y); naive_solver.
Qed.

#[export] Instance cmp_lt_transitive : Transitive (cmp_lt (K:=K)).
Proof. intros x y z. apply cmp_lt_trans. Qed.

#[export] Instance cmp_le_transitive : Transitive (cmp_le (K:=K)).
Proof.
  intros x y z. rewrite !cmp_le_lt_or_eq.
  intros [?| ->] [?| ->]; auto. left. by etrans.
Qed.

#[export] Instance cmp_le_total : Total (cmp_le (K:=K)).
Proof.
  intros x y. unfold cmp_le. rewrite (cmp_antisym x y). destruct (cmp x y); naive_solver.
Qed.

#[export] Instance cmp_le_antisymm : AntiSymm eq (cmp_le (K:=K)).
Proof.
  intros x y Hxy Hyx. apply cmp_eq. unfold cmp_le in *.
  rewrite (cmp_antisym x y) in Hyx. by destruct (cmp x y).
Qed.

Lemma cmp_lt_irrefl (x : K) : ¬ cmp_lt x x.
Proof. unfold cmp_lt. by rewrite cmp_refl. Qed.
End CompareFacts.

#[export] Instance compare_laws_list {K} `{CompareLaws K} : CompareLaws (list K).
Proof.
  split; unfold cmp, compare_list.
  - induction x as [|a x IH]; intros [|b y]; cbn; try naive_solver.
    destruct (cmp a b) eqn:E.
    + apply cmp_eq in E as ->. rewrite IH. naive_solver.
    + split; [done|]. intros [= -> ->]. by rewrite cmp_refl in E.
    + split; [done|]. intros [= -> ->]. by rewrite cmp_refl in E.
  - induction x as [|a x IH]; intros [|b y]; cbn; try done.
    rewrite (cmp_antisym a b). destruct (cmp a b) eqn:E; cbn; auto.
  - induction x as [|a x IH]; intros [|b y] [|c z]; cbn; try done.
    destruct (cmp a b) eqn:E1; try done; destruct (cmp b c) eqn:E2; try done; intros H1 H2.
    + apply cmp_eq in E1 as ->, E2 as ->. rewrite cmp_refl. eauto.
    + apply cmp_eq in E1 as ->. by rewrite E2.
    + apply cmp_eq in E2 as ->. by rewrite E1.
    + by rewrite (cmp_lt_trans _ _ _ E1 E2).
Qed.

#[export] Instance compare_laws_prod {A B} `{CompareLaws A, CompareLaws B} :
  CompareLaws (A * B).
Proof.
  split; unfold cmp, compare_prod.
  - intros [a b] [c d]; cbn. destruct (cmp a c) eqn:E.
    + apply cmp_eq in E as ->. rewrite cmp_eq. naive_solver.
    + split; [done|]. intros [= -> ->]. by rewrite cmp_refl in E.
    + split; [done|]. intros [= -> ->]. by rewrite cmp_refl in E.
  - intros [a b] [c d]; cbn. rewrite (cmp_antisym a c).
    destruct (cmp a c); cbn; [apply cmp_antisym|done..].
  - intros [a b] [c d] [e f]; cbn.
    destruct (cmp a c) eqn:E1; try done; destruct (cmp c e) eqn:E2; try done; intros H3 H4.
    + apply cmp_eq in E1 as ->, E2 as ->. rewrite cmp_refl. by eapply cmp_lt_trans.
    + apply cmp_eq in E1 as ->. by rewrite E2.
    + apply cmp_eq in E2 as ->. by rewrite E1.
    + by rewrite (cmp_lt_trans _ _ _ E1 E2).
Qed.

(** Ascending iteration over a [BTreeSet] and a [BTreeMap]. *)
Definition btree_set_iter {K} `{Countable K, Compare K} (s : gset K) : list K :=
  merge_sort cmp_le (elements s).

Definition btree_map_iter {K V} `{Countable K, Compare K} (m : gmap K V) : list (K * V) :=
  merge_sort (λ p q, cmp_le p.1 q.1) (map_to_list m).

Section BTreeFacts.
Context {K} `{Countable K, CompareLaws K}.

Lemma elem_of_btree_set_iter (s : gset K) x : x ∈ btree_set_iter s ↔ x ∈ s.
Proof.
  unfold btree_set_iter. by rewrite merge_sort_Permutation, elem_of_elements.
Qed.

Lemma NoDup_btree_set_iter (s : gset K) : NoDup (btree_set_iter s).
Proof. unfold btree_set_iter. rewrite merge_sort_Permutation. apply NoDup_elements. Qed.

Lemma elem_of_btree_map_iter {V} (m : gmap K V) k v :
  (k, v) ∈ btree_map_iter m ↔ m !! k = Some v.
Proof.
  unfold btree_map_iter. by rewrite merge_sort_Permutation, elem_of_map_to_list.
Qed.

Lemma strongly_sorted_strict {A} (f : A → K) (l : list A) :
  NoDup (f <$> l) → StronglySorted (λ p q, cmp_le (f p) (f q)) l →
  StronglySorted (λ p q, cmp_lt (f p) (f q)) l.
Proof.
  intros Hnd Hs. induction Hs as [|x l Hs IH Hx]; constructor.
  - apply IH. by apply NoDup_cons in Hnd as [_ ?].
  - apply NoDup_cons in Hnd as [Hnin _]. rewrite Forall_forall in Hx |- *.
    intros y Hy. pose proof (Hx y Hy) as Hle.
    apply cmp_le_lt_or_eq in Hle as [?|Heq]; [done|].
    destruct Hnin. rewrite Heq. by apply list_elem_of_fmap_2.
Qed.

(** The iteration is strictly ascending in the key. *)
Lemma btree_map_iter_sorted {V} (m : gmap K V) :
  StronglySorted (λ p q, cmp_lt p.1 q.1) (btree_map_iter m).
Proof.
  apply (strongly_sorted_strict fst).
  - unfold btree_map_iter.
    rewrite (fmap_Permutation fst _ _ (merge_sort_Permutation _ _)).
    apply NoDup_fst_map_to_list.
  - unfold btree_map_iter. apply StronglySorted_merge_sort.
    + intros [a ?] [b ?] [c ?]; cbn. apply cmp_le_transitive.
    + intros [a ?] [b ?]; cbn. apply cmp_le_total.
Qed.

End BTreeFacts.

(** ** Bytes

    A byte is a [Z] in [0 .. 255]; [to_le_bytes], [to_be_bytes] and their
    inverses work on lists of a fixed length. *)

Abbreviation bytes := (list Z).

Definition byte_ok (b : Z) : Prop := 0 ≤ b < 256.

Fixpoint to_le_bytes (n : nat) (z : Z) : bytes :=
  match n with
  | O => []
  | S n => z mod 256 :: to_le_bytes n (z / 256)
  end.

Fixpoint from_le_bytes (l : bytes) : Z :=
  match l with
  | [] => 0
  | b :: l => b + 256 * from_le_bytes l
  end.

Definition to_be_bytes (n : nat) (z : Z) : bytes := reverse (to_le_bytes n z).
Definition from_be_bytes (l : bytes) : Z := from_le_bytes (reverse l).

Lemma length_to_le_bytes n z : length (to_le_bytes n z) = n.
Proof. revert z. induction n; cbn; auto. Qed.

Lemma length_to_be_bytes n z : length (to_be_bytes n z) = n.
Proof. unfold to_be_bytes. by rewrite length_reverse, length_to_le_bytes. Qed.

Lemma from_to_le_bytes n z : from_le_bytes (to_le_bytes n z) = z mod 256 ^ Z.of_nat n.
Proof.
  revert z. induction n as [|n IH]; intros z; cbn [to_le_bytes from_le_bytes].
  - by rewrite Z.mod_1_r.
  - rewrite IH, Nat2Z.inj_succ, Z.pow_succ_r by lia.
    rewrite Z.rem_mul_r by lia. lia.
Qed.

Lemma from_to_be_bytes n z : from_be_bytes (to_be_bytes n z) = z mod 256 ^ Z.of_nat n.
Proof. unfold from_be_bytes, to_be_bytes. by rewrite reverse_involutive, from_to_le_bytes. Qed.

Lemma to_le_bytes_ok n z : Forall byte_ok (to_le_bytes n z).
Proof.
  revert z. induction n; intros z; cbn; constructor; auto.
  apply Z.mod_pos_bound. lia.
Qed.

Lemma from_le_bytes_bound l : Forall byte_ok l → 0 ≤ from_le_bytes l < 256 ^ zlen l.
Proof.
  induction 1 as [|b l Hb Hl IH]; cbn [from_le_bytes]; [done|]. unfold byte_ok in Hb.
  rewrite zlen_cons, Z.pow_add_r by (pose proof (zlen_nonneg l); lia). lia.
Qed.

Lemma to_from_le_bytes l : Forall byte_ok l → to_le_bytes (length l) (from_le_bytes l) = l.
Proof.
  induction 1 as [|b l Hb Hl IH]; [done|]. cbn [length to_le_bytes from_le_bytes].
  unfold byte_ok in Hb. f_equal.
  - rewrite (Z.mul_comm 256), Z_mod_plus_full. by apply Z.mod_small.
  - transitivity (to_le_bytes (length l) (from_le_bytes l)); [f_equal|done].
    rewrite (Z.mul_comm 256), Z.div_add by lia. rewrite (Z.div_small b) by done. lia.
Qed.

Lemma to_be_bytes_ok n z : Forall byte_ok (to_be_bytes n z).
Proof. unfold to_be_bytes. apply Forall_reverse, to_le_bytes_ok. Qed.

Lemma to_be_bytes_succ n z : to_be_bytes (S n) z = to_be_bytes n (z / 256) ++ [z mod 256].
Proof. unfold to_be_bytes; cbn [to_le_bytes]. by rewrite reverse_cons. Qed.

(** Comparing after a common prefix, and after prefixes of equal length. *)
Lemma list_cmp_app_l {K} `{CompareLaws K} (p l k : list K) : list_cmp (p ++ l) (p ++ k) = list_cmp l k.
Proof. induction p as [|x p IH]; [done|]. cbn. by rewrite cmp_refl. Qed.

Lemma list_cmp_app {K} `{CompareLaws K} (p q l k : list K) :
  length p = length q →
  list_cmp (p ++ l) (q ++ k) = match list_cmp p q with Eq => list_cmp l k | c => c end.
Proof.
  revert q. induction p as [|x p IH]; intros [|y q] Hl; try done. cbn.
  destruct (cmp x y) eqn:E; [|done..]. apply IH. cbn in Hl. lia.
Qed.

(** Big-endian words of one width compare like the numbers. *)
Lemma list_cmp_to_be_bytes n x y :
  0 ≤ x < 256 ^ Z.of_nat n → 0 ≤ y < 256 ^ Z.of_nat n →
  list_cmp (to_be_bytes n x) (to_be_bytes n y) = Z.compare x y.
Proof.
  revert x y. induction n as [|n IH]; intros x y Hx Hy.
  { replace x with 0 by (cbn in *; lia). replace y with 0 by (cbn in *; lia). done. }
  rewrite Nat2Z.inj_succ, Z.pow_succ_r in Hx, Hy by lia. rewrite !to_be_bytes_succ.
  rewrite list_cmp_app by (by rewrite !length_to_be_bytes).
  rewrite IH by (split; [apply Z.div_pos; lia|apply Z.div_lt_upper_bound; lia]).
  pose proof (Z.div_mod x 256 ltac:(lia)). pose proof (Z.div_mod y 256 ltac:(lia)).
  pose proof (Z.mod_pos_bound x 256 ltac:(lia)). pose proof (Z.mod_pos_bound y 256 ltac:(lia)).
  destruct (Z.compare_spec (x / 256) (y / 256)) as [He|He|He]; cbn; unfold cmp, compare_Z.
  - destruct (Z.compare_spec (x mod 256) (y mod 256)); symmetry;
      [rewrite Z.compare_eq_iff|rewrite Z.compare_lt_iff|rewrite Z.compare_gt_iff]; lia.
  - symmetry. rewrite Z.compare_lt_iff. lia.
  - symmetry. rewrite Z.compare_gt_iff. lia.
Qed.

(** The digest function of the [sha2] crate, a parameter of the model. *)
Class Sha256 := sha256 : bytes → bytes.

(** ** Automation

    [aster_db] holds the facts that close the recurring side conditions. *)

Create HintDb aster_db.
#[export] Hint Resolve zlen_nonneg : aster_db.
#[export] Hint Resolve wrapping_add_ok : aster_db.
#[export] Hint Rewrite @zlen_app @zlen_cons : aster_db.

(** Turn boolean tests of the code into propositions. *)
Ltac bool_prop :=
  repeat match goal with
  | H : _ && _ = true |- _ => apply andb_true_iff in H as [? ?]
  | H : _ || _ = false |- _ => apply orb_false_iff in H as [? ?]
  | H : negb _ = true |- _ => apply negb_true_iff in H
  | H : negb _ = false |- _ => apply negb_false_iff in H
  | H : (_ <=? _) = true |- _ => apply Z.leb_le in H
  | H : (_ <=? _) = false |- _ => apply Z.leb_gt in H
  | H : (_ <? _) = true |- _ => apply Z.ltb_lt in H
  | H : (_ <? _) = false |- _ => apply Z.ltb_ge in H
  | H : (_ =? _) = true |- _ => apply Z.eqb_eq in H
  | H : (_ =? _) = false |- _ => apply Z.eqb_neq in H
  | H : bool_decide _ = true |- _ => apply bool_decide_eq_true in H
  | H : bool_decide _ = false |- _ => apply bool_decide_eq_false in H
  end.

(** ** Results of loops *)

Lemma mapM_result_Ok {E A B} (f : A → result E B) l k :
  mapM_result f l = Ok k ↔ Forall2 (λ a b, f a = Ok b) l k.
Proof.
  revert k. induction l as [|a l IH]; intros k; cbn [mapM_result].
  - split; [intros <-%Ok_inj; constructor|]. by inversion 1.
  - rewrite result_bind_Ok. setoid_rewrite result_bind_Ok. setoid_rewrite IH. split.
    + intros (b & Hb & k' & Hk' & <-%Ok_inj). by constructor.
    + inversion 1; subst. eauto.
Qed.

Lemma mapM_result_all {E A B} (f : A → result E B) l :
  (∀ a, a ∈ l → ∃ b, f a = Ok b) → ∃ k, mapM_result f l = Ok k.
Proof.
  induction l as [|a l IH]; intros Hf; cbn; [eauto|].
  destruct (Hf a ltac:(left)) as [b ->]. destruct IH as [k ->]; [|cbn; eauto]. intros b' Hb. apply Hf. by right.
Qed.

Lemma mapM_result_Err {E A B} (f : A → result E B) l err :
  mapM_result f l = Err err → ∃ a, a ∈ l ∧ f a = Err err.
Proof.
  induction l as [|a l IH]; cbn; [done|]. destruct (f a) as [b|err'] eqn:Hf; cbn.
  - destruct (mapM_result f l); [done|]. intros [= ->]. destruct IH as (x & ? & ?); [done|].
    exists x. split; [by right|done].
  - intros [= ->]. exists a. split; [left|done].
Qed.

Lemma find_app {A} (p : A → bool) l k :
  List.find p (l ++ k) = match List.find p l with Some x => Some x | None => List.find p k end.
Proof. induction l as [|x l IH]; cbn; [done|]. by destruct (p x). Qed.

(** ** Sorting

    [slice::sort_by], which is stable: an element goes in front of those it does
    not exceed. *)

Section SortBy.
Context {A : Type} (compare : A → A → comparison).

Fixpoint sort_insert (x : A) (l : list A) : list A :=
  match l with
  | [] => [x]
  | y :: l' => match compare x y with Gt => y :: sort_insert x l' | _ => x :: l end
  end.

Definition sort_by (l : list A) : list A := foldr sort_insert [] l.
End SortBy.

Section SortByFacts.
Context {A : Type} (compare : A → A → comparison).
Context (P : A → Prop).
Hypothesis compare_opp : ∀ a b, compare b a = CompOpp (compare a b).
Hypothesis compare_trans : ∀ a b c, P a → P b → P c → compare a b ≠ Gt → compare b c ≠ Gt → compare a c ≠ Gt.

Lemma sort_insert_perm x l : sort_insert compare x l ≡ₚ x :: l.
Proof.
  induction l as [|y l IH]; cbn; [done|]. destruct (compare x y); [done|done|]. rewrite IH. constructor.
Qed.

Lemma sort_by_perm l : sort_by compare l ≡ₚ l.
Proof. induction l as [|x l IH]; cbn; [done|]. rewrite sort_insert_perm. by rewrite IH. Qed.

Lemma sort_insert_sorted x l :
  P x → Forall P l → StronglySorted (λ a b, compare a b ≠ Gt) l →
  StronglySorted (λ a b, compare a b ≠ Gt) (sort_insert compare x l).
Proof.
  intros Hx Hl Hs. induction Hs as [|y l Hs IH Hy]; cbn; [repeat constructor|].
  inversion Hl as [|? ? Hpy Hpl]; subst.
  assert (compare x y ≠ Gt → StronglySorted (λ a b, compare a b ≠ Gt) (x :: y :: l)) as Hle.
  { intros Hxy. constructor; [by constructor|]. constructor; [done|]. rewrite Forall_forall in Hy, Hpl |- *.
    intros z Hz. eapply (compare_trans x y z); auto. }
  destruct (compare x y) eqn:Hc; [by apply Hle|by apply Hle|]. constructor; [by apply IH|].
  eapply (Permutation_Forall (symmetry (sort_insert_perm x l))). constructor; [|done].
  by rewrite compare_opp, Hc.
Qed.

Lemma sort_by_sorted l :
  Forall P l → StronglySorted (λ a b, compare a b ≠ Gt) (sort_by compare l).
Proof.
  induction 1 as [|x l Hx Hl IH]; cbn; [constructor|]. apply sort_insert_sorted; [done| |done].
  eapply Permutation_Forall; [symmetry; apply sort_by_perm|done].
Qed.
End SortByFacts.
