(* ===== verification/RaftTypes.v ===== *)
(** * Raft data model: [crates/aster-raft/src/types.rs]

    The voter configuration with its quorum predicate, the durable records,
    the wire messages, the inputs of the core and the ordered actions it
    returns.  The hash of a snapshot body is SHA-256 from the [sha2] crate,
    which is a parameter of the model. *)

From S2P Require Import Prelude.

Abbreviation NodeId := Z (only parsing).
Abbreviation CommandId := Z (only parsing).

(** ** Configuration *)

Inductive ConfigError : Type :=
| ConfigEmpty
| ConfigEmptyJointSide.

Record Configuration : Type := mkConfiguration {
  participants : gset NodeId;
  incoming : gset NodeId;
  outgoing : option (gset NodeId)
}.

#[export] Instance Configuration_eq_dec : EqDecision Configuration.
Proof. solve_decision. Defined.

Module Config.

Definition new (voters : list NodeId) : result ConfigError Configuration :=
  let voters : gset NodeId := list_to_set voters in
  if decide (voters = ∅) then Err ConfigEmpty
  else Ok {| participants := voters; incoming := voters; outgoing := None |}.

Definition joint (outgoing incoming : list NodeId) : result ConfigError Configuration :=
  let outgoing : gset NodeId := list_to_set outgoing in
  let incoming : gset NodeId := list_to_set incoming in
  if decide (outgoing = ∅ ∨ incoming = ∅) then Err ConfigEmptyJointSide
  else Ok {| participants := outgoing ∪ incoming;
             incoming := incoming;
             outgoing := Some outgoing |}.

Definition voters (self : Configuration) : gset NodeId := participants self.

Definition is_joint (self : Configuration) : bool :=
  match outgoing self with Some _ => true | None => false end.

Definition contains (self : Configuration) (id : NodeId) : bool :=
  bool_decide (id ∈ participants self).

Definition has_majority (members votes : gset NodeId) : bool :=
  Z.of_nat (size members) / 2 <? Z.of_nat (size (members ∩ votes)).

Definition quorum (self : Configuration) (votes : gset NodeId) : bool :=
  has_majority (incoming self) votes
  && match outgoing self with
     | None => true
     | Some outgoing => has_majority outgoing votes
     end.

Definition quorum_index (self : Configuration) (matched : NodeId → Z) : Z :=
  let matched : gmap NodeId Z :=
    list_to_map ((λ voter, (voter, matched voter)) <$> btree_set_iter (participants self)) in
  let indexes := vec_dedup (merge_sort Z.le ((btree_map_iter matched).*2)) in
  match List.find
          (λ index,
             let acknowledgements : gset NodeId :=
               list_to_set (filter (λ p, index ≤ p.2) (btree_map_iter matched)).*1 in
             quorum self acknowledgements)
          (reverse indexes) with
  | Some index => index
  | None => 0
  end.

End Config.

(** ** Durable records *)

Record HardState : Type := mkHardState {
  current_term : Z;
  voted_for : option NodeId;
  commit_index : Z
}.

Definition HardState_default : HardState :=
  {| current_term := 0; voted_for := None; commit_index := 0 |}.

Inductive EntryPayload : Type :=
| Noop
| Command (id : CommandId) (bytes : bytes).

Record LogEntry : Type := mkLogEntry {
  e_index : Z;
  e_term : Z;
  e_payload : EntryPayload
}.

Record SnapshotMetadata : Type := mkSnapshotMetadata {
  last_included_index : Z;
  last_included_term : Z;
  byte_len : Z;
  sm_sha256 : bytes;
  sm_configuration : Configuration
}.

Record PersistentSnapshot : Type := mkPersistentSnapshot {
  metadata : SnapshotMetadata;
  data : bytes
}.

#[export] Instance HardState_eq_dec : EqDecision HardState.
Proof. solve_decision. Defined.
#[export] Instance EntryPayload_eq_dec : EqDecision EntryPayload.
Proof. solve_decision. Defined.
#[export] Instance LogEntry_eq_dec : EqDecision LogEntry.
Proof. solve_decision. Defined.
#[export] Instance SnapshotMetadata_eq_dec : EqDecision SnapshotMetadata.
Proof. solve_decision. Defined.
#[export] Instance PersistentSnapshot_eq_dec : EqDecision PersistentSnapshot.
Proof. solve_decision. Defined.

Module Snapshot.
Section Snapshot.
Context `{Sha256}.

Definition new (last_included_index last_included_term : Z)
    (configuration : Configuration) (data : bytes) : PersistentSnapshot :=
  {| metadata := {| last_included_index := last_included_index;
                    last_included_term := last_included_term;
                    byte_len := zlen data;
                    sm_sha256 := sha256 data;
                    sm_configuration := configuration |};
     data := data |}.

Definition validate (self : PersistentSnapshot) : bool :=
  (byte_len (metadata self) =? zlen (data self))
  && bool_decide (sm_sha256 (metadata self) = sha256 (data self)).

End Snapshot.
End Snapshot.

Record StableState : Type := mkStableState {
  hard_state : HardState;
  snapshot : option PersistentSnapshot;
  entries : list LogEntry;
  applied_index : Z
}.

Definition StableState_default : StableState :=
  {| hard_state := HardState_default; snapshot := None; entries := []; applied_index := 0 |}.

#[export] Instance StableState_eq_dec : EqDecision StableState.
Proof. solve_decision. Defined.

Inductive RecoveryError : Type :=
| NotVoter (id : NodeId)
| InvalidSnapshot (reason : string)
| InvalidLog (reason : string)
| InvalidIndexes (reason : string).

(** ** Roles, clocks and messages *)

Inductive Role : Type := Follower | PreCandidate | Candidate | Leader.

#[export] Instance Role_eq_dec : EqDecision Role.
Proof. solve_decision. Defined.

Inductive Tick : Type := Election | Heartbeat | CheckQuorum.

Inductive Message : Type :=
| PreVoteRequest (prospective_term : Z) (candidate_id : NodeId)
    (last_log_index last_log_term : Z)
| PreVoteResponse (responder_term prospective_term : Z) (granted : bool)
| RequestVote (term : Z) (candidate_id : NodeId) (last_log_index last_log_term : Z)
| RequestVoteResponse (term : Z) (granted : bool)
| AppendEntries (term : Z) (leader_id : NodeId) (prev_log_index prev_log_term : Z)
    (entries : list LogEntry) (leader_commit : Z) (read_context : option bytes)
| AppendEntriesResponse (term : Z) (success : bool) (match_index conflict_index : Z)
    (conflict_term : option Z) (read_context : option bytes)
| InstallSnapshot (term : Z) (leader_id : NodeId) (metadata : SnapshotMetadata)
    (offset : Z) (data : bytes) (done : bool)
| InstallSnapshotResponse (term : Z) (accepted : bool) (next_offset : Z) (done : bool)
    (match_index : Z).

#[export] Instance Message_eq_dec : EqDecision Message.
Proof. solve_decision. Defined.

Inductive Input : Type :=
| InTick (tick : Tick)
| InMessage (from : NodeId) (message : Message)
| InPropose (id : CommandId) (command : bytes)
| InReadIndex (context : bytes)
| InSnapshotBuilt (snapshot : PersistentSnapshot).

(** ** Actions *)

Inductive StorageMutation : Type :=
| MHardState (hs : HardState)
| MAppend (entries : list LogEntry)
| MTruncateAndAppend (from : Z) (entries : list LogEntry)
| MCompactSnapshot (snapshot : PersistentSnapshot) (retained_entries : list LogEntry)
| MInstallSnapshot (snapshot : PersistentSnapshot) (retained_entries : list LogEntry)
    (hs : HardState).

Inductive ReadError : Type :=
| ReadNotLeader
| ReadLeaderNotReady
| ReadInvalidContext
| ReadLeadershipLost.

Inductive Action : Type :=
| Persist (mutation : StorageMutation)
| Send (to : NodeId) (message : Message)
| ResetElectionTimer
| ResetHeartbeatTimer
| RoleChanged (role : Role) (term : Z)
| Apply (entry : LogEntry)
| ProposalCommitted (id : CommandId) (index : Z)
| ProposalRejected (id : CommandId) (leader_hint : option NodeId)
| ReadReady (context : bytes) (index : Z)
| ReadRejected (context : bytes) (error : ReadError)
| SnapshotRejected (reason : string)
| Fatal (reason : string).

#[export] Instance StorageMutation_eq_dec : EqDecision StorageMutation.
Proof. solve_decision. Defined.
#[export] Instance ReadError_eq_dec : EqDecision ReadError.
Proof. solve_decision. Defined.
#[export] Instance Action_eq_dec : EqDecision Action.
Proof. solve_decision. Defined.

(** ** Quorums: the arithmetic of [Configuration]

    Majorities intersect, joint quorums are quorums of both sides, and
    [quorum_index] is the greatest index a quorum has acknowledged. *)

Import Config.

(** What [Config.new] and [Config.joint] establish. *)
Record config_wf (c : Configuration) : Prop := {
  wf_participants : participants c = incoming c ∪ default ∅ (outgoing c);
  wf_incoming : incoming c ≠ ∅;
  wf_outgoing : outgoing c ≠ Some ∅
}.

Lemma new_wf vs c : new vs = Ok c → config_wf c ∧ participants c = list_to_set vs.
Proof.
  unfold new. case_decide; [done|]. intros [= <-]. split; [|done].
  split; cbn; [set_solver|done|done].
Qed.

Lemma joint_wf os ins c :
  joint os ins = Ok c →
  config_wf c ∧ incoming c = list_to_set ins ∧ outgoing c = Some (list_to_set os).
Proof.
  unfold joint. case_decide as Hd; [done|]. intros [= <-]. split; [|done].
  split; cbn; [set_solver|naive_solver..].
Qed.

Section Majority.
Implicit Types A v w : gset NodeId.

Lemma has_majority_alt A v :
  has_majority A v = true ↔ (size A < 2 * size (A ∩ v))%nat.
Proof.
  unfold has_majority. rewrite Z.ltb_lt.
  pose proof (Z.div_mod (Z.of_nat (size A)) 2). pose proof (Z.mod_pos_bound (Z.of_nat (size A)) 2).
  split; lia.
Qed.

Lemma has_majority_mono A v w : A ∩ v ⊆ w → has_majority A v = true → has_majority A w = true.
Proof.
  rewrite !has_majority_alt. intros Hsub Hv.
  assert (size (A ∩ v) ≤ size (A ∩ w))%nat by (apply subseteq_size; set_solver). lia.
Qed.

(** Two majorities of one set share a member. *)
Lemma majority_intersection A v w :
  has_majority A v = true → has_majority A w = true → ∃ n, n ∈ A ∧ n ∈ v ∧ n ∈ w.
Proof.
  rewrite !has_majority_alt. intros Hv Hw.
  destruct (decide (A ∩ v ∩ (A ∩ w) = ∅)) as [Hd|Hne].
  - assert (size (A ∩ v ∪ A ∩ w) ≤ size A)%nat by (apply subseteq_size; set_solver).
    rewrite size_union in H by set_solver. lia.
  - apply set_choose_L in Hne as [n Hn]. exists n. set_solver.
Qed.

Lemma quorum_mono c v w :
  participants c ∩ v ⊆ w → config_wf c → quorum c v = true → quorum c w = true.
Proof.
  intros Hsub [Hp _ _]. unfold quorum. rewrite !andb_true_iff. intros [Hi Ho]. split.
  - eapply has_majority_mono; [|done]. set_solver.
  - destruct (outgoing c); [|done]. eapply has_majority_mono; [|done]. set_solver.
Qed.

Lemma quorum_restrict c v : config_wf c → quorum c v = quorum c (participants c ∩ v).
Proof.
  intros Hwf. apply eq_true_iff_eq. split; apply quorum_mono; set_solver.
Qed.

Lemma quorum_meet c v w :
  config_wf c → quorum c v = true → quorum c w = true → ∃ n, n ∈ participants c ∧ n ∈ v ∧ n ∈ w.
Proof.
  intros [Hp _ _] [Hv _]%andb_true_iff [Hw _]%andb_true_iff.
  destruct (majority_intersection _ _ _ Hv Hw) as (n & ? & ? & ?). exists n. set_solver.
Qed.

Lemma quorum_nonempty c v : quorum c v = true → participants c ∩ v = ∅ → config_wf c → False.
Proof. intros Hq He Hwf. destruct (quorum_meet c v v) as (n & ? & ? & ?); set_solver. Qed.
End Majority.

(** ** [quorum_index] *)

Section QuorumIndex.
Context (c : Configuration) (m : NodeId → Z).

(** The voters whose matched index reaches [i]. *)
Definition acked (i : Z) : gset NodeId := filter (λ v, i ≤ m v) (participants c).

Definition matched_map : gmap NodeId Z :=
  list_to_map ((λ voter, (voter, m voter)) <$> btree_set_iter (participants c)).

Lemma lookup_matched_map v x :
  matched_map !! v = Some x ↔ v ∈ participants c ∧ x = m v.
Proof.
  unfold matched_map. rewrite <-elem_of_list_to_map.
  - rewrite list_elem_of_fmap. setoid_rewrite elem_of_btree_set_iter. naive_solver.
  - rewrite <-list_fmap_compose, (list_fmap_ext _ id), list_fmap_id by done.
    apply NoDup_btree_set_iter.
Qed.

Lemma acknowledgements_acked i :
  list_to_set (filter (λ p, i ≤ p.2) (btree_map_iter matched_map)).*1 =@{gset NodeId} acked i.
Proof.
  apply set_eq. intros v. rewrite elem_of_list_to_set, list_elem_of_fmap.
  unfold acked. rewrite elem_of_filter. split.
  - intros ([v' x] & -> & Hin). apply list_elem_of_filter in Hin as [? Hin].
    rewrite elem_of_btree_map_iter, lookup_matched_map in Hin. naive_solver.
  - intros [? ?]. exists (v, m v). split; [done|]. apply list_elem_of_filter. split; [done|].
    by rewrite elem_of_btree_map_iter, lookup_matched_map.
Qed.

Definition candidate_indexes : list Z :=
  vec_dedup (merge_sort Z.le ((btree_map_iter matched_map).*2)).

Lemma elem_of_candidate_indexes i :
  i ∈ candidate_indexes ↔ ∃ v, v ∈ participants c ∧ i = m v.
Proof.
  unfold candidate_indexes. rewrite elem_of_vec_dedup, merge_sort_Permutation, list_elem_of_fmap.
  split.
  - intros ([v x] & -> & Hin). rewrite elem_of_btree_map_iter, lookup_matched_map in Hin.
    naive_solver.
  - intros (v & ? & ->). exists (v, m v).
    by rewrite elem_of_btree_map_iter, lookup_matched_map.
Qed.

Lemma vec_dedup_sorted (l : list Z) : StronglySorted Z.le l → StronglySorted Z.le (vec_dedup l).
Proof.
  induction l as [|a [|b l] IH]; intros Hs; [done..|].
  change (vec_dedup (a :: b :: l)) with
    (if decide (a = b) then vec_dedup (b :: l) else a :: vec_dedup (b :: l)).
  apply StronglySorted_inv in Hs as [Hs Ha]. case_decide; [by apply IH|].
  constructor; [by apply IH|]. rewrite Forall_forall in Ha |- *.
  intros x Hx. apply Ha. by rewrite elem_of_vec_dedup in Hx.
Qed.

Lemma candidate_indexes_sorted : StronglySorted Z.le candidate_indexes.
Proof. apply vec_dedup_sorted, StronglySorted_merge_sort; apply _. Qed.

(** Scanning an ascending list from its end finds the greatest hit. *)
Lemma find_reverse_sorted (P : Z → bool) l :
  StronglySorted Z.le l →
  match List.find P (reverse l) with
  | Some x => x ∈ l ∧ P x = true ∧ ∀ y, y ∈ l → P y = true → y ≤ x
  | None => ∀ y, y ∈ l → P y = false
  end.
Proof.
  induction l as [|a l IH] using rev_ind; intros Hs; [set_solver|].
  rewrite reverse_snoc. cbn. apply StronglySorted_app in Hs as (Ha & Hs & _).
  specialize (IH Hs). destruct (P a) eqn:EP.
  - split; [set_solver|]. split; [done|]. intros y [Hy|Hy]%elem_of_app _.
    + apply Ha; [done|]. by apply list_elem_of_singleton.
    + apply list_elem_of_singleton in Hy as ->. lia.
  - destruct (List.find P (reverse l)) as [x|].
    + destruct IH as (? & ? & Hmax). split; [set_solver|]. split; [done|].
      intros y [Hy|Hy]%elem_of_app HP; [by apply Hmax|]. apply list_elem_of_singleton in Hy as ->. congruence.
    + intros y [Hy|Hy]%elem_of_app; [by apply IH|]. by apply list_elem_of_singleton in Hy as ->.
Qed.

(** Among the voters that reach [i], one with the least matched index. *)
Lemma acked_least i :
  acked i ≠ ∅ → ∃ v, v ∈ acked i ∧ acked (m v) = acked i.
Proof.
  intros Hne. set (R := λ a b : NodeId, m a ≤ m b).
  assert (Transitive R) by (intros x y z; unfold R; lia).
  assert (∀ x y, Decision (R x y)) by (intros; unfold R; apply _).
  destruct (minimal_exists_elem_of_L R (acked i) Hne) as (v & Hv & Hmin). subst R; cbn in Hmin.
  exists v. split; [done|]. apply set_eq. intros w. unfold acked in *.
  rewrite !elem_of_filter in *. destruct Hv as [Hiv Hv].
  split; intros [Hw Hin]; (split; [|done]); [lia|].
  destruct (decide (m v ≤ m w)); [done|]. assert (m v ≤ m w); [|lia].
  apply (Hmin w); [by apply elem_of_filter|lia].
Qed.

Lemma quorum_index_acked i :
  config_wf c → 0 < i → quorum c (acked i) = true ↔ i ≤ quorum_index c m.
Proof.
  intros Hwf Hi. unfold quorum_index. fold matched_map candidate_indexes.
  pose proof (find_reverse_sorted
    (λ index, quorum c (list_to_set (filter (λ p, index ≤ p.2) (btree_map_iter matched_map)).*1))
    candidate_indexes candidate_indexes_sorted) as Hfind.
  assert (Hcand : quorum c (acked i) = true →
            ∃ j, j ∈ candidate_indexes ∧ i ≤ j ∧ quorum c (acked j) = true).
  { intros Hq. destruct (acked_least i) as (v & Hv & Heq).
    - intros He. eapply quorum_nonempty; [done| |done]. rewrite He. set_solver.
    - exists (m v). rewrite Heq. unfold acked in Hv. rewrite elem_of_filter in Hv.
      split; [apply elem_of_candidate_indexes|]; naive_solver. }
  destruct (List.find _ _) as [q|].
  - destruct Hfind as (Hq & HPq & Hmax). rewrite acknowledgements_acked in HPq. split.
    + intros (j & Hj & ? & HPj)%Hcand. etrans; [done|]. apply Hmax; [done|].
      by rewrite acknowledgements_acked.
    + intros Hle. eapply quorum_mono; [|done..]. unfold acked. set_solver by lia.
  - split; [|lia]. intros (j & Hj & _ & HPj)%Hcand. apply Hfind in Hj.
    rewrite acknowledgements_acked in Hj. congruence.
Qed.
End QuorumIndex.

(** ** Properties *)

(** Any two quorums of one configuration, fixed or joint, share a voter. *)
Theorem quorum_intersection c v w :
  config_wf c → quorum c v = true → quorum c w = true →
  ∃ n, n ∈ participants c ∧ n ∈ v ∧ n ∈ w.
Proof. apply quorum_meet. Qed.

(** A quorum of a joint configuration meets every quorum of the
    outgoing and every quorum of the incoming configuration. *)
Theorem joint_quorum_overlaps os ins cold cnew cjoint v w :
  new os = Ok cold → new ins = Ok cnew → joint os ins = Ok cjoint →
  quorum cjoint v = true → quorum cold w = true ∨ quorum cnew w = true →
  ∃ n, n ∈ participants cjoint ∧ n ∈ v ∧ n ∈ w.
Proof.
  unfold new, joint. repeat case_decide; try done. intros [= <-] [= <-] [= <-].
  unfold quorum; cbn [incoming outgoing participants]. rewrite !andb_true_iff. intros [Hi Ho] Hw.
  destruct Hw as [[Hw _]|[Hw _]].
  - destruct (majority_intersection _ _ _ Ho Hw) as (n & ? & ? & ?).
    exists n. rewrite elem_of_union. tauto.
  - destruct (majority_intersection _ _ _ Hi Hw) as (n & ? & ? & ?).
    exists n. rewrite elem_of_union. tauto.
Qed.

(** [quorum_index] is the greatest index that a quorum of the voters has
    matched: a positive index is acknowledged by a quorum exactly when it is
    at most the returned one. *)
Theorem quorum_index_spec c m i :
  config_wf c → 0 < i →
  quorum c (filter (λ v, i ≤ m v) (participants c)) = true ↔ i ≤ quorum_index c m.
Proof. apply quorum_index_acked. Qed.
