(* ===== verification/RaftLogs.v ===== *)
(** * The in-memory Raft log: [crates/aster-raft/src/log.rs]

    A log is a compacted base [(base_index, base_term)] and the entries after
    it.  Module [RaftLog] translates the file function by function; the
    lemmas below it are the log facts the node proofs use. *)

From S2P Require Import Prelude RaftTypes.

Module RaftLog.

Record t : Type := mk {
  base_index : Z;
  base_term : Z;
  log_entries : list LogEntry
}.

Definition new (snapshot : option PersistentSnapshot) (entries : list LogEntry) : t :=
  let '(base_index, base_term) :=
    match snapshot with
    | None => (0, 0)
    | Some s => (last_included_index (metadata s), last_included_term (metadata s))
    end in
  {| base_index := base_index; base_term := base_term; log_entries := entries |}.

Definition last_index (self : t) : Z :=
  match last (log_entries self) with
  | None => base_index self
  | Some entry => e_index entry
  end.

Definition last_term (self : t) : Z :=
  match last (log_entries self) with
  | None => base_term self
  | Some entry => e_term entry
  end.

Definition term (self : t) (index : Z) : option Z :=
  if index =? base_index self then Some (base_term self)
  else if index <? base_index self then None
  else offset ← usize_try_from (index - base_index self - 1);
       e_term <$> znth (log_entries self) offset.

Definition entry (self : t) (index : Z) : option LogEntry :=
  if index <=? base_index self then None
  else offset ← usize_try_from (index - base_index self - 1);
       znth (log_entries self) offset.

Definition entries_from (self : t) (index limit : Z) : list LogEntry :=
  if index <=? base_index self then []
  else match usize_try_from (index - base_index self - 1) with
       | None => []
       | Some offset => ztake limit (default [] (slice_from (log_entries self) offset))
       end.

Definition all_entries (self : t) : list LogEntry := log_entries self.

Definition append (self : t) (entries : list LogEntry) : t :=
  {| base_index := base_index self; base_term := base_term self;
     log_entries := log_entries self ++ entries |}.

Definition truncate_and_append (self : t) (from : Z) (entries : list LogEntry) : t :=
  let keep := default usize_max
                (usize_try_from (saturating_sub from (base_index self + 1)%u64)) in
  {| base_index := base_index self; base_term := base_term self;
     log_entries := ztake keep (log_entries self) ++ entries |}.

(** [while cursor > base_index && term(cursor - 1) == Some(term)].  The loop
    stops at the base, so [index - base_index] turns suffice. *)
Fixpoint first_index_loop (fuel : nat) (self : t) (cursor tm : Z) : Z :=
  match fuel with
  | O => cursor
  | S fuel =>
      if (base_index self <? cursor) && bool_decide (term self (cursor - 1) = Some tm)
      then first_index_loop fuel self (cursor - 1) tm
      else cursor
  end.

Definition first_index_of_term (self : t) (index tm : Z) : Z :=
  first_index_loop (Z.to_nat (index - base_index self)) self index tm.

Definition last_index_of_term (self : t) (tm : Z) : option Z :=
  match List.find (λ entry, e_term entry =? tm) (reverse (log_entries self)) with
  | Some entry => Some (e_index entry)
  | None => if base_term self =? tm then Some (base_index self) else None
  end.

Definition compact (self : t) (index tm : Z) (retain_suffix : bool) : t :=
  let entries := if retain_suffix then entries_from self (index + 1)%u64 usize_max else [] in
  {| base_index := index; base_term := tm; log_entries := entries |}.

End RaftLog.
Import RaftLog.

(** ** Contiguous, term-monotone sequences of entries *)

Fixpoint seq_from (idx tm : Z) (es : list LogEntry) : Prop :=
  match es with
  | [] => True
  | e :: es => e_index e = idx ∧ tm ≤ e_term e ∧ seq_from (idx + 1) (e_term e) es
  end.

Definition end_term (tm : Z) (es : list LogEntry) : Z :=
  match last es with None => tm | Some e => e_term e end.

Record log_wf (l : t) : Prop := {
  wf_base : 0 ≤ base_index l;
  wf_last : base_index l + zlen (log_entries l) ≤ u64_max;
  wf_seq : seq_from (base_index l + 1) (base_term l) (log_entries l)
}.

Lemma end_term_cons tm e es : end_term tm (e :: es) = end_term (e_term e) es.
Proof. unfold end_term. rewrite last_cons. by destruct (last es). Qed.

Lemma seq_from_app i tm a b :
  seq_from i tm (a ++ b) ↔ seq_from i tm a ∧ seq_from (i + zlen a) (end_term tm a) b.
Proof.
  revert i tm. induction a as [|e a IH]; intros i tm.
  - cbn. unfold end_term; cbn. rewrite Z.add_0_r. tauto.
  - cbn [app seq_from]. rewrite IH, end_term_cons, zlen_cons.
    replace (i + 1 + zlen a) with (i + (1 + zlen a)) by lia. tauto.
Qed.

Lemma seq_from_znth i tm es k e :
  seq_from i tm es → znth es k = Some e → e_index e = i + k ∧ tm ≤ e_term e.
Proof.
  rewrite znth_Some. intros Hs [Hk He]. remember (Z.to_nat k) as n eqn:En.
  assert (k = Z.of_nat n) as -> by lia. clear En Hk.
  revert i tm n Hs He. induction es as [|e' es IH]; intros i tm n Hs He; [done|].
  destruct Hs as (? & ? & Hs). destruct n as [|n]; cbn in He.
  - simplify_eq. lia.
  - destruct (IH _ _ _ Hs He). lia.
Qed.

Lemma seq_from_mono i tm es j k e e' :
  seq_from i tm es → znth es j = Some e → znth es k = Some e' → j ≤ k → e_term e ≤ e_term e'.
Proof.
  intros Hs Hj Hk Hle. destruct (decide (j = k)) as [->|Hne]; [naive_solver lia|].
  pose proof (znth_lt _ _ _ Hj). pose proof (znth_lt _ _ _ Hk).
  rewrite <-(take_drop (Z.to_nat j) es) in Hs. apply seq_from_app in Hs as [_ Hs].
  rewrite znth_Some in Hj. destruct Hj as [_ Hj].
  assert (drop (Z.to_nat j) es = e :: drop (S (Z.to_nat j)) es) as Hd by by apply drop_S.
  rewrite Hd in Hs. destruct Hs as (_ & _ & Hs).
  eapply seq_from_znth in Hs as [_ ?]; [done|].
  rewrite znth_Some in Hk |- *. destruct Hk as [_ Hk].
  instantiate (1 := k - j - 1). split; [lia|]. rewrite lookup_drop, <-Hk. f_equal. lia.
Qed.

Lemma last_znth {A} (l : list A) : last l = znth l (zlen l - 1).
Proof.
  destruct l as [|x l]; [done|]. rewrite last_lookup, zlen_cons. cbn [pred length].
  unfold znth, zlen. destruct (Z.ltb_spec (1 + Z.of_nat (length l) - 1) 0); [lia|].
  f_equal. lia.
Qed.

Lemma seq_from_last i tm es e :
  seq_from i tm es → last es = Some e → e_index e = i + zlen es - 1.
Proof. rewrite last_znth. intros Hs Hl. destruct (seq_from_znth _ _ _ _ _ Hs Hl). lia. Qed.

Lemma end_term_ge i tm es : seq_from i tm es → tm ≤ end_term tm es.
Proof.
  unfold end_term. rewrite last_znth. intros Hs. destruct (znth es _) eqn:E; [|done].
  by destruct (seq_from_znth _ _ _ _ _ Hs E).
Qed.

Section LogFacts.
Implicit Types l : t.

Lemma last_index_wf l : log_wf l → last_index l = base_index l + zlen (log_entries l).
Proof.
  intros [_ _ Hs]. unfold last_index. destruct (last _) eqn:E.
  - rewrite (seq_from_last _ _ _ _ Hs E). lia.
  - apply last_None in E. rewrite E. unfold zlen; cbn. lia.
Qed.

Lemma last_index_bounds l : log_wf l → base_index l ≤ last_index l ≤ u64_max.
Proof.
  intros Hwf. rewrite last_index_wf by done. destruct Hwf.
  pose proof (zlen_nonneg (log_entries l)). lia.
Qed.

Lemma entry_znth l i :
  log_wf l → base_index l < i → entry l i = znth (log_entries l) (i - base_index l - 1).
Proof.
  intros Hwf Hi. unfold entry. destruct (Z.leb_spec i (base_index l)); [lia|].
  destruct Hwf. unfold usize_try_from, usize_max. destruct (Z.leb_spec (i - base_index l - 1) u64_max); [done|].
  cbn. symmetry. apply znth_None. ulia.
Qed.

Lemma term_znth l i :
  log_wf l → base_index l < i →
  term l i = e_term <$> znth (log_entries l) (i - base_index l - 1).
Proof.
  intros Hwf Hi. rewrite <-entry_znth by done. unfold term, entry.
  destruct (Z.eqb_spec i (base_index l)); [lia|].
  destruct (Z.ltb_spec i (base_index l)), (Z.leb_spec i (base_index l)); try lia.
  by destruct (usize_try_from _).
Qed.

Lemma term_base l : term l (base_index l) = Some (base_term l).
Proof. unfold term. by rewrite Z.eqb_refl. Qed.

Lemma term_at_base l i : i = base_index l → term l i = Some (base_term l).
Proof. intros ->. apply term_base. Qed.

Lemma term_below l i : i < base_index l → term l i = None.
Proof.
  intros. unfold term. destruct (Z.eqb_spec i (base_index l)); [lia|].
  destruct (Z.ltb_spec i (base_index l)); [done|lia].
Qed.

Lemma term_is_Some l i : log_wf l → is_Some (term l i) ↔ base_index l ≤ i ≤ last_index l.
Proof.
  intros Hwf. rewrite last_index_wf by done. pose proof (zlen_nonneg (log_entries l)).
  destruct (Z.lt_trichotomy i (base_index l)) as [?|[->|?]].
  - rewrite term_below by done. split; [by intros [? ?]|lia].
  - rewrite term_base. split; [lia|done].
  - rewrite term_znth by done. split.
    + intros [tm Ht]. destruct (znth _ _) eqn:E; [|done]. apply znth_lt in E. lia.
    + intros [_ ?]. destruct (znth_is_Some (log_entries l) (i - base_index l - 1)) as [e ->]; [lia|].
      by eexists.
Qed.

Lemma term_None l i : log_wf l → term l i = None ↔ i < base_index l ∨ last_index l < i.
Proof.
  intros Hwf. pose proof (term_is_Some l i Hwf) as Hs. destruct (term l i) as [x|].
  - split; [done|]. destruct Hs as [Hs _]. specialize (Hs ltac:(by eexists)). lia.
  - split; [|done]. intros _. destruct Hs as [_ Hs].
    destruct (decide (base_index l ≤ i ≤ last_index l)) as [Hd|]; [|lia].
    by destruct (Hs Hd).
Qed.

Lemma term_bound l i tm : log_wf l → term l i = Some tm → base_index l ≤ i ≤ last_index l.
Proof. intros Hwf Ht. apply term_is_Some; [done|]. by eexists. Qed.

Lemma entry_is_Some l i : log_wf l → is_Some (entry l i) ↔ base_index l < i ≤ last_index l.
Proof.
  intros Hwf. pose proof (zlen_nonneg (log_entries l)). rewrite last_index_wf by done.
  destruct (decide (base_index l < i)) as [?|?].
  - rewrite entry_znth by done. split.
    + intros [e E]. apply znth_lt in E. lia.
    + intros [_ ?]. destruct (znth_is_Some (log_entries l) (i - base_index l - 1)) as [e ->]; [lia|].
      by eexists.
  - unfold entry. destruct (Z.leb_spec i (base_index l)); [|lia]. split; [by intros [? ?]|lia].
Qed.

Lemma entry_spec l i e :
  log_wf l → entry l i = Some e → e_index e = i ∧ term l i = Some (e_term e).
Proof.
  intros Hwf He. assert (Hb : base_index l < i ≤ last_index l) by (apply entry_is_Some; [done|by eexists]).
  rewrite entry_znth in He by (done || lia). split.
  - destruct Hwf as [_ _ Hs]. destruct (seq_from_znth _ _ _ _ _ Hs He). lia.
  - rewrite term_znth by (done || lia). by rewrite He.
Qed.

Lemma term_last l : log_wf l → term l (last_index l) = Some (last_term l).
Proof.
  intros Hwf. pose proof (last_index_wf l Hwf) as Hl. rewrite Hl.
  unfold last_term. rewrite last_znth. destruct (znth _ _) eqn:E.
  - pose proof (znth_lt _ _ _ E). rewrite term_znth by (done || lia).
    replace (_ - _ - 1) with (zlen (log_entries l) - 1) by lia. by rewrite E.
  - assert (log_entries l = []) as ->.
    { destruct (log_entries l) eqn:El; [done|].
      destruct (znth_is_Some (l0 :: l1) (zlen (l0 :: l1) - 1)) as [? ?]; [|congruence].
      rewrite zlen_cons. pose proof (zlen_nonneg l1). lia. }
    replace (base_index l + _) with (base_index l) by (unfold zlen; cbn; lia). apply term_base.
Qed.

Lemma term_mono l i j a b :
  log_wf l → term l i = Some a → term l j = Some b → i ≤ j → a ≤ b.
Proof.
  intros Hwf Hi Hj Hle. pose proof (term_bound _ _ _ Hwf Hi). pose proof (term_bound _ _ _ Hwf Hj).
  destruct (decide (i = base_index l)) as [->|].
  - rewrite term_base in Hi. simplify_eq. destruct (decide (j = base_index l)) as [->|].
    + rewrite term_base in Hj. simplify_eq. done.
    + rewrite term_znth in Hj by (done || lia). destruct (znth _ _) eqn:E; [|done].
      destruct Hwf as [_ _ Hs]. destruct (seq_from_znth _ _ _ _ _ Hs E). naive_solver.
  - rewrite term_znth in Hi, Hj by (done || lia).
    destruct (znth _ (i - _ - 1)) eqn:Ei; [|done]. destruct (znth _ (j - _ - 1)) eqn:Ej; [|done].
    cbn in Hi, Hj. simplify_eq. destruct Hwf as [_ _ Hs].
    eapply seq_from_mono; [done..|lia].
Qed.

(** *** Append *)

Lemma append_wf l es :
  log_wf l → last_index l + zlen es ≤ u64_max →
  seq_from (last_index l + 1) (last_term l) es → log_wf (append l es).
Proof.
  intros Hwf Hb Hs. pose proof (last_index_wf l Hwf) as Hl. destruct Hwf as [H0 H1 H2].
  split; cbn; [done|rewrite zlen_app; lia|].
  apply seq_from_app. split; [done|].
  replace (base_index l + 1 + zlen (log_entries l)) with (last_index l + 1) by lia. done.
Qed.

Lemma last_index_append l es :
  log_wf (append l es) → log_wf l → last_index (append l es) = last_index l + zlen es.
Proof. intros. rewrite !last_index_wf by done. cbn. rewrite zlen_app. lia. Qed.

Lemma term_append_l l es i :
  log_wf l → log_wf (append l es) → i ≤ last_index l → term (append l es) i = term l i.
Proof.
  intros Hwf Hwf' Hi. rewrite last_index_wf in Hi by done.
  destruct (Z.lt_trichotomy i (base_index l)) as [?|[->|?]].
  - by rewrite !term_below.
  - by rewrite !term_at_base.
  - rewrite !term_znth by (done || (cbn; lia)). cbn. rewrite znth_app_l by lia. done.
Qed.

(** *** Truncate and append *)

Definition truncated (l : t) (from : Z) : t :=
  {| base_index := base_index l; base_term := base_term l;
     log_entries := ztake (from - base_index l - 1) (log_entries l) |}.

Lemma truncate_and_append_eq l from es :
  log_wf l → base_index l < from ≤ last_index l + 1 → from ≤ u64_max →
  truncate_and_append l from es = append (truncated l from) es.
Proof.
  intros Hwf Hf Hu. destruct Hwf as [H0 H1 H2].
  unfold truncate_and_append, append; cbn. f_equal. f_equal. f_equal.
  rewrite wrapping_add_small by lia. unfold saturating_sub, usize_try_from, usize_max.
  destruct (Z.leb_spec (Z.max 0 (from - (base_index l + 1))) u64_max); cbn; [lia|ulia].
Qed.

Lemma truncated_wf l from :
  log_wf l → base_index l < from ≤ last_index l + 1 →
  log_wf (truncated l from) ∧ last_index (truncated l from) = from - 1.
Proof.
  intros Hwf Hf. rewrite last_index_wf in Hf by done.
  assert (log_wf (truncated l from)) as Hwf'.
  { destruct Hwf as [H0 H1 H2]. split; cbn; [done| |].
    - rewrite zlen_ztake by lia. lia.
    - unfold ztake. rewrite <-(take_drop (Z.to_nat (from - base_index l - 1)) (log_entries l)) in H2.
      by apply seq_from_app in H2 as [? _]. }
  split; [done|]. rewrite last_index_wf by done. cbn. rewrite zlen_ztake by lia. lia.
Qed.

Lemma term_truncated l from i :
  log_wf l → base_index l < from ≤ last_index l + 1 → i < from →
  term (truncated l from) i = term l i.
Proof.
  intros Hwf Hf Hi. destruct (truncated_wf l from Hwf Hf) as [Hwf' _].
  destruct (Z.lt_trichotomy i (base_index l)) as [?|[->|?]].
  - by rewrite !term_below.
  - by rewrite !term_at_base.
  - rewrite !term_znth by (done || (cbn; lia)). cbn. by rewrite znth_ztake by lia.
Qed.

Lemma last_term_truncated l from :
  log_wf l → base_index l < from ≤ last_index l + 1 →
  term l (from - 1) = Some (last_term (truncated l from)).
Proof.
  intros Hwf Hf. destruct (truncated_wf l from Hwf Hf) as [Hwf' Hl].
  rewrite <-(term_last _ Hwf'), Hl. symmetry. apply term_truncated; [done..|lia].
Qed.

Lemma truncate_and_append_wf l from es tm :
  log_wf l → base_index l < from ≤ last_index l + 1 → from + zlen es - 1 ≤ u64_max →
  from ≤ u64_max → term l (from - 1) = Some tm → seq_from from tm es →
  log_wf (truncate_and_append l from es)
  ∧ last_index (truncate_and_append l from es) = from + zlen es - 1.
Proof.
  intros Hwf Hf Hb Hu Ht Hs. rewrite truncate_and_append_eq by done.
  destruct (truncated_wf l from Hwf Hf) as [Hwf' Hl].
  rewrite last_term_truncated in Ht by done. simplify_eq.
  assert (log_wf (append (truncated l from) es)) as Hwf''.
  { apply append_wf; [done|lia|]. by rewrite Hl, Z.sub_add. }
  split; [done|]. rewrite last_index_append by done. lia.
Qed.

Lemma term_truncate_and_append_l l from es i :
  log_wf l → base_index l < from ≤ last_index l + 1 → from ≤ u64_max →
  log_wf (truncate_and_append l from es) → i < from →
  term (truncate_and_append l from es) i = term l i.
Proof.
  intros Hwf Hf Hu Hwf'' Hi. rewrite truncate_and_append_eq in * by done.
  destruct (truncated_wf l from Hwf Hf) as [Hwf' Hl].
  rewrite term_append_l by (done || lia). by apply term_truncated.
Qed.

Lemma entry_append_l l es i :
  log_wf l → log_wf (append l es) → i ≤ last_index l → entry (append l es) i = entry l i.
Proof.
  intros Hwf Hwf' Hi. destruct (Z.leb_spec i (base_index l)) as [Hb|Hb].
  - unfold entry; cbn. by destruct (Z.leb_spec i (base_index l)); [|lia].
  - rewrite !entry_znth by done. rewrite last_index_wf in Hi by done. cbn.
    apply znth_app_l. lia.
Qed.

Lemma entry_truncate_and_append_l l from es i :
  log_wf l → base_index l < from ≤ last_index l + 1 → from ≤ u64_max →
  log_wf (truncate_and_append l from es) → i < from →
  entry (truncate_and_append l from es) i = entry l i.
Proof.
  intros Hwf Hf Hu Hwf' Hi. rewrite truncate_and_append_eq in * by done.
  destruct (truncated_wf l from Hwf Hf) as [Ht Hl]. rewrite entry_append_l by (done || lia).
  destruct (Z.leb_spec i (base_index l)) as [Hb|Hb].
  - unfold entry; cbn. by destruct (Z.leb_spec i (base_index l)); [|lia].
  - rewrite !entry_znth by done. cbn. apply znth_ztake. lia.
Qed.

Lemma entry_truncate_and_append_r l from es i :
  log_wf l → base_index l < from ≤ last_index l + 1 → from ≤ u64_max →
  log_wf (truncate_and_append l from es) → from ≤ i →
  entry (truncate_and_append l from es) i = znth es (i - from).
Proof.
  intros Hwf Hf Hu Hwf'' Hi. pose proof (last_index_wf l Hwf).
  rewrite entry_znth by (done || (cbn; lia)). rewrite truncate_and_append_eq by done. cbn.
  rewrite znth_app_r; rewrite zlen_ztake by lia; [|lia]. f_equal. lia.
Qed.

(** *** Reading a suffix, compaction *)

Lemma entries_from_drop l i :
  log_wf l → base_index l < i → i ≤ last_index l + 1 →
  entries_from l i usize_max = zdrop (i - base_index l - 1) (log_entries l).
Proof.
  intros Hwf Hi Hle. rewrite last_index_wf in Hle by done. pose proof (wf_last l Hwf).
  pose proof (wf_base l Hwf).
  unfold entries_from. destruct (Z.leb_spec i (base_index l)); [lia|].
  unfold usize_try_from. destruct (Z.leb_spec (i - base_index l - 1) usize_max); [|ulia].
  unfold slice_from. destruct (Z.leb_spec (i - base_index l - 1) (zlen (log_entries l))); [|lia].
  cbn. apply ztake_all. rewrite zlen_zdrop by lia. ulia.
Qed.

Lemma entries_from_spec l i limit :
  log_wf l → base_index l < i ≤ last_index l + 1 → 0 ≤ limit →
  zlen (entries_from l i limit) ≤ limit
  ∧ i - 1 + zlen (entries_from l i limit) ≤ last_index l
  ∧ ∀ k e, znth (entries_from l i limit) k = Some e → entry l (i + k) = Some e.
Proof.
  intros Hwf Hi Hlim. pose proof (last_index_wf _ Hwf) as Hl. pose proof (wf_base _ Hwf).
  pose proof (wf_last _ Hwf). pose proof (zlen_nonneg (log_entries l)). unfold entries_from.
  destruct (Z.leb_spec i (base_index l)); [lia|].
  unfold usize_try_from, usize_max. destruct (Z.leb_spec (i - base_index l - 1) u64_max); [|lia].
  unfold slice_from. destruct (Z.leb_spec (i - base_index l - 1) (zlen (log_entries l))); [|lia].
  cbn [default from_option id]. rewrite zlen_ztake, zlen_zdrop by lia. split_and!; [lia|lia|].
  intros k e Hk. pose proof (znth_lt _ _ _ Hk) as Hb. rewrite zlen_ztake, zlen_zdrop in Hb by lia.
  rewrite znth_ztake, znth_zdrop in Hk by lia. rewrite entry_znth by (done || lia).
  rewrite <- Hk. f_equal. lia.
Qed.

Lemma seq_from_zdrop i tm es n tm' :
  seq_from i tm es → 0 ≤ n ≤ zlen es → end_term tm (ztake n es) = tm' →
  seq_from (i + n) tm' (zdrop n es).
Proof.
  intros Hs Hn <-. unfold zdrop, ztake.
  rewrite <-(take_drop (Z.to_nat n) es) in Hs. apply seq_from_app in Hs as [_ Hs].
  unfold zlen in *. rewrite length_take in Hs.
  replace (Z.of_nat (Z.to_nat n `min` length es)) with n in Hs by lia. done.
Qed.

Lemma compact_wf l idx tm :
  log_wf l → term l idx = Some tm →
  log_wf (compact l idx tm true) ∧ last_index (compact l idx tm true) = last_index l.
Proof.
  intros Hwf Ht. pose proof (term_bound _ _ _ Hwf Ht) as Hb.
  pose proof (last_index_wf l Hwf) as Hl. pose proof (last_index_bounds l Hwf).
  pose proof (wf_base l Hwf). pose proof (zlen_nonneg (log_entries l)).
  assert (log_wf (compact l idx tm true)) as Hwf'.
  { unfold compact. destruct (decide (idx = u64_max)) as [->|].
    - assert ((u64_max + 1)%u64 = 0) as -> by done.
      unfold entries_from. destruct (Z.leb_spec 0 (base_index l)); [|lia].
      split; cbn; [lia|unfold zlen; cbn; lia|done].
    - rewrite wrapping_add_small by lia. rewrite entries_from_drop by (done || lia).
      split; cbn; [lia|rewrite zlen_zdrop by lia; lia|].
      replace (idx + 1) with (base_index l + 1 + (idx + 1 - base_index l - 1)) at 1 by lia.
      eapply seq_from_zdrop; [apply wf_seq; done|lia|].
      destruct (truncated_wf l (idx + 1) Hwf ltac:(lia)) as [Hwft Hlt].
      pose proof (last_term_truncated l (idx + 1) Hwf ltac:(lia)) as Hltt.
      replace (idx + 1 - 1) with idx in Hltt by lia. rewrite Ht in Hltt. by simplify_eq. }
  split; [done|]. rewrite last_index_wf by done. unfold compact; cbn.
  destruct (decide (idx = u64_max)) as [->|].
  - assert ((u64_max + 1)%u64 = 0) as -> by done.
    unfold entries_from. destruct (Z.leb_spec 0 (base_index l)); [|lia]. unfold zlen; cbn. lia.
  - rewrite wrapping_add_small by lia. rewrite entries_from_drop by (done || lia).
    rewrite zlen_zdrop by lia. lia.
Qed.

Lemma entry_compact l idx tm i :
  log_wf l → term l idx = Some tm → idx < i →
  entry (compact l idx tm true) i = entry l i.
Proof.
  intros Hwf Ht Hi. destruct (compact_wf l idx tm Hwf Ht) as [Hwf' Hl].
  pose proof (term_bound _ _ _ Hwf Ht) as Hb. pose proof (last_index_bounds l Hwf).
  pose proof (wf_base l Hwf).
  rewrite (entry_znth _ _ Hwf') by done. rewrite (entry_znth l) by (done || lia). unfold compact; cbn.
  destruct (decide (idx = u64_max)) as [->|].
  - assert ((u64_max + 1)%u64 = 0) as -> by done.
    unfold entries_from. destruct (Z.leb_spec 0 (base_index l)); [|lia].
    pose proof (wf_last l Hwf). rewrite !znth_None; [done|lia|unfold zlen; cbn; lia].
  - rewrite wrapping_add_small by lia. rewrite entries_from_drop by (done || lia).
    rewrite znth_zdrop by lia. f_equal. lia.
Qed.

Lemma term_compact l idx tm i :
  log_wf l → term l idx = Some tm → idx ≤ i → term (compact l idx tm true) i = term l i.
Proof.
  intros Hwf Ht Hi. destruct (decide (i = idx)) as [->|].
  - rewrite Ht. apply (term_base (compact l idx tm true)).
  - destruct (compact_wf l idx tm Hwf Ht) as [Hwf' _].
    pose proof (entry_compact l idx tm i Hwf Ht ltac:(lia)) as He.
    pose proof (term_bound _ _ _ Hwf Ht).
    rewrite (entry_znth _ _ Hwf') in He by (cbn; lia). rewrite (entry_znth l) in He by (done || lia).
    rewrite (term_znth _ _ Hwf') by (cbn; lia). rewrite (term_znth l) by (done || lia). by rewrite He.
Qed.

Lemma compact_discard_wf l idx tm : u64_ok idx → log_wf (compact l idx tm false).
Proof. intros [? ?]. split; cbn; [done|unfold zlen; cbn; lia|done]. Qed.

(** *** Conflict hints *)

Lemma first_index_loop_spec fuel l cursor tm r :
  cursor - base_index l ≤ Z.of_nat fuel → r = first_index_loop fuel l cursor tm →
  r ≤ cursor ∧ (base_index l ≤ cursor → base_index l ≤ r)
  ∧ (∀ i, r ≤ i < cursor → term l i = Some tm)
  ∧ (base_index l < r → term l (r - 1) ≠ Some tm).
Proof.
  revert cursor r. induction fuel as [|fuel IH]; intros cursor r Hf ->; cbn.
  - repeat split; [lia..|]. intros. lia.
  - destruct (Z.ltb_spec (base_index l) cursor); cbn; [|by repeat split; intros; lia].
    case_bool_decide as Ht; [|by repeat split; intros; lia || done].
    destruct (IH (cursor - 1) _ ltac:(lia) eq_refl) as (H1 & H2 & H3 & H4).
    split; [lia|]. split; [intros; apply H2; lia|]. split; [|done].
    intros i Hi. destruct (decide (i = cursor - 1)) as [->|]; [done|]. apply H3. lia.
Qed.

Lemma find_reverse {A} (P : A → bool) (l : list A) x :
  List.find P (reverse l) = Some x →
  ∃ i, znth l i = Some x ∧ P x = true ∧ ∀ j y, i < j → znth l j = Some y → P y = false.
Proof.
  induction l as [|a l IH] using rev_ind; [done|]. rewrite reverse_snoc. cbn.
  assert (znth (l ++ [a]) (zlen l) = Some a) as Ha.
  { rewrite znth_app_r by lia. by rewrite Z.sub_diag. }
  assert (∀ j y, zlen l < j → znth (l ++ [a]) j = Some y → False) as Hend.
  { intros j y Hj Hy%znth_lt. rewrite zlen_app in Hy. unfold zlen in *; cbn in *. lia. }
  destruct (P a) eqn:E.
  - intros [= <-]. exists (zlen l). split_and!; [done..|]. intros j y Hj Hy. by destruct (Hend j y).
  - intros (i & Hi & HP & Hj)%IH. exists i. pose proof (znth_lt _ _ _ Hi).
    split; [by rewrite znth_app_l by lia|]. split; [done|]. intros j y Hlt Hy.
    destruct (Z.lt_trichotomy j (zlen l)) as [?|[->|?]].
    + rewrite znth_app_l in Hy by lia. by apply (Hj j).
    + by simplify_eq.
    + by destruct (Hend j y).
Qed.

Lemma find_reverse_None {A} (P : A → bool) (l : list A) :
  List.find P (reverse l) = None → ∀ x, x ∈ l → P x = false.
Proof. intros Hf x Hx. apply (List.find_none _ _ Hf). apply list_elem_of_In. set_solver. Qed.
End LogFacts.

(** ** Properties *)

(** Replacing the log from an index inside it (or just past its end) with
    a well-formed suffix keeps the log contiguous and term-monotone, leaves
    every earlier term as it was and makes the suffix the rest of the log. *)
Theorem truncate_and_append_spec l from es tm :
  log_wf l → base_index l < from ≤ last_index l + 1 → from ≤ u64_max →
  from + zlen es - 1 ≤ u64_max → term l (from - 1) = Some tm → seq_from from tm es →
  let l' := truncate_and_append l from es in
  log_wf l' ∧ last_index l' = from + zlen es - 1
  ∧ (∀ i, i < from → term l' i = term l i)
  ∧ (∀ i, from ≤ i → entry l' i = znth es (i - from)).
Proof.
  intros Hwf Hf Hu Hb Ht Hs l'. destruct (truncate_and_append_wf l from es tm) as [Hwf' Hl]; try done.
  split_and!; [done..| |]; intros.
  - by apply term_truncate_and_append_l.
  - by apply entry_truncate_and_append_r.
Qed.

(** Compaction at a retained boundary keeps the log well-formed, does not
    move its end, and keeps every entry after the boundary. *)
Theorem compact_retains_suffix l idx tm :
  log_wf l → term l idx = Some tm →
  let l' := compact l idx tm true in
  log_wf l' ∧ base_index l' = idx ∧ last_index l' = last_index l
  ∧ (∀ i, idx < i → entry l' i = entry l i) ∧ (∀ i, idx ≤ i → term l' i = term l i).
Proof.
  intros Hwf Ht l'. destruct (compact_wf l idx tm Hwf Ht) as [Hwf' Hl].
  split_and!; [done..| |]; intros; [by apply entry_compact|by apply term_compact].
Qed.

(** The follower's conflict hint is exact: [first_index_of_term] returns
    the start of the run of entries with the conflicting term that ends just
    before [index], and the loop needs no more turns than the fuel gives. *)
Theorem first_index_of_term_spec l index tm :
  base_index l ≤ index →
  let r := first_index_of_term l index tm in
  base_index l ≤ r ≤ index ∧ (∀ i, r ≤ i < index → term l i = Some tm)
  ∧ (base_index l < r → term l (r - 1) ≠ Some tm).
Proof.
  intros Hb r. destruct (first_index_loop_spec (Z.to_nat (index - base_index l)) l index tm r)
    as (? & ? & ? & ?); [lia|done|]. auto with lia.
Qed.

(** The leader's conflict hint is exact: [last_index_of_term] returns the
    greatest index of the log that holds the term, and nothing when no entry
    and not the base hold it. *)
Theorem last_index_of_term_spec l tm :
  log_wf l →
  match last_index_of_term l tm with
  | Some r => term l r = Some tm ∧ ∀ i, r < i → term l i ≠ Some tm
  | None => ∀ i, term l i ≠ Some tm
  end.
Proof.
  intros Hwf. unfold last_index_of_term. destruct (List.find _ _) as [e|] eqn:E.
  - apply find_reverse in E as (k & Hk & He & Hrest). bool_prop.
    destruct (seq_from_znth _ _ _ _ _ (wf_seq l Hwf) Hk) as [Hi _]. pose proof (znth_lt _ _ _ Hk).
    rewrite Hi. split.
    + rewrite term_znth by (done || lia).
      replace (base_index l + 1 + k - base_index l - 1) with k by lia. rewrite Hk. cbn. by f_equal.
    + intros i Hlt. rewrite term_znth by (done || lia).
      destruct (znth _ (i - base_index l - 1)) as [e'|] eqn:E'; [|done].
      cbn. intros [= Heq]. pose proof (Hrest (i - base_index l - 1) e' ltac:(lia) E'). bool_prop. done.
  - assert (∀ i, base_index l < i → term l i ≠ Some tm) as Hgt.
    { intros i Hi. rewrite term_znth by done. destruct (znth _ _) as [e|] eqn:E'; [|done].
      cbn. intros [= Heq]. apply znth_Some in E' as [_ E'%list_elem_of_lookup_2].
      apply (find_reverse_None _ _ E) in E'. bool_prop. done. }
    destruct (Z.eqb_spec (base_term l) tm) as [Hbt|Hbt].
    + split; [rewrite term_base; by f_equal|done].
    + intros i. destruct (Z.lt_trichotomy i (base_index l)) as [?|[->|?]].
      * by rewrite term_below.
      * rewrite term_base. congruence.
      * by apply Hgt.
Qed.
