(* ===== verification/RaftNode.v ===== *)
(** * The Raft core: [crates/aster-raft/src/node.rs]

    [Raft] is the record of the source, a [handler] is a method that mutates
    the node and pushes actions, and every method of the file is one
    definition.  Actions come out in the order the source pushes them. *)

From S2P Require Import Prelude RaftTypes RaftLogs.

Definition MAX_APPEND_ENTRIES : Z := 64.
Definition SNAPSHOT_CHUNK_BYTES : Z := 16 * 1024.
Definition MAX_SNAPSHOT_BYTES : Z := 512 * 1024 * 1024.

Record Progress : Type := mkProgress {
  match_index : Z;
  next_index : Z;
  snapshot_offset : option Z
}.

Record PendingRead : Type := mkPendingRead {
  read_at : Z;
  acknowledgements : gset NodeId
}.

Record IncomingSnapshot : Type := mkIncomingSnapshot {
  in_metadata : SnapshotMetadata;
  in_data : bytes
}.

Record Raft : Type := mkRaft {
  id : NodeId;
  configuration : Configuration;
  hard : HardState;
  log : RaftLog.t;
  snap : option PersistentSnapshot;
  applied : Z;
  role : Role;
  leader_id : option NodeId;
  campaign_term : option Z;
  votes : gset NodeId;
  progress : gmap NodeId Progress;
  recent_active : gset NodeId;
  pending_reads : gmap bytes PendingRead;
  incoming_snapshot : option IncomingSnapshot
}.

(** ** Field assignment *)

Definition set_hard v s := mkRaft (id s) (configuration s) v (log s) (snap s) (applied s) (role s)
  (leader_id s) (campaign_term s) (votes s) (progress s) (recent_active s) (pending_reads s)
  (incoming_snapshot s).
Definition set_log v s := mkRaft (id s) (configuration s) (hard s) v (snap s) (applied s) (role s)
  (leader_id s) (campaign_term s) (votes s) (progress s) (recent_active s) (pending_reads s)
  (incoming_snapshot s).
Definition set_snap v s := mkRaft (id s) (configuration s) (hard s) (log s) v (applied s) (role s)
  (leader_id s) (campaign_term s) (votes s) (progress s) (recent_active s) (pending_reads s)
  (incoming_snapshot s).
Definition set_applied v s := mkRaft (id s) (configuration s) (hard s) (log s) (snap s) v (role s)
  (leader_id s) (campaign_term s) (votes s) (progress s) (recent_active s) (pending_reads s)
  (incoming_snapshot s).
Definition set_role v s := mkRaft (id s) (configuration s) (hard s) (log s) (snap s) (applied s) v
  (leader_id s) (campaign_term s) (votes s) (progress s) (recent_active s) (pending_reads s)
  (incoming_snapshot s).
Definition set_leader_id v s := mkRaft (id s) (configuration s) (hard s) (log s) (snap s)
  (applied s) (role s) v (campaign_term s) (votes s) (progress s) (recent_active s)
  (pending_reads s) (incoming_snapshot s).
Definition set_campaign_term v s := mkRaft (id s) (configuration s) (hard s) (log s) (snap s)
  (applied s) (role s) (leader_id s) v (votes s) (progress s) (recent_active s)
  (pending_reads s) (incoming_snapshot s).
Definition set_votes v s := mkRaft (id s) (configuration s) (hard s) (log s) (snap s) (applied s)
  (role s) (leader_id s) (campaign_term s) v (progress s) (recent_active s) (pending_reads s)
  (incoming_snapshot s).
Definition set_progress v s := mkRaft (id s) (configuration s) (hard s) (log s) (snap s)
  (applied s) (role s) (leader_id s) (campaign_term s) (votes s) v (recent_active s)
  (pending_reads s) (incoming_snapshot s).
Definition set_recent_active v s := mkRaft (id s) (configuration s) (hard s) (log s) (snap s)
  (applied s) (role s) (leader_id s) (campaign_term s) (votes s) (progress s) v
  (pending_reads s) (incoming_snapshot s).
Definition set_pending_reads v s := mkRaft (id s) (configuration s) (hard s) (log s) (snap s)
  (applied s) (role s) (leader_id s) (campaign_term s) (votes s) (progress s) (recent_active s) v
  (incoming_snapshot s).
Definition set_incoming_snapshot v s := mkRaft (id s) (configuration s) (hard s) (log s) (snap s)
  (applied s) (role s) (leader_id s) (campaign_term s) (votes s) (progress s) (recent_active s)
  (pending_reads s) v.

Definition set_commit_index (v : Z) (h : HardState) : HardState :=
  {| current_term := current_term h; voted_for := voted_for h; commit_index := v |}.
Definition set_voted_for (v : option NodeId) (h : HardState) : HardState :=
  {| current_term := current_term h; voted_for := v; commit_index := commit_index h |}.

(** ** Handlers

    [fn method(&mut self, .., actions: &mut Vec<Action>)]. *)

Definition handler : Type := Raft → Raft * list Action.

Definition skip : handler := λ s, (s, []).
Definition emit (a : Action) : handler := λ s, (s, [a]).
Definition modify (f : Raft → Raft) : handler := λ s, (f s, []).
Definition with_self (k : Raft → handler) : handler := λ s, k s s.
Definition seq (m1 m2 : handler) : handler := λ s,
  let '(s1, a1) := m1 s in
  let '(s2, a2) := m2 s1 in
  (s2, a1 ++ a2).

Declare Scope raft_scope.
Delimit Scope raft_scope with raft.
Bind Scope raft_scope with handler.
Notation "m1 ;; m2" := (seq m1 m2) (at level 100, right associativity) : raft_scope.
#[local] Open Scope raft_scope.

Definition when (c : bool) (m : handler) : handler := if c then m else skip.

Fixpoint for_each {A} (l : list A) (body : A → handler) : handler :=
  match l with
  | [] => skip
  | x :: l => body x ;; for_each l body
  end.

Definition is_leader (self : Raft) : bool := bool_decide (role self = Leader).

Section Node.
Context `{Sha256}.

(** ** Recovery *)

Definition recover_entry (term : Z) (st : Z * Z) (entry : LogEntry)
    : result RecoveryError (Z * Z) :=
  let '(expected, previous_term) := st in
  _ ← ensure (e_index entry =? expected)
        (InvalidLog ("expected index " +:+ pretty expected +:+ ", found "
                     +:+ pretty (e_index entry)));
  _ ← ensure (previous_term <=? e_term entry)
        (InvalidLog ("term regressed from " +:+ pretty previous_term +:+ " to "
                     +:+ pretty (e_term entry) +:+ " at index " +:+ pretty (e_index entry)));
  _ ← ensure (e_term entry <=? term)
        (InvalidLog ("entry " +:+ pretty (e_index entry) +:+ " has future term "
                     +:+ pretty (e_term entry) +:+ " beyond hard-state term " +:+ pretty term));
  Ok (saturating_add expected 1, e_term entry).

Definition recover (id : NodeId) (configuration : Configuration) (stable : StableState)
    : result RecoveryError Raft :=
  _ ← ensure (Config.contains configuration id) (NotVoter id);
  _ ← match snapshot stable with
      | None => Ok tt
      | Some s =>
          _ ← ensure (Snapshot.validate s) (InvalidSnapshot "length or SHA-256 mismatch");
          ensure (bool_decide (sm_configuration (metadata s) = configuration))
            (InvalidSnapshot "snapshot voter set differs from local configuration")
      end;
  let '(base_index, base_term) :=
    match snapshot stable with
    | None => (0, 0)
    | Some s => (last_included_index (metadata s), last_included_term (metadata s))
    end in
  _ ← foldM (recover_entry (current_term (hard_state stable)))
        (saturating_add base_index 1, base_term) (entries stable);
  let last_index := match last (entries stable) with
                    | None => base_index
                    | Some entry => e_index entry
                    end in
  let commit := commit_index (hard_state stable) in
  _ ← ensure (negb ((commit <? base_index) || (last_index <? commit)))
        (InvalidIndexes ("commit " +:+ pretty commit +:+ " is outside [" +:+ pretty base_index
                         +:+ ", " +:+ pretty last_index +:+ "]"));
  _ ← ensure (negb ((applied_index stable <? base_index) || (commit <? applied_index stable)))
        (InvalidIndexes ("applied " +:+ pretty (applied_index stable) +:+ " is outside ["
                         +:+ pretty base_index +:+ ", " +:+ pretty commit +:+ "]"));
  Ok {| id := id;
        configuration := configuration;
        hard := hard_state stable;
        log := RaftLog.new (snapshot stable) (entries stable);
        snap := snapshot stable;
        applied := applied_index stable;
        role := Follower;
        leader_id := None;
        campaign_term := None;
        votes := ∅;
        progress := ∅;
        recent_active := ∅;
        pending_reads := ∅;
        incoming_snapshot := None |}.

Definition stable_state (self : Raft) : StableState :=
  {| hard_state := hard self;
     snapshot := snap self;
     entries := RaftLog.all_entries (log self);
     applied_index := applied self |}.

(** ** Small helpers *)

Definition peers (self : Raft) : list NodeId :=
  filter (λ peer, peer ≠ id self) (btree_set_iter (Config.voters (configuration self))).

Definition candidate_log_is_up_to_date (self : Raft) (index term : Z) : bool :=
  (RaftLog.last_term (log self) <? term)
  || ((term =? RaftLog.last_term (log self)) && (RaftLog.last_index (log self) <=? index)).

Fixpoint valid_entries_loop (expected previous_term leader_term : Z) (entries : list LogEntry)
    : bool :=
  match entries with
  | [] => true
  | entry :: entries =>
      if negb (e_index entry =? expected)
         || (leader_term <? e_term entry)
         || (e_term entry <? previous_term)
      then false
      else valid_entries_loop (expected + 1)%u64 (e_term entry) leader_term entries
  end.

Definition valid_entry_sequence (prev_log_index prev_log_term leader_term : Z)
    (entries : list LogEntry) : bool :=
  valid_entries_loop (prev_log_index + 1)%u64 prev_log_term leader_term entries.

Definition emit_hard_state : handler :=
  with_self (λ self, emit (Persist (MHardState (hard self)))).

(** ** Commit and apply *)

(** One turn of the apply loop per committed entry; [commit - applied] turns
    exhaust it. *)
Fixpoint apply_loop (fuel : nat) : handler :=
  match fuel with
  | O => skip
  | S fuel => with_self (λ self,
      if applied self <? commit_index (hard self) then
        let next := (applied self + 1)%u64 in
        match RaftLog.entry (log self) next with
        | None =>
            emit (Fatal ("committed entry " +:+ pretty next +:+ " is unavailable for apply"))
        | Some entry =>
            modify (set_applied next) ;;
            emit (Apply entry) ;;
            when (is_leader self)
              (match e_payload entry with
               | Command id _ => emit (ProposalCommitted id (e_index entry))
               | Noop => skip
               end) ;;
            apply_loop fuel
        end
      else skip)
  end.

Definition apply_committed : handler := with_self (λ self,
  apply_loop (Z.to_nat (commit_index (hard self) - applied self))).

Definition set_commit (new_commit : Z) : handler := with_self (λ self,
  if new_commit <=? commit_index (hard self) then skip
  else if RaftLog.last_index (log self) <? new_commit then
    emit (Fatal ("attempted to commit " +:+ pretty new_commit +:+ " beyond log end "
                 +:+ pretty (RaftLog.last_index (log self))))
  else
    modify (set_hard (set_commit_index new_commit (hard self))) ;;
    emit_hard_state ;;
    apply_committed).

Definition advance_leader_commit : handler := with_self (λ self,
  if negb (is_leader self) then skip
  else
    let quorum_index := Config.quorum_index (configuration self) (λ voter,
      match progress self !! voter with
      | None => 0
      | Some p => match_index p
      end) in
    when ((commit_index (hard self) <? quorum_index)
          && bool_decide (RaftLog.term (log self) quorum_index
                          = Some (current_term (hard self))))
      (set_commit quorum_index)).

(** ** Replication to peers *)

Definition send_snapshot_chunk (peer : NodeId) (offset : Z) : handler := with_self (λ self,
  match snap self with
  | None =>
      emit (Fatal ("peer " +:+ pretty peer
        +:+ " requires index at/before compacted boundary, but no snapshot exists"))
  | Some s =>
      let offset := Z.min offset (zlen (data s)) in
      match usize_try_from offset with
      | None =>
          emit (Fatal ("snapshot offset " +:+ pretty offset +:+ " does not fit this platform"))
      | Some start =>
          let end_ := Z.min (start + SNAPSHOT_CHUNK_BYTES)%u64 (zlen (data s)) in
          emit (Send peer (InstallSnapshot (current_term (hard self)) (id self) (metadata s)
                  offset (ztake (end_ - start) (zdrop start (data s)))
                  (end_ =? zlen (data s))))
      end
  end).

Definition send_append (peer : NodeId) (read_context : option bytes) : handler :=
  with_self (λ self,
  match progress self !! peer with
  | None => skip
  | Some p =>
      if next_index p <=? RaftLog.base_index (log self) then
        send_snapshot_chunk peer (default 0 (snapshot_offset p))
      else
        let next_index := Z.min (next_index p) (RaftLog.last_index (log self) + 1)%u64 in
        let prev_log_index := (next_index - 1)%u64 in
        match RaftLog.term (log self) prev_log_index with
        | None =>
            emit (Fatal ("missing previous log term at " +:+ pretty prev_log_index))
        | Some prev_log_term =>
            emit (Send peer (AppendEntries (current_term (hard self)) (id self)
                    prev_log_index prev_log_term
                    (RaftLog.entries_from (log self) next_index MAX_APPEND_ENTRIES)
                    (commit_index (hard self)) read_context))
        end
  end).

Definition broadcast_append (read_context : option bytes) : handler := with_self (λ self,
  for_each (peers self) (λ peer, send_append peer read_context)).

(** ** Role changes *)

Definition become_leader : handler :=
  modify (set_role Leader) ;;
  with_self (λ self, modify (set_leader_id (Some (id self)))) ;;
  modify (set_votes ∅) ;;
  modify (set_progress ∅) ;;
  modify (set_pending_reads ∅) ;;
  with_self (λ self,
    let entry := {| e_index := (RaftLog.last_index (log self) + 1)%u64;
                    e_term := current_term (hard self);
                    e_payload := Noop |} in
    modify (set_log (RaftLog.append (log self) [entry])) ;;
    emit (Persist (MAppend [entry])) ;;
    let next_index := (e_index entry + 1)%u64 in
    for_each (btree_set_iter (Config.voters (configuration self))) (λ voter,
      with_self (λ self, modify (set_progress (<[voter := {|
        match_index := (if voter =? id self then 1 else 0) * e_index entry;
        next_index := next_index;
        snapshot_offset := None |}]> (progress self))))) ;;
    modify (set_recent_active (Config.voters (configuration self))) ;;
    emit (RoleChanged Leader (current_term (hard self))) ;;
    emit ResetHeartbeatTimer) ;;
  advance_leader_commit ;;
  broadcast_append None.

Definition become_follower (term : Z) (leader : option NodeId) : handler := with_self (λ self,
  let was_role := role self in
  when (current_term (hard self) <? term)
    (modify (set_hard {| current_term := term; voted_for := None;
                         commit_index := commit_index (hard self) |}) ;;
     emit_hard_state) ;;
  when (bool_decide (was_role = Leader) || negb (bool_decide (pending_reads self = ∅)))
    (modify (set_pending_reads ∅) ;;
     for_each (btree_map_iter (pending_reads self)) (λ p,
       emit (ReadRejected p.1 ReadLeadershipLost))) ;;
  modify (set_role Follower) ;;
  modify (set_leader_id leader) ;;
  modify (set_campaign_term None) ;;
  modify (set_votes ∅) ;;
  modify (set_progress ∅) ;;
  modify (set_recent_active ∅) ;;
  when (negb (bool_decide (was_role = Follower)))
    (with_self (λ self, emit (RoleChanged (role self) (current_term (hard self)))))).

(** ** Elections *)

Definition start_election (term : Z) : handler :=
  with_self (λ self, modify (set_hard {| current_term := term; voted_for := Some (id self);
                                         commit_index := commit_index (hard self) |})) ;;
  modify (set_role Candidate) ;;
  modify (set_campaign_term None) ;;
  with_self (λ self, modify (set_votes {[id self]})) ;;
  emit_hard_state ;;
  with_self (λ self, emit (RoleChanged (role self) term)) ;;
  emit ResetElectionTimer ;;
  with_self (λ self,
    if Config.quorum (configuration self) (votes self) then become_leader
    else for_each (peers self) (λ peer,
      emit (Send peer (RequestVote term (id self) (RaftLog.last_index (log self))
                         (RaftLog.last_term (log self)))))).

Definition start_pre_vote : handler := with_self (λ self,
  match checked_add (current_term (hard self)) 1 with
  | None => emit (Fatal "term counter exhausted")
  | Some prospective_term =>
      modify (set_role PreCandidate) ;;
      modify (set_leader_id None) ;;
      modify (set_campaign_term (Some prospective_term)) ;;
      modify (set_votes {[id self]}) ;;
      with_self (λ self, emit (RoleChanged (role self) (current_term (hard self)))) ;;
      emit ResetElectionTimer ;;
      with_self (λ self,
        if Config.quorum (configuration self) (votes self) then start_election prospective_term
        else for_each (peers self) (λ peer,
          emit (Send peer (PreVoteRequest prospective_term (id self)
                             (RaftLog.last_index (log self)) (RaftLog.last_term (log self))))))
  end).

Definition on_pre_vote_request (from : NodeId) (prospective_term : Z) (candidate_id : NodeId)
    (last_log_index last_log_term : Z) : handler := with_self (λ self,
  if negb (candidate_id =? from) then skip
  else
    let granted := (current_term (hard self) <? prospective_term)
                   && candidate_log_is_up_to_date self last_log_index last_log_term in
    emit (Send from (PreVoteResponse (current_term (hard self)) prospective_term granted))).

Definition on_pre_vote_response (from : NodeId) (responder_term prospective_term : Z)
    (granted : bool) : handler := with_self (λ self,
  if current_term (hard self) <? responder_term then
    become_follower responder_term None ;;
    emit ResetElectionTimer
  else if negb (bool_decide (role self = PreCandidate))
          || negb (bool_decide (campaign_term self = Some prospective_term))
          || negb granted
  then skip
  else
    modify (set_votes ({[from]} ∪ votes self)) ;;
    with_self (λ self,
      when (Config.quorum (configuration self) (votes self))
        (start_election prospective_term))).

Definition on_vote_request (from : NodeId) (term : Z) (candidate_id : NodeId)
    (last_log_index last_log_term : Z) : handler := with_self (λ self,
  if negb (candidate_id =? from) then skip
  else
    when (current_term (hard self) <? term) (become_follower term None) ;;
    with_self (λ self,
      let granted := (term =? current_term (hard self))
                     && (bool_decide (voted_for (hard self) = None)
                         || bool_decide (voted_for (hard self) = Some candidate_id))
                     && candidate_log_is_up_to_date self last_log_index last_log_term in
      when granted
        (when (negb (bool_decide (voted_for (hard self) = Some candidate_id)))
           (modify (set_hard (set_voted_for (Some candidate_id) (hard self))) ;;
            emit_hard_state) ;;
         modify (set_leader_id None) ;;
         emit ResetElectionTimer) ;;
      with_self (λ self,
        emit (Send from (RequestVoteResponse (current_term (hard self)) granted))))).

Definition on_vote_response (from : NodeId) (term : Z) (granted : bool) : handler :=
  with_self (λ self,
  if current_term (hard self) <? term then
    become_follower term None ;;
    emit ResetElectionTimer
  else if negb (bool_decide (role self = Candidate))
          || negb (term =? current_term (hard self))
          || negb granted
  then skip
  else
    modify (set_votes ({[from]} ∪ votes self)) ;;
    with_self (λ self,
      when (Config.quorum (configuration self) (votes self)) become_leader)).

(** ** Log replication, follower side *)

Definition reject_append (to : NodeId) (read_context : option bytes) (conflict_index : Z)
    (conflict_term : option Z) : handler := with_self (λ self,
  emit (Send to (AppendEntriesResponse (current_term (hard self)) false 0 conflict_index
                   conflict_term read_context))).

(** How the scan over the received entries ends. *)
Inductive scan : Type :=
| ScanMatched                                 (* every entry is already in the log *)
| ScanChanged (from_index : Z) (position : nat)
| ScanReplacesCommitted (index : Z)
| ScanGap.

Fixpoint scan_entries (self : Raft) (position : nat) (entries : list LogEntry) : scan :=
  match entries with
  | [] => ScanMatched
  | entry :: entries =>
      match RaftLog.term (log self) (e_index entry) with
      | Some local_term =>
          if local_term =? e_term entry then scan_entries self (S position) entries
          else if e_index entry <=? commit_index (hard self)
          then ScanReplacesCommitted (e_index entry)
          else ScanChanged (e_index entry) position
      | None =>
          if negb (e_index entry =? (RaftLog.last_index (log self) + 1)%u64) then ScanGap
          else ScanChanged (e_index entry) position
      end
  end.

Definition install_suffix (from_index : Z) (suffix : list LogEntry) : handler :=
  with_self (λ self,
  let replacing := from_index <=? RaftLog.last_index (log self) in
  modify (set_log (RaftLog.truncate_and_append (log self) from_index suffix)) ;;
  emit (Persist (if replacing then MTruncateAndAppend from_index suffix
                 else MAppend suffix))).

Definition on_append_entries (from : NodeId) (term : Z) (leader_id : NodeId)
    (prev_log_index prev_log_term : Z) (entries : list LogEntry) (leader_commit : Z)
    (read_context : option bytes) : handler := with_self (λ self,
  if negb (leader_id =? from) then skip
  else if term <? current_term (hard self) then
    reject_append from read_context (RaftLog.last_index (log self) + 1)%u64 None
  else
    become_follower term (Some from) ;;
    emit ResetElectionTimer ;;
    with_self (λ self,
      if prev_log_index <? RaftLog.base_index (log self) then
        reject_append from read_context (RaftLog.base_index (log self) + 1)%u64
          (Some (RaftLog.base_term (log self)))
      else match RaftLog.term (log self) prev_log_index with
      | None => reject_append from read_context (RaftLog.last_index (log self) + 1)%u64 None
      | Some local_prev_term =>
          if negb (local_prev_term =? prev_log_term) then
            reject_append from read_context
              (RaftLog.first_index_of_term (log self) prev_log_index local_prev_term)
              (Some local_prev_term)
          else if negb (valid_entry_sequence prev_log_index prev_log_term term entries) then
            reject_append from read_context (prev_log_index + 1)%u64 None
          else
            let matched := (prev_log_index + zlen entries)%u64 in
            let finish :=
              with_self (λ self,
                set_commit (Z.min leader_commit (RaftLog.last_index (log self)))) ;;
              with_self (λ self,
                emit (Send from (AppendEntriesResponse (current_term (hard self)) true matched 0
                                   None read_context))) in
            match scan_entries self 0 entries with
            | ScanReplacesCommitted index =>
                emit (Fatal ("leader attempted to replace committed index " +:+ pretty index))
            | ScanGap =>
                reject_append from read_context (RaftLog.last_index (log self) + 1)%u64 None
            | ScanMatched => finish
            | ScanChanged from_index position =>
                install_suffix from_index (drop position entries) ;; finish
            end
      end)).

(** ** Log replication, leader side, and linearizable reads *)

Definition complete_read (context : bytes) : handler := with_self (λ self,
  match pending_reads self !! context with
  | None => skip
  | Some pending =>
      modify (set_pending_reads (delete context (pending_reads self))) ;;
      emit (ReadReady context (read_at pending))
  end).

Definition acknowledge_read (from : NodeId) (context : bytes) : handler := with_self (λ self,
  match pending_reads self !! context with
  | None => skip
  | Some pending =>
      let pending := {| read_at := read_at pending;
                        acknowledgements := {[from]} ∪ acknowledgements pending |} in
      modify (set_pending_reads (<[context := pending]> (pending_reads self))) ;;
      when (Config.quorum (configuration self) (acknowledgements pending))
        (complete_read context)
  end).

Definition on_append_response (from : NodeId) (term : Z) (success : bool)
    (matched conflict_index : Z) (conflict_term : option Z) (read_context : option bytes)
    : handler := with_self (λ self,
  if current_term (hard self) <? term then
    become_follower term None ;;
    emit ResetElectionTimer
  else if negb (is_leader self) || negb (term =? current_term (hard self)) then skip
  else
    modify (set_recent_active ({[from]} ∪ recent_active self)) ;;
    match read_context with
    | Some context => acknowledge_read from context
    | None => skip
    end ;;
    if success then
      with_self (λ self,
        match progress self !! from with
        | None => skip
        | Some p => modify (set_progress (<[from := {|
            match_index := Z.max (match_index p) matched;
            next_index := Z.max (next_index p) (saturating_add matched 1);
            snapshot_offset := None |}]> (progress self)))
        end) ;;
      advance_leader_commit ;;
      with_self (λ self,
        when (matched <? RaftLog.last_index (log self)) (send_append from None))
    else
      with_self (λ self,
        let next := Z.max
          match conflict_term ≫= RaftLog.last_index_of_term (log self) with
          | None => conflict_index
          | Some index => (index + 1)%u64
          end 1 in
        match progress self !! from with
        | None => skip
        | Some p => modify (set_progress (<[from := {|
            match_index := match_index p;
            next_index := Z.min next (Z.max (saturating_sub (next_index p) 1) 1);
            snapshot_offset := None |}]> (progress self)))
        end) ;;
      send_append from None).

Definition propose (command_id : CommandId) (command : bytes) : handler := with_self (λ self,
  if negb (is_leader self) then emit (ProposalRejected command_id (leader_id self))
  else
    let entry := {| e_index := (RaftLog.last_index (log self) + 1)%u64;
                    e_term := current_term (hard self);
                    e_payload := Command command_id command |} in
    modify (set_log (RaftLog.append (log self) [entry])) ;;
    match progress self !! id self with
    | None => skip
    | Some p => modify (set_progress (<[id self := {|
        match_index := e_index entry;
        next_index := (e_index entry + 1)%u64;
        snapshot_offset := snapshot_offset p |}]> (progress self)))
    end ;;
    emit (Persist (MAppend [entry])) ;;
    advance_leader_commit ;;
    broadcast_append None).

Definition read_index (context : bytes) : handler := with_self (λ self,
  if negb (is_leader self) then emit (ReadRejected context ReadNotLeader)
  else if is_empty context || bool_decide (is_Some (pending_reads self !! context)) then
    emit (ReadRejected context ReadInvalidContext)
  else if negb (bool_decide (RaftLog.term (log self) (commit_index (hard self))
                             = Some (current_term (hard self)))) then
    emit (ReadRejected context ReadLeaderNotReady)
  else
    let pending := {| read_at := commit_index (hard self);
                      acknowledgements := {[id self]} |} in
    modify (set_pending_reads (<[context := pending]> (pending_reads self))) ;;
    if Config.quorum (configuration self) (acknowledgements pending) then complete_read context
    else with_self (λ self,
      for_each (peers self) (λ peer, send_append peer (Some context)))).

(** ** Snapshots *)

Definition snapshot_built (s : PersistentSnapshot) : handler := with_self (λ self,
  let md := metadata s in
  let valid :=
    Snapshot.validate s
    && bool_decide (sm_configuration md = configuration self)
    && (RaftLog.base_index (log self) <=? last_included_index md)
    && (last_included_index md <=? applied self)
    && bool_decide (RaftLog.term (log self) (last_included_index md)
                    = Some (last_included_term md)) in
  if negb valid then
    emit (SnapshotRejected "snapshot hash, membership, or applied log boundary is invalid")
  else
    modify (set_log (RaftLog.compact (log self) (last_included_index md)
                       (last_included_term md) true)) ;;
    modify (set_snap (Some s)) ;;
    with_self (λ self,
      emit (Persist (MCompactSnapshot s (RaftLog.all_entries (log self)))))).

Definition snapshot_reply (to : NodeId) (accepted : bool) (next_offset : Z) (done : bool)
    (matched : Z) : handler := with_self (λ self,
  emit (Send to (InstallSnapshotResponse (current_term (hard self)) accepted next_offset done
                   matched))).

Definition install_incoming (from : NodeId) (md : SnapshotMetadata) : handler :=
  with_self (λ self,
  match incoming_snapshot self with
  | None => emit (Fatal "completed snapshot transfer disappeared before install")
  | Some inc =>
      modify (set_incoming_snapshot None) ;;
      let s := {| metadata := in_metadata inc; data := in_data inc |} in
      let retain_suffix :=
        bool_decide (RaftLog.term (log self) (last_included_index md)
                     = Some (last_included_term md)) in
      modify (set_log (RaftLog.compact (log self) (last_included_index md)
                         (last_included_term md) retain_suffix)) ;;
      modify (set_snap (Some s)) ;;
      modify (set_hard (set_commit_index
        (Z.max (commit_index (hard self)) (last_included_index md)) (hard self))) ;;
      modify (set_applied (last_included_index md)) ;;
      with_self (λ self,
        emit (Persist (MInstallSnapshot s (RaftLog.all_entries (log self)) (hard self)))) ;;
      snapshot_reply from true (byte_len md) true (last_included_index md)
  end).

Definition accept_chunk (from : NodeId) (md : SnapshotMetadata) (offset : Z) (chunk : bytes)
    (done : bool) : handler := with_self (λ self,
  match incoming_snapshot self with
  | None => snapshot_reply from false 0 false 0
  | Some inc =>
      if negb (bool_decide (in_metadata inc = md)) then snapshot_reply from false 0 false 0
      else
        let expected := zlen (in_data inc) in
        if offset <? expected then
          match usize_try_from offset with
          | None => snapshot_reply from false expected false 0
          | Some start =>
              let end_ := saturating_add start (zlen chunk) in
              let duplicate_matches :=
                bool_decide (slice_get (in_data inc) start end_ = Some chunk) in
              snapshot_reply from duplicate_matches expected false 0
          end
        else if negb (offset =? expected)
                || (byte_len md <? saturating_add expected (zlen chunk)) then
          snapshot_reply from false expected false 0
        else
          let inc := {| in_metadata := in_metadata inc; in_data := in_data inc ++ chunk |} in
          modify (set_incoming_snapshot (Some inc)) ;;
          let next_offset := zlen (in_data inc) in
          if negb done then snapshot_reply from true next_offset false 0
          else if negb (next_offset =? byte_len md)
                  || negb (bool_decide (sha256 (in_data inc) = sm_sha256 md)) then
            modify (set_incoming_snapshot None) ;;
            snapshot_reply from false 0 false 0
          else install_incoming from md
  end).

Definition on_install_snapshot (from : NodeId) (term : Z) (leader_id : NodeId)
    (md : SnapshotMetadata) (offset : Z) (chunk : bytes) (done : bool) : handler :=
  with_self (λ self,
  if negb (leader_id =? from) then skip
  else if term <? current_term (hard self) then snapshot_reply from false 0 false 0
  else
    become_follower term (Some from) ;;
    emit ResetElectionTimer ;;
    with_self (λ self,
      if negb (bool_decide (sm_configuration md = configuration self))
         || (MAX_SNAPSHOT_BYTES <? byte_len md)
         || (last_included_index md =? 0) then
        modify (set_incoming_snapshot None) ;;
        snapshot_reply from false 0 false 0
      else match usize_try_from (byte_len md) with
      | None =>
          modify (set_incoming_snapshot None) ;;
          snapshot_reply from false 0 false 0
      | Some _ =>
          if last_included_index md <=? applied self then
            snapshot_reply from true (byte_len md) true (last_included_index md)
          else
            let same_transfer :=
              match incoming_snapshot self with
              | None => false
              | Some inc => bool_decide (in_metadata inc = md)
              end in
            when ((offset =? 0) && negb same_transfer)
              (modify (set_incoming_snapshot (Some {| in_metadata := md; in_data := [] |}))) ;;
            accept_chunk from md offset chunk done
      end)).

Definition on_snapshot_response (from : NodeId) (term : Z) (accepted : bool) (next_offset : Z)
    (done : bool) (matched : Z) : handler := with_self (λ self,
  if current_term (hard self) <? term then
    become_follower term None ;;
    emit ResetElectionTimer
  else if negb (is_leader self) || negb (term =? current_term (hard self)) then skip
  else
    modify (set_recent_active ({[from]} ∪ recent_active self)) ;;
    with_self (λ self,
      match progress self !! from with
      | None => skip
      | Some p =>
          (if done && accepted then
             modify (set_progress (<[from := {|
               match_index := Z.max (match_index p) matched;
               next_index := Z.max (next_index p) (matched + 1)%u64;
               snapshot_offset := None |}]> (progress self))) ;;
             advance_leader_commit
           else
             modify (set_progress (<[from := {|
               match_index := match_index p;
               next_index := next_index p;
               snapshot_offset := Some (if accepted then next_offset else 0) |}]>
               (progress self)))) ;;
          send_append from None
      end)).

(** ** Dispatch *)

Definition on_tick (tick : Tick) : handler := with_self (λ self,
  match tick with
  | Election => when (negb (is_leader self)) start_pre_vote
  | Heartbeat =>
      when (is_leader self) (broadcast_append None ;; emit ResetHeartbeatTimer)
  | CheckQuorum =>
      when (is_leader self)
        (if Config.quorum (configuration self) (recent_active self) then
           modify (set_recent_active {[id self]}) ;;
           broadcast_append None
         else
           become_follower (current_term (hard self)) None ;;
           emit ResetElectionTimer)
  end).

Definition on_message (from : NodeId) (message : Message) : handler := with_self (λ self,
  if negb (Config.contains (configuration self) from) || (from =? id self) then skip
  else match message with
  | PreVoteRequest prospective_term candidate_id last_log_index last_log_term =>
      on_pre_vote_request from prospective_term candidate_id last_log_index last_log_term
  | PreVoteResponse responder_term prospective_term granted =>
      on_pre_vote_response from responder_term prospective_term granted
  | RequestVote term candidate_id last_log_index last_log_term =>
      on_vote_request from term candidate_id last_log_index last_log_term
  | RequestVoteResponse term granted => on_vote_response from term granted
  | AppendEntries term leader_id prev_log_index prev_log_term entries leader_commit read_context =>
      on_append_entries from term leader_id prev_log_index prev_log_term entries leader_commit
        read_context
  | AppendEntriesResponse term success matched conflict_index conflict_term read_context =>
      on_append_response from term success matched conflict_index conflict_term read_context
  | InstallSnapshot term leader_id md offset chunk done =>
      on_install_snapshot from term leader_id md offset chunk done
  | InstallSnapshotResponse term accepted next_offset done matched =>
      on_snapshot_response from term accepted next_offset done matched
  end).

Definition dispatch (input : Input) : handler :=
  match input with
  | InTick tick => on_tick tick
  | InMessage from message => on_message from message
  | InPropose id command => propose id command
  | InReadIndex context => read_index context
  | InSnapshotBuilt s => snapshot_built s
  end.

Definition step (input : Input) : handler := apply_committed ;; dispatch input.

End Node.
