(* ===== verification/RaftStore.v ===== *)
(** * Durable Raft state: [crates/aster-runtime/src/stable.rs]

    [StableStore] keeps the image of the Raft state on disk and refuses every
    mutation that would break it.  The JSON encoding and the file system
    calls of [publish], and the calls into the database, are parameters: the
    class [StoreIo] gives their outcomes. *)

From S2P Require Import Prelude RaftTypes RaftLogs RaftNode.

Inductive RuntimeError : Type :=
| Io (reason : string)
| Corruption (reason : string)
| Limit (reason : string)
| Database (reason : string)
| Fenced (reason : string).

(** Outcomes of the serializer, the file system and the database. *)
Class StoreIo := {
  io_publish : StableState → result RuntimeError unit;
  io_publish_intent : PersistentSnapshot → result RuntimeError unit;
  io_entry_bytes : list LogEntry → result RuntimeError Z;
  db_install : PersistentSnapshot → result RuntimeError unit;
  db_apply : LogEntry → result RuntimeError unit
}.

(** Every external call succeeds. *)
Class StoreIoOk `{StoreIo} : Prop := {
  io_publish_ok : ∀ st, io_publish st = Ok tt;
  io_publish_intent_ok : ∀ s, io_publish_intent s = Ok tt;
  io_entry_bytes_ok : ∀ es, is_ok (io_entry_bytes es) = true;
  db_install_ok : ∀ s, db_install s = Ok tt;
  db_apply_ok : ∀ e, db_apply e = Ok tt
}.

Definition STORE_MAX_SNAPSHOT_BYTES : Z := 512 * 1024 * 1024.

Record PendingSnapshotInstall : Type := mkPending {
  p_snapshot : PersistentSnapshot;
  p_retained_entries : list LogEntry;
  p_hard_state : HardState
}.

#[export] Instance PendingSnapshotInstall_eq_dec : EqDecision PendingSnapshotInstall.
Proof. solve_decision. Defined.

Record StableStore : Type := mkStore {
  st_state : StableState;
  pending_install : option PendingSnapshotInstall;
  retained_entry_bytes : Z
}.

Module Store.
Section Store.
Context `{Sha256}.

Definition pending_stable_state (self : PendingSnapshotInstall) : StableState :=
  {| hard_state := p_hard_state self;
     snapshot := Some (p_snapshot self);
     entries := p_retained_entries self;
     applied_index := last_included_index (metadata (p_snapshot self)) |}.

Definition base_index (state : StableState) : Z :=
  match snapshot state with
  | None => 0
  | Some s => last_included_index (metadata s)
  end.

Definition base_term (state : StableState) : Z :=
  match snapshot state with
  | None => 0
  | Some s => last_included_term (metadata s)
  end.

Definition last_index (state : StableState) : Z :=
  match last (entries state) with
  | None => base_index state
  | Some entry => e_index entry
  end.

Definition term_at (state : StableState) (index : Z) : option Z :=
  if (index =? base_index state) && negb (index =? 0) then Some (base_term state)
  else if index <=? base_index state then None
  else offset ← usize_try_from (index - base_index state - 1);
       e_term <$> znth (entries state) offset.

Definition suffix_after (state : StableState) (index : Z) : option (list LogEntry) :=
  if (index <? base_index state) || (last_index state <? index) then None
  else offset ← usize_try_from (index - base_index state);
       slice_from (entries state) offset.

Definition validate_hard_state_monotonic (current next : HardState) : result RuntimeError unit :=
  _ ← ensure (negb ((current_term next <? current_term current)
                    || (commit_index next <? commit_index current)))
        (Corruption "Raft hard state term or commit index regressed");
  ensure (negb ((current_term next =? current_term current)
                && negb (bool_decide (voted_for current = None))
                && negb (bool_decide (voted_for next = voted_for current))))
    (Corruption "persisted vote changed within one term").

Definition validate_hard_state (state : StableState) (next : HardState)
    : result RuntimeError unit :=
  _ ← validate_hard_state_monotonic (hard_state state) next;
  ensure (negb (last_index state <? commit_index next))
    (Corruption ("commit " +:+ pretty (commit_index next) +:+ " is beyond durable log "
                 +:+ pretty (last_index state))).

Definition validate_entry (st : Z * Z) (entry : LogEntry) : result RuntimeError (Z * Z) :=
  let '(expected, previous_term) := st in
  _ ← ensure (negb (negb (e_index entry =? expected) || (e_term entry <? previous_term)))
        (Corruption ("invalid Raft entry sequence at index " +:+ pretty (e_index entry)
                     +:+ " term " +:+ pretty (e_term entry)));
  expected ← ok_or (checked_add expected 1) (Corruption "Raft log index overflow");
  Ok (expected, e_term entry).

Definition validate_entry_sequence (state : StableState) (es : list LogEntry)
    : result RuntimeError unit :=
  expected ← ok_or (checked_add (last_index state) 1) (Corruption "Raft log index overflow");
  let previous_term := match last (entries state) with
                       | None => base_term state
                       | Some entry => e_term entry
                       end in
  _ ← foldM validate_entry (expected, previous_term) es;
  Ok tt.

Definition validate_snapshot (s : PersistentSnapshot) : result RuntimeError unit :=
  ensure (negb (negb (Snapshot.validate s)
                || is_empty (data s)
                || (STORE_MAX_SNAPSHOT_BYTES <? zlen (data s))
                || (last_included_index (metadata s) =? 0)))
    (Corruption "snapshot length, checksum, or boundary is invalid").

Definition validate_indexes (state : StableState) : result RuntimeError unit :=
  _ ← match snapshot state with
      | Some s => validate_snapshot s
      | None => Ok tt
      end;
  let base := base_index state in
  let last := last_index state in
  let commit := commit_index (hard_state state) in
  _ ← ensure (negb ((commit <? base) || (last <? commit)
                    || (applied_index state <? base) || (commit <? applied_index state)))
        (Corruption ("invalid Raft indexes base=" +:+ pretty base +:+ " applied="
                     +:+ pretty (applied_index state) +:+ " commit=" +:+ pretty commit
                     +:+ " last=" +:+ pretty last));
  _ ← match entries state with
      | [] => Ok tt
      | first :: _ =>
          ensure (e_index first =? saturating_add base 1)
            (Corruption ("retained Raft log begins at " +:+ pretty (e_index first)
                         +:+ ", expected " +:+ pretty (saturating_add base 1)))
      end;
  validate_entry_sequence
    {| hard_state := HardState_default; snapshot := snapshot state; entries := [];
       applied_index := base |}
    (entries state).

Context `{StoreIo}.

Definition publish (state : StableState) : result RuntimeError unit :=
  _ ← validate_indexes state;
  _ ← match snapshot state with
      | Some s => validate_snapshot s
      | None => Ok tt
      end;
  io_publish state.

(** The state [persist] is about to publish. *)
Definition next_state (next : StableState) (mutation : StorageMutation)
    : result RuntimeError StableState :=
  match mutation with
  | MHardState hs =>
      _ ← validate_hard_state next hs;
      Ok {| hard_state := hs; snapshot := snapshot next; entries := entries next;
            applied_index := applied_index next |}
  | MAppend es =>
      expected ← ok_or (checked_add (last_index next) 1) (Corruption "Raft log index overflow");
      _ ← match es with
          | [] => Ok tt
          | first :: _ =>
              ensure (e_index first =? expected)
                (Corruption ("Raft append starts at " +:+ pretty (e_index first)
                             +:+ ", expected " +:+ pretty expected))
          end;
      _ ← validate_entry_sequence next es;
      Ok {| hard_state := hard_state next; snapshot := snapshot next;
            entries := entries next ++ es; applied_index := applied_index next |}
  | MTruncateAndAppend from es =>
      _ ← ensure (negb (from <=? commit_index (hard_state next)))
            (Corruption ("attempted to truncate committed Raft index " +:+ pretty from));
      let base := base_index next in
      _ ← ensure (negb (from <=? base))
            (Corruption "attempted to truncate before compacted Raft base");
      keep ← ok_or (usize_try_from (from - base - 1))
               (Corruption "Raft truncate offset overflow");
      _ ← ensure (negb (zlen (entries next) <? keep))
            (Corruption "Raft truncate starts beyond log end");
      let next := {| hard_state := hard_state next; snapshot := snapshot next;
                     entries := ztake keep (entries next); applied_index := applied_index next |} in
      _ ← match es with
          | [] => Ok tt
          | first :: _ =>
              ensure (e_index first =? from)
                (Corruption "replacement Raft suffix starts at the wrong index")
          end;
      _ ← validate_entry_sequence next es;
      Ok {| hard_state := hard_state next; snapshot := snapshot next;
            entries := entries next ++ es; applied_index := applied_index next |}
  | MCompactSnapshot s retained_entries =>
      _ ← validate_snapshot s;
      _ ← ensure (negb (applied_index next <? last_included_index (metadata s)))
            (Corruption "cannot compact beyond the durable applied index");
      _ ← ensure (bool_decide (term_at next (last_included_index (metadata s))
                               = Some (last_included_term (metadata s)))
                  && bool_decide (suffix_after next (last_included_index (metadata s))
                                  = Some retained_entries))
            (Corruption
               "compacted snapshot boundary or retained suffix disagrees with the durable log");
      Ok {| hard_state := hard_state next; snapshot := Some s; entries := retained_entries;
            applied_index := applied_index next |}
  | MInstallSnapshot _ _ _ =>
      Err (Corruption "snapshot install must use the durable cross-file intent path")
  end.

Definition persist (self : StableStore) (mutation : StorageMutation)
    : result RuntimeError StableStore :=
  next ← next_state (st_state self) mutation;
  _ ← validate_indexes next;
  entry_bytes ← io_entry_bytes (entries next);
  _ ← publish next;
  Ok {| st_state := next; pending_install := pending_install self;
        retained_entry_bytes := entry_bytes |}.

Definition begin_snapshot_install (self : StableStore) (s : PersistentSnapshot)
    (retained_entries : list LogEntry) (hs : HardState) : result RuntimeError StableStore :=
  _ ← validate_snapshot s;
  let intent := {| p_snapshot := s; p_retained_entries := retained_entries;
                   p_hard_state := hs |} in
  let desired := pending_stable_state intent in
  _ ← validate_hard_state_monotonic (hard_state (st_state self)) hs;
  _ ← validate_indexes desired;
  let index := last_included_index (metadata s) in
  let matching_boundary :=
    bool_decide (term_at (st_state self) index = Some (last_included_term (metadata s))) in
  let expected_suffix :=
    if matching_boundary then default [] (suffix_after (st_state self) index) else [] in
  _ ← ensure (bool_decide (retained_entries = expected_suffix))
        (Corruption "snapshot install retained a suffix that does not match the durable log");
  _ ← ensure (negb (index <=? applied_index (st_state self)))
        (Corruption ("snapshot install index " +:+ pretty index
                     +:+ " is not newer than applied index "
                     +:+ pretty (applied_index (st_state self))));
  match pending_install self with
  | Some existing =>
      _ ← ensure (bool_decide (existing = intent))
            (Corruption "a different snapshot install intent is already durable");
      Ok self
  | None =>
      _ ← validate_snapshot s;
      _ ← io_publish_intent s;
      Ok {| st_state := st_state self; pending_install := Some intent;
            retained_entry_bytes := retained_entry_bytes self |}
  end.

Definition complete_snapshot_install (self : StableStore) : result RuntimeError StableStore :=
  pending ← ok_or (pending_install self)
              (Corruption "no durable snapshot install intent exists");
  let desired := pending_stable_state pending in
  _ ← validate_indexes desired;
  self ← (if decide (st_state self = desired) then Ok self
          else
            entry_bytes ← io_entry_bytes (entries desired);
            _ ← publish desired;
            Ok {| st_state := desired; pending_install := pending_install self;
                  retained_entry_bytes := entry_bytes |});
  Ok {| st_state := st_state self; pending_install := None;
        retained_entry_bytes := retained_entry_bytes self |}.

Definition mark_applied (self : StableStore) (index : Z) : result RuntimeError StableStore :=
  let state := st_state self in
  if index =? applied_index state then Ok self
  else
    expected ← ok_or (checked_add (applied_index state) 1)
                 (Corruption "Raft applied index overflow");
    _ ← ensure (negb (negb (index =? expected) || (commit_index (hard_state state) <? index)))
          (Corruption ("cannot mark applied index " +:+ pretty index +:+ "; expected "
                       +:+ pretty expected +:+ ", commit is "
                       +:+ pretty (commit_index (hard_state state))));
    let next := {| hard_state := hard_state state; snapshot := snapshot state;
                   entries := entries state; applied_index := index |} in
    _ ← publish next;
    Ok {| st_state := next; pending_install := pending_install self;
          retained_entry_bytes := retained_entry_bytes self |}.

(** [install_received_snapshot] of the runtime. *)
Definition install_received_snapshot (self : StableStore) (s : PersistentSnapshot)
    (retained_entries : list LogEntry) (hs : HardState) : result RuntimeError StableStore :=
  self ← begin_snapshot_install self s retained_entries hs;
  _ ← db_install s;
  complete_snapshot_install self.

(** What one action of [execute_actions] does to the store. *)
Definition execute_action (self : StableStore) (action : Action)
    : result RuntimeError StableStore :=
  match action with
  | Persist (MInstallSnapshot s retained_entries hs) =>
      install_received_snapshot self s retained_entries hs
  | Persist mutation => persist self mutation
  | Apply entry => _ ← db_apply entry; mark_applied self (e_index entry)
  | SnapshotRejected reason =>
      Err (Fenced ("locally built snapshot was rejected: " +:+ reason))
  | Fatal reason => Err (Fenced reason)
  | _ => Ok self
  end.

Definition execute_actions (self : StableStore) (actions : list Action)
    : result RuntimeError StableStore := foldM execute_action self actions.

End Store.
End Store.

#[global] Arguments Store.validate_indexes : simpl never.
#[global] Arguments Store.validate_snapshot : simpl never.
#[global] Arguments Store.validate_entry_sequence : simpl never.
#[global] Arguments Store.validate_hard_state_monotonic : simpl never.
#[global] Arguments Store.publish : simpl never.
