(* ===== verification/RaftLogic.v ===== *)
(** * Well-formed nodes and the durable image

    [stable_wf] is the contract of the durable image and [raft_wf] the
    invariant of a node.  [exec1] is the effect of one action on the durable
    image when every external call succeeds; [sim] is the program logic in
    which the handlers are verified against it. *)

From S2P Require Import Prelude RaftTypes RaftLogs RaftNode RaftStore.

Import RaftLog.

Section Inv.
Context `{Sha256}.

(** ** The durable image *)

Definition st_log (st : StableState) : RaftLog.t := RaftLog.new (snapshot st) (entries st).

Record stable_wf (st : StableState) : Prop := {
  sw_log : log_wf (st_log st);
  sw_room : last_index (st_log st) + 1 ≤ u64_max;
  sw_applied : base_index (st_log st) ≤ applied_index st ≤ commit_index (hard_state st);
  sw_commit : commit_index (hard_state st) ≤ last_index (st_log st);
  sw_snap : ∀ s, snapshot st = Some s → Store.validate_snapshot s = Ok tt
}.

(** The order in which a hard state may evolve: terms and commit indexes do
    not regress and a vote is not changed within its term. *)
Definition hs_le (h h' : HardState) : Prop :=
  current_term h ≤ current_term h' ∧ commit_index h ≤ commit_index h'
  ∧ (current_term h = current_term h' → voted_for h = None ∨ voted_for h' = voted_for h).

#[export] Instance hs_le_preorder : PreOrder hs_le.
Proof.
  split.
  - intros h. unfold hs_le. naive_solver lia.
  - intros h1 h2 h3 (? & ? & Hv) (? & ? & Hw). unfold hs_le. split_and!; [lia..|].
    intros He. destruct Hv as [?|Hv]; [lia|by left|]. destruct Hw as [Hw|Hw]; [lia| |].
    + left. congruence.
    + right. congruence.
Qed.

Lemma store_base_index st : Store.base_index st = base_index (st_log st).
Proof. unfold Store.base_index, st_log, new. by destruct (snapshot st). Qed.

Lemma store_base_term st : Store.base_term st = base_term (st_log st).
Proof. unfold Store.base_term, st_log, new. by destruct (snapshot st). Qed.

Lemma store_entries st : log_entries (st_log st) = entries st.
Proof. unfold st_log, new. by destruct (snapshot st). Qed.

Lemma store_last_index st : Store.last_index st = last_index (st_log st).
Proof.
  unfold Store.last_index, last_index. rewrite store_entries, store_base_index. done.
Qed.

Lemma store_last_term st :
  match last (entries st) with None => Store.base_term st | Some e => e_term e end
  = last_term (st_log st).
Proof. unfold last_term. by rewrite store_entries, store_base_term. Qed.

Lemma validate_entry_ok i tm e :
  e_index e = i → tm ≤ e_term e → i + 1 ≤ u64_max →
  Store.validate_entry (i, tm) e = Ok (i + 1, e_term e).
Proof.
  intros <- Ht Hb. cbn. rewrite Z.eqb_refl. destruct (Z.ltb_spec (e_term e) tm); [lia|]. cbn.
  unfold checked_add. by destruct (Z.leb_spec (e_index e + 1) u64_max); [|lia].
Qed.

(** The entry checks of the store accept exactly the sequences of [seq_from]
    that leave room for one more index. *)
Lemma validate_entries_ok es i tm :
  seq_from i tm es → i + zlen es ≤ u64_max →
  foldM Store.validate_entry (i, tm) es = Ok (i + zlen es, end_term tm es).
Proof.
  revert i tm. induction es as [|e es IH]; intros i tm Hs Hb; cbn [foldM].
  - unfold end_term, zlen; cbn. by rewrite Z.add_0_r.
  - destruct Hs as (Hi & Ht & Hs). rewrite zlen_cons in *. pose proof (zlen_nonneg es).
    rewrite validate_entry_ok by (done || lia). cbn [mbind result_bind].
    rewrite IH by (done || lia). rewrite end_term_cons. f_equal. f_equal. lia.
Qed.

Lemma validate_entry_sequence_ok st es :
  last_index (st_log st) + zlen es + 1 ≤ u64_max →
  seq_from (last_index (st_log st) + 1) (last_term (st_log st)) es →
  Store.validate_entry_sequence st es = Ok tt.
Proof.
  intros Hb Hs. unfold Store.validate_entry_sequence. pose proof (zlen_nonneg es).
  rewrite store_last_index, store_last_term. unfold checked_add.
  destruct (Z.leb_spec (last_index (st_log st) + 1) u64_max); [|lia]. cbn.
  rewrite validate_entries_ok by (done || lia). done.
Qed.

Lemma validate_indexes_ok st : stable_wf st → Store.validate_indexes st = Ok tt.
Proof.
  intros [Hlog Hroom Ha Hc Hsn]. unfold Store.validate_indexes.
  assert (match snapshot st with Some s => Store.validate_snapshot s | None => Ok tt end = Ok tt)
    as ->. { destruct (snapshot st); [by apply Hsn|done]. }
  cbn. rewrite store_base_index, store_last_index.
  replace ((_ <? _) || _ || _ || _) with false.
  2:{ symmetry. rewrite !orb_false_iff, !Z.ltb_ge. lia. }
  cbn. pose proof (wf_seq _ Hlog) as Hs. pose proof (last_index_wf _ Hlog) as Hl.
  rewrite store_entries in *.
  assert (match entries st with
          | [] => Ok tt
          | first :: _ => ensure (e_index first =? saturating_add (base_index (st_log st)) 1)
              (Corruption ("retained Raft log begins at " +:+ pretty (e_index first) +:+
                ", expected " +:+ pretty (saturating_add (base_index (st_log st)) 1)))
          end = Ok tt) as ->.
  { destruct (entries st) as [|e es]; [done|]. destruct Hs as (Hi & _ & _).
    rewrite saturating_add_small, Hi, Z.eqb_refl; [done|].
    rewrite zlen_cons in Hl. pose proof (zlen_nonneg es). lia. }
  cbn. apply validate_entry_sequence_ok.
  - unfold st_log in *; cbn. unfold last_index; cbn. destruct (snapshot st); cbn in *; lia.
  - unfold st_log in *; cbn. unfold last_index, last_term; cbn.
    destruct (snapshot st); cbn in *; done.
Qed.

(** ** The effect of one action *)

Definition exec_mutation (st : StableState) (m : StorageMutation)
    : result RuntimeError StableState :=
  match m with
  | MInstallSnapshot s es hs =>
      let desired := Store.pending_stable_state {| p_snapshot := s; p_retained_entries := es;
                                                   p_hard_state := hs |} in
      _ ← Store.validate_snapshot s;
      _ ← Store.validate_hard_state_monotonic (hard_state st) hs;
      _ ← Store.validate_indexes desired;
      _ ← ensure (bool_decide (es =
            if bool_decide (Store.term_at st (last_included_index (metadata s))
                            = Some (last_included_term (metadata s)))
            then default [] (Store.suffix_after st (last_included_index (metadata s))) else []))
            (Corruption "suffix");
      _ ← ensure (negb (last_included_index (metadata s) <=? applied_index st))
            (Corruption "index");
      Ok desired
  | m => next ← Store.next_state st m; _ ← Store.validate_indexes next; Ok next
  end.

Definition exec1 (st : StableState) (a : Action) : result RuntimeError StableState :=
  match a with
  | Persist m => exec_mutation st m
  | Apply e =>
      let next := {| hard_state := hard_state st; snapshot := snapshot st;
                     entries := entries st; applied_index := e_index e |} in
      _ ← ensure ((e_index e =? applied_index st + 1)
                  && (e_index e <=? commit_index (hard_state st))) (Corruption "apply");
      _ ← Store.validate_indexes next;
      Ok next
  | _ => Ok st
  end.

Lemma validate_monotonic_ok h h' :
  Store.validate_hard_state_monotonic h h' = Ok tt ↔ hs_le h h'.
Proof.
  unfold Store.validate_hard_state_monotonic, hs_le. rewrite result_bind_Ok. split.
  - intros (u & H1%ensure_Ok & H2%ensure_Ok). bool_prop. split_and!; [done..|].
    intros He. rewrite !andb_false_iff, !negb_false_iff, Z.eqb_neq, !bool_decide_eq_true in H2.
    destruct H2 as [[?|?]|?]; [lia|auto..].
  - intros (? & ? & Hv). exists tt. rewrite !ensure_Ok, !negb_true_iff, orb_false_iff, !Z.ltb_ge,
      !andb_false_iff, !negb_false_iff, Z.eqb_neq, !bool_decide_eq_true.
    split; [done|]. destruct (decide (current_term h' = current_term h)) as [He|]; [|auto].
    destruct (Hv (eq_sym He)); auto.
Qed.

Definition with_hard (st : StableState) (hs : HardState) : StableState :=
  {| hard_state := hs; snapshot := snapshot st; entries := entries st;
     applied_index := applied_index st |}.

Definition with_entries (st : StableState) (es : list LogEntry) : StableState :=
  {| hard_state := hard_state st; snapshot := snapshot st; entries := es;
     applied_index := applied_index st |}.

Lemma exec_hard_state st hs :
  stable_wf st → hs_le (hard_state st) hs → stable_wf (with_hard st hs) →
  exec1 st (Persist (MHardState hs)) = Ok (with_hard st hs).
Proof.
  intros Hwf Hle Hwf'. cbn. unfold Store.validate_hard_state.
  rewrite (proj2 (validate_monotonic_ok _ _) Hle). cbn. rewrite store_last_index.
  pose proof (sw_commit _ Hwf'); cbn in *.
  destruct (Z.ltb_spec (last_index (st_log st)) (commit_index hs)); [unfold st_log in *; cbn in *; lia|].
  cbn. rewrite validate_indexes_ok by done. done.
Qed.

Lemma exec_append st es :
  stable_wf st → stable_wf (with_entries st (entries st ++ es)) →
  exec1 st (Persist (MAppend es)) = Ok (with_entries st (entries st ++ es)).
Proof.
  intros Hwf Hwf'. pose proof (sw_log _ Hwf') as Hlog'. pose proof (sw_log _ Hwf) as Hlog.
  pose proof (last_index_wf _ Hlog) as Hl. pose proof (last_index_wf _ Hlog') as Hl'.
  pose proof (wf_seq _ Hlog') as Hs'. pose proof (sw_room _ Hwf) as Hr. pose proof (sw_room _ Hwf') as Hr'.
  rewrite store_entries in Hl, Hl', Hs'. cbn [with_entries entries] in *.
  assert (Hbi : base_index (st_log (with_entries st (entries st ++ es))) = base_index (st_log st)).
  { unfold st_log, new; cbn. by destruct (snapshot st). }
  assert (Hbt : base_term (st_log (with_entries st (entries st ++ es))) = base_term (st_log st)).
  { unfold st_log, new; cbn. by destruct (snapshot st). }
  rewrite Hbi in *. rewrite Hbt in *. rewrite zlen_app in *. apply seq_from_app in Hs' as [_ Hs].
  replace (base_index (st_log st) + 1 + zlen (entries st)) with (last_index (st_log st) + 1) in Hs by lia.
  assert (end_term (base_term (st_log st)) (entries st) = last_term (st_log st)) as Het.
  { unfold last_term, end_term. by rewrite store_entries. }
  rewrite Het in Hs. unfold exec1, exec_mutation, Store.next_state.
  rewrite store_last_index. unfold checked_add.
  destruct (Z.leb_spec (last_index (st_log st) + 1) u64_max); [|lia]. cbn [ok_or mbind result_bind].
  assert (match es with
          | [] => Ok tt
          | first :: _ => ensure (e_index first =? last_index (st_log st) + 1)
              (Corruption ("Raft append starts at " +:+ pretty (e_index first) +:+ ", expected "
                +:+ pretty (last_index (st_log st) + 1)))
          end = Ok tt) as ->.
  { destruct es as [|e es]; [done|]. destruct Hs as (-> & _). by rewrite Z.eqb_refl. }
  cbn [mbind result_bind]. rewrite validate_entry_sequence_ok by (done || lia). cbn.
  fold (with_entries st (entries st ++ es)). by rewrite validate_indexes_ok.
Qed.

Lemma exec_apply st e :
  stable_wf st → e_index e = applied_index st + 1 → e_index e ≤ commit_index (hard_state st) →
  exec1 st (Apply e) = Ok {| hard_state := hard_state st; snapshot := snapshot st;
                             entries := entries st; applied_index := e_index e |}
  ∧ stable_wf {| hard_state := hard_state st; snapshot := snapshot st;
                 entries := entries st; applied_index := e_index e |}.
Proof.
  intros Hwf He Hc.
  assert (stable_wf {| hard_state := hard_state st; snapshot := snapshot st;
                       entries := entries st; applied_index := e_index e |}) as Hwf'.
  { destruct Hwf as [? ? ? ? ?]. split; cbn; try done. unfold st_log in *; cbn in *. lia. }
  split; [|done]. cbn. rewrite validate_indexes_ok by done.
  destruct (Z.eqb_spec (e_index e) (applied_index st + 1)); [|lia].
  destruct (Z.leb_spec (e_index e) (commit_index (hard_state st))); [done|lia].
Qed.

Lemma store_term_at st i : i ≠ 0 → Store.term_at st i = term (st_log st) i.
Proof.
  intros Hi. unfold Store.term_at, term. rewrite store_base_index, store_base_term, store_entries.
  destruct (Z.eqb_spec i 0); [done|]. destruct (Z.eqb_spec i (base_index (st_log st))); cbn; [done|].
  destruct (Z.leb_spec i (base_index (st_log st))), (Z.ltb_spec i (base_index (st_log st))); done || lia.
Qed.

Lemma store_suffix_after st i :
  log_wf (st_log st) → base_index (st_log st) ≤ i ≤ last_index (st_log st) → i < u64_max →
  Store.suffix_after st i = Some (entries_from (st_log st) (i + 1) usize_max).
Proof.
  intros Hlog Hi Hu. pose proof (last_index_wf _ Hlog) as Hl. pose proof (wf_base _ Hlog).
  unfold Store.suffix_after. rewrite store_base_index, store_last_index.
  destruct (Z.ltb_spec i (base_index (st_log st))); [lia|].
  destruct (Z.ltb_spec (last_index (st_log st)) i); [lia|]. cbn.
  unfold usize_try_from, usize_max at 1. destruct (Z.leb_spec (i - base_index (st_log st)) u64_max); [|lia].
  cbn. rewrite entries_from_drop by (done || lia). rewrite store_entries in *.
  unfold slice_from. destruct (Z.leb_spec (i - base_index (st_log st)) (zlen (entries st))); [|lia].
  f_equal. f_equal. lia.
Qed.

Lemma st_log_with_entries st es :
  st_log (with_entries st es) =
  {| base_index := base_index (st_log st); base_term := base_term (st_log st); log_entries := es |}.
Proof. unfold st_log, new; cbn. by destruct (snapshot st). Qed.

Lemma exec_truncate st from es :
  stable_wf st → commit_index (hard_state st) < from ≤ last_index (st_log st) →
  let es' := log_entries (truncate_and_append (st_log st) from es) in
  (∃ tm, term (st_log st) (from - 1) = Some tm ∧ seq_from from tm es) → from + zlen es ≤ u64_max →
  stable_wf (with_entries st es') →
  exec1 st (Persist (MTruncateAndAppend from es)) = Ok (with_entries st es').
Proof.
  intros Hwf Hf es' (tm & Ht & Hs) Hb Hwf'. pose proof (sw_log _ Hwf) as Hlog.
  pose proof (last_index_wf _ Hlog) as Hl. pose proof (sw_room _ Hwf) as Hr.
  pose proof (sw_applied _ Hwf) as Ha. pose proof (wf_base _ Hlog) as Hbase.
  pose proof (zlen_nonneg es).
  unfold exec1, exec_mutation, Store.next_state. rewrite store_base_index.
  destruct (Z.leb_spec from (commit_index (hard_state st))); [lia|]. cbn [negb ensure mbind result_bind].
  destruct (Z.leb_spec from (base_index (st_log st))); [lia|]. cbn [negb ensure mbind result_bind].
  unfold usize_try_from, usize_max.
  destruct (Z.leb_spec (from - base_index (st_log st) - 1) u64_max); [|lia].
  cbn [ok_or negb ensure mbind result_bind].
  rewrite store_entries in Hl.
  destruct (Z.ltb_spec (zlen (entries st)) (from - base_index (st_log st) - 1)); [lia|].
  cbn [ok_or negb ensure mbind result_bind].
  assert (match es with
          | [] => Ok tt
          | first :: _ => ensure (e_index first =? from)
              (Corruption "replacement Raft suffix starts at the wrong index")
          end = Ok tt) as ->.
  { destruct es as [|e es0]; [done|]. destruct Hs as (-> & _). by rewrite Z.eqb_refl. }
  cbn [mbind result_bind].
  assert (Htr : st_log (with_entries st (ztake (from - base_index (st_log st) - 1) (entries st)))
          = truncated (st_log st) from).
  { rewrite st_log_with_entries. unfold truncated. by rewrite store_entries. }
  destruct (truncated_wf (st_log st) from Hlog ltac:(lia)) as [Hwft Hlt].
  fold (with_entries st (ztake (from - base_index (st_log st) - 1) (entries st))).
  rewrite validate_entry_sequence_ok; [|by rewrite Htr, Hlt; lia|].
  2:{ rewrite Htr, Hlt, Z.sub_add. rewrite last_term_truncated in Ht by (done || lia). by simplify_eq. }
  cbn [mbind result_bind].
  assert (Heq : es' = ztake (from - base_index (st_log st) - 1) (entries st) ++ es).
  { unfold es'. rewrite truncate_and_append_eq by (done || lia). cbn. by rewrite store_entries. }
  rewrite Heq in *. pose proof (validate_indexes_ok _ Hwf') as Hv.
  unfold with_entries in Hv |- *; cbn in Hv |- *. by rewrite Hv.
Qed.

Definition compacted (st : StableState) (s : PersistentSnapshot) : StableState :=
  {| hard_state := hard_state st; snapshot := Some s;
     entries := log_entries (compact (st_log st) (last_included_index (metadata s))
                               (last_included_term (metadata s)) true);
     applied_index := applied_index st |}.

Lemma st_log_compacted st s :
  st_log (compacted st s) = compact (st_log st) (last_included_index (metadata s))
                              (last_included_term (metadata s)) true.
Proof. done. Qed.

Lemma exec_compact st s :
  stable_wf st → Store.validate_snapshot s = Ok tt →
  last_included_index (metadata s) ≠ 0 →
  last_included_index (metadata s) ≤ applied_index st →
  term (st_log st) (last_included_index (metadata s)) = Some (last_included_term (metadata s)) →
  exec1 st (Persist (MCompactSnapshot s (entries (compacted st s)))) = Ok (compacted st s)
  ∧ stable_wf (compacted st s).
Proof.
  intros Hwf Hv H0 Hle Ht. pose proof (sw_log _ Hwf) as Hlog. pose proof (sw_room _ Hwf) as Hr.
  pose proof (term_bound _ _ _ Hlog Ht) as Hb.
  destruct (compact_wf _ _ _ Hlog Ht) as [Hlog' Hl'].
  assert (stable_wf (compacted st s)) as Hwf'.
  { destruct Hwf as [_ _ Ha Hc _]. split; rewrite ?st_log_compacted; cbn [compacted hard_state applied_index snapshot].
    - done.
    - lia.
    - cbn. lia.
    - lia.
    - intros ? [= <-]. done. }
  split; [|done]. unfold exec1, exec_mutation, Store.next_state. rewrite Hv. cbn [mbind result_bind].
  destruct (Z.ltb_spec (applied_index st) (last_included_index (metadata s))); [lia|].
  cbn [negb ensure mbind result_bind]. rewrite store_term_at, Ht by done.
  rewrite bool_decide_true by done. rewrite store_suffix_after by (done || lia).
  rewrite bool_decide_true.
  - cbn [andb ensure mbind result_bind]. fold (compacted st s). by rewrite validate_indexes_ok.
  - cbn. by rewrite wrapping_add_small by (pose proof (wf_base _ Hlog); lia).
Qed.

Definition installed (st : StableState) (s : PersistentSnapshot) (hs : HardState) : StableState :=
  let md := metadata s in
  {| hard_state := hs; snapshot := Some s;
     entries := log_entries (compact (st_log st) (last_included_index md) (last_included_term md)
       (bool_decide (term (st_log st) (last_included_index md) = Some (last_included_term md))));
     applied_index := last_included_index md |}.

Lemma st_log_installed st s hs :
  let md := metadata s in
  st_log (installed st s hs) = compact (st_log st) (last_included_index md) (last_included_term md)
    (bool_decide (term (st_log st) (last_included_index md) = Some (last_included_term md))).
Proof. done. Qed.

Lemma installed_log st s hs :
  stable_wf st → 0 ≤ last_included_index (metadata s) < u64_max →
  log_wf (st_log (installed st s hs))
  ∧ last_included_index (metadata s) ≤ last_index (st_log (installed st s hs)) < u64_max.
Proof.
  intros Hwf Hu. pose proof (sw_log _ Hwf) as Hlog. pose proof (sw_room _ Hwf).
  rewrite st_log_installed. case_bool_decide as Ht.
  - destruct (compact_wf _ _ _ Hlog Ht) as [? ->]. split; [done|].
    pose proof (term_bound _ _ _ Hlog Ht). lia.
  - split; [apply compact_discard_wf; ulia|]. unfold last_index; cbn. lia.
Qed.

Lemma exec_install st s hs :
  stable_wf st → Store.validate_snapshot s = Ok tt → hs_le (hard_state st) hs →
  applied_index st < last_included_index (metadata s) < u64_max →
  stable_wf (installed st s hs) →
  exec1 st (Persist (MInstallSnapshot s (entries (installed st s hs)) hs))
  = Ok (installed st s hs).
Proof.
  intros Hwf Hv Hle Hu Hwf'. pose proof (sw_log _ Hwf) as Hlog. pose proof (wf_base _ Hlog).
  pose proof (sw_applied _ Hwf) as Ha.
  unfold exec1, exec_mutation. rewrite Hv. cbn [mbind result_bind].
  rewrite (proj2 (validate_monotonic_ok _ _) Hle). cbn [mbind result_bind].
  change (Store.pending_stable_state _) with (installed st s hs).
  rewrite validate_indexes_ok by done. cbn [mbind result_bind].
  rewrite bool_decide_true.
  - cbn [ensure mbind result_bind].
    destruct (Z.leb_spec (last_included_index (metadata s)) (applied_index st)); [lia|done].
  - rewrite store_term_at by lia. unfold installed; cbn. case_bool_decide as Ht; [|done].
    pose proof (term_bound _ _ _ Hlog Ht). rewrite store_suffix_after by (done || lia). cbn.
    by rewrite wrapping_add_small by lia.
Qed.
End Inv.

(** ** A program logic for the handlers of the Raft core

    [runs] executes a list of actions on the durable image, one action at a
    time, with an obligation on each ([act_ok]: what must already be durable
    when the action becomes visible).  [wp] is the weakest precondition of a
    handler over a node and its durable image.  [raft_wf] is the invariant of
    a node; [grants v t] stands for "voter [v] granted this node its vote in
    term [t]" and is instantiated by the message history of a cluster. *)

Import RaftLog.

Section Logic.
Context `{Sha256}.
Context (me : NodeId) (cfg : Configuration) (grants : NodeId → Z → Prop).

(** ** The durable image: contract and evolution *)

Record disk_ok (st : StableState) : Prop := {
  do_wf : stable_wf st;
  do_term : last_term (st_log st) ≤ current_term (hard_state st);
  do_cfg : ∀ s, snapshot st = Some s → sm_configuration (metadata s) = cfg
}.

(** Hard state, applied index and base move forward only, and an entry at or
    below the commit index is never replaced. *)
Record disk_le (st st' : StableState) : Prop := {
  dl_hard : hs_le (hard_state st) (hard_state st');
  dl_applied : applied_index st ≤ applied_index st';
  dl_base : base_index (st_log st) ≤ base_index (st_log st');
  dl_kept : ∀ i, base_index (st_log st') < i ≤ commit_index (hard_state st) →
            entry (st_log st') i = entry (st_log st) i
}.

#[local] Instance disk_le_preorder : PreOrder disk_le.
Proof.
  split.
  - intros st. split; done || reflexivity.
  - intros st1 st2 st3 [H1 ? ? K1] [H2 ? ? K2]. split; try lia.
    + by transitivity (hard_state st2).
    + intros i Hi. destruct H1 as (_ & Hc & _). rewrite K2 by lia. apply K1. lia.
Qed.

(** ** What must be durable when an action becomes visible *)

Definition msg_ok (st : StableState) (to : NodeId) (m : Message) : Prop :=
  let hs := hard_state st in
  let l := st_log st in
  match m with
  | PreVoteRequest pt c li lt =>
      pt = current_term hs + 1 ∧ c = me ∧ li = last_index l ∧ lt = last_term l
  | PreVoteResponse rt _ _ => rt = current_term hs
  | RequestVote t c li lt =>
      t = current_term hs ∧ c = me ∧ voted_for hs = Some me
      ∧ li = last_index l ∧ lt = last_term l
  | RequestVoteResponse t granted =>
      t = current_term hs ∧ (granted = true → voted_for hs = Some to)
  | AppendEntries t c prev prev_term es commit _ =>
      t = current_term hs ∧ c = me ∧ voted_for hs = Some me ∧ commit = commit_index hs
      ∧ term l prev = Some prev_term ∧ zlen es ≤ MAX_APPEND_ENTRIES
      ∧ prev + zlen es ≤ last_index l
      ∧ (∀ k e, znth es k = Some e → entry l (prev + 1 + k) = Some e)
  | AppendEntriesResponse t success m _ _ _ =>
      t = current_term hs ∧ (success = true → m ≤ last_index l)
  | InstallSnapshot t c md _ _ _ =>
      t = current_term hs ∧ c = me ∧ voted_for hs = Some me
      ∧ ∃ s, snapshot st = Some s ∧ metadata s = md
  | InstallSnapshotResponse t _ _ done m =>
      t = current_term hs ∧ (done = true → m ≤ applied_index st)
  end.

Definition fatal_ok (st : StableState) (reason : string) : Prop :=
  reason = "term counter exhausted"
  ∨ ∃ i, reason = "leader attempted to replace committed index " +:+ pretty i
         ∧ i ≤ commit_index (hard_state st).

Definition elected (t : Z) : Prop :=
  ∃ vs, Config.quorum cfg vs = true ∧ ∀ v, v ∈ vs → v = me ∨ grants v t.

Definition act_ok (st : StableState) (a : Action) : Prop :=
  let hs := hard_state st in
  match a with
  | Send to m => msg_ok st to m
  | RoleChanged Leader t => t = current_term hs ∧ voted_for hs = Some me ∧ elected t
  | RoleChanged Candidate t => t = current_term hs ∧ voted_for hs = Some me
  | RoleChanged _ t => t = current_term hs
  | Apply e => entry (st_log st) (e_index e) = Some e
               ∧ e_index e = applied_index st + 1 ∧ e_index e ≤ commit_index hs
  | ProposalCommitted i index =>
      index ≤ applied_index st ∧ ∃ t b, entry (st_log st) index = Some (mkLogEntry index t (Command i b))
  | ReadReady _ index => index ≤ applied_index st
  | Fatal reason => fatal_ok st reason
  | _ => True
  end.

Inductive runs : StableState → list Action → StableState → Prop :=
| runs_nil st : runs st [] st
| runs_cons st a st1 acts st2 :
    act_ok st a → exec1 st a = Ok st1 → disk_ok st1 → disk_le st st1 →
    runs st1 acts st2 → runs st (a :: acts) st2.

Lemma runs_app st1 a st2 b st3 : runs st1 a st2 → runs st2 b st3 → runs st1 (a ++ b) st3.
Proof. induction 1; [done|]. intros. econstructor; eauto. Qed.

Lemma runs_le st acts st' : runs st acts st' → disk_le st st'.
Proof. induction 1; [reflexivity|]. by transitivity st1. Qed.

(** ** Weakest preconditions *)

Definition wp (m : handler) (Q : StableState → Raft → Prop) (st : StableState) (s : Raft) : Prop :=
  ∃ st', runs st (m s).2 st' ∧ Q st' (m s).1.

Implicit Types (m : handler) (Q : StableState → Raft → Prop).

Lemma wp_mono m Q Q' st s : wp m Q st s → (∀ st s, Q st s → Q' st s) → wp m Q' st s.
Proof. intros (st' & ? & ?) HQ. exists st'. auto. Qed.

Lemma wp_seq m1 m2 Q st s : wp m1 (wp m2 Q) st s → wp (seq m1 m2) Q st s.
Proof.
  intros (st1 & R1 & st2 & R2 & HQ). unfold wp, seq. destruct (m1 s) as [s1 a1]; cbn in *.
  destruct (m2 s1) as [s2 a2]; cbn in *. exists st2. split; [by eapply runs_app|done].
Qed.

Lemma wp_skip Q st s : Q st s → wp skip Q st s.
Proof. intros. exists st. split; [constructor|done]. Qed.

Lemma wp_modify f Q st s : Q st (f s) → wp (modify f) Q st s.
Proof. intros. exists st. split; [constructor|done]. Qed.

Lemma wp_with_self k Q st s : wp (k s) Q st s → wp (with_self k) Q st s.
Proof. done. Qed.

Lemma wp_when (c : bool) m Q st s :
  (c = true → wp m Q st s) → (c = false → Q st s) → wp (when c m) Q st s.
Proof. destruct c; intros ? ?; [auto|]. apply wp_skip. auto. Qed.

Lemma wp_emit a Q st st' s :
  act_ok st a → exec1 st a = Ok st' → disk_ok st' → disk_le st st' → Q st' s → wp (emit a) Q st s.
Proof. intros. exists st'. split; [econstructor; eauto; constructor|done]. Qed.

(** An action that does not touch the durable image. *)
Definition volatile (a : Action) : Prop :=
  match a with Persist _ | Apply _ => False | _ => True end.

Lemma wp_emit_volatile a Q st s :
  volatile a → disk_ok st → act_ok st a → Q st s → wp (emit a) Q st s.
Proof.
  intros Hv ?? HQ. apply (wp_emit a Q st st); [done| |done|reflexivity|done].
  by destruct a.
Qed.

Lemma wp_for_each {A} (l : list A) body (I : StableState → Raft → Prop) st s :
  I st s → (∀ x st s, x ∈ l → I st s → wp (body x) I st s) → wp (for_each l body) I st s.
Proof.
  intros HI Hb. revert st s HI. induction l as [|x l IH]; intros st s HI; cbn.
  - by apply wp_skip.
  - apply wp_seq. eapply wp_mono; [apply Hb; [left|done]|].
    intros st1 s1 ?. apply IH; [|done]. intros. apply Hb; [by right|done].
Qed.

(** ** The invariant of a node *)

Record core_wf (s : Raft) : Prop := {
  cw_id : id s = me;
  cw_cfg : configuration s = cfg;
  cw_log : log s = st_log (stable_state s);
  cw_disk : disk_ok (stable_state s)
}.

Record vol_wf (s : Raft) : Prop := {
  vw_pre : role s = PreCandidate → campaign_term s = Some (current_term (hard s) + 1);
  vw_self : role s = Candidate ∨ role s = Leader → voted_for (hard s) = Some me;
  vw_votes : role s = Candidate → ∀ v, v ∈ votes s → v = me ∨ grants v (current_term (hard s));
  vw_progress : map_Forall (λ _ p, 1 ≤ next_index p) (progress s);
  vw_leader : role s ≠ Leader → progress s = ∅;
  vw_reads : map_Forall (λ _ p, read_at p ≤ commit_index (hard s)) (pending_reads s)
}.

Record raft_wf (s : Raft) : Prop := {
  rw_core : core_wf s;
  rw_vol : vol_wf s
}.

Definition caught_up (s : Raft) : Prop := applied s = commit_index (hard s).

(** The durable image is that of the node. *)
Definition synced (Q : Raft → Prop) (st : StableState) (s : Raft) : Prop :=
  st = stable_state s ∧ raft_wf s ∧ caught_up s ∧ Q s.

(** A handler keeps the node well formed, caught up and equal to its durable
    image, under a precondition and with a postcondition of its own. *)
Definition spec (P : Raft → Prop) (m : handler) (Q : Raft → Raft → Prop) : Prop :=
  ∀ s, raft_wf s → caught_up s → P s → wp m (synced (Q s)) (stable_state s) s.

Lemma spec_use P m (Q : Raft → Raft → Prop) st s (Q' : StableState → Raft → Prop) :
  spec P m Q → st = stable_state s → raft_wf s → caught_up s → P s →
  (∀ s', raft_wf s' → caught_up s' → Q s s' → Q' (stable_state s') s') → wp m Q' st s.
Proof.
  intros Hs -> ??? HQ. eapply wp_mono; [by apply Hs|]. intros ? s' (-> & ? & ? & ?). auto.
Qed.

Lemma core_wf_ext s s' :
  core_wf s → id s' = id s → configuration s' = configuration s →
  stable_state s' = stable_state s → log s' = log s → core_wf s'.
Proof. intros [? ? ? ?] ? ? Hst ?. split; rewrite ?Hst; congruence. Qed.

End Logic.

(** Runs the structural rules of [wp] and reduces field projections. *)
Ltac wp_simpl := cbn [id configuration hard log snap applied role leader_id campaign_term votes
  progress recent_active pending_reads incoming_snapshot set_hard set_log set_snap set_applied
  set_role set_leader_id set_campaign_term set_votes set_progress set_recent_active
  set_pending_reads set_incoming_snapshot hard_state snapshot entries applied_index stable_state
  e_index e_term e_payload
  current_term voted_for commit_index set_commit_index set_voted_for] in *.

Ltac wp_step :=
  lazymatch goal with
  | |- wp _ _ _ (seq _ _) _ _ _ => apply wp_seq
  | |- wp _ _ _ (with_self _) _ _ _ => apply wp_with_self
  | |- wp _ _ _ (modify _) _ _ _ => apply wp_modify
  | |- wp _ _ _ skip _ _ _ => apply wp_skip
  | |- wp _ _ _ emit_hard_state _ _ _ => unfold emit_hard_state
  end; cbv beta zeta.
Ltac wp_steps := repeat (wp_step; wp_simpl).

(** A volatile action whose obligation is immediate. *)
Ltac wp_tell := apply wp_emit_volatile; [exact I | | | ].
