(* ===== verification/RaftSafety.v ===== *)
(** * Every handler of the Raft core against its durable image

    One [spec] per handler of [node.rs], from the apply loop up to [step]:
    the node stays well formed, its actions bring the durable image to the
    node's own state, and every action meets the obligation of [act_ok]. *)

From S2P Require Import Prelude RaftTypes RaftLogs RaftNode RaftStore RaftLogic.
Import RaftLog.
#[local] Existing Instance disk_le_preorder.

Section Safety.
Context `{Sha256}.
Context (me : NodeId) (cfg : Configuration) (grants : NodeId → Z → Prop).
Abbreviation wp := (wp me cfg grants) (only parsing).
Abbreviation raft_wf := (raft_wf me cfg grants) (only parsing).
Abbreviation core_wf := (core_wf me cfg) (only parsing).
Abbreviation vol_wf := (vol_wf me grants) (only parsing).
Abbreviation disk_ok := (disk_ok cfg) (only parsing).
Abbreviation spec := (spec me cfg grants) (only parsing).
Abbreviation synced := (synced me cfg grants) (only parsing).

Lemma core_log s : core_wf s → log_wf (log s) ∧ last_index (log s) + 1 ≤ u64_max
  ∧ last_term (log s) ≤ current_term (hard s)
  ∧ base_index (log s) ≤ applied s ≤ commit_index (hard s) ∧ commit_index (hard s) ≤ last_index (log s).
Proof. intros [_ _ -> [[]]]. cbn in *. auto. Qed.

(** ** The apply loop *)

Lemma apply_one s e :
  core_wf s → entry (log s) (applied s + 1) = Some e → applied s < commit_index (hard s) →
  core_wf (set_applied (applied s + 1) s)
  ∧ exec1 (stable_state s) (Apply e) = Ok (stable_state (set_applied (applied s + 1) s))
  ∧ act_ok me cfg grants (stable_state s) (Apply e)
  ∧ disk_le (stable_state s) (stable_state (set_applied (applied s + 1) s)).
Proof.
  intros Hc He Hlt. pose proof (core_log _ Hc) as (Hlog & _).
  destruct Hc as [? ? Hl [Hwf Ht Hcfg]]. destruct (entry_spec _ _ _ Hlog He) as [Hi _].
  destruct (exec_apply _ e Hwf) as [Hx Hwf']; [done|cbn; lia|].
  rewrite Hx, Hi. split_and!; [|done| |].
  - split; [done..|]. split; [by rewrite Hi in Hwf'|done..].
  - cbn [act_ok]. rewrite Hi, <- Hl. split_and!; [done..|wp_simpl; lia].
  - split; wp_simpl; [reflexivity|lia|done|done].
Qed.

Lemma vol_wf_applied s v : vol_wf s → vol_wf (set_applied v s).
Proof. by intros []. Qed.

Lemma apply_loop_spec fuel s :
  raft_wf s → Z.of_nat fuel = commit_index (hard s) - applied s →
  wp (apply_loop fuel) (λ st' s', st' = stable_state s' ∧ raft_wf s'
    ∧ s' = set_applied (commit_index (hard s)) s) (stable_state s) s.
Proof.
  revert s. induction fuel as [|fuel IH]; intros s [Hc Hv] Hf; cbn [apply_loop].
  - apply wp_skip. split_and!; [done..|]. destruct s; cbn in *. unfold set_applied; cbn. f_equal. lia.
  - wp_steps. destruct (Z.ltb_spec (applied s) (commit_index (hard s))); [|lia].
    pose proof (core_log _ Hc) as (Hlog & Hr & _ & Hb & Hcl). pose proof (wf_base _ Hlog).
    rewrite wrapping_add_small by lia.
    destruct (proj2 (entry_is_Some (log s) (applied s + 1) Hlog) ltac:(lia)) as [e He]. rewrite He.
    destruct (apply_one s e Hc He) as (Hc' & Hx & Hok & Hle); [done|].
    wp_steps. eapply wp_emit; [done|done|by destruct Hc'|done|]. wp_steps.
    assert (wp (apply_loop fuel) (λ st' s', st' = stable_state s' ∧ raft_wf s'
      ∧ s' = set_applied (commit_index (hard s)) s) (stable_state (set_applied (applied s + 1) s))
      (set_applied (applied s + 1) s)) as Hrest.
    { eapply wp_mono; [apply IH|].
      - split; [done|by apply vol_wf_applied].
      - wp_simpl. lia.
      - intros ? ? (-> & ? & ->). by destruct s. }
    apply wp_when; [intros _|done]. destruct (e_payload e) as [|i b] eqn:Hp; [by apply wp_skip|].
    wp_tell; [by destruct Hc'| |done].
    destruct (entry_spec _ _ _ Hlog He) as [Hi _]. cbn [act_ok]. rewrite Hi. split; [wp_simpl; lia|].
    exists (e_term e), b. destruct Hc' as [_ _ <- _]. wp_simpl. rewrite He. f_equal.
    destruct e; cbn in *; congruence.
Qed.

Lemma apply_committed_spec s :
  raft_wf s →
  wp apply_committed (λ st' s', st' = stable_state s' ∧ raft_wf s'
    ∧ s' = set_applied (commit_index (hard s)) s) (stable_state s) s.
Proof.
  intros Hwf. unfold apply_committed. wp_steps. apply apply_loop_spec; [done|].
  destruct (core_log _ (rw_core _ _ _ _ Hwf)) as (_ & _ & _ & ? & _). lia.
Qed.

(** ** Persisting a change *)

(** The durable image follows the node from [s] to [s'] by mutation [m]. *)
Definition persists (s : Raft) (m : StorageMutation) (s' : Raft) : Prop :=
  exec1 (stable_state s) (Persist m) = Ok (stable_state s') ∧ core_wf s'
  ∧ disk_le (stable_state s) (stable_state s').

Lemma wp_persist s mu s1 s2 (Q : StableState → Raft → Prop) st :
  persists s mu s1 → st = stable_state s → Q (stable_state s1) s2 →
  wp (emit (Persist mu)) Q st s2.
Proof. intros (Hx & Hc & Hle) -> ?. eapply wp_emit; [done|done|by destruct Hc|done|done]. Qed.

Lemma persists_hard s h :
  core_wf s → hs_le (hard s) h → commit_index h ≤ last_index (log s) →
  persists s (MHardState h) (set_hard h s).
Proof.
  intros Hc Hle Hcl. pose proof (core_log _ Hc) as (Hlog & Hr & Ht & Hb & _).
  pose proof Hle as (? & ? & _).
  assert (core_wf (set_hard h s)) as Hc'.
  { destruct Hc as [? ? Hl [[] ? ?]]. rewrite Hl in *. split; [done..|].
    split; [split|..]; unfold st_log in *; wp_simpl; done || lia. }
  unfold persists. split_and!; [|done|].
  - destruct Hc as [_ _ _ [Hwf _ _]], Hc' as [_ _ _ [Hwf' _ _]].
    by apply (exec_hard_state (stable_state s) h).
  - split; wp_simpl; [done|lia|done|done].
Qed.

Lemma core_set_log s l :
  core_wf s → log_wf l → base_index l = base_index (log s) → base_term l = base_term (log s) →
  last_index l + 1 ≤ u64_max → commit_index (hard s) ≤ last_index l →
  last_term l ≤ current_term (hard s) → core_wf (set_log l s).
Proof.
  intros [? ? Hl [[] ? ?]] ?????.
  assert (st_log (stable_state (set_log l s)) = l) as Heq.
  { destruct l as [bi bt es]. cbn [base_index base_term] in *. subst.
    rewrite Hl. unfold st_log, new; cbn. by destruct (snap s). }
  split; [done|done|by rewrite Heq|]. split; [split|..]; rewrite ?Heq; wp_simpl; try done.
  rewrite Hl in *. congruence.
Qed.

Lemma log_set_log s l : core_wf (set_log l s) → st_log (stable_state (set_log l s)) = l.
Proof. by intros [_ _ <- _]. Qed.

Lemma last_term_append l e : last_term (append l [e]) = e_term e.
Proof. unfold last_term; cbn. by rewrite last_snoc. Qed.

Lemma persists_append s es :
  core_wf s → core_wf (set_log (append (log s) es) s) →
  persists s (MAppend es) (set_log (append (log s) es) s).
Proof.
  intros Hc Hc'. pose proof (core_log _ Hc) as (Hlog & _ & _ & Hb & Hcl).
  pose proof (core_log _ Hc') as (Hlog' & _). unfold persists. split_and!; [|done|].
  - destruct Hc as [_ _ _ [Hwf _ _]], Hc' as [_ _ _ [Hwf' _ _]].
    by apply (exec_append (stable_state s) es).
  - pose proof (cw_log _ _ _ Hc) as Hlg. split; rewrite ?(log_set_log _ _ Hc'), <- ?Hlg; wp_simpl;
      [done|done|done|].
    intros i Hi. apply entry_append_l; [done..|lia].
Qed.

(** Appending one entry of the current term, as a leader does. *)
Lemma persists_append_one s p :
  core_wf s → last_index (log s) + 2 ≤ u64_max →
  let e := {| e_index := last_index (log s) + 1; e_term := current_term (hard s); e_payload := p |} in
  let s' := set_log (append (log s) [e]) s in
  persists s (MAppend [e]) s' ∧ last_index (log s') = last_index (log s) + 1.
Proof.
  intros Hc Hr e s'. pose proof (core_log _ Hc) as (Hlog & _ & Ht & Hb & Hcl).
  assert (log_wf (append (log s) [e])) as Hlog'.
  { apply append_wf; [done|unfold zlen; cbn; lia|by cbn]. }
  assert (last_index (append (log s) [e]) = last_index (log s) + 1) as Hl.
  { rewrite last_index_append by done. done. }
  split; [|done]. apply persists_append; [done|]. apply core_set_log; try done; try lia.
  by rewrite last_term_append.
Qed.

Lemma persists_truncate s from es tm :
  core_wf s → commit_index (hard s) < from ≤ last_index (log s) + 1 →
  term (log s) (from - 1) = Some tm → seq_from from tm es → from + zlen es ≤ u64_max →
  end_term tm es ≤ current_term (hard s) →
  let s' := set_log (truncate_and_append (log s) from es) s in
  persists s (if from <=? last_index (log s) then MTruncateAndAppend from es else MAppend es) s'
  ∧ last_index (log s') = from + zlen es - 1.
Proof.
  intros Hc Hf Ht Hs Hu Het s'. pose proof (core_log _ Hc) as (Hlog & Hr & _ & Hb & Hcl).
  pose proof (zlen_nonneg es).
  destruct (truncate_and_append_wf (log s) from es tm) as [Hlog' Hl']; try (done || lia).
  assert (core_wf s') as Hc'.
  { apply core_set_log; try (done || lia).
    rewrite truncate_and_append_eq in * by (done || lia).
    pose proof (last_term_truncated (log s) from Hlog ltac:(lia)) as Hlt. rewrite Ht in Hlt.
    simplify_eq. revert Het. unfold last_term, end_term; cbn. by rewrite last_app; destruct (last es). }
  split; [|done]. unfold persists. split_and!; [|done|].
  - destruct (Z.leb_spec from (last_index (log s))).
    + pose proof Hc' as Hcc. destruct Hc as [_ _ Hlg [Hwf _ _]], Hcc as [_ _ _ [Hwf' _ _]].
      rewrite (exec_truncate (stable_state s) from es); rewrite <- ?Hlg; try done; [wp_simpl; lia|eauto].
    + assert (truncate_and_append (log s) from es = append (log s) es) as Heq.
      { rewrite truncate_and_append_eq by (done || lia). unfold append, truncated; cbn. f_equal. f_equal.
        apply ztake_all. rewrite last_index_wf in * by done. lia. }
      unfold s' in *. rewrite Heq in *. by apply persists_append.
  - pose proof (cw_log _ _ _ Hc) as Hlg. unfold s' in *.
    split; rewrite ?(log_set_log _ _ Hc'), <- ?Hlg; wp_simpl; [done|done|done|].
    intros i Hi. apply entry_truncate_and_append_l; done || lia.
Qed.

(** ** Commit *)

(** Only the commit and applied indexes change, and they stay in the log. *)
Definition committed_to (s s' : Raft) : Prop :=
  ∃ c, commit_index (hard s) ≤ c ≤ last_index (log s)
       ∧ s' = set_applied c (set_hard (set_commit_index c (hard s)) s).

Lemma committed_to_refl s : core_wf s → caught_up s → committed_to s s.
Proof.
  intros (_ & _ & _ & _ & ?)%core_log Hu. exists (commit_index (hard s)). split; [lia|].
  unfold caught_up in Hu. destruct s as [? ? [] ? ? ? ? ? ? ? ? ? ? ?]; cbn in *. by subst.
Qed.

Lemma vol_wf_commit s c :
  vol_wf s → commit_index (hard s) ≤ c → vol_wf (set_hard (set_commit_index c (hard s)) s).
Proof.
  intros [] Hc. split; wp_simpl; try done.
  intros k p Hp. transitivity (commit_index (hard s)); eauto.
Qed.

Lemma set_commit_spec n :
  spec (λ s, n ≤ last_index (log s)) (set_commit n) committed_to.
Proof.
  intros s Hwf Hu Hn. pose proof Hwf as [Hc Hv]. unfold set_commit. wp_steps.
  destruct (Z.leb_spec n (commit_index (hard s))).
  { apply wp_skip. split_and!; [done..|by apply committed_to_refl]. }
  destruct (Z.ltb_spec (last_index (log s)) n); [lia|]. wp_steps.
  assert (persists s (MHardState (set_commit_index n (hard s)))
            (set_hard (set_commit_index n (hard s)) s)) as Hp.
  { apply persists_hard; [done| |done]. split_and!; wp_simpl; [done|lia|by right]. }
  eapply wp_persist; [done|done|]. eapply wp_mono; [apply apply_committed_spec|].
  - split; [by apply Hp|]. apply vol_wf_commit; [done|lia].
  - intros ? s' (-> & ? & ->). split_and!; [done|done|done|]. exists n. split; [lia|done].
Qed.

Lemma advance_leader_commit_spec : spec (λ _, True) advance_leader_commit committed_to.
Proof.
  intros s Hwf Hu _. pose proof Hwf as [Hc Hv]. unfold advance_leader_commit. wp_steps.
  pose proof (committed_to_refl s Hc Hu). destruct (is_leader s); cbn [negb]; [|by apply wp_skip].
  apply wp_when; [intros Hq|done]. bool_prop. eapply spec_use; [apply set_commit_spec|done|done|done| |].
  - destruct (core_log _ Hc) as (Hlog & _). by eapply term_bound.
  - by intros.
Qed.

(** ** Replication *)

Lemma send_append_spec peer ctx : spec (λ _, True) (send_append peer ctx) (λ s s', s' = s).
Proof.
  intros s Hwf Hu _. pose proof Hwf as [Hc Hv]. unfold send_append. wp_steps.
  destruct (progress s !! peer) as [p|] eqn:Hp; [|by apply wp_skip].
  pose proof (vw_progress _ _ _ Hv _ _ Hp) as Hn; cbn in Hn.
  assert (role s = Leader) as Hl.
  { destruct (decide (role s = Leader)) as [|Hl]; [done|].
    rewrite (vw_leader _ _ _ Hv Hl) in Hp. by rewrite lookup_empty in Hp. }
  pose proof (vw_self _ _ _ Hv (or_intror Hl)) as Hvote.
  pose proof (core_log _ Hc) as (Hlog & Hr & Ht & Hb & Hcl). pose proof (wf_base _ Hlog).
  pose proof (last_index_bounds _ Hlog). pose proof Hc as [Hid Hcfg Hlg Hd].
  destruct (Z.leb_spec (next_index p) (base_index (log s))) as [Hle|Hle].
  - unfold send_snapshot_chunk. wp_steps. destruct (snap s) as [sn|] eqn:Hsn.
    2:{ exfalso. rewrite Hlg in Hle. unfold st_log, new in Hle. wp_simpl. rewrite Hsn in Hle.
        cbn in Hle. lia. }
    pose proof (sw_snap _ (do_wf _ _ Hd) sn Hsn) as Hval.
    apply ensure_Ok in Hval. bool_prop. unfold usize_try_from, usize_max.
    unfold STORE_MAX_SNAPSHOT_BYTES in *.
    destruct (Z.leb_spec (Z.min (default 0 (snapshot_offset p)) (zlen (data sn))) u64_max);
      [|unfold u64_max in *; lia].
    wp_tell; [done| |done]. cbn [act_ok msg_ok]. wp_simpl. split_and!; [done..|]. eauto.
  - rewrite (wrapping_add_small (last_index (log s)) 1) by lia.
    rewrite wrapping_sub_small by lia.
    set (nx := Z.min (next_index p) (last_index (log s) + 1)).
    destruct (proj2 (term_is_Some (log s) (nx - 1) Hlog) ltac:(lia)) as [pt Hpt]. rewrite Hpt.
    wp_tell; [done| |done]. cbn [act_ok msg_ok]. rewrite <- Hlg. wp_simpl.
    destruct (entries_from_spec (log s) nx MAX_APPEND_ENTRIES) as (? & ? & He); [done|lia|done|].
    split_and!; try done. intros k e Hk. rewrite Z.sub_add. by apply He.
Qed.

Lemma for_each_send (l : list NodeId) ctx :
  spec (λ _, True) (for_each l (λ peer, send_append peer ctx)) (λ s s', s' = s).
Proof.
  intros s Hwf Hu _. apply wp_for_each; [done|]. intros x st s1 _ (-> & ? & ? & ->).
  by apply send_append_spec.
Qed.

Lemma broadcast_append_spec ctx : spec (λ _, True) (broadcast_append ctx) (λ s s', s' = s).
Proof. intros s Hwf Hu _. unfold broadcast_append. wp_steps. by apply for_each_send. Qed.

(** ** Role changes *)

Definition demoted (t : Z) (h : HardState) : HardState :=
  if current_term h <? t
  then {| current_term := t; voted_for := None; commit_index := commit_index h |} else h.

Lemma wp_raise_term t s (Q : StableState → Raft → Prop) :
  core_wf s → (core_wf (set_hard (demoted t (hard s)) s) →
    Q (stable_state (set_hard (demoted t (hard s)) s)) (set_hard (demoted t (hard s)) s)) →
  wp (when (current_term (hard s) <? t)
        (modify (set_hard {| current_term := t; voted_for := None;
                             commit_index := commit_index (hard s) |}) ;; emit_hard_state)%raft)
     Q (stable_state s) s.
Proof.
  intros Hc HQ. unfold demoted in HQ. apply wp_when; intros Ht; rewrite Ht in HQ.
  - wp_steps. bool_prop.
    assert (persists s (MHardState (mkHardState t None (commit_index (hard s))))
              (set_hard (mkHardState t None (commit_index (hard s))) s)) as Hp.
    { destruct (core_log _ Hc) as (_ & _ & _ & _ & ?).
      apply persists_hard; [done|split_and!; wp_simpl; lia|done]. }
    eapply wp_persist; [done|done|]. apply HQ, Hp.
  - destruct s; by apply HQ.
Qed.

Lemma wp_drop_reads (c : bool) (s : Raft) (reads : gmap bytes PendingRead) (Q : StableState → Raft → Prop) :
  core_wf s → reads = pending_reads s → Q (stable_state s) (set_pending_reads ∅ s) →
  wp (when (c || negb (bool_decide (reads = ∅)))
        (modify (set_pending_reads ∅) ;;
         for_each (btree_map_iter reads) (λ p, emit (ReadRejected p.1 ReadLeadershipLost)))%raft)
     Q (stable_state s) s.
Proof.
  intros Hc -> HQ. apply wp_when; intros Hn.
  - wp_steps. eapply wp_mono; [apply (wp_for_each _ _ _ _ _
      (λ st s', st = stable_state s ∧ s' = set_pending_reads ∅ s))|].
    + done.
    + intros p st s' _ [-> ->]. wp_tell; [by destruct Hc|done|done].
    + by intros ? ? [-> ->].
  - bool_prop. destruct s; cbn in *; subst. done.
Qed.

Lemma become_follower_spec t l :
  spec (λ _, True) (become_follower t l) (λ s s', hard s' = demoted t (hard s) ∧ log s' = log s
    ∧ role s' = Follower ∧ incoming_snapshot s' = incoming_snapshot s).
Proof.
  intros s Hwf Hu _. pose proof Hwf as [Hc Hv].
  assert (commit_index (demoted t (hard s)) = commit_index (hard s)) as Hdc.
  { unfold demoted. by destruct (_ <? _). }
  unfold become_follower. wp_steps. apply wp_raise_term; [done|]. intros Hc1. wp_steps.
  apply wp_drop_reads; [done|done|]. wp_steps. set (s2 := set_recent_active _ _).
  assert (raft_wf s2) as Hwf2.
  { split; [by apply (core_wf_ext me cfg (set_hard (demoted t (hard s)) s))|].
    split; try done. by intros []. }
  assert (caught_up s2) by (unfold caught_up, s2 in *; wp_simpl; by rewrite Hdc).
  apply wp_when; intros _; [|done]. wp_steps. wp_tell; [apply Hc1|done|done].
Qed.

Lemma demoted_term t h : current_term (demoted t h) = Z.max (current_term h) t.
Proof. unfold demoted. destruct (Z.ltb_spec (current_term h) t); cbn; lia. Qed.

(** Stepping down and resetting the election timer, the reaction to a newer
    term. *)
Lemma step_down_spec t l :
  spec (λ _, True) (become_follower t l ;; emit ResetElectionTimer)%raft
    (λ s s', hard s' = demoted t (hard s) ∧ log s' = log s
    ∧ role s' = Follower ∧ incoming_snapshot s' = incoming_snapshot s).
Proof.
  intros s Hwf Hu _. apply wp_seq. eapply spec_use; [apply become_follower_spec|done..|].
  intros s' [Hc' ?] ??. wp_tell; [apply Hc'|done|done].
Qed.

Definition has_room (s : Raft) : Prop := last_index (log s) + 2 ≤ u64_max.

Lemma become_leader_spec :
  spec (λ s, has_room s ∧ voted_for (hard s) = Some me ∧ elected me cfg grants (current_term (hard s)))
    become_leader (λ _ _, True).
Proof.
  intros s Hwf Hu (Hr & Hvote & Hel). pose proof Hwf as [Hc Hv].
  pose proof (core_log _ Hc) as (Hlog & _). pose proof (wf_base _ Hlog).
  pose proof (last_index_bounds _ Hlog). unfold has_room in Hr.
  unfold become_leader. wp_steps. rewrite !(wrapping_add_small (last_index (log s)) 1) by lia.
  rewrite wrapping_add_small by lia.
  destruct (persists_append_one s Noop Hc Hr) as [Hp Hl].
  set (e := {| e_index := last_index (log s) + 1; e_term := current_term (hard s);
               e_payload := Noop |}) in *.
  set (s1 := set_log (append (log s) [e]) s) in *.
  eapply wp_persist; [exact Hp|done|]. apply wp_seq.
  set (s2 := set_log (append (log s) [e]) (set_pending_reads ∅ (set_progress ∅ (set_votes ∅
    (set_leader_id (Some (id s)) (set_role Leader s)))))).
  eapply wp_mono; [apply (wp_for_each _ _ _ _ _ (λ st s', st = stable_state s1
    ∧ s' = set_progress (progress s') s2 ∧ map_Forall (λ _ p, 1 ≤ next_index p) (progress s')))|].
  { split_and!; [done|done|apply map_Forall_empty]. }
  { intros v st s' _ (-> & -> & Hf). wp_steps. split_and!; [done|done|].
    apply map_Forall_insert_2; [|done]. cbn. lia. }
  intros st s' (-> & -> & Hf). wp_steps. set (s3 := set_recent_active _ _).
  assert (raft_wf s3) as Hwf3.
  { split; [by apply (core_wf_ext me cfg s1); [apply Hp|..]|].
    by split. }
  assert (stable_state s1 = stable_state s3) as Hst by done. rewrite Hst.
  assert (caught_up s3) as Hu3 by done.
  wp_tell; [rewrite <- Hst; apply Hp|done|]. wp_steps.
  wp_tell; [rewrite <- Hst; apply Hp|done|]. wp_steps.
  eapply spec_use; [apply advance_leader_commit_spec|done..|]. intros s4 ? ? _.
  eapply spec_use; [apply broadcast_append_spec|done..|]. by intros s5 ? ? _.
Qed.

Lemma start_election_spec t :
  spec (λ s, has_room s ∧ role s = PreCandidate ∧ t = current_term (hard s) + 1)
    (start_election t) (λ _ _, True).
Proof.
  intros s Hwf Hu (Hr & Hrole & ->). pose proof Hwf as [Hc Hv].
  pose proof (core_log _ Hc) as (Hlog & _ & _ & _ & Hcl).
  pose proof (cw_id _ _ _ Hc) as Hid. pose proof (cw_cfg _ _ _ Hc) as Hcfg.
  unfold start_election. wp_steps.
  set (h := {| current_term := current_term (hard s) + 1; voted_for := Some (id s);
               commit_index := commit_index (hard s) |}).
  assert (persists s (MHardState h) (set_hard h s)) as Hp.
  { apply persists_hard; [done| |done]. unfold h; split_and!; wp_simpl; lia. }
  eapply wp_persist; [exact Hp|done|]. wp_steps. set (s1 := set_votes _ _).
  assert (raft_wf s1) as Hwf1.
  { split; [by apply (core_wf_ext me cfg (set_hard h s)); [apply Hp|..]|].
    destruct Hv as [_ _ _ Hpr Hld Hrd]. split; try done.
    - intros _; cbn. by rewrite Hid.
    - intros _ v; cbn. intros ->%elem_of_singleton. by left.
    - intros _. cbn. apply Hld. by rewrite Hrole. }
  assert (caught_up s1) as Hu1 by done.
  assert (stable_state (set_hard h s) = stable_state s1) as Hst by done. rewrite Hst.
  pose proof Hwf1 as [Hc1 _]. pose proof (cw_disk _ _ _ Hc1) as Hd1.
  wp_tell; [done|split; [done|cbn; by rewrite Hid]|]. wp_steps. wp_tell; [done..|]. wp_steps.
  destruct (Config.quorum (configuration s1) (votes s1)) eqn:Hq.
  - eapply spec_use; [apply become_leader_spec|done..| |done]. split_and!; [done|cbn; by rewrite Hid|].
    exists (votes s1). rewrite <- Hcfg. split; [done|]. cbn. intros v ->%elem_of_singleton. by left.
  - eapply wp_mono; [apply (wp_for_each _ _ _ _ _ (synced (λ s', s' = s1)))|].
    + done.
    + intros v st s' _ (-> & _ & _ & ->). wp_tell; [done| |done]. cbn [act_ok msg_ok].
      rewrite <- (cw_log _ _ _ Hc1). cbn. by rewrite Hid.
    + intros st s' (? & ? & ? & _). done.
Qed.

Lemma start_pre_vote_spec :
  spec (λ s, has_room s ∧ role s ≠ Leader) start_pre_vote (λ _ _, True).
Proof.
  intros s Hwf Hu (Hr & Hrole). pose proof Hwf as [Hc Hv].
  pose proof (cw_id _ _ _ Hc) as Hid. pose proof (cw_disk _ _ _ Hc) as Hd. unfold start_pre_vote. wp_steps.
  destruct (checked_add (current_term (hard s)) 1) as [pt|] eqn:Hpt.
  2:{ wp_tell; [done|by left|done]. }
  apply checked_add_Some in Hpt as [-> _]. wp_steps. set (s1 := set_votes _ _).
  assert (raft_wf s1) as Hwf1.
  { split; [by apply (core_wf_ext me cfg s)|]. destruct Hv. split; try done; cbn; auto.
    by intros []. }
  assert (caught_up s1) as Hu1 by done. pose proof Hwf1 as [Hc1 _].
  assert (stable_state s = stable_state s1) as -> by done.
  wp_tell; [done|done|]. wp_steps. wp_tell; [done..|]. wp_steps.
  destruct (Config.quorum (configuration s1) (votes s1)) eqn:Hq.
  - by eapply spec_use; [apply start_election_spec|..].
  - eapply wp_mono; [apply (wp_for_each _ _ _ _ _ (synced (λ s', s' = s1)))|].
    + done.
    + intros v st s' _ (-> & _ & _ & ->). wp_tell; [done| |done]. cbn [act_ok msg_ok].
      rewrite <- (cw_log _ _ _ Hc1). done.
    + intros st s' (? & ? & ? & _). done.
Qed.

(** ** Elections *)

Lemma on_pre_vote_request_spec from pt c li lt :
  spec (λ _, True) (on_pre_vote_request from pt c li lt) (λ _ _, True).
Proof.
  intros s Hwf Hu _. pose proof Hwf as [Hc _]. unfold on_pre_vote_request. wp_steps.
  destruct (negb _); [by apply wp_skip|]. wp_tell; [apply Hc|done|done].
Qed.

Lemma step_down_spec' t l : spec (λ _, True) (become_follower t l ;; emit ResetElectionTimer)%raft
  (λ _ _, True).
Proof.
  intros s ???. eapply spec_use; [apply step_down_spec|done..].
Qed.

Lemma on_pre_vote_response_spec from rt pt granted :
  spec has_room (on_pre_vote_response from rt pt granted) (λ _ _, True).
Proof.
  intros s Hwf Hu Hr. pose proof Hwf as [Hc Hv]. unfold on_pre_vote_response. apply wp_with_self.
  destruct (_ <? rt); [by apply step_down_spec'|].
  destruct (_ || _) eqn:Hg; [by apply wp_skip|]. bool_prop. wp_steps.
  set (s1 := set_votes _ _).
  assert (raft_wf s1) as Hwf1.
  { split; [by apply (core_wf_ext me cfg s)|]. destruct Hv. split; try done; cbn. congruence. }
  apply wp_when; intros _; [|done].
  eapply spec_use; [apply start_election_spec|done..| |done]. split_and!; [done|done|].
  pose proof (vw_pre _ _ _ Hv). cbn. naive_solver.
Qed.

Lemma on_vote_request_spec from t c li lt :
  spec (λ _, True) (on_vote_request from t c li lt) (λ _ _, True).
Proof.
  intros s Hwf Hu _. unfold on_vote_request. apply wp_with_self.
  destruct (negb (c =? from)) eqn:Hcf; [by apply wp_skip|]. bool_prop. subst c. apply wp_seq.
  eapply wp_mono with (Q := synced (λ _, True)).
  { apply wp_when; intros _; [|done].
    eapply spec_use; [apply become_follower_spec|done..]. }
  clear dependent s. intros st s (-> & Hwf & Hu & _). pose proof Hwf as [Hc Hv]. wp_steps.
  apply wp_when; intros Hg.
  2:{ wp_steps. wp_tell; [apply Hc|split; [done|by rewrite Hg]|done]. }
  apply andb_true_iff in Hg as [[_ Hvf]%andb_true_iff _].
  apply orb_true_iff in Hvf. rewrite !bool_decide_eq_true in Hvf.
  apply wp_seq. set (h := set_voted_for (Some from) (hard s)).
  eapply wp_mono with (Q := synced (λ s', hard s' = h)).
  - apply wp_when; intros Hn; bool_prop.
    + wp_steps. assert (persists s (MHardState h) (set_hard h s)) as Hp.
      { apply persists_hard; [done| |apply (core_log _ Hc)].
        unfold h; split_and!; wp_simpl; try lia. intros _. left. naive_solver. }
      eapply wp_persist; [exact Hp|done|]. split_and!; [done| |done|done].
      split; [apply Hp|]. destruct Hvf as [Hvf|?]; [|done].
      destruct Hv as [? Hself ? ? ? ?]. split; try done.
      intros Hrl. cbn in Hrl. apply Hself in Hrl. congruence.
    + split_and!; [done..|]. unfold h. destruct (hard s); cbn in *. unfold set_voted_for; cbn. congruence.
  - intros st s' (-> & [Hc' Hv'] & Hu' & Hh). wp_steps. set (s2 := set_leader_id None s').
    assert (raft_wf s2) as Hwf2 by (split; [by apply (core_wf_ext me cfg s')|by destruct Hv']).
    assert (stable_state s' = stable_state s2) as -> by done. pose proof Hwf2 as [Hc2 _].
    wp_tell; [apply Hc2|done|]. wp_steps. wp_tell; [apply Hc2| |done].
    split; [done|]. intros _. cbn. by rewrite Hh.
Qed.

Lemma on_vote_response_spec from t granted :
  (granted = true → grants from t) →
  spec has_room (on_vote_response from t granted) (λ _ _, True).
Proof.
  intros Hgr s Hwf Hu Hr. pose proof Hwf as [Hc Hv]. unfold on_vote_response. apply wp_with_self.
  destruct (_ <? t); [by apply step_down_spec'|].
  destruct (_ || _) eqn:Hg; [by apply wp_skip|]. bool_prop. subst t. wp_steps.
  set (s1 := set_votes _ _).
  assert (raft_wf s1) as Hwf1.
  { split; [by apply (core_wf_ext me cfg s)|]. destruct Hv as [? ? Hvt ? ? ?]. split; try done.
    cbn. intros ? v [->%elem_of_singleton|]%elem_of_union; auto. }
  apply wp_when; intros Hq; [|done].
  eapply spec_use; [apply become_leader_spec|done..| |done]. split_and!; [done|by apply (vw_self _ _ _ Hv); left|].
  exists (votes s1). rewrite <- (cw_cfg _ _ _ Hc). split; [done|]. by apply (vw_votes _ _ _ (rw_vol _ _ _ _ Hwf1)).
Qed.

(** ** Replication, follower side *)

Lemma valid_entries_loop_ok es i tm t :
  i + zlen es ≤ u64_max → 0 ≤ i → valid_entries_loop i tm t es = true →
  seq_from i tm es ∧ Forall (λ e, e_term e ≤ t) es.
Proof.
  revert i tm. induction es as [|e es IH]; intros i tm Hu Hi Hv; [done|].
  cbn in Hv. rewrite zlen_cons in Hu. pose proof (zlen_nonneg es).
  destruct (_ || _) eqn:Hc; [done|]. bool_prop. subst i. rewrite wrapping_add_small in Hv by lia.
  apply IH in Hv as [Hs Hf]; [|lia..]. split; [by cbn|]. by constructor.
Qed.

Lemma end_term_le t tm es : tm ≤ t → Forall (λ e, e_term e ≤ t) es → end_term tm es ≤ t.
Proof.
  intros Ht Hf. unfold end_term. destruct (last es) eqn:Hl; [|done].
  apply last_Some in Hl as [k ->]. apply Forall_app in Hf as [_ Hf]. by inversion Hf.
Qed.

(** What the scan over the received entries establishes. *)
Lemma scan_entries_spec (s : Raft) es i tm pos :
  core_wf s → seq_from i tm es → term (log s) (i - 1) = Some tm →
  match scan_entries s pos es with
  | ScanMatched => i - 1 + zlen es ≤ last_index (log s)
  | ScanChanged from p =>
      ∃ k, (k < length es)%nat ∧ p = (pos + k)%nat ∧ from = i + Z.of_nat k
           ∧ commit_index (hard s) < from ≤ last_index (log s) + 1
           ∧ term (log s) (from - 1) = Some (end_term tm (take k es))
  | ScanReplacesCommitted index => index ≤ commit_index (hard s)
  | ScanGap => True
  end.
Proof.
  intros Hc. pose proof (core_log _ Hc) as (Hlog & Hr & _ & Hb & Hcl). pose proof (wf_base _ Hlog).
  pose proof (last_index_bounds _ Hlog).
  revert i tm pos. induction es as [|e es IH]; intros i tm pos Hs Ht; cbn [scan_entries].
  { pose proof (term_bound _ _ _ Hlog Ht). unfold zlen; cbn. lia. }
  destruct Hs as (Hi & Hge & Hs). rewrite Hi.
  pose proof (term_bound _ _ _ Hlog Ht) as Hbd.
  destruct (term (log s) i) as [lt|] eqn:Hti.
  - pose proof (term_bound _ _ _ Hlog Hti). destruct (Z.eqb_spec lt (e_term e)) as [->|Hne].
    + replace (i + 1 - 1) with i in IH by lia.
      specialize (IH (i + 1) (e_term e) (S pos) Hs ltac:(by replace (i + 1 - 1) with i by lia)).
      destruct (scan_entries s (S pos) es); [rewrite zlen_cons; lia| |done|done].
      destruct IH as (k & Hk & -> & -> & Hf & Htk). exists (S k). cbn [length take].
      rewrite end_term_cons. split_and!; try lia. by replace (i + Z.of_nat (S k)) with (i + 1 + Z.of_nat k) by lia.
    + destruct (Z.leb_spec i (commit_index (hard s))); [done|].
      exists 0%nat. cbn [length]. split_and!; try lia. cbn [take]. by replace (i + Z.of_nat 0) with i by lia.
  - rewrite wrapping_add_small by lia. destruct (Z.eqb_spec i (last_index (log s) + 1)); [|done]. cbn [negb].
    exists 0%nat. cbn [length]. split_and!; try lia. cbn [take]. by replace (i + Z.of_nat 0) with i by lia.
Qed.

Lemma reject_append_spec to ctx ci ct : spec (λ _, True) (reject_append to ctx ci ct) (λ _ _, True).
Proof.
  intros s Hwf Hu _. pose proof Hwf as [Hc _]. unfold reject_append. wp_steps.
  wp_tell; [apply Hc|by split|done].
Qed.

(** The commit advance and the reply that end a successful append. *)
Lemma append_reply_spec from matched lc ctx :
  spec (λ s, matched ≤ last_index (log s))
    (with_self (λ self, set_commit (Z.min lc (last_index (log self)))) ;;
     with_self (λ self, emit (Send from (AppendEntriesResponse (current_term (hard self)) true matched 0
                                 None ctx))))%raft (λ _ _, True).
Proof.
  intros s Hwf Hu Hm. wp_steps. eapply spec_use; [apply set_commit_spec|done..|cbn; lia|].
  intros s' Hwf' Hu' (c & Hcm & ->). pose proof Hwf' as [Hc' _]. wp_steps. wp_tell; [apply Hc'| |done].
  split; [done|]. rewrite <- (cw_log _ _ _ Hc'). done.
Qed.

Lemma core_to_vol_log s l : vol_wf s → vol_wf (set_log l s).
Proof. by intros []. Qed.

Lemma vol_wf_set_snap s v : vol_wf s → vol_wf (set_snap v s).
Proof. by intros []. Qed.

Lemma install_suffix_spec from es tm :
  spec (λ s, commit_index (hard s) < from ≤ last_index (log s) + 1
    ∧ term (log s) (from - 1) = Some tm ∧ seq_from from tm es ∧ from + zlen es ≤ u64_max
    ∧ end_term tm es ≤ current_term (hard s))
    (install_suffix from es) (λ s s', last_index (log s') = from + zlen es - 1).
Proof.
  intros s Hwf Hu (Hf & Ht & Hs & Hb & He). pose proof Hwf as [Hc Hv].
  destruct (persists_truncate s from es tm) as [Hp Hl]; try done. unfold install_suffix. wp_steps.
  eapply wp_persist; [exact Hp|done|]. split_and!; [done| |done|done].
  split; [apply Hp|by apply core_to_vol_log].
Qed.

Lemma end_term_app tm a b : end_term tm (a ++ b) = end_term (end_term tm a) b.
Proof. unfold end_term. rewrite last_app. by destruct (last b). Qed.

Lemma on_append_entries_spec from t l prev pt es lc ctx :
  0 ≤ prev → prev + zlen es + 1 ≤ u64_max →
  spec (λ _, True) (on_append_entries from t l prev pt es lc ctx) (λ _ _, True).
Proof.
  intros Hprev Hu64 s Hwf Hu _. pose proof (zlen_nonneg es). unfold on_append_entries. apply wp_with_self.
  destruct (negb (l =? from)); [by apply wp_skip|].
  destruct (Z.ltb_spec t (current_term (hard s))) as [|Hge]; [by apply reject_append_spec|].
  apply wp_seq. eapply spec_use; [apply become_follower_spec|done..|].
  intros s1 Hwf1 Hu1 (Hh & _ & _ & _). pose proof Hwf1 as [Hc1 _]. wp_steps. wp_tell; [apply Hc1|done|].
  assert (current_term (hard s1) = t) as Ht1 by (rewrite Hh, demoted_term; lia).
  clear s Hwf Hu Hge Hh. apply wp_with_self. pose proof (core_log _ Hc1) as (Hlog & _ & Hlt & _).
  destruct (_ <? _); [by apply reject_append_spec|].
  destruct (term (log s1) prev) as [lpt|] eqn:Hlpt; [|by apply reject_append_spec].
  destruct (Z.eqb_spec lpt pt) as [->|]; cbn [negb]; [|by apply reject_append_spec].
  destruct (valid_entry_sequence prev pt t es) eqn:Hval; cbn [negb]; [|by apply reject_append_spec].
  unfold valid_entry_sequence in Hval. rewrite wrapping_add_small in Hval by lia.
  apply valid_entries_loop_ok in Hval as [Hseq Hterms]; [|lia..].
  rewrite (wrapping_add_small prev) by lia.
  pose proof (scan_entries_spec s1 es (prev + 1) pt 0 Hc1 Hseq) as Hscan.
  rewrite Z.add_simpl_r in Hscan. specialize (Hscan Hlpt).
  destruct (scan_entries s1 0 es) as [|f p|idx|].
  - by apply append_reply_spec.
  - destruct Hscan as (k & Hk & -> & -> & Hf & Htk). cbn [Nat.add]. apply wp_seq.
    rewrite <- (take_drop k es) in Hseq, Hterms. apply seq_from_app in Hseq as [_ Hseq].
    apply Forall_app in Hterms as [Ht1' Ht2'].
    assert (zlen (take k es) = Z.of_nat k) as Hzk by (unfold zlen; rewrite length_take; lia).
    assert (zlen (drop k es) = zlen es - Z.of_nat k) as Hzd by (unfold zlen; rewrite length_drop; lia).
    rewrite Hzk in Hseq.
    eapply spec_use; [apply (install_suffix_spec _ _ (end_term pt (take k es)))|done..| |].
    + split_and!; [lia|lia|done|done|lia|]. apply end_term_le; [|by rewrite Ht1].
      rewrite Ht1. apply end_term_le; [|done]. destruct (term_last _ Hlog).
      pose proof (term_mono _ _ _ _ _ Hlog Hlpt (term_last _ Hlog)) as Hm.
      pose proof (term_bound _ _ _ Hlog Hlpt). lia.
    + intros s2 Hwf2 Hu2 Hl2. apply append_reply_spec; [done..|]. cbv beta in *; lia.
  - wp_tell; [apply Hc1| |done]. right. eauto.
  - by apply reject_append_spec.
Qed.

(** ** Replication, leader side, and reads *)

Lemma raft_wf_active s v : raft_wf s → raft_wf (set_recent_active v s).
Proof. intros [Hc Hv]. split; [by apply (core_wf_ext me cfg s)|by destruct Hv]. Qed.

Lemma raft_wf_incoming s v : raft_wf s → raft_wf (set_incoming_snapshot v s).
Proof. intros [Hc Hv]. split; [by apply (core_wf_ext me cfg s)|by destruct Hv]. Qed.

Lemma raft_wf_reads s v :
  raft_wf s → map_Forall (λ _ p, read_at p ≤ commit_index (hard s)) v →
  raft_wf (set_pending_reads v s).
Proof. intros [Hc Hv] ?. split; [by apply (core_wf_ext me cfg s)|by destruct Hv]. Qed.

(** A peer's progress is overwritten by one that keeps its next index positive. *)
Lemma raft_wf_progress s peer p p' :
  raft_wf s → progress s !! peer = Some p → (1 ≤ next_index p → 1 ≤ next_index p') →
  raft_wf (set_progress (<[peer := p']> (progress s)) s).
Proof.
  intros [Hc Hv] Hp Hn. split; [by apply (core_wf_ext me cfg s)|].
  destruct Hv as [? ? ? Hpr Hld ?]. split; try done; cbn.
  - apply map_Forall_insert_2; [|done]. apply Hn. by apply (Hpr peer p).
  - intros Hr. rewrite (Hld Hr) in Hp. by rewrite lookup_empty in Hp.
Qed.

Lemma complete_read_spec ctx : spec (λ _, True) (complete_read ctx) (λ _ _, True).
Proof.
  intros s Hwf Hu _. pose proof Hwf as [Hc Hv]. unfold complete_read. wp_steps.
  destruct (pending_reads s !! ctx) as [p|] eqn:Hp; [|by apply wp_skip]. wp_steps.
  pose proof (vw_reads _ _ _ Hv) as Hrd.
  wp_tell; [apply Hc|cbn; unfold caught_up in Hu; rewrite Hu; by apply (Hrd ctx p)|].
  split_and!; [done| |done|done]. apply raft_wf_reads; [done|]. by apply map_Forall_delete.
Qed.

Lemma acknowledge_read_spec from ctx :
  spec (λ _, True) (acknowledge_read from ctx) (λ _ _, True).
Proof.
  intros s Hwf Hu _. pose proof Hwf as [Hc Hv]. unfold acknowledge_read. wp_steps.
  destruct (pending_reads s !! ctx) as [p|] eqn:Hp; [|by apply wp_skip]. wp_steps.
  set (s1 := set_pending_reads _ _).
  assert (raft_wf s1) as Hwf1.
  { apply raft_wf_reads; [done|]. pose proof (vw_reads _ _ _ Hv) as Hrd.
    apply map_Forall_insert_2; [by apply (Hrd ctx p)|done]. }
  apply wp_when; intros _; [|done]. eapply spec_use; [apply complete_read_spec|done..].
Qed.

Lemma on_append_response_spec from t ok m ci ct ctx :
  spec (λ _, True) (on_append_response from t ok m ci ct ctx) (λ _ _, True).
Proof.
  intros s Hwf Hu _. unfold on_append_response. apply wp_with_self.
  destruct (_ <? t); [by apply step_down_spec'|].
  destruct (_ || _) eqn:Hg; [by apply wp_skip|]. bool_prop. wp_steps.
  apply (raft_wf_active _ ({[from]} ∪ recent_active s)) in Hwf. set (s1 := set_recent_active _ s) in *.
  eapply wp_mono with (Q := synced (λ _, True)).
  { destruct ctx; [|by apply wp_skip]. eapply spec_use; [apply acknowledge_read_spec|done..]. }
  clear dependent s. intros st s (-> & Hwf & Hu & _). destruct ok.
  - apply wp_seq. eapply wp_mono with (Q := synced (λ _, True)).
    { wp_steps. destruct (progress s !! from) eqn:Hp; wp_steps; [|done]. split_and!; [done| |done|done].
      eapply raft_wf_progress; [done..|]. cbn. lia. }
    clear dependent s. intros st s (-> & Hwf & Hu & _). apply wp_seq.
    eapply spec_use; [apply advance_leader_commit_spec|done..|]. intros s' Hwf' Hu' _. wp_steps.
    apply wp_when; intros _; [|done]. eapply spec_use; [apply send_append_spec|done..].
  - apply wp_seq. eapply wp_mono with (Q := synced (λ _, True)).
    { wp_steps. destruct (progress s !! from) eqn:Hp; wp_steps; [|done]. split_and!; [done| |done|done].
      eapply raft_wf_progress; [done..|]. cbn. lia. }
    clear dependent s. intros st s (-> & Hwf & Hu & _).
    eapply spec_use; [apply send_append_spec|done..].
Qed.

Lemma propose_spec cid cmd : spec has_room (propose cid cmd) (λ _ _, True).
Proof.
  intros s Hwf Hu Hr. pose proof Hwf as [Hc Hv]. unfold has_room in Hr. unfold propose. wp_steps.
  destruct (is_leader s) eqn:Hlead; cbn [negb]; [|wp_tell; [apply Hc|done|done]].
  apply bool_decide_eq_true in Hlead. pose proof (core_log _ Hc) as (Hlog & _).
  pose proof (wf_base _ Hlog). pose proof (last_index_bounds _ Hlog).
  rewrite !(wrapping_add_small (last_index (log s)) 1) by lia.
  rewrite wrapping_add_small by (cbn; lia).
  destruct (persists_append_one s (Command cid cmd) Hc Hr) as [Hp Hl].
  set (e := {| e_index := last_index (log s) + 1; e_term := current_term (hard s);
               e_payload := Command cid cmd |}) in *.
  set (s1 := set_log (append (log s) [e]) s) in *. wp_steps.
  eapply wp_mono with (Q := λ st s', st = stable_state s ∧ stable_state s' = stable_state s1
    ∧ raft_wf s' ∧ caught_up s').
  { assert (raft_wf s1) as Hwf1 by (split; [apply Hp|by apply core_to_vol_log]).
    destruct (progress s !! id s) eqn:Hpr; wp_steps; [|done]. split_and!; [done|done| |done].
    change (progress s) with (progress s1). eapply raft_wf_progress; [done..|]. cbn. lia. }
  intros st s2 (-> & Hst & Hwf2 & Hu2). apply wp_seq. eapply wp_persist; [exact Hp|done|].
  rewrite <- Hst. apply wp_seq. eapply spec_use; [apply advance_leader_commit_spec|done..|].
  intros s3 ? ? _. eapply spec_use; [apply broadcast_append_spec|done..].
Qed.

Lemma read_index_spec ctx : spec (λ _, True) (read_index ctx) (λ _ _, True).
Proof.
  intros s Hwf Hu _. pose proof Hwf as [Hc Hv]. unfold read_index. apply wp_with_self.
  destruct (negb _); [wp_tell; [apply Hc|done|done]|].
  destruct (_ || _); [wp_tell; [apply Hc|done|done]|].
  destruct (negb _); [wp_tell; [apply Hc|done|done]|]. wp_steps.
  set (s1 := set_pending_reads _ _).
  assert (raft_wf s1) as Hwf1.
  { apply raft_wf_reads; [done|]. apply map_Forall_insert_2; [done|apply (vw_reads _ _ _ Hv)]. }
  destruct (Config.quorum _ _).
  - eapply spec_use; [apply complete_read_spec|done..].
  - wp_steps. eapply spec_use; [apply for_each_send|done..].
Qed.

(** ** Snapshots *)

Lemma core_snapshot s sn l :
  core_wf s → Store.validate_snapshot sn = Ok tt → sm_configuration (metadata sn) = cfg →
  l = new (Some sn) (log_entries l) → log_wf l → last_index l + 1 ≤ u64_max →
  base_index l ≤ applied s → commit_index (hard s) ≤ last_index l →
  last_term l ≤ current_term (hard s) → core_wf (set_snap (Some sn) (set_log l s)).
Proof.
  intros [? ? Hlg [Hwf ? ?]] ? ? Hl ? ? ? ? ?.
  assert (st_log (stable_state (set_snap (Some sn) (set_log l s))) = l) as Heq by (by rewrite Hl at 2).
  split; [done|done|by rewrite Heq|]. split; [split|..]; rewrite ?Heq; wp_simpl; try done.
  - split; [done|]. by destruct Hwf as [_ _ [_ ?] _ _].
  - by intros ? [= <-].
  - by intros ? [= <-].
Qed.

Lemma last_term_compact l i tm :
  log_wf l → term l i = Some tm → last_term (compact l i tm true) = last_term l.
Proof.
  intros Hwf Ht. destruct (compact_wf _ _ _ Hwf Ht) as [Hwf' Hl].
  pose proof (term_last _ Hwf') as H1. rewrite Hl, term_compact in H1; try done.
  - rewrite term_last in H1 by done. by simplify_eq.
  - by apply (term_bound _ _ _ Hwf Ht).
Qed.

Definition snapshot_built_ok (sn : PersistentSnapshot) : Prop :=
  is_empty (data sn) = false ∧ zlen (data sn) ≤ STORE_MAX_SNAPSHOT_BYTES
  ∧ last_included_index (metadata sn) ≠ 0.

Lemma validate_snapshot_ok sn :
  snapshot_built_ok sn → Snapshot.validate sn = true → Store.validate_snapshot sn = Ok tt.
Proof.
  intros (He & Hm & H0) Hv. apply ensure_Ok. rewrite Hv, He.
  destruct (Z.ltb_spec STORE_MAX_SNAPSHOT_BYTES (zlen (data sn))); [lia|].
  by destruct (Z.eqb_spec (last_included_index (metadata sn)) 0).
Qed.

Lemma snapshot_built_spec sn :
  snapshot_built_ok sn → spec (λ _, True) (snapshot_built sn) (λ _ _, True).
Proof.
  intros Hok s Hwf Hu _. pose proof Hwf as [Hc Hv]. pose proof (cw_cfg _ _ _ Hc) as Hcfg.
  pose proof (core_log _ Hc) as (Hlog & Hr & Hlt & Hb & Hcl). unfold snapshot_built. wp_steps.
  destruct (negb _) eqn:Hval; [wp_tell; [apply Hc|done|done]|]. bool_prop. wp_steps.
  match goal with Ht : term _ _ = Some _ |- _ => rename Ht into Hterm end.
  destruct (compact_wf _ _ _ Hlog Hterm) as [Hlog' Hl'].
  pose proof (last_term_compact _ _ _ Hlog Hterm) as Hlt'.
  pose proof (term_bound _ _ _ Hlog Hterm) as Htb.
  pose proof (validate_snapshot_ok _ Hok ltac:(done)) as Hvs.
  set (l := compact (log s) (last_included_index (metadata sn)) (last_included_term (metadata sn)) true) in *.
  assert (core_wf (set_snap (Some sn) (set_log l s))) as Hc'.
  { apply core_snapshot; try (done || lia || congruence). }
  destruct (exec_compact (stable_state s) sn) as [Hx Hwfx]; try done.
  { apply Hc. }
  { by destruct Hok as (_ & _ & ?). }
  { by rewrite <- (cw_log _ _ _ Hc). }
  assert (compacted (stable_state s) sn = stable_state (set_snap (Some sn) (set_log l s))) as Heq.
  { unfold compacted. by rewrite <- (cw_log _ _ _ Hc). }
  rewrite Heq in Hx. eapply wp_emit; [done|exact Hx|apply Hc'| |].
  - pose proof (cw_log _ _ _ Hc) as Hlg. pose proof (cw_log _ _ _ Hc') as Hlg'.
    split; rewrite <- ?Hlg', <- ?Hlg; cbn [log set_snap set_log]; [done|done|cbn; lia|].
    intros i Hi. apply entry_compact; [done|done|]. cbn in Hi. lia.
  - split; [reflexivity|]. split; [|split; [exact Hu|exact I]]. split; [exact Hc'|].
    by apply vol_wf_set_snap, core_to_vol_log.
Qed.

Lemma snapshot_reply_spec to ok off d m :
  spec (λ s, d = true → m ≤ applied s) (snapshot_reply to ok off d m) (λ _ _, True).
Proof.
  intros s Hwf Hu Hm. pose proof Hwf as [Hc _]. unfold snapshot_reply. wp_steps.
  wp_tell; [apply Hc|by split|done].
Qed.

Definition transfer_ok (s : Raft) (md : SnapshotMetadata) : Prop :=
  sm_configuration md = cfg ∧ 0 < byte_len md ≤ STORE_MAX_SNAPSHOT_BYTES
  ∧ applied s < last_included_index md < u64_max
  ∧ last_included_term md ≤ current_term (hard s).

Lemma install_incoming_spec from md :
  spec (λ s, transfer_ok s md ∧ ∃ d, incoming_snapshot s = Some {| in_metadata := md; in_data := d |}
        ∧ zlen d = byte_len md ∧ sha256 d = sm_sha256 md)
    (install_incoming from md) (λ _ _, True).
Proof.
  intros s Hwf Hu ((Hcfg & Hbl & Hidx & Hlit) & d & Hinc & Hlen & Hsha). pose proof Hwf as [Hc Hv].
  pose proof (core_log _ Hc) as (Hlog & Hr & Hlt & Hb & Hcl). pose proof (wf_base _ Hlog).
  unfold caught_up in Hu.
  unfold install_incoming. apply wp_with_self. rewrite Hinc. wp_steps. cbn [in_metadata in_data].
  set (sn := {| metadata := md; data := d |}).
  set (l := compact (log s) _ _ _). set (h := {| current_term := current_term (hard s);
    voted_for := voted_for (hard s);
    commit_index := Z.max (commit_index (hard s)) (last_included_index md) |}).
  set (s1 := set_applied (last_included_index md) (set_hard h (set_snap (Some sn) (set_log l s)))).
  assert (Store.validate_snapshot sn = Ok tt) as Hvs.
  { apply validate_snapshot_ok; [unfold snapshot_built_ok|unfold Snapshot.validate]; cbn.
    - split_and!; [|lia|lia]. destruct d; [unfold zlen in *; cbn in *; lia|done].
    - by rewrite Hlen, Z.eqb_refl, bool_decide_true. }
  assert (installed (stable_state s) sn h = stable_state s1) as Heq.
  { unfold installed, s1, l. by rewrite <- (cw_log _ _ _ Hc). }
  destruct (installed_log (stable_state s) sn h) as [Hlog' Hli]; [apply Hc|cbn; lia|].
  assert (st_log (stable_state s1) = l) as Hl1.
  { rewrite <- Heq, st_log_installed. unfold l. by rewrite <- (cw_log _ _ _ Hc). }
  rewrite Heq, Hl1 in *. cbn [metadata sn] in Hli.
  assert (last_term l ≤ current_term (hard s)) as Hlt'.
  { unfold l. case_bool_decide as Ht; [|cbn; done]. by rewrite last_term_compact. }
  assert (base_index l = last_included_index md) as Hbl1 by done.
  assert (hs_le (hard s) h) as Hhs.
  { unfold h. split_and!; wp_simpl; [done|lia|by right]. }
  assert (stable_wf (stable_state s1) →
          exec1 (stable_state s) (Persist (MInstallSnapshot sn (entries (stable_state s1)) h))
          = Ok (stable_state s1)) as Hx.
  { rewrite <- Heq. intros Hw. apply exec_install; [apply Hc|done|done|cbn; lia|done]. }
  clear Heq. clearbody l.
  assert (core_wf s1) as Hc1.
  { destruct Hc as [? ? ? [Hswf ? ?]]. split; [done|done|by rewrite Hl1|].
    split; [split|..]; rewrite ?Hl1; unfold s1, h; wp_simpl; try done; try lia.
    - by intros ? [= <-].
    - by intros ? [= <-]. }
  eapply wp_emit; [done|apply Hx, Hc1|apply Hc1| |].
  - split; rewrite ?Hl1, <- ?(cw_log _ _ _ Hc); unfold s1; wp_simpl; [done|lia|lia|].
    intros i Hi. lia.
  - set (s2 := set_applied _ _).
    assert (raft_wf s2) as Hwf2.
    { split; [by apply (core_wf_ext me cfg s1)|]. destruct Hv as [? ? ? ? ? Hrd]. split; try done.
      unfold s2, h; cbn. intros k p Hk. specialize (Hrd k p Hk). cbn in Hrd. lia. }
    eapply spec_use; [apply snapshot_reply_spec|done|done| |cbn; lia|done].
    unfold caught_up, s2, h; cbn. lia.
Qed.

Lemma refuse_snapshot_spec to ok off m :
  spec (λ _, True) (snapshot_reply to ok off false m) (λ _ _, True).
Proof. intros s ???. by apply snapshot_reply_spec. Qed.

Lemma drop_transfer_spec to :
  spec (λ _, True) (modify (set_incoming_snapshot None) ;; snapshot_reply to false 0 false 0)%raft
    (λ _ _, True).
Proof.
  intros s Hwf Hu _. wp_steps. eapply spec_use; [apply refuse_snapshot_spec|done| |done..].
  by apply raft_wf_incoming.
Qed.

Lemma accept_chunk_spec from md off chunk d :
  spec (λ s, transfer_ok s md) (accept_chunk from md off chunk d) (λ _ _, True).
Proof.
  intros s Hwf Hu Hok. unfold accept_chunk. apply wp_with_self.
  destruct (incoming_snapshot s) as [inc|] eqn:Hinc; [|by apply refuse_snapshot_spec].
  case_bool_decide as Hmd; cbn [negb]; [|by apply refuse_snapshot_spec]. subst md.
  destruct (off <? _).
  { destruct (usize_try_from off); by apply refuse_snapshot_spec. }
  destruct (_ || _); [by apply refuse_snapshot_spec|]. wp_steps. cbn [in_data].
  apply (raft_wf_incoming _ (Some {| in_metadata := in_metadata inc; in_data := in_data inc ++ chunk |}))
    in Hwf.
  destruct (negb d); [by eapply spec_use; [apply refuse_snapshot_spec|..]|].
  destruct (_ || _) eqn:Hv.
  - by eapply spec_use; [apply drop_transfer_spec|..].
  - bool_prop. eapply spec_use; [apply install_incoming_spec|done|done|done| |done].
    split; [done|]. eexists. split_and!; [reflexivity|done|done].
Qed.

Lemma on_install_snapshot_spec from t l md off chunk d :
  last_included_term md ≤ t → last_included_index md < u64_max → 0 < byte_len md →
  spec (λ _, True) (on_install_snapshot from t l md off chunk d) (λ _ _, True).
Proof.
  intros Hlit Hlii Hbl s Hwf Hu _. unfold on_install_snapshot. apply wp_with_self.
  destruct (negb (l =? from)); [by apply wp_skip|].
  destruct (Z.ltb_spec t (current_term (hard s))) as [|Hge]; [by apply refuse_snapshot_spec|].
  apply wp_seq. eapply spec_use; [apply become_follower_spec|done..|].
  intros s1 Hwf1 Hu1 (Hh & _ & _ & _). pose proof Hwf1 as [Hc1 _]. wp_steps. wp_tell; [apply Hc1|done|].
  assert (current_term (hard s1) = t) as Ht1 by (rewrite Hh, demoted_term; lia).
  clear s Hwf Hu Hge Hh. apply wp_with_self. rewrite (cw_cfg _ _ _ Hc1).
  destruct (_ || _) eqn:Hbad; [by apply drop_transfer_spec|]. bool_prop.
  destruct (usize_try_from _); [|by apply drop_transfer_spec].
  destruct (Z.leb_spec (last_included_index md) (applied s1)).
  { by apply snapshot_reply_spec. }
  apply wp_seq. eapply wp_mono with (Q := synced (λ s', applied s' = applied s1 ∧ hard s' = hard s1)).
  { apply wp_when; intros _; [|done]. wp_steps. split_and!; [done| |done..]. by apply raft_wf_incoming. }
  intros st s2 (-> & Hwf2 & Hu2 & Ha & Hh). apply accept_chunk_spec; [done|done|].
  unfold transfer_ok, MAX_SNAPSHOT_BYTES in *. rewrite Ha, Hh, Ht1. unfold STORE_MAX_SNAPSHOT_BYTES.
  split_and!; done || lia.
Qed.

Lemma on_snapshot_response_spec from t ok off d m :
  spec (λ _, True) (on_snapshot_response from t ok off d m) (λ _ _, True).
Proof.
  intros s Hwf Hu _. unfold on_snapshot_response. apply wp_with_self.
  destruct (_ <? t); [by apply step_down_spec'|].
  destruct (_ || _) eqn:Hg; [by apply wp_skip|]. bool_prop. wp_steps.
  apply (raft_wf_active _ ({[from]} ∪ recent_active s)) in Hwf. set (s1 := set_recent_active _ s) in *.
  change (progress s) with (progress s1). assert (caught_up s1) as Hu1 by done.
  change (stable_state s) with (stable_state s1). clearbody s1. clear dependent s.
  destruct (progress s1 !! from) as [p|] eqn:Hp; [|by apply wp_skip]. apply wp_seq.
  eapply wp_mono with (Q := synced (λ _, True)).
  - destruct (d && ok); wp_steps.
    + eapply spec_use; [apply advance_leader_commit_spec|done| |done..].
      eapply raft_wf_progress; [done..|]. cbn. lia.
    + split_and!; [done| |done..]. by eapply raft_wf_progress.
  - intros st s (-> & ? & ? & _). eapply spec_use; [apply send_append_spec|done..].
Qed.

(** ** Dispatch *)

(** What a message must satisfy for the arithmetic of the handlers to stay in
    64 bits and a snapshot to be installable; [msg_ok_input_ok] shows that
    every message a well-formed node sends does. *)
Definition message_ok (from : NodeId) (m : Message) : Prop :=
  match m with
  | RequestVoteResponse t true => grants from t
  | AppendEntries _ _ prev _ es _ _ => 0 ≤ prev ∧ prev + zlen es + 1 ≤ u64_max
  | InstallSnapshot t _ md _ _ _ =>
      last_included_term md ≤ t ∧ last_included_index md < u64_max ∧ 0 < byte_len md
  | _ => True
  end.

Definition input_ok (i : Input) : Prop :=
  match i with
  | InMessage from m => message_ok from m
  | InSnapshotBuilt sn => snapshot_built_ok sn
  | _ => True
  end.

Lemma on_tick_spec tick : spec has_room (on_tick tick) (λ _ _, True).
Proof.
  intros s Hwf Hu Hr. pose proof Hwf as [Hc _]. unfold on_tick. apply wp_with_self. destruct tick.
  - apply wp_when; intros Hl; [|done]. apply negb_true_iff, bool_decide_eq_false in Hl. by apply start_pre_vote_spec.
  - apply wp_when; intros _; [|done]. apply wp_seq. eapply spec_use; [apply broadcast_append_spec|done..|].
    intros ? ? ? ->. wp_tell; [apply Hc|done|done].
  - apply wp_when; intros _; [|done]. destruct (Config.quorum _ _); [|by apply step_down_spec'].
    wp_steps. eapply spec_use; [apply broadcast_append_spec|done| |done..]. by apply raft_wf_active.
Qed.

Lemma on_message_spec from m :
  message_ok from m → spec has_room (on_message from m) (λ _ _, True).
Proof.
  intros Hm s Hwf Hu Hr. unfold on_message. apply wp_with_self.
  destruct (_ || _); [by apply wp_skip|]. destruct m; cbn in Hm.
  - by apply on_pre_vote_request_spec.
  - by apply on_pre_vote_response_spec.
  - by apply on_vote_request_spec.
  - apply on_vote_response_spec; [|done..]. by destruct granted.
  - destruct Hm. by apply on_append_entries_spec.
  - by apply on_append_response_spec.
  - destruct Hm as (? & ? & ?). by apply on_install_snapshot_spec.
  - by apply on_snapshot_response_spec.
Qed.

Lemma dispatch_spec i : input_ok i → spec has_room (dispatch i) (λ _ _, True).
Proof.
  intros Hi s Hwf Hu Hr. destruct i; cbn [dispatch].
  - by apply on_tick_spec.
  - by apply on_message_spec.
  - by apply propose_spec.
  - by apply read_index_spec.
  - by apply snapshot_built_spec.
Qed.

Lemma step_wp i s :
  raft_wf s → has_room s → input_ok i → wp (step i) (synced (λ _, True)) (stable_state s) s.
Proof.
  intros Hwf Hr Hi. unfold step. apply wp_seq. eapply wp_mono; [by apply apply_committed_spec|].
  intros st s' (-> & Hwf' & ->). by apply dispatch_spec.
Qed.

End Safety.
