(* ===== verification/RaftDurability.v ===== *)
(** * Durability of the Raft core

    The actions of one [step], executed in order by the runtime's stable
    store, bring the durable image to the state of the node; whatever prefix
    of them a crash leaves behind is a state that [recover] accepts; and no
    vote, acknowledgement or leadership becomes visible before it is durable. *)

From S2P Require Import Prelude RaftTypes RaftLogs RaftNode RaftStore RaftLogic RaftSafety.
Import RaftLog.
#[local] Existing Instance disk_le_preorder.

Section Durability.
Context `{Sha256}.

(** ** The stable store executes what [exec1] describes *)

Section Store.
Context `{!StoreIo} `{!StoreIoOk}.

Lemma publish_ok st : stable_wf st → Store.publish st = Ok tt.
Proof.
  intros Hwf. unfold Store.publish. rewrite validate_indexes_ok by done. cbn.
  rewrite io_publish_ok. destruct (snapshot st) as [s|] eqn:Hs; [|done].
  by rewrite (sw_snap _ Hwf s Hs).
Qed.

Lemma entry_bytes_ok es : ∃ b, io_entry_bytes es = Ok b.
Proof. pose proof (io_entry_bytes_ok es). destruct (io_entry_bytes es); [eauto|done]. Qed.

(** Actions on which [execute_actions] stops. *)
Definition halts (a : Action) : bool :=
  match a with Fatal _ | SnapshotRejected _ => true | _ => false end.

Definition store_of (st : StableState) (b : Z) : StableStore :=
  {| st_state := st; pending_install := None; retained_entry_bytes := b |}.

Lemma persist_next st mu st' b :
  Store.next_state st mu = Ok st' → stable_wf st' →
  ∃ b', Store.persist (store_of st b) mu = Ok (store_of st' b').
Proof.
  intros Hn Hwf. unfold Store.persist. cbn [st_state store_of]. rewrite Hn. cbn.
  rewrite validate_indexes_ok by done. cbn. destruct (entry_bytes_ok (entries st')) as [b' ->]. cbn.
  rewrite publish_ok by done. by exists b'.
Qed.

Lemma execute_action_exec1 st a st' b :
  exec1 st a = Ok st' → stable_wf st → stable_wf st' → halts a = false →
  ∃ b', Store.execute_action (store_of st b) a = Ok (store_of st' b').
Proof.
  intros Hx Hwf Hwf' Hh.
  destruct a as [mu| | | | |e| | | | | |]; try done; cbn [exec1 exec_mutation] in Hx; try (simplify_eq; by exists b).
  - destruct mu as [hs|es|f es|sn es|sn es hs]; cbn [Store.execute_action].
    1-4: apply result_bind_Ok in Hx as (nx & Hn & (u & Hv & Hx)%result_bind_Ok); simplify_eq;
      by apply persist_next.
    apply result_bind_Ok in Hx as ([] & Hvs & ([] & Hvm & ([] & Hvi & ([] & Hsuf%ensure_Ok
      & ([] & Hix%ensure_Ok & Hx)%result_bind_Ok)%result_bind_Ok)%result_bind_Ok)%result_bind_Ok).
    simplify_eq.
    unfold Store.install_received_snapshot, Store.begin_snapshot_install. cbn [st_state store_of].
    rewrite Hvs. cbn. rewrite Hvm. cbn. rewrite Hvi. cbn.
    apply bool_decide_eq_true in Hsuf. rewrite <- Hsuf. rewrite bool_decide_true by done. cbn.
    rewrite Hix. cbn. rewrite io_publish_intent_ok. cbn. rewrite db_install_ok. cbn.
    unfold Store.complete_snapshot_install. cbn. rewrite Hvi. cbn.
    destruct (decide _) as [Heq|_]; cbn; [exists b; by rewrite Heq|].
    destruct (entry_bytes_ok es) as [b' ->]. cbn. rewrite publish_ok by done. cbn. by exists b'.
  - apply result_bind_Ok in Hx as (u & Hc%ensure_Ok & (u' & Hv & Hx)%result_bind_Ok). simplify_eq.
    bool_prop. cbn [Store.execute_action]. rewrite db_apply_ok. cbn.
    unfold Store.mark_applied. cbn [st_state store_of].
    destruct (Z.eqb_spec (e_index e) (applied_index st)); [lia|].
    pose proof (sw_room _ Hwf). pose proof (sw_commit _ Hwf). unfold checked_add.
    destruct (Z.leb_spec (applied_index st + 1) u64_max); [|lia]. cbn.
    destruct (Z.eqb_spec (e_index e) (applied_index st + 1)); [|lia].
    destruct (Z.ltb_spec (commit_index (hard_state st)) (e_index e)); [lia|]. cbn.
    rewrite publish_ok by done. by exists b.
Qed.

Lemma execute_actions_runs me cfg grants st acts st' b :
  runs me cfg grants st acts st' → stable_wf st → Forall (λ a, halts a = false) acts →
  ∃ b', Store.execute_actions (store_of st b) acts = Ok (store_of st' b').
Proof.
  intros Hr. revert b. unfold Store.execute_actions.
  induction Hr as [st|st a st1 acts st2 Hok Hx Hd Hle Hr IH]; intros b Hwf Hf; cbn [foldM]; [by exists b|].
  inversion Hf as [|?? Ha Hf']; subst.
  destruct (execute_action_exec1 st a st1 b) as [b1 ->]; [done|done|apply Hd|done|]. cbn.
  apply IH; [apply Hd|done].
Qed.

End Store.

(** ** Recovery *)

Section Recovery.
Context (me : NodeId) (cfg : Configuration) (grants : NodeId → Z → Prop).
Hypothesis me_voter : Config.contains cfg me = true.

Lemma seq_from_terms i tm es T :
  seq_from i tm es → end_term tm es ≤ T → Forall (λ e, e_term e ≤ T) es.
Proof.
  revert i tm. induction es as [|e es IH]; intros i tm Hs Ht; [done|].
  destruct Hs as (_ & _ & Hs). rewrite end_term_cons in Ht. constructor; [|by eapply IH].
  pose proof (end_term_ge _ _ _ Hs). lia.
Qed.

Lemma recover_entries_ok T es i tm :
  seq_from i tm es → Forall (λ e, e_term e ≤ T) es → i + zlen es ≤ u64_max →
  is_ok (foldM (recover_entry T) (i, tm) es) = true.
Proof.
  revert i tm. induction es as [|e es IH]; intros i tm Hs Hf Hu; [done|].
  destruct Hs as (Hi & Ht & Hs). inversion Hf; subst. rewrite zlen_cons in Hu. pose proof (zlen_nonneg es).
  cbn. rewrite Z.eqb_refl. destruct (Z.leb_spec tm (e_term e)); [|lia].
  destruct (Z.leb_spec (e_term e) T); [|lia]. cbn. rewrite saturating_add_small by lia.
  apply IH; [done|done|lia].
Qed.

(** The node [recover] builds from a durable image. *)
Definition restarted (st : StableState) : Raft :=
  {| id := me; configuration := cfg; hard := hard_state st;
     log := RaftLog.new (snapshot st) (entries st); snap := snapshot st;
     applied := applied_index st; role := Follower; leader_id := None; campaign_term := None;
     votes := ∅; progress := ∅; recent_active := ∅; pending_reads := ∅;
     incoming_snapshot := None |}.

Lemma stable_state_restarted st : stable_state (restarted st) = st.
Proof. destruct st as [? [] ? ?]; done. Qed.

Lemma restarted_wf st : disk_ok cfg st → raft_wf me cfg grants (restarted st).
Proof.
  intros Hd. split; split; rewrite ?stable_state_restarted; try done; cbn.
  by intros [].
Qed.

Lemma recover_ok st : disk_ok cfg st → recover me cfg st = Ok (restarted st).
Proof.
  intros [Hwf Ht Hc]. unfold recover. rewrite me_voter. cbn [ensure mbind result_bind].
  assert (match snapshot st with
          | None => Ok tt
          | Some s =>
              _ ← ensure (Snapshot.validate s) (InvalidSnapshot "length or SHA-256 mismatch");
              ensure (bool_decide (sm_configuration (metadata s) = cfg))
                (InvalidSnapshot "snapshot voter set differs from local configuration")
          end = Ok tt) as ->.
  { destruct (snapshot st) as [s|] eqn:Hs; [|done].
    pose proof (sw_snap _ Hwf s Hs) as Hv. apply ensure_Ok in Hv. bool_prop.
    match goal with Hx : Snapshot.validate s = true |- _ => rewrite Hx end. cbn.
    by rewrite bool_decide_true by auto. }
  cbn [mbind result_bind].
  pose proof (store_base_index st) as Hbi. pose proof (store_base_term st) as Hbt.
  pose proof (store_last_index st) as Hli.
  unfold Store.base_index, Store.base_term, Store.last_index, Store.base_index in Hbi, Hbt, Hli.
  destruct Hwf as [Hlog Hr Ha Hcm _]. pose proof (wf_seq _ Hlog) as Hs.
  pose proof (last_index_wf _ Hlog) as Hl. rewrite store_entries in Hs, Hl.
  pose proof (wf_base _ Hlog). pose proof (zlen_nonneg (entries st)).
  assert ((let '(bi, bt) := match snapshot st with None => (0, 0) | Some s =>
      (last_included_index (metadata s), last_included_term (metadata s)) end in bi)
      = base_index (st_log st)) as Hb1 by (by destruct (snapshot st)).
  destruct (match snapshot st with None => (0, 0) | Some s =>
      (last_included_index (metadata s), last_included_term (metadata s)) end) as [bi bt] eqn:Hp.
  assert (bi = base_index (st_log st) ∧ bt = base_term (st_log st)) as [-> ->].
  { destruct (snapshot st); simplify_eq; auto. }
  rewrite saturating_add_small by lia.
  pose proof (recover_entries_ok (current_term (hard_state st)) (entries st) _ _ Hs) as Hrec.
  destruct (foldM _ _ _) as [r|]; [|exfalso; apply Bool.diff_false_true, Hrec; [|lia]].
  2:{ eapply seq_from_terms; [done|]. by revert Ht; unfold last_term, end_term; rewrite store_entries. }
  cbn [mbind result_bind].
  assert (match last (entries st) with None => base_index (st_log st) | Some e => e_index e end
          = last_index (st_log st)) as ->.
  { rewrite <- Hli. destruct (last (entries st)); [done|]. by rewrite <- Hbi. }
  replace ((_ <? _) || (_ <? _)) with false.
  2:{ symmetry. rewrite orb_false_iff, !Z.ltb_ge. lia. }
  cbn [negb ensure mbind result_bind].
  replace ((_ <? _) || (_ <? _)) with false.
  2:{ symmetry. rewrite orb_false_iff, !Z.ltb_ge. lia. }
  done.
Qed.

End Recovery.
(** ** What one step leaves behind *)

Section Steps.
Context (me : NodeId) (cfg : Configuration) (grants : NodeId → Z → Prop).
Context `{!StoreIo} `{!StoreIoOk}.

Lemma runs_split st a1 a2 st' :
  runs me cfg grants st (a1 ++ a2) st' →
  ∃ st1, runs me cfg grants st a1 st1 ∧ runs me cfg grants st1 a2 st'.
Proof.
  revert st. induction a1 as [|a a1 IH]; intros st Hr; cbn in Hr.
  - exists st. split; [constructor|done].
  - inversion Hr as [|?? st1 ?? Hok Hx Hd Hle Hr']; subst.
    destruct (IH st1 Hr') as (st2 & ? & ?). exists st2. split; [by econstructor|done].
Qed.

Lemma runs_disk_ok st acts st' :
  runs me cfg grants st acts st' → disk_ok cfg st → disk_ok cfg st'.
Proof. induction 1; auto. Qed.

Lemma step_runs s i :
  raft_wf me cfg grants s → has_room s → input_ok grants i →
  runs me cfg grants (stable_state s) (step i s).2 (stable_state (step i s).1)
  ∧ raft_wf me cfg grants (step i s).1 ∧ caught_up (step i s).1.
Proof.
  intros Hwf Hr Hi. destruct (step_wp me cfg grants i s Hwf Hr Hi) as (st & Hrun & -> & ? & ? & _). done.
Qed.

(** The disk at any point of the execution of a step's actions. *)
Lemma step_prefix s i a1 a2 b :
  raft_wf me cfg grants s → has_room s → input_ok grants i →
  (step i s).2 = a1 ++ a2 → Forall (λ a, halts a = false) a1 →
  ∃ st1 b1, Store.execute_actions (store_of (stable_state s) b) a1 = Ok (store_of st1 b1)
    ∧ disk_ok cfg st1 ∧ disk_le (stable_state s) st1
    ∧ ∃ st2, runs me cfg grants st1 a2 st2.
Proof.
  intros Hwf Hr Hi Ha Hf. destruct (step_runs s i Hwf Hr Hi) as (Hrun & _ & _).
  rewrite Ha in Hrun. apply runs_split in Hrun as (st1 & R1 & R2).
  pose proof (cw_disk _ _ _ (rw_core _ _ _ _ Hwf)) as Hd.
  destruct (execute_actions_runs _ _ _ _ _ _ b R1 (do_wf _ _ Hd) Hf) as [b1 Hx].
  exists st1, b1. split_and!; [done|by eapply runs_disk_ok|by eapply runs_le|by eexists].
Qed.

Lemma step_prefix_act s i a1 a a2 b :
  raft_wf me cfg grants s → has_room s → input_ok grants i →
  (step i s).2 = a1 ++ a :: a2 → Forall (λ a, halts a = false) a1 →
  ∃ st1 b1, Store.execute_actions (store_of (stable_state s) b) a1 = Ok (store_of st1 b1)
    ∧ act_ok me cfg grants st1 a.
Proof.
  intros Hwf Hr Hi Ha Hf. destruct (step_prefix s i a1 (a :: a2) b) as (st1 & b1 & Hx & _ & _ & st2 & Hr2);
    [done..|]. exists st1, b1. split; [done|]. by inversion Hr2.
Qed.

(** C6: [Raft::step] keeps a node well formed, leaves nothing committed
    unapplied, and its actions, executed in order by the runtime's stable
    store with every external call succeeding, turn the durable image of the
    old node into exactly the durable image of the new one. *)
Theorem step_refines_store s i b :
  raft_wf me cfg grants s → has_room s → input_ok grants i →
  let '(s', acts) := step i s in
  raft_wf me cfg grants s' ∧ applied s' = commit_index (hard s')
  ∧ (Forall (λ a, halts a = false) acts →
     ∃ b', Store.execute_actions (store_of (stable_state s) b) acts
           = Ok (store_of (stable_state s') b')).
Proof.
  intros Hwf Hr Hi. destruct (step_runs s i Hwf Hr Hi) as (Hrun & Hwf' & Hu).
  destruct (step i s) as [s' acts]; cbn in *. split_and!; [done..|]. intros Hf.
  eapply execute_actions_runs; [done|apply Hwf|done].
Qed.

(** C9: a crash after any prefix of the actions of a step leaves a durable
    image that [Raft::recover] accepts, in which terms, votes and commit
    index have not regressed and no committed entry was replaced; the
    recovered node is well formed and has exactly that image. *)
Theorem crash_prefix_recovers s i a1 a2 b :
  Config.contains cfg me = true →
  raft_wf me cfg grants s → has_room s → input_ok grants i →
  (step i s).2 = a1 ++ a2 → Forall (λ a, halts a = false) a1 →
  ∃ st1 b1 s1, Store.execute_actions (store_of (stable_state s) b) a1 = Ok (store_of st1 b1)
    ∧ disk_le (stable_state s) st1
    ∧ recover me cfg st1 = Ok s1 ∧ raft_wf me cfg grants s1 ∧ stable_state s1 = st1.
Proof.
  intros Hme Hwf Hr Hi Ha Hf.
  destruct (step_prefix s i a1 a2 b) as (st1 & b1 & Hx & Hd & Hle & _); [done..|].
  exists st1, b1, (restarted me cfg st1). split_and!; [done|done|by apply recover_ok| |].
  - by apply restarted_wf.
  - apply stable_state_restarted.
Qed.

(** A vote is durable before it is visible: when a granted
    [RequestVoteResponse] is sent, the store already holds that term and that
    vote. *)
Theorem vote_durable_before_reply s i a1 a2 to t b :
  raft_wf me cfg grants s → has_room s → input_ok grants i →
  (step i s).2 = a1 ++ Send to (RequestVoteResponse t true) :: a2 →
  Forall (λ a, halts a = false) a1 →
  ∃ st1 b1, Store.execute_actions (store_of (stable_state s) b) a1 = Ok (store_of st1 b1)
    ∧ current_term (hard_state st1) = t ∧ voted_for (hard_state st1) = Some to.
Proof.
  intros Hwf Hr Hi Ha Hf.
  destruct (step_prefix_act s i a1 _ a2 b Hwf Hr Hi Ha Hf) as (st1 & b1 & Hx & Ht & Hv).
  exists st1, b1. auto.
Qed.

(** C38: an append is durable before it is acknowledged: when a successful
    [AppendEntriesResponse] is sent, the stable log already reaches the
    acknowledged index, in the term of the reply. *)
Theorem append_durable_before_ack s i a1 a2 to t m ci ct ctx b :
  raft_wf me cfg grants s → has_room s → input_ok grants i →
  (step i s).2 = a1 ++ Send to (AppendEntriesResponse t true m ci ct ctx) :: a2 →
  Forall (λ a, halts a = false) a1 →
  ∃ st1 b1, Store.execute_actions (store_of (stable_state s) b) a1 = Ok (store_of st1 b1)
    ∧ current_term (hard_state st1) = t ∧ m ≤ Store.last_index st1.
Proof.
  intros Hwf Hr Hi Ha Hf.
  destruct (step_prefix_act s i a1 _ a2 b Hwf Hr Hi Ha Hf) as (st1 & b1 & Hx & Ht & Hm).
  exists st1, b1. rewrite store_last_index. auto.
Qed.

(** Entries are applied in log order without gaps: an [Apply] carries the
    durable entry that follows the applied index of the store at that moment,
    and it is committed. *)
Theorem apply_in_order s i a1 a2 e b :
  raft_wf me cfg grants s → has_room s → input_ok grants i →
  (step i s).2 = a1 ++ Apply e :: a2 → Forall (λ a, halts a = false) a1 →
  ∃ st1 b1, Store.execute_actions (store_of (stable_state s) b) a1 = Ok (store_of st1 b1)
    ∧ e_index e = applied_index st1 + 1 ∧ e_index e ≤ commit_index (hard_state st1)
    ∧ entry (st_log st1) (e_index e) = Some e.
Proof.
  intros Hwf Hr Hi Ha Hf.
  destruct (step_prefix_act s i a1 _ a2 b Hwf Hr Hi Ha Hf) as (st1 & b1 & Hx & He & Hn & Hc).
  exists st1, b1. auto.
Qed.

(** Of the many [Fatal] actions of the core only two can ever be emitted
    by a well-formed node: exhaustion of the term counter, and a leader that
    tries to replace a committed entry. *)
Theorem fatal_reasons s i reason :
  raft_wf me cfg grants s → has_room s → input_ok grants i →
  Fatal reason ∈ (step i s).2 →
  reason = "term counter exhausted"
  ∨ ∃ idx, reason = "leader attempted to replace committed index " +:+ pretty idx
           ∧ idx ≤ commit_index (hard (step i s).1).
Proof.
  intros Hwf Hr Hi Hin. destruct (step_runs s i Hwf Hr Hi) as (Hrun & _ & _).
  apply list_elem_of_split in Hin as (a1 & a2 & Ha). rewrite Ha in Hrun.
  apply runs_split in Hrun as (st1 & _ & R2). pose proof (runs_le _ _ _ _ _ _ R2) as Hle.
  inversion R2 as [|?? st2 ?? Hok _ _ _ _]; subst. destruct Hok as [Hok|(idx & Hok & Hc)]; [by left|right].
  exists idx. split; [done|]. destruct Hle as [(_ & Hci & _) _ _ _]. wp_simpl. lia.
Qed.

(** C39: one step never regresses the hard state, never changes a vote within
    its term, and never replaces an entry at or below the commit index:
    whatever of the committed log is still retained reads back unchanged. *)
Theorem committed_log_stable s i idx :
  raft_wf me cfg grants s → has_room s → input_ok grants i →
  let s' := (step i s).1 in
  hs_le (hard s) (hard s') ∧ applied s ≤ applied s'
  ∧ (base_index (log s') < idx ≤ commit_index (hard s) →
     entry (log s') idx = entry (log s) idx).
Proof.
  intros Hwf Hr Hi s'. destruct (step_runs s i Hwf Hr Hi) as (Hrun & Hwf' & _).
  fold s' in Hrun, Hwf'. apply runs_le in Hrun as [Hh Ha _ Hk].
  rewrite <- (cw_log _ _ _ (rw_core _ _ _ _ Hwf)), <- (cw_log _ _ _ (rw_core _ _ _ _ Hwf')) in Hk.
  auto.
Qed.

End Steps.
End Durability.
