(* ===== verification/RaftCluster.v ===== *)
(** * A cluster of Raft nodes over an unreliable network

    The cluster of [crates/aster-raft/src/simulator.rs]: every node runs
    [Raft::step] and has its actions executed, in order, by its stable store.
    A message that was sent may be delivered any number of times, in any
    order, or never; a node may stop after any prefix of the actions of a
    step (a crash, or the fence on a fatal action) and restarts with
    [Raft::recover] on what its store holds. *)

From S2P Require Import Prelude RaftTypes RaftLogs RaftNode RaftStore RaftLogic RaftSafety RaftDurability.
Import RaftLog.
#[local] Existing Instance disk_le_preorder.

Definition Trace : Type := list (NodeId * Action).

Record Cluster : Type := mkCluster {
  up : gmap NodeId Raft;
  stores : gmap NodeId StableStore;
  trace : Trace          (* every action executed so far *)
}.

Section Cluster.
Context `{Sha256} `{!StoreIo}.
Context (cfg : Configuration).

Definition empty_store : StableStore := store_of StableState_default 0.

Definition initial : Cluster :=
  {| up := ∅;
     stores := gset_to_gmap empty_store (participants cfg);
     trace := [] |}.

(** A message comes from the network; a snapshot is built by the runtime. *)
Definition deliverable (c : Cluster) (v : NodeId) (i : Input) : Prop :=
  match i with
  | InMessage from m => (from, Send v m) ∈ trace c
  | InSnapshotBuilt sn => snapshot_built_ok sn
  | _ => True
  end.

(** Node [v] handled [i] and its store executed the actions [done] of the
    step; it survives exactly when nothing is [left]. *)
Definition executed (c : Cluster) (v : NodeId) (s' : Raft) (done left : list Action)
    (store' : StableStore) : Cluster :=
  {| up := if is_empty left then <[v := s']> (up c) else delete v (up c);
     stores := <[v := store']> (stores c);
     trace := trace c ++ ((λ a, (v, a)) <$> done) |}.

Inductive cluster_step : Cluster → Cluster → Prop :=
| cs_step c v s i done left store store' :
    up c !! v = Some s → stores c !! v = Some store →
    has_room s → deliverable c v i →
    (step i s).2 = done ++ left → Forall (λ a, halts a = false) done →
    Store.execute_actions store done = Ok store' →
    cluster_step c (executed c v (step i s).1 done left store')
| cs_crash c v :
    cluster_step c {| up := delete v (up c); stores := stores c; trace := trace c |}
| cs_restart c v store s :
    up c !! v = None → stores c !! v = Some store →
    recover v cfg (st_state store) = Ok s →
    cluster_step c {| up := <[v := s]> (up c); stores := stores c; trace := trace c |}.

Inductive reachable : Cluster → Prop :=
| reachable_initial : reachable initial
| reachable_step c c' : reachable c → cluster_step c c' → reachable c'.

(** ** The history of a run *)

Definition granted (tr : Trace) (me v : NodeId) (t : Z) : Prop :=
  (v, Send me (RequestVoteResponse t true)) ∈ tr.

(** [v] supported candidate [a] in term [t]. *)
Definition cast (tr : Trace) (v : NodeId) (t : Z) (a : NodeId) : Prop :=
  granted tr a v t ∨ (a = v ∧ (v, RoleChanged Leader t) ∈ tr).

Definition hist_votes (D : gmap NodeId StableStore) (tr : Trace) : Prop :=
  ∀ v t a, cast tr v t a → ∃ store, D !! v = Some store
    ∧ (t < current_term (hard_state (st_state store))
       ∨ t = current_term (hard_state (st_state store))
         ∧ voted_for (hard_state (st_state store)) = Some a).

Definition hist_unique (tr : Trace) : Prop :=
  ∀ v t a a', cast tr v t a → cast tr v t a' → a = a'.

Definition hist_leaders (tr : Trace) : Prop :=
  ∀ v t, (v, RoleChanged Leader t) ∈ tr → elected v cfg (granted tr v) t.

Definition hist_messages (tr : Trace) : Prop :=
  ∀ v to m, (v, Send to m) ∈ tr → message_ok (granted tr to) v m.

Record hist_ok (D : gmap NodeId StableStore) (tr : Trace) : Prop := {
  ho_votes : hist_votes D tr;
  ho_unique : hist_unique tr;
  ho_leaders : hist_leaders tr;
  ho_messages : hist_messages tr
}.

Lemma message_ok_mono (G G' : NodeId → Z → Prop) v m :
  (∀ w t, G w t → G' w t) → message_ok G v m → message_ok G' v m.
Proof. intros HG. destruct m; cbn; auto. destruct granted0; auto. Qed.

Lemma elected_mono v (G G' : NodeId → Z → Prop) t :
  (∀ w t, G w t → G' w t) → elected v cfg G t → elected v cfg G' t.
Proof. intros HG (vs & Hq & Hv). exists vs. split; [done|]. intros w Hw. destruct (Hv w Hw); auto. Qed.

Lemma act_ok_mono v (G G' : NodeId → Z → Prop) st a :
  (∀ w t, G w t → G' w t) → act_ok v cfg G st a → act_ok v cfg G' st a.
Proof.
  intros HG. destruct a as [| | | |r t| | | | | | |]; cbn; try done. destruct r; try done.
  intros (? & ? & ?). split_and!; [done..|]. by eapply elected_mono.
Qed.

Lemma raft_wf_mono v (G G' : NodeId → Z → Prop) s :
  (∀ w t, G w t → G' w t) → raft_wf v cfg G s → raft_wf v cfg G' s.
Proof.
  intros HG [Hc [? ? Hv ? ? ?]]. split; [done|]. split; try done.
  intros Hr w Hw. destruct (Hv Hr w Hw); auto.
Qed.

Lemma granted_app tr tr' me v t : granted tr me v t → granted (tr ++ tr') me v t.
Proof. unfold granted. rewrite elem_of_app. auto. Qed.

(** Whatever a well-formed node sends is an admissible input. *)
Lemma msg_ok_message_ok v st to m (G : NodeId → Z → Prop) :
  disk_ok cfg st → msg_ok v st to m → (∀ t, m = RequestVoteResponse t true → G v t) →
  message_ok G v m.
Proof.
  intros [Hwf Ht _] Hm Hg. pose proof (sw_log _ Hwf) as Hlog. pose proof (wf_base _ Hlog) as Hb.
  pose proof (sw_room _ Hwf). pose proof (last_index_bounds _ Hlog).
  destruct m as [| | |t g|t c p pt es lc ctx| |t c md o d f|]; cbn in *; try done.
  - destruct g; auto.
  - destruct Hm as (-> & _ & _ & _ & Hp & _ & Hle & _). pose proof (term_bound _ _ _ Hlog Hp). lia.
  - destruct Hm as (-> & _ & _ & sn & Hsn & <-).
    assert (base_index (st_log st) = last_included_index (metadata sn)
            ∧ base_term (st_log st) = last_included_term (metadata sn)) as [Hbi Hbt].
    { unfold st_log, new. by rewrite Hsn. }
    pose proof (term_mono _ _ _ _ _ Hlog (term_base _) (term_last _ Hlog)).
    pose proof (sw_snap _ Hwf sn Hsn) as Hv. apply ensure_Ok in Hv. bool_prop.
    unfold Snapshot.validate in *. bool_prop.
    assert (zlen (data sn) ≠ 0) by (destruct (data sn); [done|]; rewrite zlen_cons; pose proof (zlen_nonneg l); lia).
    pose proof (zlen_nonneg (data sn)). split_and!; lia.
Qed.

(** ** One action extends the history *)

Definition supports (h : HardState) (t : Z) (a : NodeId) : Prop :=
  t < current_term h ∨ t = current_term h ∧ voted_for h = Some a.

Lemma supports_le h h' t a : hs_le h h' → supports h t a → supports h' t a.
Proof.
  intros (Ht & _ & Hv) [Hs|[-> Hs]]; unfold supports; [lia|].
  destruct (decide (current_term h = current_term h')) as [He|]; [|lia].
  destruct (Hv He) as [|Hv']; [congruence|]. right. split; [done|]. congruence.
Qed.

Lemma cast_snoc tr v a w t c st :
  act_ok v cfg (granted tr v) st a → cast (tr ++ [(v, a)]) w t c →
  cast tr w t c ∨ (w = v ∧ current_term (hard_state st) = t ∧ voted_for (hard_state st) = Some c).
Proof.
  intros Hok. unfold cast, granted. rewrite !elem_of_app, !list_elem_of_singleton.
  intros [[?|He]|[-> [?|He]]]; [by left; left| |by left; right|]; simplify_eq; right; cbn in Hok.
  - destruct Hok as [-> Hv]. auto.
  - by destruct Hok as (-> & ? & _).
Qed.

Lemma hist_action D tr v store store' a :
  hist_ok D tr → D !! v = Some store →
  act_ok v cfg (granted tr v) (st_state store) a → disk_ok cfg (st_state store) →
  hs_le (hard_state (st_state store)) (hard_state (st_state store')) →
  hist_ok (<[v := store']> D) (tr ++ [(v, a)]).
Proof.
  intros [HV HU HL HM] Hv Hok Hd Hle.
  assert (∀ me w t, granted tr me w t → granted (tr ++ [(v, a)]) me w t) as Hmono
    by (intros; by apply granted_app).
  split.
  - intros w t c Hc. destruct (cast_snoc _ _ _ _ _ _ _ Hok Hc) as [Hold|(-> & <- & Hvf)].
    + destruct (HV _ _ _ Hold) as (st & Hst & Hs). destruct (decide (w = v)) as [->|Hne].
      * simplify_eq. exists store'. rewrite lookup_insert_eq. split; [done|].
        by eapply supports_le.
      * exists st. by rewrite lookup_insert_ne.
    + exists store'. rewrite lookup_insert_eq. split; [done|]. eapply supports_le; [done|]. by right.
  - assert (∀ c, cast tr v (current_term (hard_state (st_state store))) c →
        voted_for (hard_state (st_state store)) = Some c) as Hnow.
    { intros c Hc. destruct (HV _ _ _ Hc) as (st & Hst & [?|[_ ?]]); simplify_eq; [lia|done]. }
    intros w t c c' Hc Hc'.
    destruct (cast_snoc _ _ _ _ _ _ _ Hok Hc) as [Hold|(-> & <- & Hvf)],
      (cast_snoc _ _ _ _ _ _ _ Hok Hc') as [Hold'|(Hw & Ht & Hvf')]; subst.
    + by eapply HU.
    + apply Hnow in Hold. congruence.
    + apply Hnow in Hold'. congruence.
    + congruence.
  - intros w t [Hw|Hw%list_elem_of_singleton]%elem_of_app.
    + eapply elected_mono; [|by apply HL]. auto.
    + simplify_eq. destruct Hok as (_ & _ & ?). eapply elected_mono; [|done]. auto.
  - intros w to m [Hw|Hw%list_elem_of_singleton]%elem_of_app.
    + eapply message_ok_mono; [|by apply HM]. auto.
    + simplify_eq. eapply msg_ok_message_ok; [done|done|]. intros t ->.
      unfold granted. rewrite elem_of_app, list_elem_of_singleton. auto.
Qed.

(** ** A run of actions extends the history *)

Lemma hist_runs D tr v store b acts st' G :
  runs v cfg G (st_state store) acts st' → hist_ok D tr → D !! v = Some store →
  disk_ok cfg (st_state store) → (∀ w t, G w t → granted tr v w t) →
  hist_ok (<[v := store_of st' b]> D) (tr ++ ((λ a, (v, a)) <$> acts)).
Proof.
  remember (st_state store) as st eqn:Hst. intros Hr. revert D tr store Hst.
  induction Hr as [st|st a st1 acts st2 Hok Hx Hd1 Hle Hr IH]; intros D tr store -> HH HD Hd HG.
  - rewrite app_nil_r. destruct HH as [HV HU HL HM]. split; try done. intros w t c Hc.
    destruct (HV _ _ _ Hc) as (stw & Hw & Hs). destruct (decide (w = v)) as [->|].
    + simplify_eq. exists (store_of (st_state store) b). by rewrite lookup_insert_eq.
    + exists stw. by rewrite lookup_insert_ne.
  - cbn [fmap list_fmap]. rewrite cons_middle, app_assoc.
    rewrite <- (insert_insert_eq D v (store_of st2 b) (store_of st1 b)).
    eapply (IH _ _ (store_of st1 b)); [done| |by rewrite lookup_insert_eq|done|].
    + eapply hist_action; [done..| |done|apply Hle]. by eapply act_ok_mono.
    + intros w t Hw. by apply granted_app, HG.
Qed.

(** ** The invariant of a cluster *)

Record cluster_ok (c : Cluster) : Prop := {
  co_stores : ∀ v, v ∈ participants cfg →
    ∃ st b, stores c !! v = Some (store_of st b) ∧ disk_ok cfg st;
  co_domain : ∀ v store, stores c !! v = Some store → v ∈ participants cfg;
  co_up : ∀ v s, up c !! v = Some s →
    raft_wf v cfg (granted (trace c) v) s
    ∧ ∃ b, stores c !! v = Some (store_of (stable_state s) b);
  co_hist : hist_ok (stores c) (trace c)
}.

Lemma default_disk_ok : disk_ok cfg StableState_default.
Proof. split; [split; [split|..]|..]; try done. Qed.

Lemma initial_ok : cluster_ok initial.
Proof.
  split; cbn.
  - intros v Hv. exists StableState_default, 0.
    split; [by apply lookup_gset_to_gmap_Some|apply default_disk_ok].
  - by intros v store [? _]%lookup_gset_to_gmap_Some.
  - intros v s. by rewrite lookup_empty.
  - split; unfold hist_votes, hist_unique, hist_leaders, hist_messages, cast, granted.
    + intros v t a. rewrite !elem_of_nil. naive_solver.
    + intros v t a a'. rewrite !elem_of_nil. naive_solver.
    + intros v t. by rewrite elem_of_nil.
    + intros v to m. by rewrite elem_of_nil.
Qed.

Lemma deliverable_ok c v i :
  cluster_ok c → deliverable c v i → input_ok (granted (trace c) v) i.
Proof. intros Hc. destruct i; cbn; auto. apply (ho_messages _ _ (co_hist _ Hc)). Qed.

Context `{!StoreIoOk}.

Lemma executed_ok c v s i done left store store' :
  cluster_ok c → up c !! v = Some s → stores c !! v = Some store →
  has_room s → deliverable c v i →
  (step i s).2 = done ++ left → Forall (λ a, halts a = false) done →
  Store.execute_actions store done = Ok store' →
  cluster_ok (executed c v (step i s).1 done left store').
Proof.
  intros Hc Hs Hst Hroom Hdel Hacts Hh Hx. destruct (co_up _ Hc v s Hs) as (Hwf & b & Hb).
  simplify_eq. pose proof (deliverable_ok _ _ _ Hc Hdel) as Hin.
  destruct (step_runs v cfg _ s i Hwf Hroom Hin) as (Hrun & Hwf' & _).
  pose proof (cw_disk _ _ _ (rw_core _ _ _ _ Hwf)) as Hd.
  rewrite Hacts in Hrun. apply runs_split in Hrun as (st1 & R1 & R2).
  destruct (execute_actions_runs _ _ _ _ _ _ b R1 (do_wf _ _ Hd) Hh) as [b1 Hx1].
  rewrite Hx in Hx1. injection Hx1 as ->.
  pose proof (runs_disk_ok _ _ _ _ _ _ R1 Hd) as Hd1.
  split; cbn [executed up stores trace].
  - intros w Hw. destruct (decide (w = v)) as [->|].
    + exists st1, b1. by rewrite lookup_insert_eq.
    + rewrite lookup_insert_ne by done. by apply (co_stores _ Hc).
  - intros w stw. destruct (decide (w = v)) as [->|].
    + intros _. by eapply (co_domain _ Hc).
    + rewrite lookup_insert_ne by done. by apply (co_domain _ Hc).
  - intros w sw Hw. assert (w ≠ v → raft_wf w cfg (granted (trace c ++ ((λ a, (v, a)) <$> done)) w) sw
      ∧ ∃ b, <[v:=store_of st1 b1]> (stores c) !! w = Some (store_of (stable_state sw) b)) as Hother.
    { intros Hne. rewrite lookup_insert_ne by done.
      destruct (co_up _ Hc w sw) as [Hw1 Hw2].
      - destruct left; cbn in Hw; [by rewrite lookup_insert_ne in Hw|by rewrite lookup_delete_ne in Hw].
      - split; [|done]. eapply raft_wf_mono; [|done]. intros. by apply granted_app. }
    destruct (decide (w = v)) as [->|]; [|auto]. clear Hother.
    destruct left; cbn in Hw; [|by rewrite lookup_delete_eq in Hw].
    assert (st1 = stable_state (step i s).1) as -> by (by inversion R2).
    rewrite lookup_insert_eq in Hw. injection Hw as <-.
    split; [|exists b1; by rewrite lookup_insert_eq].
    eapply raft_wf_mono; [|done]. intros. by apply granted_app.
  - eapply (hist_runs _ _ _ (store_of (stable_state s) b)); [done|apply Hc|done|done|done].
Qed.

Lemma cluster_step_ok c c' : cluster_ok c → cluster_step c c' → cluster_ok c'.
Proof.
  intros Hc Hstep. destruct Hstep as [c v s i done left store store'|c v|c v store s Hup Hst Hr].
  - by eapply executed_ok.
  - destruct Hc as [? ? Hup ?]. split; cbn; try done. intros w s Hw.
    rewrite lookup_delete_Some in Hw. apply Hup, Hw.
  - destruct Hc as [Hs Hdom Hu Hh]. split; cbn; try done. intros w sw Hw.
    destruct (decide (w = v)) as [->|]; [|rewrite lookup_insert_ne in Hw by done; auto].
    rewrite lookup_insert_eq in Hw. simplify_eq. pose proof (Hdom _ _ Hst) as Hv.
    destruct (Hs v Hv) as (st & b & Hst' & Hd). simplify_eq. cbn in Hr.
    rewrite recover_ok in Hr; [|by apply bool_decide_eq_true|done]. simplify_eq.
    split; [by apply restarted_wf|]. exists b. by rewrite stable_state_restarted.
Qed.

Lemma reachable_ok c : reachable c → cluster_ok c.
Proof. induction 1; [apply initial_ok|by eapply cluster_step_ok]. Qed.

(** ** Properties *)

(** C1: election safety. In every reachable cluster, with messages lost,
    duplicated and reordered and nodes crashing between any two actions and
    restarting, at most one node ever becomes leader of a term. *)
Theorem election_safety c v w t :
  config_wf cfg → reachable c →
  (v, RoleChanged Leader t) ∈ trace c → (w, RoleChanged Leader t) ∈ trace c → v = w.
Proof.
  intros Hcfg Hr Hv Hw. pose proof (co_hist _ (reachable_ok _ Hr)) as [_ HU HL _].
  destruct (HL _ _ Hv) as (qv & Hqv & Hev), (HL _ _ Hw) as (qw & Hqw & Hew).
  destruct (quorum_meet _ _ _ Hcfg Hqv Hqw) as (n & _ & Hnv & Hnw).
  apply (HU n t v w).
  - destruct (Hev n Hnv) as [->|]; [right|left]; done.
  - destruct (Hew n Hnw) as [->|]; [right|left]; done.
Qed.

(** A voter supports one candidate per term, across crashes and restarts:
    two granted votes sent by the same node in the same term go to the same
    candidate. *)
Theorem one_vote_per_term c v t a a' :
  reachable c →
  (v, Send a (RequestVoteResponse t true)) ∈ trace c →
  (v, Send a' (RequestVoteResponse t true)) ∈ trace c → a = a'.
Proof.
  intros Hr Ha Ha'. apply (ho_unique _ _ (co_hist _ (reachable_ok _ Hr)) v t); by left.
Qed.

(** In every reachable cluster the stable store of a running node holds
    exactly the node's durable state, and the store of every voter, running
    or not, is one from which [Raft::recover] restarts it. *)
Theorem stores_in_sync c v :
  reachable c → v ∈ participants cfg →
  ∃ st b, stores c !! v = Some (store_of st b)
    ∧ (∀ s, up c !! v = Some s → stable_state s = st)
    ∧ ∃ s, recover v cfg st = Ok s ∧ stable_state s = st.
Proof.
  intros Hr Hv. pose proof (reachable_ok _ Hr) as Hc. destruct (co_stores _ Hc v Hv) as (st & b & Hst & Hd).
  exists st, b. split_and!; [done| |].
  - intros s Hs. destruct (co_up _ Hc v s Hs) as (_ & b' & Hb'). by simplify_eq.
  - exists (restarted v cfg st). split; [apply recover_ok; [by apply bool_decide_eq_true|done]|].
    apply stable_state_restarted.
Qed.

(** ** Playing a schedule *)

Inductive Event : Type :=
| Start (v : NodeId)                     (* restart a stopped node *)
| Give (v : NodeId) (i : Input)          (* a local input, fully executed *)
| Relay (from to : NodeId).              (* deliver the latest message of a link *)

Definition latest (tr : Trace) (from to : NodeId) : option Message :=
  foldl (λ acc p, match p with
                  | (v, Send w m) => if (v =? from) && (w =? to) then Some m else acc
                  | _ => acc
                  end) None tr.

Definition handle (c : Cluster) (v : NodeId) (i : Input) : option Cluster :=
  s ← up c !! v;
  store ← stores c !! v;
  if last_index (log s) + 2 <=? u64_max then
    let '(s', acts) := step i s in
    if forallb (λ a, negb (halts a)) acts then
      match Store.execute_actions store acts with
      | Ok store' => Some (executed c v s' acts [] store')
      | Err _ => None
      end
    else None
  else None.

Definition play1 (c : Cluster) (e : Event) : option Cluster :=
  match e with
  | Start v =>
      match up c !! v, stores c !! v with
      | None, Some store =>
          match recover v cfg (st_state store) with
          | Ok s => Some {| up := <[v := s]> (up c); stores := stores c; trace := trace c |}
          | Err _ => None
          end
      | _, _ => None
      end
  | Give v i =>
      match i with
      | InMessage _ _ | InSnapshotBuilt _ => None
      | _ => handle c v i
      end
  | Relay from to => m ← latest (trace c) from to; handle c to (InMessage from m)
  end.

Fixpoint play (c : Cluster) (es : list Event) : option Cluster :=
  match es with
  | [] => Some c
  | e :: es => c ← play1 c e; play c es
  end.

Lemma latest_sent tr from to m : latest tr from to = Some m → (from, Send to m) ∈ tr.
Proof.
  unfold latest. induction tr as [|[v a] l IH] using rev_ind; [done|].
  rewrite foldl_app, elem_of_app, list_elem_of_singleton. cbn.
  destruct a; try (intros Hl; left; by apply IH).
  destruct (_ && _) eqn:He; [|intros Hl; left; by apply IH].
  intros [= ->]. bool_prop. subst. by right.
Qed.

Lemma handle_sound c v i c' :
  deliverable c v i → handle c v i = Some c' → cluster_step c c'.
Proof.
  intros Hd. unfold handle. destruct (up c !! v) as [s|] eqn:Hs; cbn; [|done].
  destruct (stores c !! v) as [store|] eqn:Hst; cbn; [|done].
  destruct (_ <=? _) eqn:Hr; [|done]. destruct (step i s) as [s' acts] eqn:Hstep.
  destruct (forallb _ acts) eqn:Hh; [|done].
  destruct (Store.execute_actions store acts) as [store'|] eqn:Hx; [|done]. intros [= <-].
  replace s' with (step i s).1 by (by rewrite Hstep). econstructor; try done.
  - unfold has_room. by apply Z.leb_le.
  - by rewrite Hstep, app_nil_r.
  - rewrite forallb_forall in Hh. apply Forall_forall. intros a Ha.
    apply negb_true_iff, Hh. by apply list_elem_of_In.
Qed.

Lemma play_sound es c c' : reachable c → play c es = Some c' → reachable c'.
Proof.
  revert c. induction es as [|e es IH]; intros c Hr; cbn; [by intros [= <-]|].
  destruct (play1 c e) as [c1|] eqn:He; cbn; [|done]. apply IH. econstructor; [done|].
  destruct e as [v|v i|from to]; cbn in He.
  - destruct (up c !! v) eqn:Hu; [done|]. destruct (stores c !! v) as [store|] eqn:Hst; [|done].
    destruct (recover v cfg (st_state store)) eqn:Hrec; [|done]. simplify_eq. by econstructor.
  - destruct i; try done; by eapply handle_sound in He.
  - destruct (latest (trace c) from to) as [m|] eqn:Hl; cbn in He; [|done].
    eapply handle_sound in He; [done|]. by apply latest_sent.
Qed.

End Cluster.
