(* ===== verification/RaftExamples.v ===== *)
(** * Raft on concrete inputs

    A three-node cluster with a toy digest and a calm file system: the
    schedule that makes a follower commit entries its leader never sent, and
    the instances at which the theorems of the Raft files apply. *)

From S2P Require Import Prelude RaftTypes RaftLogs RaftNode RaftStore RaftLogic RaftSafety RaftDurability RaftCluster.

#[export] Instance toy_sha : Sha256 := λ b, [zlen b].

#[export] Instance calm_io : StoreIo := {|
  io_publish := λ _, Ok tt;
  io_publish_intent := λ _, Ok tt;
  io_entry_bytes := λ es, Ok (zlen es);
  db_install := λ _, Ok tt;
  db_apply := λ _, Ok tt
|}.

#[export] Instance calm_io_ok : StoreIoOk.
Proof. by split. Defined.

Definition cfg3 : Configuration :=
  {| participants := {[1; 2; 3]}; incoming := {[1; 2; 3]}; outgoing := None |}.

Lemma cfg3_wf : config_wf cfg3.
Proof. split; [by apply (bool_decide_eq_true _); vm_compute|by apply (bool_decide_eq_true _); vm_compute|done]. Defined.

(** ** Schedules *)

Definition elect (v w : NodeId) : list Event :=
  [Give v (InTick Election); Relay v w; Relay w v; Relay v w; Relay w v].

Definition exchange (v w : NodeId) (n : nat) : list Event :=
  concat (replicate n [Relay v w; Relay w v]).

Definition proposals (v : NodeId) (first : Z) (n : nat) : list Event :=
  (λ k, Give v (InPropose (first + Z.of_nat k) [first + Z.of_nat k])) <$> List.seq 0 n.

Definition elected_cluster : list Event :=
  [Start 1; Start 2; Start 3] ++ elect 1 2 ++ exchange 1 2 2 ++ exchange 1 3 2.

(** Node 1 leads term 1 and replicates 71 entries everywhere.  Node 3 wins
    term 2 with the vote of 2 and appends entries 72 and 73 that reach nobody.
    Node 1 wins term 3 with the vote of 2, appends its own 72 and 73 and
    commits them with node 2.  Its heartbeat to node 3 is rejected, and the
    network duplicates that rejection: every copy moves [next_index] of node 3
    back by one, so the next batch of 64 entries ends at or before index 71. *)
Definition stale_suffix_schedule : list Event :=
  elected_cluster
  ++ proposals 1 100 70 ++ exchange 1 2 3 ++ exchange 1 3 3
  ++ elect 3 2 ++ [Give 3 (InPropose 900 [9])]
  ++ [Give 1 (InTick Heartbeat); Relay 1 2; Relay 2 1]
  ++ elect 1 2 ++ [Give 1 (InPropose 800 [8])] ++ exchange 1 2 3
  ++ [Give 1 (InTick Heartbeat); Relay 1 3] ++ replicate 70 (Relay 3 1)
  ++ [Relay 1 3].

Definition plays (es : list Event) (ok : Cluster → bool) : bool :=
  match play cfg3 (initial cfg3) es with Some c => ok c | None => false end.

Lemma plays_reachable es (ok : Cluster → bool) :
  plays es ok = true → ∃ c, reachable cfg3 c ∧ ok c = true.
Proof.
  unfold plays. destruct (play cfg3 (initial cfg3) es) as [c|] eqn:He; [|done].
  intros Hok. exists c. split; [|done]. eapply play_sound; [constructor|done].
Qed.

Definition did (v : NodeId) (a : Action) (c : Cluster) : bool := bool_decide ((v, a) ∈ trace c).

Lemma stale_suffix_outcome :
  plays stale_suffix_schedule (λ c,
    did 1 (Apply (mkLogEntry 73 3 (Command 800 [8]))) c
    && did 3 (Apply (mkLogEntry 73 2 (Command 900 [9]))) c) = true.
Proof. vm_compute. reflexivity. Qed.

(** C28: state-machine safety does not hold of the code: [on_append_entries]
    bounds the follower's commit index by the end of its own log instead of
    the last entry the message matched, so there is a reachable cluster in
    which nodes 1 and 3 have applied different commands at index 73. *)
Theorem follower_commits_stale_suffix :
  ∃ c, reachable cfg3 c
    ∧ (1, Apply (mkLogEntry 73 3 (Command 800 [8]))) ∈ trace c
    ∧ (3, Apply (mkLogEntry 73 2 (Command 900 [9]))) ∈ trace c.
Proof.
  destruct (plays_reachable _ _ stale_suffix_outcome) as (c & Hr & Hok).
  apply andb_true_iff in Hok as [H1 H3]. exists c.
  split_and!; [done|by apply bool_decide_eq_true in H1|by apply bool_decide_eq_true in H3].
Qed.

(** ** Instances of the theorems on quorums and logs *)

Lemma quorum_intersection_witness :
  Config.quorum cfg3 {[1; 2]} = true ∧ Config.quorum cfg3 {[2; 3]} = true
  ∧ ∃ n, n ∈ participants cfg3 ∧ n ∈ ({[1; 2]} : gset NodeId) ∧ n ∈ ({[2; 3]} : gset NodeId).
Proof.
  split_and!; [by vm_compute..|]. apply (quorum_intersection cfg3); [exact cfg3_wf|by vm_compute..].
Defined.

Lemma joint_quorum_overlaps_witness :
  ∃ cold cnew cjoint (v w : gset NodeId), Config.new [1; 2; 3] = Ok cold ∧ Config.new [3; 4; 5] = Ok cnew
    ∧ Config.joint [1; 2; 3] [3; 4; 5] = Ok cjoint
    ∧ ∃ n, n ∈ participants cjoint ∧ n ∈ v ∧ n ∈ w.
Proof.
  do 3 eexists. exists {[2; 3; 4]}, {[4; 5]}. split_and!; [reflexivity..|].
  eapply (joint_quorum_overlaps [1; 2; 3] [3; 4; 5]); [reflexivity..|by vm_compute|].
  right. by vm_compute.
Defined.

Lemma quorum_index_spec_witness :
  Config.quorum cfg3 (filter (λ v, 7 ≤ 4 + v) (participants cfg3)) = true
  ↔ 7 ≤ Config.quorum_index cfg3 (λ v, 4 + v).
Proof. apply (quorum_index_spec cfg3 (λ v, 4 + v) 7); [exact cfg3_wf|lia]. Defined.

Definition sample_log : RaftLog.t :=
  {| RaftLog.base_index := 4; RaftLog.base_term := 1;
     RaftLog.log_entries := [mkLogEntry 5 1 Noop; mkLogEntry 6 2 Noop; mkLogEntry 7 2 Noop] |}.

Lemma sample_log_wf : log_wf sample_log.
Proof. split; cbn; [lia|by vm_compute|lia]. Defined.

Lemma truncate_and_append_spec_witness :
  let l' := RaftLog.truncate_and_append sample_log 6 [mkLogEntry 6 3 Noop] in
  log_wf l' ∧ RaftLog.last_index l' = 6
  ∧ (∀ i, i < 6 → RaftLog.term l' i = RaftLog.term sample_log i)
  ∧ (∀ i, 6 ≤ i → RaftLog.entry l' i = znth [mkLogEntry 6 3 Noop] (i - 6)).
Proof.
  apply (truncate_and_append_spec sample_log 6 [mkLogEntry 6 3 Noop] 1);
    [exact sample_log_wf|split; vm_compute; done|vm_compute; done|vm_compute; done|reflexivity|cbn; lia].
Defined.

Lemma compact_retains_suffix_witness :
  let l' := RaftLog.compact sample_log 6 2 true in
  log_wf l' ∧ RaftLog.base_index l' = 6 ∧ RaftLog.last_index l' = RaftLog.last_index sample_log
  ∧ (∀ i, 6 < i → RaftLog.entry l' i = RaftLog.entry sample_log i)
  ∧ (∀ i, 6 ≤ i → RaftLog.term l' i = RaftLog.term sample_log i).
Proof. apply (compact_retains_suffix sample_log 6 2); [exact sample_log_wf|reflexivity]. Defined.

Lemma first_index_of_term_spec_witness :
  let r := RaftLog.first_index_of_term sample_log 7 2 in
  4 ≤ r ≤ 7 ∧ (∀ i, r ≤ i < 7 → RaftLog.term sample_log i = Some 2)
  ∧ (4 < r → RaftLog.term sample_log (r - 1) ≠ Some 2).
Proof. apply (first_index_of_term_spec sample_log 7 2). cbn. lia. Defined.

Lemma last_index_of_term_spec_witness :
  match RaftLog.last_index_of_term sample_log 1 with
  | Some r => RaftLog.term sample_log r = Some 1 ∧ ∀ i, r < i → RaftLog.term sample_log i ≠ Some 1
  | None => ∀ i, RaftLog.term sample_log i ≠ Some 1
  end.
Proof. apply (last_index_of_term_spec sample_log 1). exact sample_log_wf. Defined.

(** ** Instances of the theorems on one node *)

Abbreviation nobody := (λ (_ : NodeId) (_ : Z), False).

Definition node1 : Raft := restarted 1 cfg3 StableState_default.

Lemma node1_wf : raft_wf 1 cfg3 nobody node1.
Proof. apply restarted_wf, default_disk_ok. Defined.

(** A node that crashed after committing its only entry. *)
Definition disk1 : StableState :=
  {| hard_state := mkHardState 1 None 1; snapshot := None;
     entries := [mkLogEntry 1 1 Noop]; applied_index := 0 |}.

Lemma disk1_ok : disk_ok cfg3 disk1.
Proof.
  split; [split; [split|..]|..]; cbn; try (vm_compute; done); try done; lia.
Defined.

Definition node2 : Raft := restarted 1 cfg3 disk1.

Lemma node2_wf : raft_wf 1 cfg3 nobody node2.
Proof. apply restarted_wf, disk1_ok. Defined.

Lemma node1_room : has_room node1.
Proof. vm_compute. done. Defined.

Lemma node2_room : has_room node2.
Proof. vm_compute. done. Defined.

Definition append_from_2 : Input :=
  InMessage 2 (AppendEntries 1 2 0 0 [mkLogEntry 1 1 Noop] 1 None).
Definition vote_for_2 : Input := InMessage 2 (RequestVote 1 2 0 0).
Definition replace_from_2 : Input :=
  InMessage 2 (AppendEntries 2 2 0 0 [mkLogEntry 1 2 Noop] 0 None).

Lemma append_from_2_ok : input_ok nobody append_from_2.
Proof. vm_compute. done. Defined.

Lemma replace_from_2_ok : input_ok nobody replace_from_2.
Proof. vm_compute. done. Defined.

Lemma step_refines_store_witness :
  let '(s', acts) := step append_from_2 node1 in
  raft_wf 1 cfg3 nobody s' ∧ applied s' = commit_index (hard s')
  ∧ (Forall (λ a, halts a = false) acts →
     ∃ b', Store.execute_actions (store_of (stable_state node1) 0) acts
           = Ok (store_of (stable_state s') b')).
Proof.
  apply (step_refines_store 1 cfg3 nobody node1 append_from_2 0);
    [exact node1_wf|exact node1_room|exact append_from_2_ok].
Defined.

Lemma crash_prefix_recovers_witness :
  let acts := (step append_from_2 node1).2 in
  ∃ st1 b1 s1, Store.execute_actions (store_of (stable_state node1) 0) (take 3 acts)
               = Ok (store_of st1 b1)
    ∧ disk_le (stable_state node1) st1
    ∧ recover 1 cfg3 st1 = Ok s1 ∧ raft_wf 1 cfg3 nobody s1 ∧ stable_state s1 = st1.
Proof.
  apply (crash_prefix_recovers 1 cfg3 nobody node1 append_from_2 _ (drop 3 (step append_from_2 node1).2) 0);
    [reflexivity|exact node1_wf|exact node1_room|exact append_from_2_ok|by rewrite take_drop|].
  vm_compute. repeat constructor.
Defined.

Lemma vote_durable_before_reply_witness :
  ∃ st1 b1, Store.execute_actions (store_of (stable_state node1) 0) (take 3 (step vote_for_2 node1).2)
            = Ok (store_of st1 b1)
    ∧ current_term (hard_state st1) = 1 ∧ voted_for (hard_state st1) = Some 2.
Proof.
  apply (vote_durable_before_reply 1 cfg3 nobody node1 vote_for_2 _ []);
    [exact node1_wf|exact node1_room|exact I|vm_compute; reflexivity|].
  vm_compute. repeat constructor.
Defined.

Lemma append_durable_before_ack_witness :
  ∃ st1 b1, Store.execute_actions (store_of (stable_state node1) 0)
              (take 5 (step append_from_2 node1).2) = Ok (store_of st1 b1)
    ∧ current_term (hard_state st1) = 1 ∧ 1 ≤ Store.last_index st1.
Proof.
  apply (append_durable_before_ack 1 cfg3 nobody node1 append_from_2 _ [] 2 1 1 0 None None);
    [exact node1_wf|exact node1_room|exact append_from_2_ok|vm_compute; reflexivity|].
  vm_compute. repeat constructor.
Defined.

Lemma apply_in_order_witness :
  ∃ st1 b1, Store.execute_actions (store_of (stable_state node2) 0) [] = Ok (store_of st1 b1)
    ∧ 1 = applied_index st1 + 1 ∧ 1 ≤ commit_index (hard_state st1)
    ∧ RaftLog.entry (st_log st1) 1 = Some (mkLogEntry 1 1 Noop).
Proof.
  apply (apply_in_order 1 cfg3 nobody node2 (InTick Heartbeat) [] [] (mkLogEntry 1 1 Noop));
    [exact node2_wf|exact node2_room|exact I|vm_compute; reflexivity|constructor].
Defined.

Lemma fatal_reasons_witness :
  let reason := "leader attempted to replace committed index 1" in
  reason = "term counter exhausted"
  ∨ ∃ idx, reason = "leader attempted to replace committed index " +:+ pretty idx
           ∧ idx ≤ commit_index (hard (step replace_from_2 node2).1).
Proof.
  apply (fatal_reasons 1 cfg3 nobody node2 replace_from_2);
    [exact node2_wf|exact node2_room|exact replace_from_2_ok|].
  apply (bool_decide_eq_true _). vm_compute. reflexivity.
Defined.

Lemma committed_log_stable_witness :
  let s' := (step append_from_2 node2).1 in
  hs_le (hard node2) (hard s') ∧ applied node2 ≤ applied s'
  ∧ (RaftLog.base_index (log s') < 1 ≤ 1 → RaftLog.entry (log s') 1 = RaftLog.entry (log node2) 1).
Proof.
  apply (committed_log_stable 1 cfg3 nobody node2 append_from_2 1);
    [exact node2_wf|exact node2_room|exact append_from_2_ok].
Defined.

(** ** Instances of the theorems on clusters *)

Lemma elected_cluster_outcome :
  plays elected_cluster (λ c, did 1 (RoleChanged Leader 1) c
    && did 2 (Send 1 (RequestVoteResponse 1 true)) c) = true.
Proof. vm_compute. reflexivity. Qed.

Lemma election_safety_witness :
  ∃ c, reachable cfg3 c ∧ (1, RoleChanged Leader 1) ∈ trace c
    ∧ ∀ w, (w, RoleChanged Leader 1) ∈ trace c → 1 = w.
Proof.
  destruct (plays_reachable _ _ elected_cluster_outcome) as (c & Hr & Hok).
  apply andb_true_iff in Hok as [H1%bool_decide_eq_true _]. exists c. split_and!; [done..|].
  intros w. apply (election_safety cfg3 c 1 w 1 cfg3_wf Hr H1).
Defined.

Lemma one_vote_per_term_witness :
  ∃ c, reachable cfg3 c ∧ (2, Send 1 (RequestVoteResponse 1 true)) ∈ trace c
    ∧ ∀ a, (2, Send a (RequestVoteResponse 1 true)) ∈ trace c → 1 = a.
Proof.
  destruct (plays_reachable _ _ elected_cluster_outcome) as (c & Hr & Hok).
  apply andb_true_iff in Hok as [_ H1%bool_decide_eq_true]. exists c. split_and!; [done..|].
  intros a. apply (one_vote_per_term cfg3 c 2 1 1 a Hr H1).
Defined.

Lemma stores_in_sync_witness :
  ∃ c st b, reachable cfg3 c ∧ (1, RoleChanged Leader 1) ∈ trace c
    ∧ stores c !! 2 = Some (store_of st b)
    ∧ (∀ s, up c !! 2 = Some s → stable_state s = st)
    ∧ ∃ s, recover 2 cfg3 st = Ok s ∧ stable_state s = st.
Proof.
  destruct (plays_reachable _ _ elected_cluster_outcome) as (c & Hr & Hok).
  apply andb_true_iff in Hok as [H1%bool_decide_eq_true _].
  destruct (stores_in_sync cfg3 c 2 Hr) as (st & b & Hs); [by apply (bool_decide_eq_true _); vm_compute|].
  exists c, st, b. auto.
Defined.
