(* ===== verification/CoreTypes.v ===== *)
(** * Values, rows and schemas: [crates/aster-core/src/lib.rs]

    A Rust [String] is a [string] whose bytes are valid UTF-8; [from_utf8] is
    the standard library's validation, with the error it reports. *)

From Stdlib Require Import Ascii String.
From S2P Require Import Prelude.

Definition MAX_VALUE_BYTES : Z := 16 * 1024 * 1024.
Definition MAX_ROW_COLUMNS : Z := 4096.

Inductive CoreError : Type :=
| InvalidEncoding (reason : string)
| LimitExceeded (reason : string)
| TypeError (reason : string)
| Constraint (reason : string)
| Conflict (reason : string)
| Unsupported (reason : string)
| NotLeader (hint : option string)
| CoreCorruption (reason : string)
| CoreIo (reason : string)
| Invariant (reason : string).

#[export] Instance CoreError_eq_dec : EqDecision CoreError.
Proof. solve_decision. Defined.

(** The [Display] strings of the error type. *)
Definition CoreError_to_string (e : CoreError) : string :=
  match e with
  | InvalidEncoding r => "invalid encoding: " +:+ r
  | LimitExceeded r => "resource limit exceeded: " +:+ r
  | TypeError r => "type error: " +:+ r
  | Constraint r => "constraint violation: " +:+ r
  | Conflict r => "transaction conflict: " +:+ r
  | Unsupported r => "unsupported operation: " +:+ r
  | NotLeader None => "not the leader"
  | NotLeader (Some h) => "not the leader; leader hint: " +:+ h
  | CoreCorruption r => "corruption detected: " +:+ r
  | CoreIo r => "I/O error: " +:+ r
  | Invariant r => "internal invariant failed: " +:+ r
  end.

(** ** Strings as UTF-8 bytes *)

Definition byte_of_ascii (a : ascii) : Z := Z.of_N (N_of_ascii a).
Definition ascii_of_byte (b : Z) : ascii := ascii_of_N (Z.to_N b).

Definition as_bytes (s : string) : bytes := byte_of_ascii <$> list_ascii_of_string s.
Definition string_of_bytes (l : bytes) : string := string_of_list_ascii (ascii_of_byte <$> l).

Lemma byte_of_ascii_of_byte b : byte_ok b → byte_of_ascii (ascii_of_byte b) = b.
Proof.
  intros Hb. unfold byte_of_ascii, ascii_of_byte. rewrite N_ascii_embedding.
  - rewrite Z2N.id; [done|]. unfold byte_ok in Hb. lia.
  - unfold byte_ok in Hb. lia.
Qed.

Lemma ascii_of_byte_of_ascii a : ascii_of_byte (byte_of_ascii a) = a.
Proof. unfold byte_of_ascii, ascii_of_byte. by rewrite N2Z.id, ascii_N_embedding. Qed.

Lemma byte_of_ascii_ok a : byte_ok (byte_of_ascii a).
Proof.
  unfold byte_ok, byte_of_ascii. pose proof (Ascii.N_ascii_bounded a). lia.
Qed.

Lemma as_bytes_ok s : Forall byte_ok (as_bytes s).
Proof. unfold as_bytes. apply Forall_fmap, Forall_true. apply byte_of_ascii_ok. Qed.

Lemma string_of_as_bytes s : string_of_bytes (as_bytes s) = s.
Proof.
  unfold string_of_bytes, as_bytes. rewrite <- list_fmap_compose.
  rewrite (list_fmap_ext _ id); [|intros; apply ascii_of_byte_of_ascii].
  rewrite list_fmap_id. apply string_of_list_ascii_of_string.
Qed.

Lemma as_bytes_of_string l : Forall byte_ok l → as_bytes (string_of_bytes l) = l.
Proof.
  intros Hl. unfold string_of_bytes, as_bytes. rewrite list_ascii_of_string_of_list_ascii.
  rewrite <- list_fmap_compose. rewrite <- (list_fmap_id l) at 2.
  apply list_fmap_ext. intros i b Hb. cbn. apply byte_of_ascii_of_byte.
  by eapply Forall_lookup_1.
Qed.

Lemma as_bytes_inj s s' : as_bytes s = as_bytes s' → s = s'.
Proof. intros Hs. by rewrite <- (string_of_as_bytes s), Hs, string_of_as_bytes. Qed.

(** One code point: its width, or the number of bytes of the invalid
    sequence ([None] when the input ends inside one). *)
Definition continuation (b : Z) : bool := (128 <=? b) && (b <=? 191).

Definition between (lo hi b : Z) : bool := (lo <=? b) && (b <=? hi).

Definition second_byte_ok (first second : Z) : bool :=
  if first =? 224 then between 160 191 second
  else if first =? 237 then between 128 159 second
  else if first =? 240 then between 144 191 second
  else if first =? 244 then between 128 143 second
  else continuation second.

Definition utf8_width (first : Z) : nat :=
  if first <? 128 then 1
  else if between 194 223 first then 2
  else if between 224 239 first then 3
  else if between 240 244 first then 4
  else 0.

Definition code_point (l : bytes) : result (option Z) nat :=
  match l with
  | [] => Err None
  | first :: rest =>
      match utf8_width first, rest with
      | 1%nat, _ => Ok 1%nat
      | 2%nat, [] | 3%nat, [] | 4%nat, [] => Err None
      | 2%nat, b :: _ => if second_byte_ok first b then Ok 2%nat else Err (Some 1)
      | 3%nat, b :: rest =>
          if negb (second_byte_ok first b) then Err (Some 1)
          else match rest with
               | [] => Err None
               | c :: _ => if continuation c then Ok 3%nat else Err (Some 2)
               end
      | 4%nat, b :: rest =>
          if negb (second_byte_ok first b) then Err (Some 1)
          else match rest with
               | [] => Err None
               | c :: rest =>
                   if negb (continuation c) then Err (Some 2)
                   else match rest with
                        | [] => Err None
                        | d :: _ => if continuation d then Ok 4%nat else Err (Some 3)
                        end
               end
      | _, _ => Err (Some 1)
      end
  end.

(** Position of the first invalid sequence and its length. *)
Fixpoint utf8_scan (fuel : nat) (position : Z) (l : bytes) : option (Z * option Z) :=
  match fuel, l with
  | S fuel, _ :: _ =>
      match code_point l with
      | Ok n => utf8_scan fuel (position + Z.of_nat n) (drop n l)
      | Err error_len => Some (position, error_len)
      end
  | _, _ => None
  end.

Definition utf8_error (l : bytes) : option (Z * option Z) := utf8_scan (length l) 0 l.

Definition utf8_error_to_string (e : Z * option Z) : string :=
  match e.2 with
  | Some n => "invalid utf-8 sequence of " +:+ pretty n +:+ " bytes from index " +:+ pretty e.1
  | None => "incomplete utf-8 byte sequence from index " +:+ pretty e.1
  end.

Definition from_utf8 (l : bytes) : result (Z * option Z) string :=
  match utf8_error l with
  | None => Ok (string_of_bytes l)
  | Some e => Err e
  end.

(** A [string] that a Rust [String] can hold. *)
Definition utf8 (s : string) : Prop := utf8_error (as_bytes s) = None.

#[export] Instance utf8_dec s : Decision (utf8 s).
Proof. unfold utf8. solve_decision. Defined.

Lemma from_utf8_as_bytes s : utf8 s → from_utf8 (as_bytes s) = Ok s.
Proof. intros Hs. unfold from_utf8. by rewrite Hs, string_of_as_bytes. Qed.

Lemma from_utf8_Ok l s : Forall byte_ok l → from_utf8 l = Ok s → utf8 s ∧ as_bytes s = l.
Proof.
  unfold from_utf8. intros Hl. destruct (utf8_error l) eqn:He; [done|]. intros [= <-].
  unfold utf8. by rewrite as_bytes_of_string.
Qed.

Definition ascii_lower (a : ascii) : ascii :=
  let b := byte_of_ascii a in
  if between 65 90 b then ascii_of_byte (b + 32) else a.

Fixpoint to_ascii_lowercase (s : string) : string :=
  match s with
  | EmptyString => EmptyString
  | String a s => String (ascii_lower a) (to_ascii_lowercase s)
  end.

Definition eq_ignore_ascii_case (s s' : string) : bool :=
  bool_decide (to_ascii_lowercase s = to_ascii_lowercase s').

(** ** Values *)

Inductive DataType : Type := Int64 | Bool | Text | Bytes.

Definition DataType_to_string (t : DataType) : string :=
  match t with
  | Int64 => "INT64" | Bool => "BOOL" | Text => "TEXT" | Bytes => "BYTES"
  end.

Inductive Value : Type :=
| VNull
| VInt64 (value : Z)
| VBool (value : bool)
| VText (value : string)
| VBytes (value : bytes).

#[export] Instance DataType_eq_dec : EqDecision DataType.
Proof. solve_decision. Defined.
#[export] Instance Value_eq_dec : EqDecision Value.
Proof. solve_decision. Defined.

(** The values the types of the source admit. *)
Definition value_ok (v : Value) : Prop :=
  match v with
  | VInt64 z => i64_ok z
  | VText s => utf8 s
  | VBytes b => Forall byte_ok b
  | _ => True
  end.

Definition data_type (self : Value) : option DataType :=
  match self with
  | VNull => None
  | VInt64 _ => Some Int64
  | VBool _ => Some Bool
  | VText _ => Some Text
  | VBytes _ => Some Bytes
  end.

Definition is_null (self : Value) : bool :=
  match self with VNull => true | _ => false end.

Definition type_name (self : Value) : string :=
  match self with
  | VNull => "NULL" | VInt64 _ => "INT64" | VBool _ => "BOOL" | VText _ => "TEXT"
  | VBytes _ => "BYTES"
  end.

#[export] Instance compare_bool : Compare bool := λ a b,
  match a, b with
  | false, true => Lt
  | true, false => Gt
  | _, _ => Eq
  end.

Definition checked_cmp (self other : Value) : result CoreError (option comparison) :=
  match self, other with
  | VNull, _ | _, VNull => Ok None
  | VInt64 a, VInt64 b => Ok (Some (cmp a b))
  | VBool a, VBool b => Ok (Some (cmp a b))
  | VText a, VText b => Ok (Some (cmp (as_bytes a) (as_bytes b)))
  | VBytes a, VBytes b => Ok (Some (cmp a b))
  | _, _ => Err (TypeError ("cannot compare " +:+ type_name self +:+ " with "
                            +:+ type_name other))
  end.

(** ** Schemas and rows *)

Record Column : Type := mkColumn {
  c_name : string;
  c_data_type : DataType;
  nullable : bool;
  primary_key : bool
}.

Record Schema : Type := mkSchema { columns : list Column }.

Record Row : Type := mkRow { values : list Value }.

Record ClientRequestId : Type := mkClientRequestId {
  client_id : bytes;
  sequence : Z
}.

#[export] Instance Column_eq_dec : EqDecision Column.
Proof. solve_decision. Defined.
#[export] Instance Schema_eq_dec : EqDecision Schema.
Proof. solve_decision. Defined.
#[export] Instance Row_eq_dec : EqDecision Row.
Proof. solve_decision. Defined.
#[export] Instance ClientRequestId_eq_dec : EqDecision ClientRequestId.
Proof. solve_decision. Defined.

Definition row_ok (r : Row) : Prop := Forall value_ok (values r).

Definition enumerate {A} (l : list A) : list (Z * A) := imap (λ i x, (Z.of_nat i, x)) l.

Fixpoint validate_names (seen rest : list Column) : result CoreError unit :=
  match rest with
  | [] => Ok tt
  | column :: rest =>
      _ ← ensure (negb (bool_decide (c_name column = ""%string)))
            (Constraint "column names cannot be empty");
      _ ← ensure (negb (existsb (λ right, eq_ignore_ascii_case (c_name right) (c_name column)) seen))
            (Constraint ("duplicate column name `" +:+ c_name column +:+ "`"));
      validate_names (seen ++ [column]) rest
  end.

Module SchemaOps.

Definition validate (self : Schema) : result CoreError Z :=
  _ ← ensure (negb (is_empty (columns self)))
        (Constraint "a table must have at least one column");
  _ ← ensure (negb (MAX_ROW_COLUMNS <? zlen (columns self)))
        (LimitExceeded ("schema has " +:+ pretty (zlen (columns self)) +:+ " columns; maximum is "
                        +:+ pretty MAX_ROW_COLUMNS));
  let primary_keys := List.filter (λ p, primary_key p.2) (enumerate (columns self)) in
  match primary_keys with
  | [(primary_index, primary)] =>
      _ ← ensure (negb (nullable primary)) (Constraint "primary key cannot be nullable");
      _ ← validate_names [] (columns self);
      Ok primary_index
  | _ => Err (Constraint "exactly one primary-key column is required")
  end.

Definition validate_value (column : Column) (value : Value) : result CoreError unit :=
  match data_type value with
  | None =>
      ensure (nullable column) (Constraint ("column `" +:+ c_name column +:+ "` is not nullable"))
  | Some actual =>
      ensure (bool_decide (actual = c_data_type column))
        (TypeError ("column `" +:+ c_name column +:+ "` expects "
                    +:+ DataType_to_string (c_data_type column) +:+ ", got " +:+ type_name value))
  end.

Fixpoint validate_values (cols : list Column) (vals : list Value) : result CoreError unit :=
  match cols, vals with
  | column :: cols, value :: vals =>
      _ ← validate_value column value; validate_values cols vals
  | _, _ => Ok tt
  end.

Definition validate_row (self : Schema) (row : Row) : result CoreError unit :=
  _ ← validate self;
  _ ← ensure (zlen (values row) =? zlen (columns self))
        (Constraint ("row has " +:+ pretty (zlen (values row)) +:+ " values for "
                     +:+ pretty (zlen (columns self)) +:+ " columns"));
  validate_values (columns self) (values row).

End SchemaOps.

(** ** What an accepted schema guarantees *)

Lemma validate_names_ok seen rest :
  validate_names seen rest = Ok tt ↔
  Forall (λ c, c_name c ≠ ""%string) rest
  ∧ (∀ a b, a ∈ seen → b ∈ rest → to_ascii_lowercase (c_name a) ≠ to_ascii_lowercase (c_name b))
  ∧ NoDup (to_ascii_lowercase ∘ c_name <$> rest).
Proof.
  revert seen. induction rest as [|c rest IH]; intros seen.
  { cbn. split; [intros _|done]. split_and!; [constructor|set_solver|constructor]. }
  assert (existsb (λ right, eq_ignore_ascii_case (c_name right) (c_name c)) seen = false ↔
          ∀ a, a ∈ seen → to_ascii_lowercase (c_name a) ≠ to_ascii_lowercase (c_name c)) as Hex.
  { rewrite <- not_true_iff_false, existsb_exists. unfold eq_ignore_ascii_case.
    setoid_rewrite bool_decide_eq_true. setoid_rewrite <- list_elem_of_In. naive_solver. }
  rewrite fmap_cons, NoDup_cons, Forall_cons, list_elem_of_fmap. cbn [validate_names].
  case_bool_decide as Hne; cbn [negb ensure mbind result_bind]; [naive_solver|].
  destruct (existsb _ seen) eqn:He; cbn [negb ensure mbind result_bind].
  { split; [done|]. intros (_ & Hab & _).
    assert (true = false) by (apply Hex; intros a Ha; apply Hab; [done|left]). done. }
  pose proof (proj1 Hex eq_refl) as Hs. rewrite IH. split.
  - intros (Hf & Hab & Hnd). split_and!; [done|done| | |done].
    + intros a b Ha [->|Hb]%elem_of_cons; [by apply Hs|]. apply Hab; [set_solver|done].
    + intros (b & Heq & Hb). apply (Hab c b); [set_solver|done..].
  - intros ((_ & Hf) & Hab & Hnin & Hnd).
    split_and!; [done|intros a b [Ha| ->%list_elem_of_singleton]%elem_of_app Hb|done].
    + apply Hab; [done|by right].
    + intros Heq. destruct Hnin. by exists b.
Qed.

Lemma enumerate_filter {A} (P : A → bool) (l : list A) i x :
  (i, x) ∈ List.filter (λ p, P p.2) (enumerate l) ↔ znth l i = Some x ∧ P x = true.
Proof.
  rewrite list_elem_of_In, filter_In, <- list_elem_of_In. cbn. unfold enumerate.
  rewrite elem_of_lookup_imap. rewrite znth_Some. split.
  - intros [(k & y & Heq & Hk) HP]. simplify_eq. rewrite Nat2Z.id. split; [split; [lia|done]|done].
  - intros [[Hi Hx] HP]. split; [|done]. exists (Z.to_nat i), x. split; [f_equal; lia|done].
Qed.

Lemma enumerate_NoDup {A} (l : list A) : NoDup (enumerate l).*1.
Proof.
  unfold enumerate. apply NoDup_alt. intros i j x.
  rewrite !list_lookup_fmap, !list_lookup_imap.
  destruct (l !! i); cbn; [|done]. destruct (l !! j); cbn; [|done].
  intros [= <-] [= Hij]. lia.
Qed.

Lemma list_filter_sublist {A} (P : A → bool) (l : list A) : List.filter P l `sublist_of` l.
Proof. induction l as [|x l IH]; cbn; [constructor|]. destruct (P x); by constructor. Qed.

(** A schema is accepted, with primary-key position [i], exactly when it
    has between 1 and 4096 columns, [i] is the position of its only
    primary-key column, that column is not nullable, and the column names are
    non-empty and pairwise distinct up to ASCII case. *)
Theorem schema_validate_spec s i :
  SchemaOps.validate s = Ok i ↔
  1 ≤ zlen (columns s) ≤ MAX_ROW_COLUMNS
  ∧ (∃ c, znth (columns s) i = Some c ∧ primary_key c = true ∧ nullable c = false)
  ∧ (∀ j c, znth (columns s) j = Some c → primary_key c = true → j = i)
  ∧ Forall (λ c, c_name c ≠ ""%string) (columns s)
  ∧ NoDup (to_ascii_lowercase ∘ c_name <$> columns s).
Proof.
  unfold SchemaOps.validate, ensure. destruct (columns s) as [|c0 cs] eqn:Hcols.
  { split; [done|]. intros ([H _] & _). unfold zlen in H; cbn in H. lia. }
  assert (1 ≤ zlen (c0 :: cs)) as Hlen by (rewrite zlen_cons; pose proof (zlen_nonneg cs); lia).
  rewrite <- Hcols in *. cbn [is_empty negb mbind result_bind].
  replace (is_empty (columns s)) with false by (by rewrite Hcols). clear c0 cs Hcols.
  cbn [negb mbind result_bind].
  pose proof (enumerate_filter primary_key (columns s)) as Hf.
  destruct (Z.ltb_spec MAX_ROW_COLUMNS (zlen (columns s))); cbn [negb mbind result_bind]; [naive_solver lia|].
  destruct (List.filter _ _) as [|[j c] [|[k d] rest]] eqn:Hpk.
  - split; [done|]. intros (_ & (c & Hc & Hp & _) & _). exfalso. apply (not_elem_of_nil (i, c)). by apply Hf.
  - assert (∀ i x, znth (columns s) i = Some x → primary_key x = true → i = j ∧ x = c) as Huniq.
    { intros i' x Hi Hx. assert ((i', x) ∈ [(j, c)]) as Hin by (by apply Hf).
      apply list_elem_of_singleton in Hin. by simplify_eq. }
    destruct (proj1 (Hf j c) ltac:(left)) as [Hj Hp].
    destruct (nullable c) eqn:Hn; cbn [negb mbind result_bind].
    { split; [done|]. intros (_ & (c' & Hc' & Hp' & Hn') & _).
      destruct (Huniq _ _ Hc' Hp') as [-> ->]. congruence. }
    pose proof (validate_names_ok [] (columns s)) as Hvn.
    destruct (validate_names [] (columns s)) as [[]|] eqn:Hv; cbn [mbind result_bind].
    + destruct (proj1 Hvn eq_refl) as (Hne & _ & Hnd). split.
      * intros [= <-]. split_and!; [done|done| | |done|done].
        -- by exists c.
        -- intros j' c' Hc' Hp'. by destruct (Huniq _ _ Hc' Hp').
      * intros (_ & (c' & Hc' & Hp' & _) & _). by destruct (Huniq _ _ Hc' Hp') as [-> _].
    + split; [done|]. intros (_ & _ & _ & Hne & Hnd).
      assert (Err e = Ok tt) by (apply Hvn; split_and!; [done|set_solver|done]). done.
  - split; [done|]. intros (_ & _ & Huniq & _).
    destruct (proj1 (Hf j c) ltac:(left)) as [Hj Hpj].
    destruct (proj1 (Hf k d) ltac:(right; left)) as [Hk Hpk'].
    assert (NoDup ((List.filter (λ p, primary_key p.2) (enumerate (columns s))).*1)) as Hnd.
    { apply (sublist_NoDup _ _ (enumerate_NoDup (columns s))). apply (fmap_sublist fst), list_filter_sublist. }
    rewrite Hpk in Hnd. cbn in Hnd. apply NoDup_cons in Hnd as [Hnin _].
    destruct Hnin. rewrite (Huniq _ _ Hj Hpj), (Huniq _ _ Hk Hpk'). left.
Qed.

Definition fits (c : Column) (v : Value) : Prop :=
  match data_type v with
  | None => nullable c = true
  | Some t => t = c_data_type c
  end.

Lemma validate_values_ok cols vals :
  length vals = length cols →
  SchemaOps.validate_values cols vals = Ok tt ↔ Forall2 fits cols vals.
Proof.
  revert vals. induction cols as [|c cols IH]; intros [|v vals] Hl; try done.
  cbn. rewrite Forall2_cons. rewrite <- IH by (cbn in Hl; lia).
  unfold SchemaOps.validate_value, fits, ensure.
  destruct (data_type v); [case_bool_decide|destruct (nullable c)]; cbn; naive_solver.
Qed.

Lemma validate_row_ok s r :
  SchemaOps.validate_row s r = Ok tt ↔
  is_ok (SchemaOps.validate s) = true ∧ Forall2 fits (columns s) (values r).
Proof.
  unfold SchemaOps.validate_row. destruct (SchemaOps.validate s) as [i|]; cbn; [|naive_solver].
  unfold ensure. destruct (Z.eqb_spec (zlen (values r)) (zlen (columns s))) as [He|He]; cbn.
  - rewrite validate_values_ok by (unfold zlen in He; lia). naive_solver.
  - split; [done|]. intros [_ Hf%Forall2_length]. unfold zlen in He. lia.
Qed.
