(* ===== verification/CoreCodec.v ===== *)
(** * Row and key encodings: module [codec] of [crates/aster-core/src/lib.rs]

    An encoder that pushes into [output] returns the bytes it pushes; the
    decoder's [Cursor] is explicit. *)

From S2P Require Import Prelude CoreTypes.

Module Codec.

Definition TAG_NULL : Z := 0.
Definition TAG_INT64 : Z := 1.
Definition TAG_BOOL_FALSE : Z := 2.
Definition TAG_BOOL_TRUE : Z := 3.
Definition TAG_TEXT : Z := 4.
Definition TAG_BYTES : Z := 5.

(** [i64::to_le_bytes] and [i64::from_le_bytes]: two's complement. *)
Definition i64_to_u64 (z : Z) : Z := z mod (u64_max + 1).
Definition i64_of_u64 (z : Z) : Z := if z <=? i64_max then z else z - (u64_max + 1).

Definition encode_bytes (value : bytes) : result CoreError bytes :=
  _ ← ensure (negb (MAX_VALUE_BYTES <? zlen value))
        (LimitExceeded ("value contains " +:+ pretty (zlen value) +:+ " bytes; maximum is "
                        +:+ pretty MAX_VALUE_BYTES));
  byte_count ← ok_or (u32_try_from (zlen value))
                 (LimitExceeded "value length does not fit encoding");
  Ok (to_le_bytes 4 byte_count ++ value).

Definition encode_value (value : Value) : result CoreError bytes :=
  match value with
  | VNull => Ok [TAG_NULL]
  | VInt64 value => Ok (TAG_INT64 :: to_le_bytes 8 (i64_to_u64 value))
  | VBool false => Ok [TAG_BOOL_FALSE]
  | VBool true => Ok [TAG_BOOL_TRUE]
  | VText value => b ← encode_bytes (as_bytes value); Ok (TAG_TEXT :: b)
  | VBytes value => b ← encode_bytes value; Ok (TAG_BYTES :: b)
  end.

Definition encode_row (row : Row) : result CoreError bytes :=
  _ ← ensure (negb (MAX_ROW_COLUMNS <? zlen (values row))) (LimitExceeded "too many row values");
  value_count ← ok_or (u32_try_from (zlen (values row)))
                  (LimitExceeded "row value count does not fit encoding");
  encoded ← mapM_result encode_value (values row);
  Ok (to_le_bytes 4 value_count ++ concat encoded).

(** ** Decoding *)

Record Cursor : Type := mkCursor { input : bytes; offset : Z }.

Definition cursor_new (input : bytes) : Cursor := {| input := input; offset := 0 |}.

Definition take_bytes (self : Cursor) (count : Z) : result CoreError (bytes * Cursor) :=
  end_ ← ok_or (checked_add (offset self) count) (InvalidEncoding "offset overflow");
  _ ← ensure (negb (zlen (input self) <? end_)) (InvalidEncoding "truncated input");
  Ok (ztake (end_ - offset self) (zdrop (offset self) (input self)),
      {| input := input self; offset := end_ |}).

Definition byte (self : Cursor) : result CoreError (Z * Cursor) :=
  '(b, self) ← take_bytes self 1;
  Ok (default 0 (head b), self).

Definition u32 (self : Cursor) : result CoreError (Z * Cursor) :=
  '(b, self) ← take_bytes self 4;
  Ok (from_le_bytes b, self).

Definition i64 (self : Cursor) : result CoreError (Z * Cursor) :=
  '(b, self) ← take_bytes self 8;
  Ok (i64_of_u64 (from_le_bytes b), self).

Definition cursor_bytes (self : Cursor) : result CoreError (bytes * Cursor) :=
  '(count, self) ← u32 self;
  _ ← ensure (negb (MAX_VALUE_BYTES <? count))
        (LimitExceeded ("encoded value has " +:+ pretty count +:+ " bytes"));
  take_bytes self count.

Definition finish (self : Cursor) : result CoreError unit :=
  ensure (offset self =? zlen (input self))
    (InvalidEncoding (pretty (zlen (input self) - offset self) +:+ " trailing bytes")).

Definition decode_value (cursor : Cursor) : result CoreError (Value * Cursor) :=
  '(tag, cursor) ← byte cursor;
  if tag =? TAG_NULL then Ok (VNull, cursor)
  else if tag =? TAG_INT64 then '(z, cursor) ← i64 cursor; Ok (VInt64 z, cursor)
  else if tag =? TAG_BOOL_FALSE then Ok (VBool false, cursor)
  else if tag =? TAG_BOOL_TRUE then Ok (VBool true, cursor)
  else if tag =? TAG_TEXT then
    '(b, cursor) ← cursor_bytes cursor;
    s ← map_err (λ e, InvalidEncoding (utf8_error_to_string e)) (from_utf8 b);
    Ok (VText s, cursor)
  else if tag =? TAG_BYTES then
    '(b, cursor) ← cursor_bytes cursor; Ok (VBytes b, cursor)
  else Err (InvalidEncoding ("unknown value tag " +:+ pretty tag)).

Fixpoint decode_values (count : nat) (cursor : Cursor) : result CoreError (list Value * Cursor) :=
  match count with
  | O => Ok ([], cursor)
  | S count =>
      '(v, cursor) ← decode_value cursor;
      '(vs, cursor) ← decode_values count cursor;
      Ok (v :: vs, cursor)
  end.

Definition decode_row (input : bytes) : result CoreError Row :=
  '(count, cursor) ← u32 (cursor_new input);
  _ ← ensure (negb (MAX_ROW_COLUMNS <? count))
        (LimitExceeded ("encoded row contains " +:+ pretty count +:+ " values"));
  '(vs, cursor) ← decode_values (Z.to_nat count) cursor;
  _ ← finish cursor;
  Ok {| values := vs |}.

(** ** Order-preserving keys *)

Fixpoint encode_memcomparable (value : bytes) : bytes :=
  match value with
  | [] => [0; 0]
  | b :: value => (if b =? 0 then [0; 255] else [b]) ++ encode_memcomparable value
  end.

Definition encode_ordered (value : Value) : bytes :=
  match value with
  | VNull => [TAG_NULL]
  | VInt64 value =>
      let sortable := Z.lxor (i64_to_u64 value) (Z.shiftl 1 63) in
      TAG_INT64 :: to_be_bytes 8 sortable
  | VBool false => [TAG_BOOL_FALSE]
  | VBool true => [TAG_BOOL_TRUE]
  | VText value => TAG_TEXT :: encode_memcomparable (as_bytes value)
  | VBytes value => TAG_BYTES :: encode_memcomparable value
  end.

(** [!commit_timestamp] on 64 bits. *)
Definition u64_not (z : Z) : Z := u64_max - z.

Definition encode_mvcc_key (table_id : Z) (pk : Value) (commit_timestamp : Z)
    : result CoreError bytes :=
  Ok (to_be_bytes 8 table_id ++ encode_ordered pk ++ to_be_bytes 8 (u64_not commit_timestamp)).

Definition value_matches_type (value : Value) (expected : DataType) (nullable : bool) : bool :=
  (is_null value && nullable) || bool_decide (data_type value = Some expected).

End Codec.
Import Codec.

Example row_round_trip_example :
  (b ← encode_row (mkRow [VNull; VInt64 (-9223372036854775808); VBool true; VText "a"; VBytes [0; 255]]);
   decode_row b)
  = Ok (mkRow [VNull; VInt64 (-9223372036854775808); VBool true; VText "a"; VBytes [0; 255]]).
Proof. vm_compute. reflexivity. Qed.

(** ** What a parser consumes *)

Definition remaining (c : Cursor) : bytes := zdrop (offset c) (input c).

Record cursor_ok (c : Cursor) : Prop := {
  ck_offset : 0 ≤ offset c ≤ zlen (input c);
  ck_len : zlen (input c) ≤ u64_max;
  ck_bytes : Forall byte_ok (input c)
}.

(** [c'] is [c] after the bytes [b]. *)
Definition after (c : Cursor) (b : bytes) (c' : Cursor) : Prop :=
  input c' = input c ∧ offset c' = offset c + zlen b ∧ remaining c = b ++ remaining c'.

Lemma zdrop_zdrop {A} (l : list A) n k : 0 ≤ n → 0 ≤ k → zdrop k (zdrop n l) = zdrop (n + k) l.
Proof. intros. unfold zdrop. rewrite drop_drop, Z2Nat.inj_add by lia. done. Qed.

Lemma ztake_zdrop {A} (l : list A) n : ztake n l ++ zdrop n l = l.
Proof. apply take_drop. Qed.

Lemma ztake_app {A} (l k : list A) : ztake (zlen l) (l ++ k) = l.
Proof. unfold ztake, zlen. rewrite Nat2Z.id. by rewrite take_app_length. Qed.

Lemma zdrop_app {A} (l k : list A) : zdrop (zlen l) (l ++ k) = k.
Proof. unfold zdrop, zlen. rewrite Nat2Z.id. by rewrite drop_app_length. Qed.

Lemma remaining_len c : cursor_ok c → zlen (remaining c) = zlen (input c) - offset c.
Proof. intros [Ho _ _]. unfold remaining. rewrite zlen_zdrop by lia. lia. Qed.

Lemma remaining_bytes c : cursor_ok c → Forall byte_ok (remaining c).
Proof. intros [_ _ Hb]. unfold remaining, zdrop. by apply Forall_drop. Qed.

Lemma after_ok c b c' : cursor_ok c → after c b c' → cursor_ok c' ∧ Forall byte_ok b.
Proof.
  intros Hc (Hi & Ho & Hr). pose proof (remaining_len c Hc) as Hl. pose proof (remaining_bytes c Hc) as Hb.
  rewrite Hr in Hl, Hb. rewrite zlen_app in Hl. pose proof (zlen_nonneg b). pose proof (zlen_nonneg (remaining c')).
  apply Forall_app in Hb as [Hb _]. split; [|done]. destruct Hc. split; rewrite ?Hi; try done. lia.
Qed.

Lemma after_app c a c1 b c2 : after c a c1 → after c1 b c2 → after c (a ++ b) c2.
Proof.
  intros (H1 & H2 & H3) (H4 & H5 & H6). unfold after. rewrite zlen_app, H4, H5, H3, H6.
  rewrite app_assoc. split_and!; [done|lia|done].
Qed.

(** The cursor reached by reading a known prefix. *)
Lemma after_intro c b rest :
  cursor_ok c → remaining c = b ++ rest →
  ∃ c', after c b c' ∧ remaining c' = rest.
Proof.
  intros Hc Hr. exists {| input := input c; offset := offset c + zlen b |}.
  assert (zdrop (offset c + zlen b) (input c) = rest) as Hd.
  { rewrite <- zdrop_zdrop by (apply Hc || apply zlen_nonneg). fold (remaining c). rewrite Hr. apply zdrop_app. }
  split; [|done]. split_and!; [done|done|]. rewrite Hr. f_equal. symmetry. exact Hd.
Qed.

Lemma after_split c a b c2 :
  cursor_ok c → after c (a ++ b) c2 → ∃ c1, after c a c1 ∧ after c1 b c2.
Proof.
  intros Hc (H1 & H2 & H3). rewrite <- app_assoc in H3.
  destruct (after_intro c a _ Hc H3) as (c1 & Ha & Hr). exists c1. split; [done|].
  destruct Ha as (Hi & Ho & _). split_and!; [congruence| |done]. rewrite H2, zlen_app. lia.
Qed.

Lemma take_bytes_iff c n b c' :
  cursor_ok c → 0 ≤ n → take_bytes c n = Ok (b, c') ↔ zlen b = n ∧ after c b c'.
Proof.
  intros Hc Hn. pose proof (remaining_len c Hc) as Hl. destruct Hc as [Ho Hu Hb].
  unfold take_bytes, checked_add. split.
  - destruct (Z.leb_spec (offset c + n) u64_max); cbn; [|done].
    destruct (Z.ltb_spec (zlen (input c)) (offset c + n)); cbn; [done|]. intros [= <- <-].
    replace (offset c + n - offset c) with n by lia. fold (remaining c).
    assert (zlen (ztake n (remaining c)) = n) as Hz by (rewrite zlen_ztake by lia; lia).
    split; [done|]. split_and!; [done|cbn; lia|].
    unfold remaining at 3; cbn. rewrite <- zdrop_zdrop by lia. symmetry. apply ztake_zdrop.
  - intros [<- (Hi & Hof & Hr)]. rewrite Hr, zlen_app in Hl. pose proof (zlen_nonneg (remaining c')).
    destruct (Z.leb_spec (offset c + zlen b) u64_max); cbn; [|lia].
    destruct (Z.ltb_spec (zlen (input c)) (offset c + zlen b)); cbn; [lia|].
    replace (offset c + zlen b - offset c) with (zlen b) by lia. fold (remaining c).
    rewrite Hr, ztake_app. destruct c'; cbn in *. by subst.
Qed.

Lemma byte_iff c t c' : cursor_ok c → byte c = Ok (t, c') ↔ after c [t] c'.
Proof.
  intros Hc. unfold byte. rewrite result_bind_Ok. split.
  - intros ([b c1] & Hb & Heq). apply take_bytes_iff in Hb as [Hl Ha]; [|done|lia].
    destruct b as [|x [|y b]]; [done| |rewrite !zlen_cons in Hl; pose proof (zlen_nonneg b); lia].
    by simplify_eq/=.
  - intros Ha. exists ([t], c'). split; [|done]. by apply take_bytes_iff.
Qed.

Lemma u32_iff c n c' :
  cursor_ok c → u32 c = Ok (n, c') ↔ 0 ≤ n ≤ u32_max ∧ after c (to_le_bytes 4 n) c'.
Proof.
  intros Hc. unfold u32. rewrite result_bind_Ok. split.
  - intros ([b c1] & Hb & Heq). apply take_bytes_iff in Hb as [Hl Ha]; [|done|lia].
    injection Heq as <- <-.
    destruct (after_ok _ _ _ Hc Ha) as [_ Hbs]. pose proof (from_le_bytes_bound b Hbs) as Hbd.
    rewrite Hl in Hbd. split; [unfold u32_max; change (256 ^ 4) with 4294967296 in Hbd; lia|].
    replace 4%nat with (length b) by (unfold zlen in Hl; lia). by rewrite to_from_le_bytes.
  - intros [Hn Ha]. exists (to_le_bytes 4 n, c'). split.
    + apply take_bytes_iff; [done|lia|]. split; [unfold zlen; by rewrite length_to_le_bytes|done].
    + do 2 f_equal. rewrite from_to_le_bytes. apply Z.mod_small. unfold u32_max in Hn.
      change (256 ^ Z.of_nat 4) with 4294967296. lia.
Qed.

Lemma i64_u64 z : i64_ok z → i64_of_u64 (i64_to_u64 z) = z ∧ 0 ≤ i64_to_u64 z ≤ u64_max.
Proof.
  unfold i64_ok, i64_of_u64, i64_to_u64, i64_min, i64_max, u64_max. intros Hz.
  destruct (Z.leb_spec 0 z).
  - rewrite Z.mod_small by lia. destruct (Z.leb_spec z 9223372036854775807); lia.
  - replace (z mod (18446744073709551615 + 1)) with (z + 18446744073709551616).
    + destruct (Z.leb_spec (z + 18446744073709551616) 9223372036854775807); lia.
    + apply (Z.mod_unique _ _ (-1)); lia.
Qed.

Lemma u64_i64 u : 0 ≤ u ≤ u64_max → i64_to_u64 (i64_of_u64 u) = u ∧ i64_ok (i64_of_u64 u).
Proof.
  unfold i64_ok, i64_of_u64, i64_to_u64, i64_min, i64_max, u64_max. intros Hu.
  destruct (Z.leb_spec u 9223372036854775807).
  - rewrite Z.mod_small by lia. lia.
  - split; [|lia]. symmetry. apply (Z.mod_unique _ _ (-1)); lia.
Qed.

Lemma i64_iff c z c' :
  cursor_ok c → i64 c = Ok (z, c') ↔ i64_ok z ∧ after c (to_le_bytes 8 (i64_to_u64 z)) c'.
Proof.
  intros Hc. unfold i64. rewrite result_bind_Ok. split.
  - intros ([b c1] & Hb & Heq). apply take_bytes_iff in Hb as [Hl Ha]; [|done|lia].
    injection Heq as <- <-.
    destruct (after_ok _ _ _ Hc Ha) as [_ Hbs]. pose proof (from_le_bytes_bound b Hbs) as Hbd.
    rewrite Hl in Hbd. destruct (u64_i64 (from_le_bytes b)) as [-> ?].
    { unfold u64_max. change (256 ^ 8) with 18446744073709551616 in Hbd. lia. }
    split; [done|]. replace 8%nat with (length b) by (unfold zlen in Hl; lia). by rewrite to_from_le_bytes.
  - intros [Hz Ha]. destruct (i64_u64 z Hz) as [Hi Hu].
    exists (to_le_bytes 8 (i64_to_u64 z), c'). split.
    + apply take_bytes_iff; [done|lia|]. split; [unfold zlen; by rewrite length_to_le_bytes|done].
    + do 2 f_equal. rewrite from_to_le_bytes, Z.mod_small; [done|].
      change (256 ^ Z.of_nat 8) with 18446744073709551616. unfold u64_max in Hu. lia.
Qed.

Lemma encode_bytes_Ok l b :
  encode_bytes l = Ok b ↔ zlen l ≤ MAX_VALUE_BYTES ∧ b = to_le_bytes 4 (zlen l) ++ l.
Proof.
  unfold encode_bytes, ensure, u32_try_from. pose proof (zlen_nonneg l).
  destruct (Z.ltb_spec MAX_VALUE_BYTES (zlen l)); cbn; [naive_solver lia|].
  destruct (Z.leb_spec (zlen l) u32_max); cbn; [naive_solver|].
  unfold MAX_VALUE_BYTES, u32_max in *. lia.
Qed.

Lemma cursor_bytes_iff c l c' :
  cursor_ok c → cursor_bytes c = Ok (l, c') ↔ ∃ b, encode_bytes l = Ok b ∧ after c b c'.
Proof.
  intros Hc. unfold cursor_bytes. rewrite result_bind_Ok. split.
  - intros ([n c1] & Hn & Hx). apply u32_iff in Hn as [Hn Ha]; [|done].
    destruct (after_ok _ _ _ Hc Ha) as [Hc1 _]. apply result_bind_Ok in Hx as (u & Hlim%ensure_Ok & Ht).
    bool_prop. apply take_bytes_iff in Ht as [<- Hb]; [|done|lia].
    eexists. rewrite encode_bytes_Ok. split; [done|]. by eapply after_app.
  - intros (b & (Hlim & ->)%encode_bytes_Ok & Ha). pose proof (zlen_nonneg l).
    destruct (after_split _ _ _ _ Hc Ha) as (c1 & Ha1 & Ha2). destruct (after_ok _ _ _ Hc Ha1) as [Hc1 _].
    exists (zlen l, c1). rewrite u32_iff by done. split; [unfold MAX_VALUE_BYTES, u32_max in *; split; [lia|done]|].
    unfold ensure. destruct (Z.ltb_spec MAX_VALUE_BYTES (zlen l)); cbn; [lia|].
    apply take_bytes_iff; done || lia.
Qed.

(** ** Decoding is the inverse of encoding *)

Lemma after_cons c t b c' :
  cursor_ok c → after c (t :: b) c' ↔ ∃ c1, after c [t] c1 ∧ after c1 b c'.
Proof.
  intros Hc. split; [intros Ha; by apply (after_split c [t] b)|].
  intros (c1 & H1 & H2). by apply (after_app c [t] c1).
Qed.

Lemma encode_value_tag v b :
  encode_value v = Ok b →
  ∃ body, b = match v with
              | VNull => TAG_NULL | VInt64 _ => TAG_INT64 | VBool false => TAG_BOOL_FALSE
              | VBool true => TAG_BOOL_TRUE | VText _ => TAG_TEXT | VBytes _ => TAG_BYTES
              end :: body
    ∧ match v with
      | VInt64 z => body = to_le_bytes 8 (i64_to_u64 z)
      | VText s => encode_bytes (as_bytes s) = Ok body
      | VBytes l => encode_bytes l = Ok body
      | _ => body = []
      end.
Proof.
  destruct v as [|z|[]|s|l]; cbn [encode_value]; try (intros [= <-]; eauto).
  - intros (body & Hb & [= <-])%result_bind_Ok. eauto.
  - intros (body & Hb & [= <-])%result_bind_Ok. eauto.
Qed.

Lemma decode_value_complete c v b c' :
  cursor_ok c → value_ok v → encode_value v = Ok b → after c b c' → decode_value c = Ok (v, c').
Proof.
  intros Hc Hv Hb Ha. destruct (encode_value_tag v b Hb) as (body & -> & Hbody).
  apply after_cons in Ha as (c1 & Ha1 & Ha2); [|done]. destruct (after_ok _ _ _ Hc Ha1) as [Hc1 _].
  unfold decode_value. rewrite (proj2 (byte_iff c _ c1 Hc) Ha1). cbn [mbind result_bind].
  assert (∀ c', after c1 [] c' → c' = c1) as Hnil.
  { intros c2 (Hi & Ho & _). destruct c1, c2; cbn in *. subst. f_equal. unfold zlen; cbn. lia. }
  destruct v as [|z|[]|s|l]; cbn [Z.eqb TAG_NULL TAG_INT64 TAG_BOOL_FALSE TAG_BOOL_TRUE TAG_TEXT TAG_BYTES].
  - subst body. by rewrite (Hnil _ Ha2).
  - subst body. cbn. rewrite (proj2 (i64_iff c1 z c' Hc1)); [done|]. by split.
  - subst body. by rewrite (Hnil _ Ha2).
  - subst body. by rewrite (Hnil _ Ha2).
  - cbn. rewrite (proj2 (cursor_bytes_iff c1 (as_bytes s) c' Hc1)) by eauto. cbn.
    by rewrite from_utf8_as_bytes.
  - cbn. by rewrite (proj2 (cursor_bytes_iff c1 l c' Hc1)) by eauto.
Qed.

Lemma decode_value_sound c v c' :
  cursor_ok c → decode_value c = Ok (v, c') →
  value_ok v ∧ ∃ b, encode_value v = Ok b ∧ after c b c'.
Proof.
  intros Hc. unfold decode_value. intros ([t c1] & Ht & Hx)%result_bind_Ok.
  apply byte_iff in Ht; [|done]. destruct (after_ok _ _ _ Hc Ht) as [Hc1 _].
  assert (∀ l b, encode_bytes l = Ok b → after c1 b c' → after c (t :: b) c') as Hcons.
  { intros l b _ Ha. apply after_cons; [done|]. eauto. }
  destruct (Z.eqb_spec t TAG_NULL) as [->|_]; [simplify_eq; split; [done|]; by exists [TAG_NULL]|].
  destruct (Z.eqb_spec t TAG_INT64) as [->|_].
  { apply result_bind_Ok in Hx as ([z c2] & Hz & Heq). injection Heq as <- <-.
    apply i64_iff in Hz as [Hz Ha]; [|done]. split; [done|]. eexists. split; [done|].
    apply after_cons; [done|]. eauto. }
  destruct (Z.eqb_spec t TAG_BOOL_FALSE) as [->|_]; [simplify_eq; split; [done|]; by exists [TAG_BOOL_FALSE]|].
  destruct (Z.eqb_spec t TAG_BOOL_TRUE) as [->|_]; [simplify_eq; split; [done|]; by exists [TAG_BOOL_TRUE]|].
  destruct (Z.eqb_spec t TAG_TEXT) as [->|_].
  { apply result_bind_Ok in Hx as ([l c2] & Hl & Hx). apply cursor_bytes_iff in Hl as (b & Hb & Ha); [|done].
    apply result_bind_Ok in Hx as (s & Hs & Heq). injection Heq as <- <-.
    destruct (from_utf8 l) as [s'|] eqn:Hu; cbn in Hs; [|done]. injection Hs as ->.
    destruct (after_ok _ _ _ Hc1 Ha) as [_ Hbs]. pose proof Hb as (_ & ->)%encode_bytes_Ok.
    apply Forall_app in Hbs as [_ Hbs]. apply from_utf8_Ok in Hu as [Hutf Hl]; [|done].
    split; [done|]. exists (TAG_TEXT :: to_le_bytes 4 (zlen l) ++ l). cbn [encode_value].
    rewrite Hl, Hb. split; [done|]. by eapply Hcons. }
  destruct (Z.eqb_spec t TAG_BYTES) as [->|_]; [|done].
  apply result_bind_Ok in Hx as ([l c2] & Hl & Heq). injection Heq as <- <-.
  apply cursor_bytes_iff in Hl as (b & Hb & Ha); [|done].
  destruct (after_ok _ _ _ Hc1 Ha) as [_ Hbs]. pose proof Hb as (_ & Hbe)%encode_bytes_Ok.
  rewrite Hbe in Hbs. apply Forall_app in Hbs as [_ Hbs].
  split; [done|]. exists (TAG_BYTES :: b). cbn [encode_value]. rewrite Hb. split; [done|]. by eapply Hcons.
Qed.

Lemma decode_values_complete vs bs c c' :
  cursor_ok c → Forall value_ok vs → mapM_result encode_value vs = Ok bs →
  after c (concat bs) c' → decode_values (length vs) c = Ok (vs, c').
Proof.
  revert bs c. induction vs as [|v vs IH]; intros bs c Hc Hok Hm Ha; cbn in Hm.
  - simplify_eq. destruct Ha as (Hi & Ho & _). cbn. destruct c, c'; cbn in *. subst.
    unfold zlen; cbn. by rewrite Z.add_0_r.
  - apply result_bind_Ok in Hm as (b & Hb & Hm). apply result_bind_Ok in Hm as (bs' & Hbs & Hm).
    injection Hm as <-. inversion Hok; subst. cbn [concat] in Ha.
    destruct (after_split _ _ _ _ Hc Ha) as (c1 & Ha1 & Ha2). destruct (after_ok _ _ _ Hc Ha1) as [Hc1 _].
    cbn [length decode_values]. rewrite (decode_value_complete c v b c1) by done. cbn.
    by rewrite (IH bs' c1).
Qed.

Lemma decode_values_sound n c vs c' :
  cursor_ok c → decode_values n c = Ok (vs, c') →
  length vs = n ∧ Forall value_ok vs ∧ ∃ bs, mapM_result encode_value vs = Ok bs ∧ after c (concat bs) c'.
Proof.
  revert c vs. induction n as [|n IH]; intros c vs Hc; cbn [decode_values].
  - intros [= <- <-]. split_and!; [done|done|]. exists []. split; [done|]. split_and!; [done|cbn; unfold zlen; cbn; lia|done].
  - intros ([v c1] & Hv & ([vs' c2] & Hvs & Heq)%result_bind_Ok)%result_bind_Ok. injection Heq as <- <-.
    apply decode_value_sound in Hv as (Hok & b & Hb & Ha); [|done]. destruct (after_ok _ _ _ Hc Ha) as [Hc1 _].
    apply IH in Hvs as (Hl & Hoks & bs & Hbs & Ha'); [|done].
    split_and!; [cbn; lia|by constructor|]. exists (b :: bs). cbn [mapM_result]. rewrite Hb. cbn [mbind result_bind].
    rewrite Hbs. split; [done|]. by eapply after_app.
Qed.

Lemma cursor_new_ok l : Forall byte_ok l → zlen l ≤ u64_max → cursor_ok (cursor_new l).
Proof. intros. pose proof (zlen_nonneg l). split; cbn; [lia|done|done]. Qed.

Lemma after_all l b c' :
  after (cursor_new l) b c' → finish c' = Ok tt ↔ b = l.
Proof.
  intros (Hi & Ho & Hr). unfold finish. rewrite ensure_Ok, Z.eqb_eq. cbn in *. rewrite Ho, Hi.
  unfold remaining in Hr; cbn in Hr. rewrite Hi, Ho in Hr. change (zdrop 0 l) with l in Hr. split.
  - intros Hl. rewrite Hl in Hr. unfold zdrop in Hr. rewrite drop_ge in Hr by (unfold zlen; lia).
    by rewrite app_nil_r in Hr.
  - by intros ->.
Qed.

Lemma row_codec_iff l row :
  Forall byte_ok l → zlen l ≤ u64_max →
  decode_row l = Ok row ↔ row_ok row ∧ encode_row row = Ok l.
Proof.
  intros Hl Hu. pose proof (cursor_new_ok l Hl Hu) as Hc. unfold decode_row, encode_row, row_ok. split.
  - intros ([n c1] & Hn & Hx)%result_bind_Ok. apply u32_iff in Hn as [Hn Ha]; [|done].
    destruct (after_ok _ _ _ Hc Ha) as [Hc1 _].
    apply result_bind_Ok in Hx as (u & Hlim%ensure_Ok & Hx). bool_prop.
    apply result_bind_Ok in Hx as ([vs c2] & Hvs & Hx).
    apply result_bind_Ok in Hx as ([] & Hfin & Heq). injection Heq as <-. cbn [values].
    apply decode_values_sound in Hvs as (Hlen & Hok & bs & Hbs & Ha'); [|done].
    assert (zlen vs = n) as Hzn by (unfold zlen; lia). split; [done|].
    unfold ensure. destruct (Z.ltb_spec MAX_ROW_COLUMNS (zlen vs)); [lia|]. cbn [negb mbind result_bind].
    unfold u32_try_from. destruct (Z.leb_spec (zlen vs) u32_max); [|lia]. cbn [ok_or mbind result_bind].
    rewrite Hbs. cbn [mbind result_bind]. f_equal. rewrite Hzn.
    apply (after_all l _ c2); [by eapply after_app|done].
  - intros [Hok Henc]. apply result_bind_Ok in Henc as (u & Hlim%ensure_Ok & Hx). bool_prop.
    apply result_bind_Ok in Hx as (n & Hn%ok_or_Ok & Hx). apply result_bind_Ok in Hx as (bs & Hbs & Heq).
    apply Ok_inj in Heq. unfold u32_try_from in Hn.
    destruct (Z.leb_spec (zlen (values row)) u32_max); [|done]. injection Hn as <-.
    destruct (after_intro (cursor_new l) l [] Hc) as (c' & Ha & _).
    { unfold remaining; cbn. change (zdrop 0 l) with l. by rewrite app_nil_r. }
    pose proof (proj2 (after_all l l c' Ha) eq_refl) as Hfin. rewrite <- Heq in Ha at 2.
    destruct (after_split _ _ _ _ Hc Ha) as (c1 & Ha1 & Ha2). destruct (after_ok _ _ _ Hc Ha1) as [Hc1 _].
    pose proof (zlen_nonneg (values row)).
    rewrite (proj2 (u32_iff (cursor_new l) (zlen (values row)) c1 Hc)) by (split; [lia|done]).
    cbn [mbind result_bind]. unfold ensure.
    destruct (Z.ltb_spec MAX_ROW_COLUMNS (zlen (values row))); [lia|]. cbn [negb mbind result_bind].
    replace (Z.to_nat (zlen (values row))) with (length (values row)) by (unfold zlen; lia).
    rewrite (decode_values_complete (values row) bs c1 c') by done. cbn [mbind result_bind].
    rewrite Hfin. cbn. by destruct row.
Qed.

(** ** Self-delimiting encoders

    What follows an encoding cannot change what it decodes to. *)

Definition delim {E A} (ok : A → Prop) (f : A → result E bytes) : Prop :=
  ∀ a b x y r r', ok a → ok b → f a = Ok x → f b = Ok y → x ++ r = y ++ r' → a = b ∧ r = r'.

Lemma delim_inj {E A} (ok : A → Prop) (f : A → result E bytes) a b x :
  delim ok f → ok a → ok b → f a = Ok x → f b = Ok x → a = b.
Proof. intros Hd Ha Hb Hx Hy. by destruct (Hd a b x x [] [] Ha Hb Hx Hy). Qed.

Lemma to_le_bytes_inj n x y r r' :
  0 ≤ x < 256 ^ Z.of_nat n → 0 ≤ y < 256 ^ Z.of_nat n →
  to_le_bytes n x ++ r = to_le_bytes n y ++ r' → x = y ∧ r = r'.
Proof.
  intros Hx Hy He. apply app_inj_1 in He as [He ->]; [|by rewrite !length_to_le_bytes].
  split; [|done]. apply (f_equal from_le_bytes) in He. rewrite !from_to_le_bytes in He.
  by rewrite !Z.mod_small in He.
Qed.

Lemma to_be_bytes_inj n x y r r' :
  0 ≤ x < 256 ^ Z.of_nat n → 0 ≤ y < 256 ^ Z.of_nat n →
  to_be_bytes n x ++ r = to_be_bytes n y ++ r' → x = y ∧ r = r'.
Proof.
  intros Hx Hy He. apply app_inj_1 in He as [He ->]; [|by rewrite !length_to_be_bytes].
  split; [|done]. apply (f_equal from_be_bytes) in He. rewrite !from_to_be_bytes in He.
  by rewrite !Z.mod_small in He.
Qed.

Lemma app_zlen_inj {A} (l k r r' : list A) : zlen l = zlen k → l ++ r = k ++ r' → l = k ∧ r = r'.
Proof. intros Hl. apply app_inj_1. unfold zlen in Hl. lia. Qed.

Lemma delim_encode_bytes : delim (λ _, True) encode_bytes.
Proof.
  intros a b x y r r' _ _ (Ha & ->)%encode_bytes_Ok (Hb & ->)%encode_bytes_Ok He.
  rewrite <- !app_assoc in He. pose proof (zlen_nonneg a). pose proof (zlen_nonneg b).
  unfold MAX_VALUE_BYTES in *.
  apply to_le_bytes_inj in He as [Hl He]; [|change (256 ^ Z.of_nat 4) with 4294967296; lia..].
  by apply app_zlen_inj in He.
Qed.

Lemma delim_encode_value : delim value_ok encode_value.
Proof.
  intros v w x y r r' Hv Hw Hx Hy He.
  destruct (encode_value_tag _ _ Hx) as (bx & -> & Hbx), (encode_value_tag _ _ Hy) as (by_ & -> & Hby).
  clear Hx Hy. injection He as Ht He.
  destruct v as [|a|[]|a|a], w as [|b|[]|b|b]; try discriminate Ht; cbn in Hv, Hw; subst.
  - done.
  - destruct (i64_u64 a Hv) as [Ea ?], (i64_u64 b Hw) as [Eb ?].
    apply to_le_bytes_inj in He as [Hz ->];
      [|change (256 ^ Z.of_nat 8) with 18446744073709551616; unfold u64_max in *; lia..].
    split; [|done]. rewrite <- Ea, <- Eb. by rewrite Hz.
  - done.
  - done.
  - destruct (delim_encode_bytes _ _ _ _ _ _ I I Hbx Hby He) as [Heq ->].
    split; [|done]. f_equal. by apply as_bytes_inj.
  - by destruct (delim_encode_bytes _ _ _ _ _ _ I I Hbx Hby He) as [-> ->].
Qed.

(** A list whose length is known. *)
Lemma delim_mapM {E A} (ok : A → Prop) (f : A → result E bytes) l k bs cs r r' :
  delim ok f → Forall ok l → Forall ok k → length l = length k →
  mapM_result f l = Ok bs → mapM_result f k = Ok cs → concat bs ++ r = concat cs ++ r' →
  l = k ∧ r = r'.
Proof.
  intros Hd Hl. revert k bs cs. induction Hl as [|a l Ha Hl IH]; intros k bs cs Hk Hlen Hbs Hcs He.
  - destruct k; [|done]. cbn in *. by simplify_eq.
  - destruct Hk as [|b k Hb Hk]; [done|]. cbn in Hbs, Hcs.
    apply result_bind_Ok in Hbs as (x & Hx & (bs' & Hbs & [= <-])%result_bind_Ok).
    apply result_bind_Ok in Hcs as (y & Hy & (cs' & Hcs & [= <-])%result_bind_Ok).
    cbn [concat] in He. rewrite <- !app_assoc in He.
    destruct (Hd _ _ _ _ _ _ Ha Hb Hx Hy He) as [-> He'].
    destruct (IH k bs' cs') as [-> ->]; [done|cbn in Hlen; lia|done..].
Qed.

Lemma encode_row_inj a b x :
  row_ok a → row_ok b → encode_row a = Ok x → encode_row b = Ok x → a = b.
Proof.
  intros Ha Hb Hx Hy. unfold encode_row in Hx, Hy.
  apply result_bind_Ok in Hx as (u & H1%ensure_Ok & (n & H2%ok_or_Ok & (bs & H3 & H4)%result_bind_Ok)%result_bind_Ok).
  apply result_bind_Ok in Hy as (u' & H1'%ensure_Ok & (n' & H2'%ok_or_Ok & (cs & H3' & H4')%result_bind_Ok)%result_bind_Ok).
  apply Ok_inj in H4, H4'. bool_prop. unfold u32_try_from in H2, H2'.
  destruct (Z.leb_spec (zlen (values a)) u32_max); [|done]. destruct (Z.leb_spec (zlen (values b)) u32_max); [|done].
  injection H2 as <-. injection H2' as <-.
  pose proof (zlen_nonneg (values a)). pose proof (zlen_nonneg (values b)). unfold u32_max in *.
  rewrite <- H4' in H4. rewrite <- (app_nil_r (concat bs)), <- (app_nil_r (concat cs)) in H4.
  apply to_le_bytes_inj in H4 as [Hl He]; [|change (256 ^ Z.of_nat 4) with 4294967296; lia..].
  destruct (delim_mapM value_ok encode_value (values a) (values b) bs cs [] []) as [Hv _];
    [apply delim_encode_value|done..|unfold zlen in Hl; lia|done|done|done|].
  destruct a, b; cbn in *. congruence.
Qed.

(** ** The key encoding preserves order *)

(** The order of keys: by tag, then by content. *)
Definition key_tag (v : Value) : Z :=
  match v with
  | VNull => TAG_NULL | VInt64 _ => TAG_INT64 | VBool false => TAG_BOOL_FALSE
  | VBool true => TAG_BOOL_TRUE | VText _ => TAG_TEXT | VBytes _ => TAG_BYTES
  end.

Definition value_order (a b : Value) : comparison :=
  match a, b with
  | VInt64 x, VInt64 y => cmp x y
  | VText x, VText y => cmp (as_bytes x) (as_bytes y)
  | VBytes x, VBytes y => cmp x y
  | _, _ => cmp (key_tag a) (key_tag b)
  end.

Lemma land_pow63 w : 0 ≤ w < 2 ^ 63 → Z.land w (2 ^ 63) = 0.
Proof.
  intros Hw. apply Z.bits_inj'. intros i Hi. rewrite Z.land_spec, Z.bits_0, Z.pow2_bits_eqb by lia.
  destruct (Z.eqb_spec 63 i) as [<-|]; [|by rewrite andb_false_r].
  rewrite andb_true_r. replace w with (w mod 2 ^ 63) by (apply Z.mod_small; lia).
  apply Z.mod_pow2_bits_high. lia.
Qed.

Lemma sortable_shift z :
  i64_ok z → Z.lxor (i64_to_u64 z) (Z.shiftl 1 63) = z + 9223372036854775808.
Proof.
  intros Hz. change (Z.shiftl 1 63) with (2 ^ 63).
  unfold i64_ok, i64_to_u64, i64_min, i64_max, u64_max in *.
  destruct (Z.leb_spec 0 z).
  - rewrite Z.mod_small by lia. rewrite <- Z.add_nocarry_lxor; [lia|]. apply land_pow63. lia.
  - replace (z mod (18446744073709551615 + 1)) with ((z + 2 ^ 63) + 2 ^ 63).
    + rewrite Z.add_nocarry_lxor by (apply land_pow63; lia).
      rewrite Z.lxor_assoc, Z.lxor_nilpotent, Z.lxor_0_r. lia.
    + apply (Z.mod_unique _ _ (-1)); lia.
Qed.

Lemma cmp_Z_lt (x y : Z) : x < y → cmp x y = Lt.
Proof. apply Z.compare_lt_iff. Qed.

Lemma cmp_Z_gt (x y : Z) : y < x → cmp x y = Gt.
Proof. apply Z.compare_gt_iff. Qed.

Lemma memcomparable_cmp a b r r' :
  Forall byte_ok a → Forall byte_ok b →
  list_cmp (encode_memcomparable a ++ r) (encode_memcomparable b ++ r') =
  match list_cmp a b with Eq => list_cmp r r' | c => c end.
Proof.
  intros Ha. revert b. induction Ha as [|x a Hx Ha IH]; intros b Hb; unfold byte_ok in *.
  - destruct Hb as [|y b Hy Hb]; [done|]. cbn [encode_memcomparable].
    destruct (Z.eqb_spec y 0) as [->|]; [done|]. cbn [app list_cmp]. by rewrite (cmp_Z_lt 0 y) by lia.
  - destruct Hb as [|y b Hy Hb]; cbn [encode_memcomparable].
    + destruct (Z.eqb_spec x 0) as [->|]; [done|]. cbn [app list_cmp]. by rewrite (cmp_Z_gt x 0) by lia.
    + cbn [list_cmp]. destruct (decide (x = y)) as [->|Hne].
      * rewrite cmp_refl, <- !app_assoc, list_cmp_app_l. by apply IH.
      * assert (cmp x y ≠ Eq) as Hc by (by rewrite cmp_eq).
        destruct (Z.eqb_spec x 0) as [->|]; destruct (Z.eqb_spec y 0) as [->|]; cbn [app list_cmp].
        -- lia.
        -- by rewrite (cmp_Z_lt 0 y) by lia.
        -- by rewrite (cmp_Z_gt x 0) by lia.
        -- by destruct (cmp x y).
Qed.

(** Comparing two encodings followed by anything compares the values first:
    the encoding is order preserving and prefix free. *)
Lemma encode_ordered_cmp a b r r' :
  value_ok a → value_ok b →
  list_cmp (encode_ordered a ++ r) (encode_ordered b ++ r') =
  match value_order a b with Eq => list_cmp r r' | c => c end.
Proof.
  intros Ha Hb. destruct a as [|x|[]|x|x], b as [|y|[]|y|y]; try done.
  - cbn [encode_ordered value_order app list_cmp]. rewrite !sortable_shift by done.
    change (cmp TAG_INT64 TAG_INT64) with Eq. cbv beta iota zeta.
    rewrite list_cmp_app by (by rewrite !length_to_be_bytes).
    cbn [value_ok] in Ha, Hb. unfold i64_ok, i64_min, i64_max in Ha, Hb.
    rewrite list_cmp_to_be_bytes by (change (256 ^ Z.of_nat 8) with 18446744073709551616; lia).
    unfold cmp, compare_Z. by rewrite !(Z.add_comm _ 9223372036854775808), Z.add_compare_mono_l.
  - cbn [encode_ordered value_order app list_cmp]. change (cmp TAG_TEXT TAG_TEXT) with Eq. cbv beta iota.
    apply memcomparable_cmp; apply as_bytes_ok.
  - cbn [encode_ordered value_order app list_cmp]. change (cmp TAG_BYTES TAG_BYTES) with Eq. cbv beta iota.
    by apply memcomparable_cmp.
Qed.

Lemma value_order_eq a b : value_order a b = Eq ↔ a = b.
Proof.
  split; [|intros ->; destruct b as [|?|[]|?|?]; cbn; try done; by apply cmp_eq].
  destruct a as [|x|[]|x|x], b as [|y|[]|y|y]; cbn; try done; intros Hc%cmp_eq; try congruence.
  f_equal. by apply as_bytes_inj.
Qed.

Lemma value_order_checked_cmp a b o : checked_cmp a b = Ok (Some o) → value_order a b = o.
Proof. destruct a as [|x|[]|x|x], b as [|y|[]|y|y]; cbn; congruence. Qed.

(** No encoding is a prefix of another one. *)
Lemma encode_ordered_prefix_free a b r r' :
  value_ok a → value_ok b → encode_ordered a ++ r = encode_ordered b ++ r' ↔ a = b ∧ r = r'.
Proof.
  intros Ha Hb. split; [|by intros [-> ->]]. intros He. pose proof (encode_ordered_cmp a b r r' Ha Hb) as Hc.
  rewrite He in Hc. change (list_cmp ?x ?x) with (cmp x x) in Hc. rewrite cmp_refl in Hc.
  assert (a = b) as -> by (apply value_order_eq; by destruct (value_order a b)).
  split; [done|]. by apply app_inv_head in He.
Qed.

Lemma encode_ordered_inj a b :
  value_ok a → value_ok b → encode_ordered a = encode_ordered b → a = b.
Proof. intros Ha Hb He. apply (encode_ordered_prefix_free a b [] [] Ha Hb). by rewrite He. Qed.

(** C35: the ordered key encoding.  Two values that [Value::checked_cmp] compares
    (two of one type, neither NULL) have encodings in the same lexicographic
    order, whatever bytes follow them.  For any two values, NULL and values of
    different types included, the encodings are distinct and neither is a prefix
    of the other: the bytes that start with an encoding determine the value and
    what follows. *)
Theorem encode_ordered_preserves_order a b :
  value_ok a → value_ok b →
  (∀ o r r', checked_cmp a b = Ok (Some o) →
     list_cmp (encode_ordered a ++ r) (encode_ordered b ++ r') = match o with Eq => list_cmp r r' | _ => o end)
  ∧ ∀ r r', encode_ordered a ++ r = encode_ordered b ++ r' ↔ a = b ∧ r = r'.
Proof.
  intros Ha Hb. split.
  - intros o r r' Ho. rewrite encode_ordered_cmp by done. rewrite (value_order_checked_cmp a b o) by done. by destruct o.
  - intros r r'. by apply encode_ordered_prefix_free.
Qed.

(** Version keys sort by table, then by primary key, then newest first. *)
Theorem mvcc_key_order t t' pk pk' ts ts' k k' :
  u64_ok t → u64_ok t' → u64_ok ts → u64_ok ts' → value_ok pk → value_ok pk' →
  encode_mvcc_key t pk ts = Ok k → encode_mvcc_key t' pk' ts' = Ok k' →
  list_cmp k k' = match cmp t t' with
                  | Eq => match value_order pk pk' with
                          | Eq => cmp ts' ts
                          | c => c
                          end
                  | c => c
                  end.
Proof.
  intros Ht Ht' Hs Hs' Hp Hp' Hk%Ok_inj Hk'%Ok_inj. subst.
  unfold u64_ok, u64_max in *.
  rewrite list_cmp_app by (by rewrite !length_to_be_bytes).
  rewrite list_cmp_to_be_bytes by (change (256 ^ Z.of_nat 8) with 18446744073709551616; lia).
  rewrite encode_ordered_cmp by done.
  rewrite list_cmp_to_be_bytes
    by (change (256 ^ Z.of_nat 8) with 18446744073709551616; unfold u64_not, u64_max; lia).
  unfold cmp, compare_Z, u64_not. destruct (t ?= t'); [|done..]. destruct (value_order pk pk'); [|done..].
  destruct (Z.compare_spec ts' ts); [rewrite Z.compare_eq_iff|rewrite Z.compare_lt_iff|rewrite Z.compare_gt_iff]; lia.
Qed.

(** C34: the row codec is a bijection between the encodable rows and the
    accepted byte strings: decoding a byte string yields a row exactly when
    encoding that row yields that byte string.  So every encoded row decodes
    to itself, no byte string but its encoding decodes to it, and truncated,
    extended, mistagged or non-UTF-8 inputs are all rejected. *)
Theorem row_codec_bijective l row :
  Forall byte_ok l → zlen l ≤ u64_max →
  decode_row l = Ok row ↔ row_ok row ∧ encode_row row = Ok l.
Proof. apply row_codec_iff. Qed.
