(* ===== verification/EngineExpr.v ===== *)
(** * Engine errors and expressions

    [crates/aster-engine/src/error.rs] and
    [crates/aster-engine/src/expression.rs]. *)

From S2P Require Import Prelude CoreTypes.

Inductive EngineError : Type :=
| Core (e : CoreError)
| UnknownTable (id : Z)
| UnknownIndex (id : Z)
| UnknownColumn (table column : string)
| TransactionFinished (id : Z)
| SnapshotTooOld (requested floor : Z)
| ApplyGap (expected actual : Z)
| ApplyHashMismatch (index : Z)
| CommandHashMismatch
| InvalidAttempt (reason : string)
| InvalidSnapshot (reason : string)
| Expression (reason : string).

#[export] Instance EngineError_eq_dec : EqDecision EngineError.
Proof. solve_decision. Defined.

Definition EngineError_to_string (e : EngineError) : string :=
  match e with
  | Core e => CoreError_to_string e
  | UnknownTable id => "unknown table " +:+ pretty id
  | UnknownIndex id => "unknown index " +:+ pretty id
  | UnknownColumn table column =>
      "unknown column `" +:+ column +:+ "` in table `" +:+ table +:+ "`"
  | TransactionFinished id => "transaction " +:+ pretty id +:+ " is already finished"
  | SnapshotTooOld requested floor =>
      "snapshot " +:+ pretty requested +:+ " is below the retained MVCC floor " +:+ pretty floor
  | ApplyGap expected actual =>
      "non-contiguous apply index: expected " +:+ pretty expected +:+ ", got " +:+ pretty actual
  | ApplyHashMismatch index =>
      "replayed Raft index " +:+ pretty index +:+ " with a different command hash"
  | CommandHashMismatch =>
      "provided command hash does not match canonical transaction bytes"
  | InvalidAttempt r => "invalid transaction attempt: " +:+ r
  | InvalidSnapshot r => "invalid snapshot: " +:+ r
  | Expression r => "expression evaluation failed: " +:+ r
  end.

(** [?] on a core error converts it with [From]. *)
Definition core {A} (r : result CoreError A) : result EngineError A := map_err Core r.

Inductive Truth : Type := True_ | False_ | Unknown.

#[export] Instance Truth_eq_dec : EqDecision Truth.
Proof. solve_decision. Defined.

Module TruthOps.

Definition is_true (self : Truth) : bool :=
  match self with True_ => true | _ => false end.

Definition not (self : Truth) : Truth :=
  match self with True_ => False_ | False_ => True_ | Unknown => Unknown end.

Definition and (self other : Truth) : Truth :=
  match self, other with
  | False_, _ | _, False_ => False_
  | True_, True_ => True_
  | _, _ => Unknown
  end.

Definition or (self other : Truth) : Truth :=
  match self, other with
  | True_, _ | _, True_ => True_
  | False_, False_ => False_
  | _, _ => Unknown
  end.

Definition from_value (value : Value) : result EngineError Truth :=
  match value with
  | VBool true => Ok True_
  | VBool false => Ok False_
  | VNull => Ok Unknown
  | other => Err (Core (TypeError ("expected BOOL predicate, got " +:+ type_name other)))
  end.

Definition into_value (self : Truth) : Value :=
  match self with True_ => VBool true | False_ => VBool false | Unknown => VNull end.

End TruthOps.

Inductive UnaryOp : Type := Not | Negate | IsNull.

Inductive BinaryOp : Type :=
| OpEq | OpNotEq | OpLess | OpLessEq | OpGreater | OpGreaterEq | OpAnd | OpOr
| OpAdd | OpSubtract | OpMultiply | OpDivide.

Inductive Expr : Type :=
| EColumn (index : Z)
| ELiteral (value : Value)
| EUnary (op : UnaryOp) (expr : Expr)
| EBinary (left_ : Expr) (op : BinaryOp) (right_ : Expr).

Definition evaluate_unary (op : UnaryOp) (value : Value) : result EngineError Value :=
  match op with
  | Not => t ← TruthOps.from_value value; Ok (TruthOps.into_value (TruthOps.not t))
  | IsNull => Ok (VBool (is_null value))
  | Negate =>
      match value with
      | VNull => Ok VNull
      | VInt64 z =>
          z ← ok_or (i64_checked (- z)) (Expression "integer overflow during negation");
          Ok (VInt64 z)
      | other => Err (Core (TypeError ("cannot negate " +:+ type_name other)))
      end
  end.

Definition compare (left_ : Value) (op : BinaryOp) (right_ : Value) : result EngineError Value :=
  ordering ← core (checked_cmp left_ right_);
  match ordering with
  | None => Ok VNull
  | Some ordering =>
      let eq := bool_decide (ordering = Eq) in
      let lt := bool_decide (ordering = Lt) in
      let gt := bool_decide (ordering = Gt) in
      match op with
      | OpEq => Ok (VBool eq)
      | OpNotEq => Ok (VBool (negb eq))
      | OpLess => Ok (VBool lt)
      | OpLessEq => Ok (VBool (negb gt))
      | OpGreater => Ok (VBool gt)
      | OpGreaterEq => Ok (VBool (negb lt))
      | _ => Err (Expression "invalid comparison operator")
      end
  end.

(** [i64::checked_div]. *)
Definition i64_checked_div (a b : Z) : option Z :=
  if b =? 0 then None else i64_checked (Z.quot a b).

Definition arithmetic (left_ : Value) (op : BinaryOp) (right_ : Value)
    : result EngineError Value :=
  match left_, right_ with
  | VNull, _ | _, VNull => Ok VNull
  | VInt64 a, VInt64 b =>
      let result := match op with
                    | OpAdd => i64_checked (a + b)
                    | OpSubtract => i64_checked (a - b)
                    | OpMultiply => i64_checked (a * b)
                    | _ => i64_checked_div a b
                    end in
      z ← ok_or result (Expression "integer overflow or division by zero");
      Ok (VInt64 z)
  | _, _ => Err (Core (TypeError ("arithmetic requires INT64, got " +:+ type_name left_
                                  +:+ " and " +:+ type_name right_)))
  end.

Definition evaluate_binary (left_ : Value) (op : BinaryOp) (right_ : Value)
    : result EngineError Value :=
  match op with
  | OpAnd =>
      a ← TruthOps.from_value left_; b ← TruthOps.from_value right_;
      Ok (TruthOps.into_value (TruthOps.and a b))
  | OpOr =>
      a ← TruthOps.from_value left_; b ← TruthOps.from_value right_;
      Ok (TruthOps.into_value (TruthOps.or a b))
  | OpEq | OpNotEq | OpLess | OpLessEq | OpGreater | OpGreaterEq => compare left_ op right_
  | OpAdd | OpSubtract | OpMultiply | OpDivide => arithmetic left_ op right_
  end.

Fixpoint evaluate (self : Expr) (row : Row) : result EngineError Value :=
  match self with
  | EColumn index =>
      ok_or (znth (values row) index)
        (Expression ("column offset " +:+ pretty index +:+ " is outside a "
                     +:+ pretty (zlen (values row)) +:+ "-column row"))
  | ELiteral value => Ok value
  | EUnary op expr => v ← evaluate expr row; evaluate_unary op v
  | EBinary left_ op right_ =>
      l ← evaluate left_ row;
      match op with
      | OpAnd =>
          t ← TruthOps.from_value l;
          if decide (t = False_) then Ok (VBool false)
          else r ← evaluate right_ row; evaluate_binary l op r
      | OpOr =>
          t ← TruthOps.from_value l;
          if decide (t = True_) then Ok (VBool true)
          else r ← evaluate right_ row; evaluate_binary l op r
      | _ => r ← evaluate right_ row; evaluate_binary l op r
      end
  end.

Definition evaluate_predicate (self : Expr) (row : Row) : result EngineError bool :=
  v ← evaluate self row;
  t ← TruthOps.from_value v;
  Ok (TruthOps.is_true t).

(** ** Evaluation stays inside the value domain *)

Fixpoint literals_ok (e : Expr) : Prop :=
  match e with
  | EColumn _ => True
  | ELiteral v => value_ok v
  | EUnary _ e => literals_ok e
  | EBinary l _ r => literals_ok l ∧ literals_ok r
  end.

Lemma i64_checked_ok z y : i64_checked z = Some y → i64_ok y.
Proof. unfold i64_checked, i64_ok. intros. repeat case_match; bool_prop; naive_solver lia. Qed.

Lemma into_value_ok t : value_ok (TruthOps.into_value t).
Proof. by destruct t. Qed.

Lemma evaluate_unary_ok op v w : value_ok v → evaluate_unary op v = Ok w → value_ok w.
Proof.
  intros Hv. destruct op; cbn.
  - intros (t & _ & [= <-])%result_bind_Ok. apply into_value_ok.
  - destruct v; try done; [by intros [= <-]|].
    intros (z & Hz%ok_or_Ok & [= <-])%result_bind_Ok. by eapply i64_checked_ok.
  - by intros [= <-].
Qed.

Lemma arithmetic_ok a op b w : arithmetic a op b = Ok w → value_ok w.
Proof.
  destruct a, b; cbn; try (by intros [= <-]); try done.
  intros (z & Hz%ok_or_Ok & [= <-])%result_bind_Ok. cbn. unfold i64_checked_div in Hz.
  destruct op; try (by eapply i64_checked_ok); case_match; try done; by eapply i64_checked_ok.
Qed.

Lemma compare_ok a op b w : compare a op b = Ok w → value_ok w.
Proof.
  unfold compare. intros (o & _ & Hw)%result_bind_Ok. destruct o; [|by simplify_eq].
  by destruct op; simplify_eq.
Qed.

Lemma evaluate_binary_ok a op b w : evaluate_binary a op b = Ok w → value_ok w.
Proof.
  destruct op; cbn [evaluate_binary]; try apply arithmetic_ok; try apply compare_ok;
    intros (x & _ & (y & _ & [= <-])%result_bind_Ok)%result_bind_Ok; apply into_value_ok.
Qed.

Lemma evaluate_value_ok e row v :
  literals_ok e → row_ok row → evaluate e row = Ok v → value_ok v.
Proof.
  intros Hl Hr. revert v. induction e as [i|w|op e IH|l IHl op r IHr]; intros v; cbn [evaluate].
  - intros (Hi & Hv)%ok_or_Ok%znth_Some. by eapply Forall_lookup_1 in Hr.
  - by intros [= <-].
  - intros (w & Hw & Hv)%result_bind_Ok. eapply evaluate_unary_ok; [by apply IH|done].
  - destruct Hl as [Hl Hr']. intros (a & Ha & Hv)%result_bind_Ok.
    assert (∀ w, (r' ← evaluate r row; evaluate_binary a op r') = Ok w → value_ok w) as Hb.
    { intros w (b & _ & Hw)%result_bind_Ok. by eapply evaluate_binary_ok. }
    destruct op; try (by apply Hb in Hv); apply result_bind_Ok in Hv as (t & _ & Hv);
      (case_decide; [by simplify_eq|by apply Hb in Hv]).
Qed.

(** ** The meaning of an expression

    Written with unbounded integers and the order of truth values FALSE < NULL <
    TRUE, in which AND is the minimum, OR the maximum and NOT the reversal. *)

Inductive graded : Value → Z → Prop :=
| graded_false : graded (VBool false) 0
| graded_null : graded VNull 1
| graded_true : graded (VBool true) 2.

(** The order within one type: numbers, FALSE before TRUE, bytes
    lexicographically. *)
Inductive ordered : Value → Value → comparison → Prop :=
| ordered_int a b : ordered (VInt64 a) (VInt64 b) (Z.compare a b)
| ordered_bool a b : ordered (VBool a) (VBool b) (cmp a b)
| ordered_text a b : ordered (VText a) (VText b) (cmp (as_bytes a) (as_bytes b))
| ordered_bytes a b : ordered (VBytes a) (VBytes b) (cmp a b).

Definition tested (op : BinaryOp) (o : comparison) : option bool :=
  match op, o with
  | OpEq, Eq | OpNotEq, (Lt | Gt) | OpLess, Lt | OpLessEq, (Lt | Eq) | OpGreater, Gt | OpGreaterEq, (Gt | Eq) => Some true
  | (OpEq | OpNotEq | OpLess | OpLessEq | OpGreater | OpGreaterEq), _ => Some false
  | _, _ => None
  end.

(** The number an operator stands for; a division by zero stands for none. *)
Definition number (op : BinaryOp) (a b : Z) : option Z :=
  match op with
  | OpAdd => Some (a + b)
  | OpSubtract => Some (a - b)
  | OpMultiply => Some (a * b)
  | OpDivide => if b =? 0 then None else Some (Z.quot a b)
  | _ => None
  end.

Definition propagates_null (op : BinaryOp) : Prop := op ≠ OpAnd ∧ op ≠ OpOr.

Inductive denotes (row : Row) : Expr → Value → Prop :=
| den_column i v : 0 ≤ i → values row !! Z.to_nat i = Some v → denotes row (EColumn i) v
| den_literal v : denotes row (ELiteral v) v
| den_not e v w d : denotes row e v → graded v d → graded w (2 - d) → denotes row (EUnary Not e) w
| den_is_null e v : denotes row e v → denotes row (EUnary IsNull e) (VBool (bool_decide (v = VNull)))
| den_negate_null e : denotes row e VNull → denotes row (EUnary Negate e) VNull
| den_negate e z : denotes row e (VInt64 z) → i64_ok (- z) → denotes row (EUnary Negate e) (VInt64 (- z))
| den_and_false l r : denotes row l (VBool false) → denotes row (EBinary l OpAnd r) (VBool false)
| den_and l r a b v x y :
    denotes row l a → denotes row r b → graded a x → graded b y → graded v (Z.min x y) →
    denotes row (EBinary l OpAnd r) v
| den_or_true l r : denotes row l (VBool true) → denotes row (EBinary l OpOr r) (VBool true)
| den_or l r a b v x y :
    denotes row l a → denotes row r b → graded a x → graded b y → graded v (Z.max x y) →
    denotes row (EBinary l OpOr r) v
| den_null l op r a b :
    propagates_null op → denotes row l a → denotes row r b → a = VNull ∨ b = VNull →
    denotes row (EBinary l op r) VNull
| den_compare l op r a b o t :
    denotes row l a → denotes row r b → ordered a b o → tested op o = Some t →
    denotes row (EBinary l op r) (VBool t)
| den_number l op r a b z :
    denotes row l (VInt64 a) → denotes row r (VInt64 b) → number op a b = Some z → i64_ok z →
    denotes row (EBinary l op r) (VInt64 z).

#[local] Hint Constructors graded ordered denotes : core.

Lemma i64_checked_Some z y : i64_checked z = Some y ↔ y = z ∧ i64_ok z.
Proof. unfold i64_checked, i64_ok. split; [intros|intros [-> ?]]; repeat case_match; bool_prop; naive_solver lia. Qed.

Lemma from_value_graded v t : TruthOps.from_value v = Ok t ↔ graded v (match t with False_ => 0 | Unknown => 1 | True_ => 2 end).
Proof.
  split; [destruct v as [| |[]| |]; cbn; try done; by intros [= <-]|]. intros Hg. inversion Hg; destruct t; done.
Qed.

Lemma into_value_graded t : graded (TruthOps.into_value t) (match t with False_ => 0 | Unknown => 1 | True_ => 2 end).
Proof. by destruct t. Qed.

Lemma graded_from_value v d : graded v d → ∃ t, TruthOps.from_value v = Ok t ∧ v = TruthOps.into_value t
  ∧ d = match t with False_ => 0 | Unknown => 1 | True_ => 2 end.
Proof. intros []; [by exists False_|by exists Unknown|by exists True_]. Qed.

Lemma arithmetic_spec a op b v :
  op ∈ [OpAdd; OpSubtract; OpMultiply; OpDivide] →
  arithmetic a op b = Ok v ↔
  (a = VNull ∨ b = VNull) ∧ v = VNull
  ∨ ∃ x y z, a = VInt64 x ∧ b = VInt64 y ∧ number op x y = Some z ∧ i64_ok z ∧ v = VInt64 z.
Proof.
  intros Hop. split.
  - destruct a as [|x| | |], b as [|y| | |]; cbn [arithmetic]; try done; try (intros [= <-]; naive_solver).
    intros (z & Hz%ok_or_Ok & [= <-])%result_bind_Ok. right. exists x, y, z. unfold i64_checked_div in Hz.
    set_unfold in Hop. destruct Hop as [->|[->|[->|[->|[]]]]]; cbn [number]; [..|destruct (y =? 0); [done|]];
      apply i64_checked_Some in Hz as [-> ?]; done.
  - intros [[Hn ->]|(x & y & z & -> & -> & Hz & Hok & ->)].
    + destruct Hn as [-> | ->]; [done|by destruct a].
    + cbn [arithmetic]. unfold i64_checked_div. set_unfold in Hop.
      destruct Hop as [->|[->|[->|[->|[]]]]]; cbn [number] in Hz; [..|destruct (y =? 0); [done|]];
        injection Hz as <-; by rewrite (proj2 (i64_checked_Some _ _) (conj eq_refl Hok)).
Qed.

Lemma compare_spec a op b v :
  op ∈ [OpEq; OpNotEq; OpLess; OpLessEq; OpGreater; OpGreaterEq] →
  compare a op b = Ok v ↔
  (a = VNull ∨ b = VNull) ∧ v = VNull ∨ ∃ o t, ordered a b o ∧ tested op o = Some t ∧ v = VBool t.
Proof.
  intros Hop. unfold compare. split.
  - intros (o & Ho & Hv)%result_bind_Ok. destruct o as [o|].
    + right. exists o. assert (ordered a b o) as Ha.
      { destruct a, b; cbn in Ho; try done; apply Ok_inj in Ho; injection Ho as <-; constructor. }
      set_unfold in Hop. destruct_or? Hop; subst; try done; destruct o; injection Hv as <-; by eexists.
    + injection Hv as <-. left. split; [|done]. destruct a, b; cbn in Ho; try done; auto.
  - intros [[Hn ->]|(o & t & Ho & Ht & ->)].
    + destruct Hn as [-> | ->]; [done|by destruct a].
    + assert (checked_cmp a b = Ok (Some o)) as -> by (by destruct Ho). cbn.
      set_unfold in Hop. destruct_or? Hop; subst; try done; destruct o; injection Ht as <-; done.
Qed.

Lemma arithmetic_denotes row l op r a b v :
  op ∈ [OpAdd; OpSubtract; OpMultiply; OpDivide] → denotes row l a → denotes row r b → arithmetic a op b = Ok v →
  denotes row (EBinary l op r) v.
Proof.
  intros Hop Hl Hr [[Hn ->]|(x & y & z & -> & -> & Hz & Hok & ->)]%arithmetic_spec; [| |done]; [|by eapply den_number].
  eapply den_null; eauto. by set_unfold in Hop; destruct_or? Hop; subst.
Qed.

Lemma compare_denotes row l op r a b v :
  op ∈ [OpEq; OpNotEq; OpLess; OpLessEq; OpGreater; OpGreaterEq] → denotes row l a → denotes row r b →
  compare a op b = Ok v → denotes row (EBinary l op r) v.
Proof.
  intros Hop Hl Hr [[Hn ->]|(o & t & Ho & Ht & ->)]%compare_spec; [| |done]; [|by eapply den_compare].
  eapply den_null; eauto. by set_unfold in Hop; destruct_or? Hop; subst.
Qed.

Lemma evaluate_denotes e row v : evaluate e row = Ok v → denotes row e v.
Proof.
  revert v. induction e as [i|w|op e IH|l IHl op r IHr]; intros v; cbn [evaluate].
  - intros [Hi Hv]%ok_or_Ok%znth_Some. by constructor.
  - intros [= <-]. constructor.
  - intros (w & Hw%IH & Hv)%result_bind_Ok. destruct op; cbn [evaluate_unary] in Hv.
    + apply result_bind_Ok in Hv as (t & Ht%from_value_graded & [= <-]%Ok_inj). eapply den_not; [done|exact Ht|].
      by destruct t.
    + destruct w; try done; [injection Hv as <-; by constructor|].
      apply result_bind_Ok in Hv as (z & [-> Hz]%ok_or_Ok%i64_checked_Some & [= <-]%Ok_inj). by constructor.
    + injection Hv as <-. replace (is_null w) with (bool_decide (w = VNull)) by (by destruct w). by constructor.
  - intros (a & Ha%IHl & Hv)%result_bind_Ok.
    destruct op; cbn [evaluate_binary] in Hv;
    try (apply result_bind_Ok in Hv as (b & Hb%IHr & Hv);
      first [eapply compare_denotes; [|done..|done]; set_solver | eapply arithmetic_denotes; [|done..|done]; set_solver]).
    all: apply result_bind_Ok in Hv as (t & Ht & Hv); case_decide as Hd.
    all: try (injection Hv as <-; subst t; apply from_value_graded in Ht; inversion Ht; subst; by constructor).
    all: apply result_bind_Ok in Hv as (b & Hb%IHr & Hv); rewrite Ht in Hv; cbn in Hv;
      apply result_bind_Ok in Hv as (u & Hu%from_value_graded & [= <-]%Ok_inj); apply from_value_graded in Ht.
    + eapply den_and; [done|done|exact Ht|exact Hu|]. by destruct t, u.
    + eapply den_or; [done|done|exact Ht|exact Hu|]. by destruct t, u.
Qed.

Lemma denotes_evaluate e row v : denotes row e v → evaluate e row = Ok v.
Proof.
  induction 1 as [i v Hi Hv|v|e v w d He IH Hd Hw|e v He IH|e He IH|e z He IH Hz|l r Hl IH
    |l r a b v x y Hl IHl Hr IHr Ha Hb Hv|l r Hl IH|l r a b v x y Hl IHl Hr IHr Ha Hb Hv
    |l op r a b Hop Hl IHl Hr IHr Hn|l op r a b o t Hl IHl Hr IHr Ho Ht|l op r a b z Hl IHl Hr IHr Hz Hok];
    cbn [evaluate]; rewrite ?IH, ?IHl, ?IHr; cbn [mbind result_bind evaluate_unary evaluate_binary].
  - assert (znth (values row) i = Some v) as -> by (by apply znth_Some). done.
  - done.
  - apply graded_from_value in Hd as (t & -> & _ & ->). cbn. f_equal. destruct t; by inversion Hw.
  - f_equal. f_equal. by destruct v.
  - done.
  - by rewrite (proj2 (i64_checked_Some _ _) (conj eq_refl Hz)).
  - done.
  - apply graded_from_value in Ha as (t & Ht & _ & ->). apply graded_from_value in Hb as (u & Hu & _ & ->).
    rewrite Ht. cbn. rewrite Hu. cbn. destruct t, u; cbn in Hv |- *; by inversion Hv.
  - done.
  - apply graded_from_value in Ha as (t & Ht & _ & ->). apply graded_from_value in Hb as (u & Hu & _ & ->).
    rewrite Ht. cbn. rewrite Hu. cbn. destruct t, u; cbn in Hv |- *; by inversion Hv.
  - destruct Hop. destruct op; try done; cbn [evaluate_binary];
      first [apply compare_spec; [set_solver|by left] | apply arithmetic_spec; [set_solver|by left]].
  - assert (op ∈ [OpEq; OpNotEq; OpLess; OpLessEq; OpGreater; OpGreaterEq]) as Hop by (destruct op; try done; set_solver).
    assert (compare a op b = Ok (VBool t)) as Hc by (apply compare_spec; [done|right; by exists o, t]).
    by destruct op.
  - assert (op ∈ [OpAdd; OpSubtract; OpMultiply; OpDivide]) as Hop by (destruct op; try done; set_solver).
    assert (arithmetic (VInt64 a) op (VInt64 b) = Ok (VInt64 z)) as Hc by (apply arithmetic_spec; [done|right; by exists a, b, z]).
    by destruct op.
Qed.

(** C36: the evaluator computes the meaning of an expression, and nothing else.
    [evaluate] returns a value exactly when the expression denotes it, where the
    meaning is given over unbounded integers and three-valued truth: sums,
    differences, products and truncated quotients that fit 64 bits, the order of
    two values of one type, NULL for an operand that is NULL, AND and OR as
    minimum and maximum, with a FALSE or TRUE on the left deciding alone.  So a
    result outside 64 bits, a division by zero, an operand of the wrong type or a
    column the row does not have is an error.  Over a row and literals of the
    value domain the result is in the domain. *)
Theorem evaluate_exact e row v :
  (evaluate e row = Ok v ↔ denotes row e v)
  ∧ (literals_ok e → row_ok row → evaluate e row = Ok v → value_ok v).
Proof. split; [split; [apply evaluate_denotes|apply denotes_evaluate]|apply evaluate_value_ok]. Qed.

(** AND and OR are the three-valued connectives: when both operands
    evaluate to a truth value, the short-circuiting evaluation gives the
    Kleene conjunction and disjunction, and the connective holds exactly when
    both, respectively one, of the operands hold. *)
Theorem connectives_kleene l r row vl vr a b :
  evaluate l row = Ok vl → TruthOps.from_value vl = Ok a →
  evaluate r row = Ok vr → TruthOps.from_value vr = Ok b →
  evaluate (EBinary l OpAnd r) row = Ok (TruthOps.into_value (TruthOps.and a b))
  ∧ evaluate (EBinary l OpOr r) row = Ok (TruthOps.into_value (TruthOps.or a b))
  ∧ evaluate_predicate (EBinary l OpAnd r) row = Ok (TruthOps.is_true a && TruthOps.is_true b)
  ∧ evaluate_predicate (EBinary l OpOr r) row = Ok (TruthOps.is_true a || TruthOps.is_true b).
Proof.
  intros Hl Ha Hr Hb. unfold evaluate_predicate. cbn [evaluate]. rewrite Hl, Hr. cbn.
  rewrite Ha. cbn. rewrite Hb. cbn. by destruct a, b.
Qed.

(** FALSE AND e is FALSE and TRUE OR e is TRUE whatever [e] does, errors
    included. *)
Lemma short_circuit l r row :
  (evaluate l row = Ok (VBool false) → evaluate (EBinary l OpAnd r) row = Ok (VBool false))
  ∧ (evaluate l row = Ok (VBool true) → evaluate (EBinary l OpOr r) row = Ok (VBool true)).
Proof. split; intros Hl; cbn [evaluate]; by rewrite Hl. Qed.
