(* ===== verification/EngineCatalog.v ===== *)
(** * The catalog: [crates/aster-engine/src/catalog.rs]

    Tables and indexes by id and by case-folded name, the mutations a
    transaction stages, and the validation a restored catalog must pass. *)

From Stdlib Require Import Ascii String.
From S2P Require Import Prelude CoreTypes EngineExpr.

Record TableMeta : Type := mkTableMeta {
  t_id : Z;
  t_name : string;
  t_schema : Schema;
  primary_key_column : Z
}.

Record IndexMeta : Type := mkIndexMeta {
  i_id : Z;
  i_name : string;
  i_table_id : Z;
  i_column : Z
}.

Inductive CatalogMutation : Type :=
| CreateTable (table : TableMeta)
| CreateIndex (index : IndexMeta).

Record Catalog : Type := mkCatalog {
  c_schema_epoch : Z;
  tables : gmap Z TableMeta;
  table_names : gmap string Z;
  indexes : gmap Z IndexMeta;
  index_names : gmap string Z
}.

#[export] Instance TableMeta_eq_dec : EqDecision TableMeta.
Proof. solve_decision. Defined.
#[export] Instance IndexMeta_eq_dec : EqDecision IndexMeta.
Proof. solve_decision. Defined.
#[export] Instance CatalogMutation_eq_dec : EqDecision CatalogMutation.
Proof. solve_decision. Defined.
#[export] Instance Catalog_eq_dec : EqDecision Catalog.
Proof. solve_decision. Defined.

Definition Catalog_default : Catalog :=
  {| c_schema_epoch := 0; tables := ∅; table_names := ∅; indexes := ∅; index_names := ∅ |}.

Definition normalize (name : string) : string := to_ascii_lowercase name.

Definition is_ascii_alphabetic (b : Z) : bool := between 65 90 b || between 97 122 b.
Definition is_ascii_digit (b : Z) : bool := between 48 57 b.

Definition valid_identifier (name : string) : bool :=
  match as_bytes name with
  | [] => false
  | first :: rest =>
      ((first =? 95) || is_ascii_alphabetic first)
      && forallb (λ b, (b =? 95) || is_ascii_alphabetic b || is_ascii_digit b) rest
  end.

Definition validate_identifier (name kind : string) : result EngineError unit :=
  ensure (valid_identifier name)
    (Core (Constraint ("invalid " +:+ kind +:+ " identifier `" +:+ name +:+ "`"))).

Module Table.

Definition new (id : Z) (name : string) (schema : Schema) : result EngineError TableMeta :=
  _ ← validate_identifier name "table";
  _ ← ensure (negb (id =? 0)) (Core (Constraint "table id zero is reserved"));
  pk ← core (SchemaOps.validate schema);
  Ok {| t_id := id; t_name := name; t_schema := schema; primary_key_column := pk |}.

Definition column (self : TableMeta) (name : string) : result EngineError Z :=
  match List.find (λ p, eq_ignore_ascii_case (c_name p.2) name)
          (enumerate (columns (t_schema self))) with
  | Some (i, _) => Ok i
  | None => Err (UnknownColumn (t_name self) name)
  end.

Definition validate (self : TableMeta) : result EngineError unit :=
  _ ← validate_identifier (t_name self) "table";
  _ ← ensure (negb (t_id self =? 0)) (Core (Constraint "table id zero is reserved"));
  actual ← core (SchemaOps.validate (t_schema self));
  ensure (actual =? primary_key_column self)
    (InvalidSnapshot ("table " +:+ pretty (t_id self) +:+ " stores primary-key column "
                      +:+ pretty (primary_key_column self) +:+ ", schema says "
                      +:+ pretty actual)).

End Table.

Module Index.

Definition new (id : Z) (name : string) (table : TableMeta) (column : Z)
    : result EngineError IndexMeta :=
  _ ← validate_identifier name "index";
  _ ← ensure (negb (id =? 0)) (Core (Constraint "index id zero is reserved"));
  _ ← ensure (negb (zlen (columns (t_schema table)) <=? column))
        (Core (Constraint ("index column " +:+ pretty column +:+ " is outside table `"
                           +:+ t_name table +:+ "`")));
  Ok {| i_id := id; i_name := name; i_table_id := t_id table; i_column := column |}.

End Index.

Definition sort_key (m : CatalogMutation) : Z * Z :=
  match m with
  | CreateTable table => (0, t_id table)
  | CreateIndex index => (1, i_id index)
  end.

Module Cat.

Definition table (self : Catalog) (id : Z) : option TableMeta := tables self !! id.

Definition table_named (self : Catalog) (name : string) : option TableMeta :=
  id ← table_names self !! normalize name; tables self !! id.

Definition index (self : Catalog) (id : Z) : option IndexMeta := indexes self !! id.

Definition index_named (self : Catalog) (name : string) : option IndexMeta :=
  id ← index_names self !! normalize name; indexes self !! id.

Definition indexes_for_table (self : Catalog) (table_id : Z) : list IndexMeta :=
  List.filter (λ index, i_table_id index =? table_id) (btree_map_iter (indexes self)).*2.

(** [last_key_value().map_or(1, |(id, _)| id.saturating_add(1))]. *)
Definition next_id {V} (m : gmap Z V) : Z :=
  match last (btree_map_iter m) with
  | None => 1
  | Some (id, _) => saturating_add id 1
  end.

Definition next_table_id (self : Catalog) : Z := next_id (tables self).
Definition next_index_id (self : Catalog) : Z := next_id (indexes self).

Definition create_table (self : Catalog) (t : TableMeta) : result EngineError Catalog :=
  _ ← Table.validate t;
  _ ← ensure (negb (bool_decide (is_Some (tables self !! t_id t))))
        (Core (Constraint ("table id " +:+ pretty (t_id t) +:+ " already exists")));
  let normalized := normalize (t_name t) in
  _ ← ensure (negb (bool_decide (is_Some (table_names self !! normalized))))
        (Core (Constraint ("table `" +:+ t_name t +:+ "` already exists")));
  Ok {| c_schema_epoch := c_schema_epoch self;
        tables := <[t_id t := t]> (tables self);
        table_names := <[normalized := t_id t]> (table_names self);
        indexes := indexes self; index_names := index_names self |}.

Definition create_index (self : Catalog) (i : IndexMeta) : result EngineError Catalog :=
  _ ← validate_identifier (i_name i) "index";
  _ ← ensure (negb (i_id i =? 0)) (Core (Constraint "index id zero is reserved"));
  _ ← ensure (negb (bool_decide (is_Some (indexes self !! i_id i))))
        (Core (Constraint ("index id " +:+ pretty (i_id i) +:+ " already exists")));
  let normalized := normalize (i_name i) in
  _ ← ensure (negb (bool_decide (is_Some (index_names self !! normalized))))
        (Core (Constraint ("index `" +:+ i_name i +:+ "` already exists")));
  t ← ok_or (tables self !! i_table_id i) (UnknownTable (i_table_id i));
  _ ← ensure (negb (zlen (columns (t_schema t)) <=? i_column i))
        (Core (Constraint ("index " +:+ pretty (i_id i) +:+ " references column "
                           +:+ pretty (i_column i) +:+ " outside table `" +:+ t_name t +:+ "`")));
  Ok {| c_schema_epoch := c_schema_epoch self;
        tables := tables self; table_names := table_names self;
        indexes := <[i_id i := i]> (indexes self);
        index_names := <[normalized := i_id i]> (index_names self) |}.

Definition apply_mutation (st : Catalog * list Z) (m : CatalogMutation)
    : result EngineError (Catalog * list Z) :=
  let '(self, new_indexes) := st in
  match m with
  | CreateTable t => self ← create_table self t; Ok (self, new_indexes)
  | CreateIndex i => self ← create_index self i; Ok (self, new_indexes ++ [i_id i])
  end.

Definition apply_mutations (self : Catalog) (mutations : list CatalogMutation)
    : result EngineError (Catalog * list Z) :=
  '(self, new_indexes) ← foldM apply_mutation (self, []) mutations;
  if is_empty mutations then Ok (self, new_indexes)
  else
    epoch ← ok_or (checked_add (c_schema_epoch self) 1)
              (Core (Invariant "schema epoch overflow"));
    Ok ({| c_schema_epoch := epoch; tables := tables self; table_names := table_names self;
           indexes := indexes self; index_names := index_names self |}, new_indexes).

(** The maps [validate] rebuilds from the metadata. *)
Definition expected_table_names (self : Catalog) : gmap string Z :=
  list_to_map (reverse ((λ t, (normalize (t_name t), t_id t)) <$> (btree_map_iter (tables self)).*2)).
Definition expected_index_names (self : Catalog) : gmap string Z :=
  list_to_map (reverse ((λ i, (normalize (i_name i), i_id i)) <$> (btree_map_iter (indexes self)).*2)).

Definition validate_table (names : gset string) (p : Z * TableMeta)
    : result EngineError (gset string) :=
  let '(id, t) := p in
  _ ← ensure (id =? t_id t)
        (InvalidSnapshot ("table map key " +:+ pretty id +:+ " differs from metadata id "
                          +:+ pretty (t_id t)));
  _ ← Table.validate t;
  _ ← ensure (negb (bool_decide (normalize (t_name t) ∈ names)))
        (InvalidSnapshot ("duplicate table name `" +:+ t_name t +:+ "`"));
  Ok ({[normalize (t_name t)]} ∪ names).

Definition validate_index (self : Catalog) (names : gset string) (p : Z * IndexMeta)
    : result EngineError (gset string) :=
  let '(id, i) := p in
  _ ← ensure (negb (negb (id =? i_id i) || (i_id i =? 0)))
        (InvalidSnapshot ("invalid index map entry " +:+ pretty id));
  _ ← validate_identifier (i_name i) "index";
  t ← ok_or (tables self !! i_table_id i) (UnknownTable (i_table_id i));
  _ ← ensure (negb (zlen (columns (t_schema t)) <=? i_column i))
        (InvalidSnapshot ("index " +:+ pretty (i_id i) +:+ " references missing column "
                          +:+ pretty (i_column i)));
  _ ← ensure (negb (bool_decide (normalize (i_name i) ∈ names)))
        (InvalidSnapshot ("duplicate index name `" +:+ i_name i +:+ "`"));
  Ok ({[normalize (i_name i)]} ∪ names).

Definition validate (self : Catalog) : result EngineError unit :=
  _ ← foldM validate_table ∅ (btree_map_iter (tables self));
  _ ← ensure (bool_decide (expected_table_names self = table_names self))
        (InvalidSnapshot "table-name lookup does not match table metadata");
  _ ← foldM (validate_index self) ∅ (btree_map_iter (indexes self));
  ensure (bool_decide (expected_index_names self = index_names self))
    (InvalidSnapshot "index-name lookup does not match index metadata").

End Cat.

(** ** The invariant of a catalog *)

(** [names] is the name lookup of the metadata map [m]. *)
Definition names_of {V} (name : V → string) (m : gmap Z V) (names : gmap string Z) : Prop :=
  ∀ n id, names !! n = Some id ↔ ∃ v, m !! id = Some v ∧ normalize (name v) = n.

Definition index_meta_ok (c : Catalog) (i : IndexMeta) : Prop :=
  i_id i ≠ 0 ∧ valid_identifier (i_name i) = true
  ∧ ∃ t, tables c !! i_table_id i = Some t ∧ i_column i < zlen (columns (t_schema t)).

Record cat_wf (c : Catalog) : Prop := {
  cat_tables : ∀ id t, tables c !! id = Some t → t_id t = id ∧ Table.validate t = Ok tt;
  cat_table_names : names_of t_name (tables c) (table_names c);
  cat_indexes : ∀ id i, indexes c !! id = Some i → i_id i = id ∧ index_meta_ok c i;
  cat_index_names : names_of i_name (indexes c) (index_names c)
}.

(** *** [validate] decides the invariant *)

Section Names.
Context {V : Type} (name : V → string) (ident : V → Z).

(** One turn of the validation loops: a check, then a fresh name. *)
Context (turn : gset string → Z * V → result EngineError (gset string)) (check : Z * V → Prop).
Hypothesis turn_ok : ∀ names p names',
  turn names p = Ok names' ↔
  check p ∧ (normalize (name p.2) ∉ names) ∧ names' = {[normalize (name p.2)]} ∪ names.

Lemma names_loop names l :
  is_ok (foldM turn names l) = true ↔
  Forall check l ∧ NoDup ((λ p, normalize (name p.2)) <$> l)
  ∧ Forall (λ p, normalize (name p.2) ∉ names) l.
Proof.
  revert names. induction l as [|p l IH]; intros names; cbn [foldM].
  { split; [|done]. intros _. split_and!; constructor. }
  rewrite fmap_cons, NoDup_cons, !Forall_cons, list_elem_of_fmap.
  destruct (turn names p) as [names'|e] eqn:Ht; cbn [mbind result_bind].
  - apply turn_ok in Ht as (Hc & Hn & ->). rewrite IH, !Forall_forall. set_solver.
  - split; [done|]. intros ((Hc & _) & _ & (Hn & _)).
    assert (Err e = Ok ({[normalize (name p.2)]} ∪ names)) as Hbad by (rewrite <- Ht; by apply turn_ok).
    done.
Qed.

Definition expected (m : gmap Z V) : gmap string Z :=
  list_to_map (reverse ((λ v, (normalize (name v), ident v)) <$> (btree_map_iter m).*2)).

Lemma names_validated (m : gmap Z V) (names : gmap string Z) :
  (∀ id v, m !! id = Some v → ident v = id) →
  NoDup ((λ p, normalize (name p.2)) <$> btree_map_iter m) ∧ expected m = names
  ↔ names_of name m names.
Proof.
  intros Hid.
  assert (∀ n id, (n, id) ∈ ((λ v, (normalize (name v), ident v)) <$> (btree_map_iter m).*2)
                  ↔ ∃ v, m !! id = Some v ∧ normalize (name v) = n) as Hin.
  { intros n id. rewrite list_elem_of_fmap. setoid_rewrite list_elem_of_fmap. split.
    - intros (v & Heq & [k v'] & -> & Hp). cbn in *. apply elem_of_btree_map_iter in Hp.
      simplify_eq. rewrite (Hid _ _ Hp). eauto.
    - intros (v & Hv & <-). exists v. rewrite (Hid _ _ Hv). split; [done|].
      exists (id, v). split; [done|]. by apply elem_of_btree_map_iter. }
  assert (((λ v, (normalize (name v), ident v)) <$> (btree_map_iter m).*2).*1
          = (λ p, normalize (name p.2)) <$> btree_map_iter m) as Hfst.
  { by rewrite <- !list_fmap_compose. }
  split.
  - intros [Hnd <-] n id. rewrite <- Hin. unfold expected.
    rewrite <- elem_of_list_to_map; [by rewrite elem_of_reverse|].
    by rewrite fmap_reverse, reverse_Permutation, Hfst.
  - intros Hno.
    assert (NoDup ((λ p, normalize (name p.2)) <$> btree_map_iter m)) as Hnd.
    { apply NoDup_fmap_2_strong; [|].
      - intros [k v] [k' v'] Hp%elem_of_btree_map_iter Hp'%elem_of_btree_map_iter Hn. cbn in Hn.
        pose proof (proj2 (Hno _ _) (ex_intro _ v (conj Hp eq_refl))) as H1.
        pose proof (proj2 (Hno _ _) (ex_intro _ v' (conj Hp' eq_refl))) as H2.
        rewrite Hn in H1. simplify_eq. done.
      - unfold btree_map_iter. rewrite merge_sort_Permutation. apply NoDup_map_to_list. }
    split; [done|]. apply map_eq. intros n. apply option_eq. intros id. rewrite (Hno n id), <- Hin.
    unfold expected. rewrite <- elem_of_list_to_map; [by rewrite elem_of_reverse|].
    by rewrite fmap_reverse, reverse_Permutation, Hfst.
Qed.
End Names.

Lemma validate_table_turn names p names' :
  Cat.validate_table names p = Ok names' ↔
  (t_id p.2 = p.1 ∧ Table.validate p.2 = Ok tt) ∧ (normalize (t_name p.2) ∉ names)
  ∧ names' = {[normalize (t_name p.2)]} ∪ names.
Proof.
  destruct p as [id t]. unfold Cat.validate_table, ensure; cbn.
  destruct (Z.eqb_spec id (t_id t)); cbn; [|naive_solver].
  destruct (Table.validate t) as [[]|]; cbn; [|naive_solver].
  case_bool_decide; cbn; naive_solver.
Qed.

Lemma validate_index_turn c names p names' :
  Cat.validate_index c names p = Ok names' ↔
  (i_id p.2 = p.1 ∧ index_meta_ok c p.2) ∧ (normalize (i_name p.2) ∉ names)
  ∧ names' = {[normalize (i_name p.2)]} ∪ names.
Proof.
  destruct p as [id i]. unfold Cat.validate_index, validate_identifier, index_meta_ok, ensure, ok_or; cbn.
  destruct (Z.eqb_spec id (i_id i)); cbn; [|naive_solver].
  destruct (Z.eqb_spec (i_id i) 0); cbn; [naive_solver|].
  destruct (valid_identifier (i_name i)); cbn; [|naive_solver].
  destruct (tables c !! i_table_id i) as [t|]; cbn; [|naive_solver].
  destruct (Z.leb_spec (zlen (columns (t_schema t))) (i_column i)); cbn; [naive_solver lia|].
  case_bool_decide; cbn; naive_solver.
Qed.

Lemma forall_iter {V} (P : Z * V → Prop) (m : gmap Z V) :
  Forall P (btree_map_iter m) ↔ ∀ id v, m !! id = Some v → P (id, v).
Proof.
  rewrite Forall_forall. split.
  - intros HP id v Hv. apply HP. by apply elem_of_btree_map_iter.
  - intros HP [id v] Hp. apply HP. by apply elem_of_btree_map_iter.
Qed.

Lemma is_ok_bind {E A B} (r : result E A) (f : A → result E B) :
  is_ok (r ≫= f) = true ↔ ∃ a, r = Ok a ∧ is_ok (f a) = true.
Proof. destruct r; cbn; naive_solver. Qed.

Lemma is_ok_ensure {E} c (e : E) : is_ok (ensure c e) = true ↔ c = true.
Proof. by destruct c. Qed.

Lemma cat_validate_wf c : is_ok (Cat.validate c) = true ↔ cat_wf c.
Proof.
  unfold Cat.validate.
  pose proof (names_loop t_name Cat.validate_table _ validate_table_turn ∅ (btree_map_iter (tables c))) as Ht.
  pose proof (names_loop i_name (Cat.validate_index c) _ (validate_index_turn c) ∅ (btree_map_iter (indexes c))) as Hi.
  rewrite forall_iter in Ht. rewrite forall_iter in Hi.
  assert (∀ A (l : list A) (f : A → string), Forall (λ p, f p ∉ (∅ : gset string)) l) as Hemp.
  { intros. apply Forall_forall. set_solver. }
  split.
  - rewrite is_ok_bind. intros (n1 & H1 & Hx). rewrite is_ok_bind in Hx.
    destruct Hx as (? & He1%ensure_Ok & Hx). rewrite is_ok_bind in Hx.
    destruct Hx as (n2 & H2 & He2%is_ok_ensure). bool_prop.
    destruct (proj1 Ht ltac:(by rewrite H1)) as (Hct & Hnt & _).
    destruct (proj1 Hi ltac:(by rewrite H2)) as (Hci & Hni & _). cbn in *.
    split; [done| |done|].
    + apply (names_validated t_name t_id); [naive_solver|done].
    + apply (names_validated i_name i_id); [naive_solver|done].
  - intros [Hct Hnt Hci Hni].
    apply (names_validated t_name t_id) in Hnt as [Hnt Het]; [|naive_solver].
    apply (names_validated i_name i_id) in Hni as [Hni Hei]; [|naive_solver].
    pose proof (proj2 Ht (conj Hct (conj Hnt (Hemp _ _ _)))) as Ht'.
    pose proof (proj2 Hi (conj Hci (conj Hni (Hemp _ _ _)))) as Hi'.
    destruct (foldM Cat.validate_table _ _); [|done]. cbn [mbind result_bind].
    unfold ensure. rewrite !bool_decide_true by done. cbn [mbind result_bind].
    by destruct (foldM (Cat.validate_index c) _ _).
Qed.

(** *** Mutations preserve it *)

Lemma names_of_insert {V} (name : V → string) (ident : V → Z) m names v :
  names_of name m names → (∀ id w, m !! id = Some w → ident w = id) →
  m !! ident v = None → names !! normalize (name v) = None →
  names_of name (<[ident v := v]> m) (<[normalize (name v) := ident v]> names).
Proof.
  intros Hn Hid Hm Hnew n id. rewrite lookup_insert_Some. rewrite (Hn n id). split.
  - intros [[<- <-]|[Hne (w & Hw & <-)]].
    + exists v. by rewrite lookup_insert_eq.
    + exists w. split; [|done]. rewrite lookup_insert_ne; [done|]. intros Heq. congruence.
  - intros (w & Hw & <-). apply lookup_insert_Some in Hw as [[<- <-]|[Hne Hw]]; [by left|]. right.
    split; [|by exists w]. intros Heq.
    assert (names !! normalize (name w) = Some id) as Hs by (apply Hn; eauto). congruence.
Qed.

Lemma create_table_wf c t c' : cat_wf c → Cat.create_table c t = Ok c' → cat_wf c'.
Proof.
  intros [Hct Hnt Hci Hni] (u & Hv & (u1 & H1%ensure_Ok & (u2 & H2%ensure_Ok & Heq)%result_bind_Ok)%result_bind_Ok)%result_bind_Ok.
  apply Ok_inj in Heq as <-. bool_prop. apply eq_None_not_Some in H1, H2. destruct u.
  split; cbn; [| |intros id i Hi|done].
  - intros id t' [[<- <-]|[_ ?]]%lookup_insert_Some; auto.
  - apply names_of_insert; auto. naive_solver.
  - destruct (Hci id i Hi) as (? & ? & ? & tb & Htb & ?). split; [done|]. split_and!; [done..|].
    exists tb. split; [|done]. cbn. rewrite lookup_insert_ne; [done|]. congruence.
Qed.

Lemma create_index_wf c i c' : cat_wf c → Cat.create_index c i = Ok c' → cat_wf c'.
Proof.
  intros [Hct Hnt Hci Hni] Hx. unfold Cat.create_index, validate_identifier in Hx.
  apply result_bind_Ok in Hx as ([] & Hv%ensure_Ok & Hx).
  apply result_bind_Ok in Hx as ([] & H0%ensure_Ok & Hx).
  apply result_bind_Ok in Hx as ([] & H1%ensure_Ok & Hx).
  apply result_bind_Ok in Hx as ([] & H2%ensure_Ok & Hx).
  apply result_bind_Ok in Hx as (t & Ht%ok_or_Ok & Hx).
  apply result_bind_Ok in Hx as ([] & H3%ensure_Ok & Hx).
  apply Ok_inj in Hx as <-. bool_prop. apply eq_None_not_Some in H1, H2.
  split; cbn; [done|done| |].
  - intros id i' [[<- <-]|[_ Hi]]%lookup_insert_Some; [|by apply Hci]. split; [done|].
    split_and!; [done..|]. by exists t.
  - apply names_of_insert; auto. naive_solver.
Qed.

Lemma apply_mutation_wf st m st' :
  cat_wf st.1 → Cat.apply_mutation st m = Ok st' → cat_wf st'.1.
Proof.
  destruct st as [c ids], m as [t|i]; cbn; intros Hc (c' & Hx & [= <-])%result_bind_Ok; cbn.
  - by eapply create_table_wf.
  - by eapply create_index_wf.
Qed.

Lemma foldM_inv {E A S} (I : S → Prop) (f : S → A → result E S) s l s' :
  (∀ s a s', I s → f s a = Ok s' → I s') → I s → foldM f s l = Ok s' → I s'.
Proof.
  intros Hf. revert s. induction l as [|a l IH]; intros s Hs; cbn; [by intros [= <-]|].
  intros (s1 & H1 & H2)%result_bind_Ok. eauto.
Qed.

Lemma apply_mutations_wf c ms c' ids :
  cat_wf c → Cat.apply_mutations c ms = Ok (c', ids) → cat_wf c'.
Proof.
  intros Hc ([c1 ids1] & Hf & Hx)%result_bind_Ok.
  assert (cat_wf c1) as Hc1.
  { eapply (foldM_inv (λ st, cat_wf st.1) _ (c, []) _ (c1, ids1)); [|done|done].
    intros. by eapply apply_mutation_wf. }
  destruct (is_empty ms); [by simplify_eq|]. apply result_bind_Ok in Hx as (e & _ & Hx).
  simplify_eq. by destruct Hc1.
Qed.

(** Catalog mutations preserve the consistency that a restored catalog is
    checked for: if a catalog passes [Catalog::validate] and the mutations of
    a transaction apply, the new catalog passes it too, so ids and names stay
    in bijection and every index refers to an existing column. *)
Theorem catalog_mutations_validate c ms c' ids :
  Cat.validate c = Ok tt → Cat.apply_mutations c ms = Ok (c', ids) → Cat.validate c' = Ok tt.
Proof.
  intros Hv Ha. assert (cat_wf c') as Hc.
  { eapply apply_mutations_wf; [|done]. apply cat_validate_wf. by rewrite Hv. }
  apply cat_validate_wf in Hc. by destruct (Cat.validate c') as [[]|].
Qed.
