(* ===== verification/EngineTxn.v ===== *)
(** * Transactions: [crates/aster-engine/src/transaction.rs]

    The transaction-private overlay, the attempt that is replicated, and its
    canonical encoding. *)

From S2P Require Import Prelude CoreTypes CoreCodec EngineExpr EngineCatalog.
Import Codec.

Inductive Mutation : Type :=
| Put (row : Row)
| Delete.

Record TxnWrite : Type := mkTxnWrite {
  w_table_id : Z;
  w_primary_key : Value;
  w_mutation : Mutation
}.

Record LogicalKey : Type := mkLogicalKey {
  k_table_id : Z;
  k_primary_key : bytes
}.

#[export] Instance Mutation_eq_dec : EqDecision Mutation.
Proof. solve_decision. Defined.
#[export] Instance TxnWrite_eq_dec : EqDecision TxnWrite.
Proof. solve_decision. Defined.
#[export] Instance LogicalKey_eq_dec : EqDecision LogicalKey.
Proof. solve_decision. Defined.

Definition key_pair (k : LogicalKey) : Z * bytes := (k_table_id k, k_primary_key k).

#[export] Instance LogicalKey_countable : Countable LogicalKey.
Proof.
  refine (inj_countable' key_pair (λ p, mkLogicalKey p.1 p.2) _). by intros [].
Defined.

(** The derived order: table id, then encoded primary key. *)
#[export] Instance compare_LogicalKey : Compare LogicalKey := λ a b, cmp (key_pair a) (key_pair b).

Lemma compare_laws_inj {A K} `{CompareLaws K} (f : A → K) `{!Inj eq eq f} :
  @CompareLaws A (λ a b, cmp (f a) (f b)).
Proof.
  split.
  - intros x y. transitivity (f x = f y); [exact (cmp_eq (K := K) (f x) (f y))|].
    split; [apply (inj f)|by intros ->].
  - intros x y. exact (cmp_antisym (K := K) (f x) (f y)).
  - intros x y z. exact (cmp_lt_trans (K := K) (f x) (f y) (f z)).
Qed.

#[export] Instance key_pair_inj : Inj eq eq key_pair.
Proof. intros [] [] [=]. by subst. Qed.

#[export] Instance compare_laws_LogicalKey : CompareLaws LogicalKey.
Proof. apply (compare_laws_inj key_pair). Qed.

Module Key.

Definition new (table_id : Z) (pk : Value) : result EngineError LogicalKey :=
  _ ← core (encode_value pk);
  Ok {| k_table_id := table_id; k_primary_key := encode_ordered pk |}.

End Key.

Definition logical_key (self : TxnWrite) : result EngineError LogicalKey :=
  Key.new (w_table_id self) (w_primary_key self).

Record Transaction : Type := mkTransaction {
  x_id : Z;
  x_read_ts : Z;
  x_schema_epoch : Z;
  x_writes : gmap LogicalKey TxnWrite;
  x_catalog_mutations : list CatalogMutation
}.

Record TxnAttempt : Type := mkTxnAttempt {
  request : ClientRequestId;
  leader_term : Z;
  a_read_ts : Z;
  a_schema_epoch : Z;
  writes : list TxnWrite;
  catalog_mutations : list CatalogMutation
}.

#[export] Instance TxnAttempt_eq_dec : EqDecision TxnAttempt.
Proof. solve_decision. Defined.

Module Txn.

Definition new (id read_ts schema_epoch : Z) : Transaction :=
  {| x_id := id; x_read_ts := read_ts; x_schema_epoch := schema_epoch;
     x_writes := ∅; x_catalog_mutations := [] |}.

Definition is_read_only (self : Transaction) : bool :=
  bool_decide (x_writes self = ∅) && is_empty (x_catalog_mutations self).

Definition into_attempt (self : Transaction) (request : ClientRequestId) (leader_term : Z)
    : TxnAttempt :=
  {| request := request; leader_term := leader_term;
     a_read_ts := x_read_ts self; a_schema_epoch := x_schema_epoch self;
     writes := (btree_map_iter (x_writes self)).*2;
     catalog_mutations := x_catalog_mutations self |}.

Definition overlay (self : Transaction) (key : LogicalKey) : option Mutation :=
  w_mutation <$> x_writes self !! key.

Definition stage_write (self : Transaction) (write : TxnWrite) : result EngineError Transaction :=
  key ← logical_key write;
  Ok {| x_id := x_id self; x_read_ts := x_read_ts self; x_schema_epoch := x_schema_epoch self;
        x_writes := <[key := write]> (x_writes self);
        x_catalog_mutations := x_catalog_mutations self |}.

Definition stage_catalog (self : Transaction) (mutation : CatalogMutation) : Transaction :=
  {| x_id := x_id self; x_read_ts := x_read_ts self; x_schema_epoch := x_schema_epoch self;
     x_writes := x_writes self;
     x_catalog_mutations :=
       merge_sort (λ a b, cmp_le (sort_key a) (sort_key b))
         (x_catalog_mutations self ++ [mutation]) |}.

Definition staged_table (self : Transaction) (id : Z) : option TableMeta :=
  let fix find_map ms :=
    match ms with
    | [] => None
    | CreateTable t :: ms => if t_id t =? id then Some t else find_map ms
    | CreateIndex _ :: ms => find_map ms
    end in
  find_map (x_catalog_mutations self).

Definition staged_index (self : Transaction) (id : Z) : option IndexMeta :=
  let fix find_map ms :=
    match ms with
    | [] => None
    | CreateIndex i :: ms => if i_id i =? id then Some i else find_map ms
    | CreateTable _ :: ms => find_map ms
    end in
  find_map (x_catalog_mutations self).

End Txn.

(** ** The canonical encoding of an attempt *)

Definition put_u64 (value : Z) : bytes := to_be_bytes 8 value.

Definition put_len (value : Z) : result EngineError bytes :=
  length ← ok_or (u32_try_from value)
             (Core (LimitExceeded "canonical command field is too large"));
  Ok (to_be_bytes 4 length).

Definition put_bytes (value : bytes) : result EngineError bytes :=
  n ← put_len (zlen value); Ok (n ++ value).

Definition put_string (value : string) : result EngineError bytes := put_bytes (as_bytes value).

Definition put_value (value : Value) : result EngineError bytes :=
  encoded ← core (encode_value value); put_bytes encoded.

Definition put_column (column : Column) : result EngineError bytes :=
  name ← put_string (c_name column);
  Ok (name ++ [match c_data_type column with Int64 => 1 | Bool => 2 | Text => 3 | Bytes => 4 end;
               Z.b2z (nullable column); Z.b2z (primary_key column)]).

Definition put_write (write : TxnWrite) : result EngineError bytes :=
  pk ← put_value (w_primary_key write);
  mutation ← match w_mutation write with
             | Put row => encoded ← core (encode_row row); b ← put_bytes encoded; Ok (1 :: b)
             | Delete => Ok [2]
             end;
  Ok (put_u64 (w_table_id write) ++ pk ++ mutation).

Definition put_mutation (m : CatalogMutation) : result EngineError bytes :=
  match m with
  | CreateTable t =>
      name ← put_string (t_name t);
      n ← put_len (zlen (columns (t_schema t)));
      cols ← mapM_result put_column (columns (t_schema t));
      Ok (1 :: put_u64 (t_id t) ++ name ++ n ++ concat cols ++ put_u64 (primary_key_column t))
  | CreateIndex i =>
      name ← put_string (i_name i);
      Ok (2 :: put_u64 (i_id i) ++ name ++ put_u64 (i_table_id i) ++ put_u64 (i_column i))
  end.

(** [b"ASTRTXN\x01"] *)
Definition TXN_MAGIC : bytes := [65; 83; 84; 82; 84; 88; 78; 1].

Module Attempt.

Fixpoint validate_writes (previous : option LogicalKey) (ws : list TxnWrite)
    : result EngineError unit :=
  match ws with
  | [] => Ok tt
  | write :: ws =>
      key ← logical_key write;
      _ ← ensure (negb match previous with
                       | Some prior => bool_decide (cmp_le key prior)
                       | None => false
                       end)
            (InvalidAttempt "writes must be strictly ordered by logical primary key");
      validate_writes (Some key) ws
  end.

(** [windows(2).any(|pair| pair[0].sort_key() >= pair[1].sort_key())] *)
Fixpoint any_unordered (ms : list CatalogMutation) : bool :=
  match ms with
  | a :: (b :: _) as ms => bool_decide (cmp_le (sort_key b) (sort_key a)) || any_unordered ms
  | _ => false
  end.

Definition validate_canonical (self : TxnAttempt) : result EngineError unit :=
  _ ← validate_writes None (writes self);
  ensure (negb (any_unordered (catalog_mutations self)))
    (InvalidAttempt "catalog mutations must have unique canonical ids").

Definition canonical_bytes (self : TxnAttempt) : result EngineError bytes :=
  _ ← validate_canonical self;
  nw ← put_len (zlen (writes self));
  ws ← mapM_result put_write (writes self);
  nm ← put_len (zlen (catalog_mutations self));
  ms ← mapM_result put_mutation (catalog_mutations self);
  Ok (TXN_MAGIC ++ client_id (request self) ++ put_u64 (sequence (request self))
      ++ put_u64 (leader_term self) ++ put_u64 (a_read_ts self) ++ put_u64 (a_schema_epoch self)
      ++ nw ++ concat ws ++ nm ++ concat ms).

Definition command_hash `{Sha256} (self : TxnAttempt) : result EngineError bytes :=
  b ← canonical_bytes self; Ok (sha256 b).

End Attempt.

(** ** The canonical encoding is injective *)

Definition column_ok (c : Column) : Prop := True.

Definition mutation_ok (m : CatalogMutation) : Prop :=
  match m with
  | CreateTable t => u64_ok (t_id t) ∧ u64_ok (primary_key_column t)
  | CreateIndex i => u64_ok (i_id i) ∧ u64_ok (i_table_id i) ∧ u64_ok (i_column i)
  end.

Definition write_ok (w : TxnWrite) : Prop :=
  u64_ok (w_table_id w) ∧ value_ok (w_primary_key w)
  ∧ match w_mutation w with Put row => row_ok row | Delete => True end.

(** The attempts that the types of the source admit. *)
Record attempt_ok (a : TxnAttempt) : Prop := {
  ao_client : length (client_id (request a)) = 16%nat;
  ao_seq : u64_ok (sequence (request a));
  ao_term : u64_ok (leader_term a);
  ao_read : u64_ok (a_read_ts a);
  ao_epoch : u64_ok (a_schema_epoch a);
  ao_writes : Forall write_ok (writes a);
  ao_mutations : Forall mutation_ok (catalog_mutations a)
}.

Lemma put_u64_inj x y r r' :
  u64_ok x → u64_ok y → put_u64 x ++ r = put_u64 y ++ r' → x = y ∧ r = r'.
Proof.
  intros Hx Hy. apply to_be_bytes_inj; change (256 ^ Z.of_nat 8) with 18446744073709551616;
    unfold u64_ok, u64_max in *; lia.
Qed.

Lemma put_len_inj n m x y r r' :
  0 ≤ n → 0 ≤ m → put_len n = Ok x → put_len m = Ok y → x ++ r = y ++ r' → n = m ∧ r = r'.
Proof.
  intros Hn Hm. unfold put_len, u32_try_from.
  destruct (Z.leb_spec n u32_max); [|done]. destruct (Z.leb_spec m u32_max); [|done].
  intros Hx%Ok_inj Hy%Ok_inj. rewrite <- Hx, <- Hy. unfold u32_max in *.
  apply to_be_bytes_inj; change (256 ^ Z.of_nat 4) with 4294967296; lia.
Qed.

Lemma delim_put_bytes : delim (λ _, True) put_bytes.
Proof.
  intros a b x y r r' _ _ (n & Hn & <-%Ok_inj)%result_bind_Ok (m & Hm & <-%Ok_inj)%result_bind_Ok He.
  rewrite <- !app_assoc in He.
  destruct (put_len_inj _ _ _ _ _ _ (zlen_nonneg a) (zlen_nonneg b) Hn Hm He) as [Hl He'].
  by apply app_zlen_inj in He'.
Qed.

Lemma delim_put_string : delim (λ _, True) put_string.
Proof.
  intros a b x y r r' _ _ Hx Hy He.
  destruct (delim_put_bytes _ _ _ _ _ _ I I Hx Hy He) as [Heq ->]. split; [|done]. by apply as_bytes_inj.
Qed.

Lemma core_Ok {A} (r : result CoreError A) a : core r = Ok a ↔ r = Ok a.
Proof. destruct r; cbn; naive_solver. Qed.

Lemma delim_put_value : delim value_ok put_value.
Proof.
  intros a b x y r r' Ha Hb (ea & Hea%core_Ok & Hx)%result_bind_Ok (eb & Heb%core_Ok & Hy)%result_bind_Ok He.
  destruct (delim_put_bytes _ _ _ _ _ _ I I Hx Hy He) as [-> ->]. split; [|done].
  eapply delim_inj; [apply delim_encode_value|done..].
Qed.

Lemma delim_put_column : delim column_ok put_column.
Proof.
  intros a b x y r r' _ _ (na & Hna & <-%Ok_inj)%result_bind_Ok (nb & Hnb & <-%Ok_inj)%result_bind_Ok He.
  rewrite <- !app_assoc in He. destruct (delim_put_string _ _ _ _ _ _ I I Hna Hnb He) as [Hn He'].
  destruct a as [? ta ua pa], b as [? tb ub pb]; cbn in *. injection He' as Ht Hu Hp ->.
  subst. split; [|done]. destruct ta, tb, ua, ub, pa, pb; by cbn in *.
Qed.

Lemma delim_put_write : delim write_ok put_write.
Proof.
  intros a b x y r r' (Ha1 & Ha2 & Ha3) (Hb1 & Hb2 & Hb3)
    (pa & Hpa & (ma & Hma & <-%Ok_inj)%result_bind_Ok)%result_bind_Ok
    (pb & Hpb & (mb & Hmb & <-%Ok_inj)%result_bind_Ok)%result_bind_Ok He.
  rewrite <- !app_assoc in He. apply put_u64_inj in He as [Ht He]; [|done..].
  destruct (delim_put_value _ _ _ _ _ _ Ha2 Hb2 Hpa Hpb He) as [Hp He'].
  destruct a as [? ? [ra|]], b as [? ? [rb|]]; cbn in *; subst.
  - apply result_bind_Ok in Hma as (ea & Hea%core_Ok & (ba & Hba & <-%Ok_inj)%result_bind_Ok).
    apply result_bind_Ok in Hmb as (eb & Heb%core_Ok & (bb & Hbb & <-%Ok_inj)%result_bind_Ok).
    injection He' as He'. destruct (delim_put_bytes _ _ _ _ _ _ I I Hba Hbb He') as [-> ->].
    split; [|done]. by rewrite (encode_row_inj ra rb eb).
  - apply result_bind_Ok in Hma as (ea & _ & (ba & _ & <-%Ok_inj)%result_bind_Ok). by simplify_eq.
  - apply result_bind_Ok in Hmb as (eb & _ & (bb & _ & <-%Ok_inj)%result_bind_Ok). by simplify_eq.
  - by simplify_eq.
Qed.

Lemma delim_put_mutation : delim mutation_ok put_mutation.
Proof.
  intros [ta|ia] [tb|ib] x y r r' Ha Hb Hx Hy He; cbn in Ha, Hb; cbn [put_mutation] in Hx, Hy.
  - apply result_bind_Ok in Hx as (na & Hna & (la & Hla & (ca & Hca & <-%Ok_inj)%result_bind_Ok)%result_bind_Ok).
    apply result_bind_Ok in Hy as (nb & Hnb & (lb & Hlb & (cb & Hcb & <-%Ok_inj)%result_bind_Ok)%result_bind_Ok).
    destruct Ha as [Ha1 Ha2], Hb as [Hb1 Hb2]. rewrite <- !app_comm_cons, <- !app_assoc in He.
    apply (f_equal tail) in He. cbn [tail] in He.
    apply put_u64_inj in He as [Hid He]; [|done..].
    destruct (delim_put_string _ _ _ _ _ _ I I Hna Hnb He) as [Hn He'].
    destruct (put_len_inj _ _ _ _ _ _ (zlen_nonneg _) (zlen_nonneg _) Hla Hlb He') as [Hl He''].
    destruct (delim_mapM column_ok put_column (columns (t_schema ta)) (columns (t_schema tb)) _ _ _ _ delim_put_column
      ltac:(by apply Forall_true) ltac:(by apply Forall_true) ltac:(unfold zlen in Hl; lia) Hca Hcb He'') as [Hc He3].
    apply put_u64_inj in He3 as [Hpk ->]; [|done..]. split; [|done]. f_equal.
    destruct ta as [? ? [] ?], tb as [? ? [] ?]; cbn in *. by subst.
  - apply result_bind_Ok in Hx as (na & Hna & (la & Hla & (ca & Hca & <-%Ok_inj)%result_bind_Ok)%result_bind_Ok).
    by apply result_bind_Ok in Hy as (nb & Hnb & <-%Ok_inj).
  - apply result_bind_Ok in Hy as (nb & Hnb & (lb & Hlb & (cb & Hcb & <-%Ok_inj)%result_bind_Ok)%result_bind_Ok).
    by apply result_bind_Ok in Hx as (na & Hna & <-%Ok_inj).
  - apply result_bind_Ok in Hx as (na & Hna & <-%Ok_inj).
    apply result_bind_Ok in Hy as (nb & Hnb & <-%Ok_inj).
    destruct Ha as (? & ? & ?), Hb as (? & ? & ?). rewrite <- !app_comm_cons, <- !app_assoc in He.
    apply (f_equal tail) in He. cbn [tail] in He.
    apply put_u64_inj in He as [Hid He]; [|done..].
    destruct (delim_put_string _ _ _ _ _ _ I I Hna Hnb He) as [Hn He'].
    apply put_u64_inj in He' as [Ht He']; [|done..]. apply put_u64_inj in He' as [Hc ->]; [|done..].
    split; [|done]. f_equal. destruct ia, ib; cbn in *. by subst.
Qed.

(** The canonical encoding identifies an attempt: two attempts with the
    same canonical bytes are equal, so equal command hashes mean the same
    attempt unless SHA-256 collides. *)
Theorem canonical_bytes_injective a b x :
  attempt_ok a → attempt_ok b →
  Attempt.canonical_bytes a = Ok x → Attempt.canonical_bytes b = Ok x → a = b.
Proof.
  intros [Ha1 Ha2 Ha3 Ha4 Ha5 Ha6 Ha7] [Hb1 Hb2 Hb3 Hb4 Hb5 Hb6 Hb7] Hx Hy.
  unfold Attempt.canonical_bytes in Hx, Hy.
  apply result_bind_Ok in Hx as (_ & _ & (nw & Hnw & (ws & Hws & (nm & Hnm & (ms & Hms & <-%Ok_inj)%result_bind_Ok)
    %result_bind_Ok)%result_bind_Ok)%result_bind_Ok).
  apply result_bind_Ok in Hy as (_ & _ & (nw' & Hnw' & (ws' & Hws' & (nm' & Hnm' & (ms' & Hms' & He%Ok_inj)%result_bind_Ok)
    %result_bind_Ok)%result_bind_Ok)%result_bind_Ok).
  apply app_inj_1 in He as [_ He]; [|done]. apply app_inj_1 in He as [Hc He]; [|congruence].
  apply put_u64_inj in He as [Hs He]; [|done..]. apply put_u64_inj in He as [Ht He]; [|done..].
  apply put_u64_inj in He as [Hr He]; [|done..]. apply put_u64_inj in He as [Hep He]; [|done..].
  destruct (put_len_inj _ _ _ _ _ _ (zlen_nonneg _) (zlen_nonneg _) Hnw' Hnw He) as [Hl1 He1].
  destruct (delim_mapM write_ok put_write (writes b) (writes a) _ _ _ _ delim_put_write Hb6 Ha6
    ltac:(unfold zlen in Hl1; lia) Hws' Hws He1) as [Hw He2].
  rewrite <- (app_nil_r (concat ms)), <- (app_nil_r (concat ms')) in He2.
  destruct (put_len_inj _ _ _ _ _ _ (zlen_nonneg _) (zlen_nonneg _) Hnm' Hnm He2) as [Hl2 He3].
  destruct (delim_mapM mutation_ok put_mutation (catalog_mutations b) (catalog_mutations a) _ _ _ _ delim_put_mutation Hb7 Ha7
    ltac:(unfold zlen in Hl2; lia) Hms' Hms He3) as [Hm _].
  destruct a as [[] ? ? ? ? ?], b as [[] ? ? ? ? ?]; cbn in *. by subst.
Qed.

(** ** Transactions stay canonical *)

Record txn_wf (x : Transaction) : Prop := {
  tw_writes : ∀ k w, x_writes x !! k = Some w → logical_key w = Ok k;
  tw_catalog : StronglySorted (λ a b, cmp_lt (sort_key a) (sort_key b)) (x_catalog_mutations x)
}.

Lemma validate_writes_sorted (l : list (LogicalKey * TxnWrite)) prev :
  Forall (λ p, logical_key p.2 = Ok p.1) l → StronglySorted (λ p q, cmp_lt p.1 q.1) l →
  (∀ k, prev = Some k → Forall (λ p, cmp_lt k p.1) l) →
  Attempt.validate_writes prev l.*2 = Ok tt.
Proof.
  intros Hf Hs. revert prev. induction Hs as [|[k w] l Hs IH Hk]; intros prev Hp; [done|].
  inversion Hf as [|?? Hw Hf']; subst. cbn in Hw. cbn [Attempt.validate_writes fmap list_fmap snd].
  rewrite Hw. cbn [mbind result_bind].
  assert (match prev with Some prior => bool_decide (cmp_le k prior) | None => false end = false) as ->.
  { destruct prev as [k'|]; [|done]. apply bool_decide_eq_false. specialize (Hp _ eq_refl).
    inversion Hp as [|?? Hlt _]; subst. cbn in Hlt. unfold cmp_le, cmp_lt in *. rewrite (cmp_antisym k' k), Hlt. auto. }
  cbn. apply IH; [done|]. by intros ? [= <-].
Qed.

Lemma any_unordered_sorted ms :
  StronglySorted (λ a b, cmp_lt (sort_key a) (sort_key b)) ms → Attempt.any_unordered ms = false.
Proof.
  induction 1 as [|a ms Hs IH Ha]; [done|]. cbn [Attempt.any_unordered].
  destruct ms as [|b ms]; [done|]. inversion Ha as [|?? Hlt _]; subst.
  rewrite bool_decide_false; [done|]. unfold cmp_le, cmp_lt in *.
  rewrite (cmp_antisym (sort_key a) (sort_key b)), Hlt. auto.
Qed.

Lemma into_attempt_canonical x req t :
  txn_wf x → Attempt.validate_canonical (Txn.into_attempt x req t) = Ok tt.
Proof.
  intros [Hw Hc]. unfold Attempt.validate_canonical. cbn [writes catalog_mutations Txn.into_attempt].
  rewrite validate_writes_sorted; [|..|done].
  - cbn. by rewrite any_unordered_sorted.
  - apply Forall_forall. intros [k w] Hp%elem_of_btree_map_iter. by apply Hw.
  - apply btree_map_iter_sorted.
Qed.

Lemma stage_write_wf x w x' : txn_wf x → Txn.stage_write x w = Ok x' → txn_wf x'.
Proof.
  intros [Hw Hc] (k & Hk & <-%Ok_inj)%result_bind_Ok. split; [|done]. cbn.
  intros k' w' [[<- <-]|[_ ?]]%lookup_insert_Some; auto.
Qed.

Lemma stage_catalog_wf x m :
  txn_wf x → Forall (λ m', sort_key m' ≠ sort_key m) (x_catalog_mutations x) →
  txn_wf (Txn.stage_catalog x m).
Proof.
  intros [Hw Hc] Hf. split; [done|]. cbn. apply strongly_sorted_strict.
  - rewrite (fmap_Permutation sort_key _ _ (merge_sort_Permutation _ _)), fmap_app. cbn.
    apply NoDup_app. split_and!; [| |apply NoDup_singleton].
    + clear Hf. induction Hc as [|a l Hs IH Ha]; [constructor|]. cbn. constructor; [|done].
      intros (b & Hb & Hin)%list_elem_of_fmap. rewrite Forall_forall in Ha. specialize (Ha b Hin).
      rewrite Hb in Ha. by apply cmp_lt_irrefl in Ha.
    + intros k (b & Hk & Hin)%list_elem_of_fmap Hk'%list_elem_of_singleton.
      rewrite Forall_forall in Hf. apply (Hf b Hin). congruence.
  - apply StronglySorted_merge_sort.
    + intros a b c. apply cmp_le_transitive.
    + intros a b. apply cmp_le_total.
Qed.
