(* ===== verification/EngineState.v ===== *)
(** * The transaction engine: [crates/aster-engine/src/engine.rs]

    Version chains are kept newest first.  A method that takes [&mut self]
    and can fail returns the new engine only on success: the source returns
    every error before its first write. *)

From S2P Require Import Prelude CoreTypes CoreCodec EngineExpr EngineCatalog EngineTxn.
Import Codec.

Definition SNAPSHOT_FORMAT : Z := 2.

Inductive AbortReason : Type :=
| WriteConflict (table_id : Z) (pk : Value) (winning_commit : Z)
| SchemaChanged (expected actual : Z)
| SnapshotVacuumed (read_ts retained_floor : Z)
| Validation (reason : string).

Inductive CommitResult : Type :=
| Committed (commit_index affected_rows schema_epoch : Z)
| Aborted (abort_index : Z) (reason : AbortReason).

Inductive RequestRejection : Type :=
| FirstSequenceMustBeOne (actual : Z)
| SequenceGap (expected actual : Z)
| SequenceTooOld (latest actual : Z)
| SequenceHashMismatch (sequence : Z).

Inductive ApplyOutcome : Type :=
| Applied (r : CommitResult)
| Duplicate (r : CommitResult)
| Rejected (r : RequestRejection)
| NoopOutcome.

Record ClientRecord : Type := mkClientRecord {
  r_sequence : Z;
  r_request_hash : bytes;
  r_result : CommitResult
}.

Record EngineStats : Type := mkStats {
  committed_transactions : Z;
  aborted_transactions : Z;
  duplicate_requests : Z;
  rejected_requests : Z;
  primary_versions : Z;
  secondary_versions : Z;
  vacuumed_primary_versions : Z;
  vacuumed_secondary_versions : Z
}.

Record VacuumReport : Type := mkVacuumReport {
  v_previous_floor : Z;
  v_retained_floor : Z;
  primary_versions_removed : Z;
  secondary_versions_removed : Z;
  empty_primary_chains_removed : Z;
  empty_secondary_chains_removed : Z
}.

Record RowVersion : Type := mkRowVersion {
  rv_commit : Z;
  rv_row : option Row
}.

Record SecondaryKey : Type := mkSecondaryKey {
  s_index_id : Z;
  s_value : bytes;
  s_primary_key : bytes
}.

Record SecondaryVersion : Type := mkSecondaryVersion {
  sv_commit : Z;
  sv_present : bool
}.

#[export] Instance AbortReason_eq_dec : EqDecision AbortReason.
Proof. solve_decision. Defined.
#[export] Instance CommitResult_eq_dec : EqDecision CommitResult.
Proof. solve_decision. Defined.
#[export] Instance RequestRejection_eq_dec : EqDecision RequestRejection.
Proof. solve_decision. Defined.
#[export] Instance ApplyOutcome_eq_dec : EqDecision ApplyOutcome.
Proof. solve_decision. Defined.
#[export] Instance ClientRecord_eq_dec : EqDecision ClientRecord.
Proof. solve_decision. Defined.
#[export] Instance RowVersion_eq_dec : EqDecision RowVersion.
Proof. solve_decision. Defined.
#[export] Instance SecondaryVersion_eq_dec : EqDecision SecondaryVersion.
Proof. solve_decision. Defined.
#[export] Instance SecondaryKey_eq_dec : EqDecision SecondaryKey.
Proof. solve_decision. Defined.

Definition secondary_triple (k : SecondaryKey) : Z * (bytes * bytes) :=
  (s_index_id k, (s_value k, s_primary_key k)).

#[export] Instance SecondaryKey_countable : Countable SecondaryKey.
Proof.
  refine (inj_countable' secondary_triple (λ p, mkSecondaryKey p.1 p.2.1 p.2.2) _). by intros [].
Defined.

#[export] Instance secondary_triple_inj : Inj eq eq secondary_triple.
Proof. intros [] [] [=]. by subst. Qed.

#[export] Instance compare_SecondaryKey : Compare SecondaryKey := λ a b,
  cmp (secondary_triple a) (secondary_triple b).

#[export] Instance compare_laws_SecondaryKey : CompareLaws SecondaryKey.
Proof. apply (compare_laws_inj secondary_triple). Qed.

Definition EngineStats_default : EngineStats := mkStats 0 0 0 0 0 0 0 0.

Record Engine : Type := mkEngine {
  catalog : Catalog;
  primary : gmap LogicalKey (list RowVersion);
  secondary : gmap SecondaryKey (list SecondaryVersion);
  clients : gmap bytes ClientRecord;
  last_applied : Z;
  last_apply_hash : option bytes;
  last_apply_outcome : option ApplyOutcome;
  retained_floor : Z;
  next_txn_id : Z;
  stats : EngineStats
}.

Definition Engine_default : Engine :=
  {| catalog := Catalog_default; primary := ∅; secondary := ∅; clients := ∅; last_applied := 0;
     last_apply_hash := None; last_apply_outcome := None; retained_floor := 0; next_txn_id := 1;
     stats := EngineStats_default |}.

(** ** Field assignment *)

Definition set_catalog v e := mkEngine v (primary e) (secondary e) (clients e) (last_applied e)
  (last_apply_hash e) (last_apply_outcome e) (retained_floor e) (next_txn_id e) (stats e).
Definition set_primary v e := mkEngine (catalog e) v (secondary e) (clients e) (last_applied e)
  (last_apply_hash e) (last_apply_outcome e) (retained_floor e) (next_txn_id e) (stats e).
Definition set_secondary v e := mkEngine (catalog e) (primary e) v (clients e) (last_applied e)
  (last_apply_hash e) (last_apply_outcome e) (retained_floor e) (next_txn_id e) (stats e).
Definition set_clients v e := mkEngine (catalog e) (primary e) (secondary e) v (last_applied e)
  (last_apply_hash e) (last_apply_outcome e) (retained_floor e) (next_txn_id e) (stats e).
Definition set_applied i h o e := mkEngine (catalog e) (primary e) (secondary e) (clients e) i h o
  (retained_floor e) (next_txn_id e) (stats e).
Definition set_floor v e := mkEngine (catalog e) (primary e) (secondary e) (clients e)
  (last_applied e) (last_apply_hash e) (last_apply_outcome e) v (next_txn_id e) (stats e).
Definition set_next_txn_id v e := mkEngine (catalog e) (primary e) (secondary e) (clients e)
  (last_applied e) (last_apply_hash e) (last_apply_outcome e) (retained_floor e) v (stats e).
Definition set_stats v e := mkEngine (catalog e) (primary e) (secondary e) (clients e)
  (last_applied e) (last_apply_hash e) (last_apply_outcome e) (retained_floor e) (next_txn_id e) v.

Definition bump_committed (s : EngineStats) : EngineStats :=
  mkStats (saturating_add (committed_transactions s) 1) (aborted_transactions s)
    (duplicate_requests s) (rejected_requests s) (primary_versions s) (secondary_versions s)
    (vacuumed_primary_versions s) (vacuumed_secondary_versions s).
Definition bump_aborted (s : EngineStats) : EngineStats :=
  mkStats (committed_transactions s) (saturating_add (aborted_transactions s) 1)
    (duplicate_requests s) (rejected_requests s) (primary_versions s) (secondary_versions s)
    (vacuumed_primary_versions s) (vacuumed_secondary_versions s).
Definition bump_duplicate (s : EngineStats) : EngineStats :=
  mkStats (committed_transactions s) (aborted_transactions s)
    (saturating_add (duplicate_requests s) 1) (rejected_requests s) (primary_versions s)
    (secondary_versions s) (vacuumed_primary_versions s) (vacuumed_secondary_versions s).
Definition bump_rejected (s : EngineStats) : EngineStats :=
  mkStats (committed_transactions s) (aborted_transactions s) (duplicate_requests s)
    (saturating_add (rejected_requests s) 1) (primary_versions s) (secondary_versions s)
    (vacuumed_primary_versions s) (vacuumed_secondary_versions s).

(** ** Version chains *)

Definition visible_row (versions : list RowVersion) (read_ts : Z) : option Row :=
  version ← List.find (λ version, rv_commit version <=? read_ts) versions;
  rv_row version.

Definition visible_secondary (versions : list SecondaryVersion) (read_ts : Z) : bool :=
  match List.find (λ version, sv_commit version <=? read_ts) versions with
  | Some version => sv_present version
  | None => false
  end.

Definition total_versions {K V} `{Countable K} (m : gmap K (list V)) : Z :=
  foldr (λ l acc, zlen l + acc) 0 (map_to_list m).*2.

Fixpoint take_while {A} (p : A → bool) (l : list A) : list A :=
  match l with
  | [] => []
  | x :: l => if p x then x :: take_while p l else []
  end.

Definition vacuum_rows (versions : list RowVersion) (floor : Z) : list RowVersion :=
  take_while (λ version, floor <? rv_commit version) versions
  ++ match List.find (λ version, rv_commit version <=? floor) versions with
     | Some baseline => if bool_decide (is_Some (rv_row baseline)) then [baseline] else []
     | None => []
     end.

Definition vacuum_secondary (versions : list SecondaryVersion) (floor : Z)
    : list SecondaryVersion :=
  take_while (λ version, floor <? sv_commit version) versions
  ++ match List.find (λ version, sv_commit version <=? floor) versions with
     | Some baseline => if sv_present baseline then [baseline] else []
     | None => []
     end.

(** [windows(2).any(|pair| pair[0] <= pair[1])] on the commit indexes. *)
Fixpoint any_ascending (l : list Z) : bool :=
  match l with
  | a :: (b :: _) as l => (a <=? b) || any_ascending l
  | _ => false
  end.

Definition bad_chain (commits : list Z) (last_applied : Z) : bool :=
  is_empty commits || any_ascending commits
  || existsb (λ c, (c =? 0) || (last_applied <? c)) commits.

Definition validate_row_versions (versions : list RowVersion) (last_applied : Z)
    : result EngineError unit :=
  ensure (negb (bad_chain (rv_commit <$> versions) last_applied))
    (InvalidSnapshot "primary version chain is empty, unordered, or out of range").

Definition validate_secondary_versions (versions : list SecondaryVersion) (last_applied : Z)
    : result EngineError unit :=
  ensure (negb (bad_chain (sv_commit <$> versions) last_applied))
    (InvalidSnapshot "secondary version chain is empty, unordered, or out of range").

Definition refresh_version_stats (self : Engine) : Engine :=
  let s := stats self in
  set_stats (mkStats (committed_transactions s) (aborted_transactions s) (duplicate_requests s)
    (rejected_requests s) (total_versions (primary self)) (total_versions (secondary self))
    (vacuumed_primary_versions s) (vacuumed_secondary_versions s)) self.

Definition display_value (value : Value) : string :=
  match value with
  | VNull => "NULL"
  | VInt64 value => pretty value
  | VBool true => "true"
  | VBool false => "false"
  | VText value => "'" +:+ value +:+ "'"
  | VBytes value => "<" +:+ pretty (zlen value) +:+ " bytes>"
  end.

(** ** Reading *)

Definition ensure_transaction_snapshot (self : Engine) (x : Transaction)
    : result EngineError unit :=
  _ ← ensure (negb (x_read_ts x <? retained_floor self))
        (SnapshotTooOld (x_read_ts x) (retained_floor self));
  ensure (negb (last_applied self <? x_read_ts x))
    (Core (Invariant "transaction reads a future snapshot")).

Definition table_for_transaction (self : Engine) (x : Transaction) (table_id : Z)
    : result EngineError TableMeta :=
  ok_or (match Txn.staged_table x table_id with
         | Some t => Some t
         | None => Cat.table (catalog self) table_id
         end) (UnknownTable table_id).

(** [table.schema.columns[table.primary_key_column]], in range for every
    table that passed [TableMeta::validate]. *)
Definition primary_column_type (table : TableMeta) : option DataType :=
  c_data_type <$> znth (columns (t_schema table)) (primary_key_column table).

Definition key_type_ok (table : TableMeta) (pk : Value) : bool :=
  negb (is_null pk)
  && match primary_column_type table with
     | Some t => bool_decide (data_type pk = Some t)
     | None => false
     end.

Definition validate_primary_key (self : Engine) (x : Transaction) (table_id : Z) (pk : Value)
    : result EngineError unit :=
  table ← table_for_transaction self x table_id;
  _ ← ensure (key_type_ok table pk)
        (Core (TypeError ("primary key for `" +:+ t_name table +:+ "` expects "
           +:+ match primary_column_type table with
               | Some t => DataType_to_string t
               | None => ""
               end
           +:+ ", got " +:+ type_name pk)));
  _ ← core (encode_value pk);
  Ok tt.

Definition validate_row (self : Engine) (x : Transaction) (table_id : Z) (row : Row)
    : result EngineError Value :=
  _ ← ensure_transaction_snapshot self x;
  table ← table_for_transaction self x table_id;
  _ ← core (SchemaOps.validate_row (t_schema table) row);
  let pk := default VNull (znth (values row) (primary_key_column table)) in
  _ ← validate_primary_key self x table_id pk;
  Ok pk.

Definition read_key (self : Engine) (x : Transaction) (key : LogicalKey) : option Row :=
  match Txn.overlay x key with
  | Some (Put row) => Some row
  | Some Delete => None
  | None => versions ← primary self !! key; visible_row versions (x_read_ts x)
  end.

Definition get (self : Engine) (x : Transaction) (table_id : Z) (pk : Value)
    : result EngineError (option Row) :=
  _ ← ensure_transaction_snapshot self x;
  _ ← validate_primary_key self x table_id pk;
  key ← Key.new table_id pk;
  Ok (read_key self x key).

Definition keys_of_writes (x : Transaction) (table_id : Z) : gset LogicalKey :=
  filter (λ key, k_table_id key = table_id) (dom (x_writes x)).

Definition scan_table (self : Engine) (x : Transaction) (table_id : Z)
    : result EngineError (list Row) :=
  _ ← ensure_transaction_snapshot self x;
  _ ← table_for_transaction self x table_id;
  let keys := filter (λ key, k_table_id key = table_id) (dom (primary self))
              ∪ keys_of_writes x table_id in
  Ok (omap (read_key self x) (btree_set_iter keys)).

(** The primary keys an index holds for a value at a timestamp. *)
Definition index_hits (self : Engine) (index_id table_id : Z) (encoded_value : bytes) (read_ts : Z)
    : gset LogicalKey :=
  list_to_set (omap (λ p : SecondaryKey * list SecondaryVersion,
    let '(key, versions) := p in
    if (s_index_id key =? index_id) && bool_decide (s_value key = encoded_value)
       && visible_secondary versions read_ts
    then Some {| k_table_id := table_id; k_primary_key := s_primary_key key |}
    else None) (btree_map_iter (secondary self))).

Definition row_matches (index : IndexMeta) (value : Value) (row : Row) : bool :=
  bool_decide (znth (values row) (i_column index) = Some value).

Definition scan_secondary (self : Engine) (x : Transaction) (index_id : Z) (value : Value)
    : result EngineError (list Row) :=
  _ ← ensure_transaction_snapshot self x;
  index ← ok_or (match Cat.index (catalog self) index_id with
                 | Some i => Some i
                 | None => Txn.staged_index x index_id
                 end) (UnknownIndex index_id);
  if is_null value then Ok []
  else
    _ ← core (encode_value value);
    let keys := index_hits self index_id (i_table_id index) (encode_ordered value) (x_read_ts x)
                ∪ keys_of_writes x (i_table_id index) in
    Ok (List.filter (row_matches index value) (omap (read_key self x) (btree_set_iter keys))).

(** ** Beginning and staging *)

Definition begin_at (self : Engine) (read_ts schema_epoch : Z)
    : result EngineError (Engine * Transaction) :=
  _ ← ensure (negb (read_ts <? retained_floor self))
        (SnapshotTooOld read_ts (retained_floor self));
  _ ← ensure (negb (last_applied self <? read_ts))
        (Core (Constraint ("snapshot " +:+ pretty read_ts +:+ " is ahead of applied index "
                           +:+ pretty (last_applied self))));
  _ ← ensure (negb (c_schema_epoch (catalog self) <? schema_epoch))
        (Core (Constraint ("schema epoch " +:+ pretty schema_epoch
           +:+ " is ahead of current epoch " +:+ pretty (c_schema_epoch (catalog self)))));
  next ← ok_or (checked_add (next_txn_id self) 1)
           (Core (Invariant "transaction id overflow"));
  Ok (set_next_txn_id next self, Txn.new (next_txn_id self) read_ts schema_epoch).

Definition begin (self : Engine) : result EngineError (Engine * Transaction) :=
  begin_at self (last_applied self) (c_schema_epoch (catalog self)).

Definition prepare_transaction (self : Engine) : result EngineError Transaction :=
  _ ← ensure (negb (last_applied self <? retained_floor self))
        (SnapshotTooOld (last_applied self) (retained_floor self));
  Ok (Txn.new 0 (last_applied self) (c_schema_epoch (catalog self))).

(** [while staged(id).is_some() { id = id.checked_add(1)? }]; every turn
    passes one staged id, so one turn per staged mutation exhausts it. *)
Fixpoint skip_staged (fuel : nat) (staged : Z → bool) (id : Z) (overflow : EngineError)
    : result EngineError Z :=
  match fuel with
  | O => Ok id
  | S fuel =>
      if staged id then
        id ← ok_or (checked_add id 1) overflow;
        skip_staged fuel staged id overflow
      else Ok id
  end.

Definition create_table (self : Engine) (x : Transaction) (name : string) (schema : Schema)
    : result EngineError (Transaction * Z) :=
  _ ← ensure_transaction_snapshot self x;
  id ← skip_staged (length (x_catalog_mutations x))
         (λ id, bool_decide (is_Some (Txn.staged_table x id)))
         (Cat.next_table_id (catalog self)) (Core (Invariant "table id overflow"));
  table ← Table.new id name schema;
  _ ← ensure (negb (bool_decide (is_Some (Cat.table_named (catalog self) (t_name table)))
                    || existsb (λ m, match m with
                                     | CreateTable t => eq_ignore_ascii_case (t_name t) (t_name table)
                                     | CreateIndex _ => false
                                     end) (x_catalog_mutations x)))
        (Core (Constraint ("table `" +:+ t_name table +:+ "` already exists")));
  Ok (Txn.stage_catalog x (CreateTable table), id).

Definition create_index (self : Engine) (x : Transaction) (name : string) (table_id column : Z)
    : result EngineError (Transaction * Z) :=
  _ ← ensure_transaction_snapshot self x;
  table ← table_for_transaction self x table_id;
  id ← skip_staged (length (x_catalog_mutations x))
         (λ id, bool_decide (is_Some (Txn.staged_index x id)))
         (Cat.next_index_id (catalog self)) (Core (Invariant "index id overflow"));
  index ← Index.new id name table column;
  _ ← ensure (negb (bool_decide (is_Some (Cat.index_named (catalog self) (i_name index)))
                    || existsb (λ m, match m with
                                     | CreateIndex i => eq_ignore_ascii_case (i_name i) (i_name index)
                                     | CreateTable _ => false
                                     end) (x_catalog_mutations x)))
        (Core (Constraint ("index `" +:+ i_name index +:+ "` already exists")));
  Ok (Txn.stage_catalog x (CreateIndex index), id).

Definition insert_row (self : Engine) (x : Transaction) (table_id : Z) (row : Row)
    : result EngineError Transaction :=
  pk ← validate_row self x table_id row;
  existing ← get self x table_id pk;
  _ ← ensure (negb (bool_decide (is_Some existing)))
        (Core (Constraint ("duplicate primary key " +:+ display_value pk)));
  Txn.stage_write x {| w_table_id := table_id; w_primary_key := pk; w_mutation := Put row |}.

Definition upsert (self : Engine) (x : Transaction) (table_id : Z) (row : Row)
    : result EngineError Transaction :=
  pk ← validate_row self x table_id row;
  Txn.stage_write x {| w_table_id := table_id; w_primary_key := pk; w_mutation := Put row |}.

Definition update (self : Engine) (x : Transaction) (table_id : Z) (pk : Value) (row : Row)
    : result EngineError (Transaction * bool) :=
  existing ← get self x table_id pk;
  match existing with
  | None => Ok (x, false)
  | Some _ =>
      row_key ← validate_row self x table_id row;
      _ ← ensure (bool_decide (row_key = pk))
            (Core (Constraint "UPDATE cannot change the primary-key column"));
      x ← Txn.stage_write x {| w_table_id := table_id; w_primary_key := pk;
                               w_mutation := Put row |};
      Ok (x, true)
  end.

Definition delete_row (self : Engine) (x : Transaction) (table_id : Z) (pk : Value)
    : result EngineError (Transaction * bool) :=
  existing ← get self x table_id pk;
  match existing with
  | None => Ok (x, false)
  | Some _ =>
      x ← Txn.stage_write x {| w_table_id := table_id; w_primary_key := pk; w_mutation := Delete |};
      Ok (x, true)
  end.

(** ** Applying replicated entries *)

Inductive Admission : Type :=
| AdmitNew
| AdmitDuplicate (r : CommitResult)
| AdmitRejected (r : RequestRejection).

Definition admit_request (self : Engine) (request : ClientRequestId) (hash : bytes) : Admission :=
  match clients self !! client_id request with
  | None =>
      if sequence request =? 1 then AdmitNew
      else AdmitRejected (FirstSequenceMustBeOne (sequence request))
  | Some record =>
      match sequence request ?= r_sequence record with
      | Lt => AdmitRejected (SequenceTooOld (r_sequence record) (sequence request))
      | Eq =>
          if bool_decide (hash = r_request_hash record) then AdmitDuplicate (r_result record)
          else AdmitRejected (SequenceHashMismatch (sequence request))
      | Gt =>
          if sequence request =? saturating_add (r_sequence record) 1 then AdmitNew
          else AdmitRejected (SequenceGap (saturating_add (r_sequence record) 1) (sequence request))
      end
  end.

Definition validation {A} (r : result EngineError A) : result AbortReason A :=
  map_err (λ e, Validation (EngineError_to_string e)) r.

(** The newest version of a key, when it is newer than the snapshot. *)
Definition winning_commit (self : Engine) (key : LogicalKey) (read_ts : Z) : option Z :=
  versions ← primary self !! key;
  version ← head versions;
  if read_ts <? rv_commit version then Some (rv_commit version) else None.

Definition validate_write (self : Engine) (next_catalog : Catalog) (read_ts : Z)
    (write : TxnWrite) : result AbortReason unit :=
  table ← ok_or (Cat.table next_catalog (w_table_id write))
            (Validation ("unknown table " +:+ pretty (w_table_id write)));
  _ ← ensure (key_type_ok table (w_primary_key write))
        (Validation ("invalid primary key for table `" +:+ t_name table +:+ "`"));
  _ ← match w_mutation write with
      | Put row =>
          _ ← validation (core (SchemaOps.validate_row (t_schema table) row));
          ensure (bool_decide (znth (values row) (primary_key_column table)
                               = Some (w_primary_key write)))
            (Validation ("row primary key differs from write key in table `"
                         +:+ t_name table +:+ "`"))
      | Delete => Ok tt
      end;
  key ← validation (logical_key write);
  match winning_commit self key read_ts with
  | Some winning => Err (WriteConflict (w_table_id write) (w_primary_key write) winning)
  | None => Ok tt
  end.

Definition validate_attempt_for_apply (self : Engine) (attempt : TxnAttempt)
    : result AbortReason (Catalog * list IndexMeta) :=
  _ ← ensure (negb (a_read_ts attempt <? retained_floor self))
        (SnapshotVacuumed (a_read_ts attempt) (retained_floor self));
  _ ← ensure (negb (last_applied self <? a_read_ts attempt))
        (Validation ("read timestamp " +:+ pretty (a_read_ts attempt)
                     +:+ " is ahead of applied index " +:+ pretty (last_applied self)));
  _ ← ensure (a_schema_epoch attempt =? c_schema_epoch (catalog self))
        (SchemaChanged (a_schema_epoch attempt) (c_schema_epoch (catalog self)));
  _ ← validation (Attempt.validate_canonical attempt);
  '(next_catalog, new_index_ids) ←
    validation (Cat.apply_mutations (catalog self) (catalog_mutations attempt));
  new_indexes ← mapM_result (λ index_id,
    ok_or (Cat.index next_catalog index_id)
      (Validation ("catalog mutation returned missing index " +:+ pretty index_id)))
    new_index_ids;
  _ ← mapM_result (validate_write self next_catalog (a_read_ts attempt)) (writes attempt);
  Ok (next_catalog, new_indexes).

Definition push_secondary (self : Engine) (index_id : Z) (value : Value) (pk : LogicalKey)
    (commit_index : Z) (present : bool) : Engine :=
  let key := {| s_index_id := index_id; s_value := encode_ordered value;
                s_primary_key := k_primary_key pk |} in
  set_secondary (<[key := {| sv_commit := commit_index; sv_present := present |}
                          :: default [] (secondary self !! key)]> (secondary self)) self.

Definition column_value (index : IndexMeta) (row : option Row) : option Value :=
  r ← row; znth (values r) (i_column index).

Definition not_null (v : option Value) : option Value :=
  match v with Some v => if is_null v then None else Some v | None => None end.

Definition update_secondary (self : Engine) (index : IndexMeta) (pk : LogicalKey)
    (old_row new_row : option Row) (commit_index : Z) : Engine :=
  let old_value := column_value index old_row in
  let new_value := column_value index new_row in
  if decide (old_value = new_value) then self
  else
    let self := match not_null old_value with
                | Some value => push_secondary self (i_id index) value pk commit_index false
                | None => self
                end in
    match not_null new_value with
    | Some value => push_secondary self (i_id index) value pk commit_index true
    | None => self
    end.

Definition backfill_index (self : Engine) (index : IndexMeta) (commit_index : Z) : Engine :=
  let entries := omap (λ p : LogicalKey * list RowVersion,
    let '(key, versions) := p in
    if k_table_id key =? i_table_id index then
      v ← not_null (column_value index (visible_row versions commit_index));
      Some (key, v)
    else None) (btree_map_iter (primary self)) in
  foldl (λ self '(key, value), push_secondary self (i_id index) value key commit_index true)
    self entries.

Definition new_row_of (m : Mutation) : option Row :=
  match m with Put row => Some row | Delete => None end.

(** One turn of the loop over the writes. *)
Definition apply_write (indexes_for : Z → list IndexMeta) (commit_index : Z) (self : Engine)
    (p : TxnWrite * (LogicalKey * option Row)) : Engine :=
  let '(write, (key, old_row)) := p in
  let new_row := new_row_of (w_mutation write) in
  let self := foldl (λ self index, update_secondary self index key old_row new_row commit_index)
                self (indexes_for (w_table_id write)) in
  set_primary (<[key := {| rv_commit := commit_index; rv_row := new_row |}
                        :: default [] (primary self !! key)]> (primary self)) self.

Definition before_row (self : Engine) (write : TxnWrite)
    : result EngineError (LogicalKey * option Row) :=
  key ← logical_key write;
  Ok (key, versions ← primary self !! key; visible_row versions (last_applied self)).

Definition evaluate_and_apply (self : Engine) (index : Z) (attempt : TxnAttempt)
    : Engine * CommitResult :=
  let abort reason := (set_stats (bump_aborted (stats self)) self, Aborted index reason) in
  match validate_attempt_for_apply self attempt with
  | Err reason => abort reason
  | Ok (next_catalog, new_indexes) =>
      let previous_catalog := catalog self in
      match mapM_result (before_row self) (writes attempt) with
      | Err error => abort (Validation (EngineError_to_string error))
      | Ok before_rows =>
          let self := set_catalog next_catalog self in
          let self := foldl (apply_write (Cat.indexes_for_table previous_catalog) index) self
                        (zip (writes attempt) before_rows) in
          let self := foldl (λ self new_index, backfill_index self new_index index) self
                        new_indexes in
          let self := set_stats (bump_committed (stats self)) self in
          let self := refresh_version_stats self in
          (self, Committed index (zlen (writes attempt)) (c_schema_epoch (catalog self)))
      end
  end.

Definition apply_with_request_hash (self : Engine) (index : Z) (apply_hash request_hash : bytes)
    (attempt : TxnAttempt) : result EngineError (Engine * ApplyOutcome) :=
  _ ← Attempt.validate_canonical attempt;
  if index =? last_applied self then
    _ ← ensure (bool_decide (last_apply_hash self = Some apply_hash)) (ApplyHashMismatch index);
    outcome ← ok_or (last_apply_outcome self)
                (InvalidSnapshot "last apply outcome is missing");
    Ok (self, outcome)
  else
    expected ← ok_or (checked_add (last_applied self) 1)
                 (Core (Invariant "applied index overflow"));
    _ ← ensure (index =? expected) (ApplyGap expected index);
    let '(self, outcome) :=
      match admit_request self (request attempt) request_hash with
      | AdmitNew =>
          let '(self, result) := evaluate_and_apply self index attempt in
          (set_clients (<[client_id (request attempt) := {|
             r_sequence := sequence (request attempt);
             r_request_hash := request_hash;
             r_result := result |}]> (clients self)) self, Applied result)
      | AdmitDuplicate result =>
          (set_stats (bump_duplicate (stats self)) self, Duplicate result)
      | AdmitRejected rejection =>
          (set_stats (bump_rejected (stats self)) self, Rejected rejection)
      end in
    Ok (set_applied index (Some apply_hash) (Some outcome) self, outcome).

Definition apply `{Sha256} (self : Engine) (index : Z) (command_hash : bytes)
    (attempt : TxnAttempt) : result EngineError (Engine * ApplyOutcome) :=
  h ← Attempt.command_hash attempt;
  _ ← ensure (bool_decide (h = command_hash)) CommandHashMismatch;
  apply_with_request_hash self index command_hash command_hash attempt.

Definition apply_noop (self : Engine) (index : Z) (entry_hash : bytes)
    : result EngineError (Engine * ApplyOutcome) :=
  if index =? last_applied self then
    _ ← ensure (bool_decide (last_apply_hash self = Some entry_hash)
                && bool_decide (last_apply_outcome self = Some NoopOutcome))
          (ApplyHashMismatch index);
    Ok (self, NoopOutcome)
  else
    expected ← ok_or (checked_add (last_applied self) 1)
                 (Core (Invariant "applied index overflow"));
    _ ← ensure (index =? expected) (ApplyGap expected index);
    Ok (set_applied index (Some entry_hash) (Some NoopOutcome) self, NoopOutcome).

(** ** Vacuum *)

Definition non_empty {A} (l : list A) : Prop := l ≠ [].

Definition vacuum_offline (self : Engine) (retain_from : Z)
    : result EngineError (Engine * VacuumReport) :=
  _ ← ensure (negb (last_applied self <? retain_from))
        (Core (Constraint ("vacuum floor " +:+ pretty retain_from +:+ " is ahead of applied index "
                           +:+ pretty (last_applied self))));
  let previous_floor := retained_floor self in
  let floor := Z.max retain_from previous_floor in
  let primary' := filter (λ p, non_empty p.2) ((λ vs, vacuum_rows vs floor) <$> primary self) in
  let secondary' :=
    filter (λ p, non_empty p.2) ((λ vs, vacuum_secondary vs floor) <$> secondary self) in
  let primary_removed := total_versions (primary self) - total_versions primary' in
  let secondary_removed := total_versions (secondary self) - total_versions secondary' in
  let report := {| v_previous_floor := previous_floor; v_retained_floor := floor;
    primary_versions_removed := primary_removed;
    secondary_versions_removed := secondary_removed;
    empty_primary_chains_removed := Z.of_nat (size (primary self)) - Z.of_nat (size primary');
    empty_secondary_chains_removed :=
      Z.of_nat (size (secondary self)) - Z.of_nat (size secondary') |} in
  let s := stats self in
  let s := mkStats (committed_transactions s) (aborted_transactions s) (duplicate_requests s)
    (rejected_requests s) (primary_versions s) (secondary_versions s)
    (saturating_add (vacuumed_primary_versions s) primary_removed)
    (saturating_add (vacuumed_secondary_versions s) secondary_removed) in
  Ok (refresh_version_stats (set_stats s (set_floor floor
        (set_secondary secondary' (set_primary primary' self)))), report).

(** ** Snapshots *)

Record PrimarySnapshotEntry : Type := mkPrimaryEntry {
  pe_table_id : Z;
  pe_primary_key : bytes;
  pe_versions : list RowVersion
}.

Record SecondarySnapshotEntry : Type := mkSecondaryEntry {
  se_key : SecondaryKey;
  se_versions : list SecondaryVersion
}.

Record ClientSnapshotEntry : Type := mkClientEntry {
  ce_client_id : bytes;
  ce_record : ClientRecord
}.

Record EngineSnapshot : Type := mkEngineSnapshot {
  f_format : Z;
  f_catalog : Catalog;
  f_primary : list PrimarySnapshotEntry;
  f_secondary : list SecondarySnapshotEntry;
  f_clients : list ClientSnapshotEntry;
  f_last_applied : Z;
  f_last_apply_hash : option bytes;
  f_last_apply_outcome : option ApplyOutcome;
  f_retained_floor : Z;
  f_next_txn_id : Z;
  f_stats : EngineStats
}.

Definition snapshot (self : Engine) : EngineSnapshot :=
  {| f_format := SNAPSHOT_FORMAT;
     f_catalog := catalog self;
     f_primary := (λ p, mkPrimaryEntry (k_table_id p.1) (k_primary_key p.1) p.2)
                    <$> btree_map_iter (primary self);
     f_secondary := (λ p, mkSecondaryEntry p.1 p.2) <$> btree_map_iter (secondary self);
     f_clients := (λ p, mkClientEntry p.1 p.2) <$> btree_map_iter (clients self);
     f_last_applied := last_applied self;
     f_last_apply_hash := last_apply_hash self;
     f_last_apply_outcome := last_apply_outcome self;
     f_retained_floor := retained_floor self;
     f_next_txn_id := next_txn_id self;
     f_stats := stats self |}.

Definition load_primary (last_applied : Z) (m : gmap LogicalKey (list RowVersion))
    (entry : PrimarySnapshotEntry) : result EngineError (gmap LogicalKey (list RowVersion)) :=
  _ ← validate_row_versions (pe_versions entry) last_applied;
  let key := {| k_table_id := pe_table_id entry; k_primary_key := pe_primary_key entry |} in
  _ ← ensure (bool_decide (m !! key = None)) (InvalidSnapshot "duplicate primary version chain");
  Ok (<[key := pe_versions entry]> m).

Definition load_secondary (catalog : Catalog) (last_applied : Z)
    (m : gmap SecondaryKey (list SecondaryVersion)) (entry : SecondarySnapshotEntry)
    : result EngineError (gmap SecondaryKey (list SecondaryVersion)) :=
  _ ← validate_secondary_versions (se_versions entry) last_applied;
  _ ← ensure (bool_decide (is_Some (Cat.index catalog (s_index_id (se_key entry)))))
        (InvalidSnapshot ("secondary chain references missing index "
                          +:+ pretty (s_index_id (se_key entry))));
  _ ← ensure (bool_decide (m !! se_key entry = None))
        (InvalidSnapshot "duplicate secondary version chain");
  Ok (<[se_key entry := se_versions entry]> m).

Definition load_client (m : gmap bytes ClientRecord) (entry : ClientSnapshotEntry)
    : result EngineError (gmap bytes ClientRecord) :=
  _ ← ensure (negb (r_sequence (ce_record entry) =? 0))
        (InvalidSnapshot "client sequence zero cannot be durable");
  _ ← ensure (bool_decide (m !! ce_client_id entry = None))
        (InvalidSnapshot "duplicate client record");
  Ok (<[ce_client_id entry := ce_record entry]> m).

Definition from_snapshot (s : EngineSnapshot) : result EngineError Engine :=
  _ ← ensure (f_format s =? SNAPSHOT_FORMAT)
        (InvalidSnapshot ("unsupported engine snapshot format " +:+ pretty (f_format s)));
  _ ← Cat.validate (f_catalog s);
  _ ← ensure (negb (f_last_applied s <? f_retained_floor s))
        (InvalidSnapshot "retained floor exceeds last applied index");
  let no_hash := bool_decide (f_last_apply_hash s = None) in
  let no_outcome := bool_decide (f_last_apply_outcome s = None) in
  _ ← ensure (Bool.eqb (f_last_applied s =? 0) (no_hash && no_outcome))
        (InvalidSnapshot "last apply metadata is inconsistent");
  _ ← ensure (negb ((0 <? f_last_applied s) && (no_hash || no_outcome)))
        (InvalidSnapshot "last apply metadata is incomplete");
  primary ← foldM (load_primary (f_last_applied s)) ∅ (f_primary s);
  secondary ← foldM (load_secondary (f_catalog s) (f_last_applied s)) ∅ (f_secondary s);
  clients ← foldM load_client ∅ (f_clients s);
  Ok (refresh_version_stats
        {| catalog := f_catalog s; primary := primary; secondary := secondary;
           clients := clients; last_applied := f_last_applied s;
           last_apply_hash := f_last_apply_hash s;
           last_apply_outcome := f_last_apply_outcome s;
           retained_floor := f_retained_floor s;
           next_txn_id := Z.max (f_next_txn_id s) 1; stats := f_stats s |}).
