(* ===== verification/EngineChains.v ===== *)
(** * Version chains

    What the engine relies on about its two families of version chains (rows
    and secondary entries): chains are newest first, a commit pushes at most
    one version per key, and vacuum keeps what a retained snapshot reads.
    Everything is stated once, over the version type. *)

From S2P Require Import Prelude CoreTypes EngineTxn EngineState.

Lemma forall_sublist {A} (P : A → Prop) (l k : list A) :
  l `sublist_of` k → Forall P k → Forall P l.
Proof. induction 1; rewrite ?Forall_cons; naive_solver. Qed.

Lemma sorted_sublist {A} (R : A → A → Prop) (l k : list A) :
  l `sublist_of` k → StronglySorted R k → StronglySorted R l.
Proof.
  induction 1 as [|x l k Hlk IH|x l k Hlk IH]; intros Hs; [constructor|..];
    apply StronglySorted_inv in Hs as [Hs Hx]; [|auto].
  constructor; [auto|]. eapply forall_sublist; eassumption.
Qed.

Section Chains.
Context {K V : Type} `{Countable K} (commit : V → Z).

(** A chain of versions committed in [1 .. last], newest first. *)
Record chain_ok (last : Z) (l : list V) : Prop := {
  ch_nonempty : l ≠ [];
  ch_sorted : StronglySorted (λ a b, commit b < commit a) l;
  ch_range : Forall (λ v, 0 < commit v ≤ last) l
}.

Definition chains_ok (last : Z) (m : gmap K (list V)) : Prop :=
  ∀ k l, m !! k = Some l → chain_ok last l.

Definition newest (l : list V) (ts : Z) : option V := List.find (λ v, commit v <=? ts) l.

(** The version of [k] that a snapshot at [ts] sees. *)
Definition at_ts (m : gmap K (list V)) (k : K) (ts : Z) : option V :=
  l ← m !! k; newest l ts.

Definition push (m : gmap K (list V)) (p : K * V) : gmap K (list V) :=
  <[p.1 := p.2 :: default [] (m !! p.1)]> m.

Definition push_all (m : gmap K (list V)) (ps : list (K * V)) : gmap K (list V) :=
  foldl push m ps.

Lemma chain_ok_le last last' l : chain_ok last l → last ≤ last' → chain_ok last' l.
Proof.
  intros [Hn Hs Hr] Hle. split; [done..|]. eapply Forall_impl; [exact Hr|]. cbn. lia.
Qed.

Lemma chain_ok_cons last v l :
  Forall (λ w, 0 < commit w < commit v) l → StronglySorted (λ a b, commit b < commit a) l →
  0 < commit v ≤ last → chain_ok last (v :: l).
Proof.
  intros Hl Hs Hv. split; [done| |].
  - constructor; [done|]. eapply Forall_impl; [exact Hl|]. cbn. lia.
  - constructor; [done|]. eapply Forall_impl; [exact Hl|]. cbn. lia.
Qed.

(** Snapshots at or after the end of the history agree. *)
Lemma newest_saturates last l ts :
  chain_ok last l → last ≤ ts → newest l ts = newest l last.
Proof.
  intros [Hn Hs Hr] Hle. destruct l as [|v l]; [done|]. unfold newest. cbn.
  apply Forall_cons in Hr as [Hv _].
  destruct (Z.leb_spec (commit v) ts), (Z.leb_spec (commit v) last); try lia. done.
Qed.

Lemma at_ts_saturates last m k ts :
  chains_ok last m → last ≤ ts → at_ts m k ts = at_ts m k last.
Proof.
  intros Hm Hle. unfold at_ts. destruct (m !! k) as [l|] eqn:Hk; [|done]. cbn.
  eapply newest_saturates; [|done]. by eapply Hm.
Qed.

Lemma at_ts_range last m k ts v :
  chains_ok last m → at_ts m k ts = Some v → 0 < commit v ≤ last ∧ commit v ≤ ts.
Proof.
  unfold at_ts. intros Hm (l & Hl & Hf)%bind_Some. apply List.find_some in Hf as [Hin Hts].
  bool_prop. split; [|done]. pose proof (ch_range _ _ (Hm _ _ Hl)) as Hr.
  rewrite Forall_forall in Hr. apply Hr. by apply list_elem_of_In.
Qed.

Lemma push_all_out ps m k : k ∉ ps.*1 → push_all m ps !! k = m !! k.
Proof.
  revert m. induction ps as [|p ps IH]; intros m; [done|]. rewrite fmap_cons, not_elem_of_cons.
  intros [Hk Hps]. cbn. rewrite IH by done. apply lookup_insert_ne. congruence.
Qed.

Lemma push_all_in ps m k v :
  NoDup ps.*1 → (k, v) ∈ ps → push_all m ps !! k = Some (v :: default [] (m !! k)).
Proof.
  revert m. induction ps as [|p ps IH]; intros m; [set_solver|].
  rewrite fmap_cons, NoDup_cons. intros [Hp Hnd] [<-|Hin]%elem_of_cons; cbn.
  - rewrite push_all_out by done. unfold push. cbn. by rewrite lookup_insert_eq.
  - rewrite IH by done. unfold push. rewrite lookup_insert_ne; [done|].
    intros Heq. apply Hp. rewrite Heq. by apply (list_elem_of_fmap_2 fst ps (k, v)).
Qed.

(** The lookup of a pushed map, in one equation. *)
Lemma push_all_cases ps m k :
  NoDup ps.*1 →
  (∃ v, (k, v) ∈ ps ∧ push_all m ps !! k = Some (v :: default [] (m !! k)))
  ∨ ((k ∉ ps.*1) ∧ push_all m ps !! k = m !! k).
Proof.
  intros Hnd. destruct (decide (k ∈ ps.*1)) as [Hin|Hout].
  - apply list_elem_of_fmap in Hin as ([k' v] & -> & Hin). left. exists v.
    split; [done|]. by apply push_all_in.
  - right. split; [done|]. by apply push_all_out.
Qed.

Section Commit.
Context (last n : Z) (ps : list (K * V)).
Hypotheses (Hlast : 0 ≤ last) (Hn : last < n) (Hnd : NoDup ps.*1)
  (Hps : Forall (λ p, commit p.2 = n) ps).

Lemma pushed_commit k v : (k, v) ∈ ps → commit v = n.
Proof. intros Hin. rewrite Forall_forall in Hps. exact (Hps (k, v) Hin). Qed.

Lemma push_all_chains m : chains_ok last m → chains_ok n (push_all m ps).
Proof.
  intros Hm k l. destruct (push_all_cases ps m k Hnd) as [(v & Hin & ->)|[_ ->]].
  - intros [= <-]. pose proof (pushed_commit k v Hin) as Hv.
    destruct (m !! k) as [l|] eqn:Hk; cbn.
    + destruct (Hm _ _ Hk) as [_ Hs Hr]. apply chain_ok_cons; [|done|lia].
      eapply Forall_impl; [exact Hr|]. cbn. lia.
    + apply chain_ok_cons; [constructor|constructor|lia].
  - intros Hk. eapply chain_ok_le; [by eapply Hm|lia].
Qed.

Lemma at_push_all_old m k ts : ts < n → at_ts (push_all m ps) k ts = at_ts m k ts.
Proof.
  intros Hts. unfold at_ts. destruct (push_all_cases ps m k Hnd) as [(v & Hin & ->)|[_ ->]]; [|done].
  cbn. rewrite (pushed_commit k v Hin). destruct (Z.leb_spec n ts); [lia|].
  by destruct (m !! k).
Qed.

Lemma at_push_all_in m k v ts :
  (k, v) ∈ ps → n ≤ ts → at_ts (push_all m ps) k ts = Some v.
Proof.
  intros Hin Hts. unfold at_ts. rewrite (push_all_in ps m k v) by done. cbn.
  rewrite (pushed_commit k v Hin). by destruct (Z.leb_spec n ts); [|lia].
Qed.

Lemma at_push_all_out m k ts :
  k ∉ ps.*1 → at_ts (push_all m ps) k ts = at_ts m k ts.
Proof. intros Hk. unfold at_ts. by rewrite push_all_out. Qed.
End Commit.

(** *** Vacuum *)

Section Vacuum.
Context (keep : V → bool).

Definition vacuum_chain (l : list V) (floor : Z) : list V :=
  take_while (λ v, floor <? commit v) l
  ++ match newest l floor with
     | Some baseline => if keep baseline then [baseline] else []
     | None => []
     end.

(** The version a read returns, when the version is kept at all. *)
Definition kept (o : option V) : option V := v ← o; if keep v then Some v else None.

Lemma vacuum_newest l floor ts :
  StronglySorted (λ a b, commit b < commit a) l → floor ≤ ts →
  kept (newest (vacuum_chain l floor) ts) = kept (newest l ts).
Proof.
  intros Hs Hts. unfold vacuum_chain, newest. induction Hs as [|v l Hs IH Hv]; [done|]. cbn.
  destruct (Z.ltb_spec floor (commit v)); destruct (Z.leb_spec (commit v) floor); try lia; cbn.
  - by destruct (Z.leb_spec (commit v) ts).
  - destruct (Z.leb_spec (commit v) ts); [|lia]. destruct (keep v) eqn:Hk; cbn.
    + by destruct (Z.leb_spec (commit v) ts); [|lia].
    + by rewrite Hk.
Qed.

Lemma vacuum_sub l floor : vacuum_chain l floor `sublist_of` l.
Proof.
  unfold vacuum_chain, newest. induction l as [|v l IH]; cbn; [constructor|].
  destruct (Z.ltb_spec floor (commit v)); destruct (Z.leb_spec (commit v) floor); try lia; cbn.
  - by constructor.
  - destruct (keep v); repeat constructor; apply sublist_nil_l.
Qed.

Lemma vacuum_chain_ok last l floor :
  chain_ok last l → vacuum_chain l floor ≠ [] → chain_ok last (vacuum_chain l floor).
Proof.
  intros [Hn Hs Hr] Hne. split; [done| |].
  - eapply sorted_sublist; [apply vacuum_sub|done].
  - eapply forall_sublist; [apply vacuum_sub|done].
Qed.

Definition vacuum_map (m : gmap K (list V)) (floor : Z) : gmap K (list V) :=
  filter (λ p, non_empty p.2) ((λ l, vacuum_chain l floor) <$> m).

Lemma vacuum_map_lookup m floor k l :
  vacuum_map m floor !! k = Some l ↔
  ∃ l0, m !! k = Some l0 ∧ l = vacuum_chain l0 floor ∧ l ≠ [].
Proof.
  unfold vacuum_map. rewrite map_lookup_filter_Some, lookup_fmap_Some. unfold non_empty. naive_solver.
Qed.

Lemma vacuum_map_chains last m floor : chains_ok last m → chains_ok last (vacuum_map m floor).
Proof.
  intros Hm k l (l0 & Hk & -> & Hne)%vacuum_map_lookup. apply vacuum_chain_ok; [|done]. by eapply Hm.
Qed.

Lemma vacuum_map_reads last m floor k ts :
  chains_ok last m → floor ≤ ts →
  kept (at_ts (vacuum_map m floor) k ts) = kept (at_ts m k ts).
Proof.
  intros Hm Hts. unfold at_ts. destruct (m !! k) as [l|] eqn:Hk; cbn [mbind option_bind].
  - pose proof (vacuum_newest l floor ts (ch_sorted _ _ (Hm _ _ Hk)) Hts) as <-.
    destruct (vacuum_map m floor !! k) as [l'|] eqn:Hv; cbn [mbind option_bind].
    + apply vacuum_map_lookup in Hv as (l0 & ? & -> & _). by simplify_eq.
    + destruct (vacuum_chain l floor) as [|v c] eqn:Hc; [done|].
      assert (vacuum_map m floor !! k = Some (v :: c)) as Hs
        by (apply vacuum_map_lookup; exists l; by rewrite Hc).
      congruence.
  - destruct (vacuum_map m floor !! k) as [l'|] eqn:Hv; [|done].
    apply vacuum_map_lookup in Hv as (l0 & ? & _). congruence.
Qed.
End Vacuum.
End Chains.

(** ** The two families of chains of the engine *)

Lemma visible_row_newest l ts : visible_row l ts = newest rv_commit l ts ≫= rv_row.
Proof. done. Qed.

(** The row a snapshot at [ts] sees under a key. *)
Definition row_at (e : Engine) (k : LogicalKey) (ts : Z) : option Row :=
  at_ts rv_commit (primary e) k ts ≫= rv_row.

(** Whether a snapshot at [ts] sees an entry of a secondary index. *)
Definition entry_at (e : Engine) (k : SecondaryKey) (ts : Z) : bool :=
  match at_ts sv_commit (secondary e) k ts with Some v => sv_present v | None => false end.

Lemma row_at_unfold e k ts :
  row_at e k ts = (versions ← primary e !! k; visible_row versions ts).
Proof. unfold row_at, at_ts. by destruct (primary e !! k). Qed.

Definition keep_row (v : RowVersion) : bool := bool_decide (is_Some (rv_row v)).

Lemma vacuum_rows_chain l floor : vacuum_rows l floor = vacuum_chain rv_commit keep_row l floor.
Proof. done. Qed.

Lemma vacuum_secondary_chain l floor :
  vacuum_secondary l floor = vacuum_chain sv_commit sv_present l floor.
Proof. done. Qed.

Lemma read_kept_row o : (o : option RowVersion) ≫= rv_row = kept keep_row o ≫= rv_row.
Proof. destruct o as [[c [r|]]|]; done. Qed.

Lemma read_kept_entry (o : option SecondaryVersion) :
  match o with Some v => sv_present v | None => false end
  = match kept sv_present o with Some v => sv_present v | None => false end.
Proof. by destruct o as [[c []]|]. Qed.
