(* ===== verification/EngineInv.v ===== *)
(** * The invariant of the transaction engine and the effect of a commit

    The effect of applying an attempt is computed as one batch of pushes on
    the row chains and one on the secondary chains; the invariant
    ([engine_wf]) and the specification of the operations follow from the
    chain lemmas. *)

From S2P Require Import Prelude CoreTypes CoreCodec EngineExpr EngineCatalog EngineTxn EngineState EngineChains.
Import Codec.

(** ** The invariant *)

(** A stored row belongs to a table of the catalog, satisfies its schema and
    is stored under its own primary key. *)
Definition row_valid (c : Catalog) (k : LogicalKey) (row : Row) : Prop :=
  ∃ t pk, tables c !! k_table_id k = Some t
    ∧ SchemaOps.validate_row (t_schema t) row = Ok tt ∧ row_ok row
    ∧ znth (values row) (primary_key_column t) = Some pk ∧ encode_ordered pk = k_primary_key k.

(** The rows an index entry stands for. *)
Definition has_entry (i : IndexMeta) (vb : bytes) (row : option Row) : Prop :=
  ∃ v, not_null (column_value i row) = Some v ∧ encode_ordered v = vb.

Definition entry_key (i : IndexMeta) (vb pk : bytes) : SecondaryKey :=
  {| s_index_id := i_id i; s_value := vb; s_primary_key := pk |}.

(** At every retained snapshot from [created] on, an index holds exactly the
    non-null values of its column. *)
Definition index_agrees (created : Z) (e : Engine) (i : IndexMeta) : Prop :=
  ∀ ts vb pk, created ≤ ts → retained_floor e ≤ ts →
    entry_at e (entry_key i vb pk) ts = true
    ↔ has_entry i vb (row_at e {| k_table_id := i_table_id i; k_primary_key := pk |} ts).

(** There is an entry from which on it does. *)
Definition index_tracks (e : Engine) (i : IndexMeta) : Prop :=
  ∃ created, 0 < created ≤ last_applied e ∧ index_agrees created e i.

Record engine_wf (e : Engine) : Prop := {
  ew_catalog : cat_wf (catalog e);
  ew_floor : 0 ≤ retained_floor e ≤ last_applied e;
  ew_primary : chains_ok rv_commit (last_applied e) (primary e);
  ew_secondary : chains_ok sv_commit (last_applied e) (secondary e);
  ew_rows : ∀ k l v row, primary e !! k = Some l → v ∈ l → rv_row v = Some row →
              row_valid (catalog e) k row;
  ew_entries : ∀ k l, secondary e !! k = Some l → is_Some (indexes (catalog e) !! s_index_id k);
  ew_indexes : ∀ id i, indexes (catalog e) !! id = Some i → index_tracks e i;
  ew_applied : last_applied e ≤ u64_max;
  ew_meta : if last_applied e =? 0 then last_apply_hash e = None ∧ last_apply_outcome e = None
            else is_Some (last_apply_hash e) ∧ is_Some (last_apply_outcome e);
  ew_clients : ∀ c r, clients e !! c = Some r → 1 ≤ r_sequence r ≤ u64_max;
  ew_stats : primary_versions (stats e) = total_versions (primary e)
             ∧ secondary_versions (stats e) = total_versions (secondary e);
  ew_txn : 1 ≤ next_txn_id e
}.

(** ** The pushes of a commit *)

Definition entry_push (i : IndexMeta) (k : LogicalKey) (n : Z) (present : bool) (v : option Value)
    : list (SecondaryKey * SecondaryVersion) :=
  match not_null v with
  | Some v => [(entry_key i (encode_ordered v) (k_primary_key k), mkSecondaryVersion n present)]
  | None => []
  end.

Definition index_pushes (n : Z) (k : LogicalKey) (old new : option Row) (i : IndexMeta)
    : list (SecondaryKey * SecondaryVersion) :=
  if decide (column_value i old = column_value i new) then []
  else entry_push i k n false (column_value i old) ++ entry_push i k n true (column_value i new).

Abbreviation pending := (TxnWrite * (LogicalKey * option Row))%type.

Definition row_push (n : Z) (p : pending) : LogicalKey * RowVersion :=
  (p.2.1, mkRowVersion n (new_row_of (w_mutation p.1))).

Definition write_pushes (idx : Z → list IndexMeta) (n : Z) (p : pending)
    : list (SecondaryKey * SecondaryVersion) :=
  idx (w_table_id p.1) ≫= index_pushes n p.2.1 p.2.2 (new_row_of (w_mutation p.1)).

Definition backfill_entries (m : gmap LogicalKey (list RowVersion)) (n : Z) (i : IndexMeta)
    : list (LogicalKey * Value) :=
  omap (λ p : LogicalKey * list RowVersion,
    let '(key, versions) := p in
    if k_table_id key =? i_table_id i then
      v ← not_null (column_value i (visible_row versions n)); Some (key, v)
    else None) (btree_map_iter m).

Definition backfill_push (n : Z) (i : IndexMeta) (p : LogicalKey * Value)
    : SecondaryKey * SecondaryVersion :=
  (entry_key i (encode_ordered p.2) (k_primary_key p.1), mkSecondaryVersion n true).

Definition backfill_pushes (m : gmap LogicalKey (list RowVersion)) (n : Z) (i : IndexMeta)
    : list (SecondaryKey * SecondaryVersion) := backfill_push n i <$> backfill_entries m n i.

Lemma push_all_app {K V} `{Countable K} (m : gmap K (list V)) l k :
  push_all m (l ++ k) = push_all (push_all m l) k.
Proof. apply foldl_app. Qed.

Lemma update_secondary_eq e i k old new n :
  update_secondary e i k old new n
  = set_secondary (push_all (secondary e) (index_pushes n k old new i)) e.
Proof.
  unfold update_secondary, index_pushes. case_decide; [by destruct e|].
  unfold entry_push. destruct (not_null (column_value i old)), (not_null (column_value i new));
    by destruct e.
Qed.

(** A loop of secondary pushes is one batch. *)
Lemma fold_secondary {A} (f : A → list (SecondaryKey * SecondaryVersion)) l e :
  foldl (λ e a, set_secondary (push_all (secondary e) (f a)) e) e l
  = set_secondary (push_all (secondary e) (l ≫= f)) e.
Proof.
  revert e. induction l as [|a l IH]; intros e; [by destruct e|].
  cbn [foldl]. rewrite IH. cbn [secondary set_secondary]. by rewrite <- push_all_app.
Qed.

Lemma foldl_ext' {A B} (f g : A → B → A) a l :
  (∀ a b, f a b = g a b) → foldl f a l = foldl g a l.
Proof. intros Hfg. revert a. induction l as [|b l IH]; intros a; cbn; [done|]. by rewrite Hfg. Qed.

Lemma apply_write_eq idx n e p :
  apply_write idx n e p
  = set_primary (push (primary e) (row_push n p))
      (set_secondary (push_all (secondary e) (write_pushes idx n p)) e).
Proof.
  destruct p as [w [k old]]. unfold apply_write.
  rewrite (foldl_ext' _ (λ e i, set_secondary (push_all (secondary e)
    (index_pushes n k old (new_row_of (w_mutation w)) i)) e)) by (intros; apply update_secondary_eq).
  rewrite fold_secondary. done.
Qed.

Lemma apply_writes_eq idx n e l :
  foldl (apply_write idx n) e l
  = set_primary (push_all (primary e) (row_push n <$> l))
      (set_secondary (push_all (secondary e) (l ≫= write_pushes idx n)) e).
Proof.
  revert e. induction l as [|p l IH]; intros e; [by destruct e|].
  cbn [foldl]. rewrite IH, apply_write_eq. cbn [primary secondary set_primary set_secondary].
  cbn [fmap list_fmap mbind list_bind]. rewrite push_all_app. done.
Qed.

Lemma backfill_index_eq e i n :
  backfill_index e i n
  = set_secondary (push_all (secondary e) (backfill_pushes (primary e) n i)) e.
Proof.
  unfold backfill_index, backfill_pushes. fold (backfill_entries (primary e) n i).
  generalize (backfill_entries (primary e) n i) as l. intros l.
  transitivity (foldl (λ e p, set_secondary (push_all (secondary e) [backfill_push n i p]) e) e l).
  - apply foldl_ext'. by intros a [k v].
  - by rewrite fold_secondary.
Qed.

Lemma backfills_eq e n ixs :
  foldl (λ e i, backfill_index e i n) e ixs
  = set_secondary (push_all (secondary e) (ixs ≫= backfill_pushes (primary e) n)) e.
Proof.
  revert e. induction ixs as [|i ixs IH]; intros e; [by destruct e|].
  cbn [foldl mbind list_bind]. rewrite IH, backfill_index_eq.
  cbn [primary secondary set_secondary]. by rewrite push_all_app.
Qed.

(** The state a commit leaves, but for the statistics. *)
Definition committed_state (e : Engine) (n : Z) (c : Catalog) (ixs : list IndexMeta)
    (l : list pending) : Engine :=
  let rows := push_all (primary e) (row_push n <$> l) in
  set_catalog c (set_primary rows (set_secondary (push_all (secondary e)
    ((l ≫= write_pushes (Cat.indexes_for_table (catalog e)) n)
     ++ (ixs ≫= backfill_pushes rows n))) e)).

Lemma evaluate_and_apply_eq e n a :
  evaluate_and_apply e n a =
  match validate_attempt_for_apply e a with
  | Err reason => (set_stats (bump_aborted (stats e)) e, Aborted n reason)
  | Ok (c, ixs) =>
      match mapM_result (before_row e) (writes a) with
      | Err error => (set_stats (bump_aborted (stats e)) e,
                      Aborted n (Validation (EngineError_to_string error)))
      | Ok l => (refresh_version_stats (set_stats (bump_committed (stats e))
                   (committed_state e n c ixs (zip (writes a) l))),
                 Committed n (zlen (writes a)) (c_schema_epoch c))
      end
  end.
Proof.
  unfold evaluate_and_apply. destruct (validate_attempt_for_apply e a) as [[c ixs]|]; [|done].
  destruct (mapM_result (before_row e) (writes a)) as [l|]; [|done].
  rewrite apply_writes_eq, backfills_eq. unfold committed_state.
  cbn [primary secondary set_catalog set_primary set_secondary]. rewrite push_all_app. done.
Qed.

(** ** What the validation of an attempt establishes *)

(** The catalog only grows; [ids] are the new indexes. *)
Record cat_grows (c c' : Catalog) (ids : list Z) : Prop := {
  cg_tables : tables c ⊆ tables c';
  cg_indexes : indexes c ⊆ indexes c';
  cg_nodup : NoDup ids;
  cg_fresh : ∀ id, id ∈ ids → indexes c !! id = None ∧ is_Some (indexes c' !! id);
  cg_origin : ∀ id i, indexes c' !! id = Some i → indexes c !! id = Some i ∨ id ∈ ids
}.

Lemma create_table_grows c0 c t c' ids :
  cat_grows c0 c ids → Cat.create_table c t = Ok c' → cat_grows c0 c' ids.
Proof.
  intros [Ht Hi Hnd Hf Ho] (u & _ & (u1 & H1%ensure_Ok & (u2 & _ & Heq)%result_bind_Ok)%result_bind_Ok)%result_bind_Ok.
  apply Ok_inj in Heq as <-. bool_prop. apply eq_None_not_Some in H1. split; cbn; [|done..].
  etrans; [exact Ht|]. by apply insert_subseteq.
Qed.

Lemma create_index_grows c0 c i c' ids :
  cat_grows c0 c ids → Cat.create_index c i = Ok c' → cat_grows c0 c' (ids ++ [i_id i]).
Proof.
  intros [Ht Hi Hnd Hf Ho] Hx. unfold Cat.create_index in Hx.
  apply result_bind_Ok in Hx as (u & _ & Hx). apply result_bind_Ok in Hx as (u0 & _ & Hx).
  apply result_bind_Ok in Hx as (u1 & H1%ensure_Ok & Hx).
  apply result_bind_Ok in Hx as (u2 & _ & Hx). apply result_bind_Ok in Hx as (t & _ & Hx).
  apply result_bind_Ok in Hx as (u3 & _ & Hx). apply Ok_inj in Hx as <-.
  bool_prop. apply eq_None_not_Some in H1.
  assert (indexes c0 !! i_id i = None) as H0 by (by eapply lookup_weaken_None).
  split; cbn; [done|..].
  - etrans; [exact Hi|]. by apply insert_subseteq.
  - apply NoDup_app. split_and!; [done| |apply NoDup_singleton].
    intros id Hid ->%list_elem_of_singleton. destruct (Hf _ Hid) as [_ [? ?]]. congruence.
  - intros id [Hid| ->%list_elem_of_singleton]%elem_of_app.
    + destruct (Hf _ Hid) as [? ?]. split; [done|]. by apply lookup_insert_is_Some'; right.
    + split; [done|]. rewrite lookup_insert_eq. eauto.
  - intros id j [[<- <-]|[_ Hj]]%lookup_insert_Some; [right; set_solver|].
    destruct (Ho _ _ Hj); [by left|right; set_solver].
Qed.

Lemma apply_mutations_grows c ms c' ids :
  Cat.apply_mutations c ms = Ok (c', ids) → cat_grows c c' ids.
Proof.
  intros ([c1 ids1] & Hf & Hx)%result_bind_Ok.
  assert (cat_grows c c1 ids1) as Hc1.
  { eapply (foldM_inv (λ st, cat_grows c st.1 st.2) _ (c, []) _ (c1, ids1)); [|split; cbn|done].
    - intros [c2 ids2] [t|i] st' Hg (c3 & Hc3 & <-%Ok_inj)%result_bind_Ok; cbn in *.
      + by eapply create_table_grows.
      + by eapply create_index_grows.
    - done.
    - done.
    - constructor.
    - set_solver.
    - auto. }
  destruct (is_empty ms); [by simplify_eq|]. apply result_bind_Ok in Hx as (ep & _ & Hx).
  simplify_eq. by destruct Hc1.
Qed.

Lemma validation_Ok {A} (r : result EngineError A) a : validation r = Ok a ↔ r = Ok a.
Proof. destruct r; cbn; naive_solver. Qed.

(** The indexes a commit backfills are the new ones of the catalog. *)
Lemma new_indexes_spec {E} c c' ids ixs (err : Z → E) :
  cat_wf c' → cat_grows c c' ids →
  mapM_result (λ id, ok_or (Cat.index c' id) (err id)) ids = Ok ixs →
  NoDup (i_id <$> ixs)
  ∧ (∀ i, i ∈ ixs ↔ indexes c' !! i_id i = Some i ∧ indexes c !! i_id i = None).
Proof.
  intros Hwf Hg Hm. apply mapM_result_Ok in Hm.
  assert (i_id <$> ixs = ids) as Hids.
  { clear Hg. induction Hm as [|id i ids ixs Hi%ok_or_Ok Hm IH]; [done|]. cbn. f_equal; [|done].
    by destruct (cat_indexes _ Hwf _ _ Hi). }
  split; [rewrite Hids; apply Hg|]. intros i. split.
  - intros (j & Hj)%list_elem_of_lookup. destruct (Forall2_lookup_r _ _ _ _ _ Hm Hj) as (id & Hid & Hi%ok_or_Ok).
    destruct (cat_indexes _ Hwf _ _ Hi) as [-> _]. split; [done|].
    apply (cg_fresh _ _ _ Hg). by eapply list_elem_of_lookup_2.
  - intros [Hi Hnone]. destruct (cg_origin _ _ _ Hg _ _ Hi) as [?|Hin]; [congruence|].
    apply list_elem_of_lookup in Hin as (j & Hj).
    destruct (Forall2_lookup_l _ _ _ _ _ Hm Hj) as (i' & Hi' & Hx%ok_or_Ok).
    unfold Cat.index in Hx. simplify_eq. by eapply list_elem_of_lookup_2.
Qed.

(** A write that passes validation. *)
Record write_valid (e : Engine) (c : Catalog) (read_ts : Z) (w : TxnWrite) (k : LogicalKey) : Prop := {
  wv_key : logical_key w = Ok k;
  wv_row : ∀ row, w_mutation w = Put row → row_ok row → row_valid c k row;
  wv_table : is_Some (tables c !! k_table_id k);
  wv_fresh : ∀ l v, primary e !! k = Some l → head l = Some v → rv_commit v ≤ read_ts
}.

Lemma logical_key_Ok w k :
  logical_key w = Ok k →
  k = {| k_table_id := w_table_id w; k_primary_key := encode_ordered (w_primary_key w) |}.
Proof. by intros (b & _ & <-%Ok_inj)%result_bind_Ok. Qed.

Lemma validate_write_Ok e c ts w :
  validate_write e c ts w = Ok tt → ∃ k, write_valid e c ts w k.
Proof.
  intros (t & Ht%ok_or_Ok & Hx)%result_bind_Ok. apply result_bind_Ok in Hx as (u & _ & Hx).
  apply result_bind_Ok in Hx as (u' & Hm & Hx). apply result_bind_Ok in Hx as (k & Hk%validation_Ok & Hx).
  exists k. pose proof (logical_key_Ok w k Hk) as Hkey. split; [done|..].
  - intros row Hw Hrow. rewrite Hw in Hm.
    apply result_bind_Ok in Hm as ([] & Hv & He%ensure_Ok). apply validation_Ok, core_Ok in Hv.
    bool_prop. exists t, (w_primary_key w). by rewrite Hkey.
  - rewrite Hkey. eauto.
  - intros l v Hl Hv. unfold winning_commit in Hx. rewrite Hl in Hx. cbn in Hx. rewrite Hv in Hx. cbn in Hx.
    destruct (Z.ltb_spec ts (rv_commit v)); [done|lia].
Qed.

Lemma validate_writes_keys ws ks prev :
  Attempt.validate_writes prev ws = Ok tt → Forall2 (λ w k, logical_key w = Ok k) ws ks →
  StronglySorted cmp_lt ks ∧ (∀ p, prev = Some p → Forall (cmp_lt p) ks).
Proof.
  intros Hv Hf. revert prev Hv. induction Hf as [|w k ws ks Hk Hf IH]; intros prev Hv.
  { split; [constructor|]. intros. constructor. }
  cbn [Attempt.validate_writes] in Hv. rewrite Hk in Hv. cbn [mbind result_bind] in Hv.
  apply result_bind_Ok in Hv as (u & He%ensure_Ok & Hv). destruct (IH _ Hv) as [Hs Hall].
  specialize (Hall _ eq_refl). split; [by constructor|]. intros p ->. bool_prop.
  assert (cmp_lt p k) as Hpk.
  { unfold cmp_le in He. apply dec_stable in He. by apply cmp_gt_lt in He. }
  constructor; [done|]. eapply Forall_impl; [exact Hall|]. cbn. intros q Hq. by etrans.
Qed.

Lemma sorted_NoDup {K} `{CompareLaws K} (l : list K) : StronglySorted cmp_lt l → NoDup l.
Proof.
  induction 1 as [|x l Hs IH Hx]; constructor; [|done]. intros Hin.
  rewrite Forall_forall in Hx. by eapply cmp_lt_irrefl, Hx.
Qed.

(** Everything the commit of [a] at the state [e] starts from. *)
Record commit_ready (e : Engine) (a : TxnAttempt) (c : Catalog) (ixs : list IndexMeta)
    (l : list pending) : Prop := {
  cr_writes : l.*1 = writes a;
  cr_nodup : NoDup l.*2.*1;
  cr_old : ∀ p, p ∈ l → p.2.2 = row_at e p.2.1 (last_applied e);
  cr_valid : ∀ p, p ∈ l → write_valid e c (a_read_ts a) p.1 p.2.1;
  cr_cat : cat_wf c;
  cr_tables : tables (catalog e) ⊆ tables c;
  cr_indexes : indexes (catalog e) ⊆ indexes c;
  cr_ixs_nodup : NoDup (i_id <$> ixs);
  cr_ixs : ∀ i, i ∈ ixs ↔ indexes c !! i_id i = Some i ∧ indexes (catalog e) !! i_id i = None;
  cr_read : retained_floor e ≤ a_read_ts a ≤ last_applied e;
  cr_epoch : a_schema_epoch a = c_schema_epoch (catalog e)
}.

Lemma before_rows_spec e ws l :
  mapM_result (before_row e) ws = Ok l →
  (zip ws l).*1 = ws ∧ (zip ws l).*2 = l ∧
  ∀ p, p ∈ zip ws l → logical_key p.1 = Ok p.2.1 ∧ p.2.2 = row_at e p.2.1 (last_applied e).
Proof.
  intros Hm%mapM_result_Ok. split_and!.
  - apply fst_zip. apply Forall2_length in Hm. lia.
  - apply snd_zip. apply Forall2_length in Hm. lia.
  - intros [w [k o]] (j & Hj)%list_elem_of_lookup. apply lookup_zip_Some in Hj as [Hw Hl].
    pose proof (Forall2_lookup_lr _ _ _ _ _ _ Hm Hw Hl) as (k' & Hk & [= <- <-]%Ok_inj)%result_bind_Ok.
    cbn. by rewrite row_at_unfold.
Qed.

Lemma commit_ready_intro e a c ixs l :
  cat_wf (catalog e) → validate_attempt_for_apply e a = Ok (c, ixs) →
  mapM_result (before_row e) (writes a) = Ok l → commit_ready e a c ixs (zip (writes a) l).
Proof.
  intros Hcat Hv Hm. unfold validate_attempt_for_apply in Hv.
  apply result_bind_Ok in Hv as (u1 & H1%ensure_Ok & Hv). apply result_bind_Ok in Hv as (u2 & H2%ensure_Ok & Hv).
  apply result_bind_Ok in Hv as (u3 & H3%ensure_Ok & Hv).
  apply result_bind_Ok in Hv as ([] & H4%validation_Ok & Hv).
  apply result_bind_Ok in Hv as ([c1 ids] & H5%validation_Ok & Hv).
  apply result_bind_Ok in Hv as (ixs1 & H6 & Hv). apply result_bind_Ok in Hv as (us & H7 & Hv).
  apply Ok_inj in Hv as [= -> ->]. bool_prop.
  apply result_bind_Ok in H4 as ([] & Hcanon & _).
  assert (cat_wf c) as Hc by (by eapply apply_mutations_wf).
  pose proof (apply_mutations_grows _ _ _ _ H5) as Hg.
  destruct (new_indexes_spec _ _ _ _ _ Hc Hg H6) as [Hnd Hix].
  destruct (before_rows_spec _ _ _ Hm) as (Hw & Hl & Hp).
  split; [done| |by apply Hp| |done|apply Hg|apply Hg|done|done|lia|done].
  - rewrite Hl. eapply sorted_NoDup, (validate_writes_keys (writes a) l.*1 None); [done|].
    apply Forall2_fmap_r. apply mapM_result_Ok in Hm. eapply Forall2_impl; [exact Hm|].
    intros w [k o] (k' & Hk & [= <- <-]%Ok_inj)%result_bind_Ok. done.
  - intros p Hin. destruct (Hp p Hin) as [Hk _].
    apply mapM_result_Ok in H7. apply list_elem_of_lookup in Hin as (j & Hj).
    destruct p as [w [k o]]. apply lookup_zip_Some in Hj as [Hwj _].
    destruct (Forall2_lookup_l _ _ _ _ _ H7 Hwj) as ([] & _ & Hval).
    destruct (validate_write_Ok _ _ _ _ Hval) as (k' & Hvalid). cbn in *.
    pose proof (wv_key _ _ _ _ _ Hvalid) as Hk'. rewrite Hk in Hk'. by apply Ok_inj in Hk' as ->.
Qed.

(** ** The pushes of a commit touch every key at most once *)

Lemma NoDup_bind_keyed {A K V G} (tag : K → G) (g : A → G) (f : A → list (K * V)) (l : list A) :
  NoDup (g <$> l) → (∀ a, a ∈ l → NoDup (f a).*1) →
  (∀ a k, a ∈ l → k ∈ (f a).*1 → tag k = g a) → NoDup (l ≫= f).*1.
Proof.
  induction l as [|a l IH]; intros Hnd Hf Ht; [constructor|].
  cbn [mbind list_bind]. rewrite fmap_app. rewrite fmap_cons in Hnd. apply NoDup_cons in Hnd as [Ha Hnd].
  apply NoDup_app. split_and!.
  - apply Hf. left.
  - intros k Hk (p & -> & Hp)%list_elem_of_fmap. apply list_elem_of_bind in Hp as (b & Hp & Hb).
    apply Ha. rewrite <- (Ht a p.1) by (done || left).
    rewrite (Ht b p.1); [by apply list_elem_of_fmap_2|by right|by apply list_elem_of_fmap_2].
  - apply IH; [done|..].
    + intros b Hb. apply Hf. by right.
    + intros b k Hb. apply Ht. by right.
Qed.

Lemma elem_of_indexes_for_table c t i :
  cat_wf c → i ∈ Cat.indexes_for_table c t ↔ indexes c !! i_id i = Some i ∧ i_table_id i = t.
Proof.
  intros Hc. unfold Cat.indexes_for_table. rewrite list_elem_of_In, filter_In, <- list_elem_of_In.
  rewrite Z.eqb_eq, list_elem_of_fmap. split.
  - intros [([id j] & -> & Hj%elem_of_btree_map_iter) Ht]. cbn in *.
    by destruct (cat_indexes _ Hc _ _ Hj) as [-> _].
  - intros [Hi Ht]. split; [|done]. exists (i_id i, i). split; [done|]. by apply elem_of_btree_map_iter.
Qed.

Lemma indexes_for_table_NoDup c t : cat_wf c → NoDup (i_id <$> Cat.indexes_for_table c t).
Proof.
  intros Hc. unfold Cat.indexes_for_table.
  assert (NoDup (i_id <$> (btree_map_iter (indexes c)).*2)) as Hnd.
  { rewrite <- list_fmap_compose.
    assert ((i_id ∘ snd <$> btree_map_iter (indexes c)) = (btree_map_iter (indexes c)).*1) as ->.
    { apply list_fmap_ext. intros j [id i] Hj. cbn.
      apply list_elem_of_lookup_2, elem_of_btree_map_iter in Hj. by destruct (cat_indexes _ Hc _ _ Hj). }
    unfold btree_map_iter. rewrite (fmap_Permutation fst _ _ (merge_sort_Permutation _ _)).
    apply NoDup_fst_map_to_list. }
  eapply sublist_NoDup; [exact Hnd|]. apply fmap_sublist, list_filter_sublist.
Qed.

Lemma not_null_Some v w : not_null v = Some w ↔ v = Some w ∧ is_null w = false.
Proof.
  destruct v as [x|]; cbn; [|naive_solver]. destruct (is_null x) eqn:Hx; split; try done.
  - intros [[= ->] ?]. congruence.
  - by intros [= ->].
  - by intros [[= ->] _].
Qed.

Lemma elem_of_entry_push i k n b v sk x :
  (sk, x) ∈ entry_push i k n b v ↔
  ∃ w, not_null v = Some w ∧ sk = entry_key i (encode_ordered w) (k_primary_key k)
       ∧ x = mkSecondaryVersion n b.
Proof. unfold entry_push. destruct (not_null v); set_solver. Qed.

(** The rows that the source's types admit. *)
Definition opt_row_ok (r : option Row) : Prop := ∀ row, r = Some row → row_ok row.

Lemma column_value_ok i r v : opt_row_ok r → column_value i r = Some v → value_ok v.
Proof.
  intros Hr (row & -> & Hv)%bind_Some. apply znth_Some in Hv as [_ Hv].
  specialize (Hr row eq_refl). unfold row_ok in Hr. rewrite Forall_lookup in Hr. eauto.
Qed.

Lemma index_pushes_tag n k old new i sk :
  sk ∈ (index_pushes n k old new i).*1 → s_index_id sk = i_id i ∧ s_primary_key sk = k_primary_key k.
Proof.
  intros ([sk' x] & -> & Hin)%list_elem_of_fmap. unfold index_pushes in Hin. case_decide; [set_solver|].
  apply elem_of_app in Hin as [Hin|Hin]; apply elem_of_entry_push in Hin as (w & _ & -> & _); done.
Qed.

Lemma index_pushes_NoDup n k old new i :
  opt_row_ok old → opt_row_ok new → NoDup (index_pushes n k old new i).*1.
Proof.
  intros Ho Hn. unfold index_pushes. case_decide as Hne; [constructor|]. unfold entry_push.
  destruct (not_null (column_value i old)) as [v|] eqn:Hv, (not_null (column_value i new)) as [w|] eqn:Hw;
    cbn; [|apply NoDup_singleton|apply NoDup_singleton|constructor].
  apply not_null_Some in Hv as [Hv _], Hw as [Hw _].
  apply NoDup_cons. split; [|apply NoDup_singleton].
  intros Hin%list_elem_of_singleton. injection Hin as Hin. apply Hne.
  rewrite Hv, Hw. f_equal. apply encode_ordered_inj; [exact (column_value_ok _ _ _ Ho Hv)|exact (column_value_ok _ _ _ Hn Hw)|done].
Qed.

Lemma elem_of_backfill_entries m n i k v :
  (k, v) ∈ backfill_entries m n i ↔
  k_table_id k = i_table_id i
  ∧ not_null (column_value i (at_ts rv_commit m k n ≫= rv_row)) = Some v.
Proof.
  unfold backfill_entries. rewrite list_elem_of_omap. unfold at_ts. split.
  - intros ([k' vs] & Hin%elem_of_btree_map_iter & Hx).
    destruct (Z.eqb_spec (k_table_id k') (i_table_id i)); [|done].
    apply bind_Some in Hx as (v' & Hv & [= -> ->]). rewrite Hin. done.
  - intros [Ht Hv]. destruct (m !! k) as [vs|] eqn:Hk; [|done].
    exists (k, vs). split; [by apply elem_of_btree_map_iter|].
    rewrite (proj2 (Z.eqb_eq _ _) Ht), visible_row_newest.
    change (not_null (column_value i (newest rv_commit vs n ≫= rv_row)) = Some v) in Hv. by rewrite Hv.
Qed.

Lemma backfill_pushes_tag m n i sk : sk ∈ (backfill_pushes m n i).*1 → s_index_id sk = i_id i.
Proof.
  unfold backfill_pushes. rewrite <- list_fmap_compose. by intros (p & -> & _)%list_elem_of_fmap.
Qed.

Lemma backfill_pushes_NoDup m n i : NoDup (backfill_pushes m n i).*1.
Proof.
  unfold backfill_pushes. rewrite <- list_fmap_compose.
  assert (NoDup (backfill_entries m n i).*1) as Hnd.
  { unfold backfill_entries. eapply sublist_NoDup with (btree_map_iter m).*1.
    - unfold btree_map_iter. rewrite (fmap_Permutation fst _ _ (merge_sort_Permutation _ _)).
      apply NoDup_fst_map_to_list.
    - induction (btree_map_iter m) as [|[k vs] r IH]; cbn; [constructor|].
      destruct (k_table_id k =? i_table_id i); cbn; [|by constructor].
      destruct (not_null _); cbn; by constructor. }
  assert (∀ p, p ∈ backfill_entries m n i → k_table_id p.1 = i_table_id i) as Ht.
  { intros [k v] Hp%elem_of_backfill_entries. apply Hp. }
  induction (backfill_entries m n i) as [|p r IH]; [constructor|].
  cbn in Hnd |- *. apply NoDup_cons in Hnd as [Hp Hnd]. constructor.
  - intros (q & Hq & Hin)%list_elem_of_fmap. apply Hp. unfold backfill_push in Hq. cbn in Hq.
    injection Hq as _ Hpk. apply list_elem_of_fmap. exists q. split; [|done].
    pose proof (Ht p ltac:(left)) as H1. pose proof (Ht q ltac:(by right)) as H2.
    destruct p as [[] ?], q as [[] ?]; cbn in *. congruence.
  - apply IH; [done|]. intros q Hq. apply Ht. by right.
Qed.
