(* ===== verification/EngineCommit.v ===== *)
(** * A commit preserves the invariant of the engine

    The rows and the index entries after a commit, and [engine_wf] for the
    committed state. *)

From S2P Require Import Prelude CoreTypes CoreCodec EngineExpr EngineCatalog EngineTxn EngineState EngineChains EngineInv.
Import Codec.

(** The row a write leaves. *)
Definition new_of (p : pending) : option Row := new_row_of (w_mutation p.1).

#[export] Instance has_entry_dec i vb row : Decision (has_entry i vb row).
Proof.
  unfold has_entry. destruct (not_null (column_value i row)) as [v|].
  - destruct (decide (encode_ordered v = vb)) as [Hv|Hv]; [left; eauto|right; naive_solver].
  - right. naive_solver.
Defined.

Lemma elem_of_index_pushes n k old new i vb x :
  (entry_key i vb (k_primary_key k), x) ∈ index_pushes n k old new i ↔
  column_value i old ≠ column_value i new
  ∧ (has_entry i vb old ∧ x = mkSecondaryVersion n false
     ∨ has_entry i vb new ∧ x = mkSecondaryVersion n true).
Proof.
  unfold index_pushes. case_decide as Heq; [set_solver|].
  rewrite elem_of_app, !elem_of_entry_push. unfold has_entry, entry_key. naive_solver.
Qed.

(** The pushes of an index carry its entries from the old row to the new. *)
Lemma index_pushes_effect n k old new i vb (b b' : bool) :
  (∀ x, (entry_key i vb (k_primary_key k), x) ∈ index_pushes n k old new i → b' = sv_present x) →
  (entry_key i vb (k_primary_key k) ∉ (index_pushes n k old new i).*1 → b' = b) →
  (b = true ↔ has_entry i vb old) → (b' = true ↔ has_entry i vb new).
Proof.
  intros Hpushed Hun Hold. setoid_rewrite elem_of_index_pushes in Hpushed.
  assert ((∀ x, (entry_key i vb (k_primary_key k), x) ∉ index_pushes n k old new i) → b' = b) as Hun'.
  { intros Hnone. apply Hun. intros ([sk x] & Heq & Hin)%list_elem_of_fmap. cbn in Heq. subst sk. by eapply Hnone. }
  setoid_rewrite elem_of_index_pushes in Hun'.
  destruct (decide (column_value i old = column_value i new)) as [Heq|Hne].
  { rewrite Hun' by naive_solver. rewrite Hold. unfold has_entry. by rewrite Heq. }
  destruct (decide (has_entry i vb new)) as [Hnew|Hnew].
  { rewrite (Hpushed (mkSecondaryVersion n true)) by auto. done. }
  destruct (decide (has_entry i vb old)) as [Ho|Ho].
  - rewrite (Hpushed (mkSecondaryVersion n false)) by auto. done.
  - rewrite Hun' by naive_solver. naive_solver.
Qed.

Section Commit.
Context (e : Engine) (n : Z) (a : TxnAttempt) (c : Catalog) (ixs : list IndexMeta) (l : list pending).
Hypotheses (Hwf : engine_wf e) (Hready : commit_ready e a c ixs l) (Hnext : n = last_applied e + 1)
  (Hwrites : Forall write_ok (writes a)).

Let rows := push_all (primary e) (row_push n <$> l).
Let pushes := (l ≫= write_pushes (Cat.indexes_for_table (catalog e)) n)
              ++ (ixs ≫= backfill_pushes rows n).
Let e' := committed_state e n c ixs l.

Lemma last_nonneg : 0 ≤ last_applied e.
Proof. destruct (ew_floor _ Hwf). lia. Qed.

Lemma row_pushes_NoDup : NoDup (row_push n <$> l).*1.
Proof.
  pose proof (cr_nodup _ _ _ _ _ Hready) as Hnd. rewrite <- list_fmap_compose in Hnd. by rewrite <- list_fmap_compose.
Qed.

Lemma row_pushes_commit : Forall (λ p, rv_commit p.2 = n) (row_push n <$> l).
Proof. apply Forall_fmap, Forall_true. done. Qed.

Lemma write_in p : p ∈ l → p.1 ∈ writes a.
Proof. intros Hp. rewrite <- (cr_writes _ _ _ _ _ Hready). by apply list_elem_of_fmap_2. Qed.

Lemma new_of_ok p : p ∈ l → opt_row_ok (new_of p).
Proof.
  intros Hp row Hrow. rewrite Forall_forall in Hwrites. pose proof (Hwrites _ (write_in p Hp)) as (_ & _ & Hm).
  unfold new_of in Hrow. destruct (w_mutation p.1); [|done]. by injection Hrow as <-.
Qed.

Lemma row_at_ok k ts : opt_row_ok (row_at e k ts).
Proof.
  intros row Hrow. unfold row_at in Hrow. apply bind_Some in Hrow as (v & Hv & Hrow).
  apply bind_Some in Hv as (vs & Hvs & Hv). apply List.find_some in Hv as [Hin _].
  apply list_elem_of_In in Hin. by destruct (ew_rows _ Hwf _ _ _ _ Hvs Hin Hrow) as (? & ? & ? & ? & ? & ?).
Qed.

Lemma old_ok p : p ∈ l → opt_row_ok p.2.2.
Proof. intros Hp. rewrite (cr_old _ _ _ _ _ Hready p Hp). apply row_at_ok. Qed.

Lemma key_table p : p ∈ l → w_table_id p.1 = k_table_id p.2.1.
Proof.
  intros Hp. destruct (cr_valid _ _ _ _ _ Hready p Hp) as [Hk _ _ _].
  by apply logical_key_Ok in Hk as ->.
Qed.

(** Two writes with the same key are the same write. *)
Lemma pending_unique p q : p ∈ l → q ∈ l → p.2.1 = q.2.1 → p = q.
Proof.
  intros Hp Hq Heq. pose proof (cr_nodup _ _ _ _ _ Hready) as Hnd. rewrite <- list_fmap_compose in Hnd.
  apply list_elem_of_lookup in Hp as [i Hi], Hq as [j Hj].
  assert (i = j) as ->; [|congruence].
  eapply NoDup_lookup; [exact Hnd| |]; rewrite list_lookup_fmap.
  - by rewrite Hi.
  - rewrite Hj. cbn. by rewrite <- Heq.
Qed.

Lemma elem_of_write_pushes sk x :
  (sk, x) ∈ l ≫= write_pushes (Cat.indexes_for_table (catalog e)) n ↔
  ∃ p i, p ∈ l ∧ indexes (catalog e) !! i_id i = Some i ∧ i_table_id i = k_table_id p.2.1
    ∧ (sk, x) ∈ index_pushes n p.2.1 p.2.2 (new_of p) i.
Proof.
  rewrite list_elem_of_bind. unfold write_pushes. setoid_rewrite list_elem_of_bind.
  setoid_rewrite (elem_of_indexes_for_table _ _ _ (ew_catalog _ Hwf)). split.
  - intros (p & (i & Hin & Hi & Ht) & Hp). rewrite (key_table p Hp) in Ht. eauto 10.
  - intros (p & i & Hp & Hi & Ht & Hin). exists p. split; [|done]. exists i.
    rewrite (key_table p Hp). eauto.
Qed.

Lemma pushes_commit : Forall (λ p, sv_commit p.2 = n) pushes.
Proof.
  apply Forall_forall. intros [sk x] [Hin|Hin]%elem_of_app.
  - apply elem_of_write_pushes in Hin as (p & i & _ & _ & _ & Hin). unfold index_pushes in Hin.
    case_decide; [set_solver|].
    apply elem_of_app in Hin as [Hin|Hin]; apply elem_of_entry_push in Hin as (w & _ & _ & ->); done.
  - apply list_elem_of_bind in Hin as (i & Hin & _). by apply list_elem_of_fmap in Hin as (p & [= -> ->] & _).
Qed.

Lemma pushes_NoDup : NoDup pushes.*1.
Proof.
  unfold pushes. rewrite fmap_app. apply NoDup_app. split_and!.
  - eapply (NoDup_bind_keyed (λ sk, (i_table_id <$> indexes (catalog e) !! s_index_id sk, s_primary_key sk))
      (λ p, (Some (k_table_id p.2.1), k_primary_key p.2.1))).
    + apply NoDup_fmap_2_strong.
      * intros p q Hp Hq [= H1 H2]. apply pending_unique; [done..|]. destruct (p.2.1), (q.2.1). cbn in *. congruence.
      * pose proof (cr_nodup _ _ _ _ _ Hready) as Hnd. by do 2 apply NoDup_fmap_1 in Hnd.
    + intros p Hp. apply (NoDup_bind_keyed s_index_id i_id).
      * apply indexes_for_table_NoDup, Hwf.
      * intros i _. apply index_pushes_NoDup; [by apply old_ok|by apply new_of_ok].
      * intros i sk _ Hsk. by apply index_pushes_tag in Hsk as [? _].
    + intros p sk Hp Hsk. apply list_elem_of_fmap in Hsk as ([sk' x] & -> & Hin).
      apply list_elem_of_bind in Hin as (i & Hin & Hi).
      apply (elem_of_indexes_for_table _ _ _ (ew_catalog _ Hwf)) in Hi as [Hi Ht].
      apply (list_elem_of_fmap_2 fst) in Hin. apply index_pushes_tag in Hin as [Hid Hpk]. cbn in *.
      rewrite Hid, Hi, Hpk. cbn. by rewrite Ht, key_table.
  - intros sk (q & -> & Hq)%list_elem_of_fmap Hsk. destruct q as [sk x].
    apply elem_of_write_pushes in Hq as (p & i & _ & Hi & _ & Hin).
    apply (list_elem_of_fmap_2 fst) in Hin. apply index_pushes_tag in Hin as [Hid _]. cbn in *.
    apply list_elem_of_fmap in Hsk as ([sk' x'] & Heq & Hsk). cbn in Heq. subst sk'.
    apply list_elem_of_bind in Hsk as (j & Hj & Hjx).
    apply (list_elem_of_fmap_2 fst) in Hj. apply backfill_pushes_tag in Hj. cbn in Hj.
    apply (cr_ixs _ _ _ _ _ Hready) in Hjx as [_ Hnone]. congruence.
  - apply (NoDup_bind_keyed s_index_id i_id).
    + apply Hready.
    + intros i _. apply backfill_pushes_NoDup.
    + intros i sk _. apply backfill_pushes_tag.
Qed.

(** *** Rows after the commit *)

Lemma row_at_before k ts : ts < n → row_at e' k ts = row_at e k ts.
Proof.
  intros Hts. unfold row_at, e', committed_state. cbn [primary set_catalog set_primary].
  by rewrite (at_push_all_old rv_commit n _ row_pushes_NoDup row_pushes_commit).
Qed.

Lemma row_at_written p ts : p ∈ l → n ≤ ts → row_at e' p.2.1 ts = new_of p.
Proof.
  intros Hp Hts. unfold row_at, e', committed_state. cbn [primary set_catalog set_primary].
  by rewrite (at_push_all_in rv_commit n _ row_pushes_NoDup row_pushes_commit _ _ (row_push n p).2 ts);
    [|apply (list_elem_of_fmap_2 (row_push n))|].
Qed.

Lemma row_at_unwritten k ts : (∀ p, p ∈ l → p.2.1 ≠ k) → row_at e' k ts = row_at e k ts.
Proof.
  intros Hk. unfold row_at, e', committed_state. cbn [primary set_catalog set_primary].
  rewrite at_push_all_out; [done|]. rewrite <- list_fmap_compose.
  intros (p & Hp & Hin)%list_elem_of_fmap. by eapply Hk.
Qed.

Lemma row_at_now k ts : n ≤ ts → row_at e k ts = row_at e k (last_applied e).
Proof. intros Hts. unfold row_at. erewrite at_ts_saturates; [done|apply Hwf|lia]. Qed.

Lemma row_at_then k ts : n ≤ ts → row_at e' k ts = row_at e' k n.
Proof.
  intros Hts. destruct (decide (k ∈ l.*2.*1)) as [Hin|Hout].
  - rewrite <- list_fmap_compose in Hin. apply list_elem_of_fmap in Hin as (p & -> & Hp). cbn.
    rewrite !row_at_written; (done || lia).
  - assert (∀ p, p ∈ l → p.2.1 ≠ k) as Hk.
    { intros p Hp <-. apply Hout. rewrite <- list_fmap_compose. by apply (list_elem_of_fmap_2 (fst ∘ snd)). }
    rewrite (row_at_unwritten k ts), (row_at_unwritten k n), (row_at_now k ts), (row_at_now k n); (done || lia).
Qed.

(** *** Index entries after the commit *)

Lemma entry_at_before k ts : ts < n → entry_at e' k ts = entry_at e k ts.
Proof.
  intros Hts. unfold entry_at, e', committed_state. cbn [secondary set_catalog set_primary set_secondary].
  by rewrite (at_push_all_old sv_commit n _ pushes_NoDup pushes_commit).
Qed.

Lemma entry_at_pushed k x ts : (k, x) ∈ pushes → n ≤ ts → entry_at e' k ts = sv_present x.
Proof.
  intros Hin Hts. unfold entry_at, e', committed_state. cbn [secondary set_catalog set_primary set_secondary].
  by rewrite (at_push_all_in sv_commit n _ pushes_NoDup pushes_commit _ _ x ts).
Qed.

Lemma entry_at_unpushed k ts : k ∉ pushes.*1 → entry_at e' k ts = entry_at e k ts.
Proof.
  intros Hk. unfold entry_at, e', committed_state. cbn [secondary set_catalog set_primary set_secondary].
  by rewrite at_push_all_out.
Qed.

(** *** The indexes follow the rows *)

(** An existing index is touched only through the pushes of its own key. *)
Lemma entry_at_untouched i vb pk ts :
  indexes (catalog e) !! i_id i = Some i →
  (∀ p, p ∈ l → p.2.1 = {| k_table_id := i_table_id i; k_primary_key := pk |} →
     entry_key i vb pk ∉ (index_pushes n p.2.1 p.2.2 (new_of p) i).*1) →
  entry_at e' (entry_key i vb pk) ts = entry_at e (entry_key i vb pk) ts.
Proof.
  intros Hi Hnin. apply entry_at_unpushed. unfold pushes. rewrite fmap_app.
  intros [Hin|Hin]%elem_of_app; apply list_elem_of_fmap in Hin as ([sk x] & Heq & Hin); cbn in Heq; subst sk.
  - apply elem_of_write_pushes in Hin as (q & j & Hq & Hj & Htq & Hin).
    pose proof (list_elem_of_fmap_2 fst _ _ Hin) as Htag. apply index_pushes_tag in Htag as [H1 H2].
    cbn in H1, H2. rewrite <- H1, Hi in Hj. injection Hj as <-.
    eapply (Hnin q); [done|destruct (q.2.1); cbn in *; congruence|].
    exact (list_elem_of_fmap_2 fst _ _ Hin).
  - apply list_elem_of_bind in Hin as (j & Hj & Hjx).
    apply (list_elem_of_fmap_2 fst), backfill_pushes_tag in Hj. cbn in Hj.
    apply (cr_ixs _ _ _ _ _ Hready) in Hjx as [_ Hnone]. congruence.
Qed.

(** An index that agreed with the rows since [created] still does. *)
Lemma old_index_agrees created h o i :
  indexes (catalog e) !! i_id i = Some i → index_agrees created e i → index_agrees created (set_applied n h o e') i.
Proof.
  intros Hi Hspec ts vb pk Hcr Hfl.
  change (entry_at e' (entry_key i vb pk) ts = true
          ↔ has_entry i vb (row_at e' {| k_table_id := i_table_id i; k_primary_key := pk |} ts)).
  specialize (Hspec ts vb pk Hcr Hfl). set (k := {| k_table_id := i_table_id i; k_primary_key := pk |}) in *.
  destruct (Z.lt_ge_cases ts n) as [Hlt|Hge].
  { by rewrite entry_at_before, row_at_before. }
  destruct (decide (k ∈ l.*2.*1)) as [Hin|Hout].
  - rewrite <- list_fmap_compose in Hin. apply list_elem_of_fmap in Hin as (p & Hk & Hp). cbn in Hk.
    rewrite Hk, (row_at_written p) by done.
    rewrite Hk, (row_at_now _ ts Hge), <- (cr_old _ _ _ _ _ Hready p Hp) in Hspec.
    replace pk with (k_primary_key p.2.1) in * by (by rewrite <- Hk).
    eapply index_pushes_effect; [..|exact Hspec].
    + intros x Hin. apply entry_at_pushed; [|done]. apply elem_of_app. left.
      apply elem_of_write_pushes. exists p, i. rewrite <- Hk. by split_and!.
    + intros Hnin. apply entry_at_untouched; [done|]. intros q Hq Hqk.
      rewrite (pending_unique q p); [by rewrite <- Hk|done..|]. by rewrite Hqk, <- Hk.
  - assert (∀ p, p ∈ l → p.2.1 ≠ k) as Hk.
    { intros p Hp <-. apply Hout. rewrite <- list_fmap_compose. by apply (list_elem_of_fmap_2 (fst ∘ snd)). }
    rewrite row_at_unwritten, entry_at_untouched; [done|done| |done].
    intros p Hp Hpk. by destruct (Hk p Hp).
Qed.

Lemma new_index_tracks h o i :
  indexes c !! i_id i = Some i → indexes (catalog e) !! i_id i = None →
  index_tracks (set_applied n h o e') i.
Proof.
  intros Hi Hnone. pose proof last_nonneg. exists n. cbn [last_applied set_applied]. split; [lia|].
  intros ts vb pk Hts _.
  change (entry_at e' (entry_key i vb pk) ts = true
          ↔ has_entry i vb (row_at e' {| k_table_id := i_table_id i; k_primary_key := pk |} ts)).
  rewrite row_at_then by done. set (k := {| k_table_id := i_table_id i; k_primary_key := pk |}).
  split.
  - intros He. destruct (decide (entry_key i vb pk ∈ pushes.*1)) as [Hin|Hout].
    + apply list_elem_of_fmap in Hin as ([sk x] & Heq & Hin). cbn in Heq. subst sk.
      apply elem_of_app in Hin as [Hin|Hin].
      { apply elem_of_write_pushes in Hin as (p & j & _ & Hj & _ & Hin).
        apply (list_elem_of_fmap_2 fst), index_pushes_tag in Hin as [Htag _]. cbn in Htag. congruence. }
      apply list_elem_of_bind in Hin as (j & Hin & Hj).
      apply list_elem_of_fmap in Hin as ([k' v] & [= Hid Hvb Hpk Hx] & Hin).
      apply (cr_ixs _ _ _ _ _ Hready) in Hj as [Hj _]. rewrite <- Hid, Hi in Hj. injection Hj as <-.
      apply elem_of_backfill_entries in Hin as [Htk Hv]. exists v. split; [|done].
      assert (k = k') as ->; [|done]. destruct k'. unfold k. cbn in *. congruence.
    + rewrite entry_at_unpushed in He by done. unfold entry_at, at_ts in He.
      destruct (secondary e !! entry_key i vb pk) eqn:Hs; [|done].
      destruct (ew_entries _ Hwf _ _ Hs) as [? Hx]. cbn in Hx. congruence.
  - intros (v & Hv & <-).
    rewrite (entry_at_pushed _ (mkSecondaryVersion n true)); [done| |done].
    apply elem_of_app. right. apply list_elem_of_bind. exists i. split; [|by apply Hready].
    apply (list_elem_of_fmap_2 (backfill_push n i) _ (k, v)). by apply elem_of_backfill_entries.
Qed.

(** *** The invariant *)

Lemma committed_rows_valid k vs v row :
  primary e' !! k = Some vs → v ∈ vs → rv_row v = Some row → row_valid c k row.
Proof.
  assert (∀ vs', primary e !! k = Some vs' → v ∈ vs' → rv_row v = Some row → row_valid c k row) as Hold.
  { intros vs' Hk Hv Hrow. destruct (ew_rows _ Hwf _ _ _ _ Hk Hv Hrow) as (t & pk & Ht & Hrest).
    exists t, pk. split; [|done]. eapply lookup_weaken; [exact Ht|apply Hready]. }
  unfold e', committed_state. cbn [primary set_catalog set_primary]. intros Hk Hv Hrow.
  destruct (push_all_cases (row_push n <$> l) (primary e) k row_pushes_NoDup) as [(x & Hin & Hl)|[_ Hl]];
    rewrite Hl in Hk.
  - injection Hk as <-. apply elem_of_cons in Hv as [->|Hv].
    + apply list_elem_of_fmap in Hin as (p & [= -> ->] & Hp).
      destruct (cr_valid _ _ _ _ _ Hready p Hp) as [_ Hput _ _]. cbn in Hrow.
      pose proof (new_of_ok p Hp row Hrow) as Hok. destruct (w_mutation p.1) as [r|]; [|done].
      injection Hrow as ->. by apply Hput.
    + destruct (primary e !! k) as [vs'|]; [|by apply elem_of_nil in Hv]. by eapply Hold.
  - by eapply Hold.
Qed.

Lemma committed_entries k vs :
  secondary e' !! k = Some vs → is_Some (indexes c !! s_index_id k).
Proof.
  assert (∀ i, indexes (catalog e) !! i_id i = Some i → is_Some (indexes c !! i_id i)) as Hgrow.
  { intros i Hi. exists i. eapply lookup_weaken; [exact Hi|apply Hready]. }
  unfold e', committed_state. cbn [secondary set_catalog set_primary set_secondary].
  destruct (push_all_cases pushes (secondary e) k pushes_NoDup) as [(x & Hin & Hl)|[_ Hl]];
    unfold pushes, rows in Hl; rewrite Hl; intros Hk.
  - apply elem_of_app in Hin as [Hin|Hin].
    + apply elem_of_write_pushes in Hin as (p & i & _ & Hi & _ & Hin).
      apply (list_elem_of_fmap_2 fst), index_pushes_tag in Hin as [Hid _]. cbn in Hid. rewrite Hid. by apply Hgrow.
    + apply list_elem_of_bind in Hin as (i & Hin & Hi).
      apply (list_elem_of_fmap_2 fst), backfill_pushes_tag in Hin. cbn in Hin. rewrite Hin.
      apply (cr_ixs _ _ _ _ _ Hready) in Hi as [Hi _]. eauto.
  - destruct (ew_entries _ Hwf _ _ Hk) as [i Hi]. pose proof (cat_indexes _ (ew_catalog _ Hwf) _ _ Hi) as [Hid _].
    rewrite <- Hid. apply Hgrow. congruence.
Qed.

Lemma committed_chains :
  chains_ok rv_commit n (primary e') ∧ chains_ok sv_commit n (secondary e').
Proof.
  pose proof last_nonneg. split.
  - eapply (push_all_chains rv_commit (last_applied e)); [done|lia|apply row_pushes_NoDup|apply row_pushes_commit|apply Hwf].
  - eapply (push_all_chains sv_commit (last_applied e)); [done|lia|apply pushes_NoDup|apply pushes_commit|apply Hwf].
Qed.

Lemma committed_indexes h o id i :
  indexes c !! id = Some i → index_tracks (set_applied n h o e') i.
Proof.
  intros Hi. pose proof (cat_indexes _ (cr_cat _ _ _ _ _ Hready) _ _ Hi) as [<- _].
  destruct (indexes (catalog e) !! i_id i) as [j|] eqn:Hj.
  - assert (j = i) as -> by (eapply lookup_weaken in Hj; [|apply Hready]; congruence).
    destruct (ew_indexes _ Hwf _ _ Hj) as (created & Hc & Ha). exists created.
    cbn [last_applied set_applied]. split; [lia|]. by apply old_index_agrees.
  - by apply new_index_tracks.
Qed.
End Commit.
