(* ===== verification/EngineSteps.v ===== *)
(** * The engine as a state machine

    Every operation that changes the engine, as one step relation; the
    invariant holds in every reachable state, and a step never changes what a
    retained snapshot reads. *)

From S2P Require Import Prelude CoreTypes CoreCodec EngineExpr EngineCatalog EngineTxn EngineState EngineChains EngineInv EngineCommit.
Import Codec.

(** ** Inverting [apply_with_request_hash] *)

Definition recorded (a : TxnAttempt) (rh : bytes) (r : CommitResult) (e : Engine) : Engine :=
  set_clients (<[client_id (request a) := mkClientRecord (sequence (request a)) rh r]> (clients e)) e.

(** The entry was applied now, not replayed. *)
Inductive applied_now (e : Engine) (i : Z) (rh : bytes) (a : TxnAttempt) : Engine → ApplyOutcome → Prop :=
| now_new e1 r :
    admit_request e (request a) rh = AdmitNew → evaluate_and_apply e i a = (e1, r) →
    applied_now e i rh a (recorded a rh r e1) (Applied r)
| now_duplicate r :
    admit_request e (request a) rh = AdmitDuplicate r →
    applied_now e i rh a (set_stats (bump_duplicate (stats e)) e) (Duplicate r)
| now_rejected r :
    admit_request e (request a) rh = AdmitRejected r →
    applied_now e i rh a (set_stats (bump_rejected (stats e)) e) (Rejected r).

Lemma apply_inv e i h rh a e' o :
  apply_with_request_hash e i h rh a = Ok (e', o) →
  (i = last_applied e ∧ e' = e ∧ last_apply_hash e = Some h ∧ last_apply_outcome e = Some o)
  ∨ (i = last_applied e + 1 ∧ i ≤ u64_max ∧
     ∃ e1, applied_now e i rh a e1 o ∧ e' = set_applied i (Some h) (Some o) e1).
Proof.
  intros (u & _ & Hx)%result_bind_Ok. destruct (Z.eqb_spec i (last_applied e)) as [Hi|Hi].
  - apply result_bind_Ok in Hx as (u1 & H1%ensure_Ok & Hx). apply result_bind_Ok in Hx as (o' & H2%ok_or_Ok & Hx).
    apply Ok_inj in Hx as [= <- <-]. bool_prop. left. done.
  - apply result_bind_Ok in Hx as (nx & (-> & Hmax)%ok_or_Ok%checked_add_Some & Hx).
    apply result_bind_Ok in Hx as (u1 & H1%ensure_Ok & Hx). bool_prop. right. split; [done|]. split; [lia|].
    destruct (admit_request e (request a) rh) as [|r|r] eqn:Had.
    + destruct (evaluate_and_apply e i a) as [e1 r] eqn:Hev. apply Ok_inj in Hx as [= <- <-].
      eexists. split; [by eapply now_new|done].
    + apply Ok_inj in Hx as [= <- <-]. eexists. split; [by eapply now_duplicate|done].
    + apply Ok_inj in Hx as [= <- <-]. eexists. split; [by eapply now_rejected|done].
Qed.

(** The same versions and the same catalog. *)
Definition same_data (e e' : Engine) : Prop :=
  catalog e' = catalog e ∧ primary e' = primary e ∧ secondary e' = secondary e.

(** The result of evaluating an attempt: an abort that changes no data, or a
    commit. *)
Inductive evaluated (e : Engine) (n : Z) (a : TxnAttempt) : Engine → CommitResult → Prop :=
| evaluated_abort reason :
    evaluated e n a (set_stats (bump_aborted (stats e)) e) (Aborted n reason)
| evaluated_commit c ixs l :
    commit_ready e a c ixs l →
    evaluated e n a
      (refresh_version_stats (set_stats (bump_committed (stats e)) (committed_state e n c ixs l)))
      (Committed n (zlen (writes a)) (c_schema_epoch c)).

Lemma evaluate_inv e n a e1 r :
  cat_wf (catalog e) → evaluate_and_apply e n a = (e1, r) → evaluated e n a e1 r.
Proof.
  intros Hc. rewrite evaluate_and_apply_eq.
  destruct (validate_attempt_for_apply e a) as [[c ixs]|] eqn:Hv; [|intros [= <- <-]; constructor].
  destruct (mapM_result (before_row e) (writes a)) as [l|] eqn:Hm; [|intros [= <- <-]; constructor].
  intros [= <- <-]. apply evaluated_commit. by apply commit_ready_intro.
Qed.

(** ** Preservation *)

Lemma index_agrees_ext created e e' i :
  primary e' = primary e → secondary e' = secondary e → retained_floor e' = retained_floor e →
  index_agrees created e i → index_agrees created e' i.
Proof. intros Hp Hs Hf Ha ts vb pk. unfold entry_at, row_at. rewrite Hp, Hs, Hf. apply Ha. Qed.

Lemma index_tracks_ext e e' i :
  primary e' = primary e → secondary e' = secondary e → retained_floor e' = retained_floor e →
  last_applied e ≤ last_applied e' → index_tracks e i → index_tracks e' i.
Proof.
  intros Hp Hs Hf Hl (created & Hc & Ha). exists created. split; [lia|]. by eapply index_agrees_ext.
Qed.

Definition clients_ok (m : gmap bytes ClientRecord) : Prop :=
  ∀ c r, m !! c = Some r → 1 ≤ r_sequence r ≤ u64_max.

(** Advancing the applied index without touching data. *)
Lemma wf_no_data e e' i h o :
  engine_wf e → same_data e e' → i = last_applied e + 1 → i ≤ u64_max →
  retained_floor e' = retained_floor e → next_txn_id e' = next_txn_id e →
  primary_versions (stats e') = primary_versions (stats e) →
  secondary_versions (stats e') = secondary_versions (stats e) → clients_ok (clients e') →
  engine_wf (set_applied i (Some h) (Some o) e').
Proof.
  intros [Hc Hf Hp Hs Hr He Hi Ha Hm Hcl [Hst1 Hst2] Ht] (Ec & Ep & Es) Hn Hmax Ef Et E1 E2 Hcl'.
  split; cbn; rewrite ?Ec, ?Ep, ?Es, ?Ef, ?Et, ?E1, ?E2; try done.
  - lia.
  - intros k l Hk. eapply chain_ok_le; [by eapply Hp|lia].
  - intros k l Hk. eapply chain_ok_le; [by eapply Hs|lia].
  - intros id j Hj. eapply (index_tracks_ext e); cbn; [done..|lia|]. by eapply Hi.
  - destruct (Z.eqb_spec i 0); [lia|]. eauto.
Qed.

Lemma wf_commit e n a c ixs l s cl h o :
  engine_wf e → commit_ready e a c ixs l → Forall write_ok (writes a) →
  n = last_applied e + 1 → n ≤ u64_max → clients_ok cl →
  engine_wf (set_applied n (Some h) (Some o) (set_clients cl
    (refresh_version_stats (set_stats s (committed_state e n c ixs l))))).
Proof.
  intros Hwf Hr Hw Hn Hmax Hcl. pose proof (ew_floor _ Hwf) as Hf.
  destruct (committed_chains e n a c ixs l Hwf Hr Hn Hw) as [Hp Hs].
  split; cbn -[committed_state]; [apply Hr|cbn; lia|exact Hp|exact Hs|..].
  - by apply (committed_rows_valid e n a c ixs l).
  - by apply (committed_entries e n a c ixs l).
  - intros id i Hi. pose proof (committed_indexes e n a c ixs l Hwf Hr Hn Hw (Some h) (Some o) id i Hi) as Ht.
    by eapply index_tracks_ext in Ht; [exact Ht|..].
  - done.
  - destruct (Z.eqb_spec n 0); [lia|]. eauto.
  - done.
  - done.
  - apply Hwf.
Qed.

Lemma clients_ok_insert m c r : clients_ok m → 1 ≤ r_sequence r ≤ u64_max → clients_ok (<[c := r]> m).
Proof. intros Hm Hr c' r' [[<- <-]|[_ ?]]%lookup_insert_Some; eauto. Qed.

Lemma admit_new_sequence e req h :
  engine_wf e → u64_ok (sequence req) → admit_request e req h = AdmitNew → 1 ≤ sequence req ≤ u64_max.
Proof.
  intros Hwf Hu. unfold admit_request. destruct (clients e !! client_id req) as [r|] eqn:Hr.
  - pose proof (ew_clients _ Hwf _ _ Hr). destruct (Z.compare_spec (sequence req) (r_sequence r)).
    + by destruct (bool_decide _).
    + done.
    + intros _. unfold u64_ok in Hu. lia.
  - destruct (Z.eqb_spec (sequence req) 1); [|done]. intros _. ulia.
Qed.

Lemma apply_now_wf e i rh a e1 o h :
  engine_wf e → attempt_ok a → i = last_applied e + 1 → i ≤ u64_max →
  applied_now e i rh a e1 o → engine_wf (set_applied i (Some h) (Some o) e1).
Proof.
  intros Hwf Ha Hi Hmax [e1' r Had Hev|r Had|r Had].
  - pose proof (admit_new_sequence _ _ _ Hwf (ao_seq _ Ha) Had) as Hseq.
    apply evaluate_inv in Hev; [|apply Hwf]. destruct Hev as [reason|c ixs l Hr]; unfold recorded.
    + eapply (wf_no_data e); try done. apply clients_ok_insert; [exact (ew_clients _ Hwf)|done].
    + apply (wf_commit e i a); try done; [apply Ha|]. apply clients_ok_insert; [exact (ew_clients _ Hwf)|done].
  - eapply (wf_no_data e); try done. exact (ew_clients _ Hwf).
  - eapply (wf_no_data e); try done. exact (ew_clients _ Hwf).
Qed.

Lemma apply_wf e i h rh a e' o :
  engine_wf e → attempt_ok a → apply_with_request_hash e i h rh a = Ok (e', o) → engine_wf e'.
Proof.
  intros Hwf Ha [(_ & -> & _)|(Hi & Hmax & e1 & Hnow & ->)]%apply_inv; [done|]. by eapply apply_now_wf.
Qed.

Lemma apply_noop_inv e i h e' o :
  apply_noop e i h = Ok (e', o) → o = NoopOutcome ∧
  ((i = last_applied e ∧ e' = e ∧ last_apply_hash e = Some h ∧ last_apply_outcome e = Some NoopOutcome)
   ∨ (i = last_applied e + 1 ∧ i ≤ u64_max ∧ e' = set_applied i (Some h) (Some NoopOutcome) e)).
Proof.
  unfold apply_noop. destruct (Z.eqb_spec i (last_applied e)) as [Hi|Hi].
  - intros (u & Hx%ensure_Ok & [= <- <-]%Ok_inj)%result_bind_Ok. bool_prop. split; [done|]. by left.
  - intros (nx & (-> & Hmax)%ok_or_Ok%checked_add_Some & Hx)%result_bind_Ok.
    apply result_bind_Ok in Hx as (u & H1%ensure_Ok & [= <- <-]%Ok_inj). bool_prop.
    split; [done|]. right. split_and!; [done|lia|done].
Qed.

Lemma apply_noop_wf e i h e' o : engine_wf e → apply_noop e i h = Ok (e', o) → engine_wf e'.
Proof.
  intros Hwf (_ & [(_ & -> & _)|(Hi & Hmax & ->)])%apply_noop_inv; [done|].
  eapply (wf_no_data e); try done. exact (ew_clients _ Hwf).
Qed.

(** *** Vacuum *)

Lemma vacuum_offline_inv e f e' r :
  vacuum_offline e f = Ok (e', r) →
  f ≤ last_applied e ∧ ∃ s, 
  e' = refresh_version_stats (set_stats s (set_floor (Z.max f (retained_floor e))
    (set_secondary (vacuum_map sv_commit sv_present (secondary e) (Z.max f (retained_floor e)))
      (set_primary (vacuum_map rv_commit keep_row (primary e) (Z.max f (retained_floor e))) e)))).
Proof.
  intros (u & H1%ensure_Ok & [= <- <-]%Ok_inj)%result_bind_Ok. bool_prop. split; [lia|]. eexists. reflexivity.
Qed.

Lemma vacuum_row_at e e' f r k ts :
  engine_wf e → vacuum_offline e f = Ok (e', r) → retained_floor e' ≤ ts → row_at e' k ts = row_at e k ts.
Proof.
  intros Hwf (_ & s & ->)%vacuum_offline_inv. cbn. intros Hts. unfold row_at. cbn.
  rewrite read_kept_row, (vacuum_map_reads rv_commit keep_row (last_applied e)); [|apply Hwf|done].
  by rewrite <- read_kept_row.
Qed.

Lemma vacuum_entry_at e e' f r k ts :
  engine_wf e → vacuum_offline e f = Ok (e', r) → retained_floor e' ≤ ts → entry_at e' k ts = entry_at e k ts.
Proof.
  intros Hwf (_ & s & ->)%vacuum_offline_inv. cbn. intros Hts. unfold entry_at. cbn.
  rewrite read_kept_entry, (vacuum_map_reads sv_commit sv_present (last_applied e)); [|apply Hwf|done].
  by rewrite <- read_kept_entry.
Qed.

Lemma vacuum_index_agrees e e' f r created i :
  engine_wf e → vacuum_offline e f = Ok (e', r) → index_agrees created e i → index_agrees created e' i.
Proof.
  intros Hwf Hv Ha ts vb pk Hts Hfl.
  assert (retained_floor e ≤ retained_floor e') as Hle by (destruct (vacuum_offline_inv _ _ _ _ Hv) as (_ & s & ->); cbn; lia).
  rewrite (vacuum_row_at e e' f r), (vacuum_entry_at e e' f r) by done. apply Ha; lia.
Qed.

Lemma vacuum_wf e f e' r :
  engine_wf e → vacuum_offline e f = Ok (e', r) → engine_wf e'.
Proof.
  intros Hwf Hv. pose proof (vacuum_offline_inv _ _ _ _ Hv) as (Hf & s & Heq).
  pose proof Hwf as [Hc Hfl Hp Hs Hr He Hi Ha Hm Hcl _ Ht].
  assert (last_applied e' = last_applied e) as Hla by (by rewrite Heq).
  assert (∀ id i, indexes (catalog e') !! id = Some i → index_tracks e' i) as Hidx.
  { intros id i Hid. rewrite Heq in Hid. destruct (Hi _ _ Hid) as (created & Hcr & Hspec). exists created.
    split; [lia|]. by eapply vacuum_index_agrees. }
  split; try exact Hidx; rewrite Heq; cbn; try done.
  - lia.
  - by apply vacuum_map_chains.
  - by apply vacuum_map_chains.
  - intros k l v row (l0 & Hk & -> & _)%vacuum_map_lookup Hin Hrv. eapply Hr; [exact Hk| |done].
    eapply elem_of_sublist; [exact Hin|apply vacuum_sub].
  - intros k l (l0 & Hk & _)%vacuum_map_lookup. by eapply He.
Qed.

Lemma begin_at_inv e ts ep e' x :
  begin_at e ts ep = Ok (e', x) →
  retained_floor e ≤ ts ≤ last_applied e ∧ ep ≤ c_schema_epoch (catalog e)
  ∧ e' = set_next_txn_id (next_txn_id e + 1) e ∧ x = Txn.new (next_txn_id e) ts ep.
Proof.
  intros (u1 & H1%ensure_Ok & Hx)%result_bind_Ok. apply result_bind_Ok in Hx as (u2 & H2%ensure_Ok & Hx).
  apply result_bind_Ok in Hx as (u3 & H3%ensure_Ok & Hx).
  apply result_bind_Ok in Hx as (nx & (-> & _)%ok_or_Ok%checked_add_Some & [= <- <-]%Ok_inj). bool_prop.
  split_and!; [lia..|done|done].
Qed.

Lemma begin_at_wf e ts ep e' x : engine_wf e → begin_at e ts ep = Ok (e', x) → engine_wf e'.
Proof.
  intros [Hc Hf Hp Hs Hr He Hi Ha Hm Hcl Hst Ht] (_ & _ & -> & _)%begin_at_inv. split; cbn; try done. lia.
Qed.

(** *** Snapshots *)

Section Rebuild.
Context {K V B E : Type} `{Countable K, !Compare K, !CompareLaws K}.
Context (load : gmap K V → B → result E (gmap K V)) (f : K * V → B) (m : gmap K V).
Hypothesis load_fresh : ∀ m' k v,
  m !! k = Some v → m' !! k = None → load m' (f (k, v)) = Ok (<[k := v]> m').

Lemma foldM_load m0 l :
  NoDup l.*1 → (∀ k v, (k, v) ∈ l → m !! k = Some v ∧ m0 !! k = None) →
  foldM load m0 (f <$> l) = Ok (list_to_map l ∪ m0).
Proof.
  revert m0. induction l as [|[k v] l IH]; intros m0 Hnd Hl; cbn [foldM fmap list_fmap list_to_map foldr].
  - f_equal. by rewrite (left_id_L ∅ (∪)).
  - cbn in Hnd. apply NoDup_cons in Hnd as [Hk Hnd]. destruct (Hl k v ltac:(left)) as [Hm H0].
    rewrite load_fresh by done. cbn [mbind result_bind]. rewrite IH; [|done|].
    + f_equal. rewrite <- (insert_union_r (list_to_map l) m0 k v); [|by apply not_elem_of_list_to_map_1].
      cbn. by rewrite insert_union_l.
    + intros k' v' Hin. destruct (Hl k' v' ltac:(by right)) as [? ?]. split; [done|].
      rewrite lookup_insert_ne; [done|]. intros <-. apply Hk. by apply (list_elem_of_fmap_2 fst l (k, v')).
Qed.

(** Loading the entries of a map, in any order, rebuilds it. *)
Lemma foldM_rebuild_perm l : l ≡ₚ f <$> btree_map_iter m → foldM load ∅ l = Ok m.
Proof.
  intros (l' & -> & Hl)%Permutation_map_inv. change (map f l') with (f <$> l').
  assert (l' ≡ₚ map_to_list m) as Hm by (rewrite <- Hl; unfold btree_map_iter; apply merge_sort_Permutation).
  assert (NoDup l'.*1) as Hnd by (rewrite Hm; apply NoDup_fst_map_to_list).
  rewrite foldM_load; [|done|intros k v Hin; rewrite Hm in Hin; apply elem_of_map_to_list in Hin; split; [done|apply lookup_empty]].
  f_equal. rewrite (right_id_L ∅ (∪)). etrans; [|apply list_to_map_to_list]. by apply list_to_map_proper.
Qed.

Lemma foldM_rebuild : foldM load ∅ (f <$> btree_map_iter m) = Ok m.
Proof. by apply foldM_rebuild_perm. Qed.
End Rebuild.

Lemma any_ascending_sorted (l : list Z) :
  StronglySorted (λ a b, b < a) l → any_ascending l = false.
Proof.
  induction 1 as [|a l Hs IH Ha]; [done|]. cbn [any_ascending]. destruct l as [|b l]; [done|].
  inversion Ha; subst. destruct (Z.leb_spec a b); [lia|done].
Qed.

Lemma sorted_fmap {A B} (R : B → B → Prop) (g : A → B) l :
  StronglySorted (λ a b, R (g a) (g b)) l → StronglySorted R (g <$> l).
Proof. induction 1; cbn; constructor; [done|]. by apply Forall_fmap. Qed.

Lemma chain_ok_validates {V} (commit : V → Z) last l :
  chain_ok commit last l → bad_chain (commit <$> l) last = false.
Proof.
  intros [Hn Hs Hr]. unfold bad_chain. rewrite !orb_false_iff. split_and!.
  - by destruct l.
  - by apply any_ascending_sorted, (sorted_fmap (λ a b, b < a)).
  - apply not_true_iff_false. rewrite existsb_exists. intros (x & Hin & Hx).
    apply list_elem_of_In, list_elem_of_fmap in Hin as (v & -> & Hv). rewrite Forall_forall in Hr.
    specialize (Hr v Hv). cbn in Hr. apply orb_true_iff in Hx as [Hx|Hx]; bool_prop; lia.
Qed.

(** A snapshot up to the order of its entries. *)
Record snapshot_perm (s s' : EngineSnapshot) : Prop := {
  sp_format : f_format s = f_format s';
  sp_catalog : f_catalog s = f_catalog s';
  sp_primary : f_primary s ≡ₚ f_primary s';
  sp_secondary : f_secondary s ≡ₚ f_secondary s';
  sp_clients : f_clients s ≡ₚ f_clients s';
  sp_applied : f_last_applied s = f_last_applied s';
  sp_hash : f_last_apply_hash s = f_last_apply_hash s';
  sp_outcome : f_last_apply_outcome s = f_last_apply_outcome s';
  sp_floor : f_retained_floor s = f_retained_floor s';
  sp_txn : f_next_txn_id s = f_next_txn_id s';
  sp_stats : f_stats s = f_stats s'
}.

(** The three loading loops on the entries of a well-formed engine. *)
Lemma load_all e s :
  engine_wf e → snapshot_perm s (snapshot e) →
  foldM (load_primary (last_applied e)) ∅ (f_primary s) = Ok (primary e)
  ∧ foldM (load_secondary (catalog e) (last_applied e)) ∅ (f_secondary s) = Ok (secondary e)
  ∧ foldM load_client ∅ (f_clients s) = Ok (clients e).
Proof.
  intros [Hc Hf Hp Hs Hr He Hi Ha Hm Hcl _ Ht] [_ _ Pp Ps Pc _ _ _ _ _ _].
  split_and!; [eapply foldM_rebuild_perm; [|exact Pp]|eapply foldM_rebuild_perm; [|exact Ps]|eapply foldM_rebuild_perm; [|exact Pc]].
  - intros m [t pk] l Hk Hnone. unfold load_primary, validate_row_versions. cbn.
    rewrite chain_ok_validates by (by eapply Hp). cbn. by rewrite bool_decide_true.
  - intros m k l Hk Hnone. unfold load_secondary, validate_secondary_versions. cbn.
    rewrite chain_ok_validates by (by eapply Hs). cbn. rewrite (bool_decide_true (is_Some _)) by (by eapply He).
    cbn. by rewrite bool_decide_true.
  - intros m c r Hk Hnone. unfold load_client. cbn. pose proof (Hcl _ _ Hk).
    destruct (Z.eqb_spec (r_sequence r) 0); [lia|]. cbn. by rewrite bool_decide_true.
Qed.

Lemma from_snapshot_perm e s : engine_wf e → snapshot_perm s (snapshot e) → from_snapshot s = Ok e.
Proof.
  intros Hwf Hsp. destruct (load_all e s Hwf Hsp) as (Hp & Hs & Hcl). unfold from_snapshot.
  destruct Hsp as [-> -> _ _ _ -> -> -> -> -> ->].
  destruct Hwf as [Hc Hf _ _ _ _ _ _ Hm _ [Hst1 Hst2] Ht]. unfold ensure.
  pose proof (proj2 (cat_validate_wf _) Hc) as Hcv. cbn [f_format f_catalog snapshot].
  destruct (Cat.validate (catalog e)) as [[]|]; [|done].
  cbn [f_last_applied f_retained_floor f_last_apply_hash f_last_apply_outcome snapshot].
  destruct (Z.ltb_spec (last_applied e) (retained_floor e)); [lia|].
  assert (Bool.eqb (last_applied e =? 0) (bool_decide (last_apply_hash e = None)
            && bool_decide (last_apply_outcome e = None)) = true
          ∧ negb ((0 <? last_applied e) && (bool_decide (last_apply_hash e = None)
            || bool_decide (last_apply_outcome e = None))) = true) as [-> ->].
  { destruct (Z.eqb_spec (last_applied e) 0) as [H0|H0].
    - destruct Hm as [-> ->]. by rewrite H0.
    - destruct Hm as [[? ->] [? ->]]. cbn. split; [done|]. by rewrite andb_false_r. }
  cbn [mbind result_bind Z.eqb SNAPSHOT_FORMAT Pos.eqb negb]. rewrite Hp. cbn [mbind result_bind].
  rewrite Hs. cbn [mbind result_bind]. rewrite Hcl. cbn [mbind result_bind f_next_txn_id f_stats snapshot].
  f_equal. destruct e as [? ? ? ? ? ? ? ? ? []]. unfold refresh_version_stats, set_stats. cbn in *.
  rewrite Z.max_l by lia. congruence.
Qed.

Lemma from_snapshot_snapshot e : engine_wf e → from_snapshot (snapshot e) = Ok e.
Proof. intros Hwf. by apply from_snapshot_perm. Qed.
