(* ===== verification/EngineRecords.v ===== *)
(** * Engine snapshots as records

    [EngineSnapshot::to_records] and [from_records] of engine.rs: a snapshot is
    a set of records, each with a kind, a key and a JSON value, which the
    database stores one by one.  Reading the records back in any order gives a
    snapshot that restores to the same engine. *)

From S2P Require Import Prelude CoreTypes CoreCodec EngineExpr EngineCatalog EngineTxn EngineState EngineChains EngineInv EngineCommit EngineSteps.

(** ** serde_json *)

Class SerdeJson (A : Type) := {
  to_vec : A → result string bytes;
  from_slice : bytes → result string A
}.

(** What [to_vec] writes [from_slice] reads back; it is a byte string and not
    empty. *)
Class SerdeJsonOk (A : Type) `{SerdeJson A} : Prop := {
  from_slice_to_vec (a : A) b : to_vec a = Ok b → from_slice b = Ok a;
  to_vec_not_empty (a : A) b : to_vec a = Ok b → b ≠ [];
  to_vec_bytes (a : A) b : to_vec a = Ok b → Forall byte_ok b
}.

(** ** Records *)

Definition MAX_SNAPSHOT_RECORD_BYTES : Z := 64 * 1024 * 1024.
Definition RECORD_META : Z := 0.
Definition RECORD_CATALOG : Z := 1.
Definition RECORD_PRIMARY : Z := 2.
Definition RECORD_SECONDARY : Z := 3.
Definition RECORD_CLIENT : Z := 4.

Record SnapshotRecord : Type := mkRecord {
  sr_kind : Z;
  sr_key : bytes;
  sr_value : bytes
}.

#[export] Instance SnapshotRecord_eq_dec : EqDecision SnapshotRecord.
Proof. solve_decision. Defined.

Record SnapshotMeta : Type := mkMeta {
  m_format : Z;
  m_last_applied : Z;
  m_last_apply_hash : option bytes;
  m_last_apply_outcome : option ApplyOutcome;
  m_retained_floor : Z;
  m_next_txn_id : Z;
  m_stats : EngineStats
}.

Definition validate_record_size (record : SnapshotRecord) : result EngineError unit :=
  ensure (negb ((MAX_SNAPSHOT_RECORD_BYTES <? zlen (sr_key record))
                || (MAX_SNAPSHOT_RECORD_BYTES <? zlen (sr_value record))))
    (InvalidSnapshot ("logical snapshot record exceeds " +:+ pretty MAX_SNAPSHOT_RECORD_BYTES +:+ " byte limit")).

Definition snapshot_record {T} `{SerdeJson T} (kind : Z) (key : bytes) (value : T) : result EngineError SnapshotRecord :=
  value ← map_err (λ error, InvalidSnapshot ("record encode failed: " +:+ error)) (to_vec value);
  let record := mkRecord kind key value in
  _ ← validate_record_size record;
  Ok record.

Definition decode_snapshot_record {T} `{SerdeJson T} (record : SnapshotRecord) : result EngineError T :=
  map_err (λ error, InvalidSnapshot ("record kind " +:+ pretty (sr_kind record) +:+ " decode failed: " +:+ error))
    (from_slice (sr_value record)).

Definition primary_record_key (entry : PrimarySnapshotEntry) : result EngineError bytes :=
  let length := zlen (pe_primary_key entry) in
  _ ← ensure (length <=? u32_max) (InvalidSnapshot "primary snapshot key is too large");
  Ok (to_be_bytes 8 (pe_table_id entry) ++ to_be_bytes 4 length ++ pe_primary_key entry).

Definition secondary_record_key (key : SecondaryKey) : result EngineError bytes :=
  let secondary_len := zlen (s_value key) in
  _ ← ensure (secondary_len <=? u32_max) (InvalidSnapshot "secondary snapshot key is too large");
  let primary_len := zlen (s_primary_key key) in
  _ ← ensure (primary_len <=? u32_max) (InvalidSnapshot "primary snapshot key is too large");
  Ok (to_be_bytes 8 (s_index_id key) ++ to_be_bytes 4 secondary_len ++ s_value key
      ++ to_be_bytes 4 primary_len ++ s_primary_key key).

(** [(left.kind, left.key).cmp(&(right.kind, right.key))] *)
Definition record_compare (left right : SnapshotRecord) : comparison :=
  match sr_kind left ?= sr_kind right with
  | Eq => list_cmp (sr_key left) (sr_key right)
  | c => c
  end.

Definition same_record_key (left right : SnapshotRecord) : bool :=
  (sr_kind left =? sr_kind right) && bool_decide (sr_key left = sr_key right).

(** [windows(2).any(..)] *)
Fixpoint adjacent_keys (l : list SnapshotRecord) : bool :=
  match l with
  | a :: ((b :: _) as l') => same_record_key a b || adjacent_keys l'
  | _ => false
  end.

Definition to_bytes `{SerdeJson EngineSnapshot} (self : EngineSnapshot) : result EngineError bytes :=
  map_err (λ error, InvalidSnapshot ("encode failed: " +:+ error)) (to_vec self).

Definition from_bytes `{SerdeJson EngineSnapshot} (b : bytes) : result EngineError EngineSnapshot :=
  map_err (λ error, InvalidSnapshot ("decode failed: " +:+ error)) (from_slice b).

(** What the loop of [from_records] has collected. *)
Record Collected : Type := mkCollected {
  c_meta : option SnapshotMeta;
  c_catalog : option Catalog;
  c_primary : list PrimarySnapshotEntry;
  c_secondary : list SecondarySnapshotEntry;
  c_clients : list ClientSnapshotEntry
}.

Section Records.
Context `{SerdeJson SnapshotMeta, SerdeJson Catalog, SerdeJson PrimarySnapshotEntry, SerdeJson SecondarySnapshotEntry, SerdeJson ClientSnapshotEntry}.

Definition snapshot_meta (self : EngineSnapshot) : SnapshotMeta :=
  mkMeta (f_format self) (f_last_applied self) (f_last_apply_hash self) (f_last_apply_outcome self)
    (f_retained_floor self) (f_next_txn_id self) (f_stats self).

Definition primary_record (entry : PrimarySnapshotEntry) : result EngineError SnapshotRecord :=
  key ← primary_record_key entry; snapshot_record RECORD_PRIMARY key entry.

Definition secondary_record (entry : SecondarySnapshotEntry) : result EngineError SnapshotRecord :=
  key ← secondary_record_key (se_key entry); snapshot_record RECORD_SECONDARY key entry.

Definition client_record_of (entry : ClientSnapshotEntry) : result EngineError SnapshotRecord :=
  snapshot_record RECORD_CLIENT (ce_client_id entry) entry.

Definition to_records (self : EngineSnapshot) : result EngineError (list SnapshotRecord) :=
  meta ← snapshot_record RECORD_META [] (snapshot_meta self);
  catalog ← snapshot_record RECORD_CATALOG [] (f_catalog self);
  primary ← mapM_result primary_record (f_primary self);
  secondary ← mapM_result secondary_record (f_secondary self);
  clients ← mapM_result client_record_of (f_clients self);
  Ok (sort_by record_compare (meta :: catalog :: primary ++ secondary ++ clients)).

Definition collect_record (c : Collected) (record : SnapshotRecord) : result EngineError Collected :=
  if sr_kind record =? RECORD_META then
    _ ← ensure (is_empty (sr_key record)) (InvalidSnapshot "metadata record key must be empty");
    meta ← decode_snapshot_record record;
    Ok (mkCollected (Some meta) (c_catalog c) (c_primary c) (c_secondary c) (c_clients c))
  else if sr_kind record =? RECORD_CATALOG then
    _ ← ensure (is_empty (sr_key record)) (InvalidSnapshot "catalog record key must be empty");
    catalog ← decode_snapshot_record record;
    Ok (mkCollected (c_meta c) (Some catalog) (c_primary c) (c_secondary c) (c_clients c))
  else if sr_kind record =? RECORD_PRIMARY then
    entry ← decode_snapshot_record record;
    key ← primary_record_key entry;
    _ ← ensure (bool_decide (key = sr_key record)) (InvalidSnapshot "primary record key disagrees with value");
    Ok (mkCollected (c_meta c) (c_catalog c) (c_primary c ++ [entry]) (c_secondary c) (c_clients c))
  else if sr_kind record =? RECORD_SECONDARY then
    entry ← decode_snapshot_record record;
    key ← secondary_record_key (se_key entry);
    _ ← ensure (bool_decide (key = sr_key record)) (InvalidSnapshot "secondary record key disagrees with value");
    Ok (mkCollected (c_meta c) (c_catalog c) (c_primary c) (c_secondary c ++ [entry]) (c_clients c))
  else if sr_kind record =? RECORD_CLIENT then
    entry ← decode_snapshot_record record;
    _ ← ensure (bool_decide (ce_client_id entry = sr_key record)) (InvalidSnapshot "client record key disagrees with value");
    Ok (mkCollected (c_meta c) (c_catalog c) (c_primary c) (c_secondary c) (c_clients c ++ [entry]))
  else Err (InvalidSnapshot ("unknown logical snapshot record kind " +:+ pretty (sr_kind record))).

Definition from_records (records : list SnapshotRecord) : result EngineError EngineSnapshot :=
  let ordered := sort_by record_compare records in
  _ ← mapM_result validate_record_size ordered;
  _ ← ensure (negb (adjacent_keys ordered)) (InvalidSnapshot "duplicate logical snapshot record");
  c ← foldM collect_record (mkCollected None None [] [] []) ordered;
  meta ← ok_or (c_meta c) (InvalidSnapshot "missing metadata record");
  catalog ← ok_or (c_catalog c) (InvalidSnapshot "missing catalog record");
  let snapshot := mkEngineSnapshot (m_format meta) catalog (c_primary c) (c_secondary c) (c_clients c)
    (m_last_applied meta) (m_last_apply_hash meta) (m_last_apply_outcome meta)
    (m_retained_floor meta) (m_next_txn_id meta) (m_stats meta) in
  _ ← from_snapshot snapshot;
  Ok snapshot.

(** ** Round trip *)

(** Identifiers fit the 64 bits they have in the source. *)
Definition ids_typed (e : Engine) : Prop :=
  (∀ k l, primary e !! k = Some l → 0 ≤ k_table_id k ≤ u64_max)
  ∧ (∀ k l, secondary e !! k = Some l → 0 ≤ s_index_id k ≤ u64_max).

(** What a record stands for. *)
Inductive part : Type :=
| PMeta (meta : SnapshotMeta)
| PCatalog (c : Catalog)
| PPrimary (entry : PrimarySnapshotEntry)
| PSecondary (entry : SecondarySnapshotEntry)
| PClient (entry : ClientSnapshotEntry).

Definition part_record (p : part) : result EngineError SnapshotRecord :=
  match p with
  | PMeta meta => snapshot_record RECORD_META [] meta
  | PCatalog c => snapshot_record RECORD_CATALOG [] c
  | PPrimary entry => primary_record entry
  | PSecondary entry => secondary_record entry
  | PClient entry => client_record_of entry
  end.

Definition part_meta (p : part) : option SnapshotMeta := match p with PMeta m => Some m | _ => None end.
Definition part_catalog (p : part) : option Catalog := match p with PCatalog c => Some c | _ => None end.
Definition part_primary (p : part) : option PrimarySnapshotEntry := match p with PPrimary e => Some e | _ => None end.
Definition part_secondary (p : part) : option SecondarySnapshotEntry := match p with PSecondary e => Some e | _ => None end.
Definition part_client (p : part) : option ClientSnapshotEntry := match p with PClient e => Some e | _ => None end.

Definition parts (s : EngineSnapshot) : list part :=
  PMeta (snapshot_meta s) :: PCatalog (f_catalog s)
  :: (PPrimary <$> f_primary s) ++ (PSecondary <$> f_secondary s) ++ (PClient <$> f_clients s).

Lemma snapshot_record_Ok {T} `{SerdeJson T} kind key (v : T) r :
  snapshot_record kind key v = Ok r ↔
  ∃ b, to_vec v = Ok b ∧ r = mkRecord kind key b ∧ validate_record_size r = Ok tt.
Proof.
  unfold snapshot_record. rewrite result_bind_Ok. split.
  - intros (b & Hb & Hr). destruct (to_vec v) as [b'|err]; [|done]. apply Ok_inj in Hb as <-.
    apply result_bind_Ok in Hr as ([] & Hv & <-%Ok_inj). by exists b'.
  - intros (b & Hb & -> & Hv). rewrite Hb. exists b. split; [done|]. cbn. by rewrite Hv.
Qed.

Lemma to_records_parts s rs :
  to_records s = Ok rs → ∃ l, Forall2 (λ p r, part_record p = Ok r) (parts s) l ∧ rs = sort_by record_compare l.
Proof.
  unfold to_records. intros Hr.
  apply result_bind_Ok in Hr as (rm & Hm & Hr). apply result_bind_Ok in Hr as (rc & Hc & Hr).
  apply result_bind_Ok in Hr as (rp & Hp & Hr). apply result_bind_Ok in Hr as (rs2 & Hs & Hr).
  apply result_bind_Ok in Hr as (rl & Hl & <-%Ok_inj). apply mapM_result_Ok in Hp. apply mapM_result_Ok in Hs. apply mapM_result_Ok in Hl.
  eexists. split; [|reflexivity]. unfold parts. constructor; [done|]. constructor; [done|].
  apply Forall2_app; [|apply Forall2_app]; by apply Forall2_fmap_l.
Qed.

Section Decode.
Context {Jm : SerdeJsonOk SnapshotMeta} {Jc : SerdeJsonOk Catalog} {Jp : SerdeJsonOk PrimarySnapshotEntry}.
Context {Js : SerdeJsonOk SecondarySnapshotEntry} {Jl : SerdeJsonOk ClientSnapshotEntry}.

Definition add_part (c : Collected) (p : part) : Collected :=
  match p with
  | PMeta meta => mkCollected (Some meta) (c_catalog c) (c_primary c) (c_secondary c) (c_clients c)
  | PCatalog catalog => mkCollected (c_meta c) (Some catalog) (c_primary c) (c_secondary c) (c_clients c)
  | PPrimary entry => mkCollected (c_meta c) (c_catalog c) (c_primary c ++ [entry]) (c_secondary c) (c_clients c)
  | PSecondary entry => mkCollected (c_meta c) (c_catalog c) (c_primary c) (c_secondary c ++ [entry]) (c_clients c)
  | PClient entry => mkCollected (c_meta c) (c_catalog c) (c_primary c) (c_secondary c) (c_clients c ++ [entry])
  end.

Lemma decode_encoded {T} `{SerdeJsonOk T} kind key (v : T) b :
  to_vec v = Ok b → decode_snapshot_record (mkRecord kind key b) = Ok v.
Proof. intros Hb. unfold decode_snapshot_record. cbn. by rewrite (from_slice_to_vec v b Hb). Qed.

(** A record is read back as what it stands for. *)
Lemma collect_part c p r : part_record p = Ok r → collect_record c r = Ok (add_part c p).
Proof.
  destruct p as [m|k|e|e|e]; cbn [part_record]; unfold primary_record, secondary_record, client_record_of; intros Hr.
  - apply snapshot_record_Ok in Hr as (b & Hb & -> & _). cbn. by rewrite (decode_encoded _ _ m b Hb).
  - apply snapshot_record_Ok in Hr as (b & Hb & -> & _). cbn. by rewrite (decode_encoded _ _ k b Hb).
  - apply result_bind_Ok in Hr as (key & Hk & Hr). apply snapshot_record_Ok in Hr as (b & Hb & -> & _).
    unfold collect_record. cbn [sr_kind sr_key]. rewrite (decode_encoded _ _ e b Hb). cbn -[primary_record_key].
    rewrite Hk. cbn. by rewrite bool_decide_eq_true_2.
  - apply result_bind_Ok in Hr as (key & Hk & Hr). apply snapshot_record_Ok in Hr as (b & Hb & -> & _).
    unfold collect_record. cbn [sr_kind sr_key]. rewrite (decode_encoded _ _ e b Hb). cbn -[secondary_record_key].
    rewrite Hk. cbn. by rewrite bool_decide_eq_true_2.
  - apply snapshot_record_Ok in Hr as (b & Hb & -> & _). unfold collect_record. cbn [sr_kind sr_key].
    rewrite (decode_encoded _ _ e b Hb). cbn. by rewrite bool_decide_eq_true_2.
Qed.

Lemma collect_parts c ps rs :
  Forall2 (λ p r, part_record p = Ok r) ps rs → foldM collect_record c rs = Ok (foldl add_part c ps).
Proof.
  intros Hf. revert c. induction Hf as [|p r ps rs Hp _ IH]; intros c; [done|]. cbn [foldM foldl].
  rewrite (collect_part _ _ _ Hp). cbn [mbind result_bind]. apply IH.
Qed.

Lemma collected_parts c ps :
  let c' := foldl add_part c ps in
  c_meta c' = match last (omap part_meta ps) with Some m => Some m | None => c_meta c end
  ∧ c_catalog c' = match last (omap part_catalog ps) with Some m => Some m | None => c_catalog c end
  ∧ c_primary c' = c_primary c ++ omap part_primary ps
  ∧ c_secondary c' = c_secondary c ++ omap part_secondary ps
  ∧ c_clients c' = c_clients c ++ omap part_client ps.
Proof.
  revert c. induction ps as [|p ps IH]; intros c; cbn [foldl]; [by rewrite !app_nil_r|].
  destruct (IH (add_part c p)) as (-> & -> & -> & -> & ->).
  destruct p; cbn -[last]; rewrite ?last_cons, <- ?app_assoc; split_and!; try done; by repeat case_match; simplify_eq.
Qed.

Lemma parts_proj s :
  omap part_meta (parts s) = [snapshot_meta s] ∧ omap part_catalog (parts s) = [f_catalog s]
  ∧ omap part_primary (parts s) = f_primary s ∧ omap part_secondary (parts s) = f_secondary s
  ∧ omap part_client (parts s) = f_clients s.
Proof.
  assert (∀ {A B} (f : part → option B) (g : A → part) (l : list A), (∀ a, f (g a) = None) → omap f (g <$> l) = []) as Hn.
  { intros A B f g l Hfg. induction l as [|a l IH]; [done|]. cbn. by rewrite Hfg. }
  assert (∀ {A} (f : part → option A) (g : A → part) (l : list A), (∀ a, f (g a) = Some a) → omap f (g <$> l) = l) as Hs.
  { intros A f g l Hfg. induction l as [|a l IH]; [done|]. cbn. rewrite Hfg. f_equal. exact IH. }
  unfold parts. cbn -[fmap]. rewrite !omap_app. split_and!.
  - by rewrite !Hn.
  - by rewrite !Hn.
  - by rewrite Hs, !Hn, !app_nil_r.
  - by rewrite (Hn _ _ _ PPrimary), Hs, Hn, app_nil_r.
  - by rewrite (Hn _ _ _ PPrimary), (Hn _ _ _ PSecondary), Hs.
Qed.

(** *** Keys are distinct *)

Lemma primary_record_key_inj e e' k :
  0 ≤ pe_table_id e ≤ u64_max → 0 ≤ pe_table_id e' ≤ u64_max →
  primary_record_key e = Ok k → primary_record_key e' = Ok k →
  pe_table_id e = pe_table_id e' ∧ pe_primary_key e = pe_primary_key e'.
Proof.
  unfold primary_record_key. intros He He' (_ & _ & <-%Ok_inj)%result_bind_Ok (_ & _ & Hk%Ok_inj)%result_bind_Ok.
  apply to_be_bytes_inj in Hk as [-> Hk]; [|unfold u64_max in *; cbn; lia..].
  apply app_inj_1 in Hk as [_ ->]; [done|]. by rewrite !length_to_be_bytes.
Qed.

Lemma secondary_record_key_inj x y k :
  0 ≤ s_index_id x ≤ u64_max → 0 ≤ s_index_id y ≤ u64_max →
  secondary_record_key x = Ok k → secondary_record_key y = Ok k → x = y.
Proof.
  unfold secondary_record_key. intros Hx Hy Hkx Hky.
  apply result_bind_Ok in Hkx as (_ & Hx1%ensure_Ok & Hkx). apply result_bind_Ok in Hkx as (_ & _ & <-%Ok_inj).
  apply result_bind_Ok in Hky as (_ & Hy1%ensure_Ok & Hky). apply result_bind_Ok in Hky as (_ & _ & Hk%Ok_inj).
  bool_prop. apply to_be_bytes_inj in Hk as [Hid Hk]; [|unfold u64_max in *; cbn; lia..].
  pose proof (zlen_nonneg (s_value x)). pose proof (zlen_nonneg (s_value y)).
  apply to_be_bytes_inj in Hk as [Hl Hk]; [|unfold u32_max in *; cbn; lia..].
  apply app_inj_1 in Hk as [Hv Hk]; [|unfold zlen in Hl; lia].
  apply app_inj_1 in Hk as [_ Hp]; [|by rewrite !length_to_be_bytes].
  destruct x, y; cbn in *; congruence.
Qed.

(** What tells the parts of a snapshot apart. *)
Definition part_id (p : part) : Z * (LogicalKey + SecondaryKey + bytes) :=
  match p with
  | PMeta _ => (RECORD_META, inr [])
  | PCatalog _ => (RECORD_CATALOG, inr [])
  | PPrimary entry => (RECORD_PRIMARY, inl (inl (mkLogicalKey (pe_table_id entry) (pe_primary_key entry))))
  | PSecondary entry => (RECORD_SECONDARY, inl (inr (se_key entry)))
  | PClient entry => (RECORD_CLIENT, inr (ce_client_id entry))
  end.

Definition part_typed (p : part) : Prop :=
  match p with
  | PPrimary entry => 0 ≤ pe_table_id entry ≤ u64_max
  | PSecondary entry => 0 ≤ s_index_id (se_key entry) ≤ u64_max
  | _ => True
  end.

Definition record_id (r : SnapshotRecord) : Z * bytes := (sr_kind r, sr_key r).

Lemma part_record_kind p r : part_record p = Ok r → sr_kind r = (part_id p).1 ∧ validate_record_size r = Ok tt.
Proof.
  destruct p as [m|k|e|e|e]; cbn [part_record part_id fst]; unfold primary_record, secondary_record, client_record_of; intros Hr.
  1, 2, 5: by apply snapshot_record_Ok in Hr as (b & Hb & -> & ?).
  all: apply result_bind_Ok in Hr as (key & _ & Hr); by apply snapshot_record_Ok in Hr as (b & Hb & -> & ?).
Qed.

Lemma part_id_inj p q r r' :
  part_typed p → part_typed q → part_record p = Ok r → part_record q = Ok r' → record_id r = record_id r' → part_id p = part_id q.
Proof.
  intros Hp Hq Hr Hr' Hid. pose proof (part_record_kind _ _ Hr) as [Hk _]. pose proof (part_record_kind _ _ Hr') as [Hk' _].
  injection Hid as Hkind Hkey. rewrite Hk, Hk' in Hkind.
  destruct p as [|?|e|e|e], q as [|?|e'|e'|e']; try done; cbn [part_record part_id part_typed] in *;
    unfold primary_record, secondary_record, client_record_of in *.
  - apply result_bind_Ok in Hr as (k & Hkk & (b & _ & -> & _)%snapshot_record_Ok).
    apply result_bind_Ok in Hr' as (k' & Hkk' & (b' & _ & -> & _)%snapshot_record_Ok). cbn in Hkey. subst k'.
    by destruct (primary_record_key_inj e e' k Hp Hq Hkk Hkk') as [-> ->].
  - apply result_bind_Ok in Hr as (k & Hkk & (b & _ & -> & _)%snapshot_record_Ok).
    apply result_bind_Ok in Hr' as (k' & Hkk' & (b' & _ & -> & _)%snapshot_record_Ok). cbn in Hkey. subst k'.
    by rewrite (secondary_record_key_inj _ _ k Hp Hq Hkk Hkk').
  - apply snapshot_record_Ok in Hr as (b & _ & -> & _). apply snapshot_record_Ok in Hr' as (b' & _ & -> & _).
    cbn in Hkey. by rewrite Hkey.
Qed.

Lemma records_NoDup ps rs :
  Forall2 (λ p r, part_record p = Ok r) ps rs → Forall part_typed ps → NoDup (part_id <$> ps) → NoDup (record_id <$> rs).
Proof.
  intros Hf. induction Hf as [|p r ps rs Hp Hf IH]; [constructor|]. rewrite !fmap_cons.
  intros [Ht Hts]%Forall_cons [Hn Hnd]%NoDup_cons. apply NoDup_cons. split; [|by apply IH].
  intros (r' & Hid & Hr')%list_elem_of_fmap. apply Hn.
  apply list_elem_of_lookup in Hr' as [i Hi]. destruct (Forall2_lookup_r _ _ _ _ _ Hf Hi) as (q & Hq & Hqr).
  apply list_elem_of_fmap. exists q. split; [|by eapply list_elem_of_lookup_2].
  rewrite Forall_lookup in Hts. apply (part_id_inj p q r r'); [done|by eapply Hts|done|done|done].
Qed.

Lemma adjacent_keys_NoDup rs : NoDup (record_id <$> rs) → adjacent_keys rs = false.
Proof.
  induction rs as [|a rs IH]; [done|]. rewrite fmap_cons. intros [Ha Hnd]%NoDup_cons. cbn [adjacent_keys].
  destruct rs as [|b rs]; [done|]. rewrite IH by done. rewrite orb_false_r. apply not_true_iff_false. unfold same_record_key.
  intros [Hk%Z.eqb_eq Hkey%bool_decide_eq_true]%andb_true_iff. apply Ha. rewrite fmap_cons. apply elem_of_cons. left.
  unfold record_id. congruence.
Qed.

Lemma parts_typed e : ids_typed e → Forall part_typed (parts (snapshot e)).
Proof.
  intros [Hp Hs]. unfold parts. constructor; [done|]. constructor; [done|]. rewrite !Forall_app, !Forall_fmap. split_and!; apply Forall_forall.
  - intros x ([k l] & -> & Hk%elem_of_btree_map_iter)%list_elem_of_fmap. by eapply Hp.
  - intros x ([k l] & -> & Hk%elem_of_btree_map_iter)%list_elem_of_fmap. by eapply Hs.
  - done.
Qed.

Lemma NoDup_iter_keys {K V B C} `{Countable K, !Compare K, !CompareLaws K} (m : gmap K V) (f : K * V → B) (h : B → C) (g : K → C) :
  (∀ k v, h (f (k, v)) = g k) → Inj (=) (=) g → NoDup (h <$> (f <$> btree_map_iter m)).
Proof.
  intros Hh Hg. rewrite <- list_fmap_compose.
  assert ((h ∘ f) <$> btree_map_iter m = g <$> (btree_map_iter m).*1) as ->.
  { rewrite <- list_fmap_compose. apply list_fmap_ext. intros _ [k v] _. apply Hh. }
  apply NoDup_fmap_2; [done|]. unfold btree_map_iter. rewrite (fmap_Permutation fst _ _ (merge_sort_Permutation _ _)).
  apply NoDup_fst_map_to_list.
Qed.

Lemma parts_NoDup e : NoDup (part_id <$> parts (snapshot e)).
Proof.
  assert (∀ k {A} (g : A → part) (l : list A), (∀ a, (part_id (g a)).1 ≠ k) → ∀ x, (k, x) ∉ (part_id <$> (g <$> l))) as Hkind.
  { intros k A g l Hg x (p & Hx & (a & -> & _)%list_elem_of_fmap)%list_elem_of_fmap. apply (Hg a). by rewrite <- Hx. }
  unfold parts. rewrite !fmap_cons, !fmap_app. apply NoDup_cons. split.
  { rewrite elem_of_cons, !elem_of_app. intros [?|[Hx|[Hx|Hx]]]; [done|by eapply Hkind in Hx..]. }
  apply NoDup_cons. split.
  { rewrite !elem_of_app. intros [Hx|[Hx|Hx]]; by eapply Hkind in Hx. }
  rewrite !NoDup_app. split_and!.
  - rewrite <- list_fmap_compose.
    apply (NoDup_iter_keys (primary e) _ _ (λ k, (RECORD_PRIMARY, inl (inl k)))); [by intros [] ?|by intros ? ? [=]].
  - intros [k x] Hx. rewrite elem_of_app.
    assert (k = RECORD_PRIMARY) as ->.
    { apply list_elem_of_fmap in Hx as (p & Hx & (a & -> & _)%list_elem_of_fmap). by injection Hx. }
    intros [Hy|Hy]; by eapply Hkind in Hy.
  - rewrite <- list_fmap_compose.
    apply (NoDup_iter_keys (secondary e) _ _ (λ k, (RECORD_SECONDARY, inl (inr k)))); [done|by intros ? ? [=]].
  - intros [k x] Hx.
    assert (k = RECORD_SECONDARY) as ->.
    { apply list_elem_of_fmap in Hx as (p & Hx & (a & -> & _)%list_elem_of_fmap). by injection Hx. }
    by eapply Hkind.
  - rewrite <- list_fmap_compose.
    apply (NoDup_iter_keys (clients e) _ _ (λ k, (RECORD_CLIENT, inr k))); [done|by intros ? ? [=]].
Qed.

(** The snapshot a set of records stands for. *)
Lemma from_records_perm e rs rs' :
  engine_wf e → ids_typed e → to_records (snapshot e) = Ok rs → rs' ≡ₚ rs →
  ∃ s, from_records rs' = Ok s ∧ snapshot_perm s (snapshot e).
Proof.
  intros Hwf Hids (l & Hl & ->)%to_records_parts Hperm. unfold from_records.
  set (ordered := sort_by record_compare rs').
  assert (l ≡ₚ ordered) as Hlo by (unfold ordered; by rewrite sort_by_perm, Hperm, sort_by_perm).
  destruct (Permutation_Forall2 Hlo (proj1 (Forall2_flip _ _ _) Hl)) as (ps & Hps & Hf%Forall2_flip).
  assert (mapM_result validate_record_size ordered = Ok (replicate (length ordered) tt)) as ->.
  { apply mapM_result_Ok. clear -Hf. induction Hf as [|p r ps ord Hp Hf IH]; cbn; constructor; [|done].
    by apply part_record_kind in Hp as [_ ?]. }
  cbn [mbind result_bind]. rewrite adjacent_keys_NoDup; cycle 1.
  { apply (records_NoDup ps); [done|by rewrite <- Hps; apply parts_typed|]. rewrite <- Hps. apply parts_NoDup. }
  cbn [negb ensure mbind result_bind]. rewrite (collect_parts _ _ _ Hf). cbn [mbind result_bind].
  destruct (collected_parts (mkCollected None None [] [] []) ps) as (-> & -> & Hp & Hs & Hc).
  destruct (parts_proj (snapshot e)) as (Pm & Pc & Pp & Ps & Pl).
  assert (∀ {B} (g : part → option B) b, omap g (parts (snapshot e)) = [b] → last (omap g ps) = Some b) as Hone.
  { intros B g b Hg. assert (omap g ps ≡ₚ [b]) as Hgp by (rewrite <- Hg; by rewrite Hps). apply Permutation_singleton_r in Hgp as ->. done. }
  rewrite (Hone _ _ _ Pm), (Hone _ _ _ Pc). cbn [ok_or mbind result_bind].
  match goal with |- context [from_snapshot ?x] => set (s := x) end.
  assert (snapshot_perm s (snapshot e)) as Hsp.
  { split; cbn [s f_format f_catalog f_primary f_secondary f_clients f_last_applied f_last_apply_hash f_last_apply_outcome f_retained_floor f_next_txn_id f_stats]; try done.
    - rewrite Hp, <- Pp. cbn [c_primary app]. by rewrite Hps.
    - rewrite Hs, <- Ps. cbn [c_secondary app]. by rewrite Hps.
    - rewrite Hc, <- Pl. cbn [c_clients app]. by rewrite Hps. }
  exists s. split; [|done]. by rewrite (from_snapshot_perm e s Hwf Hsp).
Qed.
End Decode.
End Records.
