(* ===== verification/EngineProps.v ===== *)
(** * What the transaction engine guarantees

    The step relation of the engine, the abstract multi-version store it
    refines, first-committer-wins conflict detection, replay and exactly-once
    application, stable snapshots. *)

From S2P Require Import Prelude CoreTypes CoreCodec EngineExpr EngineCatalog EngineTxn EngineState EngineChains EngineInv EngineCommit EngineSteps.
Import Codec.

(** ** Steps *)

Inductive engine_step : Engine → Engine → Prop :=
| step_apply e i h rh a e' o :
    attempt_ok a → apply_with_request_hash e i h rh a = Ok (e', o) → engine_step e e'
| step_noop e i h e' o : apply_noop e i h = Ok (e', o) → engine_step e e'
| step_vacuum e f e' r : vacuum_offline e f = Ok (e', r) → engine_step e e'
| step_begin e ts ep e' x : begin_at e ts ep = Ok (e', x) → engine_step e e'
| step_restore e e' : from_snapshot (snapshot e) = Ok e' → engine_step e e'.

Definition engine_steps : Engine → Engine → Prop := rtc engine_step.

Lemma step_wf e e' : engine_wf e → engine_step e e' → engine_wf e'.
Proof.
  intros Hwf Hs. destruct Hs as [? ? ? ? ? ? ? Ha Hx|? ? ? ? ? Hx|? ? ? ? Hx|? ? ? ? ? Hx|? ? Hx].
  - exact (apply_wf _ _ _ _ _ _ _ Hwf Ha Hx).
  - exact (apply_noop_wf _ _ _ _ _ Hwf Hx).
  - exact (vacuum_wf _ _ _ _ Hwf Hx).
  - exact (begin_at_wf _ _ _ _ _ Hwf Hx).
  - rewrite from_snapshot_snapshot in Hx by done. by apply Ok_inj in Hx as <-.
Qed.

Lemma steps_wf e e' : engine_wf e → engine_steps e e' → engine_wf e'.
Proof. intros Hwf Hs. induction Hs; eauto using step_wf. Qed.

Lemma default_wf : engine_wf Engine_default.
Proof.
  split; cbn; try done.
  - split; cbn; try (intros; by simplify_map_eq). all: intros n id; split; [intros; by simplify_map_eq|].
    all: intros (v & Hv & _); by simplify_map_eq.
Qed.

(** A step keeps every index, and the snapshots it agreed with the rows at. *)
Definition keeps_indexes (e e' : Engine) : Prop :=
  ∀ id i created, indexes (catalog e) !! id = Some i → index_agrees created e i →
    indexes (catalog e') !! id = Some i ∧ index_agrees created e' i.

Lemma commit_keeps_indexes e n a c ixs l s cl h o :
  engine_wf e → commit_ready e a c ixs l → Forall write_ok (writes a) → n = last_applied e + 1 →
  keeps_indexes e (set_applied n h o (set_clients cl
    (refresh_version_stats (set_stats s (committed_state e n c ixs l))))).
Proof.
  intros Hwf Hr Hw Hn id i created Hi Ha. pose proof (cat_indexes _ (ew_catalog _ Hwf) _ _ Hi) as [Hid _].
  split; [cbn; eapply lookup_weaken; [exact Hi|apply Hr]|].
  eapply index_agrees_ext, (old_index_agrees e n a c ixs l Hwf Hr Hn Hw created h o i); [done..|congruence|done].
Qed.

Lemma step_keeps_indexes e e' : engine_wf e → engine_step e e' → keeps_indexes e e'.
Proof.
  intros Hwf Hs. destruct Hs as [e i h rh a e'' o Ha Hx|e i h e'' o Hx|e f e'' r Hx|e ts ep e'' x Hx|e e'' Hx].
  - apply apply_inv in Hx as [(_ & -> & _)|(Hi & Hmax & e1 & Hnow & ->)]; [done|].
    destruct Hnow as [e1' r Had Hev|r Had|r Had]; [|done..].
    apply evaluate_inv in Hev; [|apply Hwf]. destruct Hev as [reason|c ixs l Hr]; unfold recorded; [done|].
    apply (commit_keeps_indexes _ _ a); try done. apply Ha.
  - apply apply_noop_inv in Hx as (_ & [(_ & -> & _)|(_ & _ & ->)]); done.
  - intros id j created Hj Hag. split; [|by eapply vacuum_index_agrees].
    destruct (vacuum_offline_inv _ _ _ _ Hx) as (_ & s & ->). done.
  - apply begin_at_inv in Hx as (_ & _ & -> & _). done.
  - rewrite from_snapshot_snapshot in Hx by done. by apply Ok_inj in Hx as <-.
Qed.

Lemma steps_keep_indexes e e' : engine_wf e → engine_steps e e' → keeps_indexes e e'.
Proof.
  intros Hwf Hs. induction Hs as [e|e1 e2 e3 H12 _ IH]; [done|]. intros id i created Hi Ha.
  destruct (step_keeps_indexes _ _ Hwf H12 id i created Hi Ha). apply IH; [by eapply step_wf|done|done].
Qed.

(** C3: every state the engine can reach from an empty database, by applying
    entries and no-ops, vacuuming, beginning transactions and restoring its
    own snapshots, is well formed: version chains are non-empty, strictly
    descending and within the applied range, and every stored row satisfies the
    schema of its table and sits under its own key.  An index, once some earlier
    state [e0] has it, stays, and at every snapshot that is retained and not
    older than [e0] its entries are exactly the non-null values of its column. *)
Theorem engine_reachable_wf e :
  engine_steps Engine_default e →
  engine_wf e
  ∧ ∀ e0 id i, engine_steps Engine_default e0 → engine_steps e0 e → indexes (catalog e0) !! id = Some i →
      indexes (catalog e) !! id = Some i ∧ index_agrees (last_applied e0) e i.
Proof.
  intros Hs. split; [by eapply steps_wf; [apply default_wf|]|]. intros e0 id i H0 H1 Hi.
  pose proof (steps_wf _ _ default_wf H0) as Hwf. apply (steps_keep_indexes e0 e Hwf H1 id i (last_applied e0) Hi).
  destruct (ew_indexes _ Hwf _ _ Hi) as (created & Hc & Ha). intros ts vb pk Hts Hfl. apply Ha; lia.
Qed.

(** ** The abstract multi-version store *)

(** What a snapshot at a timestamp holds. *)
Abbreviation view := (Z → LogicalKey → option Row).

Definition written (a : TxnAttempt) (k : LogicalKey) : option TxnWrite :=
  List.find (λ w, match logical_key w with Ok k' => bool_decide (k' = k) | Err _ => false end) (writes a).

(** Committing the writes of [a] at [n]: later snapshots see them. *)
Definition view_commit (n : Z) (a : TxnAttempt) (V : view) : view := λ ts k,
  if n <=? ts then
    match written a k with Some w => new_row_of (w_mutation w) | None => V ts k end
  else V ts k.

Lemma written_Some a k w : written a k = Some w → w ∈ writes a ∧ logical_key w = Ok k.
Proof.
  intros [Hin Hk]%List.find_some. split; [by apply list_elem_of_In|].
  destruct (logical_key w) as [k'|]; [|done]. bool_prop. by subst.
Qed.

Lemma written_None a k w : written a k = None → w ∈ writes a → logical_key w ≠ Ok k.
Proof.
  intros Hn Hin Hk. eapply List.find_none in Hn; [|by apply list_elem_of_In]. cbn in Hn.
  rewrite Hk in Hn. by rewrite bool_decide_true in Hn.
Qed.

Lemma committed_view e n a c ixs l ts k :
  engine_wf e → commit_ready e a c ixs l → n = last_applied e + 1 → attempt_ok a →
  row_at (committed_state e n c ixs l) k ts = view_commit n a (λ ts k, row_at e k ts) ts k.
Proof.
  intros Hwf Hr Hn Ha. unfold view_commit. destruct (Z.leb_spec n ts) as [Hts|Hts].
  - destruct (written a k) as [w|] eqn:Hw.
    + apply written_Some in Hw as [Hin Hk]. rewrite <- (cr_writes _ _ _ _ _ Hr) in Hin.
      apply list_elem_of_fmap in Hin as (p & -> & Hp).
      destruct (cr_valid _ _ _ _ _ Hr p Hp) as [Hk' _ _ _]. rewrite Hk in Hk'. apply Ok_inj in Hk' as ->.
      rewrite (row_at_written e n a c ixs l Hr p) by done. done.
    + rewrite (row_at_unwritten e n c ixs l); [done|]. intros p Hp <-.
      eapply written_None; [exact Hw|by eapply write_in|]. by apply (cr_valid _ _ _ _ _ Hr p Hp).
  - by rewrite (row_at_before e n a c ixs l).
Qed.

Definition is_commit (o : ApplyOutcome) : bool :=
  match o with Applied (Committed _ _ _) => true | _ => false end.

Lemma applied_now_view e i rh a e1 o ts k :
  engine_wf e → attempt_ok a → i = last_applied e + 1 → applied_now e i rh a e1 o →
  row_at e1 k ts = if is_commit o then view_commit i a (λ ts k, row_at e k ts) ts k else row_at e k ts.
Proof.
  intros Hwf Ha Hi [e1' r Had Hev|r Had|r Had]; [|done..].
  apply evaluate_inv in Hev; [|apply Hwf]. destruct Hev as [reason|c ixs l Hr]; [done|].
  cbn [is_commit]. rewrite <- (committed_view e i a c ixs l ts k) by done. done.
Qed.

(** C7: applying a replicated entry refines the abstract multi-version store:
    when the outcome is a commit at index [i], snapshots from [i] on see
    exactly the writes of the attempt on top of the previous state and older
    snapshots are unchanged; every other outcome leaves every snapshot
    unchanged. *)
Theorem apply_refines_store e i h rh a e' o :
  engine_wf e → attempt_ok a → i = last_applied e + 1 →
  apply_with_request_hash e i h rh a = Ok (e', o) →
  last_applied e' = i ∧
  ∀ ts k, row_at e' k ts =
    if is_commit o then view_commit i a (λ ts k, row_at e k ts) ts k else row_at e k ts.
Proof.
  intros Hwf Ha Hi [(Hi' & _)|(_ & _ & e1 & Hnow & ->)]%apply_inv; [lia|]. split; [done|].
  intros ts k. by rewrite <- (applied_now_view e i rh a e1 o ts k).
Qed.

(** ** Conflicts *)

Lemma chain_head_max last l v w :
  chain_ok rv_commit last l → head l = Some v → w ∈ l → rv_commit w ≤ rv_commit v.
Proof.
  intros [_ Hs _] Hh Hw. destruct l as [|x l]; [done|]. injection Hh as ->.
  apply elem_of_cons in Hw as [->|Hw]; [lia|].
  apply StronglySorted_inv in Hs as [_ Hx]. rewrite Forall_forall in Hx. specialize (Hx w Hw). cbn in Hx. lia.
Qed.

Lemma ensure_Err {E} c (err err' : E) : ensure c err = Err err' → err = err'.
Proof. destruct c; [done|]. by intros [= ->]. Qed.

Lemma bind_Err {E A B} (r : result E A) (f : A → result E B) err :
  r ≫= f = Err err ↔ r = Err err ∨ ∃ a, r = Ok a ∧ f a = Err err.
Proof. destruct r; cbn; naive_solver. Qed.

Lemma validation_Err {A} (r : result EngineError A) reason :
  validation r = Err reason → ∃ s, reason = Validation s.
Proof. destruct r; [done|]. intros [= <-]. eauto. Qed.

(** A conflict reported by a write names its own newest version. *)
Lemma validate_write_conflict e c ts w t pk win :
  validate_write e c ts w = Err (WriteConflict t pk win) →
  t = w_table_id w ∧ pk = w_primary_key w ∧ ∃ k, logical_key w = Ok k ∧ winning_commit e k ts = Some win.
Proof.
  unfold validate_write. rewrite bind_Err. intros [Hx|(tb & _ & Hx)].
  { destruct (Cat.table c (w_table_id w)); cbn in Hx; congruence. }
  rewrite bind_Err in Hx. destruct Hx as [Hx%ensure_Err|(u & _ & Hx)]; [done|].
  rewrite bind_Err in Hx. destruct Hx as [Hx|(u' & _ & Hx)].
  { destruct (w_mutation w) as [row|]; [|done]. rewrite bind_Err in Hx.
    destruct Hx as [[s ?]%validation_Err|(? & _ & Hx%ensure_Err)]; done. }
  rewrite bind_Err in Hx. destruct Hx as [[s ?]%validation_Err|(k & Hk%validation_Ok & Hx)]; [done|].
  destruct (winning_commit e k ts) as [win'|] eqn:Hw; [|done]. injection Hx as <- <- <-. eauto.
Qed.

Lemma validate_attempt_conflict e a t pk win :
  validate_attempt_for_apply e a = Err (WriteConflict t pk win) →
  ∃ w c, w ∈ writes a ∧ validate_write e c (a_read_ts a) w = Err (WriteConflict t pk win).
Proof.
  unfold validate_attempt_for_apply. do 3 (rewrite bind_Err; intros [Hx%ensure_Err|(? & _ & Hx)]; [done|]; revert Hx).
  rewrite bind_Err. intros [[s ?]%validation_Err|(? & _ & Hx)]; [done|].
  rewrite bind_Err in Hx. destruct Hx as [[s ?]%validation_Err|([c ids] & Hm%validation_Ok & Hx)]; [done|].
  rewrite bind_Err in Hx. destruct Hx as [(id & _ & Hx)%mapM_result_Err|(ixs & _ & Hx)].
  { by destruct (Cat.index c id). }
  rewrite bind_Err in Hx. destruct Hx as [(w & Hw & Hx)%mapM_result_Err|(? & _ & Hx)]; [|done]. eauto.
Qed.

Lemma evaluate_conflict e n a e1 m t pk win :
  evaluate_and_apply e n a = (e1, Aborted m (WriteConflict t pk win)) →
  ∃ w k, w ∈ writes a ∧ w_table_id w = t ∧ w_primary_key w = pk ∧ logical_key w = Ok k
    ∧ winning_commit e k (a_read_ts a) = Some win.
Proof.
  rewrite evaluate_and_apply_eq. destruct (validate_attempt_for_apply e a) as [[c ixs]|r] eqn:Hv.
  { by destruct (mapM_result (before_row e) (writes a)). }
  intros [= _ _ ->]. apply validate_attempt_conflict in Hv as (w & c & Hw & Hx).
  apply validate_write_conflict in Hx as (-> & -> & k & Hk & Hwin). eauto 10.
Qed.

(** C12: first committer wins.  A transaction commits only if no key it writes
    has a version newer than its snapshot, so between its snapshot and its
    commit the rows it overwrites did not change; and a transaction aborted
    with a write conflict did try to write a key whose newest version, the
    reported one, is newer than its snapshot. *)
Theorem first_committer_wins e i h rh a e' r :
  engine_wf e → i = last_applied e + 1 →
  apply_with_request_hash e i h rh a = Ok (e', Applied r) →
  match r with
  | Committed _ _ _ =>
      ∀ w k, w ∈ writes a → logical_key w = Ok k →
        (∀ l v, primary e !! k = Some l → v ∈ l → rv_commit v ≤ a_read_ts a)
        ∧ ∀ ts, a_read_ts a ≤ ts → row_at e k ts = row_at e k (a_read_ts a)
  | Aborted _ (WriteConflict t pk win) =>
      ∃ w k, w ∈ writes a ∧ w_table_id w = t ∧ w_primary_key w = pk ∧ logical_key w = Ok k
        ∧ winning_commit e k (a_read_ts a) = Some win
  | Aborted _ _ => True
  end.
Proof.
  intros Hwf Hi [(Hi' & _)|(_ & _ & e1 & Hnow & ->)]%apply_inv; [lia|].
  inversion Hnow as [e2 r' Had Hev| |]; subst. destruct r as [n rows ep|n reason].
  - apply evaluate_inv in Hev; [|apply Hwf]. inversion Hev as [|c ixs l Hr]; subst. intros w k Hw Hk.
    rewrite <- (cr_writes _ _ _ _ _ Hr) in Hw. apply list_elem_of_fmap in Hw as (p & -> & Hp).
    destruct (cr_valid _ _ _ _ _ Hr p Hp) as [Hk' _ _ Hfresh]. rewrite Hk in Hk'. apply Ok_inj in Hk'. rewrite <- Hk' in Hfresh.
    assert (∀ l v, primary e !! k = Some l → v ∈ l → rv_commit v ≤ a_read_ts a) as Hall.
    { intros vs v Hvs Hv. pose proof (ew_primary _ Hwf _ _ Hvs) as Hch.
      destruct vs as [|x vs]; [by apply elem_of_nil in Hv|].
      pose proof (Hfresh _ x Hvs eq_refl). pose proof (chain_head_max _ _ x v Hch eq_refl Hv). lia. }
    split; [done|]. intros ts Hts. unfold row_at, at_ts.
    destruct (primary e !! k) as [vs|] eqn:Hvs; [|done]. cbn.
    destruct vs as [|x vs]; [done|]. cbn. pose proof (Hall _ x eq_refl ltac:(left)).
    destruct (Z.leb_spec (rv_commit x) ts), (Z.leb_spec (rv_commit x) (a_read_ts a)); (done || lia).
  - destruct reason; try done. by eapply evaluate_conflict.
Qed.

(** ** Replay *)

(** Applying is idempotent and gap free: after an entry was applied,
    applying it again with the same hash returns the recorded outcome and
    changes nothing, another hash at the same index is refused, and an index
    other than the current and the next one is refused. *)
Theorem apply_replay e i h rh a e' o :
  apply_with_request_hash e i h rh a = Ok (e', o) →
  apply_with_request_hash e' i h rh a = Ok (e', o)
  ∧ (∀ h', h' ≠ h → apply_with_request_hash e' i h' rh a = Err (ApplyHashMismatch i))
  ∧ (∀ j h' rh', j ≠ i → j ≠ i + 1 → i < u64_max →
       apply_with_request_hash e' j h' rh' a = Err (ApplyGap (i + 1) j)).
Proof.
  intros Hx. assert (Attempt.validate_canonical a = Ok tt) as Hcan.
  { apply result_bind_Ok in Hx as ([] & Hc & _). done. }
  assert (last_applied e' = i ∧ last_apply_hash e' = Some h ∧ last_apply_outcome e' = Some o) as (Hl & Hh & Ho).
  { apply apply_inv in Hx as [(-> & -> & ? & ?)|(_ & _ & e1 & _ & ->)]; done. }
  unfold apply_with_request_hash. rewrite Hcan. cbn [mbind result_bind]. rewrite Hl, Hh, Ho, Z.eqb_refl.
  split_and!.
  - unfold ensure. by rewrite bool_decide_true.
  - intros h' Hne. unfold ensure. rewrite bool_decide_false; [done|]. by intros [= ->].
  - intros j h' rh' Hj Hj' Hmax. destruct (Z.eqb_spec j i); [done|].
    unfold checked_add. destruct (Z.leb_spec (i + 1) u64_max); [|lia]. cbn.
    destruct (Z.eqb_spec j (i + 1)); [done|]. done.
Qed.

(** ** Exactly-once requests *)

(** The last sequence number a client got applied, 0 for none. *)
Definition client_seq (e : Engine) (c : bytes) : Z :=
  match clients e !! c with Some r => r_sequence r | None => 0 end.

(** A client record is only replaced by one with a later sequence number. *)
Definition clients_advance (e e' : Engine) : Prop :=
  ∀ c, clients e' !! c = clients e !! c ∨ client_seq e c < client_seq e' c.

Lemma admit_new_advances e req h :
  admit_request e req h = AdmitNew → client_seq e (client_id req) < sequence req.
Proof.
  unfold admit_request, client_seq. destruct (clients e !! client_id req) as [r|].
  - destruct (Z.compare_spec (sequence req) (r_sequence r)); [|done|done]. by destruct (bool_decide _).
  - destruct (Z.eqb_spec (sequence req) 1); [lia|done].
Qed.

Lemma recorded_client a rh r e1 : clients (recorded a rh r e1) !! client_id (request a)
  = Some (mkClientRecord (sequence (request a)) rh r).
Proof. unfold recorded. cbn. by rewrite lookup_insert_eq. Qed.

Lemma evaluate_clients e n a e1 r : evaluate_and_apply e n a = (e1, r) → clients e1 = clients e.
Proof.
  rewrite evaluate_and_apply_eq. destruct (validate_attempt_for_apply e a) as [[c ixs]|]; [|by intros [= <- _]].
  destruct (mapM_result (before_row e) (writes a)); by intros [= <- _].
Qed.

Lemma step_clients e e' : engine_wf e → engine_step e e' → clients_advance e e'.
Proof.
  intros Hwf Hs c. destruct Hs as [? ? ? ? ? ? ? Ha Hx|? ? ? ? ? Hx|? ? ? ? Hx|? ? ? ? ? Hx|? ? Hx].
  - apply apply_inv in Hx as [(_ & -> & _)|(_ & _ & e1 & Hnow & ->)]; [by left|].
    destruct Hnow as [e1 r Had Hev|r Had|r Had]; [|by left..].
    pose proof (evaluate_clients _ _ _ _ _ Hev) as Hcl. unfold client_seq. cbn. rewrite Hcl.
    destruct (decide (client_id (request a) = c)) as [<-|Hne]; [|left; by rewrite lookup_insert_ne].
    right. rewrite lookup_insert_eq. cbn. exact (admit_new_advances _ _ _ Had).
  - apply apply_noop_inv in Hx as (_ & [(_ & -> & _)|(_ & _ & ->)]); by left.
  - apply vacuum_offline_inv in Hx as (_ & s & ->). by left.
  - apply begin_at_inv in Hx as (_ & _ & -> & _). by left.
  - rewrite from_snapshot_snapshot in Hx by done. apply Ok_inj in Hx as <-. by left.
Qed.

Lemma steps_clients e e' : engine_wf e → engine_steps e e' → clients_advance e e'.
Proof.
  intros Hwf Hs. induction Hs as [e|e e1 e2 H1 H2 IH]; intros c; [by left|].
  pose proof (step_wf _ _ Hwf H1) as Hwf1. specialize (IH Hwf1 c).
  destruct (step_clients _ _ Hwf H1 c) as [Heq|Hlt]; destruct IH as [Heq2|Hlt2].
  - left. congruence.
  - right. unfold client_seq in *. by rewrite <- Heq.
  - right. unfold client_seq in *. by rewrite Heq2.
  - right. lia.
Qed.

(** A request whose sequence number was already used changes nothing. *)
Lemma admit_old e req h :
  sequence req ≤ client_seq e (client_id req) → 1 ≤ sequence req →
  (∃ rec, clients e !! client_id req = Some rec ∧ r_sequence rec = sequence req
          ∧ r_request_hash rec = h ∧ admit_request e req h = AdmitDuplicate (r_result rec))
  ∨ ((client_seq e (client_id req) = sequence req →
      ∀ rec, clients e !! client_id req = Some rec → r_request_hash rec ≠ h)
     ∧ ∃ rej, admit_request e req h = AdmitRejected rej).
Proof.
  unfold admit_request, client_seq. destruct (clients e !! client_id req) as [rec|]; [|lia].
  intros Hle H1. destruct (Z.compare_spec (sequence req) (r_sequence rec)) as [He|Hlt|Hgt]; [| |lia].
  - case_bool_decide as Hh.
    + left. exists rec. by rewrite He, Hh.
    + right. split; [|eauto]. intros _ rec' [= <-] Hr. by rewrite Hr in Hh.
  - right. split; [intros ?; lia|eauto].
Qed.

(** C15: a client request takes effect exactly once.  After a request was
    applied with result [r], in every state reachable from there, an entry
    carrying the same client and sequence number leaves all data and all
    client records unchanged; it is answered with the recorded result [r]
    when the request hash is the same and the client has not moved on, and
    rejected otherwise. *)
Theorem request_exactly_once e i h rh a e1 r e2 j h2 rh2 a2 e3 o :
  engine_wf e → attempt_ok a → i = last_applied e + 1 →
  apply_with_request_hash e i h rh a = Ok (e1, Applied r) → engine_steps e1 e2 →
  request a2 = request a → j = last_applied e2 + 1 →
  apply_with_request_hash e2 j h2 rh2 a2 = Ok (e3, o) →
  same_data e2 e3 ∧ clients e3 = clients e2
  ∧ if decide (client_seq e2 (client_id (request a)) = sequence (request a) ∧ rh2 = rh)
    then o = Duplicate r else ∃ rej, o = Rejected rej.
Proof.
  intros Hwf Ha Hi Hx Hs Hreq Hj Hx2. pose proof (apply_wf _ _ _ _ _ _ _ Hwf Ha Hx) as Hwf1.
  apply apply_inv in Hx as [(? & _)|(_ & _ & e1' & Hnow & He1)]; [lia|].
  inversion Hnow as [e0 r' Had Hev Heq|?|?]; subst r'.
  assert (clients e1 !! client_id (request a) = Some (mkClientRecord (sequence (request a)) rh r)) as Hc1.
  { rewrite He1, <- Heq. apply recorded_client. }
  pose proof (ew_clients _ Hwf1 _ _ Hc1) as Hseq. cbn in Hseq.
  pose proof (steps_clients _ _ Hwf1 Hs (client_id (request a))) as Hadv.
  apply apply_inv in Hx2 as [(? & _)|(_ & _ & e3' & Hnow2 & ->)]; [lia|].
  assert (sequence (request a) ≤ client_seq e2 (client_id (request a))) as Hle.
  { unfold client_seq in Hadv |- *. rewrite Hc1 in Hadv. cbn in Hadv. destruct Hadv as [->|?]; cbn; lia. }
  rewrite <- Hreq in Hle, Hseq, Hc1, Hadv |- *.
  destruct (admit_old e2 (request a2) rh2 Hle ltac:(lia)) as [(rec & Hrec & Hrs & Hrh & Hadm)|(Hne & rej & Hadm)].
  - inversion Hnow2; try congruence. split; [done|]. split; [done|].
    assert (clients e2 !! client_id (request a2) = clients e1 !! client_id (request a2)) as Hsame.
    { destruct Hadv as [?|Hlt]; [done|]. unfold client_seq in Hlt. rewrite Hc1, Hrec in Hlt. cbn in Hlt. lia. }
    rewrite Hsame, Hc1 in Hrec. injection Hrec as <-. cbn in *.
    rewrite decide_True; [congruence|]. split; [|done]. unfold client_seq. by rewrite Hsame, Hc1.
  - inversion Hnow2; try congruence. split; [done|]. split; [done|].
    rewrite decide_False; [eauto|]. intros [Hcs ->].
    assert (clients e2 !! client_id (request a2) = clients e1 !! client_id (request a2)) as Hsame.
    { destruct Hadv as [?|Hlt]; [done|]. unfold client_seq in Hlt at 1. rewrite Hc1 in Hlt. cbn in Hlt. lia. }
    eapply (Hne Hcs); [by rewrite Hsame, Hc1|done].
Qed.
