(* ===== verification/EngineReads.v ===== *)
(** * Reads: stable snapshots, index scans, the transaction overlay

    What [get], [scan_table] and [scan_secondary] return, before and after
    other transactions commit and vacuum runs, and after a transaction staged
    its own writes. *)

From S2P Require Import Prelude CoreTypes CoreCodec EngineExpr EngineCatalog EngineTxn EngineState EngineChains EngineInv EngineCommit EngineSteps EngineProps.
Import Codec.

(** ** Scans in key order *)

Section Scan.
Context {K B : Type} `{Countable K, !Compare K, !CompareLaws K}.

Lemma omap_filter (f : K → option B) (l : list K) :
  omap f l = omap f (filter (λ k, is_Some (f k)) l).
Proof.
  induction l as [|k l IH]; [done|]. rewrite filter_cons. cbn. destruct (f k) as [b|] eqn:Hf.
  - rewrite decide_True by eauto. cbn. by rewrite Hf, IH.
  - rewrite decide_False by (intros [? ?]; congruence). done.
Qed.

Lemma omap_pointwise (f g : K → option B) (l : list K) : (∀ k, f k = g k) → omap f l = omap g l.
Proof. intros Hfg. apply list_omap_ext, Forall_Forall2_diag, Forall_true, Hfg. Qed.

Lemma sorted_filter {A} (R : A → A → Prop) (P : A → Prop) `{!∀ x, Decision (P x)} (l : list A) :
  StronglySorted R l → StronglySorted R (filter P l).
Proof. intros Hs. eapply sorted_sublist; [apply sublist_filter|done]. Qed.

(** A scan depends on its key set only where it finds something. *)
Lemma scan_ext (f : K → option B) (s t : gset K) :
  (∀ k, is_Some (f k) → k ∈ s ↔ k ∈ t) → omap f (btree_set_iter s) = omap f (btree_set_iter t).
Proof.
  intros Hst. rewrite (omap_filter f (btree_set_iter s)), (omap_filter f (btree_set_iter t)). f_equal.
  assert (∀ u : gset K, StronglySorted cmp_le (btree_set_iter u)) as Hsort.
  { intros u. apply StronglySorted_merge_sort; [intros ? ? ?; apply cmp_le_transitive|intros ? ?; apply cmp_le_total]. }
  apply (StronglySorted_unique cmp_le); [by apply sorted_filter..|].
  apply NoDup_Permutation; [apply NoDup_filter, NoDup_btree_set_iter..|]. intros k.
  rewrite !list_elem_of_filter, !elem_of_btree_set_iter. naive_solver.
Qed.

Lemma filter_omap (f : K → option B) (p : B → bool) (l : list K) :
  List.filter p (omap f l) = omap (λ k, b ← f k; if p b then Some b else None) l.
Proof.
  induction l as [|k l IH]; [done|]. cbn. destruct (f k) as [b|]; cbn; [|done].
  destruct (p b); cbn; by rewrite IH.
Qed.
End Scan.

Lemma read_key_row_at e x k :
  read_key e x k = match Txn.overlay x k with
                   | Some m => new_row_of m
                   | None => row_at e k (x_read_ts x)
                   end.
Proof. unfold read_key. destruct (Txn.overlay x k) as [[]|]; [done..|]. by rewrite row_at_unfold. Qed.

(** The key set of a table scan may as well be all keys of the table. *)
Lemma scan_keys e x t k :
  is_Some (read_key e x k) →
  k ∈ filter (λ key, k_table_id key = t) (dom (primary e)) ∪ keys_of_writes x t ↔ k_table_id k = t.
Proof.
  intros [row Hrow]. unfold keys_of_writes. rewrite elem_of_union, !elem_of_filter, !elem_of_dom.
  rewrite read_key_row_at in Hrow. unfold Txn.overlay in Hrow.
  destruct (x_writes x !! k) as [w|] eqn:Hw; cbn in Hrow; [naive_solver|].
  unfold row_at, at_ts in Hrow. destruct (primary e !! k) eqn:Hp; [naive_solver|done].
Qed.

(** ** Stable snapshots *)

Record frame (e e' : Engine) : Prop := {
  fr_last : last_applied e ≤ last_applied e';
  fr_floor : retained_floor e ≤ retained_floor e';
  fr_tables : tables (catalog e) ⊆ tables (catalog e');
  fr_rows : ∀ ts k, retained_floor e' ≤ ts ≤ last_applied e → row_at e' k ts = row_at e k ts
}.

Lemma applied_now_frame e i rh a e1 o h :
  engine_wf e → attempt_ok a → i = last_applied e + 1 → applied_now e i rh a e1 o →
  frame e (set_applied i (Some h) (Some o) e1).
Proof.
  intros Hwf Ha Hi Hnow.
  assert (∀ ts k, retained_floor e ≤ ts ≤ last_applied e → row_at e1 k ts = row_at e k ts) as Hrows.
  { intros ts k Hts. rewrite (applied_now_view e i rh a e1 o ts k) by done. unfold view_commit.
    destruct (is_commit o), (Z.leb_spec i ts); try done. lia. }
  destruct Hnow as [e1 r Had Hev|r Had|r Had]; [|split; cbn; try done; lia..].
  apply evaluate_inv in Hev; [|apply Hwf]. destruct Hev as [reason|c ixs l Hr]; split; cbn; try done; try lia.
  apply Hr.
Qed.

Lemma step_frame e e' : engine_wf e → engine_step e e' → frame e e'.
Proof.
  intros Hwf Hs. destruct Hs as [? ? ? ? ? ? ? Ha Hx|? ? ? ? ? Hx|? ? ? ? Hx|? ? ? ? ? Hx|? ? Hx].
  - apply apply_inv in Hx as [(_ & -> & _)|(Hi & _ & e1 & Hnow & ->)]; [done|]. by eapply applied_now_frame.
  - apply apply_noop_inv in Hx as (_ & [(_ & -> & _)|(Hi & _ & ->)]); [done|]. split; cbn; try done. lia.
  - pose proof Hx as (Hf & s & Heq)%vacuum_offline_inv. split.
    + by rewrite Heq.
    + rewrite Heq. cbn. lia.
    + by rewrite Heq.
    + intros ts k [Hts _]. by eapply vacuum_row_at.
  - apply begin_at_inv in Hx as (_ & _ & -> & _). done.
  - rewrite from_snapshot_snapshot in Hx by done. by apply Ok_inj in Hx as <-.
Qed.

Lemma steps_frame e e' : engine_wf e → engine_steps e e' → frame e e'.
Proof.
  intros Hwf Hs. induction Hs as [e|e e1 e2 H1 H2 IH]; [done|].
  destruct (step_frame _ _ Hwf H1) as [L1 F1 T1 R1]. destruct (IH (step_wf _ _ Hwf H1)) as [L2 F2 T2 R2].
  split; [lia|lia|by etrans|]. intros ts k Hts. rewrite R2 by lia. apply R1. lia.
Qed.

Lemma table_for_transaction_frame e e' x t tb :
  frame e e' → table_for_transaction e x t = Ok tb → table_for_transaction e' x t = Ok tb.
Proof.
  intros Hf. unfold table_for_transaction. rewrite !ok_or_Ok. destruct (Txn.staged_table x t); [done|].
  intros Ht. eapply lookup_weaken; [exact Ht|apply Hf].
Qed.

Lemma snapshot_in_range e x u :
  ensure_transaction_snapshot e x = Ok u ↔ retained_floor e ≤ x_read_ts x ≤ last_applied e.
Proof.
  unfold ensure_transaction_snapshot. rewrite result_bind_Ok. setoid_rewrite ensure_Ok. split.
  - intros (u' & H1 & H2). bool_prop. lia.
  - intros [H1 H2]. exists tt. split; apply negb_true_iff, Z.ltb_ge; lia.
Qed.

Lemma read_key_frame e e' x k :
  frame e e' → retained_floor e' ≤ x_read_ts x ≤ last_applied e → read_key e' x k = read_key e x k.
Proof.
  intros Hf Hts. rewrite !read_key_row_at. destruct (Txn.overlay x k); [done|]. by apply Hf.
Qed.

(** C13: snapshot isolation, reader side.  Whatever happens to the engine after
    a transaction read something, as long as vacuum keeps its snapshot, the
    transaction reads the same again: a point read and a table scan return
    the same rows after any number of commits, no-ops, vacuums and
    snapshot restores. *)
Theorem snapshot_reads_stable e e' x :
  engine_wf e → engine_steps e e' → retained_floor e' ≤ x_read_ts x →
  (∀ t pk r, get e x t pk = Ok r → get e' x t pk = Ok r)
  ∧ (∀ t rows, scan_table e x t = Ok rows → scan_table e' x t = Ok rows).
Proof.
  intros Hwf Hs Hfl. pose proof (steps_frame _ _ Hwf Hs) as Hf.
  pose proof (fr_last _ _ Hf). split.
  - intros t pk r (u & Hsn%snapshot_in_range & Hx)%result_bind_Ok.
    apply result_bind_Ok in Hx as (u1 & Hpk & (k & Hk & <-%Ok_inj)%result_bind_Ok).
    unfold get. rewrite (proj2 (snapshot_in_range e' x tt)) by lia. cbn [mbind result_bind].
    apply result_bind_Ok in Hpk as (tb & Htb & Hpk). unfold validate_primary_key.
    rewrite (table_for_transaction_frame _ _ _ _ _ Hf Htb). cbn [mbind result_bind] in *. rewrite Hpk. cbn [mbind result_bind].
    rewrite Hk. cbn [mbind result_bind]. f_equal. apply read_key_frame; [done|lia].
  - intros t rows (u & Hsn%snapshot_in_range & (tb & Htb & <-%Ok_inj)%result_bind_Ok)%result_bind_Ok.
    unfold scan_table. rewrite (proj2 (snapshot_in_range e' x tt)) by lia. cbn [mbind result_bind].
    rewrite (table_for_transaction_frame _ _ _ _ _ Hf Htb). cbn [mbind result_bind]. f_equal.
    assert (∀ k, read_key e' x k = read_key e x k) as Hread by (intros; apply read_key_frame; [done|lia]).
    rewrite (omap_pointwise _ (read_key e x)) by done. apply scan_ext. intros k Hk. rewrite (scan_keys e x t k Hk). apply scan_keys. by rewrite Hread.
Qed.

(** ** Index scans *)

Lemma elem_of_index_hits e id t vb ts k :
  k ∈ index_hits e id t vb ts ↔
  k_table_id k = t ∧ entry_at e {| s_index_id := id; s_value := vb; s_primary_key := k_primary_key k |} ts = true.
Proof.
  unfold index_hits. rewrite elem_of_list_to_set, list_elem_of_omap. split.
  - intros ([sk vs] & Hin%elem_of_btree_map_iter & Hx).
    destruct ((s_index_id sk =? id) && bool_decide (s_value sk = vb) && visible_secondary vs ts) eqn:Hb; [|done].
    injection Hx as <-. bool_prop. cbn. split; [done|].
    replace (mkSecondaryKey id vb (s_primary_key sk)) with sk by (destruct sk; cbn in *; congruence).
    unfold entry_at, at_ts. by rewrite Hin.
  - intros [Ht He]. unfold entry_at, at_ts in He. set (sk := mkSecondaryKey id vb (k_primary_key k)) in *.
    destruct (secondary e !! sk) as [vs|] eqn:Hs; [|done]. exists (sk, vs).
    split; [by apply elem_of_btree_map_iter|]. cbn. rewrite Z.eqb_refl, bool_decide_true by done. cbn.
    unfold visible_secondary. unfold newest in He. cbn in He. destruct (List.find _ vs) as [v|]; [|done].
    rewrite He. f_equal. destruct k. cbn in *. congruence.
Qed.

Definition matching (f : LogicalKey → option Row) (i : IndexMeta) (v : Value) (k : LogicalKey) : option Row :=
  row ← f k; if row_matches i v row then Some row else None.

(** A row that matches is found through the index or in the overlay. *)
Lemma scan_secondary_keys e x i v k :
  engine_wf e → indexes (catalog e) !! i_id i = Some i → x_read_ts x = last_applied e →
  is_null v = false → is_Some (matching (read_key e x) i v k) →
  k ∈ index_hits e (i_id i) (i_table_id i) (encode_ordered v) (x_read_ts x) ∪ keys_of_writes x (i_table_id i)
  ↔ k_table_id k = i_table_id i.
Proof.
  intros Hwf Hi Hts Hv [row Hrow]. unfold matching in Hrow. apply bind_Some in Hrow as (row' & Hrow & Hm).
  destruct (row_matches i v row') eqn:Hmatch; [|done]. apply bool_decide_eq_true in Hmatch.
  unfold keys_of_writes. rewrite elem_of_union, elem_of_index_hits, elem_of_filter, elem_of_dom.
  rewrite read_key_row_at in Hrow. unfold Txn.overlay in Hrow.
  destruct (x_writes x !! k) as [w|] eqn:Hw; cbn in Hrow; [naive_solver|].
  split; [naive_solver|]. intros Ht. left. split; [done|].
  destruct (ew_indexes _ Hwf _ _ Hi) as (created & Hc & Hspec). pose proof (ew_floor _ Hwf).
  apply (Hspec (x_read_ts x) (encode_ordered v) (k_primary_key k)); [lia|lia|].
  exists v. split; [|done]. rewrite <- Ht. destruct k. cbn in *. rewrite Hrow. cbn. rewrite Hmatch. cbn. by rewrite Hv.
Qed.

(** What an index scan returns where the table scan succeeds. *)
Lemma scan_secondary_filter e x i v all :
  engine_wf e → indexes (catalog e) !! i_id i = Some i → x_read_ts x = last_applied e → is_null v = false →
  scan_table e x (i_table_id i) = Ok all →
  scan_secondary e x (i_id i) v = (_ ← core (encode_value v); Ok (List.filter (row_matches i v) all)).
Proof.
  intros Hwf Hi Hts Hv (u & Hsn & (tb & _ & <-%Ok_inj)%result_bind_Ok)%result_bind_Ok.
  unfold scan_secondary. rewrite Hsn. cbn [mbind result_bind]. unfold Cat.index. rewrite Hi. cbn [ok_or mbind result_bind].
  rewrite Hv. destruct (core (encode_value v)); [|done]. cbn [mbind result_bind]. f_equal.
  rewrite !filter_omap. apply scan_ext. intros k Hk.
  rewrite (scan_secondary_keys e x i v k) by done. symmetry. apply scan_keys.
  destruct Hk as [row Hrow]. apply bind_Some in Hrow as (row' & Hrow & _). eauto.
Qed.

(** C14: an index scan is complete and exact.  For a transaction that reads the
    latest state, and an index of the catalog, the equality scan through the
    index returns exactly the rows, in primary-key order, that a scan of the
    whole table filtered on the indexed column returns; for NULL it returns
    nothing. *)
Theorem scan_secondary_equals_filter e x i v rows :
  engine_wf e → indexes (catalog e) !! i_id i = Some i → x_read_ts x = last_applied e →
  scan_secondary e x (i_id i) v = Ok rows →
  if is_null v then rows = []
  else ∃ all, scan_table e x (i_table_id i) = Ok all ∧ rows = List.filter (row_matches i v) all.
Proof.
  intros Hwf Hi Hts Hs. pose proof Hs as (u & Hsn & (i' & Hi'%ok_or_Ok & Hx)%result_bind_Ok)%result_bind_Ok.
  unfold Cat.index in Hi'. rewrite Hi in Hi'. injection Hi' as <-.
  destruct (is_null v) eqn:Hv; [by apply Ok_inj in Hx|]. clear Hx.
  destruct (cat_indexes _ (ew_catalog _ Hwf) _ _ Hi) as (_ & _ & _ & tb & Htb & _).
  assert (∃ all, scan_table e x (i_table_id i) = Ok all) as [all Hall].
  { unfold scan_table, table_for_transaction, Cat.table. rewrite Hsn, Htb. cbn [mbind result_bind].
    destruct (Txn.staged_table x (i_table_id i)); by eexists. }
  exists all. split; [done|]. rewrite (scan_secondary_filter e x i v all) in Hs by done.
  by apply result_bind_Ok in Hs as (b & _ & <-%Ok_inj).
Qed.

(** A snapshot of any reachable engine restores to exactly that engine:
    all validation of [from_snapshot] passes and rows, index entries, client
    records, catalog, indexes and statistics come back unchanged. *)
Theorem engine_snapshot_roundtrip e :
  engine_steps Engine_default e → from_snapshot (snapshot e) = Ok e.
Proof. intros Hs. apply from_snapshot_snapshot. eapply steps_wf; [apply default_wf|done]. Qed.

(** ** The overlay of a transaction *)

(** [x] with one write more, under [k]. *)
Definition with_write (x : Transaction) (k : LogicalKey) (w : TxnWrite) : Transaction :=
  mkTransaction (x_id x) (x_read_ts x) (x_schema_epoch x) (<[k := w]> (x_writes x)) (x_catalog_mutations x).

(** Staging [m] under [k] is all that happened from [x] to [x']. *)
Definition stages (e : Engine) (x x' : Transaction) (k : LogicalKey) (m : Mutation) : Prop :=
  (∃ w, logical_key w = Ok k ∧ w_mutation w = m ∧ x' = with_write x k w)
  ∧ read_key e x' k = new_row_of m ∧ (∀ k', k' ≠ k → read_key e x' k' = read_key e x k').

Lemma stage_write_stages e x w x' :
  Txn.stage_write x w = Ok x' → ∃ k, logical_key w = Ok k ∧ stages e x x' k (w_mutation w).
Proof.
  intros (k & Hk & <-%Ok_inj)%result_bind_Ok. exists k. split; [done|]. split_and!; [by exists w| |].
  - rewrite read_key_row_at. unfold Txn.overlay. cbn. by rewrite lookup_insert_eq.
  - intros k' Hne. rewrite !read_key_row_at. unfold Txn.overlay. cbn. by rewrite lookup_insert_ne.
Qed.

Lemma get_read_key e x t pk r :
  get e x t pk = Ok r → ∃ k, Key.new t pk = Ok k ∧ r = read_key e x k.
Proof.
  intros (u & _ & (u1 & _ & (k & Hk & <-%Ok_inj)%result_bind_Ok)%result_bind_Ok)%result_bind_Ok. eauto.
Qed.

Lemma get_missing e x t pk :
  get e x t pk = Ok None → ∃ k, Key.new t pk = Ok k ∧ ¬ is_Some (read_key e x k).
Proof. intros (k & Hk & Hr)%get_read_key. exists k. rewrite <- Hr. split; [done|by intros [? ?]]. Qed.

(** The four statements that stage row changes. *)
Inductive Dml : Type :=
| DInsert (table_id : Z) (row : Row)
| DUpsert (table_id : Z) (row : Row)
| DUpdate (table_id : Z) (pk : Value) (row : Row)
| DDelete (table_id : Z) (pk : Value).

Definition run_dml (e : Engine) (x : Transaction) (d : Dml) : result EngineError (Transaction * bool) :=
  match d with
  | DInsert t row => x' ← insert_row e x t row; Ok (x', true)
  | DUpsert t row => x' ← upsert e x t row; Ok (x', true)
  | DUpdate t pk row => update e x t pk row
  | DDelete t pk => delete_row e x t pk
  end.

(** What a statement requires of the row it finds, and the mutation it stages. *)
Definition dml_mutation (d : Dml) : Mutation :=
  match d with DInsert _ row | DUpsert _ row | DUpdate _ _ row => Put row | DDelete _ _ => Delete end.

Definition dml_expects (d : Dml) (found : option Row) : Prop :=
  match d with
  | DInsert _ _ => found = None
  | DUpsert _ _ => True
  | DUpdate _ _ _ | DDelete _ _ => is_Some found
  end.

(** The key a statement addresses. *)
Definition dml_key (e : Engine) (x : Transaction) (d : Dml) (k : LogicalKey) : Prop :=
  match d with
  | DInsert t row | DUpsert t row => ∃ pk, validate_row e x t row = Ok pk ∧ Key.new t pk = Ok k
  | DUpdate t pk _ | DDelete t pk => Key.new t pk = Ok k
  end.

Lemma get_then_stage e x t pk r m x' :
  get e x t pk = Ok r → Txn.stage_write x (mkTxnWrite t pk m) = Ok x' →
  ∃ k, Key.new t pk = Ok k ∧ r = read_key e x k ∧ stages e x x' k m.
Proof.
  intros (k & Hk & ->)%get_read_key (k' & Hk' & Hs)%(stage_write_stages e).
  unfold logical_key in Hk'. cbn in Hk', Hs. rewrite Hk in Hk'. apply Ok_inj in Hk' as <-. eauto.
Qed.

(** C30: a transaction reads its own writes.  A statement that reports a change
    staged exactly one write, the new row or the deletion, under the key it
    addresses, and the transaction is otherwise the one before: INSERT only when
    the transaction saw no row there, UPDATE and DELETE only when it saw one.
    Afterwards the transaction reads the new row (or none) under that key and
    the same as before under every other.  A statement that reports no change is
    an UPDATE or DELETE of a row the transaction does not see, and changed
    nothing. *)
Theorem dml_read_your_writes e x d x' changed :
  run_dml e x d = Ok (x', changed) →
  if changed then
    ∃ k, dml_key e x d k ∧ dml_expects d (read_key e x k) ∧ stages e x x' k (dml_mutation d)
  else x' = x ∧ ∃ k, dml_key e x d k ∧ ¬ dml_expects d (read_key e x k).
Proof.
  destruct d as [t row|t row|t pk row|t pk]; cbn [run_dml dml_mutation dml_expects dml_key].
  - intros (x1 & Hx & [= <- <-]%Ok_inj)%result_bind_Ok.
    apply result_bind_Ok in Hx as (pk & Hpk & Hx). apply result_bind_Ok in Hx as (o & Hg & Hx).
    apply result_bind_Ok in Hx as (u & Hn%ensure_Ok & Hx). bool_prop. apply eq_None_not_Some in Hn.
    destruct (get_then_stage _ _ _ _ _ _ _ Hg Hx) as (k & Hk & Ho & Hs). rewrite Ho in Hn. eauto 10.
  - intros (x1 & Hx & [= <- <-]%Ok_inj)%result_bind_Ok.
    apply result_bind_Ok in Hx as (pk & Hpk & Hx). apply (stage_write_stages e) in Hx as (k & Hk & Hs). eauto 10.
  - intros (o & Hg & Hx)%result_bind_Ok. destruct o as [old|]; [|apply Ok_inj in Hx as [= <- <-]; split; [done|by eapply get_missing]].
    apply result_bind_Ok in Hx as (rk & _ & Hx). apply result_bind_Ok in Hx as (u & _ & Hx).
    apply result_bind_Ok in Hx as (x1 & Hx & [= <- <-]%Ok_inj).
    destruct (get_then_stage _ _ _ _ _ _ _ Hg Hx) as (k & Hk & Ho & Hs). exists k. rewrite <- Ho. eauto.
  - intros (o & Hg & Hx)%result_bind_Ok. destruct o as [old|]; [|apply Ok_inj in Hx as [= <- <-]; split; [done|by eapply get_missing]].
    apply result_bind_Ok in Hx as (x1 & Hx & [= <- <-]%Ok_inj).
    destruct (get_then_stage _ _ _ _ _ _ _ Hg Hx) as (k & Hk & Ho & Hs). exists k. rewrite <- Ho. eauto.
Qed.
