(* ===== verification/EngineLive.v ===== *)
(** * A transaction prepared on the current state commits

    Everything a transaction staged through the engine's own operations
    passes the validation that the apply loop repeats, so an attempt that is
    applied to the state it was prepared on is never aborted. *)

From S2P Require Import Prelude CoreTypes CoreCodec EngineExpr EngineCatalog EngineTxn EngineState EngineChains EngineInv EngineCommit EngineSteps EngineProps EngineReads.
Import Codec.

(** ** Catalog mutations that are ready to apply *)

Abbreviation mutations_sorted := (StronglySorted (λ a b, cmp_lt (sort_key a) (sort_key b))).

Record table_ready (c : Catalog) (t : TableMeta) : Prop := {
  tr_valid : Table.validate t = Ok tt;
  tr_id : tables c !! t_id t = None;
  tr_name : table_names c !! normalize (t_name t) = None
}.

Record index_ready (c : Catalog) (i : IndexMeta) : Prop := {
  ir_name_valid : valid_identifier (i_name i) = true;
  ir_nonzero : i_id i ≠ 0;
  ir_id : indexes c !! i_id i = None;
  ir_name : index_names c !! normalize (i_name i) = None
}.

Record mutations_ready (c : Catalog) (ms : list CatalogMutation) : Prop := {
  mr_sorted : mutations_sorted ms;
  mr_tables : ∀ t, CreateTable t ∈ ms → table_ready c t;
  mr_indexes : ∀ i, CreateIndex i ∈ ms → index_ready c i ∧
    ∃ t, (tables c !! i_table_id i = Some t ∨ (CreateTable t ∈ ms ∧ t_id t = i_table_id i))
         ∧ i_column i < zlen (columns (t_schema t));
  mr_table_names : ∀ t u, CreateTable t ∈ ms → CreateTable u ∈ ms →
    normalize (t_name t) = normalize (t_name u) → t = u;
  mr_index_names : ∀ i j, CreateIndex i ∈ ms → CreateIndex j ∈ ms →
    normalize (i_name i) = normalize (i_name j) → i = j
}.

Lemma ready_head_table c t ms :
  mutations_ready c (CreateTable t :: ms) →
  ∃ c', Cat.create_table c t = Ok c' ∧ mutations_ready c' ms
    ∧ tables c' = <[t_id t := t]> (tables c) ∧ c_schema_epoch c' = c_schema_epoch c.
Proof.
  intros [Hs Ht Hi Htn Hin]. apply StronglySorted_inv in Hs as [Hs Hall]. rewrite Forall_forall in Hall.
  destruct (Ht t ltac:(left)) as [Hv Hid Hname]. unfold Cat.create_table.
  rewrite Hv, Hid, Hname. cbn. eexists. split; [done|]. split; [|done].
  assert (∀ u, CreateTable u ∈ ms → t_id u ≠ t_id t) as Hne.
  { intros u Hu Heq. specialize (Hall _ Hu). unfold cmp_lt in Hall. cbn in Hall. rewrite Heq in Hall.
    rewrite cmp_refl in Hall. done. }
  split; cbn; [done|..].
  - intros u Hu. destruct (Ht u ltac:(by right)) as [? ? ?]. split; cbn; [done|..].
    + rewrite lookup_insert_ne; [done|]. intros Heq. by apply (Hne u Hu).
    + rewrite lookup_insert_ne; [done|]. intros Heq. apply (Hne u Hu).
      f_equal. symmetry. apply Htn; [left|by right|done].
  - intros i Hii. destruct (Hi i ltac:(by right)) as ([] & tb & Htb & Hcol). split; [by split|].
    exists tb. split; [|done]. destruct Htb as [Htb|[[Heq|Htb]%elem_of_cons Hid']].
    + left. rewrite lookup_insert_ne; [done|]. congruence.
    + left. injection Heq as ->. rewrite <- Hid'. by rewrite lookup_insert_eq.
    + right. done.
  - intros u v Hu Hv'. apply Htn; by right.
  - intros i j Hi' Hj'. apply Hin; by right.
Qed.

Lemma ready_head_index c i ms :
  mutations_ready c (CreateIndex i :: ms) →
  ∃ c', Cat.create_index c i = Ok c' ∧ mutations_ready c' ms
    ∧ tables c' = tables c ∧ c_schema_epoch c' = c_schema_epoch c.
Proof.
  intros [Hs Ht Hi Htn Hin]. apply StronglySorted_inv in Hs as [Hs Hall]. rewrite Forall_forall in Hall.
  assert (∀ t, CreateTable t ∉ ms) as Hnot.
  { intros t Hin'. specialize (Hall _ Hin'). unfold cmp_lt in Hall. by cbn in Hall. }
  assert (∀ j, CreateIndex j ∈ ms → i_id j ≠ i_id i) as Hne.
  { intros j Hj Heq. specialize (Hall _ Hj). unfold cmp_lt in Hall. cbn in Hall. rewrite Heq in Hall.
    rewrite cmp_refl in Hall. done. }
  destruct (Hi i ltac:(left)) as ([Hv H0 Hid Hname] & tb & Htb & Hcol).
  destruct Htb as [Htb|[[?|Htb]%elem_of_cons _]]; [|done|by destruct (Hnot tb)].
  unfold Cat.create_index, validate_identifier, ensure. rewrite Hv. cbn.
  destruct (Z.eqb_spec (i_id i) 0); [done|]. cbn. rewrite Hid, Hname, Htb. cbn.
  destruct (Z.leb_spec (zlen (columns (t_schema tb))) (i_column i)); [lia|]. cbn.
  eexists. split; [done|]. split; [|done]. split; cbn; [done|..].
  - intros u Hu. by destruct (Hnot u).
  - intros j Hj. destruct (Hi j ltac:(by right)) as ([] & tj & Htj & Hcj). split; [split; cbn; try done|].
    + rewrite lookup_insert_ne; [done|]. intros Heq. by apply (Hne j Hj).
    + rewrite lookup_insert_ne; [done|]. intros Heq. apply (Hne j Hj). f_equal. symmetry.
      apply Hin; [left|by right|done].
    + exists tj. split; [|done]. destruct Htj as [?|[[?|Htj]%elem_of_cons _]]; [by left|done|by destruct (Hnot tj)].
  - intros u v Hu. by destruct (Hnot u).
  - intros j k Hj Hk. apply Hin; by right.
Qed.

Lemma mutations_fold c ms ids :
  mutations_ready c ms →
  ∃ c' ids', foldM Cat.apply_mutation (c, ids) ms = Ok (c', ids')
    ∧ tables c ⊆ tables c' ∧ (∀ t, CreateTable t ∈ ms → tables c' !! t_id t = Some t)
    ∧ c_schema_epoch c' = c_schema_epoch c.
Proof.
  revert c ids. induction ms as [|[t|i] ms IH]; intros c ids Hr; cbn [foldM].
  - exists c, ids. split_and!; [done..| |done]. set_solver.
  - pose proof (tr_id _ _ (mr_tables _ _ Hr t ltac:(left))) as Hnone.
    destruct (ready_head_table _ _ _ Hr) as (c1 & H1 & Hr1 & Ht1 & He1). cbn [Cat.apply_mutation].
    rewrite H1. cbn [mbind result_bind].
    destruct (IH c1 ids Hr1) as (c' & ids' & Hf & Hsub & Hall & He). exists c', ids'.
    rewrite Ht1 in Hsub. split_and!; [done| | |congruence].
    + etrans; [|exact Hsub]. by apply insert_subseteq.
    + intros u [[= ->]|Hu]%elem_of_cons; [|by apply Hall].
      eapply lookup_weaken; [|exact Hsub]. by rewrite lookup_insert_eq.
  - destruct (ready_head_index _ _ _ Hr) as (c1 & H1 & Hr1 & Ht1 & He1). cbn [Cat.apply_mutation].
    rewrite H1. cbn [mbind result_bind].
    destruct (IH c1 (ids ++ [i_id i]) Hr1) as (c' & ids' & Hf & Hsub & Hall & He). exists c', ids'.
    rewrite Ht1 in Hsub. split_and!; [done|done| |congruence]. intros u [?|Hu]%elem_of_cons; [done|by apply Hall].
Qed.

Lemma mutations_apply c ms :
  mutations_ready c ms → c_schema_epoch c < u64_max →
  ∃ c' ids, Cat.apply_mutations c ms = Ok (c', ids) ∧ tables c ⊆ tables c'
    ∧ (∀ t, CreateTable t ∈ ms → tables c' !! t_id t = Some t).
Proof.
  intros Hr He. destruct (mutations_fold c ms [] Hr) as (c' & ids & Hf & Hsub & Hall & He').
  unfold Cat.apply_mutations. rewrite Hf. cbn [mbind result_bind]. destruct (is_empty ms); [eauto 10|].
  unfold checked_add. rewrite He'. destruct (Z.leb_spec (c_schema_epoch c + 1) u64_max); [|lia]. cbn. eauto 10.
Qed.

(** ** Fresh ids *)

Lemma length_omap_le {A B} (f : A → option B) l : (length (omap f l) ≤ length l)%nat.
Proof. induction l as [|a l IH]; cbn; [lia|]. destruct (f a); cbn; lia. Qed.

Lemma skip_staged_spec fuel staged id overflow r :
  skip_staged fuel staged id overflow = Ok r →
  id ≤ r ∧ (∀ j, id ≤ j < r → staged j = true) ∧ (staged r = false ∨ r = id + Z.of_nat fuel).
Proof.
  revert id. induction fuel as [|fuel IH]; intros id; cbn [skip_staged].
  - intros [= <-]. split_and!; [lia|lia|right; lia].
  - destruct (staged id) eqn:Hst.
    + intros (nx & (-> & _)%ok_or_Ok%checked_add_Some & Hx)%result_bind_Ok.
      destruct (IH _ Hx) as (Hle & Hall & Hend). split_and!; [lia| |].
      * intros j Hj. destruct (decide (j = id)) as [->|]; [done|]. apply Hall. lia.
      * destruct Hend; [by left|right; lia].
    + intros [= <-]. split_and!; [lia|lia|by left].
Qed.

(** One turn per staged mutation exhausts the staged ids. *)
Lemma skip_staged_fresh (ids : list Z) fuel staged id overflow r :
  (∀ j, staged j = true → j ∈ ids) → (length ids ≤ fuel)%nat →
  skip_staged fuel staged id overflow = Ok r → staged r = false.
Proof.
  intros Hids Hlen (Hle & Hall & Hend)%skip_staged_spec. destruct Hend as [?| ->]; [done|].
  destruct (staged (id + Z.of_nat fuel)) eqn:Hst; [|done]. exfalso.
  assert (seqZ id (Z.of_nat fuel + 1) ⊆+ ids) as Hsub.
  { apply NoDup_submseteq; [apply NoDup_seqZ|]. intros j Hj%elem_of_seqZ. apply Hids.
    destruct (decide (j = id + Z.of_nat fuel)) as [->|]; [done|]. apply Hall. lia. }
  apply submseteq_length in Hsub. rewrite length_seqZ in Hsub. lia.
Qed.

Lemma next_id_fresh {V} (m : gmap Z V) id v :
  (∀ id v, m !! id = Some v → id < u64_max) → m !! id = Some v → id < Cat.next_id m.
Proof.
  intros Hmax Hm. unfold Cat.next_id. pose proof (btree_map_iter_sorted m) as Hs.
  apply elem_of_btree_map_iter in Hm as Hin. destruct (last (btree_map_iter m)) as [[mx w]|] eqn:Hl.
  - apply last_Some in Hl as (l' & Hl). rewrite Hl in Hin, Hs.
    assert (m !! mx = Some w) as Hw by (apply elem_of_btree_map_iter; rewrite Hl; set_solver).
    assert (id ≤ mx) as Hle.
    { apply elem_of_app in Hin as [Hin|[= -> ->]%list_elem_of_singleton]; [|lia].
      apply StronglySorted_app_1_elem_of with (x1 := (id, v)) (x2 := (mx, w)) in Hs; [|done|set_solver].
      assert (id < mx) as Hlt by exact Hs. lia. }
    pose proof (Hmax _ _ Hw). rewrite saturating_add_small by lia. lia.
  - apply last_None in Hl. rewrite Hl in Hin. by apply elem_of_nil in Hin.
Qed.

(** ** What a transaction has staged *)

Definition table_of (m : CatalogMutation) : option Z :=
  match m with CreateTable t => Some (t_id t) | CreateIndex _ => None end.
Definition index_of (m : CatalogMutation) : option Z :=
  match m with CreateIndex i => Some (i_id i) | CreateTable _ => None end.

Lemma staged_table_Some x id t :
  Txn.staged_table x id = Some t → CreateTable t ∈ x_catalog_mutations x ∧ t_id t = id.
Proof.
  unfold Txn.staged_table. induction (x_catalog_mutations x) as [|[u|i] ms IH]; [done|..].
  - destruct (Z.eqb_spec (t_id u) id).
    + intros [= <-]. split; [left|done].
    + intros Hx. destruct (IH Hx). split; [by right|done].
  - intros Hx. destruct (IH Hx). split; [by right|done].
Qed.

Lemma staged_index_Some x id i :
  Txn.staged_index x id = Some i → CreateIndex i ∈ x_catalog_mutations x ∧ i_id i = id.
Proof.
  unfold Txn.staged_index. induction (x_catalog_mutations x) as [|[u|j] ms IH]; [done|..].
  - intros Hx. destruct (IH Hx). split; [by right|done].
  - destruct (Z.eqb_spec (i_id j) id).
    + intros [= <-]. split; [left|done].
    + intros Hx. destruct (IH Hx). split; [by right|done].
Qed.

Lemma staged_table_None x t :
  Txn.staged_table x (t_id t) = None → CreateTable t ∉ x_catalog_mutations x.
Proof.
  unfold Txn.staged_table. induction (x_catalog_mutations x) as [|[u|i] ms IH]; [set_solver|..].
  - destruct (Z.eqb_spec (t_id u) (t_id t)); [done|]. intros Hx [[= ->]|Hin]%elem_of_cons; [done|]. by apply IH.
  - intros Hx [?|Hin]%elem_of_cons; [done|]. by apply IH.
Qed.

Lemma staged_index_None x i :
  Txn.staged_index x (i_id i) = None → CreateIndex i ∉ x_catalog_mutations x.
Proof.
  unfold Txn.staged_index. induction (x_catalog_mutations x) as [|[u|j] ms IH]; [set_solver|..].
  - intros Hx [?|Hin]%elem_of_cons; [done|]. by apply IH.
  - destruct (Z.eqb_spec (i_id j) (i_id i)); [done|]. intros Hx [[= ->]|Hin]%elem_of_cons; [done|]. by apply IH.
Qed.

Lemma fresh_table_id x fuel id overflow r :
  fuel = length (x_catalog_mutations x) →
  skip_staged fuel (λ id, bool_decide (is_Some (Txn.staged_table x id))) id overflow = Ok r →
  id ≤ r ∧ Txn.staged_table x r = None.
Proof.
  intros -> Hx. split; [by apply skip_staged_spec in Hx as [? _]|].
  apply (skip_staged_fresh (omap table_of (x_catalog_mutations x))) in Hx.
  - bool_prop. by apply eq_None_not_Some.
  - intros j Hj. bool_prop. destruct Hj as [t (Hin & Hid)%staged_table_Some].
    apply list_elem_of_omap. exists (CreateTable t). split; [done|]. cbn. by rewrite Hid.
  - apply length_omap_le.
Qed.

Lemma fresh_index_id x fuel id overflow r :
  fuel = length (x_catalog_mutations x) →
  skip_staged fuel (λ id, bool_decide (is_Some (Txn.staged_index x id))) id overflow = Ok r →
  id ≤ r ∧ Txn.staged_index x r = None.
Proof.
  intros -> Hx. split; [by apply skip_staged_spec in Hx as [? _]|].
  apply (skip_staged_fresh (omap index_of (x_catalog_mutations x))) in Hx.
  - bool_prop. by apply eq_None_not_Some.
  - intros j Hj. bool_prop. destruct Hj as [t (Hin & Hid)%staged_index_Some].
    apply list_elem_of_omap. exists (CreateIndex t). split; [done|]. cbn. by rewrite Hid.
  - apply length_omap_le.
Qed.

(** A write that matches the table the transaction sees. *)
Definition write_checked (e : Engine) (x : Transaction) (w : TxnWrite) : Prop :=
  ∃ t, table_for_transaction e x (w_table_id w) = Ok t ∧ key_type_ok t (w_primary_key w) = true
    ∧ match w_mutation w with
      | Put row => SchemaOps.validate_row (t_schema t) row = Ok tt
                   ∧ znth (values row) (primary_key_column t) = Some (w_primary_key w)
      | Delete => True
      end.

Record staged_ok (e : Engine) (x : Transaction) : Prop := {
  so_wf : txn_wf x;
  so_read : x_read_ts x = last_applied e;
  so_epoch : x_schema_epoch x = c_schema_epoch (catalog e);
  so_ready : mutations_ready (catalog e) (x_catalog_mutations x);
  so_writes : ∀ k w, x_writes x !! k = Some w → write_checked e x w
}.

(** *** Row changes *)

Lemma key_type_not_null t pk : key_type_ok t pk = true → is_null pk = false.
Proof. unfold key_type_ok. intros. bool_prop. done. Qed.

Lemma validate_primary_key_Ok e x t pk u :
  validate_primary_key e x t pk = Ok u → ∃ tb, table_for_transaction e x t = Ok tb ∧ key_type_ok tb pk = true.
Proof. intros (tb & Ht & (u1 & Hk%ensure_Ok & _)%result_bind_Ok)%result_bind_Ok. eauto. Qed.

Lemma validate_row_checked e x t row pk :
  validate_row e x t row = Ok pk → write_checked e x (mkTxnWrite t pk (Put row)).
Proof.
  intros (u & _ & Hx)%result_bind_Ok. apply result_bind_Ok in Hx as (tb & Ht & Hx).
  apply result_bind_Ok in Hx as ([] & Hv%core_Ok & Hx). apply result_bind_Ok in Hx as (u1 & Hk & <-%Ok_inj).
  apply validate_primary_key_Ok in Hk as (tb' & Ht' & Hk). rewrite Ht in Ht'. apply Ok_inj in Ht' as <-.
  exists tb. split; [done|]. split; [done|]. split; [done|]. cbn.
  apply key_type_not_null in Hk. by destruct (znth (values row) (primary_key_column tb)).
Qed.

Lemma get_checked e x t pk r : get e x t pk = Ok r → write_checked e x (mkTxnWrite t pk Delete).
Proof.
  intros (u & _ & (u1 & (tb & Ht & Hk)%validate_primary_key_Ok & _)%result_bind_Ok)%result_bind_Ok.
  exists tb. done.
Qed.

Lemma stage_write_ok e x w x' :
  staged_ok e x → write_checked e x w → Txn.stage_write x w = Ok x' → staged_ok e x'.
Proof.
  intros [Hwf Hr He Hm Hw] Hc Hx. pose proof (stage_write_wf _ _ _ Hwf Hx) as Hwf'.
  apply result_bind_Ok in Hx as (k & Hk & <-%Ok_inj). split; try done. cbn.
  intros k' w' [[<- <-]|[_ Hw']]%lookup_insert_Some; [done|]. exact (Hw _ _ Hw').
Qed.

Lemma run_dml_ok e x d x' b : staged_ok e x → run_dml e x d = Ok (x', b) → staged_ok e x'.
Proof.
  intros Hs. destruct d as [t row|t row|t pk row|t pk]; cbn [run_dml].
  - intros (x1 & Hx & [= <- _]%Ok_inj)%result_bind_Ok.
    apply result_bind_Ok in Hx as (pk & Hpk%validate_row_checked & Hx). apply result_bind_Ok in Hx as (o & _ & Hx).
    apply result_bind_Ok in Hx as (u & _ & Hx). by eapply stage_write_ok.
  - intros (x1 & Hx & [= <- _]%Ok_inj)%result_bind_Ok.
    apply result_bind_Ok in Hx as (pk & Hpk%validate_row_checked & Hx). by eapply stage_write_ok.
  - intros (o & _ & Hx)%result_bind_Ok. destruct o as [old|]; [|by apply Ok_inj in Hx as [= <- _]].
    apply result_bind_Ok in Hx as (rk & Hrk%validate_row_checked & Hx).
    apply result_bind_Ok in Hx as (u & Heq%ensure_Ok & Hx). bool_prop. subst rk.
    apply result_bind_Ok in Hx as (x1 & Hx & [= <- _]%Ok_inj). by eapply stage_write_ok.
  - intros (o & Hg%get_checked & Hx)%result_bind_Ok. destruct o as [old|]; [|by apply Ok_inj in Hx as [= <- _]].
    apply result_bind_Ok in Hx as (x1 & Hx & [= <- _]%Ok_inj). by eapply stage_write_ok.
Qed.

(** *** Schema changes *)

(** Ids are left: no table or index holds the last one. *)
Definition ids_available (c : Catalog) : Prop :=
  (∀ id t, tables c !! id = Some t → id < u64_max) ∧ (∀ id i, indexes c !! id = Some i → id < u64_max).

Lemma elem_of_stage_catalog x m m' :
  m' ∈ x_catalog_mutations (Txn.stage_catalog x m) ↔ m' ∈ x_catalog_mutations x ∨ m' = m.
Proof. cbn. rewrite merge_sort_Permutation. set_solver. Qed.

Lemma same_name a b : eq_ignore_ascii_case a b = false → normalize a ≠ normalize b.
Proof. unfold eq_ignore_ascii_case, normalize. intros. bool_prop. done. Qed.

Lemma sorted_key_unique ms a b :
  mutations_sorted ms → a ∈ ms → b ∈ ms → sort_key a = sort_key b → a = b.
Proof.
  intros Hs Ha Hb Heq. induction Hs as [|m ms Hs IH Hm]; [by apply elem_of_nil in Ha|].
  rewrite Forall_forall in Hm.
  apply elem_of_cons in Ha as [->|Ha], Hb as [->|Hb]; [done|..|by apply IH].
  - specialize (Hm _ Hb). cbn in Hm. rewrite Heq in Hm. by apply cmp_lt_irrefl in Hm.
  - specialize (Hm _ Ha). cbn in Hm. rewrite Heq in Hm. by apply cmp_lt_irrefl in Hm.
Qed.

Lemma staged_table_iff x t :
  txn_wf x → Txn.staged_table x (t_id t) = Some t ↔ CreateTable t ∈ x_catalog_mutations x.
Proof.
  intros Hwf. split; [by intros [? _]%staged_table_Some|]. intros Hin.
  destruct (Txn.staged_table x (t_id t)) as [u|] eqn:Hx; [|by apply staged_table_None in Hx].
  apply staged_table_Some in Hx as [Hu Hid].
  assert (CreateTable u = CreateTable t) as [= ->]; [|done].
  eapply sorted_key_unique; [apply Hwf|done..|]. cbn. by rewrite Hid.
Qed.

(** The tables a transaction sees keep their definition when another table
    is staged. *)
Lemma table_for_stage_table e x t id tb :
  txn_wf x → txn_wf (Txn.stage_catalog x (CreateTable t)) → tables (catalog e) !! t_id t = None →
  table_for_transaction e x id = Ok tb →
  table_for_transaction e (Txn.stage_catalog x (CreateTable t)) id = Ok tb.
Proof.
  intros Hwf Hwf' Hnone. unfold table_for_transaction. rewrite !ok_or_Ok. unfold Cat.table.
  destruct (Txn.staged_table x id) as [u|] eqn:Hx.
  - intros [= ->]. apply staged_table_Some in Hx as [Hin <-].
    rewrite (proj2 (staged_table_iff _ tb Hwf')); [done|]. apply elem_of_stage_catalog. by left.
  - intros Htb. destruct (Txn.staged_table (Txn.stage_catalog x (CreateTable t)) id) as [v|] eqn:Hv; [|done].
    apply staged_table_Some in Hv as [Hv <-]. apply elem_of_stage_catalog in Hv as [Hv|[= ->]]; [|congruence].
    apply (staged_table_iff _ _ Hwf) in Hv. congruence.
Qed.

Lemma table_for_stage_index e x i id tb :
  txn_wf x → txn_wf (Txn.stage_catalog x (CreateIndex i)) →
  table_for_transaction e x id = Ok tb →
  table_for_transaction e (Txn.stage_catalog x (CreateIndex i)) id = Ok tb.
Proof.
  intros Hwf Hwf'. unfold table_for_transaction. rewrite !ok_or_Ok. unfold Cat.table.
  destruct (Txn.staged_table x id) as [u|] eqn:Hx.
  - intros [= ->]. apply staged_table_Some in Hx as [Hin <-].
    rewrite (proj2 (staged_table_iff _ tb Hwf')); [done|]. apply elem_of_stage_catalog. by left.
  - intros Htb. destruct (Txn.staged_table (Txn.stage_catalog x (CreateIndex i)) id) as [v|] eqn:Hv; [|done].
    apply staged_table_Some in Hv as [Hv <-]. apply elem_of_stage_catalog in Hv as [Hv|?]; [|done].
    apply (staged_table_iff _ _ Hwf) in Hv. congruence.
Qed.

Lemma write_checked_mono e x x' w :
  (∀ id tb, table_for_transaction e x id = Ok tb → table_for_transaction e x' id = Ok tb) →
  write_checked e x w → write_checked e x' w.
Proof. intros Hm (t & Ht & Hrest). exists t. auto. Qed.

Lemma names_of_None {V} (name : V → string) m names n :
  names_of name m names → (id ← names !! n; m !! id) = None → names !! n = None.
Proof.
  intros Hn Hx. destruct (names !! n) as [id|] eqn:Hid; [|done].
  apply Hn in Hid as (v & Hv & _). cbn in Hx. congruence.
Qed.

Lemma table_new_Ok id name schema t :
  Table.new id name schema = Ok t → t_id t = id ∧ Table.validate t = Ok tt.
Proof.
  intros ([] & H1 & ([] & H2 & (pk & H3 & <-%Ok_inj)%result_bind_Ok)%result_bind_Ok)%result_bind_Ok.
  split; [done|]. unfold Table.validate. cbn. rewrite H1. cbn. rewrite H2. cbn. rewrite H3. cbn.
  by rewrite Z.eqb_refl.
Qed.

Lemma create_table_ok e x name schema x' id :
  engine_wf e → ids_available (catalog e) → staged_ok e x →
  create_table e x name schema = Ok (x', id) → staged_ok e x'.
Proof.
  intros He [Hids _] [Hwf Hr Hep Hm Hw] (u & _ & Hx)%result_bind_Ok.
  apply result_bind_Ok in Hx as (id' & Hid%fresh_table_id & Hx); [|done]. destruct Hid as [Hle Hst].
  apply result_bind_Ok in Hx as (t & [Htid Hv]%table_new_Ok & Hx).
  apply result_bind_Ok in Hx as (u1 & Hn%ensure_Ok & [= <- <-]%Ok_inj). bool_prop.
  match goal with H : existsb _ _ = false |- _ => rename H into Hex end.
  assert (tables (catalog e) !! t_id t = None) as Hnone.
  { destruct (tables (catalog e) !! t_id t) as [v|] eqn:Htb; [|done].
    pose proof (next_id_fresh _ _ _ Hids Htb). unfold Cat.next_table_id in Hle. lia. }
  assert (∀ u, CreateTable u ∈ x_catalog_mutations x → normalize (t_name u) ≠ normalize (t_name t)) as Hnames.
  { intros u0 Hu. apply same_name. apply not_true_iff_false. intros Ht.
    assert (existsb (λ m, match m with CreateTable t1 => eq_ignore_ascii_case (t_name t1) (t_name t)
      | CreateIndex _ => false end) (x_catalog_mutations x) = true) as Htrue; [|congruence].
    apply existsb_exists. exists (CreateTable u0). split; [by apply list_elem_of_In|done]. }
  assert (txn_wf (Txn.stage_catalog x (CreateTable t))) as Hwf'.
  { apply stage_catalog_wf; [done|]. apply Forall_forall. intros [u0|i] Hu; [|done]. cbn. intros [= Heq].
    apply (staged_table_iff _ _ Hwf) in Hu. congruence. }
  split; [done|done|done| |].
  - destruct Hm as [Hs Ht Hi Htn Hin]. split; [apply Hwf'|..]; setoid_rewrite elem_of_stage_catalog.
    + intros u0 [Hu|[= ->]]; [by apply Ht|]. split; [done|done|].
      eapply names_of_None; [apply He|]. unfold Cat.table_named in *. apply eq_None_not_Some. done.
    + intros i [Hii|?]; [|done]. destruct (Hi i Hii) as (Hready & tb & Htb & Hcol). split; [done|].
      exists tb. split; [|done]. destruct Htb as [?|[? ?]]; [by left|right; auto].
    + intros u0 v [Hu|[= ->]] [Hv'|[= ->]] Heq; [by apply Htn|..]; [| |done].
      * by destruct (Hnames _ Hu).
      * by destruct (Hnames _ Hv').
    + intros i j [Hii|?] [Hj|?]; [|done..]. by apply Hin.
  - intros k w Hk. eapply write_checked_mono; [|by eapply Hw]. intros. by apply table_for_stage_table.
Qed.

Lemma index_new_Ok id name t col i :
  Index.new id name t col = Ok i →
  i_id i = id ∧ i_table_id i = t_id t ∧ i_column i = col ∧ valid_identifier (i_name i) = true
  ∧ id ≠ 0 ∧ col < zlen (columns (t_schema t)).
Proof.
  intros ([] & H1%ensure_Ok & ([] & H2%ensure_Ok & ([] & H3%ensure_Ok & <-%Ok_inj)
    %result_bind_Ok)%result_bind_Ok)%result_bind_Ok.
  bool_prop. split_and!; (done || lia).
Qed.

(** A table the transaction sees is in the catalog or staged, under its id. *)
Lemma table_for_transaction_origin e x id t :
  cat_wf (catalog e) → table_for_transaction e x id = Ok t →
  t_id t = id ∧ (tables (catalog e) !! id = Some t ∨ CreateTable t ∈ x_catalog_mutations x).
Proof.
  intros Hc. unfold table_for_transaction, Cat.table. rewrite ok_or_Ok.
  destruct (Txn.staged_table x id) as [u|] eqn:Hx.
  - intros [= ->]. apply staged_table_Some in Hx as [? ?]. auto.
  - intros Ht. destruct (cat_tables _ Hc _ _ Ht). auto.
Qed.

Lemma create_index_ok e x name t col x' id :
  engine_wf e → ids_available (catalog e) → staged_ok e x →
  create_index e x name t col = Ok (x', id) → staged_ok e x'.
Proof.
  intros He [_ Hids] [Hwf Hr Hep Hm Hw] (u & _ & Hx)%result_bind_Ok.
  apply result_bind_Ok in Hx as (tb & Htb & Hx).
  apply result_bind_Ok in Hx as (id' & Hid%fresh_index_id & Hx); [|done]. destruct Hid as [Hle Hst].
  apply result_bind_Ok in Hx as (i & (Hiid & Hit & Hicol & Hval & Hnz & Hcol)%index_new_Ok & Hx).
  apply result_bind_Ok in Hx as (u1 & Hn%ensure_Ok & [= <- <-]%Ok_inj). bool_prop.
  match goal with H : existsb _ _ = false |- _ => rename H into Hex end.
  destruct (table_for_transaction_origin e x t tb (ew_catalog _ He) Htb) as [Htid Horigin].
  assert (indexes (catalog e) !! i_id i = None) as Hnone.
  { destruct (indexes (catalog e) !! i_id i) as [v|] eqn:Hv; [|done].
    pose proof (next_id_fresh _ _ _ Hids Hv). unfold Cat.next_index_id in Hle. lia. }
  assert (∀ j, CreateIndex j ∈ x_catalog_mutations x → normalize (i_name j) ≠ normalize (i_name i)) as Hnames.
  { intros j Hj. apply same_name. apply not_true_iff_false. intros Ht.
    assert (existsb (λ m, match m with CreateIndex i1 => eq_ignore_ascii_case (i_name i1) (i_name i)
      | CreateTable _ => false end) (x_catalog_mutations x) = true) as Htrue; [|congruence].
    apply existsb_exists. exists (CreateIndex j). split; [by apply list_elem_of_In|done]. }
  assert (txn_wf (Txn.stage_catalog x (CreateIndex i))) as Hwf'.
  { apply stage_catalog_wf; [done|]. apply Forall_forall. intros [u0|j] Hu; [done|]. cbn. intros [= Heq].
    eapply staged_index_None; [|exact Hu]. by rewrite Heq, Hiid. }
  split; [done|done|done| |].
  - destruct Hm as [Hs Ht Hi Htn Hin]. split; [apply Hwf'|..]; setoid_rewrite elem_of_stage_catalog.
    + intros u0 [Hu|?]; [by apply Ht|done].
    + intros j [Hj|[= ->]].
      * destruct (Hi j Hj) as (Hready & tj & Htj & Hcj). split; [done|]. exists tj. split; [|done].
        destruct Htj as [?|[? ?]]; [by left|right; auto].
      * split.
        -- split; [done|congruence|done|]. eapply names_of_None; [apply He|].
           unfold Cat.index_named in *. by apply eq_None_not_Some.
        -- exists tb. split; [|lia]. rewrite Hit, Htid. destruct Horigin; auto.
    + intros u0 v [Hu|?] [Hv'|?]; [|done..]. by apply Htn.
    + intros j k [Hj|[= ->]] [Hk|[= ->]] Heq; [by apply Hin|..]; [| |done].
      * by destruct (Hnames _ Hj).
      * by destruct (Hnames _ Hk).
  - intros k w Hk. eapply write_checked_mono; [|by eapply Hw]. intros. by apply table_for_stage_index.
Qed.

(** ** Staging through the engine *)

Inductive staged_by (e : Engine) : Transaction → Prop :=
| staged_prepare x : prepare_transaction e = Ok x → staged_by e x
| staged_table_op x name schema x' id :
    staged_by e x → create_table e x name schema = Ok (x', id) → staged_by e x'
| staged_index_op x name t col x' id :
    staged_by e x → create_index e x name t col = Ok (x', id) → staged_by e x'
| staged_dml x d x' b : staged_by e x → run_dml e x d = Ok (x', b) → staged_by e x'.

Lemma prepare_ok e x : prepare_transaction e = Ok x → staged_ok e x.
Proof.
  intros (u & _ & <-%Ok_inj)%result_bind_Ok. split; cbn; try done.
  - split; cbn; [intros; by simplify_map_eq|constructor].
  - split; [constructor|set_solver..].
Qed.

Lemma staged_by_ok e x :
  engine_wf e → ids_available (catalog e) → staged_by e x → staged_ok e x.
Proof.
  intros He Hids Hs. induction Hs.
  - by apply prepare_ok.
  - by eapply create_table_ok.
  - by eapply create_index_ok.
  - by eapply run_dml_ok.
Qed.

(** ** Applying what was staged *)

Lemma winning_commit_None e k : engine_wf e → winning_commit e k (last_applied e) = None.
Proof.
  intros He. unfold winning_commit. destruct (primary e !! k) as [l|] eqn:Hk; [|done]. cbn.
  pose proof (ch_range _ _ _ (ew_primary _ He _ _ Hk)) as Hr. destruct l as [|v l]; [done|].
  apply Forall_cons in Hr as [Hv _]. cbn. destruct (Z.ltb_spec (last_applied e) (rv_commit v)); [lia|done].
Qed.

Lemma staged_write_valid e x c w k :
  engine_wf e → (∀ id t, table_for_transaction e x id = Ok t → tables c !! id = Some t) →
  write_checked e x w → logical_key w = Ok k → validate_write e c (last_applied e) w = Ok tt.
Proof.
  intros He Ht (t & Htb & Hk & Hm) Hkey. unfold validate_write, Cat.table. rewrite (Ht _ _ Htb). cbn.
  rewrite Hk. cbn. destruct (w_mutation w) as [row|]; [destruct Hm as [-> Hz]|]; cbn.
  - rewrite bool_decide_true by done. cbn. rewrite Hkey. cbn. by rewrite winning_commit_None.
  - rewrite Hkey. cbn. by rewrite winning_commit_None.
Qed.

Lemma staged_commits e x req term n :
  engine_wf e → c_schema_epoch (catalog e) < u64_max → staged_ok e x →
  ∃ e1 ep, evaluate_and_apply e n (Txn.into_attempt x req term)
    = (e1, Committed n (zlen (writes (Txn.into_attempt x req term))) ep).
Proof.
  intros He Hep [Hwf Hr Hse Hm Hw]. rewrite evaluate_and_apply_eq. set (a := Txn.into_attempt x req term).
  destruct (mutations_apply _ _ Hm Hep) as (c & ids & Hc & Hsub & Hall).
  assert (∀ id t, table_for_transaction e x id = Ok t → tables c !! id = Some t) as Htables.
  { intros id t Ht. destruct (table_for_transaction_origin _ _ _ _ (ew_catalog _ He) Ht) as [<- [?|?]]; [|auto].
    by eapply lookup_weaken. }
  assert (∀ w, w ∈ writes a → ∃ k, x_writes x !! k = Some w) as Hin.
  { intros w Hx. apply list_elem_of_fmap in Hx as ([k w'] & -> & Hx%elem_of_btree_map_iter). eauto. }
  assert (∃ ixs, validate_attempt_for_apply e a = Ok (c, ixs)) as [ixs ->].
  { unfold validate_attempt_for_apply. cbn [a a_read_ts a_schema_epoch Txn.into_attempt]. rewrite Hr, Hse.
    pose proof (ew_floor _ He) as Hf. unfold ensure.
    destruct (Z.ltb_spec (last_applied e) (retained_floor e)); [lia|]. rewrite Z.ltb_irrefl, Z.eqb_refl.
    cbn [negb mbind result_bind]. unfold a. rewrite into_attempt_canonical by done. cbn [mbind result_bind validation map_err].
    cbn [catalog_mutations Txn.into_attempt]. rewrite Hc. cbn [mbind result_bind validation map_err].
    destruct (mapM_result_all (λ index_id, ok_or (Cat.index c index_id)
      (Validation ("catalog mutation returned missing index " +:+ pretty index_id))) ids) as [ixs ->].
    { intros id Hid. pose proof (apply_mutations_grows _ _ _ _ Hc) as Hg.
      destruct (cg_fresh _ _ _ Hg id Hid) as [_ [i Hi]]. exists i. unfold Cat.index. by rewrite Hi. }
    cbn [mbind result_bind]. edestruct (mapM_result_all (validate_write e c (last_applied e))) as [us Hus].
    { intros w Hx. destruct (Hin w Hx) as [k Hk]. exists tt.
      eapply staged_write_valid; [done|exact Htables|by eapply Hw|by apply Hwf]. }
    unfold a in Hus. cbn [writes Txn.into_attempt] in Hus |- *. rewrite Hus. eauto. }
  destruct (mapM_result_all (before_row e) (writes a)) as [l ->]; [|eauto].
  intros w Hx. destruct (Hin w Hx) as [k Hk]. unfold before_row. rewrite (tw_writes _ Hwf _ _ Hk). cbn. eauto.
Qed.

Lemma staged_applies e x req term h rh :
  engine_wf e → c_schema_epoch (catalog e) < u64_max → last_applied e < u64_max → staged_ok e x →
  admit_request e req rh = AdmitNew →
  ∃ e' ep, apply_with_request_hash e (last_applied e + 1) h rh (Txn.into_attempt x req term)
    = Ok (e', Applied (Committed (last_applied e + 1) (zlen (writes (Txn.into_attempt x req term))) ep)).
Proof.
  intros He Hep Hmax Hok Had.
  destruct (staged_commits e x req term (last_applied e + 1) He Hep Hok) as (e1 & ep & Hev).
  unfold apply_with_request_hash. rewrite into_attempt_canonical by apply Hok. cbn [mbind result_bind].
  destruct (Z.eqb_spec (last_applied e + 1) (last_applied e)); [lia|].
  unfold checked_add. destruct (Z.leb_spec (last_applied e + 1) u64_max); [|lia]. cbn [ok_or mbind result_bind].
  rewrite Z.eqb_refl. cbn [ensure mbind result_bind]. cbn [request Txn.into_attempt]. rewrite Had.
  change (mkTxnAttempt req term (x_read_ts x) (x_schema_epoch x) (btree_map_iter (x_writes x)).*2
    (x_catalog_mutations x)) with (Txn.into_attempt x req term).
  rewrite Hev. eauto.
Qed.

(** C21: a transaction prepared on the current state commits.  Whatever tables,
    indexes and rows a transaction staged through the engine, if it is
    applied to the state it was prepared on (the next index, a request the
    client session admits), its attempt is canonical and the outcome is a
    commit: validation never aborts it spuriously. *)
Theorem prepared_transaction_commits e x req term h rh :
  engine_wf e → ids_available (catalog e) → c_schema_epoch (catalog e) < u64_max →
  last_applied e < u64_max → staged_by e x → admit_request e req rh = AdmitNew →
  ∃ e' rows ep, apply_with_request_hash e (last_applied e + 1) h rh (Txn.into_attempt x req term)
    = Ok (e', Applied (Committed (last_applied e + 1) rows ep)).
Proof.
  intros He Hids Hep Hmax Hs Had.
  destruct (staged_applies e x req term h rh He Hep Hmax (staged_by_ok _ _ He Hids Hs) Had) as (e' & ep & Hx). eauto.
Qed.
