(* ===== verification/EngineQuery.v ===== *)
(** * Queries: [crates/aster-engine/src/query.rs] and [execute_query]

    Scan, filter, sort, offset and limit, projection; the result is the
    window of the sorted matching rows. *)

From S2P Require Import Prelude CoreTypes CoreCodec EngineExpr EngineCatalog EngineTxn EngineState EngineChains EngineInv EngineCommit EngineSteps EngineProps EngineReads.
Import Codec.

Inductive ScanSource : Type :=
| ScanTable (table_id : Z)
| SecondaryEq (index_id : Z) (value : Value).

Record OrderBy : Type := mkOrderBy {
  o_expression : Expr;
  descending : bool;
  nulls_first : bool
}.

Record Query : Type := mkQuery {
  q_source : ScanSource;
  q_filter : option Expr;
  q_projection : list Expr;
  q_order_by : list OrderBy;
  q_offset : Z;
  q_limit : option Z
}.

Definition query_table (table_id : Z) : Query :=
  {| q_source := ScanTable table_id; q_filter := None; q_projection := []; q_order_by := [];
     q_offset := 0; q_limit := None |}.

Inductive SortKey : Type :=
| SkNull
| SkEncoded (key : bytes).

Definition sort_key_of (value : Value) : result EngineError SortKey :=
  if is_null value then Ok SkNull
  else
    _ ← core (encode_value value);
    Ok (SkEncoded (encode_ordered value)).

(** One turn of the [find_map] of [compare_sort_keys]. *)
Definition compare_sort_key (left_ right_ : SortKey) (order : OrderBy) : comparison :=
  let ordering :=
    match left_, right_ with
    | SkNull, SkNull => Eq
    | SkNull, _ => if nulls_first order then Lt else Gt
    | _, SkNull => if nulls_first order then Gt else Lt
    | SkEncoded left_, SkEncoded right_ => cmp left_ right_
    end in
  match left_, right_ with
  | SkNull, _ | _, SkNull => ordering
  | _, _ => if descending order then CompOpp ordering else ordering
  end.

Fixpoint compare_sort_keys (left_ right_ : list SortKey) (order : list OrderBy) : comparison :=
  match left_, right_, order with
  | l :: left_, r :: right_, o :: order =>
      match compare_sort_key l r o with
      | Eq => compare_sort_keys left_ right_ order
      | c => c
      end
  | _, _, _ => Eq
  end.

Definition query_scan (self : Engine) (x : Transaction) (source : ScanSource)
    : result EngineError (list Row) :=
  match source with
  | ScanTable table_id => scan_table self x table_id
  | SecondaryEq index_id value => scan_secondary self x index_id value
  end.

Definition unwrap_or_false (r : result EngineError bool) : bool :=
  match r with Ok b => b | Err _ => false end.

Definition row_sort_keys (q : Query) (row : Row) : result EngineError (list SortKey) :=
  mapM_result (λ order, value ← evaluate (o_expression order) row; sort_key_of value) (q_order_by q).

(** One turn of the loop over the scanned rows. *)
Definition query_row (q : Query) (evaluated : list (Row * list SortKey)) (row : Row)
    : result EngineError (list (Row * list SortKey)) :=
  if match q_filter q with
     | Some filter => negb (unwrap_or_false (evaluate_predicate filter row))
     | None => false
     end
  then
    _ ← match q_filter q with
        | Some filter => evaluate_predicate filter row
        | None => Ok false
        end;
    Ok evaluated
  else
    sort_keys ← row_sort_keys q row;
    Ok (evaluated ++ [(row, sort_keys)]).

Definition project (q : Query) (row : Row) : result EngineError Row :=
  if is_empty (q_projection q) then Ok row
  else vs ← mapM_result (λ expression, evaluate expression row) (q_projection q); Ok {| values := vs |}.

Definition execute_query (self : Engine) (x : Transaction) (q : Query)
    : result EngineError (list Row) :=
  rows ← query_scan self x (q_source q);
  evaluated ← foldM (query_row q) [] rows;
  let evaluated :=
    if is_empty (q_order_by q) then evaluated
    else sort_by (λ a b, compare_sort_keys a.2 b.2 (q_order_by q)) evaluated in
  let available := saturating_sub (zlen evaluated) (q_offset q) in
  let n := Z.min (default available (q_limit q)) available in
  mapM_result (λ p, project q p.1) (ztake n (zdrop (q_offset q) evaluated)).

(** ** The order of the result, in terms of values *)

Definition value_key_order (o : OrderBy) (a b : Value) : comparison :=
  match is_null a, is_null b with
  | true, true => Eq
  | true, false => if nulls_first o then Lt else Gt
  | false, true => if nulls_first o then Gt else Lt
  | false, false => if descending o then CompOpp (value_order a b) else value_order a b
  end.

Fixpoint values_order (order : list OrderBy) (vs ws : list Value) : comparison :=
  match order, vs, ws with
  | o :: order, v :: vs, w :: ws =>
      match value_key_order o v w with Eq => values_order order vs ws | c => c end
  | _, _, _ => Eq
  end.

Definition order_values (q : Query) (row : Row) : result EngineError (list Value) :=
  mapM_result (λ order, evaluate (o_expression order) row) (q_order_by q).

(** [a] may come before [b] in the result. *)
Definition row_le (q : Query) (a b : Row) : Prop :=
  ∃ vs ws, order_values q a = Ok vs ∧ order_values q b = Ok ws ∧ values_order (q_order_by q) vs ws ≠ Gt.

Definition keeps (q : Query) (row : Row) : bool :=
  match q_filter q with
  | Some filter => unwrap_or_false (evaluate_predicate filter row)
  | None => true
  end.

Lemma compare_sort_key_opp l r o : compare_sort_key r l o = CompOpp (compare_sort_key l r o).
Proof.
  destruct l as [|l], r as [|r]; cbn; try by destruct (nulls_first o).
  rewrite (cmp_antisym l r). by destruct (descending o), (cmp l r).
Qed.

Lemma compare_sort_key_eq l r o : compare_sort_key l r o = Eq ↔ l = r.
Proof.
  destruct l as [|l], r as [|r]; cbn; try (by destruct (nulls_first o)).
  transitivity (cmp l r = Eq); [by destruct (descending o), (cmp l r)|]. rewrite cmp_eq. naive_solver.
Qed.

Lemma compare_sort_key_lt a b c o :
  compare_sort_key a b o = Lt → compare_sort_key b c o = Lt → compare_sort_key a c o = Lt.
Proof.
  destruct a as [|a], b as [|b], c as [|c]; cbn; try done; try by destruct (nulls_first o).
  destruct (descending o); [|apply cmp_lt_trans]. rewrite <- !(cmp_antisym _ _). intros. by eapply cmp_lt_trans.
Qed.

Lemma compare_sort_keys_opp l r o : compare_sort_keys r l o = CompOpp (compare_sort_keys l r o).
Proof.
  revert r o. induction l as [|x l IH]; intros [|y r] [|o os]; cbn; try done.
  rewrite (compare_sort_key_opp x y). destruct (compare_sort_key x y o); cbn; auto.
Qed.

Lemma compare_sort_keys_trans a b c o :
  length a = length o → length b = length o → length c = length o →
  compare_sort_keys a b o ≠ Gt → compare_sort_keys b c o ≠ Gt → compare_sort_keys a c o ≠ Gt.
Proof.
  revert b c o. induction a as [|x a IH]; intros [|y b] [|z c] [|o os]; cbn; try done. intros [= Ha] [= Hb] [= Hc].
  destruct (compare_sort_key x y o) eqn:Hxy; [|destruct (compare_sort_key y z o) eqn:Hyz|done].
  - apply compare_sort_key_eq in Hxy as ->. destruct (compare_sort_key y z o); [|done..]. by apply IH.
  - apply compare_sort_key_eq in Hyz as ->. by rewrite Hxy.
  - by rewrite (compare_sort_key_lt _ _ _ _ Hxy Hyz).
  - done.
Qed.

(** ** Keys and values *)

Lemma sort_key_of_compare a b ka kb o :
  value_ok a → value_ok b → sort_key_of a = Ok ka → sort_key_of b = Ok kb →
  compare_sort_key ka kb o = value_key_order o a b.
Proof.
  intros Ha Hb. unfold sort_key_of, value_key_order.
  destruct (is_null a); [intros <-%Ok_inj|intros (x & _ & <-%Ok_inj)%result_bind_Ok];
    (destruct (is_null b); [intros <-%Ok_inj|intros (y & _ & <-%Ok_inj)%result_bind_Ok]); try done.
  pose proof (encode_ordered_cmp a b [] [] Ha Hb) as Hc. rewrite !app_nil_r in Hc. cbn.
  change (cmp (encode_ordered a) (encode_ordered b)) with (list_cmp (encode_ordered a) (encode_ordered b)).
  rewrite Hc. by destruct (value_order a b).
Qed.

Lemma sort_keys_compare os vs ws ks ls :
  Forall2 (λ v k, value_ok v ∧ sort_key_of v = Ok k) vs ks →
  Forall2 (λ v k, value_ok v ∧ sort_key_of v = Ok k) ws ls →
  compare_sort_keys ks ls os = values_order os vs ws.
Proof.
  intros Hv. revert ws ls os. induction Hv as [|v k vs ks [Hv Hk] Hvs IH]; intros ws ls os Hw.
  - by destruct os.
  - destruct Hw as [|w l ws ls [Hw Hl] Hws]; [by destruct os|]. destruct os as [|o os]; [done|]. cbn.
    rewrite (sort_key_of_compare v w k l o) by done. destruct (value_key_order o v w); [|done..]. by apply IH.
Qed.

Lemma row_sort_keys_values q row ks :
  Forall (λ o, literals_ok (o_expression o)) (q_order_by q) → row_ok row → row_sort_keys q row = Ok ks →
  ∃ vs, order_values q row = Ok vs ∧ Forall2 (λ v k, value_ok v ∧ sort_key_of v = Ok k) vs ks.
Proof.
  intros Hl Hr Hks. unfold row_sort_keys in Hks. apply mapM_result_Ok in Hks. unfold order_values.
  setoid_rewrite mapM_result_Ok. induction Hks as [|o k os ks Ho Hks IH]; [by exists []|].
  apply Forall_cons in Hl as [Hlo Hl]. apply result_bind_Ok in Ho as (v & Hv & Hk).
  destruct (IH Hl) as (vs & Hvs & Hf). exists (v :: vs). split; [by constructor|]. constructor; [|done].
  split; [|done]. by eapply evaluate_value_ok.
Qed.

Lemma row_sort_keys_length q row ks : row_sort_keys q row = Ok ks → length ks = length (q_order_by q).
Proof. intros Hk%mapM_result_Ok%Forall2_length. done. Qed.

(** ** The loop over the rows *)

Lemma query_fold q acc rows ev :
  foldM (query_row q) acc rows = Ok ev →
  ∃ ev', ev = acc ++ ev' ∧ ev'.*1 = List.filter (keeps q) rows
    ∧ Forall (λ p, row_sort_keys q p.1 = Ok p.2) ev'.
Proof.
  revert acc. induction rows as [|row rows IH]; intros acc; cbn [foldM].
  - intros <-%Ok_inj. exists []. by rewrite app_nil_r.
  - intros (acc' & Hrow & Hf)%result_bind_Ok. destruct (IH _ Hf) as (ev' & -> & Hev & Hall). clear IH Hf.
    unfold query_row in Hrow. cbn [List.filter]. unfold keeps at 1.
    assert (∀ ks, row_sort_keys q row = Ok ks → acc' = acc ++ [(row, ks)] →
      ∃ ev'', acc' ++ ev' = acc ++ ev'' ∧ ev''.*1 = row :: List.filter (keeps q) rows
        ∧ Forall (λ p, row_sort_keys q p.1 = Ok p.2) ev'') as Hkeep.
    { intros ks Hks ->. exists ((row, ks) :: ev'). rewrite <- app_assoc. cbn. by rewrite Hev; auto. }
    destruct (q_filter q) as [f|].
    + destruct (unwrap_or_false (evaluate_predicate f row)); cbn [negb] in Hrow.
      * apply result_bind_Ok in Hrow as (ks & Hks & <-%Ok_inj). by eapply Hkeep.
      * apply result_bind_Ok in Hrow as (b & _ & <-%Ok_inj). eauto.
    + apply result_bind_Ok in Hrow as (ks & Hks & <-%Ok_inj). by eapply Hkeep.
Qed.

Lemma read_key_ok e x k row :
  engine_wf e → (∀ k w, x_writes x !! k = Some w → write_ok w) → read_key e x k = Some row → row_ok row.
Proof.
  intros He Hw. rewrite read_key_row_at. unfold Txn.overlay.
  destruct (x_writes x !! k) as [w|] eqn:Hk; cbn; [|by apply (row_at_ok e He)].
  destruct (Hw _ _ Hk) as (_ & _ & Hm). destruct (w_mutation w); [|done]. by intros [= <-].
Qed.

Lemma query_scan_ok e x src rows :
  engine_wf e → (∀ k w, x_writes x !! k = Some w → write_ok w) →
  query_scan e x src = Ok rows → Forall row_ok rows.
Proof.
  intros He Hw Hs. apply Forall_forall. intros row Hin.
  assert (∃ k, read_key e x k = Some row) as [k Hk]; [|by eapply read_key_ok].
  destruct src as [t|id v]; cbn in Hs.
  - apply result_bind_Ok in Hs as (u & _ & (tb & _ & <-%Ok_inj)%result_bind_Ok).
    apply list_elem_of_omap in Hin as (k & _ & Hk). eauto.
  - apply result_bind_Ok in Hs as (u & _ & (i & _ & Hx)%result_bind_Ok).
    destruct (is_null v); [apply Ok_inj in Hx as <-; by apply elem_of_nil in Hin|].
    apply result_bind_Ok in Hx as (b & _ & <-%Ok_inj).
    apply list_elem_of_In, filter_In in Hin as [Hin _]. apply list_elem_of_In in Hin.
    apply list_elem_of_omap in Hin as (k & _ & Hk). eauto.
Qed.

(** The window of a result. *)
Definition window (q : Query) (l : list Row) : list Row :=
  match q_limit q with
  | None => zdrop (q_offset q) l
  | Some n => ztake n (zdrop (q_offset q) l)
  end.

Lemma window_eq {A} (off : Z) (limit : option Z) (l : list A) :
  let available := saturating_sub (zlen l) off in
  ztake (Z.min (default available limit) available) (zdrop off l)
  = match limit with None => zdrop off l | Some n => ztake n (zdrop off l) end.
Proof.
  cbv zeta. set (r := zdrop off l).
  assert (zlen r ≤ saturating_sub (zlen l) off) as Hr.
  { unfold saturating_sub, r, zlen, zdrop. rewrite length_drop. lia. }
  destruct limit as [n|]; cbn [from_option id].
  - destruct (Z.le_ge_cases n (saturating_sub (zlen l) off)).
    + by rewrite Z.min_l by lia.
    + rewrite Z.min_r by lia. rewrite !ztake_all by lia. done.
  - rewrite Z.min_id. by apply ztake_all.
Qed.

(** Rows sorted by their keys are sorted by the values. *)
Lemma sorted_rows q (s : list (Row * list SortKey)) :
  Forall (λ o, literals_ok (o_expression o)) (q_order_by q) →
  Forall (λ p, row_ok p.1 ∧ row_sort_keys q p.1 = Ok p.2) s →
  StronglySorted (λ a b, compare_sort_keys a.2 b.2 (q_order_by q) ≠ Gt) s → StronglySorted (row_le q) s.*1.
Proof.
  intros Hlit Hall Hs. induction Hs as [|p s Hs IH Hp]; [constructor|].
  apply Forall_cons in Hall as [[Hpr Hpk] Hall]. cbn. constructor; [by apply IH|].
  apply Forall_fmap. rewrite Forall_forall in Hp, Hall |- *. intros r Hr. destruct (Hall r Hr) as [Hrr Hrk].
  destruct (row_sort_keys_values q _ _ Hlit Hpr Hpk) as (vs & Hvs & Hf).
  destruct (row_sort_keys_values q _ _ Hlit Hrr Hrk) as (ws & Hws & Hg).
  exists vs, ws. split; [done|]. split; [done|]. rewrite <- (sort_keys_compare _ vs ws p.2 r.2) by done.
  by apply Hp.
Qed.

(** The rows as the query arranges them. *)
Lemma arranged_sorted q (ev : list (Row * list SortKey)) :
  let s := if is_empty (q_order_by q) then ev
           else sort_by (λ a b, compare_sort_keys a.2 b.2 (q_order_by q)) ev in
  Forall (λ p, row_sort_keys q p.1 = Ok p.2) ev →
  s ≡ₚ ev ∧ StronglySorted (λ a b, compare_sort_keys a.2 b.2 (q_order_by q) ≠ Gt) s.
Proof.
  cbv zeta. intros Hall. destruct (is_empty (q_order_by q)) eqn:Hq; (split; [|]); [done| |apply sort_by_perm|].
  - assert (q_order_by q = []) as -> by (by destruct (q_order_by q)). clear.
    induction ev as [|p ev IH]; constructor; [done|]. apply Forall_true. intros r. by destruct (p.2), (r.2).
  - apply (sort_by_sorted _ (λ p, length p.2 = length (q_order_by q))).
    + intros a b. apply compare_sort_keys_opp.
    + intros a b c. apply compare_sort_keys_trans.
    + eapply Forall_impl; [exact Hall|]. intros p Hp. by rewrite (row_sort_keys_length _ _ _ Hp).
Qed.

(** C29: a query returns the right window of the right rows in the right order.
    The rows of the scan that satisfy the filter (NULL counts as not
    satisfied, an evaluation error fails the query) are arranged in the order
    of the ORDER BY keys, compared as values with NULLs first or last and
    descending keys reversed (in key order when there is no ORDER BY); the
    result is the projection of the rows from the offset on, at most the
    limit. *)
Theorem execute_query_spec e x q out :
  engine_wf e → (∀ k w, x_writes x !! k = Some w → write_ok w) →
  Forall (λ o, literals_ok (o_expression o)) (q_order_by q) →
  execute_query e x q = Ok out →
  ∃ rows sorted,
    query_scan e x (q_source q) = Ok rows
    ∧ sorted ≡ₚ List.filter (keeps q) rows ∧ StronglySorted (row_le q) sorted
    ∧ (q_order_by q = [] → sorted = List.filter (keeps q) rows)
    ∧ Forall2 (λ row row', project q row = Ok row') (window q sorted) out.
Proof.
  intros He Hw Hlit (rows & Hscan & (ev & Hev & Hx)%result_bind_Ok)%result_bind_Ok.
  pose proof (query_scan_ok _ _ _ _ He Hw Hscan) as Hok.
  apply query_fold in Hev as (ev' & -> & Hfst & Hkeys). cbn [app] in Hx.
  destruct (arranged_sorted q ev' Hkeys) as [Hperm Hsorted]. revert Hx Hperm Hsorted. rewrite window_eq.
  set (s := if is_empty (q_order_by q) then ev' else _). intros Hx Hperm Hsorted. exists rows, s.*1.
  assert (Forall (λ p, row_ok p.1 ∧ row_sort_keys q p.1 = Ok p.2) ev') as Hall.
  { rewrite Forall_forall in Hok. rewrite Forall_forall in Hkeys |- *. intros p Hp. split; [|by apply Hkeys].
    apply Hok.
    assert (p.1 ∈ List.filter (keeps q) rows) as Hin by (rewrite <- Hfst; by apply list_elem_of_fmap_2).
    by apply list_elem_of_In, filter_In in Hin as [?%list_elem_of_In _]. }
  split; [done|]. split; [by rewrite Hperm, Hfst|]. split_and!.
  - apply sorted_rows; [done| |done]. by apply (Permutation_Forall (symmetry Hperm)).
  - intros Hq. unfold s. by rewrite Hq.
  - apply mapM_result_Ok in Hx. unfold window. destruct (q_limit q) as [n|]; unfold ztake, zdrop in *;
      rewrite <- ?fmap_drop, <- ?fmap_take; by apply Forall2_fmap_l.
Qed.
