(* ===== verification/EngineExamples.v ===== *)
(** * A concrete database

    A two-column table with an index, three clients, a conflict and a vacuum,
    run through the engine; the hypotheses of the engine and codec theorems
    hold on it. *)

From S2P Require Import Prelude CoreTypes CoreCodec EngineExpr EngineCatalog EngineTxn EngineState EngineChains EngineInv EngineCommit EngineSteps EngineProps EngineReads EngineLive EngineQuery.
Import Codec.

Definition force {E A} (r : result E A) (d : A) : A := match r with Ok a => a | Err _ => d end.

Definition users_schema : Schema :=
  {| columns := [mkColumn "id" Int64 false true; mkColumn "age" Int64 true false] |}.

Definition user (id age : Z) : Row := {| values := [VInt64 id; VInt64 age] |}.

Definition client (n : Z) : bytes := replicate 15 0 ++ [n].
Definition req (c s : Z) : ClientRequestId := {| client_id := client c; sequence := s |}.
Definition hash (n : Z) : bytes := replicate 31 0 ++ [n].

Definition no_txn : Transaction := Txn.new 0 0 0.
Definition prepared (e : Engine) : Transaction := force (prepare_transaction e) no_txn.
Definition dml (e : Engine) (x : Transaction) (d : Dml) : Transaction := (force (run_dml e x d) (x, false)).1.

Definition applied (e : Engine) (n : Z) (a : TxnAttempt) : Engine * ApplyOutcome :=
  force (apply_with_request_hash e (last_applied e + 1) (hash n) (hash n) a) (e, NoopOutcome).

(** The first transaction creates the table and its index and inserts a row. *)
Definition x1_table : Transaction :=
  (force (create_table Engine_default (prepared Engine_default) "users" users_schema) (no_txn, 0)).1.
Definition x1_index : Transaction :=
  (force (create_index Engine_default x1_table "users_age" 1 1) (no_txn, 0)).1.
Definition x1 : Transaction := dml Engine_default x1_index (DInsert 1 (user 1 30)).
Definition a1 : TxnAttempt := Txn.into_attempt x1 (req 1 1) 1.
Definition e1 : Engine := (applied Engine_default 1 a1).1.

(** The second changes that row and inserts another of the same age. *)
Definition x2_update : Transaction := dml e1 (prepared e1) (DUpdate 1 (VInt64 1) (user 1 31)).
Definition x2 : Transaction := dml e1 x2_update (DInsert 1 (user 2 31)).
Definition a2 : TxnAttempt := Txn.into_attempt x2 (req 1 2) 1.
Definition e2 : Engine := (applied e1 2 a2).1.

(** The third was prepared before the second committed and conflicts. *)
Definition x3 : Transaction := dml e1 (prepared e1) (DDelete 1 (VInt64 1)).
Definition a3 : TxnAttempt := Txn.into_attempt x3 (req 2 1) 1.
Definition e3 : Engine := (applied e2 3 a3).1.

(** Then vacuum discards what only snapshots before 2 could read. *)
Definition e4 : Engine := (force (vacuum_offline e3 2) (e3, mkVacuumReport 0 0 0 0 0 0)).1.

Example third_conflicts :
  (applied e2 3 a3).2 = Applied (Aborted 3 (WriteConflict 1 (VInt64 1) 2)).
Proof. vm_compute. reflexivity. Qed.

Example vacuum_drops_old_row : row_at e3 (mkLogicalKey 1 (encode_ordered (VInt64 1))) 1 = Some (user 1 30)
  ∧ row_at e4 (mkLogicalKey 1 (encode_ordered (VInt64 1))) 1 = None
  ∧ row_at e4 (mkLogicalKey 1 (encode_ordered (VInt64 1))) 2 = Some (user 1 31).
Proof. vm_compute. auto. Qed.

(** The domain predicates are decidable. *)
#[local] Instance u64_ok_dec z : Decision (u64_ok z).
Proof. unfold u64_ok. solve_decision. Defined.
#[local] Instance i64_ok_dec z : Decision (i64_ok z).
Proof. unfold i64_ok. solve_decision. Defined.
#[local] Instance byte_ok_dec z : Decision (byte_ok z).
Proof. unfold byte_ok. solve_decision. Defined.
#[local] Instance value_ok_dec v : Decision (value_ok v).
Proof. destruct v; cbn; apply _. Defined.
#[local] Instance row_ok_dec r : Decision (row_ok r).
Proof. unfold row_ok. apply _. Defined.
#[local] Instance write_ok_dec w : Decision (write_ok w).
Proof. unfold write_ok. destruct (w_mutation w); apply _. Defined.
#[local] Instance mutation_ok_dec m : Decision (mutation_ok m).
Proof. destruct m; cbn; apply _. Defined.

Ltac by_evaluation := apply (bool_decide_unpack _); vm_compute; exact I.

Lemma a1_ok : attempt_ok a1.
Proof. split; by_evaluation. Qed.
Lemma a2_ok : attempt_ok a2.
Proof. split; by_evaluation. Qed.
Lemma a3_ok : attempt_ok a3.
Proof. split; by_evaluation. Qed.

Lemma e1_applied :
  apply_with_request_hash Engine_default 1 (hash 1) (hash 1) a1 = Ok (e1, Applied (Committed 1 1 1)).
Proof. vm_compute. reflexivity. Qed.
Lemma e2_applied :
  apply_with_request_hash e1 2 (hash 2) (hash 2) a2 = Ok (e2, Applied (Committed 2 2 1)).
Proof. vm_compute. reflexivity. Qed.
Lemma e3_applied :
  apply_with_request_hash e2 3 (hash 3) (hash 3) a3
  = Ok (e3, Applied (Aborted 3 (WriteConflict 1 (VInt64 1) 2))).
Proof. vm_compute. reflexivity. Qed.
Lemma e4_vacuumed : ∃ r, vacuum_offline e3 2 = Ok (e4, r).
Proof. eexists. vm_compute. reflexivity. Qed.

Lemma steps_e1 : engine_steps Engine_default e1.
Proof. eapply rtc_once, step_apply; [apply a1_ok|apply e1_applied]. Qed.
Lemma steps_e1_e4 : engine_steps e1 e4.
Proof.
  eapply rtc_l; [eapply step_apply; [apply a2_ok|apply e2_applied]|].
  eapply rtc_l; [eapply step_apply; [apply a3_ok|apply e3_applied]|].
  destruct e4_vacuumed as [r Hr]. eapply rtc_once, step_vacuum, Hr.
Qed.

Lemma steps_e4 : engine_steps Engine_default e4.
Proof. unfold engine_steps. etrans; [apply steps_e1|apply steps_e1_e4]. Qed.

Lemma e1_wf : engine_wf e1.
Proof. eapply steps_wf; [apply default_wf|apply steps_e1]. Qed.
Lemma e2_wf : engine_wf e2.
Proof. eapply apply_wf; [apply e1_wf|apply a2_ok|apply e2_applied]. Qed.
Lemma e4_wf : engine_wf e4.
Proof. eapply steps_wf; [apply e1_wf|apply steps_e1_e4]. Qed.

(** ** Codecs and expressions *)

Definition user_bytes : bytes := force (encode_row (user 1 30)) [].

Lemma row_codec_bijective_witness :
  Forall byte_ok user_bytes ∧
  (decode_row user_bytes = Ok (user 1 30) ↔ row_ok (user 1 30) ∧ encode_row (user 1 30) = Ok user_bytes).
Proof.
  assert (Forall byte_ok user_bytes) as Hb by by_evaluation. split; [exact Hb|].
  apply (row_codec_bijective user_bytes (user 1 30)); [exact Hb|vm_compute; discriminate].
Defined.

Lemma encode_ordered_witness :
  list_cmp (encode_ordered (VInt64 (-1)) ++ [7]) (encode_ordered (VInt64 3) ++ [5]) = Lt
  ∧ (encode_ordered VNull ++ [1] = encode_ordered (VBool false) ++ [] ↔ VNull = VBool false ∧ [1] = []).
Proof.
  split.
  - exact (proj1 (encode_ordered_preserves_order (VInt64 (-1)) (VInt64 3) ltac:(by_evaluation) ltac:(by_evaluation))
      Lt [7] [5] ltac:(reflexivity)).
  - exact (proj2 (encode_ordered_preserves_order VNull (VBool false) ltac:(by_evaluation) ltac:(by_evaluation)) [1] []).
Defined.

Lemma mvcc_key_order_witness :
  list_cmp (force (encode_mvcc_key 1 (VInt64 4) 9) []) (force (encode_mvcc_key 1 (VInt64 4) 8) []) = Lt.
Proof.
  apply (mvcc_key_order 1 1 (VInt64 4) (VInt64 4) 9 8); [by_evaluation..|reflexivity|reflexivity].
Defined.

(** The edge of 64 bits: the sum, the negation and the quotient that leave it
    are errors, and so is a division by zero. *)
Example evaluate_edges :
  let int z := ELiteral (VInt64 z) in let ev e := is_ok (evaluate e (user 1 30)) in
  evaluate (EBinary (EColumn 1) OpAdd (int 1)) (user 1 30) = Ok (VInt64 31)
  ∧ (ev (EBinary (int i64_max) OpAdd (int 1)), ev (EUnary Negate (int i64_min)),
     ev (EBinary (int i64_min) OpDivide (int (-1))), ev (EBinary (int 1) OpDivide (int 0))) = (false, false, false, false)
  ∧ evaluate (EBinary (ELiteral (VBool false)) OpAnd (EBinary (int 1) OpDivide (int 0))) (user 1 30) = Ok (VBool false).
Proof. vm_compute. auto. Qed.

Lemma connectives_kleene_witness :
  evaluate_predicate (EBinary (ELiteral VNull) OpOr (ELiteral (VBool true))) (user 1 30) = Ok true.
Proof.
  refine (proj2 (proj2 (proj2 (connectives_kleene (ELiteral VNull) (ELiteral (VBool true)) (user 1 30)
    VNull (VBool true) Unknown True_ _ _ _ _)))); reflexivity.
Defined.

Lemma catalog_mutations_witness :
  Cat.validate (catalog e1) = Ok tt.
Proof.
  refine (catalog_mutations_validate Catalog_default (catalog_mutations a1) (catalog e1) [1] _ _);
    vm_compute; reflexivity.
Defined.

Lemma canonical_bytes_witness :
  is_ok (Attempt.canonical_bytes a2) = true ∧ a2 = a2.
Proof.
  split; [vm_compute; reflexivity|].
  refine (canonical_bytes_injective a2 a2 (force (Attempt.canonical_bytes a2) []) a2_ok a2_ok _ _);
    vm_compute; reflexivity.
Defined.

(** ** The engine *)

(** The index of the first entry, three entries and a vacuum later. *)
Definition first_index : IndexMeta := mkIndexMeta 1 "users_age" 1 1.

Lemma engine_reachable_wf_witness :
  engine_wf e4 ∧ indexes (catalog e4) !! 1 = Some first_index ∧ index_agrees 1 e4 first_index.
Proof.
  destruct (engine_reachable_wf e4 steps_e4) as [Hwf Hidx]. split; [exact Hwf|].
  exact (Hidx e1 1 first_index steps_e1 steps_e1_e4 ltac:(vm_compute; reflexivity)).
Defined.

Lemma apply_refines_store_witness :
  row_at e2 (mkLogicalKey 1 (encode_ordered (VInt64 1))) 2 = Some (user 1 31).
Proof.
  destruct (apply_refines_store e1 2 (hash 2) (hash 2) a2 e2 _ e1_wf a2_ok
    ltac:(vm_compute; reflexivity) e2_applied) as [_ Hv].
  rewrite Hv. vm_compute. reflexivity.
Defined.

Lemma first_committer_wins_witness :
  ∃ w k, w ∈ writes a3 ∧ w_table_id w = 1 ∧ w_primary_key w = VInt64 1 ∧ logical_key w = Ok k
    ∧ winning_commit e2 k (a_read_ts a3) = Some 2.
Proof.
  exact (first_committer_wins e2 3 (hash 3) (hash 3) a3 e3 _ e2_wf ltac:(vm_compute; reflexivity) e3_applied).
Defined.

Lemma apply_replay_witness :
  apply_with_request_hash e2 2 (hash 9) (hash 2) a2 = Err (ApplyHashMismatch 2)
  ∧ apply_with_request_hash e2 4 (hash 4) (hash 4) a2 = Err (ApplyGap 3 4).
Proof.
  destruct (apply_replay e1 2 (hash 2) (hash 2) a2 e2 _ e2_applied) as (_ & Hm & Hg). split.
  - apply Hm. vm_compute. discriminate.
  - apply (Hg 4 (hash 4) (hash 4)); vm_compute; congruence.
Defined.

(** A retry of the second request, after the conflict of the third. *)
Lemma request_exactly_once_witness :
  same_data e4 (force (apply_with_request_hash e4 4 (hash 7) (hash 2) a2) (e4, NoopOutcome)).1.
Proof.
  refine (proj1 (request_exactly_once e1 2 (hash 2) (hash 2) a2 e2 _ e4 4 (hash 7) (hash 2) a2 _
    (Duplicate (Committed 2 2 1)) e1_wf a2_ok _ e2_applied _ eq_refl _ _)).
  - vm_compute. reflexivity.
  - eapply rtc_l; [eapply step_apply; [apply a3_ok|apply e3_applied]|].
    destruct e4_vacuumed as [r Hr]. eapply rtc_once, step_vacuum, Hr.
  - vm_compute. reflexivity.
  - vm_compute. reflexivity.
Defined.

(** A reader of the state after the second commit. *)
Definition reader : Transaction := prepared e2.

Lemma snapshot_reads_stable_witness :
  scan_table e4 reader 1 = Ok [user 1 31; user 2 31].
Proof.
  refine (proj2 (snapshot_reads_stable e2 e4 reader e2_wf _ _) 1 _ _).
  - eapply rtc_l; [eapply step_apply; [apply a3_ok|apply e3_applied]|].
    destruct e4_vacuumed as [r Hr]. eapply rtc_once, step_vacuum, Hr.
  - vm_compute. discriminate.
  - vm_compute. reflexivity.
Defined.

Definition age_index : IndexMeta := mkIndexMeta 1 "users_age" 1 1.

Lemma scan_secondary_witness :
  ∃ all, scan_table e2 reader 1 = Ok all
    ∧ [user 1 31; user 2 31] = List.filter (row_matches age_index (VInt64 31)) all.
Proof.
  exact (scan_secondary_equals_filter e2 reader age_index (VInt64 31) [user 1 31; user 2 31] e2_wf
    ltac:(vm_compute; reflexivity) ltac:(vm_compute; reflexivity) ltac:(vm_compute; reflexivity)).
Defined.

Lemma engine_snapshot_roundtrip_witness : from_snapshot (snapshot e1) = Ok e1.
Proof. apply engine_snapshot_roundtrip, steps_e1. Defined.

Lemma dml_read_your_writes_witness :
  ∃ k, Key.new 1 (VInt64 1) = Ok k ∧ is_Some (read_key e1 (prepared e1) k)
    ∧ stages e1 (prepared e1) x3 k Delete.
Proof.
  exact (dml_read_your_writes e1 (prepared e1) (DDelete 1 (VInt64 1)) x3 true
    ltac:(vm_compute; reflexivity)).
Defined.

Lemma x2_staged : staged_by e1 x2.
Proof.
  apply (staged_dml e1 x2_update (DInsert 1 (user 2 31)) x2 true); [|vm_compute; reflexivity].
  apply (staged_dml e1 (prepared e1) (DUpdate 1 (VInt64 1) (user 1 31)) x2_update true); [|vm_compute; reflexivity].
  apply staged_prepare. vm_compute. reflexivity.
Qed.

Lemma e1_ids_available : ids_available (catalog e1).
Proof.
  assert (map_Forall (λ id _, id < u64_max) (tables (catalog e1))) as Ht by by_evaluation.
  assert (map_Forall (λ id _, id < u64_max) (indexes (catalog e1))) as Hi by by_evaluation.
  split; [exact Ht|exact Hi].
Qed.

Lemma prepared_transaction_commits_witness :
  ∃ e' rows ep, apply_with_request_hash e1 (last_applied e1 + 1) (hash 2) (hash 2) a2
    = Ok (e', Applied (Committed (last_applied e1 + 1) rows ep)).
Proof.
  apply (prepared_transaction_commits e1 x2 (req 1 2) 1 (hash 2) (hash 2) e1_wf).
  - exact e1_ids_available.
  - vm_compute. reflexivity.
  - vm_compute. reflexivity.
  - exact x2_staged.
  - vm_compute. reflexivity.
Defined.

(** [SELECT id FROM users WHERE age = 31 ORDER BY id DESC LIMIT 1] *)
Definition oldest : Query :=
  {| q_source := SecondaryEq 1 (VInt64 31);
     q_filter := Some (EBinary (EColumn 1) OpEq (ELiteral (VInt64 31)));
     q_projection := [EColumn 0];
     q_order_by := [mkOrderBy (EColumn 0) true false]; q_offset := 0; q_limit := Some 1 |}.

Lemma execute_query_witness :
  execute_query e2 reader oldest = Ok [mkRow [VInt64 2]] ∧
  ∃ rows sorted,
    query_scan e2 reader (q_source oldest) = Ok rows
    ∧ sorted ≡ₚ List.filter (keeps oldest) rows ∧ StronglySorted (row_le oldest) sorted
    ∧ (q_order_by oldest = [] → sorted = List.filter (keeps oldest) rows)
    ∧ Forall2 (λ row row', project oldest row = Ok row') (window oldest sorted) [mkRow [VInt64 2]].
Proof.
  assert (execute_query e2 reader oldest = Ok [mkRow [VInt64 2]]) as Hq by (vm_compute; reflexivity).
  split; [exact Hq|]. refine (execute_query_spec e2 reader oldest _ e2_wf _ _ Hq).
  - assert (x_writes reader = ∅) as Hx by (vm_compute; reflexivity).
    intros k w Hk. rewrite Hx, lookup_empty in Hk. discriminate Hk.
  - repeat constructor.
Defined.
