(* ===== verification/StorageBytes.v ===== *)
(** * Byte buffers and checksums: [crates/aster-storage/src/checksum.rs]

    Reading and writing a window of a fixed byte buffer, the CRC-32 of pages
    and log frames, and what the checksum detects: two buffers of one length
    that differ only within four consecutive bytes have different checksums. *)

From S2P Require Import Prelude.

(** ** Windows of a buffer *)

(** [bytes[off..off + len]] *)
Definition bytes_get (l : bytes) (off len : Z) : bytes := ztake len (zdrop off l).

(** [bytes[off..off + v.len()].copy_from_slice(v)] *)
Definition bytes_put (l : bytes) (off : Z) (v : bytes) : bytes :=
  ztake off l ++ v ++ zdrop (off + zlen v) l.

(** [vec![0; n]] and [[0; N]] *)
Definition zeros (n : Z) : bytes := replicate (Z.to_nat n) 0.

Lemma zlen_zeros n : 0 ≤ n → zlen (zeros n) = n.
Proof. unfold zlen, zeros. rewrite length_replicate. lia. Qed.

Lemma zeros_ok n : Forall byte_ok (zeros n).
Proof. apply Forall_replicate. unfold byte_ok. lia. Qed.

Lemma znth_ext {A} (l k : list A) :
  zlen l = zlen k → (∀ i, 0 ≤ i < zlen l → znth l i = znth k i) → l = k.
Proof.
  intros Hlen Hext. apply list_eq_same_length with (length l); [unfold zlen in *; lia|done|].
  intros i x y Hi Hx Hy. specialize (Hext (Z.of_nat i)). unfold znth, zlen in *.
  destruct (Z.ltb_spec (Z.of_nat i) 0); [lia|]. rewrite Nat2Z.id in Hext.
  rewrite Hx, Hy in Hext. assert (Some x = Some y) by (apply Hext; lia). congruence.
Qed.

Lemma zlen_to_le_bytes n z : zlen (to_le_bytes n z) = Z.of_nat n.
Proof. unfold zlen. by rewrite length_to_le_bytes. Qed.

Lemma zlen_bytes_get l off n :
  0 ≤ off → 0 ≤ n → off + n ≤ zlen l → zlen (bytes_get l off n) = n.
Proof. intros. unfold bytes_get. rewrite zlen_ztake, zlen_zdrop by lia. lia. Qed.

Lemma zlen_bytes_put l off v :
  0 ≤ off → off + zlen v ≤ zlen l → zlen (bytes_put l off v) = zlen l.
Proof.
  intros. pose proof (zlen_nonneg v). unfold bytes_put.
  rewrite !zlen_app, zlen_ztake, zlen_zdrop by lia. lia.
Qed.

Lemma znth_bytes_get l off n i :
  0 ≤ off → 0 ≤ i < n → znth (bytes_get l off n) i = znth l (off + i).
Proof. intros. unfold bytes_get. rewrite znth_ztake, znth_zdrop by lia. done. Qed.

Lemma znth_bytes_put l off v i :
  0 ≤ off → off + zlen v ≤ zlen l → 0 ≤ i →
  znth (bytes_put l off v) i
  = if (off <=? i) && (i <? off + zlen v) then znth v (i - off) else znth l i.
Proof.
  intros Hoff Hlen Hi. pose proof (zlen_nonneg v). unfold bytes_put.
  assert (zlen (ztake off l) = off) as Ht by (rewrite zlen_ztake; lia).
  destruct (Z.leb_spec off i); cbn.
  - rewrite znth_app_r, Ht by lia. destruct (Z.ltb_spec i (off + zlen v)).
    + by rewrite znth_app_l by lia.
    + rewrite znth_app_r, znth_zdrop by lia. f_equal. lia.
  - rewrite znth_app_l, znth_ztake by lia. done.
Qed.

(** [buf_ext]: two buffers agree when they agree at every position. *)
Ltac buf_len :=
  repeat first
    [ rewrite zlen_bytes_put | rewrite zlen_bytes_get | rewrite zlen_to_le_bytes
    | rewrite zlen_zeros ]; cbn [Z.of_nat Pos.of_succ_nat Pos.succ] in *; try lia.

Ltac buf_case :=
  repeat match goal with
  | |- context [?a <=? ?b] => destruct (Z.leb_spec a b)
  | |- context [?a <? ?b] => destruct (Z.ltb_spec a b)
  end; cbn [andb]; try lia.

(** *** Reading what was written *)

Lemma bytes_get_put_same l off v :
  0 ≤ off → off + zlen v ≤ zlen l → bytes_get (bytes_put l off v) off (zlen v) = v.
Proof.
  intros. pose proof (zlen_nonneg v). apply znth_ext.
  - rewrite zlen_bytes_get; [lia..|]. rewrite zlen_bytes_put; lia.
  - intros i. rewrite zlen_bytes_get by (rewrite ?zlen_bytes_put; lia). intros.
    rewrite znth_bytes_get, znth_bytes_put by lia. buf_case. f_equal. lia.
Qed.

Lemma bytes_get_put_other l off v off' n :
  0 ≤ off → off + zlen v ≤ zlen l → 0 ≤ off' → 0 ≤ n → off' + n ≤ zlen l →
  off' + n ≤ off ∨ off + zlen v ≤ off' →
  bytes_get (bytes_put l off v) off' n = bytes_get l off' n.
Proof.
  intros. pose proof (zlen_nonneg v). apply znth_ext.
  - rewrite !zlen_bytes_get by (rewrite ?zlen_bytes_put; lia). done.
  - intros i. rewrite zlen_bytes_get by (rewrite ?zlen_bytes_put; lia). intros.
    rewrite !znth_bytes_get, znth_bytes_put by lia. buf_case; done.
Qed.

(** A window inside a written window. *)
Lemma bytes_get_put_inside l off v off' n :
  0 ≤ off → off + zlen v ≤ zlen l → off ≤ off' → 0 ≤ n → off' + n ≤ off + zlen v →
  bytes_get (bytes_put l off v) off' n = bytes_get v (off' - off) n.
Proof.
  intros. pose proof (zlen_nonneg v). apply znth_ext.
  - rewrite !zlen_bytes_get by (rewrite ?zlen_bytes_put; lia). done.
  - intros i. rewrite zlen_bytes_get by (rewrite ?zlen_bytes_put; lia). intros.
    rewrite !znth_bytes_get, znth_bytes_put by lia. buf_case. f_equal. lia.
Qed.

Lemma bytes_put_put_same l off v w :
  0 ≤ off → off + zlen v ≤ zlen l → zlen w = zlen v →
  bytes_put (bytes_put l off v) off w = bytes_put l off w.
Proof.
  intros. pose proof (zlen_nonneg v). apply znth_ext.
  - rewrite !zlen_bytes_put by (rewrite ?zlen_bytes_put; lia). done.
  - intros i _. destruct (decide (0 ≤ i)); [|unfold znth; by destruct (Z.ltb_spec i 0); [|lia]].
    rewrite !znth_bytes_put by (rewrite ?zlen_bytes_put; lia). buf_case; done.
Qed.

Lemma bytes_put_put_other l off v off' w :
  0 ≤ off → off + zlen v ≤ zlen l → 0 ≤ off' → off' + zlen w ≤ zlen l →
  off' + zlen w ≤ off ∨ off + zlen v ≤ off' →
  bytes_put (bytes_put l off v) off' w = bytes_put (bytes_put l off' w) off v.
Proof.
  intros. pose proof (zlen_nonneg v). pose proof (zlen_nonneg w). apply znth_ext.
  - rewrite !zlen_bytes_put by (rewrite ?zlen_bytes_put; lia). done.
  - intros i _. destruct (decide (0 ≤ i)); [|unfold znth; by destruct (Z.ltb_spec i 0); [|lia]].
    rewrite !znth_bytes_put by (rewrite ?zlen_bytes_put; lia). buf_case; done.
Qed.

Lemma bytes_put_get l off n :
  0 ≤ off → 0 ≤ n → off + n ≤ zlen l → bytes_put l off (bytes_get l off n) = l.
Proof.
  intros. assert (zlen (bytes_get l off n) = n) as Hn by (apply zlen_bytes_get; lia).
  apply znth_ext; [rewrite zlen_bytes_put by lia; done|].
  intros i. rewrite zlen_bytes_put by lia. intros. rewrite znth_bytes_put, Hn by lia.
  buf_case; [|done..]. rewrite znth_bytes_get by lia. f_equal. lia.
Qed.

Lemma Forall_bytes_put (P : Z → Prop) l off v :
  Forall P l → Forall P v → Forall P (bytes_put l off v).
Proof.
  intros. unfold bytes_put, ztake, zdrop.
  repeat apply Forall_app_2; auto using Forall_take, Forall_drop.
Qed.

Lemma Forall_bytes_get (P : Z → Prop) l off n : Forall P l → Forall P (bytes_get l off n).
Proof. intros. by apply Forall_take, Forall_drop. Qed.

(** ** CRC-32, [crc32] *)

Definition CRC_POLY : Z := 0xedb88320.

(** One turn of the inner loop; [0_u32.wrapping_sub(crc & 1)] is all ones or
    zero. *)
Definition crc_bit (crc : Z) : Z :=
  let mask := (0 - Z.land crc 1) mod 2 ^ 32 in
  Z.lxor (Z.shiftr crc 1) (Z.land CRC_POLY mask).

(** One turn of the outer loop. *)
Definition crc_byte (crc byte : Z) : Z := Nat.iter 8 crc_bit (Z.lxor crc byte).

Definition crc32 (l : bytes) : Z :=
  Z.lxor (foldl crc_byte u32_max l) u32_max.

Definition u32_ok (x : Z) : Prop := 0 ≤ x ≤ u32_max.

(** The test vector of the source. *)
Example crc32_check : crc32 [49;50;51;52;53;54;55;56;57] = 0xcbf43926.
Proof. by vm_compute. Qed.

(** *** The register as a linear map

    One turn is linear over exclusive or, and only zero maps to zero; a byte
    fed later is a byte exclusive-ored higher up before the turns. *)

Lemma crc_bit_alt x : crc_bit x = Z.lxor (Z.shiftr x 1) (if Z.odd x then CRC_POLY else 0).
Proof.
  unfold crc_bit. change (Z.land x 1) with (Z.land x (Z.ones 1)).
  rewrite Z.land_ones by lia. change (2 ^ 1) with 2.
  rewrite Zmod_odd. by destruct (Z.odd x).
Qed.

Lemma odd_lxor a b : Z.odd (Z.lxor a b) = xorb (Z.odd a) (Z.odd b).
Proof. by rewrite <- !Z.bit0_odd, Z.lxor_spec. Qed.

Lemma crc_bit_lxor a b : crc_bit (Z.lxor a b) = Z.lxor (crc_bit a) (crc_bit b).
Proof.
  rewrite !crc_bit_alt, Z.shiftr_lxor, odd_lxor. apply Z.bits_inj'. intros n _.
  rewrite !Z.lxor_spec. destruct (Z.odd a), (Z.odd b); cbn [xorb]; rewrite ?Z.bits_0;
  repeat match goal with |- context [Z.testbit ?x n] => destruct (Z.testbit x n) end; done.
Qed.

Lemma u32_ok_lxor x y : u32_ok x → u32_ok y → u32_ok (Z.lxor x y).
Proof.
  unfold u32_ok, u32_max. intros [Hx Hx'] [Hy Hy']. split; [by apply Z.lxor_nonneg|].
  destruct (decide (Z.lxor x y = 0)); [lia|].
  assert (Z.lxor x y < 2 ^ 32); [|lia].
  apply Z.log2_lt_pow2; [pose proof (proj2 (Z.lxor_nonneg x y)); lia|].
  pose proof (Z.log2_lxor x y Hx Hy).
  assert (Z.log2 x ≤ 31) by (change 31 with (Z.log2 (2 ^ 32 - 1)); apply Z.log2_le_mono; lia).
  assert (Z.log2 y ≤ 31) by (change 31 with (Z.log2 (2 ^ 32 - 1)); apply Z.log2_le_mono; lia).
  lia.
Qed.

Lemma crc_bit_ok x : u32_ok x → u32_ok (crc_bit x).
Proof.
  intros Hx. rewrite crc_bit_alt. apply u32_ok_lxor.
  - unfold u32_ok, u32_max in *. rewrite Z.shiftr_div_pow2 by lia. change (2 ^ 1) with 2.
    pose proof (Z.div_lt_upper_bound x 2 4294967296). pose proof (Z.div_pos x 2). lia.
  - by destruct (Z.odd x).
Qed.

Lemma crc_bit_zero x : u32_ok x → crc_bit x = 0 → x = 0.
Proof.
  unfold u32_ok, u32_max. rewrite crc_bit_alt, Z.lxor_eq_0_iff, Z.shiftr_div_pow2 by lia.
  change (2 ^ 1) with 2. unfold CRC_POLY. pose proof (Zmod_odd x) as Ho.
  pose proof (Z.div_mod x 2 ltac:(lia)).
  destruct (Z.odd x); lia.
Qed.

Definition crc_turns (n : nat) (x : Z) : Z := Nat.iter n crc_bit x.

Lemma crc_turns_add n k x : crc_turns (n + k) x = crc_turns n (crc_turns k x).
Proof. apply Nat.iter_add. Qed.

Lemma crc_turns_lxor n a b : crc_turns n (Z.lxor a b) = Z.lxor (crc_turns n a) (crc_turns n b).
Proof.
  induction n as [|n IH]; [done|].
  change (crc_bit (crc_turns n (Z.lxor a b))
          = Z.lxor (crc_bit (crc_turns n a)) (crc_bit (crc_turns n b))).
  by rewrite IH, crc_bit_lxor.
Qed.

Lemma crc_turns_ok n x : u32_ok x → u32_ok (crc_turns n x).
Proof. intros. induction n; [done|]. by apply crc_bit_ok. Qed.

Lemma crc_turns_zero n x : u32_ok x → crc_turns n x = 0 → x = 0.
Proof.
  intros Hx. induction n as [|n IH]; [done|]. intros ?%crc_bit_zero; [auto|].
  by apply crc_turns_ok.
Qed.

Lemma crc_turns_shiftl n v : 0 ≤ v → crc_turns n (Z.shiftl v (Z.of_nat n)) = v.
Proof.
  intros Hv. induction n as [|n IH]; [by rewrite Z.shiftl_0_r|].
  unfold crc_turns in *. rewrite Nat.iter_succ_r.
  rewrite <- IH at 2. f_equal. rewrite crc_bit_alt.
  rewrite Nat2Z.inj_succ, <- Z.add_1_r, <- Z.shiftl_shiftl by lia.
  rewrite Z.shiftr_shiftl_l by lia.
  rewrite Z.shiftl_mul_pow2 with (n := 1) by lia.
  rewrite Z.odd_mul, andb_comm. cbn. by rewrite Z.shiftl_0_r, Z.lxor_0_r.
Qed.

Lemma lxor_disjoint_byte a v : byte_ok a → 0 ≤ v → Z.lxor a (Z.shiftl v 8) = a + 256 * v.
Proof.
  unfold byte_ok. intros Ha Hv. rewrite Z.shiftl_mul_pow2 by lia. change (2 ^ 8) with 256.
  rewrite <- Z.add_nocarry_lxor; [lia|].
  apply Z.bits_inj'. intros n Hn. rewrite Z.land_spec, Z.bits_0.
  change 256 with (2 ^ 8). destruct (decide (n < 8)).
  - rewrite Z.mul_pow2_bits_low by lia. by rewrite andb_false_r.
  - destruct (decide (a = 0)) as [->|]; [by rewrite Z.bits_0|].
    rewrite Z.bits_above_log2; [done|lia|].
    assert (Z.log2 a < 8) by (apply Z.log2_lt_pow2; lia). lia.
Qed.

(** The register after [w], starting at [s]. *)
Lemma crc_fold_word s w :
  Forall byte_ok w →
  foldl crc_byte s w = crc_turns (8 * length w) (Z.lxor s (from_le_bytes w)).
Proof.
  intros Hw. revert s. induction Hw as [|a w Ha Hw IH]; intros s; [by rewrite Z.lxor_0_r|].
  cbn [foldl from_le_bytes length]. rewrite IH. unfold crc_byte.
  pose proof (from_le_bytes_bound w Hw) as [Hv _].
  replace (8 * S (length w))%nat with (8 * length w + 8)%nat by lia.
  rewrite crc_turns_add, <- lxor_disjoint_byte by done. f_equal.
  fold (crc_turns 8 (Z.lxor s a)).
  rewrite <- (crc_turns_shiftl 8 (from_le_bytes w)) at 1 by done.
  rewrite <- crc_turns_lxor. by rewrite Z.lxor_assoc.
Qed.

Lemma from_le_bytes_inj w w' :
  Forall byte_ok w → Forall byte_ok w' → length w = length w' →
  from_le_bytes w = from_le_bytes w' → w = w'.
Proof.
  intros Hw Hw' Hl Hv. rewrite <- (to_from_le_bytes w), <- (to_from_le_bytes w') by done.
  by rewrite Hl, Hv.
Qed.

(** A change confined to four consecutive bytes changes the checksum. *)
Lemma crc32_burst l1 w w' l2 :
  Forall byte_ok w → Forall byte_ok w' → Forall byte_ok l2 →
  length w = length w' → (length w ≤ 4)%nat →
  crc32 (l1 ++ w ++ l2) = crc32 (l1 ++ w' ++ l2) → w = w'.
Proof.
  intros Hw Hw' Hl2 Hlen Hle Hcrc.
  assert (foldl crc_byte u32_max (l1 ++ w ++ l2) = foldl crc_byte u32_max (l1 ++ w' ++ l2)) as He.
  { unfold crc32 in Hcrc. rewrite <- (Z.lxor_0_r (foldl _ _ (l1 ++ w ++ l2))).
    rewrite <- (Z.lxor_nilpotent u32_max), <- Z.lxor_assoc, Hcrc, Z.lxor_assoc.
    by rewrite Z.lxor_nilpotent, Z.lxor_0_r. }
  clear Hcrc. rewrite !foldl_app in He. set (s := foldl crc_byte u32_max l1) in He.
  rewrite !(crc_fold_word _ l2) in He by done.
  rewrite !crc_turns_lxor in He. apply (f_equal (λ x, Z.lxor x (crc_turns (8 * length l2) (from_le_bytes l2)))) in He.
  rewrite !Z.lxor_assoc, Z.lxor_nilpotent, !Z.lxor_0_r in He.
  rewrite !(crc_fold_word s), <- !crc_turns_add, Hlen in He by done.
  set (n := (8 * length l2 + 8 * length w')%nat) in He.
  apply from_le_bytes_inj; [done..|]. apply Z.lxor_eq.
  assert (∀ v, Forall byte_ok v → length v = length w' → u32_ok (from_le_bytes v)) as Hok.
  { intros v Hv Hlv. pose proof (from_le_bytes_bound v Hv) as [H0 H1]. split; [done|].
    assert (256 ^ zlen v ≤ 256 ^ 4) by (apply Z.pow_le_mono_r; unfold zlen; lia).
    unfold u32_max. change (256 ^ 4) with 4294967296 in *. lia. }
  apply (crc_turns_zero n); [apply u32_ok_lxor; auto|].
  replace (Z.lxor (from_le_bytes w) (from_le_bytes w'))
    with (Z.lxor (Z.lxor s (from_le_bytes w)) (Z.lxor s (from_le_bytes w'))).
  - by rewrite crc_turns_lxor, He, Z.lxor_nilpotent.
  - rewrite (Z.lxor_comm s), Z.lxor_assoc, <- (Z.lxor_assoc s s), Z.lxor_nilpotent.
    by rewrite Z.lxor_0_l.
Qed.

Lemma crc32_ok l : Forall byte_ok l → u32_ok (crc32 l).
Proof.
  intros Hl. unfold crc32. apply u32_ok_lxor; [|by unfold u32_ok].
  assert (∀ s, u32_ok s → u32_ok (foldl crc_byte s l)) as H; [|by apply H].
  induction Hl as [|b l Hb _ IH]; intros s Hs; [done|]. cbn. apply IH.
  apply (crc_turns_ok 8), u32_ok_lxor; [done|]. unfold byte_ok, u32_ok, u32_max in *. lia.
Qed.
