(* ===== verification/StoragePage.v ===== *)
(** * Pages: [crates/aster-storage/src/page.rs], [lib.rs]

    A page is 4096 bytes with a 64-byte header: magic, version, kind, flags,
    identifier, LSN, epoch, free-space bounds, slot count and the CRC-32 of the
    page with the checksum field cleared.  [PageId] and [Lsn] are the [u64] they
    wrap. *)

From S2P Require Import Prelude StorageBytes.

Inductive StorageError : Type :=
| SIo (reason : string)
| InvalidPage (reason : string)
| ChecksumMismatch (expected actual : Z)
| CorruptWal (offset : Z) (reason : string)
| BufferPoolExhausted
| PagePinned (page_id : Z)
| RecordTooLarge (size available : Z)
| KeyTooLarge (size : Z)
| SNotFound (what : string)
| SInvariant (reason : string)
| InjectedFault (operation : string) (ordinal : Z).

#[export] Instance StorageError_eq_dec : EqDecision StorageError.
Proof. solve_decision. Defined.

Abbreviation sresult := (result StorageError).

Definition PAGE_SIZE : Z := 4096.
Definition PAGE_HEADER_SIZE : Z := 64.
Definition PAGE_MAGIC : bytes := [65; 83; 84; 80].
Definition PAGE_FORMAT_VERSION : Z := 1.
Definition CHECKSUM_OFFSET : Z := 44.

Inductive PageKind : Type :=
| Uninitialized | KSuperblock | Heap | BTreeLeaf | BTreeInternal | TreeDirectory | FreeList.

#[export] Instance PageKind_eq_dec : EqDecision PageKind.
Proof. solve_decision. Defined.

(** [kind as u8] *)
Definition PageKind_tag (k : PageKind) : Z :=
  match k with
  | Uninitialized => 0 | KSuperblock => 1 | Heap => 2 | BTreeLeaf => 3
  | BTreeInternal => 4 | TreeDirectory => 5 | FreeList => 6
  end.

Definition PageKind_try_from (value : Z) : sresult PageKind :=
  match value with
  | 0 => Ok Uninitialized
  | 1 => Ok KSuperblock
  | 2 => Ok Heap
  | 3 => Ok BTreeLeaf
  | 4 => Ok BTreeInternal
  | 5 => Ok TreeDirectory
  | 6 => Ok FreeList
  | _ => Err (InvalidPage ("unknown page kind " +:+ pretty value))
  end.

(** The [Debug] name of a kind. *)
Definition PageKind_debug (k : PageKind) : string :=
  match k with
  | Uninitialized => "Uninitialized" | KSuperblock => "Superblock" | Heap => "Heap"
  | BTreeLeaf => "BTreeLeaf" | BTreeInternal => "BTreeInternal"
  | TreeDirectory => "TreeDirectory" | FreeList => "FreeList"
  end.

Record PageHeader : Type := mkPageHeader {
  h_kind : PageKind;
  h_flags : Z;
  h_page_id : Z;
  h_lsn : Z;
  h_page_epoch : Z;
  h_lower : Z;
  h_upper : Z;
  h_slot_count : Z
}.

Record Page : Type := mkPage { page_bytes : bytes }.

#[export] Instance Page_eq_dec : EqDecision Page.
Proof. solve_decision. Defined.

(** ** Fields *)

(** [bytes[i]] *)
Definition page_byte (p : Page) (i : Z) : Z := default 0 (znth (page_bytes p) i).

Definition get_u16 (p : Page) (offset : Z) : Z := from_le_bytes (bytes_get (page_bytes p) offset 2).
Definition get_u32 (p : Page) (offset : Z) : Z := from_le_bytes (bytes_get (page_bytes p) offset 4).
Definition get_u64 (p : Page) (offset : Z) : Z := from_le_bytes (bytes_get (page_bytes p) offset 8).

Definition put_bytes (p : Page) (offset : Z) (v : bytes) : Page :=
  mkPage (bytes_put (page_bytes p) offset v).
Definition put_u16 (p : Page) (offset value : Z) : Page := put_bytes p offset (to_le_bytes 2 value).
Definition put_u32 (p : Page) (offset value : Z) : Page := put_bytes p offset (to_le_bytes 4 value).
Definition put_u64 (p : Page) (offset value : Z) : Page := put_bytes p offset (to_le_bytes 8 value).

Definition computed_checksum (p : Page) : Z :=
  crc32 (bytes_put (page_bytes p) CHECKSUM_OFFSET (zeros 4)).

Definition seal (p : Page) : Page :=
  let p := put_bytes p CHECKSUM_OFFSET (zeros 4) in
  put_u32 p CHECKSUM_OFFSET (crc32 (page_bytes p)).

Definition page_new (page_id : Z) (kind : PageKind) : Page :=
  let page := mkPage (zeros PAGE_SIZE) in
  let page := put_bytes page 0 PAGE_MAGIC in
  let page := put_u16 page 4 PAGE_FORMAT_VERSION in
  let page := put_bytes page 6 [PageKind_tag kind] in
  let page := put_u64 page 8 page_id in
  let page := put_u16 page 32 PAGE_HEADER_SIZE in
  let page := put_u16 page 34 PAGE_SIZE in
  seal page.

Definition page_validate (p : Page) : sresult unit :=
  _ ← ensure (bool_decide (bytes_get (page_bytes p) 0 4 = PAGE_MAGIC))
        (InvalidPage "bad page magic");
  let version := get_u16 p 4 in
  _ ← ensure (version =? PAGE_FORMAT_VERSION)
        (InvalidPage ("unsupported page version " +:+ pretty version));
  _ ← PageKind_try_from (page_byte p 6);
  _ ← ensure (negb (existsb (λ b, negb (b =? 0)) (bytes_get (page_bytes p) 38 6)
                    || existsb (λ b, negb (b =? 0)) (bytes_get (page_bytes p) 48 16)))
        (InvalidPage "nonzero reserved page-header bytes");
  let lower := get_u16 p 32 in
  let upper := get_u16 p 34 in
  _ ← ensure (negb (negb ((PAGE_HEADER_SIZE <=? lower) && (lower <=? upper)) || (PAGE_SIZE <? upper)))
        (InvalidPage ("invalid free-space bounds " +:+ pretty lower +:+ ".." +:+ pretty upper));
  let expected := get_u32 p CHECKSUM_OFFSET in
  let actual := computed_checksum p in
  ensure (expected =? actual) (ChecksumMismatch expected actual).

Definition page_decode (l : bytes) : sresult Page :=
  let page := mkPage l in
  _ ← page_validate page;
  Ok page.

Definition page_kind (p : Page) : PageKind :=
  match PageKind_try_from (page_byte p 6) with Ok k => k | Err _ => Uninitialized end.
Definition page_id (p : Page) : Z := get_u64 p 8.
Definition page_lsn (p : Page) : Z := get_u64 p 16.

Definition page_header (p : Page) : PageHeader := {|
  h_kind := page_kind p;
  h_flags := page_byte p 7;
  h_page_id := get_u64 p 8;
  h_lsn := get_u64 p 16;
  h_page_epoch := get_u64 p 24;
  h_lower := get_u16 p 32;
  h_upper := get_u16 p 34;
  h_slot_count := get_u16 p 36
|}.

Definition set_lsn (p : Page) (lsn : Z) : Page := seal (put_u64 p 16 lsn).
Definition set_page_epoch (p : Page) (page_epoch : Z) : Page := seal (put_u64 p 24 page_epoch).
Definition set_flags (p : Page) (flags : Z) : Page := seal (put_bytes p 7 [flags]).

Definition set_layout (p : Page) (lower upper slot_count : Z) : Page :=
  put_u16 (put_u16 (put_u16 p 32 lower) 34 upper) 36 slot_count.

Definition payload (p : Page) : bytes := zdrop PAGE_HEADER_SIZE (page_bytes p).

(** [payload_mut()[off..off + v.len()].copy_from_slice(v)] *)
Definition put_payload (p : Page) (off : Z) (v : bytes) : Page :=
  put_bytes p (PAGE_HEADER_SIZE + off) v.

Definition into_bytes (p : Page) : bytes := page_bytes (seal p).

Definition page_range_error (start stop : Z) : StorageError :=
  InvalidPage ("byte range " +:+ pretty start +:+ ".." +:+ pretty stop +:+ " outside page").

Definition bytes_range (p : Page) (start len : Z) : sresult bytes :=
  stop ← ok_or (checked_add start len) (InvalidPage "page byte-range overflow");
  ok_or (slice_get (page_bytes p) start stop) (page_range_error start stop).

(** [bytes_range_mut(start, v.len())?.copy_from_slice(v)] *)
Definition write_range (p : Page) (start : Z) (v : bytes) : sresult Page :=
  stop ← ok_or (checked_add start (zlen v)) (InvalidPage "page byte-range overflow");
  _ ← ok_or (slice_get (page_bytes p) start stop) (page_range_error start stop);
  Ok (put_bytes p start v).

(** The test vectors of the source. *)
Example page_little_endian :
  bytes_get (page_bytes (page_new 0x0102030405060708 Heap)) 8 8 = [8;7;6;5;4;3;2;1].
Proof. by vm_compute. Qed.

Example page_detects :
  let p := set_lsn (put_payload (page_new 42 Heap) 5 [97;115;116;101;114]) 99 in
  page_decode (into_bytes p) = Ok p
  ∧ (∃ e a, page_decode (bytes_put (into_bytes p) 100 [1]) = Err (ChecksumMismatch e a)).
Proof. split; [by vm_compute|]. eexists _, _. by vm_compute. Qed.

#[global] Arguments page_byte : simpl never.
#[global] Arguments computed_checksum : simpl never.
#[global] Arguments bytes_get : simpl never.
#[global] Arguments bytes_put : simpl never.

(** ** Well-formed pages *)

(** The array type [[u8; PAGE_SIZE]]. *)
Definition page_ok (p : Page) : Prop :=
  zlen (page_bytes p) = PAGE_SIZE ∧ Forall byte_ok (page_bytes p).

(** Everything [validate] checks before the checksum. *)
Record page_shape (p : Page) : Prop := {
  shape_magic : bytes_get (page_bytes p) 0 4 = PAGE_MAGIC;
  shape_version : get_u16 p 4 = PAGE_FORMAT_VERSION;
  shape_kind : is_ok (PageKind_try_from (page_byte p 6)) = true;
  shape_reserved1 : Forall (λ b, b = 0) (bytes_get (page_bytes p) 38 6);
  shape_reserved2 : Forall (λ b, b = 0) (bytes_get (page_bytes p) 48 16);
  shape_bounds : PAGE_HEADER_SIZE ≤ get_u16 p 32 ≤ get_u16 p 34 ∧ get_u16 p 34 ≤ PAGE_SIZE
}.

Definition page_sealed (p : Page) : Prop := get_u32 p CHECKSUM_OFFSET = computed_checksum p.

Lemma existsb_nonzero l : existsb (λ b, negb (b =? 0)) l = false ↔ Forall (λ b, b = 0) l.
Proof.
  induction l as [|b l IH]; cbn; [by split|].
  rewrite Forall_cons, orb_false_iff, IH, negb_false_iff, Z.eqb_eq. done.
Qed.

(** [validate] accepts exactly the sealed pages of the right shape. *)
Lemma page_validate_spec p : page_validate p = Ok tt ↔ page_shape p ∧ page_sealed p.
Proof.
  unfold page_validate, page_sealed. split.
  - intros H. repeat (apply result_bind_Ok in H as (? & ?%ensure_Ok & H)).
    apply result_bind_Ok in H as (k & Hk & H).
    repeat (apply result_bind_Ok in H as (? & ?%ensure_Ok & H)). apply ensure_Ok in H.
    bool_prop. rewrite existsb_nonzero in *. split; [|done].
    split; [done|done|by rewrite Hk|done|done|lia].
  - intros [[Hm Hv Hk H1 H2 Hb] Hs]. apply existsb_nonzero in H1, H2.
    rewrite (bool_decide_eq_true_2 _ Hm). cbn. apply Z.eqb_eq in Hv as ->. cbn.
    destruct (PageKind_try_from (page_byte p 6)); [|done]. cbn. rewrite H1, H2. cbn.
    destruct Hb as [[H3 H4] H5]. apply Z.leb_le in H3 as ->, H4 as ->. cbn.
    apply Z.ltb_ge in H5 as ->. cbn. rewrite Hs. unfold ensure. by rewrite Z.eqb_refl.
Qed.

Lemma page_decode_Ok l p : page_decode l = Ok p ↔ page_bytes p = l ∧ page_shape p ∧ page_sealed p.
Proof.
  unfold page_decode. rewrite <- page_validate_spec. rewrite result_bind_Ok. split.
  - intros ([] & Hv & [= <-]). done.
  - intros [<- Hv]. exists tt. by destruct p.
Qed.

(** ** Windows of a page *)

Lemma page_byte_get p i : 0 ≤ i < zlen (page_bytes p) → page_byte p i = from_le_bytes (bytes_get (page_bytes p) i 1).
Proof.
  intros Hi. assert (zlen (bytes_get (page_bytes p) i 1) = 1) as Hl by (apply zlen_bytes_get; lia).
  unfold page_byte. pose proof (znth_bytes_get (page_bytes p) i 1 0) as Hn.
  rewrite Z.add_0_r in Hn. rewrite <- Hn by lia.
  destruct (bytes_get (page_bytes p) i 1) as [|b [|c l]]; unfold zlen in Hl; cbn [length] in Hl; try lia.
  change (b = b + 256 * 0). lia.
Qed.

Lemma put_bytes_ok p off v :
  page_ok p → 0 ≤ off → off + zlen v ≤ PAGE_SIZE → Forall byte_ok v → page_ok (put_bytes p off v).
Proof.
  intros [Hl Hb] ? ? ?. split; cbn; [|by apply Forall_bytes_put].
  rewrite zlen_bytes_put; lia.
Qed.

Lemma get_put_same p off v :
  page_ok p → 0 ≤ off → off + zlen v ≤ PAGE_SIZE →
  bytes_get (page_bytes (put_bytes p off v)) off (zlen v) = v.
Proof. intros [Hl _] ? ?. apply bytes_get_put_same; lia. Qed.

Lemma get_put_other p off v off' n :
  page_ok p → 0 ≤ off → off + zlen v ≤ PAGE_SIZE → 0 ≤ off' → 0 ≤ n → off' + n ≤ PAGE_SIZE →
  off' + n ≤ off ∨ off + zlen v ≤ off' →
  bytes_get (page_bytes (put_bytes p off v)) off' n = bytes_get (page_bytes p) off' n.
Proof. intros [Hl _] ? ? ? ? ? ?. apply bytes_get_put_other; lia. Qed.

Lemma seal_alt p :
  page_ok p → seal p = put_u32 p CHECKSUM_OFFSET (computed_checksum p).
Proof.
  intros [Hl _]. unfold seal, put_u32, put_bytes, computed_checksum. cbn. f_equal.
  apply bytes_put_put_same; rewrite ?zlen_to_le_bytes; done || (rewrite Hl; done).
Qed.

Lemma computed_checksum_ok p : page_ok p → u32_ok (computed_checksum p).
Proof. intros [Hl Hb]. apply crc32_ok, Forall_bytes_put; auto using zeros_ok. Qed.

Lemma seal_ok p : page_ok p → page_ok (seal p).
Proof.
  intros Hp. rewrite seal_alt by done.
  apply put_bytes_ok; [done|done|by rewrite zlen_to_le_bytes|apply to_le_bytes_ok].
Qed.

(** Sealing touches the checksum field alone. *)
Lemma seal_get p off n :
  page_ok p → 0 ≤ off → 0 ≤ n → off + n ≤ PAGE_SIZE → off + n ≤ 44 ∨ 48 ≤ off →
  bytes_get (page_bytes (seal p)) off n = bytes_get (page_bytes p) off n.
Proof.
  intros Hp ? ? ? ?. rewrite seal_alt by done. unfold put_u32, CHECKSUM_OFFSET.
  apply get_put_other; rewrite ?zlen_to_le_bytes; unfold PAGE_SIZE in *; try done; lia.
Qed.

Lemma seal_byte p i : page_ok p → 0 ≤ i < 44 → page_byte (seal p) i = page_byte p i.
Proof.
  intros Hp Hi. pose proof (seal_ok _ Hp) as [Hl' _]. pose proof Hp as [Hl _].
  rewrite !page_byte_get by (unfold PAGE_SIZE in *; lia).
  by rewrite seal_get by (unfold PAGE_SIZE; lia || done).
Qed.

Lemma computed_checksum_seal p : page_ok p → computed_checksum (seal p) = computed_checksum p.
Proof.
  intros Hp. rewrite seal_alt by done. destruct Hp as [Hl _].
  unfold computed_checksum, put_u32, put_bytes; cbn. f_equal.
  apply bytes_put_put_same; rewrite ?zlen_to_le_bytes, ?Hl; done.
Qed.

Lemma seal_sealed p : page_ok p → page_sealed (seal p).
Proof.
  intros Hp. unfold page_sealed. rewrite computed_checksum_seal by done.
  pose proof (computed_checksum_ok p Hp) as [H0 H1]. rewrite seal_alt by done.
  unfold get_u32, put_u32.
  change 4 with (zlen (to_le_bytes 4 (computed_checksum p))).
  rewrite get_put_same; [|done|done|by rewrite zlen_to_le_bytes].
  rewrite from_to_le_bytes. apply Z.mod_small. unfold u32_max in H1.
  change (256 ^ Z.of_nat 4) with 4294967296. lia.
Qed.

Lemma seal_shape p : page_ok p → page_shape p → page_shape (seal p).
Proof.
  intros Hp [Hm Hv Hk H1 H2 Hb].
  assert (∀ off n, 0 ≤ off → 0 ≤ n → off + n ≤ 44 ∨ 48 ≤ off ∧ off + n ≤ PAGE_SIZE →
    bytes_get (page_bytes (seal p)) off n = bytes_get (page_bytes p) off n) as Hg.
  { intros. apply seal_get; unfold PAGE_SIZE in *; try done; lia. }
  split; unfold get_u16 in *; rewrite ?Hg, ?seal_byte by (unfold PAGE_SIZE; lia || done); done.
Qed.

Lemma sealed_seal p : page_ok p → page_sealed p → seal p = p.
Proof.
  intros Hp Hs. rewrite seal_alt by done. unfold page_sealed in Hs. rewrite <- Hs.
  unfold put_u32, get_u32. destruct Hp as [Hl Hb], p as [l].
  unfold put_bytes; cbn [page_bytes] in *.
  f_equal. pose proof (to_from_le_bytes (bytes_get l CHECKSUM_OFFSET 4)) as Hw.
  assert (zlen (bytes_get l CHECKSUM_OFFSET 4) = 4) as Hn by (apply zlen_bytes_get; rewrite ?Hl; done).
  replace (length (bytes_get l CHECKSUM_OFFSET 4)) with 4%nat in Hw by (unfold zlen in Hn; lia).
  rewrite Hw by by apply Forall_bytes_get. apply bytes_put_get; rewrite ?Hl; done.
Qed.

(** A valid page: what [decode] returns. *)
Record page_valid (p : Page) : Prop := {
  valid_ok : page_ok p;
  valid_shape : page_shape p;
  valid_sealed : page_sealed p
}.
#[export] Hint Resolve valid_ok valid_shape valid_sealed seal_ok : aster_db.

Lemma seal_valid p : page_ok p → page_shape p → page_valid (seal p).
Proof. intros. split; auto using seal_ok, seal_shape, seal_sealed. Qed.

Lemma page_valid_decode p : page_valid p → page_decode (page_bytes p) = Ok p.
Proof. intros []. by apply page_decode_Ok. Qed.

Lemma page_decode_valid l p :
  zlen l = PAGE_SIZE → Forall byte_ok l → page_decode l = Ok p → page_valid p ∧ page_bytes p = l.
Proof. intros Hl Hb (<- & ? & ?)%page_decode_Ok. done. Qed.

(** ** Header updates *)

Lemma get_u64_put_u64 p off v :
  page_ok p → 0 ≤ off → off + 8 ≤ PAGE_SIZE → u64_ok v → get_u64 (put_u64 p off v) off = v.
Proof.
  intros Hp ? ? Hv. unfold get_u64, put_u64.
  change 8 with (zlen (to_le_bytes 8 v)).
  rewrite get_put_same; [|done|done|by rewrite zlen_to_le_bytes].
  rewrite from_to_le_bytes. apply Z.mod_small. change (256 ^ Z.of_nat 8) with (u64_max + 1). ulia.
Qed.

Lemma get_u16_put_u16 p off v :
  page_ok p → 0 ≤ off → off + 2 ≤ PAGE_SIZE → 0 ≤ v ≤ u16_max → get_u16 (put_u16 p off v) off = v.
Proof.
  intros Hp ? ? Hv. unfold get_u16, put_u16.
  change 2 with (zlen (to_le_bytes 2 v)).
  rewrite get_put_same; [|done|done|by rewrite zlen_to_le_bytes].
  rewrite from_to_le_bytes. apply Z.mod_small. change (256 ^ Z.of_nat 2) with (u16_max + 1). ulia.
Qed.

Lemma put_u64_ok p off v : page_ok p → 0 ≤ off → off + 8 ≤ PAGE_SIZE → page_ok (put_u64 p off v).
Proof. intros. apply put_bytes_ok; rewrite ?zlen_to_le_bytes; auto using to_le_bytes_ok. Qed.
Lemma put_u16_ok p off v : page_ok p → 0 ≤ off → off + 2 ≤ PAGE_SIZE → page_ok (put_u16 p off v).
Proof. intros. apply put_bytes_ok; rewrite ?zlen_to_le_bytes; auto using to_le_bytes_ok. Qed.

(** A write that stays clear of the checked header fields keeps the shape. *)
Lemma put_bytes_shape p off v :
  page_ok p → page_shape p → off + zlen v ≤ PAGE_SIZE →
  7 ≤ off ∧ off + zlen v ≤ 32 ∨ 36 ≤ off ∧ off + zlen v ≤ 38
    ∨ 44 ≤ off ∧ off + zlen v ≤ 48 ∨ 64 ≤ off →
  page_shape (put_bytes p off v).
Proof.
  intros Hp [Hm Hv Hk H1 H2 Hb] Hend Hoff. pose proof (zlen_nonneg v). pose proof Hp as [Hl _].
  assert (∀ o n, 0 ≤ o → 0 ≤ n → o + n ≤ 7 ∨ 32 ≤ o ∧ o + n ≤ 36 ∨ 38 ≤ o ∧ o + n ≤ 44
      ∨ 48 ≤ o ∧ o + n ≤ 64 →
    bytes_get (page_bytes (put_bytes p off v)) o n = bytes_get (page_bytes p) o n) as Hg.
  { intros. apply get_put_other; unfold PAGE_SIZE in *; try done; lia. }
  split; unfold get_u16 in *; rewrite ?Hg by lia; try done.
  rewrite !page_byte_get in *; cbn [page_bytes put_bytes];
    rewrite ?zlen_bytes_put by (unfold PAGE_SIZE in *; lia); try (unfold PAGE_SIZE in *; lia).
  change (bytes_put (page_bytes p) off v) with (page_bytes (put_bytes p off v)).
  rewrite Hg by lia. done.
Qed.

(** [seal] after a write elsewhere: what the other windows hold. *)
Lemma seal_put_get p off v o n :
  page_ok p → 0 ≤ off → off + zlen v ≤ PAGE_SIZE → Forall byte_ok v →
  0 ≤ o → 0 ≤ n → o + n ≤ PAGE_SIZE → o + n ≤ 44 ∨ 48 ≤ o →
  o + n ≤ off ∨ off + zlen v ≤ o →
  bytes_get (page_bytes (seal (put_bytes p off v))) o n = bytes_get (page_bytes p) o n.
Proof. intros. rewrite seal_get, get_put_other; auto using put_bytes_ok. Qed.

(** Side conditions of the window lemmas. *)
Ltac page_side :=
  rewrite ?zlen_to_le_bytes;
  solve [ done | unfold PAGE_SIZE in *; lia | apply to_le_bytes_ok
        | repeat first [ done | apply put_u64_ok | apply put_u16_ok | apply seal_ok | eapply valid_ok; eassumption ] ].

Lemma set_layout_ok p lower upper count : page_ok p → page_ok (set_layout p lower upper count).
Proof. intros. unfold set_layout. by repeat apply put_u16_ok. Qed.

Lemma set_layout_get p lower upper count o n :
  page_ok p → 0 ≤ o → 0 ≤ n → o + n ≤ PAGE_SIZE → o + n ≤ 32 ∨ 38 ≤ o →
  bytes_get (page_bytes (set_layout p lower upper count)) o n = bytes_get (page_bytes p) o n.
Proof.
  intros. unfold set_layout, put_u16 at 1 2 3.
  by rewrite !get_put_other by page_side.
Qed.

Lemma set_layout_fields p lower upper count :
  page_ok p → 0 ≤ lower ≤ u16_max → 0 ≤ upper ≤ u16_max → 0 ≤ count ≤ u16_max →
  let q := set_layout p lower upper count in
  get_u16 q 32 = lower ∧ get_u16 q 34 = upper ∧ get_u16 q 36 = count.
Proof.
  intros Hp Hl Hu Hc. unfold set_layout. cbn zeta. split_and!.
  - unfold get_u16, put_u16 at 1 2. rewrite !get_put_other by page_side. by apply get_u16_put_u16.
  - unfold get_u16, put_u16 at 1. rewrite get_put_other by page_side. apply get_u16_put_u16; page_side.
  - apply get_u16_put_u16; page_side.
Qed.

Lemma set_layout_shape p lower upper count :
  page_ok p → page_shape p → PAGE_HEADER_SIZE ≤ lower ≤ upper → upper ≤ PAGE_SIZE → 0 ≤ count ≤ u16_max →
  page_shape (set_layout p lower upper count).
Proof.
  intros Hp [Hm Hv Hk H1 H2 Hb] Hlo Hup Hc. unfold PAGE_HEADER_SIZE, PAGE_SIZE in Hlo, Hup.
  destruct (set_layout_fields p lower upper count) as (E1 & E2 & _); [done|unfold u16_max; lia..|done|].
  pose proof (set_layout_ok p lower upper count Hp) as [Hl' _]. pose proof Hp as [Hl _].
  split; [| | | | |rewrite E1, E2; unfold PAGE_HEADER_SIZE, PAGE_SIZE; lia];
    unfold get_u16 in *; rewrite ?page_byte_get in * by (rewrite ?Hl, ?Hl'; done);
    rewrite !set_layout_get by (done || lia); done.
Qed.

(** ** Stamping a page image: [set_lsn], [set_page_epoch] *)

Definition stamp (p : Page) (lsn epoch : Z) : Page := seal (set_page_epoch (set_lsn p lsn) epoch).

Lemma set_lsn_valid p l : page_ok p → page_shape p → page_valid (set_lsn p l).
Proof.
  intros Hp Hs. assert (page_ok (put_u64 p 16 l)) by (by apply put_u64_ok).
  apply seal_valid; [done|]. apply put_bytes_shape; rewrite ?zlen_to_le_bytes; try done. left. lia.
Qed.

Lemma set_page_epoch_valid p e : page_ok p → page_shape p → page_valid (set_page_epoch p e).
Proof.
  intros Hp Hs. assert (page_ok (put_u64 p 24 e)) by (by apply put_u64_ok).
  apply seal_valid; [done|]. apply put_bytes_shape; rewrite ?zlen_to_le_bytes; try done. left. lia.
Qed.

Lemma stamp_alt p l e : page_ok p → page_shape p → stamp p l e = set_page_epoch (set_lsn p l) e.
Proof.
  intros Hp Hs. destruct (set_lsn_valid p l Hp Hs). apply sealed_seal; by apply set_page_epoch_valid.
Qed.

Lemma stamp_valid p l e : page_ok p → page_shape p → page_valid (stamp p l e).
Proof.
  intros Hp Hs. rewrite stamp_alt by done. destruct (set_lsn_valid p l Hp Hs).
  by apply set_page_epoch_valid.
Qed.

(** Outside the LSN, the epoch and the checksum a stamped page is the page. *)
Lemma stamp_get p l e o n :
  page_ok p → page_shape p → 0 ≤ o → 0 ≤ n → o + n ≤ PAGE_SIZE →
  o + n ≤ 16 ∨ 32 ≤ o ∧ o + n ≤ 44 ∨ 48 ≤ o →
  bytes_get (page_bytes (stamp p l e)) o n = bytes_get (page_bytes p) o n.
Proof.
  intros Hp Hs ? ? ? ?. rewrite stamp_alt by done. destruct (set_lsn_valid p l Hp Hs).
  unfold set_page_epoch, set_lsn, put_u64.
  by rewrite !seal_put_get by page_side.
Qed.

Lemma stamp_id p l e : page_ok p → page_shape p → page_id (stamp p l e) = page_id p.
Proof. intros. unfold page_id, get_u64. by rewrite stamp_get by (done || lia). Qed.

Lemma stamp_lsn p l e : page_ok p → page_shape p → u64_ok l → page_lsn (stamp p l e) = l.
Proof.
  intros Hp Hs Hl. rewrite stamp_alt by done. destruct (set_lsn_valid p l Hp Hs).
  unfold page_lsn, get_u64, set_page_epoch, put_u64.
  rewrite seal_put_get by page_side. unfold set_lsn. rewrite seal_get by page_side.
  by apply get_u64_put_u64.
Qed.

Lemma page_id_ok p : page_ok p → u64_ok (page_id p).
Proof.
  intros [Hl Hb]. unfold page_id, get_u64.
  assert (zlen (bytes_get (page_bytes p) 8 8) = 8) as Hn by (apply zlen_bytes_get; rewrite ?Hl; done).
  pose proof (from_le_bytes_bound _ (Forall_bytes_get _ (page_bytes p) 8 8 Hb)) as Hbd.
  rewrite Hn in Hbd. change (256 ^ 8) with (u64_max + 1) in Hbd. ulia.
Qed.

(** ** A fresh page *)

Lemma page_new_valid id k : u64_ok id → page_valid (page_new id k) ∧ page_id (page_new id k) = id
  ∧ page_lsn (page_new id k) = 0 ∧ page_kind (page_new id k) = k.
Proof.
  intros Hid. unfold page_new.
  set (p0 := put_bytes (put_u16 (put_bytes (mkPage (zeros PAGE_SIZE)) 0 PAGE_MAGIC) 4 PAGE_FORMAT_VERSION) 6 [PageKind_tag k]).
  assert (page_ok p0) as H0.
  { split; [by destruct k; vm_compute|].
    destruct k; apply (bool_decide_unpack (Forall (λ b, 0 ≤ b < 256) _)); by vm_compute. }
  set (p1 := put_u64 p0 8 id). assert (page_ok p1) as H1 by by apply put_u64_ok.
  set (p2 := put_u16 p1 32 PAGE_HEADER_SIZE). assert (page_ok p2) as H2 by by apply put_u16_ok.
  set (p3 := put_u16 p2 34 PAGE_SIZE). assert (page_ok p3) as H3 by by apply put_u16_ok.
  assert (∀ o n, 0 ≤ o → 0 ≤ n → o + n ≤ PAGE_SIZE →
    o + n ≤ 8 ∨ 16 ≤ o ∧ o + n ≤ 32 ∨ 36 ≤ o →
    bytes_get (page_bytes p3) o n = bytes_get (page_bytes p0) o n) as Hg.
  { intros o n ? ? ? ?. unfold p3, p2, p1, put_u16, put_u64.
    by rewrite !get_put_other by page_side. }
  assert (page_byte p3 6 = PageKind_tag k) as H6.
  { rewrite page_byte_get by (destruct H3 as [-> _]; done). rewrite Hg by (done || lia).
    by destruct k; vm_compute. }
  assert (page_shape p3) as Hs3.
  { split.
    - rewrite Hg by (done || lia). by destruct k; vm_compute.
    - unfold get_u16. rewrite Hg by (done || lia). by destruct k; vm_compute.
    - rewrite H6. by destruct k.
    - rewrite Hg by (done || lia). destruct k; vm_compute; repeat constructor.
    - rewrite Hg by (done || lia). destruct k; vm_compute; repeat constructor.
    - assert (get_u16 p3 34 = PAGE_SIZE) as -> by by apply get_u16_put_u16.
      assert (get_u16 p3 32 = PAGE_HEADER_SIZE) as ->; [|done].
      unfold get_u16, p3, put_u16 at 1. rewrite get_put_other by page_side.
      by apply get_u16_put_u16. }
  split_and!.
  - by apply seal_valid.
  - unfold page_id, get_u64. rewrite seal_get by (done || lia).
    unfold p3, p2, put_u16. rewrite !get_put_other by page_side.
    by apply get_u64_put_u64.
  - unfold page_lsn, get_u64. rewrite seal_get, Hg by (done || lia). by destruct k; vm_compute.
  - unfold page_kind. rewrite seal_byte, H6 by (done || lia). by destruct k.
Qed.

(** ** What the format guarantees *)

(** A page whose header is well-formed survives [into_bytes] and [decode]
    unchanged but for the checksum, which [into_bytes] recomputes: the header
    and the payload read back as they were. *)
Theorem page_codec_roundtrip p :
  page_ok p → page_shape p →
  page_decode (into_bytes p) = Ok (seal p)
  ∧ page_header (seal p) = page_header p ∧ payload (seal p) = payload p.
Proof.
  intros Hp Hs. split_and!.
  - apply (page_valid_decode (seal p)), seal_valid; done.
  - unfold page_header, page_kind, get_u64, get_u16.
    rewrite !seal_get, !seal_byte by (done || unfold PAGE_SIZE; lia). done.
  - pose proof (seal_ok p Hp) as [Hl _]. pose proof Hp as [Hl' _].
    assert (∀ l, zlen l = PAGE_SIZE → zdrop PAGE_HEADER_SIZE l = bytes_get l PAGE_HEADER_SIZE (PAGE_SIZE - PAGE_HEADER_SIZE)) as Hd.
    { intros l E. symmetry. apply ztake_all. rewrite zlen_zdrop, E; done. }
    unfold payload. rewrite !Hd by done. by rewrite seal_get by (done || right; done).
Qed.

Lemma zero_window l o n j :
  Forall (λ b, b = 0) (bytes_get l o n) → 0 ≤ o → o ≤ j < o + n → o + n ≤ zlen l → znth l j = Some 0.
Proof.
  intros Hz ? ? ?. pose proof (znth_bytes_get l o n (j - o)) as Hj.
  replace (o + (j - o)) with j in Hj by lia. rewrite <- Hj by lia.
  destruct (znth_is_Some (bytes_get l o n) (j - o)) as [x Hx]; [rewrite zlen_bytes_get; lia|].
  rewrite Hx. apply znth_Some in Hx as [_ Hx]. rewrite Forall_lookup in Hz. f_equal. eauto.
Qed.

Lemma bytes_split3 l i n : 0 ≤ i → 0 ≤ n → i + n ≤ zlen l →
  l = ztake i l ++ bytes_get l i n ++ zdrop (i + n) l.
Proof.
  intros. assert (zlen (bytes_get l i n) = n) as Hn by (apply zlen_bytes_get; lia).
  rewrite <- (bytes_put_get l i n) at 1 by lia. unfold bytes_put. by rewrite Hn.
Qed.

(** A burst outside the checksum field changes the checksum. *)
Lemma checksum_burst p i w :
  page_ok p → Forall byte_ok w → 0 ≤ i → zlen w ≤ 4 → i + zlen w ≤ PAGE_SIZE →
  i + zlen w ≤ 44 ∨ 48 ≤ i →
  computed_checksum (put_bytes p i w) = computed_checksum p → put_bytes p i w = p.
Proof.
  intros [Hl Hb] Hw Hi H4 Hend Hout Hc. unfold computed_checksum, put_bytes in *; cbn [page_bytes] in *.
  set (z := bytes_put (page_bytes p) CHECKSUM_OFFSET (zeros 4)) in *. pose proof (zlen_nonneg w).
  assert (zlen z = PAGE_SIZE) as Hz by (unfold z; rewrite zlen_bytes_put; rewrite ?Hl; done).
  assert (Forall byte_ok z) as Hzb by (apply Forall_bytes_put; auto using zeros_ok).
  rewrite bytes_put_put_other in Hc; rewrite ?Hl; try done; [|unfold CHECKSUM_OFFSET; change (zlen (zeros 4)) with 4; lia].
  fold z in Hc. rewrite (bytes_split3 z i (zlen w)) in Hc by (unfold PAGE_SIZE in *; lia).
  unfold bytes_put in Hc. rewrite <- (bytes_split3 z i (zlen w)) in Hc at 1 by (unfold PAGE_SIZE in *; lia).
  rewrite <- (bytes_split3 z i (zlen w)) in Hc at 1 by (unfold PAGE_SIZE in *; lia).
  assert (zlen (bytes_get z i (zlen w)) = zlen w) as Hgl by (apply zlen_bytes_get; unfold PAGE_SIZE in *; lia).
  apply crc32_burst in Hc; [|done|by apply Forall_bytes_get|by apply Forall_drop|unfold zlen in *; lia..].
  destruct p as [l]; cbn [page_bytes] in *. f_equal.
  assert (w = bytes_get l i (zlen w)) as Hwl.
  { rewrite Hc at 1. unfold z. apply bytes_get_put_other; rewrite ?Hl; try done; unfold CHECKSUM_OFFSET, PAGE_SIZE in *; change (zlen (zeros 4)) with 4; lia. }
  rewrite Hwl. apply bytes_put_get; unfold PAGE_SIZE in *; lia.
Qed.

(** A burst that meets the checksum field and keeps the reserved bytes around
    it zero leaves the computed checksum as it was. *)
Lemma checksum_across p i w :
  page_ok p → Forall byte_ok w → page_shape p → page_shape (put_bytes p i w) →
  40 < i → i < 48 → zlen w ≤ 4 →
  computed_checksum (put_bytes p i w) = computed_checksum p
  ∧ (get_u32 (put_bytes p i w) CHECKSUM_OFFSET = get_u32 p CHECKSUM_OFFSET → put_bytes p i w = p).
Proof.
  intros [Hl Hb] Hw [_ _ _ Hr1 Hr2 _] [_ _ _ Hr1' Hr2' _] H1 H2 H4. pose proof (zlen_nonneg w).
  unfold put_bytes in *; cbn [page_bytes] in *. set (q := bytes_put (page_bytes p) i w) in *.
  assert (zlen q = PAGE_SIZE) as Hq by (unfold q; rewrite zlen_bytes_put; rewrite ?Hl; unfold PAGE_SIZE; lia).
  assert (∀ j, 0 ≤ j < PAGE_SIZE → j < 44 ∨ 48 ≤ j → znth q j = znth (page_bytes p) j) as Hsame.
  { intros j Hj Hout. destruct (decide (i ≤ j < i + zlen w)) as [Hin|Hin].
    - assert (j < 44 ∨ 48 ≤ j < 64) as [Hj'|Hj'] by lia.
      + rewrite (zero_window _ 38 6 j Hr1), (zero_window _ 38 6 j Hr1'); unfold PAGE_SIZE in *; lia || done.
      + rewrite (zero_window _ 48 16 j Hr2), (zero_window _ 48 16 j Hr2'); unfold PAGE_SIZE in *; lia || done.
    - unfold q. rewrite znth_bytes_put by (rewrite ?Hl; unfold PAGE_SIZE; lia). buf_case; done. }
  split.
  - unfold computed_checksum; cbn [page_bytes]. f_equal. apply znth_ext.
    + rewrite !zlen_bytes_put by (rewrite ?Hl, ?Hq; done). by rewrite Hq, Hl.
    + intros j. rewrite zlen_bytes_put by (rewrite ?Hl, ?Hq; done). rewrite Hq. intros Hj.
      rewrite !znth_bytes_put by (rewrite ?Hl, ?Hq; try done; lia).
      unfold CHECKSUM_OFFSET. change (zlen (zeros 4)) with 4. buf_case; [done|apply Hsame; lia..].
  - unfold get_u32; cbn [page_bytes]. intros Hg. destruct p as [l]; cbn [page_bytes] in *. f_equal.
    assert (bytes_get q 44 4 = bytes_get l 44 4) as Hsum.
    { assert (zlen (bytes_get q 44 4) = 4) by (apply zlen_bytes_get; rewrite ?Hq; done).
      assert (zlen (bytes_get l 44 4) = 4) by (apply zlen_bytes_get; rewrite ?Hl; done).
      apply from_le_bytes_inj; [..|unfold zlen in *; lia|done]; apply Forall_bytes_get; [|done].
      by apply Forall_bytes_put. }
    apply znth_ext; [lia|]. intros j Hj. destruct (decide (44 ≤ j < 48)); [|apply Hsame; lia].
    replace j with (44 + (j - 44)) by lia.
    rewrite <- !(znth_bytes_get _ 44 4 (j - 44)) by lia. by rewrite Hsum.
Qed.

(** A valid page that is altered within any four consecutive bytes, header,
    checksum field and reserved bytes included, no longer decodes. *)
Theorem page_burst_detected p i w :
  page_valid p → Forall byte_ok w → 0 ≤ i → zlen w ≤ 4 → i + zlen w ≤ PAGE_SIZE →
  bytes_put (page_bytes p) i w ≠ page_bytes p →
  is_ok (page_decode (bytes_put (page_bytes p) i w)) = false.
Proof.
  intros [Hp Hs Hc] Hw Hi H4 Hend Hne.
  destruct (page_decode (bytes_put (page_bytes p) i w)) as [q|] eqn:Hq; [|done].
  apply page_decode_Ok in Hq as (Hqb & Hqs & Hqc). exfalso. apply Hne.
  assert (q = put_bytes p i w) as -> by (destruct q; cbn in *; by subst).
  assert (put_bytes p i w = p) as E; [|by rewrite <- E at 2].
  unfold page_sealed in Hc, Hqc. destruct (decide (i + zlen w ≤ 44 ∨ 48 ≤ i)) as [Hout|Hin].
  - apply checksum_burst; try done. rewrite <- Hqc, <- Hc. unfold get_u32, CHECKSUM_OFFSET.
    f_equal. apply get_put_other; try done; lia.
  - destruct (checksum_across p i w) as [Hsum Hsame]; try done; [lia..|].
    apply Hsame. by rewrite Hqc, Hsum, <- Hc.
Qed.
