(* ===== verification/StorageIo.v ===== *)
(** * Storage devices: [disk.rs], and the [WalIo] devices of [wal.rs]

    A storage operation runs on a world [S] that holds the devices; it returns
    a result and the world it leaves, also when it fails: bytes appended before
    an error stay.  The traits [WalIo] and [Disk] are classes over the world;
    [MemoryWal], [FaultyWal], [MemoryDisk] and [FaultyFile] are instances. *)

From S2P Require Import Prelude StorageBytes StoragePage.

(** ** Operations with effects *)

Definition io (S A : Type) : Type := S → sresult A * S.

#[export] Instance io_ret {S} : MRet (io S) := λ A a s, (Ok a, s).
#[export] Instance io_bind {S} : MBind (io S) := λ A B f m s,
  match m s with
  | (Ok a, s) => f a s
  | (Err e, s) => (Err e, s)
  end.

(** A pure computation, an error, and [?] on a plain [Result]. *)
Definition io_lift {S A} (r : sresult A) : io S A := λ s, (r, s).
Definition io_err {S A} (e : StorageError) : io S A := λ s, (Err e, s).
Definition io_ensure {S} (c : bool) (e : StorageError) : io S unit := io_lift (ensure c e).

(** A device read whose error is inspected instead of propagated. *)
Definition io_try {S A} (m : io S A) : io S (sresult A) := λ s, let '(r, s) := m s in (Ok r, s).

Fixpoint io_foldM {S A X} (f : X → A → io S X) (x : X) (l : list A) : io S X :=
  match l with
  | [] => mret x
  | a :: l => x' ← f x a; io_foldM f x' l
  end.

Lemma io_bind_Ok {S A B} (f : A → io S B) (m : io S A) s a s' :
  m s = (Ok a, s') → (m ≫= f) s = f a s'.
Proof. intros H. unfold mbind, io_bind. by rewrite H. Qed.

Lemma io_bind_Err {S A B} (f : A → io S B) (m : io S A) s e s' :
  m s = (Err e, s') → (m ≫= f) s = (Err e, s').
Proof. intros H. unfold mbind, io_bind. by rewrite H. Qed.

Lemma io_bind_inv {S A B} (f : A → io S B) (m : io S A) s b s' :
  (m ≫= f) s = (Ok b, s') → ∃ a s1, m s = (Ok a, s1) ∧ f a s1 = (Ok b, s').
Proof. unfold mbind, io_bind. destruct (m s) as [[a|e] s1]; naive_solver. Qed.

(** ** The log device, [trait WalIo] *)

Class WalIo (S : Type) := {
  wal_len : io S Z;
  wal_read_all : io S bytes;
  wal_append : bytes → io S unit;
  wal_sync : io S unit;
  wal_truncate : Z → io S unit
}.

Definition wal_is_empty {S} `{WalIo S} : io S bool := n ← wal_len; mret (n =? 0).

Record MemoryWalState : Type := mkMemoryWal {
  mw_volatile : bytes;
  mw_durable : bytes;
  append_sizes : list Z;
  sync_count : Z
}.

Definition memory_wal_default : MemoryWalState := mkMemoryWal [] [] [] 0.

Module MemoryWal.
Definition crash (s : MemoryWalState) : MemoryWalState :=
  mkMemoryWal (mw_durable s) (mw_durable s) (append_sizes s) (sync_count s).

Definition replace_bytes (s : MemoryWalState) (l : bytes) (durable : bool) : MemoryWalState :=
  mkMemoryWal l (if durable then l else mw_durable s) (append_sizes s) (sync_count s).

Definition len : io MemoryWalState Z := λ s,
  (if zlen (mw_volatile s) <=? u64_max then Ok (zlen (mw_volatile s))
   else Err (CorruptWal u64_max "WAL length exceeds u64"), s).

Definition read_all : io MemoryWalState bytes := λ s, (Ok (mw_volatile s), s).

Definition append (l : bytes) : io MemoryWalState unit := λ s,
  (Ok tt, mkMemoryWal (mw_volatile s ++ l) (mw_durable s) (append_sizes s ++ [zlen l]) (sync_count s)).

Definition sync : io MemoryWalState unit := λ s,
  (Ok tt, mkMemoryWal (mw_volatile s) (mw_volatile s) (append_sizes s) (sync_count s + 1)%u64).

Definition truncate (length : Z) : io MemoryWalState unit := λ s,
  match usize_try_from length with
  | None => (Err (CorruptWal length "length overflow"), s)
  | Some length =>
      if zlen (mw_volatile s) <? length
      then (Err (CorruptWal length "cannot extend WAL through truncate"), s)
      else (Ok tt, mkMemoryWal (ztake length (mw_volatile s)) (mw_durable s) (append_sizes s) (sync_count s))
  end.
End MemoryWal.

#[export] Instance memory_wal : WalIo MemoryWalState := {|
  wal_len := MemoryWal.len;
  wal_read_all := MemoryWal.read_all;
  wal_append := MemoryWal.append;
  wal_sync := MemoryWal.sync;
  wal_truncate := MemoryWal.truncate
|}.

(** *** Fault injection, [FaultyWal] *)

Record WalFaultState : Type := mkWalFault {
  append_ordinal : Z;
  sync_ordinal : Z;
  short_append : option (Z * Z);
  fail_sync : option Z
}.

Record FaultyWalState (W : Type) : Type := mkFaultyWal {
  fw_inner : W;
  fw_state : WalFaultState
}.
Arguments mkFaultyWal {W} _ _.
Arguments fw_inner {W} _.
Arguments fw_state {W} _.

Module FaultyWal.
Section FaultyWal.
Context {W : Type} `{WalIo W}.

Definition new (inner : W) : FaultyWalState W := mkFaultyWal inner (mkWalFault 0 0 None None).

Definition short_append_at (s : FaultyWalState W) (ordinal size : Z) : FaultyWalState W :=
  let f := fw_state s in
  mkFaultyWal (fw_inner s) (mkWalFault (append_ordinal f) (sync_ordinal f) (Some (ordinal, size)) (fail_sync f)).

Definition fail_sync_at (s : FaultyWalState W) (ordinal : Z) : FaultyWalState W :=
  let f := fw_state s in
  mkFaultyWal (fw_inner s) (mkWalFault (append_ordinal f) (sync_ordinal f) (short_append f) (Some ordinal)).

(** A call that goes to the inner device. *)
Definition inner {A} (m : io W A) : io (FaultyWalState W) A := λ s,
  let '(r, w) := m (fw_inner s) in (r, mkFaultyWal w (fw_state s)).

Definition append (l : bytes) : io (FaultyWalState W) unit := λ s,
  let f := fw_state s in
  let ordinal := (append_ordinal f + 1)%u64 in
  match short_append f with
  | Some (target, length) =>
      if target =? ordinal then
        (_ ← inner (wal_append (ztake (Z.min length (zlen l)) l));
         io_err (InjectedFault "WAL short append" ordinal))
          (mkFaultyWal (fw_inner s) (mkWalFault ordinal (sync_ordinal f) None (fail_sync f)))
      else inner (wal_append l)
             (mkFaultyWal (fw_inner s) (mkWalFault ordinal (sync_ordinal f) (short_append f) (fail_sync f)))
  | None =>
      inner (wal_append l)
        (mkFaultyWal (fw_inner s) (mkWalFault ordinal (sync_ordinal f) None (fail_sync f)))
  end.

Definition sync : io (FaultyWalState W) unit := λ s,
  let f := fw_state s in
  let ordinal := (sync_ordinal f + 1)%u64 in
  match fail_sync f with
  | Some target =>
      if target =? ordinal then
        (Err (InjectedFault "WAL sync" ordinal),
         mkFaultyWal (fw_inner s) (mkWalFault (append_ordinal f) ordinal (short_append f) None))
      else inner wal_sync
             (mkFaultyWal (fw_inner s) (mkWalFault (append_ordinal f) ordinal (short_append f) (fail_sync f)))
  | None =>
      inner wal_sync
        (mkFaultyWal (fw_inner s) (mkWalFault (append_ordinal f) ordinal (short_append f) None))
  end.
End FaultyWal.
End FaultyWal.

#[export] Instance faulty_wal {W} `{WalIo W} : WalIo (FaultyWalState W) := {|
  wal_len := FaultyWal.inner wal_len;
  wal_read_all := FaultyWal.inner wal_read_all;
  wal_append := FaultyWal.append;
  wal_sync := FaultyWal.sync;
  wal_truncate := λ n, FaultyWal.inner (wal_truncate n)
|}.

(** ** The page device, [trait Disk] *)

Class Disk (S : Type) := {
  read_page : Z → io S bytes;
  write_page : Z → bytes → io S unit;
  disk_sync : io S unit;
  page_count : io S Z
}.

Inductive IoOperation : Type := OpRead | OpWrite | OpSync | OpPageCount.
#[export] Instance IoOperation_eq_dec : EqDecision IoOperation.
Proof. solve_decision. Defined.

Record IoEvent : Type := mkEvent {
  ev_ordinal : Z;
  ev_operation : IoOperation;
  ev_page_id : option Z
}.

Record MemoryDiskState : Type := mkMemoryDisk {
  md_volatile : gmap Z bytes;
  md_durable : gmap Z bytes;
  md_events : list IoEvent;
  md_ordinal : Z
}.

Definition memory_disk_default : MemoryDiskState := mkMemoryDisk ∅ ∅ [] 0.

Definition not_found_page (page_id : Z) : StorageError := SNotFound ("page " +:+ pretty page_id).

Module MemoryDisk.
Definition crash (s : MemoryDiskState) : MemoryDiskState :=
  mkMemoryDisk (md_durable s) (md_durable s) (md_events s) (md_ordinal s).

Definition clear_events (s : MemoryDiskState) : MemoryDiskState :=
  mkMemoryDisk (md_volatile s) (md_durable s) [] (md_ordinal s).

Definition record (s : MemoryDiskState) (operation : IoOperation) (page_id : option Z) : MemoryDiskState :=
  let ordinal := (md_ordinal s + 1)%u64 in
  mkMemoryDisk (md_volatile s) (md_durable s) (md_events s ++ [mkEvent ordinal operation page_id]) ordinal.

Definition read_page (page_id : Z) : io MemoryDiskState bytes := λ s,
  let s := record s OpRead (Some page_id) in
  (ok_or (md_volatile s !! page_id) (not_found_page page_id), s).

Definition write_page (page_id : Z) (page : bytes) : io MemoryDiskState unit := λ s,
  let s := record s OpWrite (Some page_id) in
  (Ok tt, mkMemoryDisk (<[page_id := page]> (md_volatile s)) (md_durable s) (md_events s) (md_ordinal s)).

Definition sync : io MemoryDiskState unit := λ s,
  let s := record s OpSync None in
  (Ok tt, mkMemoryDisk (md_volatile s) (md_volatile s) (md_events s) (md_ordinal s)).

Definition page_count : io MemoryDiskState Z := λ s,
  let s := record s OpPageCount None in
  (Ok (match last (btree_map_iter (md_volatile s)) with
       | Some (id, _) => (id + 1)%u64
       | None => 0
       end), s).
End MemoryDisk.

#[export] Instance memory_disk : Disk MemoryDiskState := {|
  read_page := MemoryDisk.read_page;
  write_page := MemoryDisk.write_page;
  disk_sync := MemoryDisk.sync;
  page_count := MemoryDisk.page_count
|}.

(** *** Fault injection, [FaultyFile] *)

Inductive FaultAction : Type :=
| FError
| TornWrite (size : Z)
| FDrop.

Record Fault : Type := mkFault {
  f_operation : IoOperation;
  f_matching_ordinal : Z;
  f_action : FaultAction
}.

Record FaultState : Type := mkFaultState {
  faults : list Fault;
  matching_counts : gmap Z Z;
  fs_events : list IoEvent;
  fs_ordinal : Z
}.

Record FaultyFileState (D : Type) : Type := mkFaultyFile {
  ff_inner : D;
  ff_state : FaultState
}.
Arguments mkFaultyFile {D} _ _.
Arguments ff_inner {D} _.
Arguments ff_state {D} _.

(** [operation as u8] *)
Definition IoOperation_tag (o : IoOperation) : Z :=
  match o with OpRead => 0 | OpWrite => 1 | OpSync => 2 | OpPageCount => 3 end.

Definition IoOperation_debug (o : IoOperation) : string :=
  match o with OpRead => "Read" | OpWrite => "Write" | OpSync => "Sync" | OpPageCount => "PageCount" end.

Module FaultyFile.
Section FaultyFile.
Context {D : Type} `{Disk D}.

Definition new (inner : D) : FaultyFileState D := mkFaultyFile inner (mkFaultState [] ∅ [] 0).

Definition push_fault (s : FaultyFileState D) (fault : Fault) : FaultyFileState D :=
  let f := ff_state s in
  mkFaultyFile (ff_inner s)
    (mkFaultState (faults f ++ [fault]) (matching_counts f) (fs_events f) (fs_ordinal f)).

Definition before (operation : IoOperation) (page_id : option Z) (s : FaultyFileState D)
  : option (Z * FaultAction) * FaultyFileState D :=
  let f := ff_state s in
  let ordinal := (fs_ordinal f + 1)%u64 in
  let events := fs_events f ++ [mkEvent ordinal operation page_id] in
  let key := IoOperation_tag operation in
  let matching := (default 0 (matching_counts f !! key) + 1)%u64 in
  let counts := <[key := matching]> (matching_counts f) in
  match faults f with
  | fault :: rest =>
      if bool_decide (f_operation fault = operation) && (f_matching_ordinal fault =? matching)
      then (Some (ordinal, f_action fault),
            mkFaultyFile (ff_inner s) (mkFaultState rest counts events ordinal))
      else (None, mkFaultyFile (ff_inner s) (mkFaultState (faults f) counts events ordinal))
  | [] => (None, mkFaultyFile (ff_inner s) (mkFaultState [] counts events ordinal))
  end.

Definition injected (operation : IoOperation) (ordinal : Z) : StorageError :=
  InjectedFault (IoOperation_debug operation) ordinal.

Definition inner {A} (m : io D A) : io (FaultyFileState D) A := λ s,
  let '(r, d) := m (ff_inner s) in (r, mkFaultyFile d (ff_state s)).

(** [self.inner.read_page(id).unwrap_or([0; PAGE_SIZE])] *)
Definition read_or_zeros (page_id : Z) : io (FaultyFileState D) bytes := λ s,
  let '(r, s) := inner (read_page page_id) s in
  (Ok (match r with Ok l => l | Err _ => zeros PAGE_SIZE end), s).

Definition faulty_read_page (page_id : Z) : io (FaultyFileState D) bytes := λ s,
  match before OpRead (Some page_id) s with
  | (Some (ordinal, _), s) => (Err (injected OpRead ordinal), s)
  | (None, s) => inner (read_page page_id) s
  end.

Definition faulty_write_page (page_id : Z) (page : bytes) : io (FaultyFileState D) unit := λ s,
  match before OpWrite (Some page_id) s with
  | (Some (ordinal, FDrop), s) => (Ok tt, s)
  | (Some (ordinal, FError), s) => (Err (injected OpWrite ordinal), s)
  | (Some (ordinal, TornWrite size), s) =>
      (old ← read_or_zeros page_id;
       let size := Z.min size PAGE_SIZE in
       _ ← inner (write_page page_id (bytes_put old 0 (ztake size page)));
       io_err (injected OpWrite ordinal)) s
  | (None, s) => inner (write_page page_id page) s
  end.

Definition faulty_sync : io (FaultyFileState D) unit := λ s,
  match before OpSync None s with
  | (Some (ordinal, FDrop), s) => (Ok tt, s)
  | (Some (ordinal, _), s) => (Err (injected OpSync ordinal), s)
  | (None, s) => inner disk_sync s
  end.

Definition faulty_page_count : io (FaultyFileState D) Z := λ s,
  match before OpPageCount None s with
  | (Some (ordinal, _), s) => (Err (injected OpPageCount ordinal), s)
  | (None, s) => inner page_count s
  end.
End FaultyFile.
End FaultyFile.

#[export] Instance faulty_file {D} `{Disk D} : Disk (FaultyFileState D) := {|
  read_page := FaultyFile.faulty_read_page;
  write_page := FaultyFile.faulty_write_page;
  disk_sync := FaultyFile.faulty_sync;
  page_count := FaultyFile.faulty_page_count
|}.

(** A world of two devices. *)
Definition on_fst {S T A} (m : io S A) : io (S * T) A := λ w,
  let '(r, s) := m w.1 in (r, (s, w.2)).
Definition on_snd {S T A} (m : io T A) : io (S * T) A := λ w,
  let '(r, t) := m w.2 in (r, (w.1, t)).

#[export] Instance pair_disk {D W} `{Disk D} : Disk (D * W) := {|
  read_page := λ id, on_fst (read_page id);
  write_page := λ id l, on_fst (write_page id l);
  disk_sync := on_fst disk_sync;
  page_count := on_fst page_count
|}.

#[export] Instance pair_wal {D W} `{WalIo W} : WalIo (D * W) := {|
  wal_len := on_snd wal_len;
  wal_read_all := on_snd wal_read_all;
  wal_append := λ l, on_snd (wal_append l);
  wal_sync := on_snd wal_sync;
  wal_truncate := λ n, on_snd (wal_truncate n)
|}.
