(* ===== verification/StorageWal.v ===== *)
(** * The write-ahead log: [crates/aster-storage/src/wal.rs]

    A log is a sequence of length-delimited, checksummed frames.  An apply group
    is a BEGIN frame, one PAGE_IMAGE frame per page and a COMMIT frame that
    binds the group by its SHA-256 digest; a CHECKPOINT frame stands alone. *)

From S2P Require Import Prelude StorageBytes StoragePage StorageIo.

Definition FRAME_MAGIC : bytes := [65; 83; 87; 76].
Definition WAL_VERSION : Z := 1.
Definition FRAME_FIXED : Z := 40.
Definition MAX_FRAME : Z := PAGE_SIZE + 256.

Inductive FrameKind : Type := BeginApply | PageImage | CommitApply | FCheckpoint.

(** [kind as u8] *)
Definition FrameKind_tag (k : FrameKind) : Z :=
  match k with BeginApply => 1 | PageImage => 2 | CommitApply => 3 | FCheckpoint => 4 end.

Definition FrameKind_try_from (value : Z) : result string FrameKind :=
  match value with
  | 1 => Ok BeginApply
  | 2 => Ok PageImage
  | 3 => Ok CommitApply
  | 4 => Ok FCheckpoint
  | _ => Err ("unknown WAL frame kind " +:+ pretty value)
  end.

Record Frame : Type := mkFrame {
  fr_kind : FrameKind;
  fr_lsn : Z;
  fr_apply_index : Z;
  fr_payload : bytes;
  fr_end : Z
}.

Record CommittedApply : Type := mkCommitted {
  ca_apply_index : Z;
  ca_state_hash : bytes;
  ca_next_page_id : Z;
  ca_root_directory : option Z;
  ca_pages : list Page;
  ca_begin_lsn : Z;
  ca_commit_lsn : Z;
  ca_end_lsn : Z;
  ca_digest : bytes
}.

#[export] Instance CommittedApply_eq_dec : EqDecision CommittedApply.
Proof. solve_decision. Defined.

Record Checkpoint : Type := mkCheckpoint {
  cp_frame_lsn : Z;
  cp_through_lsn : Z;
  cp_applied_index : Z;
  cp_state_hash : bytes;
  cp_end_lsn : Z
}.

#[export] Instance Checkpoint_eq_dec : EqDecision Checkpoint.
Proof. solve_decision. Defined.

Record WalScan : Type := mkScan {
  groups : list CommittedApply;
  checkpoints : list Checkpoint;
  safe_append_offset : Z;
  torn_tail_at : option Z
}.

#[export] Instance WalScan_eq_dec : EqDecision WalScan.
Proof. solve_decision. Defined.

(** ** Frames *)

Definition encode_frame (kind : FrameKind) (lsn apply_index : Z) (payload : bytes) : sresult bytes :=
  total_len ← ok_or (checked_add FRAME_FIXED (zlen payload)) (CorruptWal lsn "frame length overflow");
  _ ← ensure (total_len <=? MAX_FRAME)
        (CorruptWal lsn ("frame length " +:+ pretty total_len +:+ " exceeds limit " +:+ pretty MAX_FRAME));
  total_u32 ← ok_or (u32_try_from total_len) (CorruptWal lsn "frame length exceeds u32");
  payload_u32 ← ok_or (u32_try_from (zlen payload)) (CorruptWal lsn "frame payload exceeds u32");
  let body := FRAME_MAGIC ++ to_le_bytes 2 WAL_VERSION ++ [FrameKind_tag kind] ++ [0]
              ++ to_le_bytes 8 lsn ++ to_le_bytes 8 apply_index
              ++ to_le_bytes 4 payload_u32 ++ payload in
  let checksum := crc32 body in
  Ok (to_le_bytes 4 total_u32 ++ body ++ to_le_bytes 4 checksum ++ to_le_bytes 4 total_u32).

(** One turn of the loop of [decode_frames]: the tail at [offset] is torn, or a
    complete frame. *)
Inductive FrameStep : Type :=
| Torn
| Got (frame : Frame) (next : Z).

Definition le_at (l : bytes) (off n : Z) : Z := from_le_bytes (bytes_get l off n).

(** The checks on a complete frame [bytes[offset..end]] of a log of [total]
    bytes; a checksum mismatch in the last frame is a torn tail. *)
Definition check_frame (total offset length stop : Z) (frame : bytes) : sresult FrameStep :=
  _ ← ensure (bool_decide (bytes_get frame 4 4 = FRAME_MAGIC)) (CorruptWal offset "bad frame magic");
  let version := le_at frame 8 2 in
  _ ← ensure (version =? WAL_VERSION)
        (CorruptWal offset ("unsupported WAL version " +:+ pretty version));
  _ ← ensure (le_at frame 11 1 =? 0) (CorruptWal offset "nonzero reserved frame flags");
  kind ← map_err (CorruptWal offset) (FrameKind_try_from (le_at frame 10 1));
  let lsn := le_at frame 12 8 in
  _ ← ensure (lsn =? offset)
        (CorruptWal offset ("frame encodes LSN " +:+ pretty lsn +:+ ", expected " +:+ pretty offset));
  let apply_index := le_at frame 20 8 in
  let payload_len := le_at frame 28 4 in
  _ ← ensure (bool_decide (checked_add payload_len FRAME_FIXED = Some length))
        (CorruptWal offset "payload length disagrees with frame");
  let checksum_at := 32 + payload_len in
  let expected := le_at frame checksum_at 4 in
  let actual := crc32 (bytes_get frame 4 (checksum_at - 4)) in
  let footer := le_at frame (checksum_at + 4) 4 in
  if negb (expected =? actual) || negb (footer =? default u32_max (u32_try_from length)) then
    if stop =? total then Ok Torn
    else Err (CorruptWal offset "checksum or trailing-length mismatch")
  else
  Ok (Got (mkFrame kind lsn apply_index (bytes_get frame 32 payload_len) stop) stop).

Definition decode_frame_at (l : bytes) (offset : Z) : sresult FrameStep :=
  if zlen l - offset <? 4 then Ok Torn else
  let length := le_at l offset 4 in
  if negb ((FRAME_FIXED <=? length) && (length <=? MAX_FRAME)) then
    if offset + 4 =? zlen l then Ok Torn
    else Err (CorruptWal offset ("invalid frame length " +:+ pretty length))
  else
  stop ← ok_or (checked_add offset length) (CorruptWal offset "frame length overflow");
  if zlen l <? stop then Ok Torn else
  check_frame (zlen l) offset length stop (bytes_get l offset length).

(** The loop itself; every turn that goes on moves [offset] by at least
    [FRAME_FIXED], so one turn per byte is more than enough. *)
Fixpoint decode_loop (fuel : nat) (l : bytes) (frames : list Frame) (offset : Z)
  : option (sresult (list Frame * option Z)) :=
  match fuel with
  | O => None
  | S fuel =>
      if offset <? zlen l then
        match decode_frame_at l offset with
        | Err e => Some (Err e)
        | Ok Torn => Some (Ok (frames, Some offset))
        | Ok (Got frame next) => decode_loop fuel l (frames ++ [frame]) next
        end
      else Some (Ok (frames, None))
  end.

Definition decode_frames (l : bytes) : sresult (list Frame * option Z) :=
  default (Ok ([], None)) (decode_loop (S (length l)) l [] 0).

(** ** Groups *)

Record PendingApply : Type := mkPendingApply {
  pa_index : Z;
  pa_state_hash : bytes;
  pa_next_page_id : Z;
  pa_root_directory : option Z;
  pa_begin_lsn : Z;
  pa_pages : list Page;
  pa_material : bytes
}.

(** [u64::MAX] stands for no root. *)
Definition root_to_u64 (root : option Z) : Z := match root with Some r => r | None => u64_max end.
Definition root_of_u64 (root : Z) : option Z := if root =? u64_max then None else Some root.

(** [sort_by_key(Page::id)], a stable sort. *)
Definition page_le (p q : Page) : Prop := page_id p ≤ page_id q.
#[export] Instance page_le_dec p q : Decision (page_le p q).
Proof. unfold page_le. apply _. Defined.

Definition sort_pages (pages : list Page) : list Page := merge_sort page_le pages.

Section Wal.
Context `{Sha256}.

(** What a turn of the loop of [scan_bytes] does: go on, or [break]. *)
Inductive ScanStep : Type :=
| Continue (scan : WalScan) (pending : option PendingApply)
| Break (scan : WalScan).

Definition scan_begin (scan : WalScan) (pending : option PendingApply) (frame : Frame)
  : sresult ScanStep :=
  _ ← ensure (zlen (fr_payload frame) =? 48)
        (CorruptWal (fr_lsn frame) "BEGIN payload must be 48 bytes");
  match pending with
  | Some _ => Ok (Break scan)
  | None =>
      let state_hash := bytes_get (fr_payload frame) 0 32 in
      let next_page_id := le_at (fr_payload frame) 32 8 in
      let root_directory := root_of_u64 (le_at (fr_payload frame) 40 8) in
      _ ← ensure (negb ((next_page_id <? 2)
                        || match root_directory with Some r => next_page_id <=? r | None => false end))
            (CorruptWal (fr_lsn frame) "invalid BEGIN allocator/root metadata");
      Ok (Continue scan (Some {|
        pa_index := fr_apply_index frame;
        pa_state_hash := state_hash;
        pa_next_page_id := next_page_id;
        pa_root_directory := root_directory;
        pa_begin_lsn := fr_lsn frame;
        pa_pages := [];
        pa_material := to_le_bytes 8 (fr_apply_index frame) ++ fr_payload frame |}))
  end.

Definition scan_page_image (scan : WalScan) (pending : option PendingApply) (frame : Frame)
  : sresult ScanStep :=
  group ← ok_or pending (CorruptWal (fr_lsn frame) "PAGE_IMAGE outside apply group");
  _ ← ensure ((pa_index group =? fr_apply_index frame) && (zlen (fr_payload frame) =? 8 + PAGE_SIZE))
        (CorruptWal (fr_lsn frame) "invalid PAGE_IMAGE group or length");
  let id := le_at (fr_payload frame) 0 8 in
  _ ← ensure (id <? pa_next_page_id group)
        (CorruptWal (fr_lsn frame) "PAGE_IMAGE exceeds group allocator high-water mark");
  page ← page_decode (zdrop 8 (fr_payload frame));
  _ ← ensure ((page_id page =? id) && (page_lsn page =? fr_lsn frame))
        (CorruptWal (fr_lsn frame) "PAGE_IMAGE id or page LSN mismatch");
  _ ← ensure (negb (existsb (λ existing, page_id existing =? id) (pa_pages group)))
        (CorruptWal (fr_lsn frame) "duplicate PAGE_IMAGE");
  Ok (Continue scan (Some {|
    pa_index := pa_index group;
    pa_state_hash := pa_state_hash group;
    pa_next_page_id := pa_next_page_id group;
    pa_root_directory := pa_root_directory group;
    pa_begin_lsn := pa_begin_lsn group;
    pa_pages := pa_pages group ++ [page];
    pa_material := pa_material group ++ fr_payload frame |})).

Definition scan_commit (scan : WalScan) (pending : option PendingApply) (frame : Frame)
  : sresult ScanStep :=
  group ← ok_or pending (CorruptWal (fr_lsn frame) "COMMIT outside apply group");
  _ ← ensure ((pa_index group =? fr_apply_index frame) && (zlen (fr_payload frame) =? 36))
        (CorruptWal (fr_lsn frame) "invalid COMMIT group or length");
  let count := le_at (fr_payload frame) 0 4 in
  let digest := bytes_get (fr_payload frame) 4 32 in
  _ ← ensure ((count =? zlen (pa_pages group)) && bool_decide (digest = sha256 (pa_material group)))
        (CorruptWal (fr_lsn frame) "COMMIT count or digest mismatch");
  _ ← ensure (match last (groups scan) with
              | Some last => negb (pa_index group <=? ca_apply_index last)
              | None => true
              end)
        (CorruptWal (fr_lsn frame) "non-monotonic apply index");
  Ok (Continue {|
    groups := groups scan ++ [{|
      ca_apply_index := pa_index group;
      ca_state_hash := pa_state_hash group;
      ca_next_page_id := pa_next_page_id group;
      ca_root_directory := pa_root_directory group;
      ca_pages := pa_pages group;
      ca_begin_lsn := pa_begin_lsn group;
      ca_commit_lsn := fr_lsn frame;
      ca_end_lsn := fr_end frame;
      ca_digest := digest |}];
    checkpoints := checkpoints scan;
    safe_append_offset := fr_end frame;
    torn_tail_at := torn_tail_at scan |} None).

Definition scan_checkpoint (scan : WalScan) (pending : option PendingApply) (frame : Frame)
  : sresult ScanStep :=
  match pending with
  | Some _ => Ok (Break scan)
  | None =>
      _ ← ensure (zlen (fr_payload frame) =? 48)
            (CorruptWal (fr_lsn frame) "checkpoint payload must be 48 bytes");
      Ok (Continue {|
        groups := groups scan;
        checkpoints := checkpoints scan ++ [{|
          cp_frame_lsn := fr_lsn frame;
          cp_through_lsn := le_at (fr_payload frame) 0 8;
          cp_applied_index := le_at (fr_payload frame) 8 8;
          cp_state_hash := bytes_get (fr_payload frame) 16 32;
          cp_end_lsn := fr_end frame |}];
        safe_append_offset := fr_end frame;
        torn_tail_at := torn_tail_at scan |} None)
  end.

Definition scan_frame (scan : WalScan) (pending : option PendingApply) (frame : Frame)
  : sresult ScanStep :=
  match fr_kind frame with
  | BeginApply => scan_begin scan pending frame
  | PageImage => scan_page_image scan pending frame
  | CommitApply => scan_commit scan pending frame
  | FCheckpoint => scan_checkpoint scan pending frame
  end.

Fixpoint scan_frames (scan : WalScan) (pending : option PendingApply) (frames : list Frame)
  : sresult WalScan :=
  match frames with
  | [] => Ok scan
  | frame :: frames =>
      step ← scan_frame scan pending frame;
      match step with
      | Break scan => Ok scan
      | Continue scan pending => scan_frames scan pending frames
      end
  end.

Definition scan_bytes (l : bytes) : sresult WalScan :=
  '(frames, torn) ← decode_frames l;
  scan_frames (mkScan [] [] 0 torn) None frames.

(** ** The log, [WriteAheadLog]

    The handle keeps the durable end; the device is part of the world. *)

Context {S : Type} `{!WalIo S}.

(** Scan the log and cut what follows the last complete group. *)
Definition scan_and_truncate : io S WalScan :=
  l ← wal_read_all;
  scan ← io_lift (scan_bytes l);
  len ← wal_len;
  _ ← (if negb (len =? safe_append_offset scan) then wal_truncate (safe_append_offset scan) else mret tt);
  mret scan.

(** [open]: the new handle's durable end. *)
Definition wal_open : io S Z :=
  scan ← scan_and_truncate;
  mret (safe_append_offset scan).

Definition wal_scan : io S WalScan := l ← wal_read_all; io_lift (scan_bytes l).

Definition begin_payload (state_hash : bytes) (next_page_id : Z) (root_directory : option Z) : bytes :=
  state_hash ++ to_le_bytes 8 next_page_id ++ to_le_bytes 8 (root_to_u64 root_directory).

Definition image_payload (page : Page) : bytes := to_le_bytes 8 (page_id page) ++ page_bytes page.

(** [for page in &pages { page.validate()?; if !ids.insert(..) .. }] *)
Fixpoint check_pages (ids : gset Z) (pages : list Page) : sresult unit :=
  match pages with
  | [] => Ok tt
  | page :: pages =>
      _ ← page_validate page;
      _ ← ensure (negb (bool_decide (page_id page ∈ ids)))
            (SInvariant ("duplicate page " +:+ pretty (page_id page) +:+ " in WAL group"));
      check_pages ({[page_id page]} ∪ ids) pages
  end.

(** The loop that stamps, digests and appends the page images. *)
Fixpoint append_images (apply_index offset : Z) (material : bytes) (durable : list Page)
    (pages : list Page) : io S (Z * bytes * list Page) :=
  match pages with
  | [] => mret (offset, material, durable)
  | page :: pages =>
      let page_lsn := offset in
      let page := seal (set_page_epoch (set_lsn page page_lsn) apply_index) in
      let payload := image_payload page in
      frame ← io_lift (encode_frame PageImage page_lsn apply_index payload);
      _ ← wal_append frame;
      append_images apply_index (offset + zlen frame)%u64 (material ++ payload) (durable ++ [page]) pages
  end.

(** The result and, on success, the new durable end of the handle. *)
Definition append_apply_with_metadata (apply_index : Z) (state_hash : bytes) (next_page_id : Z)
    (root_directory : option Z) (pages : list Page) : io S (CommittedApply * option Z) :=
  scan ← scan_and_truncate;
  match find (λ group, ca_apply_index group =? apply_index) (groups scan) with
  | Some existing =>
      if bool_decide (ca_state_hash existing = state_hash) then mret (existing, None)
      else io_err (SInvariant ("Raft apply index " +:+ pretty apply_index
                    +:+ " already committed with a different state hash"))
  | None =>
      _ ← io_ensure (match last (groups scan) with
                     | Some last => negb (apply_index <=? ca_apply_index last)
                     | None => true
                     end)
            (SInvariant ("apply index " +:+ pretty apply_index +:+ " does not advance committed index "
               +:+ pretty (match last (groups scan) with Some last => ca_apply_index last | None => 0 end)));
      let pages := sort_pages pages in
      _ ← io_ensure (negb ((next_page_id <? 2)
                           || existsb (λ page, next_page_id <=? page_id page) pages
                           || match root_directory with Some r => next_page_id <=? r | None => false end))
            (SInvariant "WAL group has invalid allocator/root metadata");
      _ ← io_lift (check_pages ∅ pages);
      begin_lsn ← wal_len;
      let payload := begin_payload state_hash next_page_id root_directory in
      begin ← io_lift (encode_frame BeginApply begin_lsn apply_index payload);
      _ ← wal_append begin;
      '(commit_lsn, material, durable_pages) ←
         append_images apply_index (begin_lsn + zlen begin)%u64 (to_le_bytes 8 apply_index ++ payload) [] pages;
      let digest := sha256 material in
      page_count ← io_lift (ok_or (u32_try_from (zlen durable_pages))
                              (CorruptWal commit_lsn "apply group page count exceeds u32"));
      commit ← io_lift (encode_frame CommitApply commit_lsn apply_index (to_le_bytes 4 page_count ++ digest));
      _ ← wal_append commit;
      let end_lsn := (commit_lsn + zlen commit)%u64 in
      _ ← wal_sync;
      mret ({| ca_apply_index := apply_index;
               ca_state_hash := state_hash;
               ca_next_page_id := next_page_id;
               ca_root_directory := root_directory;
               ca_pages := durable_pages;
               ca_begin_lsn := begin_lsn;
               ca_commit_lsn := commit_lsn;
               ca_end_lsn := end_lsn;
               ca_digest := digest |}, Some end_lsn)
  end.

Definition append_apply (apply_index : Z) (state_hash : bytes) (pages : list Page)
  : io S (CommittedApply * option Z) :=
  let highest := match page_id <$> pages with [] => 1 | id :: ids => foldl Z.max id ids end in
  next ← io_lift (ok_or (checked_add highest 1) (SInvariant "page identifier space exhausted"));
  append_apply_with_metadata apply_index state_hash (Z.max next 2) None pages.

Definition append_checkpoint (through_lsn applied_index : Z) (state_hash : bytes)
  : io S (Checkpoint * Z) :=
  scan ← scan_and_truncate;
  _ ← io_ensure (through_lsn <=? safe_append_offset scan)
        (SInvariant ("checkpoint LSN " +:+ pretty through_lsn +:+ " exceeds WAL end "
           +:+ pretty (safe_append_offset scan)));
  _ ← io_ensure (match last (groups scan) with
                 | Some group => (applied_index =? ca_apply_index group)
                                 && bool_decide (state_hash = ca_state_hash group)
                 | None => true
                 end)
        (SInvariant "checkpoint applied index/hash does not match WAL prefix");
  frame_lsn ← wal_len;
  let payload := to_le_bytes 8 through_lsn ++ to_le_bytes 8 applied_index ++ state_hash in
  frame ← io_lift (encode_frame FCheckpoint frame_lsn applied_index payload);
  _ ← wal_append frame;
  let end_lsn := (frame_lsn + zlen frame)%u64 in
  _ ← wal_sync;
  mret (mkCheckpoint frame_lsn through_lsn applied_index state_hash end_lsn, end_lsn).

(** [flush_through]: the durable end after the call, also when the requested
    LSN lies beyond the log. *)
Definition flush_through (durable_end lsn : Z) : io S (sresult unit * Z) :=
  if lsn <=? durable_end then mret (Ok tt, durable_end) else
  _ ← wal_sync;
  len ← wal_len;
  mret (if len <? lsn
        then Err (SInvariant ("requested WAL LSN " +:+ pretty lsn +:+ " beyond end"))
        else Ok tt, len).
End Wal.
