(* ===== verification/StorageFrames.v ===== *)
(** * Log frames: decoding, extension, truncation

    [decode_frames] walks the log frame by frame; [seg] is that walk as a
    relation.  A frame decodes the same in every log that holds its bytes at its
    offset, so the walk is stable under appending and under cutting at a frame
    boundary; the bytes [encode_frame] makes decode to the frame; a proper
    prefix of them is a torn tail. *)

From S2P Require Import Prelude StorageBytes StoragePage StorageIo StorageWal.

(** ** One frame *)

Lemma bytes_get_sub l off n o k :
  0 ≤ off → 0 ≤ o → 0 ≤ k → o + k ≤ n → off + n ≤ zlen l →
  bytes_get (bytes_get l off n) o k = bytes_get l (off + o) k.
Proof.
  intros. assert (zlen (bytes_get l off n) = n) by (apply zlen_bytes_get; lia).
  apply znth_ext; [rewrite !zlen_bytes_get by lia; done|].
  intros i. rewrite zlen_bytes_get by lia. intros. rewrite !znth_bytes_get by lia. f_equal. lia.
Qed.

Lemma bytes_get_0 l n : bytes_get l 0 n = ztake n l.
Proof. done. Qed.

Lemma le_at_sub l off n o k :
  0 ≤ off → 0 ≤ o → 0 ≤ k → o + k ≤ n → off + n ≤ zlen l →
  le_at (bytes_get l off n) o k = le_at l (off + o) k.
Proof. intros. unfold le_at. by rewrite bytes_get_sub. Qed.

(** A complete frame is complete whatever the length of the log. *)
Lemma check_frame_Got total total' off len stop w f n :
  check_frame total off len stop w = Ok (Got f n) →
  check_frame total' off len stop w = Ok (Got f n)
  ∧ n = stop ∧ fr_end f = stop ∧ fr_lsn f = off.
Proof.
  unfold check_frame.
  repeat match goal with |- (?r ≫= _) = _ → _ => destruct r eqn:?; cbn [mbind result_bind]; [|done] end.
  destruct (_ || _); [by destruct (stop =? total)|]. intros [= <- <-]. split_and!; try done.
  cbn. match goal with HH : ensure (le_at w 12 8 =? off) _ = _ |- _ => apply ensure_Ok in HH end.
  by bool_prop.
Qed.

(** Reading a frame looks at its own bytes only. *)
Lemma decode_frame_at_ext l l' off f n :
  0 ≤ off → decode_frame_at l off = Ok (Got f n) → n ≤ zlen l' →
  bytes_get l' off (n - off) = bytes_get l off (n - off) →
  decode_frame_at l' off = Ok (Got f n).
Proof.
  intros Hoff H Hn Hw. unfold decode_frame_at in H.
  destruct (Z.ltb_spec (zlen l - off) 4); [done|].
  destruct (_ && _) eqn:Hlen; cbn [negb] in H; [|by destruct (off + 4 =? zlen l)].
  apply result_bind_Ok in H as (stop & Hs & H). rewrite ok_or_Ok in Hs.
  apply checked_add_Some in Hs as [-> Hs].
  destruct (Z.ltb_spec (zlen l) (off + le_at l off 4)); [done|].
  destruct (check_frame_Got _ (zlen l') _ _ _ _ _ _ H) as (H' & -> & _ & _).
  bool_prop. unfold FRAME_FIXED in *. set (len := le_at l off 4) in *.
  replace (off + len - off) with len in Hw by lia.
  assert (le_at l' off 4 = len) as Hl.
  { unfold len. rewrite <- (Z.add_0_r off).
    rewrite <- (le_at_sub l off len 0 4), <- (le_at_sub l' off len 0 4) by lia. by rewrite Hw. }
  unfold decode_frame_at. rewrite Hl. destruct (Z.ltb_spec (zlen l' - off) 4); [lia|].
  replace ((FRAME_FIXED <=? len) && (len <=? MAX_FRAME)) with true
    by (symmetry; apply andb_true_intro; split; apply Z.leb_le; unfold FRAME_FIXED; lia).
  cbn [negb]. replace (checked_add off len) with (Some (off + len)) by (symmetry; by apply checked_add_Some).
  cbn [mbind result_bind ok_or]. destruct (Z.ltb_spec (zlen l') (off + len)); [lia|]. by rewrite Hw.
Qed.

Lemma decode_frame_at_Got l off f n :
  0 ≤ off → decode_frame_at l off = Ok (Got f n) →
  off + FRAME_FIXED ≤ n ≤ zlen l ∧ n ≤ u64_max ∧ fr_end f = n ∧ fr_lsn f = off.
Proof.
  intros Hoff H. unfold decode_frame_at in H.
  destruct (Z.ltb_spec (zlen l - off) 4); [done|].
  destruct (_ && _) eqn:Hlen; cbn [negb] in H; [|by destruct (off + 4 =? zlen l)].
  apply result_bind_Ok in H as (stop & Hs & H). rewrite ok_or_Ok in Hs.
  apply checked_add_Some in Hs as [-> Hs].
  destruct (Z.ltb_spec (zlen l) (off + le_at l off 4)); [done|].
  destruct (check_frame_Got _ 0 _ _ _ _ _ _ H) as (_ & -> & -> & ->). bool_prop. lia.
Qed.

(** ** The walk over the log *)

Inductive seg (l : bytes) : Z → list Frame → Z → Prop :=
| seg_nil off : 0 ≤ off ≤ zlen l → seg l off [] off
| seg_cons off f n fs stop :
    0 ≤ off → decode_frame_at l off = Ok (Got f n) → seg l n fs stop → seg l off (f :: fs) stop.

Lemma seg_bounds l off fs stop : seg l off fs stop → 0 ≤ off ≤ stop ∧ stop ≤ zlen l.
Proof.
  induction 1 as [|off f n fs stop Hoff Hf _ IH]; [lia|].
  pose proof (decode_frame_at_Got _ _ _ _ Hoff Hf). unfold FRAME_FIXED in *. lia.
Qed.

Lemma seg_app l off fs mid gs stop : seg l off fs mid → seg l mid gs stop → seg l off (fs ++ gs) stop.
Proof. induction 1; cbn; intros; [done|]. econstructor; eauto. Qed.

Lemma seg_snoc l off fs mid f n :
  seg l off fs mid → decode_frame_at l mid = Ok (Got f n) → seg l off (fs ++ [f]) n.
Proof.
  intros Hs Hf. eapply seg_app; [done|]. pose proof (seg_bounds _ _ _ _ Hs).
  pose proof (decode_frame_at_Got l mid f n ltac:(lia) Hf). unfold FRAME_FIXED in *.
  econstructor; [lia|done|]. constructor. lia.
Qed.

(** The walk is the same in every log with the same bytes up to its end. *)
Lemma seg_ext l l' off fs stop :
  seg l off fs stop → stop ≤ zlen l' →
  bytes_get l' off (stop - off) = bytes_get l off (stop - off) → seg l' off fs stop.
Proof.
  induction 1 as [off Hoff|off f n fs stop Hoff Hf Hs IH]; intros Hlen Hw; [constructor; lia|].
  pose proof (decode_frame_at_Got _ _ _ _ Hoff Hf) as (Hn & _). unfold FRAME_FIXED in *.
  pose proof (seg_bounds _ _ _ _ Hs). econstructor; [done| |apply IH; [done|]].
  - eapply decode_frame_at_ext; [done|done|lia|].
    pose proof (bytes_get_sub l off (stop - off) 0 (n - off)) as E.
    pose proof (bytes_get_sub l' off (stop - off) 0 (n - off)) as E'.
    rewrite Z.add_0_r in E, E'. rewrite <- E, <- E', Hw by lia. done.
  - pose proof (bytes_get_sub l off (stop - off) (n - off) (stop - n)) as E.
    pose proof (bytes_get_sub l' off (stop - off) (n - off) (stop - n)) as E'.
    replace (off + (n - off)) with n in E, E' by lia.
    rewrite <- E, <- E', Hw by lia. done.
Qed.

Lemma seg_extend l x off fs stop : seg l off fs stop → seg (l ++ x) off fs stop.
Proof.
  intros Hs. pose proof (seg_bounds _ _ _ _ Hs). pose proof (zlen_nonneg x).
  eapply seg_ext; [done|rewrite zlen_app; lia|].
  apply znth_ext; [rewrite !zlen_bytes_get by (rewrite ?zlen_app; lia); done|].
  intros i. rewrite zlen_bytes_get by (rewrite ?zlen_app; lia). intros.
  rewrite !znth_bytes_get by lia. apply znth_app_l. lia.
Qed.

Lemma seg_truncate l n off fs stop : seg l off fs stop → stop ≤ n → seg (ztake n l) off fs stop.
Proof.
  intros Hs Hn. pose proof (seg_bounds _ _ _ _ Hs).
  assert (stop ≤ zlen (ztake n l)) by (rewrite zlen_ztake; lia).
  eapply seg_ext; [done|done|].
  apply znth_ext; [rewrite !zlen_bytes_get by lia; done|].
  intros i. rewrite zlen_bytes_get by lia. intros.
  rewrite !znth_bytes_get by lia. apply znth_ztake. lia.
Qed.

(** ** [decode_frames] is the walk *)

(** How a walk that reached [off] ends. *)
Definition ends (l : bytes) (off : Z) (r : sresult (option Z)) : Prop :=
  if off <? zlen l then
    match decode_frame_at l off with
    | Ok Torn => r = Ok (Some off)
    | Ok (Got _ _) => False
    | Err e => r = Err e
    end
  else r = Ok None.

Lemma decode_loop_seg fuel l acc off :
  0 ≤ off ≤ zlen l → zlen l - off < Z.of_nat fuel →
  ∃ fs stop r, seg l off fs stop ∧ ends l stop r
    ∧ decode_loop fuel l acc off = Some ((λ t, (acc ++ fs, t)) <$> r).
Proof.
  revert acc off. induction fuel as [|fuel IH]; intros acc off Hoff Hf; [lia|]. cbn [decode_loop].
  destruct (Z.ltb_spec off (zlen l)) as [Hlt|Hge].
  - destruct (decode_frame_at l off) as [[|f n]|e] eqn:Hd.
    + exists [], off, (Ok (Some off)). rewrite app_nil_r. split_and!; [by constructor| |done].
      unfold ends. rewrite (proj2 (Z.ltb_lt _ _) Hlt), Hd. done.
    + pose proof (decode_frame_at_Got l off f n ltac:(lia) Hd) as (Hn & _). unfold FRAME_FIXED in *.
      destruct (IH (acc ++ [f]) n) as (fs & stop & r & Hs & He & Hr); [lia..|].
      exists (f :: fs), stop, r. split_and!; [econstructor; eauto; lia|done|].
      rewrite Hr, <- app_assoc. done.
    + exists [], off, (Err e). split_and!; [by constructor| |done].
      unfold ends. rewrite (proj2 (Z.ltb_lt _ _) Hlt), Hd. done.
  - exists [], off, (Ok None). rewrite app_nil_r. split_and!; [by constructor| |done].
    unfold ends. by rewrite (proj2 (Z.ltb_ge _ _) Hge).
Qed.

Lemma decode_frames_seg l :
  ∃ fs stop r, seg l 0 fs stop ∧ ends l stop r ∧ decode_frames l = (λ t, (fs, t)) <$> r.
Proof.
  pose proof (zlen_nonneg l).
  destruct (decode_loop_seg (S (length l)) l [] 0) as (fs & stop & r & Hs & He & Hr); [lia|unfold zlen; lia|].
  exists fs, stop, r. split_and!; [done..|]. unfold decode_frames. by rewrite Hr.
Qed.

(** The walk is deterministic. *)
Lemma seg_det l off fs stop gs stop' r r' :
  seg l off fs stop → ends l stop r → seg l off gs stop' → ends l stop' r' →
  fs = gs ∧ stop = stop' ∧ r = r'.
Proof.
  intros Hs He. revert gs stop' r'. induction Hs as [off Hoff|off f n fs stop Hoff Hf Hs IH]; intros gs stop' r' Hg He'.
  - inversion Hg as [|? f' n' fs' ? ? Hf']; subst.
    + unfold ends in *. split_and!; [done..|]. repeat case_match; naive_solver.
    + pose proof (decode_frame_at_Got l off f' n' ltac:(lia) Hf') as (Hn & _). unfold FRAME_FIXED in *.
      unfold ends in He. rewrite Hf' in He. destruct (Z.ltb_spec off (zlen l)); [done|lia].
  - inversion Hg as [|? f' n' fs' ? ? Hf' Hg']; subst.
    + pose proof (decode_frame_at_Got _ _ f n Hoff Hf) as (Hn & _). unfold FRAME_FIXED in *.
      unfold ends in He'. rewrite Hf in He'. destruct (Z.ltb_spec stop' (zlen l)); [done|lia].
    + rewrite Hf in Hf'. injection Hf' as <- <-. destruct (IH He _ _ _ Hg' He') as (-> & -> & ->). done.
Qed.

Lemma decode_frames_eq l fs stop r :
  seg l 0 fs stop → ends l stop r → decode_frames l = (λ t, (fs, t)) <$> r.
Proof.
  intros Hs He. destruct (decode_frames_seg l) as (fs' & stop' & r' & Hs' & He' & ->).
  by destruct (seg_det _ _ _ _ _ _ _ _ Hs He Hs' He') as (-> & -> & ->).
Qed.

(** [decode_frames] terminates on every byte string, valid or not: one turn
    per byte is enough fuel and more changes nothing, since every accepted frame
    moves the offset forward.  What it returns is the maximal run of frames from
    the start of the log, with the way that run ends. *)
Theorem decode_frames_terminates l fuel :
  (length l < fuel)%nat →
  decode_loop fuel l [] 0 = Some (decode_frames l)
  ∧ ∃ fs stop r, seg l 0 fs stop ∧ ends l stop r ∧ decode_frames l = (λ t, (fs, t)) <$> r.
Proof.
  intros Hf. pose proof (zlen_nonneg l).
  destruct (decode_loop_seg fuel l [] 0) as (fs & stop & r & Hs & He & Hr); [lia|unfold zlen in *; lia|].
  destruct (decode_frames_seg l) as (fs' & stop' & r' & Hs' & He' & Hd).
  destruct (seg_det _ _ _ _ _ _ _ _ Hs He Hs' He') as (<- & <- & <-).
  split; [by rewrite Hr, Hd|]. by exists fs, stop, r.
Qed.

(** ** Encoding

    A record laid out as consecutive chunks: reading a window that is a chunk. *)

Definition chunks_len (cs : list bytes) : Z := foldr Z.add 0 (zlen <$> cs).

Lemma zlen_concat cs : zlen (concat cs) = chunks_len cs.
Proof. induction cs; cbn; [done|]. by rewrite zlen_app, IHcs. Qed.

Lemma bytes_get_app_mid a b c off n : zlen a = off → zlen b = n → bytes_get (a ++ b ++ c) off n = b.
Proof.
  intros <- <-. pose proof (zlen_nonneg a). pose proof (zlen_nonneg b). pose proof (zlen_nonneg c).
  apply znth_ext; [rewrite zlen_bytes_get by (rewrite ?zlen_app; lia); done|].
  intros i. rewrite zlen_bytes_get by (rewrite ?zlen_app; lia). intros.
  rewrite znth_bytes_get, znth_app_r, znth_app_l by lia. f_equal. lia.
Qed.

Lemma chunk_get cs i c off n :
  cs !! i = Some c → chunks_len (take i cs) = off → zlen c = n → bytes_get (concat cs) off n = c.
Proof.
  intros Hi Hoff Hn. rewrite <- (take_drop_middle cs i c Hi), concat_app. cbn [concat].
  apply bytes_get_app_mid; [by rewrite zlen_concat|done].
Qed.

(** A run of chunks. *)
Lemma chunks_get cs i k off n :
  chunks_len (take i cs) = off → chunks_len (take k (drop i cs)) = n →
  bytes_get (concat cs) off n = concat (take k (drop i cs)).
Proof.
  intros Hoff Hn. rewrite <- (take_drop i cs) at 1. rewrite <- (take_drop k (drop i cs)) at 1.
  rewrite !concat_app. by apply bytes_get_app_mid; rewrite zlen_concat.
Qed.

Section Encoding.
Context (kind : FrameKind) (lsn apply_index : Z) (payload : bytes).

Definition frame_chunks : list bytes :=
  [to_le_bytes 4 (FRAME_FIXED + zlen payload); FRAME_MAGIC; to_le_bytes 2 WAL_VERSION;
   [FrameKind_tag kind]; [0]; to_le_bytes 8 lsn; to_le_bytes 8 apply_index;
   to_le_bytes 4 (zlen payload); payload;
   to_le_bytes 4 (crc32 (concat [FRAME_MAGIC; to_le_bytes 2 WAL_VERSION; [FrameKind_tag kind]; [0];
     to_le_bytes 8 lsn; to_le_bytes 8 apply_index; to_le_bytes 4 (zlen payload); payload]));
   to_le_bytes 4 (FRAME_FIXED + zlen payload)].

Definition frame_bytes : bytes := concat frame_chunks.

Definition frame_at : Frame :=
  mkFrame kind lsn apply_index payload (lsn + FRAME_FIXED + zlen payload).

Lemma encode_frame_Ok :
  FRAME_FIXED + zlen payload ≤ MAX_FRAME → encode_frame kind lsn apply_index payload = Ok frame_bytes.
Proof.
  intros Hmax. pose proof (zlen_nonneg payload). unfold encode_frame.
  assert (FRAME_FIXED + zlen payload ≤ 4352) as Hm by exact Hmax.
  replace (checked_add FRAME_FIXED (zlen payload)) with (Some (FRAME_FIXED + zlen payload))
    by (symmetry; apply checked_add_Some; split; [done|unfold FRAME_FIXED in *; ulia]).
  cbn [ok_or mbind result_bind]. rewrite (proj2 (Z.leb_le _ _) Hmax). cbn [ensure mbind result_bind].
  replace (u32_try_from (FRAME_FIXED + zlen payload)) with (Some (FRAME_FIXED + zlen payload))
    by (unfold u32_try_from; destruct (Z.leb_spec (FRAME_FIXED + zlen payload) u32_max); [done|unfold FRAME_FIXED in *; ulia]).
  replace (u32_try_from (zlen payload)) with (Some (zlen payload))
    by (unfold u32_try_from; destruct (Z.leb_spec (zlen payload) u32_max); [done|unfold FRAME_FIXED in *; ulia]).
  cbn [ok_or mbind result_bind]. unfold frame_bytes, frame_chunks.
  cbn [concat]. rewrite !app_nil_r, <- !app_assoc. done.
Qed.

Lemma zlen_frame_bytes : zlen frame_bytes = FRAME_FIXED + zlen payload.
Proof.
  unfold frame_bytes. rewrite zlen_concat. unfold frame_chunks, chunks_len. cbn [fmap list_fmap foldr].
  rewrite !zlen_to_le_bytes. unfold zlen at 1 2 3; cbn [length FRAME_MAGIC]. unfold FRAME_FIXED. lia.
Qed.

Lemma frame_bytes_ok : Forall byte_ok payload → Forall byte_ok frame_bytes.
Proof.
  intros Hp. apply Forall_concat. unfold frame_chunks.
  rewrite !(@Forall_cons _ (Forall byte_ok)).
  split_and!; try apply to_le_bytes_ok; try done; try apply Forall_nil_2; apply Forall_cons; split; try apply Forall_nil_2;
  try (by destruct kind); unfold byte_ok; try lia.
  all: apply (bool_decide_unpack (Forall (λ b, 0 ≤ b < 256) _)); by vm_compute.
Qed.

Context (Hbytes : Forall byte_ok payload) (Hidx : u64_ok apply_index) (Hlsn : 0 ≤ lsn).
Context (Hend : lsn + FRAME_FIXED + zlen payload ≤ u64_max).
Context (Hmax : FRAME_FIXED + zlen payload ≤ MAX_FRAME).

Lemma from_to_le_small n z : 0 ≤ z < 256 ^ Z.of_nat n → from_le_bytes (to_le_bytes n z) = z.
Proof. intros. rewrite from_to_le_bytes. by apply Z.mod_small. Qed.

(** The fields of an encoded frame. *)
Ltac chunk i :=
  unfold le_at, frame_bytes; rewrite (chunk_get frame_chunks i _ _ _ eq_refl);
  [| unfold chunks_len, frame_chunks; cbn [take fmap list_fmap foldr]; rewrite ?zlen_to_le_bytes; done || (unfold zlen; cbn; lia)
   | try apply zlen_to_le_bytes; done ].

Lemma check_frame_bytes total :
  check_frame total lsn (FRAME_FIXED + zlen payload) (lsn + (FRAME_FIXED + zlen payload)) frame_bytes
  = Ok (Got frame_at (lsn + FRAME_FIXED + zlen payload)).
Proof.
  pose proof (zlen_nonneg payload). assert (zlen payload ≤ 4312) as Hp4 by (unfold FRAME_FIXED, MAX_FRAME, PAGE_SIZE in *; lia).
  unfold check_frame.
  assert (bytes_get frame_bytes 4 4 = FRAME_MAGIC) as -> by (chunk 1%nat; done).
  rewrite (bool_decide_eq_true_2 (FRAME_MAGIC = FRAME_MAGIC)) by done. cbn [ensure mbind result_bind].
  assert (le_at frame_bytes 8 2 = WAL_VERSION) as -> by (chunk 2%nat; done).
  cbn [ensure mbind result_bind Z.eqb Pos.eqb WAL_VERSION].
  assert (le_at frame_bytes 11 1 = 0) as -> by (chunk 4%nat; done).
  cbn [ensure mbind result_bind Z.eqb].
  assert (le_at frame_bytes 10 1 = FrameKind_tag kind) as -> by (chunk 3%nat; by destruct kind).
  assert (FrameKind_try_from (FrameKind_tag kind) = Ok kind) as -> by (by destruct kind).
  cbn [map_err mbind result_bind].
  assert (le_at frame_bytes 12 8 = lsn) as ->.
  { chunk 5%nat. apply from_to_le_small. change (256 ^ Z.of_nat 8) with (u64_max + 1). unfold FRAME_FIXED in *. lia. }
  rewrite Z.eqb_refl. cbn [ensure mbind result_bind].
  assert (le_at frame_bytes 28 4 = zlen payload) as ->.
  { chunk 7%nat. apply from_to_le_small. change (256 ^ Z.of_nat 4) with 4294967296. lia. }
  rewrite bool_decide_eq_true_2 by (apply checked_add_Some; unfold FRAME_FIXED; ulia).
  cbn [ensure mbind result_bind].
  set (sum := crc32 (concat [FRAME_MAGIC; to_le_bytes 2 WAL_VERSION; [FrameKind_tag kind]; [0];
     to_le_bytes 8 lsn; to_le_bytes 8 apply_index; to_le_bytes 4 (zlen payload); payload])).
  assert (u32_ok sum) as [Hs0 Hs1].
  { apply crc32_ok. pose proof (frame_bytes_ok Hbytes) as Hall. apply Forall_concat in Hall.
    apply Forall_concat. rewrite Forall_forall in Hall |- *. intros c Hc. apply Hall.
    unfold frame_chunks. set_solver. }
  assert (le_at frame_bytes (32 + zlen payload) 4 = sum) as ->.
  { chunk 9%nat. apply from_to_le_small. fold sum. change (256 ^ Z.of_nat 4) with (u32_max + 1). lia. }
  assert (crc32 (bytes_get frame_bytes 4 (32 + zlen payload - 4)) = sum) as ->.
  { unfold sum, frame_bytes. f_equal. rewrite (chunks_get frame_chunks 1 8); [done|done|].
    unfold chunks_len, frame_chunks. cbn [take drop fmap list_fmap foldr]. rewrite !zlen_to_le_bytes.
    unfold FRAME_MAGIC, zlen; cbn [length]. lia. }
  assert (le_at frame_bytes (32 + zlen payload + 4) 4 = FRAME_FIXED + zlen payload) as ->.
  { chunk 10%nat. apply from_to_le_small. change (256 ^ Z.of_nat 4) with 4294967296. unfold FRAME_FIXED. lia. }
  replace (u32_try_from (FRAME_FIXED + zlen payload)) with (Some (FRAME_FIXED + zlen payload))
    by (unfold u32_try_from; destruct (Z.leb_spec (FRAME_FIXED + zlen payload) u32_max); [done|unfold FRAME_FIXED in *; ulia]).
  cbn [default from_option]. rewrite !Z.eqb_refl. cbn [negb orb].
  assert (le_at frame_bytes 20 8 = apply_index) as ->.
  { chunk 6%nat. apply from_to_le_small. change (256 ^ Z.of_nat 8) with (u64_max + 1). ulia. }
  assert (bytes_get frame_bytes 32 (zlen payload) = payload) as -> by (chunk 8%nat; done).
  unfold frame_at. by rewrite Z.add_assoc.
Qed.

(** An encoded frame decodes where it was written. *)
Lemma decode_frame_bytes pre rest :
  zlen pre = lsn →
  decode_frame_at (pre ++ frame_bytes ++ rest) lsn = Ok (Got frame_at (lsn + FRAME_FIXED + zlen payload)).
Proof.
  intros Hpre. pose proof (zlen_nonneg payload). pose proof (zlen_nonneg rest).
  pose proof zlen_frame_bytes as Hlen. set (l := pre ++ frame_bytes ++ rest).
  assert (zlen l = lsn + (FRAME_FIXED + zlen payload) + zlen rest) as Hl
    by (unfold l; rewrite !zlen_app; lia).
  assert (bytes_get l lsn (FRAME_FIXED + zlen payload) = frame_bytes) as Hw by (by apply bytes_get_app_mid).
  assert (le_at l lsn 4 = FRAME_FIXED + zlen payload) as Hle.
  { rewrite <- (Z.add_0_r lsn) at 1. rewrite <- (le_at_sub l lsn (FRAME_FIXED + zlen payload) 0 4) by (unfold FRAME_FIXED in *; lia).
    rewrite Hw. chunk 0%nat. apply from_to_le_small. change (256 ^ Z.of_nat 4) with 4294967296.
    unfold FRAME_FIXED, MAX_FRAME, PAGE_SIZE in *. lia. }
  unfold decode_frame_at. rewrite Hle, Hw.
  destruct (Z.ltb_spec (zlen l - lsn) 4); [unfold FRAME_FIXED in *; lia|].
  replace ((FRAME_FIXED <=? FRAME_FIXED + zlen payload) && (FRAME_FIXED + zlen payload <=? MAX_FRAME)) with true
    by (symmetry; apply andb_true_intro; split; apply Z.leb_le; lia).
  cbn [negb]. replace (checked_add lsn (FRAME_FIXED + zlen payload)) with (Some (lsn + (FRAME_FIXED + zlen payload)))
    by (symmetry; apply checked_add_Some; lia).
  cbn [mbind result_bind ok_or]. destruct (Z.ltb_spec (zlen l) (lsn + (FRAME_FIXED + zlen payload))); [lia|].
  apply check_frame_bytes.
Qed.

(** A proper prefix of it is a torn tail. *)
Lemma decode_frame_prefix pre p rest :
  zlen pre = lsn → frame_bytes = p ++ rest → rest ≠ [] → p ≠ [] →
  decode_frame_at (pre ++ p) lsn = Ok Torn.
Proof.
  intros Hpre Hf Hrest Hp. pose proof zlen_frame_bytes as Hlen. rewrite Hf, zlen_app in Hlen.
  assert (0 < zlen rest) by (destruct rest; [done|rewrite zlen_cons; pose proof (zlen_nonneg rest); lia]).
  pose proof (zlen_nonneg p). pose proof (zlen_nonneg payload). unfold decode_frame_at.
  rewrite zlen_app, Hpre. destruct (Z.ltb_spec (lsn + zlen p - lsn) 4); [done|].
  assert (le_at (pre ++ p) lsn 4 = FRAME_FIXED + zlen payload) as ->.
  { transitivity (le_at frame_bytes 0 4).
    - unfold le_at. f_equal. apply znth_ext; [rewrite !zlen_bytes_get by (rewrite ?zlen_app, ?Hf, ?zlen_app; lia); done|].
      intros i. rewrite zlen_bytes_get by (rewrite ?zlen_app; lia). intros.
      rewrite !znth_bytes_get, znth_app_r, Hf, znth_app_l by lia. f_equal. lia.
    - chunk 0%nat. apply from_to_le_small. change (256 ^ Z.of_nat 4) with 4294967296.
      unfold FRAME_FIXED, MAX_FRAME, PAGE_SIZE in *. lia. }
  replace ((FRAME_FIXED <=? FRAME_FIXED + zlen payload) && (FRAME_FIXED + zlen payload <=? MAX_FRAME)) with true
    by (symmetry; apply andb_true_intro; split; apply Z.leb_le; lia).
  cbn [negb]. replace (checked_add lsn (FRAME_FIXED + zlen payload)) with (Some (lsn + (FRAME_FIXED + zlen payload)))
    by (symmetry; apply checked_add_Some; lia).
  cbn [mbind result_bind ok_or]. by destruct (Z.ltb_spec (lsn + zlen p) (lsn + (FRAME_FIXED + zlen payload))); [|lia].
Qed.
End Encoding.
