(* ===== verification/StorageScan.v ===== *)
(** * Scanning the log: clean logs, appended groups, torn tails

    [clean l s]: the log [l] consists of complete groups and checkpoints, and
    [s] is what they say.  Appending the frames of a group to a clean log gives
    a clean log with one group more; appending a proper prefix of their bytes
    gives a log whose scan is still [s]. *)

From S2P Require Import Prelude StorageBytes StoragePage StorageIo StorageWal StorageFrames.

Section Scan.
Context `{Sha256}.

(** ** The scan as a fold *)

Fixpoint scan_run (scan : WalScan) (pending : option PendingApply) (frames : list Frame)
  : sresult ScanStep :=
  match frames with
  | [] => Ok (Continue scan pending)
  | frame :: frames =>
      step ← scan_frame scan pending frame;
      match step with
      | Break scan => Ok (Break scan)
      | Continue scan pending => scan_run scan pending frames
      end
  end.

Definition step_scan (st : ScanStep) : WalScan :=
  match st with Continue s _ => s | Break s => s end.

Lemma scan_frames_run s p fs : scan_frames s p fs = step_scan <$> scan_run s p fs.
Proof.
  revert s p. induction fs as [|f fs IH]; intros s p; [done|]. cbn.
  destruct (scan_frame s p f) as [[]|]; cbn; auto.
Qed.

Lemma scan_run_app s p fs gs s' p' :
  scan_run s p fs = Ok (Continue s' p') → scan_run s p (fs ++ gs) = scan_run s' p' gs.
Proof.
  revert s p. induction fs as [|f fs IH]; intros s p; cbn; [by intros [= <- <-]|].
  destruct (scan_frame s p f) as [[]|]; cbn; [auto|done..].
Qed.

(** The scan carries the torn-tail mark and never looks at it. *)
Definition set_torn (t : option Z) (s : WalScan) : WalScan :=
  mkScan (groups s) (checkpoints s) (safe_append_offset s) t.

Definition step_torn (t : option Z) (st : ScanStep) : ScanStep :=
  match st with Continue s p => Continue (set_torn t s) p | Break s => Break (set_torn t s) end.

Lemma scan_frame_torn t s p f : scan_frame (set_torn t s) p f = step_torn t <$> scan_frame s p f.
Proof.
  unfold scan_frame. destruct (fr_kind f); unfold scan_begin, scan_page_image, scan_commit, scan_checkpoint;
  cbn [set_torn groups checkpoints safe_append_offset torn_tail_at];
  repeat first [ done
    | match goal with |- context [?r ≫= _] =>
        lazymatch r with context [_ ≫= _] => fail | _ => idtac end;
        destruct r; cbn [mbind result_bind fmap result_fmap]; [|done] end
    | destruct p; cbn [mbind result_bind fmap result_fmap] ].
Qed.

Lemma scan_run_torn t s p fs : scan_run (set_torn t s) p fs = step_torn t <$> scan_run s p fs.
Proof.
  revert s p. induction fs as [|f fs IH]; intros s p; [done|]. cbn. rewrite scan_frame_torn.
  destruct (scan_frame s p f) as [[]|]; cbn; auto.
Qed.

Definition empty_scan : WalScan := mkScan [] [] 0 None.

(** ** Clean logs *)

Record clean (l : bytes) (s : WalScan) : Prop := {
  clean_frames : ∃ fs, seg l 0 fs (zlen l) ∧ scan_run empty_scan None fs = Ok (Continue s None);
  clean_end : safe_append_offset s = zlen l;
  clean_torn : torn_tail_at s = None;
  clean_len : zlen l ≤ u64_max
}.

Lemma clean_nil : clean [] empty_scan.
Proof. split; [|done..]. exists []. split; [by constructor|done]. Qed.

Lemma scan_bytes_seg l fs stop t st :
  seg l 0 fs stop → ends l stop (Ok t) → scan_run empty_scan None fs = Ok st →
  scan_bytes l = Ok (set_torn t (step_scan st)).
Proof.
  intros Hs He Hr. unfold scan_bytes. rewrite (decode_frames_eq _ _ _ _ Hs He).
  cbn [mbind result_bind fmap result_fmap]. rewrite scan_frames_run.
  change (mkScan [] [] 0 t) with (set_torn t empty_scan). rewrite scan_run_torn, Hr. cbn.
  by destruct st.
Qed.

Lemma set_torn_id s : set_torn (torn_tail_at s) s = s.
Proof. by destruct s. Qed.

Lemma clean_scan l s : clean l s → scan_bytes l = Ok s.
Proof.
  intros [(fs & Hs & Hr) _ Ht _]. rewrite (scan_bytes_seg l fs (zlen l) None (Continue s None) Hs); [| |exact Hr].
  - cbn. rewrite <- Ht at 1. by rewrite set_torn_id.
  - unfold ends. by rewrite Z.ltb_irrefl.
Qed.

(** ** Runs of frames at the end of a log *)

Record FrameSpec : Type := mkSpec {
  sp_kind : FrameKind;
  sp_lsn : Z;
  sp_index : Z;
  sp_payload : bytes
}.

Definition spec_bytes (sp : FrameSpec) : bytes :=
  frame_bytes (sp_kind sp) (sp_lsn sp) (sp_index sp) (sp_payload sp).
Definition spec_frame (sp : FrameSpec) : Frame :=
  frame_at (sp_kind sp) (sp_lsn sp) (sp_index sp) (sp_payload sp).
Definition spec_end (sp : FrameSpec) : Z := sp_lsn sp + FRAME_FIXED + zlen (sp_payload sp).

(** Frames that follow one another from [off]. *)
Fixpoint specs_ok (off : Z) (sps : list FrameSpec) : Prop :=
  match sps with
  | [] => 0 ≤ off ≤ u64_max
  | sp :: sps =>
      sp_lsn sp = off ∧ 0 ≤ off ∧ Forall byte_ok (sp_payload sp) ∧ u64_ok (sp_index sp)
      ∧ FRAME_FIXED + zlen (sp_payload sp) ≤ MAX_FRAME ∧ specs_ok (spec_end sp) sps
  end.

Lemma specs_ok_bound off sps : specs_ok off sps → off ≤ u64_max.
Proof.
  revert off. induction sps as [|sp sps IH]; intros off; cbn; [lia|].
  intros (<- & _ & _ & _ & _ & Hs%IH). pose proof (zlen_nonneg (sp_payload sp)).
  unfold spec_end, FRAME_FIXED in *. lia.
Qed.

Definition specs_bytes (sps : list FrameSpec) : bytes := concat (spec_bytes <$> sps).

Lemma specs_bytes_cons sp sps : specs_bytes (sp :: sps) = spec_bytes sp ++ specs_bytes sps.
Proof. done. Qed.

Lemma specs_bytes_app sps sps' : specs_bytes (sps ++ sps') = specs_bytes sps ++ specs_bytes sps'.
Proof. unfold specs_bytes. by rewrite fmap_app, concat_app. Qed.

Lemma zlen_spec_bytes sp : zlen (spec_bytes sp) = FRAME_FIXED + zlen (sp_payload sp).
Proof. apply zlen_frame_bytes. Qed.

Lemma specs_decode pre sps rest :
  specs_ok (zlen pre) sps →
  seg (pre ++ specs_bytes sps ++ rest) (zlen pre) (spec_frame <$> sps) (zlen pre + zlen (specs_bytes sps)).
Proof.
  revert pre. induction sps as [|sp sps IH]; intros pre Hok; cbn [fmap list_fmap].
  - cbn. rewrite Z.add_0_r. constructor. rewrite zlen_app. pose proof (zlen_nonneg rest). pose proof (zlen_nonneg pre). lia.
  - destruct Hok as (Hlsn & H0 & Hb & Hi & Hm & Hok). pose proof (specs_ok_bound _ _ Hok).
    pose proof (zlen_spec_bytes sp) as Hlen. unfold spec_end in *.
    rewrite specs_bytes_cons, <- app_assoc. econstructor; [lia| |].
    + rewrite <- Hlsn at 1. apply decode_frame_bytes; done || lia.
    + rewrite zlen_app, Hlen. rewrite Hlsn in *.
      assert (zlen (pre ++ spec_bytes sp) = zlen pre + FRAME_FIXED + zlen (sp_payload sp)) as Hl
        by (rewrite zlen_app, Hlen; lia).
      rewrite <- Hl in Hok. specialize (IH (pre ++ spec_bytes sp) Hok).
      rewrite <- app_assoc, Hl in IH. by rewrite Z.add_assoc, (Z.add_assoc (zlen pre)).
Qed.

(** A prefix of the bytes of a run is a number of whole frames and a piece of
    the next. *)
Lemma specs_prefix sps p rest :
  specs_bytes sps = p ++ rest → rest ≠ [] →
  ∃ k q r sp, sps !! k = Some sp ∧ p = specs_bytes (take k sps) ++ q
    ∧ spec_bytes sp = q ++ r ∧ r ≠ [].
Proof.
  revert p. induction sps as [|sp sps IH]; intros p Hp Hr.
  - cbn in Hp. symmetry in Hp. apply app_eq_nil in Hp as [_ ?]. done.
  - rewrite specs_bytes_cons in Hp. destruct (decide (zlen p < zlen (spec_bytes sp))) as [Hlt|Hge].
    + exists 0%nat, p, (drop (length p) (spec_bytes sp)), sp.
      assert (spec_bytes sp = p ++ drop (length p) (spec_bytes sp)) as E.
      { rewrite <- (take_drop (length p) (spec_bytes sp)) at 1. f_equal.
        apply (f_equal (take (length p))) in Hp. rewrite take_app_length in Hp.
        rewrite take_app_le in Hp by (unfold zlen in *; lia). done. }
      split_and!; [done|done|done|]. intros E'. rewrite E', app_nil_r in E. rewrite E in Hlt. lia.
    + assert (p = spec_bytes sp ++ drop (length (spec_bytes sp)) p) as E.
      { rewrite <- (take_drop (length (spec_bytes sp)) p) at 1. f_equal.
        apply (f_equal (take (length (spec_bytes sp)))) in Hp. rewrite take_app_length in Hp.
        rewrite take_app_le in Hp by (unfold zlen in *; lia). done. }
      rewrite E, <- app_assoc in Hp. apply app_inv_head in Hp.
      destruct (IH _ Hp Hr) as (k & q & r & sp' & Hk & Hq & Hsp & Hr').
      exists (S k), q, r, sp'. split_and!; [done| |done|done].
      cbn [take]. rewrite specs_bytes_cons, <- app_assoc, <- Hq. done.
Qed.

Lemma specs_ok_take off sps k : specs_ok off sps → specs_ok off (take k sps).
Proof.
  revert off k. induction sps as [|sp sps IH]; intros off [|k] Hok; cbn; try done.
  - pose proof (specs_ok_bound _ _ Hok). destruct Hok as (_ & ? & _). lia.
  - destruct Hok as (? & ? & ? & ? & ? & ?). split_and!; auto.
Qed.

Lemma specs_ok_lookup off sps k sp :
  specs_ok off sps → sps !! k = Some sp →
  sp_lsn sp = off + zlen (specs_bytes (take k sps)) ∧ 0 ≤ sp_lsn sp
  ∧ Forall byte_ok (sp_payload sp) ∧ u64_ok (sp_index sp)
  ∧ spec_end sp ≤ u64_max ∧ FRAME_FIXED + zlen (sp_payload sp) ≤ MAX_FRAME.
Proof.
  revert off k. induction sps as [|sp' sps IH]; intros off k Hok Hk; [done|].
  destruct Hok as (Hlsn & H0 & Hb & Hi & Hm & Hok). destruct k as [|k].
  - injection Hk as [= ->]. pose proof (specs_ok_bound _ _ Hok).
    cbn [take]. change (zlen (specs_bytes [])) with 0. split_and!; done || lia.
  - destruct (IH _ _ Hok Hk) as (Hl & Hrest). split; [|done].
    cbn [take]. rewrite specs_bytes_cons, zlen_app, Hl, zlen_spec_bytes. unfold spec_end. lia.
Qed.

(** ** A run at the end of a clean log *)

(** Whole: the scan goes on through the run. *)
Lemma scan_clean_run l s sps st :
  clean l s → specs_ok (zlen l) sps → scan_run s None (spec_frame <$> sps) = Ok st →
  scan_bytes (l ++ specs_bytes sps) = Ok (set_torn None (step_scan st)).
Proof.
  intros [(fs & Hs & Hr) _ _ _] Hok Hrun.
  pose proof (specs_decode l sps [] Hok) as Hd. rewrite app_nil_r in Hd.
  eapply (scan_bytes_seg _ (fs ++ (spec_frame <$> sps))).
  - eapply seg_app; [by apply seg_extend|exact Hd].
  - unfold ends. rewrite zlen_app. by rewrite Z.ltb_irrefl.
  - by rewrite (scan_run_app _ _ _ _ _ _ Hr).
Qed.

(** Cut: the scan stops after the last whole frame. *)
Lemma scan_clean_prefix l s sps p rest :
  clean l s → specs_ok (zlen l) sps → specs_bytes sps = p ++ rest → rest ≠ [] →
  ∃ k t, (k < length sps)%nat ∧
    ∀ st, scan_run s None (spec_frame <$> take k sps) = Ok st →
      scan_bytes (l ++ p) = Ok (set_torn t (step_scan st)).
Proof.
  intros [(fs & Hs & Hr) _ _ _] Hok Hp Hrest.
  destruct (specs_prefix _ _ _ Hp Hrest) as (k & q & r & sp & Hk & -> & Hsp & Hr').
  destruct (specs_ok_lookup _ _ _ _ Hok Hk) as (Hlsn & H0 & Hb & Hi & Hend & Hm).
  exists k, (if decide (q = []) then None else Some (sp_lsn sp)). split; [by apply lookup_lt_Some in Hk|].
  intros st Hrun. pose proof (specs_decode l (take k sps) q (specs_ok_take _ _ k Hok)) as Hd.
  eapply (scan_bytes_seg _ (fs ++ (spec_frame <$> take k sps))).
  - eapply seg_app; [by apply seg_extend|exact Hd].
  - unfold ends. rewrite <- Hlsn, !zlen_app, Z.add_assoc, <- Hlsn.
    case_decide as Hq.
    + subst q. cbn. rewrite Z.add_0_r. by rewrite Z.ltb_irrefl.
    + assert (0 < zlen q) by (destruct q; [done|rewrite zlen_cons; pose proof (zlen_nonneg q); lia]).
      destruct (Z.ltb_spec (sp_lsn sp) (sp_lsn sp + zlen q)); [|lia].
      rewrite app_assoc. unfold spec_end in Hend.
      rewrite (decode_frame_prefix (sp_kind sp) (sp_lsn sp) (sp_index sp) (sp_payload sp) H0 Hend Hm
                 (l ++ specs_bytes (take k sps)) q r); try done.
      by rewrite zlen_app.
  - by rewrite (scan_run_app _ _ _ _ _ _ Hr).
Qed.

(** ** Cutting a log

    Where a scan of the whole log succeeds, a scan of any prefix of it does,
    with a prefix of its groups; and the log cut at [safe_append_offset] is
    clean. *)

Lemma seg_cut l off fs stop n :
  seg l off fs stop → off ≤ n → stop ≤ n ∨ ∃ k mid f next,
    fs !! k = Some f ∧ seg l off (take k fs) mid ∧ seg l mid (drop k fs) stop
    ∧ decode_frame_at l mid = Ok (Got f next) ∧ mid ≤ n < next.
Proof.
  induction 1 as [off Hoff|off f n' fs stop Hoff Hf Hs IH]; intros Hn; [by left|].
  destruct (decide (n' ≤ n)) as [Hle|Hgt].
  - destruct (IH Hle) as [|(k & mid & f' & next & Hk & H1 & H2 & H3 & H4)]; [by left|right].
    exists (S k), mid, f', next. split_and!; try done; try lia. by econstructor.
  - right. exists 0%nat, off, f, n'. pose proof (decode_frame_at_Got _ _ _ _ Hoff Hf). unfold FRAME_FIXED in *.
    split_and!; try done; try lia; [constructor; lia|by econstructor].
Qed.

(** A frame that the cut goes through, and a torn tail, are torn. *)
Lemma cut_torn l off n :
  0 ≤ off < n → n ≤ zlen l →
  decode_frame_at l off = Ok Torn ∨ (∃ f next, decode_frame_at l off = Ok (Got f next) ∧ n < next) →
  decode_frame_at (ztake n l) off = Ok Torn.
Proof.
  intros Hoff Hn Hd. destruct (decide (n = zlen l)) as [->|Hne].
  { rewrite ztake_all by lia. destruct Hd as [?|(f & next & Hd & ?)]; [done|].
    pose proof (decode_frame_at_Got l off f next ltac:(lia) Hd). lia. }
  assert (zlen (ztake n l) = n) as Hz by (rewrite zlen_ztake; lia).
  unfold decode_frame_at at 1. rewrite Hz. destruct (Z.ltb_spec (n - off) 4); [done|].
  assert (le_at (ztake n l) off 4 = le_at l off 4) as ->.
  { unfold le_at. f_equal. rewrite <- bytes_get_0, bytes_get_sub by lia. done. }
  unfold decode_frame_at in Hd. destruct (Z.ltb_spec (zlen l - off) 4); [lia|].
  set (len := le_at l off 4) in *. destruct ((FRAME_FIXED <=? len) && (len <=? MAX_FRAME)); cbn [negb] in *.
  - destruct (checked_add off len) as [stop|] eqn:Hadd; cbn [ok_or mbind result_bind] in *; [|naive_solver].
    destruct (Z.ltb_spec n stop); [done|]. exfalso.
    destruct (Z.ltb_spec (zlen l) stop); [lia|].
    destruct Hd as [Hd|(f & next & Hd & ?)].
    + unfold check_frame in Hd.
      repeat match type of Hd with (?r ≫= _) = _ => destruct r; cbn [mbind result_bind] in Hd; [|done] end.
      destruct (_ || _); [|done]. destruct (Z.eqb_spec stop (zlen l)); [lia|done].
    + destruct (check_frame_Got _ 0 _ _ _ _ _ _ Hd) as (_ & -> & _). lia.
  - destruct (Z.eqb_spec (off + 4) (zlen l)); [lia|]. naive_solver.
Qed.

(** What one frame does to the scan. *)
Lemma scan_frame_effect s p f st :
  scan_frame s p f = Ok st →
  step_scan st = s ∨
  safe_append_offset (step_scan st) = fr_end f ∧ groups s `prefix_of` groups (step_scan st)
  ∧ st = Continue (step_scan st) None.
Proof.
  unfold scan_frame. destruct (fr_kind f); unfold scan_begin, scan_page_image, scan_commit, scan_checkpoint;
  intros Hs; repeat first
    [ match type of Hs with (?r ≫= _) = _ =>
        destruct r; cbn [mbind result_bind] in Hs; [|done] end
    | destruct p; cbn [mbind result_bind] in Hs ];
  injection Hs as <-; cbn [step_scan]; first [by left | right; split_and!; [done| |done]; try done].
  all: eexists; reflexivity.
Qed.

Lemma scan_run_effect s p fs st :
  scan_run s p fs = Ok st →
  groups s `prefix_of` groups (step_scan st)
  ∧ (step_scan st = s ∨ ∃ f, f ∈ fs ∧ safe_append_offset (step_scan st) = fr_end f).
Proof.
  revert s p. induction fs as [|f fs IH]; intros s p; cbn [scan_run].
  - intros [= <-]. split; [done|by left].
  - intros (st1 & Hf & Hr)%result_bind_Ok. apply scan_frame_effect in Hf as Heff.
    destruct st1 as [s1 p1|s1]; cbn [step_scan] in Heff.
    + destruct (IH _ _ Hr) as [Hpre Hsafe]. destruct Heff as [->|(He & Hpre' & _)].
      * split; [done|]. destruct Hsafe as [?|(f' & ? & ?)]; [by left|right]. exists f'. split; [by right|done].
      * split; [by etrans|]. destruct Hsafe as [->|(f' & ? & ?)]; right; [exists f|exists f']; (split; [by constructor|done]).
    + injection Hr as <-. cbn [step_scan] in *. destruct Heff as [->|(He & Hpre & ?)]; [|done]. split; [done|by left].
Qed.

Lemma scan_run_take s p fs k st :
  scan_run s p fs = Ok st → ∃ st', scan_run s p (take k fs) = Ok st' ∧
    (st' = st ∨ ∃ s' p', st' = Continue s' p' ∧ scan_run s' p' (drop k fs) = Ok st).
Proof.
  revert s p k. induction fs as [|f fs IH]; intros s p k.
  - intros ?. exists st. rewrite take_nil. auto.
  - destruct k as [|k]; [intros ?; eexists; split; [done|right]; by eexists _, _|].
    cbn [scan_run take drop]. intros (st1 & -> & Hr)%result_bind_Ok. cbn [mbind result_bind].
    destruct st1 as [s1 p1|s1]; [by apply IH|]. eexists. split; [done|by left].
Qed.

Lemma seg_frame_end l off fs stop f : seg l off fs stop → f ∈ fs → off < fr_end f.
Proof.
  induction 1 as [|off f' n fs stop Hoff Hf Hs IH]; [by intros ?%elem_of_nil|].
  pose proof (decode_frame_at_Got _ _ _ _ Hoff Hf) as (Hn & _ & He & _). unfold FRAME_FIXED in *.
  intros [->|Hin]%elem_of_cons; [lia|]. specialize (IH Hin). lia.
Qed.

Lemma seg_frame_end' l off f next fs stop f' :
  seg l off (f :: fs) stop → decode_frame_at l off = Ok (Got f next) → f' ∈ f :: fs → next ≤ fr_end f'.
Proof.
  inversion 1 as [|? ? n ? ? Hoff Hf Hs]; subst. rewrite Hf. intros [= <-].
  pose proof (decode_frame_at_Got _ _ _ _ Hoff Hf) as (_ & _ & He & _).
  intros [->|Hin]%elem_of_cons; [lia|]. pose proof (seg_frame_end _ _ _ _ _ Hs Hin). lia.
Qed.

Lemma scan_bytes_inv l s :
  scan_bytes l = Ok s → ∃ fs stop t st, seg l 0 fs stop ∧ ends l stop (Ok t)
    ∧ scan_run empty_scan None fs = Ok st ∧ s = set_torn t (step_scan st).
Proof.
  unfold scan_bytes. destruct (decode_frames_seg l) as (fs & stop & r & Hs & He & ->).
  destruct r as [t|e]; [|done]. cbn [fmap result_fmap mbind result_bind].
  rewrite scan_frames_run. change (mkScan [] [] 0 t) with (set_torn t empty_scan).
  rewrite scan_run_torn. destruct (scan_run empty_scan None fs) as [st|e] eqn:Hr; [|done].
  cbn. intros [= <-]. exists fs, stop, t, st. split_and!; try done. by destruct st.
Qed.

(** The end of the walk over a cut log. *)
Lemma ends_cut l mid n :
  0 ≤ mid ≤ n → n ≤ zlen l →
  (mid < n → decode_frame_at (ztake n l) mid = Ok Torn) →
  ∃ t, ends (ztake n l) mid (Ok t).
Proof.
  intros Hm Hn Hd. assert (zlen (ztake n l) = n) as Hz by (rewrite zlen_ztake; lia).
  unfold ends. rewrite Hz. destruct (Z.ltb_spec mid n) as [Hlt|]; [|by exists None].
  rewrite (Hd Hlt). by eexists.
Qed.

Lemma scan_cut l s n :
  scan_bytes l = Ok s → 0 ≤ n ≤ zlen l →
  ∃ s', scan_bytes (ztake n l) = Ok s' ∧ groups s' `prefix_of` groups s
    ∧ (safe_append_offset s ≤ n → ∃ t, s' = set_torn t s).
Proof.
  intros (fs & stop & t & st & Hs & He & Hr & ->)%scan_bytes_inv Hn.
  assert (∀ mid gs st', seg l 0 gs mid → mid ≤ n → (mid < n → decode_frame_at (ztake n l) mid = Ok Torn) →
    scan_run empty_scan None gs = Ok st' → ∃ t', scan_bytes (ztake n l) = Ok (set_torn t' (step_scan st'))) as Hcut.
  { intros mid gs st' Hg Hm Hd Hr'. pose proof (seg_bounds _ _ _ _ Hg).
    destruct (ends_cut l mid n) as [t' Ht']; [lia|lia|done|]. exists t'.
    eapply scan_bytes_seg; [by apply seg_truncate|done|done]. }
  destruct (seg_cut _ _ _ _ n Hs) as [Hle|(k & mid & f & next & Hk & H1 & H2 & H3 & H4)]; [lia|..].
  - destruct (Hcut stop fs st Hs Hle) as [t' Hc]; [|done|].
    + intros Hlt. pose proof (seg_bounds _ _ _ _ Hs). apply cut_torn; [lia|lia|left].
      unfold ends in He. destruct (Z.ltb_spec stop (zlen l)); [|lia].
      by destruct (decode_frame_at l stop) as [[]|].
    + exists (set_torn t' (step_scan st)). split_and!; [done|done|]. intros _. by exists t'.
  - destruct (scan_run_take _ _ _ k _ Hr) as (st' & Hr' & Hst).
    destruct (Hcut mid (take k fs) st' H1) as [t' Hc]; [lia| |done|].
    + intros Hlt. pose proof (seg_bounds _ _ _ _ H1). apply cut_torn; [lia|lia|right]. exists f, next. split; [done|lia].
    + exists (set_torn t' (step_scan st')). split; [done|]. destruct Hst as [->|(s' & p' & -> & Hrest)].
      * split; [done|]. intros _. by exists t'.
      * destruct (scan_run_effect _ _ _ _ Hrest) as [Hpre Hsafe]. split; [done|]. intros Hle. exists t'.
        destruct Hsafe as [Heq|(f' & Hf' & Hend)]; [cbn; by rewrite Heq|]. exfalso.
        rewrite (drop_S _ _ _ Hk) in H2, Hf'. pose proof (seg_frame_end' _ _ _ _ _ _ _ H2 H3 Hf').
        cbn [set_torn safe_append_offset] in Hle. lia.
Qed.

Lemma scan_run_safe l s p off fs stop st :
  seg l off fs stop → scan_run s p fs = Ok st →
  step_scan st = s ∨ ∃ k, seg l off (take k fs) (safe_append_offset (step_scan st))
    ∧ scan_run s p (take k fs) = Ok (Continue (step_scan st) None).
Proof.
  intros Hs. revert s p. induction Hs as [off Hoff|off f n fs stop Hoff Hf Hs IH]; intros s p; cbn [scan_run].
  - intros [= <-]. by left.
  - intros (st1 & Hf1 & Hr)%result_bind_Ok. pose proof (scan_frame_effect _ _ _ _ Hf1) as Heff.
    pose proof (decode_frame_at_Got _ _ _ _ Hoff Hf) as (Hn & _ & He & _). unfold FRAME_FIXED in *.
    destruct st1 as [s1 p1|s1].
    + destruct (IH _ _ Hr) as [Heq|(k & Hk1 & Hk2)].
      * cbn [step_scan] in Heff. destruct Heff as [->|(Hsafe & _ & [= ->])]; [by left|right].
        exists 1%nat. cbn [take firstn scan_run]. rewrite Hf1, Heq, Hsafe, He. cbn [mbind result_bind].
        rewrite firstn_O. split; [|done]. econstructor; [done|done|]. constructor. lia.
      * right. exists (S k). cbn [take scan_run]. rewrite Hf1. split; [by econstructor|done].
    + injection Hr as <-. cbn [step_scan] in *. destruct Heff as [->|(_ & _ & ?)]; [by left|done].
Qed.

Lemma seg_max l off fs stop : seg l off fs stop → off ≤ u64_max → stop ≤ u64_max.
Proof.
  induction 1 as [|off f n fs stop Hoff Hf Hs IH]; [done|]. intros _. apply IH.
  by pose proof (decode_frame_at_Got _ _ _ _ Hoff Hf) as (_ & ? & _).
Qed.

Lemma clean_cut l s :
  scan_bytes l = Ok s →
  clean (ztake (safe_append_offset s) l) (set_torn None s) ∧ 0 ≤ safe_append_offset s ≤ zlen l.
Proof.
  intros (fs & stop & t & st & Hs & He & Hr & ->)%scan_bytes_inv.
  assert (∃ gs, seg l 0 gs (safe_append_offset (step_scan st))
    ∧ scan_run empty_scan None gs = Ok (Continue (step_scan st) None)) as (gs & Hg & Hgr).
  { destruct (scan_run_safe _ _ _ _ _ _ _ Hs Hr) as [Heq|(k & Hk1 & Hk2)]; [|by eexists].
    exists []. rewrite Heq. split; [constructor; pose proof (zlen_nonneg l); cbn; lia|done]. }
  pose proof (seg_bounds _ _ _ _ Hg) as Hb. set (n := safe_append_offset (step_scan st)) in *.
  assert (zlen (ztake n l) = n) as Hz by (rewrite zlen_ztake; lia).
  assert (torn_tail_at (step_scan st) = None ∧ n ≤ u64_max) as [Htorn Hmax].
  { split; [|apply (seg_max _ _ _ _ Hg); done].
    pose proof (scan_run_torn None empty_scan None fs) as Ht. change (set_torn None empty_scan) with empty_scan in Ht.
    rewrite Hr in Ht. cbn in Ht. injection Ht as Ht. rewrite Ht. by destruct st. }
  split; [|cbn [set_torn safe_append_offset]; fold n; lia]. split.
  - exists gs. cbn [set_torn safe_append_offset]. fold n. rewrite Hz. split; [by apply seg_truncate|].
    rewrite Hgr. do 2 f_equal. rewrite <- Htorn. symmetry. by destruct (step_scan st).
  - cbn [set_torn safe_append_offset]. fold n. by rewrite Hz.
  - done.
  - cbn [set_torn safe_append_offset]. fold n. by rewrite Hz.
Qed.
End Scan.
