(* ===== verification/StorageGroups.v ===== *)
(** * Apply groups in the log

    The frames [append_apply_with_metadata] writes for one group, and what the
    scan makes of them: all of them add the group, fewer add nothing. *)

From S2P Require Import Prelude StorageBytes StoragePage StorageIo StorageWal StorageFrames StorageScan.

(** The documented output of SHA-256: 32 bytes. *)
Class Sha256Ok `{Sha256} : Prop := {
  sha256_len : ∀ l, zlen (sha256 l) = 32;
  sha256_bytes : ∀ l, Forall byte_ok (sha256 l)
}.

(** The arguments of an append, pages in the order they are written. *)
Record Group : Type := mkGroup {
  g_index : Z;
  g_hash : bytes;
  g_next : Z;
  g_root : option Z;
  g_pages : list Page
}.

Definition BEGIN_FRAME : Z := 88.
Definition IMAGE_FRAME : Z := 4144.
Definition COMMIT_FRAME : Z := 76.

(** The page images as they are stored, the first at [off]. *)
Fixpoint stamped (off idx : Z) (pages : list Page) : list Page :=
  match pages with
  | [] => []
  | p :: pages => stamp p off idx :: stamped (off + IMAGE_FRAME) idx pages
  end.

Fixpoint image_specs (off idx : Z) (pages : list Page) : list FrameSpec :=
  match pages with
  | [] => []
  | p :: pages => mkSpec PageImage off idx (image_payload p) :: image_specs (off + IMAGE_FRAME) idx pages
  end.

Definition g_begin (g : Group) : bytes := begin_payload (g_hash g) (g_next g) (g_root g).
Definition g_stamped (off : Z) (g : Group) : list Page :=
  stamped (off + BEGIN_FRAME) (g_index g) (g_pages g).
Definition g_material (off : Z) (g : Group) : bytes :=
  to_le_bytes 8 (g_index g) ++ g_begin g ++ concat (image_payload <$> g_stamped off g).
Definition g_commit_lsn (off : Z) (g : Group) : Z := off + BEGIN_FRAME + IMAGE_FRAME * zlen (g_pages g).
Definition g_end (off : Z) (g : Group) : Z := g_commit_lsn off g + COMMIT_FRAME.

Section Groups.
Context `{Sha256}.

Definition begin_spec (off : Z) (g : Group) : FrameSpec := mkSpec BeginApply off (g_index g) (g_begin g).
Definition commit_spec (off : Z) (g : Group) : FrameSpec :=
  mkSpec CommitApply (g_commit_lsn off g) (g_index g)
    (to_le_bytes 4 (zlen (g_pages g)) ++ sha256 (g_material off g)).

Definition group_specs (off : Z) (g : Group) : list FrameSpec :=
  begin_spec off g :: image_specs (off + BEGIN_FRAME) (g_index g) (g_stamped off g) ++ [commit_spec off g].

Definition committed (off : Z) (g : Group) : CommittedApply := {|
  ca_apply_index := g_index g;
  ca_state_hash := g_hash g;
  ca_next_page_id := g_next g;
  ca_root_directory := g_root g;
  ca_pages := g_stamped off g;
  ca_begin_lsn := off;
  ca_commit_lsn := g_commit_lsn off g;
  ca_end_lsn := g_end off g;
  ca_digest := sha256 (g_material off g)
|}.

(** What the checks of [append_apply_with_metadata] establish, and the ranges
    of the machine types. *)
Record group_ok (off : Z) (g : Group) : Prop := {
  gok_off : 0 ≤ off;
  gok_index : u64_ok (g_index g);
  gok_hash : zlen (g_hash g) = 32 ∧ Forall byte_ok (g_hash g);
  gok_next : 2 ≤ g_next g ≤ u64_max;
  gok_root : ∀ r, g_root g = Some r → 0 ≤ r < g_next g;
  gok_pages : Forall (λ p, page_ok p ∧ page_shape p ∧ page_id p < g_next g) (g_pages g);
  gok_nodup : NoDup (page_id <$> g_pages g);
  gok_room : g_end off g ≤ u64_max
}.

(** The index of the last group, if any, is below [idx]. *)
Definition advances (s : WalScan) (idx : Z) : Prop :=
  ∀ last_group, last (groups s) = Some last_group → ca_apply_index last_group < idx.

Definition add_group (s : WalScan) (c : CommittedApply) : WalScan :=
  mkScan (groups s ++ [c]) (checkpoints s) (ca_end_lsn c) (torn_tail_at s).

(** ** Payloads *)

Lemma zlen_image_payload p : page_ok p → zlen (image_payload p) = 8 + PAGE_SIZE.
Proof. intros [Hl _]. unfold image_payload. by rewrite zlen_app, zlen_to_le_bytes, Hl. Qed.

Lemma image_payload_ok p : page_ok p → Forall byte_ok (image_payload p).
Proof. intros [_ Hb]. apply Forall_app_2; [apply to_le_bytes_ok|done]. Qed.

Lemma image_payload_read p :
  page_ok p → le_at (image_payload p) 0 8 = page_id p ∧ zdrop 8 (image_payload p) = page_bytes p.
Proof.
  intros Hp. pose proof (page_id_ok p Hp). unfold image_payload. split.
  - unfold le_at. rewrite <- (app_nil_l (to_le_bytes 8 _ ++ _)).
    rewrite bytes_get_app_mid; [|done|by rewrite zlen_to_le_bytes].
    apply from_to_le_small. change (256 ^ Z.of_nat 8) with (u64_max + 1). ulia.
  - unfold zdrop. change (Z.to_nat 8) with 8%nat.
    by rewrite drop_app_length' by (by rewrite length_to_le_bytes).
Qed.

Lemma zlen_g_begin g : zlen (g_hash g) = 32 → zlen (g_begin g) = 48.
Proof. intros Hh. unfold g_begin, begin_payload. rewrite !zlen_app, Hh, !zlen_to_le_bytes. done. Qed.

Lemma root_of_to r next : (∀ x, r = Some x → 0 ≤ x < next) → next ≤ u64_max → root_of_u64 (root_to_u64 r) = r.
Proof.
  intros Hr Hn. unfold root_of_u64, root_to_u64. destruct r as [x|]; [|by rewrite Z.eqb_refl].
  specialize (Hr x eq_refl). destruct (Z.eqb_spec x u64_max); [lia|done].
Qed.

Lemma root_to_u64_ok r next : (∀ x, r = Some x → 0 ≤ x < next) → next ≤ u64_max → u64_ok (root_to_u64 r).
Proof. intros Hr Hn. destruct r as [x|]; [specialize (Hr x eq_refl)|]; cbn; ulia. Qed.

Lemma g_begin_read g :
  zlen (g_hash g) = 32 → 2 ≤ g_next g ≤ u64_max → (∀ r, g_root g = Some r → 0 ≤ r < g_next g) →
  bytes_get (g_begin g) 0 32 = g_hash g ∧ le_at (g_begin g) 32 8 = g_next g
  ∧ root_of_u64 (le_at (g_begin g) 40 8) = g_root g.
Proof.
  intros Hh Hn Hr.
  assert (g_begin g = concat [g_hash g; to_le_bytes 8 (g_next g); to_le_bytes 8 (root_to_u64 (g_root g))]) as E.
  { cbn [concat]. by rewrite app_nil_r. }
  assert (∀ n i z, 0 ≤ z ≤ u64_max → [g_hash g; to_le_bytes 8 (g_next g); to_le_bytes 8 (root_to_u64 (g_root g))] !! i = Some (to_le_bytes 8 z) →
     chunks_len (take i [g_hash g; to_le_bytes 8 (g_next g); to_le_bytes 8 (root_to_u64 (g_root g))]) = n → le_at (g_begin g) n 8 = z) as Hf.
  { intros n i z Hz Hi Hl. unfold le_at. rewrite E, (chunk_get _ i _ _ _ Hi Hl) by apply zlen_to_le_bytes.
    apply from_to_le_small. change (256 ^ Z.of_nat 8) with (u64_max + 1). lia. }
  split_and!.
  - rewrite E. by apply (chunk_get _ 0).
  - apply (Hf _ 1%nat); [lia|done|]. unfold chunks_len; cbn. lia.
  - rewrite (Hf _ 2%nat (root_to_u64 (g_root g))); [apply (root_of_to _ (g_next g)); [done|lia]|apply (root_to_u64_ok _ (g_next g)); [done|lia]|done|].
    unfold chunks_len; cbn [take fmap list_fmap foldr]. rewrite zlen_to_le_bytes. lia.
Qed.

(** ** The images of a group *)

Lemma length_stamped off idx ps : length (stamped off idx ps) = length ps.
Proof. revert off. induction ps; intros; cbn; auto. Qed.

Lemma stamped_ids off idx ps :
  Forall (λ p, page_ok p ∧ page_shape p) ps → page_id <$> stamped off idx ps = page_id <$> ps.
Proof.
  intros Hps. revert off. induction Hps as [|p ps [Hp Hs] _ IH]; intros off; [done|].
  cbn [stamped fmap list_fmap]. by rewrite stamp_id, IH.
Qed.

(** The image frames and the pages they hold. *)
Inductive images_at : Z → list Page → Prop :=
| images_nil off : images_at off []
| images_cons off p ps :
    page_valid p → page_lsn p = off → images_at (off + IMAGE_FRAME) ps → images_at off (p :: ps).

Lemma stamped_images off idx ps :
  Forall (λ p, page_ok p ∧ page_shape p) ps → 0 ≤ off → off + IMAGE_FRAME * zlen ps ≤ u64_max →
  images_at off (stamped off idx ps).
Proof.
  intros Hps. revert off. induction Hps as [|p ps [Hp Hs] _ IH]; intros off H0 Hend; [constructor|].
  rewrite zlen_cons in Hend. pose proof (zlen_nonneg ps). unfold IMAGE_FRAME in *.
  constructor; [by apply stamp_valid|apply stamp_lsn; done || ulia|apply IH; unfold IMAGE_FRAME; lia].
Qed.

Lemma specs_ok_app off sps sps' :
  specs_ok off sps → specs_ok (off + zlen (specs_bytes sps)) sps' → specs_ok off (sps ++ sps').
Proof.
  revert off. induction sps as [|sp sps IH]; intros off Hok Hok'.
  - by rewrite Z.add_0_r in Hok'.
  - destruct Hok as (Hl & ? & ? & ? & ? & Hok). cbn. split_and!; try done. apply IH; [done|].
    rewrite specs_bytes_cons, zlen_app, zlen_spec_bytes in Hok'. unfold spec_end.
    by rewrite Hl, <- (Z.add_assoc _ FRAME_FIXED), <- Z.add_assoc.
Qed.

Lemma zlen_image_specs off idx ps :
  Forall page_ok ps → zlen (specs_bytes (image_specs off idx ps)) = IMAGE_FRAME * zlen ps.
Proof.
  intros Hps. revert off. induction Hps as [|p ps Hp _ IH]; intros off; [done|].
  cbn [image_specs]. rewrite specs_bytes_cons, zlen_app, zlen_spec_bytes, IH, zlen_cons.
  cbn [sp_payload]. rewrite zlen_image_payload by done. unfold IMAGE_FRAME, FRAME_FIXED, PAGE_SIZE. lia.
Qed.

Lemma image_specs_ok off idx ps :
  Forall page_ok ps → u64_ok idx → 0 ≤ off → off + IMAGE_FRAME * zlen ps ≤ u64_max →
  specs_ok off (image_specs off idx ps).
Proof.
  intros Hps Hidx. revert off. induction Hps as [|p ps Hp _ IH]; intros off H0 Hend.
  { change (zlen []) with 0 in Hend. cbn [image_specs specs_ok]. lia. }
  rewrite zlen_cons in Hend. unfold IMAGE_FRAME in *. cbn [image_specs specs_ok sp_lsn sp_payload sp_index].
  unfold spec_end. cbn [sp_lsn sp_payload]. rewrite zlen_image_payload by done.
  split_and!; try done; [by apply image_payload_ok|].
  replace (off + FRAME_FIXED + (8 + PAGE_SIZE)) with (off + 4144) by (unfold FRAME_FIXED, PAGE_SIZE; lia).
  apply IH; unfold IMAGE_FRAME; lia.
Qed.

Lemma images_at_ok off ps : images_at off ps → Forall page_ok ps.
Proof. induction 1 as [|off p ps []]; constructor; done. Qed.

(** Scanning image frames collects the pages. *)
Lemma scan_images s g off ps :
  images_at off ps →
  Forall (λ p, page_id p < pa_next_page_id g) ps → NoDup (page_id <$> (pa_pages g ++ ps)) →
  scan_run s (Some g) (spec_frame <$> image_specs off (pa_index g) ps)
  = Ok (Continue s (Some (mkPendingApply (pa_index g) (pa_state_hash g) (pa_next_page_id g)
          (pa_root_directory g) (pa_begin_lsn g) (pa_pages g ++ ps)
          (pa_material g ++ concat (image_payload <$> ps))))).
Proof.
  intros Hi. revert g. induction Hi as [off|off p ps Hp Hlsn Hi IH]; intros g Hnext Hnd.
  - cbn. rewrite !app_nil_r. by destruct g.
  - apply Forall_cons in Hnext as [Hid Hnext]. pose proof (valid_ok _ Hp) as Hpo.
    cbn [image_specs fmap list_fmap scan_run].
    set (f := spec_frame (mkSpec PageImage off (pa_index g) (image_payload p))).
    unfold scan_frame at 1. change (fr_kind f) with PageImage. unfold scan_page_image.
    change (fr_apply_index f) with (pa_index g). change (fr_payload f) with (image_payload p).
    change (fr_lsn f) with off. cbn [ok_or mbind result_bind].
    rewrite Z.eqb_refl, zlen_image_payload, Z.eqb_refl by done. cbn [andb ensure mbind result_bind].
    destruct (image_payload_read p Hpo) as [-> ->]. rewrite (proj2 (Z.ltb_lt _ _) Hid).
    cbn [ensure mbind result_bind]. rewrite (page_valid_decode p Hp).
    cbn [mbind result_bind]. rewrite Hlsn, !Z.eqb_refl. cbn [andb ensure mbind result_bind].
    rewrite fmap_app in Hnd. cbn [fmap list_fmap] in Hnd.
    assert (existsb (λ e, page_id e =? page_id p) (pa_pages g) = false) as ->.
    { apply not_true_is_false. intros (q & Hq & Heq)%existsb_exists.
      apply Z.eqb_eq in Heq. apply NoDup_app in Hnd as (_ & Hnd & _). apply (Hnd (page_id p)); [|left].
      rewrite <- Heq. apply list_elem_of_fmap_2. by apply list_elem_of_In. }
    cbn [negb ensure mbind result_bind].
    specialize (IH (mkPendingApply (pa_index g) (pa_state_hash g) (pa_next_page_id g) (pa_root_directory g)
      (pa_begin_lsn g) (pa_pages g ++ [p]) (pa_material g ++ image_payload p))).
    cbn [pa_index pa_state_hash pa_next_page_id pa_root_directory pa_begin_lsn pa_pages pa_material] in IH.
    rewrite <- !app_assoc in IH. apply IH; [done|]. rewrite fmap_app. done.
Qed.


(** ** The whole group *)

Context {Hsha : Sha256Ok}.

Section OneGroup.
Context (off : Z) (g : Group) (Hg : group_ok off g).

Let pages_ok : Forall (λ p, page_ok p ∧ page_shape p) (g_pages g).
Proof. eapply Forall_impl; [apply (gok_pages _ _ Hg)|]. naive_solver. Qed.

Let room : off + BEGIN_FRAME + IMAGE_FRAME * zlen (g_pages g) + COMMIT_FRAME ≤ u64_max.
Proof. apply (gok_room _ _ Hg). Qed.

Lemma zlen_g_stamped : zlen (g_stamped off g) = zlen (g_pages g).
Proof. unfold zlen, g_stamped. by rewrite length_stamped. Qed.

Lemma g_stamped_images : images_at (off + BEGIN_FRAME) (g_stamped off g).
Proof.
  pose proof (gok_off _ _ Hg). apply stamped_images; [done|..]; unfold BEGIN_FRAME, COMMIT_FRAME in *; lia.
Qed.

Lemma g_begin_ok : Forall byte_ok (g_begin g).
Proof.
  destruct (gok_hash _ _ Hg) as [_ Hh]. unfold g_begin, begin_payload.
  repeat apply Forall_app_2; auto using to_le_bytes_ok.
Qed.

Lemma group_specs_ok : specs_ok off (group_specs off g).
Proof.
  pose proof (gok_off _ _ Hg) as H0. destruct (gok_hash _ _ Hg) as [Hh _].
  pose proof (zlen_g_begin g Hh) as Hb. pose proof (gok_index _ _ Hg) as Hi.
  pose proof (images_at_ok _ _ g_stamped_images) as Hok. pose proof (zlen_nonneg (g_pages g)).
  unfold group_specs. cbn [specs_ok begin_spec sp_lsn sp_payload sp_index]. rewrite Hb.
  split_and!; try done; [apply g_begin_ok|].
  replace (spec_end (begin_spec off g)) with (off + BEGIN_FRAME)
    by (unfold spec_end, begin_spec; cbn [sp_lsn sp_payload]; rewrite Hb; unfold BEGIN_FRAME, FRAME_FIXED; lia).
  unfold IMAGE_FRAME, BEGIN_FRAME, COMMIT_FRAME in *.
  apply specs_ok_app.
  - apply image_specs_ok; try done; rewrite ?zlen_g_stamped; unfold IMAGE_FRAME; lia.
  - rewrite zlen_image_specs, zlen_g_stamped by done.
    cbn [specs_ok commit_spec sp_lsn sp_payload sp_index]. unfold spec_end. cbn [sp_lsn sp_payload commit_spec].
    rewrite zlen_app, zlen_to_le_bytes, sha256_len.
    unfold g_commit_lsn, BEGIN_FRAME, IMAGE_FRAME, FRAME_FIXED, MAX_FRAME, PAGE_SIZE.
    split_and!; try done; try lia. apply Forall_app_2; [apply to_le_bytes_ok|apply sha256_bytes].
Qed.

Lemma zlen_group_specs : zlen (specs_bytes (group_specs off g)) = g_end off g - off.
Proof.
  destruct (gok_hash _ _ Hg) as [Hh _]. pose proof (images_at_ok _ _ g_stamped_images).
  unfold group_specs. rewrite specs_bytes_cons, specs_bytes_app, !zlen_app, zlen_image_specs by done.
  rewrite specs_bytes_cons, zlen_app, !zlen_spec_bytes, zlen_g_stamped. unfold begin_spec, commit_spec.
  cbn [sp_payload]. rewrite zlen_g_begin, zlen_app, zlen_to_le_bytes, sha256_len by done.
  change (zlen (specs_bytes [])) with 0.
  unfold g_end, g_commit_lsn, FRAME_FIXED, BEGIN_FRAME, IMAGE_FRAME, COMMIT_FRAME. lia.
Qed.

(** The group the scan holds after BEGIN and [ps]. *)
Definition pending_after (ps : list Page) : PendingApply :=
  mkPendingApply (g_index g) (g_hash g) (g_next g) (g_root g) off ps
    (to_le_bytes 8 (g_index g) ++ g_begin g ++ concat (image_payload <$> ps)).

Lemma scan_group_begin s :
  scan_frame s None (spec_frame (begin_spec off g)) = Ok (Continue s (Some (pending_after []))).
Proof.
  destruct (gok_hash _ _ Hg) as [Hh _]. pose proof (gok_next _ _ Hg) as Hn.
  destruct (g_begin_read g Hh Hn (gok_root _ _ Hg)) as (E1 & E2 & E3).
  unfold scan_frame, spec_frame, frame_at, begin_spec. cbn [sp_kind sp_lsn sp_index sp_payload fr_kind].
  unfold scan_begin. cbn [fr_payload fr_lsn fr_apply_index].
  rewrite zlen_g_begin by done. cbn [Z.eqb Pos.eqb ensure mbind result_bind]. rewrite E1, E2, E3.
  replace (g_next g <? 2) with false by (symmetry; apply Z.ltb_ge; lia).
  assert (match g_root g with Some r => g_next g <=? r | None => false end = false) as ->.
  { destruct (g_root g) as [r|] eqn:Hr; [|done]. apply (gok_root _ _ Hg) in Hr. apply Z.leb_gt. lia. }
  cbn [orb negb ensure mbind result_bind]. unfold pending_after. cbn [fmap list_fmap concat].
  by rewrite app_nil_r.
Qed.

Lemma scan_group_images s k :
  scan_run s (Some (pending_after [])) (spec_frame <$> image_specs (off + BEGIN_FRAME) (g_index g) (take k (g_stamped off g)))
  = Ok (Continue s (Some (pending_after (take k (g_stamped off g))))).
Proof.
  assert (∀ o ps, images_at o ps → ∀ k, images_at o (take k ps)) as Htake.
  { induction 1; intros [|j]; cbn; constructor; eauto. }
  assert (page_id <$> g_stamped off g = page_id <$> g_pages g) as Hids by by apply stamped_ids.
  pose proof (scan_images s (pending_after []) (off + BEGIN_FRAME) (take k (g_stamped off g))) as Hs.
  cbn [pending_after pa_index pa_state_hash pa_next_page_id pa_root_directory pa_begin_lsn pa_pages pa_material] in Hs.
  cbn [fmap list_fmap concat] in Hs. rewrite !app_nil_l, app_nil_r, <- app_assoc in Hs. apply Hs.
  - apply Htake, g_stamped_images.
  - apply Forall_take. assert (Forall (λ x, x < g_next g) (page_id <$> g_stamped off g)) as Hx.
    { rewrite Hids. apply Forall_fmap. eapply Forall_impl; [apply (gok_pages _ _ Hg)|]. cbn. naive_solver. }
    by apply Forall_fmap in Hx.
  - apply (sublist_NoDup _ (page_id <$> g_stamped off g)); [rewrite Hids; apply (gok_nodup _ _ Hg)|].
    apply fmap_sublist, sublist_take.
Qed.

Lemma scan_group_commit s :
  zlen (g_pages g) ≤ u32_max → advances s (g_index g) →
  scan_frame s (Some (pending_after (g_stamped off g))) (spec_frame (commit_spec off g))
  = Ok (Continue (add_group s (committed off g)) None).
Proof.
  intros Hcount Hadv. unfold scan_frame, spec_frame, frame_at, commit_spec.
  cbn [sp_kind sp_lsn sp_index sp_payload fr_kind].
  unfold scan_commit. cbn [ok_or mbind result_bind fr_payload fr_lsn fr_apply_index fr_end pending_after
    pa_index pa_state_hash pa_next_page_id pa_root_directory pa_begin_lsn pa_pages pa_material].
  rewrite Z.eqb_refl, zlen_app, zlen_to_le_bytes, sha256_len. cbn [Z.of_nat Pos.of_succ_nat Pos.succ Z.add Pos.add Z.eqb Pos.eqb andb ensure mbind result_bind].
  set (d := sha256 (g_material off g)).
  assert (le_at (to_le_bytes 4 (zlen (g_pages g)) ++ d) 0 4 = zlen (g_pages g)) as ->.
  { unfold le_at. rewrite <- (app_nil_l (to_le_bytes 4 _ ++ _)).
    rewrite bytes_get_app_mid; [|done|by rewrite zlen_to_le_bytes].
    apply from_to_le_small. change (256 ^ Z.of_nat 4) with (u32_max + 1).
    pose proof (zlen_nonneg (g_pages g)). lia. }
  assert (bytes_get (to_le_bytes 4 (zlen (g_pages g)) ++ d) 4 32 = d) as ->.
  { rewrite <- (app_nil_r (to_le_bytes 4 _ ++ d)), <- app_assoc.
    apply bytes_get_app_mid; [by rewrite zlen_to_le_bytes|apply sha256_len]. }
  rewrite zlen_g_stamped, Z.eqb_refl. rewrite bool_decide_eq_true_2 by done.
  cbn [andb ensure mbind result_bind].
  assert (match last (groups s) with Some lg => negb (g_index g <=? ca_apply_index lg) | None => true end = true) as ->.
  { destruct (last (groups s)) as [lg|] eqn:Hl; [|done]. apply Hadv in Hl.
    apply negb_true_iff, Z.leb_gt. lia. }
  cbn [ensure mbind result_bind]. unfold add_group, committed.
  cbn [ca_end_lsn].
  replace (g_commit_lsn off g + FRAME_FIXED + (Z.of_nat 4 + 32)) with (g_end off g)
    by (unfold g_end, COMMIT_FRAME, FRAME_FIXED; lia).
  done.
Qed.

Lemma scan_group s :
  zlen (g_pages g) ≤ u32_max → advances s (g_index g) →
  scan_run s None (spec_frame <$> group_specs off g) = Ok (Continue (add_group s (committed off g)) None).
Proof.
  intros Hcount Hadv. unfold group_specs. cbn [fmap list_fmap scan_run]. rewrite scan_group_begin.
  cbn [mbind result_bind]. change (list_fmap _ _ spec_frame) with (fmap (M:=list) spec_frame). rewrite fmap_app.
  pose proof (scan_group_images s (length (g_stamped off g))) as Hi. rewrite firstn_all in Hi.
  rewrite (scan_run_app _ _ _ _ _ _ Hi). cbn [fmap list_fmap scan_run].
  by rewrite (scan_group_commit _ Hcount Hadv).
Qed.

Lemma image_specs_take o idx ps k : take k (image_specs o idx ps) = image_specs o idx (take k ps).
Proof. revert o k. induction ps; intros o [|k]; cbn; f_equal; auto. Qed.

Lemma length_image_specs o idx ps : length (image_specs o idx ps) = length ps.
Proof. revert o. induction ps; intros; cbn; auto. Qed.

(** Fewer frames than the whole group leave the scan as it was. *)
Lemma scan_group_take s k :
  (k < length (group_specs off g))%nat →
  ∃ pending, scan_run s None (spec_frame <$> take k (group_specs off g)) = Ok (Continue s pending).
Proof.
  intros Hk. destruct k as [|k]; [by exists None|]. unfold group_specs in *.
  cbn [take fmap list_fmap scan_run length] in *. rewrite scan_group_begin. cbn [mbind result_bind].
  rewrite length_app, length_image_specs in Hk. cbn [length] in Hk.
  rewrite take_app_le by (rewrite length_image_specs; lia). rewrite image_specs_take.
  eexists. apply scan_group_images.
Qed.
End OneGroup.

(** ** Appending a group to a clean log *)

Lemma clean_add_group l s g :
  clean l s → group_ok (zlen l) g → zlen (g_pages g) ≤ u32_max → advances s (g_index g) →
  clean (l ++ specs_bytes (group_specs (zlen l) g)) (add_group s (committed (zlen l) g)).
Proof.
  intros Hc Hg Hcount Hadv. pose proof (zlen_group_specs _ _ Hg) as Hlen.
  pose proof (specs_decode l _ [] (group_specs_ok _ _ Hg)) as Hd. rewrite app_nil_r in Hd.
  destruct Hc as [(fs & Hs & Hr) He Ht Hl]. split.
  - exists (fs ++ (spec_frame <$> group_specs (zlen l) g)). split.
    + eapply seg_app; [by apply seg_extend|]. by rewrite zlen_app.
    + rewrite (scan_run_app _ _ _ _ _ _ Hr). by apply scan_group.
  - cbn [add_group safe_append_offset committed ca_end_lsn]. rewrite zlen_app, Hlen. lia.
  - done.
  - rewrite zlen_app, Hlen. pose proof (gok_room _ _ Hg). lia.
Qed.

(** The frames of an apply group are atomic in the log.  Whatever proper
    prefix of their bytes reaches a clean log, cut inside a frame or between
    two, the scan still succeeds, shows the groups and checkpoints that were
    there before and would truncate back to the old end; with all the bytes it
    shows exactly one group more, with the arguments of the append. *)
Theorem group_append_atomic l s g p rest :
  clean l s → group_ok (zlen l) g → advances s (g_index g) →
  specs_bytes (group_specs (zlen l) g) = p ++ rest →
  (rest ≠ [] → ∃ torn, scan_bytes (l ++ p) = Ok (set_torn torn s) ∧ safe_append_offset s = zlen l)
  ∧ (rest = [] → zlen (g_pages g) ≤ u32_max → scan_bytes (l ++ p) = Ok (add_group s (committed (zlen l) g))
       ∧ ca_end_lsn (committed (zlen l) g) = zlen (l ++ p)).
Proof.
  intros Hc Hg Hadv Hp. split.
  - intros Hrest. destruct (scan_clean_prefix l s _ p rest Hc (group_specs_ok _ _ Hg) Hp Hrest) as (k & t & Hk & Hscan).
    destruct (scan_group_take _ _ Hg s k Hk) as [pend Hrun].
    exists t. split; [by apply (Hscan _ Hrun)|apply (clean_end _ _ Hc)].
  - intros -> Hcount. rewrite app_nil_r in Hp. subst p. pose proof (clean_add_group _ _ _ Hc Hg Hcount Hadv) as Hc'.
    split; [by apply clean_scan|]. by rewrite <- (clean_end _ _ Hc').
Qed.
End Groups.
