(* ===== verification/StoragePager.v ===== *)
(** * Superblocks, recovery and the durable pager: [crates/aster-storage/src/recovery.rs]

    Two superblock slots, pages 0 and 1, are written in turn; the valid one with
    the higher generation is current.  [recover] replays the committed groups of
    the log that the superblock has not reached; [apply] logs a group, writes its
    pages and publishes the next superblock. *)

From S2P Require Import Prelude StorageBytes StoragePage StorageIo StorageWal.

Definition SUPER_MAGIC : bytes := [65; 83; 84; 69; 82; 68; 66; 0].
Definition SUPER_VERSION : Z := 1.

Record Superblock : Type := mkSuper {
  slot : Z;
  generation : Z;
  sb_applied_index : Z;
  sb_state_hash : bytes;
  checkpoint_lsn : Z;
  next_page_id : Z;
  root_directory : option Z
}.

#[export] Instance Superblock_eq_dec : EqDecision Superblock.
Proof. solve_decision. Defined.

Definition genesis : Superblock := {|
  slot := 0;
  generation := 1;
  sb_applied_index := 0;
  sb_state_hash := zeros 32;
  checkpoint_lsn := 0;
  next_page_id := 2;
  root_directory := None
|}.

Definition superblock_encode (self : Superblock) : sresult Page :=
  _ ← ensure (negb (1 <? slot self)) (SInvariant ("invalid superblock slot " +:+ pretty (slot self)));
  let page := page_new (slot self) KSuperblock in
  let page := put_payload page 0 SUPER_MAGIC in
  let page := put_payload page 8 (to_le_bytes 2 SUPER_VERSION) in
  let page := put_payload page 10 [slot self] in
  let page := put_payload page 11 (zeros 5) in
  let page := put_payload page 16 (to_le_bytes 8 (generation self)) in
  let page := put_payload page 24 (to_le_bytes 8 (sb_applied_index self)) in
  let page := put_payload page 32 (sb_state_hash self) in
  let page := put_payload page 64 (to_le_bytes 8 (checkpoint_lsn self)) in
  let page := put_payload page 72 (to_le_bytes 8 (next_page_id self)) in
  let page := put_payload page 80 (to_le_bytes 8 (root_to_u64 (root_directory self))) in
  let page := set_layout page 152 PAGE_SIZE 0 in
  let page := set_page_epoch page (sb_applied_index self) in
  Ok (seal page).

Definition read_u64 (l : bytes) (offset : Z) : sresult Z :=
  stop ← ok_or (checked_add offset 8) (InvalidPage "superblock offset overflow");
  source ← ok_or (slice_get l offset stop) (InvalidPage "truncated superblock");
  Ok (from_le_bytes source).

Definition superblock_decode (page : Page) : sresult Superblock :=
  _ ← page_validate page;
  _ ← ensure (negb (negb (bool_decide (page_kind page = KSuperblock)) || (1 <? page_id page)))
        (InvalidPage "expected superblock page 0 or 1");
  let payload := payload page in
  _ ← ensure (bool_decide (bytes_get payload 0 8 = SUPER_MAGIC)) (InvalidPage "bad superblock magic");
  let version := le_at payload 8 2 in
  _ ← ensure (version =? SUPER_VERSION)
        (InvalidPage ("unsupported superblock version " +:+ pretty version));
  let slot := le_at payload 10 1 in
  _ ← ensure (negb (negb (slot =? page_id page) || existsb (λ b, negb (b =? 0)) (bytes_get payload 11 5)))
        (InvalidPage "superblock slot or reserved bytes invalid");
  generation ← read_u64 payload 16;
  applied_index ← read_u64 payload 24;
  let state_hash := bytes_get payload 32 32 in
  checkpoint_lsn ← read_u64 payload 64;
  next_page_id ← read_u64 payload 72;
  root ← read_u64 payload 80;
  _ ← ensure (negb (next_page_id <? 2)) (InvalidPage "superblock allocator overlaps metadata");
  Ok {| slot := slot;
        generation := generation;
        sb_applied_index := applied_index;
        sb_state_hash := state_hash;
        checkpoint_lsn := checkpoint_lsn;
        next_page_id := next_page_id;
        root_directory := root_of_u64 root |}.

(** [valid.sort_by_key(|superblock| superblock.generation)] *)
Definition sb_le (a b : Superblock) : Prop := generation a ≤ generation b.
#[export] Instance sb_le_dec a b : Decision (sb_le a b).
Proof. unfold sb_le. apply _. Defined.

Record RecoveryReport : Type := mkReport {
  groups_examined : Z;
  groups_replayed : Z;
  pages_replayed : Z;
  pages_already_current : Z;
  final_applied_index : Z
}.

Definition empty_report : RecoveryReport := mkReport 0 0 0 0 0.

Section Pager.
Context `{Sha256} {S : Type} `{!WalIo S} `{!Disk S}.

(** One slot: a valid superblock, nothing, or a failure. *)
Definition read_slot (slot : Z) : io S (sresult Superblock) :=
  r ← io_try (read_page slot);
  mret (l ← r; page ← page_decode l; superblock_decode page).

(** The text of the collected failures is left out. *)
Definition pick_superblock (r0 r1 : sresult Superblock) : sresult (option Superblock) :=
  let valid := match r0 with Ok sb => [sb] | Err _ => [] end
               ++ match r1 with Ok sb => [sb] | Err _ => [] end in
  let failed r := match r with Ok _ | Err (SNotFound _) => false | Err _ => true end in
  match last (merge_sort sb_le valid) with
  | Some latest => Ok (Some latest)
  | None => if failed r0 || failed r1 then Err (InvalidPage "neither superblock is valid") else Ok None
  end.

Definition read_superblock : io S (option Superblock) :=
  r0 ← read_slot 0;
  r1 ← read_slot 1;
  io_lift (pick_superblock r0 r1).

Definition replay_page (report : RecoveryReport) (image : Page) : io S RecoveryReport :=
  r ← io_try (read_page (page_id image));
  current_lsn ← match r with
    | Ok l =>
        match page_decode l with
        | Ok page =>
            if page_id page =? page_id image then mret (Some (page_lsn page))
            else io_err (InvalidPage ("physical page " +:+ pretty (page_id image) +:+ " contains page "
                           +:+ pretty (page_id page)))
        | Err _ => mret None
        end
    | Err (SNotFound _) => mret None
    | Err error => io_err error
    end;
  if match current_lsn with Some lsn => page_lsn image <=? lsn | None => false end then
    mret (mkReport (groups_examined report) (groups_replayed report) (pages_replayed report)
            (pages_already_current report + 1)%u64 (final_applied_index report))
  else
    _ ← write_page (page_id image) (page_bytes image);
    mret (mkReport (groups_examined report) (groups_replayed report) (pages_replayed report + 1)%u64
            (pages_already_current report) (final_applied_index report)).

Definition replay_group (group : CommittedApply) (report : RecoveryReport) : io S RecoveryReport :=
  io_foldM replay_page report (ca_pages group).

Definition publish_superblock (previous : Superblock) (applied_index : Z) (state_hash : bytes)
    (checkpoint_lsn next_page_id : Z) (root_directory : option Z) : io S Superblock :=
  generation ← io_lift (ok_or (checked_add (generation previous) 1)
                          (SInvariant "superblock generation exhausted"));
  let next := mkSuper (1 - slot previous) generation applied_index state_hash checkpoint_lsn
                next_page_id root_directory in
  page ← io_lift (superblock_encode next);
  _ ← write_page (page_id page) (page_bytes page);
  _ ← disk_sync;
  mret next.

(** One turn of the loop of [recover]. *)
Definition recover_group (acc : Superblock * RecoveryReport) (group : CommittedApply)
  : io S (Superblock * RecoveryReport) :=
  let '(state, report) := acc in
  let report := mkReport (groups_examined report + 1)%u64 (groups_replayed report) (pages_replayed report)
                  (pages_already_current report) (final_applied_index report) in
  if ca_apply_index group <? sb_applied_index state then mret (state, report)
  else if ca_apply_index group =? sb_applied_index state then
    _ ← io_ensure (bool_decide (ca_state_hash group = sb_state_hash state))
          (SInvariant ("WAL group " +:+ pretty (ca_apply_index group) +:+ " conflicts with durable state hash"));
    mret (state, report)
  else
    _ ← io_ensure (negb (negb (sb_applied_index state =? 0)
                         && negb (ca_apply_index group =? (sb_applied_index state + 1)%u64)))
          (SInvariant ("WAL apply gap: durable " +:+ pretty (sb_applied_index state) +:+ ", next "
             +:+ pretty (ca_apply_index group)));
    report ← replay_group group report;
    _ ← disk_sync;
    state ← publish_superblock state (ca_apply_index group) (ca_state_hash group)
              (checkpoint_lsn state) (ca_next_page_id group) (ca_root_directory group);
    mret (state, mkReport (groups_examined report) (groups_replayed report + 1)%u64 (pages_replayed report)
            (pages_already_current report) (final_applied_index report)).

(** The checks on the checkpoint the superblock names. *)
Definition check_checkpoint (current : Superblock) (scan : WalScan) : sresult unit :=
  _ ← ensure (negb (safe_append_offset scan <? checkpoint_lsn current))
        (SInvariant ("superblock checkpoint LSN " +:+ pretty (checkpoint_lsn current)
           +:+ " exceeds verified WAL end " +:+ pretty (safe_append_offset scan)));
  if checkpoint_lsn current =? 0 then Ok tt else
  checkpoint ← ok_or (find (λ c, cp_end_lsn c =? checkpoint_lsn current) (checkpoints scan))
                 (SInvariant ("superblock references missing checkpoint " +:+ pretty (checkpoint_lsn current)));
  ensure ((cp_applied_index checkpoint =? sb_applied_index current)
          && bool_decide (cp_state_hash checkpoint = sb_state_hash current))
    (SInvariant "checkpoint index/hash disagrees with superblock").

Definition recover (scan : WalScan) : io S (Superblock * RecoveryReport) :=
  found ← read_superblock;
  let current := default genesis found in
  _ ← io_lift (check_checkpoint current scan);
  '(state, report) ← io_foldM recover_group (current, empty_report) (groups scan);
  mret (state, mkReport (groups_examined report) (groups_replayed report) (pages_replayed report)
          (pages_already_current report) (sb_applied_index state)).

(** ** [DurablePager]: the handle keeps the current superblock *)

Definition pager_open : io S (Superblock * RecoveryReport) :=
  _ ← wal_open;
  scan ← wal_scan;
  found ← read_superblock;
  '(state, report) ← recover scan;
  match found with
  | Some _ => mret (state, report)
  | None =>
      first ← io_lift (superblock_encode state);
      _ ← write_page (page_id first) (page_bytes first);
      _ ← disk_sync;
      state ← publish_superblock state (sb_applied_index state) (sb_state_hash state)
                (checkpoint_lsn state) (next_page_id state) (root_directory state);
      mret (state, report)
  end.

(** [apply]: the group and the superblock the handle holds afterwards; on an
    error it keeps [state]. *)
Definition pager_apply (state : Superblock) (apply_index : Z) (state_hash : bytes) (pages : list Page)
    (next_page : Z) (root : option Z) : io S (CommittedApply * Superblock) :=
  _ ← io_ensure (negb (existsb (λ page, page_id page <? 2) pages))
        (SInvariant "apply group may not overwrite superblocks");
  if apply_index =? sb_applied_index state then
    _ ← io_ensure (bool_decide (state_hash = sb_state_hash state))
          (SInvariant "duplicate apply index has different hash");
    scan ← wal_scan;
    existing ← io_lift (ok_or (find (λ group, ca_apply_index group =? apply_index) (groups scan))
                          (SNotFound ("WAL group " +:+ pretty apply_index)));
    mret (existing, state)
  else
    _ ← io_ensure (apply_index =? (sb_applied_index state + 1)%u64)
          (SInvariant ("serialized apply expected index " +:+ pretty (sb_applied_index state + 1)%u64
             +:+ ", got " +:+ pretty apply_index));
    _ ← io_ensure (negb ((next_page <? next_page_id state)
                         || existsb (λ page, next_page <=? page_id page) pages))
          (SInvariant "invalid next-page high-water mark");
    '(group, _) ← append_apply_with_metadata apply_index state_hash next_page root pages;
    _ ← replay_group group empty_report;
    _ ← disk_sync;
    state ← publish_superblock state apply_index state_hash 0 next_page root;
    mret (group, state).

(** The write loop of [install_snapshot]. *)
Definition install_page (apply_index : Z) (_ : unit) (page : Page) : io S unit :=
  _ ← io_ensure (negb (page_id page <? 2)) (SInvariant "snapshot may not overwrite superblocks");
  let page := set_page_epoch (set_lsn page 0) apply_index in
  _ ← io_lift (page_validate page);
  write_page (page_id page) (page_bytes page).

(** [pages.windows(2).any(|pair| pair[0].id() == pair[1].id())] *)
Fixpoint adjacent_equal (pages : list Page) : bool :=
  match pages with
  | p :: ((q :: _) as rest) => (page_id p =? page_id q) || adjacent_equal rest
  | _ => false
  end.

Definition install_snapshot (state : Superblock) (apply_index : Z) (state_hash : bytes)
    (pages : list Page) (next_page root : Z) : io S Superblock :=
  if apply_index =? sb_applied_index state then
    _ ← io_ensure (bool_decide (state_hash = sb_state_hash state)
                   && bool_decide (root_directory state = Some root))
          (SInvariant "duplicate snapshot index disagrees with durable state");
    mret state
  else
    _ ← io_ensure (negb (apply_index <? sb_applied_index state))
          (SInvariant ("snapshot index " +:+ pretty apply_index +:+ " is behind durable index "
             +:+ pretty (sb_applied_index state)));
    _ ← io_ensure (negb ((next_page <=? next_page_id state)
                         || bool_decide (pages = [])
                         || existsb (λ page, (page_id page <? next_page_id state)
                                             || (next_page <=? page_id page)) pages
                         || negb (existsb (λ page, page_id page =? root) pages)))
          (SInvariant "snapshot pages are not a fresh, bounded allocation range");
    let pages := sort_pages pages in
    _ ← io_ensure (negb (adjacent_equal pages)) (SInvariant "snapshot contains duplicate page ids");
    _ ← io_foldM (install_page apply_index) tt pages;
    _ ← disk_sync;
    publish_superblock state apply_index state_hash 0 next_page (Some root).

Definition pager_checkpoint (state : Superblock) : io S (Checkpoint * Superblock) :=
  _ ← disk_sync;
  scan ← wal_scan;
  let through_lsn := match last (groups scan) with Some group => ca_end_lsn group | None => 0 end in
  '(marker, _) ← append_checkpoint through_lsn (sb_applied_index state) (sb_state_hash state);
  state ← publish_superblock state (sb_applied_index state) (sb_state_hash state) (cp_end_lsn marker)
            (next_page_id state) (root_directory state);
  mret (marker, state).
End Pager.
