(* ===== verification/StorageLaws.v ===== *)
(** * What the storage devices promise, and what a crash may do

    A view of a world: the bytes of the log, the pages of the disk, and every
    earlier content since the last sync.  [StorageLaws] is the contract of the
    traits [WalIo] and [Disk] the log and the pager rely on: reads return what is
    there; an update that succeeds has its whole effect, one that fails may have
    had part of it.  A
    crash keeps a log between two of its contents, and of each page one of its
    contents or, if it was being written, bytes that no longer decode. *)

From S2P Require Import Prelude StorageBytes StoragePage StorageIo.

Record View : Type := mkView {
  v_log : bytes;
  v_log_old : list bytes;
  v_pages : gmap Z bytes;
  v_pages_old : list (gmap Z bytes)
}.

Definition log_write (l : bytes) (v : View) : View :=
  mkView l (v_log v :: v_log_old v) (v_pages v) (v_pages_old v).
Definition log_synced (v : View) : View := mkView (v_log v) [] (v_pages v) (v_pages_old v).
Definition pages_write (m : gmap Z bytes) (v : View) : View :=
  mkView (v_log v) (v_log_old v) m (v_pages v :: v_pages_old v).
Definition pages_synced (v : View) : View := mkView (v_log v) (v_log_old v) (v_pages v) [].

(** Page bytes a checksum rejects. *)
Definition undecodable (l : bytes) : Prop := is_ok (page_decode l) = false.

(** Content a failed write may leave. *)
Definition torn (old : option bytes) (new x : bytes) : Prop :=
  x = new ∨ old = Some x ∨ undecodable x.

Class StorageLaws (S : Type) `{WalIo S} `{Disk S} := {
  view : S → View;
  (** whether updates may fail at all *)
  may_fail : Prop;
  wal_len_law s r s' : wal_len s = (r, s') → zlen (v_log (view s)) ≤ u64_max →
    view s' = view s ∧ r = Ok (zlen (v_log (view s)));
  wal_read_all_law s r s' : wal_read_all s = (r, s') →
    view s' = view s ∧ r = Ok (v_log (view s));
  wal_append_law l s r s' : wal_append l s = (r, s') →
    match r with
    | Ok _ => view s' = log_write (v_log (view s) ++ l) (view s)
    | Err _ => may_fail ∧ (view s' = view s ∨
        ∃ p, p `prefix_of` l ∧ view s' = log_write (v_log (view s) ++ p) (view s))
    end;
  wal_sync_law s r s' : wal_sync s = (r, s') →
    match r with
    | Ok _ => view s' = log_synced (view s)
    | Err _ => may_fail ∧ (view s' = view s ∨ view s' = log_synced (view s))
    end;
  wal_truncate_law n s r s' : wal_truncate n s = (r, s') → 0 ≤ n ≤ zlen (v_log (view s)) → n ≤ u64_max →
    match r with
    | Ok _ => view s' = log_write (ztake n (v_log (view s))) (view s)
    | Err _ => may_fail ∧ (view s' = view s ∨ view s' = log_write (ztake n (v_log (view s))) (view s))
    end;
  read_page_law id s r s' : read_page id s = (r, s') →
    view s' = view s ∧
    match v_pages (view s) !! id with
    | Some l => r = Ok l
    | None => ∃ what, r = Err (SNotFound what)
    end;
  write_page_law id l s r s' : write_page id l s = (r, s') →
    match r with
    | Ok _ => view s' = pages_write (<[id := l]> (v_pages (view s))) (view s)
    | Err _ => may_fail ∧ (view s' = view s ∨
        ∃ x, torn (v_pages (view s) !! id) l x ∧ view s' = pages_write (<[id := x]> (v_pages (view s))) (view s))
    end;
  disk_sync_law s r s' : disk_sync s = (r, s') →
    match r with
    | Ok _ => view s' = pages_synced (view s)
    | Err _ => may_fail ∧ (view s' = view s ∨ view s' = pages_synced (view s))
    end;
  page_count_law s r s' : page_count s = (r, s') → view s' = view s ∧ ∃ n, r = Ok n
}.

(** ** Crashes *)

(** A log that may be found after a crash. *)
Definition log_survives (v : View) (c : bytes) : Prop :=
  ∃ a b, a ∈ v_log v :: v_log_old v ∧ b ∈ v_log v :: v_log_old v ∧ a `prefix_of` c ∧ c `prefix_of` b.

(** A disk that may be found after a crash. *)
Definition pages_survive (v : View) (m : gmap Z bytes) : Prop :=
  ∀ id, (∃ m', m' ∈ v_pages v :: v_pages_old v ∧ m !! id = m' !! id)
    ∨ (∃ m1 m2 x, m1 ∈ v_pages v :: v_pages_old v ∧ m2 ∈ v_pages v :: v_pages_old v
         ∧ m1 !! id ≠ m2 !! id ∧ m !! id = Some x ∧ undecodable x).

(** The view after the crash: everything found is durable. *)
Inductive crashed (v : View) : View → Prop :=
| crashed_intro c m : log_survives v c → pages_survive v m → crashed v (mkView c [] m []).

Lemma log_survives_self v : log_survives v (v_log v).
Proof. exists (v_log v), (v_log v). split_and!; set_solver. Qed.

Lemma pages_survive_self v : pages_survive v (v_pages v).
Proof. intros id. left. exists (v_pages v). set_solver. Qed.

(** With nothing unsynced, a crash changes nothing. *)
Lemma log_survives_synced v c : v_log_old v = [] → log_survives v c → c = v_log v.
Proof.
  intros Hv (a & b & Ha & Hb & Hac & Hcb). rewrite Hv in Ha, Hb.
  apply list_elem_of_singleton in Ha as ->, Hb as ->.
  apply (anti_symm prefix); done.
Qed.

Lemma pages_survive_synced v m : v_pages_old v = [] → pages_survive v m → m = v_pages v.
Proof.
  intros Hv Hm. apply map_eq. intros id. destruct (Hm id) as [(m' & Hm' & ->)|(m1 & m2 & x & H1 & H2 & Hne & _)].
  - rewrite Hv in Hm'. by apply list_elem_of_singleton in Hm' as ->.
  - rewrite Hv in H1, H2. apply list_elem_of_singleton in H1 as ->, H2 as ->. done.
Qed.

(** A write adds one possible content of one page. *)
Lemma pages_survive_write v id x m :
  pages_survive (pages_write (<[id := x]> (v_pages v)) v) m →
  ∃ m0, pages_survive v m0 ∧ (∀ i, i ≠ id → m !! i = m0 !! i)
    ∧ (m !! id = m0 !! id ∨ m !! id = Some x ∨ ∃ y, m !! id = Some y ∧ undecodable y).
Proof.
  intros Hm. set (new := <[id := x]> (v_pages v)).
  assert (∀ i m', i ≠ id → m' ∈ new :: v_pages v :: v_pages_old v →
    ∃ m'', m'' ∈ v_pages v :: v_pages_old v ∧ m' !! i = m'' !! i) as Hold.
  { intros i m' Hi [->|Hin]%elem_of_cons; [|by exists m'].
    exists (v_pages v). split; [set_solver|]. unfold new. by rewrite lookup_insert_ne. }
  assert (∀ m0, (∀ i, i ≠ id → m0 !! i = m !! i) →
    (∃ m', m' ∈ v_pages v :: v_pages_old v ∧ m0 !! id = m' !! id)
      ∨ (∃ m1 m2 y, m1 ∈ v_pages v :: v_pages_old v ∧ m2 ∈ v_pages v :: v_pages_old v
          ∧ m1 !! id ≠ m2 !! id ∧ m0 !! id = Some y ∧ undecodable y) → pages_survive v m0) as Hm0.
  { intros m0 Heq Hid i. destruct (decide (i = id)) as [->|Hi]; [done|]. rewrite Heq by done.
    destruct (Hm i) as [(m' & Hin & Hl)|(m1 & m2 & y & H1 & H2 & Hne & Hl & Hu)].
    - left. destruct (Hold i m' Hi Hin) as (m'' & ? & E). exists m''. by rewrite Hl.
    - right. destruct (Hold i m1 Hi H1) as (m1' & ? & E1). destruct (Hold i m2 Hi H2) as (m2' & ? & E2).
      exists m1', m2', y. by rewrite <- E1, <- E2. }
  set (reset := partial_alter (λ _, v_pages v !! id) id m).
  assert (pages_survive v reset ∧ ∀ i, i ≠ id → m !! i = reset !! i) as [Hreset Hro].
  { split; [apply Hm0|]; unfold reset.
    - intros i Hi. by rewrite lookup_partial_alter_ne.
    - left. exists (v_pages v). rewrite lookup_partial_alter_eq. set_solver.
    - intros i Hi. by rewrite lookup_partial_alter_ne. }
  destruct (Hm id) as [(m' & Hin & Hl)|(m1 & m2 & y & _ & _ & _ & Hl & Hu)].
  - apply elem_of_cons in Hin as [->|Hin].
    + exists reset. split_and!; [done|done|]. right; left. rewrite Hl. cbn. by rewrite lookup_insert_eq.
    + exists m. split_and!; [|done|by left]. apply Hm0; [done|]. left. by exists m'.
  - exists reset. split_and!; [done|done|]. right; right. by exists y.
Qed.

(** ** Reasoning about updates that may fail

    [wp m s P Q]: run from [s], [m] returns a value and a world that satisfy [P],
    or an error and a world whose view satisfies [Q]. *)

Section Logic.
Context {S : Type} `{!WalIo S} `{!Disk S} {laws : StorageLaws S}.

Definition wp {A} (m : io S A) (s : S) (P : A → S → Prop) (Q : View → Prop) : Prop :=
  match m s with
  | (Ok a, s') => P a s'
  | (Err _, s') => Q (view s')
  end.

Lemma wp_ret {A} (a : A) s (P : A → S → Prop) (Q : View → Prop) : P a s → wp (mret a) s P Q.
Proof. done. Qed.

Lemma wp_bind {A B} (m : io S A) (f : A → io S B) s P Q :
  wp m s (λ a s', wp (f a) s' P Q) Q → wp (m ≫= f) s P Q.
Proof. unfold wp, mbind, io_bind. by destruct (m s) as [[a|e] s']. Qed.

Lemma wp_weaken {A} (m : io S A) s (P P' : A → S → Prop) (Q Q' : View → Prop) :
  wp m s P Q → (∀ a s', P a s' → P' a s') → (∀ v, Q v → Q' v) → wp m s P' Q'.
Proof. unfold wp. destruct (m s) as [[a|e] s']; auto. Qed.

Lemma wp_lift {A} (r : sresult A) s P (Q : View → Prop) :
  (∀ a, r = Ok a → P a s) → (∀ e, r = Err e → Q (view s)) → wp (io_lift r) s P Q.
Proof. unfold wp, io_lift. destruct r; eauto. Qed.

Lemma wp_lift_Ok {A} (a : A) s P (Q : View → Prop) : P a s → wp (io_lift (Ok a)) s P Q.
Proof. done. Qed.

Lemma wp_ensure c e s (P : unit → S → Prop) (Q : View → Prop) :
  (c = true → P tt s) → (c = false → Q (view s)) → wp (io_ensure c e) s P Q.
Proof. unfold wp, io_ensure, io_lift, ensure. destruct c; auto. Qed.

Lemma wp_ensure_true c e s (P : unit → S → Prop) (Q : View → Prop) :
  c = true → P tt s → wp (io_ensure c e) s P Q.
Proof. intros. by apply wp_ensure; [|congruence]. Qed.

Lemma wp_try_read id s P (Q : View → Prop) :
  (∀ r s', view s' = view s →
     match v_pages (view s) !! id with Some l => r = Ok l | None => ∃ what, r = Err (SNotFound what) end →
     P r s') → wp (io_try (read_page id)) s P Q.
Proof.
  intros HP. unfold wp, io_try. destruct (read_page id s) as [r s'] eqn:Hr.
  apply read_page_law in Hr as [? ?]. auto.
Qed.

Lemma wp_wal_len s P (Q : View → Prop) :
  zlen (v_log (view s)) ≤ u64_max →
  (∀ s', view s' = view s → P (zlen (v_log (view s))) s') → wp wal_len s P Q.
Proof.
  intros Hl HP. unfold wp. destruct (wal_len s) as [r s'] eqn:Hr. apply wal_len_law in Hr as [? ->]; auto.
Qed.

Lemma wp_wal_read_all s P (Q : View → Prop) :
  (∀ s', view s' = view s → P (v_log (view s)) s') → wp wal_read_all s P Q.
Proof.
  intros HP. unfold wp. destruct (wal_read_all s) as [r s'] eqn:Hr. apply wal_read_all_law in Hr as [? ->]; auto.
Qed.

Lemma wp_wal_append l s P (Q : View → Prop) :
  (∀ s', view s' = log_write (v_log (view s) ++ l) (view s) → P tt s') →
  (may_fail → Q (view s) ∧ ∀ p, p `prefix_of` l → Q (log_write (v_log (view s) ++ p) (view s))) →
  wp (wal_append l) s P Q.
Proof.
  intros HP HQ. unfold wp. destruct (wal_append l s) as [r s'] eqn:Hr. apply wal_append_law in Hr.
  destruct r as [[]|e]; [auto|]. destruct Hr as [Hf [->|(p & Hp & ->)]]; by apply HQ.
Qed.

Lemma wp_wal_sync s P (Q : View → Prop) :
  (∀ s', view s' = log_synced (view s) → P tt s') →
  (may_fail → Q (view s) ∧ Q (log_synced (view s))) → wp wal_sync s P Q.
Proof.
  intros HP HQ. unfold wp. destruct (wal_sync s) as [r s'] eqn:Hr. apply wal_sync_law in Hr.
  destruct r as [[]|e]; [auto|]. destruct Hr as [Hm [-> | ->]]; by apply HQ.
Qed.

Lemma wp_wal_truncate n s P (Q : View → Prop) :
  0 ≤ n ≤ zlen (v_log (view s)) → n ≤ u64_max →
  (∀ s', view s' = log_write (ztake n (v_log (view s))) (view s) → P tt s') →
  (may_fail → Q (view s) ∧ Q (log_write (ztake n (v_log (view s))) (view s))) → wp (wal_truncate n) s P Q.
Proof.
  intros Hn Hm HP HQ. unfold wp. destruct (wal_truncate n s) as [r s'] eqn:Hr. apply wal_truncate_law in Hr; [|done..].
  destruct r as [[]|e]; [auto|]. destruct Hr as [Hf [-> | ->]]; by apply HQ.
Qed.

Lemma wp_write_page id l s P (Q : View → Prop) :
  (∀ s', view s' = pages_write (<[id := l]> (v_pages (view s))) (view s) → P tt s') →
  (may_fail → Q (view s) ∧ ∀ x, torn (v_pages (view s) !! id) l x →
     Q (pages_write (<[id := x]> (v_pages (view s))) (view s))) → wp (write_page id l) s P Q.
Proof.
  intros HP HQ. unfold wp. destruct (write_page id l s) as [r s'] eqn:Hr. apply write_page_law in Hr.
  destruct r as [[]|e]; [auto|]. destruct Hr as [Hf [->|(x & Hx & ->)]]; by apply HQ.
Qed.

Lemma wp_disk_sync s P (Q : View → Prop) :
  (∀ s', view s' = pages_synced (view s) → P tt s') →
  (may_fail → Q (view s) ∧ Q (pages_synced (view s))) → wp disk_sync s P Q.
Proof.
  intros HP HQ. unfold wp. destruct (disk_sync s) as [r s'] eqn:Hr. apply disk_sync_law in Hr.
  destruct r as [[]|e]; [auto|]. destruct Hr as [Hm [-> | ->]]; by apply HQ.
Qed.
End Logic.
