(* ===== verification/StorageReplay.v ===== *)
(** * Superblock pages: encoding and the choice between the two slots *)

From S2P Require Import Prelude StorageBytes StoragePage StorageIo StorageWal StorageFrames StorageGroups StoragePager StorageScan StorageLaws.

(** What the fields of a superblock range over. *)
Record sb_ok (sb : Superblock) : Prop := {
  sbok_slot : slot sb = 0 ∨ slot sb = 1;
  sbok_generation : u64_ok (generation sb);
  sbok_index : u64_ok (sb_applied_index sb);
  sbok_hash : zlen (sb_state_hash sb) = 32 ∧ Forall byte_ok (sb_state_hash sb);
  sbok_checkpoint : u64_ok (checkpoint_lsn sb);
  sbok_next : 2 ≤ next_page_id sb ≤ u64_max;
  sbok_root : ∀ r, root_directory sb = Some r → 0 ≤ r < u64_max
}.

Lemma genesis_ok : sb_ok genesis.
Proof.
  split; cbn; try (unfold u64_ok; done); [by left|split; [done|apply zeros_ok]].
Qed.

(** ** Consecutive writes are one write *)

Lemma bytes_put_app l off v w :
  0 ≤ off → off + zlen v + zlen w ≤ zlen l →
  bytes_put (bytes_put l off v) (off + zlen v) w = bytes_put l off (v ++ w).
Proof.
  intros. pose proof (zlen_nonneg v). pose proof (zlen_nonneg w). apply znth_ext.
  - rewrite !zlen_bytes_put by (rewrite ?zlen_bytes_put, ?zlen_app; lia). done.
  - intros i. rewrite !zlen_bytes_put by (rewrite ?zlen_bytes_put; lia). intros Hi.
    rewrite !znth_bytes_put by (rewrite ?zlen_bytes_put, ?zlen_app; lia). rewrite zlen_app.
    buf_case; try done.
    + rewrite znth_app_r by lia. f_equal. lia.
    + by rewrite znth_app_l by lia.
Qed.

#[local] Opaque seal page_new.

Section Codec.
Context (sb : Superblock).

Definition sb_chunks : list bytes :=
  [SUPER_MAGIC; to_le_bytes 2 SUPER_VERSION; [slot sb]; zeros 5; to_le_bytes 8 (generation sb);
   to_le_bytes 8 (sb_applied_index sb); sb_state_hash sb; to_le_bytes 8 (checkpoint_lsn sb);
   to_le_bytes 8 (next_page_id sb); to_le_bytes 8 (root_to_u64 (root_directory sb))].

Context (Hsb : sb_ok sb).

Lemma zlen_sb_chunks : zlen (concat sb_chunks) = 88.
Proof.
  destruct (sbok_hash _ Hsb) as [Hh _]. rewrite zlen_concat. unfold chunks_len, sb_chunks.
  cbn [fmap list_fmap foldr]. rewrite !zlen_to_le_bytes, Hh. done.
Qed.

Lemma sb_chunks_ok : Forall byte_ok (concat sb_chunks).
Proof.
  destruct (sbok_hash _ Hsb) as [_ Hh]. apply Forall_concat. unfold sb_chunks.
  rewrite !(@Forall_cons _ (Forall byte_ok)).
  split_and!; try apply to_le_bytes_ok; try done; try apply zeros_ok; try apply Forall_nil_2.
  - apply (bool_decide_unpack (Forall (λ b, 0 ≤ b < 256) _)). by vm_compute.
  - apply Forall_singleton. unfold byte_ok. destruct (sbok_slot _ Hsb) as [-> | ->]; lia.
Qed.

Definition sb_new : Page := page_new (slot sb) KSuperblock.

Lemma sb_new_valid : page_valid sb_new ∧ page_id sb_new = slot sb ∧ page_lsn sb_new = 0 ∧ page_kind sb_new = KSuperblock.
Proof. apply page_new_valid. destruct (sbok_slot _ Hsb) as [-> | ->]; done. Qed.

(** The page before its layout, epoch and checksum. *)
Definition sb_body : Page := put_bytes sb_new 64 (concat sb_chunks).

Definition laid_out : Page := set_layout sb_body 152 PAGE_SIZE 0.

Definition sb_page : Page := seal (set_page_epoch laid_out (sb_applied_index sb)).

Lemma superblock_encode_Ok : superblock_encode sb = Ok sb_page.
Proof.
  unfold superblock_encode. rewrite (proj2 (Z.ltb_ge 1 (slot sb))) by (destruct (sbok_slot _ Hsb); lia).
  cbn [negb ensure mbind result_bind]. unfold sb_page, laid_out. do 4 f_equal.
  destruct sb_new_valid as ([[Hl _] _ _] & _). fold sb_new. destruct (sbok_hash _ Hsb) as [Hh _].
  unfold sb_body, put_payload, put_bytes. cbn [page_bytes]. f_equal.
  set (l := page_bytes sb_new) in *. unfold PAGE_HEADER_SIZE.
  assert (∀ v w n k, zlen v = n → 64 + n = k → n + zlen w ≤ 88 →
    bytes_put (bytes_put l 64 v) k w = bytes_put l 64 (v ++ w)) as Happ.
  { intros v w n k <- <- Hle. apply bytes_put_app; [lia|]. rewrite Hl. unfold PAGE_SIZE. lia. }
  unfold sb_chunks. cbn [concat]. rewrite app_nil_r.
  assert (zlen (to_le_bytes 2 SUPER_VERSION) = 2) as E2 by apply zlen_to_le_bytes.
  assert (∀ z, zlen (to_le_bytes 8 z) = 8) as E8 by (intros; apply zlen_to_le_bytes).
  assert (zlen SUPER_MAGIC = 8) as Em by done. assert (zlen [slot sb] = 1) as Es by done.
  assert (zlen (zeros 5) = 5) as Ez by done.
  change (64 + 0) with 64.
  rewrite (Happ _ _ 8), (Happ _ _ 10), (Happ _ _ 11), (Happ _ _ 16), (Happ _ _ 24), (Happ _ _ 32),
    (Happ _ _ 64), (Happ _ _ 72), (Happ _ _ 80);
    rewrite ?zlen_app, ?E2, ?E8, ?Em, ?Es, ?Ez, ?Hh; try done.
  by rewrite <- !app_assoc.
Qed.

Lemma sb_body_ok : page_ok sb_body ∧ page_shape sb_body.
Proof.
  destruct sb_new_valid as ([Hok Hs _] & _). pose proof zlen_sb_chunks as Hz. split.
  - apply put_bytes_ok; [done|done|rewrite Hz; done|apply sb_chunks_ok].
  - apply put_bytes_shape; [done|done|rewrite Hz; done|]. right; right; right. lia.
Qed.

Lemma laid_out_ok : page_ok laid_out ∧ page_shape laid_out.
Proof.
  destruct sb_body_ok as [Hok Hs]. split; [by apply set_layout_ok|].
  by apply set_layout_shape.
Qed.

Lemma sb_page_valid : page_valid sb_page.
Proof.
  destruct laid_out_ok as [Hok Hs]. destruct (set_page_epoch_valid laid_out (sb_applied_index sb) Hok Hs).
  by apply seal_valid.
Qed.

Lemma sb_page_get o n :
  0 ≤ o → 0 ≤ n → o + n ≤ PAGE_SIZE → o + n ≤ 24 ∨ 48 ≤ o →
  bytes_get (page_bytes sb_page) o n = bytes_get (page_bytes sb_body) o n.
Proof.
  intros. destruct laid_out_ok as [Hok Hs]. destruct sb_body_ok as [Hbo _].
  pose proof (set_page_epoch_valid laid_out (sb_applied_index sb) Hok Hs) as [He _ _].
  unfold sb_page. rewrite seal_get by (done || lia).
  unfold set_page_epoch, put_u64.
  rewrite seal_put_get; [|exact Hok|lia|by rewrite zlen_to_le_bytes|apply to_le_bytes_ok|lia|lia|lia|lia|].
  2:{ rewrite zlen_to_le_bytes. lia. }
  unfold laid_out. rewrite set_layout_get; [done|exact Hbo|lia..].
Qed.

Lemma sb_page_head o n :
  0 ≤ o → 0 ≤ n → o + n ≤ 24 → bytes_get (page_bytes sb_page) o n = bytes_get (page_bytes sb_new) o n.
Proof.
  intros. rewrite sb_page_get by (unfold PAGE_SIZE; lia). destruct sb_new_valid as ([Hok _ _] & _).
  pose proof zlen_sb_chunks as Hz. unfold sb_body. rewrite get_put_other; try done; unfold PAGE_SIZE; lia.
Qed.

Lemma sb_page_id : page_id sb_page = slot sb ∧ page_kind sb_page = KSuperblock.
Proof.
  destruct sb_new_valid as ([[Hl _] _ _] & Hid & _ & Hk). pose proof sb_page_valid as [[Hl' _] _ _].
  unfold page_id, get_u64, page_kind in *.
  rewrite page_byte_get in Hk |- * by (rewrite ?Hl, ?Hl'; done).
  rewrite (sb_page_head 8 8), (sb_page_head 6 1) by lia. split; [exact Hid|exact Hk].
Qed.

#[local] Opaque sb_page sb_new.

Lemma sb_payload_get o n :
  0 ≤ o → 0 ≤ n → o + n ≤ 88 → bytes_get (payload sb_page) o n = bytes_get (concat sb_chunks) o n.
Proof.
  intros. pose proof sb_page_valid as [[Hl _] _ _]. pose proof zlen_sb_chunks as Hz.
  destruct sb_new_valid as ([[Hnl _] _ _] & _).
  transitivity (bytes_get (page_bytes sb_page) (64 + o) n).
  - unfold payload, bytes_get, zdrop. rewrite drop_drop. unfold PAGE_HEADER_SIZE. do 2 f_equal. lia.
  - rewrite sb_page_get by (unfold PAGE_SIZE; lia). unfold sb_body, put_bytes; cbn [page_bytes].
    rewrite bytes_get_put_inside by (rewrite ?Hnl, ?Hz; unfold PAGE_SIZE; lia). f_equal. lia.
Qed.

Lemma sb_field o n i c :
  sb_chunks !! i = Some c → chunks_len (take i sb_chunks) = o → zlen c = n → 0 ≤ o → 0 ≤ n → o + n ≤ 88 →
  bytes_get (payload sb_page) o n = c.
Proof. intros. rewrite sb_payload_get by done. by apply (chunk_get _ i). Qed.

Lemma read_u64_field o i z :
  sb_chunks !! i = Some (to_le_bytes 8 z) → chunks_len (take i sb_chunks) = o → u64_ok z → 0 ≤ o → o + 8 ≤ 88 →
  read_u64 (payload sb_page) o = Ok z.
Proof.
  intros Hi Ho Hz H0 Hle. pose proof sb_page_valid as [[Hl _] _ _]. unfold read_u64.
  assert (checked_add o 8 = Some (o + 8)) as -> by (apply checked_add_Some; ulia).
  cbn [ok_or mbind result_bind]. unfold slice_get.
  assert (zlen (payload sb_page) = 4032) as Hp by (unfold payload; rewrite zlen_zdrop, Hl; done).
  rewrite Hp. replace ((o <=? o + 8) && (o + 8 <=? 4032)) with true
    by (symmetry; apply andb_true_intro; split; apply Z.leb_le; lia).
  cbn [ok_or mbind result_bind]. replace (o + 8 - o) with 8 by lia.
  change (ztake 8 (zdrop o (payload sb_page))) with (bytes_get (payload sb_page) o 8).
  rewrite (sb_field o 8 i _ Hi Ho) by (rewrite ?zlen_to_le_bytes; done || lia). f_equal.
  apply from_to_le_small. change (256 ^ Z.of_nat 8) with (u64_max + 1). ulia.
Qed.

(** A page with the fields of [sb] decodes to it. *)
Lemma superblock_decode_fields p :
  page_validate p = Ok tt → page_kind p = KSuperblock → page_id p = slot sb →
  bytes_get (payload p) 0 8 = SUPER_MAGIC → le_at (payload p) 8 2 = SUPER_VERSION →
  le_at (payload p) 10 1 = slot sb → bytes_get (payload p) 11 5 = zeros 5 →
  read_u64 (payload p) 16 = Ok (generation sb) → read_u64 (payload p) 24 = Ok (sb_applied_index sb) →
  bytes_get (payload p) 32 32 = sb_state_hash sb → read_u64 (payload p) 64 = Ok (checkpoint_lsn sb) →
  read_u64 (payload p) 72 = Ok (next_page_id sb) →
  read_u64 (payload p) 80 = Ok (root_to_u64 (root_directory sb)) →
  superblock_decode p = Ok sb.
Proof.
  intros Hv Hk Hid F1 F2 F3 F4 F5 F6 F7 F8 F9 F10. unfold superblock_decode.
  rewrite Hv. cbn [mbind result_bind]. rewrite Hk, Hid, (bool_decide_eq_true_2 (KSuperblock = KSuperblock)) by done.
  rewrite (proj2 (Z.ltb_ge 1 (slot sb))) by (destruct (sbok_slot _ Hsb); lia). cbn [negb orb ensure mbind result_bind].
  rewrite F1, (bool_decide_eq_true_2 (SUPER_MAGIC = SUPER_MAGIC)) by done. cbn [ensure mbind result_bind].
  rewrite F2, Z.eqb_refl. cbn [ensure mbind result_bind]. rewrite F3, Z.eqb_refl, F4.
  change (existsb (λ b, negb (b =? 0)) (zeros 5)) with false. cbn [negb orb ensure mbind result_bind].
  rewrite F5, F6, F7, F8, F9, F10. cbn [mbind result_bind]. pose proof (sbok_next _ Hsb).
  rewrite (proj2 (Z.ltb_ge (next_page_id sb) 2)) by lia. cbn [negb ensure mbind result_bind].
  rewrite (root_of_to _ u64_max) by (done || apply Hsb). by destruct sb.
Qed.

(** Decoding an encoded superblock gives it back. *)
Lemma superblock_decode_encode : superblock_decode sb_page = Ok sb.
Proof.
  pose proof sb_page_valid as Hv. destruct sb_page_id as [Hid Hk]. destruct (sbok_hash _ Hsb) as [Hh Hhb].
  assert (chunks_len (take 7 sb_chunks) = 64 ∧ chunks_len (take 8 sb_chunks) = 72 ∧ chunks_len (take 9 sb_chunks) = 80) as (E7 & E8 & E9).
  { unfold chunks_len, sb_chunks. cbn [take fmap list_fmap foldr]. rewrite !zlen_to_le_bytes, Hh. done. }
  pose proof (sbok_next _ Hsb) as Hn. pose proof (sbok_root _ Hsb) as Hroot.
  apply superblock_decode_fields; try assumption.
  - apply page_validate_spec. split; apply Hv.
  - by apply (sb_field 0 8 0).
  - unfold le_at. by rewrite (sb_field 8 2 1 (to_le_bytes 2 SUPER_VERSION)) by done.
  - unfold le_at. rewrite (sb_field 10 1 2 [slot sb]) by done. cbn [from_le_bytes]. lia.
  - by apply (sb_field 11 5 3).
  - by apply (read_u64_field 16 4); [..|apply Hsb| |].
  - by apply (read_u64_field 24 5); [..|apply Hsb| |].
  - by apply (sb_field 32 32 6).
  - by apply (read_u64_field 64 7); [..|apply Hsb| |].
  - apply (read_u64_field 72 8); try done. ulia.
  - apply (read_u64_field 80 9); try done. by apply (root_to_u64_ok _ u64_max).
Qed.
End Codec.

(** ** The current superblock *)

Definition slot_content (m : gmap Z bytes) (id : Z) : sresult Superblock :=
  match m !! id with
  | Some l => page ← page_decode l; superblock_decode page
  | None => Err (not_found_page id)
  end.

(** [st] is the superblock the next [read_superblock] chooses. *)
Record current (m : gmap Z bytes) (st : Superblock) : Prop := {
  cur_ok : sb_ok st;
  cur_slot : slot_content m (slot st) = Ok st;
  cur_other : ∀ sb, slot_content m (1 - slot st) = Ok sb → generation sb < generation st
}.

Lemma pick_current m st :
  current m st → pick_superblock (slot_content m 0) (slot_content m 1) = Ok (Some st).
Proof.
  intros [[Hslot _ _ _ _ _ _] Hs Ho]. unfold pick_superblock.
  destruct Hslot as [E|E]; rewrite E in Hs, Ho.
  - change (1 - 0) with 1 in Ho. rewrite Hs. destruct (slot_content m 1) as [sb|e]; [|done].
    specialize (Ho sb eq_refl). cbn. unfold sb_le. by rewrite decide_False by lia.
  - change (1 - 1) with 0 in Ho. rewrite Hs. destruct (slot_content m 0) as [sb|e]; [|done].
    specialize (Ho sb eq_refl). cbn. unfold sb_le. by rewrite decide_True by lia.
Qed.

(** Publishing into the other slot. *)
Lemma current_publish m st next :
  current m st → sb_ok next → slot next = 1 - slot st → generation st < generation next →
  current (<[slot next := page_bytes (sb_page next)]> m) next.
Proof.
  intros [Hok Hs _] Hn Hslot Hgen. split; [done| |].
  - unfold slot_content. rewrite lookup_insert_eq, (page_valid_decode _ (sb_page_valid _ Hn)).
    by apply superblock_decode_encode.
  - intros sb Hsb. unfold slot_content in *. rewrite lookup_insert_ne in Hsb by lia.
    replace (1 - slot next) with (slot st) in Hsb by lia. rewrite Hs in Hsb. by injection Hsb as <-.
Qed.

(** The current superblock stays while the other slot is torn or keeps an older
    one, and whatever the other pages hold. *)
Lemma current_same m m' st :
  current m st → m' !! slot st = m !! slot st →
  (∀ sb, slot_content m' (1 - slot st) = Ok sb → generation sb < generation st) → current m' st.
Proof. intros [Hok Hs _] Heq Ho. split; [done| |done]. unfold slot_content in *. by rewrite Heq. Qed.

(** ** Replaying a group and publishing a superblock, with failures

    The two disk phases [recover] and [apply] share.  Each lemma says where the
    phase ends when every write succeeds, and what any crash can find when one
    fails. *)

#[local] Opaque seal page_new sb_page.

(** ** Page images and the pages they replace *)

(** What may stand where [image] belongs: nothing, bytes that do not decode, an
    older page, or the image. *)
Definition image_compat (m : gmap Z bytes) (image : Page) : Prop :=
  ∀ l, m !! page_id image = Some l →
    undecodable l ∨ l = page_bytes image
    ∨ ∃ q, page_decode l = Ok q ∧ page_id q = page_id image ∧ page_lsn q < page_lsn image.

(** The disk after the images are in place. *)
Definition overlay (images : list Page) (m : gmap Z bytes) : gmap Z bytes :=
  foldl (λ m p, <[page_id p := page_bytes p]> m) m images.

Lemma overlay_app ps qs m : overlay (ps ++ qs) m = overlay qs (overlay ps m).
Proof. apply foldl_app. Qed.

Lemma overlay_other ps m id : id ∉ page_id <$> ps → overlay ps m !! id = m !! id.
Proof.
  revert m. induction ps as [|p ps IH]; intros m Hid; [done|]. cbn [fmap list_fmap] in Hid.
  apply not_elem_of_cons in Hid as [Hne Hid].
  change (overlay (p :: ps) m) with (overlay ps (<[page_id p := page_bytes p]> m)).
  rewrite IH by done. by rewrite lookup_insert_ne.
Qed.

Lemma overlay_image ps m p : NoDup (page_id <$> ps) → p ∈ ps → overlay ps m !! page_id p = Some (page_bytes p).
Proof.
  revert m. induction ps as [|q ps IH]; intros m Hnd Hp; [by apply elem_of_nil in Hp|].
  cbn [fmap list_fmap] in Hnd. apply NoDup_cons in Hnd as [Hnin Hnd]. apply elem_of_cons in Hp as [->|Hp].
  - change (overlay (q :: ps) m) with (overlay ps (<[page_id q := page_bytes q]> m)).
    rewrite overlay_other by done. by rewrite lookup_insert_eq.
  - by apply IH.
Qed.

Lemma same_id_same_page ps p q :
  NoDup (page_id <$> ps) → p ∈ ps → q ∈ ps → page_id p = page_id q → p = q.
Proof.
  intros Hnd [i Hi]%list_elem_of_lookup [j Hj]%list_elem_of_lookup E.
  assert (i = j) as ->; [|congruence].
  apply (NoDup_lookup _ i j (page_id p) Hnd); rewrite list_lookup_fmap, ?Hi, ?Hj; cbn; congruence.
Qed.

(** Decodable pages sit at their identifier and are not newer than the log. *)
Definition pages_fresh (m : gmap Z bytes) (n : Z) : Prop :=
  ∀ id l q, 2 ≤ id → m !! id = Some l → page_decode l = Ok q → page_id q = id ∧ page_lsn q ≤ n.

(** The images of a group as the log holds them. *)
Record images_good (n : Z) (ps : list Page) : Prop := {
  ig_valid : Forall page_valid ps;
  ig_ids : Forall (λ p, 2 ≤ page_id p) ps;
  ig_lsn : Forall (λ p, page_lsn p ≤ n) ps;
  ig_nodup : NoDup (page_id <$> ps)
}.

(** A disk on its way from [m0] to [overlay ps m0]. *)
Record midway (m0 : gmap Z bytes) (ps : list Page) (m : gmap Z bytes) : Prop := {
  mid_other : ∀ id, id ∉ page_id <$> ps → m !! id = m0 !! id;
  mid_compat : Forall (image_compat m) ps
}.

Definition same_log (v v' : View) : Prop := v_log v' = v_log v ∧ v_log_old v' = v_log_old v.

#[export] Instance same_log_refl : Reflexive same_log.
Proof. by intros v. Qed.
#[export] Instance same_log_trans : Transitive same_log.
Proof. intros u v w [H1 H2] [H3 H4]. split; congruence. Qed.

Lemma midway_overlay m0 ps : NoDup (page_id <$> ps) → midway m0 ps (overlay ps m0).
Proof.
  intros Hnd. split; [intros; by apply overlay_other|]. apply Forall_forall. intros p Hp l.
  rewrite overlay_image by done. intros [= <-]. by right; left.
Qed.

Lemma midway_fresh m0 ps m n : pages_fresh m0 n → images_good n ps → midway m0 ps m → pages_fresh m n.
Proof.
  intros Hf [Hv _ Hl _] [Ho Hc] id l q Hid Hm Hd. destruct (decide (id ∈ page_id <$> ps)) as [Hin|Hnin].
  - apply list_elem_of_fmap in Hin as (p & -> & Hp). rewrite Forall_forall in Hv, Hl, Hc.
    specialize (Hc p Hp l Hm) as [Hu|[->|(q' & Hd' & Hi & Hlt)]].
    + unfold undecodable in Hu. by rewrite Hd in Hu.
    + rewrite (page_valid_decode _ (Hv p Hp)) in Hd. injection Hd as <-. split; [done|by apply Hl].
    + rewrite Hd in Hd'. injection Hd' as <-. split; [done|]. specialize (Hl p Hp). lia.
  - apply (Hf id l q); [done|by rewrite <- Ho|done].
Qed.

(** Writing an image, also partly, stays midway. *)
Lemma midway_write m0 ps m m' p :
  NoDup (page_id <$> ps) → p ∈ ps → midway m0 ps m →
  (∀ i, i ≠ page_id p → m' !! i = m !! i) → image_compat m' p → midway m0 ps m'.
Proof.
  intros Hnd Hp [Ho Hc] Heq Hcp. split.
  - intros id Hid. rewrite Heq; [by apply Ho|]. intros ->. apply Hid. by apply list_elem_of_fmap_2.
  - apply Forall_forall. intros q Hq. destruct (decide (page_id q = page_id p)) as [E|Hne].
    + by rewrite (same_id_same_page ps q p).
    + intros l Hl. rewrite Heq in Hl by done. rewrite Forall_forall in Hc. by apply Hc.
Qed.

Section Replay.
Context `{Sha256} {S : Type} `{!WalIo S} `{!Disk S} {laws : StorageLaws S}.

(** ** [replay_group] *)

Section Group.
Context (m0 : gmap Z bytes) (ps : list Page) (n : Z) (Hgood : images_good n ps).

Record replaying (v0 v : View) (finished : list Page) : Prop := {
  rp_log : same_log v0 v;
  rp_mid : ∀ m, pages_survive v m → midway m0 ps m;
  rp_done : ∀ p, p ∈ finished → p ∈ ps ∧ v_pages v !! page_id p = Some (page_bytes p)
}.

Lemma replaying_write v0 v fin p x :
  p ∈ ps → replaying v0 v fin → torn (v_pages v !! page_id p) (page_bytes p) x →
  ∀ m, pages_survive (pages_write (<[page_id p := x]> (v_pages v)) v) m → midway m0 ps m.
Proof.
  intros Hp [_ Hmid _] Hx m (m' & Hm' & Heq & Hid)%pages_survive_write.
  pose proof (Hmid m' Hm') as Hmm. apply (midway_write m0 ps m' m p (ig_nodup n ps Hgood)); [done..|].
  intros l Hl. destruct Hid as [E|[E|(y & E & Hu)]].
  - destruct Hmm as [_ Hc]. rewrite Forall_forall in Hc. apply (Hc p Hp). congruence.
  - assert (l = x) as -> by congruence. destruct Hx as [->|[Hold|Hu]]; [by right; left| |by left].
    pose proof (Hmid _ (pages_survive_self v)) as [_ Hc]. rewrite Forall_forall in Hc. by apply (Hc p Hp).
  - left. congruence.
Qed.

Lemma wp_replay_page v0 fin p rep s (P : RecoveryReport → S → Prop) Q :
  p ∈ ps → replaying v0 (view s) fin →
  (∀ rep' s', replaying v0 (view s') (p :: fin) → P rep' s') →
  (∀ v, same_log v0 v → (∀ m, pages_survive v m → midway m0 ps m) → may_fail → Q v) →
  wp (replay_page rep p) s P Q.
Proof.
  intros Hp Hr HP HQ. pose proof (rp_mid _ _ _ Hr _ (pages_survive_self _)) as [_ Hc].
  rewrite Forall_forall in Hc. specialize (Hc p Hp). unfold replay_page. apply wp_bind, wp_try_read.
  intros r s1 Hv1 Hread. rewrite <- Hv1 in Hr, Hc, Hread.
  assert (∀ (rep' : RecoveryReport), wp (_ ← write_page (page_id p) (page_bytes p); mret rep') s1 P Q) as Hwrite.
  { intros rep'. apply wp_bind, wp_write_page.
    - intros s2 Hv2. apply wp_ret, HP. rewrite Hv2. split.
      + etrans; [apply (rp_log _ _ _ Hr)|done].
      + apply (replaying_write v0 _ fin); [done|done|by left].
      + intros q [->|Hq]%elem_of_cons; cbn [v_pages pages_write]; [by rewrite lookup_insert_eq|].
        destruct (rp_done _ _ _ Hr q Hq) as [Hqp Hdone]. split; [done|].
        destruct (decide (page_id q = page_id p)) as [E|Hne]; [|by rewrite lookup_insert_ne].
        rewrite E, lookup_insert_eq. by rewrite (same_id_same_page ps q p (ig_nodup n ps Hgood)).
    - intros Hf. split; [apply HQ; [apply (rp_log _ _ _ Hr)|apply (rp_mid _ _ _ Hr)|done]|].
      intros x Hx. apply HQ; [etrans; [apply (rp_log _ _ _ Hr)|done]| |done].
      by apply (replaying_write v0 _ fin). }
  assert (∀ rep', v_pages (view s1) !! page_id p = Some (page_bytes p) → P rep' s1) as Hskip.
  { intros rep' Hdone. apply HP. split; [apply Hr..|]. intros q [->|Hq]%elem_of_cons; [done|]. by apply (rp_done _ _ _ Hr). }
  pose proof (ig_valid n ps Hgood) as Hvalid. rewrite Forall_forall in Hvalid. specialize (Hvalid p Hp).
  destruct (v_pages (view s1) !! page_id p) as [l|] eqn:Hl.
  - subst r. destruct (Hc l Hl) as [Hu|[->|(q & Hd & Hi & Hlt)]].
    + unfold undecodable in Hu. destruct (page_decode l); [done|]. apply wp_bind, wp_ret. apply Hwrite.
    + rewrite (page_valid_decode _ Hvalid), Z.eqb_refl. apply wp_bind, wp_ret. rewrite Z.leb_refl. by apply wp_ret, Hskip.
    + rewrite Hd, Hi, Z.eqb_refl. apply wp_bind, wp_ret. rewrite (proj2 (Z.leb_gt _ _) Hlt). apply Hwrite.
  - destruct Hread as [w ->]. apply wp_bind, wp_ret. apply Hwrite.
Qed.

Lemma wp_replay_pages v0 fin todo rep s (P : RecoveryReport → S → Prop) Q :
  (∀ p, p ∈ todo → p ∈ ps) → replaying v0 (view s) fin →
  (∀ rep' s' fin', (∀ p, p ∈ todo ∨ p ∈ fin → p ∈ fin') → replaying v0 (view s') fin' → P rep' s') →
  (∀ v, same_log v0 v → (∀ m, pages_survive v m → midway m0 ps m) → may_fail → Q v) →
  wp (io_foldM replay_page rep todo) s P Q.
Proof.
  intros Hsub Hr HP HQ. revert fin rep s Hr HP. induction todo as [|p todo IH]; intros fin rep s Hr HP.
  - apply wp_ret, (HP _ _ fin); [set_solver|done].
  - cbn [io_foldM]. apply wp_bind. apply (wp_replay_page v0 fin); [set_solver|done| |done].
    intros rep1 s1 Hr1. apply (IH ltac:(set_solver) _ _ _ Hr1). intros rep' s' fin' Hfin. apply HP. set_solver.
Qed.

End Group.

(** From a synced disk, replaying reaches the overlay; a failure leaves every
    surviving disk midway. *)
Lemma wp_replay_group n g rep s (P : RecoveryReport → S → Prop) Q :
  images_good n (ca_pages g) → v_pages_old (view s) = [] → Forall (image_compat (v_pages (view s))) (ca_pages g) →
  (∀ rep' s', same_log (view s) (view s') → v_pages (view s') = overlay (ca_pages g) (v_pages (view s)) →
     (∀ m, pages_survive (view s') m → midway (v_pages (view s)) (ca_pages g) m) → P rep' s') →
  (∀ v, same_log (view s) v → (∀ m, pages_survive v m → midway (v_pages (view s)) (ca_pages g) m) → may_fail → Q v) →
  wp (replay_group g rep) s P Q.
Proof.
  intros Hgood Hold Hc HP HQ. unfold replay_group.
  apply (wp_replay_pages (v_pages (view s)) (ca_pages g) n Hgood (view s) []); [done| | |done].
  - split; [done| |by intros p ?%elem_of_nil].
    intros m ->%pages_survive_synced; [|done]. by split.
  - intros rep' s' fin' Hfin [Hlog Hmid Hdone]. apply HP; [done| |done].
    pose proof (Hmid _ (pages_survive_self _)) as [Ho _]. apply map_eq. intros id.
    destruct (decide (id ∈ page_id <$> ca_pages g)) as [Hin|Hnin].
    + apply list_elem_of_fmap in Hin as (p & -> & Hp). rewrite overlay_image by (apply Hgood || done).
      apply (Hdone p). apply Hfin. by left.
    + rewrite overlay_other by done. by apply Ho.
Qed.

(** ** [publish_superblock] *)

(** A disk on which the slot of [next] is being written. *)
Definition publishing (m0 : gmap Z bytes) (next : Superblock) (m : gmap Z bytes) : Prop :=
  (∀ id, id ≠ slot next → m !! id = m0 !! id)
  ∧ (m !! slot next = m0 !! slot next ∨ m !! slot next = Some (page_bytes (sb_page next))
     ∨ ∃ l, m !! slot next = Some l ∧ undecodable l).

Lemma wp_publish st idx hash ck nxt root s (P : Superblock → S → Prop) Q :
  let next := mkSuper (1 - slot st) (generation st + 1) idx hash ck nxt root in
  let m0 := v_pages (view s) in
  v_pages_old (view s) = [] → generation st < u64_max → sb_ok next →
  (∀ s', view s' = mkView (v_log (view s)) (v_log_old (view s))
                     (<[slot next := page_bytes (sb_page next)]> m0) [] → P next s') →
  (∀ v, same_log (view s) v → (∀ m, pages_survive v m → publishing m0 next m) → may_fail → Q v) →
  wp (publish_superblock st idx hash ck nxt root) s P Q.
Proof.
  intros next m0 Hold Hgen Hok HP HQ. unfold publish_superblock. apply wp_bind.
  assert (checked_add (generation st) 1 = Some (generation st + 1)) as -> by (apply checked_add_Some; lia).
  apply wp_lift_Ok. fold next. apply wp_bind. rewrite (superblock_encode_Ok _ Hok). apply wp_lift_Ok.
  destruct (sb_page_id _ Hok) as [-> _].
  assert (∀ x, torn (m0 !! slot next) (page_bytes (sb_page next)) x → ∀ m,
    pages_survive (pages_write (<[slot next := x]> m0) (view s)) m → publishing m0 next m) as Hpub.
  { intros x Hx m (m' & Hm' & Heq & Hid)%pages_survive_write. apply pages_survive_synced in Hm' as ->; [|done].
    split; [done|]. fold m0 in Hid. destruct Hid as [E|[E|(y & E & Hu)]]; [by left| |by right; right; exists y].
    rewrite E. destruct Hx as [->|[->|Hu]]; [by right; left|by left|by right; right; exists x]. }
  apply wp_bind, wp_write_page.
  - intros s1 Hv1. fold m0 in Hv1. apply wp_bind, wp_disk_sync.
    + intros s2 Hv2. apply wp_ret, HP. by rewrite Hv2, Hv1.
    + intros Hf. rewrite Hv1. split; apply HQ; try done.
      * apply Hpub. by left.
      * intros m ->%pages_survive_synced; [|done]. cbn. split; [intros; by rewrite lookup_insert_ne|].
        rewrite lookup_insert_eq. by right; left.
  - intros Hf. split.
    + apply HQ; [done| |done]. intros m ->%pages_survive_synced; [|done]. split; [done|by left].
    + intros x Hx. fold m0. apply HQ; [done|by apply Hpub|done].
Qed.
End Replay.
