(* ===== verification/StorageRecovery.v ===== *)
(** * Crash recovery of the durable pager

    [Db] is the database a disk and a log stand for.  [recoverable c m a]: from
    the log [c] and the disk [m], [pager_open] arrives at [a].  [quiescent]: the
    state between two operations. *)

From S2P Require Import Prelude StorageBytes StoragePage StorageIo StorageWal StorageFrames StorageScan StorageGroups StoragePager StorageLaws StorageReplay.

#[local] Opaque seal page_new sb_page.

(** ** The abstract database *)

Record Db : Type := mkDb {
  d_index : Z;
  d_hash : bytes;
  d_next : Z;
  d_root : option Z;
  d_pages : gmap Z bytes
}.

(** Two databases are the same when their metadata and allocated pages are. *)
Record db_equiv (a b : Db) : Prop := {
  de_index : d_index a = d_index b;
  de_hash : d_hash a = d_hash b;
  de_next : d_next a = d_next b;
  de_root : d_root a = d_root b;
  de_pages : ∀ id, 2 ≤ id < d_next a → d_pages a !! id = d_pages b !! id
}.

#[export] Instance db_equiv_equivalence : Equivalence db_equiv.
Proof.
  split.
  - by intros a.
  - intros a b [H1 H2 H3 H4 H5]. split; try done. intros id Hid. symmetry. apply H5. lia.
  - intros a b c [H1 H2 H3 H4 H5] [G1 G2 G3 G4 G5]. split; try congruence.
    intros id Hid. rewrite H5 by done. apply G5. lia.
Qed.

Definition db_of (st : Superblock) (m : gmap Z bytes) : Db :=
  mkDb (sb_applied_index st) (sb_state_hash st) (next_page_id st) (root_directory st) m.

(** The database after the group [g]. *)
Definition db_apply (g : CommittedApply) (m : gmap Z bytes) : Db :=
  mkDb (ca_apply_index g) (ca_state_hash g) (ca_next_page_id g) (ca_root_directory g)
    (overlay (ca_pages g) m).

Lemma db_of_ext st m m' : (∀ id, 2 ≤ id → m !! id = m' !! id) → db_equiv (db_of st m) (db_of st m').
Proof. intros E. split; cbn; try done. intros id Hid. apply E. lia. Qed.

(** ** Recoverable states *)

(** A group the superblock has reached. *)
Definition reached (st : Superblock) (g : CommittedApply) : Prop :=
  ca_apply_index g < sb_applied_index st
  ∨ ca_apply_index g = sb_applied_index st ∧ ca_state_hash g = sb_state_hash st.

(** The one group it may not have reached yet. *)
Record pending (n : Z) (st : Superblock) (g : CommittedApply) : Prop := {
  pd_index : ca_apply_index g = sb_applied_index st + 1;
  pd_index_ok : u64_ok (ca_apply_index g);
  pd_hash : zlen (ca_state_hash g) = 32 ∧ Forall byte_ok (ca_state_hash g);
  pd_next : 2 ≤ ca_next_page_id g ≤ u64_max;
  pd_root : ∀ r, ca_root_directory g = Some r → 0 ≤ r < u64_max;
  pd_images : images_good n (ca_pages g);
  pd_generation : generation st < u64_max
}.

(** [recover] publishes a pending group with the checkpoint of the superblock it
    found: it arrives at a state that opens again when there is none. *)
Definition resumes (st : Superblock) (pend : list CommittedApply) : Prop :=
  pend = [] ∨ checkpoint_lsn st = 0.

Definition outcome (n : Z) (st : Superblock) (m : gmap Z bytes) (pend : list CommittedApply) (a : Db) : Prop :=
  match pend with
  | [] => db_equiv a (db_of st m)
  | [g] => pending n st g ∧ Forall (image_compat m) (ca_pages g) ∧ db_equiv a (db_apply g m)
  | _ => False
  end.

Section Recovery.
Context `{Sha256}.

Record recoverable_with (s : WalScan) (m : gmap Z bytes) (st : Superblock)
    (old pend : list CommittedApply) (a : Db) : Prop := {
  rw_groups : groups s = old ++ pend;
  rw_end : 0 ≤ safe_append_offset s;
  rw_current : current m st;
  rw_checkpoint : check_checkpoint st s = Ok tt;
  rw_old : Forall (reached st) old;
  rw_fresh : pages_fresh m (safe_append_offset s);
  rw_outcome : outcome (safe_append_offset s) st m pend a
}.

Definition recoverable (c : bytes) (m : gmap Z bytes) (a : Db) : Prop :=
  ∃ s st old pend, scan_bytes c = Ok s ∧ recoverable_with s m st old pend a ∧ resumes st pend.

(** Every log that may survive says [s]. *)
Definition log_settled (v : View) (s : WalScan) : Prop :=
  clean (v_log v) s ∧ ∀ c, log_survives v c → ∃ t, scan_bytes c = Ok (set_torn t s).

Definition quiescent (v : View) (st : Superblock) (a : Db) : Prop :=
  v_pages_old v = [] ∧ a = db_of st (v_pages v)
  ∧ ∃ s, log_settled v s ∧ recoverable_with s (v_pages v) st (groups s) [] a.

Lemma check_checkpoint_torn st t s : check_checkpoint st (set_torn t s) = check_checkpoint st s.
Proof. done. Qed.

Lemma check_checkpoint_zero st s : checkpoint_lsn st = 0 → 0 ≤ safe_append_offset s → check_checkpoint st s = Ok tt.
Proof.
  intros E H0. unfold check_checkpoint. rewrite E, (proj2 (Z.ltb_ge _ _) H0). done.
Qed.

Lemma recoverable_torn t s m st old pend a :
  recoverable_with s m st old pend a → recoverable_with (set_torn t s) m st old pend a.
Proof. by intros []. Qed.

(** Recovering to a database is recovering to any equivalent one. *)
#[export] Instance recoverable_proper : Proper ((=) ==> (=) ==> db_equiv ==> iff) recoverable.
Proof.
  intros c ? <- m ? <- a b Hab. assert (∀ a b, db_equiv a b → recoverable c m a → recoverable c m b) as Himp.
  - clear. intros a b Hab (s & st & old & pend & Hs & [H1 H2 H3 H4 H5 H6 H7] & Hres).
    exists s, st, old, pend. split; [done|]. split; [|done]. split; try done.
    destruct pend as [|g [|]]; cbn [outcome] in *; [|destruct H7 as (? & ? & ?); split_and!; try done|done];
      etrans; [by symmetry|done|by symmetry|done].
  - split; apply Himp; [done|by symmetry].
Qed.

(** Every crash of a view whose log is settled and whose surviving disks all
    recover to [a]. *)
Lemma crashed_recoverable v s a :
  log_settled v s →
  (∀ m, pages_survive v m → ∃ st old pend, recoverable_with s m st old pend a ∧ resumes st pend) →
  ∀ c m, log_survives v c → pages_survive v m → recoverable c m a.
Proof.
  intros [_ Hlog] Hm c m Hc Hs. destruct (Hlog c Hc) as [t Ht]. destruct (Hm m Hs) as (st & old & pend & Hr & Hres).
  exists (set_torn t s), st, old, pend. split_and!; [done|by apply recoverable_torn|done].
Qed.

(** A crash between operations loses nothing. *)
Lemma quiescent_crash v st a :
  quiescent v st a → ∀ c m, log_survives v c → pages_survive v m → recoverable c m a.
Proof.
  intros (Hold & -> & s & Hlog & Hr). apply (crashed_recoverable _ s); [done|].
  intros m ->%pages_survive_synced; [|done]. eexists _, _, []. split; [done|by left].
Qed.

(** ** The disks met on the way *)

(** Slots 0 and 1 are not page images. *)
Lemma midway_slot m0 ps m n id : images_good n ps → midway m0 ps m → id < 2 → m !! id = m0 !! id.
Proof.
  intros [_ Hids _ _] [Ho _] Hid. apply Ho. intros (p & -> & Hp)%list_elem_of_fmap.
  rewrite Forall_forall in Hids. specialize (Hids p Hp). lia.
Qed.

Lemma current_ext m m' st : current m st → (∀ id, id < 2 → m' !! id = m !! id) → current m' st.
Proof.
  intros [Hok Hs Ho] E. assert (slot st = 0 ∨ slot st = 1) as Hslot by apply Hok.
  split; [done|..]; unfold slot_content in *; rewrite E by lia; done.
Qed.

Lemma db_apply_ext g m m' :
  (∀ id, 2 ≤ id → id ∉ page_id <$> ca_pages g → m !! id = m' !! id) → NoDup (page_id <$> ca_pages g) →
  db_equiv (db_apply g m) (db_apply g m').
Proof.
  intros E Hnd. split; cbn; try done. intros id Hid.
  destruct (decide (id ∈ page_id <$> ca_pages g)) as [Hin|Hnin].
  - apply list_elem_of_fmap in Hin as (p & -> & Hp). by rewrite !overlay_image.
  - rewrite !overlay_other by done. apply E; [lia|done].
Qed.

(** While the images of the pending group are being written. *)
Lemma recoverable_midway s m0 st old g a m :
  recoverable_with s m0 st old [g] a → midway m0 (ca_pages g) m → recoverable_with s m st old [g] a.
Proof.
  intros [Hg H0 Hc Hck Ho Hf (Hp & Hic & Ha)] Hm. pose proof (pd_images _ _ _ Hp) as Hi. split; try done.
  - apply (current_ext m0); [done|]. intros. by apply (midway_slot m0 (ca_pages g) m (safe_append_offset s)).
  - by apply (midway_fresh m0 (ca_pages g)).
  - split_and!; [done|apply Hm|]. etrans; [done|]. apply db_apply_ext; [|apply Hi].
    intros id _ Hid. symmetry. by apply Hm.
Qed.

(** The superblock that completes a group. *)
Definition next_super (st : Superblock) (g : CommittedApply) : Superblock :=
  mkSuper (1 - slot st) (generation st + 1) (ca_apply_index g) (ca_state_hash g) 0
    (ca_next_page_id g) (ca_root_directory g).

Lemma next_super_ok n st g : sb_ok st → pending n st g → sb_ok (next_super st g).
Proof.
  intros [Hs Hg _ _ _ _ _] [_ Hi Hh Hn Hr _ Hgen]. split; cbn; try done; ulia.
Qed.

Lemma publishing_pages m0 next m : publishing m0 next m → slot next < 2 → ∀ id, 2 ≤ id → m !! id = m0 !! id.
Proof. intros [E _] Hs id Hid. apply E. lia. Qed.

Lemma fresh_ext m m' n : (∀ id, 2 ≤ id → m' !! id = m !! id) → pages_fresh m n → pages_fresh m' n.
Proof. intros E Hf id l q Hid Hm. rewrite E in Hm by done. by apply Hf. Qed.

Lemma recoverable_published s m0 st old g a :
  recoverable_with s m0 st old [g] a → m0 = overlay (ca_pages g) m0 →
  recoverable_with s (<[slot (next_super st g) := page_bytes (sb_page (next_super st g))]> m0)
    (next_super st g) (old ++ [g]) [] a.
Proof.
  intros Hr Hover. pose proof Hr as [Hg H0 Hc Hck Ho Hf (Hpd & Hic & Ha)].
  pose proof (cur_ok _ _ Hc) as Hsb. pose proof (next_super_ok _ _ _ Hsb Hpd) as Hnext.
  assert (slot st = 0 ∨ slot st = 1) as Hslot by apply Hsb.
  assert (slot (next_super st g) = 1 - slot st) as Hns by done.
  assert (∀ id, 2 ≤ id → <[slot (next_super st g) := page_bytes (sb_page (next_super st g))]> m0 !! id = m0 !! id) as Hpages.
  { intros id Hid. apply lookup_insert_ne. lia. }
  split.
  - by rewrite app_nil_r.
  - done.
  - apply (current_publish m0 st); try done; cbn; lia.
  - by apply check_checkpoint_zero.
  - apply Forall_app. split.
    + eapply Forall_impl; [done|]. intros g' [?|[? ?]]; left; cbn; rewrite (pd_index _ _ _ Hpd); lia.
    + apply Forall_singleton. by right.
  - by apply (fresh_ext m0).
  - change (db_equiv a (db_of (next_super st g) (<[slot (next_super st g) := page_bytes (sb_page (next_super st g))]> m0))).
    etrans; [done|]. split; cbn [db_apply db_of d_index d_hash d_next d_root d_pages]; try done.
    intros id Hid. rewrite <- Hover. symmetry. apply Hpages. lia.
Qed.

(** The pages are in place and the superblock is being published: before, torn
    or after, recovery reaches the same database. *)
Lemma recoverable_publishing s m0 st old g a m :
  recoverable_with s m0 st old [g] a → m0 = overlay (ca_pages g) m0 →
  publishing m0 (next_super st g) m → checkpoint_lsn st = 0 →
  ∃ st' old' pend', recoverable_with s m st' old' pend' a ∧ resumes st' pend'.
Proof.
  intros Hr Hover Hp Hck0. pose proof Hr as [Hg H0 Hc Hck Ho Hf (Hpd & Hic & Ha)].
  pose proof (cur_ok _ _ Hc) as Hsb. pose proof (next_super_ok _ _ _ Hsb Hpd) as Hnext.
  assert (slot st = 0 ∨ slot st = 1) as Hslot by apply Hsb.
  assert (slot (next_super st g) = 1 - slot st) as Hns by done.
  pose proof (publishing_pages _ _ _ Hp ltac:(lia)) as Hpages. destruct Hp as [Hother Hcase].
  assert (current m st ∨ m !! slot (next_super st g) = Some (page_bytes (sb_page (next_super st g)))) as [Hcur|Hnew].
  { destruct Hcase as [E|[E|(l & E & Hu)]]; [left|by right|left].
    - apply (current_ext m0); [done|]. intros id Hid. destruct (decide (id = slot (next_super st g))) as [->|]; auto.
    - apply (current_same m0); [done|apply Hother; lia|]. intros sb. rewrite <- Hns. unfold slot_content. rewrite E.
      unfold undecodable in Hu. by destruct (page_decode l). }
  - exists st, old, [g]. split; [|by right]. split; try done; [by apply (fresh_ext m0)|]. split_and!; [done| |].
    + pose proof (ig_ids _ _ (pd_images _ _ _ Hpd)) as Hids. rewrite Forall_forall in Hic, Hids |- *.
      intros p Hp l Hl. apply (Hic p Hp). rewrite <- Hpages; auto.
    + etrans; [done|]. apply db_apply_ext; [|apply Hpd]. intros id Hid _. symmetry. by apply Hpages.
  - exists (next_super st g), (old ++ [g]), []. split; [|by left].
    assert (m = <[slot (next_super st g) := page_bytes (sb_page (next_super st g))]> m0) as ->; [|by apply recoverable_published].
    apply map_eq. intros id. destruct (decide (id = slot (next_super st g))) as [->|]; [by rewrite lookup_insert_eq|].
    rewrite lookup_insert_ne by done. auto.
Qed.

(** ** Running the operations *)

Context {S : Type} `{!WalIo S} `{!Disk S} {laws : StorageLaws S}.

(** What a crash during recovery to [a] may find. *)
Definition still (a : Db) (v : View) : Prop :=
  may_fail ∧ ∀ c m, log_survives v c → pages_survive v m → recoverable c m a.

Lemma log_settled_same v v' s : same_log v v' → log_settled v s → log_settled v' s.
Proof.
  intros [E1 E2] [Hc Hs]. split; [by rewrite E1|]. intros c Hc'. apply Hs.
  unfold log_survives in *. by rewrite E1, E2 in Hc'.
Qed.

(** Replay, sync, publish: the part [recover] and [apply] share. *)
Lemma wp_complete_group sc st old g a (rep : RecoveryReport) s (P : RecoveryReport → Superblock → S → Prop) Q :
  log_settled (view s) sc → v_pages_old (view s) = [] →
  recoverable_with sc (v_pages (view s)) st old [g] a →
  (∀ rep' s', same_log (view s) (view s') → quiescent (view s') (next_super st g) (db_of (next_super st g) (v_pages (view s'))) →
     db_equiv a (db_of (next_super st g) (v_pages (view s'))) → P rep' (next_super st g) s') →
  (∀ v, may_fail → (checkpoint_lsn st = 0 → still a v) → Q v) →
  wp (rep ← replay_group g rep; _ ← disk_sync;
      st' ← publish_superblock st (ca_apply_index g) (ca_state_hash g) 0 (ca_next_page_id g) (ca_root_directory g);
      mret (rep, st')) s (λ r s', P r.1 r.2 s') Q.
Proof.
  intros Hlog Hold Hr HP HQ. pose proof Hr as [Hg H0 Hc Hck Ho Hf (Hpd & Hic & Ha)].
  pose proof (pd_images _ _ _ Hpd) as Hi. pose proof (cur_ok _ _ Hc) as Hsb.
  assert (∀ v, same_log (view s) v → (∀ m, pages_survive v m → midway (v_pages (view s)) (ca_pages g) m) →
    may_fail → Q v) as Hmid.
  { intros v Hl Hm Hfail. apply HQ; [done|]. intros Hck0. split; [done|].
    apply (crashed_recoverable _ sc); [by apply (log_settled_same (view s))|].
    intros m Hs. exists st, old, [g]. split; [|by right]. by apply (recoverable_midway _ (v_pages (view s))), Hm. }
  apply wp_bind. apply (wp_replay_group (safe_append_offset sc)); try done.
  intros rep1 s1 Hl1 Hp1 Hm1. apply wp_bind, wp_disk_sync; [|intros Hfail; split; apply Hmid; try done].
  2:{ intros m ->%pages_survive_synced; [|done]. exact (Hm1 _ (pages_survive_self (view s1))). }
  intros s2 Hv2. set (m1 := overlay (ca_pages g) (v_pages (view s))) in *.
  assert (m1 = overlay (ca_pages g) m1) as Hfix.
  { apply map_eq. intros id. destruct (decide (id ∈ page_id <$> ca_pages g)) as [Hin|Hnin]; [|by rewrite overlay_other].
    apply list_elem_of_fmap in Hin as (p & -> & Hp). unfold m1. by rewrite !overlay_image by (apply Hi || done). }
  assert (recoverable_with sc m1 st old [g] a) as Hr1.
  { apply (recoverable_midway _ (v_pages (view s))); [done|]. apply midway_overlay, Hi. }
  assert (v_pages (view s2) = m1) as Hp2 by (by rewrite Hv2).
  assert (same_log (view s) (view s2)) as Hl2 by (rewrite Hv2; etrans; [exact Hl1|done]).
  apply wp_bind. apply wp_publish; cbv zeta;
    [by rewrite Hv2|apply (pd_generation _ _ _ Hpd)|apply (next_super_ok _ _ _ Hsb Hpd)|..].
  - intros s3 Hv3. fold (next_super st g) in *. apply wp_ret. rewrite Hp2 in Hv3.
    pose proof (recoverable_published _ _ _ _ _ _ Hr1 Hfix) as Hfin.
    assert (same_log (view s) (view s3)) as Hl3 by (rewrite Hv3; exact Hl2).
    assert (v_pages (view s3) = <[slot (next_super st g) := page_bytes (sb_page (next_super st g))]> m1) as Hp3 by (by rewrite Hv3).
    apply HP; [done| |rewrite Hp3; apply Hfin].
    split; [by rewrite Hv3|]. split; [done|]. exists sc. split; [by apply (log_settled_same (view s))|].
    rewrite Hp3. destruct Hfin as [F1 F2 F3 F4 F5 F6 F7]. rewrite Hg. by split.
  - fold (next_super st g). intros v Hl3 Hm3 Hfail. apply HQ; [done|]. intros Hck0. split; [done|].
    apply (crashed_recoverable _ sc); [apply (log_settled_same (view s)); [by etrans|done]|].
    intros m Hs. apply (recoverable_publishing _ m1 st old g); [done|done| |done]. rewrite Hp2 in Hm3. by apply Hm3.
Qed.

(** *** [open] *)

Lemma wp_wal_scan s sc (P : WalScan → S → Prop) Q :
  clean (v_log (view s)) sc → (∀ s', view s' = view s → P sc s') → wp wal_scan s P Q.
Proof.
  intros Hc HP. unfold wal_scan. apply wp_bind, wp_wal_read_all. intros s1 Hv1.
  rewrite (clean_scan _ _ Hc). by apply wp_lift_Ok, HP.
Qed.

(** On a clean log there is nothing to cut. *)
Lemma wp_scan_clean s sc (P : WalScan → S → Prop) Q :
  clean (v_log (view s)) sc → (∀ s', view s' = view s → P sc s') → wp scan_and_truncate s P Q.
Proof.
  intros Hc HP. unfold scan_and_truncate. apply wp_bind, wp_wal_read_all. intros s1 Hv1.
  rewrite (clean_scan _ _ Hc). apply wp_bind, wp_lift_Ok. rewrite <- Hv1 in Hc.
  apply wp_bind, wp_wal_len; [apply (clean_len _ _ Hc)|]. intros s2 Hv2. apply wp_bind.
  rewrite (clean_end _ _ Hc), Z.eqb_refl. cbn [negb]. apply wp_ret, wp_ret, HP. congruence.
Qed.

(** A log found after a crash is cut back to its last complete group. *)
Lemma wp_scan_crashed s sc (P : WalScan → S → Prop) Q :
  v_log_old (view s) = [] → zlen (v_log (view s)) ≤ u64_max → scan_bytes (v_log (view s)) = Ok sc →
  (∀ s', log_settled (view s') (set_torn None sc) → v_pages (view s') = v_pages (view s) →
     v_pages_old (view s') = v_pages_old (view s) → P sc s') →
  (∀ v, (∀ c, log_survives v c → ∃ t, scan_bytes c = Ok (set_torn t sc)) → may_fail →
     v_pages v = v_pages (view s) → v_pages_old v = v_pages_old (view s) → Q v) →
  wp scan_and_truncate s P Q.
Proof.
  intros Hold Hlen Hsc HP HQ. destruct (clean_cut _ _ Hsc) as [Hclean Hn]. set (n := safe_append_offset sc) in *.
  set (l := v_log (view s)) in *.
  assert (∀ c, ztake n l `prefix_of` c → c `prefix_of` l → ∃ t, scan_bytes c = Ok (set_torn t sc)) as Hcut.
  { intros c Hc1 Hc2. assert (c = ztake (zlen c) l) as E.
    { destruct Hc2 as [k ->]. unfold ztake, zlen. by rewrite Nat2Z.id, take_app_length. }
    assert (n ≤ zlen c ≤ zlen l) as Hc.
    { apply prefix_length in Hc1, Hc2. unfold ztake in Hc1. rewrite length_take in Hc1. unfold zlen in *. lia. }
    destruct (scan_cut l sc (zlen c) Hsc) as (s' & Hs' & _ & Hsafe); [lia|].
    destruct (Hsafe ltac:(fold n; lia)) as [t ->]. exists t. by rewrite E. }
  assert (∀ v, (∀ x, x ∈ v_log v :: v_log_old v → ztake n l `prefix_of` x ∧ x `prefix_of` l) →
    ∀ c, log_survives v c → ∃ t, scan_bytes c = Ok (set_torn t sc)) as Hsurv.
  { intros v Hv c (a & b & Ha & Hb & Hac & Hcb). apply Hcut.
    - etrans; [apply (Hv a Ha)|done].
    - etrans; [done|apply (Hv b Hb)]. }
  assert (ztake n l `prefix_of` l) as Hpre by (exists (zdrop n l); symmetry; apply take_drop).
  unfold scan_and_truncate. apply wp_bind, wp_wal_read_all. intros s1 Hv1. fold l. rewrite Hsc.
  apply wp_bind, wp_lift_Ok. apply wp_bind, wp_wal_len; [by rewrite Hv1|]. intros s2 Hv2. rewrite Hv1 in Hv2 |- *. fold l n.
  destruct (Z.eqb_spec (zlen l) n) as [Heq|Hne]; cbn [negb]; apply wp_bind.
  - apply wp_ret, wp_ret, HP; [|by rewrite Hv2..]. rewrite Hv2. split.
    + fold l. rewrite ztake_all in Hclean by lia. done.
    + apply Hsurv. rewrite Hold. intros x ->%list_elem_of_singleton. done.
  - apply wp_wal_truncate; rewrite ?Hv2; fold l; [lia|lia| |].
    + intros s3 Hv3. apply wp_ret, HP; rewrite Hv3; [|done|done]. split; [done|].
      apply Hsurv. cbn. rewrite Hold. intros x [->| ->%list_elem_of_singleton]%elem_of_cons; done.
    + intros Hf. split; apply HQ; try done; apply Hsurv; cbn; rewrite Hold.
      * intros x ->%list_elem_of_singleton. done.
      * intros x [->| ->%list_elem_of_singleton]%elem_of_cons; done.
Qed.

(** *** [read_superblock] *)

Lemma wp_read_superblock s st (P : option Superblock → S → Prop) Q :
  current (v_pages (view s)) st → (∀ s', view s' = view s → P (Some st) s') → wp read_superblock s P Q.
Proof.
  intros Hc HP. pose proof (pick_current _ _ Hc) as Hpick. unfold read_superblock, read_slot.
  apply wp_bind, wp_bind, wp_try_read. intros r0 s0 Hv0 Hr0. apply wp_ret.
  apply wp_bind, wp_bind, wp_try_read. rewrite Hv0. intros r1 s1 Hv1 Hr1. apply wp_ret.
  assert (pick_superblock (l ← r0; page ← page_decode l; superblock_decode page)
            (l ← r1; page ← page_decode l; superblock_decode page) = Ok (Some st)) as ->; [|apply wp_lift_Ok, HP; congruence].
  rewrite <- Hpick. unfold pick_superblock, slot_content.
  destruct (v_pages (view s) !! 0), (v_pages (view s) !! 1); destruct_and?;
    repeat match goal with HH : ∃ _, _ |- _ => destruct HH end; subst; done.
Qed.

(** *** [recover] *)

Lemma wp_recover_reached st rep g s (P : Superblock * RecoveryReport → S → Prop) Q :
  reached st g → (∀ rep', P (st, rep') s) → wp (recover_group (st, rep) g) s P Q.
Proof.
  intros Hg HP. unfold recover_group. destruct Hg as [Hlt|[Heq Hh]].
  - rewrite (proj2 (Z.ltb_lt _ _) Hlt). apply wp_ret, HP.
  - rewrite Heq, Z.ltb_irrefl, Z.eqb_refl, Hh. apply wp_bind, wp_ensure_true; [by apply bool_decide_eq_true|].
    apply wp_ret, HP.
Qed.

Lemma wp_recover_old st rep old rest s (P : Superblock * RecoveryReport → S → Prop) Q :
  Forall (reached st) old → (∀ rep', wp (io_foldM recover_group (st, rep') rest) s P Q) →
  wp (io_foldM recover_group (st, rep) (old ++ rest)) s P Q.
Proof.
  intros Ho HP. revert rep. induction Ho as [|g old Hg Ho IH]; intros rep; [apply HP|].
  cbn [io_foldM app]. apply wp_bind. apply wp_recover_reached; [done|]. auto.
Qed.

Lemma wp_io_assoc {A B C} (m : io S A) (f : A → io S B) (k : B → io S C) s P Q :
  wp ((m ≫= f) ≫= k) s P Q ↔ wp (m ≫= λ a, f a ≫= k) s P Q.
Proof. unfold wp, mbind, io_bind. by destruct (m s) as [[a|e] s1]. Qed.

Lemma wp_recover_pending sc st rep old g a s (P : Superblock * RecoveryReport → S → Prop) Q :
  log_settled (view s) sc → v_pages_old (view s) = [] →
  recoverable_with sc (v_pages (view s)) st old [g] a → checkpoint_lsn st = 0 →
  (∀ rep' s', quiescent (view s') (next_super st g) (db_of (next_super st g) (v_pages (view s'))) →
     db_equiv a (db_of (next_super st g) (v_pages (view s'))) → P (next_super st g, rep') s') →
  (∀ v, still a v → Q v) →
  wp (recover_group (st, rep) g) s P Q.
Proof.
  intros Hlog Hold Hr Hck0 HP HQ. pose proof (rw_outcome _ _ _ _ _ _ Hr) as (Hpd & _ & _).
  pose proof (pd_index _ _ _ Hpd) as Hi. pose proof (pd_index_ok _ _ _ Hpd) as Hu.
  assert (u64_ok (sb_applied_index st)) as Hst by apply (cur_ok _ _ (rw_current _ _ _ _ _ _ Hr)).
  unfold recover_group. rewrite (proj2 (Z.ltb_ge _ _)) by lia. rewrite (proj2 (Z.eqb_neq _ _)) by lia.
  apply wp_bind, wp_ensure_true.
  { rewrite wrapping_add_small by (unfold u64_ok in *; lia). rewrite Hi, Z.eqb_refl. by rewrite andb_false_r. }
  rewrite Hck0.
  match goal with |- wp (replay_group g ?rep' ≫= _) _ _ _ =>
    pose proof (wp_complete_group sc st old g a rep' s (λ r st' s', ∀ rr, P (st', rr) s') Q Hlog Hold Hr) as Hw end.
  specialize (Hw ltac:(intros rep1 s1 _ Hq Ha rr; by apply HP) ltac:(intros v _ Hstl; by apply HQ, Hstl)).
  unfold wp, mbind, io_bind in Hw |- *. destruct (replay_group g _ s) as [[rep1|] s1]; [|done].
  destruct (disk_sync s1) as [[[]|] s2]; [|done]. destruct (publish_superblock _ _ _ _ _ _ s2) as [[st'|] s3]; [|done].
  cbn in Hw |- *. apply Hw.
Qed.

Lemma wp_recover sc st old pend a s (P : Superblock * RecoveryReport → S → Prop) Q :
  log_settled (view s) sc → v_pages_old (view s) = [] →
  recoverable_with sc (v_pages (view s)) st old pend a → resumes st pend →
  (∀ st' rep' s', quiescent (view s') st' (db_of st' (v_pages (view s'))) →
     db_equiv a (db_of st' (v_pages (view s'))) → P (st', rep') s') →
  (∀ v, still a v → Q v) →
  wp (recover sc) s P Q.
Proof.
  intros Hlog Hold Hr Hres HP HQ. pose proof Hr as [Hg H0 Hc Hck Ho Hf Hout]. unfold recover.
  apply wp_bind, (wp_read_superblock _ st); [done|]. intros s1 Hv1. rewrite <- Hv1 in *.
  change (default genesis (Some st)) with st. apply wp_bind. rewrite Hck. apply wp_lift_Ok. apply wp_bind. rewrite Hg.
  apply wp_recover_old; [done|]. intros rep. destruct pend as [|g [|]]; [| |done].
  - cbn [io_foldM]. apply wp_ret, wp_ret, HP; [|done]. split; [done|]. split; [done|]. exists sc. split; [done|].
    rewrite app_nil_r in Hg. rewrite Hg. split; try done. by rewrite app_nil_r.
  - cbn [io_foldM]. apply wp_bind. apply (wp_recover_pending sc st rep old g a); try done; [by destruct Hres|].
    intros rep' s' Hq Ha. apply wp_ret, wp_ret. by apply HP.
Qed.

Lemma wp_open s c m a (P : Superblock * RecoveryReport → S → Prop) Q :
  view s = mkView c [] m [] → zlen c ≤ u64_max → recoverable c m a →
  (∀ st rep s' a', quiescent (view s') st a' → db_equiv a a' → P (st, rep) s') →
  (∀ v, still a v → Q v) →
  wp pager_open s P Q.
Proof.
  intros Hv Hlen (sc & st & old & pend & Hsc & Hr & Hres) HP HQ. unfold pager_open, wal_open.
  apply wp_bind, wp_bind, (wp_scan_crashed _ sc); rewrite ?Hv; try done.
  - intros s1 Hlog Hp Ho. cbn in Hp, Ho. apply wp_ret.
    apply wp_bind, (wp_wal_scan _ (set_torn None sc)); [apply Hlog|]. intros s2 Hv2.
    apply (recoverable_torn None) in Hr. rewrite <- Hp, <- Hv2 in Hr. rewrite <- Hv2 in Hlog, Ho.
    apply wp_bind, (wp_read_superblock _ st); [apply Hr|]. intros s3 Hv3. rewrite <- Hv3 in Hr, Hlog, Ho.
    apply wp_bind, (wp_recover (set_torn None sc) st old pend a); try done.
    intros st' rep' s' Hq Ha. apply wp_ret. by apply (HP st' rep' s' _ Hq).
  - intros v Hs Hf Hp Ho. cbn in Hp, Ho. apply HQ. split; [done|]. intros c' m' Hc' Hm'.
    destruct (Hs c' Hc') as [t Ht]. apply pages_survive_synced in Hm' as ->; [|done]. rewrite Hp.
    exists (set_torn t sc), st, old, pend. split_and!; [done|by apply recoverable_torn|done].
Qed.
End Recovery.
