(* ===== verification/StorageApply.v ===== *)
(** * [DurablePager::apply] is atomic

    From a quiescent state, an apply that fails at any of its updates, or is
    interrupted by a crash anywhere, leaves a log and a disk that recover to the
    database before it or to the database after it; one that returns leaves the
    database after it. *)

From S2P Require Import Prelude StorageBytes StoragePage StorageIo StorageWal StorageFrames StorageScan StorageGroups StoragePager StorageLaws StorageReplay StorageRecovery.

#[local] Opaque seal page_new sb_page.

Section Apply.
Context `{Sha256} {Hsha : Sha256Ok}.
Context {S : Type} `{!WalIo S} `{!Disk S} {laws : StorageLaws S}.

Lemma Forall_ids (P : Z → Prop) ps : Forall P (page_id <$> ps) ↔ Forall (λ p, P (page_id p)) ps.
Proof. apply Forall_fmap. Qed.

(** ** Appending frames one by one *)

(** [v] is [v0] with the prefix [p] of [F] appended to its log, every step of
    the way remembered. *)
Record appending (v0 : View) (F : bytes) (v : View) (p : bytes) : Prop := {
  ap_log : v_log v = v_log v0 ++ p;
  ap_prefix : p `prefix_of` F;
  ap_old : ∀ x, x ∈ v_log_old v → x ∈ v_log v0 :: v_log_old v0 ∨ ∃ q, q `prefix_of` F ∧ x = v_log v0 ++ q;
  ap_pages : v_pages v = v_pages v0 ∧ v_pages_old v = v_pages_old v0
}.

Lemma appending_refl v0 F : appending v0 F v0 [].
Proof. split; [by rewrite app_nil_r|apply prefix_nil|set_solver|done]. Qed.

Lemma appending_write v0 F v p x q :
  appending v0 F v p → p ++ x `prefix_of` F → q `prefix_of` x →
  appending v0 F (log_write (v_log v ++ q) v) (p ++ q).
Proof.
  intros [Hl Hp Ho Hpg] Hpx Hq. split; cbn; [by rewrite Hl, app_assoc| | |done].
  - etrans; [|done]. by apply prefix_app.
  - intros y [->|Hy]%elem_of_cons; [|by apply Ho]. right. by exists p.
Qed.

(** A log that survives is an old one or has a prefix of [F] at its end. *)
Lemma appending_survives v0 F v p c :
  appending v0 F v p → log_survives v c →
  log_survives v0 c ∨ ∃ q, q `prefix_of` F ∧ c = v_log v0 ++ q.
Proof.
  intros [Hl Hp Ho _] (a & b & Ha & Hb & Hac & Hcb).
  assert (∀ x, x ∈ v_log v :: v_log_old v → x ∈ v_log v0 :: v_log_old v0 ∨ ∃ q, q `prefix_of` F ∧ x = v_log v0 ++ q) as Hx.
  { intros x [->|Hin]%elem_of_cons; [right; by exists p|by apply Ho]. }
  apply Hx in Ha, Hb. set (l := v_log v0) in *.
  assert (l ∈ l :: v_log_old v0) as Hself by set_solver.
  assert ((∃ a', a' ∈ l :: v_log_old v0 ∧ a' `prefix_of` c)) as (a' & Ha' & Hac').
  { destruct Ha as [Ha|(q & _ & ->)]; [by exists a|]. exists l. split; [done|]. etrans; [|done]. by eexists. }
  destruct Hb as [Hb|(q & Hq & ->)]; [left; by exists a', b|].
  destruct (decide (length c ≤ length l)%nat) as [Hle|Hgt].
  - left. exists a', l. split_and!; try done. destruct Hcb as [k Hk].
    apply (f_equal (take (length c))) in Hk. rewrite take_app_le, take_app_length in Hk by done.
    exists (drop (length c) l). rewrite <- Hk at 1. by rewrite take_drop.
  - right. destruct Hcb as [k Hk].
    assert (c = l ++ drop (length l) c) as Hc.
    { rewrite <- (take_drop (length l) c) at 1. f_equal.
      apply (f_equal (take (length l))) in Hk. rewrite take_app_length, take_app_le in Hk by lia. done. }
    exists (drop (length l) c). split; [|done]. etrans; [|exact Hq].
    exists k. rewrite Hc, <- app_assoc in Hk. by apply app_inv_head in Hk.
Qed.

(** One frame. *)
Lemma wp_append_frame v0 F p sp s (P : unit → S → Prop) Q :
  appending v0 F (view s) p → p ++ spec_bytes sp `prefix_of` F →
  (∀ s', appending v0 F (view s') (p ++ spec_bytes sp) → P tt s') →
  (∀ v q, appending v0 F v q → may_fail → Q v) →
  wp (wal_append (spec_bytes sp)) s P Q.
Proof.
  intros Ha Hp HP HQ. apply wp_wal_append.
  - intros s' Hv. apply HP. rewrite Hv. by apply (appending_write v0 F _ p (spec_bytes sp)).
  - intros Hf. split; [by apply (HQ _ p)|]. intros q Hq.
    apply (HQ _ (p ++ q)); [|done]. by apply (appending_write v0 F _ p (spec_bytes sp)).
Qed.

(** The page images. *)
Lemma wp_append_images v0 F idx off material durable pages p s (P : Z * bytes * list Page → S → Prop) Q :
  Forall (λ q, page_ok q ∧ page_shape q) pages → u64_ok idx → 0 ≤ off →
  off + IMAGE_FRAME * zlen pages ≤ u64_max →
  appending v0 F (view s) p →
  p ++ specs_bytes (image_specs off idx (stamped off idx pages)) `prefix_of` F →
  (∀ s', appending v0 F (view s') (p ++ specs_bytes (image_specs off idx (stamped off idx pages))) →
     P (off + IMAGE_FRAME * zlen pages, material ++ concat (image_payload <$> stamped off idx pages),
        durable ++ stamped off idx pages) s') →
  (∀ v q, appending v0 F v q → may_fail → Q v) →
  wp (append_images idx off material durable pages) s P Q.
Proof.
  intros Hpages Hidx H0 Hroom Ha Hpre HP HQ. revert off material durable p s H0 Hroom Ha Hpre HP.
  induction Hpages as [|pg pages [Hok Hsh] Hpages IH]; intros off material durable p s H0 Hroom Ha Hpre HP.
  - cbn [append_images stamped image_specs] in *. apply wp_ret.
    specialize (HP s). cbn [fmap list_fmap concat] in HP. change (zlen []) with 0 in HP.
    rewrite !app_nil_r, Z.mul_0_r, Z.add_0_r in HP. by apply HP.
  - rewrite zlen_cons in Hroom, HP. pose proof (zlen_nonneg pages).
    cbn [append_images stamped image_specs] in *. fold (stamp pg off idx).
    pose proof (stamp_valid pg off idx Hok Hsh) as Hv. set (st := stamp pg off idx) in *.
    pose proof (zlen_image_payload st (valid_ok _ Hv)) as Hpl.
    set (sp := mkSpec PageImage off idx (image_payload st)) in *.
    rewrite specs_bytes_cons in Hpre, HP. rewrite app_assoc in Hpre, HP.
    apply wp_bind. rewrite encode_frame_Ok by (rewrite Hpl; unfold FRAME_FIXED, MAX_FRAME, PAGE_SIZE; lia).
    apply wp_lift_Ok. change (frame_bytes PageImage off idx (image_payload st)) with (spec_bytes sp).
    apply wp_bind. apply (wp_append_frame v0 F p); [done|etrans; [|exact Hpre]; by eexists| |].
    + intros s1 Ha1.
      assert ((off + zlen (spec_bytes sp))%u64 = off + IMAGE_FRAME) as ->.
      { rewrite zlen_spec_bytes. cbn [sp sp_payload]. rewrite Hpl. unfold IMAGE_FRAME in *.
        rewrite wrapping_add_small; unfold FRAME_FIXED, PAGE_SIZE; ulia. }
      apply (IH (off + IMAGE_FRAME) _ _ (p ++ spec_bytes sp)); try done; try (unfold IMAGE_FRAME in *; lia).
      intros s2 Ha2. specialize (HP s2 Ha2). cbn [fmap list_fmap concat] in HP.
      rewrite <- !app_assoc.
      replace (off + IMAGE_FRAME + IMAGE_FRAME * zlen pages) with (off + IMAGE_FRAME * (1 + zlen pages)) by lia.
      exact HP.
    + done.
Qed.

(** ** The group of an apply *)

(** Arguments every check of [apply] and of [append_apply_with_metadata] lets
    through, for a log of [n] bytes. *)
Record apply_args (n : Z) (st : Superblock) (idx : Z) (hash : bytes) (pages : list Page) (nxt : Z)
    (root : option Z) : Prop := {
  aa_index : idx = sb_applied_index st + 1;
  aa_index_ok : u64_ok idx;
  aa_hash : zlen hash = 32 ∧ Forall byte_ok hash;
  aa_valid : Forall page_valid pages;
  aa_ids : Forall (λ p, 2 ≤ page_id p < nxt) pages;
  aa_nodup : NoDup (page_id <$> pages);
  aa_next : next_page_id st ≤ nxt ≤ u64_max;
  aa_root : ∀ r, root = Some r → 0 ≤ r < nxt;
  aa_room : n + BEGIN_FRAME + IMAGE_FRAME * zlen pages + COMMIT_FRAME ≤ u64_max;
  aa_generation : generation st < u64_max
}.

Definition apply_group (idx : Z) (hash : bytes) (pages : list Page) (nxt : Z) (root : option Z) : Group :=
  mkGroup idx hash nxt root (sort_pages pages).

Lemma sort_pages_perm pages : sort_pages pages ≡ₚ pages.
Proof. apply merge_sort_Permutation. Qed.

Lemma zlen_sort_pages pages : zlen (sort_pages pages) = zlen pages.
Proof. unfold zlen. by rewrite (Permutation_length (sort_pages_perm pages)). Qed.

Section OneApply.
Context (n : Z) (st : Superblock) (idx : Z) (hash : bytes) (pages : list Page) (nxt : Z) (root : option Z).
Context (Hn : 0 ≤ n) (Hst : sb_ok st) (Hargs : apply_args n st idx hash pages nxt root).

Let g := apply_group idx hash pages nxt root.

Lemma apply_group_ok : group_ok n g.
Proof.
  destruct Hargs as [_ Hi Hh Hv Hids Hnd Hnx Hr Hrm _]. pose proof (sbok_next _ Hst).
  split; cbn [g apply_group g_index g_hash g_next g_root g_pages]; try done; try lia.
  - rewrite sort_pages_perm. rewrite Forall_forall in Hv, Hids |- *. intros p Hp.
    specialize (Hv p Hp). specialize (Hids p Hp) as [_ ?]. split_and!; [apply Hv..|done].
  - by rewrite sort_pages_perm.
  - unfold g_end, g_commit_lsn. unfold g, apply_group. cbn [g_pages]. by rewrite zlen_sort_pages.
Qed.

Lemma apply_pending : pending (g_end n g) st (committed n g).
Proof.
  pose proof apply_group_ok as Hg. pose proof Hargs as [Hi Hiu Hh Hv Hids Hnd Hnx Hr Hrm Hgen].
  pose proof (sbok_next _ Hst). pose proof (g_stamped_images _ _ Hg) as Himg.
  assert (Forall (λ p, page_ok p ∧ page_shape p) (g_pages g)) as Hps.
  { eapply Forall_impl; [apply (gok_pages _ _ Hg)|]. naive_solver. }
  assert (page_id <$> g_stamped n g = page_id <$> g_pages g) as Hpid by by apply stamped_ids.
  split; cbn [committed ca_apply_index ca_state_hash ca_next_page_id ca_root_directory ca_pages g apply_group
    g_index g_hash g_next g_root]; try done; [lia| |].
  - intros r Hr'. apply Hr in Hr'. lia.
  - split; fold g.
    + clear -Himg. induction Himg; constructor; done.
    + apply (Forall_ids (Z.le 2)). rewrite Hpid. apply Forall_ids. cbn [g apply_group g_pages]. rewrite sort_pages_perm.
      eapply Forall_impl; [exact Hids|]. cbn. lia.
    + assert (∀ o ps, images_at o ps → o + IMAGE_FRAME * zlen ps ≤ g_end n g → Forall (λ p, page_lsn p ≤ g_end n g) ps) as Hl.
      { clear. induction 1 as [|o p ps Hp Hlsn _ IH]; [constructor|]. rewrite zlen_cons. intros Hle.
        pose proof (zlen_nonneg ps). unfold IMAGE_FRAME in *. constructor; [lia|apply IH; lia]. }
      apply (Hl _ _ Himg). rewrite zlen_g_stamped. unfold g_end, g_commit_lsn, COMMIT_FRAME. lia.
    + rewrite Hpid. apply (gok_nodup _ _ Hg).
Qed.

(** The images are newer than anything on the disk. *)
Lemma apply_compat m : pages_fresh m n → Forall (image_compat m) (ca_pages (committed n g)).
Proof.
  intros Hf. pose proof apply_group_ok as Hg. pose proof (g_stamped_images _ _ Hg) as Himg.
  assert (Forall (λ p, 2 ≤ page_id p) (g_stamped n g)) as Hids.
  { apply (Forall_ids (Z.le 2)).
    unfold g_stamped. rewrite stamped_ids by (eapply Forall_impl; [apply (gok_pages _ _ Hg)|]; naive_solver).
    apply Forall_ids. cbn [g apply_group g_pages]. rewrite sort_pages_perm.
    eapply Forall_impl; [apply (aa_ids _ _ _ _ _ _ _ Hargs)|]. cbn. lia. }
  assert (∀ o ps, images_at o ps → n < o → Forall (λ p, n < page_lsn p) ps) as Hl.
  { clear. induction 1 as [|o p ps Hp Hlsn _ IH]; intros Ho; [constructor|].
    constructor; [lia|]. apply IH. unfold IMAGE_FRAME. lia. }
  specialize (Hl _ _ Himg ltac:(unfold BEGIN_FRAME; lia)). cbn [committed ca_pages].
  rewrite Forall_forall in Hids, Hl |- *. intros p Hp l Hm.
  destruct (page_decode l) as [q|e] eqn:Hd; [|left; unfold undecodable; by rewrite Hd].
  right; right. exists q. specialize (Hids p Hp). specialize (Hl p Hp).
  destruct (Hf _ l q Hids Hm Hd). split_and!; [done|done|lia].
Qed.

Lemma apply_existsb_next : existsb (λ page, nxt <=? page_id page) pages = false.
Proof.
  apply not_true_is_false. intros (p & Hp & Hle)%existsb_exists. bool_prop.
  pose proof (aa_ids _ _ _ _ _ _ _ Hargs) as Hids. rewrite Forall_forall in Hids.
  specialize (Hids p). rewrite list_elem_of_In in Hids. specialize (Hids Hp). lia.
Qed.

Lemma apply_check_pages : check_pages ∅ (sort_pages pages) = Ok tt.
Proof.
  assert (∀ ps ids, Forall page_valid ps → NoDup (page_id <$> ps) → (∀ p, p ∈ ps → page_id p ∉ ids) →
    check_pages ids ps = Ok tt) as Hcheck.
  { induction ps as [|p ps IH]; intros ids Hv Hnd Hid; [done|]. apply Forall_cons in Hv as [Hp Hv].
    cbn [fmap list_fmap] in Hnd. apply NoDup_cons in Hnd as [Hnin Hnd]. cbn [check_pages].
    rewrite (proj2 (page_validate_spec p)) by (split; apply Hp). cbn [mbind result_bind].
    rewrite bool_decide_eq_false_2 by (apply Hid; left). cbn [negb ensure mbind result_bind].
    apply IH; [done|done|]. intros q Hq [E%elem_of_singleton|Hin]%elem_of_union; [|by apply (Hid q); [right|]].
    apply Hnin. rewrite <- E. by apply list_elem_of_fmap_2. }
  apply Hcheck.
  - rewrite sort_pages_perm. apply Hargs.
  - rewrite sort_pages_perm. apply Hargs.
  - set_solver.
Qed.
End OneApply.

(** ** [append_apply_with_metadata] *)

(** The checks before the first frame. *)
Lemma append_checks n st sc idx hash pages nxt root :
  sb_ok st → apply_args n st idx hash pages nxt root → Forall (reached st) (groups sc) →
  find (λ group, ca_apply_index group =? idx) (groups sc) = None
  ∧ match last (groups sc) with Some lg => negb (idx <=? ca_apply_index lg) | None => true end = true
  ∧ negb ((nxt <? 2) || existsb (λ page, nxt <=? page_id page) (sort_pages pages)
          || match root with Some r => nxt <=? r | None => false end) = true
  ∧ advances sc idx.
Proof.
  intros Hst Hargs Hre. pose proof (aa_index _ _ _ _ _ _ _ Hargs) as Hi.
  assert (∀ g, g ∈ groups sc → ca_apply_index g < idx) as Hlt.
  { intros g Hg. rewrite Forall_forall in Hre. destruct (Hre g Hg) as [?|[? _]]; lia. }
  assert (∀ lg, last (groups sc) = Some lg → ca_apply_index lg < idx) as Hlast.
  { intros lg Hl. apply Hlt. by apply last_Some_elem_of in Hl. }
  split_and!.
  - destruct (find _ _) as [g|] eqn:Hf; [|done]. apply find_some in Hf as [Hin E].
    apply list_elem_of_In, Hlt in Hin. bool_prop. lia.
  - destruct (last (groups sc)) as [lg|]; [|done]. specialize (Hlast lg eq_refl).
    apply negb_true_iff, Z.leb_gt. lia.
  - apply negb_true_iff, orb_false_iff. split; [apply orb_false_iff; split|].
    + apply Z.ltb_ge. pose proof (sbok_next _ Hst). pose proof (aa_next _ _ _ _ _ _ _ Hargs). lia.
    + apply not_true_is_false. intros (p & Hp & Hle)%existsb_exists. bool_prop.
      pose proof (aa_ids _ _ _ _ _ _ _ Hargs) as Hids. rewrite Forall_forall in Hids.
      apply list_elem_of_In in Hp. rewrite sort_pages_perm in Hp. specialize (Hids p Hp). lia.
    + destruct root as [r|]; [|done]. apply Z.leb_gt. by apply (aa_root _ _ _ _ _ _ _ Hargs).
  - done.
Qed.

(** What makes an apply fail: a device, or more pages than a commit frame counts. *)
Definition apply_fails (pages : list Page) : Prop := may_fail ∨ u32_max < zlen pages.

(** The frames of a group before its commit. *)
Definition group_head (n : Z) (g : Group) : bytes :=
  spec_bytes (begin_spec n g) ++ specs_bytes (image_specs (n + BEGIN_FRAME) (g_index g) (g_stamped n g)).

Lemma group_head_commit n g : specs_bytes (group_specs n g) = group_head n g ++ spec_bytes (commit_spec n g).
Proof.
  unfold group_head, group_specs. rewrite specs_bytes_cons, specs_bytes_app, <- app_assoc. do 2 f_equal.
  unfold specs_bytes. cbn [fmap list_fmap concat]. by rewrite app_nil_r.
Qed.

Lemma appending_weaken v0 F F' v p : F `prefix_of` F' → appending v0 F v p → appending v0 F' v p.
Proof.
  intros HF [Hl Hp Ho Hpg]. split; [done|by etrans| |done]. intros x Hx. destruct (Ho x Hx) as [?|(q & Hq & ->)]; [by left|].
  right. exists q. split; [by etrans|done].
Qed.

Lemma wp_append_group sc st idx hash pages nxt root s (P : CommittedApply * option Z → S → Prop) Q :
  let v0 := view s in let l := v_log v0 in let g := apply_group idx hash pages nxt root in
  let F0 := group_head (zlen l) g in let F := specs_bytes (group_specs (zlen l) g) in
  clean l sc → sb_ok st → apply_args (zlen l) st idx hash pages nxt root → Forall (reached st) (groups sc) →
  (zlen pages ≤ u32_max →
     ∀ s' e, view s' = mkView (l ++ F) [] (v_pages v0) (v_pages_old v0) → P (committed (zlen l) g, e) s') →
  (∀ v p, appending v0 F0 v p → apply_fails pages → Q v) →
  (zlen pages ≤ u32_max → ∀ v p, appending v0 F v p → may_fail → Q v) →
  (zlen pages ≤ u32_max → ∀ v, v_log v = l ++ F → v_log_old v = [] → v_pages v = v_pages v0 → v_pages_old v = v_pages_old v0 →
     may_fail → Q v) →
  wp (append_apply_with_metadata idx hash nxt root pages) s P Q.
Proof.
  intros v0 l g F0 F Hclean Hst Hargs Hre HP HQ0 HQ HQ'. pose proof (zlen_nonneg l) as Hl0.
  pose proof (apply_group_ok (zlen l) st idx hash pages nxt root Hl0 Hst Hargs) as Hg. fold g in Hg.
  destruct (append_checks (zlen l) st sc idx hash pages nxt root Hst Hargs Hre) as (Hfind & Hlast & Hmeta & Hadv).
  pose proof (gok_hash _ _ Hg) as [Hh Hhb]. pose proof (zlen_g_begin g Hh) as Hbl.
  pose proof (gok_room _ _ Hg) as Hroom. unfold g_end, g_commit_lsn, BEGIN_FRAME, IMAGE_FRAME, COMMIT_FRAME in Hroom.
  pose proof (zlen_nonneg (g_pages g)) as Hp0.
  unfold append_apply_with_metadata. apply wp_bind, (wp_scan_clean _ sc); [done|]. intros s1 Hv1.
  rewrite Hfind. apply wp_bind, wp_ensure_true; [done|]. apply wp_bind, wp_ensure_true; [done|].
  apply wp_bind. rewrite (apply_check_pages (zlen l) st idx hash pages nxt root Hl0 Hst Hargs). apply wp_lift_Ok.
  apply wp_bind, wp_wal_len; [rewrite Hv1; apply (clean_len _ _ Hclean)|]. intros s2 Hv2. rewrite Hv1 in Hv2 |- *.
  fold v0 l. change (begin_payload hash nxt root) with (g_begin g).
  apply wp_bind. rewrite encode_frame_Ok by (rewrite Hbl; done). apply wp_lift_Ok.
  change (frame_bytes BeginApply (zlen l) idx (g_begin g)) with (spec_bytes (begin_spec (zlen l) g)).
  set (images := image_specs (zlen l + BEGIN_FRAME) idx (g_stamped (zlen l) g)).
  assert (F0 = spec_bytes (begin_spec (zlen l) g) ++ specs_bytes images) as HF0 by done.
  apply wp_bind. apply (wp_append_frame v0 F0 []).
  { rewrite Hv2. apply appending_refl. }
  { rewrite HF0. by eexists. }
  2:{ intros v q Ha Hf. apply (HQ0 v q); [done|by left]. }
  rewrite app_nil_l. intros s3 Ha3.
  assert ((zlen l + zlen (spec_bytes (begin_spec (zlen l) g)))%u64 = zlen l + BEGIN_FRAME) as ->.
  { rewrite zlen_spec_bytes. cbn [begin_spec sp_payload]. rewrite Hbl. unfold FRAME_FIXED, BEGIN_FRAME.
    rewrite wrapping_add_small by ulia. lia. }
  apply wp_bind. apply (wp_append_images v0 F0 idx (zlen l + BEGIN_FRAME) _ [] (sort_pages pages)
    (spec_bytes (begin_spec (zlen l) g))); [| | | |done| | |].
  { eapply Forall_impl; [apply (gok_pages _ _ Hg)|]. naive_solver. }
  { apply (gok_index _ _ Hg). }
  { unfold BEGIN_FRAME. lia. }
  { change (sort_pages pages) with (g_pages g). unfold BEGIN_FRAME, IMAGE_FRAME. lia. }
  { change (stamped (zlen l + BEGIN_FRAME) idx (sort_pages pages)) with (g_stamped (zlen l) g).
    fold images. by rewrite HF0. }
  2:{ intros v q Ha Hf. apply (HQ0 v q); [done|by left]. }
  change (stamped (zlen l + BEGIN_FRAME) idx (sort_pages pages)) with (g_stamped (zlen l) g). fold images.
  intros s4 Ha4. rewrite app_nil_l.
  change (zlen l + BEGIN_FRAME + IMAGE_FRAME * zlen (sort_pages pages)) with (g_commit_lsn (zlen l) g).
  replace ((to_le_bytes 8 idx ++ g_begin g) ++ concat (image_payload <$> g_stamped (zlen l) g))
    with (g_material (zlen l) g) by (unfold g_material; by rewrite <- app_assoc).
  rewrite zlen_g_stamped. rewrite <- HF0 in Ha4.
  assert (zlen (g_pages g) = zlen pages) as Hcnt by apply zlen_sort_pages.
  apply wp_bind. unfold u32_try_from. destruct (Z.leb_spec (zlen (g_pages g)) u32_max) as [Hle|Hgt].
  2:{ apply wp_lift; [done|]. intros e _. apply (HQ0 _ _ Ha4). right. lia. }
  rewrite Hcnt in Hle. specialize (HP Hle). specialize (HQ Hle). specialize (HQ' Hle).
  pose proof (group_head_commit (zlen l) g) as HF. fold F F0 in HF.
  apply (appending_weaken _ F0 F) in Ha4; [|rewrite HF; by eexists].
  apply wp_lift_Ok. apply wp_bind.
  rewrite encode_frame_Ok by (rewrite zlen_app, zlen_to_le_bytes, sha256_len; done). apply wp_lift_Ok.
  change (frame_bytes CommitApply (g_commit_lsn (zlen l) g) idx (to_le_bytes 4 (zlen (g_pages g)) ++ sha256 (g_material (zlen l) g)))
    with (spec_bytes (commit_spec (zlen l) g)).
  apply wp_bind. eapply (wp_append_frame v0 F); [exact Ha4| | |].
  { by rewrite HF. }
  2:{ intros v q Ha Hf. by apply (HQ v q). }
  rewrite <- HF. intros s5 Ha5. apply wp_bind, wp_wal_sync.
  - intros s6 Hv6. apply wp_ret.
    replace (mkCommitted _ _ _ _ _ _ _ _ _) with (committed (zlen l) g).
    + apply HP. rewrite Hv6. destruct Ha5 as [E1 _ _ [E2 E3]]. unfold log_synced. by rewrite E1, E2, E3.
    + unfold committed. f_equal. rewrite zlen_spec_bytes. cbn [commit_spec sp_payload].
      rewrite zlen_app, zlen_to_le_bytes, sha256_len. unfold g_end, g_commit_lsn, FRAME_FIXED, COMMIT_FRAME, BEGIN_FRAME, IMAGE_FRAME.
      rewrite wrapping_add_small; ulia.
  - intros Hf. split; [by apply (HQ _ F)|]. destruct Ha5 as [E1 _ _ [E2 E3]]. by apply HQ'.
Qed.

(** ** [apply] *)

Definition reaches_either (a b : Db) (v : View) : Prop :=
  ∀ c m, log_survives v c → pages_survive v m → recoverable c m a ∨ recoverable c m b.

(** A log that survives an append cut short says what it said before. *)
Lemma append_cut l sc st G q m :
  clean l sc → group_ok (zlen l) G → advances sc (g_index G) → q `prefix_of` specs_bytes (group_specs (zlen l) G) →
  q ≠ specs_bytes (group_specs (zlen l) G) →
  recoverable_with sc m st (groups sc) [] (db_of st m) → recoverable (l ++ q) m (db_of st m).
Proof.
  intros Hclean Hg Hadv [rest Hq] Hne Hr. destruct (group_append_atomic l sc G q rest Hclean Hg Hadv Hq) as [Hcut _].
  destruct Hcut as (t & Ht & _); [intros ->; rewrite app_nil_r in Hq; done|].
  exists (set_torn t sc), st, (groups sc), []. split_and!; [done|by apply recoverable_torn|by left].
Qed.

Lemma group_head_proper n g q : q `prefix_of` group_head n g →
  q `prefix_of` specs_bytes (group_specs n g) ∧ q ≠ specs_bytes (group_specs n g).
Proof.
  intros [k Hk]. rewrite group_head_commit, Hk. split; [exists (k ++ spec_bytes (commit_spec n g)); by rewrite <- app_assoc|].
  intros E. apply (f_equal zlen) in E. rewrite !zlen_app, zlen_spec_bytes in E. pose proof (zlen_nonneg k).
  pose proof (zlen_nonneg (sp_payload (commit_spec n g))). unfold FRAME_FIXED in E. lia.
Qed.

(** A longer log still has the checkpoint the superblock names. *)
Lemma check_checkpoint_add st sc g :
  check_checkpoint st sc = Ok tt → safe_append_offset sc ≤ ca_end_lsn g → check_checkpoint st (add_group sc g) = Ok tt.
Proof.
  unfold check_checkpoint. cbn [add_group safe_append_offset checkpoints]. intros Hck Hle.
  destruct (Z.ltb_spec (safe_append_offset sc) (checkpoint_lsn st)); [done|].
  by rewrite (proj2 (Z.ltb_ge _ _)) by lia.
Qed.

(** With its commit, the group is the one the superblock has not reached. *)
Lemma apply_recoverable l sc st idx hash pages nxt root m :
  clean l sc → sb_ok st → apply_args (zlen l) st idx hash pages nxt root → zlen pages ≤ u32_max →
  recoverable_with sc m st (groups sc) [] (db_of st m) →
  let G := apply_group idx hash pages nxt root in
  let sc' := add_group sc (committed (zlen l) G) in
  clean (l ++ specs_bytes (group_specs (zlen l) G)) sc'
  ∧ recoverable_with sc' m st (groups sc) [committed (zlen l) G] (db_apply (committed (zlen l) G) m).
Proof.
  intros Hclean Hst Hargs Hcount [_ H0 Hc Hcp Hre Hf Hout] G sc'. pose proof (zlen_nonneg l) as Hl0.
  pose proof (apply_group_ok (zlen l) st idx hash pages nxt root Hl0 Hst Hargs) as Hg.
  destruct (append_checks (zlen l) st sc idx hash pages nxt root Hst Hargs Hre) as (_ & _ & _ & Hadv).
  assert (clean (l ++ specs_bytes (group_specs (zlen l) G)) sc') as Hclean'.
  { apply clean_add_group; try done. cbn [G apply_group g_pages]. by rewrite zlen_sort_pages. }
  split; [done|]. rewrite (clean_end _ _ Hclean) in Hf. pose proof (zlen_nonneg (l ++ specs_bytes (group_specs (zlen l) G))).
  split; try done.
  - rewrite (clean_end _ _ Hclean'). lia.
  - apply check_checkpoint_add; [done|]. rewrite (clean_end _ _ Hclean). cbn [committed ca_end_lsn].
    pose proof (zlen_nonneg (g_pages G)). unfold g_end, g_commit_lsn, BEGIN_FRAME, IMAGE_FRAME, COMMIT_FRAME. lia.
  - intros id b q Hid Hm Hd. destruct (Hf id b q Hid Hm Hd). split; [done|].
    cbn [sc' add_group safe_append_offset committed ca_end_lsn]. pose proof (zlen_nonneg (g_pages G)).
    unfold g_end, g_commit_lsn, BEGIN_FRAME, IMAGE_FRAME, COMMIT_FRAME. lia.
  - split_and!; [|by apply (apply_compat (zlen l) st idx hash pages nxt root)|done].
    by apply (apply_pending (zlen l) st idx hash pages nxt root Hl0 Hst Hargs).
Qed.

(** The checks of [apply] before it writes. *)
Lemma apply_checks n st idx hash pages nxt root :
  sb_ok st → apply_args n st idx hash pages nxt root →
  negb (existsb (λ page, page_id page <? 2) pages) = true ∧ (idx =? sb_applied_index st) = false
  ∧ (idx =? (sb_applied_index st + 1)%u64) = true
  ∧ negb ((nxt <? next_page_id st) || existsb (λ page, nxt <=? page_id page) pages) = true.
Proof.
  intros Hst Hargs. pose proof (aa_index _ _ _ _ _ _ _ Hargs) as Hi. pose proof (aa_index_ok _ _ _ _ _ _ _ Hargs) as Hiu.
  pose proof (sbok_index _ Hst) as Hsi. split_and!.
  - apply negb_true_iff, not_true_is_false. intros (p & Hp & Hlt)%existsb_exists. bool_prop.
    pose proof (aa_ids _ _ _ _ _ _ _ Hargs) as Hids. rewrite Forall_forall in Hids.
    apply list_elem_of_In in Hp. specialize (Hids p Hp). lia.
  - apply Z.eqb_neq. lia.
  - rewrite wrapping_add_small by (unfold u64_ok in *; lia). by apply Z.eqb_eq.
  - rewrite (apply_existsb_next n st idx hash pages nxt root Hargs), orb_false_r.
    apply negb_true_iff, Z.ltb_ge. apply (aa_next _ _ _ _ _ _ _ Hargs).
Qed.

Lemma wp_apply st a idx hash pages nxt root s (P : CommittedApply * Superblock → S → Prop) Q :
  let l := v_log (view s) in
  let g := committed (zlen l) (apply_group idx hash pages nxt root) in
  quiescent (view s) st a → apply_args (zlen l) st idx hash pages nxt root →
  (∀ s', quiescent (view s') (next_super st g) (db_of (next_super st g) (v_pages (view s'))) →
     db_equiv (db_apply g (d_pages a)) (db_of (next_super st g) (v_pages (view s'))) → P (g, next_super st g) s') →
  (∀ v, apply_fails pages → (checkpoint_lsn st = 0 → reaches_either a (db_apply g (d_pages a)) v) → Q v) →
  wp (pager_apply st idx hash pages nxt root) s P Q.
Proof.
  intros l g (Hold & -> & sc & Hlog & Hr) Hargs HP HQ. cbn [db_of d_pages] in *.
  pose proof (cur_ok _ _ (rw_current _ _ _ _ _ _ Hr)) as Hst. pose proof (rw_old _ _ _ _ _ _ Hr) as Hre.
  pose proof (proj1 Hlog) as Hclean. fold l in Hclean.
  pose proof (apply_group_ok (zlen l) st idx hash pages nxt root (zlen_nonneg l) Hst Hargs) as Hg.
  set (G := apply_group idx hash pages nxt root) in *. set (F := specs_bytes (group_specs (zlen l) G)).
  destruct (append_checks (zlen l) st sc idx hash pages nxt root Hst Hargs Hre) as (_ & _ & _ & Hadv).
  pose proof (λ Hcount, apply_recoverable l sc st idx hash pages nxt root (v_pages (view s)) Hclean Hst Hargs Hcount Hr) as Hfull.
  cbv zeta in Hfull. fold G F in Hfull. set (sc' := add_group sc (committed (zlen l) G)) in *. fold g in Hfull.
  assert (∀ c, log_survives (view s) c → recoverable c (v_pages (view s)) (db_of st (v_pages (view s)))) as Hbefore.
  { intros c Hs. destruct (proj2 Hlog c Hs) as [t Ht]. exists (set_torn t sc), st, (groups sc), [].
    split_and!; [done|by apply recoverable_torn|by left]. }
  assert (∀ q, q `prefix_of` F → q ≠ F → recoverable (l ++ q) (v_pages (view s)) (db_of st (v_pages (view s)))) as Hcut
    by (intros q Hq Hne; by apply (append_cut l sc st G)).
  assert (zlen pages ≤ u32_max → checkpoint_lsn st = 0 → recoverable (l ++ F) (v_pages (view s)) (db_apply g (v_pages (view s)))) as Hall.
  { intros Hcount Hck0. destruct (Hfull Hcount) as [Hc' Hr']. exists sc', st, (groups sc), [g].
    split_and!; [by apply clean_scan|done|by right]. }
  destruct (apply_checks (zlen l) st idx hash pages nxt root Hst Hargs) as (C1 & C2 & C3 & C4).
  unfold pager_apply. rewrite C2. apply wp_bind, wp_ensure_true; [done|]. apply wp_bind, wp_ensure_true; [done|].
  apply wp_bind, wp_ensure_true; [done|]. apply wp_bind. apply (wp_append_group sc st); try done.
  - intros Hcount s1 e Hv1. fold l G F in Hv1. fold l G g. destruct (Hfull Hcount) as [Hclean' Hr'].
    assert (log_settled (view s1) sc') as Hlog1.
    { rewrite Hv1. split; [done|]. intros c ->%log_survives_synced; [|done]. exists None. cbn [v_log].
      rewrite (clean_scan _ _ Hclean'). rewrite <- (clean_torn _ _ Hclean') at 1. by rewrite set_torn_id. }
    assert (v_pages (view s1) = v_pages (view s)) as Hp1 by by rewrite Hv1.
    rewrite <- Hp1 in Hr'.
    pose proof (wp_complete_group sc' st (groups sc) g _ empty_report s1 (λ _ st' s', P (g, st') s') Q Hlog1
      ltac:(by rewrite Hv1) Hr') as Hw.
    rewrite Hp1 in Hw. specialize (Hw ltac:(intros rep s' _ Hq Ha; by apply HP)).
    specialize (Hw ltac:(intros v Hfail Hv; apply HQ; [by left|]; intros Hck0 c m Hc' Hm; right; by apply (Hv Hck0))).
    unfold wp, mbind, io_bind in Hw |- *. cbn [g committed ca_apply_index ca_state_hash ca_next_page_id ca_root_directory G apply_group g_index g_hash g_next g_root] in Hw.
    destruct (replay_group g _ s1) as [[rep1|] s2]; [|done].
    destruct (disk_sync s2) as [[[]|] s3]; [|done]. destruct (publish_superblock _ _ _ _ _ _ s3) as [[st'|] s4]; [|done].
    exact Hw.
  - intros v p Ha Hfail. fold l G F in Ha. apply HQ; [done|]. intros _ c m Hc' Hm. left.
    pose proof (ap_pages _ _ _ _ Ha) as [E1 E2]. apply pages_survive_synced in Hm as ->; [|congruence]. rewrite E1.
    destruct (appending_survives _ _ _ _ _ Ha Hc') as [?|(q & Hq & ->)]; [by apply Hbefore|].
    apply group_head_proper in Hq as [? ?]. by apply Hcut.
  - intros Hcount v p Ha Hfail. fold l G F in Ha. apply HQ; [by left|]. intros Hck0 c m Hc' Hm.
    pose proof (ap_pages _ _ _ _ Ha) as [E1 E2]. apply pages_survive_synced in Hm as ->; [|congruence]. rewrite E1.
    destruct (appending_survives _ _ _ _ _ Ha Hc') as [?|(q & Hq & ->)]; [left; by apply Hbefore|].
    destruct (decide (q = F)) as [->|Hne]; [right; by apply Hall|left; by apply Hcut].
  - intros Hcount v E1 E2 E3 E4 Hfail. fold l G F in E1. apply HQ; [by left|]. intros Hck0 c m Hc' Hm. right.
    apply log_survives_synced in Hc' as ->; [|done]. apply pages_survive_synced in Hm as ->; [|congruence].
    rewrite E3, E1. by apply Hall.
Qed.
End Apply.
