(* ===== verification/StorageInstall.v ===== *)
(** * [DurablePager::install_snapshot] and [checkpoint] are atomic

    A snapshot is written above the allocated pages, so that until the
    superblock names it every crash still finds the old database.  A checkpoint
    changes the log and the superblock, never the database. *)

From S2P Require Import Prelude StorageBytes StoragePage StorageIo StorageWal StorageFrames StorageScan StorageGroups StoragePager StorageLaws StorageReplay StorageRecovery StorageApply.

#[local] Opaque seal page_new sb_page.

Section Install.
Context `{Sha256} {Hsha : Sha256Ok}.
Context {S : Type} `{!WalIo S} `{!Disk S} {laws : StorageLaws S}.

Record install_args (st : Superblock) (idx : Z) (hash : bytes) (pages : list Page) (nxt root : Z) : Prop := {
  ia_index : sb_applied_index st < idx;
  ia_index_ok : u64_ok idx;
  ia_hash : zlen hash = 32 ∧ Forall byte_ok hash;
  ia_valid : Forall page_valid pages;
  ia_ids : Forall (λ p, next_page_id st ≤ page_id p < nxt) pages;
  ia_nodup : NoDup (page_id <$> pages);
  ia_next : next_page_id st < nxt ≤ u64_max;
  ia_root : root ∈ page_id <$> pages;
  ia_generation : generation st < u64_max
}.

(** The pages as they are written. *)
Definition installed (idx : Z) (pages : list Page) : list Page :=
  (λ p, stamp p 0 idx) <$> sort_pages pages.

(** Disks a crash may find before the superblock is published: the allocated
    pages are untouched. *)
Record unpublished (m0 : gmap Z bytes) (nx n : Z) (m : gmap Z bytes) : Prop := {
  un_same : ∀ id, id < nx → m !! id = m0 !! id;
  un_fresh : pages_fresh m n
}.

Section Write.
Context (m0 : gmap Z bytes) (nx n idx : Z) (v0 : View) (Hn : 0 ≤ n) (Hnx : 2 ≤ nx).

Lemma unpublished_write v p x m :
  page_valid p → nx ≤ page_id p → page_lsn p = 0 →
  (∀ m, pages_survive v m → unpublished m0 nx n m) → torn (v_pages v !! page_id p) (page_bytes p) x →
  pages_survive (pages_write (<[page_id p := x]> (v_pages v)) v) m → unpublished m0 nx n m.
Proof.
  intros Hp Hid Hlsn Hv Hx (m' & Hm' & Heq & Hcase)%pages_survive_write. destruct (Hv m' Hm') as [Hs Hf]. split.
  - intros id Hlt. rewrite Heq by lia. by apply Hs.
  - intros id l q H2 Hm Hd. destruct (decide (id = page_id p)) as [->|Hne]; [|apply (Hf id l q); [done|by rewrite <- Heq|done]].
    destruct Hcase as [E|[E|(y & E & Hu)]].
    + apply (Hf _ l q); [done|congruence|done].
    + assert (l = x) as -> by congruence. destruct Hx as [->|[Hold|Hu]].
      * rewrite (page_valid_decode _ Hp) in Hd. injection Hd as <-. rewrite Hlsn. done.
      * apply (un_fresh _ _ _ _ (Hv _ (pages_survive_self v)) _ x q); done.
      * unfold undecodable in Hu. by rewrite Hd in Hu.
    + assert (l = y) as -> by congruence. unfold undecodable in Hu. by rewrite Hd in Hu.
Qed.

Lemma wp_install_pages fin todo s (P : unit → S → Prop) Q :
  Forall page_valid todo → Forall (λ p, nx ≤ page_id p) todo →
  same_log v0 (view s) → v_pages (view s) = overlay fin m0 →
  (∀ m, pages_survive (view s) m → unpublished m0 nx n m) →
  (∀ s', same_log v0 (view s') → v_pages (view s') = overlay (fin ++ ((λ p, stamp p 0 idx) <$> todo)) m0 →
     (∀ m, pages_survive (view s') m → unpublished m0 nx n m) → P tt s') →
  (∀ v, same_log v0 v → (∀ m, pages_survive v m → unpublished m0 nx n m) → may_fail → Q v) →
  wp (io_foldM (install_page idx) tt todo) s P Q.
Proof.
  intros Hvalid Hids. revert fin s. induction Hvalid as [|p todo Hp Hvalid IH]; intros fin s Hl Hpg Hs HP HQ.
  - apply wp_ret, HP; [done|by rewrite app_nil_r|done].
  - apply Forall_cons in Hids as [Hid Hids]. cbn [io_foldM]. apply wp_bind. unfold install_page.
    destruct (valid_ok _ Hp), (valid_shape _ Hp).
    apply wp_bind, wp_ensure_true; [apply negb_true_iff, Z.ltb_ge; lia|].
    rewrite <- stamp_alt by apply Hp. pose proof (stamp_valid p 0 idx (valid_ok _ Hp) (valid_shape _ Hp)) as Hst.
    pose proof (stamp_id p 0 idx (valid_ok _ Hp) (valid_shape _ Hp)) as Hsid.
    pose proof (stamp_lsn p 0 idx (valid_ok _ Hp) (valid_shape _ Hp) ltac:(by unfold u64_ok)) as Hsl.
    set (q := stamp p 0 idx) in *. apply wp_bind.
    rewrite (proj2 (page_validate_spec q)) by (split; apply Hst). apply wp_lift_Ok. rewrite <- Hsid in Hid.
    apply wp_write_page.
    + intros s1 Hv1. apply (IH Hids (fin ++ [q])).
      * etrans; [exact Hl|by rewrite Hv1].
      * rewrite Hv1, overlay_app. cbn [v_pages pages_write]. by rewrite Hpg.
      * intros m. rewrite Hv1. apply unpublished_write; try done. by left.
      * rewrite <- app_assoc. exact HP.
      * exact HQ.
    + intros Hf. split; [by apply HQ|]. intros x Hx. apply HQ; [etrans; [exact Hl|done]| |done].
      intros m. by apply unpublished_write.
Qed.
End Write.

Section OneInstall.
Context (st : Superblock) (idx : Z) (hash : bytes) (pages : list Page) (nxt root : Z).
Context (Hst : sb_ok st) (Hargs : install_args st idx hash pages nxt root).

Definition install_super : Superblock :=
  mkSuper (1 - slot st) (generation st + 1) idx hash 0 nxt (Some root).

Lemma install_super_ok : sb_ok install_super.
Proof.
  destruct Hst as [Hs Hg _ _ _ Hn _]. destruct Hargs as [Hi Hiu Hh Hv Hids _ Hnx Hr Hgen].
  split; cbn; try done; try ulia. intros r [= <-]. apply list_elem_of_fmap in Hr as (p & -> & Hp).
  rewrite Forall_forall in Hids. specialize (Hids p Hp). lia.
Qed.

Definition db_install (m : gmap Z bytes) : Db := mkDb idx hash nxt (Some root) (overlay (installed idx pages) m).

(** Before publication every surviving disk is the old database. *)
Lemma unpublished_recoverable sc m0 m :
  recoverable_with sc m0 st (groups sc) [] (db_of st m0) →
  unpublished m0 (next_page_id st) (safe_append_offset sc) m →
  recoverable_with sc m st (groups sc) [] (db_of st m0).
Proof.
  intros [H1 H2 H3 H4 H5 H6 H7] [Hs Hf]. pose proof (sbok_next _ Hst). split; try done.
  - apply (current_ext m0); [done|]. intros. apply Hs. lia.
  - split; cbn; try done. intros id Hid. symmetry. apply Hs. lia.
Qed.

Lemma install_published sc m1 :
  recoverable_with sc m1 st (groups sc) [] (db_of st m1) →
  recoverable_with sc (<[slot install_super := page_bytes (sb_page install_super)]> m1) install_super (groups sc) []
    (db_of install_super m1).
Proof.
  intros [H1 H2 H3 H4 H5 H6 H7]. pose proof install_super_ok as Hok.
  assert (slot st = 0 ∨ slot st = 1) as Hslot by apply Hst.
  assert (∀ id, 2 ≤ id → <[slot install_super := page_bytes (sb_page install_super)]> m1 !! id = m1 !! id) as Hpg.
  { intros id Hid. apply lookup_insert_ne. cbn. lia. }
  split; try done.
  - apply (current_publish m1 st); try done; cbn; lia.
  - by apply check_checkpoint_zero.
  - eapply Forall_impl; [exact H5|]. pose proof (ia_index _ _ _ _ _ _ Hargs). intros g [?|[? _]]; left; cbn; lia.
  - by apply (fresh_ext m1).
  - change (db_equiv (db_of install_super m1) (db_of install_super (<[slot install_super := page_bytes (sb_page install_super)]> m1))).
    apply db_of_ext. intros. by rewrite Hpg.
Qed.

(** While the superblock is being published: the old database or the new. *)
Lemma install_publishing sc m1 m :
  recoverable_with sc m1 st (groups sc) [] (db_of st m1) → publishing m1 install_super m →
  recoverable_with sc m st (groups sc) [] (db_of st m1)
  ∨ recoverable_with sc m install_super (groups sc) [] (db_of install_super m1).
Proof.
  intros Hr Hp. pose proof Hr as [H1 H2 H3 H4 H5 H6 H7]. pose proof install_super_ok as Hok.
  assert (slot st = 0 ∨ slot st = 1) as Hslot by apply Hst.
  assert (slot install_super = 1 - slot st) as Hns by done.
  pose proof (publishing_pages _ _ _ Hp ltac:(lia)) as Hpg. destruct Hp as [Ho Hcase].
  assert (current m st → recoverable_with sc m st (groups sc) [] (db_of st m1)) as Hleft.
  { intros Hc. split; try done; [by apply (fresh_ext m1)|]. apply db_of_ext. intros. by rewrite Hpg. }
  destruct Hcase as [E|[E|(l & E & Hu)]].
  - left. apply Hleft, (current_ext m1); [done|]. intros id Hid.
    destruct (decide (id = slot install_super)) as [->|]; auto.
  - right. assert (m = <[slot install_super := page_bytes (sb_page install_super)]> m1) as ->; [|by apply install_published].
    apply map_eq. intros id. destruct (decide (id = slot install_super)) as [->|]; [by rewrite lookup_insert_eq|].
    rewrite lookup_insert_ne by done. auto.
  - left. apply Hleft, (current_same m1); [done|apply Ho; lia|]. intros sb. rewrite <- Hns. unfold slot_content. rewrite E.
    unfold undecodable in Hu. by destruct (page_decode l).
Qed.
End OneInstall.

Lemma adjacent_equal_nodup ps : NoDup (page_id <$> ps) → adjacent_equal ps = false.
Proof.
  induction ps as [|p [|q ps] IH]; intros Hnd; [done..|]. cbn [fmap list_fmap] in Hnd.
  apply NoDup_cons in Hnd as [Hnin Hnd]. change (adjacent_equal (p :: q :: ps)) with ((page_id p =? page_id q) || adjacent_equal (q :: ps)).
  rewrite (IH Hnd), orb_false_r. apply Z.eqb_neq. intros E. apply Hnin. rewrite E. left.
Qed.

Lemma install_checks st idx hash pages nxt root :
  install_args st idx hash pages nxt root →
  negb ((nxt <=? next_page_id st) || bool_decide (pages = [])
        || existsb (λ page, (page_id page <? next_page_id st) || (nxt <=? page_id page)) pages
        || negb (existsb (λ page, page_id page =? root) pages)) = true.
Proof.
  intros [_ _ _ _ Hids _ Hnx Hr _]. apply list_elem_of_fmap in Hr as (p & -> & Hp).
  apply negb_true_iff. repeat (apply orb_false_iff; split).
  - apply Z.leb_gt. lia.
  - apply bool_decide_eq_false. intros ->. by apply elem_of_nil in Hp.
  - apply not_true_is_false. intros (q & Hq & Hle)%existsb_exists. apply list_elem_of_In in Hq.
    rewrite Forall_forall in Hids. specialize (Hids q Hq). apply orb_true_iff in Hle as [?|?]; bool_prop; lia.
  - apply negb_false_iff, existsb_exists. exists p. rewrite <- list_elem_of_In. by rewrite Z.eqb_refl.
Qed.

Lemma wp_install st a idx hash pages nxt root s (P : Superblock → S → Prop) Q :
  let st' := install_super st idx hash nxt root in
  let b := db_install idx hash pages nxt root (d_pages a) in
  quiescent (view s) st a → install_args st idx hash pages nxt root →
  (∀ s', quiescent (view s') st' (db_of st' (v_pages (view s'))) → db_equiv b (db_of st' (v_pages (view s'))) → P st' s') →
  (∀ v, may_fail → reaches_either a b v → Q v) →
  wp (install_snapshot st idx hash pages nxt root) s P Q.
Proof.
  intros st' b (Hold & -> & sc & Hlog & Hr) Hargs HP HQ. cbn [db_of d_pages] in *. subst b.
  pose proof Hr as [_ H0 Hc _ _ Hf _]. pose proof (cur_ok _ _ Hc) as Hst. set (m0 := v_pages (view s)) in *.
  pose proof (ia_index _ _ _ _ _ _ Hargs) as Hi. pose proof (sbok_next _ Hst) as Hn2.
  assert (∀ v, same_log (view s) v → (∀ m, pages_survive v m → unpublished m0 (next_page_id st) (safe_append_offset sc) m) →
    may_fail → Q v) as Hun.
  { intros v Hl Hm Hfail. apply HQ; [done|]. intros c m Hcs Hms. left.
    apply (crashed_recoverable v sc); [by apply (log_settled_same (view s))| |done|done].
    intros m' Hm'. eexists _, _, []. split; [|by left]. apply unpublished_recoverable; [done|done|by apply Hm]. }
  unfold install_snapshot. rewrite (proj2 (Z.eqb_neq _ _)) by lia.
  apply wp_bind, wp_ensure_true; [apply negb_true_iff, Z.ltb_ge; lia|].
  apply wp_bind, wp_ensure_true; [by eapply install_checks|].
  apply wp_bind, wp_ensure_true; [rewrite adjacent_equal_nodup; [done|rewrite sort_pages_perm; apply Hargs]|].
  apply wp_bind. apply (wp_install_pages m0 (next_page_id st) (safe_append_offset sc) idx (view s) H0 ltac:(lia) []); try done.
  { rewrite sort_pages_perm. apply Hargs. }
  { rewrite sort_pages_perm. eapply Forall_impl; [apply (ia_ids _ _ _ _ _ _ Hargs)|]. cbn. lia. }
  { intros m ->%pages_survive_synced; done. }
  rewrite app_nil_l. fold (installed idx pages). intros s1 Hl1 Hp1 Hm1. apply wp_bind, wp_disk_sync.
  2:{ intros Hfail. split; apply Hun; try done. intros m ->%pages_survive_synced; [|done].
      exact (Hm1 _ (pages_survive_self (view s1))). }
  intros s2 Hv2. set (m1 := overlay (installed idx pages) m0) in *.
  assert (unpublished m0 (next_page_id st) (safe_append_offset sc) m1) as Hm1'
    by (rewrite <- Hp1; apply Hm1, pages_survive_self).
  assert (recoverable_with sc m1 st (groups sc) [] (db_of st m1)) as Hr1.
  { destruct (unpublished_recoverable st Hst sc m0 m1 Hr Hm1') as [R1 R2 R3 R4 R5 R6 _]. by split. }
  assert (db_equiv (db_of st m0) (db_of st m1)) as Heq.
  { split; cbn; try done. intros id Hid. symmetry. apply (un_same _ _ _ _ Hm1'). lia. }
  assert (v_pages (view s2) = m1) as Hp2 by (by rewrite Hv2).
  assert (same_log (view s) (view s2)) as Hl2 by (rewrite Hv2; etrans; [exact Hl1|done]).
  apply wp_publish; cbv zeta; fold st';
    [by rewrite Hv2|apply (ia_generation _ _ _ _ _ _ Hargs)|apply (install_super_ok _ _ _ pages _ _ Hst Hargs)|..].
  - fold (install_super st idx hash nxt root). intros s3 Hv3. rewrite Hp2 in Hv3.
    pose proof (install_published st idx hash pages nxt root Hst Hargs sc m1 Hr1) as [R1 R2 R3 R4 R5 R6 R7].
    apply HP; rewrite Hv3; [|exact R7].
    split; [done|]. split; [done|]. exists sc. split; [apply (log_settled_same (view s)); done|]. by split.
  - fold (install_super st idx hash nxt root). intros v Hl3 Hm3 Hfail. rewrite Hp2 in Hm3. apply HQ; [done|].
    intros c m Hcs Hms. destruct (proj2 (log_settled_same _ v _ (transitivity Hl2 Hl3) Hlog) c Hcs) as [t Ht].
    destruct (install_publishing st idx hash pages nxt root Hst Hargs sc m1 m Hr1 (Hm3 m Hms)) as [Hrec|Hrec].
    + left. rewrite Heq. eexists _, _, _, []. split; [exact Ht|]. split; [by apply recoverable_torn|by left].
    + right. eexists _, _, _, []. split; [exact Ht|]. split; [by apply recoverable_torn|by left].
Qed.

(** ** [checkpoint] *)

(** Every checkpoint and every group of a log ends within it. *)
Record ends_within (n : Z) (s : WalScan) : Prop := {
  ew_checkpoints : Forall (λ c, cp_end_lsn c ≤ n) (checkpoints s);
  ew_groups : Forall (λ g, 0 ≤ ca_end_lsn g ≤ n) (groups s)
}.

Lemma scan_run_ends s p fs st n :
  scan_run s p fs = Ok st → Forall (λ f, 0 ≤ fr_end f ≤ n) fs → ends_within n s → ends_within n (step_scan st).
Proof.
  revert s p. induction fs as [|f fs IH]; intros s p; cbn [scan_run]; [by intros [= <-]|].
  intros (st1 & Hf & Hr)%result_bind_Ok [Hend Hfs]%Forall_cons [Hc Hg].
  assert (ends_within n (step_scan st1)) as Hs1.
  { clear Hr IH. unfold scan_frame in Hf.
    destruct (fr_kind f); unfold scan_begin, scan_page_image, scan_commit, scan_checkpoint in Hf;
    repeat first
      [ match type of Hf with (?r ≫= _) = _ => destruct r; cbn [mbind result_bind] in Hf; [|done] end
      | destruct p; cbn [mbind result_bind] in Hf ];
    injection Hf as <-; cbn [step_scan]; split; cbn [checkpoints groups]; try done;
    (apply Forall_app; split; [done|]; apply Forall_singleton; cbn; lia). }
  destruct st1 as [s1 p1|s1]; [by apply (IH s1 p1)|]. injection Hr as <-. done.
Qed.

Lemma seg_ends_le l off fs stop : seg l off fs stop → Forall (λ f, 0 ≤ fr_end f ≤ stop) fs.
Proof.
  induction 1 as [|off f n fs stop Hoff Hf Hs IH]; [constructor|].
  pose proof (decode_frame_at_Got _ _ _ _ Hoff Hf) as (_ & _ & He & _). pose proof (seg_bounds _ _ _ _ Hs).
  constructor; [lia|done].
Qed.

Lemma clean_ends l s : clean l s → ends_within (zlen l) s.
Proof.
  intros [(fs & Hs & Hr) _ _ _]. apply (scan_run_ends _ _ _ _ (zlen l) Hr); [by apply (seg_ends_le _ _ _ _ Hs)|].
  split; constructor.
Qed.

Section OneCheckpoint.
Context (l : bytes) (sc : WalScan) (Hclean : clean l sc).
Context (st : Superblock) (Hst : sb_ok st) (through : Z) (Hthrough : u64_ok through).
Context (Hroom : zlen l + 88 ≤ u64_max).

Definition ck_payload : bytes :=
  to_le_bytes 8 through ++ to_le_bytes 8 (sb_applied_index st) ++ sb_state_hash st.
Definition ck_spec : FrameSpec := mkSpec FCheckpoint (zlen l) (sb_applied_index st) ck_payload.
Definition ck_marker : Checkpoint :=
  mkCheckpoint (zlen l) through (sb_applied_index st) (sb_state_hash st) (zlen l + 88).
Definition ck_scan : WalScan :=
  mkScan (groups sc) (checkpoints sc ++ [ck_marker]) (zlen l + 88) (torn_tail_at sc).

Lemma zlen_ck_payload : zlen ck_payload = 48.
Proof. destruct (sbok_hash _ Hst) as [Hh _]. unfold ck_payload. rewrite !zlen_app, !zlen_to_le_bytes, Hh. done. Qed.

Lemma ck_specs_ok : specs_ok (zlen l) [ck_spec].
Proof.
  pose proof zlen_ck_payload as Hp. pose proof (zlen_nonneg l). destruct (sbok_hash _ Hst) as [_ Hh].
  cbn [specs_ok]. unfold spec_end. cbn [ck_spec sp_lsn sp_payload sp_index]. rewrite Hp.
  unfold FRAME_FIXED. split_and!; try done; try lia; [|apply (sbok_index _ Hst)].
  unfold ck_payload. repeat apply Forall_app_2; auto using to_le_bytes_ok.
Qed.

Lemma ck_run : scan_run sc None (spec_frame <$> [ck_spec]) = Ok (Continue ck_scan None).
Proof.
  pose proof zlen_ck_payload as Hp. cbn [fmap list_fmap scan_run]. unfold scan_frame, spec_frame, frame_at.
  cbn [ck_spec sp_kind sp_lsn sp_index sp_payload fr_kind]. unfold scan_checkpoint. cbn [fr_payload fr_lsn fr_end].
  rewrite Hp. cbn [Z.eqb Pos.eqb ensure mbind result_bind].
  destruct (sbok_hash _ Hst) as [Hh _]. pose proof (sbok_index _ Hst) as Hi.
  assert (ck_payload = concat [to_le_bytes 8 through; to_le_bytes 8 (sb_applied_index st); sb_state_hash st]) as E.
  { cbn [concat]. by rewrite app_nil_r. }
  assert (le_at ck_payload 0 8 = through) as ->.
  { unfold le_at. rewrite E, (chunk_get _ 0 (to_le_bytes 8 through)) by done. apply from_to_le_small.
    change (256 ^ Z.of_nat 8) with (u64_max + 1). ulia. }
  assert (le_at ck_payload 8 8 = sb_applied_index st) as ->.
  { unfold le_at. rewrite E, (chunk_get _ 1 (to_le_bytes 8 (sb_applied_index st))) by done. apply from_to_le_small.
    change (256 ^ Z.of_nat 8) with (u64_max + 1). ulia. }
  assert (bytes_get ck_payload 16 32 = sb_state_hash st) as -> by (rewrite E; by apply (chunk_get _ 2)).
  unfold ck_scan, ck_marker. change (zlen l + FRAME_FIXED + 48) with (zlen l + 40 + 48).
  replace (zlen l + 40 + 48) with (zlen l + 88) by lia. done.
Qed.

Lemma ck_clean : clean (l ++ spec_bytes ck_spec) ck_scan.
Proof.
  pose proof (specs_decode l _ [] ck_specs_ok) as Hd. rewrite app_nil_r in Hd.
  assert (specs_bytes [ck_spec] = spec_bytes ck_spec) as E by (unfold specs_bytes; cbn [fmap list_fmap concat]; apply app_nil_r).
  rewrite E in Hd. pose proof (zlen_spec_bytes ck_spec) as Hz. cbn [ck_spec sp_payload] in Hz. fold ck_spec in Hz. rewrite zlen_ck_payload in Hz.
  destruct Hclean as [(fs & Hs & Hr) He Ht Hl]. split.
  - exists (fs ++ (spec_frame <$> [ck_spec])). split.
    + eapply seg_app; [by apply seg_extend|]. by rewrite zlen_app.
    + rewrite (scan_run_app _ _ _ _ _ _ Hr). apply ck_run.
  - cbn [ck_scan safe_append_offset]. rewrite zlen_app, Hz. unfold FRAME_FIXED. lia.
  - done.
  - rewrite zlen_app, Hz. unfold FRAME_FIXED. lia.
Qed.

Lemma ck_prefix p : p `prefix_of` spec_bytes ck_spec → p ≠ spec_bytes ck_spec →
  ∃ t, scan_bytes (l ++ p) = Ok (set_torn t sc).
Proof.
  intros [rest Hp] Hne. assert (specs_bytes [ck_spec] = p ++ rest) as E by (rewrite <- Hp; unfold specs_bytes; cbn [fmap list_fmap concat]; apply app_nil_r).
  assert (rest ≠ []) as Hrest by (intros ->; rewrite app_nil_r in Hp; done).
  destruct (scan_clean_prefix l sc _ p rest Hclean ck_specs_ok E Hrest) as (k & t & Hk & Hs).
  cbn in Hk. assert (k = 0%nat) as -> by lia. exists t. by apply (Hs (Continue sc None)).
Qed.

(** The old superblock accepts the longer log, the new one its checkpoint. *)
Lemma ck_check_old : check_checkpoint st sc = Ok tt → check_checkpoint st ck_scan = Ok tt.
Proof.
  unfold check_checkpoint. cbn [ck_scan safe_append_offset checkpoints].
  intros ([] & Hs%ensure_Ok & Hrest)%result_bind_Ok. bool_prop. rewrite (clean_end _ _ Hclean) in *.
  rewrite (proj2 (Z.ltb_ge (zlen l + 88) (checkpoint_lsn st))) by lia. cbn [negb ensure mbind result_bind].
  destruct (checkpoint_lsn st =? 0); [done|].
  apply result_bind_Ok in Hrest as (c & Hc & Hrest). rewrite ok_or_Ok in Hc.
  assert (find (λ c, cp_end_lsn c =? checkpoint_lsn st) (checkpoints sc ++ [ck_marker]) = Some c) as ->; [|done].
  revert Hc. clear. induction (checkpoints sc) as [|x xs IH]; [done|]. cbn. by destruct (cp_end_lsn x =? checkpoint_lsn st).
Qed.

Definition ck_super : Superblock :=
  mkSuper (1 - slot st) (generation st + 1) (sb_applied_index st) (sb_state_hash st) (zlen l + 88)
    (next_page_id st) (root_directory st).

Lemma ck_check_new : check_checkpoint ck_super ck_scan = Ok tt.
Proof.
  unfold check_checkpoint. cbn [ck_scan ck_super safe_append_offset checkpoints checkpoint_lsn sb_applied_index sb_state_hash].
  pose proof (zlen_nonneg l). rewrite Z.ltb_irrefl. cbn [negb ensure mbind result_bind].
  rewrite (proj2 (Z.eqb_neq _ _)) by lia.
  assert (find (λ c, cp_end_lsn c =? zlen l + 88) (checkpoints sc ++ [ck_marker]) = Some ck_marker) as ->.
  { pose proof (ew_checkpoints _ _ (clean_ends _ _ Hclean)) as Hle. induction Hle as [|x xs Hx _ IH].
    - cbn. by rewrite Z.eqb_refl.
    - cbn. rewrite (proj2 (Z.eqb_neq _ _)) by lia. exact IH. }
  cbn [ok_or mbind result_bind ck_marker cp_applied_index cp_state_hash]. rewrite Z.eqb_refl. by rewrite bool_decide_eq_true_2.
Qed.
End OneCheckpoint.

(** The superblock stands at the last group of the log. *)
Definition at_last_group (v : View) (st : Superblock) : Prop :=
  ∀ sc lg, scan_bytes (v_log v) = Ok sc → last (groups sc) = Some lg →
    ca_apply_index lg = sb_applied_index st ∧ ca_state_hash lg = sb_state_hash st.

Definition checkpointed (st : Superblock) (l : bytes) : Superblock := ck_super l st.

Lemma ck_super_ok l st :
  sb_ok st → generation st < u64_max → zlen l + 88 ≤ u64_max → sb_ok (ck_super l st).
Proof.
  intros [Hs Hg Hi Hh Hc Hn Hr] Hgen Hroom. pose proof (zlen_nonneg l). split; cbn; try done; ulia.
Qed.

(** A superblock that differs in slot, generation and checkpoint alone. *)
Lemma ck_recoverable l sc st through m :
  clean l sc → sb_ok st → zlen l + 88 ≤ u64_max →
  recoverable_with sc m st (groups sc) [] (db_of st m) →
  recoverable_with (ck_scan l sc st through) m st (groups sc) [] (db_of st m).
Proof.
  intros Hclean Hst Hroom [R1 R2 R3 R4 R5 R6 R7]. pose proof (zlen_nonneg l). split; try done.
  - cbn. lia.
  - by apply ck_check_old.
  - intros id b q Hid Hm Hd. destruct (R6 id b q Hid Hm Hd). cbn [ck_scan safe_append_offset].
    rewrite (clean_end _ _ Hclean) in *. split; [done|lia].
Qed.

Lemma ck_published l sc st through m :
  clean l sc → sb_ok st → zlen l + 88 ≤ u64_max → generation st < u64_max →
  recoverable_with (ck_scan l sc st through) m st (groups sc) [] (db_of st m) →
  recoverable_with (ck_scan l sc st through) (<[slot (ck_super l st) := page_bytes (sb_page (ck_super l st))]> m)
    (ck_super l st) (groups sc) [] (db_of st m).
Proof.
  intros Hclean Hst Hroom Hgen [R1 R2 R3 R4 R5 R6 R7]. pose proof (ck_super_ok l st Hst Hgen Hroom) as Hok.
  assert (slot st = 0 ∨ slot st = 1) as Hslot by apply Hst.
  assert (∀ id, 2 ≤ id → <[slot (ck_super l st) := page_bytes (sb_page (ck_super l st))]> m !! id = m !! id) as Hpg.
  { intros id Hid. apply lookup_insert_ne. cbn. lia. }
  split; try done.
  - apply (current_publish m st); try done; cbn; lia.
  - by apply ck_check_new.
  - by apply (fresh_ext m).
  - apply (db_of_ext (ck_super l st) m). intros. by rewrite Hpg.
Qed.

Lemma ck_publishing l sc st through m0 m :
  clean l sc → sb_ok st → zlen l + 88 ≤ u64_max → generation st < u64_max →
  recoverable_with (ck_scan l sc st through) m0 st (groups sc) [] (db_of st m0) → publishing m0 (ck_super l st) m →
  ∃ st', recoverable_with (ck_scan l sc st through) m st' (groups sc) [] (db_of st m0).
Proof.
  intros Hclean Hst Hroom Hgen Hr Hp. pose proof Hr as [R1 R2 R3 R4 R5 R6 R7].
  assert (slot st = 0 ∨ slot st = 1) as Hslot by apply Hst.
  assert (slot (ck_super l st) = 1 - slot st) as Hns by done.
  pose proof (publishing_pages _ _ _ Hp ltac:(lia)) as Hpg. destruct Hp as [Ho Hcase].
  assert (current m st → recoverable_with (ck_scan l sc st through) m st (groups sc) [] (db_of st m0)) as Hleft.
  { intros Hc. split; try done; [by apply (fresh_ext m0)|]. apply db_of_ext. intros. by rewrite Hpg. }
  destruct Hcase as [E|[E|(b & E & Hu)]].
  - exists st. apply Hleft, (current_ext m0); [done|]. intros id Hid.
    destruct (decide (id = slot (ck_super l st))) as [->|]; auto.
  - exists (ck_super l st).
    assert (m = <[slot (ck_super l st) := page_bytes (sb_page (ck_super l st))]> m0) as ->; [|by apply ck_published].
    apply map_eq. intros id. destruct (decide (id = slot (ck_super l st))) as [->|]; [by rewrite lookup_insert_eq|].
    rewrite lookup_insert_ne by done. auto.
  - exists st. apply Hleft, (current_same m0); [done|apply Ho; lia|]. intros sb. rewrite <- Hns. unfold slot_content. rewrite E.
    unfold undecodable in Hu. by destruct (page_decode b).
Qed.

Lemma wp_checkpoint st a s (P : Checkpoint * Superblock → S → Prop) Q :
  let l := v_log (view s) in
  quiescent (view s) st a → at_last_group (view s) st → zlen l + 88 ≤ u64_max → generation st < u64_max →
  (∀ mk s', quiescent (view s') (checkpointed st l) (db_of (checkpointed st l) (v_pages (view s'))) →
     db_equiv a (db_of (checkpointed st l) (v_pages (view s'))) → cp_end_lsn mk = zlen l + 88 → P (mk, checkpointed st l) s') →
  (∀ v, still a v → Q v) →
  wp (pager_checkpoint st) s P Q.
Proof.
  intros l Hq Hat Hroom Hgen HP HQ. pose proof (quiescent_crash _ _ _ Hq) as Hrec0.
  destruct Hq as (Hold & -> & sc & Hlog & Hr). set (m0 := v_pages (view s)) in *.
  pose proof (proj1 Hlog) as Hclean. fold l in Hclean. pose proof (cur_ok _ _ (rw_current _ _ _ _ _ _ Hr)) as Hst.
  set (through := match last (groups sc) with Some g => ca_end_lsn g | None => 0 end).
  assert (0 ≤ through ≤ zlen l) as Hth.
  { pose proof (ew_groups _ _ (clean_ends _ _ Hclean)) as Hg. rewrite Forall_forall in Hg. unfold through.
    destruct (last (groups sc)) as [lg|] eqn:Hl; [|pose proof (zlen_nonneg l); lia].
    apply last_Some_elem_of in Hl. by apply Hg. }
  assert (u64_ok through) as Hthu by (unfold u64_ok; lia).
  set (F := spec_bytes (ck_spec l st through)).
  assert (∀ v, same_log (view s) v → v_pages v = m0 → v_pages_old v = [] → may_fail → Q v) as Hstill.
  { intros v [E1 E2] Hp Ho Hf. apply HQ. split; [done|]. intros c m Hc Hm.
    apply pages_survive_synced in Hm as ->; [|done]. rewrite Hp. apply Hrec0; [|apply pages_survive_self].
    unfold log_survives in *. by rewrite E1, E2 in Hc. }
  assert (recoverable_with (ck_scan l sc st through) m0 st (groups sc) [] (db_of st m0)) as Hr1 by by apply ck_recoverable.
  assert (∀ v p, appending (view s) F v p → may_fail → Q v) as Happ.
  { intros v p Ha Hf. apply HQ. split; [done|]. intros c m Hc Hm. destruct (ap_pages _ _ _ _ Ha) as [E1 E2].
    apply pages_survive_synced in Hm as ->; [|congruence]. rewrite E1.
    destruct (appending_survives _ _ _ _ _ Ha Hc) as [Hs|(q & Hq & ->)]; [apply Hrec0; [done|apply pages_survive_self]|].
    destruct (decide (q = F)) as [->|Hne].
    - eexists _, _, _, []. split_and!; [|exact Hr1|by left]. by apply clean_scan, ck_clean.
    - destruct (ck_prefix l sc Hclean st Hst through Hroom q Hq Hne) as [t Ht].
      eexists _, _, _, []. split; [exact Ht|]. split; [by apply recoverable_torn|by left]. }
  unfold pager_checkpoint. apply wp_bind, wp_disk_sync.
  2:{ intros Hf. split; apply Hstill; done. }
  intros s1 Hv1. assert (view s1 = view s) as Hs1 by (rewrite Hv1; destruct (view s); cbn in *; by subst).
  apply wp_bind, (wp_wal_scan _ sc); [by rewrite Hs1|]. intros s2 Hv2. rewrite Hs1 in Hv2. cbv zeta. fold through.
  apply wp_bind. unfold append_checkpoint. apply wp_bind, (wp_scan_clean _ sc); [by rewrite Hv2|]. intros s3 Hv3. rewrite Hv2 in Hv3.
  apply wp_bind, wp_ensure_true; [apply Z.leb_le; rewrite (clean_end _ _ Hclean); lia|].
  apply wp_bind, wp_ensure_true.
  { destruct (last (groups sc)) as [lg|] eqn:Hl; [|done]. destruct (Hat sc lg (clean_scan _ _ Hclean) Hl) as [-> ->].
    by rewrite Z.eqb_refl, bool_decide_eq_true_2. }
  apply wp_bind, wp_wal_len; [rewrite Hv3; fold l; lia|]. rewrite Hv3. fold l. intros s4 Hv4.
  apply wp_bind. fold (ck_payload st through). pose proof (zlen_ck_payload st Hst through) as Hpl.
  rewrite encode_frame_Ok by (rewrite Hpl; done). apply wp_lift_Ok.
  change (frame_bytes FCheckpoint (zlen l) (sb_applied_index st) (ck_payload st through)) with (spec_bytes (ck_spec l st through)).
  apply wp_bind. apply (wp_append_frame (view s) F []); [rewrite Hv4; apply appending_refl|done| |done].
  rewrite app_nil_l. fold F. intros s5 Ha5. apply wp_bind, wp_wal_sync.
  2:{ intros Hf. split; [by apply (Happ _ F)|]. apply HQ. split; [done|]. intros c m Hc Hm.
      apply log_survives_synced in Hc as ->; [|done]. destruct Ha5 as [E1 _ _ [E2 E3]].
      apply pages_survive_synced in Hm as ->; [|cbn; congruence]. cbn. rewrite E1, E2.
      eexists _, _, _, []. split_and!; [|exact Hr1|by left]. by apply clean_scan, ck_clean. }
  intros s6 Hv6. apply wp_ret.
  assert ((zlen l + zlen F)%u64 = zlen l + 88) as ->.
  { unfold F. rewrite zlen_spec_bytes. cbn [ck_spec sp_payload]. rewrite Hpl. unfold FRAME_FIXED.
    pose proof (zlen_nonneg l). rewrite wrapping_add_small by ulia. lia. }
  cbn [cp_end_lsn].
  assert (view s6 = mkView (l ++ F) [] m0 []) as Hs6.
  { rewrite Hv6. destruct Ha5 as [E1 _ _ [E2 E3]]. unfold log_synced. by rewrite E1, E2, E3, Hold. }
  assert (log_settled (view s6) (ck_scan l sc st through)) as Hlog6.
  { rewrite Hs6. pose proof (ck_clean l sc Hclean st Hst through Hthu Hroom) as Hcl. split; [done|].
    intros c ->%log_survives_synced; [|done]. exists None. cbn [v_log]. fold F in Hcl.
    rewrite (clean_scan _ _ Hcl). rewrite <- (clean_torn _ _ Hcl) at 1. by rewrite set_torn_id. }
  apply wp_bind, wp_publish; cbv zeta; fold (ck_super l st); [by rewrite Hs6|done|by apply ck_super_ok|..].
  - intros s7 Hv7. apply wp_ret. rewrite Hs6 in Hv7. cbn [v_log v_log_old v_pages] in Hv7.
    pose proof (ck_published l sc st through m0 Hclean Hst Hroom Hgen Hr1) as [R1 R2 R3 R4 R5 R6 R7].
    apply HP; [|rewrite Hv7; exact R7|done].
    split; [by rewrite Hv7|]. split; [done|]. exists (ck_scan l sc st through).
    split; [apply (log_settled_same (view s6)); [by rewrite Hs6, Hv7|done]|]. rewrite Hv7. by split.
  - rewrite Hs6. cbn [v_pages]. intros v Hl7 Hm7 Hf. apply HQ. split; [done|].
    apply (crashed_recoverable _ (ck_scan l sc st through)); [apply (log_settled_same (view s6)); [by rewrite Hs6|done]|].
    intros m Hm. destruct (ck_publishing l sc st through m0 m Hclean Hst Hroom Hgen Hr1 (Hm7 m Hm)) as [st' ?].
    eexists _, _, []. split; [done|by left].
Qed.
End Install.
