(* ===== verification/StorageProps.v ===== *)
(** * What the storage layer guarantees across crashes

    The theorems on [DurablePager]: a fresh database opens, recovery is
    repeatable, apply is atomic. *)

From S2P Require Import Prelude StorageBytes StoragePage StorageIo StorageWal StorageFrames StorageScan StorageGroups StoragePager StorageLaws StorageReplay StorageRecovery StorageApply StorageInstall.

#[local] Opaque seal page_new sb_page.

Section Props.
Context `{Sha256} {Hsha : Sha256Ok}.
Context {S : Type} `{!WalIo S} `{!Disk S} {laws : StorageLaws S}.

(** ** A fresh database *)

Definition fresh_super : Superblock := mkSuper 1 2 0 (zeros 32) 0 2 None.

Lemma fresh_super_ok : sb_ok fresh_super.
Proof. destruct genesis_ok. split; cbn in *; try done. by right. Qed.

Lemma wp_read_no_superblock s (P : option Superblock → S → Prop) Q :
  v_pages (view s) = ∅ → (∀ s', view s' = view s → P None s') → wp read_superblock s P Q.
Proof.
  intros He HP. unfold read_superblock, read_slot.
  apply wp_bind, wp_bind, wp_try_read. rewrite He, lookup_empty. intros r0 s0 Hv0 [w0 ->]. apply wp_ret.
  apply wp_bind, wp_bind, wp_try_read. rewrite Hv0, He, lookup_empty. intros r1 s1 Hv1 [w1 ->]. apply wp_ret.
  apply wp_lift_Ok, HP. congruence.
Qed.

Lemma wp_open_fresh s (P : Superblock * RecoveryReport → S → Prop) Q :
  view s = mkView [] [] ∅ [] →
  (∀ rep s', quiescent (view s') fresh_super (db_of fresh_super (v_pages (view s'))) → v_log (view s') = [] →
     P (fresh_super, rep) s') →
  (∀ v, may_fail → Q v) → wp pager_open s P Q.
Proof.
  intros Hv HP HQ. unfold pager_open, wal_open.
  assert (clean (v_log (view s)) empty_scan) as Hclean by (rewrite Hv; apply clean_nil).
  apply wp_bind, wp_bind, (wp_scan_clean _ empty_scan); [done|]. intros s1 Hv1. apply wp_ret.
  rewrite <- Hv1 in Hclean. apply wp_bind, (wp_wal_scan _ empty_scan); [done|]. intros s2 Hv2.
  assert (view s2 = mkView [] [] ∅ []) as Hs2 by congruence.
  apply wp_bind, wp_read_no_superblock; [by rewrite Hs2|]. intros s3 Hv3. apply wp_bind. unfold recover.
  apply wp_bind, wp_read_no_superblock; [by rewrite Hv3, Hs2|]. intros s4 Hv4.
  change (default genesis None) with genesis. apply wp_bind.
  rewrite check_checkpoint_zero by done. apply wp_lift_Ok. cbn [groups empty_scan io_foldM].
  apply wp_bind, wp_ret, wp_ret. apply wp_bind.
  rewrite (superblock_encode_Ok _ genesis_ok). apply wp_lift_Ok. destruct (sb_page_id _ genesis_ok) as [-> _].
  assert (view s4 = mkView [] [] ∅ []) as Hs4 by congruence.
  apply wp_bind, wp_write_page; [|intros; split; auto]. rewrite Hs4. cbn [v_pages pages_write v_log v_log_old v_pages_old].
  intros s5 Hv5. apply wp_bind, wp_disk_sync; [|intros; split; auto]. rewrite Hv5. unfold pages_synced. cbn [v_pages v_log v_log_old].
  intros s6 Hv6. set (m0 := <[slot genesis := page_bytes (sb_page genesis)]> (∅ : gmap Z bytes)) in *.
  apply wp_bind, wp_publish; cbv zeta; [by rewrite Hv6|done|apply fresh_super_ok| |intros; auto].
  rewrite Hv6. cbn [v_pages v_log v_log_old]. intros s7 Hv7. apply wp_ret.
  change (mkSuper (1 - slot genesis) (generation genesis + 1) (sb_applied_index genesis) (sb_state_hash genesis)
    (checkpoint_lsn genesis) (next_page_id genesis) (root_directory genesis)) with fresh_super in *.
  assert (view s7 = mkView [] [] (<[slot fresh_super := page_bytes (sb_page fresh_super)]> m0) []) as Hs7
    by (rewrite Hv7; reflexivity).
  clear Hv7. apply HP; [|by rewrite Hs7]. split; [by rewrite Hs7|]. split; [done|].
  exists empty_scan. rewrite Hs7. cbn [v_log v_pages].
  assert (current m0 genesis) as Hcur.
  { split; [apply genesis_ok| |].
    - unfold slot_content, m0. rewrite lookup_insert_eq, (page_valid_decode _ (sb_page_valid _ genesis_ok)).
      by apply superblock_decode_encode, genesis_ok.
    - intros sb. unfold slot_content, m0. by rewrite lookup_insert_ne, lookup_empty. }
  split.
  - split; [apply clean_nil|]. intros c ->%log_survives_synced; [|done]. by exists None.
  - split.
    + by rewrite app_nil_r.
    + by cbn.
    + apply (current_publish m0 genesis); [done|apply fresh_super_ok|done|done].
    + by apply check_checkpoint_zero.
    + constructor.
    + intros id l q Hid Hm. exfalso. unfold m0 in Hm.
      repeat (rewrite lookup_insert_ne in Hm by (cbn; lia)). by rewrite lookup_empty in Hm.
    + change (db_equiv (db_of fresh_super (<[slot fresh_super := page_bytes (sb_page fresh_super)]> m0))
        (db_of fresh_super (<[slot fresh_super := page_bytes (sb_page fresh_super)]> m0))). reflexivity.
Qed.

(** ** Theorems *)

(** Opening an empty store yields an empty database: no applied index, no
    root, the first free page 2, in a quiescent state. *)
Theorem open_fresh_quiescent s :
  view s = mkView [] [] ∅ [] →
  match pager_open s with
  | (Ok (st, _), s') => st = fresh_super ∧ quiescent (view s') st (db_of st (v_pages (view s')))
  | (Err _, _) => may_fail
  end.
Proof.
  intros Hv. pose proof (wp_open_fresh s (λ r s', r.1 = fresh_super ∧ quiescent (view s') r.1 (db_of r.1 (v_pages (view s')))) (λ _, may_fail) Hv) as Hw.
  unfold wp in Hw. destruct (pager_open s) as [[[st rep]|e] s']; cbn in Hw; apply Hw; auto.
Qed.

(** What [open] does to a log and a disk that recover to [b]. *)
Definition open_arrives (b : Db) (s : S) : Prop :=
  match pager_open s with
  | (Ok (st, _), s') => ∃ a', quiescent (view s') st a' ∧ db_equiv b a'
  | (Err _, s') => may_fail ∧ ∀ v, crashed (view s') v → recoverable (v_log v) (v_pages v) b
  end.

Lemma recoverable_opens s c m b :
  view s = mkView c [] m [] → zlen c ≤ u64_max → recoverable c m b → open_arrives b s.
Proof.
  intros Hv Hl Hr. unfold open_arrives.
  pose proof (wp_open s c m b (λ r s', ∃ a', quiescent (view s') r.1 a' ∧ db_equiv b a')
    (λ v, may_fail ∧ ∀ v', crashed v v' → recoverable (v_log v') (v_pages v') b) Hv Hl Hr) as Hw.
  unfold wp in Hw. destruct (pager_open s) as [[[st rep]|e] s']; cbn in Hw; apply Hw.
  1, 3: intros st' rep' s'' a' Hq Ha; by exists a'.
  all: intros v [Hf Hs]; split; [done|]; intros v' [c' m' Hc' Hm']; by apply Hs.
Qed.

Lemma crashed_opens (v : View) (P : Db → Prop) s :
  (∀ c m, log_survives v c → pages_survive v m → ∃ b, P b ∧ recoverable c m b) →
  crashed v (view s) → zlen (v_log (view s)) ≤ u64_max → ∃ b, P b ∧ open_arrives b s.
Proof.
  intros Hv Hc Hl. remember (view s) as w eqn:Hw. destruct Hc as [c m Hc Hm].
  destruct (Hv c m Hc Hm) as (b & HP & Hb). exists b. split; [done|]. by apply (recoverable_opens s c m).
Qed.

(** C20: recovery is repeatable.  From a log and a disk that recover to the
    database [a], [open] either arrives at a quiescent state of [a], or one of
    its own updates failed and whatever a crash leaves of it still recovers to
    [a]; with updates that do not fail it arrives. *)
Theorem recovery_repeatable s c m a :
  view s = mkView c [] m [] → zlen c ≤ u64_max → recoverable c m a →
  match pager_open s with
  | (Ok (st, _), s') => ∃ a', quiescent (view s') st a' ∧ db_equiv a a'
  | (Err _, s') => may_fail ∧ ∀ v, crashed (view s') v → recoverable (v_log v) (v_pages v) a
  end.
Proof. apply recoverable_opens. Qed.
End Props.

Section Atomic.
Context `{Sha256} {Hsha : Sha256Ok}.
(** The world the operation runs in, and the one that is opened after it. *)
Context {S : Type} `{!WalIo S} `{!Disk S} {laws : StorageLaws S}.
Context {T : Type} `{!WalIo T} `{!Disk T} {laws' : StorageLaws T}.

(** C10: [apply] is atomic across crashes.  Run [apply] from a quiescent state
    of [a] with arguments its checks accept, stop it anywhere, keep of the log
    any cut of the unsynced bytes and of every page being written the old
    content, the new one or undecodable bytes.  When the call had returned,
    [open] arrives at [a] with the group applied, whatever checkpoint the
    superblock named.  When it had not, and no checkpoint was taken since the
    last apply (the superblock names none), [open] arrives at [a] or at [a] with
    the group applied. *)
Theorem apply_crash_atomic s st a idx hash pages nxt root (t : T) :
  quiescent (view s) st a →
  apply_args (zlen (v_log (view s))) st idx hash pages nxt root →
  crashed (view (pager_apply (S := S) st idx hash pages nxt root s).2) (view t) → zlen (v_log (view t)) ≤ u64_max →
  let after := db_apply (committed (zlen (v_log (view s))) (apply_group idx hash pages nxt root)) (d_pages a) in
  if is_ok (pager_apply (S := S) st idx hash pages nxt root s).1 then open_arrives after t
  else checkpoint_lsn st = 0 → open_arrives a t ∨ open_arrives after t.
Proof.
  intros Hq Hargs Hcrash Hlen after.
  pose proof (wp_apply st a idx hash pages nxt root s
    (λ _ s', ∀ c m, log_survives (view s') c → pages_survive (view s') m → recoverable c m after)
    (λ v, checkpoint_lsn st = 0 → reaches_either a after v) Hq Hargs) as Hw.
  unfold wp in Hw. specialize (Hw ltac:(intros s' Hq' Ha c' m' Hc' Hm'; fold after in Ha; rewrite Ha; by apply (quiescent_crash _ _ _ Hq'))).
  specialize (Hw ltac:(done)).
  destruct (pager_apply st idx hash pages nxt root s) as [[r|e] s1]; cbn [fst snd is_ok] in *.
  - apply (crashed_opens _ (eq after) t) in Hcrash as (b & <- & Hb); [done| |done].
    intros c m Hc Hm. exists after. split; [done|by apply Hw].
  - intros Hck. apply (crashed_opens _ (λ b, b = a ∨ b = after) t) in Hcrash as (b & [->| ->] & Hb); [by left|by right| |done].
    intros c m Hc Hm. destruct (Hw Hck c m Hc Hm) as [?|?]; [exists a; auto|exists after; auto].
Qed.

(** Installing a snapshot is atomic across crashes in the same sense: after
    it is stopped anywhere, [open] arrives at the old database or at the
    snapshot, and at the snapshot when the call had returned. *)
Theorem install_crash_atomic s st a idx hash pages nxt root (t : T) :
  quiescent (view s) st a → install_args st idx hash pages nxt root →
  crashed (view (install_snapshot (S := S) st idx hash pages nxt root s).2) (view t) → zlen (v_log (view t)) ≤ u64_max →
  let after := db_install idx hash pages nxt root (d_pages a) in
  ∃ b, (b = after ∨ b = a ∧ is_ok (install_snapshot (S := S) st idx hash pages nxt root s).1 = false) ∧ open_arrives b t.
Proof.
  intros Hq Hargs Hcrash Hlen after. apply (crashed_opens _ _ _) with (2 := Hcrash); [|done].
  intros c m Hc Hm.
  pose proof (wp_install st a idx hash pages nxt root s
    (λ _ s', ∀ c m, log_survives (view s') c → pages_survive (view s') m → recoverable c m after)
    (λ v, ∀ c m, log_survives v c → pages_survive v m → recoverable c m a ∨ recoverable c m after) Hq Hargs) as Hw.
  unfold wp in Hw. specialize (Hw ltac:(intros s' Hq' Ha c' m' Hc' Hm'; fold after in Ha; rewrite Ha; by apply (quiescent_crash _ _ _ Hq'))).
  specialize (Hw ltac:(done)).
  destruct (install_snapshot st idx hash pages nxt root s) as [[r|e] s1]; cbn [fst snd is_ok] in *.
  - exists after. split; [by left|by apply Hw].
  - destruct (Hw c m Hc Hm) as [?|?]; [exists a; auto|exists after; auto].
Qed.

(** A checkpoint never changes the database: stopped anywhere, [open]
    arrives at the database it was taken of. *)
Theorem checkpoint_crash_safe s st a (t : T) :
  quiescent (view s) st a → at_last_group (view s) st →
  zlen (v_log (view s)) + 88 ≤ u64_max → generation st < u64_max →
  crashed (view (pager_checkpoint (S := S) st s).2) (view t) → zlen (v_log (view t)) ≤ u64_max →
  open_arrives a t.
Proof.
  intros Hq Hat Hroom Hgen Hcrash Hlen. apply (crashed_opens _ (eq a) t) in Hcrash as (b & <- & Hb); [done| |done].
  intros c m Hc Hm. exists a. split; [done|].
  pose proof (wp_checkpoint st a s (λ _ s', ∀ c m, log_survives (view s') c → pages_survive (view s') m → recoverable c m a)
    (λ v, ∀ c m, log_survives v c → pages_survive v m → recoverable c m a) Hq Hat Hroom Hgen) as Hw.
  unfold wp in Hw. specialize (Hw ltac:(intros mk s' Hq' Ha _ c' m' Hc' Hm'; rewrite Ha; by apply (quiescent_crash _ _ _ Hq'))).
  specialize (Hw ltac:(by intros v [_ ?])).
  destruct (pager_checkpoint st s) as [[r|e] s1]; cbn [fst snd] in *; by apply Hw.
Qed.
End Atomic.

(** ** A checkpoint that is left behind

    [recover] publishes the superblock of a replayed group with the checkpoint
    of the superblock it found, which is bound to the older index. *)

Section Stale.
Context `{Sha256} {Hsha : Sha256Ok}.
Context {S : Type} `{!WalIo S} `{!Disk S} {laws : StorageLaws S}.
Context {T : Type} `{!WalIo T} `{!Disk T} {laws' : StorageLaws T}.

(** The current superblock names a checkpoint [recover] rejects. *)
Definition blocked (v : View) : Prop :=
  ∃ sc st, scan_bytes (v_log v) = Ok sc ∧ current (v_pages v) st ∧ is_ok (check_checkpoint st sc) = false.

(** What any number of crashes and attempts to open may make of [v]. *)
Inductive restarted (v : View) : View → Prop :=
| restarted_crash v' : crashed v v' → restarted v v'
| restarted_again (t : T) v' :
    restarted v (view t) → zlen (v_log (view t)) ≤ u64_max → crashed (view (pager_open t).2) v' → restarted v v'.

(** A blocked store does not open, and stays blocked. *)
Lemma blocked_open (t : T) c m :
  view t = mkView c [] m [] → zlen c ≤ u64_max → blocked (view t) →
  is_ok (pager_open t).1 = false ∧ ∀ v, crashed (view (pager_open t).2) v → blocked v.
Proof.
  intros Hv Hlen (sc & st & Hsc & Hcur & Hck). rewrite Hv in Hsc, Hcur. cbn [v_log v_pages] in Hsc, Hcur.
  assert (wp pager_open t (λ _ _, False) (λ v, ∀ v', crashed v v' → blocked v')) as Hw.
  2:{ unfold wp in Hw. by destruct (pager_open t) as [[r|e] t']. }
  unfold pager_open, wal_open. apply wp_bind, wp_bind, (wp_scan_crashed _ sc); rewrite ?Hv; cbn [v_log v_log_old v_pages v_pages_old]; try done.
  - intros s1 [Hclean Hs] Hp Ho. apply wp_ret. apply wp_bind, (wp_wal_scan _ (set_torn None sc)); [done|]. intros s2 Hv2.
    rewrite <- Hp in Hcur. rewrite <- Hv2 in *.
    apply wp_bind, (wp_read_superblock _ st); [done|]. intros s3 Hv3. rewrite <- Hv3 in *.
    apply wp_bind. unfold recover. apply wp_bind, (wp_read_superblock _ st); [done|]. intros s4 Hv4. rewrite <- Hv4 in *.
    change (default genesis (Some st)) with st. apply wp_bind. rewrite check_checkpoint_torn.
    apply wp_lift; [intros u E; by rewrite E in Hck|]. intros e _ v' [c' m' Hc' Hm'].
    destruct (Hs c' Hc') as [t' Ht']. apply pages_survive_synced in Hm' as ->; [|done].
    by exists (set_torn t' (set_torn None sc)), st.
  - intros v Hs _ Hp Ho v' [c' m' Hc' Hm']. destruct (Hs c' Hc') as [t' Ht'].
    apply pages_survive_synced in Hm' as ->; [|done]. exists (set_torn t' sc), st. by rewrite Hp.
Qed.

Lemma restarted_blocked v v' : (∀ w, crashed v w → blocked w) → restarted v v' → blocked v' ∧ ∃ c m, v' = mkView c [] m [].
Proof.
  intros Hv. induction 1 as [v' Hc|t v' Hr [Hb (c & m & Hcm)] Hl Hc].
  - split; [by apply Hv|]. destruct Hc; eauto.
  - split; [|destruct Hc; eauto]. apply (blocked_open t c m); try done. by rewrite Hcm in Hl.
Qed.

(** The superblock [recover] publishes for the group [g]. *)
Definition stale_super (st : Superblock) (g : CommittedApply) : Superblock :=
  mkSuper (1 - slot st) (generation st + 1) (ca_apply_index g) (ca_state_hash g) (checkpoint_lsn st)
    (ca_next_page_id g) (ca_root_directory g).

Lemma stale_super_ok n st g : sb_ok st → pending n st g → sb_ok (stale_super st g).
Proof.
  intros [Hs Hg _ _ Hck _ _] [_ Hi Hh Hn Hr _ Hgen]. split; cbn; try done; ulia.
Qed.

Lemma current_overlay m st n ps : current m st → images_good n ps → current (overlay ps m) st.
Proof.
  intros Hc Hi. apply (current_ext m); [done|]. intros id Hid.
  by apply (midway_slot m ps _ n), Hid; [|apply midway_overlay, Hi].
Qed.

(** Its checkpoint is the one of the index before. *)
Lemma stale_super_rejected n st g sc :
  check_checkpoint st sc = Ok tt → checkpoint_lsn st ≠ 0 → pending n st g →
  is_ok (check_checkpoint (stale_super st g) sc) = false.
Proof.
  intros Hck Hne Hp. pose proof (pd_index _ _ _ Hp) as Hi. unfold check_checkpoint in *. cbn [stale_super checkpoint_lsn sb_applied_index sb_state_hash].
  destruct (safe_append_offset sc <? checkpoint_lsn st); [done|]. cbn [negb ensure mbind result_bind] in *.
  rewrite (proj2 (Z.eqb_neq _ _) Hne) in *. destruct (find _ _) as [cp|]; [|done]. cbn [ok_or mbind result_bind] in *.
  destruct (Z.eqb_spec (cp_applied_index cp) (sb_applied_index st)) as [E|]; [|done].
  rewrite (proj2 (Z.eqb_neq _ _)) by lia. done.
Qed.

(** Opening a store with a committed group behind a checkpoint: the group is
    applied, and what is left is blocked. *)
Lemma open_leaves_blocked (t : T) c m sc st old g a :
  view t = mkView c [] m [] → zlen c ≤ u64_max → scan_bytes c = Ok sc →
  recoverable_with sc m st old [g] a → checkpoint_lsn st ≠ 0 →
  match pager_open t with
  | (Ok (st', _), t') => st' = stale_super st g ∧ ∀ v, crashed (view t') v → blocked v
  | (Err _, _) => may_fail (S := T)
  end.
Proof.
  intros Hv Hlen Hsc Hr Hne.
  pose proof Hr as [Hg H0 Hc Hck Ho Hf (Hpd & Hic & Ha)]. pose proof (cur_ok _ _ Hc) as Hsb.
  pose proof (pd_index _ _ _ Hpd) as Hi. pose proof (pd_index_ok _ _ _ Hpd) as Hu.
  assert (wp pager_open t (λ r t', r.1 = stale_super st g ∧ ∀ v, crashed (view t') v → blocked v) (λ _, may_fail (S := T))) as Hw.
  2:{ unfold wp in Hw. by destruct (pager_open t) as [[[st' rep]|e] t']. }
  unfold pager_open, wal_open.
  apply wp_bind, wp_bind, (wp_scan_crashed _ sc); rewrite ?Hv; cbn [v_log v_log_old v_pages v_pages_old]; try done.
  intros s1 [Hclean Hs] Hp Hold. apply wp_ret. apply wp_bind, (wp_wal_scan _ (set_torn None sc)); [done|]. intros s2 Hv2.
  rewrite <- Hp in Hc, Hic. rewrite <- Hv2 in *. clear Hv2.
  apply wp_bind, (wp_read_superblock _ st); [done|]. intros s3 Hv3. rewrite <- Hv3 in *. clear Hv3.
  apply wp_bind. unfold recover. apply wp_bind, (wp_read_superblock _ st); [done|]. intros s4 Hv4. rewrite <- Hv4 in *. clear Hv4.
  change (default genesis (Some st)) with st. apply wp_bind. rewrite check_checkpoint_torn, Hck. apply wp_lift_Ok. apply wp_bind.
  change (groups (set_torn None sc)) with (groups sc). rewrite Hg. apply wp_recover_old; [done|]. intros rep.
  cbn [io_foldM]. apply wp_bind. unfold recover_group.
  assert (u64_ok (sb_applied_index st)) as Hst by apply Hsb.
  rewrite (proj2 (Z.ltb_ge _ _)) by lia. rewrite (proj2 (Z.eqb_neq _ _)) by lia. apply wp_bind, wp_ensure_true.
  { rewrite wrapping_add_small by (unfold u64_ok in *; lia). rewrite Hi, Z.eqb_refl. by rewrite andb_false_r. }
  apply wp_bind, (wp_replay_group (safe_append_offset sc)); [apply Hpd|done|done| |done].
  intros rep1 s5 [L1 L2] Hp5 _. apply wp_bind, wp_disk_sync; [|done]. intros s6 Hv6.
  apply wp_bind, wp_publish; cbv zeta; [by rewrite Hv6|apply (pd_generation _ _ _ Hpd)| | |done].
  { by apply (stale_super_ok (safe_append_offset sc)). }
  fold (stale_super st g). intros s7 Hv7. apply wp_ret, wp_ret, wp_ret. split; [done|].
  intros v [c' m' Hc' Hm']. apply pages_survive_synced in Hm' as ->; [|by rewrite Hv7].
  assert (log_survives (view s4) c') as Hc4.
  { unfold log_survives in *. rewrite Hv7, Hv6 in Hc'. cbn [v_log v_log_old pages_synced] in Hc'. by rewrite L1, L2 in Hc'. }
  destruct (Hs c' Hc4) as [t' Ht']. exists (set_torn t' (set_torn None sc)), (stale_super st g). split; [done|]. split.
  - rewrite Hv7. cbn [v_pages]. apply (current_publish _ st); [|by apply (stale_super_ok (safe_append_offset sc))|done|cbn; lia].
    rewrite Hv6. cbn [v_pages pages_synced]. rewrite Hp5. by apply (current_overlay _ _ (safe_append_offset sc)), Hpd.
  - rewrite !check_checkpoint_torn. by apply (stale_super_rejected (safe_append_offset sc)).
Qed.

(** C40: recovery after a checkpoint blocks the store.  When the first apply after
    a checkpoint has committed its group to the log and the machine crashes,
    [open] applies the group, or a device fails; after it has succeeded, no
    number of crashes and attempts ever opens the store again. *)
Theorem stale_checkpoint_blocks s st a idx hash pages nxt root (t : T) :
  quiescent (view s) st a → checkpoint_lsn st ≠ 0 →
  apply_args (zlen (v_log (view s))) st idx hash pages nxt root →
  is_ok (append_apply_with_metadata (S := S) idx hash nxt root pages s).1 = true →
  crashed (view (append_apply_with_metadata (S := S) idx hash nxt root pages s).2) (view t) →
  zlen (v_log (view t)) ≤ u64_max →
  match pager_open t with
  | (Ok (st', _), t') => sb_applied_index st' = idx
      ∧ ∀ u : T, restarted (view t') (view u) → zlen (v_log (view u)) ≤ u64_max → is_ok (pager_open u).1 = false
  | (Err _, _) => may_fail (S := T)
  end.
Proof.
  intros (Hold & -> & sc & Hlog & Hr) Hne Hargs Hok Hcrash Hlen.
  pose proof (cur_ok _ _ (rw_current _ _ _ _ _ _ Hr)) as Hst. pose proof (proj1 Hlog) as Hclean.
  set (l := v_log (view s)) in *. set (g := apply_group idx hash pages nxt root).
  pose proof (wp_append_group sc st idx hash pages nxt root s
    (λ _ s', zlen pages ≤ u32_max ∧ view s' = mkView (l ++ specs_bytes (group_specs (zlen l) g)) [] (v_pages (view s)) [])
    (λ _, True) Hclean Hst Hargs (rw_old _ _ _ _ _ _ Hr)) as Hw.
  specialize (Hw ltac:(intros Hc s' e Hv; split; [done|]; by rewrite Hv, Hold) ltac:(done) ltac:(done) ltac:(done)).
  unfold wp in Hw. destruct (append_apply_with_metadata idx hash nxt root pages s) as [[r|e] s1]; [|done].
  destruct Hw as [Hcount Hv]. cbn [snd] in Hcrash. rewrite Hv in Hcrash.
  destruct (apply_recoverable l sc st idx hash pages nxt root (v_pages (view s)) Hclean Hst Hargs Hcount Hr) as [Hclean' Hr'].
  fold g in Hclean', Hr'. remember (view t) as w eqn:Hw. symmetry in Hw.
  destruct Hcrash as [c m Hc%log_survives_synced Hm%pages_survive_synced]; [|done|done]. cbn [v_log v_pages] in Hc, Hm. subst c m.
  pose proof (open_leaves_blocked t _ _ _ st _ _ _ Hw Hlen (clean_scan _ _ Hclean') Hr' Hne) as Hopen.
  destruct (pager_open t) as [[[st' rep]|e] t']; [|done]. destruct Hopen as [-> Hb]. split; [done|].
  intros u Hu Hlu. destruct (restarted_blocked _ _ Hb Hu) as (Hbu & c & m & Hcm).
  apply (blocked_open u c m); try done. by rewrite Hcm in Hlu.
Qed.
End Stale.
