(* ===== verification/StorageExamples.v ===== *)
(** * A machine with the memory devices that may stop

    [MemoryDisk] and [MemoryWal] behind the contract of the pager: every
    operation is theirs; the machine remembers the contents since the last sync
    and, when [bounded], stops after a number of updates: the later ones fail
    and change nothing.  Stopping after each number of updates in turn is
    crashing at each point of an operation. *)

From S2P Require Import Prelude StorageBytes StoragePage StorageIo StorageLaws StorageWal StorageFrames StorageScan StorageGroups StoragePager StorageReplay StorageRecovery StorageApply StorageInstall StorageProps.

Record Machine (bounded : bool) : Type := mkMachine {
  mc_disk : MemoryDiskState;
  mc_wal : MemoryWalState;
  mc_pages_old : list (gmap Z bytes);
  mc_log_old : list bytes;
  mc_budget : nat
}.
Arguments mkMachine {bounded} _ _ _ _ _.
Arguments mc_disk {bounded} _.
Arguments mc_wal {bounded} _.
Arguments mc_pages_old {bounded} _.
Arguments mc_log_old {bounded} _.
Arguments mc_budget {bounded} _.

Section Machine.
Context {bounded : bool}.

Definition machine_disk {A} (m : io MemoryDiskState A) : io (Machine bounded) A := λ s,
  let '(r, d) := m (mc_disk s) in (r, mkMachine d (mc_wal s) (mc_pages_old s) (mc_log_old s) (mc_budget s)).
Definition machine_wal {A} (m : io MemoryWalState A) : io (Machine bounded) A := λ s,
  let '(r, w) := m (mc_wal s) in (r, mkMachine (mc_disk s) w (mc_pages_old s) (mc_log_old s) (mc_budget s)).

(** An update: fails once the machine has stopped. *)
Definition machine_update {A} (m : io (Machine bounded) A) : io (Machine bounded) A := λ s,
  if bounded && (mc_budget s =? 0)%nat then (Err (InjectedFault "stopped" 0), s)
  else m (mkMachine (mc_disk s) (mc_wal s) (mc_pages_old s) (mc_log_old s) (pred (mc_budget s))).

Definition remember_pages {A} (m : io (Machine bounded) A) : io (Machine bounded) A := λ s,
  m (mkMachine (mc_disk s) (mc_wal s) (md_volatile (mc_disk s) :: mc_pages_old s) (mc_log_old s) (mc_budget s)).
Definition remember_log {A} (m : io (Machine bounded) A) : io (Machine bounded) A := λ s,
  m (mkMachine (mc_disk s) (mc_wal s) (mc_pages_old s) (mw_volatile (mc_wal s) :: mc_log_old s) (mc_budget s)).
Definition forget_pages {A} (m : io (Machine bounded) A) : io (Machine bounded) A := λ s,
  m (mkMachine (mc_disk s) (mc_wal s) [] (mc_log_old s) (mc_budget s)).
Definition forget_log {A} (m : io (Machine bounded) A) : io (Machine bounded) A := λ s,
  m (mkMachine (mc_disk s) (mc_wal s) (mc_pages_old s) [] (mc_budget s)).

#[export] Instance machine_disk_io : Disk (Machine bounded) := {|
  read_page := λ id, machine_disk (read_page id);
  write_page := λ id l, machine_update (remember_pages (machine_disk (write_page id l)));
  disk_sync := machine_update (forget_pages (machine_disk disk_sync));
  page_count := machine_disk page_count
|}.

#[export] Instance machine_wal_io : WalIo (Machine bounded) := {|
  wal_len := machine_wal wal_len;
  wal_read_all := machine_wal wal_read_all;
  wal_append := λ l, machine_update (remember_log (machine_wal (wal_append l)));
  wal_sync := machine_update (forget_log (machine_wal wal_sync));
  wal_truncate := λ n, machine_update (remember_log (machine_wal (wal_truncate n)))
|}.

Definition machine_view (s : Machine bounded) : View :=
  mkView (mw_volatile (mc_wal s)) (mc_log_old s) (md_volatile (mc_disk s)) (mc_pages_old s).

(** What an update leaves behind. *)
Lemma machine_update_inv {A} (m : io (Machine bounded) A) s r s' :
  machine_update m s = (r, s') →
  (∃ e, r = Err e ∧ bounded = true ∧ s' = s)
  ∨ ∃ s1, machine_view s1 = machine_view s ∧ m s1 = (r, s').
Proof.
  unfold machine_update. destruct (bounded && (mc_budget s =? 0)%nat) eqn:E.
  - apply andb_true_iff in E as [Hb _]. intros [= <- <-]. left. by eexists.
  - intros Hm. right. by eexists; split; [|exact Hm].
Qed.

#[export] Program Instance machine_laws : StorageLaws (Machine bounded) := {|
  view := machine_view;
  may_fail := bounded = true
|}.
Next Obligation.
  intros s r s' Hr Hl. cbn in Hr, Hl. unfold machine_wal, MemoryWal.len in Hr.
  rewrite (proj2 (Z.leb_le _ _) Hl) in Hr. by injection Hr as <- <-.
Qed.
Next Obligation. intros s r s' Hr. by injection Hr as <- <-. Qed.
Next Obligation.
  intros l s r s' [(e & -> & Hb & ->)|(s1 & Hv & Hm)]%machine_update_inv.
  - split; [done|by left].
  - injection Hm as <- <-. injection Hv as E1 E2 E3 E4. unfold machine_view, log_write; cbn. by rewrite E1, E2, E3, E4.
Qed.
Next Obligation.
  intros s r s' [(e & -> & Hb & ->)|(s1 & Hv & Hm)]%machine_update_inv.
  - split; [done|by left].
  - injection Hm as <- <-. injection Hv as E1 E2 E3 E4. unfold machine_view, log_synced; cbn. by rewrite E1, E3, E4.
Qed.
Next Obligation.
  intros n s r s' [(e & -> & Hb & ->)|(s1 & Hv & Hm)]%machine_update_inv Hn Hu.
  - split; [done|by left].
  - injection Hv as E1 E2 E3 E4. cbn in Hn, Hm. unfold remember_log, machine_wal, MemoryWal.truncate in Hm. cbn in Hm.
    assert (usize_try_from n = Some n) as E by (by apply usize_try_from_Some). rewrite E in Hm.
    rewrite (proj2 (Z.ltb_ge _ _)) in Hm by (rewrite E1; lia). injection Hm as <- <-.
    unfold machine_view, log_write; cbn. by rewrite E1, E2, E3, E4.
Qed.
Next Obligation.
  intros id s r s' Hr. cbn in Hr. unfold machine_disk, MemoryDisk.read_page in Hr. injection Hr as <- <-. split; [done|].
  cbn. destruct (md_volatile (mc_disk s) !! id); [done|]. by eexists.
Qed.
Next Obligation.
  intros id l s r s' [(e & -> & Hb & ->)|(s1 & Hv & Hm)]%machine_update_inv.
  - split; [done|by left].
  - injection Hm as <- <-. injection Hv as E1 E2 E3 E4. unfold machine_view, pages_write; cbn. by rewrite E1, E2, E3, E4.
Qed.
Next Obligation.
  intros s r s' [(e & -> & Hb & ->)|(s1 & Hv & Hm)]%machine_update_inv.
  - split; [done|by left].
  - injection Hm as <- <-. injection Hv as E1 E2 E3 E4. unfold machine_view, pages_synced; cbn. by rewrite E1, E2, E3.
Qed.
Next Obligation. intros s r s' Hr. cbn in Hr. unfold machine_disk, MemoryDisk.page_count in Hr. injection Hr as <- <-. by eauto. Qed.

(** A machine that finds [v] after a crash and may do [budget] updates. *)
Definition boot (v : View) (budget : nat) : Machine bounded :=
  mkMachine (mkMemoryDisk (v_pages v) (v_pages v) [] 0) (mkMemoryWal (v_log v) (v_log v) [] 0)
    (v_pages_old v) (v_log_old v) budget.

Lemma view_boot v budget : view (boot v budget) = v.
Proof. by destruct v. Qed.
End Machine.

(** ** Storage: witnesses and findings

    Concrete runs of the pager on the memory devices, with a stand-in for the
    digest function. *)

#[export] Instance digest32 : Sha256 := λ l, replicate 32 (foldl (λ a x, (a * 31 + x) mod 251) 7 l).

#[export] Instance digest32_ok : Sha256Ok.
Proof.
  split; intros l; unfold sha256, digest32.
  - unfold zlen. rewrite length_replicate. done.
  - apply Forall_replicate. unfold byte_ok.
    assert (∀ a, 0 ≤ a < 251 → 0 ≤ foldl (λ a x, (a * 31 + x) mod 251) a l < 251) as Hf.
    { induction l as [|x l IH]; intros a Ha; [done|]. cbn. apply IH. apply Z.mod_pos_bound. lia. }
    specialize (Hf 7). lia.
Qed.

Definition hash_of (i : Z) : bytes := replicate 32 i.

Lemma hash_of_ok i : 0 ≤ i < 256 → zlen (hash_of i) = 32 ∧ Forall byte_ok (hash_of i).
Proof. intros Hi. split; [done|]. by apply Forall_replicate. Qed.

Definition empty_view : View := mkView [] [] ∅ [].

(** A machine that ran [open] on an empty store. *)
Definition opened : Machine false := (pager_open (boot empty_view 0)).2.

Lemma opened_quiescent :
  quiescent (view opened) fresh_super (db_of fresh_super (v_pages (view opened))) ∧ v_log (view opened) = [].
Proof.
  pose proof (wp_open_fresh (boot (bounded := false) empty_view 0)
    (λ r s', quiescent (view s') fresh_super (db_of fresh_super (v_pages (view s'))) ∧ v_log (view s') = [])
    (λ _, False) (view_boot _ _)) as Hw.
  unfold wp in Hw. unfold opened. destruct (pager_open (boot empty_view 0)) as [[r|e] s']; [by apply Hw|].
  exfalso. apply Hw; [auto|]. intros v Hv. cbn in Hv. done.
Qed.

Lemma open_fresh_witness :
  match pager_open (boot (bounded := false) empty_view 0) with
  | (Ok (st, _), s') => st = fresh_super ∧ quiescent (view s') st (db_of st (v_pages (view s')))
  | (Err _, _) => may_fail (S := Machine false)
  end.
Proof. exact (open_fresh_quiescent (boot (bounded := false) empty_view 0) eq_refl). Defined.

Lemma example_args : apply_args 0 fresh_super 1 (hash_of 1) [page_new 2 Heap] 3 (Some 2).
Proof.
  destruct (page_new_valid 2 Heap) as (Hv & Hid & _); [by unfold u64_ok|].
  split; try done; try (by apply hash_of_ok).
  - by apply Forall_singleton.
  - apply Forall_singleton. rewrite Hid. lia.
  - apply NoDup_singleton.
  - intros r [= <-]. lia.
Qed.

(** Everything found at the moment the machine stops. *)
Definition found {b} (s : Machine b) : View := mkView (v_log (view s)) [] (v_pages (view s)) [].

Lemma found_crashed {b} (s : Machine b) : crashed (view s) (found s).
Proof. constructor; [apply log_survives_self|apply pages_survive_self]. Qed.

(** The machine that may do two more updates: the apply stops between the page
    image and the commit frame. *)
Definition tired : Machine true := boot (view opened) 2.
Definition example_pages : list Page := [page_new 2 Heap].
Definition example_db : Db := db_of fresh_super (v_pages (view opened)).
Definition reopened : Machine false :=
  boot (found (pager_apply fresh_super 1 (hash_of 1) example_pages 3 (Some 2) tired).2) 0.

Lemma tired_quiescent : quiescent (view tired) fresh_super example_db ∧ v_log (view tired) = [].
Proof. unfold tired. rewrite view_boot. apply opened_quiescent. Qed.

Lemma reopened_crashed :
  crashed (view (pager_apply fresh_super 1 (hash_of 1) example_pages 3 (Some 2) tired).2) (view reopened).
Proof. unfold reopened. rewrite view_boot. apply found_crashed. Qed.

Lemma reopened_len : zlen (v_log (view reopened)) ≤ u64_max.
Proof. vm_compute. discriminate. Qed.

Lemma tired_args : apply_args (zlen (v_log (view tired))) fresh_super 1 (hash_of 1) example_pages 3 (Some 2).
Proof. rewrite (proj2 tired_quiescent). exact example_args. Qed.

Lemma apply_crash_witness :
  let after := db_apply (committed (zlen (v_log (view tired))) (apply_group 1 (hash_of 1) example_pages 3 (Some 2)))
    (d_pages example_db) in
  if is_ok (pager_apply fresh_super 1 (hash_of 1) example_pages 3 (Some 2) tired).1 then open_arrives after reopened
  else checkpoint_lsn fresh_super = 0 → open_arrives example_db reopened ∨ open_arrives after reopened.
Proof.
  exact (apply_crash_atomic tired fresh_super example_db 1 (hash_of 1) example_pages 3 (Some 2) reopened
    (proj1 tired_quiescent) tired_args reopened_crashed reopened_len).
Defined.

Lemma recovery_witness :
  match pager_open (boot (bounded := false) (found opened) 0) with
  | (Ok (st, _), s') => ∃ a', quiescent (view s') st a' ∧ db_equiv example_db a'
  | (Err _, s') => may_fail (S := Machine false)
      ∧ ∀ v, crashed (view s') v → recoverable (v_log v) (v_pages v) example_db
  end.
Proof.
  assert (zlen (v_log (view opened)) ≤ u64_max) as Hl by (rewrite (proj2 opened_quiescent); done).
  exact (recovery_repeatable (boot (bounded := false) (found opened) 0) _ _ example_db (view_boot _ _) Hl
    (quiescent_crash _ _ _ (proj1 opened_quiescent) _ _ (log_survives_self _) (pages_survive_self _))).
Defined.

(** A snapshot install that stops before its sync. *)
Definition installed_machine : Machine true := boot (view opened) 1.
Definition reinstalled : Machine false :=
  boot (found (install_snapshot fresh_super 5 (hash_of 5) example_pages 3 2 installed_machine).2) 0.

Lemma example_install_args : install_args fresh_super 5 (hash_of 5) example_pages 3 2.
Proof.
  destruct (page_new_valid 2 Heap) as (Hv & Hid & _); [by unfold u64_ok|].
  split; try done; try (by apply hash_of_ok).
  - by apply Forall_singleton.
  - apply Forall_singleton. rewrite Hid. cbn. lia.
  - apply NoDup_singleton.
  - cbn [example_pages fmap list_fmap]. rewrite Hid. left.
Qed.

Lemma install_crash_witness :
  ∃ b, (b = db_install 5 (hash_of 5) example_pages 3 2 (d_pages example_db)
        ∨ b = example_db ∧ is_ok (install_snapshot fresh_super 5 (hash_of 5) example_pages 3 2 installed_machine).1 = false)
       ∧ open_arrives b reinstalled.
Proof.
  assert (quiescent (view installed_machine) fresh_super example_db) as Hq
    by (unfold installed_machine; rewrite view_boot; apply opened_quiescent).
  assert (crashed (view (install_snapshot fresh_super 5 (hash_of 5) example_pages 3 2 installed_machine).2) (view reinstalled)) as Hc
    by (unfold reinstalled; rewrite view_boot; apply found_crashed).
  assert (zlen (v_log (view reinstalled)) ≤ u64_max) as Hl by (vm_compute; discriminate).
  exact (install_crash_atomic installed_machine fresh_super example_db 5 (hash_of 5) example_pages 3 2 reinstalled
    Hq example_install_args Hc Hl).
Defined.

Definition rechecked : Machine false := boot (found (pager_checkpoint fresh_super tired).2) 0.

Lemma checkpoint_crash_witness : open_arrives example_db rechecked.
Proof.
  destruct tired_quiescent as [Hq Hlog].
  assert (at_last_group (view tired) fresh_super) as Hat.
  { intros sc lg Hs Hl. rewrite Hlog in Hs. assert (sc = empty_scan) as -> by (vm_compute in Hs; by injection Hs). done. }
  assert (zlen (v_log (view tired)) + 88 ≤ u64_max) as Hroom by (rewrite Hlog; done).
  assert (crashed (view (pager_checkpoint fresh_super tired).2) (view rechecked)) as Hc
    by (unfold rechecked; rewrite view_boot; apply found_crashed).
  assert (zlen (v_log (view rechecked)) ≤ u64_max) as Hl by (vm_compute; discriminate).
  exact (checkpoint_crash_safe tired fresh_super example_db rechecked Hq Hat Hroom eq_refl Hc Hl).
Defined.

(** A checkpoint, the log phase of an apply, a crash. *)
Definition marked : Machine false := (pager_checkpoint fresh_super opened).2.
Definition marked_super : Superblock := checkpointed fresh_super [].
Definition logged : Machine false := (append_apply_with_metadata 1 (hash_of 1) 3 (Some 2) example_pages marked).2.
Definition relogged : Machine false := boot (found logged) 0.

Lemma marked_quiescent : quiescent (view marked) marked_super (db_of marked_super (v_pages (view marked))).
Proof.
  destruct opened_quiescent as [Hq Hlog].
  assert (at_last_group (view opened) fresh_super) as Hat.
  { intros sc lg Hs Hl. rewrite Hlog in Hs. assert (sc = empty_scan) as -> by (vm_compute in Hs; by injection Hs). done. }
  pose proof (wp_checkpoint fresh_super example_db opened
    (λ _ s', quiescent (view s') marked_super (db_of marked_super (v_pages (view s')))) (λ _, False) Hq Hat) as Hw.
  rewrite Hlog in Hw. specialize (Hw ltac:(done) ltac:(done) ltac:(done) ltac:(by intros v [Hf _])).
  unfold wp in Hw. unfold marked. destruct (pager_checkpoint fresh_super opened) as [[r|e] s']; [exact Hw|destruct Hw].
Qed.

Lemma marked_args : apply_args (zlen (v_log (view marked))) marked_super 1 (hash_of 1) example_pages 3 (Some 2).
Proof.
  replace (zlen (v_log (view marked))) with 88 by by vm_compute.
  destruct example_args as [Hi Hiu Hh Hv Hids Hnd Hnx Hr Hrm Hgen]. split; try done.
Qed.

Lemma stale_checkpoint_witness :
  match pager_open relogged with
  | (Ok (st', _), t') => sb_applied_index st' = 1
      ∧ ∀ u : Machine false, restarted (T := Machine false) (view t') (view u) → zlen (v_log (view u)) ≤ u64_max →
          is_ok (pager_open u).1 = false
  | (Err _, _) => may_fail (S := Machine false)
  end.
Proof.
  assert (checkpoint_lsn marked_super ≠ 0) as Hne by (vm_compute; discriminate).
  assert (is_ok (append_apply_with_metadata 1 (hash_of 1) 3 (Some 2) example_pages marked).1 = true) as Hok by by vm_compute.
  assert (crashed (view logged) (view relogged)) as Hc by (unfold relogged; rewrite view_boot; apply found_crashed).
  assert (zlen (v_log (view relogged)) ≤ u64_max) as Hl by (vm_compute; discriminate).
  exact (stale_checkpoint_blocks marked marked_super _ 1 (hash_of 1) example_pages 3 (Some 2) relogged
    marked_quiescent Hne marked_args Hok Hc Hl).
Defined.

(** ** Pages and frames *)

Lemma example_page_valid : page_valid (page_new 2 Heap).
Proof. by apply page_new_valid. Qed.

Lemma page_codec_witness :
  page_decode (into_bytes (page_new 2 Heap)) = Ok (seal (page_new 2 Heap))
  ∧ page_header (seal (page_new 2 Heap)) = page_header (page_new 2 Heap)
  ∧ payload (seal (page_new 2 Heap)) = payload (page_new 2 Heap).
Proof. exact (page_codec_roundtrip _ (valid_ok _ example_page_valid) (valid_shape _ example_page_valid)). Defined.

Lemma page_burst_witness :
  is_ok (page_decode (bytes_put (page_bytes (page_new 2 Heap)) 46 [1; 2; 3; 4])) = false.
Proof.
  assert (Forall byte_ok [1; 2; 3; 4]) as Hb by (repeat constructor; done).
  assert (bytes_put (page_bytes (page_new 2 Heap)) 46 [1; 2; 3; 4] ≠ page_bytes (page_new 2 Heap)) as Hne.
  { intros E. apply (f_equal (λ l, znth l 49)) in E. vm_compute in E. discriminate. }
  assert (46 + zlen [1; 2; 3; 4] ≤ PAGE_SIZE) as Hlen by (vm_compute; discriminate).
  exact (page_burst_detected (page_new 2 Heap) 46 [1; 2; 3; 4] example_page_valid Hb ltac:(lia) ltac:(done) Hlen Hne).
Defined.

Definition example_group : Group := apply_group 1 (hash_of 1) example_pages 3 (Some 2).

(** Cut after 100 bytes: inside the first page image. *)
Lemma group_append_witness :
  ∃ torn, scan_bytes ([] ++ take 100 (specs_bytes (group_specs 0 example_group))) = Ok (set_torn torn empty_scan)
    ∧ safe_append_offset empty_scan = 0.
Proof.
  assert (group_ok 0 example_group) as Hg
    by (apply (apply_group_ok 0 fresh_super 1 (hash_of 1) example_pages 3 (Some 2)); [done|apply fresh_super_ok|exact example_args]).
  assert (drop 100 (specs_bytes (group_specs 0 example_group)) ≠ []) as Hrest.
  { intros E. apply (f_equal length) in E. rewrite length_drop in E.
    pose proof (zlen_group_specs _ _ Hg) as Hz. unfold zlen in Hz. cbn [length] in E.
    change (g_end 0 example_group - 0) with (88 + 4144 * zlen (g_pages example_group) + 76 - 0) in Hz.
    pose proof (zlen_nonneg (g_pages example_group)). lia. }
  exact (proj1 (group_append_atomic [] empty_scan example_group (take 100 (specs_bytes (group_specs 0 example_group)))
    (drop 100 (specs_bytes (group_specs 0 example_group))) clean_nil Hg ltac:(done) (eq_sym (take_drop _ _))) Hrest).
Defined.

(** Three bytes: too short for a length field. *)
Lemma decode_terminates_witness :
  decode_loop 9 [1; 2; 3] [] 0 = Some (decode_frames [1; 2; 3])
  ∧ ∃ fs stop r, seg [1; 2; 3] 0 fs stop ∧ ends [1; 2; 3] stop r
      ∧ decode_frames [1; 2; 3] = (λ t, (fs, t)) <$> r.
Proof. apply (decode_frames_terminates [1; 2; 3] 9). cbn. lia. Defined.

(** ** Findings: runs on [MemoryDisk] and [MemoryWal] *)

Definition World : Type := MemoryDiskState * MemoryWalState.
Definition crash_world (w : World) : World := (MemoryDisk.crash w.1, MemoryWal.crash w.2).
Definition state_of (r : sresult (Superblock * RecoveryReport)) : Superblock :=
  match r with Ok (st, _) => st | Err _ => genesis end.
Definition second_of {A} (r : sresult (A * Superblock)) : Superblock :=
  match r with Ok (_, st) => st | Err _ => genesis end.

Definition w_open : sresult (Superblock * RecoveryReport) * World :=
  pager_open (memory_disk_default, memory_wal_default).
Definition w_apply1 : sresult (CommittedApply * Superblock) * World :=
  pager_apply (state_of w_open.1) 1 (hash_of 1) [] 3 (Some 2) w_open.2.
Definition w_checkpoint : sresult (Checkpoint * Superblock) * World :=
  pager_checkpoint (second_of w_apply1.1) w_apply1.2.
(** The log phase of the next apply, the one that commits it. *)
Definition w_commit2 : sresult (CommittedApply * option Z) * World :=
  append_apply_with_metadata 2 (hash_of 2) 3 (Some 2) [] w_checkpoint.2.
Definition w_reopen1 : sresult (Superblock * RecoveryReport) * World := pager_open (crash_world w_commit2.2).
Definition w_reopen2 : sresult (Superblock * RecoveryReport) * World := pager_open (crash_world w_reopen1.2).

(** A run of the stale checkpoint: [recover] publishes index 2 with the
    checkpoint of index 1, and the next [open] rejects it. *)
Example recovery_keeps_stale_checkpoint :
  is_ok w_checkpoint.1 = true ∧ is_ok w_commit2.1 = true
  ∧ is_ok w_reopen1.1 = true ∧ sb_applied_index (state_of w_reopen1.1) = 2
  ∧ checkpoint_lsn (state_of w_reopen1.1) = 252
  ∧ w_reopen2.1 = Err (SInvariant "checkpoint index/hash disagrees with superblock").
Proof. split_and!; by vm_compute. Qed.

(** Two committed groups; then one byte of the first length field changes. *)
Definition two_groups : bytes :=
  mw_volatile (append_apply 2 (hash_of 2) [] (append_apply 1 (hash_of 1) [] memory_wal_default).2).2.
Definition damaged : MemoryWalState := MemoryWal.replace_bytes memory_wal_default (bytes_put two_groups 1 [4]) true.

(** Damage in the middle of the log can pass for a torn tail: a length field
    that points past the end of the log makes [open] drop both committed groups
    and cut the log to nothing. *)
Theorem length_damage_drops_groups :
  (length <$> (groups <$> scan_bytes two_groups)) = Ok 2%nat
  ∧ scan_bytes (mw_volatile damaged) = Ok (mkScan [] [] 0 (Some 0))
  ∧ (wal_open damaged).1 = Ok 0 ∧ mw_volatile (wal_open damaged).2 = [].
Proof. split_and!; by vm_compute. Qed.

(** After a snapshot is installed over a log that has groups, [checkpoint]
    fails until the next apply. *)
Definition w_install : sresult Superblock * World :=
  install_snapshot (second_of w_apply1.1) 5 (hash_of 5) [page_new 3 Heap] 4 3 w_apply1.2.

Theorem checkpoint_fails_after_install :
  is_ok w_install.1 = true
  ∧ (pager_checkpoint (match w_install.1 with Ok st => st | Err _ => genesis end) w_install.2).1
    = Err (SInvariant "checkpoint applied index/hash does not match WAL prefix").
Proof. split_and!; by vm_compute. Qed.

(** A store whose very first superblock write was torn does not open. *)
Definition torn_genesis : World :=
  (mkMemoryDisk {[0 := zeros PAGE_SIZE]} {[0 := zeros PAGE_SIZE]} [] 0, memory_wal_default).

Theorem torn_first_superblock_blocks_open :
  (pager_open torn_genesis).1 = Err (InvalidPage "neither superblock is valid").
Proof. by vm_compute. Qed.
