(* ===== verification/BtreeNode.v ===== *)
(** * Nodes of the B+ tree: the page format of [crates/aster-storage/src/btree.rs]

    A node is one page.  After the 64-byte page header come the parent, the two
    leaf links and the entry count; the entries start at byte [NODE_DATA] and
    end at the header's [lower].  The second half of the file proves the codec:
    a node either encodes to a page that decodes to it, or is too large. *)

From S2P Require Import Prelude StorageBytes StoragePage.

Definition NODE_DATA : Z := 96.
Definition NONE_PAGE : Z := u64_max.

Abbreviation entry := (bytes * bytes)%type.

Inductive Node : Type :=
| Leaf (id : Z) (parent previous next : option Z) (entries : list entry)
| Internal (id : Z) (parent : option Z) (keys : list bytes) (children : list Z).

#[export] Instance Node_eq_dec : EqDecision Node.
Proof. solve_decision. Defined.

Definition node_id (n : Node) : Z :=
  match n with Leaf id _ _ _ _ | Internal id _ _ _ => id end.

Definition node_parent (n : Node) : option Z :=
  match n with Leaf _ parent _ _ _ | Internal _ parent _ _ => parent end.

Definition set_parent (n : Node) (value : option Z) : Node :=
  match n with
  | Leaf id _ previous next entries => Leaf id value previous next entries
  | Internal id _ keys children => Internal id value keys children
  end.

(** ** Fields of a node page *)

Definition page_id_option (value : Z) : option Z :=
  if value =? NONE_PAGE then None else Some value.

(** [id.map_or(NONE_PAGE, |id| id.0)] *)
Definition page_id_raw (id : option Z) : Z := default NONE_PAGE id.

Definition checked_u16 (value : Z) (field : string) : sresult Z :=
  ok_or (u16_try_from value)
    (InvalidPage (field +:+ " value " +:+ pretty value +:+ " exceeds on-disk u16")).

Definition node_get_u16 (page : Page) (offset : Z) : sresult Z :=
  l ← bytes_range page offset 2; Ok (from_le_bytes l).

Definition node_get_u64 (page : Page) (offset : Z) : sresult Z :=
  l ← bytes_range page offset 8; Ok (from_le_bytes l).

Definition node_put_u16 (page : Page) (offset value : Z) : sresult Page :=
  write_range page offset (to_le_bytes 2 value).

Definition node_put_u64 (page : Page) (offset value : Z) : sresult Page :=
  write_range page offset (to_le_bytes 8 value).

(** A read at the cursor returns the value and the cursor after it. *)
Definition read_u16_at (page : Page) (cursor stop : Z) : sresult (Z * Z) :=
  next ← ok_or (checked_add cursor 2) (InvalidPage "B+ cursor overflow");
  _ ← ensure (next <=? stop) (InvalidPage "truncated B+ entry");
  value ← node_get_u16 page cursor;
  Ok (value, next).

Definition read_u64_at (page : Page) (cursor stop : Z) : sresult (Z * Z) :=
  next ← ok_or (checked_add cursor 8) (InvalidPage "B+ cursor overflow");
  _ ← ensure (next <=? stop) (InvalidPage "truncated B+ child pointer");
  value ← node_get_u64 page cursor;
  Ok (value, next).

Definition read_bytes_at (page : Page) (cursor length stop : Z) : sresult (bytes * Z) :=
  next ← ok_or (checked_add cursor length) (InvalidPage "B+ cursor overflow");
  _ ← ensure (next <=? stop) (InvalidPage "truncated B+ key/value");
  value ← bytes_range page cursor length;
  Ok (value, next).

(** ** Encoding *)

(** [u16::try_from(len)], an oversized key or value otherwise. *)
Definition entry_len (l : bytes) : sresult Z := ok_or (u16_try_from (zlen l)) (KeyTooLarge (zlen l)).

Definition encode_entry (e : entry) : sresult bytes :=
  key_len ← entry_len e.1;
  value_len ← entry_len e.2;
  Ok (to_le_bytes 2 key_len ++ to_le_bytes 2 value_len ++ e.1 ++ e.2).

Definition encode_child (kc : bytes * Z) : sresult bytes :=
  key_len ← entry_len kc.1;
  Ok (to_le_bytes 2 key_len ++ kc.1 ++ to_le_bytes 8 kc.2).

(** The end of the data on the page, when the page has room for it. *)
Definition node_end (data : bytes) : sresult Z :=
  stop ← ok_or (checked_add NODE_DATA (zlen data)) (KeyTooLarge (zlen data));
  _ ← ensure (stop <=? PAGE_SIZE) (KeyTooLarge (zlen data));
  Ok stop.

Definition encode_leaf (id : Z) (parent previous next : option Z) (entries : list entry) : sresult Page :=
  parts ← mapM_result encode_entry entries;
  let data := concat parts in
  stop ← node_end data;
  page ← node_put_u64 (page_new id BTreeLeaf) PAGE_HEADER_SIZE (page_id_raw parent);
  page ← node_put_u64 page (PAGE_HEADER_SIZE + 8) (page_id_raw previous);
  page ← node_put_u64 page (PAGE_HEADER_SIZE + 16) (page_id_raw next);
  entry_count ← checked_u16 (zlen entries) "B+ leaf entry count";
  page ← node_put_u16 page (PAGE_HEADER_SIZE + 24) entry_count;
  page ← write_range page NODE_DATA data;
  lower ← checked_u16 stop "B+ leaf data end";
  Ok (seal (set_layout page lower PAGE_SIZE entry_count)).

Definition encode_internal (id : Z) (parent : option Z) (keys : list bytes) (children : list Z) : sresult Page :=
  match children with
  | [] => Err (SInvariant "internal node arity mismatch")
  | first :: rest =>
      _ ← ensure (zlen children =? zlen keys + 1) (SInvariant "internal node arity mismatch");
      parts ← mapM_result encode_child (zip keys rest);
      let data := to_le_bytes 8 first ++ concat parts in
      stop ← node_end data;
      page ← node_put_u64 (page_new id BTreeInternal) PAGE_HEADER_SIZE (page_id_raw parent);
      key_count ← checked_u16 (zlen keys) "B+ internal key count";
      page ← node_put_u16 page (PAGE_HEADER_SIZE + 24) key_count;
      page ← write_range page NODE_DATA data;
      lower ← checked_u16 stop "B+ internal data end";
      Ok (seal (set_layout page lower PAGE_SIZE key_count))
  end.

Definition encode_node (node : Node) : sresult Page :=
  match node with
  | Leaf id parent previous next entries => encode_leaf id parent previous next entries
  | Internal id parent keys children => encode_internal id parent keys children
  end.

(** ** Decoding *)

(** [keys.windows(2).any(|pair| pair[0] >= pair[1])] *)
Fixpoint unordered (keys : list bytes) : bool :=
  match keys with
  | a :: rest =>
      match rest with
      | b :: _ => negb (bool_decide (cmp_lt a b)) || unordered rest
      | [] => false
      end
  | [] => false
  end.

Fixpoint read_entries (page : Page) (cursor stop : Z) (count : nat) : sresult (list entry * Z) :=
  match count with
  | O => Ok ([], cursor)
  | S count =>
      '(key_len, cursor) ← read_u16_at page cursor stop;
      '(value_len, cursor) ← read_u16_at page cursor stop;
      '(key, cursor) ← read_bytes_at page cursor key_len stop;
      '(value, cursor) ← read_bytes_at page cursor value_len stop;
      '(entries, cursor) ← read_entries page cursor stop count;
      Ok ((key, value) :: entries, cursor)
  end.

Fixpoint read_children (page : Page) (cursor stop : Z) (count : nat) : sresult (list (bytes * Z) * Z) :=
  match count with
  | O => Ok ([], cursor)
  | S count =>
      '(key_len, cursor) ← read_u16_at page cursor stop;
      '(key, cursor) ← read_bytes_at page cursor key_len stop;
      '(child, cursor) ← read_u64_at page cursor stop;
      '(pairs, cursor) ← read_children page cursor stop count;
      Ok ((key, child) :: pairs, cursor)
  end.

Definition decode_node (page : Page) : sresult Node :=
  _ ← page_validate page;
  let id := page_id page in
  raw_parent ← node_get_u64 page PAGE_HEADER_SIZE;
  let parent := page_id_option raw_parent in
  count ← node_get_u16 page (PAGE_HEADER_SIZE + 24);
  let data_end := h_lower (page_header page) in
  _ ← ensure ((NODE_DATA <=? data_end) && (data_end <=? PAGE_SIZE))
        (InvalidPage "B+ node data end is invalid");
  match page_kind page with
  | BTreeLeaf =>
      previous ← node_get_u64 page (PAGE_HEADER_SIZE + 8);
      next ← node_get_u64 page (PAGE_HEADER_SIZE + 16);
      '(entries, cursor) ← read_entries page NODE_DATA data_end (Z.to_nat count);
      _ ← ensure ((cursor =? data_end) && negb (unordered entries.*1))
            (InvalidPage "malformed or unordered B+ leaf");
      Ok (Leaf id parent (page_id_option previous) (page_id_option next) entries)
  | BTreeInternal =>
      '(first, cursor) ← read_u64_at page NODE_DATA data_end;
      '(pairs, cursor) ← read_children page cursor data_end (Z.to_nat count);
      _ ← ensure ((cursor =? data_end) && negb (unordered pairs.*1))
            (InvalidPage "malformed or unordered B+ internal node");
      Ok (Internal id parent pairs.*1 (first :: pairs.*2))
  | other =>
      Err (InvalidPage ("page PageId(" +:+ pretty id +:+ ") has non-B+ kind " +:+ PageKind_debug other))
  end.

Example leaf_page :
  let n := Leaf 7 (Some 3) None (Some 9) [([1; 2], [5]); ([1; 3], []); ([2], [8; 8])] in
  (p ← encode_node n; decode_node p) = Ok n.
Proof. by vm_compute. Qed.

Example internal_page :
  let n := Internal 3 None [[1; 3]; [2]] [7; 9; 12] in
  (p ← encode_node n; decode_node p) = Ok n.
Proof. by vm_compute. Qed.

(** ** The size of a node, and which nodes the format holds *)

Definition NODE_CAP : Z := PAGE_SIZE - NODE_DATA.

Definition entry_size (e : entry) : Z := 4 + zlen e.1 + zlen e.2.
Definition child_size (key : bytes) : Z := 10 + zlen key.
Definition sum_size {A} (f : A → Z) (l : list A) : Z := foldr (λ a n, f a + n) 0 l.

Definition node_size (n : Node) : Z :=
  match n with
  | Leaf _ _ _ _ entries => sum_size entry_size entries
  | Internal _ _ keys _ => 8 + sum_size child_size keys
  end.

(** A page identifier that differs from the [NONE_PAGE] mark. *)
Definition id_ok (id : Z) : Prop := 0 ≤ id < NONE_PAGE.
Definition link_ok (id : option Z) : Prop := from_option id_ok True id.

Definition entry_ok (e : entry) : Prop := Forall byte_ok e.1 ∧ Forall byte_ok e.2.

Definition node_ok (n : Node) : Prop :=
  id_ok (node_id n) ∧ link_ok (node_parent n) ∧
  match n with
  | Leaf _ _ previous next entries =>
      link_ok previous ∧ link_ok next ∧ Forall entry_ok entries ∧ unordered entries.*1 = false
  | Internal _ _ keys children =>
      length children = S (length keys) ∧ Forall id_ok children ∧ Forall (Forall byte_ok) keys
      ∧ unordered keys = false
  end.

Lemma sum_size_app {A} (f : A → Z) l k : sum_size f (l ++ k) = sum_size f l + sum_size f k.
Proof. unfold sum_size. induction l as [|a l IH]; cbn; lia. Qed.

Lemma sum_size_lower {A} (f : A → Z) l c : Forall (λ a, c ≤ f a) l → c * zlen l ≤ sum_size f l.
Proof. induction 1 as [|a l Ha _ IH]; unfold sum_size in *; cbn [foldr]; unfold zlen in *; cbn [length] in *; lia. Qed.

Lemma sum_size_upper {A} (f : A → Z) l c : Forall (λ a, f a ≤ c) l → sum_size f l ≤ c * zlen l.
Proof. induction 1 as [|a l Ha _ IH]; unfold sum_size in *; cbn [foldr]; unfold zlen in *; cbn [length] in *; lia. Qed.

Lemma entry_size_pos e : 4 ≤ entry_size e.
Proof. unfold entry_size. pose proof (zlen_nonneg e.1). pose proof (zlen_nonneg e.2). lia. Qed.
Lemma child_size_pos k : 10 ≤ child_size k.
Proof. unfold child_size. pose proof (zlen_nonneg k). lia. Qed.

Lemma sum_entries_pos es : 4 * zlen es ≤ sum_size entry_size es.
Proof. apply sum_size_lower, Forall_true, entry_size_pos. Qed.
Lemma sum_keys_pos ks : 10 * zlen ks ≤ sum_size child_size ks.
Proof. apply sum_size_lower, Forall_true, child_size_pos. Qed.

(** ** The codec *)

Lemma Ok_bind {E A B} (a : A) (f : A → result E B) : Ok a ≫= f = f a.
Proof. done. Qed.
Lemma ensure_true {E} (e : E) : ensure true e = Ok tt.
Proof. done. Qed.

Lemma write_range_Ok p start v :
  page_ok p → 0 ≤ start → start + zlen v ≤ PAGE_SIZE → write_range p start v = Ok (put_bytes p start v).
Proof.
  intros [Hl _] ? Hend. unfold write_range, slice_get, checked_add.
  pose proof (zlen_nonneg v). unfold PAGE_SIZE in *.
  rewrite (proj2 (Z.leb_le (start + zlen v) u64_max)) by ulia. cbn [ok_or mbind result_bind].
  rewrite Hl. case_match eqn:E; [done|]. bool_prop. lia.
Qed.

Lemma bytes_range_Ok p start n :
  page_ok p → 0 ≤ start → 0 ≤ n → start + n ≤ PAGE_SIZE →
  bytes_range p start n = Ok (bytes_get (page_bytes p) start n).
Proof.
  intros [Hl _] ? ? Hend. unfold bytes_range, slice_get, checked_add, PAGE_SIZE in *.
  rewrite (proj2 (Z.leb_le (start + n) u64_max)) by ulia. cbn [ok_or mbind result_bind].
  rewrite Hl. case_match eqn:E; bool_prop; [|lia]. by replace (start + n - start) with n by lia.
Qed.

(** [rest] is what the page holds from the cursor to the end of its data. *)
Definition unread (p : Page) (stop cursor : Z) (rest : bytes) : Prop :=
  page_ok p ∧ 0 ≤ cursor ∧ cursor + zlen rest = stop ∧ stop ≤ PAGE_SIZE
  ∧ bytes_get (page_bytes p) cursor (zlen rest) = rest.

Lemma unread_app p stop cursor x rest :
  unread p stop cursor (x ++ rest) →
  bytes_range p cursor (zlen x) = Ok x ∧ unread p stop (cursor + zlen x) rest.
Proof.
  intros (Hp & Hc & Hstop & Hend & Hget). rewrite zlen_app in *.
  pose proof (zlen_nonneg x). pose proof (zlen_nonneg rest).
  assert (∀ a n, 0 ≤ a → 0 ≤ n → a + n ≤ zlen x + zlen rest →
    bytes_get (page_bytes p) (cursor + a) n = ztake n (zdrop a (x ++ rest))) as Hw.
  { intros a n ? ? ?. rewrite <- Hget. unfold bytes_get, ztake, zdrop.
    rewrite skipn_firstn_comm, drop_drop, take_take. f_equal; [lia|]. f_equal. lia. }
  rewrite bytes_range_Ok by (done || lia). split.
  - rewrite <- (Z.add_0_r cursor), Hw by lia. f_equal. unfold ztake, zdrop, zlen.
    rewrite Nat2Z.id. change (Z.to_nat 0) with 0%nat. rewrite drop_0. by rewrite take_app_length.
  - split; [done|]. split_and!; [lia|lia|done|]. rewrite Hw by lia. unfold ztake, zdrop, zlen.
    rewrite !Nat2Z.id, drop_app_length. by apply take_ge.
Qed.

Lemma unread_u16 p stop cursor v rest :
  unread p stop cursor (to_le_bytes 2 v ++ rest) → 0 ≤ v ≤ u16_max →
  read_u16_at p cursor stop = Ok (v, cursor + 2) ∧ unread p stop (cursor + 2) rest.
Proof.
  intros Hu Hv. pose proof Hu as (Hp & Hc & Hstop & Hend & _). rewrite zlen_app, zlen_to_le_bytes in Hstop.
  destruct (unread_app _ _ _ _ _ Hu) as [Hr Hu']. rewrite zlen_to_le_bytes in *. split; [|done].
  pose proof (zlen_nonneg rest). unfold read_u16_at, node_get_u16, checked_add, PAGE_SIZE in *.
  rewrite (proj2 (Z.leb_le (cursor + 2) u64_max)) by ulia. cbn [ok_or mbind result_bind].
  rewrite (proj2 (Z.leb_le (cursor + 2) stop)) by lia. cbn [ensure mbind result_bind].
  change (Z.of_nat 2) with 2 in *. rewrite Hr. cbn. do 2 f_equal.
  change (from_le_bytes (to_le_bytes 2 v) = v). rewrite from_to_le_bytes. apply Z.mod_small.
  change (256 ^ Z.of_nat 2) with (u16_max + 1). ulia.
Qed.

Lemma unread_u64 p stop cursor v rest :
  unread p stop cursor (to_le_bytes 8 v ++ rest) → u64_ok v →
  read_u64_at p cursor stop = Ok (v, cursor + 8) ∧ unread p stop (cursor + 8) rest.
Proof.
  intros Hu Hv. pose proof Hu as (Hp & Hc & Hstop & Hend & _). rewrite zlen_app, zlen_to_le_bytes in Hstop.
  destruct (unread_app _ _ _ _ _ Hu) as [Hr Hu']. rewrite zlen_to_le_bytes in *. split; [|done].
  pose proof (zlen_nonneg rest). unfold read_u64_at, node_get_u64, checked_add, PAGE_SIZE in *.
  rewrite (proj2 (Z.leb_le (cursor + 8) u64_max)) by ulia. cbn [ok_or mbind result_bind].
  rewrite (proj2 (Z.leb_le (cursor + 8) stop)) by lia. cbn [ensure mbind result_bind].
  change (Z.of_nat 8) with 8 in *. rewrite Hr. cbn [mbind result_bind]. do 2 f_equal.
  rewrite from_to_le_bytes. apply Z.mod_small. change (256 ^ Z.of_nat 8) with (u64_max + 1). ulia.
Qed.

Lemma unread_bytes p stop cursor x rest :
  unread p stop cursor (x ++ rest) →
  read_bytes_at p cursor (zlen x) stop = Ok (x, cursor + zlen x) ∧ unread p stop (cursor + zlen x) rest.
Proof.
  intros Hu. pose proof Hu as (Hp & Hc & Hstop & Hend & _). rewrite zlen_app in Hstop.
  destruct (unread_app _ _ _ _ _ Hu) as [Hr Hu']. split; [|done].
  pose proof (zlen_nonneg rest). unfold read_bytes_at, checked_add, PAGE_SIZE in *.
  rewrite (proj2 (Z.leb_le (cursor + zlen x) u64_max)) by ulia. cbn [ok_or mbind result_bind].
  rewrite (proj2 (Z.leb_le (cursor + zlen x) stop)) by lia. cbn [ensure mbind result_bind].
  by rewrite Hr.
Qed.

Lemma entry_len_cases l :
  (zlen l ≤ u16_max ∧ entry_len l = Ok (zlen l)) ∨ (u16_max < zlen l ∧ entry_len l = Err (KeyTooLarge (zlen l))).
Proof. unfold entry_len, u16_try_from. case_match; bool_prop; [left|right]; split; done || lia. Qed.

Definition entry_bytes (e : entry) : bytes :=
  to_le_bytes 2 (zlen e.1) ++ to_le_bytes 2 (zlen e.2) ++ e.1 ++ e.2.
Definition child_bytes (kc : bytes * Z) : bytes :=
  to_le_bytes 2 (zlen kc.1) ++ kc.1 ++ to_le_bytes 8 kc.2.

Definition short (l : bytes) : Prop := zlen l ≤ u16_max.

Lemma encode_entry_cases e :
  (encode_entry e = Ok (entry_bytes e) ∧ short e.1 ∧ short e.2)
  ∨ (u16_max < entry_size e ∧ ∃ b, encode_entry e = Err (KeyTooLarge b)).
Proof.
  unfold encode_entry, entry_size. pose proof (zlen_nonneg e.1). pose proof (zlen_nonneg e.2).
  destruct (entry_len_cases e.1) as [[Hk ->]|[Hk ->]]; cbn [mbind result_bind];
    [|right; split; [lia|eauto]].
  destruct (entry_len_cases e.2) as [[Hv ->]|[Hv ->]]; cbn [mbind result_bind];
    [by left|right; split; [lia|eauto]].
Qed.

Lemma encode_child_cases kc :
  (encode_child kc = Ok (child_bytes kc) ∧ short kc.1)
  ∨ (u16_max < child_size kc.1 ∧ ∃ b, encode_child kc = Err (KeyTooLarge b)).
Proof.
  unfold encode_child, child_size. pose proof (zlen_nonneg kc.1).
  destruct (entry_len_cases kc.1) as [[Hk ->]|[Hk ->]]; cbn [mbind result_bind];
    [by left|right; split; [lia|eauto]].
Qed.

(** Either every length fits a [u16] and the parts are written one after the
    other, or some key or value is larger than a page. *)
Lemma encode_entries es :
  (mapM_result encode_entry es = Ok (entry_bytes <$> es) ∧ Forall (λ e, short e.1 ∧ short e.2) es)
  ∨ (u16_max < sum_size entry_size es ∧ ∃ b, mapM_result encode_entry es = Err (KeyTooLarge b)).
Proof.
  induction es as [|e es IH]; [by left; split|].
  pose proof (sum_entries_pos es). pose proof (zlen_nonneg es). pose proof (entry_size_pos e).
  cbn [mapM_result sum_size foldr]. fold (sum_size entry_size es).
  destruct (encode_entry_cases e) as [(-> & Hs)|[Hbig [b ->]]]; cbn [mbind result_bind];
    [|right; split; [lia|eauto]].
  destruct IH as [[-> Hs']|[Hbig [b ->]]]; [left|right]; cbn [mbind result_bind].
  - split; [done|]. by constructor.
  - split; [lia|eauto].
Qed.

Lemma encode_children kcs :
  (mapM_result encode_child kcs = Ok (child_bytes <$> kcs) ∧ Forall (λ kc, short kc.1) kcs)
  ∨ (u16_max < sum_size child_size kcs.*1 ∧ ∃ b, mapM_result encode_child kcs = Err (KeyTooLarge b)).
Proof.
  induction kcs as [|kc kcs IH]; [by left; split|].
  pose proof (sum_keys_pos kcs.*1). pose proof (zlen_nonneg kcs.*1). pose proof (child_size_pos kc.1).
  rewrite !fmap_cons. cbn [mapM_result sum_size foldr]. fold (sum_size child_size kcs.*1).
  destruct (encode_child_cases kc) as [(-> & Hs)|[Hbig [b ->]]]; cbn [mbind result_bind];
    [|right; split; [lia|eauto]].
  destruct IH as [[-> Hs']|[Hbig [b ->]]]; [left|right]; cbn [mbind result_bind].
  - split; [done|]. by constructor.
  - split; [lia|eauto].
Qed.

Lemma zlen_entries es : zlen (concat (entry_bytes <$> es)) = sum_size entry_size es.
Proof.
  induction es as [|e es IH]; [done|]. rewrite fmap_cons. cbn [concat sum_size foldr]. rewrite zlen_app, IH.
  fold (sum_size entry_size es).
  f_equal. unfold entry_bytes, entry_size. rewrite !zlen_app, !zlen_to_le_bytes. lia.
Qed.

Lemma zlen_children kcs : zlen (concat (child_bytes <$> kcs)) = sum_size child_size kcs.*1.
Proof.
  induction kcs as [|kc kcs IH]; [done|]. rewrite !fmap_cons. cbn [concat sum_size foldr]. rewrite zlen_app, IH.
  fold (sum_size child_size kcs.*1).
  f_equal. unfold child_bytes, child_size. rewrite !zlen_app, !zlen_to_le_bytes. lia.
Qed.

Lemma read_entries_spec p stop es cursor rest :
  Forall (λ e, short e.1 ∧ short e.2) es → unread p stop cursor (concat (entry_bytes <$> es) ++ rest) →
  read_entries p cursor stop (length es) = Ok (es, cursor + sum_size entry_size es).
Proof.
  intros Hs. revert cursor. induction Hs as [|[k v] es [Hk Hv] Hs IH]; intros cursor Hu.
  { cbn. do 2 f_equal. lia. }
  rewrite fmap_cons in Hu. cbn [concat] in Hu. unfold entry_bytes at 1 in Hu. cbn [fst snd] in *.
  rewrite <- !app_assoc in Hu. pose proof (zlen_nonneg k). pose proof (zlen_nonneg v).
  apply unread_u16 in Hu as [H1 Hu]; [|done]. apply unread_u16 in Hu as [H2 Hu]; [|done].
  apply unread_bytes in Hu as [H3 Hu]. apply unread_bytes in Hu as [H4 Hu].
  cbn [read_entries length]. rewrite H1. cbn [mbind result_bind]. rewrite H2. cbn [mbind result_bind].
  rewrite H3. cbn [mbind result_bind]. rewrite H4. cbn [mbind result_bind]. rewrite (IH _ Hu).
  cbn [mbind result_bind sum_size foldr]. do 2 f_equal. unfold sum_size, entry_size at 2; cbn. lia.
Qed.

Lemma read_children_spec p stop kcs cursor rest :
  Forall (λ kc, short kc.1) kcs → Forall u64_ok kcs.*2 →
  unread p stop cursor (concat (child_bytes <$> kcs) ++ rest) →
  read_children p cursor stop (length kcs) = Ok (kcs, cursor + sum_size child_size kcs.*1).
Proof.
  intros Hs. revert cursor. induction Hs as [|[k c] kcs Hk Hs IH]; intros cursor Hc Hu.
  { cbn. do 2 f_equal. lia. }
  rewrite fmap_cons in Hu. cbn [concat] in Hu. unfold child_bytes at 1 in Hu. cbn [fst snd] in *.
  apply Forall_cons in Hc as [Hc1 Hc].
  rewrite <- !app_assoc in Hu. pose proof (zlen_nonneg k).
  apply unread_u16 in Hu as [H1 Hu]; [|done].
  apply unread_bytes in Hu as [H3 Hu]. apply unread_u64 in Hu as [H4 Hu]; [|done].
  cbn [read_children length]. rewrite H1. cbn [mbind result_bind].
  rewrite H3. cbn [mbind result_bind]. rewrite H4. cbn [mbind result_bind]. rewrite (IH _ Hc Hu).
  rewrite fmap_cons. cbn [mbind result_bind fst sum_size foldr]. do 2 f_equal. unfold sum_size, child_size at 2; cbn. lia.
Qed.

(** A write to the body of a page leaves its header alone. *)
Record same_header (p q : Page) : Prop := {
  sh_ok : page_ok q;
  sh_shape : page_shape q;
  sh_id : page_id q = page_id p;
  sh_kind : page_kind q = page_kind p
}.

Lemma put_body p off v :
  page_ok p → page_shape p → PAGE_HEADER_SIZE ≤ off → off + zlen v ≤ PAGE_SIZE → Forall byte_ok v →
  same_header p (put_bytes p off v).
Proof.
  intros Hp Hs Hoff Hend Hv. unfold PAGE_HEADER_SIZE in Hoff. pose proof (zlen_nonneg v).
  assert (page_ok (put_bytes p off v)) as Hq by (apply put_bytes_ok; done || lia).
  split; [done| |..].
  - apply put_bytes_shape; try done. lia.
  - unfold page_id, get_u64. rewrite get_put_other; done || (unfold PAGE_SIZE in *; lia).
  - unfold page_kind. pose proof Hp as [Hl _]. pose proof Hq as [Hl' _].
    rewrite !page_byte_get by (rewrite ?Hl, ?Hl'; done).
    rewrite get_put_other; done || (unfold PAGE_SIZE in *; lia).
Qed.

Lemma same_header_trans p q r : same_header p q → same_header q r → same_header p r.
Proof. intros [] []. split; congruence. Qed.

(** [set_layout] and [seal], the last steps of [encode_node]. *)
Lemma finish_page p lower count :
  page_ok p → page_shape p → PAGE_HEADER_SIZE ≤ lower ≤ PAGE_SIZE → 0 ≤ count ≤ u16_max →
  let q := seal (set_layout p lower PAGE_SIZE count) in
  page_valid q ∧ same_header p q ∧ get_u16 q 32 = lower ∧
  ∀ o n, PAGE_HEADER_SIZE ≤ o → 0 ≤ n → o + n ≤ PAGE_SIZE →
    bytes_get (page_bytes q) o n = bytes_get (page_bytes p) o n.
Proof.
  intros Hp Hs Hlo Hc q. unfold PAGE_HEADER_SIZE in *.
  pose proof (set_layout_ok p lower PAGE_SIZE count Hp) as Hl.
  assert (page_shape (set_layout p lower PAGE_SIZE count)) as Hls
    by (apply set_layout_shape; unfold PAGE_HEADER_SIZE; done || lia).
  pose proof (seal_valid _ Hl Hls) as Hv.
  assert (∀ o n, 0 ≤ o → 0 ≤ n → o + n ≤ PAGE_SIZE → o + n ≤ 32 ∨ 64 ≤ o →
    bytes_get (page_bytes q) o n = bytes_get (page_bytes p) o n) as Hg.
  { intros o n ? ? ? ?. unfold q. rewrite seal_get, set_layout_get; done || lia. }
  split_and!; [done| | |intros; apply Hg; done || lia].
  - split; [by apply Hv..|unfold page_id, get_u64; rewrite Hg; done || lia|].
    unfold page_kind. pose proof Hp as [Hl1 _]. destruct (valid_ok _ Hv) as [Hl2 _].
    rewrite (page_byte_get p), (page_byte_get q) by (unfold q; rewrite ?Hl1, ?Hl2; done). rewrite Hg; done || lia.
  - unfold get_u16, q. rewrite seal_get by (done || lia).
    change (get_u16 (set_layout p lower PAGE_SIZE count) 32 = lower).
    apply set_layout_fields; unfold PAGE_SIZE, u16_max in *; done || lia.
Qed.

Lemma node_put_u64_Ok p off v :
  page_ok p → 0 ≤ off → off + 8 ≤ PAGE_SIZE → node_put_u64 p off v = Ok (put_u64 p off v).
Proof. intros. apply write_range_Ok; rewrite ?zlen_to_le_bytes; done. Qed.
Lemma node_put_u16_Ok p off v :
  page_ok p → 0 ≤ off → off + 2 ≤ PAGE_SIZE → node_put_u16 p off v = Ok (put_u16 p off v).
Proof. intros. apply write_range_Ok; rewrite ?zlen_to_le_bytes; done. Qed.
Lemma node_get_u64_Ok p off :
  page_ok p → 0 ≤ off → off + 8 ≤ PAGE_SIZE → node_get_u64 p off = Ok (get_u64 p off).
Proof. intros. unfold node_get_u64. by rewrite bytes_range_Ok. Qed.
Lemma node_get_u16_Ok p off :
  page_ok p → 0 ≤ off → off + 2 ≤ PAGE_SIZE → node_get_u16 p off = Ok (get_u16 p off).
Proof. intros. unfold node_get_u16. by rewrite bytes_range_Ok. Qed.

Lemma page_id_option_raw id : link_ok id → page_id_option (page_id_raw id) = id.
Proof.
  destruct id as [id|]; [|done]. intros [? ?]. cbn. unfold page_id_option, NONE_PAGE in *.
  case_match; bool_prop; [lia|done].
Qed.

Lemma page_id_raw_ok id : link_ok id → u64_ok (page_id_raw id).
Proof. destruct id as [id|]; intros H; cbn in *; unfold id_ok, NONE_PAGE in *; ulia. Qed.

Lemma node_end_cases data :
  (NODE_DATA + zlen data ≤ PAGE_SIZE ∧ node_end data = Ok (NODE_DATA + zlen data))
  ∨ (PAGE_SIZE < NODE_DATA + zlen data ∧ node_end data = Err (KeyTooLarge (zlen data))).
Proof.
  unfold node_end, checked_add, PAGE_SIZE in *. pose proof (zlen_nonneg data).
  case_match; bool_prop; cbn [ok_or mbind result_bind]; unfold ensure.
  - case_match; bool_prop; [left|right]; split; done || lia.
  - right. split; [|done]. unfold NODE_DATA in *. ulia.
Qed.

Lemma checked_u16_Ok v field : 0 ≤ v ≤ u16_max → checked_u16 v field = Ok v.
Proof. intros. unfold checked_u16, u16_try_from. case_match; bool_prop; [done|lia]. Qed.

(** The body of a page after the writes of [encode_node]. *)
Record body_at (p : Page) (id : Z) (k : PageKind) (parent count : Z) (data : bytes) : Prop := {
  ba_ok : page_ok p;
  ba_shape : page_shape p;
  ba_id : page_id p = id;
  ba_kind : page_kind p = k;
  ba_parent : get_u64 p 64 = parent;
  ba_count : get_u16 p 88 = count;
  ba_data : bytes_get (page_bytes p) NODE_DATA (zlen data) = data
}.

Definition leaf_body (id a b c count : Z) (data : bytes) : Page :=
  put_bytes (put_u16 (put_u64 (put_u64 (put_u64 (page_new id BTreeLeaf) PAGE_HEADER_SIZE a)
    (PAGE_HEADER_SIZE + 8) b) (PAGE_HEADER_SIZE + 16) c) (PAGE_HEADER_SIZE + 24) count) NODE_DATA data.
Definition internal_body (id a count : Z) (data : bytes) : Page :=
  put_bytes (put_u16 (put_u64 (page_new id BTreeInternal) PAGE_HEADER_SIZE a)
    (PAGE_HEADER_SIZE + 24) count) NODE_DATA data.

Lemma put_u64_body p0 p off v :
  same_header p0 p → PAGE_HEADER_SIZE ≤ off → off + 8 ≤ PAGE_SIZE → same_header p0 (put_u64 p off v).
Proof.
  intros H ? ?. eapply same_header_trans; [done|]. destruct H.
  apply put_body; rewrite ?zlen_to_le_bytes; auto using to_le_bytes_ok.
Qed.
Lemma put_u16_body p0 p off v :
  same_header p0 p → PAGE_HEADER_SIZE ≤ off → off + 2 ≤ PAGE_SIZE → same_header p0 (put_u16 p off v).
Proof.
  intros H ? ?. eapply same_header_trans; [done|]. destruct H.
  apply put_body; rewrite ?zlen_to_le_bytes; auto using to_le_bytes_ok.
Qed.

Lemma page_new_body id k : id_ok id → same_header (page_new id k) (page_new id k)
  ∧ page_id (page_new id k) = id ∧ page_kind (page_new id k) = k.
Proof.
  intros Hid. destruct (page_new_valid id k) as ([Hok Hs _] & ? & _ & ?); [unfold id_ok, NONE_PAGE in *; ulia|].
  split; [by split|done].
Qed.

Section Body.
Context (id a b c count : Z) (data : bytes).
Context (Hid : id_ok id) (Ha : u64_ok a) (Hb : u64_ok b) (Hc : u64_ok c) (Hn : 0 ≤ count ≤ u16_max)
  (Hdata : Forall byte_ok data) (Hend : 96 + zlen data ≤ PAGE_SIZE).

Lemma leaf_body_spec :
  body_at (leaf_body id a b c count data) id BTreeLeaf a count data
  ∧ get_u64 (leaf_body id a b c count data) 72 = b ∧ get_u64 (leaf_body id a b c count data) 80 = c.
Proof.
  destruct (page_new_body id BTreeLeaf Hid) as (H0 & Hi & Hk). unfold leaf_body.
  change (PAGE_HEADER_SIZE + 8) with 72. change (PAGE_HEADER_SIZE + 16) with 80.
  change (PAGE_HEADER_SIZE + 24) with 88. change PAGE_HEADER_SIZE with 64. change NODE_DATA with 96.
  set (p0 := page_new id BTreeLeaf) in *.
  assert (same_header p0 (put_u64 p0 64 a)) as H1 by by apply put_u64_body.
  set (p1 := put_u64 p0 64 a) in *.
  assert (same_header p0 (put_u64 p1 72 b)) as H2 by by apply put_u64_body.
  set (p2 := put_u64 p1 72 b) in *.
  assert (same_header p0 (put_u64 p2 80 c)) as H3 by by apply put_u64_body.
  set (p3 := put_u64 p2 80 c) in *.
  assert (same_header p0 (put_u16 p3 88 count)) as H4 by by apply put_u16_body.
  set (p4 := put_u16 p3 88 count) in *.
  assert (same_header p0 (put_bytes p4 96 data)) as H5.
  { eapply same_header_trans; [exact H4|]. destruct H4. by apply put_body. }
  pose proof (sh_ok _ _ H0). pose proof (sh_ok _ _ H1). pose proof (sh_ok _ _ H2).
  pose proof (sh_ok _ _ H3). pose proof (sh_ok _ _ H4). pose proof (zlen_nonneg data).
  split_and!.
  - destruct H5 as [H5 Hs5 Hi5 Hk5]. split; [done|done|congruence|congruence| | |].
    + unfold get_u64. rewrite get_put_other by page_side.
      unfold p4, p3, p2, put_u64 at 1 2, put_u16. rewrite !get_put_other by page_side.
      by apply get_u64_put_u64.
    + unfold get_u16. rewrite get_put_other by page_side. by apply get_u16_put_u16.
    + by apply get_put_same.
  - unfold get_u64. rewrite get_put_other by page_side.
    unfold p4, p3, put_u64 at 1, put_u16. rewrite !get_put_other by page_side. by apply get_u64_put_u64.
  - unfold get_u64. rewrite get_put_other by page_side.
    unfold p4, put_u16. rewrite get_put_other by page_side. by apply get_u64_put_u64.
Qed.

Lemma internal_body_spec : body_at (internal_body id a count data) id BTreeInternal a count data.
Proof.
  destruct (page_new_body id BTreeInternal Hid) as (H0 & Hi & Hk). unfold internal_body.
  change (PAGE_HEADER_SIZE + 24) with 88. change PAGE_HEADER_SIZE with 64. change NODE_DATA with 96.
  set (p0 := page_new id BTreeInternal) in *.
  assert (same_header p0 (put_u64 p0 64 a)) as H1 by by apply put_u64_body.
  set (p1 := put_u64 p0 64 a) in *.
  assert (same_header p0 (put_u16 p1 88 count)) as H4 by by apply put_u16_body.
  set (p4 := put_u16 p1 88 count) in *.
  assert (same_header p0 (put_bytes p4 96 data)) as H5.
  { eapply same_header_trans; [exact H4|]. destruct H4. by apply put_body. }
  pose proof (sh_ok _ _ H0). pose proof (sh_ok _ _ H1). pose proof (sh_ok _ _ H4). pose proof (zlen_nonneg data).
  destruct H5 as [H5 Hs5 Hi5 Hk5]. split; [done|done|congruence|congruence| | |].
  - unfold get_u64. rewrite get_put_other by page_side.
    unfold p4, put_u16. rewrite get_put_other by page_side. by apply get_u64_put_u64.
  - unfold get_u16. rewrite get_put_other by page_side. by apply get_u16_put_u16.
  - by apply get_put_same.
Qed.
End Body.

(** [finish_page] keeps the body and sets the end of the data. *)
Lemma finish_body p id k parent count data :
  body_at p id k parent count data → 0 ≤ count ≤ u16_max → NODE_DATA + zlen data ≤ PAGE_SIZE →
  let q := seal (set_layout p (NODE_DATA + zlen data) PAGE_SIZE count) in
  body_at q id k parent count data ∧ page_valid q
  ∧ unread q (NODE_DATA + zlen data) NODE_DATA data
  ∧ h_lower (page_header q) = NODE_DATA + zlen data ∧ page_validate q = Ok tt
  ∧ (∀ o, PAGE_HEADER_SIZE ≤ o → o + 8 ≤ PAGE_SIZE → get_u64 q o = get_u64 p o).
Proof.
  intros [Hok Hs Hi Hk Hp Hc Hd] Hn Hend q. pose proof (zlen_nonneg data).
  destruct (finish_page p (NODE_DATA + zlen data) count) as (Hv & [_ Hqs Hqi Hqk] & Hlo & Hg);
    [done|done|unfold PAGE_HEADER_SIZE, NODE_DATA in *; lia|done|]. fold q in Hv, Hqs, Hqi, Hqk, Hlo, Hg.
  assert (bytes_get (page_bytes q) NODE_DATA (zlen data) = data) as Hqd.
  { rewrite Hg; [done|done|done|done]. }
  split_and!; [|done|..].
  - split; [by apply Hv|by apply Hv|congruence|congruence| | |done].
    + unfold get_u64. rewrite Hg; done.
    + unfold get_u16. rewrite Hg; done.
  - split; [by apply Hv|]. split_and!; done.
  - done.
  - apply page_validate_spec. split; apply Hv.
  - intros o ? ?. unfold get_u64. rewrite Hg; done || lia.
Qed.

Lemma node_bounds (data : bytes) :
  NODE_DATA + zlen data ≤ PAGE_SIZE →
  (NODE_DATA <=? NODE_DATA + zlen data) && (NODE_DATA + zlen data <=? PAGE_SIZE) = true.
Proof. intros. pose proof (zlen_nonneg data). rewrite !(proj2 (Z.leb_le _ _)) by lia. done. Qed.

Lemma encode_leaf_Ok id parent previous next es :
  id_ok id → Forall (λ e, short e.1 ∧ short e.2) es →
  mapM_result encode_entry es = Ok (entry_bytes <$> es) → sum_size entry_size es ≤ NODE_CAP →
  let data := concat (entry_bytes <$> es) in
  encode_leaf id parent previous next es =
    Ok (seal (set_layout
      (leaf_body id (page_id_raw parent) (page_id_raw previous) (page_id_raw next) (zlen es) data)
      (NODE_DATA + zlen data) PAGE_SIZE (zlen es))).
Proof.
  intros Hid Hs Hparts Hfit data. pose proof (sum_entries_pos es). pose proof (zlen_nonneg es).
  pose proof (zlen_entries es) as Hlen. fold data in Hlen. unfold NODE_CAP in Hfit.
  unfold encode_leaf. rewrite Hparts. cbn [mbind result_bind]. fold data.
  destruct (node_end_cases data) as [[Hend ->]|[Hend _]]; cbn [mbind result_bind]; [|lia].
  assert (0 ≤ zlen es ≤ u16_max) as Hcount by (unfold PAGE_SIZE, NODE_DATA, u16_max in *; lia).
  assert (page_ok (page_new id BTreeLeaf)) as Hnew by apply (page_new_body id BTreeLeaf Hid).
  rewrite !node_put_u64_Ok by page_side. cbn [mbind result_bind].
  rewrite !node_put_u64_Ok by page_side. cbn [mbind result_bind].
  rewrite !node_put_u64_Ok by page_side. cbn [mbind result_bind].
  rewrite (checked_u16_Ok (zlen es)) by done. cbn [mbind result_bind].
  rewrite node_put_u16_Ok by page_side. cbn [mbind result_bind].
  rewrite write_range_Ok by page_side. cbn [mbind result_bind].
  rewrite checked_u16_Ok; [reflexivity|]. pose proof (zlen_nonneg data). unfold NODE_DATA, PAGE_SIZE, u16_max in *. lia.
Qed.

Lemma Forall_entry_bytes es : Forall entry_ok es → Forall byte_ok (concat (entry_bytes <$> es)).
Proof.
  induction 1 as [|e es [Hk Hv] _ IH]; [constructor|]. rewrite fmap_cons. cbn [concat].
  unfold entry_bytes at 1. rewrite !Forall_app. auto using to_le_bytes_ok.
Qed.

Lemma Forall_child_bytes kcs : Forall (Forall byte_ok) kcs.*1 → Forall byte_ok (concat (child_bytes <$> kcs)).
Proof.
  induction kcs as [|kc kcs IH]; [constructor|]. rewrite !fmap_cons. intros [Hk H]%Forall_cons. cbn [concat].
  unfold child_bytes at 1. rewrite !Forall_app. auto using to_le_bytes_ok.
Qed.

Lemma leaf_roundtrip id parent previous next es :
  node_ok (Leaf id parent previous next es) → sum_size entry_size es ≤ NODE_CAP →
  ∃ p, encode_leaf id parent previous next es = Ok p ∧ page_valid p ∧ page_id p = id
    ∧ decode_node p = Ok (Leaf id parent previous next es).
Proof.
  intros (Hid & Hpa & Hpr & Hne & Hes & Hord) Hfit. cbn [node_id node_parent] in *.
  pose proof (sum_entries_pos es). pose proof (zlen_nonneg es). pose proof (zlen_entries es) as Hlen.
  destruct (encode_entries es) as [[Hparts Hs]|[Hbig _]];
    [|unfold NODE_CAP, PAGE_SIZE, NODE_DATA, u16_max in *; lia].
  rewrite encode_leaf_Ok by done. cbn zeta. pose proof (Forall_entry_bytes es Hes) as Hdata.
  set (data := concat (entry_bytes <$> es)) in *.
  assert (NODE_DATA + zlen data ≤ PAGE_SIZE) as Hend by (unfold NODE_CAP in *; lia).
  assert (0 ≤ zlen es ≤ u16_max) as Hcount by (unfold NODE_CAP, PAGE_SIZE, NODE_DATA, u16_max in *; lia).
  destruct (leaf_body_spec id (page_id_raw parent) (page_id_raw previous) (page_id_raw next) (zlen es) data)
    as (Hb & Hb1 & Hb2); auto using page_id_raw_ok.
  destruct (finish_body _ _ _ _ _ _ Hb Hcount Hend) as ([Hok _ Hi Hk Hp Hc Hd] & Hv & Hu & Hlo & Hval & Hw).
  set (q := seal _) in *. rewrite <- (Hw 72) in Hb1 by done. rewrite <- (Hw 80) in Hb2 by done.
  exists q. split_and!; [done|done|done|]. unfold decode_node. rewrite Hval, Hlo, node_bounds by done.
  cbn [mbind result_bind ensure]. rewrite !node_get_u64_Ok, node_get_u16_Ok by done.
  rewrite Hk, Hi. cbn [mbind result_bind].
  change (PAGE_HEADER_SIZE + 8) with 72. change (PAGE_HEADER_SIZE + 16) with 80.
  change (PAGE_HEADER_SIZE + 24) with 88. change PAGE_HEADER_SIZE with 64.
  rewrite Hb1, Hb2, Hp, Hc. replace (Z.to_nat (zlen es)) with (length es) by (unfold zlen; lia).
  rewrite (read_entries_spec _ _ es NODE_DATA []) by (rewrite ?app_nil_r; done).
  cbn [mbind result_bind]. rewrite Hord, <- Hlen, Z.eqb_refl. cbn [mbind result_bind ensure andb negb].
  by rewrite !page_id_option_raw.
Qed.

Lemma encode_internal_data id parent keys first rest data :
  (zlen (first :: rest) =? zlen keys + 1) = true →
  mapM_result encode_child (zip keys rest) = Ok (child_bytes <$> zip keys rest) →
  to_le_bytes 8 first ++ concat (child_bytes <$> zip keys rest) = data →
  encode_internal id parent keys (first :: rest) =
    (stop ← node_end data;
     page ← node_put_u64 (page_new id BTreeInternal) PAGE_HEADER_SIZE (page_id_raw parent);
     key_count ← checked_u16 (zlen keys) "B+ internal key count";
     page ← node_put_u16 page (PAGE_HEADER_SIZE + 24) key_count;
     page ← write_range page NODE_DATA data;
     lower ← checked_u16 stop "B+ internal data end";
     Ok (seal (set_layout page lower PAGE_SIZE key_count))).
Proof.
  intros Har Hparts <-. unfold encode_internal.
  by rewrite Har, ensure_true, Ok_bind, Hparts, Ok_bind.
Qed.

Lemma encode_internal_Ok id parent keys first rest :
  id_ok id → length keys = length rest →
  mapM_result encode_child (zip keys rest) = Ok (child_bytes <$> zip keys rest) →
  8 + sum_size child_size keys ≤ NODE_CAP →
  let data := to_le_bytes 8 first ++ concat (child_bytes <$> zip keys rest) in
  encode_internal id parent keys (first :: rest) =
    Ok (seal (set_layout (internal_body id (page_id_raw parent) (zlen keys) data)
      (NODE_DATA + zlen data) PAGE_SIZE (zlen keys))).
Proof.
  intros Hid Harity Hparts Hfit data. pose proof (sum_keys_pos keys). pose proof (zlen_nonneg keys).
  assert (zlen data = 8 + sum_size child_size keys) as Hlen.
  { unfold data. rewrite zlen_app, zlen_to_le_bytes, zlen_children, fst_zip by lia. lia. }
  assert ((zlen (first :: rest) =? zlen keys + 1) = true) as Har by (rewrite zlen_cons; unfold zlen; lia).
  rewrite (encode_internal_data _ _ _ _ _ data Har Hparts eq_refl). clearbody data. clear Hparts Har.
  unfold NODE_CAP in Hfit.
  destruct (node_end_cases data) as [[Hend ->]|[Hend _]]; rewrite ?Ok_bind; [|lia].
  assert (0 ≤ zlen keys ≤ u16_max) as Hcount by (unfold PAGE_SIZE, NODE_DATA, u16_max in *; lia).
  assert (page_ok (page_new id BTreeInternal)) as Hnew by apply (page_new_body id BTreeInternal Hid).
  rewrite node_put_u64_Ok, Ok_bind by page_side.
  rewrite (checked_u16_Ok (zlen keys)), Ok_bind by done.
  rewrite node_put_u16_Ok, Ok_bind by page_side.
  rewrite write_range_Ok, Ok_bind by page_side.
  rewrite checked_u16_Ok; [reflexivity|]. pose proof (zlen_nonneg data). unfold NODE_DATA, PAGE_SIZE, u16_max in *. lia.
Qed.

Lemma id_ok_u64 id : id_ok id → u64_ok id.
Proof. unfold id_ok, NONE_PAGE. ulia. Qed.

Lemma internal_roundtrip id parent keys children :
  node_ok (Internal id parent keys children) → 8 + sum_size child_size keys ≤ NODE_CAP →
  ∃ p, encode_internal id parent keys children = Ok p ∧ page_valid p ∧ page_id p = id
    ∧ decode_node p = Ok (Internal id parent keys children).
Proof.
  intros (Hid & Hpa & Harity & Hch & Hkeys & Hord) Hfit. cbn [node_id node_parent] in *.
  destruct children as [|first rest]; [done|]. cbn [length] in Harity. injection Harity as Harity.
  apply Forall_cons in Hch as [Hf Hch]. pose proof (sum_keys_pos keys). pose proof (zlen_nonneg keys).
  assert ((zip keys rest).*1 = keys) as Hz1 by (apply fst_zip; lia).
  assert ((zip keys rest).*2 = rest) as Hz2 by (apply snd_zip; lia).
  destruct (encode_children (zip keys rest)) as [[Hparts Hs]|[Hbig _]];
    [|rewrite Hz1 in Hbig; unfold NODE_CAP, PAGE_SIZE, NODE_DATA, u16_max in *; lia].
  rewrite encode_internal_Ok by done. cbn zeta.
  pose proof (Forall_child_bytes (zip keys rest)) as Hdata. rewrite Hz1 in Hdata. specialize (Hdata Hkeys).
  set (tl := concat (child_bytes <$> zip keys rest)) in *.
  assert (zlen (to_le_bytes 8 first ++ tl) = 8 + sum_size child_size keys) as Hlen.
  { unfold tl. by rewrite zlen_app, zlen_to_le_bytes, zlen_children, Hz1. }
  assert (Forall byte_ok (to_le_bytes 8 first ++ tl)) as Hdata' by (apply Forall_app; auto using to_le_bytes_ok).
  set (data := to_le_bytes 8 first ++ tl) in *.
  assert (NODE_DATA + zlen data ≤ PAGE_SIZE) as Hend by (unfold NODE_CAP in *; lia).
  assert (0 ≤ zlen keys ≤ u16_max) as Hcount by (unfold NODE_CAP, PAGE_SIZE, NODE_DATA, u16_max in *; lia).
  destruct (finish_body _ _ _ _ _ _ (internal_body_spec id (page_id_raw parent) (zlen keys) data Hid
    (page_id_raw_ok _ Hpa) Hcount Hdata' Hend) Hcount Hend)
    as ([Hok _ Hi Hk Hp Hc Hd] & Hv & Hu & Hlo & Hval & Hw).
  set (q := seal _) in *.
  exists q. split_and!; [done|done|done|]. unfold decode_node. rewrite Hval, Hlo, node_bounds by done.
  cbn [mbind result_bind ensure]. rewrite !node_get_u64_Ok, node_get_u16_Ok by done.
  rewrite Hk, Hi. cbn [mbind result_bind].
  change (PAGE_HEADER_SIZE + 24) with 88. change PAGE_HEADER_SIZE with 64.
  rewrite Hp, Hc. replace (Z.to_nat (zlen keys)) with (length (zip keys rest))
    by (unfold zlen; rewrite length_zip; lia).
  destruct (unread_u64 q (NODE_DATA + zlen data) NODE_DATA first tl) as [-> Hu']; [done|by apply id_ok_u64|].
  cbn [mbind result_bind]. rewrite (read_children_spec _ _ (zip keys rest) (NODE_DATA + 8) []);
    rewrite ?app_nil_r, ?Hz2; [|done|eapply Forall_impl; [done|apply id_ok_u64]|done].
  cbn [mbind result_bind]. rewrite Hz1, Hord, (proj2 (Z.eqb_eq _ _)) by lia.
  cbn [mbind result_bind ensure andb negb]. by rewrite page_id_option_raw, Hz2.
Qed.

(** A node larger than a page is refused. *)
Lemma encode_node_large n : node_ok n → NODE_CAP < node_size n → ∃ b, encode_node n = Err (KeyTooLarge b).
Proof.
  unfold NODE_CAP. destruct n as [id parent previous next es|id parent keys [|first rest]]; cbn [encode_node node_size].
  - intros _ Hbig. unfold encode_leaf. destruct (encode_entries es) as [[-> _]|[_ [b ->]]]; [|by exists b].
    rewrite Ok_bind. destruct (node_end_cases (concat (entry_bytes <$> es))) as [[Hend _]|[_ ->]]; [|by eexists].
    rewrite zlen_entries in Hend. lia.
  - by intros (_ & _ & [=] & _).
  - intros (_ & _ & [= Har] & _) Hbig.
    assert ((zlen (first :: rest) =? zlen keys + 1) = true) as Har' by (rewrite zlen_cons; unfold zlen; lia).
    destruct (encode_children (zip keys rest)) as [[Hparts _]|[_ [b Hb]]].
    + rewrite (encode_internal_data _ _ _ _ _ _ Har' Hparts eq_refl).
      match goal with |- context [node_end ?d] => destruct (node_end_cases d) as [[Hend _]|[_ ->]]; [|by eexists] end.
      rewrite zlen_app, zlen_to_le_bytes, zlen_children, fst_zip in Hend by lia. lia.
    + exists b. unfold encode_internal. by rewrite Har', ensure_true, Ok_bind, Hb.
Qed.

Lemma encode_node_fits n :
  node_ok n → node_size n ≤ NODE_CAP →
  ∃ p, encode_node n = Ok p ∧ page_valid p ∧ page_id p = node_id n ∧ decode_node p = Ok n.
Proof.
  destruct n as [id parent previous next es|id parent keys children];
    [apply leaf_roundtrip|apply internal_roundtrip].
Qed.

(** A node whose entries fit the page is written to a valid page that reads
    back as the same node; a node that does not fit is refused with
    [KeyTooLarge] and nothing else. *)
Theorem node_codec_roundtrip n :
  node_ok n →
  if decide (node_size n ≤ NODE_CAP)
  then ∃ p, encode_node n = Ok p ∧ page_valid p ∧ page_id p = node_id n ∧ decode_node p = Ok n
  else ∃ b, encode_node n = Err (KeyTooLarge b).
Proof.
  intros Hn. case_decide; [by apply encode_node_fits|]. apply encode_node_large; [done|lia].
Qed.

Lemma node_codec_roundtrip_witness :
  ∃ p, encode_node (Leaf 7 (Some 3) None (Some 9) [([1; 2], [5]); ([2], [8; 8])]) = Ok p
    ∧ decode_node p = Ok (Leaf 7 (Some 3) None (Some 9) [([1; 2], [5]); ([2], [8; 8])]).
Proof.
  pose proof (node_codec_roundtrip (Leaf 7 (Some 3) None (Some 9) [([1; 2], [5]); ([2], [8; 8])])) as H.
  rewrite decide_True in H by (vm_compute; congruence).
  destruct H as (p & He & _ & _ & Hd).
  { repeat split; try (vm_compute; congruence); try done;
      repeat (constructor; cbn); unfold byte_ok; lia. }
  by exists p.
Defined.
