(* ===== verification/StorageHeap.v ===== *)
(** * Slotted heap pages: [crates/aster-storage/src/heap.rs]

    A heap page is a page whose payload starts with a directory of 8-byte slots
    and ends with the bodies of the records.  [HeapPage] has the page as its
    only field, so a method on [&mut self] is an operation on a [Page]; what it
    changed before an error stays changed. *)

From S2P Require Import Prelude StorageBytes StoragePage StorageIo BtreeNode.

Definition SLOT_SIZE : Z := 8.
Definition SLOT_LIVE : Z := 1.

Record RecordId : Type := mkRecordId {
  rid_page_id : Z;
  rid_slot_id : Z;
  rid_generation : Z
}.

#[export] Instance RecordId_eq_dec : EqDecision RecordId.
Proof. solve_decision. Defined.

Record Slot : Type := mkSlot {
  s_offset : Z;
  s_length : Z;
  s_flags : Z;
  s_generation : Z
}.

Definition slot_live (s : Slot) : bool := negb (Z.land (s_flags s) SLOT_LIVE =? 0).

(** [{ flags: 0, ..slot }] and the like. *)
Definition with_flags (s : Slot) (flags : Z) : Slot := mkSlot (s_offset s) (s_length s) flags (s_generation s).
Definition with_length (s : Slot) (length : Z) : Slot := mkSlot (s_offset s) length (s_flags s) (s_generation s).
Definition with_offset (s : Slot) (offset : Z) : Slot := mkSlot offset (s_length s) (s_flags s) (s_generation s).

(** The [Debug] text of a record identifier. *)
Definition RecordId_debug (rid : RecordId) : string :=
  "RecordId { page_id: PageId(" +:+ pretty (rid_page_id rid) +:+ "), slot_id: " +:+ pretty (rid_slot_id rid)
  +:+ ", generation: " +:+ pretty (rid_generation rid) +:+ " }".

(** ** The directory *)

Definition slot_count (h : Page) : Z := h_slot_count (page_header h).

Definition slot_offset (slot_id : Z) : Z := PAGE_HEADER_SIZE + slot_id * SLOT_SIZE.

Definition read_slot (h : Page) (slot_id : Z) : sresult Slot :=
  _ ← ensure (negb (slot_count h <=? slot_id)) (SNotFound ("heap slot " +:+ pretty slot_id));
  bytes ← bytes_range h (slot_offset slot_id) SLOT_SIZE;
  Ok (mkSlot (from_le_bytes (bytes_get bytes 0 2)) (from_le_bytes (bytes_get bytes 2 2))
             (from_le_bytes (bytes_get bytes 4 2)) (from_le_bytes (bytes_get bytes 6 2))).

Definition slot_bytes (s : Slot) : bytes :=
  to_le_bytes 2 (s_offset s) ++ to_le_bytes 2 (s_length s) ++ to_le_bytes 2 (s_flags s)
  ++ to_le_bytes 2 (s_generation s).

(** [bytes_range_mut(start, v.len())?.copy_from_slice(v)] on the page of the
    heap. *)
Definition heap_write (start : Z) (v : bytes) : io Page unit := λ h,
  match write_range h start v with
  | Ok h' => (Ok tt, h')
  | Err e => (Err e, h)
  end.

Definition write_slot (slot_id : Z) (s : Slot) : io Page unit :=
  heap_write (slot_offset slot_id) (slot_bytes s).

Definition heap_page : io Page Page := λ h, (Ok h, h).
Definition heap_set_layout (lower upper slot_count : Z) : io Page unit := λ h,
  (Ok tt, set_layout h lower upper slot_count).
Definition heap_seal : io Page unit := λ h, (Ok tt, seal h).

(** ** Queries *)

Definition heap_new (page_id : Z) : Page := page_new page_id Heap.

Definition is_dead (h : Page) (slot_id : Z) : bool :=
  match read_slot h slot_id with Ok s => negb (slot_live s) | Err _ => false end.
Definition is_live (h : Page) (slot_id : Z) : bool :=
  match read_slot h slot_id with Ok s => slot_live s | Err _ => false end.

Definition slot_ids (h : Page) : list Z := seqZ 0 (slot_count h).

Definition live_count (h : Page) : Z := zlen (List.filter (is_live h) (slot_ids h)).

Definition contiguous_free_bytes (h : Page) : Z :=
  let header := page_header h in saturating_sub (h_upper header) (h_lower header).

Definition reclaimable_bytes (h : Page) : Z :=
  foldr (λ i n, match read_slot h i with
                | Ok s => if slot_live s then n else s_length s + n
                | Err _ => n
                end) 0 (slot_ids h).

Definition check_rid (h : Page) (rid : RecordId) : sresult unit :=
  _ ← ensure (negb (negb (rid_page_id rid =? page_id h) || (slot_count h <=? rid_slot_id rid)))
        (SNotFound ("record " +:+ RecordId_debug rid));
  s ← read_slot h (rid_slot_id rid);
  ensure (negb (negb (slot_live s) || negb (s_generation s =? rid_generation rid)))
    (SNotFound ("stale record " +:+ RecordId_debug rid)).

Definition heap_get (h : Page) (rid : RecordId) : sresult bytes :=
  _ ← check_rid h rid;
  s ← read_slot h (rid_slot_id rid);
  bytes_range h (s_offset s) (s_length s).

(** ** Compaction *)

(** The first loop: every slot, and the live ones with their bodies. *)
Definition compact_read (h : Page) (acc : list Slot * list (Z * Slot * bytes)) (slot_id : Z) :
    sresult (list Slot * list (Z * Slot * bytes)) :=
  let '(slots, records) := acc in
  s ← read_slot h slot_id;
  if slot_live s then
    record ← bytes_range h (s_offset s) (s_length s);
    Ok (slots ++ [s], records ++ [(slot_id, s, record)])
  else Ok (slots ++ [s], records).

(** The second loop, over [slots.into_iter().enumerate()]. *)
Definition compact_slot (e : Z * Slot) : io Page unit :=
  slot_id ← io_lift (checked_u16 e.1 "heap slot id");
  write_slot slot_id e.2.

(** The third loop; [upper -= record.len()] wraps. *)
Definition compact_body (upper : Z) (r : Z * Slot * bytes) : io Page Z :=
  let '(slot_id, s, record) := r in
  let upper := wrapping_sub upper (zlen record) in
  _ ← heap_write upper record;
  offset ← io_lift (checked_u16 upper "compacted heap record offset");
  _ ← write_slot slot_id (with_offset s offset);
  mret upper.

Definition compact : io Page unit :=
  h ← heap_page;
  let count := slot_count h in
  '(slots, records) ← io_lift (foldM (compact_read h) ([], []) (seqZ 0 count));
  _ ← heap_write PAGE_HEADER_SIZE (zeros (PAGE_SIZE - PAGE_HEADER_SIZE));
  _ ← io_foldM (λ _, compact_slot) tt (zip (seqZ 0 (zlen slots)) slots);
  upper ← io_foldM compact_body PAGE_SIZE records;
  let lower := PAGE_HEADER_SIZE + count * SLOT_SIZE in
  lower ← io_lift (checked_u16 lower "heap lower bound");
  upper ← io_lift (checked_u16 upper "heap upper bound");
  _ ← heap_set_layout lower upper count;
  heap_seal.

(** ** Insertion *)

(** Slot, generation, slot count and end of the directory for the new record. *)
Definition insert_slot (h : Page) (header : PageHeader) (reusable : option Z) : sresult (Z * Z * Z * Z) :=
  match reusable with
  | Some slot_id =>
      old ← read_slot h slot_id;
      Ok (slot_id, Z.max ((s_generation old + 1) mod (u16_max + 1)) 1, h_slot_count header, h_lower header)
  | None =>
      count ← ok_or (u16_try_from (h_slot_count header + 1)) (InvalidPage "heap slot identifier overflow");
      lower ← checked_u16 (PAGE_HEADER_SIZE + count * SLOT_SIZE) "heap slot-directory end";
      Ok (h_slot_count header, 1, count, lower)
  end.

Definition heap_insert (record : bytes) : io Page RecordId :=
  h ← heap_page;
  _ ← io_ensure (negb (is_empty record || (u16_max <? zlen record)))
        (RecordTooLarge (zlen record) (contiguous_free_bytes h));
  let reusable := List.find (is_dead h) (slot_ids h) in
  let slot_overhead := match reusable with Some _ => 0 | None => SLOT_SIZE end in
  _ ← (if contiguous_free_bytes h <? zlen record + slot_overhead then compact else mret tt);
  h ← heap_page;
  let available := contiguous_free_bytes h in
  _ ← io_ensure (negb (available <? zlen record + slot_overhead))
        (RecordTooLarge (zlen record + slot_overhead) available);
  let header := page_header h in
  let offset := wrapping_sub (h_upper header) (zlen record) in
  _ ← heap_write offset record;
  upper ← io_lift (checked_u16 offset "heap record offset");
  h ← heap_page;
  '(slot_id, generation, count, lower) ← io_lift (insert_slot h header reusable);
  offset ← io_lift (checked_u16 offset "heap record offset");
  length ← io_lift (checked_u16 (zlen record) "heap record length");
  _ ← write_slot slot_id (mkSlot offset length SLOT_LIVE generation);
  _ ← heap_set_layout lower upper count;
  _ ← heap_seal;
  h ← heap_page;
  mret (mkRecordId (page_id h) slot_id generation).

(** ** Update and deletion *)

Definition update_in_place (rid : RecordId) (record : bytes) : io Page unit :=
  h ← heap_page;
  _ ← io_lift (check_rid h rid);
  old ← io_lift (heap_get h rid);
  s ← io_lift (read_slot h (rid_slot_id rid));
  if zlen record <=? zlen old then
    _ ← heap_write (s_offset s) (zeros (zlen old));
    _ ← heap_write (s_offset s) record;
    length ← io_lift (checked_u16 (zlen record) "heap record length");
    _ ← write_slot (rid_slot_id rid) (with_length s length);
    heap_seal
  else
    _ ← write_slot (rid_slot_id rid) (with_flags s 0);
    _ ← compact;
    h ← heap_page;
    _ ← io_ensure (negb (contiguous_free_bytes h <? zlen record))
          (RecordTooLarge (zlen record) (contiguous_free_bytes h));
    let header := page_header h in
    let offset := wrapping_sub (h_upper header) (zlen record) in
    _ ← heap_write offset record;
    upper ← io_lift (checked_u16 offset "heap record offset");
    offset ← io_lift (checked_u16 offset "heap record offset");
    length ← io_lift (checked_u16 (zlen record) "heap record length");
    _ ← write_slot (rid_slot_id rid) (mkSlot offset length SLOT_LIVE (rid_generation rid));
    _ ← heap_set_layout (h_lower header) upper (h_slot_count header);
    heap_seal.

(** [update] works on a copy and replaces the page when it succeeds. *)
Definition heap_update (rid : RecordId) (record : bytes) : io Page unit := λ h,
  match update_in_place rid record h with
  | (Ok _, staged) => (Ok tt, staged)
  | (Err e, _) => (Err e, h)
  end.

Definition heap_delete (rid : RecordId) : io Page bool :=
  h ← heap_page;
  _ ← io_lift (check_rid h rid);
  s ← io_lift (read_slot h (rid_slot_id rid));
  _ ← write_slot (rid_slot_id rid) (with_flags s 0);
  _ ← heap_seal;
  mret true.

(** ** Validation *)

Definition triple_cmp (x y : Z * Z * Z) : comparison :=
  let '(a, b, c) := x in let '(a', b', c') := y in
  match Z.compare a a' with
  | Eq => match Z.compare b b' with Eq => Z.compare c c' | o => o end
  | o => o
  end.

(** One turn of the first loop of [validate]. *)
Definition validate_slot (h : Page) (header : PageHeader) (intervals : list (Z * Z * Z)) (slot_id : Z) :
    sresult (list (Z * Z * Z)) :=
  s ← read_slot h slot_id;
  if slot_live s then
    _ ← ensure (negb (s_length s =? 0)) (InvalidPage ("live heap slot " +:+ pretty slot_id +:+ " is empty"));
    let start := s_offset s in
    let stop := start + s_length s in
    _ ← ensure (negb ((start <? h_upper header) || (PAGE_SIZE <? stop)))
          (InvalidPage ("heap slot " +:+ pretty slot_id +:+ " has out-of-bounds body "
                        +:+ pretty start +:+ ".." +:+ pretty stop));
    Ok (intervals ++ [(start, stop, slot_id)])
  else Ok intervals.

(** The loop over [intervals.windows(2)]. *)
Fixpoint check_windows (intervals : list (Z * Z * Z)) : sresult unit :=
  match intervals with
  | (_, stop, i) :: (((start, _, j) :: _) as rest) =>
      _ ← ensure (negb (start <? stop))
            (InvalidPage ("heap slots " +:+ pretty i +:+ " and " +:+ pretty j +:+ " overlap"));
      check_windows rest
  | _ => Ok tt
  end.

Definition heap_validate (h : Page) : sresult unit :=
  _ ← page_validate h;
  let header := page_header h in
  let expected_lower := PAGE_HEADER_SIZE + h_slot_count header * SLOT_SIZE in
  _ ← ensure (negb (negb (h_lower header =? expected_lower) || (PAGE_SIZE <? expected_lower)))
        (InvalidPage ("heap slot directory ends at " +:+ pretty expected_lower
                      +:+ ", header says " +:+ pretty (h_lower header)));
  intervals ← foldM (validate_slot h header) [] (seqZ 0 (h_slot_count header));
  check_windows (sort_by triple_cmp intervals).

Definition from_page (page : Page) : sresult Page :=
  _ ← ensure (bool_decide (page_kind page = Heap))
        (InvalidPage ("expected heap page, found " +:+ PageKind_debug (page_kind page)));
  _ ← heap_validate page;
  Ok page.

Definition into_page (h : Page) : Page := seal h.

(** The test of the source: slots survive compaction, stale identifiers are
    detected. *)
Definition heap_demo : sresult (RecordId * RecordId * RecordId * RecordId) * Page :=
  (a ← heap_insert (replicate 900 1);
   b ← heap_insert (replicate 700 2);
   c ← heap_insert (replicate 800 3);
   _ ← heap_delete b;
   _ ← compact;
   d ← heap_insert [7; 8; 9];
   mret (a, b, c, d)) (heap_new 7).

Example heap_demo_run :
  match heap_demo with
  | (Ok (a, b, c, d), h) =>
      rid_slot_id d = rid_slot_id b ∧ rid_generation d = 2 ∧ is_ok (heap_get h b) = false
      ∧ heap_get h a = Ok (replicate 900 1) ∧ heap_get h c = Ok (replicate 800 3)
      ∧ heap_get h d = Ok [7; 8; 9] ∧ from_page (into_page h) = Ok h
  | _ => False
  end.
Proof. vm_compute. done. Qed.
