(* ===== verification/HeapProps.v ===== *)
(** * A heap page is a table of records

    [heap_view] is what a client sees: per slot a generation and, when the slot
    is live, a record.  The operations of [HeapPage] are shown to be the
    operations of such a table, refused exactly when the records and their
    slots would not fit a page, whatever the fragmentation. *)

From S2P Require Import Prelude StorageBytes StoragePage StorageIo BtreeNode StorageHeap.

(** ** Parts of a page that agree *)

Definition agree (h h' : Page) (lo hi : Z) : Prop :=
  ∀ o n, lo ≤ o → 0 ≤ n → o + n ≤ hi → bytes_get (page_bytes h') o n = bytes_get (page_bytes h) o n.

Lemma agree_trans h1 h2 h3 lo hi : agree h1 h2 lo hi → agree h2 h3 lo hi → agree h1 h3 lo hi.
Proof. intros H1 H2 o n ? ? ?. by rewrite H2, H1. Qed.

Lemma agree_sub h h' lo hi lo' hi' : agree h h' lo hi → lo ≤ lo' → hi' ≤ hi → agree h h' lo' hi'.
Proof. intros H ? ? o n ? ? ?. apply H; lia. Qed.

Lemma put_agree h off v lo hi :
  page_ok h → 0 ≤ off → off + zlen v ≤ PAGE_SIZE → 0 ≤ lo → hi ≤ PAGE_SIZE →
  hi ≤ off ∨ off + zlen v ≤ lo → agree h (put_bytes h off v) lo hi.
Proof. intros Hp ? ? ? ? ? o n ? ? ?. apply get_put_other; try done; lia. Qed.

Lemma seal_agree h : page_ok h → agree h (seal h) 64 PAGE_SIZE.
Proof. intros Hp o n ? ? ?. apply seal_get; try done; lia. Qed.

Lemma set_layout_agree h lower upper count : page_ok h → agree h (set_layout h lower upper count) 64 PAGE_SIZE.
Proof. intros Hp o n ? ? ?. apply set_layout_get; try done; lia. Qed.

(** ** The header of a page that is being changed *)

Record headed (h : Page) (id lower upper count : Z) : Prop := {
  hd_ok : page_ok h;
  hd_shape : page_shape h;
  hd_kind : page_kind h = Heap;
  hd_id : page_id h = id;
  hd_lower : get_u16 h 32 = lower;
  hd_upper : get_u16 h 34 = upper;
  hd_count : get_u16 h 36 = count
}.

Lemma kind_window h h' : page_ok h → page_ok h' → bytes_get (page_bytes h') 6 1 = bytes_get (page_bytes h) 6 1 →
  page_kind h' = page_kind h.
Proof.
  intros [Hl _] [Hl' _] Hw. unfold page_kind. by rewrite !page_byte_get, Hw by (rewrite ?Hl, ?Hl'; done).
Qed.

Lemma headed_put h id lower upper count off v :
  headed h id lower upper count → 64 ≤ off → off + zlen v ≤ PAGE_SIZE → Forall byte_ok v →
  headed (put_bytes h off v) id lower upper count.
Proof.
  intros [Hok Hs Hk Hi Hl Hu Hc] Hoff Hend Hv.
  assert (page_ok (put_bytes h off v)) as Hok' by (apply put_bytes_ok; done || lia).
  assert (agree h (put_bytes h off v) 0 64) as Ha.
  { pose proof (zlen_nonneg v). apply put_agree; try done; unfold PAGE_SIZE in *; lia. }
  split; [done|..]; unfold page_id, get_u64, get_u16 in *; rewrite ?Ha by lia; try done.
  - apply put_bytes_shape; try done. lia.
  - rewrite <- Hk. apply kind_window; [done..|]. apply Ha; lia.
Qed.

Lemma headed_seal h id lower upper count :
  headed h id lower upper count → headed (seal h) id lower upper count.
Proof.
  intros [Hok Hs Hk Hi Hl Hu Hc].
  assert (∀ o n, 0 ≤ o → 0 ≤ n → o + n ≤ 44 → bytes_get (page_bytes (seal h)) o n = bytes_get (page_bytes h) o n) as Ha.
  { intros. apply seal_get; try done; unfold PAGE_SIZE; lia. }
  split; unfold page_id, get_u64, get_u16 in *; rewrite ?Ha by lia; auto using seal_ok, seal_shape.
  rewrite <- Hk. apply kind_window; auto using seal_ok. apply Ha; lia.
Qed.

Lemma headed_layout h id lower upper count lower' upper' count' :
  headed h id lower upper count → PAGE_HEADER_SIZE ≤ lower' ≤ upper' → upper' ≤ PAGE_SIZE → 0 ≤ count' ≤ u16_max →
  headed (set_layout h lower' upper' count') id lower' upper' count'.
Proof.
  intros [Hok Hs Hk Hi Hl Hu Hc] H1 H2 H3. unfold PAGE_HEADER_SIZE in H1.
  destruct (set_layout_fields h lower' upper' count') as (E1 & E2 & E3); try done; try (unfold PAGE_SIZE, u16_max in *; lia).
  split; auto using set_layout_ok, set_layout_shape.
  - rewrite <- Hk. apply kind_window; auto using set_layout_ok. apply set_layout_get; done || lia.
  - rewrite <- Hi. unfold page_id, get_u64. by rewrite set_layout_get by (done || lia).
Qed.

Lemma headed_header h id lower upper count : headed h id lower upper count →
  h_lower (page_header h) = lower ∧ h_upper (page_header h) = upper ∧ h_slot_count (page_header h) = count.
Proof. by intros []. Qed.

Lemma headed_bounds h id lower upper count : headed h id lower upper count → 64 ≤ lower ≤ upper ∧ upper ≤ 4096.
Proof. intros [_ [? ? ? ? ? Hb] _ _ <- <- _]. done. Qed.

(** ** The directory *)

Definition slot_ok (s : Slot) : Prop :=
  0 ≤ s_offset s ≤ u16_max ∧ 0 ≤ s_length s ≤ u16_max ∧ 0 ≤ s_flags s ≤ u16_max ∧ 0 ≤ s_generation s ≤ u16_max.

Definition slots_in (h : Page) (ss : list Slot) : Prop :=
  ∀ i s, ss !! i = Some s → bytes_get (page_bytes h) (slot_offset (Z.of_nat i)) 8 = slot_bytes s.

Lemma zlen_slot_bytes s : zlen (slot_bytes s) = 8.
Proof. unfold slot_bytes. by rewrite !zlen_app, !zlen_to_le_bytes. Qed.

Lemma slot_bytes_ok s : Forall byte_ok (slot_bytes s).
Proof. unfold slot_bytes. repeat apply Forall_app_2; apply to_le_bytes_ok. Qed.

Lemma from_to_u16 v : 0 ≤ v ≤ u16_max → from_le_bytes (to_le_bytes 2 v) = v.
Proof. intros. rewrite from_to_le_bytes. apply Z.mod_small. unfold u16_max in *. change (256 ^ Z.of_nat 2) with 65536. lia. Qed.

Lemma read_slot_in h ss i s :
  page_ok h → slot_count h = zlen ss → 64 + 8 * zlen ss ≤ PAGE_SIZE → slots_in h ss → slot_ok s →
  ss !! i = Some s → read_slot h (Z.of_nat i) = Ok s.
Proof.
  intros Hp Hc Hn Hin (H1 & H2 & H3 & H4) Hs. assert (Z.of_nat i < zlen ss) by (apply lookup_lt_Some in Hs; unfold zlen; lia).
  unfold read_slot. rewrite Hc, (proj2 (Z.leb_gt _ _)) by done. cbn [negb]. rewrite ensure_true, Ok_bind.
  rewrite bytes_range_Ok; [|done|unfold slot_offset, PAGE_HEADER_SIZE, SLOT_SIZE; lia|done|unfold slot_offset, PAGE_HEADER_SIZE, SLOT_SIZE in *; lia].
  rewrite Ok_bind. unfold SLOT_SIZE. rewrite (Hin _ _ Hs). destruct s as [o l f g]. cbn [s_offset s_length s_flags s_generation] in *.
  transitivity (Ok (E := StorageError) (mkSlot (from_le_bytes (to_le_bytes 2 o)) (from_le_bytes (to_le_bytes 2 l))
    (from_le_bytes (to_le_bytes 2 f)) (from_le_bytes (to_le_bytes 2 g)))); [reflexivity|]. by rewrite !from_to_u16.
Qed.

Lemma slots_agree h h' ss :
  slots_in h ss → agree h h' 64 (64 + 8 * zlen ss) → slots_in h' ss.
Proof.
  intros Hin Ha i s Hs. rewrite <- (Hin i s Hs). apply lookup_lt_Some in Hs.
  apply Ha; unfold slot_offset, PAGE_HEADER_SIZE, SLOT_SIZE, zlen; lia.
Qed.

(** Writing slot [i] of a directory of [n] slots. *)
Lemma write_slot_run h i s :
  page_ok h → 0 ≤ i → 64 + 8 * (i + 1) ≤ PAGE_SIZE →
  write_slot i s h = (Ok tt, put_bytes h (slot_offset i) (slot_bytes s)).
Proof.
  intros Hp Hi Hn. unfold write_slot, heap_write. rewrite write_range_Ok; [done|done|..].
  - unfold slot_offset, PAGE_HEADER_SIZE, SLOT_SIZE. lia.
  - rewrite zlen_slot_bytes. unfold slot_offset, PAGE_HEADER_SIZE, SLOT_SIZE. lia.
Qed.

Ltac slot_side := rewrite ?zlen_slot_bytes; unfold slot_offset, PAGE_HEADER_SIZE, SLOT_SIZE, zlen in *; try done; lia.

Lemma get_put_slot h i s :
  page_ok h → 0 ≤ i → 64 + 8 * (i + 1) ≤ PAGE_SIZE →
  bytes_get (page_bytes (put_bytes h (slot_offset i) (slot_bytes s))) (slot_offset i) 8 = slot_bytes s.
Proof.
  intros. rewrite <- (zlen_slot_bytes s) at 1. apply get_put_same; [done|slot_side|slot_side].
Qed.

Lemma slots_in_write h l old r s :
  page_ok h → slots_in h (l ++ old :: r) → 64 + 8 * zlen (l ++ old :: r) ≤ PAGE_SIZE →
  slots_in (put_bytes h (slot_offset (zlen l)) (slot_bytes s)) (l ++ s :: r).
Proof.
  intros Hp Hin Hn i s' Hs'. rewrite zlen_app, zlen_cons in Hn. pose proof (zlen_nonneg l). pose proof (zlen_nonneg r).
  destruct (decide (i = length l)) as [->|Hne].
  - rewrite list_lookup_middle in Hs' by done. injection Hs' as <-. fold (zlen l). apply get_put_slot; [done|lia..].
  - assert ((l ++ old :: r) !! i = Some s') as Ho.
    { destruct (decide (i < length l)%nat); [by rewrite lookup_app_l in Hs' |- * by done|].
      rewrite lookup_app_r in Hs' |- * by lia. destruct (i - length l)%nat eqn:E; [lia|]. done. }
    rewrite <- (Hin _ _ Ho). apply lookup_lt_Some in Ho. rewrite length_app in Ho. cbn [length] in Ho.
    apply get_put_other; slot_side.
Qed.

Lemma slots_in_append h ss s :
  page_ok h → slots_in h ss → 64 + 8 * (zlen ss + 1) ≤ PAGE_SIZE →
  slots_in (put_bytes h (slot_offset (zlen ss)) (slot_bytes s)) (ss ++ [s]).
Proof.
  intros Hp Hin Hn i s' [Hs'|[E Hs']]%lookup_app_Some.
  - rewrite <- (Hin _ _ Hs'). apply lookup_lt_Some in Hs'. apply get_put_other; slot_side.
  - apply list_lookup_singleton_Some in Hs' as [E' ->]. pose proof (zlen_nonneg ss).
    replace (Z.of_nat i) with (zlen ss) by (unfold zlen; lia). by apply get_put_slot.
Qed.

(** ** Where the bodies are *)

Definition span (s : Slot) : option (Z * Z) :=
  if slot_live s then Some (s_offset s, s_offset s + s_length s) else None.
Definition spans (ss : list Slot) : list (Z * Z) := omap span ss.
#[global] Arguments spans : simpl never.

(** Non-empty intervals between [lo] and the end of the page, in order. *)
Fixpoint chain (lo : Z) (l : list (Z * Z)) : Prop :=
  match l with
  | [] => lo ≤ PAGE_SIZE
  | (a, b) :: l => lo ≤ a ∧ a < b ∧ chain b l
  end.

Definition total (l : list (Z * Z)) : Z := foldr (λ x n, x.2 - x.1 + n) 0 l.

Lemma spans_app l r : spans (l ++ r) = spans l ++ spans r.
Proof. apply omap_app. Qed.
Lemma spans_cons s ss : spans (s :: ss) = option_list (span s) ++ spans ss.
Proof. unfold spans. cbn. by destruct (span s). Qed.

Lemma chain_weaken lo lo' l : chain lo l → lo' ≤ lo → chain lo' l.
Proof. destruct l as [|[a b] l]; cbn; [lia|]. intros (? & ? & ?) ?. split_and!; [lia|done|done]. Qed.

Lemma chain_total lo l : chain lo l → total l ≤ PAGE_SIZE - lo.
Proof.
  revert lo. induction l as [|[a b] l IH]; intros lo; [cbn; lia|]. intros (? & ? & ?%IH). cbn [total foldr fst snd].
  fold (total l). lia.
Qed.

Lemma chain_within lo l : chain lo l → Forall (λ x, lo ≤ x.1 < x.2 ∧ x.2 ≤ PAGE_SIZE) l.
Proof.
  revert lo. induction l as [|[a b] l IH]; intros lo; [constructor|]. intros (? & ? & Hc).
  pose proof (chain_total _ _ Hc) as Ht. pose proof (IH _ Hc) as Hf.
  assert (0 ≤ total l). { clear -Hf. induction Hf as [|x l Hx _ IH]; cbn; [done|]. fold (total l). lia. }
  constructor; [cbn; lia|]. eapply Forall_impl; [apply Hf|]. cbn. intros x ?. lia.
Qed.

Lemma spans_split lo l r : chain lo (l ++ r) → Forall (λ x, Forall (λ y, x.2 ≤ y.1) r) l.
Proof.
  revert lo. induction l as [|[a b] l IH]; intros lo; cbn; [constructor|]. intros (? & ? & Hc). constructor; [|by eapply IH].
  pose proof (chain_within _ _ Hc) as [_ Hw]%Forall_app. eapply Forall_impl; [apply Hw|]. cbn. intros; lia.
Qed.

Lemma chain_remove lo l x r : chain lo (l ++ x :: r) → chain lo (l ++ r).
Proof.
  revert lo. induction l as [|[a b] l IH]; intros lo; cbn.
  - destruct x as [a b]. intros (? & ? & ?). eapply chain_weaken; [done|lia].
  - intros (? & ? & ?). auto.
Qed.

(** Distinct bodies do not overlap. *)
Definition apart (x y : Z * Z) : Prop := y.2 ≤ x.1 ∨ x.2 ≤ y.1.

Lemma chain_pick lo l x r : chain lo l → l ≡ₚ x :: r →
  ∃ l1 l2, l = l1 ++ x :: l2 ∧ r ≡ₚ l1 ++ l2 ∧ Forall (apart x) r.
Proof.
  intros Hc Hp. assert (x ∈ l) as (l1 & l2 & ->)%list_elem_of_split by (rewrite Hp; by left).
  exists l1, l2. assert (r ≡ₚ l1 ++ l2) as Hr.
  { apply (Permutation_cons_inv (a := x)). rewrite <- Hp. symmetry. apply Permutation_middle. }
  split_and!; [done|done|]. rewrite Hr. apply Forall_app. split.
  - pose proof (spans_split _ _ _ Hc) as Hf. eapply Forall_impl; [apply Hf|]. cbn. intros y [? _]%Forall_cons. by left.
  - rewrite (app_assoc l1 [x] l2 : l1 ++ x :: l2 = (l1 ++ [x]) ++ l2) in Hc.
    apply spans_split, Forall_app in Hc as [_ [Hf _]%Forall_cons]. eapply Forall_impl; [apply Hf|]. intros y ?. by right.
Qed.

Lemma total_perm l r : l ≡ₚ r → total l = total r.
Proof. unfold total. induction 1 as [|x l r _ IH|x y l|l k r _ IH1 _ IH2]; cbn [foldr]; lia. Qed.

(** The bodies of [ss] lie apart, above [upper]. *)
Definition packed (upper : Z) (ss : list Slot) : Prop := ∃ l, l ≡ₚ spans ss ∧ chain upper l.

Lemma total_spans s ss : total (spans (s :: ss)) = (if slot_live s then s_length s else 0) + total (spans ss).
Proof.
  rewrite spans_cons. unfold span. destruct (slot_live s); [|done].
  change (s_offset s + s_length s - s_offset s + total (spans ss) = s_length s + total (spans ss)). lia.
Qed.

Lemma spans_middle l s r : spans (l ++ s :: r) ≡ₚ option_list (span s) ++ spans (l ++ r).
Proof.
  rewrite !spans_app, spans_cons, !(assoc_L app). f_equiv. apply Permutation_app_comm.
Qed.

Lemma packed_drop upper l s r : packed upper (l ++ s :: r) → packed upper (l ++ r).
Proof.
  intros (k & Hk & Hc). rewrite spans_middle in Hk.
  destruct (span s) as [x|] eqn:E; [|by exists k].
  destruct (chain_pick _ _ _ _ Hc Hk) as (k1 & k2 & -> & Hr & _).
  exists (k1 ++ k2). split; [by rewrite Hr|]. by eapply chain_remove.
Qed.

Lemma packed_add upper l s r : packed upper (l ++ r) → slot_live s = true → 0 < s_length s →
  s_offset s + s_length s = upper → packed (s_offset s) (l ++ s :: r).
Proof.
  intros (k & Hk & Hc) Hl Hs <-. exists ((s_offset s, s_offset s + s_length s) :: k). split.
  - rewrite spans_middle. unfold span. by rewrite Hl, <- Hk.
  - cbn. split_and!; [lia|lia|done].
Qed.

Lemma packed_dead upper l s r : slot_live s = false → packed upper (l ++ s :: r) ↔ packed upper (l ++ r).
Proof.
  intros Hl. unfold packed. assert (spans (l ++ s :: r) ≡ₚ spans (l ++ r)) as E.
  { rewrite spans_middle. unfold span at 1. by rewrite Hl. }
  by setoid_rewrite E.
Qed.

(** Shrinking a body in place. *)
Lemma packed_shrink upper l s s' r : packed upper (l ++ s :: r) → slot_live s = true → slot_live s' = true →
  s_offset s' = s_offset s → 0 < s_length s' ≤ s_length s → packed upper (l ++ s' :: r).
Proof.
  intros (k & Hk & Hc) Hv Hv' Eo El. rewrite spans_middle in Hk. unfold span in Hk. rewrite Hv in Hk.
  destruct (chain_pick _ _ _ _ Hc Hk) as (k1 & k2 & -> & Hr & _).
  exists (k1 ++ (s_offset s', s_offset s' + s_length s') :: k2). split.
  - rewrite spans_middle. unfold span. by rewrite Hv', Hr, <- Permutation_middle.
  - clear Hk Hr. revert upper Hc. induction k1 as [|[a b] k1 IH]; intros upper; cbn.
    + intros (? & ? & ?). split_and!; [lia|lia|]. eapply chain_weaken; [done|lia].
    + intros (? & ? & ?). auto.
Qed.

Lemma packed_apart upper l s r s' : packed upper (l ++ s :: r) → slot_live s = true → slot_live s' = true →
  s' ∈ l ++ r → s_offset s' + s_length s' ≤ s_offset s ∨ s_offset s + s_length s ≤ s_offset s'.
Proof.
  intros (k & Hk & Hc) Hv Hv' Hs'. rewrite spans_middle in Hk. unfold span at 1 in Hk. rewrite Hv in Hk.
  destruct (chain_pick _ _ _ _ Hc Hk) as (_ & _ & _ & _ & Hf). rewrite Forall_forall in Hf.
  apply (Hf (s_offset s', s_offset s' + s_length s')). apply list_elem_of_omap. exists s'. unfold span. by rewrite Hv'.
Qed.

(** ** What a client sees *)

Abbreviation hview := (list (Z * option bytes)).

Definition body (h : Page) (s : Slot) : bytes := bytes_get (page_bytes h) (s_offset s) (s_length s).
Definition slot_view (h : Page) (s : Slot) : Z * option bytes :=
  (s_generation s, if slot_live s then Some (body h s) else None).
Definition dir_view (h : Page) (ss : list Slot) : hview := slot_view h <$> ss.

(** The bytes the header, the slots and the records take. *)
Definition entry_bytes (x : Z * option bytes) : Z := SLOT_SIZE + from_option zlen 0 x.2.
Definition used (v : hview) : Z := PAGE_HEADER_SIZE + foldr (λ x n, entry_bytes x + n) 0 v.

Lemma used_app v w : used (v ++ w) = used v + used w - PAGE_HEADER_SIZE.
Proof. unfold used. induction v as [|x v IH]; cbn [foldr app]; lia. Qed.
Lemma used_cons x v : used (x :: v) = entry_bytes x + used v.
Proof. unfold used. cbn [foldr]. lia. Qed.
Lemma used_nil : used [] = 64.
Proof. done. Qed.

Lemma packed_within upper ss s : packed upper ss → s ∈ ss → slot_live s = true →
  upper ≤ s_offset s ∧ 0 < s_length s ∧ s_offset s + s_length s ≤ PAGE_SIZE.
Proof.
  intros (l & Hl & Hc%chain_within) Hs Hv. rewrite Hl in Hc. rewrite Forall_forall in Hc.
  specialize (Hc (s_offset s, s_offset s + s_length s)). cbn in Hc. ospecialize (Hc _); [|lia].
  apply list_elem_of_omap. exists s. unfold span. by rewrite Hv.
Qed.

Lemma packed_total upper ss : packed upper ss → total (spans ss) ≤ PAGE_SIZE - upper.
Proof. intros (l & Hl & Hc). rewrite <- (total_perm _ _ Hl). by apply chain_total. Qed.

(** The laid out page: header, directory and bodies are consistent.  Every
    operation works on such a page; only a sealed one is at rest. *)
Record laid_out (h : Page) (id upper : Z) (ss : list Slot) : Prop := {
  lo_head : headed h id (64 + 8 * zlen ss) upper (zlen ss);
  lo_slots : slots_in h ss;
  lo_fields : Forall slot_ok ss;
  lo_packed : packed upper ss
}.

Definition heap_rep (h : Page) (id : Z) (v : hview) : Prop :=
  ∃ upper ss, laid_out h id upper ss ∧ page_sealed h ∧ v = dir_view h ss.

Lemma view_agree upper h h' ss :
  packed upper ss → agree h h' upper PAGE_SIZE → dir_view h' ss = dir_view h ss.
Proof.
  intros Hp Ha. apply list_fmap_ext. intros i s Hs%list_elem_of_lookup_2. unfold slot_view.
  destruct (slot_live s) eqn:Hl; [|done]. destruct (packed_within _ _ _ Hp Hs Hl) as (? & ? & ?).
  unfold body. by rewrite Ha by lia.
Qed.

Lemma used_view h upper ss : page_ok h → 0 ≤ upper → packed upper ss →
  used (dir_view h ss) = 64 + 8 * zlen ss + total (spans ss).
Proof.
  intros [Hl _] Hu Hp. assert (∀ s, s ∈ ss → slot_live s = true → zlen (body h s) = s_length s) as Hb.
  { intros s Hs Hv. destruct (packed_within _ _ _ Hp Hs Hv) as (? & ? & ?). apply zlen_bytes_get; [lia..|]. by rewrite Hl. }
  clear Hp. induction ss as [|s ss IH]; [done|]. cbn [dir_view fmap list_fmap]. rewrite used_cons, zlen_cons.
  fold (dir_view h ss). rewrite IH by (intros; apply Hb; [by right|done]).
  rewrite total_spans. unfold entry_bytes, slot_view, SLOT_SIZE. destruct (slot_live s) eqn:Hv; cbn [from_option snd]; [|lia].
  rewrite (Hb s); [lia|by left|done].
Qed.

Lemma laid_out_free h id upper ss : laid_out h id upper ss →
  contiguous_free_bytes h = upper - (64 + 8 * zlen ss) ∧ slot_count h = zlen ss
  ∧ 64 + 8 * zlen ss ≤ upper ≤ PAGE_SIZE ∧ used (dir_view h ss) ≤ 64 + 8 * zlen ss + (PAGE_SIZE - upper).
Proof.
  intros [Hh Hs Hf Hp]. pose proof (headed_bounds _ _ _ _ _ Hh). destruct (headed_header _ _ _ _ _ Hh) as (E1 & E2 & E3).
  pose proof (packed_total _ _ Hp). pose proof (hd_ok _ _ _ _ _ Hh).
  rewrite (used_view h upper) by (done || lia).
  unfold contiguous_free_bytes, slot_count. cbn zeta. rewrite E1, E2, E3. unfold saturating_sub, PAGE_SIZE in *. lia.
Qed.

Lemma laid_out_read h id upper ss i s : laid_out h id upper ss → ss !! i = Some s → read_slot h (Z.of_nat i) = Ok s.
Proof.
  intros Hlo Hs. destruct (laid_out_free _ _ _ _ Hlo) as (_ & Hc & Hb & _). destruct Hlo as [Hh Hi Hf _].
  eapply read_slot_in; [apply Hh|done|lia|done| |done]. rewrite Forall_forall in Hf. by eapply Hf, list_elem_of_lookup_2.
Qed.

Lemma laid_out_read_at h id upper l s r : laid_out h id upper (l ++ s :: r) → read_slot h (zlen l) = Ok s.
Proof. intros Hlo. eapply laid_out_read; [done|]. by rewrite list_lookup_middle. Qed.

(** ** Placing a body under the others and its slot in the directory *)

Lemma placed h id lower upper count l s r record :
  headed h id lower upper count → packed upper (l ++ r) → Forall slot_ok (l ++ s :: r) →
  Forall byte_ok record → 0 < zlen record → s_length s = zlen record → s_offset s + zlen record = upper →
  slot_live s = true → 64 + 8 * zlen (l ++ s :: r) ≤ s_offset s →
  let h1 := put_bytes (put_bytes h (s_offset s) record) (slot_offset (zlen l)) (slot_bytes s) in
  slots_in h1 (l ++ s :: r) →
  let h2 := seal (set_layout h1 (64 + 8 * zlen (l ++ s :: r)) (s_offset s) (zlen (l ++ s :: r))) in
  laid_out h2 id (s_offset s) (l ++ s :: r) ∧ page_sealed h2
  ∧ dir_view h2 (l ++ s :: r) = dir_view h l ++ (s_generation s, Some record) :: dir_view h r.
Proof.
  intros Hh Hp Hf Hr Hpos Hlen Hup Hv Hlow h1 Hin h2. pose proof (headed_bounds _ _ _ _ _ Hh) as Hb.
  pose proof (zlen_nonneg l). pose proof (zlen_nonneg r). pose proof (zlen_app l (s :: r)) as En. rewrite zlen_cons in En.
  assert (headed (put_bytes h (s_offset s) record) id lower upper count) as Hh0.
  { apply headed_put; try done; unfold PAGE_SIZE; lia. }
  assert (headed h1 id lower upper count) as Hh1.
  { apply headed_put; [done|slot_side| |apply slot_bytes_ok]. unfold PAGE_SIZE. slot_side. }
  assert (headed (set_layout h1 (64 + 8 * zlen (l ++ s :: r)) (s_offset s) (zlen (l ++ s :: r))) id
    (64 + 8 * zlen (l ++ s :: r)) (s_offset s) (zlen (l ++ s :: r))) as Hh2.
  { eapply headed_layout; [done|unfold PAGE_HEADER_SIZE; lia|unfold PAGE_SIZE; lia|unfold u16_max; lia]. }
  assert (agree h1 h2 64 PAGE_SIZE) as Ha.
  { eapply agree_trans; [apply set_layout_agree|apply seal_agree]; [apply Hh1|apply Hh2]. }
  assert (agree (put_bytes h (s_offset s) record) h2 (s_offset s) PAGE_SIZE) as Ha0.
  { eapply agree_trans; [|eapply agree_sub; [apply Ha|lia|done]].
    apply put_agree; [apply Hh0|unfold PAGE_SIZE; slot_side..]. }
  assert (agree h h2 upper PAGE_SIZE) as Ha1.
  { eapply agree_trans; [|eapply agree_sub; [apply Ha0|lia|done]].
    apply put_agree; [apply Hh|unfold PAGE_SIZE; lia..]. }
  split_and!.
  - split; [by apply headed_seal|eapply slots_agree; [done|eapply agree_sub; [done|lia|unfold PAGE_SIZE; lia]]|done|].
    eapply packed_add; try done; lia.
  - apply seal_sealed, Hh2.
  - pose proof (view_agree _ _ _ _ Hp Ha1) as E. unfold dir_view in *. rewrite !fmap_app in E. rewrite fmap_app, fmap_cons.
    apply app_inj_1 in E as [E1 E2]; [|by rewrite !length_fmap]. rewrite E1, E2. do 2 f_equal. unfold slot_view, body. rewrite Hv.
    rewrite Hlen, Ha0 by (unfold PAGE_SIZE; lia). by rewrite get_put_same by (apply Hh || unfold PAGE_SIZE; lia).
Qed.

(** ** Compaction *)

(** The live slots from number [k] on, with their bodies. *)
Fixpoint records_from (h : Page) (k : Z) (ss : list Slot) : list (Z * Slot * bytes) :=
  match ss with
  | [] => []
  | s :: ss => if slot_live s then (k, s, body h s) :: records_from h (k + 1) ss else records_from h (k + 1) ss
  end.

Lemma compact_read_run h id upper l r recs :
  laid_out h id upper (l ++ r) →
  foldM (compact_read h) (l, recs) (seqZ (zlen l) (zlen r)) = Ok (l ++ r, recs ++ records_from h (zlen l) r).
Proof.
  revert l recs. induction r as [|s r IH]; intros l recs Hlo; [by rewrite !app_nil_r|].
  pose proof (zlen_nonneg r). pose proof (zlen_nonneg l). rewrite zlen_cons, seqZ_cons by lia. cbn [foldM compact_read].
  rewrite (laid_out_read_at _ _ _ _ _ _ Hlo), Ok_bind. replace (Z.succ (zlen l)) with (zlen (l ++ [s])) by (rewrite zlen_app; unfold zlen; cbn; lia).
  replace (Z.pred (1 + zlen r)) with (zlen r) by lia.
  assert (l ++ s :: r = (l ++ [s]) ++ r) as E by by rewrite <- (assoc_L app).
  assert (zlen l + 1 = zlen (l ++ [s])) as E' by (rewrite zlen_app; unfold zlen; cbn; lia).
  rewrite E in Hlo |- *. cbn [records_from]. rewrite E'. destruct (slot_live s) eqn:Hv.
  - destruct (packed_within _ _ s (lo_packed _ _ _ _ Hlo)) as (? & ? & ?); [set_solver|done|].
    pose proof (laid_out_free _ _ _ _ Hlo) as (_ & _ & ? & _). pose proof (zlen_nonneg (l ++ [s] ++ r)).
    rewrite bytes_range_Ok; [|apply Hlo|pose proof (zlen_nonneg ((l ++ [s]) ++ r)); lia|lia|done].
    rewrite !Ok_bind, IH by done. by rewrite <- (app_assoc recs).
  - by rewrite Ok_bind, IH.
Qed.

(** What the loops keep of the header and write of the directory. *)
Lemma compact_slots_run h id lower upper count l r :
  headed h id lower upper count → slots_in h l → 64 + 8 * zlen (l ++ r) ≤ PAGE_SIZE →
  ∃ h', io_foldM (λ _, compact_slot) tt (zip (seqZ (zlen l) (zlen r)) r) h = (Ok tt, h')
    ∧ headed h' id lower upper count ∧ slots_in h' (l ++ r).
Proof.
  revert h l. induction r as [|s r IH]; intros h l Hh Hin Hn; [by exists h; rewrite app_nil_r|].
  pose proof (zlen_nonneg r). pose proof (zlen_nonneg l). rewrite zlen_app in Hn. rewrite zlen_cons in *.
  rewrite seqZ_cons by lia. cbn [zip zip_with io_foldM].
  erewrite io_bind_Ok.
  2:{ unfold compact_slot. erewrite io_bind_Ok by (unfold io_lift; rewrite checked_u16_Ok; [reflexivity|unfold u16_max, PAGE_SIZE in *; cbn; lia]).
      apply write_slot_run; [apply Hh|cbn; lia..]. }
  cbn [fst snd]. replace (Z.succ (zlen l)) with (zlen (l ++ [s])) by (rewrite zlen_app; unfold zlen; cbn; lia).
  replace (Z.pred (1 + zlen r)) with (zlen r) by lia. assert (l ++ s :: r = (l ++ [s]) ++ r) as -> by by rewrite <- (assoc_L app).
  apply IH.
  - apply headed_put; [done|slot_side| |apply slot_bytes_ok]. unfold PAGE_SIZE in *. slot_side.
  - apply slots_in_append; [apply Hh|done|lia].
  - rewrite !zlen_app, zlen_cons. change (zlen []) with 0. lia.
Qed.

Lemma live_with_offset s o : slot_live (with_offset s o) = slot_live s.
Proof. done. Qed.

(** The bodies go under one another, from the end of the page down. *)
Lemma compact_bodies_run h0 h id lower up0 count l r upper :
  headed h id lower up0 count → slots_in h (l ++ r) → packed upper l → Forall slot_ok (l ++ r) →
  Forall (λ s, slot_live s = true → zlen (body h0 s) = s_length s ∧ 0 < s_length s ∧ Forall byte_ok (body h0 s)) r →
  upper ≤ PAGE_SIZE → 64 + 8 * zlen (l ++ r) ≤ upper - total (spans r) → 0 ≤ total (spans r) →
  ∃ h' r', io_foldM compact_body upper (records_from h0 (zlen l) r) h = (Ok (upper - total (spans r)), h')
    ∧ headed h' id lower up0 count ∧ slots_in h' (l ++ r') ∧ packed (upper - total (spans r)) (l ++ r')
    ∧ Forall slot_ok (l ++ r') ∧ zlen r' = zlen r
    ∧ dir_view h' (l ++ r') = dir_view h l ++ dir_view h0 r.
Proof.
  revert h l upper. induction r as [|s r IH]; intros h l upper Hh Hin Hp Hf Hb Hup Hroom Htot.
  { exists h, []. rewrite !app_nil_r in *. change (total (spans [])) with 0. rewrite Z.sub_0_r. done. }
  assert (0 ≤ total (spans r)) as Htot'.
  { clear -Hf. apply Forall_app in Hf as [_ [_ Hf]%Forall_cons]. induction Hf as [|x r (_ & ? & _) _ IH]; [done|].
    rewrite total_spans. case_match; lia. }
  rewrite total_spans in *. apply Forall_cons in Hb as [Hs Hb].
  assert (∀ (x : Slot) k, l ++ x :: k = (l ++ [x]) ++ k) as E by (intros; by rewrite <- (assoc_L app)).
  assert (∀ x : Slot, zlen l + 1 = zlen (l ++ [x])) as E' by (intros; rewrite zlen_app; unfold zlen; cbn; lia).
  assert (zlen (l ++ s :: r) = zlen l + 1 + zlen r) as En by (rewrite zlen_app, zlen_cons; lia).
  pose proof (zlen_nonneg l). pose proof (zlen_nonneg r).
  cbn [records_from]. destruct (slot_live s) eqn:Hv.
  - destruct (Hs eq_refl) as (Hlen & Hpos & Hbytes). set (o := upper - s_length s). set (s1 := with_offset s o).
    set (h1 := put_bytes h o (body h0 s)). set (h2 := put_bytes h1 (slot_offset (zlen l)) (slot_bytes s1)).
    assert (headed h1 id lower up0 count) as Hh1 by (apply headed_put; [done|lia..|done]).
    assert (headed h2 id lower up0 count) as Hh2.
    { apply headed_put; [done|slot_side| |apply slot_bytes_ok]. unfold PAGE_SIZE in *. slot_side. }
    assert (agree h h2 upper PAGE_SIZE) as Ha.
    { apply (agree_trans _ h1); [apply put_agree; [apply Hh|lia..]|apply put_agree; [apply Hh1|unfold PAGE_SIZE in *; slot_side..]]. }
    assert (compact_body upper (zlen l, s, body h0 s) h = (Ok o, h2)) as Erun.
    { unfold compact_body. rewrite Hlen, wrapping_sub_small by (unfold u64_max, PAGE_SIZE in *; lia). fold o.
      erewrite io_bind_Ok by (unfold heap_write; rewrite write_range_Ok; [reflexivity|apply Hh|lia..]).
      erewrite io_bind_Ok by (unfold io_lift; rewrite checked_u16_Ok; [reflexivity|unfold u16_max, PAGE_SIZE in *; lia]).
      erewrite io_bind_Ok by (apply write_slot_run; [apply Hh1|lia|unfold PAGE_SIZE in *; lia]). done. }
    cbn [io_foldM]. rewrite (io_bind_Ok _ _ _ _ _ Erun), (E' s1).
    destruct (IH h2 (l ++ [s1]) o) as (h' & r' & Er & Hh' & Hin' & Hp' & Hf' & El & Ev); try done.
    + rewrite <- (E s1 r). eapply (slots_in_write h1 l s r); [apply Hh1| |lia].
      eapply slots_agree; [done|]. apply put_agree; [apply Hh|unfold PAGE_SIZE in *; lia..].
    + change o with (s_offset s1). eapply packed_add; [by rewrite app_nil_r|done|done|cbn; lia].
    + rewrite <- (E s1 r). apply Forall_app in Hf as [? [(? & ? & ? & ?) ?]%Forall_cons]. apply Forall_app. split; [done|].
      constructor; [|done]. repeat split; cbn; unfold u16_max, PAGE_SIZE in *; lia.
    + lia.
    + rewrite <- (E s1 r), zlen_app, zlen_cons. lia.
    + exists h', (s1 :: r'). rewrite (E s1 r'). rewrite Z.sub_add_distr. split_and!; try done; [rewrite !zlen_cons; lia|].
      rewrite Ev. unfold dir_view. rewrite fmap_app, <- (assoc_L app), fmap_cons. fold (dir_view h2 l). rewrite (view_agree _ _ _ _ Hp Ha).
      f_equal. cbn [fmap list_fmap app]. f_equal. unfold slot_view. rewrite Hv. change (slot_live s1) with (slot_live s). rewrite Hv.
      do 2 f_equal. unfold body at 1. change (s_length s1) with (s_length s). change (s_offset s1) with o.
      unfold h2. rewrite get_put_other; [|apply Hh1|unfold PAGE_SIZE in *; slot_side..]. rewrite <- Hlen. unfold h1.
      apply get_put_same; [apply Hh|lia..].
  - rewrite (E' s), Z.add_0_l. destruct (IH h (l ++ [s]) upper) as (h' & r' & Er & Hh' & Hin' & Hp' & Hf' & El & Ev); try done.
    + by rewrite <- (E s r).
    + apply packed_dead; [done|]. by rewrite app_nil_r.
    + by rewrite <- (E s r).
    + rewrite <- (E s r). lia.
    + exists h', (s :: r'). rewrite (E s r'). split_and!; try done; [rewrite !zlen_cons; lia|].
      rewrite Ev. unfold dir_view. rewrite fmap_app, <- (assoc_L app), fmap_cons. f_equal. cbn. unfold slot_view. by rewrite Hv.
Qed.

Lemma laid_out_bodies h id upper ss : laid_out h id upper ss →
  Forall (λ s, slot_live s = true → zlen (body h s) = s_length s ∧ 0 < s_length s ∧ Forall byte_ok (body h s)) ss.
Proof.
  intros Hlo. pose proof (laid_out_free _ _ _ _ Hlo) as (_ & _ & ? & _). destruct Hlo as [[[Hl Hb] _ _ _ _ _ _] _ _ Hp].
  apply Forall_forall. intros s Hs Hv. destruct (packed_within _ _ _ Hp Hs Hv) as (? & ? & ?). pose proof (zlen_nonneg ss).
  split_and!; [|done|by apply Forall_bytes_get]. apply zlen_bytes_get; rewrite ?Hl; lia.
Qed.

Lemma total_nonneg ss : Forall slot_ok ss → 0 ≤ total (spans ss).
Proof. induction 1 as [|x r (_ & ? & _) _ IH]; [done|]. rewrite total_spans. case_match; lia. Qed.

Lemma compact_run h id upper ss : laid_out h id upper ss →
  ∃ h' ss', compact h = (Ok tt, h') ∧ laid_out h' id (PAGE_SIZE - total (spans ss)) ss' ∧ page_sealed h'
    ∧ zlen ss' = zlen ss ∧ dir_view h' ss' = dir_view h ss.
Proof.
  intros Hlo. pose proof (laid_out_free _ _ _ _ Hlo) as (_ & Hc & Hroom & _). pose proof (laid_out_bodies _ _ _ _ Hlo) as Hb.
  pose proof (compact_read_run h id upper [] ss [] Hlo) as Eread. cbn [app] in Eread. change (zlen (@nil Slot)) with 0 in Eread.
  destruct Hlo as [Hh Hin Hf Hp]. pose proof (packed_total _ _ Hp) as Ht. pose proof (total_nonneg _ Hf) as Ht0. pose proof (zlen_nonneg ss) as Hn.
  assert (headed (put_bytes h 64 (zeros 4032)) id (64 + 8 * zlen ss) upper (zlen ss)) as H1 by by apply headed_put, zeros_ok.
  destruct (compact_slots_run _ _ _ _ _ [] ss H1) as (h2 & E2 & H2 & Hin2); [by intros ? ? ?|cbn [app]; unfold PAGE_SIZE in *; lia|].
  destruct (compact_bodies_run h h2 _ _ _ _ [] ss PAGE_SIZE H2 Hin2) as (h3 & ss' & E3 & H3 & Hin3 & Hp3 & Hf3 & El & Ev);
    [by exists []|done|done|done|cbn [app]; unfold PAGE_SIZE in *; lia|done|].
  cbn [app] in *. change (zlen (@nil Slot)) with 0 in *.
  assert (headed (set_layout h3 (64 + 8 * zlen ss) (PAGE_SIZE - total (spans ss)) (zlen ss)) id
    (64 + 8 * zlen ss) (PAGE_SIZE - total (spans ss)) (zlen ss)) as H4.
  { eapply headed_layout; [done|unfold PAGE_HEADER_SIZE, PAGE_SIZE, u16_max in *; lia..]. }
  eexists _, ss'. split_and!; [| | |done|].
  - unfold compact. erewrite io_bind_Ok by reflexivity. rewrite Hc.
    erewrite io_bind_Ok by (unfold io_lift; rewrite Eread; reflexivity). cbv beta iota.
    erewrite io_bind_Ok by (unfold heap_write; rewrite write_range_Ok; [reflexivity|apply Hh|done|done]).
    change (zeros (PAGE_SIZE - PAGE_HEADER_SIZE)) with (zeros 4032). change PAGE_HEADER_SIZE with 64 at 1.
    rewrite (io_bind_Ok _ _ _ _ _ E2), (io_bind_Ok _ _ _ _ _ E3).
    unfold PAGE_HEADER_SIZE, SLOT_SIZE. replace (zlen ss * 8) with (8 * zlen ss) by lia.
    erewrite io_bind_Ok by (unfold io_lift; rewrite checked_u16_Ok; [reflexivity|unfold u16_max, PAGE_SIZE in *; lia]).
    erewrite io_bind_Ok by (unfold io_lift; rewrite checked_u16_Ok; [reflexivity|unfold u16_max, PAGE_SIZE in *; lia]).
    reflexivity.
  - split; [rewrite El; by apply headed_seal| |done|done].
    eapply slots_agree; [done|]. eapply agree_sub; [eapply agree_trans; [apply set_layout_agree|apply seal_agree]; [apply H3|apply H4]|lia|].
    rewrite El. unfold PAGE_SIZE in *. lia.
  - apply seal_sealed, H4.
  - transitivity (dir_view h3 ss'); [|done]. eapply view_agree; [done|].
    eapply agree_sub; [eapply agree_trans; [apply set_layout_agree|apply seal_agree]; [apply H3|apply H4]|unfold PAGE_SIZE in *; lia|done].
Qed.

(** ** The table of records *)

Definition next_generation (g : Z) : Z := Z.max ((g + 1) mod (u16_max + 1)) 1.

(** The first slot without a record. *)
Definition free_slot (v : hview) : option (nat * (Z * option bytes)) := list_find (λ x, x.2 = None) v.

(** The slot of a new record and the table with it: the first free slot, or a
    new one. *)
Definition view_place (v : hview) (record : bytes) : nat * Z * hview :=
  match free_slot v with
  | Some (i, (g, _)) => (i, next_generation g, <[i := (next_generation g, Some record)]> v)
  | None => (length v, 1, v ++ [(1, Some record)])
  end.

Definition view_insert (v : hview) (record : bytes) : option (nat * Z * hview) :=
  let '(i, g, v') := view_place v record in
  if bool_decide (record ≠ [] ∧ used v' ≤ PAGE_SIZE) then Some (i, g, v') else None.

(** The slot and record an identifier stands for. *)
Definition view_find (id : Z) (v : hview) (rid : RecordId) : option (nat * bytes) :=
  i ← (if bool_decide (rid_page_id rid = id ∧ 0 ≤ rid_slot_id rid) then Some (Z.to_nat (rid_slot_id rid)) else None);
  x ← v !! i;
  record ← x.2;
  if bool_decide (x.1 = rid_generation rid) then Some (i, record) else None.

Definition view_update (id : Z) (v : hview) (rid : RecordId) (record : bytes) : option hview :=
  i ← fst <$> view_find id v rid;
  let v' := <[i := (rid_generation rid, Some record)]> v in
  if bool_decide (used v' ≤ PAGE_SIZE) then Some v' else None.

Definition view_delete (id : Z) (v : hview) (rid : RecordId) : option hview :=
  i ← fst <$> view_find id v rid;
  Some (<[i := (rid_generation rid, None)]> v).

(** ** Insertion *)

Lemma find_dead h id upper l r : laid_out h id upper (l ++ r) →
  List.find (is_dead h) (seqZ (zlen l) (zlen r))
  = (λ x, zlen l + Z.of_nat x.1) <$> free_slot (dir_view h r).
Proof.
  revert l. induction r as [|s r IH]; intros l Hlo; [done|].
  pose proof (zlen_nonneg r). rewrite zlen_cons, seqZ_cons by lia. unfold free_slot. cbn [List.find dir_view fmap list_fmap list_find].
  unfold is_dead at 1. rewrite (laid_out_read_at _ _ _ _ _ _ Hlo).
  assert ((slot_view h s).2 = None ↔ slot_live s = false) as Hd by (unfold slot_view; by destruct (slot_live s)).
  destruct (slot_live s); cbn [negb].
  - rewrite decide_False by (rewrite Hd; done). replace (Z.succ (zlen l)) with (zlen (l ++ [s])) by (rewrite zlen_app; unfold zlen; cbn; lia).
    replace (Z.pred (1 + zlen r)) with (zlen r) by lia. rewrite IH by by rewrite <- (assoc_L app).
    fold (dir_view h r). unfold free_slot. destruct (list_find _ (dir_view h r)) as [[i x]|]; [|done]. cbn. f_equal. rewrite zlen_app. unfold zlen. cbn. lia.
  - rewrite decide_True by by apply Hd. cbn. f_equal. lia.
Qed.

(** [insert] and [update] compact when they have to, and then there is room
    exactly when the table has room. *)
Lemma make_room h id upper ss need :
  laid_out h id upper ss → page_sealed h → 0 ≤ need →
  ∃ h' upper' ss', (if contiguous_free_bytes h <? need then compact else mret tt) h = (Ok tt, h')
    ∧ laid_out h' id upper' ss' ∧ page_sealed h' ∧ zlen ss' = zlen ss ∧ dir_view h' ss' = dir_view h ss
    ∧ (contiguous_free_bytes h' <? need) = (PAGE_SIZE <? used (dir_view h ss) + need).
Proof.
  intros Hlo Hseal Hneed. pose proof (laid_out_free _ _ _ _ Hlo) as (Ef & _ & ? & ?).
  destruct (Z.ltb_spec (contiguous_free_bytes h) need).
  - destruct (compact_run _ _ _ _ Hlo) as (h' & ss' & E & Hlo' & Hs' & El & Ev). eexists h', _, ss'. split_and!; try done.
    pose proof (laid_out_free _ _ _ _ Hlo') as (Ef' & _). rewrite Ef', El.
    rewrite (used_view h upper) by (apply Hlo || pose proof (zlen_nonneg ss); lia).
    unfold PAGE_SIZE. apply Bool.eq_iff_eq_true. rewrite !Z.ltb_lt. lia.
  - exists h, upper, ss. split_and!; try done. rewrite !(proj2 (Z.ltb_ge _ _)) by lia. done.
Qed.

Lemma used_insert (v : hview) i x y : v !! i = Some x → used (<[i:=y]> v) = used v - entry_bytes x + entry_bytes y.
Proof.
  intros Hi. rewrite insert_take_drop by by apply lookup_lt_Some in Hi. rewrite <- (take_drop_middle v i x Hi) at 3.
  rewrite !used_app, !used_cons. lia.
Qed.

Lemma view_lookup h ss i x : dir_view h ss !! i = Some x → ∃ l s r, ss = l ++ s :: r ∧ length l = i ∧ slot_view h s = x.
Proof.
  unfold dir_view. rewrite list_lookup_fmap, fmap_Some. intros (s & Hs & ->).
  exists (take i ss), s, (drop (S i) ss). rewrite take_drop_middle by done. split_and!; [done| |done].
  apply length_take_le. apply lookup_lt_Some in Hs. lia.
Qed.

Lemma dir_view_insert h l s r x : <[length l := x]> (dir_view h (l ++ s :: r)) = dir_view h l ++ x :: dir_view h r.
Proof.
  unfold dir_view. rewrite fmap_app, fmap_cons. rewrite <- (length_fmap (slot_view h) l) at 1. rewrite insert_app_r_alt by lia.
  by rewrite Nat.sub_diag.
Qed.

Lemma live_new o n g : slot_live (mkSlot o n SLOT_LIVE g) = true.
Proof. done. Qed.

Lemma slot_ok_new o n g : 0 ≤ o ≤ PAGE_SIZE → 0 ≤ n ≤ PAGE_SIZE → 0 ≤ g ≤ u16_max → slot_ok (mkSlot o n SLOT_LIVE g).
Proof. unfold slot_ok, u16_max, PAGE_SIZE, SLOT_LIVE. cbn. lia. Qed.

Lemma next_generation_ok g : 0 ≤ next_generation g ≤ u16_max.
Proof. unfold next_generation, u16_max. pose proof (Z.mod_pos_bound (g + 1) (65535 + 1) ltac:(lia)). lia. Qed.

(** Slot, generation and new directory size [insert] settles on. *)
Lemma insert_slot_run h id upper ss record offset :
  laid_out h id upper ss → Forall byte_ok record → 64 + 8 * zlen ss ≤ offset → offset + zlen record ≤ PAGE_SIZE →
  64 + 8 * (zlen ss + 1) ≤ PAGE_SIZE ∨ is_Some (free_slot (dir_view h ss)) →
  let reusable := (λ x, Z.of_nat x.1) <$> free_slot (dir_view h ss) in
  ∃ l olds r g, ss = l ++ olds ++ r
    ∧ (view_place (dir_view h ss) record).1 = (length l, g) ∧ 0 ≤ g ≤ u16_max
    ∧ (view_place (dir_view h ss) record).2 = dir_view h l ++ (g, Some record) :: dir_view h r
    ∧ insert_slot (put_bytes h offset record) (page_header h) reusable
      = Ok (zlen l, g, zlen l + 1 + zlen r, 64 + 8 * (zlen l + 1 + zlen r))
    ∧ packed upper (l ++ r)
    ∧ (∀ h', page_ok h' → slots_in h' ss → 64 + 8 * (zlen l + 1 + zlen r) ≤ PAGE_SIZE → ∀ s,
        slots_in (put_bytes h' (slot_offset (zlen l)) (slot_bytes s)) (l ++ s :: r))
    ∧ used (dir_view h l ++ (g, Some record) :: dir_view h r)
      = used (dir_view h ss) + zlen record + match reusable with Some _ => 0 | None => SLOT_SIZE end
    ∧ 8 * (zlen l + 1 + zlen r) = 8 * zlen ss + match reusable with Some _ => 0 | None => SLOT_SIZE end.
Proof.
  intros Hlo Hr Hoff Hend Hcap reusable. pose proof (laid_out_free _ _ _ _ Hlo) as (_ & Hc & Hroom & _).
  destruct (headed_header _ _ _ _ _ (lo_head _ _ _ _ Hlo)) as (El & _ & Ec).
  pose proof (zlen_nonneg ss). pose proof (zlen_nonneg record). unfold reusable, view_place.
  destruct (free_slot (dir_view h ss)) as [[i [g o]]|] eqn:Ef.
  - apply list_find_Some in Ef as (Hi & Ho & _). cbn in Ho. subst o.
    destruct (view_lookup _ _ _ _ Hi) as (l & s & r & -> & <- & Hs).
    assert (slot_live s = false ∧ s_generation s = g) as [Hd <-] by (unfold slot_view in Hs; destruct (slot_live s); naive_solver).
    exists l, [s], r, (next_generation (s_generation s)).
    split_and!; [done|done|apply next_generation_ok..|by rewrite dir_view_insert| | | | |cbn; rewrite zlen_app, zlen_cons; lia].
    + cbn [fmap option_fmap option_map fst]. unfold insert_slot.
      erewrite (read_slot_in _ (l ++ s :: r)); [|apply put_bytes_ok; [apply Hlo|lia..|done]| | |eapply slots_agree; [apply Hlo|apply put_agree; [apply Hlo|lia..]]| |by apply list_lookup_middle].
      * rewrite Ok_bind, El, Ec, zlen_app, zlen_cons. do 3 f_equal; lia.
      * pose proof (headed_put _ _ _ _ _ offset record (lo_head _ _ _ _ Hlo)) as Hh. ospecialize (Hh _ _ _); [lia|lia|done|]. apply Hh.
      * lia.
      * pose proof (lo_fields _ _ _ _ Hlo) as Hf. rewrite Forall_forall in Hf. apply Hf. set_solver.
    + by eapply packed_drop, Hlo.
    + intros h' Hok Hin Hcap' s'. eapply slots_in_write; [done|done|]. rewrite zlen_app, zlen_cons. lia.
    + rewrite <- (dir_view_insert h l s), (used_insert _ _ _ _ Hi). unfold entry_bytes. cbn. lia.
  - destruct Hcap as [Hcap|[? [=]]]. exists ss, [], [], 1.
    rewrite !app_nil_r. split_and!; [done|by unfold dir_view; rewrite length_fmap|done|done|done| |apply Hlo| | |cbn; unfold SLOT_SIZE; change (zlen (@nil Slot)) with 0; lia].
    + cbn [fmap option_fmap option_map]. unfold insert_slot. rewrite Ec. unfold u16_try_from, PAGE_SIZE, u16_max in *.
      rewrite (proj2 (Z.leb_le _ _)) by lia. cbn [ok_or]. rewrite Ok_bind.
      rewrite checked_u16_Ok by (unfold PAGE_HEADER_SIZE, SLOT_SIZE, u16_max; lia). rewrite Ok_bind.
      change (zlen (@nil Slot)) with 0. unfold PAGE_HEADER_SIZE, SLOT_SIZE. do 3 f_equal; lia.
    + intros h' Hok Hin _ s'. apply slots_in_append; [done|done|lia].
    + rewrite used_app, used_cons. change (used (dir_view h [])) with 64. unfold entry_bytes, PAGE_HEADER_SIZE. cbn. lia.
Qed.

Lemma find_reusable h id upper ss : laid_out h id upper ss →
  List.find (is_dead h) (slot_ids h) = (λ x, Z.of_nat x.1) <$> free_slot (dir_view h ss).
Proof.
  intros Hlo. pose proof (laid_out_free _ _ _ _ Hlo) as (_ & Hc & _). unfold slot_ids. rewrite Hc.
  apply (find_dead h id upper [] ss Hlo).
Qed.

(** The part of [insert] after the checks. *)
Lemma insert_into h id upper ss record :
  laid_out h id upper ss → page_sealed h → Forall byte_ok record → 0 < zlen record →
  let reusable := (λ x, Z.of_nat x.1) <$> free_slot (dir_view h ss) in
  let slot_overhead := match reusable with Some _ => 0 | None => SLOT_SIZE end in
  zlen record + slot_overhead ≤ contiguous_free_bytes h →
  let header := page_header h in
  let offset := wrapping_sub (h_upper header) (zlen record) in
  ∃ i g v' h', view_place (dir_view h ss) record = (i, g, v')
    ∧ used v' = used (dir_view h ss) + zlen record + slot_overhead
    ∧ (_ ← heap_write offset record;
       upper ← io_lift (checked_u16 offset "heap record offset");
       h ← heap_page;
       '(slot_id, generation, count, lower) ← io_lift (insert_slot h header reusable);
       offset ← io_lift (checked_u16 offset "heap record offset");
       length ← io_lift (checked_u16 (zlen record) "heap record length");
       _ ← write_slot slot_id (mkSlot offset length SLOT_LIVE generation);
       _ ← heap_set_layout lower upper count;
       _ ← heap_seal;
       h ← heap_page;
       mret (mkRecordId (page_id h) slot_id generation)) h = (Ok (mkRecordId id (Z.of_nat i) g), h')
    ∧ heap_rep h' id v'.
Proof.
  intros Hlo Hseal Hr Hpos reusable slot_overhead Hfree header offset.
  pose proof (laid_out_free _ _ _ _ Hlo) as (Ef & _ & Hroom & _). pose proof (zlen_nonneg ss).
  destruct (headed_header _ _ _ _ _ (lo_head _ _ _ _ Hlo)) as (_ & Eu & _).
  assert (0 ≤ slot_overhead) by (unfold slot_overhead, SLOT_SIZE; case_match; lia).
  assert (offset = upper - zlen record) as ->.
  { unfold offset, header. rewrite Eu. apply wrapping_sub_small. unfold u64_max, PAGE_SIZE in *. lia. }
  destruct (insert_slot_run h id upper ss record (upper - zlen record))
    as (l & olds & r & g & Ess & Ep & Hg & Ev & Erun & Hp & Hin & Hused & Hdir); [done|done|lia|lia| |].
  { destruct (free_slot _) eqn:E; [by right|left]. unfold slot_overhead, reusable, SLOT_SIZE in Hfree.
    cbn in Hfree. unfold PAGE_SIZE in *. lia. }
  fold reusable header in Erun, Hused, Hdir. fold slot_overhead in Hused, Hdir.
  destruct (view_place _ record) as [[i g'] v'] eqn:Evp. cbn [fst snd] in Ep, Ev. injection Ep as -> ->. subst v'.
  set (o := upper - zlen record) in *. set (s := mkSlot o (zlen record) SLOT_LIVE g).
  assert (zlen l + 1 + zlen r = zlen (l ++ s :: r)) as Elen by (rewrite zlen_app, zlen_cons; lia). rewrite Elen in *.
  pose proof (zlen_nonneg l). pose proof (lo_fields _ _ _ _ Hlo) as Hf. rewrite Ess in Hf. apply Forall_app in Hf as [Hfl [_ Hfr]%Forall_app].
  destruct (placed h id _ upper _ l s r record (lo_head _ _ _ _ Hlo)) as (Hlo' & Hseal' & Ev'); try done; try (cbn; lia).
  { apply Forall_app. split; [done|]. constructor; [|done]. apply slot_ok_new; [unfold PAGE_SIZE in *; lia..|done]. }
  { change (s_offset s) with o. apply Hin; [apply put_bytes_ok; [apply Hlo|lia..|done]| |unfold PAGE_SIZE in *; lia].
    eapply slots_agree; [apply Hlo|apply put_agree; [apply Hlo|unfold PAGE_SIZE in *; lia..]]. }
  eexists _, _, _, _. split_and!; [done|done| |by eexists _, _]. 
  erewrite io_bind_Ok by (unfold heap_write; rewrite write_range_Ok; [reflexivity|apply Hlo|unfold PAGE_SIZE in *; lia..]).
  erewrite io_bind_Ok by (unfold io_lift; rewrite checked_u16_Ok; [reflexivity|unfold u16_max, PAGE_SIZE in *; lia]).
  erewrite io_bind_Ok by reflexivity. erewrite io_bind_Ok by (unfold io_lift; rewrite Erun; reflexivity). cbv beta iota.
  erewrite io_bind_Ok by (unfold io_lift; rewrite checked_u16_Ok; [reflexivity|unfold u16_max, PAGE_SIZE in *; lia]).
  erewrite io_bind_Ok by (unfold io_lift; rewrite checked_u16_Ok; [reflexivity|unfold u16_max, PAGE_SIZE in *; lia]).
  erewrite io_bind_Ok by (apply write_slot_run; [apply put_bytes_ok; [apply Hlo|lia..|done]|lia|unfold PAGE_SIZE in *; slot_side]).
  erewrite io_bind_Ok by reflexivity. erewrite io_bind_Ok by reflexivity. erewrite io_bind_Ok by reflexivity.
  unfold mret, io_ret. do 2 f_equal. f_equal. apply Hlo'.
Qed.

Lemma view_place_short v record i g v' : view_place v record = (i, g, v') → record = [] ∨ u16_max < zlen record →
  ¬ (record ≠ [] ∧ used v' ≤ PAGE_SIZE).
Proof.
  intros Ep [->|Hbig] [Hne Hu]; [done|]. assert (zlen record ≤ used v'); [|unfold u16_max, PAGE_SIZE in *; lia].
  clear -Ep. assert (∀ w : hview, 64 ≤ used w) as Hpos.
  { intros w. induction w as [|x w IH]; [done|]. rewrite used_cons. unfold entry_bytes, SLOT_SIZE.
    destruct x as [? [r|]]; cbn; [pose proof (zlen_nonneg r)|]; lia. }
  assert (∀ (w w' : hview) g, zlen record ≤ used (w ++ (g, Some record) :: w')) as Hin.
  { intros w w' g'. rewrite used_app, used_cons. unfold entry_bytes, SLOT_SIZE, PAGE_HEADER_SIZE. cbn.
    pose proof (Hpos w). pose proof (Hpos w'). lia. }
  unfold view_place in Ep. destruct (free_slot v) as [[j [g0 o]]|] eqn:Ef; injection Ep as <- <- <-; [|apply Hin].
  apply list_find_Some in Ef as (Hj & _). rewrite insert_take_drop by by apply lookup_lt_Some in Hj. apply Hin.
Qed.

(** What a new slot costs. *)
Definition overhead (v : hview) : Z := match free_slot v with Some _ => 0 | None => SLOT_SIZE end.

Lemma overhead_nonneg v : 0 ≤ overhead v.
Proof. unfold overhead, SLOT_SIZE. case_match; lia. Qed.

Lemma overhead_alt v :
  match (λ x : nat * (Z * option bytes), Z.of_nat x.1) <$> free_slot v with Some _ => 0 | None => SLOT_SIZE end = overhead v.
Proof. unfold overhead. by destruct (free_slot v). Qed.

Lemma view_place_used v record : used (view_place v record).2 = used v + zlen record + overhead v.
Proof.
  unfold view_place, overhead. destruct (free_slot v) as [[i [g o]]|] eqn:Ef; cbn [snd].
  - apply list_find_Some in Ef as (Hi & Ho & _). cbn in Ho. subst o. rewrite (used_insert _ _ _ _ Hi).
    unfold entry_bytes. cbn. lia.
  - rewrite used_app, used_cons, used_nil. unfold entry_bytes, SLOT_SIZE, PAGE_HEADER_SIZE. cbn. lia.
Qed.

(** [insert] adds the record to the table, or refuses it and leaves the table
    as it was. *)
Lemma insert_rep h id v record : heap_rep h id v → Forall byte_ok record →
  match view_insert v record with
  | Some (i, g, v') => ∃ h', heap_insert record h = (Ok (mkRecordId id (Z.of_nat i) g), h') ∧ heap_rep h' id v'
  | None => ∃ e h', heap_insert record h = (Err e, h') ∧ heap_rep h' id v
  end.
Proof.
  intros (upper & ss & Hlo & Hseal & ->) Hr. unfold view_insert. unfold heap_insert.
  destruct (is_empty record || (u16_max <? zlen record)) eqn:Ebad.
  { destruct (view_place _ record) as [[i g] v'] eqn:Ep. rewrite bool_decide_eq_false_2.
    - eexists _, h. split; [|by exists upper, ss]. erewrite io_bind_Ok by reflexivity. by apply io_bind_Err.
    - eapply view_place_short; [done|]. apply orb_true_iff in Ebad as [Hb|Hb%Z.ltb_lt]; [left; by destruct record|by right]. }
  apply orb_false_iff in Ebad as [Hne Hshort%Z.ltb_ge]. assert (record ≠ [] ∧ 0 < zlen record) as [Hne' Hpos].
  { destruct record; [done|]. rewrite zlen_cons. pose proof (zlen_nonneg record). split; [done|lia]. }
  erewrite io_bind_Ok by reflexivity. erewrite io_bind_Ok by reflexivity. rewrite (find_reusable _ _ _ _ Hlo), overhead_alt.
  pose proof (overhead_nonneg (dir_view h ss)) as Hover.
  destruct (make_room h id upper ss (zlen record + overhead (dir_view h ss)) Hlo Hseal ltac:(lia))
    as (h1 & up1 & ss1 & E1 & Hlo1 & Hs1 & _ & Ev1 & Efree).
  rewrite (io_bind_Ok _ _ _ _ _ E1). erewrite io_bind_Ok by reflexivity. cbv zeta. clear E1 Hlo Hseal.
  rewrite <- Ev1 in *. clear Ev1. rewrite Efree. pose proof (view_place_used (dir_view h1 ss1) record) as Eu.
  destruct (Z.ltb_spec PAGE_SIZE (used (dir_view h1 ss1) + (zlen record + overhead (dir_view h1 ss1)))) as [Hfull|Hfits].
  - destruct (view_place _ record) as [[i g] v'] eqn:Ep. cbn [snd] in Eu. rewrite bool_decide_eq_false_2 by (intros [_ ?]; lia).
    eexists _, h1. split; [by apply io_bind_Err|by exists up1, ss1].
  - apply Z.ltb_ge in Efree.
    destruct (insert_into h1 id up1 ss1 record Hlo1 Hs1 Hr Hpos) as (i & g & v' & h' & Ep & Eu' & Erun & Hrep); [by rewrite overhead_alt|].
    rewrite Ep. rewrite bool_decide_eq_true_2 by (rewrite Ep in Eu; cbn [snd] in Eu; split; [done|lia]). exists h'. split; [|done].
    erewrite io_bind_Ok by reflexivity. exact Erun.
Qed.

(** ** Finding a record *)

Lemma check_rid_rep h id upper ss rid : laid_out h id upper ss → 0 ≤ rid_slot_id rid →
  match view_find id (dir_view h ss) rid with
  | Some (i, record) => ∃ l s r, ss = l ++ s :: r ∧ rid_slot_id rid = zlen l ∧ i = length l ∧ slot_live s = true
      ∧ s_generation s = rid_generation rid ∧ body h s = record ∧ check_rid h rid = Ok tt
  | None => ∃ e, check_rid h rid = Err e
  end.
Proof.
  intros Hlo Hpos. pose proof (laid_out_free _ _ _ _ Hlo) as (_ & Hc & _). unfold view_find, check_rid.
  rewrite (hd_id _ _ _ _ _ (lo_head _ _ _ _ Hlo)), Hc. destruct (Z.eqb_spec (rid_page_id rid) id) as [Eid|Nid]; cbn [negb orb].
  2:{ rewrite bool_decide_eq_false_2 by naive_solver. by eexists. }
  rewrite bool_decide_eq_true_2 by done. cbn [mbind option_bind].
  destruct (dir_view h ss !! Z.to_nat (rid_slot_id rid)) as [x|] eqn:Ex; cbn [mbind option_bind].
  2:{ apply lookup_ge_None in Ex. unfold dir_view in Ex. rewrite length_fmap in Ex.
      rewrite (proj2 (Z.leb_le _ _)) by (unfold zlen; lia). by eexists. }
  destruct (view_lookup _ _ _ _ Ex) as (l & s & r & -> & Hi & <-).
  assert (rid_slot_id rid = zlen l) as Eslot by (unfold zlen; lia).
  rewrite (proj2 (Z.leb_gt _ _)) by (rewrite Eslot, zlen_app, zlen_cons; pose proof (zlen_nonneg r); lia).
  cbn [negb]. rewrite ensure_true, Ok_bind, Eslot, (laid_out_read_at _ _ _ _ _ _ Hlo), Ok_bind.
  unfold slot_view. cbn [fst snd]. destruct (slot_live s) eqn:Hv; cbn [mbind option_bind negb orb]; [|by eexists].
  destruct (Z.eqb_spec (s_generation s) (rid_generation rid)); cbn [negb].
  - rewrite bool_decide_eq_true_2 by done. exists l, s, r. split_and!; try done. unfold zlen; lia.
  - rewrite bool_decide_eq_false_2 by done. by eexists.
Qed.

(** [get] returns the record the identifier stands for, and refuses an
    identifier that is stale or of another page. *)
Lemma get_rep h id v rid : heap_rep h id v → 0 ≤ rid_slot_id rid →
  match view_find id v rid with
  | Some (_, record) => heap_get h rid = Ok record
  | None => ∃ e, heap_get h rid = Err e
  end.
Proof.
  intros (upper & ss & Hlo & _ & ->) Hpos. pose proof (check_rid_rep _ _ _ _ _ Hlo Hpos) as Hc. unfold heap_get.
  destruct (view_find id (dir_view h ss) rid) as [[i record]|].
  - destruct Hc as (l & s & r & -> & Eslot & _ & Hv & _ & <- & ->).
    rewrite Ok_bind, Eslot, (laid_out_read_at _ _ _ _ _ _ Hlo), Ok_bind.
    destruct (packed_within _ _ s (lo_packed _ _ _ _ Hlo)) as (? & ? & ?); [set_solver|done|].
    pose proof (laid_out_free _ _ _ _ Hlo) as (_ & _ & ? & _). pose proof (zlen_nonneg (l ++ s :: r)).
    apply bytes_range_Ok; [apply Hlo|lia..].
  - destruct Hc as [e ->]. by eexists.
Qed.

(** ** Changes in place *)

Lemma laid_out_seal h id upper ss : laid_out h id upper ss → heap_rep (seal h) id (dir_view h ss).
Proof.
  intros Hlo. pose proof (laid_out_free _ _ _ _ Hlo) as (_ & _ & Hroom & _). pose proof (zlen_nonneg ss). destruct Hlo as [Hh Hin Hf Hp].
  pose proof (seal_agree h (hd_ok _ _ _ _ _ Hh)) as Ha.
  exists upper, ss. split_and!; [|apply seal_sealed, Hh|].
  - split; [by apply headed_seal| |done|done]. eapply slots_agree; [done|]. eapply agree_sub; [done|lia|lia].
  - symmetry. eapply view_agree; [done|]. eapply agree_sub; [done|lia|done].
Qed.

Lemma reslot h id upper l s s' r : laid_out h id upper (l ++ s :: r) → slot_ok s' → packed upper (l ++ s' :: r) →
  let h' := put_bytes h (slot_offset (zlen l)) (slot_bytes s') in
  write_slot (zlen l) s' h = (Ok tt, h')
  ∧ laid_out h' id upper (l ++ s' :: r) ∧ dir_view h' (l ++ s' :: r) = dir_view h (l ++ s' :: r).
Proof.
  intros Hlo Hs' Hp' h'. pose proof (laid_out_free _ _ _ _ Hlo) as (_ & _ & Hroom & _). destruct Hlo as [Hh Hin Hf Hp].
  assert (zlen (l ++ s' :: r) = zlen (l ++ s :: r)) as En by by rewrite !zlen_app, !zlen_cons.
  pose proof (zlen_nonneg l). pose proof (zlen_nonneg r). assert (zlen (l ++ s :: r) = zlen l + 1 + zlen r) as En' by (rewrite zlen_app, zlen_cons; lia).
  split_and!; [apply write_slot_run; [apply Hh|lia|lia]| |].
  - split; [| | |done].
    + rewrite En. apply headed_put; [done|slot_side| |apply slot_bytes_ok]. unfold PAGE_SIZE in *. slot_side.
    + apply (slots_in_write h l s r s'); [apply Hh|done|lia].
    + apply Forall_app in Hf as [? [_ ?]%Forall_cons]. apply Forall_app. split; [done|by constructor].
  - eapply view_agree; [done|]. apply put_agree; [apply Hh|unfold PAGE_SIZE in *; slot_side..].
Qed.

(** Overwriting (part of) the body of a live slot leaves the others alone. *)
Lemma rebody h id upper l s r w : laid_out h id upper (l ++ s :: r) → slot_live s = true → Forall byte_ok w → zlen w ≤ s_length s →
  let h' := put_bytes h (s_offset s) w in
  heap_write (s_offset s) w h = (Ok tt, h') ∧ laid_out h' id upper (l ++ s :: r)
  ∧ dir_view h' l = dir_view h l ∧ dir_view h' r = dir_view h r ∧ bytes_get (page_bytes h') (s_offset s) (zlen w) = w.
Proof.
  intros Hlo Hv Hw Hlen h'. pose proof (laid_out_free _ _ _ _ Hlo) as (_ & _ & Hroom & _). destruct Hlo as [Hh Hin Hf Hp].
  destruct (packed_within _ _ s Hp) as (? & ? & ?); [set_solver|done|]. pose proof (zlen_nonneg (l ++ s :: r)). pose proof (zlen_nonneg w).
  assert (∀ s', s' ∈ l ++ r → slot_view h' s' = slot_view h s') as Hsv.
  { intros s' Hs'. unfold slot_view. destruct (slot_live s') eqn:Hv'; [|done]. do 2 f_equal. unfold body.
    pose proof (packed_apart _ _ _ _ _ Hp Hv Hv' Hs'). destruct (packed_within _ _ s' Hp) as (? & ? & ?); [set_solver|done|].
    apply get_put_other; [apply Hh|lia..]. }
  split_and!.
  - unfold heap_write. by rewrite write_range_Ok by (apply Hh || lia).
  - split; [apply headed_put; [done|lia..|done]| |done|done]. eapply slots_agree; [done|]. apply put_agree; [apply Hh|lia..].
  - apply list_fmap_ext. intros i s' Hs'%list_elem_of_lookup_2. apply Hsv. set_solver.
  - apply list_fmap_ext. intros i s' Hs'%list_elem_of_lookup_2. apply Hsv. set_solver.
  - apply get_put_same; [apply Hh|lia..].
Qed.

Lemma dead_flags s : slot_live (with_flags s 0) = false.
Proof. done. Qed.

(** Marking a slot dead. *)
Lemma kill_slot h id upper l s r : laid_out h id upper (l ++ s :: r) →
  let s' := with_flags s 0 in let h' := put_bytes h (slot_offset (zlen l)) (slot_bytes s') in
  write_slot (zlen l) s' h = (Ok tt, h') ∧ laid_out h' id upper (l ++ s' :: r)
  ∧ dir_view h' (l ++ s' :: r) = <[length l := (s_generation s, None)]> (dir_view h (l ++ s :: r)).
Proof.
  intros Hlo s' h'. pose proof (lo_packed _ _ _ _ Hlo) as Hp. destruct (reslot h id upper l s s' r) as (E & Hlo' & Ev); [done|..].
  - pose proof (lo_fields _ _ _ _ Hlo) as [_ [(? & ? & ? & ?) _]%Forall_cons]%Forall_app. repeat split; cbn; done || lia.
  - apply packed_dead; [done|]. by eapply packed_drop.
  - split_and!; [done|done|]. unfold h'. rewrite Ev, dir_view_insert. unfold dir_view. by rewrite fmap_app, fmap_cons.
Qed.

(** [delete] removes the record and keeps its generation. *)
Lemma delete_rep h id v rid : heap_rep h id v → 0 ≤ rid_slot_id rid →
  match view_delete id v rid with
  | Some v' => ∃ h', heap_delete rid h = (Ok true, h') ∧ heap_rep h' id v'
  | None => ∃ e, heap_delete rid h = (Err e, h)
  end.
Proof.
  intros (upper & ss & Hlo & _ & ->) Hpos. pose proof (check_rid_rep _ _ _ _ _ Hlo Hpos) as Hc. unfold heap_delete, view_delete.
  erewrite io_bind_Ok by reflexivity. destruct (view_find id (dir_view h ss) rid) as [[i record]|]; cbn [fmap option_fmap option_map mbind option_bind fst].
  - destruct Hc as (l & s & r & -> & Eslot & -> & Hv & Eg & _ & Ec). rewrite Eslot.
    erewrite io_bind_Ok by (unfold io_lift; rewrite Ec; reflexivity).
    erewrite io_bind_Ok by (unfold io_lift; rewrite (laid_out_read_at _ _ _ _ _ _ Hlo); reflexivity).
    destruct (kill_slot _ _ _ _ _ _ Hlo) as (E & Hlo' & Ev). rewrite (io_bind_Ok _ _ _ _ _ E).
    eexists. split; [reflexivity|]. rewrite <- Eg, <- Ev. by eapply laid_out_seal.
  - destruct Hc as [e Ec]. exists e. apply io_bind_Err. unfold io_lift. by rewrite Ec.
Qed.

(** ** Update *)

Lemma view_middle h l s r : dir_view h (l ++ s :: r) = dir_view h l ++ slot_view h s :: dir_view h r.
Proof. unfold dir_view. by rewrite fmap_app, fmap_cons. Qed.

(** A record that is not longer goes where the old one is. *)
Lemma update_shorter h id upper l s r record : laid_out h id upper (l ++ s :: r) → slot_live s = true →
  Forall byte_ok record → 0 < zlen record ≤ s_length s →
  ∃ h', (_ ← heap_write (s_offset s) (zeros (s_length s));
         _ ← heap_write (s_offset s) record;
         length ← io_lift (checked_u16 (zlen record) "heap record length");
         _ ← write_slot (zlen l) (with_length s length);
         heap_seal) h = (Ok tt, h')
    ∧ heap_rep h' id (<[length l := (s_generation s, Some record)]> (dir_view h (l ++ s :: r))).
Proof.
  intros Hlo Hv Hr Hlen. pose proof (lo_fields _ _ _ _ Hlo) as [_ [(Ho & Hle & Hfl & Hg) _]%Forall_cons]%Forall_app.
  assert (zlen (zeros (s_length s)) = s_length s) as Ez by (apply zlen_zeros; lia).
  destruct (rebody h id upper l s r (zeros (s_length s)) Hlo Hv (zeros_ok _) ltac:(lia)) as (E1 & Hlo1 & El1 & Er1 & _).
  destruct (rebody _ id upper l s r record Hlo1 Hv Hr ltac:(lia)) as (E2 & Hlo2 & El2 & Er2 & Eb).
  destruct (reslot _ id upper l s (with_length s (zlen record)) r Hlo2) as (E3 & Hlo3 & Ev).
  { repeat split; cbn; lia. }
  { eapply packed_shrink; [apply Hlo2|done|done|done|done]. }
  rewrite (io_bind_Ok _ _ _ _ _ E1), (io_bind_Ok _ _ _ _ _ E2).
  erewrite io_bind_Ok by (unfold io_lift; rewrite checked_u16_Ok; [reflexivity|lia]).
  rewrite (io_bind_Ok _ _ _ _ _ E3). eexists. split; [reflexivity|].
  rewrite dir_view_insert, <- El1, <- El2, <- Er1, <- Er2.
  replace (s_generation s, Some record) with (slot_view (put_bytes (put_bytes h (s_offset s) (zeros (s_length s))) (s_offset s) record) (with_length s (zlen record))).
  - rewrite <- view_middle, <- Ev. by eapply laid_out_seal.
  - unfold slot_view. change (slot_live (with_length s (zlen record))) with (slot_live s). rewrite Hv. unfold body. cbn [s_offset s_length with_length].
    by rewrite Eb.
Qed.

(** A longer one leaves its place, and is put below the compacted others. *)
Lemma update_longer h id upper l s r record : laid_out h id upper (l ++ s :: r) → slot_live s = true →
  Forall byte_ok record → 0 < zlen record → 
  let v' := <[length l := (s_generation s, Some record)]> (dir_view h (l ++ s :: r)) in
  let run := (_ ← write_slot (zlen l) (with_flags s 0);
    _ ← compact;
    h ← heap_page;
    _ ← io_ensure (negb (contiguous_free_bytes h <? zlen record))
          (RecordTooLarge (zlen record) (contiguous_free_bytes h));
    let header := page_header h in
    let offset := wrapping_sub (h_upper header) (zlen record) in
    _ ← heap_write offset record;
    upper ← io_lift (checked_u16 offset "heap record offset");
    offset ← io_lift (checked_u16 offset "heap record offset");
    length ← io_lift (checked_u16 (zlen record) "heap record length");
    _ ← write_slot (zlen l) (mkSlot offset length SLOT_LIVE (s_generation s));
    _ ← heap_set_layout (h_lower header) upper (h_slot_count header);
    heap_seal) h in
  if bool_decide (used v' ≤ PAGE_SIZE) then ∃ h', run = (Ok tt, h') ∧ heap_rep h' id v'
  else ∃ e h', run = (Err e, h').
Proof.
  intros Hlo Hv Hr Hpos v' run. pose proof (lo_fields _ _ _ _ Hlo) as [_ [(_ & _ & _ & Hg) _]%Forall_cons]%Forall_app.
  destruct (kill_slot _ _ _ _ _ _ Hlo) as (E1 & Hlo1 & Ev1).
  destruct (compact_run _ _ _ _ Hlo1) as (h2 & ss2 & E2 & Hlo2 & _ & En2 & Ev2).
  pose proof (laid_out_free _ _ _ _ Hlo1) as (_ & _ & Hroom1 & _). pose proof (zlen_nonneg (l ++ with_flags s 0 :: r)).
  pose proof (used_view _ upper _ (hd_ok _ _ _ _ _ (lo_head _ _ _ _ Hlo1)) ltac:(lia) (lo_packed _ _ _ _ Hlo1)) as Eused.
  rewrite <- Ev2, <- En2 in Eused. rewrite Ev1 in Ev2.
  assert (dir_view h2 ss2 !! length l = Some (s_generation s, None)) as Hi.
  { rewrite Ev2. apply list_lookup_insert_eq. unfold dir_view. rewrite length_fmap, length_app. cbn. lia. }
  destruct (view_lookup _ _ _ _ Hi) as (l2 & s2 & r2 & -> & El2 & Es2).
  assert (zlen l2 = zlen l) as Ezl by (unfold zlen; lia).
  assert (slot_live s2 = false) as Hd by (unfold slot_view in Es2; destruct (slot_live s2); naive_solver).
  assert (v' = dir_view h2 l2 ++ (s_generation s, Some record) :: dir_view h2 r2) as Ev'.
  { unfold v'. rewrite <- (dir_view_insert h2 l2 s2), Ev2, El2. by rewrite list_insert_insert_eq. }
  assert (used v' = used (dir_view h2 (l2 ++ s2 :: r2)) + zlen record) as Eu.
  { rewrite Ev', <- (dir_view_insert h2 l2 s2), El2, (used_insert _ _ _ _ Hi). unfold entry_bytes. cbn. lia. }
  pose proof (laid_out_free _ _ _ _ Hlo2) as (Ef & _ & Hroom & _). set (up := PAGE_SIZE - _) in *.
  destruct (headed_header _ _ _ _ _ (lo_head _ _ _ _ Hlo2)) as (Elo & Eup & Ect). pose proof (zlen_nonneg (l2 ++ s2 :: r2)).
  unfold run. rewrite (io_bind_Ok _ _ _ _ _ E1), (io_bind_Ok _ _ _ _ _ E2). erewrite io_bind_Ok by reflexivity.
  rewrite Ef. destruct (Z.ltb_spec (up - (64 + 8 * zlen (l2 ++ s2 :: r2))) (zlen record)) as [Hfull|Hfits].
  { rewrite bool_decide_eq_false_2 by (unfold up in *; lia). eexists _, _. by apply io_bind_Err. }
  rewrite bool_decide_eq_true_2 by (unfold up in *; lia). erewrite io_bind_Ok by reflexivity. cbv zeta.
  rewrite Elo, Eup, Ect, wrapping_sub_small by (unfold u64_max, PAGE_SIZE in *; lia).
  set (o := up - zlen record). set (s3 := mkSlot o (zlen record) SLOT_LIVE (s_generation s)).
  assert (zlen (l2 ++ s3 :: r2) = zlen (l2 ++ s2 :: r2)) as En3 by by rewrite !zlen_app, !zlen_cons.
  assert (zlen (l2 ++ s2 :: r2) = zlen l2 + 1 + zlen r2) as En4 by (rewrite zlen_app, zlen_cons; lia). pose proof (zlen_nonneg l2). pose proof (zlen_nonneg r2).
  assert (page_ok (put_bytes h2 o record)) as Hok3 by (apply put_bytes_ok; [apply Hlo2|lia..|done]).
  destruct (placed h2 id _ up _ l2 s3 r2 record (lo_head _ _ _ _ Hlo2)) as (Hlo' & Hseal' & Ev3); try done; try (cbn; lia).
  { apply (packed_drop _ _ s2), Hlo2. }
  { pose proof (lo_fields _ _ _ _ Hlo2) as [? [_ ?]%Forall_cons]%Forall_app. apply Forall_app. split; [done|]. constructor; [|done].
    apply slot_ok_new; [unfold PAGE_SIZE in *; lia..|done]. }
  { change (s_offset s3) with o. eapply slots_in_write; [done|eapply slots_agree; [apply Hlo2|apply put_agree; [apply Hlo2|lia..]]|lia]. }
  eexists. split; [|rewrite Ev'; eexists _, _; split; [apply Hlo'|split; [done|by rewrite Ev3]]].
  rewrite <- Ezl.
  erewrite io_bind_Ok by (unfold heap_write; rewrite write_range_Ok; [reflexivity|apply Hlo2|lia..]).
  erewrite io_bind_Ok by (unfold io_lift; rewrite checked_u16_Ok; [reflexivity|unfold u16_max, PAGE_SIZE in *; lia]).
  erewrite io_bind_Ok by (unfold io_lift; rewrite checked_u16_Ok; [reflexivity|unfold u16_max, PAGE_SIZE in *; lia]).
  erewrite io_bind_Ok by (unfold io_lift; rewrite checked_u16_Ok; [reflexivity|unfold u16_max, PAGE_SIZE in *; lia]).
  erewrite io_bind_Ok by (apply write_slot_run; [done|lia|unfold PAGE_SIZE in *; lia]).
  rewrite En3. reflexivity.
Qed.

(** [update] replaces the record under the same identifier; when it cannot, the
    page is the page it was, byte for byte. *)
Lemma update_rep h id v rid record : heap_rep h id v → 0 ≤ rid_slot_id rid → Forall byte_ok record → record ≠ [] →
  match view_update id v rid record with
  | Some v' => ∃ h', heap_update rid record h = (Ok tt, h') ∧ heap_rep h' id v'
  | None => ∃ e, heap_update rid record h = (Err e, h)
  end.
Proof.
  intros Hrep Hpos Hr Hne. pose proof (get_rep _ _ _ _ Hrep Hpos) as Hget. destruct Hrep as (upper & ss & Hlo & _ & ->).
  pose proof (check_rid_rep _ _ _ _ _ Hlo Hpos) as Hc. unfold heap_update, update_in_place, view_update.
  assert (0 < zlen record) by (destruct record; [done|rewrite zlen_cons; pose proof (zlen_nonneg record); lia]).
  erewrite io_bind_Ok by reflexivity. destruct (view_find id (dir_view h ss) rid) as [[i old]|] eqn:Ef;
    cbn [fmap option_fmap option_map mbind option_bind fst].
  2:{ destruct Hc as [e Ec]. exists e. erewrite io_bind_Err by (unfold io_lift; rewrite Ec; reflexivity). done. }
  destruct Hc as (l & s & r & -> & Eslot & -> & Hv & Eg & Eb & Ec).
  pose proof (laid_out_bodies _ _ _ _ Hlo) as [_ [Hbs _]%Forall_cons]%Forall_app. destruct (Hbs Hv) as (Elen & Hslen & _). rewrite Eb in Elen.
  erewrite io_bind_Ok by (unfold io_lift; rewrite Ec; reflexivity).
  erewrite io_bind_Ok by (unfold io_lift; rewrite Hget; reflexivity). rewrite Eslot.
  erewrite io_bind_Ok by (unfold io_lift; rewrite (laid_out_read_at _ _ _ _ _ _ Hlo); reflexivity). rewrite Elen, <- Eg.
  destruct (Z.leb_spec (zlen record) (s_length s)).
  - destruct (update_shorter _ _ _ _ _ _ _ Hlo Hv Hr ltac:(done)) as (h' & Erun & Hrep).
    rewrite Erun. rewrite bool_decide_eq_true_2; [by exists h'|].
    destruct Hrep as (up' & ss' & Hlo' & _ & ->). pose proof (laid_out_free _ _ _ _ Hlo'). lia.
  - pose proof (update_longer _ _ _ _ _ _ _ Hlo Hv Hr ltac:(done)) as Hl. cbv zeta in Hl. case_bool_decide.
    + destruct Hl as (h' & Erun & Hrep). rewrite Erun. by exists h'.
    + destruct Hl as (e & h' & Erun). rewrite Erun. by exists e.
Qed.

(** ** Validation *)

(** The intervals [validate] collects. *)
Fixpoint triples (k : Z) (ss : list Slot) : list (Z * Z * Z) :=
  match ss with
  | [] => []
  | s :: ss => if slot_live s then (s_offset s, s_offset s + s_length s, k) :: triples (k + 1) ss else triples (k + 1) ss
  end.

Lemma triples_spans k ss : fst <$> triples k ss = spans ss.
Proof.
  revert k. induction ss as [|s ss IH]; intros k; [done|]. rewrite spans_cons. unfold span. cbn [triples].
  destruct (slot_live s); cbn; by rewrite IH.
Qed.

Definition body_ok (upper : Z) (s : Slot) : Prop :=
  slot_live s = true → s_length s ≠ 0 ∧ upper ≤ s_offset s ∧ s_offset s + s_length s ≤ PAGE_SIZE.

Lemma validate_slots_run h header l r acc x :
  (∀ i s, (l ++ r) !! i = Some s → read_slot h (Z.of_nat i) = Ok s) →
  foldM (validate_slot h header) acc (seqZ (zlen l) (zlen r)) = Ok x
  ↔ Forall (body_ok (h_upper header)) r ∧ x = acc ++ triples (zlen l) r.
Proof.
  revert l acc. induction r as [|s r IH]; intros l acc Hread.
  { cbn. rewrite app_nil_r. split; [intros [= ->]; done|by intros [_ ->]]. }
  pose proof (zlen_nonneg r). rewrite zlen_cons, seqZ_cons by lia. cbn [foldM].
  replace (Z.succ (zlen l)) with (zlen (l ++ [s])) by (rewrite zlen_app; unfold zlen; cbn; lia).
  replace (Z.pred (1 + zlen r)) with (zlen r) by lia.
  assert (read_slot h (zlen l) = Ok s) as Es by by apply Hread, list_lookup_middle.
  assert (zlen l + 1 = zlen (l ++ [s])) as E' by (rewrite zlen_app; unfold zlen; cbn; lia).
  specialize (IH (l ++ [s])). pose proof (eq_refl (validate_slot h header acc (zlen l))) as V.
  unfold validate_slot in V at 2. rewrite Es, Ok_bind in V. rewrite V, Forall_cons. clear V. cbn [triples]. rewrite E'. unfold body_ok at 1.
  destruct (slot_live s) eqn:Hv.
  - destruct (Z.eqb_spec (s_length s) 0); cbn [negb ensure mbind result_bind]; [naive_solver|].
    destruct (Z.ltb_spec (s_offset s) (h_upper header)); cbn [orb negb ensure mbind result_bind]; [split; [done|]; intros [[Hx _] _]; specialize (Hx eq_refl); lia|].
    destruct (Z.ltb_spec PAGE_SIZE (s_offset s + s_length s)); cbn [orb negb ensure mbind result_bind]; [split; [done|]; intros [[Hx _] _]; specialize (Hx eq_refl); lia|].
    rewrite IH by by rewrite <- (assoc_L app). rewrite <- (app_assoc acc). naive_solver lia.
  - rewrite Ok_bind, IH by by rewrite <- (assoc_L app). naive_solver.
Qed.

Lemma windows_chain lo l : check_windows l = Ok tt → Forall (λ t, t.1.1 < t.1.2 ∧ t.1.2 ≤ PAGE_SIZE) l →
  Forall (λ t, lo ≤ t.1.1) (take 1 l) → lo ≤ PAGE_SIZE → chain lo (fst <$> l).
Proof.
  revert lo. induction l as [|[[a b] i] l IH]; intros lo; [done|]. intros Hw [Hab Hf]%Forall_cons [Hlo _]%Forall_cons Hle. cbn in Hab, Hlo |- *.
  split_and!; [done|lia|]. destruct l as [|[[a' b'] j] l]; [cbn; lia|].
  cbn [check_windows] in Hw. apply result_bind_Ok in Hw as ([] & Hb%ensure_Ok & Hw). apply negb_true_iff, Z.ltb_ge in Hb.
  apply IH; [done|done| |lia]. repeat constructor. done.
Qed.

Lemma chain_windows lo l : chain lo (fst <$> l) → check_windows l = Ok tt.
Proof.
  revert lo. induction l as [|[[a b] i] l IH]; intros lo; [done|]. intros (? & ? & Hc). destruct l as [|[[a' b'] j] l]; [done|].
  cbn [check_windows]. pose proof Hc as (? & _). rewrite (proj2 (Z.ltb_ge _ _)) by done. cbn [negb]. rewrite ensure_true, Ok_bind. by eapply IH.
Qed.

Lemma triple_cmp_opp x y : triple_cmp y x = CompOpp (triple_cmp x y).
Proof.
  destruct x as [[a b] c], y as [[a' b'] c']. cbn. rewrite (Z.compare_antisym a a'), (Z.compare_antisym b b'), (Z.compare_antisym c c').
  by destruct (a ?= a'), (b ?= b').
Qed.

Lemma triple_cmp_le x y : triple_cmp x y ≠ Gt ↔
  x.1.1 < y.1.1 ∨ x.1.1 = y.1.1 ∧ (x.1.2 < y.1.2 ∨ x.1.2 = y.1.2 ∧ x.2 ≤ y.2).
Proof.
  destruct x as [[a b] c], y as [[a' b'] c']. cbn [triple_cmp fst snd].
  destruct (Z.compare_spec a a'); [|split; [by left|done]|split; [done|lia]].
  destruct (Z.compare_spec b b'); [|split; [lia|done]|split; [done|lia]].
  destruct (Z.compare_spec c c'); split; try done; lia.
Qed.

#[local] Instance triple_le_antisymm : AntiSymm (=) (λ x y, triple_cmp x y ≠ Gt).
Proof.
  intros x y Hxy%triple_cmp_le Hyx%triple_cmp_le. destruct x as [[a b] c], y as [[a' b'] c']. cbn in *.
  assert (a = a' ∧ b = b' ∧ c = c') as (-> & -> & ->) by lia. done.
Qed.

Lemma sort_triples_sorted l : StronglySorted (λ x y, triple_cmp x y ≠ Gt) (sort_by triple_cmp l).
Proof.
  apply (sort_by_sorted _ (λ _, True)); [intros; apply triple_cmp_opp| |by apply Forall_true].
  intros x y z _ _ _ Hxy%triple_cmp_le Hyz%triple_cmp_le. apply triple_cmp_le. lia.
Qed.

Lemma chain_sorted lo l : chain lo (fst <$> l) → StronglySorted (λ x y, triple_cmp x y ≠ Gt) l.
Proof.
  revert lo. induction l as [|[[a b] i] l IH]; intros lo; [constructor|]. intros (? & ? & Hc). constructor; [by eapply IH|].
  apply chain_within in Hc. rewrite Forall_fmap in Hc. eapply Forall_impl; [apply Hc|]. intros t Ht. apply triple_cmp_le. cbn in *. lia.
Qed.

(** A chain in some order is found by sorting. *)
Lemma packed_sort lo k ss : packed lo ss → chain lo (fst <$> sort_by triple_cmp (triples k ss)).
Proof.
  intros (l & Hl & Hc). rewrite <- (triples_spans k) in Hl. symmetry in Hl.
  destruct (Permutation_map_inv _ _ (symmetry Hl)) as (l' & -> & Hp).
  replace (sort_by triple_cmp (triples k ss)) with l'; [done|].
  apply (StronglySorted_unique (λ x y, triple_cmp x y ≠ Gt)); [by eapply chain_sorted|apply sort_triples_sorted|].
  by rewrite sort_by_perm.
Qed.

(** What [from_page] accepts. *)
Lemma accepted_spec h : from_page h = Ok h ↔
  page_kind h = Heap ∧ page_shape h ∧ page_sealed h
  ∧ h_lower (page_header h) = PAGE_HEADER_SIZE + slot_count h * SLOT_SIZE
  ∧ PAGE_HEADER_SIZE + slot_count h * SLOT_SIZE ≤ PAGE_SIZE
  ∧ ∃ x, foldM (validate_slot h (page_header h)) [] (seqZ 0 (slot_count h)) = Ok x ∧ check_windows (sort_by triple_cmp x) = Ok tt.
Proof.
  unfold from_page, heap_validate. split.
  - intros ([] & Hk%ensure_Ok & ([] & Hv & _)%result_bind_Ok)%result_bind_Ok. apply bool_decide_eq_true in Hk.
    apply result_bind_Ok in Hv as ([] & [Hs Hc]%page_validate_spec & Hv). cbv zeta in Hv.
    apply result_bind_Ok in Hv as ([] & Hd%ensure_Ok & Hv). apply result_bind_Ok in Hv as (x & Hx & Hw).
    apply negb_true_iff, orb_false_iff in Hd as [Hd%negb_false_iff%Z.eqb_eq Hle%Z.ltb_ge]. unfold slot_count. eauto 10.
  - intros (Hk & Hs & Hc & Hd & Hle & x & Hx & Hw). unfold slot_count in *.
    rewrite (proj2 (page_validate_spec h)) by done. rewrite bool_decide_eq_true_2 by done. rewrite ensure_true, !Ok_bind.
    cbv zeta. rewrite Hd, Z.eqb_refl, (proj2 (Z.ltb_ge _ _)) by done. cbn [negb orb]. rewrite ensure_true, Ok_bind, Hx, Ok_bind, Hw. done.
Qed.

(** A page at rest is accepted. *)
Lemma rep_accepted h id v : heap_rep h id v → from_page h = Ok h.
Proof.
  intros (upper & ss & Hlo & Hseal & ->). pose proof (laid_out_free _ _ _ _ Hlo) as (_ & Hc & Hb & _). pose proof Hlo as [Hh _ _ Hp].
  destruct (headed_header _ _ _ _ _ Hh) as (E1 & E2 & E3). apply accepted_spec. split_and!; try apply Hh; try done.
  - rewrite E1, Hc. unfold PAGE_HEADER_SIZE, SLOT_SIZE. lia.
  - rewrite Hc. unfold PAGE_HEADER_SIZE, SLOT_SIZE. lia.
  - exists (triples 0 ss). split.
    + rewrite Hc. apply (validate_slots_run h (page_header h) [] ss []); [intros i s Hs; by eapply laid_out_read|].
      split; [|done]. apply Forall_forall. intros s Hs Hv. rewrite E2. destruct (packed_within _ _ _ Hp Hs Hv). lia.
    + eapply chain_windows, packed_sort, Hp.
Qed.

(** The slots the directory of a page holds. *)
Definition slot_at (h : Page) (i : Z) : Slot :=
  let b := bytes_get (page_bytes h) (slot_offset i) 8 in
  mkSlot (from_le_bytes (bytes_get b 0 2)) (from_le_bytes (bytes_get b 2 2))
         (from_le_bytes (bytes_get b 4 2)) (from_le_bytes (bytes_get b 6 2)).
Definition slots_of (h : Page) : list Slot := slot_at h <$> seqZ 0 (slot_count h).
Definition heap_view (h : Page) : hview := dir_view h (slots_of h).

Lemma u16_bytes b o : Forall byte_ok b → zlen b = 8 → 0 ≤ o ≤ 6 →
  0 ≤ from_le_bytes (bytes_get b o 2) ≤ u16_max ∧ to_le_bytes 2 (from_le_bytes (bytes_get b o 2)) = bytes_get b o 2.
Proof.
  intros Hb Hl Ho. assert (Forall byte_ok (bytes_get b o 2)) as Hw by by apply Forall_bytes_get.
  assert (zlen (bytes_get b o 2) = 2) as Hn by (apply zlen_bytes_get; lia).
  pose proof (from_le_bytes_bound _ Hw) as Hbd. rewrite Hn in Hbd. change (256 ^ 2) with 65536 in Hbd. split; [unfold u16_max; lia|].
  rewrite <- (to_from_le_bytes _ Hw) at 2. f_equal. unfold zlen in Hn. lia.
Qed.

Lemma slot_at_bytes h i : page_ok h → 0 ≤ i → 64 + 8 * (i + 1) ≤ PAGE_SIZE →
  slot_ok (slot_at h i) ∧ bytes_get (page_bytes h) (slot_offset i) 8 = slot_bytes (slot_at h i).
Proof.
  intros [Hl Hb] Hi Hn. unfold slot_at, slot_ok, slot_bytes. cbn [s_offset s_length s_flags s_generation].
  set (b := bytes_get (page_bytes h) (slot_offset i) 8).
  assert (Forall byte_ok b) as Hbb by by apply Forall_bytes_get.
  assert (zlen b = 8) as Hbl by (apply zlen_bytes_get; [slot_side..|rewrite Hl; slot_side]).
  destruct (u16_bytes b 0 Hbb Hbl) as [? E0]; [lia|]. destruct (u16_bytes b 2 Hbb Hbl) as [? E2]; [lia|].
  destruct (u16_bytes b 4 Hbb Hbl) as [? E4]; [lia|]. destruct (u16_bytes b 6 Hbb Hbl) as [? E6]; [lia|].
  split; [done|]. rewrite E0, E2, E4, E6. clearbody b. clear -Hbl. unfold zlen in Hbl.
  do 8 (destruct b as [|? b]; [done|]). destruct b; [done|cbn in Hbl; lia].
Qed.

Lemma slots_of_lookup h i s : slots_of h !! i = Some s ↔ Z.of_nat i < slot_count h ∧ s = slot_at h (Z.of_nat i).
Proof.
  unfold slots_of. rewrite list_lookup_fmap_Some. setoid_rewrite lookup_seqZ. split.
  - intros (y & -> & [-> ?]). by rewrite Z.add_0_l.
  - intros [? ->]. exists (Z.of_nat i). rewrite Z.add_0_l. done.
Qed.

Lemma slot_count_nonneg h : page_ok h → 0 ≤ slot_count h ≤ u16_max.
Proof.
  intros [Hl Hb]. unfold slot_count. cbn [h_slot_count page_header]. unfold get_u16.
  assert (Forall byte_ok (bytes_get (page_bytes h) 36 2)) as Hw by by apply Forall_bytes_get.
  pose proof (from_le_bytes_bound _ Hw) as Hbd. rewrite zlen_bytes_get in Hbd by (rewrite ?Hl; done).
  change (256 ^ 2) with 65536 in Hbd. unfold u16_max. lia.
Qed.

Lemma zlen_slots_of h : page_ok h → zlen (slots_of h) = slot_count h.
Proof. intros ?%slot_count_nonneg. unfold slots_of, zlen. rewrite length_fmap, length_seqZ. lia. Qed.

(** The directory of a page at rest is the one its bytes hold. *)
Lemma rep_view h id v : heap_rep h id v → v = heap_view h ∧ id = page_id h.
Proof.
  intros (upper & ss & Hlo & _ & ->). pose proof (laid_out_free _ _ _ _ Hlo) as (_ & Hc & Hb & _).
  pose proof (hd_id _ _ _ _ _ (lo_head _ _ _ _ Hlo)) as <-. split; [|done]. unfold heap_view. f_equal.
  pose proof (hd_ok _ _ _ _ _ (lo_head _ _ _ _ Hlo)) as Hok.
  apply list_eq_same_length with (length ss); [|done|].
  { pose proof (zlen_slots_of h Hok). unfold zlen in *. lia. }
  intros i x y Hi Hx [_ ->]%slots_of_lookup. pose proof (laid_out_read _ _ _ _ _ _ Hlo Hx) as Hr.
  unfold read_slot in Hr. apply result_bind_Ok in Hr as ([] & _ & (b & Hbr & Hr)%result_bind_Ok). apply Ok_inj in Hr as <-.
  rewrite bytes_range_Ok in Hbr; [|done|slot_side|done|slot_side]. apply Ok_inj in Hbr as <-. done.
Qed.

(** Every page [from_page] accepts is laid out: its slots and bodies are where
    the operations expect them. *)
Lemma accepted_rep h : page_ok h → from_page h = Ok h → heap_rep h (page_id h) (heap_view h).
Proof.
  intros Hok (Hk & Hs & Hseal & Hd & Hle & x & Hx & Hw)%accepted_spec.
  pose proof (slot_count_nonneg h Hok) as Hn. pose proof (zlen_slots_of h Hok) as Hz. unfold PAGE_HEADER_SIZE, SLOT_SIZE in Hd, Hle.
  exists (h_upper (page_header h)), (slots_of h). split_and!; [|done|done].
  assert (slots_in h (slots_of h) ∧ Forall slot_ok (slots_of h)) as [Hin Hf].
  { split.
    - intros i s [Hi ->]%slots_of_lookup. apply slot_at_bytes; [done|lia|lia].
    - apply Forall_lookup. intros i s [Hi ->]%slots_of_lookup. apply slot_at_bytes; [done|lia|lia]. }
  assert (∀ i s, ([] ++ slots_of h) !! i = Some s → read_slot h (Z.of_nat i) = Ok s) as Hread.
  { intros i s Hi. eapply read_slot_in; [done|done|rewrite Hz; lia|done| |exact Hi].
    rewrite Forall_lookup in Hf. by eapply Hf. }
  pose proof (shape_bounds _ Hs) as Hbounds. unfold PAGE_HEADER_SIZE in Hbounds.
  change (get_u16 h 34) with (h_upper (page_header h)) in Hbounds. change (get_u16 h 32) with (h_lower (page_header h)) in Hbounds.
  split.
  - split; try done; rewrite Hz; change (h_lower (page_header h) = 64 + 8 * slot_count h) || change (slot_count h = slot_count h); first [done|lia].
  - done.
  - done.
  - rewrite <- Hz in Hx. apply (validate_slots_run h (page_header h) [] (slots_of h) [] x Hread) in Hx as [Hbodies ->].
    cbn [app] in Hw. change (zlen (@nil Slot)) with 0 in Hw.
    exists (fst <$> sort_by triple_cmp (triples 0 (slots_of h))). split.
    { rewrite <- (triples_spans 0 (slots_of h)). apply fmap_Permutation, sort_by_perm. }
    assert (Forall (λ t, h_upper (page_header h) ≤ t.1.1 ∧ t.1.1 < t.1.2 ∧ t.1.2 ≤ PAGE_SIZE) (sort_by triple_cmp (triples 0 (slots_of h)))) as Ht.
    { rewrite sort_by_perm. generalize 0. clear -Hbodies Hf. induction (slots_of h) as [|s ss IH]; intros k; [constructor|].
      apply Forall_cons in Hbodies as [Hb Hbodies]. apply Forall_cons in Hf as [(_ & ? & _) Hf]. cbn [triples].
      destruct (slot_live s) eqn:Hv; [|by apply IH]. destruct (Hb Hv) as (? & ? & ?). constructor; [cbn [fst snd]; lia|by apply IH]. }
    apply windows_chain; [done| | |lia].
    + eapply Forall_impl; [exact Ht|]. cbn [fst snd]. lia.
    + apply Forall_take. eapply Forall_impl; [exact Ht|]. cbn [fst snd]. lia.
Qed.

(** ** Operations in sequence *)

Inductive heap_op : Type :=
| HInsert (record : bytes)
| HGet (rid : RecordId)
| HUpdate (rid : RecordId) (record : bytes)
| HDelete (rid : RecordId)
| HCompact
| HReload.

(** What a client is told: an identifier, a record, or whether it was done. *)
Inductive answer : Type :=
| ARid (rid : option RecordId)
| ARecord (record : option bytes)
| ADone (done : bool).

Definition ok_of {E A} (r : result E A) : option A := match r with Ok a => Some a | Err _ => None end.

Definition heap_step (h : Page) (op : heap_op) : answer * Page :=
  match op with
  | HInsert record => let '(r, h) := heap_insert record h in (ARid (ok_of r), h)
  | HGet rid => (ARecord (ok_of (heap_get h rid)), h)
  | HUpdate rid record => let '(r, h) := heap_update rid record h in (ADone (is_ok r), h)
  | HDelete rid => let '(r, h) := heap_delete rid h in (ADone (is_ok r), h)
  | HCompact => let '(r, h) := compact h in (ADone (is_ok r), h)
  | HReload =>
      match from_page (into_page h) with
      | Ok h => (ADone true, h)
      | Err _ => (ADone false, h)
      end
  end.

Definition view_step (id : Z) (v : hview) (op : heap_op) : answer * hview :=
  match op with
  | HInsert record =>
      match view_insert v record with
      | Some (i, g, v) => (ARid (Some (mkRecordId id (Z.of_nat i) g)), v)
      | None => (ARid None, v)
      end
  | HGet rid => (ARecord (snd <$> view_find id v rid), v)
  | HUpdate rid record =>
      match view_update id v rid record with Some v => (ADone true, v) | None => (ADone false, v) end
  | HDelete rid =>
      match view_delete id v rid with Some v => (ADone true, v) | None => (ADone false, v) end
  | HCompact | HReload => (ADone true, v)
  end.

Fixpoint run_all {St} (step : St → heap_op → answer * St) (s : St) (ops : list heap_op) : list answer * St :=
  match ops with
  | [] => ([], s)
  | op :: ops => let '(a, s) := step s op in let '(l, s) := run_all step s ops in (a :: l, s)
  end.

(** Bytes and slot numbers in range; an update stores a record that is not
    empty. *)
Definition heap_op_ok (op : heap_op) : Prop :=
  match op with
  | HInsert record => Forall byte_ok record
  | HGet rid | HDelete rid => 0 ≤ rid_slot_id rid
  | HUpdate rid record => 0 ≤ rid_slot_id rid ∧ Forall byte_ok record ∧ record ≠ []
  | HCompact | HReload => True
  end.

Lemma compact_rep h id v : heap_rep h id v → ∃ h', compact h = (Ok tt, h') ∧ heap_rep h' id v.
Proof.
  intros (upper & ss & Hlo & _ & ->). destruct (compact_run _ _ _ _ Hlo) as (h' & ss' & Hc & Hlo' & Hs & _ & Hv).
  exists h'. split; [done|]. rewrite <- Hv. by eexists _, ss'.
Qed.

Lemma step_rep h id v op : heap_rep h id v → heap_op_ok op →
  (heap_step h op).1 = (view_step id v op).1 ∧ heap_rep (heap_step h op).2 id (view_step id v op).2.
Proof.
  intros Hr Hop. destruct op as [record|rid|rid record|rid| |]; cbn in Hop |- *.
  - pose proof (insert_rep h id v record Hr Hop) as Hi. destruct (view_insert v record) as [[[i g] v']|].
    + destruct Hi as (h' & -> & ?). done.
    + destruct Hi as (e & h' & -> & ?). done.
  - pose proof (get_rep h id v rid Hr Hop) as Hg. split; [|done]. destruct (view_find id v rid) as [[i record]|].
    + by rewrite Hg.
    + by destruct Hg as [e ->].
  - destruct Hop as (Hs & Hb & Hne). pose proof (update_rep h id v rid record Hr Hs Hb Hne) as Hu.
    destruct (view_update id v rid record) as [v'|]; [destruct Hu as (h' & -> & ?)|destruct Hu as [e ->]]; done.
  - pose proof (delete_rep h id v rid Hr Hop) as Hd.
    destruct (view_delete id v rid) as [v'|]; [destruct Hd as (h' & -> & ?)|destruct Hd as [e ->]]; done.
  - destruct (compact_rep h id v Hr) as (h' & -> & ?). done.
  - pose proof Hr as (upper & ss & Hlo & Hs & _). unfold into_page.
    rewrite (sealed_seal h (hd_ok _ _ _ _ _ (lo_head _ _ _ _ Hlo)) Hs), (rep_accepted _ _ _ Hr). done.
Qed.

Lemma run_rep h id v ops : heap_rep h id v → Forall heap_op_ok ops →
  (run_all heap_step h ops).1 = (run_all (view_step id) v ops).1
  ∧ heap_rep (run_all heap_step h ops).2 id (run_all (view_step id) v ops).2.
Proof.
  intros Hr Hops. revert h v Hr. induction Hops as [|op ops Hop _ IH]; intros h v Hr; [done|]. cbn [run_all].
  destruct (step_rep h id v op Hr Hop) as [Ea Hr']. destruct (heap_step h op) as [a h1], (view_step id v op) as [a' v1].
  cbn [fst snd] in *. subst a'. destruct (IH h1 v1 Hr') as [El Hr'']. destruct (run_all heap_step h1 ops), (run_all (view_step id) v1 ops).
  cbn [fst snd] in *. by subst.
Qed.

(** C37: a heap page is a table of records.  Take any page [from_page] accepts, so
    also one just read from a disk.  Any sequence of insertions, lookups,
    updates (with records that are not empty), deletions, compactions and reloads
    gives exactly the answers of a table of slots with generations: an insertion
    takes the first free slot with the next generation and is refused exactly
    when the records and slots would not fit a page, however fragmented it is; an
    identifier finds its record until it is deleted, and never the record that
    takes its slot later (but for a generation that wraps after 65535 reuses); a
    refused update changes nothing.  The page is accepted again after each of
    them. *)
Theorem heap_run_refines h ops :
  page_ok h → from_page h = Ok h → Forall heap_op_ok ops →
  let '(answers, h') := run_all heap_step h ops in
  let '(expected, v) := run_all (view_step (page_id h)) (heap_view h) ops in
  answers = expected ∧ heap_view h' = v ∧ from_page h' = Ok h'.
Proof.
  intros Hok Hacc Hops. destruct (run_rep h (page_id h) (heap_view h) ops (accepted_rep h Hok Hacc) Hops) as [Ea Hr].
  destruct (run_all heap_step h ops) as [answers h'], (run_all (view_step (page_id h)) (heap_view h) ops) as [expected v].
  cbn [fst snd] in *. destruct (rep_view _ _ _ Hr) as [-> _]. split_and!; [done|done|by eapply rep_accepted].
Qed.

Definition demo_rid (slot generation : Z) : RecordId := mkRecordId 7 slot generation.
Definition fill (n b : Z) : bytes := replicate (Z.to_nat n) b.

Lemma fill_ok n b : byte_ok b → Forall byte_ok (fill n b).
Proof. apply Forall_replicate. Qed.
Lemma fill_nonempty n b : 0 < n → fill n b ≠ [].
Proof. intros Hn E. apply (f_equal length) in E. unfold fill in E. rewrite length_replicate in E. cbn in E. lia. Qed.

Definition demo_ops : list heap_op :=
  [HInsert (fill 900 1); HInsert (fill 700 2); HDelete (demo_rid 1 1); HInsert [7; 8; 9];
   HGet (demo_rid 1 1); HGet (demo_rid 1 2); HUpdate (demo_rid 1 2) (fill 3200 5); HUpdate (demo_rid 1 2) (fill 3000 5); HReload].

Lemma heap_run_witness :
  let '(answers, h') := run_all heap_step (heap_new 7) demo_ops in
  answers = [ARid (Some (demo_rid 0 1)); ARid (Some (demo_rid 1 1)); ADone true; ARid (Some (demo_rid 1 2));
             ARecord None; ARecord (Some [7; 8; 9]); ADone false; ADone true; ADone true]
  ∧ heap_view h' = [(1, Some (fill 900 1)); (2, Some (fill 3000 5))] ∧ from_page h' = Ok h'.
Proof.
  assert (page_ok (heap_new 7)) as Hok.
  { destruct (page_new_valid 7 Heap) as [Hv _]; [by split|]. exact (valid_ok _ Hv). }
  assert (from_page (heap_new 7) = Ok (heap_new 7)) as Hacc by (vm_compute; reflexivity).
  assert (Forall heap_op_ok demo_ops) as Hops.
  { unfold demo_ops. rewrite !Forall_cons, Forall_nil. cbn [heap_op_ok rid_slot_id demo_rid].
    split_and!; [apply fill_ok|apply fill_ok|lia| |lia|lia|lia|apply fill_ok|apply fill_nonempty|lia|apply fill_ok|apply fill_nonempty|exact I|exact I];
      unfold byte_ok; try lia. repeat constructor; lia. }
  pose proof (heap_run_refines (heap_new 7) demo_ops Hok Hacc Hops) as H.
  assert (run_all (view_step (page_id (heap_new 7))) (heap_view (heap_new 7)) demo_ops
    = ([ARid (Some (demo_rid 0 1)); ARid (Some (demo_rid 1 1)); ADone true; ARid (Some (demo_rid 1 2));
        ARecord None; ARecord (Some [7; 8; 9]); ADone false; ADone true; ADone true],
       [(1, Some (fill 900 1)); (2, Some (fill 3000 5))])) as E by (vm_compute; reflexivity).
  rewrite E in H. exact H.
Defined.

(** [update] accepts an empty record, and leaves a page that is not accepted. *)
Definition emptied : Page :=
  (run_all heap_step (heap_new 7) [HInsert [1; 2; 3]; HUpdate (demo_rid 0 1) []]).2.

Example empty_update_breaks_page :
  (run_all heap_step (heap_new 7) [HInsert [1; 2; 3]; HUpdate (demo_rid 0 1) []]).1 = [ARid (Some (demo_rid 0 1)); ADone true]
  ∧ from_page (into_page emptied) = Err (InvalidPage "live heap slot 0 is empty").
Proof. by vm_compute. Qed.
