(* ===== verification/BtreeOps.v ===== *)
(** * The B+ tree: [BPlusTree] and the page stores of [btree.rs]

    An operation runs on a page store [S] and may fail; what it saved before an
    error stays saved.  Loops and recursion of the source take a [limit]; a
    result of [None] means that the limit was reached or that the source would
    panic, and the theorems of the later files show that neither happens. *)

From S2P Require Import Prelude StorageBytes StoragePage StorageIo BtreeNode.

(** ** Operations that may not return *)

Definition proc (S A : Type) : Type := S → option (sresult A * S).

#[export] Instance proc_ret {S} : MRet (proc S) := λ A a s, Some (Ok a, s).
#[export] Instance proc_bind {S} : MBind (proc S) := λ A B f m s,
  match m s with
  | Some (Ok a, s) => f a s
  | Some (Err e, s) => Some (Err e, s)
  | None => None
  end.

Definition proc_io {S A} (m : io S A) : proc S A := λ s, Some (m s).
Definition proc_lift {S A} (r : sresult A) : proc S A := λ s, Some (r, s).
Definition proc_err {S A} (e : StorageError) : proc S A := λ s, Some (Err e, s).
(** The limit is used up, or an index is out of bounds. *)
Definition proc_stuck {S A} : proc S A := λ s, None.
Definition proc_some {S A} (o : option A) : proc S A :=
  match o with Some a => mret a | None => proc_stuck end.

Fixpoint proc_each {S A} (f : A → proc S unit) (l : list A) : proc S unit :=
  match l with
  | [] => mret tt
  | a :: l => _ ← f a; proc_each f l
  end.

Fixpoint proc_mapM {S A B} (f : A → proc S B) (l : list A) : proc S (list B) :=
  match l with
  | [] => mret []
  | a :: l => b ← f a; bs ← proc_mapM f l; mret (b :: bs)
  end.

(** ** Page stores, [trait PageStore] *)

Class PageStore (S : Type) := {
  ps_load : Z → io S Page;
  ps_save : Page → io S unit;
  ps_allocate : PageKind → io S Z
}.

Record MemoryPageState : Type := mkMemoryPages {
  mp_pages : gmap Z Page;
  mp_next_page : Z
}.

Module MemoryPageStore.
Definition new : MemoryPageState := mkMemoryPages ∅ 2.

Definition page_count (s : MemoryPageState) : nat := size (mp_pages s).

Definition load (page_id : Z) : io MemoryPageState Page := λ s,
  (ok_or (mp_pages s !! page_id) (SNotFound ("B+ tree page " +:+ pretty page_id)), s).

Definition insert_page (page : Page) : io MemoryPageState unit := λ s,
  (Ok tt, mkMemoryPages (<[page_id page := page]> (mp_pages s)) (mp_next_page s)).

Definition save (page : Page) : io MemoryPageState unit :=
  _ ← io_lift (page_validate page);
  insert_page page.

Definition allocate (_ : PageKind) : io MemoryPageState Z := λ s,
  match checked_add (mp_next_page s) 1 with
  | Some next => (Ok (mp_next_page s), mkMemoryPages (mp_pages s) next)
  | None => (Err (SInvariant "page identifier space exhausted"), s)
  end.
End MemoryPageStore.

#[export] Instance memory_page_store : PageStore MemoryPageState := {|
  ps_load := MemoryPageStore.load;
  ps_save := MemoryPageStore.save;
  ps_allocate := MemoryPageStore.allocate
|}.

Record DiskPageState (D : Type) : Type := mkDiskPages {
  dp_disk : D;
  dp_next_page : Z
}.
Arguments mkDiskPages {D} _ _.
Arguments dp_disk {D} _.
Arguments dp_next_page {D} _.

Definition wrong_page (page_id actual : Z) : StorageError :=
  InvalidPage ("physical page " +:+ pretty page_id +:+ " contains page " +:+ pretty actual).

Module DiskPageStore.
Section DiskPageStore.
Context {D : Type} `{Disk D}.

Definition on_disk {A} (m : io D A) : io (DiskPageState D) A := λ s,
  let '(r, d) := m (dp_disk s) in (r, mkDiskPages d (dp_next_page s)).

Definition open : io D Z := count ← page_count; mret (Z.max count 2).

Definition sync : io (DiskPageState D) unit := on_disk disk_sync.

Definition load (page_id : Z) : io (DiskPageState D) Page :=
  l ← on_disk (read_page page_id);
  page ← io_lift (page_decode l);
  _ ← io_ensure (StoragePage.page_id page =? page_id) (wrong_page page_id (StoragePage.page_id page));
  mret page.

Definition save (page : Page) : io (DiskPageState D) unit :=
  _ ← io_lift (page_validate page);
  on_disk (write_page (page_id page) (page_bytes page)).

Definition allocate (_ : PageKind) : io (DiskPageState D) Z := λ s,
  match checked_add (dp_next_page s) 1 with
  | Some next => (Ok (dp_next_page s), mkDiskPages (dp_disk s) next)
  | None => (Err (SInvariant "page identifier space exhausted"), s)
  end.
End DiskPageStore.
End DiskPageStore.

#[export] Instance disk_page_store {D} `{Disk D} : PageStore (DiskPageState D) := {|
  ps_load := DiskPageStore.load;
  ps_save := DiskPageStore.save;
  ps_allocate := DiskPageStore.allocate
|}.

(** ** Slices of the standard library *)

(** [slice.partition_point(p)] on a slice that [p] partitions: the length of the
    prefix that satisfies it. *)
Fixpoint partition_point {A} (p : A → bool) (l : list A) : nat :=
  match l with
  | [] => O
  | a :: l => if p a then S (partition_point p l) else O
  end.

(** [slice.binary_search_by(|(candidate, _)| candidate.cmp(key))] on a sorted
    slice: the position of the key, or where it belongs. *)
Definition binary_search (key : bytes) (entries : list entry) : result nat nat :=
  let index := partition_point (λ e, bool_decide (cmp_lt e.1 key)) entries in
  match entries !! index with
  | Some e => if bool_decide (e.1 = key) then Ok index else Err index
  | None => Err index
  end.

(** [Vec::insert] and [Vec::remove]; out of bounds they panic. *)
Definition vec_insert {A} (i : nat) (a : A) (l : list A) : option (list A) :=
  if (i <=? length l)%nat then Some (take i l ++ a :: drop i l) else None.
Definition vec_remove {A} (i : nat) (l : list A) : option (list A) :=
  if (i <? length l)%nat then Some (take i l ++ drop (S i) l) else None.

(** [iter().position(|child| *child == id)] *)
Fixpoint position (id : Z) (l : list Z) : option nat :=
  match l with
  | [] => None
  | c :: l => if c =? id then Some O else S <$> position id l
  end.

(** ** Splitting a leaf *)

Fixpoint split_scan (total used : Z) (index : nat) (l : list entry) : option nat :=
  match l with
  | [] => None
  | e :: l =>
      let used := used + (4 + zlen e.1 + zlen e.2) in
      if total <=? used * 2 then Some (S index) else split_scan total used (S index) l
  end.

Definition balanced_leaf_split (entries : list entry) : nat :=
  let total := sum_size (λ e : entry, 4 + zlen e.1 + zlen e.2) entries in
  match split_scan total 0 0 (take (length entries - 1) entries) with
  | Some split => split
  | None => (length entries / 2)%nat
  end.

(** ** The tree *)

Record ValidationReport : Type := mkValidation {
  v_nodes : nat;
  v_leaves : nat;
  v_height : nat;
  v_entries : nat
}.

Record SubtreeInfo : Type := mkInfo {
  si_min : option bytes;
  si_max : option bytes;
  si_depth : nat;
  si_entries : nat
}.

Section BPlusTree.
Context {S : Type} {Hstore : PageStore S} (limit : nat) (root : Z).

Abbreviation tree := (proc S).

Definition load_node (id : Z) : tree Node :=
  page ← proc_io (ps_load id);
  proc_lift (decode_node page).

Definition save_node (node : Node) : tree unit :=
  page ← proc_lift (encode_node node);
  proc_io (ps_save page).

Definition allocate_page (kind : PageKind) : tree Z := proc_io (ps_allocate kind).

Definition node_fits (node : Node) : sresult bool :=
  match encode_node node with
  | Ok _ => Ok true
  | Err (KeyTooLarge _) => Ok false
  | Err e => Err e
  end.

Fixpoint find_leaf_loop (fuel : nat) (key : bytes) (visited : gset Z) (id : Z) : tree Node :=
  match fuel with
  | O => proc_stuck
  | Datatypes.S fuel =>
      if decide (id ∈ visited) then proc_err (SInvariant "cycle during B+ tree descent") else
      node ← load_node id;
      match node with
      | Leaf _ _ _ _ _ => mret node
      | Internal _ _ keys children =>
          let child_index := partition_point (λ separator, bool_decide (cmp_le separator key)) keys in
          match children !! child_index with
          | None => proc_err (SInvariant ("internal page " +:+ pretty (node_id node) +:+ " has missing child"))
          | Some child => find_leaf_loop fuel key ({[id]} ∪ visited) child
          end
      end
  end.

Definition find_leaf (key : bytes) : tree Node := find_leaf_loop limit key ∅ root.

Fixpoint subtree_min_loop (fuel : nat) (id : Z) : tree bytes :=
  match fuel with
  | O => proc_stuck
  | Datatypes.S fuel =>
      node ← load_node id;
      match node with
      | Leaf _ _ _ _ entries =>
          match entries with
          | e :: _ => mret e.1
          | [] => proc_err (SInvariant "empty non-root leaf has no minimum")
          end
      | Internal _ _ _ children =>
          match children with
          | c :: _ => subtree_min_loop fuel c
          | [] => proc_err (SInvariant "internal node has no children")
          end
      end
  end.

Definition subtree_min (id : Z) : tree bytes := subtree_min_loop limit id.

(** [subtree_min(child).ok()] drops an error. *)
Definition proc_ok {A} (m : tree A) : tree (option A) := λ s,
  match m s with
  | Some (Ok a, s) => Some (Ok (Some a), s)
  | Some (Err _, s) => Some (Ok None, s)
  | None => None
  end.

Definition node_min (node : Node) : tree (option bytes) :=
  match node with
  | Leaf _ _ _ _ entries => mret (fst <$> head entries)
  | Internal _ _ _ children =>
      match children with
      | c :: _ => proc_ok (subtree_min c)
      | [] => mret None
      end
  end.

Definition relink_neighbor (neighbor : option Z) (update_next : bool) (new : Z) : tree unit :=
  match neighbor with
  | None => mret tt
  | Some neighbor =>
      node ← load_node neighbor;
      match node with
      | Internal _ _ _ _ => proc_err (SInvariant "leaf sibling is internal")
      | Leaf id parent previous next entries =>
          let target := if new =? NONE_PAGE then None else Some new in
          save_node (if update_next then Leaf id parent previous target entries
                     else Leaf id parent target next entries)
      end
  end.

Definition reparent_child (id child : Z) : tree unit :=
  node ← load_node child;
  save_node (set_parent node (Some id)).

Definition reparent_children (node : Node) : tree unit :=
  match node with
  | Leaf _ _ _ _ _ => mret tt
  | Internal id _ _ children => proc_each (reparent_child id) children
  end.

Fixpoint propagate_min_loop (fuel : nat) (child_id : Z) : tree unit :=
  match fuel with
  | O => proc_stuck
  | Datatypes.S fuel =>
      child ← load_node child_id;
      match node_parent child with
      | None => mret tt
      | Some parent_id =>
          parent ← load_node parent_id;
          match parent with
          | Leaf _ _ _ _ _ => proc_err (SInvariant "child parent is not internal")
          | Internal id grandparent keys children =>
              match position child_id children with
              | None => proc_err (SInvariant "parent does not contain child")
              | Some (Datatypes.S index) =>
                  key ← subtree_min child_id;
                  if (index <? length keys)%nat
                  then save_node (Internal id grandparent (<[index := key]> keys) children)
                  else proc_stuck
              | Some O => propagate_min_loop fuel parent_id
              end
          end
      end
  end.

Definition propagate_min_change (child_id : Z) : tree unit := propagate_min_loop limit child_id.

Definition recompute_internal_separators (id : Z) : tree unit :=
  node ← load_node id;
  match node with
  | Leaf _ _ _ _ _ => mret tt
  | Internal id' parent _ children =>
      keys ← proc_mapM subtree_min (drop 1 children);
      _ ← save_node (Internal id' parent keys children);
      propagate_min_change id
  end.

(** *** Insertion *)

(** [insert_parent] and [split_internal] call each other; [up] is the call of
    [insert_parent] one level higher. *)
Definition split_internal (up : Z → bytes → Z → Z → tree unit) (node : Node) : tree unit :=
  match node with
  | Leaf _ _ _ _ _ => proc_err (SInvariant "split_internal called on leaf")
  | Internal id parent keys children =>
      if (length children <? 3)%nat || negb (length keys + 1 =? length children)%nat
      then proc_err (SInvariant "cannot split malformed internal node") else
      let middle := (length keys / 2)%nat in
      promoted ← proc_some (keys !! middle);
      let left_keys := take middle keys in
      let right_keys := drop (middle + 1) keys in
      let left_children := take (middle + 1) children in
      let right_children := drop (middle + 1) children in
      match parent with
      | None =>
          left_id ← allocate_page BTreeInternal;
          right_id ← allocate_page BTreeInternal;
          let left := Internal left_id (Some root) left_keys left_children in
          let right := Internal right_id (Some root) right_keys right_children in
          _ ← reparent_children left;
          _ ← reparent_children right;
          _ ← save_node left;
          _ ← save_node right;
          save_node (Internal root None [promoted] [left_id; right_id])
      | Some parent_id =>
          right_id ← allocate_page BTreeInternal;
          let left := Internal id parent left_keys left_children in
          let right := Internal right_id parent right_keys right_children in
          _ ← reparent_children left;
          _ ← reparent_children right;
          _ ← save_node left;
          _ ← save_node right;
          up id promoted right_id parent_id
      end
  end.

Fixpoint insert_parent_loop (fuel : nat) (left : Z) (separator : bytes) (right parent_id : Z) : tree unit :=
  match fuel with
  | O => proc_stuck
  | Datatypes.S fuel =>
      parent ← load_node parent_id;
      match parent with
      | Leaf _ _ _ _ _ => proc_err (SInvariant "leaf parent is not internal")
      | Internal id grandparent keys children =>
          match position left children with
          | None => proc_err (SInvariant "parent does not reference split child")
          | Some index =>
              children ← proc_some (vec_insert (index + 1) right children);
              keys ← proc_some (vec_insert index separator keys);
              let parent := Internal id grandparent keys children in
              right_node ← load_node right;
              _ ← save_node (set_parent right_node (Some parent_id));
              fits ← proc_lift (node_fits parent);
              if (fits : bool) then save_node parent
              else split_internal (insert_parent_loop fuel) parent
          end
      end
  end.

Definition insert_parent (left : Z) (separator : bytes) (right parent_id : Z) : tree unit :=
  insert_parent_loop limit left separator right parent_id.

Definition split_leaf (node : Node) : tree unit :=
  match node with
  | Internal _ _ _ _ => proc_err (SInvariant "split_leaf called on internal node")
  | Leaf id parent previous next entries =>
      if (length entries <? 2)%nat
      then proc_err (KeyTooLarge (match entries with e :: _ => zlen e.1 + zlen e.2 | [] => 0 end)) else
      let split := balanced_leaf_split entries in
      let left_entries := take split entries in
      let right_entries := drop split entries in
      separator ← proc_some (fst <$> head right_entries);
      match parent with
      | None =>
          left_id ← allocate_page BTreeLeaf;
          right_id ← allocate_page BTreeLeaf;
          _ ← relink_neighbor previous true left_id;
          _ ← relink_neighbor next false right_id;
          _ ← save_node (Leaf left_id (Some root) previous (Some right_id) left_entries);
          _ ← save_node (Leaf right_id (Some root) (Some left_id) next right_entries);
          save_node (Internal root None [separator] [left_id; right_id])
      | Some parent_id =>
          right_id ← allocate_page BTreeLeaf;
          _ ← relink_neighbor next false right_id;
          _ ← save_node (Leaf id parent previous (Some right_id) left_entries);
          _ ← save_node (Leaf right_id parent (Some id) next right_entries);
          insert_parent id separator right_id parent_id
      end
  end.

Definition btree_insert (key value : bytes) : tree (option bytes) :=
  if is_empty key then proc_err (KeyTooLarge 0) else
  if PAGE_SIZE <? zlen key + zlen value + NODE_DATA + 4
  then proc_err (KeyTooLarge (zlen key + zlen value)) else
  leaf ← find_leaf key;
  match leaf with
  | Internal _ _ _ _ => proc_err (SInvariant "tree descent did not reach leaf")
  | Leaf id parent previous next entries =>
      let old_first := fst <$> head entries in
      '(entries, replaced) ← match binary_search key entries with
        | Ok index => proc_some (e ← entries !! index; Some (<[index := (e.1, value)]> entries, Some e.2))
        | Err index => proc_some (l ← vec_insert index (key, value) entries; Some (l, None))
        end;
      let leaf := Leaf id parent previous next entries in
      fits ← proc_lift (node_fits leaf);
      _ ← (if (fits : bool) then
             _ ← save_node leaf;
             new_first ← node_min leaf;
             if decide (old_first = new_first) then mret tt else propagate_min_change id
           else split_leaf leaf);
      mret replaced
  end.

(** *** Deletion *)

Fixpoint collapse_root_loop (fuel : nat) (only_child : Z) : tree unit :=
  match fuel with
  | O => proc_stuck
  | Datatypes.S fuel =>
      child ← load_node only_child;
      match child with
      | Internal _ _ _ [c] => collapse_root_loop fuel c
      | Leaf _ _ previous next entries =>
          _ ← relink_neighbor previous true root;
          _ ← relink_neighbor next false root;
          save_node (Leaf root None previous next entries)
      | Internal _ _ keys children =>
          let child := Internal root None keys children in
          _ ← reparent_children child;
          save_node child
      end
  end.

Definition collapse_root (only_child : Z) : tree unit := collapse_root_loop limit only_child.

Fixpoint remove_child_loop (fuel : nat) (parent_id child_id : Z) : tree unit :=
  match fuel with
  | O => proc_stuck
  | Datatypes.S fuel =>
      parent ← load_node parent_id;
      let grandparent := node_parent parent in
      let parent_is_root := node_id parent =? root in
      match parent with
      | Leaf _ _ _ _ _ => proc_err (SInvariant "removed child parent is not internal")
      | Internal id _ keys children =>
          match position child_id children with
          | None => proc_err (SInvariant "parent missing removed child")
          | Some index =>
              children ← proc_some (vec_remove index children);
              keys ← (match keys with
                      | [] => mret []
                      | _ => proc_some (vec_remove ((index - 1) `min` (length keys - 1)) keys)
                      end);
              match children with
              | [] =>
                  if parent_is_root then save_node (Leaf root None None None [])
                  else match grandparent with
                       | None => proc_err (SInvariant "empty internal node has no parent")
                       | Some grandparent => remove_child_loop fuel grandparent parent_id
                       end
              | c :: rest =>
                  if parent_is_root && is_empty rest then collapse_root c
                  else
                    _ ← save_node (Internal id grandparent keys children);
                    recompute_internal_separators id
              end
          end
      end
  end.

Definition remove_child (parent_id child_id : Z) : tree unit := remove_child_loop limit parent_id child_id.

Definition unlink_empty_leaf (leaf : Node) : tree unit :=
  match leaf with
  | Leaf id (Some parent_id) previous next entries =>
      if negb (is_empty entries) then proc_err (SInvariant "attempted to unlink non-empty leaf") else
      _ ← relink_neighbor previous true (default NONE_PAGE next);
      _ ← relink_neighbor next false (default NONE_PAGE previous);
      remove_child parent_id id
  | _ => proc_err (SInvariant "expected empty non-root leaf")
  end.

Definition btree_delete (key : bytes) : tree (option bytes) :=
  leaf ← find_leaf key;
  match leaf with
  | Internal _ _ _ _ => proc_err (SInvariant "tree descent did not reach leaf")
  | Leaf id parent previous next entries =>
      match binary_search key entries with
      | Err _ => mret None
      | Ok index =>
          let changed_min := (index =? 0)%nat in
          '(value, entries) ← proc_some (e ← entries !! index; l ← vec_remove index entries; Some (e.2, l));
          let now_empty := is_empty entries in
          let leaf := Leaf id parent previous next entries in
          _ ← (if now_empty && negb (id =? root) then unlink_empty_leaf leaf
               else
                 _ ← save_node leaf;
                 if changed_min && negb now_empty then propagate_min_change id else mret tt);
          mret (Some value)
      end
  end.

(** *** Reading *)

Definition btree_get (key : bytes) : tree (option bytes) :=
  leaf ← find_leaf key;
  match leaf with
  | Internal _ _ _ _ => proc_err (SInvariant "tree descent did not reach leaf")
  | Leaf _ _ _ _ entries =>
      match binary_search key entries with
      | Ok index => value ← proc_some (snd <$> entries !! index); mret (Some value)
      | Err _ => mret None
      end
  end.

(** The entries of one leaf: [inl] is the early return at the upper bound. *)
Fixpoint range_entries (start : bytes) (stop : option bytes) (output entries : list entry)
  : list entry + list entry :=
  match entries with
  | [] => inr output
  | e :: entries =>
      if bool_decide (cmp_lt e.1 start) then range_entries start stop output entries
      else if match stop with Some bound => negb (bool_decide (cmp_lt e.1 bound)) | None => false end
      then inl output
      else range_entries start stop (output ++ [e]) entries
  end.

Fixpoint range_loop (fuel : nat) (start : bytes) (stop : option bytes) (visited : gset Z)
    (output : list entry) (leaf_id : option Z) : tree (list entry) :=
  match leaf_id with
  | None => mret output
  | Some id =>
      match fuel with
      | O => proc_stuck
      | Datatypes.S fuel =>
          if decide (id ∈ visited) then proc_err (SInvariant "cycle in B+ leaf chain") else
          node ← load_node id;
          match node with
          | Internal _ _ _ _ => proc_err (SInvariant "leaf chain points to internal node")
          | Leaf _ _ _ next entries =>
              match range_entries start stop output entries with
              | inl output => mret output
              | inr output => range_loop fuel start stop ({[id]} ∪ visited) output next
              end
          end
      end
  end.

Definition btree_range (start : bytes) (stop : option bytes) : tree (list entry) :=
  leaf ← find_leaf start;
  range_loop limit start stop ∅ [] (Some (node_id leaf)).

(** *** Validation *)

(** The checks of one internal page against its children, [prior] being the
    child to the left of the first of [infos]. *)
Fixpoint check_children (id : Z) (index : nat) (prior : SubtreeInfo) (keys : list bytes)
    (infos : list SubtreeInfo) : sresult unit :=
  match infos, keys with
  | info :: infos, key :: keys =>
      expected ← ok_or (si_min info) (SInvariant "empty subtree under internal node");
      _ ← ensure (bool_decide (key = expected))
            (SInvariant ("page " +:+ pretty id +:+ " separator " +:+ pretty index +:+ " is not right-child minimum"));
      _ ← ensure (match si_max prior with Some maximum => bool_decide (cmp_lt maximum expected) | None => true end)
            (SInvariant ("page " +:+ pretty id +:+ " child ranges overlap"));
      check_children id (Datatypes.S index) info keys infos
  | _, _ => Ok tt
  end.

(** The loop over the children of a page, [validate] being the recursive call. *)
Fixpoint validate_children (validate : Z → gset Z → list Z → tree (SubtreeInfo * gset Z * list Z))
    (children : list Z) (infos : list SubtreeInfo) (visited : gset Z) (leaf_order : list Z)
    : tree (list SubtreeInfo * gset Z * list Z) :=
  match children with
  | [] => mret (infos, visited, leaf_order)
  | child :: children =>
      '(info, visited, leaf_order) ← validate child visited leaf_order;
      validate_children validate children (infos ++ [info]) visited leaf_order
  end.

Fixpoint validate_subtree (fuel : nat) (id : Z) (expected_parent : option Z) (visited : gset Z)
    (leaf_order : list Z) : tree (SubtreeInfo * gset Z * list Z) :=
  match fuel with
  | O => proc_stuck
  | Datatypes.S fuel =>
      if decide (id ∈ visited)
      then proc_err (SInvariant ("page " +:+ pretty id +:+ " is cyclic or multiply reachable")) else
      let visited := {[id]} ∪ visited in
      node ← load_node id;
      if negb (bool_decide (node_parent node = expected_parent))
      then proc_err (SInvariant ("page " +:+ pretty id +:+ " has wrong parent")) else
      match node with
      | Leaf _ _ _ _ entries =>
          _ ← proc_lift (ensure ((id =? root) || negb (is_empty entries))
                (SInvariant ("non-root leaf " +:+ pretty id +:+ " is empty")));
          _ ← proc_lift (ensure (negb (unordered entries.*1))
                (SInvariant ("leaf " +:+ pretty id +:+ " keys are not strictly ordered")));
          mret (mkInfo (fst <$> head entries) (fst <$> last entries) 0 (length entries),
                visited, leaf_order ++ [id])
      | Internal _ _ keys children =>
          _ ← proc_lift (ensure ((length children =? length keys + 1)%nat && negb (is_empty children))
                (SInvariant ("internal page " +:+ pretty id +:+ " has invalid arity")));
          _ ← proc_lift (ensure (negb (unordered keys))
                (SInvariant ("internal page " +:+ pretty id +:+ " separators are unordered")));
          '(infos, visited, leaf_order) ←
            validate_children (λ child, validate_subtree fuel child (Some id)) children [] visited leaf_order;
          match infos with
          | [] => proc_stuck
          | first :: rest =>
              let depth := si_depth first in
              _ ← proc_lift (ensure (forallb (λ info, (si_depth info =? depth)%nat) infos)
                    (SInvariant ("leaves below page " +:+ pretty id +:+ " have unequal depth")));
              _ ← proc_lift (check_children id 0 first keys rest);
              mret (mkInfo (si_min first) (last infos ≫= si_max) (Datatypes.S depth)
                      (sum_list (si_entries <$> infos)),
                    visited, leaf_order)
          end
      end
  end.

(** [Option<PageId>] with [{:?}] *)
Definition debug_link (id : option Z) : string :=
  match id with
  | None => "None"
  | Some id => "Some(PageId(" +:+ pretty id +:+ "))"
  end.

(** The links of the leaves, [prior] being the leaf before the first of the list. *)
Fixpoint check_links (prior : option Z) (leaves : list Z) : tree unit :=
  match leaves with
  | [] => mret tt
  | leaf_id :: rest =>
      node ← load_node leaf_id;
      match node with
      | Internal _ _ _ _ => proc_err (SInvariant "leaf order contains internal page")
      | Leaf _ _ previous next _ =>
          if negb (bool_decide (previous = prior)) || negb (bool_decide (next = head rest)) then
            proc_err (SInvariant ("leaf " +:+ pretty leaf_id +:+ " links " +:+ debug_link previous +:+ "/"
              +:+ debug_link next +:+ ", expected " +:+ debug_link prior +:+ "/" +:+ debug_link (head rest)))
          else check_links (Some leaf_id) rest
      end
  end.

Definition btree_validate : tree ValidationReport :=
  '(info, visited, leaf_order) ← validate_subtree limit root None ∅ [];
  _ ← check_links None leaf_order;
  mret (mkValidation (size visited) (length leaf_order) (si_depth info + 1) (si_entries info)).
End BPlusTree.

(** [BPlusTree::create] returns the root of the new tree. *)
Definition btree_create {S} {Hstore : PageStore S} : proc S Z :=
  root ← allocate_page BTreeLeaf;
  _ ← save_node (Leaf root None None None []);
  mret root.

Definition btree_open {S} {Hstore : PageStore S} (limit : nat) (root : Z) : proc S Z :=
  root_node ← load_node root;
  match node_parent root_node with
  | Some _ => proc_err (SInvariant "B+ tree root has a parent")
  | None => _ ← btree_validate limit root; mret root
  end.

(** ** A run *)

Definition small_key (n : Z) : bytes := to_be_bytes 4 n.

Fixpoint insert_all {S} {Hstore : PageStore S} (root : Z) (l : list entry) : proc S unit :=
  match l with
  | [] => mret tt
  | e :: l => _ ← btree_insert 100 root e.1 e.2; insert_all root l
  end.

Definition wide (n : Z) : entry := (small_key n, replicate 1900 (n mod 256)).

Definition two_leaves_run : proc MemoryPageState (ValidationReport * option bytes) :=
  root ← btree_create;
  _ ← insert_all root (wide <$> [5; 3; 9]);
  report ← btree_validate 100 root;
  found ← btree_get 100 root (small_key 9);
  mret (report, found).

Example two_leaves :
  fst <$> two_leaves_run MemoryPageStore.new = Some (Ok (mkValidation 3 2 2 3, Some (wide 9).2)).
Proof. by vm_compute. Qed.
