(* ===== verification/BtreeFuel.v ===== *)
(** * The limit of the tree operations does not matter

    A tree operation that returns within a limit returns the same within any
    larger one: the limit bounds how long an operation may run and nothing else. *)

From S2P Require Import Prelude StorageBytes StoragePage StorageIo BtreeNode BtreeOps.

(** [m'] returns what [m] returns, where [m] returns. *)
Definition proc_le {S A} (m m' : proc S A) : Prop := ∀ s r, m s = Some r → m' s = Some r.

#[export] Instance proc_le_preorder {S A} : PreOrder (@proc_le S A).
Proof. split; [by intros m s r|]. intros m m' m'' H H' s r Hm. auto. Qed.

Lemma le_stuck {S A} (m : proc S A) : proc_le proc_stuck m.
Proof. by intros s r. Qed.

Lemma le_bind {S A B} (m m' : proc S A) (f f' : A → proc S B) :
  proc_le m m' → (∀ a, proc_le (f a) (f' a)) → proc_le (m ≫= f) (m' ≫= f').
Proof.
  intros Hm Hf s r. unfold mbind, proc_bind. destruct (m s) as [[x s']|] eqn:E; [|done]. rewrite (Hm _ _ E).
  destruct x; [apply Hf|done].
Qed.

Lemma le_ok {S A} (m m' : proc S A) : proc_le m m' → proc_le (proc_ok m) (proc_ok m').
Proof. intros Hm s r. unfold proc_ok. destruct (m s) as [x|] eqn:E; [|done]. by rewrite (Hm _ _ E). Qed.

Lemma le_mapM {S A B} (f f' : A → proc S B) l : (∀ a, proc_le (f a) (f' a)) → proc_le (proc_mapM f l) (proc_mapM f' l).
Proof.
  intros Hf. induction l as [|a l IH]; [done|]. cbn [proc_mapM]. apply le_bind; [done|]. intros b. by apply le_bind.
Qed.

Create HintDb proc_le_db.
#[export] Hint Resolve le_ok le_mapM : proc_le_db.

Ltac proc_le :=
  repeat (intros; first
    [ reflexivity | apply le_stuck | solve [auto with proc_le_db] | apply le_bind
    | match goal with |- proc_le (match ?x with _ => _ end) _ => destruct x end ]).

Section Fuel.
Context {S : Type} {Hstore : PageStore S} (root : Z) (l l' : nat) (Hl : (l ≤ l')%nat).

Lemma le_find_leaf_loop n n' key visited id :
  (n ≤ n')%nat → proc_le (find_leaf_loop n key visited id) (find_leaf_loop n' key visited id).
Proof.
  revert n' visited id. induction n as [|n IH]; intros [|n'] visited id Hn; try lia; [apply le_stuck..|].
  cbn [find_leaf_loop]. assert (n ≤ n')%nat by lia. proc_le.
Qed.

Lemma le_find_leaf key : proc_le (find_leaf l root key) (find_leaf l' root key).
Proof. by apply le_find_leaf_loop. Qed.

Lemma le_subtree_min_loop n n' id : (n ≤ n')%nat → proc_le (subtree_min_loop n id) (subtree_min_loop n' id).
Proof.
  revert n' id. induction n as [|n IH]; intros [|n'] id Hn; try lia; [apply le_stuck..|].
  cbn [subtree_min_loop]. assert (n ≤ n')%nat by lia. proc_le.
Qed.

Lemma le_subtree_min id : proc_le (subtree_min l id) (subtree_min l' id).
Proof. by apply le_subtree_min_loop. Qed.
Hint Resolve le_find_leaf le_subtree_min : proc_le_db.

Lemma le_node_min node : proc_le (node_min l node) (node_min l' node).
Proof. unfold node_min. proc_le. Qed.

Lemma le_propagate_loop n n' id : (n ≤ n')%nat → proc_le (propagate_min_loop l n id) (propagate_min_loop l' n' id).
Proof.
  revert n' id. induction n as [|n IH]; intros [|n'] id Hn; try lia; [apply le_stuck..|].
  cbn [propagate_min_loop]. assert (n ≤ n')%nat by lia. proc_le.
Qed.

Lemma le_propagate id : proc_le (propagate_min_change l id) (propagate_min_change l' id).
Proof. by apply le_propagate_loop. Qed.
Hint Resolve le_node_min le_propagate : proc_le_db.

Lemma le_recompute id : proc_le (recompute_internal_separators l id) (recompute_internal_separators l' id).
Proof. unfold recompute_internal_separators. proc_le. Qed.
Hint Resolve le_recompute : proc_le_db.

Lemma le_split_internal (up up' : Z → bytes → Z → Z → proc S unit) node :
  (∀ a k b p, proc_le (up a k b p) (up' a k b p)) → proc_le (split_internal root up node) (split_internal root up' node).
Proof. intros Hup. unfold split_internal. proc_le. Qed.

Lemma le_insert_parent_loop n n' a k b p :
  (n ≤ n')%nat → proc_le (insert_parent_loop root n a k b p) (insert_parent_loop root n' a k b p).
Proof.
  revert n' a k b p. induction n as [|n IH]; intros [|n'] a k b p Hn; try lia; [apply le_stuck..|].
  cbn [insert_parent_loop]. assert (n ≤ n')%nat by lia. proc_le. apply le_split_internal. auto.
Qed.

Lemma le_insert_parent a k b p : proc_le (insert_parent l root a k b p) (insert_parent l' root a k b p).
Proof. by apply le_insert_parent_loop. Qed.
Hint Resolve le_insert_parent : proc_le_db.

Lemma le_split_leaf node : proc_le (split_leaf l root node) (split_leaf l' root node).
Proof. unfold split_leaf. proc_le. Qed.
Hint Resolve le_split_leaf : proc_le_db.

Lemma le_insert key value : proc_le (btree_insert l root key value) (btree_insert l' root key value).
Proof. unfold btree_insert. proc_le. Qed.

Lemma le_collapse_loop n n' id : (n ≤ n')%nat → proc_le (collapse_root_loop root n id) (collapse_root_loop root n' id).
Proof.
  revert n' id. induction n as [|n IH]; intros [|n'] id Hn; try lia; [apply le_stuck..|].
  cbn [collapse_root_loop]. assert (n ≤ n')%nat by lia. proc_le.
Qed.

Lemma le_collapse id : proc_le (collapse_root l root id) (collapse_root l' root id).
Proof. by apply le_collapse_loop. Qed.
Hint Resolve le_collapse : proc_le_db.

Lemma le_remove_loop n n' p c : (n ≤ n')%nat → proc_le (remove_child_loop l root n p c) (remove_child_loop l' root n' p c).
Proof.
  revert n' p c. induction n as [|n IH]; intros [|n'] p c Hn; try lia; [apply le_stuck..|].
  cbn [remove_child_loop]. assert (n ≤ n')%nat by lia. proc_le.
Qed.

Lemma le_remove p c : proc_le (remove_child l root p c) (remove_child l' root p c).
Proof. by apply le_remove_loop. Qed.
Hint Resolve le_remove : proc_le_db.

Lemma le_delete key : proc_le (btree_delete l root key) (btree_delete l' root key).
Proof. unfold btree_delete, unlink_empty_leaf. proc_le. Qed.

Lemma le_range_loop n n' start stop visited output id :
  (n ≤ n')%nat → proc_le (range_loop n start stop visited output id) (range_loop n' start stop visited output id).
Proof.
  revert n' visited output id. induction n as [|n IH]; intros [|n'] visited output [id|] Hn; try lia; try reflexivity; [apply le_stuck..|].
  cbn [range_loop]. assert (n ≤ n')%nat by lia. proc_le.
Qed.

Lemma le_range start stop : proc_le (btree_range l root start stop) (btree_range l' root start stop).
Proof. unfold btree_range. apply le_bind; [apply le_find_leaf|]. intros leaf. by apply le_range_loop. Qed.

Lemma le_validate_children f f' children infos visited order :
  (∀ c v o, proc_le (f c v o) (f' c v o)) →
  proc_le (S := S) (validate_children f children infos visited order) (validate_children f' children infos visited order).
Proof.
  intros Hf. revert infos visited order. induction children as [|c children IH]; intros infos visited order; [reflexivity|].
  cbn [validate_children]. apply le_bind; [apply Hf|]. intros [[info v] o]. apply IH.
Qed.

Lemma le_validate_subtree n n' id parent visited order :
  (n ≤ n')%nat → proc_le (validate_subtree root n id parent visited order) (validate_subtree root n' id parent visited order).
Proof.
  revert n' id parent visited order. induction n as [|n IH]; intros [|n'] id parent visited order Hn; try lia; [apply le_stuck..|].
  cbn [validate_subtree]. assert (n ≤ n')%nat by lia.
  assert (∀ children infos v o, proc_le (validate_children (λ child, validate_subtree root n child (Some id)) children infos v o)
    (validate_children (λ child, validate_subtree root n' child (Some id)) children infos v o)) as Hch
    by (intros; apply le_validate_children; auto).
  proc_le.
Qed.

Lemma le_validate : proc_le (btree_validate l root) (btree_validate l' root).
Proof. unfold btree_validate. apply le_bind; [by apply le_validate_subtree|]. proc_le. Qed.

Lemma le_open : proc_le (btree_open l root) (btree_open l' root).
Proof. unfold btree_open. pose proof le_validate. proc_le. Qed.
End Fuel.
