(* ===== verification/BtreeTree.v ===== *)
(** * Abstract B+ trees

    The tree a page store is meant to hold: leaves with their entries, internal
    nodes with their subtrees.  The separators of a node are the minima of its
    subtrees but the first.  A context is the path from a subtree to the root,
    innermost frame first.  [cells] lists what each page of a tree must hold,
    leaf links apart; [pages] lists the leaves in key order. *)

From S2P Require Import Prelude BtreeNode.

Inductive tree : Type :=
| TLeaf (id : Z) (es : list entry)
| TNode (id : Z) (kids : list tree).

Definition tid (t : tree) : Z := match t with TLeaf id _ | TNode id _ => id end.

Fixpoint tmin (t : tree) : bytes :=
  match t with
  | TLeaf _ es => default [] (fst <$> head es)
  | TNode _ kids => match kids with k :: _ => tmin k | [] => [] end
  end.

(** The leaves from left to right. *)
Fixpoint pages (t : tree) : list (Z * list entry) :=
  match t with
  | TLeaf id es => [(id, es)]
  | TNode _ kids => flat_map pages kids
  end.

Definition leaves (t : tree) : list Z := (pages t).*1.
Definition flat (t : tree) : list entry := concat (pages t).*2.

Definition seps (kids : list tree) : list bytes := drop 1 (tmin <$> kids).

(** The part of a node that is not a leaf link. *)
Inductive body : Type :=
| BLeaf (parent : option Z) (es : list entry)
| BInternal (parent : option Z) (keys : list bytes) (children : list Z).

Definition node_body (n : Node) : body :=
  match n with
  | Leaf _ parent _ _ es => BLeaf parent es
  | Internal _ parent keys children => BInternal parent keys children
  end.

Definition top (p : option Z) (t : tree) : body :=
  match t with
  | TLeaf _ es => BLeaf p es
  | TNode _ kids => BInternal p (seps kids) (tid <$> kids)
  end.

Fixpoint cells (p : option Z) (t : tree) : list (Z * body) :=
  match t with
  | TLeaf id es => [(id, BLeaf p es)]
  | TNode id kids => (id, BInternal p (seps kids) (tid <$> kids)) :: flat_map (cells (Some id)) kids
  end.

Definition ids (t : tree) : list Z := (cells None t).*1.

(** All leaves at the same depth, no node empty. *)
Fixpoint wf (n : nat) (t : tree) : Prop :=
  match n, t with
  | O, TLeaf _ es => es ≠ []
  | S n, TNode _ kids => kids ≠ [] ∧ Forall (wf n) kids
  | _, _ => False
  end.

Definition key_lt (p q : entry) : Prop := cmp_lt p.1 q.1.
Definition ksorted (es : list entry) : Prop := StronglySorted key_lt es.

#[export] Instance key_lt_trans : Transitive key_lt.
Proof. intros x y z. unfold key_lt. apply cmp_lt_transitive. Qed.

(** ** Contexts *)

Record frame : Type := mkFrame { f_id : Z; f_left : list tree; f_right : list tree }.
Abbreviation ctx := (list frame).

Definition plug (f : frame) (ts : list tree) : tree := TNode (f_id f) (f_left f ++ ts ++ f_right f).

Fixpoint fill (c : ctx) (t : tree) : tree :=
  match c with
  | [] => t
  | f :: c => fill c (plug f [t])
  end.

Definition parent_of (c : ctx) : option Z := f_id <$> head c.

(** The separators of a frame whose hole has minimum [m]. *)
Definition frame_keys (f : frame) (m : bytes) : list bytes :=
  drop 1 ((tmin <$> f_left f) ++ m :: (tmin <$> f_right f)).
Definition frame_ids (f : frame) (i : Z) : list Z := (tid <$> f_left f) ++ i :: (tid <$> f_right f).
Definition frame_min (f : frame) (m : bytes) : bytes := default m (head (tmin <$> f_left f)).

(** The cells around a hole that holds a tree with identifier [i] and minimum [m]. *)
Fixpoint ctx_cells (c : ctx) (i : Z) (m : bytes) : list (Z * body) :=
  match c with
  | [] => []
  | f :: c =>
      (f_id f, BInternal (parent_of c) (frame_keys f m) (frame_ids f i))
      :: flat_map (cells (Some (f_id f))) (f_left f ++ f_right f)
      ++ ctx_cells c (f_id f) (frame_min f m)
  end.

(** The leaves to the left and to the right of the hole. *)
Fixpoint before (c : ctx) : list (Z * list entry) :=
  match c with [] => [] | f :: c => before c ++ flat_map pages (f_left f) end.
Fixpoint after (c : ctx) : list (Z * list entry) :=
  match c with [] => [] | f :: c => flat_map pages (f_right f) ++ after c end.

(** ** Facts *)

Lemma cells_top p t : ∃ l, cells p t = (tid t, top p t) :: l ∧ ∀ q, cells q t = (tid t, top q t) :: l.
Proof. destruct t as [id es|id kids]; cbn; eexists; split; done. Qed.

Lemma cells_ids p t : (cells p t).*1 = ids t.
Proof. unfold ids. destruct (cells_top p t) as (l & -> & Hq). by rewrite (Hq None). Qed.

Lemma pages_fill c t : pages (fill c t) = before c ++ pages t ++ after c.
Proof.
  revert t. induction c as [|f c IH]; intros t; cbn [fill before after]; [by rewrite app_nil_r|].
  rewrite IH. unfold plug. cbn [pages]. rewrite !flat_map_app. cbn [flat_map]. rewrite app_nil_r.
  by rewrite <- !app_assoc.
Qed.

Lemma pages_plug f ts : pages (plug f ts) = flat_map pages (f_left f) ++ flat_map pages ts ++ flat_map pages (f_right f).
Proof. unfold plug. cbn [pages]. by rewrite !flat_map_app. Qed.

Lemma tid_plug f ts : tid (plug f ts) = f_id f.
Proof. done. Qed.

Lemma tmin_plug f t ts : tmin (plug f (t :: ts)) = frame_min f (tmin t).
Proof. unfold plug, frame_min. by destruct (f_left f). Qed.

Lemma cells_plug p f t :
  cells p (plug f [t]) ≡ₚ (f_id f, BInternal p (frame_keys f (tmin t)) (frame_ids f (tid t)))
    :: flat_map (cells (Some (f_id f))) (f_left f ++ f_right f) ++ cells (Some (f_id f)) t.
Proof.
  unfold plug, frame_keys, frame_ids. cbn [cells]. unfold seps. rewrite !fmap_app, !flat_map_app. cbn [flat_map].
  rewrite !fmap_cons, app_nil_r. cbn [app fmap list_fmap]. apply perm_skip. rewrite <- app_assoc.
  apply Permutation_app_head. apply Permutation_app_comm.
Qed.

Lemma cells_fill c t :
  cells None (fill c t) ≡ₚ ctx_cells c (tid t) (tmin t) ++ cells (parent_of c) t.
Proof.
  revert t. induction c as [|f c IH]; intros t; cbn [fill ctx_cells]; [done|].
  rewrite IH, cells_plug, tid_plug, tmin_plug. cbn [app parent_of fmap option_fmap option_map head].
  solve_Permutation.
Qed.

(** *** Entries *)

Definition entries_of (ps : list (Z * list entry)) : list entry := concat ps.*2.

Lemma entries_of_app ps qs : entries_of (ps ++ qs) = entries_of ps ++ entries_of qs.
Proof. unfold entries_of. by rewrite fmap_app, concat_app. Qed.

Lemma flat_alt t : flat t = entries_of (pages t).
Proof. done. Qed.

Lemma flat_leaf id es : flat (TLeaf id es) = es.
Proof. unfold flat. cbn. apply app_nil_r. Qed.

(** The entries of a list of subtrees. *)
Definition flats (ts : list tree) : list entry := entries_of (flat_map pages ts).

Lemma flats_app ts us : flats (ts ++ us) = flats ts ++ flats us.
Proof. unfold flats. by rewrite flat_map_app, entries_of_app. Qed.
Lemma flats_cons t ts : flats (t :: ts) = flat t ++ flats ts.
Proof. unfold flats. cbn [flat_map]. by rewrite entries_of_app. Qed.
Lemma flat_node id kids : flat (TNode id kids) = flats kids.
Proof. done. Qed.

Lemma flat_fill c t : flat (fill c t) = entries_of (before c) ++ flat t ++ entries_of (after c).
Proof. by rewrite flat_alt, pages_fill, !entries_of_app. Qed.

(** A well-formed tree has a first entry, with the minimum as its key. *)
Lemma tmin_flat n t : wf n t → ∃ e es, flat t = e :: es ∧ e.1 = tmin t.
Proof.
  revert t. induction n as [|n IH]; intros [id es|id kids]; cbn [wf]; try done.
  - intros Hes. rewrite flat_leaf. destruct es as [|e es]; [done|]. by exists e, es.
  - intros [Hk Hw]. rewrite flat_node. destruct kids as [|t kids]; [done|].
    apply Forall_cons in Hw as [Ht _]. destruct (IH t Ht) as (e & es & Hf & He).
    rewrite flats_cons, Hf. by eexists e, _.
Qed.

Lemma flat_nonempty n t : wf n t → flat t ≠ [].
Proof. intros (e & es & -> & _)%tmin_flat. done. Qed.

Lemma tmin_in n t : wf n t → ∃ e, e ∈ flat t ∧ e.1 = tmin t.
Proof. intros (e & es & -> & He)%tmin_flat. exists e. split; [left|done]. Qed.

(** The minimum is below every entry. *)
Lemma tmin_le n t e : wf n t → ksorted (flat t) → e ∈ flat t → cmp_le (tmin t) e.1.
Proof.
  intros (e0 & es & Hf & <-)%tmin_flat. rewrite Hf. intros Hs [->|He]%elem_of_cons.
  - unfold cmp_le. by rewrite cmp_refl.
  - apply StronglySorted_inv in Hs as [_ Hs]. rewrite Forall_forall in Hs. specialize (Hs _ He).
    unfold key_lt, cmp_lt, cmp_le in *. congruence.
Qed.

Lemma mins_in n kids m : Forall (wf n) kids → m ∈ tmin <$> kids → ∃ e, e ∈ flats kids ∧ e.1 = m.
Proof.
  induction 1 as [|t kids Ht Hk IH]; [by intros ?%not_elem_of_nil|].
  rewrite fmap_cons, flats_cons. intros [->|Hm]%elem_of_cons.
  - destruct (tmin_in _ _ Ht) as (e & He & Hm). exists e. split; [|done]. set_solver.
  - destruct (IH Hm) as (e & He & Hm'). exists e. split; [|done]. set_solver.
Qed.

Lemma mins_sorted n kids : Forall (wf n) kids → ksorted (flats kids) → StronglySorted cmp_lt (tmin <$> kids).
Proof.
  induction 1 as [|t kids Ht Hk IH]; intros Hs; [constructor|]. rewrite fmap_cons, flats_cons in *.
  apply StronglySorted_app in Hs as (Hc & _ & Hs). constructor; [by apply IH|].
  apply Forall_forall. intros m Hm. destruct (mins_in _ _ _ Hk Hm) as (e & He & <-).
  destruct (tmin_in _ _ Ht) as (e0 & He0 & <-). by apply Hc.
Qed.

Lemma sorted_not_unordered keys : StronglySorted cmp_lt keys → unordered keys = false.
Proof.
  induction 1 as [|a l Hs IH Ha]; [done|]. cbn [unordered]. destruct l as [|b l]; [done|].
  apply Forall_cons in Ha as [Ha _]. by rewrite bool_decide_eq_true_2, IH.
Qed.

Lemma ksorted_not_unordered es : ksorted es → unordered es.*1 = false.
Proof.
  intros Hs. apply sorted_not_unordered. induction Hs as [|a l Hs IH Ha]; rewrite ?fmap_cons; constructor; [done|].
  apply Forall_fmap. eapply Forall_impl; [done|]. done.
Qed.

Lemma StronglySorted_drop {A} (R : relation A) n l : StronglySorted R l → StronglySorted R (drop n l).
Proof. intros H. rewrite <- (take_drop n l) in H. by apply StronglySorted_app_1_r in H. Qed.
Lemma StronglySorted_take {A} (R : relation A) n l : StronglySorted R l → StronglySorted R (take n l).
Proof. intros H. rewrite <- (take_drop n l) in H. by apply StronglySorted_app_1_l in H. Qed.

(** The nodes of a well-formed tree are nodes the format can hold. *)
Lemma internal_ok n id p kids :
  id_ok id → link_ok p → Forall id_ok (tid <$> kids) → kids ≠ [] → Forall (wf n) kids →
  ksorted (flats kids) → Forall entry_ok (flats kids) →
  node_ok (Internal id p (seps kids) (tid <$> kids)).
Proof.
  intros Hid Hp Hch Hne Hw Hs He. split; [done|]. split; [done|]. split_and!.
  - unfold seps. rewrite length_drop, !length_fmap. destruct kids; [done|]. cbn. lia.
  - done.
  - unfold seps. apply Forall_drop. apply Forall_forall. intros m Hm.
    destruct (mins_in _ _ _ Hw Hm) as (e & Hin & <-). rewrite Forall_forall in He. by apply He.
  - apply sorted_not_unordered, StronglySorted_drop. by eapply mins_sorted.
Qed.

Lemma leaf_ok id p pv nx es :
  id_ok id → link_ok p → link_ok pv → link_ok nx → ksorted es → Forall entry_ok es →
  node_ok (Leaf id p pv nx es).
Proof. intros. split_and!; auto using ksorted_not_unordered. Qed.

(** *** Contexts *)

(** The frames around a hole of depth [n]. *)
Fixpoint ctx_wf (n : nat) (c : ctx) : Prop :=
  match c with
  | [] => True
  | f :: c => Forall (wf n) (f_left f) ∧ Forall (wf n) (f_right f) ∧ ctx_wf (S n) c
  end.

Lemma wf_plug n f ts : ts ≠ [] →
  wf (S n) (plug f ts) ↔ Forall (wf n) (f_left f) ∧ Forall (wf n) ts ∧ Forall (wf n) (f_right f).
Proof.
  intros Hts. unfold plug. cbn [wf]. rewrite !Forall_app. split; [tauto|]. intros H. split; [|done].
  intros Hnil. apply app_nil in Hnil as [_ [? _]%app_nil]. done.
Qed.

Lemma wf_fill n c t : wf (length c + n) (fill c t) ↔ wf n t ∧ ctx_wf n c.
Proof.
  revert n t. induction c as [|f c IH]; intros n t; cbn [fill ctx_wf length Nat.add]; [tauto|].
  rewrite <- Nat.add_succ_r, IH, wf_plug by done. rewrite Forall_singleton. tauto.
Qed.

Lemma tid_fill_root c t : tid (fill c t) = default (tid t) (f_id <$> last c).
Proof.
  revert t. induction c as [|f c IH]; intros t; cbn [fill]; [done|]. rewrite IH, tid_plug.
  rewrite last_cons. by destruct (last c).
Qed.

(** The cells of a list of subtrees under one parent. *)
Lemma flat_map_cells_ids p q kids : (flat_map (cells p) kids).*1 = (flat_map (cells q) kids).*1.
Proof.
  induction kids as [|t kids IH]; [done|]. cbn [flat_map]. rewrite !fmap_app, !cells_ids. by rewrite IH.
Qed.

Lemma tid_in_cells p t : (tid t, top p t) ∈ cells p t.
Proof. destruct (cells_top p t) as (l & -> & _). left. Qed.

Lemma elem_of_flat_map {A B} (f : A → list B) l y : y ∈ flat_map f l ↔ ∃ x, x ∈ l ∧ y ∈ f x.
Proof. rewrite list_elem_of_In, in_flat_map. setoid_rewrite list_elem_of_In. done. Qed.

Lemma tid_in_kids p kids t : t ∈ kids → (tid t, top p t) ∈ flat_map (cells p) kids.
Proof.
  intros Ht. apply elem_of_flat_map. exists t. split; [done|]. apply tid_in_cells.
Qed.

(** Subtrees at every depth: an induction principle for trees. *)
Lemma tree_induction (P : tree → Prop) :
  (∀ id es, P (TLeaf id es)) → (∀ id kids, Forall P kids → P (TNode id kids)) → ∀ t, P t.
Proof.
  intros Hl Hn. fix IH 1. intros [id es|id kids]; [apply Hl|apply Hn].
  induction kids as [|t kids IHk]; constructor; [apply IH|exact IHk].
Qed.

(** The leaves are cells. *)
Lemma pages_cells p t id es : (id, es) ∈ pages t → ∃ q, (id, BLeaf q es) ∈ cells p t.
Proof.
  revert p. induction t as [id' es'|id' kids IH] using tree_induction; intros p; cbn [pages cells].
  - intros [= -> ->]%list_elem_of_singleton. exists p. left.
  - intros (t & Ht & Hp)%elem_of_flat_map.
    rewrite Forall_forall in IH. destruct (IH t Ht (Some id') Hp) as [q Hq]. exists q. right.
    apply elem_of_flat_map. by exists t.
Qed.

Lemma leaves_sublist t : leaves t ⊆+ ids t.
Proof.
  unfold leaves, ids. generalize (@None Z). induction t as [id' es'|id' kids IH] using tree_induction; intros p; [done|].
  cbn [pages cells]. rewrite fmap_cons. apply submseteq_cons. generalize (Some id'). clear p. intros p.
  induction IH as [|t kids Ht _ IHk]; [done|]. cbn [flat_map]. rewrite !fmap_app. by apply submseteq_app.
Qed.

Lemma NoDup_leaves t : NoDup (ids t) → NoDup (leaves t).
Proof.
  destruct (submseteq_Permutation _ _ (leaves_sublist t)) as [k Hk]. rewrite Hk.
  by intros [? _]%NoDup_app.
Qed.

(** A tree is no deeper than it has nodes. *)
Lemma wf_depth n t : wf n t → (n < length (ids t))%nat.
Proof.
  revert t. induction n as [|n IH]; intros [id es|id kids]; cbn [wf]; try done; [cbn; lia|].
  intros [Hk Hw]. destruct kids as [|t kids]; [done|]. apply Forall_cons in Hw as [Ht _].
  specialize (IH t Ht). unfold ids. cbn [cells flat_map]. rewrite fmap_cons, fmap_app, cells_ids.
  cbn [length]. rewrite length_app. lia.
Qed.

(** Distinct page identifiers below [nx] are at most [nx] many. *)
Lemma ids_bound (l : list Z) nx : NoDup l → Forall (λ i, 0 ≤ i < nx) l → Z.of_nat (length l) ≤ Z.max 0 nx.
Proof.
  intros Hnd Hl.
  assert (l ⊆+ seqZ 0 nx) as Hs.
  { apply NoDup_submseteq; [done|]. intros x Hx. rewrite Forall_forall in Hl. apply elem_of_seqZ. auto. }
  apply submseteq_length in Hs. rewrite length_seqZ in Hs. lia.
Qed.
