(* ===== verification/BtreeStore.v ===== *)
(** * What a page store promises, and how tree operations are reasoned about

    [PageStoreLaws] is the contract of [trait PageStore] the tree relies on;
    [MemoryPageStore] satisfies it, and so does [DiskPageStore] on a memory disk.  [twp] is the weakest precondition of an
    operation over the nodes [N] the store holds and the next identifier [nx] it
    will hand out: the operation returns, and either establishes the
    postcondition or fails in a way [allowed] names and leaves a store.  [owns] and [chain] say what
    the pages of a tree hold and how its leaves are linked. *)

From S2P Require Import Prelude StorageBytes StoragePage StorageIo BtreeNode BtreeOps BtreeTree.

(** The first identifier a tree may use; the first two pages are the superblocks. *)
Class PageBase : Type := page_base : Z.

(** The identifiers handed out. *)
Definition allocated {Hbase : PageBase} (nx i : Z) : Prop := page_base ≤ i < nx.

(** Reading: the store [s] has the pages [P] and will allocate from [nx] on. *)
Class PageStoreReads (S : Type) {Hstore : PageStore S} {Hbase : PageBase} := {
  ps_has : S → gmap Z Page → Z → Prop;
  ps_full : StorageError;
  ps_next_ok s P nx : ps_has s P nx → 2 ≤ page_base ≤ nx ∧ nx ≤ u64_max;
  ps_load_ok s P nx id p : ps_has s P nx → P !! id = Some p →
    ∃ s', ps_load id s = (Ok p, s') ∧ ps_has s' P nx
}.

Class PageStoreLaws (S : Type) {Hstore : PageStore S} {Hbase : PageBase} := {
  pl_reads :: PageStoreReads S;
  ps_save_ok s P nx p : ps_has s P nx → page_valid p → allocated nx (page_id p) →
    ∃ s', ps_save p s = (Ok tt, s') ∧ ps_has s' (<[page_id p := p]> P) nx;
  ps_allocate_ok s P nx k : ps_has s P nx → nx < u64_max →
    ∃ s', ps_allocate k s = (Ok nx, s') ∧ ps_has s' P (nx + 1);
  ps_allocate_full s P nx k : ps_has s P nx → nx = u64_max →
    ∃ s', ps_allocate k s = (Err ps_full, s') ∧ ps_has s' P nx
}.

#[export] Program Instance memory_page_reads : PageStoreReads MemoryPageState (Hbase := 2) := {|
  ps_has s P nx := mp_pages s = P ∧ mp_next_page s = nx ∧ 2 ≤ nx ≤ u64_max;
  ps_full := SInvariant "page identifier space exhausted"
|}.
Next Obligation. intros s P nx (_ & _ & ?). unfold page_base. lia. Qed.
Next Obligation.
  intros s P nx id p (<- & <- & Hnx) Hp. exists s. cbn. unfold MemoryPageStore.load. by rewrite Hp.
Qed.

#[export] Program Instance memory_page_laws : PageStoreLaws MemoryPageState (Hbase := 2) := {| pl_reads := memory_page_reads |}.
Next Obligation.
  intros s P nx p (<- & <- & Hnx) Hp _. eexists. cbn. unfold MemoryPageStore.save, mbind, io_bind, io_lift.
  assert (page_validate p = Ok tt) as -> by (apply page_validate_spec; split; apply Hp). by split.
Qed.
Next Obligation.
  intros s P nx k (<- & <- & Hnx) Hlt. eexists. cbn. unfold MemoryPageStore.allocate, checked_add.
  rewrite (proj2 (Z.leb_le _ _)) by lia. split_and!; cbn; done || lia.
Qed.
Next Obligation.
  intros s P nx k (<- & Heq & Hnx) ->. exists s. cbn. unfold MemoryPageStore.allocate, checked_add.
  rewrite Heq, (proj2 (Z.leb_gt _ _)) by lia. done.
Qed.

(** The pages the tree wrote are on the disk. *)
#[export] Program Instance disk_page_reads : PageStoreReads (DiskPageState MemoryDiskState) (Hbase := 2) := {|
  ps_has s P nx := dp_next_page s = nx ∧ 2 ≤ nx ≤ u64_max ∧
    ∀ id p, P !! id = Some p → md_volatile (dp_disk s) !! id = Some (page_bytes p) ∧ page_valid p ∧ page_id p = id;
  ps_full := SInvariant "page identifier space exhausted"
|}.
Next Obligation. intros s P nx (_ & ? & _). unfold page_base. lia. Qed.
Next Obligation.
  intros s P nx id p (<- & Hnx & HP) Hp. destruct (HP id p Hp) as (Hd & Hv & Hid). eexists. cbn.
  unfold DiskPageStore.load, mbind, io_bind, DiskPageStore.on_disk. cbn. unfold MemoryDisk.read_page. cbn. rewrite Hd. cbn.
  unfold io_lift. rewrite (page_valid_decode p Hv), Hid, Z.eqb_refl. cbn. split; [done|]. split_and!; cbn; done || lia.
Qed.

#[export] Program Instance disk_page_laws : PageStoreLaws (DiskPageState MemoryDiskState) (Hbase := 2) := {| pl_reads := disk_page_reads |}.
Next Obligation.
  intros s P nx p (<- & Hnx & HP) Hv _. eexists. cbn.
  unfold DiskPageStore.save, mbind, io_bind, io_lift, DiskPageStore.on_disk. cbn. unfold MemoryDisk.write_page. cbn.
  assert (page_validate p = Ok tt) as -> by (apply page_validate_spec; split; apply Hv). split; [done|].
  split_and!; cbn; [done|lia|lia|]. intros id q Hq. apply lookup_insert_Some in Hq as [[<- <-]|[Hne Hq]].
  - by rewrite lookup_insert_eq.
  - rewrite lookup_insert_ne by done. by apply HP.
Qed.
Next Obligation.
  intros s P nx k (<- & Hnx & HP) Hlt. eexists. cbn. unfold DiskPageStore.allocate, checked_add.
  rewrite (proj2 (Z.leb_le _ _)) by lia. split; [done|]. split_and!; cbn; done || lia.
Qed.
Next Obligation.
  intros s P nx k (Heq & Hnx & HP) ->. exists s. cbn. unfold DiskPageStore.allocate, checked_add.
  rewrite Heq, (proj2 (Z.leb_gt _ _)) by lia. done.
Qed.

(** The pages [P] hold the nodes [N]. *)
Definition holds {Hbase : PageBase} (P : gmap Z Page) (N : gmap Z Node) (nx : Z) : Prop :=
  ∀ i n, N !! i = Some n →
    allocated nx i ∧ node_id n = i ∧ node_ok n ∧ node_size n ≤ NODE_CAP ∧ ∃ p, P !! i = Some p ∧ decode_node p = Ok n.

(** What every set of stored nodes satisfies. *)
Definition nodes_ok {Hbase : PageBase} (N : gmap Z Node) (nx : Z) : Prop :=
  (2 ≤ page_base ≤ nx ∧ nx ≤ u64_max) ∧
  ∀ i n, N !! i = Some n → allocated nx i ∧ node_id n = i ∧ node_ok n ∧ node_size n ≤ NODE_CAP.

(** Refusals that come from a key or a value that is too large. *)
Definition too_large (e : StorageError) : Prop :=
  (∃ b, e = KeyTooLarge b) ∨ e = SInvariant "cannot split malformed internal node".

Section Wp.
Context {S : Type} {Hstore : PageStore S} {Hbase : PageBase} {Hreads : PageStoreReads S}.
(** [full] tells whether the store may run out of identifiers, [big] whether a
    refusal because of a size is possible. *)
Context (full big : Prop).

Definition allowed (e : StorageError) : Prop := (full ∧ e = ps_full) ∨ (big ∧ too_large e).

Definition twp {A} (m : proc S A) (N : gmap Z Node) (nx : Z) (Q : A → gmap Z Node → Z → Prop) : Prop :=
  ∀ s P, ps_has s P nx → holds P N nx →
  ∃ r s', m s = Some (r, s') ∧
    match r with
    | Ok a => ∃ P' N' nx', ps_has s' P' nx' ∧ holds P' N' nx' ∧ Q a N' nx'
    | Err e => allowed e ∧ ∃ P' nx', ps_has s' P' nx'
    end.

Lemma twp_nodes {A} (m : proc S A) N nx Q : (nodes_ok N nx → twp m N nx Q) → twp m N nx Q.
Proof.
  intros H s P Hs HP. assert (nodes_ok N nx) as Hn; [|exact (H Hn s P Hs HP)]. split; [by eapply ps_next_ok|].
  intros i n Hn. destruct (HP i n Hn) as (? & ? & ? & ? & _). done.
Qed.

Lemma twp_mono {A} (m : proc S A) N nx (Q Q' : A → gmap Z Node → Z → Prop) :
  twp m N nx Q → (∀ a N' nx', Q a N' nx' → Q' a N' nx') → twp m N nx Q'.
Proof.
  intros H HQ s P Hs HP. destruct (H s P Hs HP) as (r & s' & Hm & Hr). exists r, s'. split; [done|].
  destruct r; [|done]. destruct Hr as (P' & N' & nx' & ? & ? & ?). eauto 10.
Qed.

Lemma twp_bind {A B} (f : A → proc S B) m N nx Q :
  twp m N nx (λ a N' nx', twp (f a) N' nx' Q) → twp (m ≫= f) N nx Q.
Proof.
  intros H s P Hs HP. destruct (H s P Hs HP) as (r & s' & Hm & Hr). unfold mbind, proc_bind. rewrite Hm.
  destruct r as [a|e]; [|by eexists _, _]. destruct Hr as (P' & N' & nx' & Hs' & HP' & Hf). by apply (Hf s' P').
Qed.

Lemma twp_ret {A} (a : A) N nx (Q : A → gmap Z Node → Z → Prop) : Q a N nx → twp (mret a) N nx Q.
Proof. intros HQ s P Hs HP. eexists _, _. split; [done|]. cbn. eauto 10. Qed.

Lemma twp_lift {A} (a : A) N nx (Q : A → gmap Z Node → Z → Prop) : Q a N nx → twp (proc_lift (Ok a)) N nx Q.
Proof. apply twp_ret. Qed.

Lemma twp_some {A} o (a : A) N nx (Q : A → gmap Z Node → Z → Prop) :
  o = Some a → Q a N nx → twp (proc_some o) N nx Q.
Proof. intros ->. apply twp_ret. Qed.

Lemma twp_err {A} e N nx (Q : A → gmap Z Node → Z → Prop) : allowed e → twp (proc_err e) N nx Q.
Proof. intros He s P Hs HP. eexists _, _. split; [done|]. cbn. eauto. Qed.

Lemma twp_load id n N nx Q : N !! id = Some n → Q n N nx → twp (load_node id) N nx Q.
Proof.
  intros Hn HQ s P Hs HP. destruct (HP id n Hn) as (_ & _ & _ & _ & p & Hp & Hd).
  destruct (ps_load_ok s P nx id p Hs Hp) as (s' & Hl & Hs').
  exists (Ok n), s'. split; [|eauto 10]. unfold load_node, mbind, proc_bind, proc_io, proc_lift. by rewrite Hl, Hd.
Qed.

Lemma twp_fits n N nx Q :
  node_ok n → Q (bool_decide (node_size n ≤ NODE_CAP)) N nx → twp (proc_lift (node_fits n)) N nx Q.
Proof.
  intros Hn HQ. unfold node_fits. destruct (decide (node_size n ≤ NODE_CAP)) as [Hfit|Hfit].
  - destruct (encode_node_fits n Hn Hfit) as (p & -> & _). rewrite bool_decide_eq_true_2 in HQ by done. by apply twp_lift.
  - destruct (encode_node_large n Hn) as [b ->]; [lia|]. rewrite bool_decide_eq_false_2 in HQ by lia. by apply twp_lift.
Qed.
End Wp.

Section WpWrite.
Context {S : Type} {Hstore : PageStore S} {Hbase : PageBase} {Hlaws : PageStoreLaws S} (full big : Prop).
Local Abbreviation twp := (twp full big).

(** A save writes the node, unless it is larger than a page. *)
Lemma twp_save n N nx Q :
  node_ok n → allocated nx (node_id n) → (big ∨ node_size n ≤ NODE_CAP) →
  (node_size n ≤ NODE_CAP → Q tt (<[node_id n := n]> N) nx) → twp (save_node n) N nx Q.
Proof.
  intros Hn Hid Hbig HQ s P Hs HP. unfold save_node, mbind, proc_bind, proc_io, proc_lift.
  destruct (decide (node_size n ≤ NODE_CAP)) as [Hfit|Hfit].
  - destruct (encode_node_fits n Hn Hfit) as (p & -> & Hv & Hpid & Hd).
    destruct (ps_save_ok s P nx p Hs Hv) as (s' & -> & Hs'); [by rewrite Hpid|]. rewrite Hpid in Hs'.
    eexists _, _. split; [done|]. cbn. exists (<[node_id n := p]> P), (<[node_id n := n]> N), nx.
    split_and!; [done| |by apply HQ].
    intros i m Hm. apply lookup_insert_Some in Hm as [[<- <-]|[Hne Hm]].
    + split_and!; [done..|]. exists p. by rewrite lookup_insert_eq.
    + destruct (HP i m Hm) as (? & ? & ? & ? & q & Hq & ?). split_and!; [done..|].
      exists q. by rewrite lookup_insert_ne.
  - destruct (encode_node_large n Hn) as [b ->]; [lia|]. eexists _, _. split; [done|].
    split; [|by eauto]. right. split; [|left; eauto]. destruct Hbig; [done|lia].
Qed.

Lemma twp_allocate k N nx Q :
  full → (nx < u64_max → Q nx N (nx + 1)) → twp (allocate_page k) N nx Q.
Proof.
  intros Hfull HQ s P Hs HP. pose proof (ps_next_ok _ _ _ Hs) as Hnx. unfold allocate_page, proc_io.
  destruct (decide (nx = u64_max)) as [Hmax|Hlt].
  - destruct (ps_allocate_full s P nx k Hs Hmax) as (s' & -> & Hs'). eexists _, _. split; [done|]. split; [by left|by eauto].
  - destruct (ps_allocate_ok s P nx k Hs) as (s' & -> & Hs'); [lia|]. eexists _, _. split; [done|].
    exists P, N, (nx + 1). split_and!; [done| |apply HQ; lia].
    intros i n Hn. destruct (HP i n Hn) as (Hi & ?). split; [unfold allocated in *; lia|done].
Qed.
End WpWrite.

(** ** What the pages of a tree hold *)

Definition has_body (N : gmap Z Node) (i : Z) (b : body) : Prop :=
  ∃ n, N !! i = Some n ∧ node_id n = i ∧ node_body n = b.

Definition owns (N : gmap Z Node) (cs : list (Z * body)) : Prop :=
  NoDup cs.*1 ∧ Forall (λ c, has_body N c.1 c.2) cs.

#[export] Instance owns_perm N : Proper ((≡ₚ) ==> iff) (owns N).
Proof. intros cs ds H. unfold owns. by rewrite H. Qed.

Lemma has_body_insert_ne N i j n b : i ≠ j → has_body N i b → has_body (<[j := n]> N) i b.
Proof. intros Hne (m & Hm & ?). exists m. by rewrite lookup_insert_ne. Qed.

Lemma has_body_insert N n : has_body (<[node_id n := n]> N) (node_id n) (node_body n).
Proof. exists n. by rewrite lookup_insert_eq. Qed.

Lemma owns_agree N N' cs :
  (∀ i, i ∈ cs.*1 → N' !! i = N !! i) → owns N cs → owns N' cs.
Proof.
  intros Ha [Hnd Hf]. split; [done|]. rewrite Forall_forall in Hf |- *. intros c Hc.
  destruct (Hf c Hc) as (n & Hn & ?). exists n. rewrite Ha; [done|]. by apply list_elem_of_fmap_2.
Qed.

Lemma owns_new N n cs : owns N cs → node_id n ∉ cs.*1 → owns (<[node_id n := n]> N) ((node_id n, node_body n) :: cs).
Proof.
  intros Ho Hn. destruct (owns_agree N (<[node_id n := n]> N) cs) as [Hnd Hf]; [|done|].
  { intros i Hi. rewrite lookup_insert_ne; [done|]. congruence. }
  split; [by constructor|]. constructor; [apply has_body_insert|done].
Qed.

Lemma owns_tail N c cs : owns N (c :: cs) → owns N cs ∧ (c.1 ∉ cs.*1) ∧ has_body N c.1 c.2.
Proof. intros [[Hn Hnd]%NoDup_cons [Hb Hf]%Forall_cons]. done. Qed.

Lemma owns_update N n b cs : owns N ((node_id n, b) :: cs) → owns (<[node_id n := n]> N) ((node_id n, node_body n) :: cs).
Proof. intros (Ho & Hn & _)%owns_tail. by apply owns_new. Qed.

(** Saving a node that differs in its leaf links alone. *)
Lemma owns_same N n cs : owns N cs → has_body N (node_id n) (node_body n) → owns (<[node_id n := n]> N) cs.
Proof.
  intros [Hnd Hf] (m & Hm & _ & Hb). split; [done|]. eapply Forall_impl; [exact Hf|]. intros [i b] (k & Hk & Hi & Hkb). cbn in *.
  destruct (decide (i = node_id n)) as [->|Hne]; [|by apply has_body_insert_ne; [|by exists k]].
  exists n. rewrite lookup_insert_eq. split_and!; [done..|]. congruence.
Qed.

Lemma owns_app N cs ds : owns N (cs ++ ds) → owns N cs ∧ owns N ds.
Proof. unfold owns. rewrite fmap_app, NoDup_app, Forall_app. tauto. Qed.

Lemma owns_lookup N cs i b : owns N cs → (i, b) ∈ cs → has_body N i b.
Proof. intros [_ Hf] Hi. rewrite Forall_forall in Hf. by apply (Hf (i, b)). Qed.

Lemma owns_ids {Hbase : PageBase} N nx cs : nodes_ok N nx → owns N cs → Forall (λ i, id_ok i ∧ allocated nx i) cs.*1.
Proof.
  intros [_ HN] [_ Hf]. apply Forall_fmap. eapply Forall_impl; [exact Hf|]. intros [i b] (n & Hn & _). cbn in *.
  destruct (HN i n Hn) as (? & <- & [? _] & _). done.
Qed.

Lemma owns_fresh {Hbase : PageBase} N nx cs : nodes_ok N nx → owns N cs → nx ∉ cs.*1.
Proof.
  intros HN Ho Hin. pose proof (owns_ids _ _ _ HN Ho) as Hf. rewrite Forall_forall in Hf.
  destruct (Hf _ Hin). unfold allocated in *; lia.
Qed.

(** ** The leaf chain *)

Definition links (N : gmap Z Node) (i : Z) (pv nx : option Z) : Prop :=
  ∃ p es, N !! i = Some (Leaf i p pv nx es).

Definition next_of (L : list Z) (nx : option Z) : option Z := match L with x :: _ => Some x | [] => nx end.
Definition last_of (pr : option Z) (L : list Z) : option Z := match last L with Some x => Some x | None => pr end.

(** [L] is a run of leaves linked to each other, to [pr] before and [nx] after. *)
Fixpoint chain (N : gmap Z Node) (pr : option Z) (L : list Z) (nx : option Z) : Prop :=
  match L with
  | [] => True
  | l :: L => links N l pr (next_of L nx) ∧ chain N (Some l) L nx
  end.

Lemma last_of_cons pr x L : last_of pr (x :: L) = last_of (Some x) L.
Proof. unfold last_of. rewrite last_cons. by destruct (last L). Qed.

Lemma chain_app N pr L1 L2 nx :
  chain N pr (L1 ++ L2) nx ↔ chain N pr L1 (next_of L2 nx) ∧ chain N (last_of pr L1) L2 nx.
Proof.
  revert pr. induction L1 as [|x L1 IH]; intros pr; cbn [app chain]; [tauto|].
  rewrite IH, last_of_cons. destruct L1; cbn [app next_of]; tauto.
Qed.

Lemma chain_agree N N' pr L nx :
  (∀ i, i ∈ L → N' !! i = N !! i) → chain N pr L nx → chain N' pr L nx.
Proof.
  revert pr. induction L as [|x L IH]; intros pr Ha; cbn [chain]; [done|].
  intros [(p & es & Hx) Hc]. split; [exists p, es; by rewrite Ha by left|].
  apply IH; [|done]. intros i Hi. apply Ha. by right.
Qed.

Lemma chain_insert N n i pr L nx : i ∉ L → chain N pr L nx → chain (<[i := n]> N) pr L nx.
Proof. intros Hi. apply chain_agree. intros j Hj. rewrite lookup_insert_ne; [done|]. by intros ->. Qed.

(** Saving a leaf with the links it has, or a node that is no leaf of the chain. *)
Lemma chain_same N i p p' a b es es' pr L nx :
  N !! i = Some (Leaf i p a b es) → chain N pr L nx → chain (<[i := Leaf i p' a b es']> N) pr L nx.
Proof.
  intros Hi. revert pr. induction L as [|x L IH]; intros pr; cbn [chain]; [done|].
  intros [(q & fs & Hx) Hc]. split; [|by apply IH]. destruct (decide (x = i)) as [->|Hne].
  - simplify_eq. eexists _, _. by rewrite lookup_insert_eq.
  - exists q, fs. by rewrite lookup_insert_ne.
Qed.

Lemma chain_middle N pr L1 i L2 nx :
  chain N pr (L1 ++ i :: L2) nx → links N i (last_of pr L1) (next_of L2 nx).
Proof. rewrite chain_app. cbn [chain]. tauto. Qed.

Lemma links_body N i a b p es : links N i a b → has_body N i (BLeaf p es) → N !! i = Some (Leaf i p a b es).
Proof. intros (q & fs & Hi) (n & Hn & _ & Hb). simplify_eq. cbn in Hb. by simplify_eq. Qed.
