(* ===== verification/BtreeSteps.v ===== *)
(** * The building blocks of the tree operations

    Relinking leaves, reparenting children, finding a minimum and passing a new
    minimum up to the separator it belongs to. *)

From S2P Require Import Prelude StorageBytes StoragePage StorageIo BtreeNode BtreeOps BtreeTree BtreeStore.

Lemma nodes_lookup {Hbase : PageBase} N nx i n :
  nodes_ok N nx → N !! i = Some n → allocated nx i ∧ node_id n = i ∧ node_ok n ∧ node_size n ≤ NODE_CAP.
Proof. intros [_ HN] Hi. by apply HN. Qed.

Lemma node_ok_relink i p a b a' b' es :
  node_ok (Leaf i p a b es) → link_ok a' → link_ok b' → node_ok (Leaf i p a' b' es).
Proof. intros (? & ? & _ & _ & ? & ?) ? ?. split_and!; done. Qed.

Lemma node_ok_reparent n p : node_ok n → link_ok p → node_ok (set_parent n p).
Proof. destruct n; intros (? & _ & ?) Hp; split_and!; done. Qed.

Lemma set_parent_id n p : node_id (set_parent n p) = node_id n.
Proof. by destruct n. Qed.
Lemma set_parent_size n p : node_size (set_parent n p) = node_size n.
Proof. by destruct n. Qed.
Lemma set_parent_top n p q t : node_body n = top p t → node_body (set_parent n q) = top q t.
Proof. destruct n, t; cbn; intros [=]; subst; done. Qed.

(** A node of the chain is a leaf. *)
Lemma chain_leaf N pr L nx i : chain N pr L nx → i ∈ L → ∃ p a b es, N !! i = Some (Leaf i p a b es).
Proof.
  revert pr. induction L as [|x L IH]; intros pr; cbn [chain]; [by intros _ ?%not_elem_of_nil|].
  intros [(p & es & Hx) Hc] [->|Hi]%elem_of_cons; [by eexists _, _, _, _|by eapply IH].
Qed.

Lemma chain_internal N pr L nx i j p ks cs :
  chain N pr L nx → N !! i = Some (Internal j p ks cs) → i ∉ L.
Proof. intros Hc Hi Hin. destruct (chain_leaf _ _ _ _ _ Hc Hin) as (? & ? & ? & ? & ?). congruence. Qed.

Lemma chain_set_parent N i n q pr L nx :
  N !! i = Some n → node_id n = i → chain N pr L nx → chain (<[i := set_parent n q]> N) pr L nx.
Proof.
  intros Hi Hid Hc. destruct n as [j p a b es|j p ks cs]; cbn in Hid; subst j; cbn [set_parent].
  - by eapply chain_same.
  - apply chain_insert; [|done]. by eapply chain_internal.
Qed.

Lemma position_middle i l r : i ∉ l → position i (l ++ i :: r) = Some (length l).
Proof.
  induction l as [|x l IH]; cbn [app position length]; [by rewrite Z.eqb_refl|].
  intros [Hne Hl]%not_elem_of_cons. rewrite (proj2 (Z.eqb_neq _ _)) by done. by rewrite IH.
Qed.

(** The identifier of a hole is not one of its siblings'. *)
Lemma hole_notin N f c i b m :
  owns N ((i, b) :: ctx_cells (f :: c) i m) → (i ∉ (tid <$> f_left f)) ∧ (i ∉ (tid <$> f_right f)) ∧ i ≠ f_id f.
Proof.
  intros [Hnd _]. cbn [ctx_cells] in Hnd. rewrite !fmap_cons, fmap_app in Hnd. apply NoDup_cons in Hnd as [Hi _].
  cbn [fst] in Hi.
  apply not_elem_of_cons in Hi as [Hne Hi]. apply not_elem_of_app in Hi as [Hi _].
  rewrite flat_map_app, fmap_app in Hi. apply not_elem_of_app in Hi as [Hl Hr].
  assert (∀ ts, i ∈ (tid <$> ts) → i ∈ (flat_map (cells (Some (f_id f))) ts).*1) as Hin.
  { intros ts (t & -> & Ht)%list_elem_of_fmap. apply list_elem_of_fmap. exists (tid t, top (Some (f_id f)) t).
    split; [done|]. by apply tid_in_kids. }
  split_and!; eauto.
Qed.

(** What is stored of a set of pages, and the least key below a page. *)
Section Reading.
Context {S : Type} {Hstore : PageStore S} {Hbase : PageBase} {Hreads : PageStoreReads S} (full big : Prop).
Local Abbreviation twp := (twp full big).

Definition bodies (N : gmap Z Node) (cs : list (Z * body)) : Prop := ∀ c, c ∈ cs → has_body N c.1 c.2.

Lemma owns_bodies N cs : owns N cs → bodies N cs.
Proof. intros [_ Hf] c Hc. rewrite Forall_forall in Hf. by apply Hf. Qed.

Lemma bodies_kid N p id t kids : bodies N (cells p (TNode id kids)) → t ∈ kids → bodies N (cells (Some id) t).
Proof. intros Hb Ht c Hc. apply Hb. cbn [cells]. right. apply elem_of_flat_map. by exists t. Qed.

Lemma bodies_top N p t : bodies N (cells p t) → has_body N (tid t) (top p t).
Proof. intros Hb. apply (Hb (tid t, top p t)), tid_in_cells. Qed.

Lemma twp_subtree_min n t fuel p N nx (Q : bytes → gmap Z Node → Z → Prop) :
  wf n t → (n < fuel)%nat → bodies N (cells p t) → Q (tmin t) N nx →
  twp (subtree_min_loop fuel (tid t)) N nx Q.
Proof.
  revert t p fuel. induction n as [|n IH]; intros t p [|fuel] Hw Hf Hb HQ; [lia| |lia|].
  - destruct t as [id es|]; [|done]. destruct (bodies_top _ _ _ Hb) as ([? ? ? ? ?|] & Hn & Hid & Hnb); [|done].
    cbn in Hnb, Hid. simplify_eq. cbn [subtree_min_loop]. apply twp_bind. eapply twp_load; [done|].
    cbn in Hw. destruct es as [|e es]; [done|]. by apply twp_ret.
  - destruct t as [|id kids]; [done|]. destruct (bodies_top _ _ _ Hb) as ([|? ? ? ?] & Hn & Hid & Hnb); [done|].
    cbn in Hnb, Hid. simplify_eq. cbn [subtree_min_loop]. apply twp_bind. eapply twp_load; [done|].
    destruct Hw as [Hk Hw]. destruct kids as [|t kids]; [done|]. rewrite fmap_cons.
    apply Forall_cons in Hw as [Hw _]. eapply IH; [done|lia| |done]. eapply bodies_kid; [done|left].
Qed.
End Reading.

Section Steps.
Context {S : Type} {Hstore : PageStore S} {Hbase : PageBase} {Hlaws : PageStoreLaws S} (full big : Prop) (limit : nat) (root : Z).
Local Abbreviation twp := (twp full big).

Definition relink_target (new : Z) : option Z := if new =? NONE_PAGE then None else Some new.

Lemma relink_target_some i : id_ok i → relink_target i = Some i.
Proof. intros [_ Hi]. unfold relink_target. case_match; bool_prop; [lia|done]. Qed.
Lemma relink_target_default o : link_ok o → relink_target (default NONE_PAGE o) = o.
Proof. destruct o as [i|]; [apply relink_target_some|done]. Qed.

(** Pointing the leaf before a gap to what comes after it. *)
Lemma twp_relink_before L pr nxo new N nx cs Q :
  owns N cs → chain N pr L nxo → NoDup L → link_ok (relink_target new) →
  (∀ N', owns N' cs → chain N' pr L (relink_target new) → (∀ i, i ∉ L → N' !! i = N !! i) → Q tt N' nx) →
  twp (relink_neighbor (last L) true new) N nx Q.
Proof.
  intros Ho Hc Hnd Hnew HQ. destruct L as [|x L _] using rev_ind.
  { apply twp_ret. by apply HQ. }
  rewrite last_snoc. cbn [relink_neighbor]. pose proof Hc as Hc'. apply chain_app in Hc as [Hc (Hx & _)].
  destruct Hx as (p & es & Hx). cbn [next_of] in Hx. apply twp_nodes. intros HN.
  destruct (nodes_lookup _ _ _ _ HN Hx) as (Hlt & _ & Hok & Hsz). apply twp_bind. eapply twp_load; [done|].
  fold (relink_target new).
  apply NoDup_app in Hnd as (_ & Hnx & _). assert (x ∉ L) as HxL by (intros ?; eapply Hnx; [done|left]).
  pose proof Hok as (_ & _ & Hlast & _).
  apply twp_save; cbn [node_id]; [by eapply node_ok_relink|done|by right|]. intros _. apply HQ.
  - apply (owns_same N (Leaf x p (last_of pr L) (relink_target new) es)); [done|]. cbn. by eexists.
  - apply chain_app. split; [by apply chain_insert|]. split; [|done]. exists p, es. by rewrite lookup_insert_eq.
  - intros i Hi. rewrite lookup_insert_ne; [done|]. intros ->. apply Hi. set_solver.
Qed.

(** Pointing the leaf after a gap to what comes before it. *)
Lemma twp_relink_after L pr nxo new N nx cs Q :
  owns N cs → chain N pr L nxo → NoDup L → link_ok (relink_target new) →
  (∀ N', owns N' cs → chain N' (relink_target new) L nxo → (∀ i, i ∉ L → N' !! i = N !! i) → Q tt N' nx) →
  twp (relink_neighbor (head L) false new) N nx Q.
Proof.
  intros Ho Hc Hnd Hnew HQ. destruct L as [|x L].
  { apply twp_ret. by apply HQ. }
  cbn [head relink_neighbor]. destruct Hc as [(p & es & Hx) Hc]. apply twp_nodes. intros HN.
  destruct (nodes_lookup _ _ _ _ HN Hx) as (Hlt & _ & Hok & Hsz). apply twp_bind. eapply twp_load; [done|].
  fold (relink_target new). apply NoDup_cons in Hnd as [HxL _]. pose proof Hok as (_ & _ & _ & Hnext & _).
  apply twp_save; cbn [node_id]; [by eapply node_ok_relink|done|by right|]. intros _. apply HQ.
  - apply (owns_same N (Leaf x p (relink_target new) (next_of L nxo) es)); [done|]. cbn. by eexists.
  - split; [exists p, es; by rewrite lookup_insert_eq|by apply chain_insert].
  - intros i Hi. rewrite lookup_insert_ne; [done|]. intros ->. apply Hi. left.
Qed.

(** Every child gets the new parent; nothing else changes. *)
Lemma twp_reparent kids p id pr L nxo N nx cs Q :
  owns N (flat_map (cells p) kids ++ cs) → chain N pr L nxo → id_ok id →
  (∀ N', owns N' (flat_map (cells (Some id)) kids ++ cs) → chain N' pr L nxo → Q tt N' nx) →
  twp (proc_each (reparent_child id) (tid <$> kids)) N nx Q.
Proof.
  revert N cs. induction kids as [|t kids IH]; intros N cs Ho Hc Hid HQ; [by apply twp_ret, HQ|].
  rewrite fmap_cons. cbn [proc_each flat_map] in *.
  destruct (cells_top p t) as (l & Hl & Hq). rewrite Hl in Ho. cbn [app] in Ho.
  pose proof Ho as (_ & _ & (n & Hn & Hnid & Hnb))%owns_tail. cbn [fst snd] in *.
  apply twp_nodes. intros HN. destruct (nodes_lookup _ _ _ _ HN Hn) as (Hlt & _ & Hok & Hsz).
  apply twp_bind, twp_bind. eapply twp_load; [done|].
  apply twp_save; rewrite ?set_parent_id, ?set_parent_size, ?Hnid; [by apply node_ok_reparent|done|by right|].
  intros _. apply (IH _ (cells (Some id) t ++ cs)).
  - rewrite Hq. rewrite <- (set_parent_top n p (Some id) t Hnb).
    rewrite (Permutation_app_swap_app (flat_map _ _)). cbn [app].
    rewrite <- Hnid, <- (set_parent_id n (Some id)). rewrite <- Hnid, <- (set_parent_id n (Some id)) in Ho.
    eapply owns_update. rewrite <- !app_assoc in *. done.
  - by apply chain_set_parent.
  - done.
  - intros N' Ho' Hc'. apply HQ; [|done]. revert Ho'. apply owns_perm. by rewrite <- app_assoc, Permutation_app_swap_app.
Qed.

(** The separator for the hole is replaced in the first frame that has one. *)
Lemma frame_keys_replace f m m' : f_left f ≠ [] →
  <[(length (f_left f) - 1)%nat := m']> (frame_keys f m) = frame_keys f m'
  ∧ (length (f_left f) - 1 < length (frame_keys f m))%nat.
Proof.
  intros Hl. unfold frame_keys. destruct (f_left f) as [|t l]; [done|]. rewrite fmap_cons.
  change (length (t :: l)) with (Datatypes.S (length l)). rewrite <- (length_fmap tmin l).
  generalize (tmin <$> l), (tmin <$> f_right f). intros ml mr.
  change (drop 1 ((tmin t :: ml) ++ m :: mr)) with (ml ++ m :: mr).
  change (drop 1 ((tmin t :: ml) ++ m' :: mr)) with (ml ++ m' :: mr).
  rewrite length_app. cbn [length]. split; [|lia].
  replace (Datatypes.S (length ml) - 1)%nat with (length ml + 0)%nat by lia. by rewrite insert_app_r.
Qed.

(** In a context where the hole is leftmost, its minimum is nowhere a separator. *)
Definition leftmost (c : ctx) : Prop := Forall (λ f, f_left f = []) c.

Lemma ctx_cells_leftmost c i m m' : leftmost c → ctx_cells c i m = ctx_cells c i m'.
Proof.
  intros Hl. revert i m m'. induction Hl as [|f c Hf _ IH]; intros i m m'; [done|]. cbn [ctx_cells].
  unfold frame_keys, frame_min. rewrite Hf. cbn. do 2 f_equal. apply IH.
Qed.

(** Every frame of the context, filled with a tree of minimum [m], is a node
    the format can hold. *)
Fixpoint frames_ok (c : ctx) (i : Z) (m : bytes) : Prop :=
  match c with
  | [] => True
  | f :: c => node_ok (Internal (f_id f) (parent_of c) (frame_keys f m) (frame_ids f i))
              ∧ frames_ok c (f_id f) (frame_min f m)
  end.

(** The same for sizes: no separator outgrows its page. *)
Fixpoint frames_fit (c : ctx) (m : bytes) : Prop :=
  match c with
  | [] => True
  | f :: c => 8 + sum_size child_size (frame_keys f m) ≤ NODE_CAP ∧ frames_fit c (frame_min f m)
  end.

Lemma owns_hole N c t m p cs :
  owns N (ctx_cells c (tid t) m ++ cells p t ++ cs) → owns N ((tid t, top p t) :: ctx_cells c (tid t) m).
Proof.
  destruct (cells_top p t) as (l & -> & _). intros Ho. cbn [app] in Ho. rewrite <- Permutation_middle in Ho.
  rewrite app_comm_cons in Ho. by apply owns_app in Ho as [Ho _].
Qed.

(** The cells of a frame around its hole, as the cells of the plugged node. *)
Lemma ctx_cells_step c f t m p cs : frame_keys f m = frame_keys f (tmin t) → p = Some (f_id f) →
  ctx_cells (f :: c) (tid t) m ++ cells p t ++ cs
  ≡ₚ ctx_cells c (f_id f) (frame_min f m) ++ cells (parent_of c) (plug f [t]) ++ cs.
Proof. intros Hk ->. rewrite cells_plug. cbn [ctx_cells]. rewrite Hk. solve_Permutation. Qed.

Lemma twp_propagate c t m n fuel pr L nxo cs N nx Q :
  wf n t → ctx_wf n c → (n + length c < limit)%nat → (length c < fuel)%nat →
  owns N (ctx_cells c (tid t) m ++ cells (parent_of c) t ++ cs) → chain N pr L nxo →
  frames_ok c (tid t) (tmin t) → (big ∨ frames_fit c (tmin t)) →
  (∀ N', owns N' (ctx_cells c (tid t) (tmin t) ++ cells (parent_of c) t ++ cs) → chain N' pr L nxo → Q tt N' nx) →
  twp (propagate_min_loop limit fuel (tid t)) N nx Q.
Proof.
  revert t m n fuel N. induction c as [|f c IH];
    intros t m n [|fuel] N Hw Hcw Hlim Hfuel Ho Hch Hok Hfit HQ; cbn [length] in *; [lia| |lia|].
  { pose proof (owns_hole _ _ _ _ _ _ Ho) as (_ & _ & (x & Hx & Hxid & Hxb))%owns_tail. cbn [fst snd] in *.
    cbn [propagate_min_loop]. apply twp_bind. eapply twp_load; [done|].
    assert (node_parent x = None) as -> by (destruct x, t; cbn in *; by simplify_eq).
    apply twp_ret. by apply HQ. }
  pose proof (owns_hole _ _ _ _ _ _ Ho) as Hhole. destruct (hole_notin _ _ _ _ _ _ Hhole) as (Hnl & _ & _).
  pose proof Hhole as (Hctx & _ & (x & Hx & Hxid & Hxb))%owns_tail. cbn [fst snd] in *.
  cbn [propagate_min_loop]. apply twp_bind. eapply twp_load; [done|].
  assert (node_parent x = Some (f_id f)) as -> by (destruct x, t; cbn in *; by simplify_eq).
  cbn [ctx_cells] in Hctx. pose proof Hctx as (_ & _ & (y & Hy & Hyid & Hyb))%owns_tail. cbn [fst snd] in *.
  destruct y as [|yid yp ks cs']; [done|]. cbn [node_id node_body] in Hyid, Hyb. simplify_eq.
  apply twp_nodes. intros HN. destruct (nodes_lookup _ _ _ _ HN Hy) as (Hlt & _ & _ & _).
  apply twp_bind. eapply twp_load; [done|].
  cbv match. assert (position (tid t) (frame_ids f (tid t)) = Some (length (f_left f))) as ->
    by (unfold frame_ids; by rewrite position_middle, length_fmap).
  cbn [frames_ok frames_fit ctx_wf] in *. destruct Hok as [Hok Hoks], Hcw as (Hwl & Hwr & Hcw).
  destruct (f_left f) as [|t0 l] eqn:El; cbn [length].
  - assert (∀ m', frame_keys f m' = tmin <$> f_right f) as Hk by (intros; unfold frame_keys; by rewrite El).
    assert (∀ m', frame_min f m' = m') as Hm by (intros; unfold frame_min; by rewrite El).
    assert (tmin (plug f [t]) = tmin t) as Hmin by by rewrite tmin_plug, Hm.
    rewrite ctx_cells_step, Hm in Ho by (rewrite ?Hk; done).
    change (f_id f) with (tid (plug f [t])). eapply (IH (plug f [t]) m (Datatypes.S n)); rewrite ?Hmin.
    + apply wf_plug; [done|]. rewrite El, Forall_singleton. done.
    + done.
    + lia.
    + lia.
    + exact Ho.
    + done.
    + by rewrite Hm in Hoks.
    + destruct Hfit as [?|[_ Hfit]]; [by left|right]. by rewrite Hm in Hfit.
    + intros N' Ho' Hc'. apply HQ; [|done]. rewrite ctx_cells_step, Hm by (rewrite ?Hk; done). exact Ho'.
  - destruct (frame_keys_replace f m (tmin t)) as [Hrep Hlen]; [by rewrite El|].
    rewrite El in Hrep, Hlen. cbn [length] in Hrep, Hlen.
    replace (Datatypes.S (length l) - 1)%nat with (length l) in Hrep, Hlen by lia.
    apply twp_bind. eapply (twp_subtree_min full big n); [done|lia| |].
    { intros b Hb. apply (owns_bodies _ _ Ho). rewrite !elem_of_app. right. left. exact Hb. }
    rewrite (proj2 (Nat.ltb_lt _ _) Hlen), Hrep.
    apply twp_save; cbn [node_id node_size]; [done|done|destruct Hfit as [?|[? _]]; auto|]. intros _. apply HQ.
    + cbn [ctx_cells app] in Ho |- *.
      apply (owns_update N (Internal (f_id f) (parent_of c) (frame_keys f (tmin t)) (frame_ids f (tid t)))) in Ho.
      cbn [node_id node_body] in Ho. unfold frame_min in *. rewrite El in *. rewrite fmap_cons in *. exact Ho.
    + apply chain_insert; [|done]. by eapply chain_internal.
Qed.
End Steps.
