(* ===== verification/BtreeSearch.v ===== *)
(** * Descending to a leaf, looking up and scanning

    The separators send a key to the only leaf that may hold it; a lookup there
    is a lookup in all entries of the tree, and a walk along the leaf links
    from there visits the entries from the start key on. *)

From S2P Require Import Prelude StorageBytes StoragePage StorageIo BtreeNode BtreeOps BtreeTree BtreeStore BtreeSteps.

(** ** Contexts, outermost frame last *)

Lemma fill_app c1 c2 t : fill (c1 ++ c2) t = fill c2 (fill c1 t).
Proof. revert t. induction c1 as [|f c1 IH]; intros t; [done|]. cbn. apply IH. Qed.
Lemma before_ctx_app c1 c2 : before (c1 ++ c2) = before c2 ++ before c1.
Proof. induction c1 as [|f c1 IH]; cbn [app before]; [by rewrite app_nil_r|]. by rewrite IH, app_assoc. Qed.
Lemma after_ctx_app c1 c2 : after (c1 ++ c2) = after c1 ++ after c2.
Proof. induction c1 as [|f c1 IH]; cbn [app after]; [done|]. by rewrite IH, app_assoc. Qed.

Lemma ctx_wf_snoc n c f :
  ctx_wf n (c ++ [f]) ↔ ctx_wf n c ∧ Forall (wf (length c + n)) (f_left f) ∧ Forall (wf (length c + n)) (f_right f).
Proof.
  revert n. induction c as [|g c IH]; intros n; cbn [app ctx_wf length Nat.add]; [tauto|].
  rewrite IH, <- Nat.add_succ_r. tauto.
Qed.

Lemma partition_point_spec {A} (p : A → bool) l :
  let i := partition_point p l in
  (i ≤ length l)%nat ∧ Forall (λ x, p x = true) (take i l) ∧ ∀ x, l !! i = Some x → p x = false.
Proof.
  induction l as [|a l IH]; cbn [partition_point]; [by split_and!|].
  destruct (p a) eqn:Ha; cbn [take length lookup list_lookup].
  - destruct IH as (Hi & Ht & Hx). split_and!; [lia|by constructor|done].
  - split_and!; [lia|constructor|]. intros x [= ->]. done.
Qed.

(** The path to the leaf where a key belongs: everything to the left is below
    the key, everything to the right above it. *)
Record routed (c : ctx) (m key : bytes) : Prop := {
  rt_before : ∀ e, e ∈ entries_of (before c) → cmp_lt e.1 key;
  rt_after : ∀ e, e ∈ entries_of (after c) → cmp_lt key e.1;
  rt_min : entries_of (before c) ≠ [] → cmp_le m key
}.

Lemma cmp_lt_le_trans (a b c : bytes) : cmp_lt a b → cmp_le b c → cmp_lt a c.
Proof. intros H [H'| ->]%cmp_le_lt_or_eq; [by etrans|done]. Qed.
Lemma cmp_not_le_lt (a b : bytes) : ¬ cmp_le a b → cmp_lt b a.
Proof. unfold cmp_le, cmp_lt. rewrite <- cmp_gt_lt. destruct (cmp a b); naive_solver. Qed.

(** The child the separators choose. *)
Lemma route_child n kids key :
  kids ≠ [] → Forall (wf n) kids → ksorted (flats kids) →
  let i := partition_point (λ separator, bool_decide (cmp_le separator key)) (seps kids) in
  ∃ l t r, kids = l ++ t :: r ∧ length l = i
    ∧ (∀ e, e ∈ flats l → cmp_lt e.1 key) ∧ (∀ e, e ∈ flats r → cmp_lt key e.1)
    ∧ (l ≠ [] → cmp_le (tmin t) key).
Proof.
  intros Hne Hw Hs i. destruct (partition_point_spec (λ separator, bool_decide (cmp_le separator key)) (seps kids))
    as (Hi & Hle & Hgt). fold i in Hi, Hle, Hgt.
  assert (length (seps kids) = (length kids - 1)%nat) as Hlen by (unfold seps; by rewrite length_drop, length_fmap).
  destruct (lookup_lt_is_Some_2 kids i) as [t Ht]; [destruct kids; [done|cbn [length] in *; lia]|].
  exists (take i kids), t, (drop (S i) kids). pose proof (take_drop_middle kids i t Ht) as Hmid.
  assert (length (take i kids) = i) as Hli by (rewrite length_take; apply lookup_lt_Some in Ht; lia).
  rewrite <- Hmid in Hw, Hs. apply Forall_app in Hw as [Hwl [Hwt Hwr]%Forall_cons].
  rewrite flats_app, flats_cons in Hs. apply StronglySorted_app in Hs as (Hlr & _ & Hs).
  apply StronglySorted_app in Hs as (Htr & _ & Hsr).
  assert (take i kids ≠ [] → cmp_le (tmin t) key) as Hmin.
  { intros Hnil. destruct i as [|i']; [done|]. rewrite Forall_forall in Hle.
    specialize (Hle (tmin t)). rewrite bool_decide_eq_true in Hle. apply Hle.
    apply list_elem_of_lookup. exists i'. rewrite lookup_take_lt by lia. unfold seps.
    rewrite lookup_drop, list_lookup_fmap. change (1 + i')%nat with (S i'). by rewrite Ht. }
  split_and!; [done|done| | |done].
  - intros e He. destruct (tmin_in _ _ Hwt) as (e0 & He0 & Hm). apply cmp_lt_le_trans with (tmin t).
    + rewrite <- Hm. apply Hlr; set_solver.
    + apply Hmin. intros Hnil. rewrite Hnil in He. by apply not_elem_of_nil in He.
  - destruct (drop (S i) kids) as [|t' r] eqn:Er; [by intros e ?%not_elem_of_nil|].
    apply Forall_cons in Hwr as [Hwt' _]. rewrite flats_cons in Hsr |- *.
    assert (cmp_lt key (tmin t')) as Hk.
    { apply cmp_not_le_lt. assert (seps kids !! i = Some (tmin t')) as Hsep.
      { unfold seps. rewrite lookup_drop, list_lookup_fmap. change (1 + i)%nat with (S i).
        rewrite <- (Nat.add_0_r (S i)), <- lookup_drop, Er. done. }
      apply Hgt in Hsep. by apply bool_decide_eq_false in Hsep. }
    intros e He. eapply cmp_lt_le_trans; [done|].
    destruct (tmin_flat _ _ Hwt') as (e1 & es & Hf & <-). rewrite Hf in Hsr, He. cbn [app] in Hsr, He.
    apply elem_of_cons in He as [->|He]; [unfold cmp_le; by rewrite cmp_refl|].
    apply StronglySorted_inv in Hsr as [_ Hall]. rewrite Forall_forall in Hall. specialize (Hall _ He).
    unfold key_lt, cmp_lt, cmp_le in *. congruence.
Qed.

Lemma routed_snoc c f t m key :
  routed c m key → tmin t = m ∨ entries_of (before c) ≠ [] →
  (∀ e, e ∈ flats (f_left f) → cmp_lt e.1 key) → (∀ e, e ∈ flats (f_right f) → cmp_lt key e.1) →
  (f_left f ≠ [] → cmp_le (tmin t) key) → routed (c ++ [f]) m key.
Proof.
  intros [Hb Ha Hm] Ht Hl Hr Hmin. split; rewrite ?before_ctx_app, ?after_ctx_app; cbn [before after app];
    rewrite ?app_nil_r, !entries_of_app.
  - intros e [He|He]%elem_of_app; [by apply Hl|by apply Hb].
  - intros e [He|He]%elem_of_app; [by apply Ha|by apply Hr].
  - intros Hne. destruct (decide (entries_of (before c) = [])) as [E|E]; [|by apply Hm].
    destruct Ht as [<-|?]; [|done]. apply Hmin. intros El. rewrite El, E in Hne. done.
Qed.

(** Below a leftmost path the minimum is that of the leaf. *)
Lemma tmin_fill n c t : wf (length c + n) (fill c t) → entries_of (before c) = [] → tmin (fill c t) = tmin t.
Proof.
  intros Hw Hb. pose proof Hw as [Ht _]%wf_fill.
  destruct (tmin_flat _ _ Hw) as (e & es & Hf & <-). destruct (tmin_flat _ _ Ht) as (e' & es' & Hf' & <-).
  rewrite flat_fill, Hb, Hf' in Hf. cbn in Hf. by simplify_eq.
Qed.

Lemma ids_node id kids : ids (TNode id kids) = id :: flat_map ids kids.
Proof.
  unfold ids at 1. cbn [cells]. rewrite fmap_cons. f_equal. induction kids as [|t kids IH]; [done|].
  cbn [flat_map]. by rewrite fmap_app, cells_ids, IH.
Qed.

Section Search.
Context {S : Type} {Hstore : PageStore S} {Hbase : PageBase} {Hreads : PageStoreReads S} (full big : Prop) (limit : nat) (root : Z).
Local Abbreviation twp := (twp full big).

Lemma twp_find_leaf n t p key visited fuel N nx Q :
  wf n t → ksorted (flat t) → NoDup (ids t) → bodies N (cells p t) → (n < fuel)%nat →
  (∀ i, i ∈ visited → i ∉ ids t) →
  (∀ c id es x, t = fill c (TLeaf id es) → length c = n → wf 0 (TLeaf id es) → ctx_wf 0 c →
     routed c (tmin (TLeaf id es)) key → N !! id = Some x → Q x N nx) →
  twp (find_leaf_loop fuel key visited (tid t)) N nx Q.
Proof.
  revert t p visited fuel Q. induction n as [|n IH]; intros t p visited [|fuel] Q Hw Hs Hnd Hb Hf Hv HQ; [lia| |lia|].
  - destruct t as [id es|]; [|done]. destruct (bodies_top _ _ _ Hb) as (x & Hn & Hid & Hnb).
    destruct x as [xid xp pv nx' xes|]; [|done]. cbn in Hn, Hid, Hnb. simplify_eq.
    cbn [find_leaf_loop tid]. rewrite decide_False by (intros Hin; apply (Hv _ Hin); left).
    apply twp_bind. eapply twp_load; [done|]. apply twp_ret. apply (HQ [] id es); try done.
    split; cbn; [by intros ? ?%not_elem_of_nil..|done].
  - destruct t as [|id kids]; [done|]. destruct Hw as [Hne Hw].
    destruct (bodies_top _ _ _ Hb) as (x & Hn & Hid & Hnb).
    destruct x as [|xid xp ks cs]; [done|]. cbn [tid node_id node_body top] in Hn, Hid, Hnb. simplify_eq.
    cbn [find_leaf_loop tid]. rewrite decide_False by (intros Hin; apply (Hv _ Hin); left).
    apply twp_bind. eapply twp_load; [done|]. cbv match. rewrite flat_node in Hs.
    destruct (route_child n kids key Hne Hw Hs) as (l & t & r & -> & <- & Hl & Hr & Hmin).
    assert ((tid <$> l ++ t :: r) !! length l = Some (tid t)) as ->
      by (by rewrite list_lookup_fmap, list_lookup_middle).
    rewrite ids_node, flat_map_app in Hnd. cbn [flat_map] in Hnd. rewrite flats_app, flats_cons in Hs.
    apply NoDup_cons in Hnd as [Hid Hnd]. apply NoDup_app in Hnd as (_ & _ & (Hndt & _)%NoDup_app).
    apply Forall_app in Hw as [Hwl [Hwt Hwr]%Forall_cons].
    eapply (IH t (Some id) ({[id]} ∪ visited)); [done| |done| |lia| |].
    + by apply StronglySorted_app in Hs as (_ & _ & (_ & ? & _)%StronglySorted_app).
    + eapply bodies_kid; [done|]. set_solver.
    + intros i [->%elem_of_singleton|Hi]%elem_of_union; [set_solver|].
      specialize (Hv _ Hi). rewrite ids_node, flat_map_app in Hv. cbn [flat_map] in Hv. set_solver.
    + intros c lid es x -> Hlen Hwf Hcw Hrt Hx. apply (HQ (c ++ [mkFrame id l r]) lid es); try done.
      * by rewrite fill_app.
      * rewrite length_app. cbn [length]. lia.
      * apply ctx_wf_snoc. cbn [f_left f_right]. rewrite Nat.add_0_r, Hlen. done.
      * eapply (routed_snoc _ (mkFrame id l r) (fill c (TLeaf lid es))); cbn [f_left f_right]; try done.
        destruct (decide (entries_of (before c) = [])) as [E|E]; [left|by right].
        apply (tmin_fill 0); [by rewrite Nat.add_0_r, Hlen|done].
Qed.
End Search.

(** ** Entries as a map *)

Definition contents (t : tree) : gmap bytes bytes := list_to_map (flat t).

Lemma ksorted_keys es : ksorted es → NoDup es.*1.
Proof.
  induction 1 as [|e es Hs IH He]; rewrite ?fmap_cons; constructor; [|done].
  intros (e' & Heq & He')%list_elem_of_fmap. rewrite Forall_forall in He. specialize (He _ He').
  unfold key_lt in He. rewrite <- Heq in He. by apply cmp_lt_irrefl in He.
Qed.

Lemma list_to_map_middle (l r : list entry) k v :
  k ∉ l.*1 → list_to_map (M := gmap bytes bytes) (l ++ (k, v) :: r) = <[k := v]> (list_to_map (l ++ r)).
Proof.
  induction l as [|e l IH]; [done|]. rewrite fmap_cons. intros [Hne Hl]%not_elem_of_cons. cbn [app list_to_map foldr].
  change (foldr (λ p : bytes * bytes, <[p.1:=p.2]>) ∅) with (list_to_map (M := gmap bytes bytes)).
  rewrite IH by done. apply insert_insert_ne. congruence.
Qed.

Lemma list_to_map_not (l : list entry) k : k ∉ l.*1 → list_to_map (M := gmap bytes bytes) l !! k = None.
Proof. apply not_elem_of_list_to_map_1. Qed.

Lemma binary_search_spec es key :
  ksorted es →
  match binary_search key es with
  | Ok i => ∃ l v r, es = l ++ (key, v) :: r ∧ i = length l
  | Err i => ∃ l r, es = l ++ r ∧ i = length l ∧ (∀ e, e ∈ l → cmp_lt e.1 key) ∧ (∀ e, e ∈ r → cmp_lt key e.1)
  end.
Proof.
  intros Hs. unfold binary_search.
  destruct (partition_point_spec (λ e : entry, bool_decide (cmp_lt e.1 key)) es) as (Hi & Hlt & Hge).
  set (i := partition_point _ es) in *.
  assert (length (take i es) = i) as Hlen by (rewrite length_take; lia).
  assert (∀ e, e ∈ take i es → cmp_lt e.1 key) as Hl.
  { intros e He. rewrite Forall_forall in Hlt. specialize (Hlt e He). by apply bool_decide_eq_true in Hlt. }
  destruct (es !! i) as [[k v]|] eqn:E.
  - pose proof (take_drop_middle es i _ E) as Hmid. cbn [fst]. case_bool_decide as Hk; subst.
    + by exists (take i es), v, (drop (S i) es).
    + exists (take i es), (drop i es). split_and!; [by rewrite take_drop|done|done|].
      specialize (Hge _ eq_refl). apply bool_decide_eq_false in Hge. cbn [fst] in Hge.
      assert (cmp_lt key k) as Hkk.
      { unfold cmp_lt in *. apply cmp_gt_lt. destruct (cmp k key) eqn:Ec; [|done|done]. by apply cmp_eq in Ec. }
      rewrite (drop_S _ _ _ E). intros e [->|He]%elem_of_cons; [done|]. rewrite <- Hmid in Hs.
      apply StronglySorted_app_1_r, StronglySorted_inv in Hs as [_ Hs]. rewrite Forall_forall in Hs.
      etrans; [done|]. by apply (Hs e).
  - exists es, []. apply lookup_ge_None in E. assert (i = length es) as Hie by lia.
    split_and!; [by rewrite app_nil_r|done| |by intros ? ?%not_elem_of_nil].
    intros e He. apply Hl. rewrite Hie, firstn_all. done.
Qed.

Lemma lt_notin (l : list entry) key : (∀ e, e ∈ l → cmp_lt e.1 key) → key ∉ l.*1.
Proof. intros H (e & -> & He)%list_elem_of_fmap. apply H in He. by apply cmp_lt_irrefl in He. Qed.
Lemma gt_notin (l : list entry) key : (∀ e, e ∈ l → cmp_lt key e.1) → key ∉ l.*1.
Proof. intros H (e & -> & He)%list_elem_of_fmap. apply H in He. by apply cmp_lt_irrefl in He. Qed.

(** ** A store that holds a tree *)

Record rep (N : gmap Z Node) (root : Z) (t : tree) : Prop := {
  rep_depth : (∃ n, wf n t) ∨ t = TLeaf root [];
  rep_root : tid t = root;
  rep_sorted : ksorted (flat t);
  rep_entries : Forall entry_ok (flat t);
  rep_owns : owns N (cells None t);
  rep_chain : chain N None (leaves t) None
}.

(** A tree in pieces: a subtree in its context. *)
Lemma rep_fill N root c t n :
  wf n t → ctx_wf n c → tid (fill c t) = root →
  owns N (ctx_cells c (tid t) (tmin t) ++ cells (parent_of c) t) →
  chain N None (before c ++ pages t ++ after c).*1 None →
  ksorted (entries_of (before c ++ pages t ++ after c)) →
  Forall entry_ok (entries_of (before c ++ pages t ++ after c)) → rep N root (fill c t).
Proof.
  intros Hw Hcw Hr Ho Hc Hs He. split.
  - left. exists (length c + n)%nat. by apply wf_fill.
  - done.
  - by rewrite flat_alt, pages_fill.
  - by rewrite flat_alt, pages_fill.
  - by rewrite cells_fill.
  - unfold leaves. by rewrite pages_fill.
Qed.

(** Identifiers of a context, for the links to parents. *)
Lemma parent_of_ok c i m : Forall id_ok (ctx_cells c i m).*1 → link_ok (parent_of c).
Proof. destruct c as [|f c]; [done|]. cbn [ctx_cells]. rewrite fmap_cons. by intros [? _]%Forall_cons. Qed.

Lemma kids_ids_ok (kids : list tree) p : Forall id_ok (flat_map (cells p) kids).*1 → Forall id_ok (tid <$> kids).
Proof.
  rewrite !Forall_fmap, !Forall_forall. intros H t Ht. apply (H (tid t, top p t)). by apply tid_in_kids.
Qed.

(** The frames of a context around a tree are nodes the format can hold. *)
Lemma frames_ok_fill c t n m :
  wf n t → ctx_wf n c → id_ok (tid t) → Forall id_ok (ctx_cells c (tid t) m).*1 →
  ksorted (entries_of (before c) ++ flat t ++ entries_of (after c)) →
  Forall entry_ok (entries_of (before c) ++ flat t ++ entries_of (after c)) →
  frames_ok c (tid t) (tmin t).
Proof.
  revert t n m. induction c as [|f c IH]; intros t n m Hw Hcw Hid Hids Hs He; [done|].
  cbn [before after ctx_wf ctx_cells frames_ok] in *. destruct Hcw as (Hl & Hr & Hcw).
  rewrite !entries_of_app in *. fold (flats (f_left f)) (flats (f_right f)) in *.
  rewrite fmap_cons, fmap_app, Forall_cons, Forall_app in Hids. destruct Hids as (Hf & Hkids & Hids).
  rewrite flat_map_app, fmap_app, Forall_app in Hkids. destruct Hkids as [Hkl Hkr].
  assert (flat (plug f [t]) = flats (f_left f) ++ flat t ++ flats (f_right f)) as Hpl.
  { unfold plug. by rewrite flat_node, !flats_app, flats_cons, app_nil_r. }
  assert (wf (Datatypes.S n) (plug f [t])) as Hwp by (apply wf_plug; [done|]; by rewrite Forall_singleton).
  rewrite <- !app_assoc in Hs, He.
  assert (ksorted (entries_of (before c) ++ flat (plug f [t]) ++ entries_of (after c))) as Hs' by by rewrite Hpl, <- !app_assoc.
  assert (Forall entry_ok (entries_of (before c) ++ flat (plug f [t]) ++ entries_of (after c))) as He' by by rewrite Hpl, <- !app_assoc.
  split.
  - assert (frame_keys f (tmin t) = seps (f_left f ++ [t] ++ f_right f)) as ->
      by (unfold frame_keys, seps; by rewrite !fmap_app).
    assert (frame_ids f (tid t) = tid <$> (f_left f ++ [t] ++ f_right f)) as ->
      by (unfold frame_ids; by rewrite !fmap_app).
    apply (internal_ok n).
    + done.
    + by eapply parent_of_ok.
    + rewrite !fmap_app, !Forall_app. split_and!; [by eapply kids_ids_ok|by apply Forall_singleton|by eapply kids_ids_ok].
    + by destruct (f_left f).
    + apply Hwp.
    + by apply StronglySorted_app in Hs' as (_ & _ & (_ & ? & _)%StronglySorted_app).
    + by apply Forall_app in He' as [_ [? _]%Forall_app].
  - rewrite <- (tmin_plug f t []). change (f_id f) with (tid (plug f [t])). by eapply (IH _ (Datatypes.S n)).
Qed.

(** The stored frames fit their pages. *)
Lemma owns_frames_fit {Hbase : PageBase} N nx c i m cs : nodes_ok N nx → owns N (ctx_cells c i m ++ cs) → frames_fit c m.
Proof.
  intros HN. revert i m cs. induction c as [|f c IH]; intros i m cs Ho; [done|]. cbn [ctx_cells frames_fit app] in *.
  pose proof Ho as (Ho' & _ & (n & Hn & _ & Hb))%owns_tail. cbn [fst snd] in *.
  destruct (nodes_lookup _ _ _ _ HN Hn) as (_ & _ & _ & Hsz). destruct n; [done|]. cbn in Hb. injection Hb as _ -> _.
  split; [done|]. rewrite <- app_assoc in Ho'. apply owns_app in Ho' as [_ Ho']. by eapply IH.
Qed.

Lemma frames_fit_length c m m' : zlen m' ≤ zlen m → frames_fit c m → frames_fit c m'.
Proof.
  revert m m'. induction c as [|f c IH]; intros m m' Hm; [done|]. cbn [frames_fit]. intros [Hf Hc]. split.
  - assert (sum_size child_size (frame_keys f m') ≤ sum_size child_size (frame_keys f m)) as Hle; [|lia].
    unfold frame_keys. destruct (tmin <$> f_left f) as [|a l]; cbn [app drop]; [done|].
    rewrite ?drop_0, !sum_size_app. unfold sum_size. cbn. unfold child_size. lia.
  - revert Hc. apply IH. unfold frame_min. by destruct (head (tmin <$> f_left f)).
Qed.

Section Lookup.
Context {S : Type} {Hstore : PageStore S} {Hbase : PageBase} {Hreads : PageStoreReads S} (full big : Prop) (limit : nat) (root : Z).
Context (Hlimit : u64_max ≤ Z.of_nat limit).
Local Abbreviation twp := (twp full big).

(** The limit exceeds the number of pages there can be. *)
Lemma pages_below_limit N nx (cs : list (Z * body)) : nodes_ok N nx → owns N cs → (length cs ≤ limit)%nat.
Proof.
  intros HN Ho. pose proof (owns_ids _ _ _ HN Ho) as Hf. destruct Ho as [Hnd _], HN as [Hnx _].
  pose proof (ids_bound _ nx Hnd) as Hb. rewrite length_fmap in Hb.
  assert (Z.of_nat (length cs) ≤ Z.max 0 nx); [|lia].
  apply Hb. eapply Forall_impl; [exact Hf|]. intros i [[? _] ?]. unfold allocated in *; lia.
Qed.

Lemma depth_below_limit N nx p n t : nodes_ok N nx → owns N (cells p t) → wf n t → (n < limit)%nat.
Proof.
  intros HN Ho Hw. pose proof (pages_below_limit _ _ _ HN Ho) as Hl. pose proof (wf_depth n t Hw) as Hd.
  rewrite <- (cells_ids p t), length_fmap in Hd. lia.
Qed.

(** The leaf found, its place in the tree and its links. *)
Record found (N : gmap Z Node) (t : tree) (key : bytes) (c : ctx) (id : Z) (es : list entry) : Prop := {
  fd_fill : t = fill c (TLeaf id es);
  fd_ctx : ctx_wf 0 c;
  fd_leaf : es ≠ [] ∨ c = [];
  fd_routed : routed c (tmin (TLeaf id es)) key;
  fd_node : N !! id = Some (Leaf id (parent_of c) (last_of None (before c).*1) (next_of (after c).*1 None) es);
  fd_depth : (length c < limit)%nat
}.

Lemma rep_leaf_node N t c id es :
  rep N root t → t = fill c (TLeaf id es) →
  N !! id = Some (Leaf id (parent_of c) (last_of None (before c).*1) (next_of (after c).*1 None) es).
Proof.
  intros Hrep ->. destruct Hrep as [_ _ _ _ Ho Hc]. rewrite cells_fill in Ho.
  apply links_body.
  - unfold leaves in Hc. rewrite pages_fill, !fmap_app in Hc. by apply chain_middle in Hc.
  - eapply owns_lookup; [exact Ho|]. set_solver.
Qed.

Lemma contents_found N t key c id es :
  found N t key c id es → contents t !! key = list_to_map (M := gmap bytes bytes) es !! key.
Proof.
  intros [-> _ _ [Hb Ha _] _ _]. unfold contents. rewrite flat_fill, flat_leaf, !list_to_map_app.
  rewrite lookup_union_r by (apply list_to_map_not, lt_notin, Hb).
  apply lookup_union_l. apply list_to_map_not, gt_notin, Ha.
Qed.

Lemma found_sorted N t key c id es : rep N root t → found N t key c id es → ksorted es.
Proof.
  intros [_ _ Hs _ _ _] [-> _ _ _ _ _]. rewrite flat_fill, flat_leaf in Hs.
  by apply StronglySorted_app in Hs as (_ & _ & (_ & ? & _)%StronglySorted_app).
Qed.

Lemma twp_find t key N nx Q :
  rep N root t →
  (∀ c id es x, found N t key c id es → N !! id = Some x → Q x N nx) →
  twp (find_leaf limit root key) N nx Q.
Proof.
  intros Hrep HQ. apply twp_nodes. intros HN. pose proof Hrep as [Hd Hroot Hs He Ho Hc]. unfold find_leaf.
  rewrite <- Hroot. destruct Hd as [[n Hw]|Ht].
  - pose proof (depth_below_limit _ _ _ _ _ HN Ho Hw) as Hn. pose proof Ho as [Hnd _].
    apply (twp_find_leaf full big n t None); [done|done|done|by apply owns_bodies|done|by intros i ?%elem_of_empty|].
    intros c id es x Ht Hlen Hwl Hcw Hr Hx. apply (HQ c id es); [|done].
    split; [done|done|by left|done|by eapply rep_leaf_node|lia].
  - assert (0 < limit)%nat as Hl by (pose proof (pages_below_limit _ _ _ HN Ho) as Hb; subst t; cbn in Hb; lia).
    pose proof (rep_leaf_node N t [] root [] Hrep Ht) as Hx. rewrite Ht at 1. cbn [tid].
    assert (limit = Datatypes.S (limit - 1)) as Hl' by lia. rewrite Hl' at 1. cbn [find_leaf_loop]. rewrite decide_False by apply not_elem_of_empty.
    apply twp_bind. eapply twp_load; [done|]. apply twp_ret. apply (HQ [] root [] _); [|done].
    split; [done|done|by right| |done|done]. split; cbn; [by intros ? ?%not_elem_of_nil|by intros ? ?%not_elem_of_nil|done].
Qed.

Lemma twp_get t key N nx (Q : option bytes → gmap Z Node → Z → Prop) :
  rep N root t → Q (contents t !! key) N nx → twp (btree_get limit root key) N nx Q.
Proof.
  intros Hrep HQ. unfold btree_get. apply twp_bind. apply (twp_find t); [done|].
  intros c id es x Hfd Hx. rewrite (fd_node _ _ _ _ _ _ Hfd) in Hx. injection Hx as <-. cbv match.
  rewrite (contents_found _ _ _ _ _ _ Hfd) in HQ.
  pose proof (binary_search_spec es key (found_sorted _ _ _ _ _ _ Hrep Hfd)) as Hbs.
  destruct (binary_search key es) as [i|i].
  - destruct Hbs as (l & v & r & -> & ->). apply twp_bind. eapply twp_some; [by rewrite list_lookup_middle|].
    apply twp_ret. pose proof (ksorted_keys _ (found_sorted _ _ _ _ _ _ Hrep Hfd)) as Hnd.
    rewrite fmap_app, fmap_cons in Hnd. apply NoDup_app in Hnd as (_ & Hnd & _).
    rewrite list_to_map_middle, lookup_insert_eq in HQ; [done|]. intros Hin. apply (Hnd _ Hin). left.
  - destruct Hbs as (l & r & -> & -> & Hl & Hr). apply twp_ret.
    rewrite list_to_map_not in HQ; [done|]. rewrite fmap_app. apply not_elem_of_app.
    split; [by apply lt_notin|by apply gt_notin].
Qed.

(** *** Scanning *)

Definition in_range (start : bytes) (stop : option bytes) (e : entry) : bool :=
  negb (bool_decide (cmp_lt e.1 start))
  && match stop with Some bound => bool_decide (cmp_lt e.1 bound) | None => true end.

Lemma filter_none {A} (f : A → bool) l : Forall (λ x, f x = false) l → List.filter f l = [].
Proof. induction 1 as [|x l Hx _ IH]; cbn; [done|]. by rewrite Hx. Qed.

Lemma range_entries_spec start stop out es rest :
  ksorted (es ++ rest) →
  match range_entries start stop out es with
  | inl o => o = out ++ List.filter (in_range start stop) (es ++ rest)
  | inr o => o = out ++ List.filter (in_range start stop) es
  end.
Proof.
  revert out. induction es as [|e es IH]; intros out Hs; cbn [range_entries List.filter app]; [by rewrite app_nil_r|].
  apply StronglySorted_inv in Hs as [Hs He].
  case_bool_decide as Hlt.
  { assert (in_range start stop e = false) as -> by (unfold in_range; by rewrite bool_decide_eq_true_2). by apply IH. }
  destruct stop as [bound|].
  - case_bool_decide as Hb; cbn [negb].
    + assert (in_range start (Some bound) e = true) as ->
        by (unfold in_range; by rewrite bool_decide_eq_false_2, bool_decide_eq_true_2).
      specialize (IH (out ++ [e]) Hs). by destruct (range_entries _ _ _ _); rewrite IH, <- app_assoc.
    + assert (List.filter (in_range start (Some bound)) (e :: es ++ rest) = []) as Hnil; [|cbn [List.filter] in Hnil; by rewrite Hnil, app_nil_r].
      apply filter_none. constructor; [unfold in_range; by rewrite (bool_decide_eq_false_2 (cmp_lt e.1 bound)), andb_false_r|].
      eapply Forall_impl; [exact He|]. intros e' He'. unfold in_range, key_lt in *.
      rewrite (bool_decide_eq_false_2 (cmp_lt e'.1 bound)), andb_false_r; [done|]. intros Hlt'. apply Hb. by etrans.
  - assert (in_range start None e = true) as -> by (unfold in_range; by rewrite bool_decide_eq_false_2).
    specialize (IH (out ++ [e]) Hs). by destruct (range_entries _ _ _ _); rewrite IH, <- app_assoc.
Qed.

Lemma twp_range_loop start stop N nx ps fuel visited out pr p t (Q : list entry → gmap Z Node → Z → Prop) :
  chain N pr ps.*1 None → NoDup ps.*1 → (∀ x, x ∈ ps → x ∈ pages t) → bodies N (cells p t) →
  (∀ i, i ∈ visited → i ∉ ps.*1) → (length ps ≤ fuel)%nat → ksorted (entries_of ps) →
  Q (out ++ List.filter (in_range start stop) (entries_of ps)) N nx →
  twp (range_loop fuel start stop visited out (head ps.*1)) N nx Q.
Proof.
  revert fuel visited out pr. induction ps as [|[id es] ps IH]; intros fuel visited out pr Hc Hnd Hin Hb Hv Hf Hs HQ.
  { destruct fuel; cbn [range_loop fmap list_fmap head]; apply twp_ret; by rewrite app_nil_r in HQ. }
  rewrite fmap_cons in *. cbn [head fst length] in *. destruct fuel as [|fuel]; [lia|]. cbn [range_loop].
  destruct Hc as [(q & fs & Hx) Hc]. apply NoDup_cons in Hnd as [Hid Hnd].
  rewrite decide_False by (intros ?; eapply Hv; [done|left]).
  destruct (pages_cells p t id es) as [q' Hq]; [apply Hin; left|].
  assert (fs = es) as ->.
  { destruct (Hb _ Hq) as (n & Hn & _ & Hnb). cbn [fst snd] in *. rewrite Hx in Hn. injection Hn as <-. cbn in Hnb. by simplify_eq. }
  apply twp_bind. eapply twp_load; [done|]. cbv match.
  assert (entries_of ((id, es) :: ps) = es ++ entries_of ps) as He by done. rewrite He in Hs, HQ.
  pose proof (range_entries_spec start stop out es (entries_of ps) Hs) as Hr.
  destruct (range_entries start stop out es) as [o|o]; subst o; [by apply twp_ret|].
  assert (next_of ps.*1 None = head ps.*1) as -> by by destruct ps.
  eapply IH; [done|done| |done| |lia| |].
  - intros x Hx'. apply Hin. by right.
  - intros i [->%elem_of_singleton|Hi]%elem_of_union; [done|]. specialize (Hv _ Hi). by apply not_elem_of_cons in Hv as [_ ?].
  - by apply StronglySorted_app in Hs as (_ & _ & ?).
  - rewrite <- app_assoc. by rewrite List.filter_app in HQ.
Qed.

Lemma twp_range t start stop N nx (Q : list entry → gmap Z Node → Z → Prop) :
  rep N root t → Q (List.filter (in_range start stop) (flat t)) N nx →
  twp (btree_range limit root start stop) N nx Q.
Proof.
  intros Hrep HQ. unfold btree_range. apply twp_nodes. intros HN. apply twp_bind. apply (twp_find t); [done|].
  intros c id es x Hfd Hx. rewrite (fd_node _ _ _ _ _ _ Hfd) in Hx. injection Hx as <-. cbn [node_id].
  pose proof Hfd as [Ht _ _ [Hbe _ _] _ _]. pose proof Hrep as [_ _ Hs _ Ho Hc].
  assert (pages t = before c ++ ((id, es) :: after c)) as Hp by (rewrite Ht, pages_fill; done).
  assert (leaves t = (before c).*1 ++ (((id, es) :: after c)).*1) as Hl by (unfold leaves; by rewrite Hp, fmap_app).
  assert (flat t = entries_of (before c) ++ entries_of ((id, es) :: after c)) as Hfl
    by (rewrite flat_alt, Hp; apply entries_of_app).
  rewrite Hfl, List.filter_app in HQ. rewrite (filter_none _ (entries_of (before c))) in HQ; cycle 1.
  { apply Forall_forall. intros e He. unfold in_range. by rewrite bool_decide_eq_true_2 by by apply Hbe. }
  pose proof (pages_below_limit _ _ _ HN Ho) as Hlim.
  pose proof Ho as [Hnd _]. apply NoDup_leaves in Hnd.
  change (Some id) with (head ((id, es) :: after c).*1).
  eapply (twp_range_loop start stop N nx ((id, es) :: after c) limit ∅ [] _ None t).
  - rewrite Hl, chain_app in Hc. apply Hc.
  - rewrite Hl in Hnd. by apply NoDup_app in Hnd as (_ & _ & ?).
  - intros y Hy. rewrite Hp. set_solver.
  - by apply owns_bodies.
  - by intros i ?%elem_of_empty.
  - pose proof (submseteq_length _ _ (leaves_sublist t)) as Hsub. unfold ids in Hsub. rewrite Hl, length_app, !length_fmap in Hsub. lia.
  - rewrite Hfl in Hs. by apply StronglySorted_app in Hs as (_ & _ & ?).
  - done.
Qed.
End Lookup.
