(* ===== verification/BtreeInsert.v ===== *)
(** * Insertion

    An insertion puts the entry into the leaf the key belongs to and splits
    nodes that outgrow their page on the way up.  It keeps the tree well formed
    and adds exactly the entry.  Where all keys have one length and no entry
    takes more than a third of a page it never fails for lack of room: this is
    the promise [persistence.rs] relies on for its chunks. *)

From S2P Require Import Prelude StorageBytes StoragePage StorageIo BtreeNode BtreeOps BtreeTree BtreeStore BtreeSteps BtreeSearch.

(** ** Entries of one key length, a third of a page at most *)

Definition ENTRY_CAP : Z := NODE_CAP / 3.

Definition uniform (K : Z) (es : list entry) : Prop :=
  Forall (λ e, zlen e.1 = K ∧ entry_size e ≤ ENTRY_CAP) es.

Lemma uniform_app K es fs : uniform K (es ++ fs) ↔ uniform K es ∧ uniform K fs.
Proof. apply Forall_app. Qed.

Lemma uniform_min K n t : wf n t → uniform K (flat t) → zlen (tmin t) = K ∧ 4 + K ≤ ENTRY_CAP.
Proof.
  intros (e & He & <-)%tmin_in Hu. unfold uniform in Hu. rewrite Forall_forall in Hu.
  destruct (Hu e He) as [HK Hsz]. split; [done|]. unfold entry_size in Hsz. pose proof (zlen_nonneg e.2). lia.
Qed.

Lemma sum_keys_uniform K keys : Forall (λ k, zlen k = K) keys → sum_size child_size keys = (10 + K) * zlen keys.
Proof.
  induction 1 as [|k keys Hk _ IH]; [unfold zlen, sum_size; cbn; lia|]. cbn [sum_size foldr]. fold (sum_size child_size keys).
  rewrite IH, zlen_cons. unfold child_size. lia.
Qed.

Lemma uniform_mins K n kids : Forall (wf n) kids → uniform K (flats kids) → Forall (λ k, zlen k = K) (tmin <$> kids).
Proof.
  induction 1 as [|t kids Ht Hk IH]; intros Hu; [constructor|]. rewrite flats_cons in Hu.
  apply uniform_app in Hu as [Hu1 Hu2]. rewrite fmap_cons. constructor; [by eapply uniform_min|by apply IH].
Qed.

Lemma seps_size K n kids : Forall (wf n) kids → uniform K (flats kids) →
  sum_size child_size (seps kids) = (10 + K) * zlen (seps kids).
Proof. intros Hw Hu. apply sum_keys_uniform, Forall_drop. by eapply uniform_mins. Qed.

Lemma uniform_bounds K n kids : kids ≠ [] → Forall (wf n) kids → uniform K (flats kids) → 0 ≤ K ∧ 4 + K ≤ ENTRY_CAP.
Proof.
  destruct kids as [|t kids]; [done|]. rewrite flats_cons. intros _ [Ht _]%Forall_cons [Hu _]%uniform_app.
  destruct (uniform_min _ _ _ Ht Hu) as [<- ?]. split; [apply zlen_nonneg|done].
Qed.

(** ** The halves of a leaf *)

Lemma split_scan_spec total used index es i :
  split_scan total used index es = Some i →
  ∃ l e r, es = l ++ e :: r ∧ i = S (index + length l)
    ∧ total ≤ 2 * (used + sum_size entry_size (l ++ [e]))
    ∧ (l ≠ [] → 2 * (used + sum_size entry_size l) < total).
Proof.
  revert used index. induction es as [|e es IH]; intros used index; cbn [split_scan]; [done|].
  fold (entry_size e). case_match eqn:E; bool_prop.
  - intros [= <-]. exists [], e, es. cbn. split_and!; [done|lia|unfold sum_size; cbn; lia|done].
  - intros (l & e' & r & -> & -> & Hge & Hlt)%IH. exists (e :: l), e', r. cbn [app length sum_size foldr].
    fold (sum_size entry_size (l ++ [e'])). fold (sum_size entry_size l).
    split_and!; [done|lia|lia|]. intros _. destruct l as [|x l]; [unfold sum_size; cbn; lia|]. specialize (Hlt ltac:(done)). lia.
Qed.

Lemma split_scan_none total used index es :
  split_scan total used index es = None → es ≠ [] → 2 * (used + sum_size entry_size es) < total.
Proof.
  revert used index. induction es as [|e es IH]; intros used index; cbn [split_scan]; [done|].
  fold (entry_size e). case_match eqn:E; bool_prop; [done|]. intros H _. cbn [sum_size foldr].
  fold (sum_size entry_size es). destruct es as [|e' es]; [unfold sum_size; cbn; lia|].
  specialize (IH _ _ H ltac:(done)). lia.
Qed.

(** Both halves are non-empty. *)
Lemma split_bounds es : (2 ≤ length es)%nat → (1 ≤ balanced_leaf_split es < length es)%nat.
Proof.
  intros Hlen. unfold balanced_leaf_split. case_match eqn:E.
  - apply split_scan_spec in E as (l & e & r & Hes & -> & _).
    assert (length (take (length es - 1) es) = (length es - 1)%nat) as Hl by (rewrite length_take; lia).
    rewrite Hes, length_app in Hl. cbn [length] in Hl. lia.
  - pose proof (Nat.Div0.div_le_mono 2 (length es) 2 Hlen). pose proof (Nat.div_lt (length es) 2). cbn in *. lia.
Qed.

Lemma sum_single e : sum_size entry_size [e] = entry_size e.
Proof. unfold sum_size. cbn. lia. Qed.

(** Entries of a third of a page at most, one entry too many: both halves fit. *)
Lemma split_fits es :
  (2 ≤ length es)%nat → Forall (λ e, entry_size e ≤ ENTRY_CAP) es →
  sum_size entry_size es ≤ NODE_CAP + ENTRY_CAP →
  sum_size entry_size (take (balanced_leaf_split es) es) ≤ NODE_CAP
  ∧ sum_size entry_size (drop (balanced_leaf_split es) es) ≤ NODE_CAP.
Proof.
  intros Hlen Hcap Htot. change NODE_CAP with 4000 in *. change ENTRY_CAP with 1333 in *.
  assert (∃ ini e, es = ini ++ [e]) as (ini & la & Hes).
  { destruct es as [|e es _] using rev_ind; [cbn in Hlen; lia|]. by exists es, e. }
  assert (take (length es - 1) es = ini) as Hini.
  { rewrite Hes, length_app. cbn [length]. replace (length ini + 1 - 1)%nat with (length ini) by lia. by rewrite take_app_length. }
  unfold balanced_leaf_split. fold entry_size. change (λ e : entry, 4 + zlen e.1 + zlen e.2) with entry_size. rewrite Hini.
  assert (ini ≠ []) as Hne by (intros ->; subst es; cbn in Hlen; lia).
  set (total := sum_size entry_size es) in *. assert (total = sum_size entry_size ini + entry_size la) as Htotal
    by (unfold total; by rewrite Hes, sum_size_app, sum_single).
  rewrite Forall_forall in Hcap. pose proof (Hcap la) as Hla. rewrite Hes in Hla. specialize (Hla ltac:(set_solver)).
  destruct (split_scan total 0 0 ini) as [i|] eqn:E.
  - apply split_scan_spec in E as (l & e & r & -> & -> & Hge & Hlt). rewrite sum_size_app, sum_single in Hge.
    pose proof (Hcap e) as He. rewrite Hes in He. specialize (He ltac:(set_solver)).
    assert (es = (l ++ [e]) ++ (r ++ [la])) as Hsp by (rewrite Hes, <- !app_assoc; done).
    replace (S (0 + length l)) with (length (l ++ [e])) by (rewrite length_app; cbn; lia).
    rewrite Hsp, take_app_length, drop_app_length.
    assert (total = sum_size entry_size (l ++ [e]) + sum_size entry_size (r ++ [la])) as Ht by (unfold total; by rewrite Hsp, sum_size_app).
    rewrite (sum_size_app _ l), sum_single in *.
    destruct (decide (l = [])) as [->|Hl]; [cbn in *; lia|]. specialize (Hlt Hl). lia.
  - apply split_scan_none in E; [|done]. pose proof (sum_entries_pos ini). pose proof (zlen_nonneg ini).
    unfold total in Htotal. assert (∀ k, sum_size entry_size (take k es) ≤ total ∧ sum_size entry_size (drop k es) ≤ total) as Hk.
    { intros k. unfold total. rewrite <- (take_drop k es) at 2 4. rewrite sum_size_app.
      pose proof (sum_entries_pos (take k es)). pose proof (sum_entries_pos (drop k es)).
      pose proof (zlen_nonneg (take k es)). pose proof (zlen_nonneg (drop k es)). lia. }
    unfold total in *. destruct (Hk (length es / 2)%nat). lia.
Qed.

(** ** Inserting a child next to the one that was split *)

Lemma vec_insert_at {A} (l r : list A) a : vec_insert (length l) a (l ++ r) = Some (l ++ a :: r).
Proof.
  unfold vec_insert. rewrite length_app, (proj2 (Nat.leb_le _ _)) by lia.
  by rewrite take_app_length, drop_app_length.
Qed.

Lemma insert_child_ids f i j :
  vec_insert (length (f_left f) + 1) j (frame_ids f i) = Some ((tid <$> f_left f) ++ i :: j :: (tid <$> f_right f)).
Proof.
  unfold frame_ids. pose proof (vec_insert_at ((tid <$> f_left f) ++ [i]) (tid <$> f_right f) j) as H.
  rewrite length_app, length_fmap in H. cbn [length] in H. rewrite <- !app_assoc in H. done.
Qed.

Lemma insert_child_keys f t m :
  vec_insert (length (f_left f)) m (frame_keys f (tmin t))
  = Some (drop 1 ((tmin <$> f_left f) ++ tmin t :: m :: (tmin <$> f_right f))).
Proof.
  unfold frame_keys. destruct (f_left f) as [|t0 l]; cbn [length].
  - apply (vec_insert_at []).
  - rewrite fmap_cons. cbn [app drop]. rewrite !drop_0.
    pose proof (vec_insert_at ((tmin <$> l) ++ [tmin t]) (tmin <$> f_right f) m) as H.
    rewrite length_app, length_fmap in H. cbn [length] in H. rewrite <- !app_assoc in H. rewrite Nat.add_1_r in H. done.
Qed.

(** Cutting the separators where the children are cut. *)
Lemma split_seps kids mid : (mid + 1 < length kids)%nat →
  take mid (seps kids) = seps (take (mid + 1) kids)
  ∧ drop (mid + 1) (seps kids) = seps (drop (mid + 1) kids)
  ∧ ∃ t r, drop (mid + 1) kids = t :: r ∧ seps kids !! mid = Some (tmin t).
Proof.
  intros Hlt. unfold seps. split_and!.
  - rewrite fmap_take, Nat.add_comm. destruct (tmin <$> kids); cbn [take drop Nat.add]; [by rewrite take_nil|]. by rewrite !drop_0.
  - rewrite fmap_drop, !drop_drop. f_equal. lia.
  - destruct (lookup_lt_is_Some_2 kids (mid + 1)) as [t Ht]; [done|].
    exists t, (drop (S (mid + 1)) kids). split; [by apply drop_S|].
    rewrite lookup_drop, list_lookup_fmap. rewrite Nat.add_comm in Ht. by rewrite Ht.
Qed.

Lemma seps_length kids : length (seps kids) = (length kids - 1)%nat.
Proof. unfold seps. by rewrite length_drop, length_fmap. Qed.

Lemma chain_fresh {Hbase : PageBase} N nx pr L nxo i : nodes_ok N nx → chain N pr L nxo → nx ≤ i → i ∉ L.
Proof.
  intros HN Hc Hi Hin. destruct (chain_leaf _ _ _ _ _ Hc Hin) as (? & ? & ? & ? & Hx).
  apply (nodes_lookup _ _ _ _ HN) in Hx as [? _]. unfold allocated in *; lia.
Qed.

Section Insert.
Context {S : Type} {Hstore : PageStore S} {Hbase : PageBase} {Hlaws : PageStoreLaws S} (full big : Prop) (limit : nat) (root K : Z).
Local Abbreviation twp := (twp full big).
Context (Hfull : full).

(** Saving a node that is no leaf of the chain. *)
Lemma twp_save_cell n cs pr L nxo N nx Q :
  owns N cs → node_id n ∉ cs.*1 → chain N pr L nxo → node_id n ∉ L → node_ok n → allocated nx (node_id n) →
  (big ∨ node_size n ≤ NODE_CAP) →
  (∀ N', N' = <[node_id n := n]> N → owns N' ((node_id n, node_body n) :: cs) → chain N' pr L nxo → Q tt N' nx) →
  twp (save_node n) N nx Q.
Proof.
  intros Ho Hcs Hc HL Hok Hlt Hfit HQ. apply twp_save; [done..|]. intros _. apply HQ; [done|..].
  - by apply owns_new.
  - by apply chain_insert.
Qed.

(** The two halves of an internal node: the children are handed to their new
    parents and both nodes are written. *)
Lemma twp_halves li ri p q kl kr n pr L nxo cs N nx (k : proc S unit) Q :
  kl ≠ [] → kr ≠ [] → Forall (wf n) (kl ++ kr) → ksorted (flats (kl ++ kr)) → Forall entry_ok (flats (kl ++ kr)) →
  owns N (flat_map (cells p) (kl ++ kr) ++ cs) → chain N pr L nxo → link_ok q →
  (∀ i, i = li ∨ i = ri → id_ok i ∧ allocated nx i ∧ (i ∉ (flat_map (cells p) (kl ++ kr) ++ cs).*1) ∧ i ∉ L) → li ≠ ri →
  (big ∨ 8 + sum_size child_size (seps kl) ≤ NODE_CAP ∧ 8 + sum_size child_size (seps kr) ≤ NODE_CAP) →
  (∀ N', owns N' (cells q (TNode li kl) ++ cells q (TNode ri kr) ++ cs) → chain N' pr L nxo → twp k N' nx Q) →
  let left := Internal li q (seps kl) (tid <$> kl) in
  let right := Internal ri q (seps kr) (tid <$> kr) in
  twp (_ ← reparent_children left; _ ← reparent_children right; _ ← save_node left; _ ← save_node right; k) N nx Q.
Proof.
  intros Hkl Hkr Hw Hs He Ho Hc Hq Hids Hne Hfit HQ left right.
  destruct (Hids li (or_introl eq_refl)) as (Hli & Hlil & Hlif & HliL).
  destruct (Hids ri (or_intror eq_refl)) as (Hri & Hril & Hrif & HriL).
  apply Forall_app in Hw as [Hwl Hwr]. rewrite flats_app in Hs, He. apply Forall_app in He as [Hel Her].
  apply StronglySorted_app in Hs as (_ & Hsl & Hsr).
  apply twp_nodes. intros HN. pose proof (owns_ids _ _ _ HN Ho) as Hall. rewrite flat_map_app, !fmap_app, !Forall_app in Hall.
  assert (∀ ts, Forall (λ i, id_ok i ∧ allocated nx i) (flat_map (cells p) ts).*1 → Forall id_ok (tid <$> ts)) as Htid.
  { intros ts Hf. eapply kids_ids_ok. eapply Forall_impl; [exact Hf|]. by intros ? [? _]. }
  destruct Hall as [[Hal Har] _].
  assert (node_ok left) as Hlok by (eapply (internal_ok n); eauto).
  assert (node_ok right) as Hrok by (eapply (internal_ok n); eauto).
  rewrite flat_map_app, <- app_assoc in Ho, Hlif, Hrif. rewrite !fmap_app in Hlif, Hrif.
  rewrite !not_elem_of_app in Hlif, Hrif. destruct Hlif as (Hlif1 & Hlif2 & Hlif3), Hrif as (Hrif1 & Hrif2 & Hrif3).
  apply twp_bind. cbn [reparent_children left]. eapply (twp_reparent full big kl p); [exact Ho|done|done|]. intros N1 Ho1 Hc1.
  rewrite Permutation_app_swap_app in Ho1.
  apply twp_bind. cbn [reparent_children right]. eapply (twp_reparent full big kr p); [exact Ho1|done|done|]. intros N2 Ho2 Hc2.
  apply twp_bind. eapply (twp_save_cell left); [exact Ho2| |done|done|done|done|by destruct Hfit as [?|[? _]]; auto|].
  { cbn [node_id left]. rewrite !fmap_app, !not_elem_of_app, (flat_map_cells_ids _ p), (flat_map_cells_ids (Some li) p). done. }
  intros N3 _ Ho3 Hc3. cbn [node_id node_body left] in Ho3.
  apply twp_bind. eapply (twp_save_cell right); [exact Ho3| |done|done|done|done|by destruct Hfit as [?|[_ ?]]; auto|].
  { cbn [node_id right]. rewrite fmap_cons, !fmap_app, not_elem_of_cons, !not_elem_of_app.
    rewrite (flat_map_cells_ids _ p), (flat_map_cells_ids (Some li) p). cbn [fst]. auto. }
  intros N4 _ Ho4 Hc4. apply HQ; [|done]. revert Ho4. apply owns_perm. cbn [cells node_id node_body right]. solve_Permutation.
Qed.

(** The kids of a frame with a child split in two. *)
Definition kids2 (f : frame) (tl tr : tree) : list tree := f_left f ++ [tl; tr] ++ f_right f.

Lemma kids2_fits f tl tr n :
  Forall (wf n) (kids2 f tl tr) → uniform K (flats (kids2 f tl tr)) →
  8 + sum_size child_size (frame_keys f (tmin tl)) ≤ NODE_CAP →
  ∀ kl kr, kids2 f tl tr = kl ++ kr → kl ≠ [] → kr ≠ [] →
  8 + sum_size child_size (seps kl) ≤ NODE_CAP ∧ 8 + sum_size child_size (seps kr) ≤ NODE_CAP.
Proof.
  intros Hw Hu Hold kl kr Hk Hkl Hkr.
  assert (frame_keys f (tmin tl) = seps (f_left f ++ [tl] ++ f_right f)) as Hfk by (unfold frame_keys, seps; by rewrite !fmap_app).
  assert (Forall (wf n) (f_left f ++ [tl] ++ f_right f) ∧ uniform K (flats (f_left f ++ [tl] ++ f_right f))) as [Hw1 Hu1].
  { unfold kids2 in Hw, Hu. rewrite !flats_app in *. rewrite !Forall_app, !uniform_app in *. rewrite !flats_cons in *.
    rewrite !Forall_cons, !uniform_app in *. cbn [flats flat_map entries_of] in *. tauto. }
  rewrite Hfk, (seps_size _ _ _ Hw1 Hu1) in Hold. rewrite Hk, flats_app in Hu. rewrite Hk in Hw.
  apply Forall_app in Hw as [Hwl Hwr]. apply uniform_app in Hu as [Hul Hur].
  rewrite (seps_size _ _ _ Hwl Hul), (seps_size _ _ _ Hwr Hur).
  apply (f_equal length) in Hk. unfold kids2 in Hk. unfold zlen in *. rewrite !seps_length in *. rewrite !length_app in *. cbn [length] in *.
  destruct (uniform_bounds _ _ _ Hkl Hwl Hul) as [HK _].
  destruct kl as [|? kl], kr as [|? kr]; [done..|]. cbn [length] in *. split; nia.
Qed.

Lemma split_middle kids : (3 ≤ length kids)%nat → (length (seps kids) / 2 + 1 < length kids)%nat.
Proof.
  intros H. rewrite seps_length. pose proof (Nat.Div0.div_le_upper_bound (length kids - 1) 2 (length kids - 2)). lia.
Qed.

Lemma kids_distinct p l t r : NoDup (flat_map (cells p) (l ++ t :: r)).*1 → tid t ∉ (tid <$> l).
Proof.
  rewrite flat_map_app, fmap_app, NoDup_app. intros (_ & Hd & _) (t' & Heq & Ht')%list_elem_of_fmap.
  apply (Hd (tid t)).
  - rewrite Heq. apply list_elem_of_fmap. exists (tid t', top p t'). split; [done|]. by apply tid_in_kids.
  - apply list_elem_of_fmap. exists (tid t, top p t). split; [done|]. apply tid_in_kids. left.
Qed.

Lemma set_parent_self n p t : node_body n = top p t → set_parent n p = n.
Proof. destruct n, t; cbn; intros [=]; by subst. Qed.

Section Step.
Context (c : ctx) (f : frame) (tl tr : tree) (n : nat).
Let kids := kids2 f tl tr.
Let T := TNode (f_id f) kids.
Let PS := before c ++ pages T ++ after c.
Context (Hw : Forall (wf n) kids) (Hcw : ctx_wf (Datatypes.S n) c) (Hroot : tid (fill c T) = root).
Context (Hs : ksorted (entries_of PS)) (He : Forall entry_ok (entries_of PS)) (Hu : big ∨ uniform K (entries_of PS)).

Lemma step_kids : ksorted (flats kids) ∧ Forall entry_ok (flats kids) ∧ (big ∨ uniform K (flats kids)).
Proof.
  unfold PS in *. rewrite !entries_of_app in *. change (entries_of (pages T)) with (flats kids) in *.
  rewrite !uniform_app, !Forall_app in *. split_and!; [|tauto|tauto].
  by apply StronglySorted_app in Hs as (_ & _ & (_ & ? & _)%StronglySorted_app).
Qed.

Lemma step_nonempty : kids ≠ [].
Proof. unfold kids, kids2. by destruct (f_left f). Qed.

(** The node with both children: it fits its page and is written ... *)
Lemma step_fits N nx Q :
  owns N ((f_id f, BInternal (parent_of c) (frame_keys f (tmin tl)) (frame_ids f (tid tl)))
          :: flat_map (cells (Some (f_id f))) kids ++ ctx_cells c (f_id f) (tmin T)) →
  chain N None PS.*1 None → (f_id f ∉ PS.*1) → allocated nx (f_id f) →
  node_ok (Internal (f_id f) (parent_of c) (seps kids) (tid <$> kids)) →
  8 + sum_size child_size (seps kids) ≤ NODE_CAP →
  (∀ t' N' nx', rep N' root t' → flat t' = entries_of PS → Q tt N' nx') →
  twp (save_node (Internal (f_id f) (parent_of c) (seps kids) (tid <$> kids))) N nx Q.
Proof.
  intros Ho Hc HfL Hlt Hok Hfit HQ. pose proof Ho as (Ho1 & Hf1 & _)%owns_tail. cbn [fst] in *.
  eapply twp_save_cell; [exact Ho1|exact Hf1|exact Hc|done|done|done|by right|].
  intros N' _ Ho' Hc'. apply (HQ (fill c T)); [|by rewrite flat_alt, pages_fill].
  apply (rep_fill _ _ _ _ (Datatypes.S n)); try done.
  - split; [apply step_nonempty|done].
  - revert Ho'. apply owns_perm. cbn [T cells tid node_id node_body]. solve_Permutation.
Qed.

(** Where the node is cut. *)
Record cut (kl kr : list tree) (N : gmap Z Node) (nx : Z) : Prop := {
  cut_kids : kids = kl ++ kr;
  cut_left : kl ≠ [];
  cut_right : kr ≠ [];
  cut_fit : big ∨ 8 + sum_size child_size (seps kl) ≤ NODE_CAP ∧ 8 + sum_size child_size (seps kr) ≤ NODE_CAP;
  cut_owns : owns N (flat_map (cells (Some (f_id f))) kids ++ ctx_cells c (f_id f) (tmin T));
  cut_chain : chain N None PS.*1 None;
  cut_id : f_id f ∉ (flat_map (cells (Some (f_id f))) kids ++ ctx_cells c (f_id f) (tmin T)).*1;
  cut_leaf : f_id f ∉ PS.*1;
  cut_lt : id_ok (f_id f) ∧ allocated nx (f_id f)
}.

Lemma cut_fresh kl kr N nx i : cut kl kr N nx → nodes_ok N nx → nx ≤ i →
  (i ∉ (flat_map (cells (Some (f_id f))) kids ++ ctx_cells c (f_id f) (tmin T)).*1) ∧ (i ∉ PS.*1) ∧ i ≠ f_id f.
Proof.
  intros [_ _ _ _ Ho Hc _ _ [_ Hlt]] HN Hi. split_and!; [|by eapply chain_fresh|unfold allocated in *; lia].
  intros Hin. pose proof (owns_ids _ _ _ HN Ho) as Hf. rewrite Forall_forall in Hf. destruct (Hf _ Hin). unfold allocated in *; lia.
Qed.

Lemma cut_parent kl kr N nx : cut kl kr N nx → nodes_ok N nx → link_ok (parent_of c).
Proof.
  intros [_ _ _ _ Ho _ _ _ _] HN. apply (parent_of_ok c (f_id f) (tmin T)).
  apply owns_app in Ho as [_ Ho]. eapply Forall_impl; [by eapply owns_ids|]. by intros ? [? _].
Qed.

(** A node other than the root keeps its page for the left half. *)
Lemma cut_inner g c' kl kr (up : Z → bytes → Z → Z → proc S unit) N nx Q :
  cut kl kr N nx → c = g :: c' →
  (∀ N', owns N' (cells (Some (f_id g)) (TNode (f_id f) kl) ++ cells (Some (f_id g)) (TNode nx kr) ++ ctx_cells c (f_id f) (tmin T)) →
     chain N' None PS.*1 None → twp (up (f_id f) (tmin (TNode nx kr)) nx (f_id g)) N' (nx + 1) Q) →
  twp (right_id ← allocate_page BTreeInternal;
      _ ← reparent_children (Internal (f_id f) (parent_of c) (seps kl) (tid <$> kl));
      _ ← reparent_children (Internal right_id (parent_of c) (seps kr) (tid <$> kr));
      _ ← save_node (Internal (f_id f) (parent_of c) (seps kl) (tid <$> kl));
      _ ← save_node (Internal right_id (parent_of c) (seps kr) (tid <$> kr));
      up (f_id f) (tmin (TNode nx kr)) right_id (f_id g)) N nx Q.
Proof.
  intros Hcut Hcg Hup. destruct step_kids as (Hks & Hke & _). apply twp_nodes. intros HN.
  pose proof (cut_parent _ _ _ _ Hcut HN) as Hpar. pose proof (cut_fresh _ _ _ _ nx Hcut HN ltac:(lia)) as (Hn1 & Hn2 & Hn3).
  destruct HN as [[Hnx0 _] _]. destruct Hcut as [Hk Hkl Hkr Hfit Ho Hc Hid HL [Hok Hlt]].
  rewrite Hk in Hw, Hks, Hke, Ho, Hid, Hn1.
  apply twp_bind, twp_allocate; [done|]. intros Hnx.
  eapply (twp_halves (f_id f) nx (Some (f_id f)) (parent_of c) kl kr n); try done.
  - intros i [->| ->]; (split_and!; [|unfold allocated in *; lia|done|done]); [done|unfold id_ok, NONE_PAGE; lia].
  - intros N' Ho' Hc'. apply Hup; [|done]. rewrite Hcg in Ho' |- *. exact Ho'.
Qed.

(** The root keeps its page as the parent of two new nodes. *)
Lemma cut_root kl kr N nx Q :
  cut kl kr N nx → c = [] → tmin (TNode root kl) = tmin T →
  (∀ t' N' nx', rep N' root t' → flat t' = entries_of PS → Q tt N' nx') →
  twp (left_id ← allocate_page BTreeInternal;
      right_id ← allocate_page BTreeInternal;
      _ ← reparent_children (Internal left_id (Some root) (seps kl) (tid <$> kl));
      _ ← reparent_children (Internal right_id (Some root) (seps kr) (tid <$> kr));
      _ ← save_node (Internal left_id (Some root) (seps kl) (tid <$> kl));
      _ ← save_node (Internal right_id (Some root) (seps kr) (tid <$> kr));
      save_node (Internal root None [tmin (TNode nx kr)] [left_id; right_id])) N nx Q.
Proof.
  intros Hcut Hnil Hmin HQ. destruct step_kids as (Hks & Hke & Hku). apply twp_nodes. intros HN.
  pose proof (cut_fresh _ _ _ _ nx Hcut HN ltac:(lia)) as (Hn1 & Hn2 & Hn3).
  pose proof (cut_fresh _ _ _ _ (nx + 1) Hcut HN ltac:(lia)) as (Hm1 & Hm2 & Hm3).
  destruct HN as [[Hnx0 _] _]. destruct Hcut as [Hk Hkl Hkr Hfit Ho Hc Hid HL [Hok Hlt]].
  assert (f_id f = root) as Hfr by (rewrite Hnil in Hroot; done). rewrite Hfr in *.
  apply twp_bind, twp_allocate; [done|]. intros Hnx. apply twp_bind, twp_allocate; [done|]. intros Hnx1.
  rewrite Hnil in Ho, Hid, Hn1, Hm1. cbn [ctx_cells] in Ho, Hid, Hn1, Hm1.
  rewrite Hk in Hw, Hks, Hke, Hku, Ho, Hid, Hn1, Hm1.
  set (t' := TNode root [TNode nx kl; TNode (nx + 1) kr]).
  assert (Forall (wf (Datatypes.S n)) [TNode nx kl; TNode (nx + 1) kr]) as Hw'.
  { apply Forall_app in Hw as [? ?]. repeat constructor; done. }
  assert (flats [TNode nx kl; TNode (nx + 1) kr] = flats (kl ++ kr)) as Hfl.
  { rewrite flats_app. unfold flats at 1. cbn [flat_map pages]. by rewrite app_nil_r, entries_of_app. }
  eapply (twp_halves nx (nx + 1) (Some root) (Some root) kl kr n); try done; [|lia|].
  { intros i [->| ->]; (split_and!; [unfold id_ok, NONE_PAGE; lia|unfold allocated in *; lia|done|done]). }
  intros N' Ho' Hc'. rewrite app_nil_r in Ho'.
  eapply twp_save_cell; cbn [node_id]; [exact Ho'| |exact Hc'|done| |unfold allocated in *; lia| |].
  - cbn [cells app]. rewrite fmap_cons, fmap_app, fmap_cons. cbn [fst]. rewrite flat_map_app, !fmap_app in Hid.
    rewrite not_elem_of_cons, not_elem_of_app, not_elem_of_cons, (flat_map_cells_ids (Some nx) (Some root)),
      (flat_map_cells_ids (Some (nx + 1)) (Some root)). rewrite !not_elem_of_app in Hid. naive_solver.
  - apply (internal_ok (Datatypes.S n) root None [TNode nx kl; TNode (nx + 1) kr]); try done; rewrite ?Hfl; try done.
    repeat constructor; unfold id_ok, NONE_PAGE; cbn; lia.
  - destruct Hku as [?|Hku]; [by left|right]. rewrite flats_app in Hku. apply uniform_app in Hku as [_ Hku].
    apply Forall_cons in Hw' as [_ [Hwr _]%Forall_cons]. destruct (uniform_min K _ (TNode (nx + 1) kr) Hwr Hku) as [HK HK'].
    change (tmin (TNode (nx + 1) kr)) with (tmin (TNode nx kr)) in HK.
    change ENTRY_CAP with 1333 in HK'. change NODE_CAP with 4000. cbn [node_size]. unfold sum_size. cbn [foldr].
    unfold child_size. rewrite HK. lia.
  - intros N'' _ Ho'' Hc''. assert (pages t' = pages T) as Hp.
    { unfold t', T. cbn [pages flat_map]. rewrite app_nil_r, <- flat_map_app. by rewrite Hk. }
    assert (PS = before [] ++ pages t' ++ after []) as HPS by (unfold PS; by rewrite Hp, Hnil).
    apply (HQ t'); [|by rewrite HPS, flat_alt; cbn [before after app]; rewrite app_nil_r].
    rewrite HPS in Hc'', Hs, He. apply (rep_fill N'' root [] t' (Datatypes.S (Datatypes.S n))); try done.
    revert Ho''. apply owns_perm. cbn [ctx_cells app t' cells flat_map parent_of node_id node_body head fmap option_fmap option_map].
    rewrite app_nil_r. done.
Qed.

(** ... or it is cut in two. *)
Lemma step_split up N nx Q :
  owns N ((f_id f, BInternal (parent_of c) (frame_keys f (tmin tl)) (frame_ids f (tid tl)))
          :: flat_map (cells (Some (f_id f))) kids ++ ctx_cells c (f_id f) (tmin T)) →
  chain N None PS.*1 None → (f_id f ∉ PS.*1) →
  8 + sum_size child_size (frame_keys f (tmin tl)) ≤ NODE_CAP →
  NODE_CAP < 8 + sum_size child_size (seps kids) →
  (∀ t' N' nx', rep N' root t' → flat t' = entries_of PS → Q tt N' nx') →
  (∀ g c' kl kr N', c = g :: c' → kids = kl ++ kr → kl ≠ [] → kr ≠ [] →
     owns N' (cells (Some (f_id g)) (TNode (f_id f) kl) ++ cells (Some (f_id g)) (TNode nx kr) ++ ctx_cells c (f_id f) (tmin T)) →
     chain N' None PS.*1 None → twp (up (f_id f) (tmin (TNode nx kr)) nx (f_id g)) N' (nx + 1) Q) →
  twp (split_internal root up (Internal (f_id f) (parent_of c) (seps kids) (tid <$> kids))) N nx Q.
Proof.
  intros Ho Hc HfL Hold Hbig HQ Hup. destruct step_kids as (Hks & Hke & Hku). pose proof step_nonempty as Hne.
  apply twp_nodes. intros HN. pose proof (owns_ids _ _ _ HN Ho) as Hids.
  cbn [split_internal]. rewrite length_fmap, seps_length.
  assert ((length kids - 1 + 1 =? length kids)%nat = true) as -> by (apply Nat.eqb_eq; destruct kids; [done|cbn; lia]).
  cbn [negb]. rewrite orb_false_r. case_match eqn:E3.
  { apply Nat.ltb_lt in E3. apply twp_err. right. split; [|by right]. destruct Hku as [?|Hku]; [done|exfalso].
    rewrite (seps_size _ _ _ Hw Hku) in Hbig. unfold zlen in Hbig. rewrite seps_length in Hbig.
    destruct (uniform_bounds _ _ _ Hne Hw Hku) as [HK0 HK]. change ENTRY_CAP with 1333 in HK.
    change NODE_CAP with 4000 in Hbig. nia. }
  apply Nat.ltb_ge in E3. pose proof (split_middle kids E3) as Hmid. rewrite seps_length in Hmid.
  set (mid := ((length kids - 1) / 2)%nat) in *.
  destruct (split_seps kids mid Hmid) as (Hsl & Hsr & t & r & Hdrop & Hprom).
  apply twp_bind. eapply twp_some; [exact Hprom|]. rewrite Hsl, Hsr, <- fmap_take, <- fmap_drop.
  assert (kids = take (mid + 1) kids ++ drop (mid + 1) kids) as Hcut by by rewrite take_drop.
  assert (take (mid + 1) kids ≠ []) as Hkl by (rewrite Nat.add_1_r; destruct kids; done).
  assert (drop (mid + 1) kids ≠ []) as Hkr by by rewrite Hdrop.
  assert (big ∨ 8 + sum_size child_size (seps (take (mid + 1) kids)) ≤ NODE_CAP
            ∧ 8 + sum_size child_size (seps (drop (mid + 1) kids)) ≤ NODE_CAP) as Hfit.
  { destruct Hku as [?|Hku]; [by left|right]. by eapply (kids2_fits f tl tr n). }
  assert (∀ id, tmin (TNode id (drop (mid + 1) kids)) = tmin t) as Hmin by (intros; by rewrite Hdrop).
  assert (∀ id, tmin (TNode id (take (mid + 1) kids)) = tmin T) as Hminl by (intros; unfold T; rewrite Nat.add_1_r; by destruct kids).
  rewrite <- (Hmin nx). set (kl := take (mid + 1) kids) in *. set (kr := drop (mid + 1) kids) in *. clearbody kl kr.
  pose proof Ho as (Ho1 & Hf1 & _)%owns_tail. cbn [fst] in Hf1.
  rewrite fmap_cons in Hids. apply Forall_cons in Hids as [Hfid _]. cbn [fst] in Hfid.
  assert (cut kl kr N nx) as Hcutn by (by split).
  assert (c = [] ∨ ∃ g c', c = g :: c') as [Hnil|(g & c' & Hcg)] by (clear; destruct c; eauto).
  - assert (parent_of c = None) as -> by by rewrite Hnil. by apply cut_root.
  - assert (parent_of c = Some (f_id g)) as Hp by by rewrite Hcg.
    pose proof (cut_inner g c' kl kr up N nx Q Hcutn Hcg (λ N', Hup g c' kl kr N' Hcg Hcut Hkl Hkr)) as Hin.
    rewrite Hp in Hin |- *. exact Hin.
Qed.
End Step.

(** One level up the leaves are the same. *)
Lemma climb_pages g c fid rid kids kl kr : kids = kl ++ kr →
  before c ++ pages (TNode (f_id g) (kids2 g (TNode fid kl) (TNode rid kr))) ++ after c
  = before (g :: c) ++ pages (TNode fid kids) ++ after (g :: c).
Proof.
  intros ->. unfold kids2. cbn [before after pages]. rewrite !flat_map_app. cbn [flat_map pages].
  by rewrite app_nil_r, <- !app_assoc.
Qed.

Lemma twp_insert_parent c f tl tr n fuel N nx Q :
  let kids := kids2 f tl tr in
  let T := TNode (f_id f) kids in
  let PS := before c ++ pages T ++ after c in
  Forall (wf n) kids → ctx_wf (Datatypes.S n) c → tid (fill c T) = root → (length c < fuel)%nat →
  owns N ((f_id f, BInternal (parent_of c) (frame_keys f (tmin tl)) (frame_ids f (tid tl)))
          :: flat_map (cells (Some (f_id f))) kids ++ ctx_cells c (f_id f) (tmin T)) →
  chain N None PS.*1 None → ksorted (entries_of PS) → Forall entry_ok (entries_of PS) →
  (big ∨ uniform K (entries_of PS)) →
  (∀ t' N' nx', rep N' root t' → flat t' = entries_of PS → Q tt N' nx') →
  twp (insert_parent_loop root fuel (tid tl) (tmin tr) (tid tr) (f_id f)) N nx Q.
Proof.
  revert c f tl tr n N nx. induction fuel as [|fuel IH];
    intros c f tl tr n N nx kids T PS Hw Hcw Hroot Hfuel Ho Hc Hs He Hu HQ; [lia|].
  apply twp_nodes. intros HN. destruct (step_kids c f tl tr Hs He Hu) as (Hks & Hke & _).
  pose proof (owns_ids _ _ _ HN Ho) as Hids. rewrite fmap_cons, fmap_app, Forall_cons, Forall_app in Hids.
  destruct Hids as ([Hfid Hflt] & Hkids & Hcids). cbn [fst] in Hfid, Hflt.
  pose proof Ho as (Ho1 & Hf1 & (y & Hy & Hyid & Hyb))%owns_tail. cbn [fst snd] in *.
  destruct y as [|yid yp ks cs']; [done|]. cbn [node_id node_body] in Hyid, Hyb.
  injection Hyb as -> -> ->. subst yid.
  destruct (nodes_lookup _ _ _ _ HN Hy) as (Hlt & _ & _ & Hold). cbn [node_size] in Hold.
  cbn [insert_parent_loop]. apply twp_bind. eapply twp_load; [exact Hy|]. cbv match.
  assert (position (tid tl) (frame_ids f (tid tl)) = Some (length (f_left f))) as ->.
  { unfold frame_ids. rewrite position_middle, length_fmap; [done|].
    apply (kids_distinct (Some (f_id f)) _ _ (tr :: f_right f)). destruct Ho1 as [Hnd _].
    rewrite fmap_app in Hnd. by apply NoDup_app in Hnd as [? _]. }
  apply twp_bind. eapply twp_some; [apply insert_child_ids|]. apply twp_bind. eapply twp_some; [apply insert_child_keys|].
  assert ((tid <$> f_left f) ++ tid tl :: tid tr :: (tid <$> f_right f) = tid <$> kids) as ->
    by (unfold kids, kids2; by rewrite !fmap_app).
  assert (drop 1 ((tmin <$> f_left f) ++ tmin tl :: tmin tr :: (tmin <$> f_right f)) = seps kids) as ->
    by (unfold kids, kids2, seps; by rewrite !fmap_app).
  destruct (owns_bodies _ _ Ho1 (tid tr, top (Some (f_id f)) tr)) as (x & Hx & Hxid & Hxb).
  { apply elem_of_app. left. apply tid_in_kids. unfold kids, kids2. set_solver. }
  cbn [fst snd] in *. destruct (nodes_lookup _ _ _ _ HN Hx) as (Hxlt & _ & Hxok & Hxsz).
  apply twp_bind. eapply twp_load; [exact Hx|]. rewrite (set_parent_self x _ tr Hxb).
  apply twp_bind, twp_save; [done|by rewrite Hxid|by right|]. intros _. rewrite Hxid, insert_id by done.
  assert (node_ok (Internal (f_id f) (parent_of c) (seps kids) (tid <$> kids))) as Hpok.
  { apply (internal_ok n); try done; [by eapply parent_of_ok, Forall_impl; [exact Hcids|by intros ? [? _]]| |].
    - eapply kids_ids_ok. eapply Forall_impl; [exact Hkids|]. by intros ? [? _].
    - unfold kids, kids2. by destruct (f_left f). }
  assert (f_id f ∉ PS.*1) as HfL by by eapply chain_internal.
  apply twp_bind, twp_fits; [done|]. cbn [node_size]. case_bool_decide as Hfit.
  - by apply (step_fits c f tl tr n).
  - apply (step_split c f tl tr n); try done; [unfold kids in Hfit; lia|].
    intros g c' kl kr N' -> Hk Hkl Hkr Ho' Hc'.
    pose proof (climb_pages g c' (f_id f) nx _ kl kr Hk) as HPS. fold kids T PS in HPS, Ho', Hc'.
    assert (tmin (TNode (f_id f) kl) = tmin T) as Hmin by (unfold T; fold kids in Hk; rewrite Hk; by destruct kl).
    assert (Forall (wf (Datatypes.S n)) (kids2 g (TNode (f_id f) kl) (TNode nx kr))) as Hw'.
    { fold kids in Hk. rewrite Hk in Hw. apply Forall_app in Hw as [? ?]. destruct Hcw as (? & ? & _).
      unfold kids2. rewrite !Forall_app, !Forall_cons. split_and!; done. }
    apply (IH c' g (TNode (f_id f) kl) (TNode nx kr) (Datatypes.S n)); rewrite ?HPS; try done.
    + apply Hcw.
    + rewrite tid_fill_root in Hroot |- *. rewrite last_cons in Hroot. cbn [tid]. by destruct (last c').
    + cbn [length] in Hfuel. lia.
    + revert Ho'. apply owns_perm. cbn [ctx_cells]. change (TNode (f_id g) (kids2 g (TNode (f_id f) kl) (TNode nx kr)))
        with (plug g [TNode (f_id f) kl; TNode nx kr]). rewrite tmin_plug, Hmin. cbn [tid].
      unfold kids2. rewrite !flat_map_app. cbn [flat_map]. solve_Permutation.
Qed.

(** *** Splitting a leaf *)

Lemma last_of_none L : last_of None L = last L.
Proof. unfold last_of. by destruct (last L). Qed.
Lemma next_of_none L : next_of L None = head L.
Proof. by destruct L. Qed.

Section SplitLeaf.
Context (c : ctx) (id : Z) (es0 l r : list entry).
Let es := l ++ r.
Let PS := before c ++ [(id, es)] ++ after c.
Context (Hl : l ≠ []) (Hr : r ≠ []) (Hcw : ctx_wf 0 c) (Hroot : tid (fill c (TLeaf id es0)) = root).
Context (Hs : ksorted (entries_of PS)) (He : Forall entry_ok (entries_of PS)) (Hu : big ∨ uniform K (entries_of PS)).
Context (Hfit : big ∨ sum_size entry_size l ≤ NODE_CAP ∧ sum_size entry_size r ≤ NODE_CAP).

Lemma leaf_halves : ksorted l ∧ ksorted r ∧ Forall entry_ok l ∧ Forall entry_ok r ∧ (big ∨ uniform K l ∧ uniform K r).
Proof.
  assert (entries_of PS = entries_of (before c) ++ l ++ r ++ entries_of (after c)) as Heq.
  { unfold PS, es. rewrite !entries_of_app. unfold entries_of at 2. cbn. by rewrite app_nil_r, <- !app_assoc. }
  rewrite Heq in *. rewrite !uniform_app, !Forall_app in *.
  apply StronglySorted_app in Hs as (_ & _ & (_ & ? & (_ & ? & _)%StronglySorted_app)%StronglySorted_app). tauto.
Qed.

Lemma tmin_left i : tmin (TLeaf i l) = tmin (TLeaf i es).
Proof. unfold es. cbn. by destruct l. Qed.

(** The root leaf becomes an internal node over two new leaves. *)
Lemma twp_split_leaf_root N nx Q m :
  c = [] → owns N [(id, BLeaf None es0)] → m = tmin (TLeaf 0 r) →
  (∀ t' N' nx', rep N' root t' → flat t' = entries_of PS → Q tt N' nx') →
  twp (left_id ← allocate_page BTreeLeaf;
      right_id ← allocate_page BTreeLeaf;
      _ ← relink_neighbor None true left_id;
      _ ← relink_neighbor None false right_id;
      _ ← save_node (Leaf left_id (Some root) None (Some right_id) l);
      _ ← save_node (Leaf right_id (Some root) (Some left_id) None r);
      save_node (Internal root None [m] [left_id; right_id])) N nx Q.
Proof.
  intros Hc Ho -> HQ. destruct leaf_halves as (Hsl & Hsr & Hel & Her & Hulr).
  assert (id = root) as Hid by by rewrite Hc in Hroot. subst id.
  apply twp_nodes. intros HN. pose proof (owns_ids _ _ _ HN Ho) as [[Hrid Hrlt] _]%Forall_cons. cbn [fst] in *. unfold allocated in Hrlt.
  destruct HN as [[Hnx0 _] _].
  apply twp_bind, twp_allocate; [done|]. intros Hnx. apply twp_bind, twp_allocate; [done|]. intros Hnx1.
  assert (id_ok nx ∧ id_ok (nx + 1)) as [Hok1 Hok2] by (unfold id_ok, NONE_PAGE; lia).
  apply twp_bind, twp_ret. apply twp_bind, twp_ret.
  apply twp_bind, twp_save; cbn [node_id]; [by apply leaf_ok|unfold allocated in *; lia|by destruct Hfit as [?|[? _]]; auto|]. intros _.
  apply twp_bind, twp_save; cbn [node_id]; [by apply leaf_ok|unfold allocated in *; lia|by destruct Hfit as [?|[_ ?]]; auto|]. intros _.
  set (t' := TNode root [TLeaf nx l; TLeaf (nx + 1) r]).
  assert (entries_of PS = l ++ r) as HPS by (unfold PS, es; rewrite Hc; unfold entries_of; cbn; by rewrite app_nil_r).
  assert (flat t' = l ++ r) as Hfl by (unfold flat, t'; cbn; by rewrite app_nil_r).
  assert (Forall (wf 0) [TLeaf nx l; TLeaf (nx + 1) r]) as Hw by (repeat constructor; done).
  rewrite HPS in Hs, He. apply twp_save; cbn [node_id].
  - apply (internal_ok 0 root None [TLeaf nx l; TLeaf (nx + 1) r]); try done; [change (Forall id_ok [nx; nx + 1]); by rewrite Forall_cons, Forall_singleton| |];
      change (flats [TLeaf nx l; TLeaf (nx + 1) r]) with (flat t'); by rewrite Hfl.
  - unfold allocated in *; lia.
  - destruct Hulr as [?|[_ Hur]]; [by left|right]. destruct (uniform_min K 0 (TLeaf 0 r) Hr) as [HK HK'];
      [by rewrite flat_leaf|]. change ENTRY_CAP with 1333 in HK'. change NODE_CAP with 4000. cbn [node_size].
    unfold sum_size. cbn [foldr]. unfold child_size. rewrite HK. lia.
  - intros _. apply (HQ t'); [|by rewrite HPS, Hfl]. split.
    + left. by exists 1%nat.
    + done.
    + by rewrite Hfl.
    + by rewrite Hfl.
    + split; [|repeat constructor; cbn [fst snd]].
      * change (NoDup [root; nx; nx + 1]). rewrite !NoDup_cons, !not_elem_of_cons.
        split_and!; try apply not_elem_of_nil; try apply NoDup_nil_2; lia.
      * eexists. by rewrite lookup_insert_eq.
      * eexists. rewrite lookup_insert_ne, lookup_insert_ne, lookup_insert_eq by lia. done.
      * eexists. rewrite lookup_insert_ne, lookup_insert_eq by lia. done.
    + cbn. split; [|split; [|done]].
      * exists (Some root), l. by rewrite lookup_insert_ne, lookup_insert_ne, lookup_insert_eq by lia.
      * exists (Some root), r. by rewrite lookup_insert_ne, lookup_insert_eq by lia.
Qed.

(** What the chain looks like with the new leaf behind the old one. *)
Lemma chain_split N N1 p q B A a b nx :
  chain N None (B ++ [id] ++ A) None → NoDup (B ++ [id] ++ A) → (nx ∉ B ++ [id] ++ A) →
  chain N1 (Some nx) A None → (∀ i, i ∉ A → N1 !! i = N !! i) →
  a = last_of None B → b = next_of A None →
  chain (<[nx := Leaf nx q (Some id) b r]> (<[id := Leaf id p a (Some nx) l]> N1)) None (B ++ [id; nx] ++ A) None.
Proof.
  intros Hc Hnd Hnx HcA Hfr -> ->. rewrite !not_elem_of_app, list_elem_of_singleton in Hnx. destruct Hnx as (HnB & Hnid & HnA).
  apply NoDup_app in Hnd as (_ & HBd & [HiA _]%NoDup_cons).
  apply chain_app in Hc as [HcB _]. apply chain_app. cbn [app next_of] in *. split.
  - eapply chain_agree; [|exact HcB]. intros i Hi. pose proof (HBd i Hi) as HiA'. apply not_elem_of_cons in HiA' as [Hne HiA'].
    rewrite lookup_insert_ne, lookup_insert_ne, Hfr; [done|done|congruence|]. intros ->. done.
  - split; [|split].
    + exists p, l. rewrite lookup_insert_ne, lookup_insert_eq by done. done.
    + exists q, r. by rewrite lookup_insert_eq.
    + apply chain_insert; [done|]. by apply chain_insert.
Qed.

Lemma twp_split_leaf_inner f c' N nx Q m :
  c = f :: c' → (length c ≤ limit)%nat →
  owns N (ctx_cells c id (tmin (TLeaf id l)) ++ [(id, BLeaf (parent_of c) es0)]) →
  chain N None ((before c).*1 ++ [id] ++ (after c).*1) None → NoDup ((before c).*1 ++ [id] ++ (after c).*1) →
  m = tmin (TLeaf 0 r) →
  (∀ t' N' nx', rep N' root t' → flat t' = entries_of PS → Q tt N' nx') →
  twp (right_id ← allocate_page BTreeLeaf;
      _ ← relink_neighbor (next_of (after c).*1 None) false right_id;
      _ ← save_node (Leaf id (parent_of c) (last_of None (before c).*1) (Some right_id) l);
      _ ← save_node (Leaf right_id (parent_of c) (Some id) (next_of (after c).*1 None) r);
      insert_parent limit root id m right_id (f_id f)) N nx Q.
Proof.
  intros Hcf Hlim Ho Hc Hnd -> HQ. destruct leaf_halves as (Hsl & Hsr & Hel & Her & Hulr).
  apply twp_nodes. intros HN. pose proof (owns_ids _ _ _ HN Ho) as Hids. rewrite Forall_forall in Hids.
  assert (nx ∉ (before c).*1 ++ [id] ++ (after c).*1) as HnL by (eapply chain_fresh; [done|done|lia]).
  pose proof (owns_fresh _ _ _ HN Ho) as Hnf.
  assert (N !! id = Some (Leaf id (parent_of c) (last_of None (before c).*1) (next_of (after c).*1 None) es0)) as Hid.
  { apply links_body; [by apply chain_middle in Hc|]. eapply owns_lookup; [exact Ho|]. set_solver. }
  destruct (nodes_lookup _ _ _ _ HN Hid) as (Hidlt & _ & (Hiok & Hpok & Hlok1 & Hlok2 & _) & _). cbn [node_id node_parent] in *.
  pose proof HN as [[Hnx0 _] _]. apply twp_bind, twp_allocate; [done|]. intros Hnx.
  assert (id_ok nx) as Hok by (unfold id_ok, NONE_PAGE; lia).
  rewrite next_of_none. apply twp_bind. pose proof Hc as [_ HcA]%chain_app. apply chain_app in HcA as [_ HcA].
  eapply (twp_relink_after full big (after c).*1); [exact Ho|exact HcA| | |].
  { by apply NoDup_app in Hnd as (_ & _ & [_ ?]%NoDup_cons). }
  { by rewrite relink_target_some. }
  rewrite relink_target_some by done. intros N1 Ho1 Hc1 Hfr1. rewrite <- (next_of_none (after c).*1).
  apply twp_bind, twp_save; cbn [node_id]; [by apply leaf_ok|unfold allocated in *; lia|by destruct Hfit as [?|[? _]]; auto|]. intros _.
  apply twp_bind, twp_save; cbn [node_id]; [by apply leaf_ok|unfold allocated in *; lia|by destruct Hfit as [?|[_ ?]]; auto|]. intros _.
  pose proof (chain_split N N1 (parent_of c) (parent_of c) _ _ _ _ nx Hc Hnd HnL Hc1 Hfr1 eq_refl eq_refl) as Hc2.
  rewrite (Permutation_app_comm (ctx_cells _ _ _)) in Ho1. cbn [app] in Ho1.
  apply (owns_update N1 (Leaf id (parent_of c) (last_of None (before c).*1) (Some nx) l)) in Ho1.
  apply (owns_new _ (Leaf nx (parent_of c) (Some id) (next_of (after c).*1 None) r)) in Ho1; cycle 1.
  { revert Hnf. rewrite !fmap_app, fmap_cons. cbn [fst node_id]. rewrite !not_elem_of_app, not_elem_of_cons. set_solver. }
  cbn [node_id node_body] in Ho1. generalize dependent (<[nx := Leaf nx (parent_of c) (Some id) (next_of (after c).*1 None) r]>
    (<[id := Leaf id (parent_of c) (last_of None (before c).*1) (Some nx) l]> N1)). intros N2 Ho2 Hc2.
  assert (before c' ++ pages (TNode (f_id f) (kids2 f (TLeaf id l) (TLeaf nx r))) ++ after c'
          = before c ++ [(id, l); (nx, r)] ++ after c) as HP.
  { rewrite Hcf. unfold kids2. cbn [before after pages]. rewrite !flat_map_app. cbn. by rewrite <- !app_assoc. }
  assert (entries_of (before c ++ [(id, l); (nx, r)] ++ after c) = entries_of PS) as HE.
  { unfold PS, es. rewrite !entries_of_app. do 2 f_equal. unfold entries_of. cbn. by rewrite !app_nil_r. }
  unfold insert_parent. change (tmin (TLeaf 0 r)) with (tmin (TLeaf nx r)).
  rewrite Hcf in Hcw, Hroot, Hlim, Ho2. cbn [length] in Hlim. destruct Hcw as (Hwl & Hwr & Hcw').
  apply (twp_insert_parent c' f (TLeaf id l) (TLeaf nx r) 0); rewrite ?HP, ?HE; try done.
  - unfold kids2. rewrite !Forall_app, !Forall_cons. split_and!; done.
  - rewrite tid_fill_root in Hroot |- *. rewrite last_cons in Hroot. cbn [tid]. by destruct (last c').
  - revert Ho2. apply owns_perm. cbn [ctx_cells parent_of head fmap option_fmap option_map].
    change (TNode (f_id f) (kids2 f (TLeaf id l) (TLeaf nx r))) with (plug f [TLeaf id l; TLeaf nx r]).
    rewrite tmin_plug. unfold kids2. rewrite !flat_map_app. cbn [flat_map cells tid app]. solve_Permutation.
  - rewrite !fmap_app. exact Hc2.
Qed.
End SplitLeaf.

(** *** Where the entry goes *)

(** The entries around the key. *)
Record around (key : bytes) (P1 P2 : list entry) : Prop := {
  ar_left : ksorted P1;
  ar_right : ksorted P2;
  ar_lt : ∀ e, e ∈ P1 → cmp_lt e.1 key;
  ar_gt : ∀ e, e ∈ P2 → cmp_lt key e.1
}.

Lemma around_sorted key value P1 P2 : around key P1 P2 → ksorted (P1 ++ (key, value) :: P2).
Proof.
  intros [Hl Hr Hlt Hgt]. apply StronglySorted_app. split_and!; [|done|].
  - intros x y Hx [->|Hy]%elem_of_cons; unfold key_lt; cbn [fst]; [by apply Hlt|]. etrans; [by apply Hlt|by apply Hgt].
  - constructor; [done|]. apply Forall_forall. intros y Hy. by apply Hgt.
Qed.

Lemma around_notin key P1 P2 : around key P1 P2 → (key ∉ P1.*1) ∧ (key ∉ P2.*1).
Proof. intros [_ _ Hlt Hgt]. split; [by apply lt_notin|by apply gt_notin]. Qed.

Lemma around_lookup key P1 P2 : around key P1 P2 → list_to_map (M := gmap bytes bytes) (P1 ++ P2) !! key = None.
Proof. intros [? ?]%around_notin. apply list_to_map_not. rewrite fmap_app. by apply not_elem_of_app. Qed.

(** How the leaf found is cut at the key: [old] is the value it had. *)
Record placed (t : tree) (key : bytes) (c : ctx) (id : Z) (es : list entry) (e1 e2 : list entry) (old : option bytes) : Prop := {
  pl_around : around key (entries_of (before c) ++ e1) (e2 ++ entries_of (after c));
  pl_entries : es = e1 ++ match old with Some v => [(key, v)] | None => [] end ++ e2;
  pl_old : contents t !! key = old
}.

Lemma found_placed N t key c id es :
  rep N root t → found limit N t key c id es →
  match binary_search key es with
  | Ok i => ∃ e1 v e2, i = length e1 ∧ placed t key c id es e1 e2 (Some v)
  | Err i => ∃ e1 e2, i = length e1 ∧ placed t key c id es e1 e2 None
  end.
Proof.
  intros Hrep Hfd. pose proof (found_sorted _ _ _ _ _ _ _ _ Hrep Hfd) as Hses.
  pose proof (contents_found _ _ _ _ _ _ _ Hfd) as Hcont. pose proof (binary_search_spec es key Hses) as Hbs.
  pose proof (rep_sorted _ _ _ Hrep) as Hs. destruct Hfd as [Ht _ _ [Hb Ha _] _ _].
  rewrite Ht, flat_fill, flat_leaf in Hs. destruct (binary_search key es) as [i|i].
  - destruct Hbs as (e1 & v & e2 & -> & ->). exists e1, v, e2. split; [done|].
    pose proof (ksorted_keys _ Hses) as Hk. rewrite fmap_app, fmap_cons in Hk. apply NoDup_app in Hk as (_ & Hk & _).
    rewrite <- (app_assoc e1), (app_assoc (entries_of (before c))) in Hs. cbn [app] in Hs.
    apply StronglySorted_app in Hs as (Hlr & Hl & Hr). apply StronglySorted_inv in Hr as [Hr Hgt]. split; [|done|].
    + split; [done|done| |].
      * intros e He. apply (Hlr e (key, v)); [done|left].
      * rewrite Forall_forall in Hgt. intros e He. by apply (Hgt e).
    + rewrite Hcont, list_to_map_middle, lookup_insert_eq; [done|]. intros Hin. apply (Hk _ Hin). left.
  - destruct Hbs as (e1 & e2 & -> & -> & Hl & Hr). exists e1, e2. split; [done|].
    rewrite <- (app_assoc e1), (app_assoc (entries_of (before c))) in Hs. apply StronglySorted_app in Hs as (_ & Hsl & Hsr). split; [|done|].
    + split; [done|done| |]; intros e [He|He]%elem_of_app; auto.
    + rewrite Hcont. apply list_to_map_not. rewrite fmap_app. apply not_elem_of_app.
      split; [by apply lt_notin|by apply gt_notin].
Qed.

(** Nothing to the left: the path is the leftmost one. *)
Lemma before_leftmost n c : ctx_wf n c → entries_of (before c) = [] → leftmost c.
Proof.
  revert n. induction c as [|f c IH]; intros n Hcw Hb; [constructor|]. destruct Hcw as (Hl & _ & Hcw).
  cbn [before] in Hb. rewrite entries_of_app in Hb. apply app_nil in Hb as [Hb Hf]. constructor; [|by eapply IH].
  destruct (f_left f) as [|t l] eqn:El; [done|]. apply Forall_cons in Hl as [Ht _].
  change (flats (t :: l) = []) in Hf. rewrite flats_cons in Hf. apply app_nil in Hf as [Hf _].
  by apply flat_nonempty in Ht.
Qed.

(** The new entry changes no separator: a key below the minimum goes to the
    leftmost leaf. *)
Lemma insert_ctx_cells N t key value c id es e1 e2 old :
  found limit N t key c id es → placed t key c id es e1 e2 old →
  ctx_cells c id (tmin (TLeaf id es)) = ctx_cells c id (tmin (TLeaf id (e1 ++ (key, value) :: e2))).
Proof.
  intros [_ Hcw Hleaf [_ _ Hmin] _ _] [[_ _ _ Hgt] -> _].
  destruct e1 as [|x e1]; [|done]. destruct old as [v|]; [done|]. cbn [app] in *.
  destruct e2 as [|y e2]; [destruct Hleaf as [?| ->]; done|].
  apply ctx_cells_leftmost. eapply before_leftmost; [done|].
  destruct (entries_of (before c)) as [|z zs]; [done|]. exfalso. specialize (Hmin ltac:(done)). cbn in Hmin.
  specialize (Hgt y ltac:(left)). unfold cmp_le, cmp_lt in *. apply cmp_gt_lt in Hgt. done.
Qed.

Section Entry.
Context (t : tree) (key value : bytes) (N : gmap Z Node) (nx : Z) (c : ctx) (id : Z) (es e1 e2 : list entry) (old : option bytes).
Context (Hrep : rep N root t) (Hfd : found limit N t key c id es) (Hpl : placed t key c id es e1 e2 old).
Context (Hkey : Forall byte_ok key) (Hvalue : Forall byte_ok value).
Context (Hsize : entry_size (key, value) ≤ NODE_CAP).
Let es' := e1 ++ (key, value) :: e2.
Let PS := before c ++ [(id, es')] ++ after c.

Lemma entry_flat : entries_of PS = (entries_of (before c) ++ e1) ++ (key, value) :: (e2 ++ entries_of (after c)).
Proof.
  unfold PS, es'. rewrite !entries_of_app. unfold entries_of at 2. cbn [fmap list_fmap concat snd].
  rewrite app_nil_r, <- !app_assoc. done.
Qed.

Lemma entry_old_flat :
  flat t = (entries_of (before c) ++ e1) ++ match old with Some v => [(key, v)] | None => [] end ++ (e2 ++ entries_of (after c)).
Proof. rewrite (fd_fill _ _ _ _ _ _ _ Hfd), flat_fill, flat_leaf, (pl_entries _ _ _ _ _ _ _ _ Hpl). by rewrite <- !app_assoc. Qed.

Lemma entry_facts :
  ksorted (entries_of PS) ∧ Forall entry_ok (entries_of PS)
  ∧ list_to_map (M := gmap bytes bytes) (entries_of PS) = <[key := value]> (contents t).
Proof.
  pose proof Hpl as [Har _ _]. pose proof (rep_entries _ _ _ Hrep) as He. unfold contents.
  rewrite entry_flat, entry_old_flat in *. destruct (around_notin _ _ _ Har) as [Hn1 Hn2]. split_and!.
  - by apply around_sorted.
  - rewrite !Forall_app in He. rewrite !Forall_app, Forall_cons, Forall_app.
    destruct He as ([? ?] & _ & ? & ?). split_and!; try done; by split.
  - rewrite list_to_map_middle by done. destruct old as [v|]; cbn [app]; [|done].
    rewrite (list_to_map_middle _ _ key v) by done. by rewrite insert_insert_eq.
Qed.

Lemma entry_leaf : ksorted es' ∧ Forall entry_ok es'.
Proof.
  destruct entry_facts as (Hs & He & _). unfold PS in *. rewrite !entries_of_app in *.
  assert (entries_of [(id, es')] = es') as Heq by (unfold entries_of; cbn; apply app_nil_r). rewrite Heq in *.
  rewrite !Forall_app in He. apply StronglySorted_app in Hs as (_ & _ & (_ & ? & _)%StronglySorted_app). tauto.
Qed.

Lemma entry_sum : sum_size entry_size es' ≤ sum_size entry_size es + entry_size (key, value).
Proof.
  rewrite (pl_entries _ _ _ _ _ _ _ _ Hpl). unfold es'. rewrite !sum_size_app. cbn [sum_size foldr]. fold (sum_size entry_size e2).
  destruct old as [v|]; cbn [sum_size foldr]; [pose proof (entry_size_pos (key, v))|]; lia.
Qed.

Let leaf' := Leaf id (parent_of c) (last_of None (before c).*1) (next_of (after c).*1 None) es'.

Lemma entry_node_ok : nodes_ok N nx → node_ok leaf' ∧ allocated nx id ∧ sum_size entry_size es ≤ NODE_CAP.
Proof.
  intros HN. destruct (nodes_lookup _ _ _ _ HN (fd_node _ _ _ _ _ _ _ Hfd)) as (? & _ & (? & ? & ? & ? & _) & ?).
  destruct entry_leaf as [? ?]. split_and!; [|done|done]. by apply leaf_ok.
Qed.

Lemma entry_owns : owns N (ctx_cells c id (tmin (TLeaf id es')) ++ [(id, BLeaf (parent_of c) es)])
  ∧ chain N None ((before c).*1 ++ [id] ++ (after c).*1) None ∧ NoDup ((before c).*1 ++ [id] ++ (after c).*1).
Proof.
  pose proof Hrep as [_ _ _ _ Ho Hc]. pose proof Ho as [Hnd%NoDup_leaves _].
  unfold leaves in *. rewrite (fd_fill _ _ _ _ _ _ _ Hfd) in Ho, Hc, Hnd. rewrite pages_fill, !fmap_app in Hc, Hnd.
  rewrite cells_fill in Ho. cbn [tid cells] in Ho. rewrite (insert_ctx_cells _ _ _ value _ _ _ _ _ _ Hfd Hpl) in Ho. done.
Qed.

Lemma entry_fill N' (Q : gmap Z Node → Z → Prop) nx' :
  owns N' (ctx_cells c id (tmin (TLeaf id es')) ++ [(id, BLeaf (parent_of c) es')]) →
  chain N' None ((before c).*1 ++ [id] ++ (after c).*1) None →
  (∀ t' N' nx', rep N' root t' → contents t' = <[key := value]> (contents t) → Q N' nx') → Q N' nx'.
Proof.
  intros Ho Hc HQ. destruct entry_facts as (Hs & He & Hm). apply (HQ (fill c (TLeaf id es'))).
  - apply (rep_fill _ _ _ _ 0); try done.
    + unfold es'. by destruct e1.
    + apply Hfd.
    + rewrite <- (rep_root _ _ _ Hrep), (fd_fill _ _ _ _ _ _ _ Hfd). by rewrite !tid_fill_root.
    + by rewrite !fmap_app.
  - unfold contents at 1. by rewrite flat_alt, pages_fill.
Qed.

(** The leaf fits its page with the new entry. *)
Lemma twp_place_fits Q :
  sum_size entry_size es' ≤ NODE_CAP →
  (∀ t' N' nx', rep N' root t' → contents t' = <[key := value]> (contents t) → Q tt N' nx') →
  twp (_ ← save_node leaf'; new_first ← node_min limit leaf';
      if decide (fst <$> head es = new_first) then mret tt else propagate_min_change limit id) N nx Q.
Proof.
  intros Hfit HQ. apply twp_nodes. intros HN. destruct entry_owns as (Ho & Hc & Hnd).
  destruct (entry_node_ok HN) as (Hok & Hlt & _). pose proof Hfd as [_ Hcw _ _ Hnode Hdep].
  apply twp_bind, twp_save; [done|done|by right|]. intros _. cbn [node_id leaf'].
  assert (owns (<[id := leaf']> N) (ctx_cells c id (tmin (TLeaf id es')) ++ [(id, BLeaf (parent_of c) es')])) as Ho'.
  { rewrite (Permutation_app_comm (ctx_cells _ _ _)) in Ho |- *. exact (owns_update N leaf' _ _ Ho). }
  assert (chain (<[id := leaf']> N) None ((before c).*1 ++ [id] ++ (after c).*1) None) as Hc'
    by (exact (chain_same _ _ _ _ _ _ _ _ _ _ _ Hnode Hc)).
  apply twp_bind. cbn [node_min]. apply twp_ret. case_decide as Hfirst; [by apply twp_ret, (entry_fill _ (Q tt))|].
  apply twp_nodes. intros HN'. destruct entry_facts as (Hs & He & _).
  assert (es' ≠ []) as Hne by (unfold es'; by destruct e1).
  pose proof (owns_ids _ _ _ HN' Ho') as Hids. rewrite fmap_app, Forall_app in Hids.
  unfold propagate_min_change. change id with (tid (TLeaf id es')).
  eapply (twp_propagate full big limit c (TLeaf id es') (tmin (TLeaf id es')) 0 limit None _ None []); try done.
  - eapply (frames_ok_fill c (TLeaf id es') 0); try done.
    + cbn [tid]. by destruct Hids as [_ [[? _] _]%Forall_cons].
    + eapply Forall_impl; [apply Hids|]. by intros ? [? _].
    + rewrite flat_leaf. unfold PS in Hs. rewrite !entries_of_app in Hs. unfold entries_of at 2 in Hs. cbn in Hs. by rewrite app_nil_r in Hs.
    + rewrite flat_leaf. unfold PS in He. rewrite !entries_of_app in He. unfold entries_of at 2 in He. cbn in He. by rewrite app_nil_r in He.
  - right. by eapply owns_frames_fit.
  - intros N'' Ho'' Hc''. by apply (entry_fill _ (Q tt)).
Qed.

Context (Huni : big ∨ uniform K (flat t) ∧ zlen key = K ∧ entry_size (key, value) ≤ ENTRY_CAP).

Lemma entry_uniform : big ∨ uniform K (entries_of PS).
Proof.
  rewrite entry_flat. rewrite entry_old_flat in Huni. destruct Huni as [?|(Hu & HK & Hsz)]; [by left|right].
  rewrite !uniform_app in Hu. destruct Hu as ([? ?] & _ & ? & ?). rewrite !uniform_app. split; [done|].
  apply Forall_cons. split; [done|]. by apply uniform_app.
Qed.

(** The leaf is split; a single entry always fits, so there are two at least. *)
Lemma twp_place_split Q :
  NODE_CAP < sum_size entry_size es' →
  (∀ t' N' nx', rep N' root t' → contents t' = <[key := value]> (contents t) → Q tt N' nx') →
  twp (split_leaf limit root leaf') N nx Q.
Proof.
  intros Hbig HQ. apply twp_nodes. intros HN. destruct entry_owns as (Ho & Hc & Hnd).
  destruct (entry_node_ok HN) as (_ & _ & Hold). pose proof Hfd as [Ht Hcw _ _ _ Hdep].
  destruct entry_facts as (Hs & He & Hm). pose proof entry_uniform as Hu.
  assert (2 ≤ length es')%nat as Hlen.
  { destruct (decide (2 ≤ length es')%nat) as [?|Hlen]; [done|exfalso]. unfold es' in *.
    destruct e1, e2; rewrite ?length_app in Hlen; cbn [app length] in Hlen; try lia.
    cbn [app] in Hbig. rewrite sum_single in Hbig. lia. }
  pose proof (split_bounds es' Hlen) as Hsp. unfold split_leaf, leaf'. cbv match.
  rewrite (proj2 (Nat.ltb_ge _ _)) by lia. pose proof (split_fits es' Hlen) as Hsf.
  set (k := balanced_leaf_split es') in *.
  assert (es' = take k es' ++ drop k es') as Hcut by by rewrite take_drop.
  assert (take k es' ≠ []) as Hl by (intros Hn; apply (f_equal length) in Hn; rewrite length_take in Hn; cbn in Hn; lia).
  assert (drop k es' ≠ []) as Hr by (intros Hn; apply (f_equal length) in Hn; rewrite length_drop in Hn; cbn in Hn; lia).
  assert (big ∨ sum_size entry_size (take k es') ≤ NODE_CAP ∧ sum_size entry_size (drop k es') ≤ NODE_CAP) as Hfit.
  { destruct Huni as [?|(_ & _ & Hsz)]; [by left|]. destruct Hu as [?|Hu]; [by left|right]. apply Hsf.
    - unfold PS, uniform in Hu. rewrite !entries_of_app, !Forall_app in Hu. destruct Hu as (_ & Hu & _).
      unfold entries_of in Hu. cbn in Hu. rewrite app_nil_r in Hu. eapply Forall_impl; [exact Hu|]. by intros ? [_ ?].
    - pose proof entry_sum. lia. }
  assert (fst <$> head (drop k es') = Some (tmin (TLeaf 0 (drop k es')))) as Hsep by (cbn; by destruct (drop k es')).
  assert (tmin (TLeaf id (take k es')) = tmin (TLeaf id es')) as Hmin by (rewrite Hcut at 2; cbn; by destruct (take k es')).
  assert (∀ t' N' nx', rep N' root t' → flat t' = entries_of PS → Q tt N' nx') as HQ'.
  { intros t' N' nx' Hrep' Hfl. apply (HQ t'); [done|]. unfold contents at 1. by rewrite Hfl. }
  apply twp_bind. eapply twp_some; [exact Hsep|]. unfold PS in Hs, He, Hu, HQ'.
  set (l := take k es') in *. set (r := drop k es') in *. clearbody l r. clear Hsf Hsep Hsp.
  rewrite <- Hmin in Ho. rewrite Hcut in Hs, He, Hu, HQ'.
  assert (tid (fill c (TLeaf id es)) = root) as Hroot by (rewrite <- Ht; apply Hrep).
  assert (c = [] ∨ ∃ f c', c = f :: c') as [->|(f & c' & Hcf)] by (clear; destruct c; eauto).
  - cbn [parent_of head fmap option_fmap option_map before after last_of next_of last]. cbv match.
    eapply (twp_split_leaf_root [] id es l r); try done.
  - assert (parent_of c = Some (f_id f)) as Hp by by rewrite Hcf.
    pose proof (twp_split_leaf_inner c id es l r Hl Hr Hcw Hroot Hs He Hu Hfit f c' N nx Q _ Hcf ltac:(lia) Ho Hc Hnd eq_refl HQ') as Hin.
    rewrite Hp in Hin |- *. exact Hin.
Qed.
End Entry.

Context (Hlimit : u64_max ≤ Z.of_nat limit).

(** A leaf that fits its page is all an insertion changes; else it depends on the
    split. *)
Lemma twp_insert_by t key value N nx Q :
  rep N root t → Forall byte_ok key → Forall byte_ok value → key ≠ [] →
  zlen key + zlen value + NODE_DATA + 4 ≤ PAGE_SIZE →
  (∀ t' N' nx', rep N' root t' → contents t' = <[key := value]> (contents t) → Q (contents t !! key) N' nx') →
  (∀ c id es e1 e2 old, found limit N t key c id es → placed t key c id es e1 e2 old → nodes_ok N nx →
     NODE_CAP < sum_size entry_size (e1 ++ (key, value) :: e2) →
     twp (split_leaf limit root (Leaf id (parent_of c) (last_of None (before c).*1) (next_of (after c).*1 None)
            (e1 ++ (key, value) :: e2))) N nx (λ _, Q (contents t !! key))) →
  twp (btree_insert limit root key value) N nx Q.
Proof.
  intros Hrep Hkey Hvalue Hne Hsz HQ Hsplit. unfold btree_insert.
  assert (is_empty key = false) as -> by by destruct key. rewrite (proj2 (Z.ltb_ge _ _)) by lia.
  assert (entry_size (key, value) ≤ NODE_CAP) as Hsize by (unfold entry_size, NODE_CAP, fst, snd; lia).
  apply twp_bind. apply (twp_find full big limit root Hlimit t); [done|]. intros c id es x Hfd Hx.
  rewrite (fd_node _ _ _ _ _ _ _ Hfd) in Hx. injection Hx as <-. cbv match.
  pose proof (found_placed _ _ _ _ _ _ Hrep Hfd) as Hpl.
  assert (∃ e1 e2 old, placed t key c id es e1 e2 old ∧
    ∀ Q', Q' (e1 ++ (key, value) :: e2, old) N nx →
    twp (match binary_search key es with
        | Ok index => proc_some (e ← es !! index; Some (<[index := (e.1, value)]> es, Some e.2))
        | Err index => proc_some (l ← vec_insert index (key, value) es; Some (l, None))
        end) N nx Q') as (e1 & e2 & old & Hplaced & Hstep).
  { destruct (binary_search key es) as [i|i].
    - destruct Hpl as (e1 & v & e2 & -> & Hp). exists e1, e2, (Some v). split; [done|]. intros Q' HQ'.
      rewrite (pl_entries _ _ _ _ _ _ _ _ Hp). cbn [app]. eapply twp_some; [|exact HQ'].
      rewrite list_lookup_middle by done. cbn. rewrite <- (Nat.add_0_r (length e1)), insert_app_r. done.
    - destruct Hpl as (e1 & e2 & -> & Hp). exists e1, e2, None. split; [done|]. intros Q' HQ'.
      rewrite (pl_entries _ _ _ _ _ _ _ _ Hp). cbn [app]. eapply twp_some; [|exact HQ'].
      rewrite vec_insert_at. done. }
  apply twp_bind, Hstep. cbv beta match. apply twp_nodes. intros HN.
  pose proof (Hsplit _ _ _ _ _ _ Hfd Hplaced HN) as Hsp. rewrite (pl_old _ _ _ _ _ _ _ _ Hplaced) in HQ, Hsp.
  destruct (entry_node_ok t key value N nx c id es e1 e2 old Hrep Hfd Hplaced Hkey Hvalue HN) as (Hok & _ & _).
  apply twp_bind, twp_fits; [done|]. cbn [node_size]. case_bool_decide as Hfit; apply twp_bind.
  - eapply (twp_place_fits t key value N nx c id es e1 e2 old); try done. intros t' N' nx' Hrep' Hm. by apply twp_ret, (HQ t').
  - eapply twp_mono; [apply Hsp; lia|]. intros [] N' nx' HQ'. by apply twp_ret.
Qed.

Lemma twp_insert t key value N nx Q :
  rep N root t → Forall byte_ok key → Forall byte_ok value → key ≠ [] →
  zlen key + zlen value + NODE_DATA + 4 ≤ PAGE_SIZE →
  (big ∨ uniform K (flat t) ∧ zlen key = K ∧ entry_size (key, value) ≤ ENTRY_CAP) →
  (∀ t' N' nx', rep N' root t' → contents t' = <[key := value]> (contents t) → Q (contents t !! key) N' nx') →
  twp (btree_insert limit root key value) N nx Q.
Proof.
  intros Hrep Hkey Hvalue Hne Hsz Huni HQ. apply (twp_insert_by t); try done.
  intros c id es e1 e2 old Hfd Hpl HN Hbig. eapply (twp_place_split t key value N nx c id es e1 e2 old); try done.
  unfold entry_size, NODE_CAP, fst, snd. lia.
Qed.

#[export] Instance sum_size_perm {A} (f : A → Z) : Proper ((≡ₚ) ==> (=)) (sum_size f).
Proof. unfold sum_size. induction 1; cbn; lia. Qed.

(** Room for the entry without a split: its key has a value that is not shorter,
    or all entries fit one page. *)
Definition room (m : gmap bytes bytes) (key value : bytes) : Prop :=
  (∃ v, m !! key = Some v ∧ zlen value ≤ zlen v)
  ∨ sum_size entry_size (map_to_list (<[key := value]> m)) ≤ NODE_CAP.

Lemma twp_insert_room t key value N nx Q :
  rep N root t → Forall byte_ok key → Forall byte_ok value → key ≠ [] →
  zlen key + zlen value + NODE_DATA + 4 ≤ PAGE_SIZE → room (contents t) key value →
  (∀ t' N' nx', rep N' root t' → contents t' = <[key := value]> (contents t) → Q (contents t !! key) N' nx') →
  twp (btree_insert limit root key value) N nx Q.
Proof.
  intros Hrep Hkey Hvalue Hne Hsz Hroom HQ. apply (twp_insert_by t); try done.
  intros c id es e1 e2 old Hfd Hpl HN Hbig. exfalso. destruct Hroom as [(v & Hv & Hle)|Hall].
  - rewrite (pl_old _ _ _ _ _ _ _ _ Hpl) in Hv. subst old.
    destruct (entry_node_ok t key value N nx c id es e1 e2 (Some v) Hrep Hfd Hpl Hkey Hvalue HN) as (_ & _ & Hes).
    rewrite (pl_entries _ _ _ _ _ _ _ _ Hpl), !sum_size_app in *. cbn [sum_size foldr] in *. unfold entry_size in *. cbn [fst snd] in *.
    fold (sum_size (λ e : entry, 4 + zlen e.1 + zlen e.2) e2) in *. lia.
  - destruct (entry_facts t key value N c id es e1 e2 old Hrep Hfd Hpl Hkey Hvalue) as (Hs & _ & Hm).
    rewrite <- Hm, (map_to_list_to_map _ (ksorted_keys _ Hs)), !entries_of_app, !sum_size_app in Hall.
    unfold entries_of at 2 in Hall. cbn [fmap list_fmap concat snd] in Hall. rewrite app_nil_r in Hall.
    pose proof (sum_entries_pos (entries_of (before c))) as Hb. pose proof (sum_entries_pos (entries_of (after c))) as Ha.
    pose proof (zlen_nonneg (entries_of (before c))). pose proof (zlen_nonneg (entries_of (after c))). lia.
Qed.
End Insert.
