(* ===== verification/BtreeDelete.v ===== *)
(** * Deletion

    A deletion takes the entry out of its leaf.  A leaf that becomes empty is
    unlinked and removed from its parent, parents that become empty go the same
    way, and a root with a single child takes that child's place.  The tree
    stays well formed and loses exactly the entry. *)

From S2P Require Import Prelude StorageBytes StoragePage StorageIo BtreeNode BtreeOps BtreeTree BtreeStore BtreeSteps BtreeSearch BtreeInsert.

Lemma vec_remove_at {A} (l r : list A) a : vec_remove (length l) (l ++ a :: r) = Some (l ++ r).
Proof.
  unfold vec_remove. rewrite length_app. cbn [length]. rewrite (proj2 (Nat.ltb_lt _ _)) by lia.
  rewrite take_app_length. rewrite drop_app_ge by lia. replace (S (length l) - length l)%nat with 1%nat by lia. done.
Qed.

Lemma remove_child_ids f i : vec_remove (length (f_left f)) (frame_ids f i) = Some (tid <$> f_left f ++ f_right f).
Proof. unfold frame_ids. rewrite <- (length_fmap tid (f_left f)), vec_remove_at. by rewrite fmap_app. Qed.

(** The separator that goes is the one of the removed child, or the first. *)
Lemma remove_child_keys f m : f_left f ++ f_right f ≠ [] →
  frame_keys f m ≠ [] ∧
  vec_remove ((length (f_left f) - 1) `min` (length (frame_keys f m) - 1)) (frame_keys f m) = Some (seps (f_left f ++ f_right f)).
Proof.
  intros Hne. unfold frame_keys, seps. rewrite fmap_app. destruct (f_left f) as [|t l].
  - cbn [app fmap list_fmap] in *. destruct (f_right f) as [|t r]; [done|]. rewrite fmap_cons.
    change (drop 1 (m :: tmin t :: (tmin <$> r))) with (tmin t :: (tmin <$> r)). split; [done|].
    cbn [length Nat.sub Nat.min]. apply (vec_remove_at []).
  - rewrite fmap_cons. cbn [app drop]. rewrite !drop_0. split; [by destruct (tmin <$> l)|].
    rewrite length_app. cbn [length]. rewrite Nat.min_l by (rewrite length_fmap; lia).
    replace (S (length l) - 1)%nat with (length (tmin <$> l)) by (rewrite length_fmap; lia).
    apply vec_remove_at.
Qed.

(** The root is the outermost frame. *)
Lemma root_in_ctx c i m r : c ≠ [] → tid (fill c (TLeaf i [])) = r → r ∈ (ctx_cells c i m).*1.
Proof.
  revert i m. induction c as [|f c IH]; intros i m Hne Hr; [done|]. cbn [ctx_cells]. rewrite fmap_cons, fmap_app.
  rewrite tid_fill_root, last_cons in Hr. destruct (decide (c = [])) as [->|Hc].
  - cbn in Hr. subst r. left.
  - right. apply elem_of_app. right. apply IH; [done|]. rewrite tid_fill_root.
    destruct c as [|g c]; [done|]. destruct (last (g :: c)) eqn:E; [done|]. by rewrite last_None in E.
Qed.

(** The empty tree. *)
Lemma rep_empty N root : rep (<[root := Leaf root None None None []]> N) root (TLeaf root []).
Proof.
  split; rewrite ?flat_leaf; [by right|done|constructor|done| |].
  - split; [apply NoDup_singleton|]. apply Forall_singleton. eexists. cbn. by rewrite lookup_insert_eq.
  - cbn. split; [|done]. exists None, []. by rewrite lookup_insert_eq.
Qed.

(** ** Keys of at most [K] bytes *)

Definition short (K : Z) (es : list entry) : Prop := Forall (λ e, zlen e.1 ≤ K) es.

Lemma short_app K es fs : short K (es ++ fs) ↔ short K es ∧ short K fs.
Proof. apply Forall_app. Qed.

Lemma short_min K n t : wf n t → short K (flat t) → zlen (tmin t) ≤ K.
Proof. intros (e & He & <-)%tmin_in Hu. unfold short in Hu. rewrite Forall_forall in Hu. by apply Hu. Qed.

Section Delete.
Context {S : Type} {Hstore : PageStore S} {Hbase : PageBase} {Hlaws : PageStoreLaws S} (full big : Prop) (limit : nat) (root K : Z).
Local Abbreviation twp := (twp full big).

(** ** The root takes the place of its only child *)

Lemma twp_collapse n t b p fuel N nx Q :
  wf n t → (n < fuel)%nat → owns N ((root, b) :: cells p t) → chain N None (leaves t) None →
  ksorted (flat t) → Forall entry_ok (flat t) →
  (∀ t' N' nx', rep N' root t' → flat t' = flat t → Q tt N' nx') →
  twp (collapse_root_loop root fuel (tid t)) N nx Q.
Proof.
  revert t p fuel. induction n as [|n IH]; intros t p [|fuel] Hw Hf Ho Hc Hs He HQ; [lia| |lia|];
    apply twp_nodes; intros HN; pose proof (owns_ids _ _ _ HN Ho) as Hids; rewrite fmap_cons in Hids;
    apply Forall_cons in Hids as [[Hrok Hrlt] Hids]; cbn [fst] in Hrok, Hrlt;
    pose proof Ho as (Ho1 & Hr & _)%owns_tail; cbn [fst] in Hr.
  - destruct t as [id es|]; [|done]. rewrite flat_leaf in Hs, He.
    assert (N !! id = Some (Leaf id p None None es)) as Hid.
    { apply links_body; [by destruct Hc|]. apply (owns_lookup _ _ _ _ Ho1). left. }
    cbn [collapse_root_loop tid]. apply twp_bind. eapply twp_load; [exact Hid|]. cbv match.
    destruct (nodes_lookup _ _ _ _ HN Hid) as (_ & _ & _ & Hsz).
    apply twp_bind, twp_ret. apply twp_bind, twp_ret. apply twp_save; cbn [node_id]; [by apply leaf_ok|done|by right|].
    intros _. apply (HQ (TLeaf root es)); [|by rewrite !flat_leaf].
    assert (id ≠ root) as Hne by (intros ->; apply Hr; left).
    split; rewrite ?flat_leaf; try done.
    + left. by exists 0%nat.
    + split; [apply NoDup_singleton|]. apply Forall_singleton. eexists. cbn. by rewrite lookup_insert_eq.
    + cbn. split; [|done]. exists None, es. by rewrite lookup_insert_eq.
  - destruct t as [|id kids]; [done|]. destruct Hw as [Hne Hw].
    destruct (owns_lookup _ _ id (top p (TNode id kids)) Ho1) as (x & Hx & Hxid & Hxb); [left|].
    destruct x as [|xid xp ks cs]; [done|]. cbn [top node_id node_body] in Hxid, Hxb. injection Hxb as -> -> ->. subst xid.
    cbn [collapse_root_loop tid]. apply twp_bind. eapply twp_load; [exact Hx|].
    destruct kids as [|t0 [|t1 r]]; [done| |].
    + cbn [fmap list_fmap]. apply Forall_cons in Hw as [Hw _]. rewrite flat_node, flats_cons, app_nil_r in *.
      apply (IH t0 (Some id)); [done|lia| | |done|done|done].
      * cbn [cells flat_map] in Ho. rewrite app_nil_r in Ho. rewrite Permutation_swap in Ho.
        by apply owns_tail in Ho as (? & _ & _).
      * unfold leaves in *. cbn [pages flat_map] in Hc. by rewrite app_nil_r in Hc.
    + destruct (nodes_lookup _ _ _ _ HN Hx) as (_ & _ & _ & Hsz). cbn [node_size] in Hsz.
      rewrite !fmap_cons. cbv match. rewrite <- !fmap_cons. set (kids := t0 :: t1 :: r) in *.
      cbn [cells] in Ho1, Hr, Hids. rewrite fmap_cons in Hr, Hids. apply not_elem_of_cons in Hr as [Hrid Hrk]. cbn [fst] in Hrid.
      apply owns_tail in Ho1 as (Hok & _ & _). apply Forall_cons in Hids as [_ Hids].
      assert (Forall id_ok (tid <$> kids)) as Htid
        by (eapply kids_ids_ok, Forall_impl; [exact Hids|by intros ? [? _]]).
      rewrite flat_node in Hs, He. rewrite <- (app_nil_r (flat_map _ _)) in Hok.
      apply twp_bind. cbn [reparent_children]. eapply (twp_reparent full big kids (Some id)); [exact Hok|exact Hc|done|].
      intros N1 Ho2 Hc2. rewrite app_nil_r in Ho2.
      eapply (twp_save_cell full big (Internal root None (seps kids) (tid <$> kids))); cbn [node_id node_size];
        [exact Ho2| |exact Hc2| |by eapply (internal_ok n)|done|by right|].
      * by rewrite (flat_map_cells_ids _ (Some id)).
      * intros Hin. apply Hrk. unfold leaves in Hin. destruct (submseteq_Permutation _ _ (leaves_sublist (TNode id kids))) as [k Hk].
        assert (root ∈ ids (TNode id kids)) as Hin' by (rewrite Hk; unfold leaves; set_solver).
        unfold ids in Hin'. cbn [cells] in Hin'. rewrite fmap_cons in Hin'. apply elem_of_cons in Hin' as [?|?]; [done|done].
      * intros N2 _ Ho3 Hc3. apply (HQ (TNode root kids)); [|done]. split; try done.
        left. by exists (Datatypes.S n).
Qed.

(** ** Separators after a child is gone *)

Lemma twp_mins n kids p N nx (Q : list bytes → gmap Z Node → Z → Prop) :
  Forall (wf n) kids → (n < limit)%nat → bodies N (flat_map (cells p) kids) → Q (tmin <$> kids) N nx →
  twp (proc_mapM (subtree_min limit) (tid <$> kids)) N nx Q.
Proof.
  intros Hw Hlim. revert Q. induction Hw as [|t kids Ht Hw IH]; intros Q Hb HQ; [by apply twp_ret|].
  rewrite !fmap_cons in *. cbn [proc_mapM flat_map] in *. apply twp_bind. eapply (twp_subtree_min full big n t); [done|done| |].
  { intros x Hx. apply Hb, elem_of_app. left. exact Hx. }
  apply twp_bind. apply IH; [intros x Hx; apply Hb, elem_of_app; by right|]. by apply twp_ret.
Qed.

Lemma twp_recompute id kids n c m pr L nxo N nx Q :
  let T := TNode id kids in
  wf (Datatypes.S n) T → ctx_wf (Datatypes.S n) c → (Datatypes.S n + length c < limit)%nat →
  owns N (ctx_cells c id m ++ cells (parent_of c) T) → chain N pr L nxo →
  frames_ok c id (tmin T) → (big ∨ frames_fit c (tmin T)) →
  (∀ N', owns N' (ctx_cells c id (tmin T) ++ cells (parent_of c) T) → chain N' pr L nxo → Q tt N' nx) →
  twp (recompute_internal_separators limit id) N nx Q.
Proof.
  intros T Hw Hcw Hlim Ho Hc Hok Hfit HQ. unfold recompute_internal_separators. apply twp_nodes. intros HN.
  destruct (owns_lookup _ _ id (top (parent_of c) T) Ho) as (x & Hx & Hxid & Hxb).
  { apply elem_of_app. right. apply (tid_in_cells (parent_of c) T). }
  destruct x as [|xid xp ks cs]; [done|]. cbn [top T node_id node_body] in Hxid, Hxb. injection Hxb as -> -> ->. subst xid.
  destruct (nodes_lookup _ _ _ _ HN Hx) as (Hlt & _ & Hxok & Hsz).
  apply twp_bind. eapply twp_load; [exact Hx|]. cbv match. rewrite <- fmap_drop. apply twp_bind.
  destruct Hw as [Hne Hw]. apply (twp_mins n _ (Some id)); [by apply Forall_drop|lia| |].
  { intros y Hy. apply (owns_bodies _ _ Ho). apply elem_of_app. right. cbn [T cells]. right.
    apply elem_of_flat_map in Hy as (t & Ht & Hy). apply elem_of_flat_map. exists t. split; [|done].
    rewrite <- (take_drop 1 kids). apply elem_of_app. by right. }
  rewrite fmap_drop. change (drop 1 (tmin <$> kids)) with (seps kids).
  apply twp_bind, twp_save; [done|done|by right|]. intros _. cbn [node_id]. rewrite insert_id by done.
  unfold propagate_min_change. change id with (tid T).
  eapply (twp_propagate full big limit c T m (Datatypes.S n) limit pr L nxo []); rewrite ?app_nil_r; try done; try lia.
Qed.

(** ** Removing a child *)

Section Remove.
Context (f : frame) (c : ctx) (i : Z) (m : bytes) (n : nat) (N : gmap Z Node) (nx : Z).
Let kids := f_left f ++ f_right f.
Let T := TNode (f_id f) kids.
Let PS := before (f :: c) ++ after (f :: c).
Context (Hcw : ctx_wf n (f :: c)) (Hlim : (n + length (f :: c) < limit)%nat).
Context (Hroot : tid (fill (f :: c) (TLeaf i [])) = root).
Context (Ho : owns N (ctx_cells (f :: c) i m)) (Hc : chain N None PS.*1 None).
Context (Hs : ksorted (entries_of PS)) (He : Forall entry_ok (entries_of PS)).
Context (Hu : big ∨ zlen m = K ∧ short K (entries_of PS)).

Lemma remove_pages : PS = before c ++ pages T ++ after c.
Proof. unfold PS, T, kids. cbn [before after pages]. rewrite flat_map_app. by rewrite <- !app_assoc. Qed.

Lemma remove_is_root : (f_id f =? root) = is_empty c.
Proof.
  cbn [ctx_cells] in Ho. pose proof Ho as (Ho1 & Hf & _)%owns_tail. cbn [fst] in Hf.
  destruct (decide (c = [])) as [->|Hne].
  - apply Z.eqb_eq. exact Hroot.
  - assert (is_empty c = false) as -> by by destruct c. apply Z.eqb_neq. intros Heq. apply Hf. rewrite Heq.
    rewrite fmap_app. apply elem_of_app. right. apply root_in_ctx; [done|].
    rewrite tid_fill_root, last_cons in Hroot. rewrite tid_fill_root. destruct (last c) eqn:E; [done|]. by rewrite last_None in E.
Qed.

(** The node keeps some of its children. *)
Lemma twp_remove_keep Q :
  kids ≠ [] → nodes_ok N nx →
  (∀ t' N' nx', rep N' root t' → flat t' = entries_of PS → Q tt N' nx') →
  twp (_ ← save_node (Internal (f_id f) (parent_of c) (seps kids) (tid <$> kids));
      recompute_internal_separators limit (f_id f)) N nx Q.
Proof.
  intros Hne HN HQ. pose proof remove_pages as HP. destruct Hcw as (Hwl & Hwr & Hcw').
  assert (Forall (wf n) kids) as Hwk by (by apply Forall_app).
  cbn [ctx_cells] in Ho. pose proof Ho as (Ho1 & Hf & (x & Hx & _ & Hxb))%owns_tail. cbn [fst snd] in *. fold kids in Ho1, Hf.
  pose proof (owns_ids _ _ _ HN Ho) as Hids. rewrite fmap_cons, fmap_app, Forall_cons, Forall_app in Hids.
  destruct Hids as ([Hfok Hflt] & Hkids & Hcids). cbn [fst] in *. fold kids in Hkids.
  assert (Forall id_ok (ctx_cells c (f_id f) (frame_min f m)).*1) as Hcids'
    by (eapply Forall_impl; [exact Hcids|by intros ? [? _]]).
  destruct (nodes_lookup _ _ _ _ HN Hx) as (_ & _ & _ & Hsz). destruct x as [|xid xp ks cs]; [done|].
  cbn [node_body node_size] in Hxb, Hsz. injection Hxb as -> -> ->.
  rewrite HP in Hc, Hs, He, Hu, HQ. rewrite !entries_of_app in Hs, He, Hu.
  change (entries_of (pages T)) with (flat T) in Hs, He, Hu.
  assert (ksorted (flats kids) ∧ Forall entry_ok (flats kids)) as [Hks Hke].
  { rewrite !Forall_app in He. apply StronglySorted_app in Hs as (_ & _ & (_ & ? & _)%StronglySorted_app). tauto. }
  assert (sum_size child_size (seps kids) ≤ sum_size child_size (frame_keys f m)) as Hshrink.
  { destruct (remove_child_keys f m Hne) as [_ Hrm]. fold kids in Hrm. unfold vec_remove in Hrm. case_match; [|done].
    injection Hrm as Hrm. rewrite <- Hrm. generalize ((length (f_left f) - 1) `min` (length (frame_keys f m) - 1))%nat. intros k.
    rewrite <- (take_drop k (frame_keys f m)) at 3. rewrite !sum_size_app. apply Z.add_le_mono_l.
    destruct (drop k (frame_keys f m)) as [|y l] eqn:Ed.
    - rewrite <- Nat.add_1_r, <- drop_drop, Ed. done.
    - rewrite <- Nat.add_1_r, <- drop_drop, Ed. cbn [drop sum_size foldr]. rewrite drop_0. fold (sum_size child_size l).
      pose proof (child_size_pos y). lia. }
  apply twp_bind. eapply (twp_save_cell full big); cbn [node_id node_size]; [exact Ho1|exact Hf|exact Hc| |
    eapply (internal_ok n); try done|done|right; lia|].
  { by eapply chain_internal. }
  { by eapply parent_of_ok. }
  { eapply kids_ids_ok, Forall_impl; [exact Hkids|by intros ? [? _]]. }
  intros N1 _ Ho2 Hc2. cbn [node_id node_body] in Ho2.
  assert (wf (Datatypes.S n) T) as HwT by by split.
  eapply (twp_recompute (f_id f) kids n c (frame_min f m)); try done.
  - cbn [length] in Hlim. lia.
  - revert Ho2. apply owns_perm. cbn [T cells]. solve_Permutation.
  - change (f_id f) with (tid T) in Hcids' |- *. by eapply (frames_ok_fill c T (Datatypes.S n)).
  - destruct Hu as [?|[HK Hu']]; [by left|right]. rewrite !short_app in Hu'. destruct Hu' as (_ & Hu' & _).
    pose proof (short_min _ _ _ HwT Hu') as HmT. apply (frames_fit_length c (frame_min f m)).
    + unfold frame_min. destruct (f_left f) as [|t0 l] eqn:El; cbn [fmap list_fmap head default]; [by rewrite HK|].
      done.
    + apply owns_app in Ho1 as [_ Ho1]. rewrite <- (app_nil_r (ctx_cells _ _ _)) in Ho1. by eapply owns_frames_fit.
  - intros N2 Ho3 Hc3. apply (HQ (fill c T)); [|by rewrite flat_alt, pages_fill].
    apply (rep_fill _ _ _ _ (Datatypes.S n)); try done.
    + rewrite tid_fill_root, last_cons in Hroot. rewrite tid_fill_root. by destruct (last c).
    + by rewrite !entries_of_app.
    + by rewrite !entries_of_app.
Qed.
End Remove.

(** A node that lost its last child is removed in turn; the root becomes an
    empty leaf, or takes the place of its only child. *)
Lemma twp_remove_child fuel f c i b m n N nx Q :
  let PS := before (f :: c) ++ after (f :: c) in
  ctx_wf n (f :: c) → (n + length (f :: c) < limit)%nat → (length (f :: c) ≤ fuel)%nat →
  tid (fill (f :: c) (TLeaf i [])) = root →
  owns N ((i, b) :: ctx_cells (f :: c) i m) → chain N None PS.*1 None →
  ksorted (entries_of PS) → Forall entry_ok (entries_of PS) →
  (big ∨ zlen m = K ∧ short K (entries_of PS)) →
  (∀ t' N' nx', rep N' root t' → flat t' = entries_of PS → Q tt N' nx') →
  twp (remove_child_loop limit root fuel (f_id f) i) N nx Q.
Proof.
  revert f c i b n. induction fuel as [|fuel IH]; intros f c i b n PS Hcw Hlim Hfuel Hroot Ho Hc Hs He Hu HQ; [cbn in Hfuel; lia|].
  apply twp_nodes. intros HN. destruct (hole_notin _ _ _ _ _ _ Ho) as (Hnl & _ & _).
  pose proof Ho as (Ho1 & _ & _)%owns_tail. pose proof (remove_is_root f c i m n N Hcw Hlim Hroot Ho1 Hc Hs He Hu) as Hir.
  pose proof Ho1 as (Ho2 & Hf & (x & Hx & Hxid & Hxb))%owns_tail. cbn [fst snd] in *.
  destruct x as [|xid xp ks cs]; [done|]. cbn [node_id node_body] in Hxid, Hxb. injection Hxb as -> -> ->. subst xid.
  cbn [remove_child_loop]. apply twp_bind. eapply twp_load; [exact Hx|]. cbn [node_id node_parent]. cbv match. rewrite Hir.
  assert (position i (frame_ids f i) = Some (length (f_left f))) as ->
    by (unfold frame_ids; by rewrite position_middle, length_fmap).
  apply twp_bind. eapply twp_some; [apply remove_child_ids|].
  destruct (decide (f_left f ++ f_right f = [])) as [Hnil|Hne].
  - pose proof Hnil as [El Er]%app_nil.
    assert (frame_keys f m = []) as -> by (unfold frame_keys; by rewrite El, Er).
    apply twp_bind, twp_ret. rewrite Hnil. cbn [fmap list_fmap]. destruct c as [|g c]; cbn [is_empty parent_of head fmap option_fmap option_map].
    + assert (f_id f = root) as Hfr by exact Hroot. pose proof (owns_ids _ _ _ HN Ho1) as Hids.
      cbn [ctx_cells] in Hids. rewrite fmap_cons, Forall_cons in Hids. destruct Hids as [[Hfok Hflt] _]. cbn [fst] in Hfok, Hflt. rewrite Hfr in Hfok, Hflt.
      apply twp_save; cbn [node_id node_size]; [apply leaf_ok; done || constructor|done|by right|]. intros _.
      apply (HQ (TLeaf root [])).
      * apply rep_empty.
      * unfold PS. cbn [before after]. by rewrite El, Er.
    + assert (PS = before (g :: c) ++ after (g :: c)) as HP
        by (unfold PS; cbn [before after]; rewrite El, Er; cbn [flat_map app]; by rewrite app_nil_r).
      assert (frame_min f m = m) as Hfm by (unfold frame_min; by rewrite El).
      rewrite HP in Hc, Hs, He, Hu, HQ. destruct Hcw as (_ & _ & Hcw).
      eapply (IH g c (f_id f) _ (Datatypes.S n)); try done.
      * cbn [length] in Hlim |- *. lia.
      * cbn [length] in Hfuel |- *. lia.
      * rewrite tid_fill_root, last_cons in Hroot. rewrite tid_fill_root. by destruct (last (g :: c)) eqn:E; [|rewrite last_None in E].
      * change (ctx_cells (f :: g :: c) i m) with
          ((f_id f, BInternal (parent_of (g :: c)) (frame_keys f m) (frame_ids f i))
           :: flat_map (cells (Some (f_id f))) (f_left f ++ f_right f) ++ ctx_cells (g :: c) (f_id f) (frame_min f m)) in Ho1.
        rewrite Hnil, Hfm in Ho1. exact Ho1.
  - destruct (remove_child_keys f m Hne) as [Hks Hrm]. apply twp_bind.
    apply (twp_mono _ _ _ _ _ (λ k N' nx', k = seps (f_left f ++ f_right f) ∧ N' = N ∧ nx' = nx)).
    { destruct (frame_keys f m) as [|k0 ks0]; [done|]. by eapply twp_some; [exact Hrm|]. }
    intros k N' nx' (-> & -> & ->). destruct (tid <$> f_left f ++ f_right f) as [|i0 rest] eqn:Ek.
    { by apply fmap_nil_inv in Ek. }
    rewrite <- Ek. destruct (is_empty c && is_empty rest) eqn:Eone.
    + apply andb_true_iff in Eone as [Ec Erest]. destruct c; [|done]. destruct rest; [|done].
      destruct (f_left f ++ f_right f) as [|t0 [|? ?]] eqn:Ekids; [done| |done]. cbn in Ek. injection Ek as <-.
      assert (f_id f = root) as Hfr by exact Hroot.
      assert (PS = pages t0) as HP.
      { unfold PS. cbn [before after app]. rewrite app_nil_r, <- flat_map_app, Ekids. cbn. apply app_nil_r. }
      rewrite HP in Hc, Hs, He, HQ. destruct Hcw as (Hwl & Hwr & _).
      assert (wf n t0) as Hw0.
      { assert (Forall (wf n) (f_left f ++ f_right f)) as Hw by by apply Forall_app. rewrite Ekids in Hw. by apply Forall_cons in Hw as [? _]. }
      cbn [ctx_cells] in Ho1. rewrite Ekids in Ho1. cbn [flat_map] in Ho1. rewrite !app_nil_r in Ho1.
      eapply (twp_collapse n t0 _ (Some (f_id f)) limit); try done.
      * cbn [length] in Hlim. lia.
      * rewrite <- Hfr at 1. exact Ho1.
    + eapply (twp_remove_keep f c i m n N nx); try done.
Qed.

(** ** Unlinking an emptied leaf *)

Lemma twp_unlink f c i m N nx Q :
  let PS := before (f :: c) ++ after (f :: c) in
  let leaf := Leaf i (Some (f_id f)) (last_of None (before (f :: c)).*1) (next_of (after (f :: c)).*1 None) [] in
  ctx_wf 0 (f :: c) → (length (f :: c) < limit)%nat → tid (fill (f :: c) (TLeaf i [])) = root → node_ok leaf →
  (∃ b, owns N ((i, b) :: ctx_cells (f :: c) i m)) →
  chain N None ((before (f :: c)).*1 ++ [i] ++ (after (f :: c)).*1) None →
  NoDup ((before (f :: c)).*1 ++ [i] ++ (after (f :: c)).*1) →
  ksorted (entries_of PS) → Forall entry_ok (entries_of PS) →
  (big ∨ zlen m = K ∧ short K (entries_of PS)) →
  (∀ t' N' nx', rep N' root t' → flat t' = entries_of PS → Q tt N' nx') →
  twp (unlink_empty_leaf limit root leaf) N nx Q.
Proof.
  intros PS leaf Hcw Hlim Hroot (_ & _ & Hpv & Hnx & _) [b Ho] Hc Hnd Hs He Hu HQ. unfold unlink_empty_leaf, leaf. cbn [is_empty negb].
  set (B := (before (f :: c)).*1) in *. set (A := (after (f :: c)).*1) in *.
  apply chain_app in Hc as [HB HA]. cbn [app chain next_of] in HB, HA. destruct HA as [_ HA].
  apply NoDup_app in Hnd as (HndB & Hdis & HndA%NoDup_cons). destruct HndA as [_ HndA].
  assert (∀ j, j ∈ A → j ∉ B) as HAB by (intros j Hj Hj'; apply (Hdis j Hj'); by right).
  rewrite (last_of_none B) in *. rewrite (next_of_none A) in *.
  apply twp_bind. eapply (twp_relink_before full big B None _ _ N nx _ _ Ho HB HndB); rewrite relink_target_default by done; [done|].
  intros N1 Ho1 HB1 Hag1.
  assert (chain N1 (Some i) A None) as HA1 by (eapply chain_agree; [|exact HA]; intros j Hj; by apply Hag1, HAB).
  apply twp_bind. eapply (twp_relink_after full big A _ None _ N1 nx _ _ Ho1 HA1 HndA); rewrite relink_target_default by done; [done|].
  intros N2 Ho2 HA2 Hag2.
  assert (chain N2 None B (head A)) as HB2.
  { eapply chain_agree; [|exact HB1]. intros j Hj. apply Hag2. intros Hj'. by apply (HAB j). }
  unfold remove_child. eapply (twp_remove_child limit f c i b m 0); try done; [lia|].
  unfold PS. rewrite fmap_app. apply chain_app. by rewrite last_of_none, next_of_none.
Qed.

(** ** Deletion *)

Context (Hlimit : u64_max ≤ Z.of_nat limit).

Section Gone.
Context (t : tree) (key v : bytes) (N : gmap Z Node) (nx : Z) (c : ctx) (id : Z) (es e1 e2 : list entry).
Context (Hrep : rep N root t) (Hfd : found limit N t key c id es) (Hpl : placed t key c id es e1 e2 (Some v)).
Context (Huni : big ∨ zlen key = K ∧ short K (flat t)) (HN : nodes_ok N nx).
Let es' := e1 ++ e2.
Let PS := before c ++ [(id, es')] ++ after c.

Lemma gone_flat : entries_of PS = (entries_of (before c) ++ e1) ++ (e2 ++ entries_of (after c)).
Proof.
  unfold PS, es'. rewrite !entries_of_app. unfold entries_of at 2. cbn [fmap list_fmap concat snd].
  rewrite app_nil_r, <- !app_assoc. done.
Qed.

Lemma gone_facts :
  ksorted (entries_of PS) ∧ Forall entry_ok (entries_of PS) ∧ (big ∨ zlen key = K ∧ short K (entries_of PS))
  ∧ list_to_map (M := gmap bytes bytes) (entries_of PS) = delete key (contents t).
Proof.
  pose proof Hpl as [Har _ _]. pose proof (rep_entries _ _ _ Hrep) as He. unfold contents.
  pose proof (entry_old_flat limit t key N c id es e1 e2 (Some v) Hfd Hpl) as Hfl. cbn [app] in Hfl.
  rewrite gone_flat. rewrite Hfl in He |- *. pose proof Huni as Huni'. rewrite Hfl in Huni'. destruct (around_notin _ _ _ Har) as [Hn1 Hn2]. split_and!.
  - pose proof (around_sorted key v _ _ Har) as Hs. apply StronglySorted_app in Hs as (Hlr & Hl & Hr).
    apply StronglySorted_app. split_and!; [|done|by apply StronglySorted_inv in Hr as [? _]].
    intros x y Hx Hy. apply Hlr; [done|by right].
  - rewrite Forall_app, Forall_cons in He. rewrite Forall_app. tauto.
  - destruct Huni' as [?|[HK Hu]]; [by left|right]. rewrite short_app in Hu. destruct Hu as [Hu1 [_ Hu2]%Forall_cons].
    split; [done|]. by apply short_app.
  - rewrite list_to_map_middle by done. rewrite delete_insert_id; [done|]. by apply around_lookup.
Qed.

Lemma gone_leaf : ksorted es' ∧ Forall entry_ok es'.
Proof.
  destruct gone_facts as (Hs & He & _). unfold PS in *. rewrite !entries_of_app in *.
  assert (entries_of [(id, es')] = es') as Heq by (unfold entries_of; cbn; apply app_nil_r). rewrite Heq in *.
  rewrite !Forall_app in He. apply StronglySorted_app in Hs as (_ & _ & (_ & ? & _)%StronglySorted_app). tauto.
Qed.

Let leaf' := Leaf id (parent_of c) (last_of None (before c).*1) (next_of (after c).*1 None) es'.

Lemma gone_node : node_ok leaf' ∧ allocated nx id ∧ node_size leaf' ≤ NODE_CAP.
Proof.
  destruct (nodes_lookup _ _ _ _ HN (fd_node _ _ _ _ _ _ _ Hfd)) as (? & _ & (? & ? & ? & ? & _) & Hsz).
  destruct gone_leaf as [? ?]. split_and!; [by apply leaf_ok|done|]. cbn [node_size leaf'] in *.
  rewrite (pl_entries _ _ _ _ _ _ _ _ Hpl) in Hsz. unfold es'. rewrite !sum_size_app in *. cbn [sum_size foldr] in Hsz.
  pose proof (entry_size_pos (key, v)). lia.
Qed.

Lemma gone_owns : owns N (ctx_cells c id (tmin (TLeaf id es)) ++ [(id, BLeaf (parent_of c) es)])
  ∧ chain N None ((before c).*1 ++ [id] ++ (after c).*1) None ∧ NoDup ((before c).*1 ++ [id] ++ (after c).*1).
Proof.
  pose proof Hrep as [_ _ _ _ Ho Hc]. pose proof Ho as [Hnd%NoDup_leaves _].
  unfold leaves in *. rewrite (fd_fill _ _ _ _ _ _ _ Hfd) in Ho, Hc, Hnd. rewrite pages_fill, !fmap_app in Hc, Hnd.
  by rewrite cells_fill in Ho.
Qed.

(** The leaf keeps entries. *)
Lemma twp_gone_keep Q :
  es' ≠ [] →
  (∀ t' N' nx', rep N' root t' → contents t' = delete key (contents t) → Q tt N' nx') →
  twp (_ ← save_node leaf';
      if (length e1 =? 0)%nat && negb (is_empty es') then propagate_min_change limit id else mret tt) N nx Q.
Proof.
  intros Hne HQ. destruct gone_owns as (Ho & Hc & Hnd). destruct gone_facts as (Hs & He & Hu & Hm).
  destruct gone_node as (Hok & Hlt & Hsz). pose proof Hfd as [Ht Hcw _ _ Hnode Hdep].
  apply twp_bind, twp_save; [done|done|by right|]. intros _. cbn [node_id leaf'].
  assert (owns (<[id := leaf']> N) (ctx_cells c id (tmin (TLeaf id es)) ++ [(id, BLeaf (parent_of c) es')])) as Ho'.
  { rewrite (Permutation_app_comm (ctx_cells _ _ _)) in Ho |- *. exact (owns_update N leaf' _ _ Ho). }
  assert (chain (<[id := leaf']> N) None ((before c).*1 ++ [id] ++ (after c).*1) None) as Hc'
    by (exact (chain_same _ _ _ _ _ _ _ _ _ _ _ Hnode Hc)).
  assert (∀ N', owns N' (ctx_cells c id (tmin (TLeaf id es')) ++ [(id, BLeaf (parent_of c) es')]) →
    chain N' None ((before c).*1 ++ [id] ++ (after c).*1) None → Q tt N' nx) as Hdone.
  { intros N' Ho2 Hc2. apply (HQ (fill c (TLeaf id es'))); [|unfold contents at 1; by rewrite flat_alt, pages_fill].
    apply (rep_fill _ _ _ _ 0); try done; [|by rewrite !fmap_app].
    rewrite <- (rep_root _ _ _ Hrep), Ht. by rewrite !tid_fill_root. }
  assert (is_empty es' = false) as -> by by destruct es'. rewrite andb_true_r.
  destruct (length e1 =? 0)%nat eqn:E1.
  - unfold PS in Hs, He, Hu. rewrite !entries_of_app in Hs, He, Hu.
    assert (entries_of [(id, es')] = flat (TLeaf id es')) as Heq by done. rewrite Heq in Hs, He, Hu.
    apply twp_nodes. intros HN'. pose proof (owns_ids _ _ _ HN' Ho') as Hids. rewrite fmap_app, Forall_app in Hids.
    unfold propagate_min_change. change id with (tid (TLeaf id es')).
    eapply (twp_propagate full big limit c (TLeaf id es') (tmin (TLeaf id es)) 0 limit None _ None []); try done.
    + eapply (frames_ok_fill c (TLeaf id es') 0); try done.
      * cbn [tid]. by destruct Hids as [_ [[? _] _]%Forall_cons].
      * eapply Forall_impl; [apply Hids|]. by intros ? [? _].
    + destruct Hu as [?|[HK Hu]]; [by left|right]. rewrite !short_app in Hu. destruct Hu as (_ & Hu & _).
      pose proof (short_min K 0 (TLeaf id es') Hne Hu) as HmK.
      apply (frames_fit_length c (tmin (TLeaf id es))); [|by eapply owns_frames_fit].
      etrans; [exact HmK|]. rewrite (pl_entries _ _ _ _ _ _ _ _ Hpl), <- HK.
      destruct e1; [done|done].
  - apply twp_ret, Hdone; [|done]. assert (tmin (TLeaf id es) = tmin (TLeaf id es')) as <-; [|done].
    rewrite (pl_entries _ _ _ _ _ _ _ _ Hpl). unfold es'. by destruct e1.
Qed.

(** The leaf had this entry alone. *)
Lemma twp_gone_empty Q :
  es' = [] →
  (∀ t' N' nx', rep N' root t' → contents t' = delete key (contents t) → Q tt N' nx') →
  twp (if negb (id =? root) then unlink_empty_leaf limit root leaf' else _ ← save_node leaf'; mret tt) N nx Q.
Proof.
  intros Hnil HQ. destruct gone_owns as (Ho & Hc & Hnd). destruct gone_facts as (Hs & He & Hu & Hm).
  destruct gone_node as (Hok & Hlt & Hsz). pose proof Hfd as [Ht Hcw _ _ Hnode Hdep]. pose proof (rep_root _ _ _ Hrep) as Hr.
  rewrite Ht, tid_fill_root in Hr.
  assert (entries_of PS = entries_of (before c ++ after c)) as HP.
  { unfold PS. rewrite Hnil, !entries_of_app. done. }
  rewrite HP in Hs, He, Hu, Hm. destruct (decide (c = [])) as [Hcn|Hcn].
  - rewrite Hcn in Hr. cbn in Hr. subst id. rewrite Z.eqb_refl. cbn [negb]. apply twp_bind, twp_save; [done|done|by right|].
    intros _. apply twp_ret. unfold leaf'. rewrite Hnil, Hcn. cbn [parent_of before after node_id head fmap option_fmap option_map list_fmap last_of next_of last].
    apply (HQ (TLeaf root [])); [apply rep_empty|]. rewrite <- Hm, Hcn. done.
  - assert (id ≠ root) as Hne.
    { intros Heq. rewrite Permutation_app_comm in Ho. cbn [app] in Ho. apply owns_tail in Ho as (_ & Hid & _). apply Hid. cbn [fst].
      apply root_in_ctx; [done|]. rewrite tid_fill_root. rewrite Heq. cbn [tid] in *.
      destruct (last c) as [g|] eqn:E; [done|]. by rewrite last_None in E. }
    rewrite (proj2 (Z.eqb_neq _ _) Hne). cbn [negb].
    assert (∃ f c', c = f :: c') as (f & c' & Hcf) by (clear -Hcn; destruct c as [|f c']; [done|by exists f, c']).
    assert (parent_of c = Some (f_id f)) as Hp by by rewrite Hcf.
    unfold leaf' in Hok |- *. rewrite Hp, Hnil in Hok |- *. rewrite Hcf in *.
    eapply (twp_unlink f c' id (tmin (TLeaf id es))); try done.
    + rewrite tid_fill_root. rewrite <- Hr. done.
    + eexists. rewrite Permutation_app_comm in Ho. exact Ho.
    + destruct Hu as [?|[HK Hu]]; [by left|right]. split; [|done]. rewrite (pl_entries _ _ _ _ _ _ _ _ Hpl).
      unfold es' in Hnil. apply app_nil in Hnil as [-> ->]. done.
    + intros t' N' nx' Hrep' Hfl. apply (HQ t'); [done|]. unfold contents at 1. by rewrite Hfl.
Qed.
End Gone.

Lemma twp_delete t key N nx Q :
  rep N root t → (big ∨ (is_Some (contents t !! key) → zlen key = K ∧ short K (flat t))) →
  (∀ t' N' nx', rep N' root t' → contents t' = delete key (contents t) → Q (contents t !! key) N' nx') →
  twp (btree_delete limit root key) N nx Q.
Proof.
  intros Hrep Huni HQ. unfold btree_delete. apply twp_bind. apply (twp_find full big limit root Hlimit t); [done|].
  intros c id es x Hfd Hx. rewrite (fd_node _ _ _ _ _ _ _ Hfd) in Hx. injection Hx as <-. cbv match.
  pose proof (found_placed _ _ _ _ _ _ _ _ Hrep Hfd) as Hpl. apply twp_nodes. intros HN.
  destruct (binary_search key es) as [i|i].
  - destruct Hpl as (e1 & v & e2 & -> & Hp).
    assert (big ∨ zlen key = K ∧ short K (flat t)) as Hu.
    { destruct Huni as [?|Hu]; [by left|right]. apply Hu. by rewrite (pl_old _ _ _ _ _ _ _ _ Hp). }
    rewrite (pl_old _ _ _ _ _ _ _ _ Hp) in HQ. cbv zeta.
    apply twp_bind. eapply twp_some.
    { rewrite (pl_entries _ _ _ _ _ _ _ _ Hp). cbn [app]. rewrite list_lookup_middle by done. cbn [mbind option_bind].
      rewrite vec_remove_at. done. }
    cbv beta match. cbn [snd]. apply twp_bind. destruct (is_empty (e1 ++ e2)) eqn:Ee.
    + cbn [negb andb]. rewrite andb_false_r. 
      eapply (twp_gone_empty t key v N nx c id es e1 e2); try done; [by destruct (e1 ++ e2)|].
      intros t' N' nx' Hrep' Hm. by apply twp_ret, (HQ t').
    + cbn [andb]. rewrite <- Ee.
      eapply (twp_gone_keep t key v N nx c id es e1 e2); try done; [by destruct (e1 ++ e2)|].
      intros t' N' nx' Hrep' Hm. by apply twp_ret, (HQ t').
  - destruct Hpl as (e1 & e2 & -> & Hp). pose proof (pl_old _ _ _ _ _ _ _ _ Hp) as Hold. apply twp_ret.
    rewrite <- Hold. apply (HQ t); [done|]. by rewrite delete_id.
Qed.
End Delete.
