(* ===== verification/BtreeProps.v ===== *)
(** * Creating, validating and opening a tree

    [validate] walks the whole tree, compares every separator with the minimum
    it stands for and every leaf link with the order of the leaves.  A tree
    the operations maintain passes, with the counts of its report exact. *)

From S2P Require Import Prelude StorageBytes StoragePage StorageIo BtreeNode BtreeOps BtreeFuel BtreeTree BtreeStore BtreeSteps BtreeSearch BtreeInsert BtreeDelete.

Lemma last_app_right {A} (l r : list A) : r ≠ [] → last (l ++ r) = last r.
Proof. intros Hr. rewrite last_app. destruct (last r) eqn:E; [done|]. by apply last_None in E. Qed.

(** What the walk reports of a subtree of depth [n]. *)
Definition tree_info (n : nat) (t : tree) : SubtreeInfo :=
  mkInfo (Some (tmin t)) (fst <$> last (flat t)) n (length (flat t)).

Definition tree_report (n : nat) (t : tree) : ValidationReport :=
  mkValidation (length (ids t)) (length (leaves t)) (n + 1) (length (flat t)).

Lemma infos_entries n kids : sum_list (si_entries <$> (tree_info n <$> kids)) = length (flats kids).
Proof.
  induction kids as [|t kids IH]; [done|]. rewrite flats_cons, length_app, <- IH. done.
Qed.

Lemma infos_max n kids : Forall (wf n) kids → kids ≠ [] →
  last (tree_info n <$> kids) ≫= si_max = fst <$> last (flats kids).
Proof.
  intros Hw Hne. destruct kids as [|t kids _] using rev_ind; [done|]. apply Forall_app in Hw as [_ [Ht _]%Forall_cons].
  rewrite fmap_app, flats_app. cbn [fmap list_fmap]. rewrite last_snoc, flats_cons, app_nil_r. cbn [mbind option_bind si_max tree_info].
  by rewrite last_app_right by by eapply flat_nonempty.
Qed.

Lemma seps_arity kids : kids ≠ [] → (length kids = length (seps kids) + 1)%nat.
Proof. unfold seps. rewrite length_drop, length_fmap. destruct kids; [done|]. cbn [length]. lia. Qed.

(** The ranges of neighbours do not overlap. *)
Lemma check_children_ok id ix n t kids :
  Forall (wf n) (t :: kids) → ksorted (flats (t :: kids)) →
  check_children id ix (tree_info n t) (tmin <$> kids) (tree_info n <$> kids) = Ok tt.
Proof.
  revert ix t. induction kids as [|u kids IH]; intros ix t Hw Hs; [done|].
  apply Forall_cons in Hw as [Ht Hw]. rewrite flats_cons in Hs. apply StronglySorted_app in Hs as (Hlt & _ & Hs).
  rewrite !fmap_cons. cbn [check_children si_min si_max tree_info]. cbn [ok_or]. rewrite Ok_bind.
  rewrite bool_decide_eq_true_2, ensure_true, Ok_bind by done.
  assert (match fst <$> last (flat t) with Some maximum => bool_decide (cmp_lt maximum (tmin u)) | None => true end = true) as ->;
    [|rewrite ensure_true, Ok_bind; by apply IH].
  destruct (last (flat t)) as [e|] eqn:El; [|done]. cbn. apply bool_decide_eq_true.
  apply Forall_cons in Hw as [Hu _]. destruct (tmin_in _ _ Hu) as (e' & He' & <-).
  apply Hlt; [by eapply last_Some_elem_of|]. rewrite flats_cons. apply elem_of_app. by left.
Qed.

Section Validate.
Context {S : Type} {Hstore : PageStore S} {Hbase : PageBase} {Hreads : PageStoreReads S} (full big : Prop) (limit : nat) (root : Z).
Local Abbreviation twp := (twp full big).

Lemma twp_ensure b e N nx (Q : unit → gmap Z Node → Z → Prop) : b = true → Q tt N nx → twp (proc_lift (ensure b e)) N nx Q.
Proof. intros ->. apply twp_ret. Qed.

Lemma twp_check_links pr L N nx Q : chain N pr L None → Q tt N nx → twp (check_links pr L) N nx Q.
Proof.
  revert pr. induction L as [|i L IH]; intros pr Hc HQ; [by apply twp_ret|]. destruct Hc as [(p & es & Hi) Hc].
  cbn [check_links]. apply twp_bind. eapply twp_load; [done|]. rewrite <- next_of_none.
  rewrite !bool_decide_eq_true_2 by done. by apply IH.
Qed.

(** The loop over the children, given the recursive call. *)
Lemma twp_validate_children n validate (B : tree → Prop) kids infos visited order N nx
    (Q : list SubtreeInfo * gset Z * list Z → gmap Z Node → Z → Prop) :
  (∀ t vs os (Q' : SubtreeInfo * gset Z * list Z → gmap Z Node → Z → Prop),
     wf n t → ksorted (flat t) → NoDup (ids t) → B t → (∀ i, i ∈ vs → i ∉ ids t) →
     Q' (tree_info n t, list_to_set (ids t) ∪ vs, os ++ leaves t) N nx → twp (validate (tid t) vs os) N nx Q') →
  Forall B kids → Forall (wf n) kids → ksorted (flats kids) → NoDup (flat_map ids kids) →
  (∀ i, i ∈ visited → i ∉ flat_map ids kids) →
  Q (infos ++ (tree_info n <$> kids), list_to_set (flat_map ids kids) ∪ visited, order ++ flat_map leaves kids) N nx →
  twp (validate_children validate (tid <$> kids) infos visited order) N nx Q.
Proof.
  intros IH HB Hw. revert infos visited order Q. induction Hw as [|u us Hu Hw IHus]; intros infos vs os Q Hs Hnd Hv HQ.
  - cbn. apply twp_ret. cbn in HQ. rewrite union_empty_l_L, !app_nil_r in HQ. exact HQ.
  - rewrite fmap_cons. cbn [validate_children flat_map] in *. apply Forall_cons in HB as [HBu HB].
    rewrite flats_cons in Hs. apply StronglySorted_app in Hs as (_ & Hsu & Hsus). apply NoDup_app in Hnd as (Hndu & Hdis & Hndus).
    apply twp_bind. apply IH; [done|done|done|done| |].
    { intros i Hi Hiu. apply (Hv i Hi). apply elem_of_app. by left. }
    cbv beta match. apply IHus; [done|done|done| |].
    + intros i [Hi|Hi]%elem_of_union Hius; [apply elem_of_list_to_set in Hi; by apply (Hdis i)|].
      apply (Hv i Hi). apply elem_of_app. by right.
    + rewrite fmap_cons in HQ. rewrite <- !app_assoc. rewrite list_to_set_app_L in HQ.
      assert (list_to_set (flat_map ids us) ∪ (list_to_set (ids u) ∪ vs)
        = list_to_set (ids u) ∪ list_to_set (flat_map ids us) ∪ vs :> gset Z) as -> by set_solver.
      exact HQ.
Qed.

Lemma twp_validate_subtree n t p visited order fuel N nx (Q : SubtreeInfo * gset Z * list Z → gmap Z Node → Z → Prop) :
  wf n t → (n < fuel)%nat → ksorted (flat t) → NoDup (ids t) → bodies N (cells p t) →
  (∀ i, i ∈ visited → i ∉ ids t) →
  Q (tree_info n t, list_to_set (ids t) ∪ visited, order ++ leaves t) N nx →
  twp (validate_subtree root fuel (tid t) p visited order) N nx Q.
Proof.
  revert t p visited order fuel Q. induction n as [|n IH]; intros t p visited order [|fuel] Q Hw Hf Hs Hnd Hb Hv HQ; [lia| |lia|].
  - destruct t as [id es|]; [|done]. destruct (bodies_top _ _ _ Hb) as (x & Hn & Hid & Hnb).
    destruct x as [xid xp pv nx' xes|]; [|done]. cbn in Hn, Hid, Hnb. simplify_eq.
    cbn [validate_subtree tid]. rewrite decide_False by (intros Hin; apply (Hv _ Hin); left).
    apply twp_bind. eapply twp_load; [done|]. cbn [node_parent]. rewrite bool_decide_eq_true_2 by done. cbn [negb].
    rewrite flat_leaf in Hs. cbn in Hw. apply twp_bind, twp_ensure; [destruct es; [done|by rewrite orb_true_r]|].
    apply twp_bind, twp_ensure; [by rewrite ksorted_not_unordered|]. apply twp_ret.
    unfold tree_info in HQ. rewrite flat_leaf in HQ. cbn in HQ. rewrite union_empty_r_L in HQ.
    destruct es as [|e es]; [done|]. exact HQ.
  - destruct t as [|id kids]; [done|]. destruct Hw as [Hne Hw].
    destruct (bodies_top _ _ _ Hb) as (x & Hn & Hid & Hnb).
    destruct x as [|xid xp ks cs]; [done|]. cbn [tid node_id node_body top] in Hn, Hid, Hnb. simplify_eq.
    rewrite flat_node in Hs. rewrite ids_node in Hnd, Hv. apply NoDup_cons in Hnd as [Hid Hnd].
    cbn [validate_subtree tid]. rewrite decide_False by (intros Hin; apply (Hv _ Hin); left).
    apply twp_bind. eapply twp_load; [done|]. cbn [node_parent]. rewrite bool_decide_eq_true_2 by done. cbn [negb].
    apply twp_bind, twp_ensure.
    { rewrite length_fmap, <- seps_arity, Nat.eqb_refl by done. by destruct kids. }
    apply twp_bind, twp_ensure.
    { rewrite sorted_not_unordered; [done|]. unfold seps. apply StronglySorted_drop. by eapply mins_sorted. }
    apply twp_bind.
    apply (twp_validate_children n (λ child, validate_subtree root fuel child (Some id)) (λ t, bodies N (cells (Some id) t))).
    { intros u vs os Q' Hwu Hsu Hndu Hbu Hvu HQ'. apply (IH u (Some id)); [done|lia|done|done|done|done|done]. }
    { apply Forall_forall. intros u Hu. by eapply bodies_kid. }
    1-3: done.
    { intros i [->%elem_of_singleton|Hi]%elem_of_union; [done|]. intros Hin. apply (Hv i Hi). by right. }
    cbv beta match. cbn [app]. destruct kids as [|t0 kids]; [done|]. rewrite (fmap_cons (tree_info n)). cbn [si_depth tree_info].
    apply twp_bind, twp_ensure.
    { apply forallb_forall. intros i Hi. apply list_elem_of_In in Hi. rewrite <- (fmap_cons (tree_info n) t0 kids) in Hi.
      apply list_elem_of_fmap in Hi as (u & -> & _). apply Nat.eqb_refl. }
    apply twp_bind. unfold seps. rewrite fmap_cons. cbn [drop]. rewrite drop_0. rewrite check_children_ok by done. apply twp_ret.
    apply twp_ret. change (tree_info n t0 :: (tree_info n <$> kids)) with (tree_info n <$> t0 :: kids).
    rewrite infos_max, infos_entries by done.
    match goal with |- Q (?i, ?v, ?o) _ _ => match type of HQ with Q (?i', ?v', ?o') _ _ =>
      assert (i = i') as ->; [|assert (v = v') as ->; [|assert (o = o') as ->; [|exact HQ]]] end end.
    + unfold tree_info. rewrite flat_node. done.
    + rewrite ids_node. rewrite list_to_set_cons. set_solver.
    + f_equal. unfold leaves. cbn [pages]. clear. induction (t0 :: kids) as [|u us IHu]; [done|]. cbn [flat_map]. by rewrite fmap_app, IHu.
Qed.

(** A tree the store holds is valid, and the report counts it exactly. *)
Lemma twp_validate t N nx (Q : ValidationReport → gmap Z Node → Z → Prop) :
  u64_max ≤ Z.of_nat limit → rep N root t →
  (∀ n, wf n t ∨ n = 0%nat ∧ t = TLeaf root [] → Q (tree_report n t) N nx) → twp (btree_validate limit root) N nx Q.
Proof.
  intros Hlimit Hrep HQ. apply twp_nodes. intros HN. pose proof Hrep as [Hd Hroot Hs _ Ho Hc]. pose proof Ho as [Hnd _].
  unfold btree_validate. apply twp_bind. rewrite <- Hroot at 2. destruct Hd as [[n Hw]|Ht].
  - pose proof (depth_below_limit limit Hlimit _ _ _ _ _ HN Ho Hw) as Hn.
    apply (twp_validate_subtree n t None); [done|done|done|done|by apply owns_bodies|by intros i ?%elem_of_empty|].
    cbv beta match. apply twp_bind, twp_check_links; [done|]. apply twp_ret. rewrite union_empty_r_L, size_list_to_set by done.
    apply (HQ n). by left.
  - pose proof (pages_below_limit limit Hlimit _ _ _ HN Ho) as Hl.
    pose proof (rep_leaf_node limit root Hlimit N t [] root [] Hrep Ht) as Hx. specialize (HQ 0%nat (or_intror (conj eq_refl Ht))).
    subst t. cbn in Hl, Hx. destruct limit as [|limit']; [lia|]. cbn [validate_subtree tid].
    rewrite decide_False by apply not_elem_of_empty. apply twp_bind. eapply twp_load; [done|]. cbn [node_parent].
    rewrite bool_decide_eq_true_2 by done. cbn [negb]. apply twp_bind, twp_ensure; [by rewrite Z.eqb_refl|].
    apply twp_bind, twp_ensure; [done|]. apply twp_ret. cbv beta match. apply twp_bind, twp_check_links; [done|]. apply twp_ret.
    rewrite union_empty_r_L, size_singleton. exact HQ.
Qed.

Lemma twp_open t N nx (Q : Z → gmap Z Node → Z → Prop) :
  u64_max ≤ Z.of_nat limit → rep N root t → Q root N nx → twp (btree_open limit root) N nx Q.
Proof.
  intros Hlimit Hrep HQ. unfold btree_open. pose proof Hrep as [_ Hroot _ _ Ho _].
  destruct (owns_lookup _ _ _ _ Ho (tid_in_cells None t)) as (x & Hx & Hxid & Hxb). rewrite Hroot in Hx.
  apply twp_bind. eapply twp_load; [exact Hx|].
  assert (node_parent x = None) as -> by (destruct x, t; cbn in *; congruence).
  apply twp_bind, (twp_validate t); [done|done|]. intros _ _. by apply twp_ret.
Qed.
End Validate.

Lemma twp_create {S} `{PageStoreLaws S} full big N nx (Q : Z → gmap Z Node → Z → Prop) :
  full → (∀ N', rep N' nx (TLeaf nx []) → Q nx N' (nx + 1)) → twp full big btree_create N nx Q.
Proof.
  intros Hfull HQ. apply twp_nodes. intros [[Hnx _] _]. unfold btree_create. apply twp_bind, twp_allocate; [done|]. intros Hlt.
  apply twp_bind, twp_save; cbn [node_id node_size]; [|unfold allocated in *; lia|by right|].
  - apply leaf_ok; try done; try constructor; unfold id_ok, NONE_PAGE, u64_max in *; lia.
  - intros _. apply twp_ret, HQ, rep_empty.
Qed.

(** ** The B+ tree is a map

    The operations of [BPlusTree], on any page store that keeps its contract,
    are the operations of a finite map from keys to values: they return for
    every input, never find the tree malformed, and are refused only when the
    store has no page identifier left or a key or value is too large. *)

(** The entries of a tree of fixed-size keys and small values, as a map. *)
Definition small_entries (K : Z) (m : gmap bytes bytes) : Prop :=
  map_Forall (λ k v, zlen k = K ∧ entry_size (k, v) ≤ ENTRY_CAP) m.

Lemma small_entries_uniform K t : ksorted (flat t) → small_entries K (contents t) → uniform K (flat t).
Proof.
  intros Hs Hm. apply Forall_forall. intros [k v] He. apply (Hm k v).
  apply elem_of_list_to_map; [by apply ksorted_keys|done].
Qed.

Lemma contents_size t : ksorted (flat t) → size (contents t) = length (flat t).
Proof.
  intros Hs%ksorted_keys. unfold contents. rewrite <- (length_map_to_list (M := gmap bytes)).
  apply Permutation_length. by apply map_to_list_to_map.
Qed.

Lemma contents_range t start stop k v :
  ksorted (flat t) →
  (k, v) ∈ List.filter (in_range start stop) (flat t) ↔
  contents t !! k = Some v ∧ in_range start stop (k, v) = true.
Proof.
  intros Hs. rewrite list_elem_of_In, filter_In, <- list_elem_of_In. unfold contents.
  rewrite <- elem_of_list_to_map by by apply ksorted_keys. done.
Qed.

Lemma filter_sorted (f : entry → bool) es : ksorted es → ksorted (List.filter f es).
Proof.
  induction 1 as [|e es Hs IH He]; cbn; [constructor|]. destruct (f e); [|done]. constructor; [done|].
  rewrite Forall_forall in He |- *. intros x [Hx _]%list_elem_of_In%filter_In. by apply He, list_elem_of_In.
Qed.

Section Map.
Context {S : Type} {Hstore : PageStore S} {Hbase : PageBase} {Hreads : PageStoreReads S}.
Implicit Types (s : S) (m : gmap bytes bytes) (key value : bytes) (full big : Prop) (root : Z) (start : bytes) (stop : option bytes).

(** The store [s] holds a tree with root [root] and entries [m]. *)
Definition tree_map (s : S) (root : Z) (m : gmap bytes bytes) : Prop :=
  ∃ P N nx t, ps_has s P nx ∧ holds P N nx ∧ rep N root t ∧ contents t = m.

(** From a precondition on the nodes to one on the store. *)
Lemma twp_run {A} full big (o : proc S A) s root m (R : A → gmap bytes bytes → Prop) :
  tree_map s root m →
  (∀ t N nx, rep N root t → contents t = m →
     twp full big o N nx (λ a N' nx', ∃ t', rep N' root t' ∧ R a (contents t'))) →
  ∃ r s', o s = Some (r, s') ∧
    match r with
    | Ok a => ∃ m', R a m' ∧ tree_map s' root m'
    | Err e => allowed full big e ∧ ∃ P nx, ps_has s' P nx
    end.
Proof.
  intros (P & N & nx & t & Hs & HP & Hrep & Hm) Hwp. destruct (Hwp t N nx Hrep Hm s P Hs HP) as (r & s' & Ho & Hr).
  exists r, s'. split; [done|]. destruct r as [a|e]; [|done].
  destruct Hr as (P' & N' & nx' & Hs' & HP' & t' & Hrep' & HR). exists (contents t'). split; [done|].
  by exists P', N', nx', t'.
Qed.

(** Reading: nothing can go wrong. *)
Lemma twp_run_read {A} (o : proc S A) s root m (R : A → Prop) :
  tree_map s root m →
  (∀ t N nx, rep N root t → contents t = m → twp False False o N nx (λ a N' nx', rep N' root t ∧ R a)) →
  ∃ a s', o s = Some (Ok a, s') ∧ R a ∧ tree_map s' root m.
Proof.
  intros Hs Hwp. destruct (twp_run False False o s root m (λ a m', m' = m ∧ R a) Hs) as (r & s' & Ho & Hr).
  - intros t N nx Hrep <-. eapply twp_mono; [by apply Hwp|]. intros a N' nx' [? ?]. by exists t.
  - destruct r as [a|e]; [|by destruct Hr as [[[[] _]|[[] _]] _]]. destruct Hr as (m' & [-> HR] & Hm). by exists a, s'.
Qed.

Context (limit : nat) (Hlimit : u64_max ≤ Z.of_nat limit).

(** Looking a key up in a tree gives the value the map has for it, and
    always succeeds: no lookup reports a malformed tree or fails to return. *)
Theorem btree_get_refines s root m key :
  tree_map s root m →
  ∃ s', btree_get limit root key s = Some (Ok (m !! key), s') ∧ tree_map s' root m.
Proof.
  intros Hs. destruct (twp_run_read (btree_get limit root key) s root m (λ r, r = m !! key) Hs)
    as (r & s' & Ho & -> & Hs').
  - intros t N nx Hrep <-. by apply (twp_get False False limit root Hlimit t).
  - by exists s'.
Qed.

Lemma range_run s root m start stop :
  tree_map s root m →
  ∃ es s', btree_range limit root start stop s = Some (Ok es, s') ∧ tree_map s' root m ∧ ksorted es
    ∧ ∀ k v, (k, v) ∈ es ↔ m !! k = Some v ∧ in_range start stop (k, v) = true.
Proof.
  intros Hs. destruct (twp_run_read (btree_range limit root start stop) s root m
    (λ es, ksorted es ∧ ∀ k v, (k, v) ∈ es ↔ m !! k = Some v ∧ in_range start stop (k, v) = true) Hs)
    as (es & s' & Ho & [Hso Hes] & Hs').
  - intros t N nx Hrep <-. pose proof (rep_sorted _ _ _ Hrep) as Hsort. apply (twp_range False False limit root Hlimit t); [done|].
    split; [done|]. split; [by apply filter_sorted|]. intros k v. by apply contents_range.
  - by exists es, s'.
Qed.

(** A range scan returns, in key order, exactly the entries of the map with
    [start <= key] and [key < stop]; it follows the leaf links to the end
    without meeting a cycle or an internal page. *)
Theorem btree_range_refines s root m start stop :
  tree_map s root m →
  ∃ es s', btree_range limit root start stop s = Some (Ok es, s') ∧ tree_map s' root m ∧ ksorted es
    ∧ ∀ k v, (k, v) ∈ es ↔ m !! k = Some v ∧ in_range start stop (k, v) = true.
Proof. apply range_run. Qed.

Lemma validate_run s root m :
  tree_map s root m →
  ∃ report s', btree_validate limit root s = Some (Ok report, s') ∧ tree_map s' root m ∧ v_entries report = size m
    ∧ (0 < v_leaves report ≤ v_nodes report)%nat ∧ (v_height report ≤ v_nodes report)%nat.
Proof.
  intros Hs. destruct (twp_run_read (btree_validate limit root) s root m (λ report, v_entries report = size m
    ∧ (0 < v_leaves report ≤ v_nodes report)%nat ∧ (v_height report ≤ v_nodes report)%nat) Hs)
    as (r & s' & Ho & ? & Hs'); [|by exists r, s'].
  intros t N nx Hrep <-. apply (twp_validate False False limit root t); [done|done|].
  intros n Hn. split; [done|]. cbn [v_entries v_leaves v_nodes v_height tree_report].
  pose proof (submseteq_length _ _ (leaves_sublist t)) as Hsub.
  assert (0 < length (leaves t) ∧ n < length (ids t))%nat as [? ?].
  { destruct Hn as [Hw|[-> ->]]; [|cbn; lia]. split; [|by apply wf_depth]. pose proof (flat_nonempty _ _ Hw) as Hf.
    unfold leaves. rewrite length_fmap. unfold flat in Hf. destruct (pages t); [done|cbn; lia]. }
  split_and!; [by rewrite contents_size by apply Hrep|lia..].
Qed.

Lemma open_run s root m : tree_map s root m → ∃ s', btree_open limit root s = Some (Ok root, s') ∧ tree_map s' root m.
Proof.
  intros Hs. destruct (twp_run_read (btree_open limit root) s root m (λ r, r = root) Hs) as (r & s' & Ho & -> & Hs'); [|by exists s'].
  intros t N nx Hrep <-. by apply (twp_open False False limit root t).
Qed.

End Map.

Section Update.
Context {S : Type} {Hstore : PageStore S} {Hbase : PageBase} {Hlaws : PageStoreLaws S}.
Implicit Types (s : S) (m : gmap bytes bytes) (key value : bytes) (full big : Prop) (root : Z) (start : bytes) (stop : option bytes).
Context (limit : nat) (Hlimit : u64_max ≤ Z.of_nat limit).

(** What an insertion accepts. *)
Definition insertable key value : Prop :=
  key ≠ [] ∧ Forall byte_ok key ∧ Forall byte_ok value ∧ zlen key + zlen value + NODE_DATA + 4 ≤ PAGE_SIZE.

Lemma insert_run full big K s root m key value :
  full → tree_map s root m → insertable key value →
  (big ∨ small_entries K m ∧ zlen key = K ∧ entry_size (key, value) ≤ ENTRY_CAP) →
  ∃ r s', btree_insert limit root key value s = Some (r, s') ∧
    match r with
    | Ok old => old = m !! key ∧ tree_map s' root (<[key := value]> m)
    | Err e => allowed full big e ∧ ∃ P nx, ps_has s' P nx
    end.
Proof.
  intros Hfull Hs (Hne & Hk & Hv & Hsz) Huni.
  destruct (twp_run full big (btree_insert limit root key value) s root m (λ old m', old = m !! key ∧ m' = <[key := value]> m) Hs)
    as (r & s' & Ho & Hr).
  - intros t N nx Hrep <-. apply (twp_insert full big limit root K Hfull Hlimit t); try done.
    + destruct Huni as [?|(Hu & ? & ?)]; [by left|right]. split; [|done]. by apply small_entries_uniform; [apply Hrep|].
    + intros t' N' nx' Hrep' Hm. by exists t'.
  - exists r, s'. split; [done|]. destruct r as [old|e]; [|done]. by destruct Hr as (m' & [-> ->] & Hm').
Qed.

(** With room for the entry nothing is refused. *)
Lemma insert_room_run s root m key value :
  tree_map s root m → insertable key value → room m key value →
  ∃ s', btree_insert limit root key value s = Some (Ok (m !! key), s') ∧ tree_map s' root (<[key := value]> m).
Proof.
  intros Hs (Hne & Hk & Hv & Hsz) Hroom.
  destruct (twp_run False False (btree_insert limit root key value) s root m (λ old m', old = m !! key ∧ m' = <[key := value]> m) Hs)
    as (r & s' & Ho & Hr).
  - intros t N nx Hrep <-. apply (twp_insert_room False False limit root Hlimit t); try done.
    intros t' N' nx' Hrep' Hm. by exists t'.
  - destruct r as [old|e]; [|by destruct Hr as [[[[] _]|[[] _]] _]]. destruct Hr as (m' & [-> ->] & Hm'). by exists s'.
Qed.

(** A deletion puts at most one new separator into a node, for the deleted key. *)
Definition no_longer key m : Prop := is_Some (m !! key) → map_Forall (λ k _, zlen k ≤ zlen key) m.

Lemma delete_run full big s root m key :
  tree_map s root m → (big ∨ no_longer key m) →
  ∃ r s', btree_delete limit root key s = Some (r, s') ∧
    match r with
    | Ok old => old = m !! key ∧ tree_map s' root (delete key m)
    | Err e => allowed full big e ∧ ∃ P nx, ps_has s' P nx
    end.
Proof.
  intros Hs Huni.
  destruct (twp_run full big (btree_delete limit root key) s root m (λ old m', old = m !! key ∧ m' = delete key m) Hs)
    as (r & s' & Ho & Hr).
  - intros t N nx Hrep <-. apply (twp_delete full big limit root (zlen key) Hlimit t); [done| |].
    + destruct Huni as [?|Hu]; [by left|right]. intros Hk. split; [done|]. apply Forall_forall. intros [k v] He.
      apply (Hu Hk k v), elem_of_list_to_map; [by apply ksorted_keys, Hrep|done].
    + intros t' N' nx' Hrep' Hm. by exists t'.
  - exists r, s'. split; [done|]. destruct r as [old|e]; [|done]. by destruct Hr as (m' & [-> ->] & Hm').
Qed.

Lemma small_no_longer K m key : small_entries K m → no_longer key m.
Proof. intros Hm [v Hv] k w Hk. destruct (Hm _ _ Hv) as [<- _]. destruct (Hm _ _ Hk) as [<- _]. done. Qed.

(** Keys of one length and entries of at most a third of a page, the new one
    included. *)
Definition small_insert (m : gmap bytes bytes) key value : Prop :=
  ∃ K, small_entries K m ∧ zlen key = K ∧ entry_size (key, value) ≤ ENTRY_CAP.

Lemma insert_result s root m key value :
  tree_map s root m → Forall byte_ok key → Forall byte_ok value →
  ∃ r s', btree_insert limit root key value s = Some (r, s') ∧
    match r with
    | Ok old => old = m !! key ∧ tree_map s' root (<[key := value]> m)
    | Err e =>
        (insertable key value ∧ (e = ps_full ∨ too_large e) ∧ ¬ room m key value ∧ (small_insert m key value → e = ps_full))
        ∨ (¬ insertable key value ∧ s' = s ∧ ∃ b, e = KeyTooLarge b)
    end.
Proof.
  intros Hs Hk Hv. destruct (decide (key = [])) as [->|Hne].
  { eexists _, _. split; [done|]. right. split; [by intros [? _]|by eauto]. }
  destruct (decide (zlen key + zlen value + NODE_DATA + 4 ≤ PAGE_SIZE)) as [Hsz|Hsz].
  - destruct (insert_run True True 0 s root m key value I Hs ltac:(done) ltac:(by left)) as (r & s' & Ho & Hr).
    exists r, s'. split; [done|]. destruct r as [old|e]; [done|]. left. split; [done|].
    split; [by destruct Hr as [[[_ ?]|[_ ?]] _]; [left|right]|]. split.
    { intros Hroom. destruct (insert_room_run s root m key value Hs ltac:(done) Hroom) as (s2 & Ho2 & _). congruence. }
    intros (K & HK).
    destruct (insert_run True False K s root m key value I Hs ltac:(done) ltac:(by right)) as (r2 & s2 & Ho2 & Hr2).
    rewrite Ho in Ho2. injection Ho2 as <- <-. by destruct Hr2 as [[[_ ?]|[[] _]] _].
  - unfold btree_insert. assert (is_empty key = false) as -> by by destruct key.
    rewrite (proj2 (Z.ltb_lt _ _)) by lia. eexists _, _. split; [done|]. right. split; [by intros (_ & _ & _ & ?)|by eauto].
Qed.

(** C26: an insertion returns the value the map had for the key and leaves the
    tree of the updated map, leaf and node splits included.  An empty key or an
    entry larger than a page is refused with the store unchanged.  Any other
    insertion is refused only when the store has no page identifier left, or for
    a size: never when the key has a value that is not shorter or all entries fit
    one page, and for a size only when some entry takes more than a third of a
    page or the keys have different lengths.  (Of the tree such a refusal leaves
    behind nothing is claimed.) *)
Theorem btree_insert_refines s root m key value :
  tree_map s root m → Forall byte_ok key → Forall byte_ok value →
  ∃ r s', btree_insert limit root key value s = Some (r, s') ∧
    match r with
    | Ok old => old = m !! key ∧ tree_map s' root (<[key := value]> m)
    | Err e =>
        (insertable key value ∧ (e = ps_full ∨ too_large e) ∧ ¬ room m key value ∧ (small_insert m key value → e = ps_full))
        ∨ (¬ insertable key value ∧ s' = s ∧ ∃ b, e = KeyTooLarge b)
    end.
Proof. apply insert_result. Qed.

Lemma delete_result s root m key :
  tree_map s root m →
  ∃ r s', btree_delete limit root key s = Some (r, s') ∧
    match r with
    | Ok old => old = m !! key ∧ tree_map s' root (delete key m)
    | Err e => too_large e ∧ is_Some (m !! key) ∧ ∃ k v, m !! k = Some v ∧ zlen key < zlen k
    end.
Proof.
  intros Hs. destruct (delete_run False True s root m key Hs ltac:(by left)) as (r & s' & Ho & Hr).
  exists r, s'. split; [done|]. destruct r as [old|e]; [done|]. split; [by destruct Hr as [[[[] _]|[_ ?]] _]|].
  assert (¬ no_longer key m) as Hlong.
  { intros Hm. destruct (delete_run False False s root m key Hs ltac:(by right)) as (r2 & s2 & Ho2 & Hr2).
    rewrite Ho in Ho2. injection Ho2 as <- <-. by destruct Hr2 as [[[[] _]|[[] _]] _]. }
  destruct (decide (is_Some (m !! key))) as [Hk|Hk]; [|exfalso; apply Hlong; by intros ?]. split; [done|].
  destruct (decide (map_Forall (λ k _, zlen k ≤ zlen key) m)) as [Hm|Hm]; [exfalso; apply Hlong; by intros _|].
  apply map_not_Forall in Hm as (k & v & Hv & Hl); [|tc_solve]. exists k, v. split; [done|lia].
Qed.

(** C27: a deletion returns the value the map had for the key and leaves the tree
    of the map without it, emptied leaves and nodes removed and the root
    collapsed on the way.  It never needs a page.  It is refused only for the
    size of a separator that grew: only for a key the map has, in a map with a
    longer one.  (Of the tree such a refusal leaves behind nothing is claimed.) *)
Theorem btree_delete_refines s root m key :
  tree_map s root m →
  ∃ r s', btree_delete limit root key s = Some (r, s') ∧
    match r with
    | Ok old => old = m !! key ∧ tree_map s' root (delete key m)
    | Err e => too_large e ∧ is_Some (m !! key) ∧ ∃ k v, m !! k = Some v ∧ zlen key < zlen k
    end.
Proof. apply delete_result. Qed.

Lemma create_run s P nx :
  ps_has s P nx →
  ∃ r s', btree_create s = Some (r, s') ∧
    match r with Ok root => root = nx ∧ tree_map s' root ∅ | Err e => e = ps_full ∧ ∃ P' nx', ps_has s' P' nx' end.
Proof.
  intros Hs. destruct (twp_create True False ∅ nx (λ root N nx', root = nx ∧ rep N nx (TLeaf nx [])) I ltac:(done) s P Hs ltac:(done))
    as (r & s' & Ho & Hr).
  exists r, s'. split; [done|]. destruct r as [root|e]; [|by destruct Hr as [[[_ ?]|[[] _]] ?]].
  destruct Hr as (P' & N' & nx' & Hs' & HP' & -> & Hrep). split; [done|]. by exists P', N', nx', (TLeaf nx []).
Qed.

(** A new tree is the empty map, at the identifier the store allocates. *)
Theorem btree_create_empty s P nx :
  ps_has s P nx →
  ∃ r s', btree_create s = Some (r, s') ∧
    match r with Ok root => root = nx ∧ tree_map s' root ∅ | Err e => e = ps_full ∧ ∃ P' nx', ps_has s' P' nx' end.
Proof. apply create_run. Qed.

(** ** Fixed-size keys and small values *)

Inductive tree_op : Type := Put (key value : bytes) | Remove (key : bytes).

Definition run_op (root : Z) (op : tree_op) : proc S (option bytes) :=
  match op with
  | Put key value => btree_insert limit root key value
  | Remove key => btree_delete limit root key
  end.

Definition model_op m (op : tree_op) : gmap bytes bytes * option bytes :=
  match op with
  | Put key value => (<[key := value]> m, m !! key)
  | Remove key => (delete key m, m !! key)
  end.

Fixpoint run_model m (ops : list tree_op) : gmap bytes bytes * list (option bytes) :=
  match ops with
  | [] => (m, [])
  | op :: ops => let '(m, old) := model_op m op in let '(m, olds) := run_model m ops in (m, old :: olds)
  end.

Definition small_op (K : Z) (op : tree_op) : Prop :=
  match op with
  | Put key value => Forall byte_ok key ∧ Forall byte_ok value ∧ zlen key = K ∧ entry_size (key, value) ≤ ENTRY_CAP
  | Remove _ => True
  end.

Lemma small_entries_op K m op : small_op K op → small_entries K m → small_entries K (model_op m op).1.
Proof.
  destruct op as [key value|key]; cbn.
  - intros (_ & _ & ? & ?) Hm. by apply map_Forall_insert_2.
  - intros _ Hm. by apply map_Forall_delete.
Qed.

Lemma small_insertable K key value : 0 < K →
  Forall byte_ok key → Forall byte_ok value → zlen key = K → entry_size (key, value) ≤ ENTRY_CAP → insertable key value.
Proof.
  clear limit Hlimit. intros HK Hk Hv Hl Hsz. split_and!; [intros ->; change (zlen []) with 0 in Hl; lia|done|done|]. unfold entry_size, fst, snd in Hsz.
  change ENTRY_CAP with 1333 in Hsz. change PAGE_SIZE with 4096. change NODE_DATA with 96. lia.
Qed.

(** C8: with keys of one size and entries of at most a third of a page, any
    sequence of insertions and deletions behaves as on a map, answers included:
    no operation is ever refused for a size, so the store running out of page
    identifiers is the only failure there is. *)
Theorem btree_run_small K s root m ops :
  0 < K → tree_map s root m → small_entries K m → Forall (small_op K) ops →
  ∃ r s', proc_mapM (run_op root) ops s = Some (r, s') ∧
    match r with
    | Ok olds => olds = (run_model m ops).2 ∧ tree_map s' root (run_model m ops).1
    | Err e => e = ps_full
    end.
Proof.
  intros HK Hs Hm Hops. revert s m Hs Hm. induction Hops as [|op ops Hop _ IH]; intros s m Hs Hm; [by eexists _, _|].
  assert (∃ r s', run_op root op s = Some (r, s') ∧
    match r with Ok old => old = (model_op m op).2 ∧ tree_map s' root (model_op m op).1 | Err e => e = ps_full end)
    as (r & s' & Ho & Hr).
  { destruct op as [key value|key]; cbn in Hop |- *.
    - destruct Hop as (Hk & Hv & Hl & Hsz).
      destruct (insert_run True False K s root m key value I Hs) as (r & s' & Ho & Hr); [by apply (small_insertable K)|by right|].
      exists r, s'. split; [done|]. destruct r as [|e]; [done|]. by destruct Hr as [[[_ ?]|[[] _]] _].
    - destruct (delete_run True False s root m key Hs) as (r & s' & Ho & Hr); [right; by apply (small_no_longer K)|].
      exists r, s'. split; [done|]. destruct r as [|e]; [done|]. by destruct Hr as [[[_ ?]|[[] _]] _]. }
  cbn [proc_mapM run_model]. unfold mbind at 1, proc_bind at 1. rewrite Ho.
  destruct r as [old|e]; [|by eexists _, _]. destruct Hr as [-> Hs'].
  destruct (IH s' (model_op m op).1 Hs' (small_entries_op K m op Hop Hm)) as (r & s'' & Ho' & Hr').
  destruct (model_op m op) as [m1 old1]. cbn [fst snd] in *. destruct (run_model m1 ops) as [m2 olds].
  unfold mbind, proc_bind. rewrite Ho'. destruct r as [l|e]; [|by eexists _, _]. eexists _, _. split; [done|].
  destruct Hr' as [-> ?]. done.
Qed.

(** ** Validation *)

Definition op_bytes (op : tree_op) : Prop :=
  match op with Put key value => Forall byte_ok key ∧ Forall byte_ok value | Remove _ => True end.

(** Operations that all succeed, of whatever sizes. *)
Lemma ops_succeeded root ops s m olds s' :
  tree_map s root m → Forall op_bytes ops → proc_mapM (run_op root) ops s = Some (Ok olds, s') →
  olds = (run_model m ops).2 ∧ tree_map s' root (run_model m ops).1.
Proof.
  intros Hs Hops. revert s m olds Hs. induction Hops as [|op ops Hop _ IH]; intros s m olds Hs; [by intros [= <- <-]|].
  assert (∃ r s1, run_op root op s = Some (r, s1) ∧
    match r with Ok old => old = (model_op m op).2 ∧ tree_map s1 root (model_op m op).1 | Err e => True end)
    as (r & s1 & Ho & Hr).
  { destruct op as [key value|key]; cbn in Hop |- *.
    - destruct (insert_result s root m key value Hs (proj1 Hop) (proj2 Hop)) as (r & s1 & Ho & Hr).
      exists r, s1. split; [done|]. by destruct r.
    - destruct (delete_result s root m key Hs) as (r & s1 & Ho & Hr). exists r, s1. split; [done|]. by destruct r. }
  cbn [proc_mapM run_model]. unfold mbind at 1, proc_bind at 1. rewrite Ho. destruct r as [old|e]; [|done]. destruct Hr as [-> Hs1].
  unfold mbind, proc_bind. destruct (proc_mapM (run_op root) ops s1) as [[[l|e] s2]|] eqn:Hrest; [|done..]. intros [= <- <-].
  destruct (IH s1 (model_op m op).1 l Hs1 Hrest) as [-> Ht]. destruct (model_op m op) as [m1 old1]. cbn [fst snd] in *.
  by destruct (run_model m1 ops).
Qed.

(** C33: [validate] accepts what the operations build.  After [create] and any
    sequence of insertions and deletions that all succeeded, whatever their
    sizes, the answers were those of a map, [validate] walks the whole tree
    without a complaint and counts exactly the entries of that map, and [open] of
    the root succeeds.  (After an operation that was refused nothing is claimed.) *)
Theorem btree_validate_accepts s P nx root s0 ops olds s' :
  ps_has s P nx → btree_create s = Some (Ok root, s0) →
  Forall op_bytes ops → proc_mapM (run_op root) ops s0 = Some (Ok olds, s') →
  olds = (run_model ∅ ops).2
  ∧ (∃ report s'', btree_validate limit root s' = Some (Ok report, s'') ∧ v_entries report = size (run_model ∅ ops).1
       ∧ (0 < v_leaves report ≤ v_nodes report)%nat ∧ (v_height report ≤ v_nodes report)%nat)
  ∧ ∃ s'', btree_open limit root s' = Some (Ok root, s'').
Proof.
  intros Hs Hc Hops Hrun. destruct (create_run s P nx Hs) as (r & s1 & Hc' & Hr). rewrite Hc in Hc'. injection Hc' as <- <-.
  destruct Hr as [-> Ht]. destruct (ops_succeeded _ _ _ _ _ _ Ht Hops Hrun) as [-> Ht']. split; [done|]. split.
  - destruct (validate_run limit Hlimit s' nx _ Ht') as (report & s'' & Hv & _ & Hsz & ?). by exists report, s''.
  - destruct (open_run limit Hlimit s' nx _ Ht') as (s'' & Ho & _). by exists s''.
Qed.
End Update.

(** ** A tree of three pages *)

#[local] Instance demo_base : PageBase := 2.

Definition pages_limit : nat := Z.to_nat u64_max.

Lemma pages_limit_ok : u64_max ≤ Z.of_nat pages_limit.
Proof. unfold pages_limit. rewrite Z2Nat.id; [done|]. unfold u64_max. lia. Qed.

(** Saving nodes with distinct identifiers stores all of them. *)
Lemma twp_saves {S} `{PageStoreLaws S} (l : list Node) N nx :
  Forall (λ n, node_ok n ∧ allocated nx (node_id n) ∧ node_size n ≤ NODE_CAP) l → NoDup (node_id <$> l) →
  twp False False (proc_each save_node l) N nx (λ _ N' _, Forall (λ n, N' !! node_id n = Some n) l).
Proof.
  intros Hl Hnd.
  enough (twp False False (proc_each save_node l) N nx (λ _ N' _, Forall (λ n, N' !! node_id n = Some n) l
    ∧ ∀ i, i ∉ (node_id <$> l) → N' !! i = N !! i)) as Hwp.
  { eapply twp_mono; [exact Hwp|]. by intros ? ? ? [? _]. }
  revert N Hnd. induction Hl as [|n l (Hok & Hlt & Hsz) _ IH]; intros N Hnd; [by apply twp_ret|].
  rewrite fmap_cons in Hnd. apply NoDup_cons in Hnd as [Hn Hnd]. cbn [proc_each]. apply twp_bind, twp_save; [done|done|by right|].
  intros _. eapply twp_mono; [by apply IH|]. intros _ N' _ [Hf Hsame]. split.
  - constructor; [|done]. by rewrite Hsame, lookup_insert_eq.
  - rewrite fmap_cons. intros i [? ?]%not_elem_of_cons. by rewrite Hsame, lookup_insert_ne.
Qed.

Definition demo_left : list entry := [([1; 1], [10]); ([1; 2], [20; 21])].
Definition demo_right : list entry := [([2; 0], [30])].
Definition demo_map : gmap bytes bytes := list_to_map (demo_left ++ demo_right).
Definition demo_nodes : list Node :=
  [Internal 2 None [[2; 0]] [3; 4]; Leaf 3 (Some 2) None (Some 4) demo_left; Leaf 4 (Some 2) (Some 3) None demo_right].

Definition demo_store : MemoryPageState :=
  match proc_each save_node demo_nodes (mkMemoryPages ∅ 5) with
  | Some (_, s) => s
  | None => MemoryPageStore.new
  end.

Lemma demo_sorted : ksorted (demo_left ++ demo_right).
Proof. repeat constructor. Qed.
Lemma demo_bytes : Forall entry_ok (demo_left ++ demo_right).
Proof. repeat constructor; unfold byte_ok; cbn; lia. Qed.

Lemma demo_rep N :
  Forall (λ n, N !! node_id n = Some n) demo_nodes → rep N 2 (TNode 2 [TLeaf 3 demo_left; TLeaf 4 demo_right]).
Proof.
  unfold demo_nodes. intros HN. rewrite !Forall_cons in HN. cbn [node_id] in HN. destruct HN as (H2 & H3 & H4 & _). split.
  - left. exists 1%nat. by repeat constructor.
  - done.
  - exact demo_sorted.
  - exact demo_bytes.
  - split; [apply (bool_decide_unpack _); by vm_compute|]. cbn. repeat (constructor; [by eexists|]). constructor.
  - cbn. split_and!; [by eexists _, _..|done].
Qed.

Lemma demo_node_ok : Forall (λ n, node_ok n ∧ allocated 5 (node_id n) ∧ node_size n ≤ NODE_CAP) demo_nodes.
Proof.
  repeat constructor; cbn; unfold id_ok, NONE_PAGE, byte_ok; try lia; try done.
Qed.

Lemma demo_tree : tree_map demo_store 2 demo_map.
Proof.
  destruct (twp_saves demo_nodes ∅ 5 demo_node_ok ltac:(apply (bool_decide_unpack _); by vm_compute) (mkMemoryPages ∅ 5) ∅) as (r & s' & Ho & Hr); [done|done|].
  unfold demo_store. rewrite Ho. destruct r as [[]|e]; [|by destruct Hr as [[[[] _]|[[] _]] _]].
  destruct Hr as (P' & N' & nx' & Hs & HP & HN). exists P', N', nx', (TNode 2 [TLeaf 3 demo_left; TLeaf 4 demo_right]).
  split_and!; [done|done|by apply demo_rep|done].
Qed.

Lemma demo_small : small_entries 2 demo_map.
Proof.
  unfold demo_map. intros k v Hv. apply elem_of_list_to_map in Hv; [|by apply (bool_decide_unpack _); vm_compute].
  assert (Forall (λ e : entry, zlen e.1 = 2 ∧ entry_size e ≤ ENTRY_CAP) (demo_left ++ demo_right)) as Hall
    by (repeat constructor; by vm_compute).
  rewrite Forall_forall in Hall. exact (Hall _ Hv).
Qed.

Lemma btree_get_refines_witness :
  ∃ s', btree_get pages_limit 2 [1; 2] demo_store = Some (Ok (Some [20; 21]), s') ∧ tree_map s' 2 demo_map.
Proof.
  destruct (btree_get_refines pages_limit pages_limit_ok demo_store 2 demo_map [1; 2] demo_tree) as (s' & Ho & Hs).
  exists s'. split; [exact Ho|exact Hs].
Defined.

Lemma btree_range_refines_witness :
  ∃ es s', btree_range pages_limit 2 [1; 2] (Some [2; 0]) demo_store = Some (Ok es, s') ∧ ([1; 2], [20; 21]) ∈ es.
Proof.
  destruct (btree_range_refines pages_limit pages_limit_ok demo_store 2 demo_map [1; 2] (Some [2; 0]) demo_tree)
    as (es & s' & Ho & _ & _ & Hes).
  exists es, s'. split; [exact Ho|]. apply Hes. by split; vm_compute.
Defined.

(** A run that splits a leaf. *)
Definition wide (n : Z) : bytes := replicate (Z.to_nat n) 7.
Definition built_ops : list tree_op := [Put [1] (wide 1900); Put [5] (wide 1900); Put [3] (wide 1900); Remove [5]].
Definition created : MemoryPageState := match btree_create MemoryPageStore.new with Some (_, s) => s | None => MemoryPageStore.new end.
Definition built : MemoryPageState :=
  match proc_mapM (run_op 20 2) built_ops created with Some (_, s) => s | None => created end.

Lemma built_run : proc_mapM (run_op pages_limit 2) built_ops created = Some (Ok [None; None; None; Some (wide 1900)], built).
Proof.
  assert (20 ≤ pages_limit)%nat as Hl by (pose proof pages_limit_ok as H; revert H; generalize pages_limit; unfold u64_max; lia).
  refine (le_mapM (run_op 20 2) (run_op pages_limit 2) built_ops _ created _ _); [|by vm_compute].
  intros [key value|key]; [by apply le_insert|by apply le_delete].
Qed.

Lemma btree_validate_accepts_witness :
  ∃ report s', btree_validate pages_limit 2 built = Some (Ok report, s') ∧ v_entries report = 2%nat.
Proof.
  destruct (btree_validate_accepts (Hlaws := memory_page_laws) pages_limit pages_limit_ok MemoryPageStore.new ∅ 2 2 created
    built_ops [None; None; None; Some (wide 1900)] built) as (_ & (report & s' & Ho & Hsz & _) & _).
  - done.
  - by vm_compute.
  - repeat constructor; apply (bool_decide_unpack _); by vm_compute.
  - exact built_run.
  - exists report, s'. split; [exact Ho|]. rewrite Hsz. by vm_compute.
Defined.

(** An insertion within the size limit that is refused half way: the right
    neighbour of the leaf already links to the page that was never written, and
    neither [validate] nor [open] accept the tree any more. *)
Definition chained : MemoryPageState :=
  match proc_mapM (run_op 20 2) [Put [1] (wide 1900); Put [5] (wide 1900); Put [3] (wide 1900); Put [9] (wide 1900); Put [2] (wide 1900)]
    created with Some (_, s) => s | None => created end.
Definition refused : option (result StorageError (option bytes) * MemoryPageState) := btree_insert 20 2 [1; 5] (wide 2500) chained.
Definition fails {A} (r : option (result StorageError A * MemoryPageState)) : bool :=
  match r with Some (Err _, _) => true | _ => false end.

Example refused_insert_breaks_links :
  fails (btree_validate 20 2 chained) = false
  ∧ (fst <$> refused) = Some (Err (KeyTooLarge 4411))
  ∧ fails (btree_validate 20 2 (default chained (snd <$> refused))) = true
  ∧ fails (btree_open 20 2 (default chained (snd <$> refused))) = true.
Proof. by vm_compute. Qed.

Lemma btree_insert_refines_witness :
  ∃ r s', btree_insert pages_limit 2 [1; 2] [9] demo_store = Some (r, s') ∧
    (∀ old, r = Ok old → old = Some [20; 21] ∧ tree_map s' 2 (<[[1; 2] := [9]]> demo_map)).
Proof.
  destruct (btree_insert_refines (Hlaws := memory_page_laws) pages_limit pages_limit_ok demo_store 2 demo_map [1; 2] [9] demo_tree) as (r & s' & Ho & Hr).
  1-2: repeat constructor; unfold byte_ok; lia.
  exists r, s'. split; [exact Ho|]. intros old ->. exact Hr.
Defined.

Lemma btree_delete_refines_witness :
  ∃ r s', btree_delete pages_limit 2 [2; 0] demo_store = Some (r, s') ∧
    (∀ old, r = Ok old → old = Some [30] ∧ tree_map s' 2 (delete [2; 0] demo_map)).
Proof.
  destruct (btree_delete_refines (Hlaws := memory_page_laws) pages_limit pages_limit_ok demo_store 2 demo_map [2; 0] demo_tree) as (r & s' & Ho & Hr).
  exists r, s'. split; [exact Ho|]. intros old ->. exact Hr.
Defined.

Lemma btree_create_empty_witness :
  ∃ r s', btree_create MemoryPageStore.new = Some (r, s') ∧ (∀ root, r = Ok root → root = 2 ∧ tree_map s' 2 ∅).
Proof.
  destruct (btree_create_empty MemoryPageStore.new ∅ 2) as (r & s' & Ho & Hr); [done|].
  exists r, s'. split; [exact Ho|]. intros root ->. destruct Hr as [-> Hr]. split; [reflexivity|exact Hr].
Defined.

Lemma btree_run_small_witness :
  let ops := [Put [3; 3] [1]; Remove [2; 0]; Remove [2; 0]] in
  ∃ r s', proc_mapM (run_op pages_limit 2) ops demo_store = Some (r, s') ∧
    (∀ olds, r = Ok olds → olds = [None; Some [30]; None]).
Proof.
  intros ops. destruct (btree_run_small (Hlaws := memory_page_laws) pages_limit pages_limit_ok 2 demo_store 2 demo_map ops) as (r & s' & Ho & Hr).
  - lia.
  - exact demo_tree.
  - exact demo_small.
  - repeat constructor; try (unfold byte_ok; lia); try (vm_compute; congruence).
  - exists r, s'. split; [exact Ho|]. intros olds ->. destruct Hr as [-> _]. by vm_compute.
Defined.
