(* ===== verification/SqlAst.v ===== *)
(** * SQL syntax trees and diagnostics: [crates/aster-sql/src/ast.rs], [lib.rs]

    A [Spanned<T>] is its value with the byte range it came from.  The source
    text is the list of its characters, each a Unicode scalar value; byte
    positions count their UTF-8 widths.  What the standard library takes from
    the Unicode tables for characters outside ASCII is a parameter. *)

From Stdlib Require Import Ascii String.
From S2P Require Import Prelude CoreTypes.

(** ** Characters *)

Class UnicodeTables := {
  unicode_alphabetic : Z → bool;
  unicode_numeric : Z → bool;
  unicode_white_space : Z → bool;
  (** the characters outside ASCII that [{:?}] writes as an escape *)
  unicode_escaped : Z → bool
}.

(** [char] of the source: code points without surrogates. *)
Definition char_ok (c : Z) : Prop := 0 ≤ c < 55296 ∨ 57344 ≤ c < 1114112.

Definition len_utf8 (c : Z) : Z :=
  if c <? 128 then 1 else if c <? 2048 then 2 else if c <? 65536 then 3 else 4.

Definition encode_utf8 (c : Z) : bytes :=
  if c <? 128 then [c]
  else if c <? 2048 then [192 + c / 64; 128 + c mod 64]
  else if c <? 65536 then [224 + c / 4096; 128 + c / 64 mod 64; 128 + c mod 64]
  else [240 + c / 262144; 128 + c / 4096 mod 64; 128 + c / 64 mod 64; 128 + c mod 64].

(** The [String] that holds these characters, and [str::len]. *)
Definition string_of_chars (l : list Z) : string := string_of_bytes (l ≫= encode_utf8).
Definition str_len (l : list Z) : Z := foldr (λ c n, len_utf8 c + n) 0 l.

(** The characters of an ASCII string. *)
Definition chars (s : string) : list Z := as_bytes s.
Definition ch (a : ascii) : Z := byte_of_ascii a.

Section Chars.
Context `{UnicodeTables}.

Definition is_ascii_digit (c : Z) : bool := between 48 57 c.
Definition is_ascii_hexdigit (c : Z) : bool := between 48 57 c || between 65 70 c || between 97 102 c.
Definition is_ascii_alphabetic (c : Z) : bool := between 65 90 c || between 97 122 c.

Definition is_alphabetic (c : Z) : bool :=
  is_ascii_alphabetic c || ((127 <? c) && unicode_alphabetic c).
Definition is_numeric (c : Z) : bool := is_ascii_digit c || ((127 <? c) && unicode_numeric c).
Definition is_alphanumeric (c : Z) : bool := is_alphabetic c || is_numeric c.
Definition is_whitespace (c : Z) : bool :=
  (c =? 32) || between 9 13 c || ((127 <? c) && unicode_white_space c).
End Chars.

(** ** Spans and errors *)

Record Span : Type := mkSpan { sp_start : Z; sp_end : Z }.

Definition span_default : Span := mkSpan 0 0.
Definition span_join (self other : Span) : Span := mkSpan (sp_start self) (sp_end other).

Inductive SqlErrorKind : Type :=
| LexError | ParseError | BindError | SqlTypeError | ConstraintError | UnsupportedError.

Record SqlError : Type := mkSqlError {
  se_kind : SqlErrorKind;
  se_message : string;
  se_span : Span
}.

Abbreviation sqlresult := (result SqlError).

Definition unsupported (message : string) (span : Span) : SqlError :=
  mkSqlError UnsupportedError message span.

#[export] Instance Span_eq_dec : EqDecision Span.
Proof. solve_decision. Defined.
#[export] Instance SqlErrorKind_eq_dec : EqDecision SqlErrorKind.
Proof. solve_decision. Defined.
#[export] Instance SqlError_eq_dec : EqDecision SqlError.
Proof. solve_decision. Defined.

Definition SqlErrorKind_debug (k : SqlErrorKind) : string :=
  match k with
  | LexError => "Lex" | ParseError => "Parse" | BindError => "Bind" | SqlTypeError => "Type"
  | ConstraintError => "Constraint" | UnsupportedError => "Unsupported"
  end.

Definition SqlError_to_string (e : SqlError) : string :=
  SqlErrorKind_debug (se_kind e) +:+ " error at bytes " +:+ pretty (sp_start (se_span e)) +:+ ".."
  +:+ pretty (sp_end (se_span e)) +:+ ": " +:+ se_message e.

(** ** Identifiers *)

Record Ident : Type := mkIdent {
  id_value : string;
  id_quoted : bool;
  id_span : Span
}.

Definition ident_matches (self : Ident) (candidate : string) : bool :=
  if id_quoted self then bool_decide (id_value self = candidate)
  else eq_ignore_ascii_case (id_value self) candidate.

Definition canonical (self : Ident) : string :=
  if id_quoted self then id_value self else to_ascii_lowercase (id_value self).

(** [value.replace(q, qq)] for a one-byte [q]. *)
Fixpoint double_char (q : ascii) (s : string) : string :=
  match s with
  | EmptyString => EmptyString
  | String a s => if Ascii.eqb a q then String a (String a (double_char q s)) else String a (double_char q s)
  end.

Definition dquote : ascii := "034"%char.
Definition squote : ascii := "'"%char.

Definition Ident_to_string (self : Ident) : string :=
  if id_quoted self then
    String dquote (double_char dquote (id_value self)) +:+ String dquote EmptyString
  else id_value self.

(** ** Expressions *)

Inductive SqlUnaryOp : Type := SqlNot | SqlNegate.

Inductive SqlBinaryOp : Type :=
| SqlOr | SqlAnd | SqlEq | SqlNotEq | SqlLt | SqlLtEq | SqlGt | SqlGtEq.

Definition is_comparison (self : SqlBinaryOp) : bool :=
  match self with
  | SqlEq | SqlNotEq | SqlLt | SqlLtEq | SqlGt | SqlGtEq => true
  | SqlOr | SqlAnd => false
  end.

Inductive AggregateFunction : Type := AggCount | AggSum | AggMin | AggMax.

#[export] Instance SqlUnaryOp_eq_dec : EqDecision SqlUnaryOp.
Proof. solve_decision. Defined.
#[export] Instance SqlBinaryOp_eq_dec : EqDecision SqlBinaryOp.
Proof. solve_decision. Defined.
#[export] Instance AggregateFunction_eq_dec : EqDecision AggregateFunction.
Proof. solve_decision. Defined.

(** [Spanned<ExprKind>]; an aggregate over [*] and one over an expression. *)
Inductive SqlExpr : Type :=
| XLiteral (value : Value) (span : Span)
| XParameter (index : Z) (span : Span)
| XColumn (qualifier : option Ident) (name : Ident) (span : Span)
| XUnary (op : SqlUnaryOp) (expr : SqlExpr) (span : Span)
| XBinary (left_ : SqlExpr) (op : SqlBinaryOp) (right_ : SqlExpr) (span : Span)
| XIsNull (expr : SqlExpr) (negated : bool) (span : Span)
| XAggregateStar (function : AggregateFunction) (span : Span)
| XAggregate (function : AggregateFunction) (argument : SqlExpr) (span : Span).

Definition x_span (e : SqlExpr) : Span :=
  match e with
  | XLiteral _ s | XParameter _ s | XColumn _ _ s | XUnary _ _ s | XBinary _ _ _ s | XIsNull _ _ s
  | XAggregateStar _ s | XAggregate _ _ s => s
  end.

(** [expr.span = span] *)
Definition x_set_span (e : SqlExpr) (s : Span) : SqlExpr :=
  match e with
  | XLiteral v _ => XLiteral v s
  | XParameter i _ => XParameter i s
  | XColumn q n _ => XColumn q n s
  | XUnary op e _ => XUnary op e s
  | XBinary l op r _ => XBinary l op r s
  | XIsNull e n _ => XIsNull e n s
  | XAggregateStar f _ => XAggregateStar f s
  | XAggregate f a _ => XAggregate f a s
  end.

(** ** Statements *)

Record ColumnDef : Type := mkColumnDef {
  cd_name : Ident;
  cd_data_type : DataType;
  cd_nullable : bool;
  cd_primary_key : bool;
  cd_span : Span
}.

Record TableSource : Type := mkTableSource {
  ts_name : Ident;
  ts_alias : option Ident;
  ts_span : Span
}.

Record Join : Type := mkJoin {
  j_right : TableSource;
  j_on : SqlExpr;
  j_span : Span
}.

Inductive OrderDirection : Type := Asc | Desc.

Inductive SelectItem : Type :=
| Wildcard (span : Span)
| SelectExpr (expr : SqlExpr) (alias : option Ident).

Record Select : Type := mkSelect {
  sel_projection : list SelectItem;
  sel_from : TableSource;
  sel_joins : list Join;
  sel_selection : option SqlExpr;
  sel_group_by : list SqlExpr;
  sel_order_by : list (SqlExpr * OrderDirection);
  sel_limit : option SqlExpr
}.

Inductive SqlStatement : Type :=
| StCreateTable (name : Ident) (columns : list ColumnDef)
| StCreateIndex (name table column : Ident)
| StInsert (table : Ident) (columns : option (list Ident)) (values : list SqlExpr)
| StUpdate (table : Ident) (assignments : list (Ident * SqlExpr)) (selection : option SqlExpr)
| StDelete (table : Ident) (selection : option SqlExpr)
| StSelect (select : Select)
| StBegin
| StCommit
| StRollback
| StExplain (inner : SqlStatement) (span : Span).
