(* ===== verification/SqlLexer.v ===== *)
(** * The SQL lexer: [crates/aster-sql/src/lexer.rs] *)

From Stdlib Require Import Ascii String.
From S2P Require Import Prelude CoreTypes SqlAst.

Inductive Keyword : Type :=
| KAnd | KAs | KAsc | KBegin | KBool | KBy | KCommit | KCount | KCreate | KDelete | KDesc | KExplain
| KFalse | KFrom | KGroup | KIndex | KInner | KInsert | KInt64 | KInto | KIs | KJoin | KKey | KLimit
| KMax | KMin | KNot | KNull | KOn | KOr | KOrder | KPrimary | KRollback | KSelect | KSet | KSum
| KTable | KText | KTransaction | KTrue | KUnique | KUpdate | KValues | KWhere | KBytes.

#[export] Instance Keyword_eq_dec : EqDecision Keyword.
Proof. solve_decision. Defined.

(** The arms of [Keyword::from_identifier], with the [Debug] name. *)
Definition keyword_table : list (string * Keyword * string) :=
  [("AND", KAnd, "And"); ("AS", KAs, "As"); ("ASC", KAsc, "Asc"); ("BEGIN", KBegin, "Begin");
   ("BOOL", KBool, "Bool"); ("BY", KBy, "By"); ("COMMIT", KCommit, "Commit"); ("COUNT", KCount, "Count");
   ("CREATE", KCreate, "Create"); ("DELETE", KDelete, "Delete"); ("DESC", KDesc, "Desc");
   ("EXPLAIN", KExplain, "Explain"); ("FALSE", KFalse, "False"); ("FROM", KFrom, "From");
   ("GROUP", KGroup, "Group"); ("INDEX", KIndex, "Index"); ("INNER", KInner, "Inner");
   ("INSERT", KInsert, "Insert"); ("INT64", KInt64, "Int64"); ("INTO", KInto, "Into"); ("IS", KIs, "Is");
   ("JOIN", KJoin, "Join"); ("KEY", KKey, "Key"); ("LIMIT", KLimit, "Limit"); ("MAX", KMax, "Max");
   ("MIN", KMin, "Min"); ("NOT", KNot, "Not"); ("NULL", KNull, "Null"); ("ON", KOn, "On"); ("OR", KOr, "Or");
   ("ORDER", KOrder, "Order"); ("PRIMARY", KPrimary, "Primary"); ("ROLLBACK", KRollback, "Rollback");
   ("SELECT", KSelect, "Select"); ("SET", KSet, "Set"); ("SUM", KSum, "Sum"); ("TABLE", KTable, "Table");
   ("TEXT", KText, "Text"); ("TRANSACTION", KTransaction, "Transaction"); ("TRUE", KTrue, "True");
   ("UNIQUE", KUnique, "Unique"); ("UPDATE", KUpdate, "Update"); ("VALUES", KValues, "Values");
   ("WHERE", KWhere, "Where"); ("BYTES", KBytes, "Bytes")]%string.

Definition ascii_upper (a : ascii) : ascii :=
  let b := byte_of_ascii a in
  if between 97 122 b then ascii_of_byte (b - 32) else a.

Fixpoint to_ascii_uppercase (s : string) : string :=
  match s with
  | EmptyString => EmptyString
  | String a s => String (ascii_upper a) (to_ascii_uppercase s)
  end.

Definition from_identifier (value : string) : option Keyword :=
  (λ e, e.1.2) <$> find (λ e, bool_decide (e.1.1 = to_ascii_uppercase value)) keyword_table.

Definition Keyword_debug (k : Keyword) : string :=
  default ""%string (snd <$> find (λ e, bool_decide (e.1.2 = k)) keyword_table).

Inductive TokenKind : Type :=
| TIdentifier (value : string) (quoted : bool)
| TKeyword (keyword : Keyword)
| TLiteral (value : Value)
| TParameter
| TLeftParen | TRightParen | TComma | TDot | TStar | TSemicolon
| TEq | TNotEq | TLt | TLtEq | TGt | TGtEq | TMinus | TEof.

#[export] Instance TokenKind_eq_dec : EqDecision TokenKind.
Proof. solve_decision. Defined.

Record Token : Type := mkToken { tk_kind : TokenKind; tk_span : Span }.

(** ** [{:?}] of a token kind *)

Definition hex_digit (d : Z) : ascii := ascii_of_byte (if d <? 10 then 48 + d else 87 + d).

Fixpoint hex_digits (fuel : nat) (n : Z) (acc : string) : string :=
  match fuel with
  | O => acc
  | S fuel =>
      let acc := String (hex_digit (n mod 16)) acc in
      if n / 16 =? 0 then acc else hex_digits fuel (n / 16) acc
  end.

(** The decoding [str::chars] does, on valid UTF-8. *)
Fixpoint chars_of_bytes (fuel : nat) (l : bytes) : list Z :=
  match fuel with
  | O => []
  | S fuel =>
      match l with
      | [] => []
      | a :: l =>
          if a <? 128 then a :: chars_of_bytes fuel l
          else match l with
          | [] => []
          | b :: l =>
              if a <? 224 then ((a - 192) * 64 + (b - 128)) :: chars_of_bytes fuel l
              else match l with
              | [] => []
              | c :: l =>
                  if a <? 240 then ((a - 224) * 4096 + (b - 128) * 64 + (c - 128)) :: chars_of_bytes fuel l
                  else match l with
                  | [] => []
                  | d :: l =>
                      ((a - 240) * 262144 + (b - 128) * 4096 + (c - 128) * 64 + (d - 128)) :: chars_of_bytes fuel l
                  end
              end
          end
      end
  end.

Definition str_chars (s : string) : list Z :=
  let l := as_bytes s in chars_of_bytes (length l) l.

Section Lexer.
Context `{UnicodeTables}.

(** [char::escape_debug_ext] as [str]'s [Debug] uses it. *)
Definition escape_debug (c : Z) : string :=
  if c =? 0 then "\0"
  else if c =? 9 then "\t"
  else if c =? 10 then "\n"
  else if c =? 13 then "\r"
  else if c =? 92 then "\\"
  else if c =? 34 then String "\" (String dquote EmptyString)
  else if (c <? 32) || (c =? 127) || ((127 <? c) && unicode_escaped c) then
    "\u{" +:+ hex_digits 6 c EmptyString +:+ "}"
  else string_of_chars [c].

Definition str_debug (s : string) : string :=
  String dquote (foldr (λ c r, escape_debug c +:+ r) (String dquote EmptyString) (str_chars s)).

Definition bool_debug (b : bool) : string := if b then "true" else "false".

Fixpoint list_debug (l : list Z) : string :=
  match l with
  | [] => ""
  | [x] => pretty x
  | x :: l => pretty x +:+ ", " +:+ list_debug l
  end.

Definition Value_debug (v : Value) : string :=
  match v with
  | VNull => "Null"
  | VInt64 z => "Int64(" +:+ pretty z +:+ ")"
  | VBool b => "Bool(" +:+ bool_debug b +:+ ")"
  | VText s => "Text(" +:+ str_debug s +:+ ")"
  | VBytes l => "Bytes([" +:+ list_debug l +:+ "])"
  end.

Definition TokenKind_debug (k : TokenKind) : string :=
  match k with
  | TIdentifier value quoted =>
      "Identifier { value: " +:+ str_debug value +:+ ", quoted: " +:+ bool_debug quoted +:+ " }"
  | TKeyword k => "Keyword(" +:+ Keyword_debug k +:+ ")"
  | TLiteral v => "Literal(" +:+ Value_debug v +:+ ")"
  | TParameter => "Parameter" | TLeftParen => "LeftParen" | TRightParen => "RightParen"
  | TComma => "Comma" | TDot => "Dot" | TStar => "Star" | TSemicolon => "Semicolon" | TEq => "Eq"
  | TNotEq => "NotEq" | TLt => "Lt" | TLtEq => "LtEq" | TGt => "Gt" | TGtEq => "GtEq"
  | TMinus => "Minus" | TEof => "Eof"
  end.

(** ** The lexer *)

(** [source[position..]] and [position]. *)
Record Lexer : Type := mkLexer { lx_remaining : list Z; lx_position : Z }.

Definition lex_result (A : Type) : Type := sqlresult (A * Lexer).

Definition peek (self : Lexer) : option Z := head (lx_remaining self).

Definition bump (self : Lexer) : option (Z * Lexer) :=
  match lx_remaining self with
  | [] => None
  | c :: rest => Some (c, mkLexer rest (lx_position self + len_utf8 c))
  end.

(** [self.bump();] with the character dropped. *)
Definition skip (self : Lexer) : Lexer :=
  match bump self with Some (_, self) => self | None => self end.

Definition lex_consume (expected : Z) (self : Lexer) : bool * Lexer :=
  if bool_decide (peek self = Some expected) then (true, skip self) else (false, self).

Definition lex_error (message : string) (start : Z) (self : Lexer) : SqlError :=
  mkSqlError LexError message (mkSpan start (lx_position self)).

(** [while self.peek().is_some_and(p) { self.bump(); }]; also the text passed
    over, [source[before..after]]. *)
Fixpoint bump_while_from (p : Z → bool) (rest : list Z) (position : Z) : list Z * Lexer :=
  match rest with
  | c :: rest' =>
      if p c then
        let '(text, self) := bump_while_from p rest' (position + len_utf8 c) in (c :: text, self)
      else ([], mkLexer rest position)
  | [] => ([], mkLexer [] position)
  end.

Definition bump_while (p : Z → bool) (self : Lexer) : list Z * Lexer :=
  bump_while_from p (lx_remaining self) (lx_position self).

Definition is_identifier_start (c : Z) : bool := (c =? 95) || is_alphabetic c.
Definition is_identifier_continue (c : Z) : bool := (c =? 95) || (c =? 36) || is_alphanumeric c.

(** The loop of [quoted_string]; the characters of the value. *)
Fixpoint quoted_loop (delimiter start : Z) (rest : list Z) (position : Z) : lex_result (list Z) :=
  match rest with
  | [] => Err (lex_error "unterminated quoted value" start (mkLexer [] position))
  | c :: rest' =>
      if c =? delimiter then
        match rest' with
        | c' :: rest'' =>
            if c' =? delimiter then
              '(value, self) ← quoted_loop delimiter start rest'' (position + len_utf8 c + len_utf8 c');
              Ok (delimiter :: value, self)
            else Ok ([], mkLexer rest' (position + len_utf8 c))
        | [] => Ok ([], mkLexer rest' (position + len_utf8 c))
        end
      else
        '(value, self) ← quoted_loop delimiter start rest' (position + len_utf8 c);
        Ok (c :: value, self)
  end.

Definition quoted_string (delimiter start : Z) (self : Lexer) : lex_result string :=
  '(value, self) ← quoted_loop delimiter start (lx_remaining self) (lx_position self);
  Ok (string_of_chars value, self).

(** [u8::from_str_radix(digits, 16)] on two hexadecimal digits. *)
Definition hex_value (c : Z) : Z :=
  if between 48 57 c then c - 48 else if between 97 102 c then c - 87 else c - 55.

Fixpoint hex_pairs (digits : list Z) : bytes :=
  match digits with
  | a :: b :: digits => (hex_value a * 16 + hex_value b) :: hex_pairs digits
  | _ => []
  end.

(** The digits of [bytes_literal], up to the quote or the end. *)
Fixpoint hex_loop (start : Z) (rest : list Z) (position : Z) : lex_result (list Z) :=
  match rest with
  | c :: rest' =>
      if c =? ch "'" then Ok ([], mkLexer rest position)
      else if negb (is_ascii_hexdigit c) then
        Err (lex_error "BYTES literals contain hexadecimal digits" start (mkLexer rest' (position + len_utf8 c)))
      else
        '(digits, self) ← hex_loop start rest' (position + len_utf8 c);
        Ok (c :: digits, self)
  | [] => Ok ([], mkLexer [] position)
  end.

Definition bytes_literal (start : Z) (self : Lexer) : lex_result bytes :=
  '(digits, self) ← hex_loop start (lx_remaining self) (lx_position self);
  let '(closed, self) := lex_consume (ch "'") self in
  _ ← ensure closed (lex_error "unterminated BYTES literal" start self);
  _ ← ensure (zlen digits mod 2 =? 0)
        (lex_error "BYTES literals require an even number of digits" start self);
  Ok (hex_pairs digits, self).

Definition starts_with (prefix rest : list Z) : bool :=
  bool_decide (take (length prefix) rest = prefix).

(** The body of a block comment: [None] when it does not end. *)
Fixpoint skip_block (rest : list Z) (position : Z) : option Lexer * Z :=
  match rest with
  | [] => (None, position)
  | c :: rest' =>
      if starts_with (chars "*/") rest then (Some (mkLexer rest position), position)
      else skip_block rest' (position + len_utf8 c)
  end.

(** The loop of [skip_trivia]: a turn that goes on passes a comment. *)
Fixpoint skip_trivia_loop (fuel : nat) (self : Lexer) : option (sqlresult Lexer) :=
  match fuel with
  | O => None
  | S fuel =>
      let self := (bump_while is_whitespace self).2 in
      if starts_with (chars "--") (lx_remaining self) then
        let self := skip (skip self) in
        skip_trivia_loop fuel (bump_while (λ c, negb (c =? 10)) self).2
      else if starts_with (chars "/*") (lx_remaining self) then
        let start := lx_position self in
        let self := skip (skip self) in
        match skip_block (lx_remaining self) (lx_position self) with
        | (Some self, _) => skip_trivia_loop fuel (skip (skip self))
        | (None, position) => Some (Err (lex_error "unterminated block comment" start (mkLexer [] position)))
        end
      else Some (Ok self)
  end.

(** [text.parse::<i64>()] on decimal digits. *)
Definition digits_value (digits : list Z) : Z := foldl (λ n c, n * 10 + (c - 48)) 0 digits.
Definition parse_i64 (digits : list Z) : option Z := i64_checked (digits_value digits).

Definition number_token (first start : Z) (self : Lexer) : lex_result TokenKind :=
  let '(rest, self) := bump_while is_ascii_digit self in
  let text := first :: rest in
  integer ← ok_or (parse_i64 text)
    (mkSqlError LexError ("integer literal `" +:+ string_of_chars text +:+ "` is outside INT64 range")
       (mkSpan start (lx_position self)));
  Ok (TLiteral (VInt64 integer), self).

Definition word_token (first : Z) (self : Lexer) : TokenKind * Lexer :=
  let '(rest, self) := bump_while is_identifier_continue self in
  let value := string_of_chars (first :: rest) in
  (match from_identifier value with Some k => TKeyword k | None => TIdentifier value false end, self).

(** The arms of [next_token] on the first character. *)
Definition token_kind (c start : Z) (self : Lexer) : lex_result TokenKind :=
  if c =? ch "(" then Ok (TLeftParen, self)
  else if c =? ch ")" then Ok (TRightParen, self)
  else if c =? ch "," then Ok (TComma, self)
  else if c =? ch "." then Ok (TDot, self)
  else if c =? ch "*" then Ok (TStar, self)
  else if c =? ch ";" then Ok (TSemicolon, self)
  else if c =? ch "?" then Ok (TParameter, self)
  else if c =? ch "=" then Ok (TEq, self)
  else if c =? ch "-" then Ok (TMinus, self)
  else if c =? ch "<" then
    let '(eq, self) := lex_consume (ch "=") self in
    if eq then Ok (TLtEq, self) else
    let '(gt, self) := lex_consume (ch ">") self in
    if gt then Ok (TNotEq, self) else Ok (TLt, self)
  else if c =? ch ">" then
    let '(eq, self) := lex_consume (ch "=") self in
    if eq then Ok (TGtEq, self) else Ok (TGt, self)
  else if c =? ch "!" then
    let '(eq, self) := lex_consume (ch "=") self in
    if eq then Ok (TNotEq, self) else Err (lex_error "expected `=` after `!`" start self)
  else if c =? ch "'" then
    '(value, self) ← quoted_string (ch "'") start self;
    Ok (TLiteral (VText value), self)
  else if c =? ch dquote then
    '(value, self) ← quoted_string (ch dquote) start self;
    Ok (TIdentifier value true, self)
  else if ((c =? ch "x") || (c =? ch "X")) && bool_decide (peek self = Some (ch "'")) then
    '(value, self) ← bytes_literal start (skip self);
    Ok (TLiteral (VBytes value), self)
  else if is_ascii_digit c then number_token c start self
  else if is_identifier_start c then Ok (word_token c self)
  else Err (lex_error ("unexpected character `" +:+ string_of_chars [c] +:+ "`") start self).

Definition next_token (self : Lexer) : lex_result Token :=
  let start := lx_position self in
  match bump self with
  | None => Ok (mkToken TEof (mkSpan start start), self)
  | Some (c, self) =>
      '(kind, self) ← token_kind c start self;
      Ok (mkToken kind (mkSpan start (lx_position self)), self)
  end.

(** The loop of [lex_all]; [None] when the fuel runs out. *)
Fixpoint lex_loop (fuel : nat) (self : Lexer) (tokens : list Token) : option (sqlresult (list Token)) :=
  match fuel with
  | O => None
  | S fuel =>
      match skip_trivia_loop (S (length (lx_remaining self))) self with
      | None => None
      | Some (Err e) => Some (Err e)
      | Some (Ok self) =>
          match next_token self with
          | Err e => Some (Err e)
          | Ok (token, self) =>
              if bool_decide (tk_kind token = TEof) then Some (Ok (tokens ++ [token]))
              else lex_loop fuel self (tokens ++ [token])
          end
      end
  end.

Definition lex (source : list Z) : sqlresult (list Token) :=
  default (Ok []) (lex_loop (S (length source)) (mkLexer source 0) []).
End Lexer.
