(* ===== verification/SqlParser.v ===== *)
(** * The SQL parser: [crates/aster-sql/src/parser.rs]

    Recursive descent over the tokens of the lexer.  Loops take one turn per
    remaining token; parentheses and aggregate arguments recurse through
    [expression], whose fuel bounds the nesting. *)

From Stdlib Require Import Ascii String.
From S2P Require Import Prelude CoreTypes SqlAst SqlLexer.

Record Parser : Type := mkParser {
  p_tokens : list Token;
  p_position : nat;
  p_next_parameter : Z
}.

(** [None] when the fuel runs out. *)
Definition parser (A : Type) : Type := Parser → option (sqlresult (A * Parser)).

#[export] Instance parser_ret : MRet parser := λ A a self, Some (Ok (a, self)).
#[export] Instance parser_bind : MBind parser := λ A B f m self,
  match m self with
  | None => None
  | Some (Err e) => Some (Err e)
  | Some (Ok (a, self)) => f a self
  end.

Definition p_fail {A} (e : SqlError) : parser A := λ self, Some (Err e).

(** ** Tokens *)

Definition eof_token : Token := mkToken TEof span_default.

(** [&self.tokens[self.position]]; a lexed list ends with [Eof] and the
    position never passes it. *)
Definition current (self : Parser) : Token := default eof_token (p_tokens self !! p_position self).
Definition previous (self : Parser) : Token := default eof_token (p_tokens self !! pred (p_position self)).

Definition advance : parser Token := λ self,
  let token := current self in
  let self := if bool_decide (tk_kind token = TEof) then self
              else mkParser (p_tokens self) (S (p_position self)) (p_next_parameter self) in
  Some (Ok (token, self)).

Definition p_error (message : string) (self : Parser) : SqlError :=
  mkSqlError ParseError message (tk_span (current self)).

(** [return Err(self.error(message))] *)
Definition p_error_here {A} (message : string) : parser A := λ self, Some (Err (p_error message self)).

Definition p_current : parser Token := λ self, Some (Ok (current self, self)).
Definition p_previous : parser Token := λ self, Some (Ok (previous self, self)).

Definition at_ (kind : TokenKind) : parser bool := λ self,
  Some (Ok (bool_decide (tk_kind (current self) = kind), self)).

Definition p_consume (kind : TokenKind) : parser (option Token) :=
  b ← at_ kind;
  if b : bool then (t ← advance; mret (Some t)) else mret None.

Definition p_expect (kind : TokenKind) (message : string) : parser Token :=
  t ← p_consume kind;
  match t with Some t => mret t | None => p_error_here message end.

Definition consume_keyword (keyword : Keyword) : parser (option Token) := p_consume (TKeyword keyword).

(** [self.consume(..).is_some()] *)
Definition consumed {A} (m : parser (option A)) : parser bool :=
  o ← m; mret (match o with Some _ => true | None => false end).

(** One turn per remaining token. *)
Definition p_fuel (self : Parser) : nat := S (length (p_tokens self) - p_position self).
Definition with_fuel {A} (f : nat → parser A) : parser A := λ self, f (p_fuel self) self.

(** An error at the span of the last or the next token. *)
Definition fail_at_previous {A} (f : Span → SqlError) : parser A := λ self,
  Some (Err (f (tk_span (previous self)))).
Definition fail_at_current {A} (f : Span → SqlError) : parser A := λ self,
  Some (Err (f (tk_span (current self)))).

Section Parser.
Context `{UnicodeTables}.

Definition expect_keyword (keyword : Keyword) : parser Token :=
  t ← consume_keyword keyword;
  match t with
  | Some t => mret t
  | None =>
      found ← p_current;
      p_error_here ("expected keyword " +:+ Keyword_debug keyword +:+ ", found "
                    +:+ TokenKind_debug (tk_kind found))
  end.

Definition identifier : parser Ident :=
  token ← advance;
  match tk_kind token with
  | TIdentifier value quoted => mret (mkIdent value quoted (tk_span token))
  | _ => p_fail (mkSqlError ParseError "expected identifier" (tk_span token))
  end.

Definition p_data_type : parser DataType :=
  token ← advance;
  match tk_kind token with
  | TKeyword KInt64 => mret Int64
  | TKeyword KBool => mret Bool
  | TKeyword KText => mret Text
  | TKeyword KBytes => mret Bytes
  | _ => p_fail (unsupported "v1 column types are INT64, BOOL, TEXT, and BYTES" (tk_span token))
  end.

Definition is_comparison_token (self : Parser) : bool :=
  match tk_kind (current self) with
  | TEq | TNotEq | TLt | TLtEq | TGt | TGtEq => true
  | _ => false
  end.

(** [item, while self.consume(Comma).is_some() { item }] *)
Fixpoint comma_loop {A} (fuel : nat) (item : parser A) : parser (list A) :=
  match fuel with
  | O => λ _, None
  | S fuel =>
      value ← item;
      more ← consumed (p_consume TComma);
      if more : bool then (values ← comma_loop fuel item; mret (value :: values)) else mret [value]
  end.

Definition comma_separated {A} (item : parser A) : parser (list A) := with_fuel (λ fuel, comma_loop fuel item).

(** ** Expressions *)

Section Expressions.
(** The recursive call, [self.expression()]. *)
Variable expression : parser SqlExpr.

Definition aggregate_function (keyword : Keyword) : option AggregateFunction :=
  match keyword with
  | KCount => Some AggCount | KSum => Some AggSum | KMin => Some AggMin | KMax => Some AggMax
  | _ => None
  end.

Definition aggregate (function : AggregateFunction) (start : Span) : parser SqlExpr :=
  _ ← p_expect TLeftParen "expected `(` after aggregate";
  star ← consumed (p_consume TStar);
  argument ← (if star : bool then
      (if bool_decide (function = AggCount) then mret None
       else fail_at_previous (mkSqlError SqlTypeError "only COUNT accepts `*`"))
    else (e ← expression; mret (Some e)));
  right ← p_expect TRightParen "expected `)` after aggregate";
  let span := span_join start (tk_span right) in
  mret (match argument with Some e => XAggregate function e span | None => XAggregateStar function span end).

Definition next_parameter (span : Span) : parser SqlExpr := λ self,
  Some (Ok (XParameter (p_next_parameter self) span,
            mkParser (p_tokens self) (p_position self) (p_next_parameter self + 1)%u64)).

Definition column_expression (first : Ident) : parser SqlExpr :=
  call ← at_ TLeftParen;
  if call : bool then
    p_fail (unsupported ("scalar function `" +:+ Ident_to_string first +:+ "` is not supported") (id_span first))
  else
  dot ← consumed (p_consume TDot);
  if dot : bool then
    (name ← identifier; mret (XColumn (Some first) name (span_join (id_span first) (id_span name))))
  else mret (XColumn None first (id_span first)).

Definition primary_expression : parser SqlExpr :=
  token ← advance;
  match tk_kind token with
  | TLiteral value => mret (XLiteral value (tk_span token))
  | TKeyword KNull => mret (XLiteral VNull (tk_span token))
  | TKeyword KTrue => mret (XLiteral (VBool true) (tk_span token))
  | TKeyword KFalse => mret (XLiteral (VBool false) (tk_span token))
  | TParameter => next_parameter (tk_span token)
  | TLeftParen =>
      e ← expression;
      right ← p_expect TRightParen "expected `)`";
      mret (x_set_span e (span_join (tk_span token) (tk_span right)))
  | TKeyword KCount => aggregate AggCount (tk_span token)
  | TKeyword KSum => aggregate AggSum (tk_span token)
  | TKeyword KMin => aggregate AggMin (tk_span token)
  | TKeyword KMax => aggregate AggMax (tk_span token)
  | TIdentifier value quoted => column_expression (mkIdent value quoted (tk_span token))
  | other => p_fail (mkSqlError ParseError ("expected expression, found " +:+ TokenKind_debug other) (tk_span token))
  end.

Fixpoint unary_loop (fuel : nat) : parser SqlExpr :=
  match fuel with
  | O => λ _, None
  | S fuel =>
      minus ← p_consume TMinus;
      match minus with
      | Some minus =>
          e ← unary_loop fuel;
          mret (XUnary SqlNegate e (span_join (tk_span minus) (x_span e)))
      | None => primary_expression
      end
  end.

Definition unary_expression : parser SqlExpr := with_fuel unary_loop.

(** The chain of [consume] calls for the operator. *)
Definition comparison_operator : parser (option SqlBinaryOp) :=
  eq ← consumed (p_consume TEq); if eq : bool then mret (Some SqlEq) else
  ne ← consumed (p_consume TNotEq); if ne : bool then mret (Some SqlNotEq) else
  lt ← consumed (p_consume TLt); if lt : bool then mret (Some SqlLt) else
  le ← consumed (p_consume TLtEq); if le : bool then mret (Some SqlLtEq) else
  gt ← consumed (p_consume TGt); if gt : bool then mret (Some SqlGt) else
  ge ← consumed (p_consume TGtEq); if ge : bool then mret (Some SqlGtEq) else
  mret None.

Definition reject_chain : parser unit := λ self,
  if is_comparison_token self then
    p_error_here "chained comparisons are unsupported; combine predicates with AND or OR" self
  else Some (Ok (tt, self)).

Definition comparison_expression : parser SqlExpr :=
  e ← unary_expression;
  is_ ← consumed (consume_keyword KIs);
  if is_ : bool then
    negated ← consumed (consume_keyword KNot);
    _ ← expect_keyword KNull;
    last ← p_previous;
    mret (XIsNull e negated (span_join (x_span e) (tk_span last)))
  else
  operator ← comparison_operator;
  match operator with
  | None => mret e
  | Some op =>
      right ← unary_expression;
      _ ← reject_chain;
      mret (XBinary e op right (span_join (x_span e) (x_span right)))
  end.

Fixpoint not_loop (fuel : nat) : parser SqlExpr :=
  match fuel with
  | O => λ _, None
  | S fuel =>
      not ← consume_keyword KNot;
      match not with
      | Some not =>
          e ← not_loop fuel;
          mret (XUnary SqlNot e (span_join (tk_span not) (x_span e)))
      | None => comparison_expression
      end
  end.

Definition not_expression : parser SqlExpr := with_fuel not_loop.

(** [while self.consume_keyword(keyword).is_some() { expr = expr op operand }] *)
Fixpoint binary_loop (fuel : nat) (keyword : Keyword) (op : SqlBinaryOp) (operand : parser SqlExpr)
    (e : SqlExpr) : parser SqlExpr :=
  match fuel with
  | O => λ _, None
  | S fuel =>
      more ← consumed (consume_keyword keyword);
      if more : bool then
        right ← operand;
        binary_loop fuel keyword op operand (XBinary e op right (span_join (x_span e) (x_span right)))
      else mret e
  end.

Definition and_expression : parser SqlExpr :=
  e ← not_expression;
  with_fuel (λ fuel, binary_loop fuel KAnd SqlAnd not_expression e).

Definition or_expression : parser SqlExpr :=
  e ← and_expression;
  with_fuel (λ fuel, binary_loop fuel KOr SqlOr and_expression e).
End Expressions.

Fixpoint expression_fuel (fuel : nat) : parser SqlExpr :=
  match fuel with
  | O => λ _, None
  | S fuel => or_expression (expression_fuel fuel)
  end.

Definition expression : parser SqlExpr := with_fuel expression_fuel.

(** ** Statements *)

(** The clauses after a column type: [nullable], [primary_key]. *)
Fixpoint column_clauses (fuel : nat) (is_nullable is_primary_key saw_nullability : bool) : parser (bool * bool) :=
  match fuel with
  | O => λ _, None
  | S fuel =>
      primary ← consumed (consume_keyword KPrimary);
      if primary : bool then
        if is_primary_key then p_error_here "duplicate PRIMARY KEY clause"
        else _ ← expect_keyword KKey; column_clauses fuel false true saw_nullability
      else
      not ← consumed (consume_keyword KNot);
      if not : bool then
        if saw_nullability then p_error_here "duplicate NULL/NOT NULL clause"
        else _ ← expect_keyword KNull; column_clauses fuel false is_primary_key true
      else
      null ← consumed (consume_keyword KNull);
      if null : bool then
        if saw_nullability || is_primary_key then p_error_here "invalid or duplicate NULL clause"
        else column_clauses fuel true is_primary_key true
      else mret (is_nullable, is_primary_key)
  end.

Definition column_def : parser ColumnDef :=
  start ← p_current;
  column_name ← identifier;
  ty ← p_data_type;
  '(is_nullable, is_primary_key) ← with_fuel (λ fuel, column_clauses fuel true false false);
  last ← p_previous;
  mret (mkColumnDef column_name ty is_nullable is_primary_key (span_join (tk_span start) (tk_span last))).

Definition p_create_table : parser SqlStatement :=
  name ← identifier;
  _ ← p_expect TLeftParen "expected `(` after table name";
  columns ← comma_separated column_def;
  _ ← p_expect TRightParen "expected `)` after column definitions";
  mret (StCreateTable name columns).

Definition p_create_index : parser SqlStatement :=
  name ← identifier;
  _ ← expect_keyword KOn;
  table ← identifier;
  _ ← p_expect TLeftParen "expected `(` before indexed column";
  column ← identifier;
  more ← consumed (p_consume TComma);
  if more : bool then
    fail_at_previous (unsupported "multi-column indexes are not part of the v1 SQL subset")
  else
  _ ← p_expect TRightParen "expected `)` after indexed column";
  mret (StCreateIndex name table column).

Definition create : parser SqlStatement :=
  _ ← expect_keyword KCreate;
  unique ← consumed (consume_keyword KUnique);
  if unique : bool then
    fail_at_previous (unsupported "UNIQUE indexes are not part of the v1 SQL subset")
  else
  table ← consumed (consume_keyword KTable);
  if table : bool then p_create_table else
  index ← consumed (consume_keyword KIndex);
  if index : bool then p_create_index else
  p_error_here "expected TABLE or INDEX after CREATE".

Definition insert_columns : parser (option (list Ident)) :=
  paren ← consumed (p_consume TLeftParen);
  if paren : bool then
    names ← comma_separated identifier;
    _ ← p_expect TRightParen "expected `)` after insert columns";
    mret (Some names)
  else mret None.

Definition insert_statement : parser SqlStatement :=
  _ ← expect_keyword KInsert;
  _ ← expect_keyword KInto;
  table ← identifier;
  columns ← insert_columns;
  _ ← expect_keyword KValues;
  _ ← p_expect TLeftParen "expected `(` after VALUES";
  values ← comma_separated expression;
  _ ← p_expect TRightParen "expected `)` after inserted values";
  more ← at_ TComma;
  if more : bool then
    fail_at_current (unsupported "multi-row INSERT is not part of the v1 SQL subset")
  else mret (StInsert table columns values).

Definition where_clause : parser (option SqlExpr) :=
  where_ ← consumed (consume_keyword KWhere);
  if where_ : bool then (e ← expression; mret (Some e)) else mret None.

Definition assignment : parser (Ident * SqlExpr) :=
  column ← identifier;
  _ ← p_expect TEq "expected `=` in assignment";
  value ← expression;
  mret (column, value).

Definition update_statement : parser SqlStatement :=
  _ ← expect_keyword KUpdate;
  table ← identifier;
  _ ← expect_keyword KSet;
  assignments ← comma_separated assignment;
  selection ← where_clause;
  mret (StUpdate table assignments selection).

Definition delete_statement : parser SqlStatement :=
  _ ← expect_keyword KDelete;
  _ ← expect_keyword KFrom;
  table ← identifier;
  selection ← where_clause;
  mret (StDelete table selection).

Definition table_source : parser TableSource :=
  name ← identifier;
  explicit_alias ← consumed (consume_keyword KAs);
  token ← p_current;
  alias ← (if explicit_alias || match tk_kind token with TIdentifier _ _ => true | _ => false end then
             (a ← identifier; mret (Some a))
           else mret None);
  let stop := match alias with Some a => id_span a | None => id_span name end in
  mret (mkTableSource name alias (span_join (id_span name) stop)).

Definition select_item : parser SelectItem :=
  star ← p_consume TStar;
  match star with
  | Some star => mret (Wildcard (tk_span star))
  | None =>
      e ← expression;
      as_ ← consumed (consume_keyword KAs);
      alias ← (if as_ : bool then (a ← identifier; mret (Some a)) else mret None);
      mret (SelectExpr e alias)
  end.

(** The start of a join clause, if there is one. *)
Definition join_start : parser (option Span) :=
  inner ← consume_keyword KInner;
  match inner with
  | Some inner => _ ← expect_keyword KJoin; mret (Some (tk_span inner))
  | None => join ← consume_keyword KJoin; mret (tk_span <$> join)
  end.

Fixpoint join_loop (fuel : nat) : parser (list Join) :=
  match fuel with
  | O => λ _, None
  | S fuel =>
      start ← join_start;
      match start with
      | None => mret []
      | Some start =>
          right ← table_source;
          _ ← expect_keyword KOn;
          on ← expression;
          joins ← join_loop fuel;
          mret (mkJoin right on (span_join start (x_span on)) :: joins)
      end
  end.

Definition order_item : parser (SqlExpr * OrderDirection) :=
  e ← expression;
  desc ← consumed (consume_keyword KDesc);
  if desc : bool then mret (e, Desc)
  else _ ← consume_keyword KAsc; mret (e, Asc).

(** [GROUP BY items] and [ORDER BY items], empty when absent. *)
Definition by_clause {A} (keyword : Keyword) (item : parser A) : parser (list A) :=
  present ← consumed (consume_keyword keyword);
  if present : bool then (_ ← expect_keyword KBy; comma_separated item) else mret [].

Definition limit_clause : parser (option SqlExpr) :=
  limit ← consumed (consume_keyword KLimit);
  if limit : bool then (e ← expression; mret (Some e)) else mret None.

Definition select : parser Select :=
  _ ← expect_keyword KSelect;
  projection ← comma_separated select_item;
  _ ← expect_keyword KFrom;
  from ← table_source;
  joins ← with_fuel join_loop;
  selection ← where_clause;
  group_by ← by_clause KGroup expression;
  order_by ← by_clause KOrder order_item;
  limit ← limit_clause;
  mret (mkSelect projection from joins selection group_by order_by limit).

(** The transaction statements: the keyword and an optional [TRANSACTION]. *)
Definition control (statement : SqlStatement) : parser SqlStatement :=
  _ ← advance;
  _ ← consume_keyword KTransaction;
  mret statement.

Definition is_explain (s : SqlStatement) : bool :=
  match s with StExplain _ _ => true | _ => false end.

(** The statement and its span; [EXPLAIN] recurses. *)
Fixpoint statement_fuel (fuel : nat) : parser (SqlStatement * Span) :=
  match fuel with
  | O => λ _, None
  | S fuel =>
      start ← p_current;
      value ← match tk_kind start with
        | TKeyword KCreate => create
        | TKeyword KInsert => insert_statement
        | TKeyword KUpdate => update_statement
        | TKeyword KDelete => delete_statement
        | TKeyword KSelect => (s ← select; mret (StSelect s))
        | TKeyword KBegin => control StBegin
        | TKeyword KCommit => control StCommit
        | TKeyword KRollback => control StRollback
        | TKeyword KExplain =>
            _ ← advance;
            '(inner, span) ← statement_fuel fuel;
            if is_explain inner then p_fail (unsupported "nested EXPLAIN is not supported" span)
            else mret (StExplain inner span)
        | other =>
            p_fail (unsupported ("unsupported statement beginning with " +:+ TokenKind_debug other) (tk_span start))
        end;
      last ← p_previous;
      mret (value, span_join (tk_span start) (tk_span last))
  end.

Definition statement : parser (SqlStatement * Span) := with_fuel statement_fuel.

Definition reset_parameters : parser unit := λ self,
  Some (Ok (tt, mkParser (p_tokens self) (p_position self) 0)).

(** The loop of [parse_statements]. *)
Fixpoint statements_loop (fuel : nat) : parser (list (SqlStatement * Span)) :=
  match fuel with
  | O => λ _, None
  | S fuel =>
      done ← at_ TEof;
      if done : bool then mret [] else
      semicolon ← consumed (p_consume TSemicolon);
      if semicolon : bool then statements_loop fuel else
      _ ← reset_parameters;
      s ← statement;
      semicolon ← consumed (p_consume TSemicolon);
      if semicolon : bool then (rest ← statements_loop fuel; mret (s :: rest)) else
      eof ← at_ TEof;
      if eof : bool then (rest ← statements_loop fuel; mret (s :: rest))
      else p_error_here "expected `;` between statements"
  end.

Definition parse_tokens (tokens : list Token) : option (sqlresult (list (SqlStatement * Span))) :=
  let self := mkParser tokens 0 0 in
  match statements_loop (p_fuel self) self with
  | None => None
  | Some (Err e) => Some (Err e)
  | Some (Ok (statements, _)) => Some (Ok statements)
  end.

Definition parse_statements (source : list Z) : sqlresult (list (SqlStatement * Span)) :=
  tokens ← lex source;
  statements ← default (Ok []) (parse_tokens tokens);
  _ ← ensure (negb (is_empty statements))
        (mkSqlError ParseError "SQL input contains no statement" (mkSpan 0 (str_len source)));
  Ok statements.

Definition parse_statement (source : list Z) : sqlresult (SqlStatement * Span) :=
  statements ← parse_statements source;
  match statements with
  | [s] => Ok s
  | _ => Err (mkSqlError ParseError ("expected exactly one statement, found " +:+ pretty (zlen statements))
                (mkSpan 0 (str_len source)))
  end.
End Parser.
