(* ===== verification/SqlParsing.v ===== *)
(** * The lexer: progress, termination and spans

    Every piece of the lexer passes over a prefix of the remaining text and
    moves the position by its bytes; a token takes at least one character, so
    one turn per character is enough. *)

From Stdlib Require Import Ascii String.
From S2P Require Import Prelude CoreTypes SqlAst SqlLexer SqlParser.

(** [moves self text self']: [self'] is [self] after [text]. *)
Definition moves (self : Lexer) (text : list Z) (self' : Lexer) : Prop :=
  lx_remaining self = text ++ lx_remaining self' ∧ lx_position self' = lx_position self + str_len text.

Lemma len_utf8_pos c : 1 ≤ len_utf8 c.
Proof. unfold len_utf8. repeat case_match; lia. Qed.

Lemma str_len_cons c l : str_len (c :: l) = len_utf8 c + str_len l.
Proof. done. Qed.

Lemma str_len_app l k : str_len (l ++ k) = str_len l + str_len k.
Proof. induction l as [|c l IH]; [done|]. cbn [app]. rewrite !str_len_cons, IH. lia. Qed.

Lemma str_len_nonneg l : 0 ≤ str_len l.
Proof. induction l as [|c l IH]; [done|]. rewrite str_len_cons. pose proof (len_utf8_pos c). lia. Qed.

Lemma str_len_pos l : l ≠ [] → 0 < str_len l.
Proof.
  destruct l as [|c l]; [done|]. intros _. rewrite str_len_cons. pose proof (len_utf8_pos c).
  pose proof (str_len_nonneg l). lia.
Qed.

Lemma moves_nil self : moves self [] self.
Proof. split; [done|]. cbn. lia. Qed.

Lemma moves_app a t b u c : moves a t b → moves b u c → moves a (t ++ u) c.
Proof.
  intros [H1 H2] [H3 H4]. split; [by rewrite H1, H3, app_assoc|]. rewrite H4, H2, str_len_app. lia.
Qed.

Lemma moves_cons c rest position t self :
  moves (mkLexer rest (position + len_utf8 c)) t self → moves (mkLexer (c :: rest) position) (c :: t) self.
Proof. intros [H1 H2]. cbn [lx_remaining lx_position] in *. split; cbn [lx_remaining lx_position]; [by rewrite H1|]. rewrite str_len_cons. lia. Qed.

Lemma moves_length a t b : moves a t b → (length (lx_remaining a) = length t + length (lx_remaining b))%nat.
Proof. intros [-> _]. apply length_app. Qed.

Lemma skip_moves self : ∃ t, moves self t (skip self) ∧ (lx_remaining self ≠ [] → t ≠ []).
Proof.
  destruct self as [[|c rest] position]; unfold skip, bump; cbn.
  - exists []. split; [apply moves_nil|done].
  - exists [c]. split; [|done]. apply moves_cons, moves_nil.
Qed.

Section Lexing.
Context `{UnicodeTables}.

Lemma lex_consume_moves e self b self' : lex_consume e self = (b, self') → ∃ t, moves self t self'.
Proof.
  unfold lex_consume. case_match; intros [= <- <-]; [|exists []; apply moves_nil].
  destruct (skip_moves self) as (t & ? & _). eauto.
Qed.

Lemma bump_while_moves p self t self' : bump_while p self = (t, self') → moves self t self'.
Proof.
  destruct self as [rest position]. unfold bump_while. cbn. revert position t self'.
  induction rest as [|c rest IH]; intros position t self'; cbn; [intros [= <- <-]; apply moves_nil|].
  destruct (p c); [|intros [= <- <-]; apply moves_nil].
  destruct (bump_while_from p rest (position + len_utf8 c)) as [t1 s1] eqn:E. intros [= <- <-].
  apply moves_cons. by apply IH.
Qed.

(** The text passed over satisfies [p] and the next character does not. *)
Lemma bump_while_spec p self t self' :
  bump_while p self = (t, self') → Forall (λ c, p c = true) t ∧ (∀ c, peek self' = Some c → p c = false).
Proof.
  destruct self as [rest position]. unfold bump_while. cbn. revert position t self'.
  induction rest as [|c rest IH]; intros position t self'; cbn; [by intros [= <- <-]|].
  destruct (p c) eqn:Hp; [|intros [= <- <-]; split; [done|]; cbn; congruence].
  destruct (bump_while_from p rest (position + len_utf8 c)) as [t1 s1] eqn:E. intros [= <- <-].
  destruct (IH _ _ _ E). split; [by constructor|done].
Qed.

Lemma quoted_loop_moves d start : ∀ n rest position value self',
  (length rest < n)%nat → quoted_loop d start rest position = Ok (value, self') →
  ∃ t, moves (mkLexer rest position) t self'.
Proof.
  induction n as [|n IH]; intros rest position value self' Hn; [lia|].
  destruct rest as [|c rest]; cbn [quoted_loop]; [done|]. cbn [length] in Hn.
  destruct (c =? d).
  - destruct rest as [|c' rest].
    + intros [= <- <-]. exists [c]. apply moves_cons, moves_nil.
    + destruct (c' =? d).
      * intros ([v s] & Hq & [= <- <-])%result_bind_Ok. cbn [length] in Hn.
        apply IH in Hq as [t Ht]; [|lia]. exists (c :: c' :: t). by do 2 apply moves_cons.
      * intros [= <- <-]. exists [c]. apply moves_cons, moves_nil.
  - intros ([v s] & Hq & [= <- <-])%result_bind_Ok. apply IH in Hq as [t Ht]; [|lia].
    exists (c :: t). by apply moves_cons.
Qed.

Lemma quoted_string_moves d start self v self' :
  quoted_string d start self = Ok (v, self') → ∃ t, moves self t self'.
Proof.
  unfold quoted_string. intros ([w s] & Hq & [= <- <-])%result_bind_Ok.
  apply (quoted_loop_moves _ _ (S (length (lx_remaining self)))) in Hq as [t Ht]; [|lia].
  by destruct self; exists t.
Qed.

Lemma hex_loop_moves start rest : ∀ position v self',
  hex_loop start rest position = Ok (v, self') → moves (mkLexer rest position) v self'.
Proof.
  induction rest as [|c rest IH]; intros position v self'; cbn [hex_loop]; [intros [= <- <-]; apply moves_nil|].
  destruct (c =? ch "'"); [intros [= <- <-]; apply moves_nil|].
  destruct (negb _); [done|]. intros ([w s] & Hq & [= <- <-])%result_bind_Ok. apply moves_cons. by apply IH.
Qed.

Lemma bytes_literal_moves start self v self' :
  bytes_literal start self = Ok (v, self') → ∃ t, moves self t self'.
Proof.
  unfold bytes_literal. intros ([w s] & Hq & Hr)%result_bind_Ok.
  destruct (lex_consume (ch "'") s) as [b s2] eqn:E. apply result_bind_Ok in Hr as (? & _ & Hr).
  apply result_bind_Ok in Hr as (? & _ & [= <- <-]).
  apply hex_loop_moves in Hq. apply lex_consume_moves in E as [t Ht].
  exists (w ++ t). destruct self. by eapply moves_app.
Qed.

Lemma token_kind_moves c start self k self' :
  token_kind c start self = Ok (k, self') → (∃ t, moves self t self') ∧ k ≠ TEof.
Proof.
  unfold token_kind.
  repeat (destruct (c =? ch _); [first
    [ intros [= <- <-]; split; [exists []; apply moves_nil|done]
    | repeat match goal with
      | |- context [lex_consume ?e ?s] =>
          let E := fresh "E" in destruct (lex_consume e s) as [[] ?] eqn:E; apply lex_consume_moves in E as [? ?]
      end; first [done | intros [= <- <-]; split; [|done]; eauto using moves_app]
    | intros ([v s] & Hq & [= <- <-])%result_bind_Ok; split; [by eapply quoted_string_moves|done] ]|]).
  destruct (_ && _) eqn:Hx.
  { intros ([v s] & Hq & [= <- <-])%result_bind_Ok. apply bytes_literal_moves in Hq as [t Ht].
    destruct (skip_moves self) as (u & Hu & _). split; [|done]. eauto using moves_app. }
  destruct (is_ascii_digit c).
  { unfold number_token. destruct (bump_while _ self) as [t s] eqn:E.
    intros (z & _ & [= <- <-])%result_bind_Ok. split; [|done]. eauto using bump_while_moves. }
  destruct (is_identifier_start c); [|done].
  unfold word_token. destruct (bump_while _ self) as [t s] eqn:E. intros [= <- <-].
  split; [eauto using bump_while_moves|]. by case_match.
Qed.

(** A token that is not the end of input takes at least one character. *)
Lemma next_token_moves self tok self' :
  next_token self = Ok (tok, self') →
  ∃ t, moves self t self' ∧ tk_span tok = mkSpan (lx_position self) (lx_position self')
       ∧ (tk_kind tok = TEof ↔ t = []) ∧ (tk_kind tok = TEof → lx_remaining self = []).
Proof.
  unfold next_token. destruct self as [[|c rest] position]; cbn.
  - intros [= <- <-]. exists []. split_and!; [apply moves_nil|done..].
  - intros ([k s] & Hk & [= <- <-])%result_bind_Ok. apply token_kind_moves in Hk as [[t Ht] Hk].
    exists (c :: t). cbn. split_and!; [by apply moves_cons|done|by split|done].
Qed.

Lemma skip_block_moves rest : ∀ position self' q,
  skip_block rest position = (Some self', q) →
  ∃ t, moves (mkLexer rest position) t self' ∧ lx_remaining self' ≠ [].
Proof.
  induction rest as [|c rest IH]; intros position self' q; cbn [skip_block]; [done|].
  destruct (starts_with _ _); [intros [= <- <-]; exists []; by split; [apply moves_nil|]|].
  intros (t & Ht & Hne)%IH. exists (c :: t). split; [by apply moves_cons|done].
Qed.

(** [skip_trivia] ends: every comment takes characters. *)
Lemma skip_trivia_total fuel self :
  (length (lx_remaining self) < fuel)%nat →
  ∃ r, skip_trivia_loop fuel self = Some r ∧ (∀ self', r = Ok self' → ∃ t, moves self t self').
Proof.
  revert self. induction fuel as [|fuel IH]; intros self Hf; [lia|]. cbn [skip_trivia_loop].
  destruct (bump_while is_whitespace self) as [w s] eqn:E. cbn [snd].
  pose proof (bump_while_moves _ _ _ _ E) as Hw. pose proof (moves_length _ _ _ Hw).
  assert (∀ a b rest s', lx_remaining s = a :: b :: rest → (length (lx_remaining s') ≤ length rest)%nat →
    (∃ t, moves s t s') →
    ∃ r, skip_trivia_loop fuel s' = Some r ∧ (∀ self', r = Ok self' → ∃ t, moves self t self')) as Hgo.
  { intros a b rest s' Hs Hl [t Ht]. rewrite Hs in *. cbn [length] in *.
    destruct (IH s') as (r & Hr & Hm); [lia|]. exists r. split; [done|].
    intros self' ->. destruct (Hm _ eq_refl) as [u Hu]. eauto using moves_app. }
  assert (∀ p, starts_with p (lx_remaining s) = true → length p = 2%nat →
    ∃ a b rest, lx_remaining s = a :: b :: rest) as Hstart.
  { intros p Hp Hl. unfold starts_with in Hp. bool_prop. rewrite Hl in Hp.
    destruct (lx_remaining s) as [|a [|b rest]]; [subst p; done..|eauto]. }
  assert (∀ a b rest, lx_remaining s = a :: b :: rest → lx_remaining (skip (skip s)) = rest ∧ ∃ t, moves s t (skip (skip s))) as Hskip.
  { intros a b rest Hs. split; [by unfold skip, bump; rewrite Hs|].
    destruct (skip_moves s) as (t & Ht & _), (skip_moves (skip s)) as (u & Hu & _). eauto using moves_app. }
  destruct (starts_with (chars "--") _) eqn:H1.
  - destruct (Hstart _ H1 eq_refl) as (a & b & rest & Hs). destruct (Hskip _ _ _ Hs) as [Hr [t Ht]].
    destruct (bump_while _ (skip (skip s))) as [u s'] eqn:E'. cbn [snd].
    pose proof (bump_while_moves _ _ _ _ E') as Hu. pose proof (moves_length _ _ _ Hu).
    apply (Hgo a b rest); [done|rewrite Hr in *; lia|eauto using moves_app].
  - destruct (starts_with (chars "/*") _) eqn:H2; [|eexists; split; [done|]; intros ? [= <-]; eauto].
    destruct (Hstart _ H2 eq_refl) as (a & b & rest & Hs). destruct (Hskip _ _ _ Hs) as [Hr [t Ht]].
    destruct (skip_block _ _) as [[s'|] q] eqn:E'; [|by eexists].
    apply skip_block_moves in E' as (u & Hu & Hne). destruct (skip_moves s') as (v & Hv & Hv'), (skip_moves (skip s')) as (x & Hx & _).
    assert (moves (skip (skip s)) (u ++ v ++ x) (skip (skip s'))) as Hall.
    { destruct (skip (skip s)). eauto using moves_app. }
    pose proof (moves_length _ _ _ Hall). rewrite Hr in *.
    apply (Hgo a b rest); [done|lia|eauto using moves_app].
Qed.

(** ** All tokens *)

(** The spans of [toks] lie in order between [lo] and [hi]. *)
Fixpoint spans_within (lo hi : Z) (toks : list Token) : Prop :=
  match toks with
  | [] => lo ≤ hi
  | t :: toks => lo ≤ sp_start (tk_span t) < sp_end (tk_span t) ∧ spans_within (sp_end (tk_span t)) hi toks
  end.

Definition tokens_of (from : Z) (text : list Z) (toks : list Token) : Prop :=
  ∃ init, toks = init ++ [mkToken TEof (mkSpan (from + str_len text) (from + str_len text))]
    ∧ spans_within from (from + str_len text) init ∧ Forall (λ t, tk_kind t ≠ TEof) init.

Lemma lex_loop_total fuel : ∀ self acc,
  (length (lx_remaining self) < fuel)%nat →
  ∃ r, lex_loop fuel self acc = Some r
    ∧ (∀ toks, r = Ok toks → ∃ new, toks = acc ++ new ∧ tokens_of (lx_position self) (lx_remaining self) new).
Proof.
  induction fuel as [|fuel IH]; intros self acc Hf; [lia|]. cbn [lex_loop].
  destruct (skip_trivia_total (S (length (lx_remaining self))) self) as (r & -> & Hm); [lia|].
  destruct r as [s|e]; [|by eexists]. destruct (Hm s eq_refl) as [t Ht].
  pose proof (moves_length _ _ _ Ht). destruct Ht as [Hrem Hpos].
  destruct (next_token s) as [[tok s']|e] eqn:Htok; [|by eexists].
  apply next_token_moves in Htok as (u & Hu & Hspan & Heof & Hend). pose proof (moves_length _ _ _ Hu).
  destruct Hu as [Hrem' Hpos']. pose proof (str_len_nonneg t).
  destruct (bool_decide (tk_kind tok = TEof)) eqn:Hk; bool_prop.
  - eexists. split; [done|]. intros toks [= <-]. exists [tok]. split; [done|].
    exists []. assert (u = []) as -> by tauto. rewrite (Hend Hk), app_nil_r in Hrem. cbn in Hpos'.
    split_and!; [|cbn; rewrite Hrem; lia|done]. destruct tok; cbn in *. subst. repeat f_equal; lia.
  - assert (u ≠ []) as Hne by tauto. pose proof (str_len_pos _ Hne).
    destruct (IH s' (acc ++ [tok])) as (r & -> & Hr).
    { destruct u; [done|]. cbn [length] in *. lia. }
    eexists. split; [done|]. intros toks Ht. destruct (Hr toks Ht) as (new & -> & init & -> & Hs & Hi).
    exists (tok :: init ++ [mkToken TEof (mkSpan (lx_position s' + str_len (lx_remaining s')) (lx_position s' + str_len (lx_remaining s')))]).
    rewrite <- app_assoc. split; [done|]. exists (tok :: init).
    assert (lx_position self + str_len (lx_remaining self) = lx_position s' + str_len (lx_remaining s')) as ->.
    { rewrite Hrem, Hrem', !str_len_app. lia. }
    split_and!; [done| |by constructor]. cbn [spans_within]. rewrite Hspan. cbn. split; [lia|done].
Qed.

Lemma lex_loop_mono n m self acc r : lex_loop n self acc = Some r → (n ≤ m)%nat → lex_loop m self acc = Some r.
Proof.
  revert m self acc. induction n as [|n IH]; intros m self acc; [done|]. destruct m as [|m]; [lia|].
  cbn [lex_loop]. intros Hl Hm. repeat case_match; try done. apply IH; [done|lia].
Qed.

Lemma lex_total source :
  lex_loop (S (length source)) (mkLexer source 0) [] = Some (lex source)
  ∧ (∀ tokens, lex source = Ok tokens → tokens_of 0 source tokens).
Proof.
  destruct (lex_loop_total (S (length source)) (mkLexer source 0) []) as (r & Hr & Ht); [cbn; lia|].
  unfold lex. rewrite Hr. cbn [default]. split; [done|].
  intros tokens Hk. destruct (Ht tokens Hk) as (new & -> & Hnew). done.
Qed.

(** The lexer terminates on every text: one turn per character and one for
    the end is enough fuel.  When it accepts, the tokens end with exactly one
    end-of-input token, at the length of the text, and the byte ranges of the
    others are non-empty, in order, disjoint and inside the text. *)
Theorem lex_terminates source fuel :
  (length source < fuel)%nat →
  lex_loop fuel (mkLexer source 0) [] = Some (lex source)
  ∧ (∀ tokens, lex source = Ok tokens → tokens_of 0 source tokens).
Proof.
  intros Hf. destruct (lex_total source) as [Hl Ht]. split; [|done].
  apply (lex_loop_mono _ _ _ _ _ Hl). lia.
Qed.
End Lexing.

(** ** The parser terminates

    [ends n k m]: on a token list that ends with [Eof] and has at most [n]
    tokens left, [m] does not run out of fuel, and when it succeeds it has
    moved forward by at least [k] tokens. *)

(** The tokens are closed by [Eof] and the position is among them. *)
Definition parser_wf (self : Parser) : Prop :=
  (∃ t, last (p_tokens self) = Some t ∧ tk_kind t = TEof) ∧ (p_position self < length (p_tokens self))%nat.

Definition left_ (self : Parser) : nat := length (p_tokens self) - p_position self.

Definition moved (k : nat) (self self' : Parser) : Prop :=
  parser_wf self' ∧ (left_ self' + k ≤ left_ self)%nat.

Definition ends {A} (n k : nat) (m : parser A) : Prop :=
  ∀ self, parser_wf self → (left_ self ≤ n)%nat →
  ∃ r, m self = Some r ∧ ∀ a self', r = Ok (a, self') → moved k self self'.

Lemma left_pos self : parser_wf self → (0 < left_ self)%nat.
Proof. unfold left_. intros [_ ?]. lia. Qed.

Lemma p_fuel_left self : p_fuel self = S (left_ self).
Proof. done. Qed.

Lemma current_lookup self : parser_wf self → p_tokens self !! p_position self = Some (current self).
Proof.
  intros [_ Hp]. unfold current. destruct (lookup_lt_is_Some_2 _ _ Hp) as [t ->]. done.
Qed.

Lemma parse_step_wf self :
  parser_wf self → tk_kind (current self) ≠ TEof →
  moved 1 self (mkParser (p_tokens self) (S (p_position self)) (p_next_parameter self)).
Proof.
  intros Hwf Hk. pose proof (current_lookup _ Hwf) as Hc. destruct Hwf as [(t & Ht & Heof) Hp].
  assert (S (p_position self) < length (p_tokens self))%nat.
  { destruct (decide (S (p_position self) = length (p_tokens self))) as [E|]; [|lia].
    rewrite last_lookup, <- E in Ht. cbn in Ht. rewrite Hc in Ht. congruence. }
  unfold moved, parser_wf, left_. cbn. split; [|lia]. split; [by exists t|lia].
Qed.

Lemma ends_mono {A} n k n' k' (m : parser A) : ends n k m → (n' ≤ n)%nat → (k' ≤ k)%nat → ends n' k' m.
Proof.
  intros Hm Hn Hk self Hwf Hl. destruct (Hm self Hwf) as (r & -> & Hr); [lia|]. eexists. split; [done|].
  intros a self' Ha. destruct (Hr _ _ Ha). split; [done|lia].
Qed.

Lemma ends_ret {A} n (a : A) : ends n 0 (mret a).
Proof. intros self Hwf Hl. eexists. split; [done|]. intros ? ? [= <- <-]. split; [done|lia]. Qed.

Lemma ends_bind {A B} n j k (m : parser A) (f : A → parser B) :
  ends n j m → (∀ a, ends (n - j) (k - j) (f a)) → ends n k (m ≫= f).
Proof.
  intros Hm Hf self Hwf Hl. unfold mbind, parser_bind. destruct (Hm self Hwf Hl) as ([[a s]|e] & -> & Hr); [|by eexists].
  destruct (Hr _ _ eq_refl) as [Hwf' Hl'].
  destruct (Hf a s Hwf' ltac:(lia)) as (r & -> & Hr'). eexists. split; [done|].
  intros b self' Hb. destruct (Hr' _ _ Hb). split; [done|lia].
Qed.

Lemma ends_fail {A} n k (m : parser A) : (∀ self, ∃ e, m self = Some (Err e)) → ends n k m.
Proof. intros Hm self _ _. destruct (Hm self) as [e ->]. by eexists. Qed.

Lemma ends_read {A} n (f : Parser → A) : ends n 0 (λ self, Some (Ok (f self, self))).
Proof. intros self Hwf Hl. eexists. split; [done|]. intros ? ? [= <- <-]. split; [done|lia]. Qed.

Lemma ends_with_fuel {A} n k (f : nat → parser A) :
  (∀ m, (m ≤ n)%nat → ends m k (f (S m))) → ends n k (with_fuel f).
Proof. intros Hf self Hwf Hl. apply (Hf (left_ self) Hl self Hwf). done. Qed.

(** A branch on [consume]: the token was there and is behind us, or not. *)
Lemma ends_consume {B} n k kind (f : option Token → parser B) :
  kind ≠ TEof → (∀ t, ends (n - 1) (k - 1) (f (Some t))) → ends n k (f None) → ends n k (p_consume kind ≫= f).
Proof.
  intros Hk Hs Hn self Hwf Hl. unfold mbind, parser_bind, p_consume, mbind, parser_bind, at_.
  destruct (bool_decide (tk_kind (current self) = kind)) eqn:E; bool_prop; [|by apply Hn].
  unfold advance. rewrite (bool_decide_eq_false_2 (tk_kind (current self) = TEof)) by congruence.
  cbn. destruct (parse_step_wf self Hwf) as [Hwf' Hl']; [congruence|].
  destruct (Hs (current self) _ Hwf' ltac:(lia)) as (r & -> & Hr). eexists. split; [done|].
  intros b s Hb. destruct (Hr _ _ Hb). split; [done|lia].
Qed.

Lemma ends_consumed {B} n k kind (f : bool → parser B) :
  kind ≠ TEof → ends (n - 1) (k - 1) (f true) → ends n k (f false) → ends n k (consumed (p_consume kind) ≫= f).
Proof.
  intros Hk Ht Hf. assert (ends n k (p_consume kind ≫= λ o, f (match o with Some _ => true | None => false end))) as He.
  { apply ends_consume; auto. }
  intros self Hwf Hl. destruct (He self Hwf Hl) as (r & Hr & Hm). exists r. split; [|done].
  rewrite <- Hr. unfold consumed, mbind, parser_bind. by destruct (p_consume kind self) as [[[o s]|]|].
Qed.

Lemma ends_expect n kind message : kind ≠ TEof → ends n 1 (p_expect kind message).
Proof.
  intros Hk. apply ends_consume; [done|intros t; apply ends_ret|]. apply ends_fail. by eexists.
Qed.

(** [advance] moves unless the input is at its end, which every caller rejects. *)
Lemma ends_advance {B} n k (f : Token → parser B) :
  (∀ t, tk_kind t = TEof → ∀ self, ∃ e, f t self = Some (Err e)) →
  (∀ t, tk_kind t ≠ TEof → ends (n - 1) (k - 1) (f t)) → ends n k (advance ≫= f).
Proof.
  intros He Hf self Hwf Hl. unfold mbind, parser_bind, advance.
  destruct (bool_decide (tk_kind (current self) = TEof)) eqn:E; bool_prop.
  { destruct (He _ E self) as [e ->]. by eexists. }
  destruct (parse_step_wf self Hwf E) as [Hwf' Hl'].
  destruct (Hf _ E _ Hwf' ltac:(lia)) as (r & -> & Hr). eexists. split; [done|].
  intros b s Hb. destruct (Hr _ _ Hb). split; [done|lia].
Qed.

Section Ends.
Context `{UnicodeTables}.

Lemma ends_expect_keyword n keyword : ends n 1 (expect_keyword keyword).
Proof.
  apply ends_consume; [done|intros t; apply ends_ret|]. apply ends_fail. by eexists.
Qed.

Lemma ends_identifier n : ends n 1 identifier.
Proof.
  apply ends_advance; [intros t -> self; by eexists|]. intros t _.
  destruct (tk_kind t); first [apply ends_ret | apply ends_fail; by eexists].
Qed.

Lemma ends_data_type n : ends n 1 p_data_type.
Proof.
  apply ends_advance; [intros t -> self; by eexists|]. intros t _.
  destruct (tk_kind t) as [| []| | | | | | | | | | | | | | | |]; first [apply ends_ret | apply ends_fail; by eexists].
Qed.

(** The shapes the parser is built from. *)
Ltac ends_step :=
  match goal with
  | |- ends _ _ (consumed (consume_keyword _) ≫= _) => apply ends_consumed; [done|..]
  | |- ends _ _ (consumed (p_consume _) ≫= _) => apply ends_consumed; [done|..]
  | |- ends _ _ (consume_keyword _ ≫= _) => apply ends_consume; [done|intros ?|]
  | |- ends _ _ (p_consume _ ≫= _) => apply ends_consume; [done|intros ?|]
  | |- ends _ _ (p_expect _ _ ≫= _) => apply (ends_bind _ 1); [by apply ends_expect|intros ?]
  | |- ends _ _ (expect_keyword _ ≫= _) => apply (ends_bind _ 1); [apply ends_expect_keyword|intros ?]
  | |- ends _ _ (identifier ≫= _) => apply (ends_bind _ 1); [apply ends_identifier|intros ?]
  | |- ends _ _ (p_data_type ≫= _) => apply (ends_bind _ 1); [apply ends_data_type|intros ?]
  | |- ends _ _ (p_current ≫= _) => apply (ends_bind _ 0); [apply ends_read|intros ?]
  | |- ends _ _ (p_previous ≫= _) => apply (ends_bind _ 0); [apply ends_read|intros ?]
  | |- ends _ _ (at_ _ ≫= _) => apply (ends_bind _ 0); [apply ends_read|intros []]
  | |- ends _ _ (@mbind _ _ _ _ _ (@mret _ _ _ _)) => apply (ends_bind _ 0); [apply ends_ret|intros ?]
  | |- ends _ _ (@mbind _ _ _ _ _ (@mbind _ _ _ _ _ _)) => apply (ends_bind _ 0); [|intros ?]
  | |- ends _ _ (p_error_here _) => apply ends_fail; by eexists
  | |- ends _ _ (p_fail _) => apply ends_fail; by eexists
  | |- ends _ _ (fail_at_previous _) => apply ends_fail; by eexists
  | |- ends _ _ (fail_at_current _) => apply ends_fail; by eexists
  | |- ends _ _ (@mret _ _ _ _) => eapply (ends_mono _ 0); [apply ends_ret|reflexivity|lia]
  end.
Ltac ends_tac := repeat (cbn beta match; ends_step).

Lemma ends_comma_loop {A} (item : parser A) fuel : ∀ n,
  (∀ m, (m ≤ n)%nat → ends m 1 item) → (n < fuel)%nat → ends n 1 (comma_loop fuel item).
Proof.
  induction fuel as [|fuel IH]; intros n Hi Hn; [lia|]. cbn [comma_loop].
  apply (ends_bind _ 1); [by apply Hi|intros a]. apply ends_consumed; [done|..]; [|ends_tac].
  destruct n as [|n].
  { intros self Hwf Hl. pose proof (left_pos _ Hwf). lia. }
  apply (ends_bind _ 0); [|intros; ends_tac].
  eapply ends_mono; [apply (IH n)|..]; [|lia..]. intros. apply Hi. lia.
Qed.

Lemma ends_comma_separated {A} (item : parser A) n :
  (∀ m, (m ≤ n)%nat → ends m 1 item) → ends n 1 (comma_separated item).
Proof. intros Hi. apply ends_with_fuel. intros m Hm. apply ends_comma_loop; [|lia]. intros. apply Hi. lia. Qed.

Section Expressions.
Variable expr : parser SqlExpr.
Variable n : nat.
(** The recursive call is made only after a token. *)
Hypothesis Hexpr : ∀ m, (m < n)%nat → ends m 1 expr.

Lemma ends_aggregate m function start : (m < n)%nat → ends m 0 (aggregate expr function start).
Proof.
  intros Hm. unfold aggregate. ends_tac; cbn [Nat.sub].
  - apply (ends_bind _ 0); [case_match; ends_tac|intros ?]. ends_tac.
  - apply (ends_bind _ 1); [apply Hexpr; lia|intros; ends_tac].
Qed.

Lemma ends_primary m : (m ≤ n)%nat → ends m 1 (primary_expression expr).
Proof.
  intros Hm. destruct m as [|m].
  { intros self Hwf Hl. pose proof (left_pos _ Hwf). lia. }
  apply ends_advance; [intros t -> self; by eexists|]. intros t Ht. cbn [Nat.sub]. rewrite Nat.sub_0_r.
  destruct (tk_kind t) as [value quoted|[]| | | | | | | | | | | | | | | |];
    try (ends_tac; fail); try (apply ends_aggregate; lia).
  - unfold column_expression. ends_tac.
  - intros self Hwf Hl. eexists. split; [done|]. intros ? ? [= <- <-].
    unfold moved, parser_wf, left_ in *. cbn. split; [done|lia].
  - apply (ends_bind _ 1); [apply Hexpr; lia|intros ?]. ends_tac.
Qed.

Lemma ends_unary_loop fuel : ∀ m, (m ≤ n)%nat → (m < fuel)%nat → ends m 1 (unary_loop expr fuel).
Proof.
  induction fuel as [|fuel IH]; intros m Hm Hf; [lia|]. cbn [unary_loop].
  apply ends_consume; [done|intros t|by apply ends_primary].
  destruct m as [|m]; [intros self Hwf Hl; pose proof (left_pos _ Hwf); lia|].
  apply (ends_bind _ 1); [apply IH; lia|intros; ends_tac].
Qed.

Lemma ends_unary m : (m ≤ n)%nat → ends m 1 (unary_expression expr).
Proof. intros Hm. apply ends_with_fuel. intros. apply ends_unary_loop; lia. Qed.

Lemma ends_operator m : ends m 0 comparison_operator.
Proof. unfold comparison_operator. ends_tac. Qed.

Lemma ends_comparison m : (m ≤ n)%nat → ends m 1 (comparison_expression expr).
Proof.
  intros Hm. unfold comparison_expression. apply (ends_bind _ 1); [by apply ends_unary|intros e]. ends_tac.
  apply (ends_bind _ 0); [apply ends_operator|intros [op|]; [|ends_tac]].
  apply (ends_bind _ 0); [eapply ends_mono; [apply (ends_unary m); lia|lia..]|intros right].
  apply (ends_bind _ 0); [|intros; ends_tac].
  intros self Hwf Hl. unfold reject_chain. case_match; eexists; (split; [done|]); intros ? ? [=]; subst. split; [done|lia].
Qed.

Lemma ends_not_loop fuel : ∀ m, (m ≤ n)%nat → (m < fuel)%nat → ends m 1 (not_loop expr fuel).
Proof.
  induction fuel as [|fuel IH]; intros m Hm Hf; [lia|]. cbn [not_loop].
  apply ends_consume; [done|intros t|by apply ends_comparison].
  destruct m as [|m]; [intros self Hwf Hl; pose proof (left_pos _ Hwf); lia|].
  apply (ends_bind _ 1); [apply IH; lia|intros; ends_tac].
Qed.

Lemma ends_not m : (m ≤ n)%nat → ends m 1 (not_expression expr).
Proof. intros Hm. apply ends_with_fuel. intros. apply ends_not_loop; lia. Qed.

Lemma ends_binary_loop operand keyword op fuel : ∀ m e,
  (∀ j, (j ≤ m)%nat → ends j 1 operand) → (m < fuel)%nat → ends m 0 (binary_loop fuel keyword op operand e).
Proof.
  induction fuel as [|fuel IH]; intros m e Ho Hf; [lia|]. cbn [binary_loop]. ends_tac.
  destruct m as [|m]; [intros self Hwf Hl; pose proof (left_pos _ Hwf); lia|].
  apply (ends_bind _ 0); [eapply ends_mono; [apply (Ho m); lia|lia..]|intros r].
  eapply ends_mono; [apply (IH m)|..]; [|lia..]. intros. apply Ho. lia.
Qed.

Lemma ends_and m : (m ≤ n)%nat → ends m 1 (and_expression expr).
Proof.
  intros Hm. apply (ends_bind _ 1); [by apply ends_not|intros e]. apply ends_with_fuel. intros j Hj.
  apply ends_binary_loop; [|lia]. intros. apply ends_not. lia.
Qed.

Lemma ends_or m : (m ≤ n)%nat → ends m 1 (or_expression expr).
Proof.
  intros Hm. apply (ends_bind _ 1); [by apply ends_and|intros e]. apply ends_with_fuel. intros j Hj.
  apply ends_binary_loop; [|lia]. intros. apply ends_and. lia.
Qed.
End Expressions.

Lemma ends_expression_fuel fuel : ∀ n, (n < fuel)%nat → ends n 1 (expression_fuel fuel).
Proof.
  induction fuel as [|fuel IH]; intros n Hn; [lia|]. cbn [expression_fuel].
  apply (ends_or _ n); [|lia]. intros m Hm. apply IH. lia.
Qed.

Lemma ends_expression n : ends n 1 expression.
Proof. apply ends_with_fuel. intros. apply ends_expression_fuel. lia. Qed.

(** ** Statements *)

Lemma ends_column_clauses fuel : ∀ n a b c, (n < fuel)%nat → ends n 0 (column_clauses fuel a b c).
Proof.
  induction fuel as [|fuel IH]; intros n a b c Hn; [lia|]. cbn [column_clauses].
  destruct n as [|n]; [intros self Hwf Hl; pose proof (left_pos _ Hwf); lia|].
  ends_tac; try (destruct b; ends_tac); try (destruct c; ends_tac); cbn [orb];
    ends_tac; eapply ends_mono; try (apply (IH n)); lia.
Qed.

Lemma ends_column_def n : ends n 1 column_def.
Proof.
  unfold column_def. ends_tac. apply (ends_bind _ 0); [|intros [? ?]; ends_tac].
  apply ends_with_fuel. intros. apply ends_column_clauses. lia.
Qed.

Lemma ends_where n : ends n 0 where_clause.
Proof. unfold where_clause. ends_tac. apply (ends_bind _ 1); [apply ends_expression|intros; ends_tac]. Qed.

Lemma ends_limit n : ends n 0 limit_clause.
Proof. unfold limit_clause. ends_tac. apply (ends_bind _ 1); [apply ends_expression|intros; ends_tac]. Qed.

Lemma ends_by {A} n keyword (item : parser A) : (∀ m, ends m 1 item) → ends n 0 (by_clause keyword item).
Proof.
  intros Hi. unfold by_clause. ends_tac. eapply ends_mono; [apply (ends_comma_separated _ n)|lia..]. auto.
Qed.

Lemma ends_table_source n : ends n 1 table_source.
Proof.
  unfold table_source. apply (ends_bind _ 1); [apply ends_identifier|intros name]. ends_tac;
    (apply (ends_bind _ 0); [case_match; ends_tac|intros ?; ends_tac]).
Qed.

Lemma ends_select_item n : ends n 1 select_item.
Proof.
  unfold select_item. ends_tac. apply (ends_bind _ 1); [apply ends_expression|intros e]. ends_tac.
Qed.

Lemma ends_join_loop fuel : ∀ n, (n < fuel)%nat → ends n 0 (join_loop fuel).
Proof.
  induction fuel as [|fuel IH]; intros n Hn; [lia|]. cbn [join_loop].
  destruct n as [|n]; [intros self Hwf Hl; pose proof (left_pos _ Hwf); lia|].
  apply (ends_bind _ 0); [|intros [start|]; [|ends_tac]].
  { unfold join_start. ends_tac. }
  apply (ends_bind _ 1); [apply ends_table_source|intros right]. ends_tac.
  apply (ends_bind _ 0); [eapply ends_mono; [apply (ends_expression (S n))|lia..]|intros on].
  apply (ends_bind _ 0); [eapply ends_mono; [apply (IH n)|..]; lia|intros; ends_tac].
Qed.

Lemma ends_select n : ends n 1 select.
Proof.
  unfold select. ends_tac. cbn [Nat.sub].
  apply (ends_bind _ 1); [apply ends_comma_separated; intros; apply ends_select_item|intros ?]. ends_tac.
  apply (ends_bind _ 1); [apply ends_table_source|intros ?].
  apply (ends_bind _ 0); [apply ends_with_fuel; intros; apply ends_join_loop; lia|intros ?].
  apply (ends_bind _ 0); [apply ends_where|intros ?].
  apply (ends_bind _ 0); [apply ends_by, ends_expression|intros ?].
  apply (ends_bind _ 0); [apply ends_by|intros ?; apply (ends_bind _ 0); [apply ends_limit|intros; ends_tac]].
  intros m. apply (ends_bind _ 1); [apply ends_expression|intros e]. ends_tac.
Qed.

Lemma ends_create n : ends n 1 create.
Proof.
  unfold create, p_create_table, p_create_index. ends_tac.
  apply (ends_bind _ 1); [apply ends_comma_separated; intros; apply ends_column_def|intros ?]. ends_tac.
Qed.

Lemma ends_insert n : ends n 1 insert_statement.
Proof.
  unfold insert_statement. ends_tac. apply (ends_bind _ 0).
  { unfold insert_columns. ends_tac.
    apply (ends_bind _ 1); [apply ends_comma_separated; intros; apply ends_identifier|intros ?]. ends_tac. }
  intros ?. ends_tac.
  apply (ends_bind _ 1); [apply ends_comma_separated; intros; apply ends_expression|intros ?]. ends_tac.
Qed.

Lemma ends_update n : ends n 1 update_statement.
Proof.
  unfold update_statement. ends_tac. apply (ends_bind _ 1).
  { apply ends_comma_separated. intros. unfold assignment. ends_tac.
    apply (ends_bind _ 1); [apply ends_expression|intros; ends_tac]. }
  intros ?. apply (ends_bind _ 0); [apply ends_where|intros; ends_tac].
Qed.

Lemma ends_delete n : ends n 1 delete_statement.
Proof. unfold delete_statement. ends_tac. apply (ends_bind _ 0); [apply ends_where|intros; ends_tac]. Qed.

(** [ends] at one state. *)
Definition ends_at {A} (k : nat) (m : parser A) (self : Parser) : Prop :=
  ∃ r, m self = Some r ∧ ∀ a self', r = Ok (a, self') → moved k self self'.

Lemma ends_at_bind {A B} j k n (m : parser A) (f : A → parser B) self :
  ends_at j m self → (left_ self ≤ n)%nat → (∀ a, ends (n - j) (k - j) (f a)) → ends_at k (m ≫= f) self.
Proof.
  intros (r & Hm & Hr) Hl Hf. unfold ends_at, mbind, parser_bind. rewrite Hm.
  destruct r as [[a s]|e]; [|by eexists]. destruct (Hr _ _ eq_refl) as [Hwf' Hl'].
  destruct (Hf a s Hwf' ltac:(lia)) as (r & -> & Hr'). eexists. split; [done|].
  intros b self' Hb. destruct (Hr' _ _ Hb). split; [done|lia].
Qed.

Lemma advance_at self : parser_wf self → tk_kind (current self) ≠ TEof → ends_at 1 advance self.
Proof.
  intros Hwf Hk. unfold ends_at, advance. rewrite bool_decide_eq_false_2 by done.
  eexists. split; [done|]. intros ? ? [= <- <-]. by apply parse_step_wf.
Qed.

Lemma control_at st self : parser_wf self → tk_kind (current self) ≠ TEof → ends_at 1 (control st) self.
Proof.
  intros Hwf Hk. eapply (ends_at_bind 1); [by apply advance_at|done|]. intros ?. ends_tac.
Qed.

Lemma statement_at fuel : ∀ n self, (n < fuel)%nat → parser_wf self → (left_ self ≤ n)%nat →
  ends_at 1 (statement_fuel fuel) self.
Proof.
  induction fuel as [|fuel IH]; intros n self Hn Hwf Hl; [lia|]. cbn [statement_fuel].
  assert (∀ m : parser SqlStatement, ends_at 1 m self →
    ends_at 1 (value ← m; last ← p_previous; mret (value, span_join (tk_span (current self)) (tk_span last))) self) as Hgo.
  { intros m Hm. eapply (ends_at_bind 1); [done|done|]. intros v. ends_tac. }
  unfold mbind at 1, parser_bind at 1, p_current. apply Hgo.
  destruct (tk_kind (current self)) as [|[]| | | | | | | | | | | | | | | |] eqn:Hk;
    try (eexists; split; [done|done]); try (apply control_at; [done|congruence]).
  - by apply (ends_create n).
  - by apply (ends_delete n).
  - eapply (ends_at_bind 1 _ n); [apply advance_at; [done|congruence]|done|]. intros t.
    destruct n as [|n]; [pose proof (left_pos _ Hwf); lia|].
    apply (ends_bind _ 0); [|intros [inner span]; case_match; ends_tac].
    intros s Hs Hl'. destruct (IH n s ltac:(lia) Hs ltac:(lia)) as (r & -> & Hr). eexists. split; [done|].
    intros a s' Ha. destruct (Hr _ _ Ha). split; [done|lia].
  - by apply (ends_insert n).
  - eapply (ends_at_bind 1); [by apply (ends_select n)|done|]. intros s. ends_tac.
  - by apply (ends_update n).
Qed.

Lemma ends_statement n : ends n 1 statement.
Proof. apply ends_with_fuel. intros m Hm self Hwf Hl. by apply (statement_at (S m) m); [lia|..]. Qed.

Lemma ends_statements_loop fuel : ∀ n, (n < fuel)%nat → ends n 0 (statements_loop fuel).
Proof.
  induction fuel as [|fuel IH]; intros n Hn; [lia|]. cbn [statements_loop].
  destruct n as [|n]; [intros self Hwf Hl; pose proof (left_pos _ Hwf); lia|].
  assert (∀ x, ends n 0 (rest ← statements_loop fuel; mret (x :: rest))) as Hrest.
  { intros x. apply (ends_bind _ 0); [apply IH; lia|intros; ends_tac]. }
  ends_tac; [apply IH; lia|].
  apply (ends_bind _ 0).
  { intros self Hwf Hl. eexists. split; [done|]. intros ? ? [= <- <-].
    unfold moved, parser_wf, left_ in *. cbn. split; [done|lia]. }
  intros ?. apply (ends_bind _ 1); [apply ends_statement|intros s]. ends_tac;
    (eapply ends_mono; [apply Hrest|lia..]).
Qed.

(** A parsed list of tokens that [Eof] closes. *)
Lemma parse_tokens_total tokens :
  (∃ t, last tokens = Some t ∧ tk_kind t = TEof) → is_Some (parse_tokens tokens).
Proof.
  intros Hl. unfold parse_tokens. set (self := mkParser tokens 0 0).
  assert (parser_wf self) as Hwf.
  { split; [done|]. destruct Hl as (t & Ht & _). cbn. destruct tokens; [done|]. cbn. lia. }
  destruct (ends_statements_loop (p_fuel self) (left_ self)) with (self := self) as (r & -> & _); [|done..|].
  { rewrite p_fuel_left. lia. }
  destruct r as [[sts s]|e]; eauto.
Qed.

(** C32: the parser terminates on the tokens of every text: loops that take one
    turn per token left, and nesting bounded by the tokens left, never run out,
    so [parse_statements] is the result of the unbounded loops of the code. *)
Theorem parse_terminates source tokens :
  lex source = Ok tokens → ∃ r, parse_tokens tokens = Some r
    ∧ parse_statements source
      = (statements ← r;
         _ ← ensure (negb (is_empty statements))
               (mkSqlError ParseError "SQL input contains no statement" (mkSpan 0 (str_len source)));
         Ok statements).
Proof.
  intros Hl. destruct (lex_total source) as (_ & Ht). destruct (Ht tokens Hl) as (init & Htoks & _).
  destruct (parse_tokens_total tokens) as [r Hr].
  { rewrite Htoks. eexists. split; [by rewrite last_snoc|done]. }
  exists r. split; [done|]. unfold parse_statements. rewrite Hl. cbn. by rewrite Hr.
Qed.
End Ends.
