(* ===== verification/SqlPrinter.v ===== *)
(** * Writing expressions back as tokens

    The grammar of [parser.rs], as a printer: [OR], [AND] and [NOT] below the
    comparisons, these below [-], left-associative connectives, parentheses
    only where a looser operator stands under a tighter one.  The parser reads
    back every expression the printer writes. *)

From Stdlib Require Import Ascii String.
From S2P Require Import Prelude CoreTypes SqlAst SqlLexer SqlParser.

(** ** Trees without spans *)

Definition strip_ident (n : Ident) : Ident := mkIdent (id_value n) (id_quoted n) span_default.

Fixpoint strip (e : SqlExpr) : SqlExpr :=
  match e with
  | XLiteral v _ => XLiteral v span_default
  | XParameter i _ => XParameter i span_default
  | XColumn q n _ => XColumn (strip_ident <$> q) (strip_ident n) span_default
  | XUnary op e _ => XUnary op (strip e) span_default
  | XBinary l op r _ => XBinary (strip l) op (strip r) span_default
  | XIsNull e n _ => XIsNull (strip e) n span_default
  | XAggregateStar f _ => XAggregateStar f span_default
  | XAggregate f e _ => XAggregate f (strip e) span_default
  end.

Lemma strip_set_span e s : strip (x_set_span e s) = strip e.
Proof. by destruct e. Qed.

(** ** The printer *)

Definition print_ident (n : Ident) : list TokenKind := [TIdentifier (id_value n) (id_quoted n)].

Definition print_value (v : Value) : list TokenKind :=
  match v with
  | VNull => [TKeyword KNull]
  | VBool true => [TKeyword KTrue]
  | VBool false => [TKeyword KFalse]
  | v => [TLiteral v]
  end.

Definition comparison_token (op : SqlBinaryOp) : TokenKind :=
  match op with
  | SqlEq => TEq | SqlNotEq => TNotEq | SqlLt => TLt | SqlLtEq => TLtEq | SqlGt => TGt | SqlGtEq => TGtEq
  | SqlOr => TKeyword KOr | SqlAnd => TKeyword KAnd
  end.

Definition function_keyword (f : AggregateFunction) : Keyword :=
  match f with AggCount => KCount | AggSum => KSum | AggMin => KMin | AggMax => KMax end.

(** How tightly the outermost operator binds. *)
Definition level (e : SqlExpr) : nat :=
  match e with
  | XBinary _ SqlOr _ _ => 0
  | XBinary _ SqlAnd _ _ => 1
  | XUnary SqlNot _ _ => 2
  | XBinary _ _ _ _ | XIsNull _ _ _ => 3
  | XUnary SqlNegate _ _ => 4
  | _ => 5
  end.

Definition paren (b : bool) (ks : list TokenKind) : list TokenKind :=
  if b then [TLeftParen] ++ ks ++ [TRightParen] else ks.

Fixpoint print (k : nat) (e : SqlExpr) : list TokenKind :=
  paren (level e <? k)%nat
    match e with
    | XLiteral v _ => print_value v
    | XParameter _ _ => [TParameter]
    | XColumn None n _ => print_ident n
    | XColumn (Some q) n _ => print_ident q ++ [TDot] ++ print_ident n
    | XUnary SqlNot e _ => [TKeyword KNot] ++ print 2 e
    | XUnary SqlNegate e _ => [TMinus] ++ print 4 e
    | XBinary l SqlOr r _ => print 0 l ++ [TKeyword KOr] ++ print 1 r
    | XBinary l SqlAnd r _ => print 1 l ++ [TKeyword KAnd] ++ print 2 r
    | XBinary l op r _ => print 4 l ++ [comparison_token op] ++ print 4 r
    | XIsNull e negated _ =>
        print 4 e ++ [TKeyword KIs] ++ (if negated then [TKeyword KNot] else []) ++ [TKeyword KNull]
    | XAggregateStar f _ => [TKeyword (function_keyword f); TLeftParen; TStar; TRightParen]
    | XAggregate f e _ => [TKeyword (function_keyword f); TLeftParen] ++ print 0 e ++ [TRightParen]
    end.

(** The number of parameters; [numbered i e]: they are numbered from [i] on in
    the order of the text, and only [COUNT] takes [*]. *)
Fixpoint nparams (e : SqlExpr) : Z :=
  match e with
  | XParameter _ _ => 1
  | XUnary _ e _ | XIsNull e _ _ | XAggregate _ e _ => nparams e
  | XBinary l _ r _ => nparams l + nparams r
  | _ => 0
  end.

Fixpoint numbered (i : Z) (e : SqlExpr) : Prop :=
  match e with
  | XParameter j _ => j = i
  | XUnary _ e _ | XIsNull e _ _ | XAggregate _ e _ => numbered i e
  | XBinary l _ r _ => numbered i l ∧ numbered (i + nparams l) r
  | XAggregateStar f _ => f = AggCount
  | _ => True
  end.

Lemma nparams_nonneg e : 0 ≤ nparams e.
Proof. induction e; cbn; lia. Qed.

(** ** Runs of the parser *)

(** The tokens ahead have the kinds [ks]; [i] parameters so far. *)
Definition stand (self : Parser) (ks : list TokenKind) (i : Z) : Prop :=
  tk_kind <$> drop (p_position self) (p_tokens self) = ks ∧ p_next_parameter self = i.

Definition gives {A} (m : parser A) (P : A → Prop) (ks : list TokenKind) (i : Z) (ks' : list TokenKind) (i' : Z) : Prop :=
  ∀ self, stand self ks i → ∃ a self', m self = Some (Ok (a, self')) ∧ P a ∧ stand self' ks' i'.

Lemma stand_fuel self ks i : stand self ks i → p_fuel self = S (length ks).
Proof.
  intros [<- _]. unfold p_fuel. rewrite length_fmap, length_drop. done.
Qed.

Lemma stand_current self k ks i : stand self (k :: ks) i → tk_kind (current self) = k.
Proof.
  intros [Hk _]. unfold current. destruct (drop _ _) as [|t ts] eqn:Hd; [done|]. injection Hk as Ht _.
  rewrite <- (Nat.add_0_r (p_position self)), <- lookup_drop, Hd. done.
Qed.

Lemma stand_next self k ks i :
  stand self (k :: ks) i → stand (mkParser (p_tokens self) (S (p_position self)) (p_next_parameter self)) ks i.
Proof.
  intros [Hk Hi]. split; [|done]. cbn. destruct (drop _ _) as [|t ts] eqn:Hd; [done|]. injection Hk as _ Ht.
  rewrite <- Nat.add_1_r, <- drop_drop, Hd. done.
Qed.

Lemma gives_weaken {A} (m : parser A) (P Q : A → Prop) ks i ks' i' :
  gives m P ks i ks' i' → (∀ a, P a → Q a) → gives m Q ks i ks' i'.
Proof. intros Hm HPQ self Hs. destruct (Hm self Hs) as (a & s & ? & ? & ?). eauto 10. Qed.

Lemma gives_ret {A} (a : A) (P : A → Prop) ks i : P a → gives (mret a) P ks i ks i.
Proof. intros HP self Hs. by exists a, self. Qed.

Lemma gives_bind {A B} (m : parser A) (f : A → parser B) P Q ks i ks1 i1 ks' i' :
  gives m P ks i ks1 i1 → (∀ a, P a → gives (f a) Q ks1 i1 ks' i') → gives (m ≫= f) Q ks i ks' i'.
Proof.
  intros Hm Hf self Hs. destruct (Hm self Hs) as (a & s & Ha & HP & Hs1).
  unfold mbind, parser_bind. rewrite Ha. by apply Hf.
Qed.

Lemma gives_advance k ks i : k ≠ TEof → gives advance (λ t, tk_kind t = k) (k :: ks) i ks i.
Proof.
  intros Hk self Hs. pose proof (stand_current _ _ _ _ Hs) as Hc. unfold advance.
  rewrite bool_decide_eq_false_2 by congruence. eexists _, _. split; [done|]. split; [done|]. by apply stand_next with k.
Qed.

Lemma gives_read {A} (f : Parser → A) ks i : gives (λ self, Some (Ok (f self, self))) (λ _, True) ks i ks i.
Proof. intros self Hs. by exists (f self), self. Qed.

Lemma gives_current k ks i : gives p_current (λ t, tk_kind t = k) (k :: ks) i (k :: ks) i.
Proof. intros self Hs. exists (current self), self. by split; [|split; [eapply stand_current|]]. Qed.

Lemma gives_at k ks i kind : gives (at_ kind) (λ b, b = bool_decide (k = kind)) (k :: ks) i (k :: ks) i.
Proof.
  intros self Hs. eexists _, self. split; [done|]. split; [|done]. by rewrite (stand_current _ _ _ _ Hs).
Qed.

Lemma gives_consume k ks i : k ≠ TEof → gives (p_consume k) (λ o, is_Some o) (k :: ks) i ks i.
Proof.
  intros Hk. eapply gives_bind; [apply gives_at|]. cbn. intros b ->. rewrite bool_decide_eq_true_2 by done.
  eapply gives_bind; [by apply gives_advance|]. cbn. intros t _. apply gives_ret. eauto.
Qed.

Lemma gives_skip kind k ks i : k ≠ kind → gives (p_consume kind) (λ o, o = None) (k :: ks) i (k :: ks) i.
Proof.
  intros Hk. eapply gives_bind; [apply gives_at|]. cbn. intros b ->. rewrite bool_decide_eq_false_2 by done.
  by apply gives_ret.
Qed.

Lemma gives_consumed_yes k ks i : k ≠ TEof → gives (consumed (p_consume k)) (λ b, b = true) (k :: ks) i ks i.
Proof.
  intros Hk. eapply gives_bind; [by apply gives_consume|]. cbn. intros o [t ->]. by apply gives_ret.
Qed.

Lemma gives_consumed_no kind k ks i : k ≠ kind → gives (consumed (p_consume kind)) (λ b, b = false) (k :: ks) i (k :: ks) i.
Proof. intros Hk. eapply gives_bind; [by apply gives_skip|]. cbn. intros o ->. by apply gives_ret. Qed.

Lemma gives_expect k message ks i : k ≠ TEof → gives (p_expect k message) (λ _, True) (k :: ks) i ks i.
Proof. intros Hk. eapply gives_bind; [by apply gives_consume|]. cbn. intros o [t ->]. by apply gives_ret. Qed.

Lemma gives_with_fuel {A} (f : nat → parser A) P ks i ks' i' :
  gives (f (S (length ks))) P ks i ks' i' → gives (with_fuel f) P ks i ks' i'.
Proof. intros Hf self Hs. unfold with_fuel. rewrite (stand_fuel _ _ _ Hs). by apply Hf. Qed.
