(* ===== verification/SqlExprRoundtrip.v ===== *)
(** * The parser reads back every printed expression *)

From Stdlib Require Import Ascii String.
From S2P Require Import Prelude CoreTypes SqlAst SqlLexer SqlParser SqlPrinter.

(** What may stand after an expression printed at level [k]. *)
Definition follow (k : nat) (t : TokenKind) : bool :=
  match t with
  | TLeftParen | TDot => false
  | TKeyword KIs | TEq | TNotEq | TLt | TLtEq | TGt | TGtEq => (4 <=? k)%nat
  | TKeyword KAnd => (2 <=? k)%nat
  | TKeyword KOr => (1 <=? k)%nat
  | _ => true
  end.

Definition follows (k : nat) (ks : list TokenKind) : Prop :=
  match ks with t :: _ => follow k t = true | [] => False end.

Lemma follows_mono k k' ks : follows k ks → (k ≤ k')%nat → follows k' ks.
Proof.
  destruct ks as [|t ks]; [done|]. cbn [follows]. intros Hf Hk.
  destruct t as [|[]| | | | | | | | | | | | | | | |]; cbn [follow] in *; try done; apply Nat.leb_le in Hf; apply Nat.leb_le; lia.
Qed.

Lemma print_paren k e : print k e = paren (level e <? k)%nat (print 0 e).
Proof. by destruct e. Qed.

Lemma print_tight k k' e : (k ≤ level e)%nat → (k' ≤ level e)%nat → print k e = print k' e.
Proof. intros. rewrite (print_paren k), (print_paren k'). rewrite !(proj2 (Nat.ltb_ge _ _)) by lia. done. Qed.

Lemma print_loose k k' e : (level e < k)%nat → (level e < k')%nat → print k e = print k' e.
Proof. intros. rewrite (print_paren k), (print_paren k'). rewrite !(proj2 (Nat.ltb_lt _ _)) by lia. done. Qed.

(** A printed expression is not empty, and starts with [NOT] or [-] only where
    that is its operator. *)
Lemma print_head k e : ∃ t ks, print k e = t :: ks
  ∧ ((3 ≤ k)%nat ∨ (3 ≤ level e)%nat → t ≠ TKeyword KNot)
  ∧ ((5 ≤ k)%nat ∨ (5 ≤ level e)%nat → t ≠ TMinus) ∧ t ≠ TStar.
Proof.
  revert k. induction e as [v s|i s|q n s|op e IH s|l IHl op r IHr s|e IH neg s|f s|f e IH s]; intros k;
    rewrite print_paren; destruct (level _ <? k)%nat eqn:Hk;
    try (eexists _, _; split; [reflexivity|split_and!; intros; discriminate]);
    apply Nat.ltb_ge in Hk; cbn [paren print Nat.ltb Nat.leb].
  - destruct v as [| |[]| |]; eexists _, _; (split; [reflexivity|split_and!; intros; discriminate]).
  - destruct q; eexists _, _; (split; [reflexivity|split_and!; intros; discriminate]).
  - cbn in Hk. destruct op; eexists _, _; (split; [reflexivity|]); split_and!; intros; try discriminate; cbn in *; lia.
  - assert (∃ j ts, print 0 (XBinary l op r s) = print j l ++ ts
      ∧ ((3 ≤ level (XBinary l op r s))%nat → (3 ≤ j)%nat) ∧ (level (XBinary l op r s) < 5)%nat) as (j & ts & Hp & Hj & Hl).
    { destruct op; eexists _, _; (split; [reflexivity|]); cbn; lia. }
    destruct (IHl j) as (t & ks & Ht & H1 & H2 & H3). rewrite Ht in Hp. cbn [app] in Hp.
    exists t, (ks ++ ts). rewrite <- Hp. split; [by destruct op|]. split_and!; [|lia|done].
    intros ?. apply H1. left. apply Hj. lia.
  - cbn in Hk. destruct (IH 4%nat) as (t & ks & -> & H1 & H2 & H3). eexists _, _. split; [reflexivity|].
    split_and!; [intros; apply H1; lia|cbn; lia|done].
  - destruct f; eexists _, _; (split; [reflexivity|split_and!; intros; discriminate]).
  - destruct f; eexists _, _; (split; [reflexivity|split_and!; intros; discriminate]).
Qed.

Lemma print_length k e : (1 ≤ length (print k e))%nat.
Proof. destruct (print_head k e) as (t & ks & -> & _). cbn. lia. Qed.

Section Roundtrip.
Context `{UnicodeTables}.

Definition level_parser (k : nat) (expr : parser SqlExpr) : parser SqlExpr :=
  match k with
  | 0%nat => or_expression expr
  | 1%nat => and_expression expr
  | 2%nat => not_expression expr
  | 3%nat => comparison_expression expr
  | 4%nat => unary_expression expr
  | _ => primary_expression expr
  end.

Definition reads (m : parser SqlExpr) (e : SqlExpr) (ks : list TokenKind) (i : Z) (rest : list TokenKind) : Prop :=
  gives m (λ a, strip a = strip e) ks i rest (i + nparams e).

Lemma gives_expect_keyword keyword ks i :
  gives (expect_keyword keyword) (λ _, True) (TKeyword keyword :: ks) i ks i.
Proof. eapply gives_bind; [by apply gives_consume|]. cbn. intros o [t ->]. by apply gives_ret. Qed.

Lemma gives_identifier n ks i :
  gives identifier (λ a, strip_ident a = strip_ident n) (print_ident n ++ ks) i ks i.
Proof.
  eapply gives_bind; [by apply gives_advance|]. cbn. intros t ->. by apply gives_ret.
Qed.

Lemma gives_no_operator t ks i :
  follow 3 t = true → gives comparison_operator (λ o, o = None) (t :: ks) i (t :: ks) i.
Proof.
  intros Ht. unfold comparison_operator.
  do 6 (eapply gives_bind; [apply gives_consumed_no; by intros ->|]; cbn beta; intros ? ->; cbn match).
  by apply gives_ret.
Qed.

Lemma gives_operator op ks i :
  is_comparison op = true → gives comparison_operator (λ o, o = Some op) (comparison_token op :: ks) i ks i.
Proof.
  intros Hop. unfold comparison_operator.
  destruct op; try done; cbn [comparison_token];
    repeat (eapply gives_bind; [by apply gives_consumed_no|]; cbn beta; intros ? ->; cbn match);
    (eapply gives_bind; [by apply gives_consumed_yes|]; cbn beta; intros ? ->; cbn match); by apply gives_ret.
Qed.

(** From a level to the one below: nothing of the lower level follows. *)
Lemma lift k expr P t ks i rest i' :
  (k < 5)%nat → follows k rest → (k = 2%nat → t ≠ TKeyword KNot) → (k = 4%nat → t ≠ TMinus) →
  gives (level_parser (S k) expr) P (t :: ks) i rest i' → gives (level_parser k expr) P (t :: ks) i rest i'.
Proof.
  intros Hk Hf Hnot Hminus Hg. destruct rest as [|u rest]; [done|]. cbn [follows] in Hf.
  destruct k as [|[|[|[|[|k]]]]]; [..|lia]; cbn [level_parser] in *.
  - eapply gives_bind; [done|]. intros a Ha. apply gives_with_fuel. cbn [binary_loop].
    eapply gives_bind; [apply gives_consumed_no; by intros ->|]. cbn. intros b ->. by apply gives_ret.
  - eapply gives_bind; [done|]. intros a Ha. apply gives_with_fuel. cbn [binary_loop].
    eapply gives_bind; [apply gives_consumed_no; by intros ->|]. cbn. intros b ->. by apply gives_ret.
  - apply gives_with_fuel. cbn [not_loop]. eapply gives_bind; [apply gives_skip; auto|]. cbn. intros o ->. done.
  - eapply gives_bind; [done|]. intros a Ha.
    eapply gives_bind; [apply gives_consumed_no; by intros ->|]. cbn. intros b ->.
    eapply gives_bind; [by apply gives_no_operator|]. cbn. intros o ->. by apply gives_ret.
  - apply gives_with_fuel. cbn [unary_loop]. eapply gives_bind; [apply gives_skip; auto|]. cbn. intros o ->. done.
Qed.

Lemma lift_many j k expr P t ks i rest i' :
  (k ≤ j ≤ 5)%nat → follows k rest → ((3 ≤ j)%nat → t ≠ TKeyword KNot) → ((5 ≤ j)%nat → t ≠ TMinus) →
  gives (level_parser j expr) P (t :: ks) i rest i' → gives (level_parser k expr) P (t :: ks) i rest i'.
Proof.
  intros Hk Hf Hnot Hminus Hg. remember (j - k)%nat as d eqn:Hd. revert k Hk Hf Hd.
  induction d as [|d IH]; intros k Hk Hf Hd.
  - replace k with j by lia. done.
  - apply lift; [lia|done|intros; apply Hnot; lia|intros; apply Hminus; lia|].
    apply IH; [lia|by apply (follows_mono k); [|lia]|lia].
Qed.

(** ** The left-associative loops *)

Definition loop_keyword (k : nat) : Keyword := match k with O => KOr | _ => KAnd end.
Definition loop_op (k : nat) : SqlBinaryOp := match k with O => SqlOr | _ => SqlAnd end.

(** [level_parser k] has read [e] and stands at its loop. *)
Definition spine (k : nat) (expr : parser SqlExpr) (e : SqlExpr) (ks : list TokenKind) (i : Z) (rest : list TokenKind) : Prop :=
  ∀ self, stand self ks i → ∃ a fuel self',
    level_parser k expr self = binary_loop fuel (loop_keyword k) (loop_op k) (level_parser (S k) expr) a self'
    ∧ strip a = strip e ∧ stand self' rest (i + nparams e) ∧ (length rest < fuel)%nat.

Lemma spine_base k expr e ks i rest :
  (k ≤ 1)%nat → reads (level_parser (S k) expr) e ks i rest → spine k expr e ks i rest.
Proof.
  intros Hk Hr self Hs. destruct (Hr self Hs) as (a & s & Ha & HP & Hs').
  exists a, (S (length rest)), s. split_and!; [|done|done|lia].
  destruct k as [|[|k]]; [..|lia]; cbn [level_parser] in *;
    [unfold or_expression at 1|unfold and_expression at 1];
    unfold mbind, parser_bind; rewrite Ha; unfold with_fuel; by rewrite (stand_fuel _ _ _ Hs').
Qed.

Lemma spine_step k expr l r ks i ks2 rest s :
  spine k expr l ks i (TKeyword (loop_keyword k) :: ks2) →
  reads (level_parser (S k) expr) r ks2 (i + nparams l) rest → (length rest < length ks2)%nat →
  spine k expr (XBinary l (loop_op k) r s) ks i rest.
Proof.
  intros Hl Hr Hlen self Hs. destruct (Hl self Hs) as (a & fuel & s1 & Hp & Ha & Hs1 & Hf).
  destruct fuel as [|fuel]; [cbn in Hf; lia|].
  destruct (gives_consumed_yes (TKeyword (loop_keyword k)) ks2 (i + nparams l)) with (self := s1)
    as (b & s2 & Hb & -> & Hs2); [done..|].
  destruct (Hr s2 Hs2) as (r' & s3 & Hr' & Hstrip & Hs3).
  eexists _, fuel, s3. rewrite Hp. cbn [binary_loop]. unfold mbind, parser_bind.
  change (consumed (consume_keyword (loop_keyword k)) s1) with (consumed (p_consume (TKeyword (loop_keyword k))) s1).
  rewrite Hb, Hr'. split_and!; [done|cbn; by rewrite Ha, Hstrip| |cbn in Hf; lia].
  cbn [nparams]. by rewrite Z.add_assoc.
Qed.

Lemma spine_done k expr e ks i rest :
  (k ≤ 1)%nat → follows k rest → spine k expr e ks i rest → reads (level_parser k expr) e ks i rest.
Proof.
  intros Hk Hf Hsp self Hs. destruct (Hsp self Hs) as (a & fuel & s & -> & Ha & Hs' & Hlen).
  destruct fuel as [|fuel]; [lia|]. cbn [binary_loop]. destruct rest as [|t rest]; [done|]. cbn in Hf.
  assert (gives (consumed (consume_keyword (loop_keyword k))) (λ b, b = false) (t :: rest) (i + nparams e) (t :: rest) (i + nparams e)) as Hno.
  { apply gives_consumed_no. intros ->. destruct k as [|[|k]]; [done..|lia]. }
  destruct (Hno s Hs') as (b & s' & Hb & -> & Hs''). unfold mbind, parser_bind. rewrite Hb. by exists a, s'.
Qed.

(** ** Expressions *)

(** [e] at its own level, and at its loop when it is a connective. *)
Definition roundtrips (e : SqlExpr) : Prop := ∀ fuel i rest,
  numbered i e → 0 ≤ i → i + nparams e ≤ u64_max → (length (print 0 e ++ rest) ≤ fuel)%nat →
  (follows (level e) rest → reads (level_parser (level e) (expression_fuel fuel)) e (print 0 e ++ rest) i rest)
  ∧ ((level e ≤ 1)%nat → follows (S (level e)) rest →
     spine (level e) (expression_fuel fuel) e (print 0 e ++ rest) i rest).

Lemma roundtrips_paren e fuel i rest :
  roundtrips e → numbered i e → 0 ≤ i → i + nparams e ≤ u64_max →
  (length ([TLeftParen] ++ print 0 e ++ [TRightParen] ++ rest) ≤ fuel)%nat →
  reads (primary_expression (expression_fuel fuel)) e ([TLeftParen] ++ print 0 e ++ [TRightParen] ++ rest) i rest.
Proof.
  intros He Hn Hi Hu Hlen. destruct fuel as [|fuel]; [cbn in Hlen; lia|]. cbn [length app] in Hlen.
  eapply gives_bind; [by apply gives_advance|]. cbn beta. intros t Ht. rewrite Ht.
  eapply gives_bind with (P := λ a, strip a = strip e) (ks1 := TRightParen :: rest).
  - destruct (He fuel i (TRightParen :: rest) Hn Hi Hu ltac:(lia)) as [Hown _].
    destruct (print_head 0 e) as (u & us & Hus & H1 & H2 & _).
    cbn [expression_fuel]. change (or_expression ?x) with (level_parser 0 x).
    specialize (Hown eq_refl). cbn [app]. rewrite Hus in *. cbn [app] in *.
    assert (level e ≤ 5)%nat by (destruct e as [| | |[]|? []| | |]; cbn; lia).
    eapply (lift_many (level e)); [lia|done| | |exact Hown]; auto.
  - intros a Ha. eapply gives_bind; [by apply gives_expect|]. intros r _. apply gives_ret. by rewrite strip_set_span.
Qed.

Lemma level_le e : (level e ≤ 5)%nat.
Proof. destruct e as [| | |[]|? []| | |]; cbn; lia. Qed.

(** The same at any level, with parentheses where the printer puts them. *)
Lemma roundtrips_at e k fuel i rest :
  roundtrips e → (k ≤ 5)%nat → numbered i e → 0 ≤ i → i + nparams e ≤ u64_max →
  (length (print k e ++ rest) ≤ fuel)%nat → follows k rest →
  reads (level_parser k (expression_fuel fuel)) e (print k e ++ rest) i rest.
Proof.
  intros He Hk Hn Hi Hu Hlen Hf. pose proof (level_le e).
  destruct (le_lt_dec k (level e)) as [Hle|Hlt].
  - rewrite (print_tight k 0) in * by lia. destruct (He fuel i rest Hn Hi Hu Hlen) as [Hown _].
    specialize (Hown (follows_mono _ _ _ Hf Hle)).
    destruct (print_head 0 e) as (u & us & Hus & H1 & H2 & _). rewrite Hus in *. cbn [app] in *.
    eapply (lift_many (level e)); [lia|done| | |exact Hown]; auto.
  - rewrite print_paren in *. rewrite (proj2 (Nat.ltb_lt _ _)) in * by lia. cbn [paren] in *.
    rewrite <- !app_assoc in *. pose proof (roundtrips_paren e fuel i rest He Hn Hi Hu Hlen) as Hp.
    cbn [app] in *. apply (lift_many 5); [lia|done..].
Qed.

Lemma spine_at e k fuel i rest :
  roundtrips e → (k ≤ 1)%nat → numbered i e → 0 ≤ i → i + nparams e ≤ u64_max →
  (length (print k e ++ rest) ≤ fuel)%nat → follows (S k) rest →
  spine k (expression_fuel fuel) e (print k e ++ rest) i rest.
Proof.
  intros He Hk Hn Hi Hu Hlen Hf. destruct (decide (level e = k)) as [<-|Hne].
  - rewrite (print_tight _ 0) in * by lia. destruct (He fuel i rest Hn Hi Hu Hlen) as [_ Hsp]. by apply Hsp.
  - assert (print k e = print (S k) e) as Heq.
    { destruct (le_lt_dec k (level e)); [apply print_tight; lia|apply print_loose; lia]. }
    rewrite Heq in *. apply spine_base; [done|]. apply roundtrips_at; auto. lia.
Qed.

(** Lengths of the printed pieces. *)
Ltac len := repeat (rewrite ?length_app in *; cbn [app length] in *); lia.

Lemma roundtrips_binary l op r s : roundtrips l → roundtrips r → roundtrips (XBinary l op r s).
Proof.
  intros Hl Hr fuel i rest [Hnl Hnr] Hi Hu Hlen. cbn [nparams] in Hu.
  pose proof (nparams_nonneg l). pose proof (nparams_nonneg r).
  destruct (is_comparison op) eqn:Hop.
  - assert (level (XBinary l op r s) = 3%nat) as Hlv by (by destruct op).
    assert (print 0 (XBinary l op r s) = print 4 l ++ [comparison_token op] ++ print 4 r) as Hpr by (by destruct op).
    rewrite Hlv, Hpr in *. split; [|lia]. intros Hf. cbn [level_parser]. rewrite <- !app_assoc in *.
    eapply gives_bind with (P := λ a, strip a = strip l) (ks1 := [comparison_token op] ++ print 4 r ++ rest).
    { apply (roundtrips_at l 4); [done|lia|done|lia|lia|done|by destruct op]. }
    intros a Ha. cbn [app].
    eapply gives_bind; [apply gives_consumed_no; by destruct op|]. cbn beta. intros b ->. cbn match.
    eapply gives_bind; [by apply gives_operator|]. cbn beta. intros o ->.
    eapply gives_bind with (P := λ a, strip a = strip r) (ks1 := rest).
    { apply (roundtrips_at r 4); [done|lia|done|lia|lia|len|by apply (follows_mono 3); [|lia]]. }
    intros b Hb. cbn [nparams]. rewrite Z.add_assoc.
    eapply gives_bind with (P := λ _, True).
    { intros self Hs. unfold reject_chain, is_comparison_token. destruct rest as [|t rest]; [done|].
      rewrite (stand_current _ _ _ _ Hs). exists tt, self. split; [|done]. destruct t as [|[]| | | | | | | | | | | | | | | |]; done. }
    intros _ _. apply gives_ret. cbn. by rewrite Ha, Hb.
  - set (k := level (XBinary l op r s)) in *. assert (k ≤ 1)%nat as Hk by (subst k; destruct op; cbn in *; done || lia).
    assert (op = loop_op k) as Hopk by (subst k; by destruct op).
    assert (print 0 (XBinary l op r s) = print k l ++ [TKeyword (loop_keyword k)] ++ print (S k) r) as Hpr
      by (subst k; by destruct op).
    rewrite Hpr in *. clearbody k. subst op. rewrite <- !app_assoc in *.
    assert (follows (S k) rest → spine k (expression_fuel fuel) (XBinary l (loop_op k) r s)
      (print k l ++ [TKeyword (loop_keyword k)] ++ print (S k) r ++ rest) i rest) as Hsp.
    { intros Hf. eapply spine_step.
      - apply spine_at; [done|done|done|lia|lia|done|]. destruct k as [|[|k]]; done || lia.
      - apply roundtrips_at; [done|lia|done|lia|lia|len|done].
      - pose proof (print_length (S k) r). rewrite length_app. lia. }
    split; [|done]. intros Hf. apply spine_done; [done|done|]. apply Hsp. by apply (follows_mono k); [|lia].
Qed.

(** Expressions at level 2 and up have no loop of their own. *)
Lemma roundtrips_intro e :
  (2 ≤ level e)%nat →
  (∀ fuel i rest, numbered i e → 0 ≤ i → i + nparams e ≤ u64_max → (length (print 0 e ++ rest) ≤ fuel)%nat →
     follows (level e) rest → reads (level_parser (level e) (expression_fuel fuel)) e (print 0 e ++ rest) i rest) →
  roundtrips e.
Proof. intros Hl He fuel i rest Hn Hi Hu Hlen. split; [by apply He|lia]. Qed.

Lemma roundtrips_not e s : roundtrips e → roundtrips (XUnary SqlNot e s).
Proof.
  intros He. apply roundtrips_intro; [cbn; lia|]. intros fuel i rest Hn Hi Hu Hlen Hf.
  cbn [level level_parser print paren Nat.ltb Nat.leb app nparams numbered] in *.
  pose proof (roundtrips_at e 2 fuel i rest He ltac:(lia) Hn Hi Hu ltac:(len) Hf) as Hr.
  apply gives_with_fuel. cbn [length not_loop].
  eapply gives_bind; [by apply gives_consume|]. cbn beta. intros o [t ->].
  eapply gives_bind with (P := λ a, strip a = strip e) (ks1 := rest).
  - intros self Hs. destruct (Hr self Hs) as (a & s' & Ha & HP & Hs'). exists a, s'. split; [|done].
    cbn [level_parser] in Ha. unfold not_expression, with_fuel in Ha. by rewrite (stand_fuel _ _ _ Hs) in Ha.
  - intros a Ha. apply gives_ret. cbn. by rewrite Ha.
Qed.

Lemma roundtrips_negate e s : roundtrips e → roundtrips (XUnary SqlNegate e s).
Proof.
  intros He. apply roundtrips_intro; [cbn; lia|]. intros fuel i rest Hn Hi Hu Hlen Hf.
  cbn [level level_parser print paren Nat.ltb Nat.leb app nparams numbered] in *.
  pose proof (roundtrips_at e 4 fuel i rest He ltac:(lia) Hn Hi Hu ltac:(len) Hf) as Hr.
  apply gives_with_fuel. cbn [length unary_loop].
  eapply gives_bind; [by apply gives_consume|]. cbn beta. intros o [t ->].
  eapply gives_bind with (P := λ a, strip a = strip e) (ks1 := rest).
  - intros self Hs. destruct (Hr self Hs) as (a & s' & Ha & HP & Hs'). exists a, s'. split; [|done].
    cbn [level_parser] in Ha. unfold unary_expression, with_fuel in Ha. by rewrite (stand_fuel _ _ _ Hs) in Ha.
  - intros a Ha. apply gives_ret. cbn. by rewrite Ha.
Qed.

Lemma roundtrips_is_null e neg s : roundtrips e → roundtrips (XIsNull e neg s).
Proof.
  intros He. apply roundtrips_intro; [cbn; lia|]. intros fuel i rest Hn Hi Hu Hlen Hf.
  cbn [level level_parser print paren Nat.ltb Nat.leb nparams numbered] in *. rewrite <- !app_assoc in *.
  eapply gives_bind with (P := λ a, strip a = strip e).
  { apply (roundtrips_at e 4); [done|lia|done|lia|lia|done|done]. }
  intros a Ha. cbn [app]. eapply gives_bind; [by apply gives_consumed_yes|]. cbn beta. intros b ->. cbn match.
  eapply gives_bind with (P := λ b, b = neg) (ks1 := TKeyword KNull :: rest) (i1 := i + nparams e).
  { destruct neg; [by apply gives_consumed_yes|by apply gives_consumed_no]. }
  intros b ->. eapply gives_bind; [apply gives_expect_keyword|]. intros _ _.
  eapply gives_bind; [apply gives_read|]. intros l _. apply gives_ret. cbn. by rewrite Ha.
Qed.

(** The head of an aggregate call leads to [aggregate]. *)
Lemma gives_aggregate_call f expr P ks i rest i' :
  (∀ span, gives (aggregate expr f span) P ks i rest i') →
  gives (primary_expression expr) P (TKeyword (function_keyword f) :: ks) i rest i'.
Proof.
  intros Hg. eapply gives_bind; [by apply gives_advance|]. cbn beta. intros t Ht. rewrite Ht.
  destruct f; apply Hg.
Qed.

Lemma roundtrips_aggregate f e s : roundtrips e → roundtrips (XAggregate f e s).
Proof.
  intros He. apply roundtrips_intro; [cbn; lia|]. intros fuel i rest Hn Hi Hu Hlen Hf.
  cbn [level level_parser print paren Nat.ltb Nat.leb nparams numbered app] in *. rewrite <- !app_assoc in *.
  apply gives_aggregate_call. intros span. destruct fuel as [|fuel]; [cbn in Hlen; lia|].
  eapply gives_bind; [by apply gives_expect|]. intros _ _.
  destruct (print_head 0 e) as (u & us & Hus & H1 & H2 & H3).
  eapply gives_bind with (ks1 := print 0 e ++ [TRightParen] ++ rest) (i1 := i) (P := λ b, b = false).
  { rewrite Hus. by apply gives_consumed_no. }
  intros b ->. cbn match. eapply gives_bind with (P := λ o, ∃ a, o = Some a ∧ strip a = strip e) (ks1 := TRightParen :: rest) (i1 := i + nparams e).
  { eapply gives_bind with (P := λ a, strip a = strip e); [|intros a Ha; apply gives_ret; eauto].
    apply (roundtrips_at e 0 fuel); [done|lia|done|lia|lia|len|done]. }
  intros o (a & -> & Ha). eapply gives_bind; [by apply gives_expect|]. intros r _.
  apply gives_ret. cbn. by rewrite Ha.
Qed.

Lemma roundtrips_aggregate_star f s : roundtrips (XAggregateStar f s).
Proof.
  apply roundtrips_intro; [cbn; lia|]. intros fuel i rest Hn Hi Hu Hlen Hf.
  cbn [level level_parser print paren Nat.ltb Nat.leb nparams numbered app] in *. subst f.
  apply gives_aggregate_call. intros span. rewrite Z.add_0_r.
  eapply gives_bind; [by apply gives_expect|]. intros _ _.
  eapply gives_bind; [by apply gives_consumed_yes|]. cbn beta. intros b ->.
  eapply gives_bind; [apply (gives_ret None (λ o, o = None)); done|]. intros o ->.
  eapply gives_bind; [by apply gives_expect|]. intros r _. by apply gives_ret.
Qed.

Lemma roundtrips_column q n s : roundtrips (XColumn q n s).
Proof.
  apply roundtrips_intro; [cbn; lia|]. intros fuel i rest Hn Hi Hu Hlen Hf.
  cbn [level level_parser print paren Nat.ltb Nat.leb nparams] in *. unfold reads. cbn [nparams]. rewrite Z.add_0_r.
  destruct q as [q|]; cbn [app print_ident] in *.
  - eapply gives_bind; [by apply gives_advance|]. cbn beta. intros t Ht. rewrite Ht. unfold column_expression.
    eapply gives_bind; [apply gives_at|]. cbn beta. intros b ->.
    eapply gives_bind; [by apply gives_consumed_yes|]. cbn beta. intros b ->.
    eapply gives_bind; [apply (gives_identifier n)|]. intros m Hm. apply gives_ret. cbn. by rewrite Hm.
  - eapply gives_bind; [by apply gives_advance|]. cbn beta. intros t Ht. rewrite Ht. unfold column_expression.
    destruct rest as [|u rest]; [done|]. cbn in Hf.
    eapply gives_bind; [apply gives_at|]. cbn beta. intros b ->. rewrite bool_decide_eq_false_2 by (by intros ->).
    eapply gives_bind; [apply gives_consumed_no; by intros ->|]. cbn beta. intros b ->. by apply gives_ret.
Qed.

Lemma roundtrips_literal v s : roundtrips (XLiteral v s).
Proof.
  apply roundtrips_intro; [cbn; lia|]. intros fuel i rest Hn Hi Hu Hlen Hf.
  cbn [level level_parser print paren Nat.ltb Nat.leb nparams] in *. unfold reads. cbn [nparams]. rewrite Z.add_0_r.
  destruct v as [| |[]| |]; (eapply gives_bind; [by apply gives_advance|]; cbn beta; intros t Ht; rewrite Ht; by apply gives_ret).
Qed.

Lemma roundtrips_parameter j s : roundtrips (XParameter j s).
Proof.
  apply roundtrips_intro; [cbn; lia|]. intros fuel i rest Hn Hi Hu Hlen Hf.
  cbn [level level_parser print paren Nat.ltb Nat.leb nparams numbered app] in *. subst j.
  eapply gives_bind; [by apply gives_advance|]. cbn beta. intros t Ht. rewrite Ht.
  intros self [Hk Hp]. eexists _, _. split; [done|]. cbn. rewrite Hp. split; [done|]. split; [done|].
  cbn. rewrite wrapping_add_small by lia. done.
Qed.

Lemma expression_roundtrips e : roundtrips e.
Proof.
  induction e as [v s|i s|q n s|[] e IH s|l IHl op r IHr s|e IH neg s|f s|f e IH s];
    auto using roundtrips_literal, roundtrips_parameter, roundtrips_column, roundtrips_not, roundtrips_negate,
      roundtrips_binary, roundtrips_is_null, roundtrips_aggregate_star, roundtrips_aggregate.
Qed.

(** [expression] reads back a printed expression. *)
Lemma gives_expression e i rest :
  numbered i e → 0 ≤ i → i + nparams e ≤ u64_max → follows 0 rest → reads expression e (print 0 e ++ rest) i rest.
Proof.
  intros Hn Hi Hu Hf. apply gives_with_fuel. cbn [expression_fuel].
  apply (roundtrips_at e 0); [apply expression_roundtrips|lia|done|lia|lia|lia|done].
Qed.
End Roundtrip.
