(* ===== verification/SqlRoundtrip.v ===== *)
(** * The parser reads back every printed statement *)

From Stdlib Require Import Ascii String.
From S2P Require Import Prelude CoreTypes SqlAst SqlLexer SqlParser SqlPrinter SqlExprRoundtrip.

(** ** Statements without spans *)

Definition strip_column (c : ColumnDef) : ColumnDef :=
  mkColumnDef (strip_ident (cd_name c)) (cd_data_type c) (cd_nullable c) (cd_primary_key c) span_default.
Definition strip_source (t : TableSource) : TableSource :=
  mkTableSource (strip_ident (ts_name t)) (strip_ident <$> ts_alias t) span_default.
Definition strip_join (j : Join) : Join := mkJoin (strip_source (j_right j)) (strip (j_on j)) span_default.
Definition strip_item (i : SelectItem) : SelectItem :=
  match i with
  | Wildcard _ => Wildcard span_default
  | SelectExpr e alias => SelectExpr (strip e) (strip_ident <$> alias)
  end.
Definition strip_assignment (a : Ident * SqlExpr) : Ident * SqlExpr := (strip_ident a.1, strip a.2).
Definition strip_order (o : SqlExpr * OrderDirection) : SqlExpr * OrderDirection := (strip o.1, o.2).

Definition strip_select (s : Select) : Select :=
  mkSelect (strip_item <$> sel_projection s) (strip_source (sel_from s)) (strip_join <$> sel_joins s)
    (strip <$> sel_selection s) (strip <$> sel_group_by s) (strip_order <$> sel_order_by s) (strip <$> sel_limit s).

Fixpoint strip_statement (s : SqlStatement) : SqlStatement :=
  match s with
  | StCreateTable name columns => StCreateTable (strip_ident name) (strip_column <$> columns)
  | StCreateIndex name table column => StCreateIndex (strip_ident name) (strip_ident table) (strip_ident column)
  | StInsert table columns values =>
      StInsert (strip_ident table) ((λ names : list Ident, strip_ident <$> names) <$> columns) (strip <$> values)
  | StUpdate table assignments selection =>
      StUpdate (strip_ident table) (strip_assignment <$> assignments) (strip <$> selection)
  | StDelete table selection => StDelete (strip_ident table) (strip <$> selection)
  | StSelect s => StSelect (strip_select s)
  | StBegin => StBegin
  | StCommit => StCommit
  | StRollback => StRollback
  | StExplain s _ => StExplain (strip_statement s) span_default
  end.

(** ** The printer *)

Fixpoint print_list {A} (pr : A → list TokenKind) (l : list A) : list TokenKind :=
  match l with
  | [] => []
  | [x] => pr x
  | x :: l => pr x ++ [TComma] ++ print_list pr l
  end.

Definition type_keyword (t : DataType) : Keyword :=
  match t with Int64 => KInt64 | Bool => KBool | Text => KText | Bytes => KBytes end.

Definition print_column (c : ColumnDef) : list TokenKind :=
  print_ident (cd_name c) ++ [TKeyword (type_keyword (cd_data_type c))]
  ++ (if cd_primary_key c then [TKeyword KPrimary; TKeyword KKey]
      else if cd_nullable c then [] else [TKeyword KNot; TKeyword KNull]).

Definition print_source (t : TableSource) : list TokenKind :=
  print_ident (ts_name t) ++ match ts_alias t with Some a => TKeyword KAs :: print_ident a | None => [] end.

Definition print_join (j : Join) : list TokenKind :=
  [TKeyword KJoin] ++ print_source (j_right j) ++ [TKeyword KOn] ++ print 0 (j_on j).

Definition print_item (i : SelectItem) : list TokenKind :=
  match i with
  | Wildcard _ => [TStar]
  | SelectExpr e alias => print 0 e ++ match alias with Some a => TKeyword KAs :: print_ident a | None => [] end
  end.

Definition print_order (o : SqlExpr * OrderDirection) : list TokenKind :=
  print 0 o.1 ++ [TKeyword (match o.2 with Asc => KAsc | Desc => KDesc end)].

Definition print_assignment (a : Ident * SqlExpr) : list TokenKind := print_ident a.1 ++ [TEq] ++ print 0 a.2.

(** A clause with one expression, and one with a list. *)
Definition print_clause (keyword : Keyword) (e : option SqlExpr) : list TokenKind :=
  match e with Some e => TKeyword keyword :: print 0 e | None => [] end.
Definition print_by {A} (keyword : Keyword) (pr : A → list TokenKind) (l : list A) : list TokenKind :=
  match l with [] => [] | l => TKeyword keyword :: TKeyword KBy :: print_list pr l end.

Definition print_select (s : Select) : list TokenKind :=
  [TKeyword KSelect] ++ print_list print_item (sel_projection s) ++ [TKeyword KFrom] ++ print_source (sel_from s)
  ++ (sel_joins s ≫= print_join) ++ print_clause KWhere (sel_selection s)
  ++ print_by KGroup (print 0) (sel_group_by s) ++ print_by KOrder print_order (sel_order_by s)
  ++ print_clause KLimit (sel_limit s).

Fixpoint print_statement (s : SqlStatement) : list TokenKind :=
  match s with
  | StCreateTable name columns =>
      [TKeyword KCreate; TKeyword KTable] ++ print_ident name ++ [TLeftParen] ++ print_list print_column columns ++ [TRightParen]
  | StCreateIndex name table column =>
      [TKeyword KCreate; TKeyword KIndex] ++ print_ident name ++ [TKeyword KOn] ++ print_ident table
      ++ [TLeftParen] ++ print_ident column ++ [TRightParen]
  | StInsert table columns values =>
      [TKeyword KInsert; TKeyword KInto] ++ print_ident table
      ++ match columns with Some names => [TLeftParen] ++ print_list print_ident names ++ [TRightParen] | None => [] end
      ++ [TKeyword KValues; TLeftParen] ++ print_list (print 0) values ++ [TRightParen]
  | StUpdate table assignments selection =>
      [TKeyword KUpdate] ++ print_ident table ++ [TKeyword KSet] ++ print_list print_assignment assignments
      ++ print_clause KWhere selection
  | StDelete table selection =>
      [TKeyword KDelete; TKeyword KFrom] ++ print_ident table ++ print_clause KWhere selection
  | StSelect s => print_select s
  | StBegin => [TKeyword KBegin]
  | StCommit => [TKeyword KCommit]
  | StRollback => [TKeyword KRollback]
  | StExplain s _ => [TKeyword KExplain] ++ print_statement s
  end.

(** ** Statements the grammar has *)

(** [e] is written after [i] parameters. *)
Definition expr_ok (i : Z) (e : SqlExpr) : Prop := numbered i e ∧ 0 ≤ i ∧ i + nparams e ≤ u64_max.

Section Lists.
Context {A : Type} (np : A → Z) (ok : Z → A → Prop).
Definition np_list (l : list A) : Z := foldr (λ x n, np x + n) 0 l.
Fixpoint list_ok (i : Z) (l : list A) : Prop :=
  match l with [] => True | x :: l => ok i x ∧ list_ok (i + np x) l end.
Definition np_option (o : option A) : Z := match o with Some x => np x | None => 0 end.
Definition option_ok (i : Z) (o : option A) : Prop := match o with Some x => ok i x | None => True end.
End Lists.

Definition np_item (i : SelectItem) : Z := match i with Wildcard _ => 0 | SelectExpr e _ => nparams e end.
Definition item_ok (i : Z) (item : SelectItem) : Prop :=
  match item with Wildcard _ => True | SelectExpr e _ => expr_ok i e end.

Definition select_ok (s : Select) : Prop :=
  let i1 := np_list np_item (sel_projection s) in
  let i2 := i1 + np_list (nparams ∘ j_on) (sel_joins s) in
  let i3 := i2 + np_option nparams (sel_selection s) in
  let i4 := i3 + np_list nparams (sel_group_by s) in
  let i5 := i4 + np_list (nparams ∘ fst) (sel_order_by s) in
  sel_projection s ≠ [] ∧ list_ok np_item item_ok 0 (sel_projection s)
  ∧ list_ok (nparams ∘ j_on) (λ i j, expr_ok i (j_on j)) i1 (sel_joins s)
  ∧ option_ok expr_ok i2 (sel_selection s)
  ∧ list_ok nparams expr_ok i3 (sel_group_by s)
  ∧ list_ok (nparams ∘ fst) (λ i o, expr_ok i o.1) i4 (sel_order_by s)
  ∧ option_ok expr_ok i5 (sel_limit s).

(** Lists that the grammar wants non-empty are, parameters are numbered in the
    order of the text, a nullable column is no primary key, [EXPLAIN] does not
    nest. *)
Fixpoint statement_ok (s : SqlStatement) : Prop :=
  match s with
  | StCreateTable _ columns => columns ≠ [] ∧ Forall (λ c, cd_primary_key c = true → cd_nullable c = false) columns
  | StInsert _ columns values => columns ≠ Some [] ∧ values ≠ [] ∧ list_ok nparams expr_ok 0 values
  | StUpdate _ assignments selection =>
      assignments ≠ [] ∧ list_ok (nparams ∘ snd) (λ i a, expr_ok i a.2) 0 assignments
      ∧ option_ok expr_ok (np_list (nparams ∘ snd) assignments) selection
  | StDelete _ selection => option_ok expr_ok 0 selection
  | StSelect s => select_ok s
  | StExplain s _ => statement_ok s ∧ is_explain s = false
  | _ => True
  end.

(** ** Reading lists *)

Section Statements.
Context `{UnicodeTables}.

Lemma gives_comma_loop {A} (item : parser A) (pr : A → list TokenKind) (np : A → Z) (ok : Z → A → Prop)
    (f : A → A) (fol : list TokenKind → Prop) :
  (∀ ks, fol (TComma :: ks)) →
  (∀ x i rest, ok i x → fol rest → gives item (λ a, f a = f x) (pr x ++ rest) i rest (i + np x)) →
  ∀ l fuel i t rest, l ≠ [] → (length l ≤ fuel)%nat → list_ok np ok i l → fol (t :: rest) → t ≠ TComma →
  gives (comma_loop fuel item) (λ a, f <$> a = f <$> l) (print_list pr l ++ t :: rest) i (t :: rest) (i + np_list np l).
Proof.
  intros Hcomma Hitem l. induction l as [|x l IH]; intros fuel i t rest Hne Hf Hok Hfol Ht; [done|].
  destruct fuel as [|fuel]; [cbn in Hf; lia|]. cbn [comma_loop]. destruct Hok as [Hx Hl].
  destruct l as [|y l].
  - cbn [print_list]. eapply gives_bind; [by apply Hitem|]. intros a Ha.
    eapply gives_bind; [by apply gives_consumed_no|]. cbn beta. intros b ->. cbn match. cbn. rewrite Z.add_0_r.
    apply gives_ret. cbn. by rewrite Ha.
  - change (print_list pr (x :: y :: l)) with (pr x ++ [TComma] ++ print_list pr (y :: l)).
    rewrite <- !app_assoc. eapply gives_bind; [apply Hitem; [done|apply Hcomma]|]. intros a Ha.
    eapply gives_bind; [by apply gives_consumed_yes|]. cbn beta. intros b ->. cbn match.
    eapply gives_bind with (P := λ a, f <$> a = f <$> (y :: l)).
    { apply IH; [done|cbn in *; lia|done|done|done]. }
    intros vs Hvs. change (np_list np (x :: y :: l)) with (np x + np_list np (y :: l)). rewrite Z.add_assoc.
    apply gives_ret. rewrite !fmap_cons, Hvs, Ha. done.
Qed.

Lemma print_list_length {A} (pr : A → list TokenKind) l : (length l ≤ S (length (print_list pr l)))%nat.
Proof.
  induction l as [|x [|y l] IH]; [cbn; lia..|].
  change (print_list pr (x :: y :: l)) with (pr x ++ [TComma] ++ print_list pr (y :: l)).
  rewrite !length_app. cbn [length] in *. lia.
Qed.

Lemma gives_comma {A} (item : parser A) (pr : A → list TokenKind) (np : A → Z) (ok : Z → A → Prop)
    (f : A → A) (fol : list TokenKind → Prop) l i t rest :
  (∀ ks, fol (TComma :: ks)) →
  (∀ x i rest, ok i x → fol rest → gives item (λ a, f a = f x) (pr x ++ rest) i rest (i + np x)) →
  l ≠ [] → list_ok np ok i l → fol (t :: rest) → t ≠ TComma →
  gives (comma_separated item) (λ a, f <$> a = f <$> l) (print_list pr l ++ t :: rest) i (t :: rest) (i + np_list np l).
Proof.
  intros Hcomma Hitem Hne Hok Hfol Ht. apply gives_with_fuel.
  eapply gives_comma_loop; [done|done|done| |done|done|done].
  pose proof (print_list_length pr l). rewrite length_app. cbn [length]. lia.
Qed.

(** Lists of plain identifiers. *)
Lemma gives_idents l i t rest :
  l ≠ [] → t ≠ TComma →
  gives (comma_separated identifier) (λ a, strip_ident <$> a = strip_ident <$> l)
    (print_list print_ident l ++ t :: rest) i (t :: rest) i.
Proof.
  intros Hne Ht.
  assert (∀ j, list_ok (λ _ : Ident, 0) (λ _ _, True) j l) as Hl by (induction l as [|x [|y l] IH]; cbn in *; auto).
  assert (np_list (λ _ : Ident, 0) l = 0) as Hz by (clear; by induction l as [|x l IH]).
  pose proof (gives_comma identifier print_ident (λ _, 0) (λ _ _, True) strip_ident (λ _, True) l i t rest) as Hg.
  rewrite Hz, Z.add_0_r in Hg. apply Hg; auto. intros x j r _ _. rewrite Z.add_0_r. apply gives_identifier.
Qed.

Lemma gives_expressions l i t rest :
  l ≠ [] → list_ok nparams expr_ok i l → follow 0 t = true → t ≠ TComma →
  gives (comma_separated expression) (λ a, strip <$> a = strip <$> l) (print_list (print 0) l ++ t :: rest) i
    (t :: rest) (i + np_list nparams l).
Proof.
  intros Hne Hok Hf Ht. apply (gives_comma _ _ _ expr_ok strip (follows 0)); auto; [done|].
  intros x j r (Hn & Hj & Hu) Hr. by apply gives_expression.
Qed.

(** ** Clauses

    [from r ks]: [ks] begins with the keyword of a clause whose place in the
    statement is [r] or later, or with the end of the statement. *)
Definition rank (t : TokenKind) : option nat :=
  match t with
  | TKeyword KJoin => Some 0%nat
  | TKeyword KWhere => Some 1%nat
  | TKeyword KGroup => Some 2%nat
  | TKeyword KOrder => Some 3%nat
  | TKeyword KLimit => Some 4%nat
  | TEof | TSemicolon => Some 5%nat
  | _ => None
  end.

Definition from (r : nat) (ks : list TokenKind) : Prop :=
  match ks with t :: _ => ∃ r', rank t = Some r' ∧ (r ≤ r')%nat | [] => False end.

Lemma from_mono r r' ks : from r ks → (r' ≤ r)%nat → from r' ks.
Proof. destruct ks; [done|]. intros (q & ? & ?) ?. exists q. split; [done|lia]. Qed.

Lemma from_follow r t ks : from r (t :: ks) → follow 0 t = true ∧ t ≠ TComma.
Proof. intros (q & Hq & _). by destruct t as [|[]| | | | | | | | | | | | | | | |]. Qed.

(** A keyword of an earlier clause does not come next. *)
Lemma from_not r t ks keyword q :
  from r (t :: ks) → rank (TKeyword keyword) = Some q → (q < r)%nat → t ≠ TKeyword keyword.
Proof. intros (q' & Hq & ?) Hk ? ->. rewrite Hk in Hq. injection Hq as ->. lia. Qed.

Lemma from_unranked r t ks u : from r (t :: ks) → rank u = None → t ≠ u.
Proof. intros (q & Hq & _) Hu ->. congruence. Qed.

Lemma gives_where o i rest :
  option_ok expr_ok i o → from 2 rest →
  gives where_clause (λ a, strip <$> a = strip <$> o) (print_clause KWhere o ++ rest) i rest (i + np_option nparams o).
Proof.
  intros Hok Hf. destruct rest as [|t rest]; [done|]. unfold where_clause. destruct o as [e|]; cbn [print_clause np_option app].
  - destruct Hok as (Hn & Hi & Hu). eapply gives_bind; [by apply gives_consumed_yes|]. cbn beta. intros b ->. cbn match.
    eapply gives_bind; [apply (gives_expression e); [done..|by apply (from_follow 2 t rest)]|].
    intros a Ha. apply gives_ret. cbn. by rewrite Ha.
  - rewrite Z.add_0_r. eapply gives_bind; [apply gives_consumed_no; eapply from_not; [done|done|lia]|]. cbn beta. intros b ->.
    by apply gives_ret.
Qed.

Lemma from_where o rest : from 2 rest → from 1 (print_clause KWhere o ++ rest).
Proof. intros Hf. destruct o; cbn; [by exists 1%nat|]. by apply (from_mono 2); [|lia]. Qed.

Lemma gives_limit o i rest :
  option_ok expr_ok i o → from 5 rest →
  gives limit_clause (λ a, strip <$> a = strip <$> o) (print_clause KLimit o ++ rest) i rest (i + np_option nparams o).
Proof.
  intros Hok Hf. destruct rest as [|t rest]; [done|]. unfold limit_clause. destruct o as [e|]; cbn [print_clause np_option app].
  - destruct Hok as (Hn & Hi & Hu). eapply gives_bind; [by apply gives_consumed_yes|]. cbn beta. intros b ->. cbn match.
    eapply gives_bind; [apply (gives_expression e); [done..|by apply (from_follow 5 t rest)]|].
    intros a Ha. apply gives_ret. cbn. by rewrite Ha.
  - rewrite Z.add_0_r. eapply gives_bind; [apply gives_consumed_no; eapply from_not; [done|done|lia]|]. cbn beta. intros b ->.
    by apply gives_ret.
Qed.

Lemma from_limit o rest : from 5 rest → from 4 (print_clause KLimit o ++ rest).
Proof. intros Hf. destruct o; cbn; [by exists 4%nat|]. by apply (from_mono 5); [|lia]. Qed.

Lemma gives_by {A} keyword q (item : parser A) pr np ok (f : A → A) (fol : list TokenKind → Prop) l i rest :
  rank (TKeyword keyword) = Some q →
  (∀ ks, fol (TComma :: ks)) → (∀ t ks, from (S q) (t :: ks) → fol (t :: ks)) →
  (∀ x i rest, ok i x → fol rest → gives item (λ a, f a = f x) (pr x ++ rest) i rest (i + np x)) →
  list_ok np ok i l → from (S q) rest →
  gives (by_clause keyword item) (λ a, f <$> a = f <$> l) (print_by keyword pr l ++ rest) i rest (i + np_list np l).
Proof.
  intros Hq Hcomma Hfol Hitem Hok Hf. destruct rest as [|t rest]; [done|]. unfold by_clause.
  destruct l as [|x l]; cbn [print_by app].
  - cbn. rewrite Z.add_0_r. eapply gives_bind; [apply gives_consumed_no; eapply from_not; [done|done|lia]|]. cbn beta.
    intros b ->. by apply gives_ret.
  - eapply gives_bind; [by apply gives_consumed_yes|]. cbn beta. intros b ->. cbn match.
    eapply gives_bind; [apply gives_expect_keyword|]. intros _ _.
    apply (gives_comma item pr np ok f fol); [done|done|done|done|by apply Hfol|by apply (from_follow _ _ _ Hf)].
Qed.

Lemma from_by {A} keyword q (pr : A → list TokenKind) l rest :
  rank (TKeyword keyword) = Some q → from (S q) rest → from q (print_by keyword pr l ++ rest).
Proof. intros Hq Hf. destruct l; cbn [print_by app]; [by apply (from_mono (S q)); [|lia]|]. by exists q. Qed.

Lemma gives_order_item x i rest :
  expr_ok i x.1 → gives order_item (λ a, strip_order a = strip_order x) (print_order x ++ rest) i rest (i + nparams x.1).
Proof.
  destruct x as [e d]. intros (Hn & Hi & Hu). unfold print_order, order_item. cbn [fst snd] in *. rewrite <- app_assoc.
  eapply gives_bind; [apply (gives_expression e); [done..|by destruct d]|].
  intros a Ha. destruct d; cbn [app].
  - eapply gives_bind; [by apply gives_consumed_no|]. cbn beta. intros b ->. cbn match.
    eapply gives_bind; [by apply gives_consume|]. intros o _. apply gives_ret. unfold strip_order. cbn. by rewrite Ha.
  - eapply gives_bind; [by apply gives_consumed_yes|]. cbn beta. intros b ->. apply gives_ret.
    unfold strip_order. cbn. by rewrite Ha.
Qed.

(** No alias can follow. *)
Definition no_alias (t : TokenKind) : Prop :=
  t ≠ TKeyword KAs ∧ match t with TIdentifier _ _ => False | _ => True end.

Lemma gives_source x i t rest :
  no_alias t → gives table_source (λ a, strip_source a = strip_source x) (print_source x ++ t :: rest) i (t :: rest) i.
Proof.
  intros [Has Hid]. destruct x as [name alias sp]. unfold table_source, print_source. cbn [ts_name ts_alias].
  rewrite <- app_assoc. eapply gives_bind; [apply (gives_identifier name)|]. intros n Hn. destruct alias as [a|]; cbn [app].
  - eapply gives_bind; [by apply gives_consumed_yes|]. cbn beta. intros b ->.
    eapply gives_bind; [apply gives_read|]. intros c _. cbn [orb].
    eapply gives_bind with (P := λ o, ∃ m, o = Some m ∧ strip_ident m = strip_ident a).
    { eapply gives_bind; [apply (gives_identifier a)|]. intros m Hm. apply gives_ret. eauto. }
    intros o (m & -> & Hm). apply gives_ret. unfold strip_source. cbn. by rewrite Hn, Hm.
  - eapply gives_bind; [by apply gives_consumed_no|]. cbn beta. intros b ->.
    eapply gives_bind; [apply gives_current|]. cbn beta. intros c ->. cbn [orb].
    eapply gives_bind with (P := λ o, o = None).
    { destruct t; try done; by apply gives_ret. }
    intros o ->. apply gives_ret. unfold strip_source. cbn. by rewrite Hn.
Qed.

Lemma from_no_alias r t ks : from r (t :: ks) → no_alias t.
Proof. intros (q & Hq & _). split; [by intros ->|]. by destruct t. Qed.

Lemma gives_source_from x i r rest :
  from r rest → gives table_source (λ a, strip_source a = strip_source x) (print_source x ++ rest) i rest i.
Proof. intros Hf. destruct rest as [|t rest]; [done|]. apply gives_source. by eapply from_no_alias. Qed.

Lemma gives_joins l : ∀ fuel i rest,
  (length l < fuel)%nat → list_ok (nparams ∘ j_on) (λ i j, expr_ok i (j_on j)) i l → from 1 rest →
  gives (join_loop fuel) (λ a, strip_join <$> a = strip_join <$> l) ((l ≫= print_join) ++ rest) i rest
    (i + np_list (nparams ∘ j_on) l).
Proof.
  induction l as [|[right on sp] l IH]; intros fuel i rest Hfuel Hok Hf; (destruct fuel as [|fuel]; [cbn in *; lia|]); cbn [join_loop].
  - destruct rest as [|t rest]; [done|]. cbn. rewrite Z.add_0_r.
    eapply gives_bind with (P := λ o, o = None).
    { unfold join_start. eapply gives_bind; [apply gives_skip; by eapply from_unranked|]. cbn beta. intros o ->.
      eapply gives_bind; [apply gives_skip; eapply from_not; [done|done|lia]|]. cbn beta. intros o ->. by apply gives_ret. }
    intros o ->. by apply gives_ret.
  - destruct Hok as [(Hn & Hi & Hu) Hl]. cbn [compose j_on] in *.
    change ((mkJoin right on sp :: l) ≫= print_join) with (print_join (mkJoin right on sp) ++ (l ≫= print_join)).
    unfold print_join at 1. cbn [j_right j_on]. rewrite <- !app_assoc. cbn [app].
    assert (from 0 ((l ≫= print_join) ++ rest)) as Hnext.
    { destruct l; cbn; [by apply (from_mono 1); [|lia]|by exists 0%nat]. }
    eapply gives_bind with (P := λ o, is_Some o).
    { unfold join_start. eapply gives_bind; [by apply gives_skip|]. cbn beta. intros o ->.
      eapply gives_bind; [by apply gives_consume|]. cbn beta. intros o [tk ->]. apply gives_ret. eauto. }
    intros o [start ->]. eapply gives_bind; [by apply (gives_source right)|]. intros r Hr.
    eapply gives_bind; [apply gives_expect_keyword|]. intros _ _.
    eapply gives_bind; [apply (gives_expression on); [done..|]|].
    { destruct (_ ++ rest) as [|u us]; [done|]. by apply (from_follow 0 u us). }
    intros e He. eapply gives_bind; [apply IH; [cbn in *; lia|done|done]|]. intros js Hjs.
    change (np_list (nparams ∘ j_on) (mkJoin right on sp :: l)) with (nparams on + np_list (nparams ∘ j_on) l).
    rewrite Z.add_assoc. apply gives_ret. rewrite !fmap_cons, Hjs. unfold strip_join at 1 3. cbn. by rewrite Hr, He.
Qed.

Lemma from_joins l rest : from 1 rest → from 0 ((l ≫= print_join) ++ rest).
Proof. intros Hf. destruct l; cbn; [by apply (from_mono 1); [|lia]|by exists 0%nat]. Qed.

Lemma joins_length l : (length l ≤ length (l ≫= print_join))%nat.
Proof. induction l as [|j l IH]; [done|]. cbn [mbind list_bind length]. rewrite length_app. cbn in *. lia. Qed.

Definition item_follow (ks : list TokenKind) : Prop :=
  match ks with t :: _ => t = TComma ∨ t = TKeyword KFrom | [] => False end.

Lemma gives_item x i rest :
  item_ok i x → item_follow rest →
  gives select_item (λ a, strip_item a = strip_item x) (print_item x ++ rest) i rest (i + np_item x).
Proof.
  intros Hok Hf. destruct rest as [|t rest]; [done|]. cbn in Hf. unfold select_item.
  destruct x as [sp|e alias]; cbn [print_item np_item app].
  - rewrite Z.add_0_r. eapply gives_bind; [by apply gives_consume|]. cbn beta. intros o [s ->]. by apply gives_ret.
  - destruct Hok as (Hn & Hi & Hu). rewrite <- app_assoc.
    assert (follows 0 (match alias with Some a => TKeyword KAs :: print_ident a | None => [] end ++ t :: rest)) as Hfol.
    { destruct alias; [done|]. cbn. by destruct Hf as [->| ->]. }
    pose proof (gives_expression e i _ Hn Hi Hu Hfol) as He.
    destruct (print_head 0 e) as (u & us & Hus & _ & _ & Hstar). rewrite Hus in *. cbn [app] in *.
    eapply gives_bind; [by apply gives_skip|]. cbn beta. intros o ->.
    eapply gives_bind; [exact He|]. intros a Ha. destruct alias as [n|]; cbn [app].
    + eapply gives_bind; [by apply gives_consumed_yes|]. cbn beta. intros b ->. cbn match.
      eapply gives_bind with (P := λ o, ∃ m, o = Some m ∧ strip_ident m = strip_ident n).
      { eapply gives_bind; [apply (gives_identifier n)|]. intros m Hm. apply gives_ret. eauto. }
      intros o (m & -> & Hm). apply gives_ret. cbn. by rewrite Ha, Hm.
    + eapply gives_bind; [apply gives_consumed_no; by destruct Hf as [->| ->]|]. cbn beta. intros b ->. cbn match.
      eapply gives_bind with (P := λ o, o = None); [by apply gives_ret|]. intros o ->. apply gives_ret. cbn. by rewrite Ha.
Qed.

Lemma gives_select s rest :
  select_ok s → from 5 rest →
  ∃ n, gives select (λ a, strip_select a = strip_select s) (print_select s ++ rest) 0 rest n.
Proof.
  intros (Hne & Hproj & Hjoins & Hwhere & Hgroup & Horder & Hlimit) Hf. eexists. unfold select, print_select.
  rewrite <- !app_assoc. cbn [app].
  pose proof (from_limit (sel_limit s) rest Hf) as H4.
  pose proof (from_by KOrder 3 print_order (sel_order_by s) _ eq_refl H4) as H3.
  pose proof (from_by KGroup 2 (print 0) (sel_group_by s) _ eq_refl H3) as H2.
  pose proof (from_where (sel_selection s) _ H2) as H1.
  pose proof (from_joins (sel_joins s) _ H1) as H0.
  eapply gives_bind; [apply gives_expect_keyword|]. intros _ _.
  eapply gives_bind.
  { apply (gives_comma select_item print_item np_item item_ok strip_item item_follow); [by left|apply gives_item|done|done|by right|done]. }
  cbn beta. intros proj Hp. eapply gives_bind; [apply gives_expect_keyword|]. intros _ _.
  eapply gives_bind; [by eapply gives_source_from|]. cbn beta. intros src Hs. eapply gives_bind.
  { apply gives_with_fuel. apply gives_joins; [|done|done]. rewrite length_app. pose proof (joins_length (sel_joins s)). lia. }
  cbn beta. intros js Hj. eapply gives_bind; [by apply gives_where|]. cbn beta. intros w Hw.
  eapply gives_bind.
  { apply (gives_by KGroup 2 expression (print 0) nparams expr_ok strip (follows 0)); try done.
    - intros t ks Ht. by apply (from_follow _ _ _ Ht).
    - intros x j r (? & ? & ?) ?. by apply gives_expression. }
  cbn beta. intros g Hg. eapply gives_bind.
  { apply (gives_by KOrder 3 order_item print_order (nparams ∘ fst) (λ i o, expr_ok i o.1) strip_order (λ _, True)); try done.
    intros x j r Hx _. by apply gives_order_item. }
  cbn beta. intros o Ho. eapply gives_bind; [by apply gives_limit|]. cbn beta. intros l Hl.
  apply gives_ret. unfold strip_select. cbn. by rewrite Hp, Hs, Hj, Hw, Hg, Ho, Hl.
Qed.

(** ** Statements *)

Definition column_follow (ks : list TokenKind) : Prop :=
  match ks with t :: _ => t = TComma ∨ t = TRightParen | [] => False end.

Lemma gives_no_clause fuel n p w i t rest :
  t = TComma ∨ t = TRightParen → (0 < fuel)%nat →
  gives (column_clauses fuel n p w) (λ r, r = (n, p)) (t :: rest) i (t :: rest) i.
Proof.
  intros Ht Hf. destruct fuel as [|fuel]; [lia|]. cbn [column_clauses].
  do 3 (eapply gives_bind; [apply gives_consumed_no; by destruct Ht as [->| ->]|]; cbn beta; intros ? ->; cbn match).
  by apply gives_ret.
Qed.

Lemma gives_column x i rest :
  (cd_primary_key x = true → cd_nullable x = false) → column_follow rest →
  gives column_def (λ a, strip_column a = strip_column x) (print_column x ++ rest) i rest i.
Proof.
  intros Hx Hf. destruct rest as [|t rest]; [done|]. cbn in Hf. destruct x as [name ty nul pk sp].
  unfold column_def, print_column. cbn [cd_name cd_data_type cd_nullable cd_primary_key] in *. rewrite <- !app_assoc.
  eapply gives_bind; [apply gives_read|]. intros start _.
  eapply gives_bind; [apply (gives_identifier name)|]. intros n Hn. cbn [app].
  eapply gives_bind with (P := λ d, d = ty).
  { eapply gives_bind; [by apply gives_advance|]. cbn beta. intros tk Hk. rewrite Hk. destruct ty; by apply gives_ret. }
  intros d ->. eapply gives_bind with (P := λ r, r = (nul, pk)).
  { apply gives_with_fuel. destruct pk; [rewrite Hx in * by done|destruct nul]; cbn [app].
    - cbn [column_clauses]. eapply gives_bind; [by apply gives_consumed_yes|]. cbn beta. intros b ->. cbn match.
      eapply gives_bind; [apply gives_expect_keyword|]. intros _ _. apply gives_no_clause; [done|cbn; lia].
    - by apply gives_no_clause; [|lia].
    - cbn [column_clauses]. eapply gives_bind; [by apply gives_consumed_no|]. cbn beta. intros b ->. cbn match.
      eapply gives_bind; [by apply gives_consumed_yes|]. cbn beta. intros b ->. cbn match.
      eapply gives_bind; [apply gives_expect_keyword|]. intros _ _. apply gives_no_clause; [done|cbn; lia]. }
  intros r ->. eapply gives_bind; [apply gives_read|]. intros l _. apply gives_ret. unfold strip_column. cbn. by rewrite Hn.
Qed.

Lemma gives_columns l i rest :
  l ≠ [] → Forall (λ c, cd_primary_key c = true → cd_nullable c = false) l →
  gives (comma_separated column_def) (λ a, strip_column <$> a = strip_column <$> l)
    (print_list print_column l ++ TRightParen :: rest) i (TRightParen :: rest) i.
Proof.
  intros Hne Hall.
  assert (np_list (λ _ : ColumnDef, 0) l = 0) as Hz by (clear; by induction l as [|x l IH]).
  pose proof (gives_comma column_def print_column (λ _, 0) (λ _ c, cd_primary_key c = true → cd_nullable c = false)
    strip_column column_follow l i TRightParen rest) as Hg.
  rewrite Hz, Z.add_0_r in Hg. apply Hg; [by left|..|done| |by right|done].
  - intros x j r Hx Hr. rewrite Z.add_0_r. by apply gives_column.
  - clear Hne Hz Hg. revert i. induction Hall; intros i; cbn; auto.
Qed.

Lemma gives_control kind st i t rest :
  kind ≠ TEof → t ≠ TKeyword KTransaction → gives (control st) (λ a, strip_statement a = strip_statement st) (kind :: t :: rest) i (t :: rest) i.
Proof.
  intros Hk Ht. eapply gives_bind; [by apply gives_advance|]. intros _ _.
  eapply gives_bind; [by apply gives_skip|]. intros _ _. by apply gives_ret.
Qed.

Lemma gives_create name columns rest :
  columns ≠ [] → Forall (λ c, cd_primary_key c = true → cd_nullable c = false) columns →
  gives create (λ a, strip_statement a = strip_statement (StCreateTable name columns))
    (print_statement (StCreateTable name columns) ++ rest) 0 rest 0.
Proof.
  intros Hne Hall. cbn [print_statement]. rewrite <- !app_assoc. cbn [app]. unfold create.
  eapply gives_bind; [apply gives_expect_keyword|]. intros _ _.
  eapply gives_bind; [by apply gives_consumed_no|]. cbn beta. intros b ->. cbn match.
  eapply gives_bind; [by apply gives_consumed_yes|]. cbn beta. intros b ->. cbn match. unfold p_create_table.
  eapply gives_bind; [apply (gives_identifier name)|]. intros n Hn.
  eapply gives_bind; [by apply gives_expect|]. intros _ _.
  eapply gives_bind; [by apply gives_columns|]. cbn beta. intros cs Hcs.
  eapply gives_bind; [by apply gives_expect|]. intros _ _. apply gives_ret. cbn. by rewrite Hn, Hcs.
Qed.

Lemma gives_create_index name table column rest :
  gives create (λ a, strip_statement a = strip_statement (StCreateIndex name table column))
    (print_statement (StCreateIndex name table column) ++ rest) 0 rest 0.
Proof.
  cbn [print_statement]. rewrite <- !app_assoc. cbn [app]. unfold create.
  eapply gives_bind; [apply gives_expect_keyword|]. intros _ _.
  do 2 (eapply gives_bind; [by apply gives_consumed_no|]; cbn beta; intros ? ->; cbn match).
  eapply gives_bind; [by apply gives_consumed_yes|]. cbn beta. intros b ->. cbn match. unfold p_create_index.
  eapply gives_bind; [apply (gives_identifier name)|]. intros n Hn.
  eapply gives_bind; [apply gives_expect_keyword|]. intros _ _.
  eapply gives_bind; [apply (gives_identifier table)|]. intros t Ht.
  eapply gives_bind; [by apply gives_expect|]. intros _ _.
  eapply gives_bind; [apply (gives_identifier column)|]. intros c Hc.
  eapply gives_bind; [by apply gives_consumed_no|]. cbn beta. intros b ->. cbn match.
  eapply gives_bind; [by apply gives_expect|]. intros _ _. apply gives_ret. cbn. by rewrite Hn, Ht, Hc.
Qed.

Lemma gives_insert table columns values rest :
  statement_ok (StInsert table columns values) → from 5 rest →
  ∃ n, gives insert_statement (λ a, strip_statement a = strip_statement (StInsert table columns values))
    (print_statement (StInsert table columns values) ++ rest) 0 rest n.
Proof.
  intros (Hc & Hv & Hok) Hf. destruct rest as [|t rest]; [done|]. eexists. cbn [print_statement].
  rewrite <- !app_assoc. cbn [app]. unfold insert_statement.
  do 2 (eapply gives_bind; [apply gives_expect_keyword|]; intros _ _).
  eapply gives_bind; [apply (gives_identifier table)|]. intros n Hn.
  eapply gives_bind with (P := λ a, (λ names : list Ident, strip_ident <$> names) <$> a = (λ names : list Ident, strip_ident <$> names) <$> columns)
    (ks1 := TKeyword KValues :: TLeftParen :: print_list (print 0) values ++ TRightParen :: t :: rest) (i1 := 0).
  { unfold insert_columns. destruct columns as [names|]; cbn [app].
    - rewrite <- !app_assoc. eapply gives_bind; [by apply gives_consumed_yes|]. cbn beta. intros b ->. cbn match. cbn [app].
      eapply gives_bind; [apply gives_idents; [congruence|done]|]. cbn beta. intros ns Hns.
      eapply gives_bind; [by apply gives_expect|]. intros _ _. apply gives_ret. cbn. by rewrite Hns.
    - eapply gives_bind; [by apply gives_consumed_no|]. cbn beta. intros b ->. by apply gives_ret. }
  intros cs Hcs. eapply gives_bind; [apply gives_expect_keyword|]. intros _ _.
  eapply gives_bind; [by apply gives_expect|]. intros _ _.
  eapply gives_bind; [by apply gives_expressions|]. cbn beta. intros vs Hvs.
  eapply gives_bind; [by apply gives_expect|]. intros _ _.
  eapply gives_bind; [apply gives_at|]. cbn beta. intros b ->.
  rewrite bool_decide_eq_false_2 by (by apply (from_follow _ _ _ Hf)).
  apply gives_ret. cbn. by rewrite Hn, Hcs, Hvs.
Qed.

Definition assignment_follow (ks : list TokenKind) : Prop :=
  match ks with TComma :: _ => True | ks => from 1 ks end.

Lemma gives_update table assignments selection rest :
  statement_ok (StUpdate table assignments selection) → from 5 rest →
  ∃ n, gives update_statement (λ a, strip_statement a = strip_statement (StUpdate table assignments selection))
    (print_statement (StUpdate table assignments selection) ++ rest) 0 rest n.
Proof.
  intros (Hne & Hok & Hsel) Hf. eexists. cbn [print_statement]. rewrite <- !app_assoc. cbn [app]. unfold update_statement.
  pose proof (from_where selection rest (from_mono 5 2 rest Hf ltac:(lia))) as H1.
  eapply gives_bind; [apply gives_expect_keyword|]. intros _ _.
  eapply gives_bind; [apply (gives_identifier table)|]. intros n Hn.
  eapply gives_bind; [apply gives_expect_keyword|]. intros _ _.
  eapply gives_bind with (P := λ a, strip_assignment <$> a = strip_assignment <$> assignments)
    (ks1 := print_clause KWhere selection ++ rest).
  { destruct (print_clause KWhere selection ++ rest) as [|t ks]; [done|].
    apply (gives_comma assignment print_assignment (nparams ∘ snd) (λ i a, expr_ok i a.2) strip_assignment assignment_follow);
      [done| |done|done|by destruct t|by apply (from_follow _ _ _ H1)].
    intros [c e] i ks' (He & Hi & Hu) Hks. unfold assignment, print_assignment. cbn [fst snd] in *. rewrite <- !app_assoc.
    eapply gives_bind; [apply (gives_identifier c)|]. intros m Hm.
    eapply gives_bind; [by apply gives_expect|]. intros _ _. cbn [app].
    eapply gives_bind; [apply (gives_expression e); [done..|]|].
    { destruct ks' as [|u us]; [done|]. destruct (decide (u = TComma)) as [->|]; [done|].
      assert (from 1 (u :: us)) as Hu' by (by destruct u). by apply (from_follow _ _ _ Hu'). }
    intros a Ha. apply gives_ret. unfold strip_assignment. cbn. by rewrite Hm, Ha. }
  intros as_ Has. eapply gives_bind; [apply gives_where; [done|by apply (from_mono 5); [|lia]]|]. cbn beta. intros w Hw.
  apply gives_ret. cbn. by rewrite Hn, Has, Hw.
Qed.

Lemma gives_delete table selection rest :
  option_ok expr_ok 0 selection → from 5 rest →
  ∃ n, gives delete_statement (λ a, strip_statement a = strip_statement (StDelete table selection))
    (print_statement (StDelete table selection) ++ rest) 0 rest n.
Proof.
  intros Hok Hf. eexists. cbn [print_statement]. rewrite <- !app_assoc. cbn [app]. unfold delete_statement.
  do 2 (eapply gives_bind; [apply gives_expect_keyword|]; intros _ _).
  eapply gives_bind; [apply (gives_identifier table)|]. intros n Hn.
  eapply gives_bind; [apply gives_where; [done|by apply (from_mono 5); [|lia]]|]. cbn beta. intros w Hw.
  apply gives_ret. cbn. by rewrite Hn, Hw.
Qed.

Lemma strip_explain a s : strip_statement a = strip_statement s → is_explain a = is_explain s.
Proof. by destruct a, s. Qed.

(** Running [statement] on a first token [k] that leads to [m]. *)
Ltac dispatch G :=
  eapply gives_bind; [apply gives_current|]; cbn beta; intros start Hstart; rewrite Hstart; cbn match;
  eapply gives_bind; [first [exact G | eapply G]|]; cbn beta; intros value Hvalue;
  eapply gives_bind; [apply gives_read|]; intros last_token _; apply gives_ret; exact Hvalue.

Lemma gives_statement_fuel s : ∀ fuel rest,
  statement_ok s → from 5 rest → (length (print_statement s ++ rest) ≤ fuel)%nat →
  ∃ n, gives (statement_fuel fuel) (λ a, strip_statement a.1 = strip_statement s) (print_statement s ++ rest) 0 rest n.
Proof.
  induction s as [name cols|name t c|t cols vs|t asg sel|t sel|sel| | | |s IH sp]; intros fuel rest Hok Hf Hlen;
    (destruct fuel as [|fuel]; [destruct rest; [done|rewrite length_app in Hlen; cbn in Hlen; lia]|]);
    cbn [statement_fuel].
  - destruct Hok as [Hne Hall]. pose proof (gives_create name cols rest Hne Hall) as G.
    exists 0. cbn [print_statement app] in *. dispatch G.
  - pose proof (gives_create_index name t c rest) as G. exists 0. cbn [print_statement app] in *. dispatch G.
  - destruct (gives_insert t cols vs rest Hok Hf) as [n G]. exists n. cbn [print_statement app] in *. dispatch G.
  - destruct (gives_update t asg sel rest Hok Hf) as [n G]. exists n. cbn [print_statement app] in *. dispatch G.
  - destruct (gives_delete t sel rest Hok Hf) as [n G]. exists n. cbn [print_statement app] in *. dispatch G.
  - destruct (gives_select sel rest Hok Hf) as [n G]. exists n.
    assert (gives (s ← select; mret (StSelect s)) (λ a, strip_statement a = strip_statement (StSelect sel))
      (print_select sel ++ rest) 0 rest n) as G'.
    { eapply gives_bind; [exact G|]. intros a Ha. apply gives_ret. cbn. by rewrite Ha. }
    cbn [print_statement]. unfold print_select in *. cbn [app] in *. dispatch G'.
  - destruct rest as [|u rest]; [done|].
    pose proof (gives_control (TKeyword KBegin) StBegin 0 u rest ltac:(done) (from_unranked _ _ _ (TKeyword KTransaction) Hf eq_refl)) as G.
    exists 0. cbn [print_statement app] in *. dispatch G.
  - destruct rest as [|u rest]; [done|].
    pose proof (gives_control (TKeyword KCommit) StCommit 0 u rest ltac:(done) (from_unranked _ _ _ (TKeyword KTransaction) Hf eq_refl)) as G.
    exists 0. cbn [print_statement app] in *. dispatch G.
  - destruct rest as [|u rest]; [done|].
    pose proof (gives_control (TKeyword KRollback) StRollback 0 u rest ltac:(done) (from_unranked _ _ _ (TKeyword KTransaction) Hf eq_refl)) as G.
    exists 0. cbn [print_statement app] in *. dispatch G.
  - destruct Hok as [Hok Hex]. destruct (IH fuel rest Hok Hf) as [n G]; [cbn in Hlen; lia|]. exists n.
    cbn [print_statement app]. eapply gives_bind; [apply gives_current|]. cbn beta. intros start Hstart. rewrite Hstart. cbn match.
    eapply gives_bind with (P := λ a, strip_statement a = strip_statement (StExplain s sp)).
    { eapply gives_bind; [by apply gives_advance|]. intros _ _. eapply gives_bind; [exact G|].
      intros [a asp] Ha. cbn [fst] in Ha. rewrite (strip_explain _ _ Ha), Hex. apply gives_ret. cbn. by rewrite Ha. }
    intros v Hv. eapply gives_bind; [apply gives_read|]. intros l _. apply gives_ret. exact Hv.
Qed.

Lemma print_statement_head s : ∃ k ks, print_statement s = k :: ks ∧ k ≠ TEof ∧ k ≠ TSemicolon.
Proof. destruct s; eexists _, _; (split; [reflexivity|done]). Qed.

(** The parser implements its grammar: whatever statement the grammar has,
    printed with parentheses only where precedence and associativity ask for
    them, any tokens of these kinds, followed by the end of input, parse to
    exactly that statement, up to spans. *)
Lemma parse_printed s : statement_ok s → ∀ tokens, tk_kind <$> tokens = print_statement s ++ [TEof] →
  ∃ s' span, parse_tokens tokens = Some (Ok [(s', span)]) ∧ strip_statement s' = strip_statement s.
Proof.
  intros Hok tokens Ht.
  assert (stand (mkParser tokens 0 0) (print_statement s ++ [TEof]) 0) as Hs by done.
  destruct (print_statement_head s) as (k & ks & Hk & Hne & Hsemi).
  destruct (gives_statement_fuel s (S (length (print_statement s ++ [TEof]))) [TEof] Hok) as [n G]; [by exists 5%nat|lia|].
  assert (gives (statements_loop (S (length (print_statement s ++ [TEof]))))
    (λ l, ∃ s' sp, l = [(s', sp)] ∧ strip_statement s' = strip_statement s) (print_statement s ++ [TEof]) 0 [TEof] n) as Hl.
  { rewrite Hk in *. cbn [app length statements_loop] in *.
    eapply gives_bind; [apply gives_at|]. cbn beta. intros b ->. rewrite bool_decide_eq_false_2 by done.
    eapply gives_bind; [by apply gives_consumed_no|]. cbn beta. intros b ->. cbn match.
    eapply gives_bind with (P := λ _, True) (ks1 := k :: ks ++ [TEof]) (i1 := 0); [intros self [? ?]; by eexists _, _|]. intros _ _.
    eapply gives_bind; [apply gives_with_fuel; exact G|]. cbn beta. intros [s' sp] Hs'.
    eapply gives_bind; [by apply gives_consumed_no|]. cbn beta. intros b ->. cbn match.
    eapply gives_bind; [apply gives_at|]. cbn beta. intros b ->. rewrite bool_decide_eq_true_2 by done.
    eapply gives_bind with (P := λ r, r = []).
    - rewrite length_app, Nat.add_comm. cbn [length Nat.add statements_loop].
      eapply gives_bind; [apply gives_at|]. cbn beta. intros b ->. rewrite bool_decide_eq_true_2 by done. by apply gives_ret.
    - intros r ->. apply gives_ret. eauto. }
  destruct (Hl _ Hs) as (l & self' & Hrun & (s' & sp & -> & Hs') & _).
  exists s', sp. split; [|done]. unfold parse_tokens. rewrite (stand_fuel _ _ _ Hs), Hrun. done.
Qed.
End Statements.
