(* ===== verification/SqlText.v ===== *)
(** * SQL text: every statement of the grammar can be written and read back

    Tokens are written with one space after each; the lexer reads them back, so
    with the parser's round trip every statement has a text that parses to it. *)

From Stdlib Require Import Ascii String.
From S2P Require Import Prelude CoreTypes SqlAst SqlLexer SqlParsing SqlParser SqlPrinter SqlExprRoundtrip SqlRoundtrip.

(** ** UTF-8: the characters of a string spell it *)

(** One code point: decoding takes its bytes and encoding gives them back. *)
Lemma decode_one a l k fuel :
  Forall byte_ok (a :: l) → code_point (a :: l) = Ok (S k) →
  ∃ c, chars_of_bytes (S fuel) (a :: l) = c :: chars_of_bytes fuel (drop k l) ∧ encode_utf8 c = a :: take k l.
Proof.
  intros [Ha Hok]%Forall_cons Hc. unfold byte_ok in Ha. unfold code_point, utf8_width, between in Hc. cbn [chars_of_bytes].
  destruct (Z.ltb_spec a 128).
  { injection Hc as <-. exists a. split; [done|]. unfold encode_utf8. by rewrite (proj2 (Z.ltb_lt _ _)) by lia. }
  destruct ((194 <=? a) && (a <=? 223)) eqn:H2; bool_prop.
  { destruct l as [|b l]; [done|]. destruct (second_byte_ok a b) eqn:Hb; [|done]. injection Hc as <-.
    unfold second_byte_ok, continuation, between in Hb. repeat case_match; bool_prop; try lia.
    eexists. split; [reflexivity|]. unfold encode_utf8.
    rewrite (proj2 (Z.ltb_ge _ 128)), (proj2 (Z.ltb_lt _ 2048)) by lia.
    cbn [take]. do 2 f_equal; Z.to_euclidean_division_equations; lia. }
  destruct ((224 <=? a) && (a <=? 239)) eqn:H3; bool_prop.
  { destruct l as [|b l]; [done|]. destruct (second_byte_ok a b) eqn:Hb; [|done]. cbn [negb] in Hc.
    destruct l as [|c l]; [done|]. destruct (continuation c) eqn:Hcc; [|done]. injection Hc as <-.
    unfold second_byte_ok, continuation, between in *. rewrite (proj2 (Z.ltb_ge a 224)) by lia.
    rewrite (proj2 (Z.ltb_lt a 240)) by lia. eexists. split; [reflexivity|]. unfold encode_utf8. bool_prop.
    assert (128 ≤ b ≤ 191 ∧ (a = 224 → 160 ≤ b)) as [? ?] by (repeat case_match; bool_prop; lia).
    rewrite (proj2 (Z.ltb_ge _ 128)), (proj2 (Z.ltb_ge _ 2048)), (proj2 (Z.ltb_lt _ 65536)) by lia.
    cbn [take]. do 3 f_equal; Z.to_euclidean_division_equations; lia. }
  destruct ((240 <=? a) && (a <=? 244)) eqn:H4; bool_prop; [|done].
  destruct l as [|b l]; [done|]. destruct (second_byte_ok a b) eqn:Hb; [|done]. cbn [negb] in Hc.
  destruct l as [|c l]; [done|]. destruct (continuation c) eqn:Hcc; [|done]. cbn [negb] in Hc.
  destruct l as [|d l]; [done|]. destruct (continuation d) eqn:Hcd; [|done]. injection Hc as <-.
  unfold second_byte_ok, continuation, between in *. rewrite (proj2 (Z.ltb_ge a 224)), (proj2 (Z.ltb_ge a 240)) by lia.
  eexists. split; [reflexivity|]. unfold encode_utf8. bool_prop.
  assert (128 ≤ b ≤ 191 ∧ (a = 240 → 144 ≤ b)) as [? ?] by (repeat case_match; bool_prop; lia).
  rewrite (proj2 (Z.ltb_ge _ 128)), (proj2 (Z.ltb_ge _ 2048)), (proj2 (Z.ltb_ge _ 65536)) by lia.
  cbn [take]. do 4 f_equal; Z.to_euclidean_division_equations; lia.
Qed.

Lemma code_point_Ok l k : code_point l = Ok k → (0 < k ≤ length l)%nat.
Proof.
  destruct l as [|a l]; [done|]. cbn [code_point]. intros Hc.
  repeat case_match; simplify_eq; cbn; lia.
Qed.

Lemma chars_of_bytes_encode n : ∀ l fuel pos,
  Forall byte_ok l → (length l ≤ n)%nat → (length l ≤ fuel)%nat → utf8_scan n pos l = None →
  chars_of_bytes fuel l ≫= encode_utf8 = l.
Proof.
  induction n as [|n IH]; intros l fuel pos Hok Hn Hf Hs.
  { destruct l; [by destruct fuel|cbn in *; lia]. }
  destruct l as [|a l]; [by destruct fuel|]. destruct fuel as [|fuel]; [cbn in *; lia|].
  cbn [utf8_scan] in Hs. destruct (code_point (a :: l)) as [[|k]|] eqn:Hc; [| |done].
  { apply code_point_Ok in Hc. lia. }
  pose proof (code_point_Ok _ _ Hc). cbn [length drop] in *.
  destruct (decode_one a l k fuel Hok Hc) as (c & -> & He). apply Forall_cons in Hok as [_ Hok].
  change ((c :: ?x) ≫= encode_utf8) with (encode_utf8 c ++ (x ≫= encode_utf8)).
  rewrite (IH _ fuel _ (Forall_drop _ k _ Hok) ltac:(rewrite length_drop; lia) ltac:(rewrite length_drop; lia) Hs).
  rewrite He. cbn [app]. by rewrite take_drop.
Qed.

Lemma string_of_str_chars s : utf8 s → string_of_chars (str_chars s) = s.
Proof.
  intros Hs. unfold string_of_chars, str_chars.
  rewrite (chars_of_bytes_encode _ _ _ _ (as_bytes_ok s) (le_n _) (le_n _) Hs). apply string_of_as_bytes.
Qed.

(** ** Writing tokens *)

Fixpoint dec_digits (fuel : nat) (n : Z) : list Z :=
  match fuel with
  | O => []
  | S fuel => if n <? 10 then [48 + n] else dec_digits fuel (n / 10) ++ [48 + n mod 10]
  end.

Definition double (delimiter : Z) (l : list Z) : list Z :=
  l ≫= λ c, if c =? delimiter then [c; c] else [c].

Definition quote (delimiter : Z) (s : string) : list Z :=
  delimiter :: double delimiter (str_chars s) ++ [delimiter].

Definition hex_text (l : bytes) : list Z := l ≫= λ b, [ch (hex_digit (b / 16)); ch (hex_digit (b mod 16))].

Definition keyword_text (k : Keyword) : string :=
  default ""%string ((λ e, e.1.1) <$> find (λ e, bool_decide (e.1.2 = k)) keyword_table).

Definition token_text (k : TokenKind) : list Z :=
  match k with
  | TIdentifier value true => quote (ch dquote) value
  | TIdentifier value false => str_chars value
  | TKeyword k => chars (keyword_text k)
  | TLiteral (VInt64 n) => dec_digits 19 n
  | TLiteral (VText s) => quote (ch "'") s
  | TLiteral (VBytes l) => ch "x" :: ch "'" :: hex_text l ++ [ch "'"]
  | TLiteral _ => []
  | TParameter => chars "?" | TLeftParen => chars "(" | TRightParen => chars ")" | TComma => chars ","
  | TDot => chars "." | TStar => chars "*" | TSemicolon => chars ";" | TEq => chars "=" | TNotEq => chars "<>"
  | TLt => chars "<" | TLtEq => chars "<=" | TGt => chars ">" | TGtEq => chars ">=" | TMinus => chars "-"
  | TEof => []
  end.

(** The SQL text of a list of tokens. *)
Definition render (ks : list TokenKind) : list Z := ks ≫= λ k, token_text k ++ [32].

Section Text.
Context `{UnicodeTables}.

Definition word_ok (value : string) : Prop :=
  match str_chars value with
  | [] => False
  | c :: l => is_identifier_start c = true ∧ is_whitespace c = false
              ∧ Forall (λ c, is_identifier_continue c = true) l
  end ∧ from_identifier value = None.

(** What tokens of a statement must satisfy to have a text: strings are
    UTF-8, bytes are bytes, an unquoted identifier is a word and no keyword,
    integers are those the lexer reads. *)
Definition lexable (k : TokenKind) : Prop :=
  match k with
  | TIdentifier value true => utf8 value
  | TIdentifier value false => utf8 value ∧ word_ok value
  | TLiteral (VInt64 n) => 0 ≤ n ≤ i64_max
  | TLiteral (VText s) => utf8 s
  | TLiteral (VBytes l) => Forall byte_ok l
  | TLiteral _ | TEof => False
  | _ => True
  end.

(** ** Reading them back *)

Lemma bump_while_all p t rest position :
  Forall (λ c, p c = true) t → match rest with [] => True | c :: _ => p c = false end →
  bump_while_from p (t ++ rest) position = (t, mkLexer rest (position + str_len t)).
Proof.
  intros Ht Hr. revert position. induction Ht as [|c t Hc Ht IH]; intros position; cbn [app bump_while_from].
  - change (str_len []) with 0. rewrite Z.add_0_r. destruct rest as [|c rest]; cbn [bump_while_from]; [done|by rewrite Hr].
  - rewrite Hc, IH, str_len_cons. by rewrite Z.add_assoc.
Qed.

Lemma quoted_loop_double d start l rest position :
  match rest with [] => True | c :: _ => c ≠ d end →
  ∃ q, quoted_loop d start (double d l ++ d :: rest) position = Ok (l, mkLexer rest q).
Proof.
  intros Hr. revert position. induction l as [|c l IH]; intros position.
  - change (double d [] ++ d :: rest) with (d :: rest). cbn [quoted_loop]. rewrite Z.eqb_refl. destruct rest as [|c rest]; [by eexists|].
    rewrite (proj2 (Z.eqb_neq c d) Hr). by eexists.
  - change (double d (c :: l)) with ((if c =? d then [c; c] else [c]) ++ double d l).
    destruct (Z.eqb_spec c d) as [->|Hne]; cbn [app quoted_loop].
    + rewrite Z.eqb_refl. destruct (IH (position + len_utf8 d + len_utf8 d)) as [q Hq]. rewrite Hq. by eexists.
    + rewrite (proj2 (Z.eqb_neq c d) Hne). destruct (IH (position + len_utf8 c)) as [q Hq]. rewrite Hq. by eexists.
Qed.

Lemma quoted_string_quote d start s rest position :
  utf8 s → match rest with [] => True | c :: _ => c ≠ d end →
  ∃ q, quoted_string d start (mkLexer (double d (str_chars s) ++ d :: rest) position) = Ok (s, mkLexer rest q).
Proof.
  intros Hs Hr. destruct (quoted_loop_double d start (str_chars s) rest position Hr) as [q Hq].
  unfold quoted_string. cbn [lx_remaining lx_position]. rewrite Hq. cbn. rewrite string_of_str_chars by done. by eexists.
Qed.

Lemma hex_digit_spec d : 0 ≤ d < 16 →
  is_ascii_hexdigit (ch (hex_digit d)) = true ∧ hex_value (ch (hex_digit d)) = d ∧ ch (hex_digit d) ≠ ch "'".
Proof.
  intros Hd. assert (d ∈ seqZ 0 16) as Hin by (apply elem_of_seqZ; lia).
  assert (Forall (λ d, is_ascii_hexdigit (ch (hex_digit d)) = true ∧ hex_value (ch (hex_digit d)) = d
                       ∧ ch (hex_digit d) ≠ ch "'") (seqZ 0 16)) as Hall by (vm_compute; repeat constructor; done).
  by apply (proj1 (Forall_forall _ _) Hall).
Qed.

Lemma hex_loop_text start l rest position : Forall byte_ok l →
  ∃ q, hex_loop start (hex_text l ++ ch "'" :: rest) position = Ok (hex_text l, mkLexer (ch "'" :: rest) q).
Proof.
  intros Hl. revert position. induction Hl as [|b l Hb Hl IH]; intros position.
  { change (hex_text [] ++ ch "'" :: rest) with (ch "'" :: rest). cbn [hex_loop]. rewrite Z.eqb_refl. by eexists. }
  unfold byte_ok in Hb.
  destruct (hex_digit_spec (b / 16)) as (H1 & _ & H2); [Z.to_euclidean_division_equations; lia|].
  destruct (hex_digit_spec (b mod 16)) as (H3 & _ & H4); [Z.to_euclidean_division_equations; lia|].
  change (hex_text (b :: l)) with (ch (hex_digit (b / 16)) :: ch (hex_digit (b mod 16)) :: hex_text l).
  cbn [app hex_loop]. rewrite (proj2 (Z.eqb_neq _ _) H2), (proj2 (Z.eqb_neq _ _) H4), H1, H3. cbn [negb].
  destruct (IH (position + len_utf8 (ch (hex_digit (b / 16))) + len_utf8 (ch (hex_digit (b mod 16))))) as [q Hq].
  rewrite Hq. by eexists.
Qed.

Lemma hex_pairs_text l : Forall byte_ok l → hex_pairs (hex_text l) = l ∧ zlen (hex_text l) mod 2 = 0.
Proof.
  induction 1 as [|b l Hb Hl [IH1 IH2]]; [done|]. unfold byte_ok in Hb.
  destruct (hex_digit_spec (b / 16)) as (_ & H1 & _); [Z.to_euclidean_division_equations; lia|].
  destruct (hex_digit_spec (b mod 16)) as (_ & H2 & _); [Z.to_euclidean_division_equations; lia|].
  change (hex_text (b :: l)) with (ch (hex_digit (b / 16)) :: ch (hex_digit (b mod 16)) :: hex_text l).
  cbn [hex_pairs]. rewrite H1, H2, IH1. split.
  - f_equal. Z.to_euclidean_division_equations; lia.
  - unfold zlen in *. cbn [length]. Z.to_euclidean_division_equations; lia.
Qed.

Lemma bytes_literal_text start l rest position : Forall byte_ok l →
  ∃ q, bytes_literal start (mkLexer (hex_text l ++ ch "'" :: rest) position) = Ok (l, mkLexer rest q).
Proof.
  intros Hl. destruct (hex_loop_text start l rest position Hl) as [q Hq], (hex_pairs_text l Hl) as [H1 H2].
  unfold bytes_literal. cbn [lx_remaining lx_position]. rewrite Hq. cbn [mbind result_bind lex_consume].
  unfold lex_consume. cbn [peek lx_remaining head]. rewrite bool_decide_eq_true_2 by done. cbn.
  rewrite (proj2 (Z.eqb_eq _ _) H2), H1. cbn. by eexists.
Qed.

Lemma dec_digits_spec fuel : ∀ n, 0 ≤ n < 10 ^ Z.of_nat fuel →
  digits_value (dec_digits fuel n) = n ∧ Forall (λ c, is_ascii_digit c = true) (dec_digits fuel n)
  ∧ (fuel ≠ O → dec_digits fuel n ≠ []).
Proof.
  induction fuel as [|fuel IH]; intros n Hn.
  { cbn in *. split; [|done]. cbn. lia. }
  cbn [dec_digits]. destruct (Z.ltb_spec n 10).
  { unfold digits_value. cbn [foldl]. split; [lia|]. split; [|done]. repeat constructor.
    unfold is_ascii_digit, between. apply andb_true_intro. lia. }
  rewrite Nat2Z.inj_succ, Z.pow_succ_r in Hn by lia.
  destruct (IH (n / 10)) as (H1 & H2 & H3); [Z.to_euclidean_division_equations; lia|].
  split; [|split].
  - unfold digits_value in *. rewrite foldl_app, H1. cbn [foldl]. Z.to_euclidean_division_equations; lia.
  - apply Forall_app. split; [done|]. repeat constructor. unfold is_ascii_digit, between. apply andb_true_intro.
    Z.to_euclidean_division_equations; lia.
  - intros _ []%app_nil. done.
Qed.

(** A word, followed by a space, is read whole. *)
Lemma word_token_text c l rest position : Forall (λ c, is_identifier_continue c = true) l →
  ∃ q, word_token c (mkLexer (l ++ 32 :: rest) position)
       = (match from_identifier (string_of_chars (c :: l)) with
          | Some k => TKeyword k
          | None => TIdentifier (string_of_chars (c :: l)) false
          end, mkLexer (32 :: rest) q).
Proof.
  intros Hl. unfold word_token, bump_while. cbn [lx_remaining lx_position].
  rewrite (bump_while_all is_identifier_continue l (32 :: rest) position Hl eq_refl). by eexists.
Qed.

Lemma number_token_text c l start rest position :
  Forall (λ c, is_ascii_digit c = true) l → 0 ≤ digits_value (c :: l) ≤ i64_max →
  ∃ q, number_token c start (mkLexer (l ++ 32 :: rest) position)
       = Ok (TLiteral (VInt64 (digits_value (c :: l))), mkLexer (32 :: rest) q).
Proof.
  intros Hl Hv. unfold number_token, bump_while. cbn [lx_remaining lx_position].
  rewrite (bump_while_all is_ascii_digit l (32 :: rest) position Hl eq_refl).
  unfold parse_i64, i64_checked. rewrite (proj2 (Z.leb_le _ _)), (proj2 (Z.leb_le _ _)); [by eexists|..];
    unfold i64_min in *; lia.
Qed.

(** Decide the comparisons of [c] with fixed characters that its range settles. *)
Ltac other_than c :=
  repeat match goal with |- context [c =? ?x] =>
    rewrite (proj2 (Z.eqb_neq c x)) by (let v := eval vm_compute in x in change x with v; lia) end.

(** The letters of identifiers and digits are none of the symbols. *)
Lemma identifier_arms c start self :
  is_identifier_start c = true → is_ascii_digit c = false →
  ((c =? ch "x") || (c =? ch "X")) && bool_decide (peek self = Some (ch "'")) = false →
  token_kind c start self = Ok (word_token c self).
Proof.
  intros Hc Hd Hx. unfold token_kind.
  assert (c = 95 ∨ 65 ≤ c ≤ 90 ∨ 97 ≤ c ≤ 122 ∨ 127 < c) as Hr.
  { unfold is_identifier_start, is_alphabetic, is_ascii_alphabetic, between in Hc. bool_prop. lia. }
  other_than c.
  rewrite Hx, Hd, Hc. done.
Qed.

(** ** One token *)

(** No white space and no comment starts here. *)
Definition solid (l : list Z) : Prop :=
  match l with
  | [] => True
  | c :: _ => is_whitespace c = false ∧ starts_with (chars "--") l = false ∧ starts_with (chars "/*") l = false
  end.

(** [t] followed by a space is read as the token [k]. *)
Definition reads (t : list Z) (k : TokenKind) : Prop :=
  ∃ c l, t = c :: l ∧ (∀ rest, solid (t ++ 32 :: rest)) ∧ k ≠ TEof
    ∧ ∀ start rest position, ∃ q,
        token_kind c start (mkLexer (l ++ 32 :: rest) position) = Ok (k, mkLexer (32 :: rest) q).

Lemma solid_plain c l : is_whitespace c = false → c ≠ ch "-" → c ≠ ch "/" → solid (c :: l).
Proof.
  intros Hc Hd Hs. split; [done|]. unfold starts_with.
  split; apply bool_decide_eq_false_2; (destruct l; cbn; intros [=]; done).
Qed.

Lemma reads_word c l k :
  is_identifier_start c = true → is_whitespace c = false → Forall (λ c, is_identifier_continue c = true) l →
  match from_identifier (string_of_chars (c :: l)) with
  | Some k => TKeyword k
  | None => TIdentifier (string_of_chars (c :: l)) false
  end = k → reads (c :: l) k.
Proof.
  intros Hc Hw Hl Hk.
  assert (c = 95 ∨ 65 ≤ c ≤ 90 ∨ 97 ≤ c ≤ 122 ∨ 127 < c) as Hr.
  { unfold is_identifier_start, is_alphabetic, is_ascii_alphabetic, between in Hc. bool_prop. lia. }
  exists c, l. split; [done|]. split; [|split].
  - intros rest. apply solid_plain; [done|vm_compute; lia..].
  - destruct (from_identifier _); by subst k.
  - intros start rest position. destruct (word_token_text c l rest position Hl) as [q Hq].
    exists q. rewrite <- Hk, <- Hq. apply identifier_arms; [done| |].
    + unfold is_ascii_digit, between. apply andb_false_iff. lia.
    + apply andb_false_iff. right. apply bool_decide_eq_false_2. destruct l as [|c' l]; [done|].
      intros [= ->]. apply Forall_cons in Hl as [Hl _]. done.
Qed.

Lemma reads_keyword k : reads (chars (keyword_text k)) (TKeyword k).
Proof. destruct k; (apply reads_word; [reflexivity..|repeat constructor|reflexivity]). Qed.

Lemma reads_number n : 0 ≤ n ≤ i64_max → reads (dec_digits 19 n) (TLiteral (VInt64 n)).
Proof.
  intros Hn. destruct (dec_digits_spec 19 n) as (Hv & Hd & Hne); [unfold i64_max in Hn; cbn in *; lia|].
  destruct (dec_digits 19 n) as [|c l] eqn:Hl; [by destruct Hne|]. apply Forall_cons in Hd as [Hc Hd].
  pose proof Hc as Hr. unfold is_ascii_digit, between in Hr. bool_prop.
  exists c, l. split; [done|]. split; [|split; [done|]].
  - intros rest. apply solid_plain; [|vm_compute; lia..].
    unfold is_whitespace, between. apply orb_false_iff. split; [apply orb_false_iff; split|]; apply andb_false_iff || apply Z.eqb_neq; lia.
  - intros start rest position.
    destruct (number_token_text c l start rest position Hd) as [q Hq]; [by rewrite Hv|].
    exists q. rewrite Hv in Hq. rewrite <- Hq. unfold token_kind.
    other_than c.
    cbn [orb andb]. by rewrite Hc.
Qed.

Lemma reads_token k : lexable k → reads (token_text k) k.
Proof.
  destruct k as [value quoted|k|v| | | | | | | | | | | | | | | ]; cbn [lexable token_text];
    try (intros _; eexists _, _; split; [reflexivity|]; split;
         [intros rest; repeat split|split; [done|intros start rest position; eexists; reflexivity]]).
  - destruct quoted.
    + intros Hu. eexists _, _. split; [reflexivity|]. split; [intros rest; by apply solid_plain|]. split; [done|].
      intros start rest position. rewrite <- app_assoc. cbn [app].
      destruct (quoted_string_quote (ch dquote) start value (32 :: rest) position Hu) as [q Hq]; [done|].
      exists q. change (token_kind (ch dquote) start ?s)
        with ('(value, self) ← quoted_string (ch dquote) start s; Ok (TIdentifier value true, self)). by rewrite Hq.
    + intros [Hu [Hw Hk]]. destruct (str_chars value) as [|c l] eqn:Hl; [done|]. destruct Hw as (? & ? & ?).
      apply reads_word; [done..|]. by rewrite <- Hl, string_of_str_chars, Hk.
  - intros _. apply reads_keyword.
  - destruct v as [| n | | s | l]; [done| |done| |].
    + apply reads_number.
    + intros Hu. eexists _, _. split; [reflexivity|]. split; [intros rest; by apply solid_plain|]. split; [done|].
      intros start rest position. rewrite <- app_assoc. cbn [app].
      destruct (quoted_string_quote (ch "'") start s (32 :: rest) position Hu) as [q Hq]; [done|].
      exists q. change (token_kind (ch "'") start ?s)
        with ('(value, self) ← quoted_string (ch "'") start s; Ok (TLiteral (VText value), self)). by rewrite Hq.
    + intros Hb. eexists _, _. split; [reflexivity|]. split; [intros rest; by apply solid_plain|]. split; [done|].
      intros start rest position. cbn [app]. rewrite <- app_assoc. cbn [app].
      destruct (bytes_literal_text start l (32 :: rest) (position + 1) Hb) as [q Hq].
      exists q. change (token_kind (ch "x") start ?s)
        with ('(value, self) ← bytes_literal start (skip s); Ok (TLiteral (VBytes value), self)).
      change (skip ?s) with (mkLexer (hex_text l ++ ch "'" :: 32 :: rest) (position + 1)). by rewrite Hq.
  - done.
Qed.

(** ** Token lists *)

Lemma skip_trivia_solid n l position : solid l → skip_trivia_loop (S n) (mkLexer l position) = Some (Ok (mkLexer l position)).
Proof.
  intros Hl. cbn [skip_trivia_loop]. unfold bump_while. cbn [lx_remaining lx_position].
  destruct l as [|c l]; [done|]. destruct Hl as (Hw & Hd & Hs).
  cbn [bump_while_from]. rewrite Hw. cbn [snd lx_remaining]. by rewrite Hd, Hs.
Qed.

Lemma skip_trivia_space n l position : solid l →
  skip_trivia_loop (S n) (mkLexer (32 :: l) position) = Some (Ok (mkLexer l (position + 1))).
Proof.
  intros Hl. rewrite <- (skip_trivia_solid n l (position + 1) Hl). cbn [skip_trivia_loop].
  unfold bump_while. cbn [lx_remaining lx_position]. cbn [bump_while_from].
  change (is_whitespace 32) with true. change (len_utf8 32) with 1. cbv iota.
  by destruct (bump_while_from is_whitespace l (position + 1)).
Qed.

Lemma render_cons k ks : render (k :: ks) = token_text k ++ 32 :: render ks.
Proof. change (render (k :: ks)) with ((token_text k ++ [32]) ++ render ks). by rewrite <- app_assoc. Qed.

Lemma render_solid ks : Forall lexable ks → solid (render ks).
Proof.
  destruct 1 as [|k ks Hk _]; [done|]. rewrite render_cons. destruct (reads_token k Hk) as (c & l & _ & Hs & _). apply Hs.
Qed.

Lemma lex_loop_render ks : Forall lexable ks → ∀ fuel self acc pos,
  (length ks < fuel)%nat →
  (self = mkLexer (render ks) pos ∨ self = mkLexer (32 :: render ks) pos) →
  ∃ tokens, lex_loop fuel self acc = Some (Ok (acc ++ tokens)) ∧ tk_kind <$> tokens = ks ++ [TEof].
Proof.
  induction 1 as [|k ks Hk Hks IH]; intros [|fuel] self acc pos Hf Hself; try (cbn in Hf; lia).
  all: cbn [lex_loop].
  all: assert (∃ p', skip_trivia_loop (S (length (lx_remaining self))) self = Some (Ok (mkLexer (render ltac:(first [exact (k :: ks)|exact []])) p'))) as [p' ->]
    by (destruct Hself as [-> | ->];
        [rewrite skip_trivia_solid by (apply render_solid; by try constructor)
        |rewrite skip_trivia_space by (apply render_solid; by try constructor)]; by eexists).
  - cbn. eexists. split; [reflexivity|]. done.
  - destruct (reads_token k Hk) as (c & l & Ht & _ & Hne & Hr). rewrite render_cons, Ht. cbn [app].
    unfold next_token. cbn [bump lx_remaining lx_position].
    destruct (Hr p' (render ks) (p' + len_utf8 c)) as [q ->]. cbn [mbind result_bind tk_kind lx_position].
    rewrite bool_decide_eq_false_2 by done.
    destruct (IH fuel (mkLexer (32 :: render ks) q) (acc ++ [mkToken k (mkSpan p' q)]) q) as (tokens & -> & Hkinds);
      [cbn in Hf; lia|by right|].
    exists (mkToken k (mkSpan p' q) :: tokens). rewrite <- app_assoc. split; [done|]. by rewrite fmap_cons, Hkinds.
Qed.

(** The lexer reads back what was written. *)
Lemma lex_render ks : Forall lexable ks → ∃ tokens, lex (render ks) = Ok tokens ∧ tk_kind <$> tokens = ks ++ [TEof].
Proof.
  intros Hks. destruct (lex_loop_render ks Hks (S (length ks + length (render ks))) (mkLexer (render ks) 0) [] 0)
    as (tokens & Hl & Hk); [lia|by left|].
  exists tokens. split; [|done]. destruct (lex_total (render ks)) as [Hl' _].
  apply (lex_loop_mono _ (S (length ks + length (render ks)))) in Hl'; [|lia]. rewrite Hl in Hl'. by injection Hl' as <-.
Qed.

(** C31: every statement of the grammar has a text that reads back as it.  Written
    with parentheses only where precedence asks for them, one space between the
    tokens, quotes doubled inside quoted names and texts and bytes in
    hexadecimal, the lexer and the parser return exactly that statement, up to
    spans. *)
Theorem text_roundtrip s :
  statement_ok s → Forall lexable (print_statement s) →
  ∃ s' span, parse_statement (render (print_statement s)) = Ok (s', span)
             ∧ strip_statement s' = strip_statement s.
Proof.
  intros Hok Hlex. destruct (lex_render _ Hlex) as (tokens & Hl & Hk).
  destruct (parse_printed s Hok tokens Hk) as (s' & span & Hp & Hs).
  exists s', span. split; [|done]. unfold parse_statement, parse_statements. rewrite Hl. cbn [mbind result_bind].
  rewrite Hp. done.
Qed.
End Text.
