(* ===== verification/SqlExamples.v ===== *)
(** * The SQL front end on concrete inputs

    The tables of the Unicode characters outside ASCII are taken empty here:
    the texts below are ASCII. *)

From Stdlib Require Import Ascii String.
From S2P Require Import Prelude CoreTypes SqlAst SqlLexer SqlParsing SqlParser SqlPrinter SqlExprRoundtrip SqlRoundtrip SqlText.

#[local] Instance ascii_tables : UnicodeTables :=
  Build_UnicodeTables (λ _, false) (λ _, false) (λ _, false) (λ _, true).

Definition sql (s : string) : list Z := chars s.

Definition sample_text : list Z :=
  sql "SELECT a, SUM(b) FROM t WHERE NOT a = 1 OR b < ? AND c IS NULL GROUP BY a LIMIT 10 -- end".

Example sample_tokens : (length <$> lex sample_text) = Ok 28%nat.
Proof. vm_compute. reflexivity. Qed.

Example unterminated_text :
  lex (sql "SELECT 'abc") = Err (mkSqlError LexError "unterminated quoted value" (mkSpan 7 11)).
Proof. vm_compute. reflexivity. Qed.

Example chained_comparison :
  parse_statement (sql "SELECT a FROM t WHERE a < b < c")
  = Err (mkSqlError ParseError "chained comparisons are unsupported; combine predicates with AND or OR" (mkSpan 28 29)).
Proof. vm_compute. reflexivity. Qed.

Lemma lex_terminates_witness :
  lex_loop (S (length sample_text)) (mkLexer sample_text 0) [] = Some (lex sample_text)
  ∧ (∀ tokens, lex sample_text = Ok tokens → tokens_of 0 sample_text tokens).
Proof. apply (lex_terminates sample_text (S (length sample_text))). lia. Defined.

Definition sample_tokens_of : list Token := match lex sample_text with Ok tokens => tokens | Err _ => [] end.

Lemma parse_terminates_witness :
  ∃ r, parse_tokens sample_tokens_of = Some r
    ∧ parse_statements sample_text
      = (statements ← r;
         _ ← ensure (negb (is_empty statements))
               (mkSqlError ParseError "SQL input contains no statement" (mkSpan 0 (str_len sample_text)));
         Ok statements).
Proof. apply (parse_terminates sample_text sample_tokens_of). vm_compute. reflexivity. Defined.

(** An UPDATE of a column whose quoted name holds a double quote to [-1] and of
    [c] to two bytes, where [NOT (c = ? OR d = ...)] with an apostrophe in the
    text. *)
Definition id (quoted : bool) (value : string) : Ident := mkIdent value quoted span_default.
Definition column (name : string) : SqlExpr := XColumn None (id false name) span_default.
Definition literal (v : Value) : SqlExpr := XLiteral v span_default.

Definition sample_statement : SqlStatement :=
  StUpdate (id false "t")
    [(id true (String "a" (String dquote "b")), XUnary SqlNegate (literal (VInt64 1)) span_default);
     (id false "c", literal (VBytes [10; 255]))]
    (Some (XUnary SqlNot
       (XBinary (XBinary (column "c") SqlEq (XParameter 0 span_default) span_default) SqlOr
                (XBinary (column "d") SqlEq (literal (VText "it's")) span_default) span_default) span_default)).

Lemma text_roundtrip_witness :
  ∃ s' span, parse_statement (render (print_statement sample_statement)) = Ok (s', span)
             ∧ strip_statement s' = strip_statement sample_statement.
Proof.
  apply (text_roundtrip sample_statement).
  - cbn. repeat split; done.
  - repeat constructor; vm_compute; repeat split; repeat constructor; done.
Defined.
