(* ===== verification/SqlCatalog.v ===== *)
(** * The catalog the SQL front end reads: [crates/aster-sql/src/catalog.rs]

    [SqlCatalog] is the trait [Catalog]: what name resolution and planning ask
    of a catalog.  [MemoryCatalog] is the in-memory implementation. *)

From Stdlib Require Import Ascii String.
From S2P Require Import Prelude CoreTypes SqlAst.

Record TableDef : Type := mkTableDef {
  td_id : Z;
  td_name : string;
  td_schema : Schema
}.

Record IndexDef : Type := mkIndexDef {
  ix_id : Z;
  ix_name : string;
  ix_table_id : Z;
  ix_column_index : Z
}.

#[export] Instance TableDef_eq_dec : EqDecision TableDef.
Proof. solve_decision. Defined.
#[export] Instance IndexDef_eq_dec : EqDecision IndexDef.
Proof. solve_decision. Defined.

Record SqlCatalog : Type := mkSqlCatalog {
  resolve_table : Ident → option TableDef;
  resolve_index : Ident → option IndexDef;
  indexes_for_table : Z → list IndexDef
}.

(** The three methods over two lists, as both implementations of the trait
    have them. *)
Definition list_catalog (tables : list TableDef) (indexes : list IndexDef) : SqlCatalog := {|
  resolve_table name := List.find (λ table, ident_matches name (td_name table)) tables;
  resolve_index name := List.find (λ index, ident_matches name (ix_name index)) indexes;
  indexes_for_table table_id := List.filter (λ index, ix_table_id index =? table_id) indexes
|}.

Module Memory.
Record MemoryCatalog : Type := mkMemoryCatalog {
  mc_tables : list TableDef;
  mc_indexes : list IndexDef
}.

Definition new : MemoryCatalog := mkMemoryCatalog [] [].

Definition add_table (self : MemoryCatalog) (table : TableDef) : sqlresult MemoryCatalog :=
  _ ← map_err (λ e, mkSqlError ConstraintError (CoreError_to_string e) span_default)
        (SchemaOps.validate (td_schema table));
  _ ← ensure (negb (existsb (λ candidate, (td_id candidate =? td_id table)
                       || eq_ignore_ascii_case (td_name candidate) (td_name table)) (mc_tables self)
                    || existsb (λ candidate, eq_ignore_ascii_case (ix_name candidate) (td_name table))
                         (mc_indexes self)))
        (mkSqlError ConstraintError ("duplicate table id or name `" +:+ td_name table +:+ "`") span_default);
  Ok (mkMemoryCatalog (mc_tables self ++ [table]) (mc_indexes self)).

Definition add_index (self : MemoryCatalog) (index : IndexDef) : sqlresult MemoryCatalog :=
  _ ← ensure (negb (existsb (λ candidate, (ix_id candidate =? ix_id index)
                       || eq_ignore_ascii_case (ix_name candidate) (ix_name index)) (mc_indexes self)
                    || existsb (λ candidate, eq_ignore_ascii_case (td_name candidate) (ix_name index))
                         (mc_tables self)))
        (mkSqlError ConstraintError ("duplicate index id or name `" +:+ ix_name index +:+ "`") span_default);
  table ← ok_or (List.find (λ table, td_id table =? ix_table_id index) (mc_tables self))
    (mkSqlError BindError ("index `" +:+ ix_name index +:+ "` references an unknown table") span_default);
  _ ← ensure (ix_column_index index <? zlen (columns (td_schema table)))
        (mkSqlError ConstraintError
           ("index `" +:+ ix_name index +:+ "` references column " +:+ pretty (ix_column_index index)
            +:+ ", but table `" +:+ td_name table +:+ "` has "
            +:+ pretty (zlen (columns (td_schema table))) +:+ " columns") span_default);
  Ok (mkMemoryCatalog (mc_tables self) (mc_indexes self ++ [index])).

(** The two loops of [validate] over one set of names. *)
Fixpoint insert_names (names : gset string) (l : list string) : sqlresult (gset string) :=
  match l with
  | [] => Ok names
  | name :: l =>
      let canonical := to_ascii_lowercase name in
      _ ← ensure (negb (bool_decide (canonical ∈ names)))
            (mkSqlError ConstraintError "catalog contains duplicate object names" span_default);
      insert_names ({[canonical]} ∪ names) l
  end.

Definition validate (self : MemoryCatalog) : sqlresult unit :=
  names ← insert_names ∅ (td_name <$> mc_tables self);
  _ ← insert_names names (ix_name <$> mc_indexes self);
  Ok tt.

Definition as_catalog (self : MemoryCatalog) : SqlCatalog := list_catalog (mc_tables self) (mc_indexes self).

(** ** The invariant of a memory catalog *)

(** A catalog built by its own operations. *)
Inductive built : MemoryCatalog → Prop :=
| built_new : built new
| built_table c t c' : built c → add_table c t = Ok c' → built c'
| built_index c i c' : built c → add_index c i = Ok c' → built c'.

Definition names_of (c : MemoryCatalog) : list string :=
  to_ascii_lowercase <$> (td_name <$> mc_tables c) ++ (ix_name <$> mc_indexes c).

Record catalog_ok (c : MemoryCatalog) : Prop := {
  co_names : NoDup (names_of c);
  co_table_ids : NoDup (td_id <$> mc_tables c);
  co_index_ids : NoDup (ix_id <$> mc_indexes c);
  co_schemas : Forall (λ t, ∃ k, SchemaOps.validate (td_schema t) = Ok k) (mc_tables c);
  co_columns : Forall (λ i, ∃ t, t ∈ mc_tables c ∧ td_id t = ix_table_id i
                                 ∧ ix_column_index i < zlen (columns (td_schema t))) (mc_indexes c)
}.

Lemma no_clash {A} (p : A → bool) l : existsb p l = false → ∀ a, a ∈ l → p a = false.
Proof.
  intros H a Ha. destruct (p a) eqn:Hp; [|done]. rewrite <- H. symmetry. apply existsb_exists. exists a.
  split; [by apply list_elem_of_In|done].
Qed.

Lemma NoDup_snoc {A} (l : list A) a : NoDup l → a ∉ l → NoDup (l ++ [a]).
Proof. intros Hl Ha. apply NoDup_app. split; [done|]. split; [set_solver|apply NoDup_singleton]. Qed.

Lemma insert_names_Ok l : ∀ names, NoDup (to_ascii_lowercase <$> l) → (∀ n, n ∈ to_ascii_lowercase <$> l → n ∉ names) →
  ∃ names', insert_names names l = Ok names' ∧ names' = names ∪ list_to_set (to_ascii_lowercase <$> l).
Proof.
  induction l as [|n l IH]; intros names Hnd Hf; cbn [insert_names fmap list_fmap list_to_set].
  - exists names. split; [done|set_solver].
  - apply NoDup_cons in Hnd as [Hn Hnd]. rewrite bool_decide_false by (apply Hf; left). cbn.
    destruct (IH ({[to_ascii_lowercase n]} ∪ names) Hnd) as (names' & Hi & ->).
    2: { rewrite Hi. eexists. split; [done|set_solver]. }
    intros m Hm. specialize (Hf m ltac:(by right)). set_solver.
Qed.

Lemma ok_validates c : catalog_ok c → validate c = Ok tt.
Proof.
  intros [Hn _ _ _ _]. unfold names_of in Hn. rewrite fmap_app in Hn. apply NoDup_app in Hn as (Ht & Hd & Hi).
  unfold validate. destruct (insert_names_Ok (td_name <$> mc_tables c) ∅ Ht) as (names & -> & ->); [set_solver|]. cbn.
  destruct (insert_names_Ok (ix_name <$> mc_indexes c) (∅ ∪ list_to_set (to_ascii_lowercase <$> (td_name <$> mc_tables c))) Hi)
    as (names & -> & _); [|done].
  intros n Hin. rewrite (left_id_L ∅ (∪)), elem_of_list_to_set. naive_solver.
Qed.

Lemma names_snoc_table c t : names_of (mkMemoryCatalog (mc_tables c ++ [t]) (mc_indexes c))
  ≡ₚ names_of c ++ [to_ascii_lowercase (td_name t)].
Proof. unfold names_of. cbn. rewrite !fmap_app. cbn. rewrite <- !app_assoc. f_equiv. apply Permutation_app_comm. Qed.

Lemma fresh_name c n :
  existsb (λ t, eq_ignore_ascii_case (td_name t) n) (mc_tables c) = false →
  existsb (λ i, eq_ignore_ascii_case (ix_name i) n) (mc_indexes c) = false →
  to_ascii_lowercase n ∉ names_of c.
Proof.
  intros Ht Hi. unfold names_of. rewrite fmap_app, elem_of_app, <- !list_fmap_compose, !list_elem_of_fmap.
  intros [(x & Heq & Hx)|(x & Heq & Hx)];
    [apply (no_clash _ _ Ht) in Hx|apply (no_clash _ _ Hi) in Hx]; by apply bool_decide_eq_false in Hx.
Qed.

Lemma existsb_orb {A} (p q : A → bool) l : existsb (λ a, p a || q a) l = false → existsb p l = false ∧ existsb q l = false.
Proof.
  induction l as [|a l IH]; cbn; [done|]. rewrite !orb_false_iff. naive_solver.
Qed.

Lemma id_fresh {A} (f : A → Z) l x : existsb (λ a, f a =? x) l = false → x ∉ f <$> l.
Proof. intros H (a & -> & Ha)%list_elem_of_fmap. apply (no_clash _ _ H), Z.eqb_neq in Ha. done. Qed.

(** A catalog built by [add_table] and [add_index] is sound: names are
    distinct in any case, across tables and indexes; ids are distinct; every
    schema is valid; every index is on a column of a table that exists; and
    [validate] accepts it. *)
Theorem built_catalog_ok c : built c → catalog_ok c ∧ validate c = Ok tt.
Proof.
  intros Hb. enough (catalog_ok c) by (split; [done|by apply ok_validates]). induction Hb as [|c t c' Hb IH Ha|c i c' Hb IH Ha].
  - split; constructor.
  - destruct IH as [Hn Ht Hi Hs Hc]. unfold add_table in Ha.
    apply result_bind_Ok in Ha as (k & Hv & (u & Hu%ensure_Ok & <-%Ok_inj)%result_bind_Ok). bool_prop.
    match goal with H : existsb _ (mc_tables c) = false |- _ => apply existsb_orb in H as [Hid Hname] end.
    split; cbn [mc_tables mc_indexes]; try done.
    + rewrite names_snoc_table. apply NoDup_snoc; [done|]. by apply fresh_name.
    + rewrite fmap_app. apply NoDup_snoc; [done|]. by apply id_fresh.
    + apply Forall_app. split; [done|]. constructor; [|constructor].
      destruct (SchemaOps.validate (td_schema t)); [eauto|done].
    + eapply Forall_impl; [exact Hc|]. intros j (t' & Hin & ?). exists t'. split; [|done]. apply elem_of_app. by left.
  - destruct IH as [Hn Ht Hi Hs Hc]. unfold add_index in Ha.
    apply result_bind_Ok in Ha as (u & Hu%ensure_Ok & (t & Hf%ok_or_Ok & (u' & Hcol%ensure_Ok & <-%Ok_inj)%result_bind_Ok)%result_bind_Ok).
    bool_prop. match goal with H : existsb _ (mc_indexes c) = false |- _ => apply existsb_orb in H as [Hid Hname] end.
    apply List.find_some in Hf as [Hin Hteq%Z.eqb_eq]. apply list_elem_of_In in Hin. split; cbn [mc_tables mc_indexes]; try done.
    + unfold names_of. cbn. rewrite !fmap_app, app_assoc. cbn. rewrite <- fmap_app.
      change (NoDup (names_of c ++ [to_ascii_lowercase (ix_name i)])). apply NoDup_snoc; [done|]. by apply fresh_name.
    + rewrite fmap_app. apply NoDup_snoc; [done|]. by apply id_fresh.
    + apply Forall_app. split; [done|]. constructor; [|constructor]. by exists t.
Qed.
End Memory.
