(* ===== verification/SqlPlan.v ===== *)
(** * Bound expressions and plans: [crates/aster-sql/src/plan.rs]

    Expressions after name resolution, logical plans, physical plans, the
    choice of access paths and join algorithms, and the text of a plan. *)

From Stdlib Require Import Ascii String.
From S2P Require Import Prelude CoreTypes SqlAst SqlCatalog.

Record SqlType : Type := mkSqlType {
  st_data_type : option DataType;
  st_nullable : bool
}.

Definition known (data_type : DataType) (nullable : bool) : SqlType := mkSqlType (Some data_type) nullable.
Definition UNKNOWN : SqlType := mkSqlType None true.

Record ParameterSpec : Type := mkParameterSpec {
  ps_index : Z;
  ps_data_type : option DataType;
  ps_nullable : bool
}.

Record BoundTable : Type := mkBoundTable {
  bt_table : TableDef;
  bt_alias : string;
  bt_slot_offset : Z
}.

Record BoundColumn : Type := mkBoundColumn {
  bc_table_id : Z;
  bc_table_name : string;
  bc_table_alias : string;
  bc_column_index : Z;
  bc_input_slot : Z;
  bc_column : Column
}.

(** [Spanned<BoundExprKind>]; an aggregate without and with an argument. *)
Inductive BoundExpr : Type :=
| BLiteral (value : Value) (span : Span)
| BParameter (index : Z) (data_type : option DataType) (span : Span)
| BColumn (column : BoundColumn) (span : Span)
| BUnary (op : SqlUnaryOp) (expr : BoundExpr) (span : Span)
| BBinary (left_ : BoundExpr) (op : SqlBinaryOp) (right_ : BoundExpr) (span : Span)
| BIsNull (expr : BoundExpr) (negated : bool) (span : Span)
| BAggregateStar (function : AggregateFunction) (span : Span)
| BAggregate (function : AggregateFunction) (argument : BoundExpr) (span : Span).

Definition b_span (e : BoundExpr) : Span :=
  match e with
  | BLiteral _ s | BParameter _ _ s | BColumn _ s | BUnary _ _ s | BBinary _ _ _ s | BIsNull _ _ s
  | BAggregateStar _ s | BAggregate _ _ s => s
  end.

(** [expression.span = span] *)
Definition b_set_span (e : BoundExpr) (s : Span) : BoundExpr :=
  match e with
  | BLiteral v _ => BLiteral v s
  | BParameter i t _ => BParameter i t s
  | BColumn c _ => BColumn c s
  | BUnary op e _ => BUnary op e s
  | BBinary l op r _ => BBinary l op r s
  | BIsNull e n _ => BIsNull e n s
  | BAggregateStar f _ => BAggregateStar f s
  | BAggregate f a _ => BAggregate f a s
  end.

Fixpoint sql_type (self : BoundExpr) : SqlType :=
  match self with
  | BLiteral value _ => mkSqlType (data_type value) (is_null value)
  | BParameter _ data_type _ => mkSqlType data_type true
  | BColumn column _ => known (c_data_type (bc_column column)) (nullable (bc_column column))
  | BUnary SqlNot expr _ => known Bool (st_nullable (sql_type expr))
  | BUnary SqlNegate expr _ => known Int64 (st_nullable (sql_type expr))
  | BBinary left_ _ right_ _ => known Bool (st_nullable (sql_type left_) || st_nullable (sql_type right_))
  | BIsNull _ _ _ => known Bool false
  | BAggregateStar AggCount _ | BAggregate AggCount _ _ => known Int64 false
  | BAggregateStar AggSum _ | BAggregate AggSum _ _ => known Int64 true
  | BAggregateStar _ _ => UNKNOWN
  | BAggregate _ argument _ => mkSqlType (st_data_type (sql_type argument)) true
  end.

Record NamedExpr : Type := mkNamedExpr { ne_expr : BoundExpr; ne_name : string }.
Record BoundOrder : Type := mkBoundOrder { bo_expr : BoundExpr; bo_direction : OrderDirection }.

Inductive LogicalPlan : Type :=
| LScan (table : BoundTable)
| LFilter (input : LogicalPlan) (predicate : BoundExpr)
| LJoin (left_ right_ : LogicalPlan) (on : BoundExpr)
| LAggregate (input : LogicalPlan) (group_by aggregates : list BoundExpr)
| LSort (input : LogicalPlan) (order_by : list BoundOrder)
| LLimit (input : LogicalPlan) (limit : BoundExpr)
| LProject (input : LogicalPlan) (expressions : list NamedExpr).

Inductive TransactionStatement : Type := TsBegin | TsCommit | TsRollback.

Inductive BoundStatement : Type :=
| BsCreateTable (name : string) (schema : Schema)
| BsCreateIndex (name : string) (table : TableDef) (column_index : Z)
| BsInsert (table : TableDef) (values : list BoundExpr)
| BsUpdate (table : TableDef) (assignments : list (Z * BoundExpr)) (selection : option BoundExpr)
| BsDelete (table : TableDef) (selection : option BoundExpr)
| BsQuery (plan : LogicalPlan) (output : list NamedExpr)
| BsTransaction (statement : TransactionStatement)
| BsExplain (inner : BoundStatement).

Record IndexConstraint : Type := mkIndexConstraint {
  ic_column_index : Z;
  ic_operator : SqlBinaryOp;
  ic_value : BoundExpr
}.

Inductive JoinAlgorithm : Type :=
| NestedLoop
| Hash
| IndexNestedLoop (inner_index_id inner_column_index : Z).

Inductive PhysicalPlan : Type :=
| PSeqScan (table : BoundTable)
| PIndexScan (table : BoundTable) (index : IndexDef) (constraint : IndexConstraint)
| PFilter (input : PhysicalPlan) (predicate : BoundExpr)
| PJoin (left_ right_ : PhysicalPlan) (on : BoundExpr) (algorithm : JoinAlgorithm)
| PHashAggregate (input : PhysicalPlan) (group_by aggregates : list BoundExpr)
| PSort (input : PhysicalPlan) (order_by : list BoundOrder)
| PLimit (input : PhysicalPlan) (limit : BoundExpr)
| PProject (input : PhysicalPlan) (expressions : list NamedExpr).

Module Plan.
Definition reverse_comparison (operator : SqlBinaryOp) : SqlBinaryOp :=
  match operator with
  | SqlLt => SqlGt | SqlLtEq => SqlGtEq | SqlGt => SqlLt | SqlGtEq => SqlLtEq
  | other => other
  end.

Definition sargable (predicate : BoundExpr) : option (BoundColumn * SqlBinaryOp * BoundExpr) :=
  match predicate with
  | BBinary left_ op right_ _ =>
      if is_comparison op then
        match left_, right_ with
        | BColumn column _, BLiteral value _ => if is_null value then None else Some (column, op, right_)
        | BColumn column _, BParameter _ _ _ => Some (column, op, right_)
        | BLiteral value _, BColumn column _ =>
            if is_null value then None else Some (column, reverse_comparison op, left_)
        | BParameter _ _ _, BColumn column _ => Some (column, reverse_comparison op, left_)
        | _, _ => None
        end
      else None
  | _ => None
  end.

Section Catalog.
Variable catalog : SqlCatalog.

(** The leaf of [choose_index]: a predicate that is no conjunction. *)
Definition choose_conjunct (table : BoundTable) (predicate : BoundExpr) : option (IndexDef * IndexConstraint) :=
  '(column, operator, value) ← sargable predicate;
  if bc_table_id column =? td_id (bt_table table) then
    index ← List.find (λ candidate, ix_column_index candidate =? bc_column_index column)
              (indexes_for_table catalog (td_id (bt_table table)));
    Some (index, mkIndexConstraint (bc_column_index column) operator value)
  else None.

Fixpoint choose_index (table : BoundTable) (predicate : BoundExpr) : option (IndexDef * IndexConstraint) :=
  match predicate with
  | BBinary left_ SqlAnd right_ _ =>
      match choose_index table left_ with
      | Some choice => Some choice
      | None => choose_index table right_
      end
  | _ => choose_conjunct table predicate
  end.

Definition choose_join_algorithm (right_ : LogicalPlan) (on : BoundExpr) : JoinAlgorithm :=
  match on with
  | BBinary (BColumn left_column _) SqlEq (BColumn right_column _) _ =>
      match right_ with
      | LScan inner =>
          let id := td_id (bt_table inner) in
          let inner_column :=
            if bc_table_id right_column =? id then Some right_column
            else if bc_table_id left_column =? id then Some left_column
            else None in
          match inner_column with
          | None => Hash
          | Some inner_column =>
              match List.find (λ index, ix_column_index index =? bc_column_index inner_column)
                      (indexes_for_table catalog id) with
              | Some index => IndexNestedLoop (ix_id index) (bc_column_index inner_column)
              | None => Hash
              end
          end
      | _ => Hash
      end
  | _ => NestedLoop
  end.

Fixpoint optimize (plan : LogicalPlan) : PhysicalPlan :=
  match plan with
  | LScan table => PSeqScan table
  | LFilter input predicate =>
      let default_plan := PFilter (optimize input) predicate in
      match input with
      | LScan table =>
          match choose_index table predicate with
          | Some (index, constraint) => PFilter (PIndexScan table index constraint) predicate
          | None => default_plan
          end
      | _ => default_plan
      end
  | LJoin left_ right_ on =>
      PJoin (optimize left_) (optimize right_) on (choose_join_algorithm right_ on)
  | LAggregate input group_by aggregates => PHashAggregate (optimize input) group_by aggregates
  | LSort input order_by => PSort (optimize input) order_by
  | LLimit input limit => PLimit (optimize input) limit
  | LProject input expressions => PProject (optimize input) expressions
  end.
End Catalog.

(** ** [EXPLAIN] *)

Definition JoinAlgorithm_debug (a : JoinAlgorithm) : string :=
  match a with
  | NestedLoop => "NestedLoop"
  | Hash => "Hash"
  | IndexNestedLoop i c =>
      "IndexNestedLoop { inner_index_id: " +:+ pretty i +:+ ", inner_column_index: " +:+ pretty c +:+ " }"
  end.

Fixpoint indent (depth : nat) : string :=
  match depth with O => "" | S depth => "  " +:+ indent depth end.

Definition newline : string := String "010" EmptyString.

(** What [explain_node] writes. *)
Fixpoint explain_node (plan : PhysicalPlan) (depth : nat) : string :=
  match plan with
  | PSeqScan table => indent depth +:+ "SeqScan table=" +:+ td_name (bt_table table) +:+ newline
  | PIndexScan table index _ =>
      indent depth +:+ "IndexScan table=" +:+ td_name (bt_table table) +:+ " index=" +:+ ix_name index +:+ newline
  | PFilter input _ => indent depth +:+ "Filter" +:+ newline +:+ explain_node input (S depth)
  | PJoin left_ right_ _ algorithm =>
      indent depth +:+ "Join algorithm=" +:+ JoinAlgorithm_debug algorithm +:+ newline
      +:+ explain_node left_ (S depth) +:+ explain_node right_ (S depth)
  | PHashAggregate input _ _ => indent depth +:+ "HashAggregate" +:+ newline +:+ explain_node input (S depth)
  | PSort input _ => indent depth +:+ "Sort" +:+ newline +:+ explain_node input (S depth)
  | PLimit input _ => indent depth +:+ "Limit" +:+ newline +:+ explain_node input (S depth)
  | PProject input _ => indent depth +:+ "Project" +:+ newline +:+ explain_node input (S depth)
  end.

Definition explain_physical (plan : PhysicalPlan) : string := explain_node plan 0.
End Plan.
