(* ===== verification/SqlEval.v ===== *)
(** * Scalar expression semantics: [crates/aster-sql/src/eval.rs] *)

From Stdlib Require Import Ascii String.
From S2P Require Import Prelude CoreTypes SqlAst SqlCatalog SqlPlan.

Inductive TruthValue : Type := TvFalse | TvTrue | TvUnknown.

#[export] Instance TruthValue_eq_dec : EqDecision TruthValue.
Proof. solve_decision. Defined.

Module Tv.
Definition and (self other : TruthValue) : TruthValue :=
  match self, other with
  | TvFalse, _ | _, TvFalse => TvFalse
  | TvTrue, TvTrue => TvTrue
  | _, _ => TvUnknown
  end.

Definition or (self other : TruthValue) : TruthValue :=
  match self, other with
  | TvTrue, _ | _, TvTrue => TvTrue
  | TvFalse, TvFalse => TvFalse
  | _, _ => TvUnknown
  end.

Definition not (self : TruthValue) : TruthValue :=
  match self with TvFalse => TvTrue | TvTrue => TvFalse | TvUnknown => TvUnknown end.

Definition into_value (self : TruthValue) : Value :=
  match self with TvFalse => VBool false | TvTrue => VBool true | TvUnknown => VNull end.
End Tv.

Module Eval.
Record EvaluationContext : Type := mkEvaluationContext {
  ctx_row : Row;
  ctx_parameters : list Value
}.

Definition type_error (operation : string) (value : Value) (span : Span) : SqlError :=
  mkSqlError SqlTypeError ("cannot " +:+ operation +:+ " " +:+ type_name value) span.

Definition ensure_runtime_type (value : Value) (expected : option DataType) (span : Span) : sqlresult unit :=
  match expected, data_type value with
  | Some expected, Some actual =>
      ensure (bool_decide (expected = actual))
        (mkSqlError SqlTypeError ("expected " +:+ DataType_to_string expected +:+ ", found "
                                  +:+ DataType_to_string actual) span)
  | _, _ => Ok tt
  end.

Definition truth (value : Value) (span : Span) : sqlresult TruthValue :=
  match value with
  | VBool false => Ok TvFalse
  | VBool true => Ok TvTrue
  | VNull => Ok TvUnknown
  | other => Err (type_error "use as a predicate" other span)
  end.

(** The test of a comparison operator; the source has no other operator here. *)
Definition holds (operator : SqlBinaryOp) (ordering : comparison) : bool :=
  match operator, ordering with
  | SqlEq, Eq | SqlNotEq, (Lt | Gt) | SqlLt, Lt | SqlLtEq, (Lt | Eq) | SqlGt, Gt | SqlGtEq, (Gt | Eq) => true
  | _, _ => false
  end.

Definition compare (left_ : Value) (operator : SqlBinaryOp) (right_ : Value) (span : Span) : sqlresult Value :=
  ordering ← map_err (λ e, mkSqlError SqlTypeError (CoreError_to_string e) span) (checked_cmp left_ right_);
  match ordering with
  | None => Ok VNull
  | Some ordering => Ok (VBool (holds operator ordering))
  end.

(** [value.checked_neg()] *)
Definition negate (value : Value) (span : Span) : sqlresult Value :=
  match value with
  | VNull => Ok VNull
  | VInt64 value =>
      value ← ok_or (i64_checked (- value)) (mkSqlError ConstraintError "INT64 negation overflow" span);
      Ok (VInt64 value)
  | other => Err (type_error "negate" other span)
  end.

Fixpoint evaluate (expression : BoundExpr) (context : EvaluationContext) : sqlresult Value :=
  match expression with
  | BLiteral value _ => Ok value
  | BParameter index data_type span =>
      value ← ok_or (znth (ctx_parameters context) index)
        (mkSqlError ConstraintError ("missing value for parameter ?" +:+ pretty (index + 1)) span);
      _ ← ensure_runtime_type value data_type span;
      Ok value
  | BColumn column span =>
      value ← ok_or (znth (values (ctx_row context)) (bc_input_slot column))
        (mkSqlError ConstraintError
           ("row has no slot " +:+ pretty (bc_input_slot column) +:+ " for " +:+ bc_table_alias column
            +:+ "." +:+ c_name (bc_column column)) span);
      _ ← ensure_runtime_type value (Some (c_data_type (bc_column column))) span;
      Ok value
  | BUnary op expr span =>
      value ← evaluate expr context;
      match op with
      | SqlNot => t ← truth value span; Ok (Tv.into_value (Tv.not t))
      | SqlNegate => negate value span
      end
  | BBinary left_ op right_ span =>
      left_ ← evaluate left_ context;
      match op with
      | SqlAnd =>
          left_truth ← truth left_ span;
          if bool_decide (left_truth = TvFalse) then Ok (VBool false) else
          right_ ← evaluate right_ context;
          right_truth ← truth right_ span;
          Ok (Tv.into_value (Tv.and left_truth right_truth))
      | SqlOr =>
          left_truth ← truth left_ span;
          if bool_decide (left_truth = TvTrue) then Ok (VBool true) else
          right_ ← evaluate right_ context;
          right_truth ← truth right_ span;
          Ok (Tv.into_value (Tv.or left_truth right_truth))
      | comparison =>
          right_ ← evaluate right_ context;
          compare left_ comparison right_ span
      end
  | BIsNull expr negated _ =>
      value ← evaluate expr context;
      Ok (VBool (if negated then negb (is_null value) else is_null value))
  | BAggregateStar _ span | BAggregate _ _ span =>
      Err (unsupported "aggregate expressions require an aggregate executor" span)
  end.

Definition predicate_matches (expression : BoundExpr) (context : EvaluationContext) : sqlresult bool :=
  value ← evaluate expression context;
  t ← truth value (b_span expression);
  Ok (bool_decide (t = TvTrue)).

Definition validate_parameter (values : list Value) (specification : ParameterSpec) : sqlresult unit :=
  value ← ok_or (znth values (ps_index specification))
    (mkSqlError ConstraintError ("missing parameter ?" +:+ pretty (ps_index specification + 1)) span_default);
  _ ← ensure_runtime_type value (ps_data_type specification) span_default;
  ensure (negb (is_null value && negb (ps_nullable specification)))
    (mkSqlError ConstraintError ("parameter ?" +:+ pretty (ps_index specification + 1) +:+ " cannot be NULL")
       span_default).

Fixpoint validate_specifications (specifications : list ParameterSpec) (values : list Value) : sqlresult unit :=
  match specifications with
  | [] => Ok tt
  | specification :: specifications =>
      _ ← validate_parameter values specification;
      validate_specifications specifications values
  end.

Definition validate_parameters (specifications : list ParameterSpec) (values : list Value) : sqlresult unit :=
  _ ← ensure (zlen specifications =? zlen values)
        (mkSqlError ConstraintError
           ("statement expects " +:+ pretty (zlen specifications) +:+ " parameters, received "
            +:+ pretty (zlen values)) span_default);
  validate_specifications specifications values.
End Eval.
