(* ===== verification/SqlBinder.v ===== *)
(** * The binder: [crates/aster-sql/src/binder.rs]

    Names are resolved against a scope, types are inferred and checked, and
    parameters collect the types their positions ask for.  The binder's state
    is the list of parameter specifications; an error ends it. *)

From Stdlib Require Import Ascii String.
From S2P Require Import Prelude CoreTypes SqlAst SqlCatalog SqlPlan.

Record BindOutput : Type := mkBindOutput {
  bo_statement : BoundStatement;
  bo_parameters : list ParameterSpec
}.

(** A method on [&mut self] of [Binder]. *)
Definition binder (A : Type) : Type := list ParameterSpec → sqlresult (A * list ParameterSpec).

#[export] Instance binder_ret : MRet binder := λ A a parameters, Ok (a, parameters).
#[export] Instance binder_bind : MBind binder := λ A B f m parameters,
  match m parameters with
  | Ok (a, parameters) => f a parameters
  | Err e => Err e
  end.

Definition b_lift {A} (r : sqlresult A) : binder A := λ parameters,
  match r with Ok a => Ok (a, parameters) | Err e => Err e end.

(** [for x in l] with results collected in order. *)
Fixpoint b_map {A B} (f : A → binder B) (l : list A) : binder (list B) :=
  match l with
  | [] => mret []
  | x :: l => y ← f x; ys ← b_map f l; mret (y :: ys)
  end.

Definition b_option {A B} (f : A → binder B) (o : option A) : binder (option B) :=
  match o with
  | Some x => y ← f x; mret (Some y)
  | None => mret None
  end.

Inductive AggregatePolicy : Type := Allowed | Forbidden.

Definition bind_error (message : string) (span : Span) : SqlError := mkSqlError BindError message span.

(** ** Scopes *)

Record Scope : Type := mkScope { sc_tables : list BoundTable }.

Module ScopeOps.
Definition empty : Scope := mkScope [].

Definition single (table : TableDef) (alias : string) (slot_offset : Z) : Scope :=
  mkScope [mkBoundTable table alias slot_offset].

Definition push (self : Scope) (table : BoundTable) (span : Span) : sqlresult Scope :=
  _ ← ensure (negb (existsb (λ existing, eq_ignore_ascii_case (bt_alias existing) (bt_alias table))
                     (sc_tables self)))
        (bind_error ("duplicate table alias `" +:+ bt_alias table +:+ "`") span);
  Ok (mkScope (sc_tables self ++ [table])).

Definition total_columns (self : Scope) : Z :=
  match last (sc_tables self) with
  | Some table => bt_slot_offset table + zlen (columns (td_schema (bt_table table)))
  | None => 0
  end.

Definition bound_column (table : BoundTable) (column_index : Z) (column : Column) : BoundColumn := {|
  bc_table_id := td_id (bt_table table);
  bc_table_name := td_name (bt_table table);
  bc_table_alias := bt_alias table;
  bc_column_index := column_index;
  bc_input_slot := bt_slot_offset table + column_index;
  bc_column := column
|}.

(** The column of one table a name stands for. *)
Definition candidate (name : Ident) (table : BoundTable) : option BoundColumn :=
  '(column_index, column) ← List.find (λ p, ident_matches name (c_name p.2))
                              (enumerate (columns (td_schema (bt_table table))));
  Some (bound_column table column_index column).

Definition qualifies (qualifier : option Ident) (table : BoundTable) : bool :=
  match qualifier with
  | None => true
  | Some qualifier => ident_matches qualifier (bt_alias table)
  end.

Definition resolve_column (self : Scope) (qualifier : option Ident) (name : Ident) : sqlresult BoundColumn :=
  match omap (candidate name) (List.filter (qualifies qualifier) (sc_tables self)) with
  | [column] => Ok column
  | [] =>
      let display_name :=
        match qualifier with
        | None => Ident_to_string name
        | Some qualifier => Ident_to_string qualifier +:+ "." +:+ Ident_to_string name
        end in
      Err (bind_error ("column `" +:+ display_name +:+ "` does not exist in the query scope") (id_span name))
  | _ => Err (bind_error ("column `" +:+ Ident_to_string name +:+ "` is ambiguous") (id_span name))
  end.
End ScopeOps.

(** ** Helpers *)

Definition find_column (table : TableDef) (name : Ident) : option Z :=
  fst <$> List.find (λ p, ident_matches name (c_name p.2)) (enumerate (columns (td_schema table))).

(** [table.schema.columns[i]]; the positions come from [find_column] or from
    the range of the columns. *)
Definition column_at (table : TableDef) (i : Z) : Column :=
  default (mkColumn "" Int64 true false) (znth (columns (td_schema table)) i).

Definition is_null_literal (e : BoundExpr) : bool :=
  match e with BLiteral VNull _ => true | _ => false end.

Definition reject_null_for_non_nullable (expr : BoundExpr) (column : Column) (span : Span) : sqlresult unit :=
  ensure (negb (negb (nullable column) && is_null_literal expr))
    (mkSqlError ConstraintError ("column `" +:+ c_name column +:+ "` is not nullable") span).

(** [parameters.iter_mut().find(|item| item.index == index)] and an update. *)
Fixpoint update_parameter (index : Z) (f : ParameterSpec → ParameterSpec) (parameters : list ParameterSpec)
    : list ParameterSpec :=
  match parameters with
  | [] => []
  | p :: parameters =>
      if ps_index p =? index then f p :: parameters else p :: update_parameter index f parameters
  end.

Definition set_data_type (t : DataType) (p : ParameterSpec) : ParameterSpec :=
  mkParameterSpec (ps_index p) (Some t) (ps_nullable p).

Definition set_required (p : ParameterSpec) : ParameterSpec :=
  mkParameterSpec (ps_index p) (ps_data_type p) false.

(** The expression is updated in place. *)
Definition constrain_direct_parameter (expression : BoundExpr) (expected : DataType) : binder BoundExpr :=
  match expression with
  | BParameter index data_type span => λ parameters,
      match data_type with
      | Some actual =>
          if bool_decide (actual = expected) then
            Ok (BParameter index (Some expected) span, update_parameter index (set_data_type expected) parameters)
          else
            Err (mkSqlError SqlTypeError
                   ("parameter ?" +:+ pretty (index + 1) +:+ " expects " +:+ DataType_to_string actual
                    +:+ ", not " +:+ DataType_to_string expected) span)
      | None =>
          Ok (BParameter index (Some expected) span, update_parameter index (set_data_type expected) parameters)
      end
  | _ => mret expression
  end.

Definition unify_comparison_types (left_ right_ : BoundExpr) (span : Span) : binder (BoundExpr * BoundExpr) :=
  match st_data_type (sql_type left_), st_data_type (sql_type right_) with
  | Some left_type, Some right_type =>
      if bool_decide (left_type = right_type) then mret (left_, right_)
      else b_lift (Err (mkSqlError SqlTypeError
             ("cannot compare " +:+ DataType_to_string left_type +:+ " with "
              +:+ DataType_to_string right_type) span))
  | Some data_type, None => right_ ← constrain_direct_parameter right_ data_type; mret (left_, right_)
  | None, Some data_type => left_ ← constrain_direct_parameter left_ data_type; mret (left_, right_)
  | None, None =>
      if negb (is_null_literal left_) && negb (is_null_literal right_)
      then b_lift (Err (mkSqlError SqlTypeError "comparison operand types cannot be inferred" span))
      else mret (left_, right_)
  end.

Definition require_direct_parameter_value (expression : BoundExpr) : binder unit :=
  match expression with
  | BParameter index _ _ => λ parameters, Ok (tt, update_parameter index set_required parameters)
  | _ => mret tt
  end.

Fixpoint contains_aggregate (expr : SqlExpr) : bool :=
  match expr with
  | XAggregateStar _ _ | XAggregate _ _ _ => true
  | XUnary _ expr _ | XIsNull expr _ _ => contains_aggregate expr
  | XBinary left_ _ right_ _ => contains_aggregate left_ || contains_aggregate right_
  | XLiteral _ _ | XParameter _ _ | XColumn _ _ _ => false
  end.

(** What [collect_aggregates] pushes. *)
Fixpoint collect_aggregates (expr : BoundExpr) : list BoundExpr :=
  match expr with
  | BAggregateStar _ _ | BAggregate _ _ _ => [expr]
  | BUnary _ expr _ | BIsNull expr _ _ => collect_aggregates expr
  | BBinary left_ _ right_ _ => collect_aggregates left_ ++ collect_aggregates right_
  | BLiteral _ _ | BParameter _ _ _ | BColumn _ _ => []
  end.

Fixpoint same_expression (left_ right_ : BoundExpr) : bool :=
  match left_, right_ with
  | BLiteral l _, BLiteral r _ => bool_decide (l = r)
  | BParameter l _ _, BParameter r _ _ => l =? r
  | BColumn l _, BColumn r _ => (bc_table_id l =? bc_table_id r) && (bc_column_index l =? bc_column_index r)
  | BUnary lop l _, BUnary rop r _ => bool_decide (lop = rop) && same_expression l r
  | BBinary la lop lb _, BBinary ra rop rb _ =>
      bool_decide (lop = rop) && same_expression la ra && same_expression lb rb
  | BIsNull l ln _, BIsNull r rn _ => bool_decide (ln = rn) && same_expression l r
  | BAggregateStar lf _, BAggregateStar rf _ => bool_decide (lf = rf)
  | BAggregate lf l _, BAggregate rf r _ => bool_decide (lf = rf) && same_expression l r
  | _, _ => false
  end.

Definition deduplicate_expressions (expressions : list BoundExpr) : list BoundExpr :=
  foldl (λ unique expression,
           if existsb (λ existing, same_expression existing expression) unique
           then unique else unique ++ [expression]) [] expressions.

Fixpoint group_compatible (expr : BoundExpr) (group_by : list BoundExpr) : bool :=
  existsb (λ group, same_expression expr group) group_by
  || match expr with
     | BAggregateStar _ _ | BAggregate _ _ _ | BLiteral _ _ | BParameter _ _ _ => true
     | BColumn _ _ => false
     | BUnary _ expr _ | BIsNull expr _ _ => group_compatible expr group_by
     | BBinary left_ _ right_ _ => group_compatible left_ group_by && group_compatible right_ group_by
     end.

Definition function_name (f : AggregateFunction) : string :=
  match f with AggCount => "count" | AggSum => "sum" | AggMin => "min" | AggMax => "max" end.

Definition expression_name (expr : BoundExpr) (position : Z) : string :=
  match expr with
  | BColumn column _ => c_name (bc_column column)
  | BAggregateStar function _ | BAggregate function _ _ => function_name function
  | _ => "expr" +:+ pretty (position + 1)
  end.

Definition output_schema (output : list NamedExpr) : list (string * SqlType) :=
  (λ e, (ne_name e, sql_type (ne_expr e))) <$> output.

(** ** Expressions *)

Definition enforce_expected (expression : BoundExpr) (expected : option DataType) : binder BoundExpr :=
  match expected with
  | None => mret expression
  | Some expected =>
      match st_data_type (sql_type expression) with
      | Some actual =>
          if bool_decide (actual = expected) then mret expression
          else b_lift (Err (mkSqlError SqlTypeError
                 ("expected " +:+ DataType_to_string expected +:+ ", found " +:+ DataType_to_string actual)
                 (b_span expression)))
      | None => constrain_direct_parameter expression expected
      end
  end.

Definition record_parameter (index : Z) (data_type : option DataType) (span : Span) : binder unit := λ parameters,
  match List.find (λ p, ps_index p =? index) parameters with
  | Some parameter =>
      match ps_data_type parameter, data_type with
      | Some existing, Some new =>
          if bool_decide (existing = new) then Ok (tt, parameters)
          else Err (mkSqlError SqlTypeError
                 ("parameter ?" +:+ pretty (index + 1) +:+ " is constrained as both "
                  +:+ DataType_to_string existing +:+ " and " +:+ DataType_to_string new) span)
      | None, Some new => Ok (tt, update_parameter index (set_data_type new) parameters)
      | _, None => Ok (tt, parameters)
      end
  | None => Ok (tt, parameters ++ [mkParameterSpec index data_type true])
  end.

(** The arms of [bind_expr]; then the expected type is enforced. *)
Fixpoint bind_expr (scope : Scope) (expr : SqlExpr) (expected : option DataType) (policy : AggregatePolicy)
    : binder BoundExpr :=
  bound ←
    match expr with
    | XLiteral value span => mret (BLiteral value span)
    | XParameter index span =>
        _ ← record_parameter index expected span;
        mret (BParameter index expected span)
    | XColumn qualifier name span =>
        column ← b_lift (ScopeOps.resolve_column scope qualifier name);
        mret (BColumn column span)
    | XUnary op inner span =>
        let required := match op with SqlNot => Bool | SqlNegate => Int64 end in
        inner ← bind_expr scope inner (Some required) policy;
        mret (BUnary op inner span)
    | XBinary left_ op right_ span =>
        if is_comparison op then
          left_ ← bind_expr scope left_ None policy;
          right_ ← bind_expr scope right_ (st_data_type (sql_type left_)) policy;
          '(left_, right_) ← unify_comparison_types left_ right_ span;
          mret (BBinary left_ op right_ span)
        else
          left_ ← bind_expr scope left_ (Some Bool) policy;
          right_ ← bind_expr scope right_ (Some Bool) policy;
          mret (BBinary left_ op right_ span)
    | XIsNull inner negated span =>
        inner ← bind_expr scope inner None policy;
        mret (BIsNull inner negated span)
    | XAggregateStar function span =>
        match policy with
        | Forbidden =>
            b_lift (Err (mkSqlError SqlTypeError "aggregate functions are not allowed in this clause" span))
        | Allowed => mret (BAggregateStar function span)
        end
    | XAggregate function argument span =>
        match policy with
        | Forbidden =>
            b_lift (Err (mkSqlError SqlTypeError "aggregate functions are not allowed in this clause" span))
        | Allowed =>
            if contains_aggregate argument then
              b_lift (Err (mkSqlError SqlTypeError "nested aggregate functions are not supported" (x_span argument)))
            else
              let required := match function with AggSum => Some Int64 | _ => None end in
              argument ← bind_expr scope argument required Forbidden;
              mret (BAggregate function argument span)
        end
    end;
  enforce_expected bound expected.

Definition bind_predicate (scope : Scope) (context : string) (expr : SqlExpr) : binder BoundExpr :=
  bound ← bind_expr scope expr (Some Bool) Forbidden;
  if bool_decide (st_data_type (sql_type bound) = Some Bool) then mret bound
  else b_lift (Err (mkSqlError SqlTypeError (context +:+ " requires a BOOL expression") (x_span expr))).

Definition bind_order_expression (scope : Scope) (output : list NamedExpr) (expression : SqlExpr)
    : binder BoundExpr :=
  let bind := bind_expr scope expression None Allowed in
  match expression with
  | XColumn None name _ =>
      match List.filter (λ candidate, ident_matches name (ne_name candidate)) output with
      | [alias] => mret (b_set_span (ne_expr alias) (id_span name))
      | [] => bind
      | _ => b_lift (Err (bind_error ("ORDER BY name `" +:+ Ident_to_string name +:+ "` is ambiguous") (id_span name)))
      end
  | _ => bind
  end.

(** ** Statements *)

Section Statements.
Variable catalog : SqlCatalog.

Definition require_table (name : Ident) : sqlresult TableDef :=
  ok_or (resolve_table catalog name)
    (bind_error ("table `" +:+ Ident_to_string name +:+ "` does not exist") (id_span name)).

Definition require_column (table : TableDef) (column : Ident) : sqlresult Z :=
  ok_or (find_column table column)
    (bind_error ("column `" +:+ Ident_to_string column +:+ "` does not exist in table `" +:+ td_name table +:+ "`")
       (id_span column)).

Definition bind_table_source (source : TableSource) (slot_offset : Z) : sqlresult BoundTable :=
  table ← require_table (ts_name source);
  let alias := match ts_alias source with None => td_name table | Some alias => id_value alias end in
  Ok (mkBoundTable table alias slot_offset).

Definition object_exists (name : Ident) : bool :=
  bool_decide (is_Some (resolve_table catalog name)) || bool_decide (is_Some (resolve_index catalog name)).

Definition already_exists (name : Ident) : SqlError :=
  bind_error ("catalog object `" +:+ Ident_to_string name +:+ "` already exists") (id_span name).

Definition bind_create_table (name : Ident) (columns : list ColumnDef) (span : Span) : sqlresult BoundStatement :=
  _ ← ensure (negb (object_exists name)) (already_exists name);
  let schema := mkSchema ((λ c, mkColumn (id_value (cd_name c)) (cd_data_type c) (cd_nullable c) (cd_primary_key c))
                          <$> columns) in
  _ ← map_err (λ e, mkSqlError ConstraintError (CoreError_to_string e) span) (SchemaOps.validate schema);
  Ok (BsCreateTable (id_value name) schema).

Definition bind_create_index (name table column : Ident) : sqlresult BoundStatement :=
  _ ← ensure (negb (object_exists name)) (already_exists name);
  table ← require_table table;
  column_index ← require_column table column;
  Ok (BsCreateIndex (id_value name) table column_index).

(** The target columns of an INSERT, without repetition. *)
Fixpoint insert_targets (table : TableDef) (seen : gset Z) (columns : list Ident) : sqlresult (list Z) :=
  match columns with
  | [] => Ok []
  | column :: columns =>
      index ← require_column table column;
      _ ← ensure (negb (bool_decide (index ∈ seen)))
            (bind_error ("column `" +:+ Ident_to_string column +:+ "` appears more than once in INSERT")
               (id_span column));
      targets ← insert_targets table ({[index]} ∪ seen) columns;
      Ok (index :: targets)
  end.

(** A value bound for a column. *)
Definition bind_value (table : TableDef) (scope : Scope) (target : Z) (value : SqlExpr) : binder BoundExpr :=
  let column := column_at table target in
  bound ← bind_expr scope value (Some (c_data_type column)) Forbidden;
  _ ← b_lift (reject_null_for_non_nullable bound column (x_span value));
  _ ← (if nullable column then mret tt else require_direct_parameter_value bound);
  mret bound.

(** The loop over the targets and values, on [normalized]. *)
Fixpoint bind_values (table : TableDef) (normalized : list (option BoundExpr)) (l : list (Z * SqlExpr))
    : binder (list (option BoundExpr)) :=
  match l with
  | [] => mret normalized
  | (target, value) :: l =>
      bound ← bind_value table ScopeOps.empty target value;
      bind_values table (<[Z.to_nat target := Some bound]> normalized) l
  end.

(** Omitted columns are NULL where they may be. *)
Definition fill_value (table : TableDef) (span : Span) (p : Z * option BoundExpr) : sqlresult BoundExpr :=
  match p.2 with
  | Some value => Ok value
  | None =>
      let column := column_at table p.1 in
      _ ← ensure (nullable column)
            (mkSqlError ConstraintError ("INSERT omits required column `" +:+ c_name column +:+ "`") span);
      Ok (BLiteral VNull span)
  end.

Definition bind_insert (name : Ident) (columns_ : option (list Ident)) (vals : list SqlExpr)
    : binder BoundStatement :=
  table ← b_lift (require_table name);
  let n := length (columns (td_schema table)) in
  targets ← b_lift (match columns_ with
                    | Some columns_ => insert_targets table ∅ columns_
                    | None => Ok (Z.of_nat <$> seq 0 n)
                    end);
  _ ← b_lift (ensure (zlen targets =? zlen vals)
         (mkSqlError ConstraintError
            ("INSERT names " +:+ pretty (zlen targets) +:+ " target columns but supplies "
             +:+ pretty (zlen vals) +:+ " values") (id_span name)));
  normalized ← bind_values table (replicate n None) (zip targets vals);
  values ← b_lift (mapM_result (fill_value table (id_span name)) (enumerate normalized));
  mret (BsInsert table values).

Fixpoint bind_assignments (table : TableDef) (scope : Scope) (seen : gset Z) (l : list (Ident * SqlExpr))
    : binder (list (Z * BoundExpr)) :=
  match l with
  | [] => mret []
  | (column, value) :: l =>
      column_index ← b_lift (require_column table column);
      _ ← b_lift (ensure (negb (bool_decide (column_index ∈ seen)))
             (bind_error ("column `" +:+ Ident_to_string column +:+ "` is assigned more than once") (id_span column)));
      value ← bind_value table scope column_index value;
      rest ← bind_assignments table scope ({[column_index]} ∪ seen) l;
      mret ((column_index, value) :: rest)
  end.

Definition bind_update (name : Ident) (assignments : list (Ident * SqlExpr)) (selection : option SqlExpr)
    : binder BoundStatement :=
  table ← b_lift (require_table name);
  let scope := ScopeOps.single table (td_name table) 0 in
  assignments ← bind_assignments table scope ∅ assignments;
  selection ← b_option (bind_predicate scope "UPDATE WHERE") selection;
  mret (BsUpdate table assignments selection).

Definition bind_delete (name : Ident) (selection : option SqlExpr) : binder BoundStatement :=
  table ← b_lift (require_table name);
  let scope := ScopeOps.single table (td_name table) 0 in
  selection ← b_option (bind_predicate scope "DELETE WHERE") selection;
  mret (BsDelete table selection).

(** The loop over the joins, on the scope and the plan. *)
Fixpoint bind_joins (scope : Scope) (plan : LogicalPlan) (joins : list Join) : binder (Scope * LogicalPlan) :=
  match joins with
  | [] => mret (scope, plan)
  | join :: joins =>
      right_ ← b_lift (bind_table_source (j_right join) (ScopeOps.total_columns scope));
      scope ← b_lift (ScopeOps.push scope right_ (ts_span (j_right join)));
      on ← bind_predicate scope "JOIN ON" (j_on join);
      bind_joins scope (LJoin plan (LScan right_) on) joins
  end.

(** [*]: every column of every table in scope. *)
Definition wildcard (scope : Scope) (span : Span) : list NamedExpr :=
  sc_tables scope ≫= λ table,
    (λ p, mkNamedExpr (BColumn (ScopeOps.bound_column table p.1 p.2) span) (c_name p.2))
    <$> enumerate (columns (td_schema (bt_table table))).

Definition bind_item (scope : Scope) (p : Z * SelectItem) : binder (list NamedExpr) :=
  match p.2 with
  | Wildcard span => mret (wildcard scope span)
  | SelectExpr expr alias =>
      bound ← bind_expr scope expr None Allowed;
      mret [mkNamedExpr bound (match alias with None => expression_name bound p.1 | Some alias => id_value alias end)]
  end.

Definition bind_order (scope : Scope) (output : list NamedExpr) (p : SqlExpr * OrderDirection) : binder BoundOrder :=
  expr ← bind_order_expression scope output p.1;
  mret (mkBoundOrder expr p.2).

(** The two checks of an aggregate query. *)
Fixpoint check_projection (group_by : list BoundExpr) (output : list NamedExpr) : sqlresult unit :=
  match output with
  | [] => Ok tt
  | named :: output =>
      _ ← ensure (group_compatible (ne_expr named) group_by)
            (mkSqlError SqlTypeError
               ("projection `" +:+ ne_name named +:+ "` references a non-grouped column outside an aggregate")
               (b_span (ne_expr named)));
      check_projection group_by output
  end.

Fixpoint check_order (group_by : list BoundExpr) (order_by : list BoundOrder) : sqlresult unit :=
  match order_by with
  | [] => Ok tt
  | order :: order_by =>
      _ ← ensure (group_compatible (bo_expr order) group_by)
            (mkSqlError SqlTypeError "ORDER BY references a non-grouped column outside an aggregate"
               (b_span (bo_expr order)));
      check_order group_by order_by
  end.

Definition aggregate_plan (plan : LogicalPlan) (group_by : list BoundExpr) (output : list NamedExpr)
    (order_by : list BoundOrder) : sqlresult LogicalPlan :=
  let aggregates := deduplicate_expressions
    ((output ≫= λ named, collect_aggregates (ne_expr named))
     ++ (order_by ≫= λ order, collect_aggregates (bo_expr order))) in
  if negb (is_empty aggregates) || negb (is_empty group_by) then
    _ ← check_projection group_by output;
    _ ← check_order group_by order_by;
    Ok (LAggregate plan group_by aggregates)
  else Ok plan.

Definition valid_limit (limit : BoundExpr) : bool :=
  match limit with
  | BLiteral (VInt64 value) _ => 0 <=? value
  | BParameter _ _ _ => true
  | _ => false
  end.

Definition bind_limit (plan : LogicalPlan) (limit : option SqlExpr) : binder LogicalPlan :=
  match limit with
  | None => mret plan
  | Some limit =>
      limit ← bind_expr ScopeOps.empty limit (Some Int64) Forbidden;
      _ ← b_lift (ensure (valid_limit limit)
             (mkSqlError ConstraintError "LIMIT must be a non-negative INT64 literal or parameter" (b_span limit)));
      _ ← require_direct_parameter_value limit;
      mret (LLimit plan limit)
  end.

Definition bind_select (select : Select) : binder BoundStatement :=
  first ← b_lift (bind_table_source (sel_from select) 0);
  scope ← b_lift (ScopeOps.push ScopeOps.empty first (ts_span (sel_from select)));
  '(scope, plan) ← bind_joins scope (LScan first) (sel_joins select);
  predicate ← b_option (bind_predicate scope "SELECT WHERE") (sel_selection select);
  let plan := match predicate with Some predicate => LFilter plan predicate | None => plan end in
  group_by ← b_map (λ e, bind_expr scope e None Forbidden) (sel_group_by select);
  items ← b_map (bind_item scope) (enumerate (sel_projection select));
  let output := concat items in
  order_by ← b_map (bind_order scope output) (sel_order_by select);
  plan ← b_lift (aggregate_plan plan group_by output order_by);
  let plan := if is_empty order_by then plan else LSort plan order_by in
  plan ← bind_limit plan (sel_limit select);
  mret (BsQuery (LProject plan output) output).

Definition is_transaction (s : BoundStatement) : bool :=
  match s with BsTransaction _ => true | _ => false end.

Fixpoint bind_statement (statement : SqlStatement) (span : Span) : binder BoundStatement :=
  match statement with
  | StCreateTable name columns => b_lift (bind_create_table name columns span)
  | StCreateIndex name table column => b_lift (bind_create_index name table column)
  | StInsert table columns values => bind_insert table columns values
  | StUpdate table assignments selection => bind_update table assignments selection
  | StDelete table selection => bind_delete table selection
  | StSelect select => bind_select select
  | StBegin => mret (BsTransaction TsBegin)
  | StCommit => mret (BsTransaction TsCommit)
  | StRollback => mret (BsTransaction TsRollback)
  | StExplain inner inner_span =>
      bound ← bind_statement inner inner_span;
      if is_transaction bound
      then b_lift (Err (unsupported "EXPLAIN does not accept transaction-control statements" inner_span))
      else mret (BsExplain bound)
  end.

Definition bind (statement : SqlStatement * Span) : sqlresult BindOutput :=
  '(bound, parameters) ← bind_statement statement.1 statement.2 [];
  Ok (mkBindOutput bound (sort_by (λ a b, cmp (ps_index a) (ps_index b)) parameters)).
End Statements.
