(* ===== verification/SqlTyping.v ===== *)
(** * Types of bound expressions

    What the binder guarantees about an expression ([typed]) and about its
    parameters ([recorded]), and that evaluation on a row of the scope with
    validated parameters then yields a value of the inferred type. *)

From Stdlib Require Import Ascii String.
From S2P Require Import Prelude CoreTypes SqlAst SqlCatalog SqlPlan SqlEval SqlBinder.

(** ** Tables in scope

    The rows of a scope are the columns of its tables one after the other. *)

Definition table_columns (t : BoundTable) : list Column := columns (td_schema (bt_table t)).

(** A column reference names a column of one of the tables and its slot. *)
Definition located (tables : list BoundTable) (c : BoundColumn) : Prop :=
  ∃ t, t ∈ tables ∧ bc_table_id c = td_id (bt_table t)
    ∧ bc_input_slot c = bt_slot_offset t + bc_column_index c
    ∧ znth (table_columns t) (bc_column_index c) = Some (bc_column c).

Fixpoint offsets_from (n : Z) (l : list BoundTable) : Prop :=
  match l with
  | [] => True
  | t :: l => bt_slot_offset t = n ∧ offsets_from (n + zlen (table_columns t)) l
  end.

Lemma column_slot n l t i col :
  offsets_from n l → t ∈ l → znth (table_columns t) i = Some col →
  znth (l ≫= table_columns) (bt_slot_offset t + i - n) = Some col.
Proof.
  intros Ho Hin Hf. revert n Ho.
  induction l as [|t' l IH]; intros n Ho; [by apply elem_of_nil in Hin|]. destruct Ho as [Hn Ho].
  change ((t' :: l) ≫= table_columns) with (table_columns t' ++ (l ≫= table_columns)).
  apply elem_of_cons in Hin as [->|Hin].
  - rewrite Hn. replace (n + i - n) with i by lia. rewrite znth_app_l; [done|]. apply znth_lt in Hf. lia.
  - specialize (IH Hin _ Ho). pose proof (znth_lt _ _ _ IH). rewrite znth_app_r by lia.
    rewrite <- IH. f_equal. lia.
Qed.

Lemma located_slot tables c :
  offsets_from 0 tables → located tables c → znth (tables ≫= table_columns) (bc_input_slot c) = Some (bc_column c).
Proof.
  intros Ho (t & Hin & _ & -> & Hc). rewrite <- (Z.sub_0_r (_ + _)). by eapply column_slot.
Qed.

Lemma enumerate_find {A} (p : Z * A → bool) l i x : List.find p (enumerate l) = Some (i, x) → znth l i = Some x.
Proof.
  intros [Hin _]%find_some. apply list_elem_of_In, list_elem_of_lookup in Hin as [k Hk].
  unfold enumerate in Hk. rewrite list_lookup_imap in Hk. destruct (l !! k) as [y|] eqn:Hy; [|done].
  injection Hk as <- <-. apply znth_Some. split; [lia|]. by rewrite Nat2Z.id.
Qed.

Lemma resolve_located s q name c : ScopeOps.resolve_column s q name = Ok c → located (sc_tables s) c.
Proof.
  unfold ScopeOps.resolve_column. destruct (omap _ _) as [|c' [|]] eqn:Ho; [done| |done]. intros [= ->].
  assert (c ∈ omap (ScopeOps.candidate name) (List.filter (ScopeOps.qualifies q) (sc_tables s))) as Hin
    by (rewrite Ho; left).
  apply list_elem_of_omap in Hin as (t & Ht & Hc). apply list_elem_of_In, filter_In in Ht as [Ht _].
  apply list_elem_of_In in Ht. unfold ScopeOps.candidate in Hc. apply bind_Some in Hc as ([i col] & Hf & [= <-]).
  apply enumerate_find in Hf. exists t. by cbn.
Qed.

(** ** Rows, values and typed expressions *)

Definition row_fits (cols : list Column) (row : Row) : Prop := Forall2 fits cols (values row).

(** [v] is a value of the type [t]; an unknown type says nothing but that. *)
Definition value_in (v : Value) (t : SqlType) : Prop :=
  match data_type v with
  | None => st_nullable t = true
  | Some d => st_data_type t = None ∨ st_data_type t = Some d
  end.

Fixpoint has_aggregate (e : BoundExpr) : bool :=
  match e with
  | BAggregateStar _ _ | BAggregate _ _ _ => true
  | BUnary _ e _ | BIsNull e _ _ => has_aggregate e
  | BBinary l _ r _ => has_aggregate l || has_aggregate r
  | _ => false
  end.

(** The expressions whose type stays unknown although a type was asked for:
    NULL, and MIN or MAX over something of unknown type. *)
Definition untyped_aggregate (e : BoundExpr) : bool :=
  match e with
  | BAggregateStar _ _ | BAggregate _ _ _ => negb (bool_decide (is_Some (st_data_type (sql_type e))))
  | _ => false
  end.

Definition loose (e : BoundExpr) : bool := is_null_literal e || untyped_aggregate e.

Definition has (t : DataType) (e : BoundExpr) : Prop :=
  st_data_type (sql_type e) = Some t ∨ loose e = true.

Definition comparable (l r : BoundExpr) : Prop :=
  (∃ t, st_data_type (sql_type l) = Some t ∧ st_data_type (sql_type r) = Some t)
  ∨ loose l = true ∨ loose r = true.

Fixpoint typed (tables : list BoundTable) (e : BoundExpr) : Prop :=
  match e with
  | BLiteral _ _ | BParameter _ _ _ | BAggregateStar _ _ => True
  | BColumn c _ => located tables c
  | BUnary op e _ => typed tables e ∧ has (match op with SqlNot => Bool | SqlNegate => Int64 end) e
  | BBinary l op r _ =>
      typed tables l ∧ typed tables r ∧ if is_comparison op then comparable l r else has Bool l ∧ has Bool r
  | BIsNull e _ _ => typed tables e
  | BAggregate _ a _ => typed tables a ∧ has_aggregate a = false
  end.

(** The parameters of an expression, with the types it gives them. *)
Fixpoint bparams (e : BoundExpr) : list (Z * option DataType) :=
  match e with
  | BParameter i t _ => [(i, t)]
  | BUnary _ e _ | BIsNull e _ _ | BAggregate _ e _ => bparams e
  | BBinary l _ r _ => bparams l ++ bparams r
  | _ => []
  end.

Definition param_ok (vals : list Value) (p : Z * option DataType) : Prop :=
  ∃ v, znth vals p.1 = Some v ∧ (p.2 = None ∨ data_type v = None ∨ data_type v = p.2).

(** ** Evaluation *)

(** The only error evaluation may end with. *)
Definition overflow_error (e : SqlError) : Prop :=
  se_kind e = ConstraintError ∧ se_message e = "INT64 negation overflow"%string.

Definition evaluates (r : sqlresult Value) (t : SqlType) : Prop :=
  match r with Ok v => value_in v t | Err e => overflow_error e end.

Lemma loose_scalar e : has_aggregate e = false → loose e = true → is_null_literal e = true.
Proof. unfold loose. destruct e; cbn; intros; rewrite ?orb_false_r in *; done. Qed.

Lemma null_literal_eval e ctx : is_null_literal e = true → Eval.evaluate e ctx = Ok VNull.
Proof. destruct e as [v| | | | | | |]; try done. by destruct v. Qed.

Lemma evaluates_bind r t f t' :
  evaluates r t → (∀ v, value_in v t → evaluates (f v) t') → evaluates (r ≫= f) t'.
Proof. destruct r; cbn; auto. Qed.

(** A value where a type is required: NULL or of that type. *)
Definition of_type (t : DataType) (v : Value) : Prop := data_type v = None ∨ data_type v = Some t.

Lemma has_value t e ctx v :
  has_aggregate e = false → has t e → Eval.evaluate e ctx = Ok v → value_in v (sql_type e) → of_type t v.
Proof.
  intros Ha [Ht|Hl] Hv Hin.
  - unfold value_in in Hin. rewrite Ht in Hin. unfold of_type. destruct (data_type v); naive_solver.
  - left. rewrite (null_literal_eval _ _ (loose_scalar _ Ha Hl)) in Hv. by injection Hv as <-.
Qed.

(** Evaluating an operand of a required type. *)
Lemma evaluates_operand t e ctx f t' :
  has_aggregate e = false → has t e → evaluates (Eval.evaluate e ctx) (sql_type e) →
  (∀ v, value_in v (sql_type e) → of_type t v → evaluates (f v) t') → evaluates (Eval.evaluate e ctx ≫= f) t'.
Proof.
  intros Ha Ht He Hf. destruct (Eval.evaluate e ctx) as [v|] eqn:Hv; cbn in *; [|done].
  apply Hf; [done|]. by eapply has_value.
Qed.

Lemma truth_bool v span : of_type Bool v →
  ∃ t, Eval.truth v span = Ok t ∧ (t = TvUnknown ↔ v = VNull).
Proof. destruct v as [|z|[]|s|b]; intros [|]; try done; eexists; split; try reflexivity; done. Qed.

Lemma value_in_null v t : value_in v t → v = VNull → st_nullable t = true.
Proof. by intros H ->. Qed.

Lemma checked_cmp_same t v w : of_type t v → of_type t w → ∃ o, checked_cmp v w = Ok o ∧ (o = None → v = VNull ∨ w = VNull).
Proof.
  intros [Hv|Hv] [Hw|Hw]; destruct v, w; try done; cbn in *; simplify_eq; eexists; (split; [reflexivity|]); auto; done.
Qed.

Lemma checked_cmp_null v w : v = VNull ∨ w = VNull → checked_cmp v w = Ok None.
Proof. intros [-> | ->]; [done|]. by destruct v. Qed.

Lemma compare_evaluates l r op ctx span n :
  has_aggregate l = false → has_aggregate r = false → comparable l r →
  n = st_nullable (sql_type l) || st_nullable (sql_type r) →
  evaluates (Eval.evaluate l ctx) (sql_type l) → evaluates (Eval.evaluate r ctx) (sql_type r) →
  evaluates (v ← Eval.evaluate l ctx; w ← Eval.evaluate r ctx; Eval.compare v op w span) (known Bool n).
Proof.
  intros Hal Har Hc -> Hl Hr. destruct (Eval.evaluate l ctx) as [v|] eqn:Hv; [|done].
  destruct (Eval.evaluate r ctx) as [w|] eqn:Hw; [|done]. cbn [mbind result_bind]. unfold Eval.compare.
  assert (∃ o, checked_cmp v w = Ok o ∧ (o = None → v = VNull ∨ w = VNull)) as (o & -> & Ho).
  { destruct Hc as [(t & Htl & Htr)|[Hll|Hlr]].
    - apply (checked_cmp_same t); [eapply (has_value t l)|eapply (has_value t r)]; eauto; by left.
    - rewrite (null_literal_eval _ _ (loose_scalar _ Hal Hll)) in Hv. injection Hv as <-. exists None. auto.
    - rewrite (null_literal_eval _ _ (loose_scalar _ Har Hlr)) in Hw. injection Hw as <-. exists None.
      rewrite checked_cmp_null; auto. }
  cbn. destruct o as [o|]; cbn; [by right|]. unfold value_in. cbn. apply orb_true_iff.
  destruct (Ho eq_refl); [left|right]; by eapply value_in_null.
Qed.

Lemma and_unknown a b : Tv.and a b = TvUnknown → a = TvUnknown ∨ b = TvUnknown.
Proof. destruct a, b; auto. Qed.
Lemma or_unknown a b : Tv.or a b = TvUnknown → a = TvUnknown ∨ b = TvUnknown.
Proof. destruct a, b; auto. Qed.

(** AND and OR, with the value that ends them early. *)
Lemma connective_evaluates l r ctx span n stop early (op : TruthValue → TruthValue → TruthValue) :
  has_aggregate l = false → has_aggregate r = false → has Bool l → has Bool r →
  (∀ a b, op a b = TvUnknown → a = TvUnknown ∨ b = TvUnknown) →
  n = st_nullable (sql_type l) || st_nullable (sql_type r) →
  evaluates (Eval.evaluate l ctx) (sql_type l) → evaluates (Eval.evaluate r ctx) (sql_type r) →
  evaluates (v ← Eval.evaluate l ctx; a ← Eval.truth v span;
             if bool_decide (a = stop) then Ok (VBool early) else
             w ← Eval.evaluate r ctx; b ← Eval.truth w span; Ok (Tv.into_value (op a b))) (known Bool n).
Proof.
  intros Hal Har Hhl Hhr Hop -> Hl Hr. eapply evaluates_operand; [done|exact Hhl|done|]. intros v Hin Hof.
  destruct (truth_bool v span Hof) as (a & -> & Ha). cbn [mbind result_bind]. case_bool_decide; [by right|].
  eapply evaluates_operand; [done|exact Hhr|done|]. intros w Hin' Hof'.
  destruct (truth_bool w span Hof') as (b & -> & Hb). cbn [mbind result_bind evaluates].
  destruct (op a b) eqn:Ho; cbn; [by right..|]. apply orb_true_iff.
  destruct (Hop _ _ Ho); [left; eapply value_in_null; [done|]; tauto|right; eapply value_in_null; [done|]; tauto].
Qed.

(** Type soundness of evaluation. *)
Lemma evaluate_typed tables vals row e :
  offsets_from 0 tables → row_fits (tables ≫= table_columns) row → typed tables e → has_aggregate e = false → Forall (param_ok vals) (bparams e) →
  evaluates (Eval.evaluate e (Eval.mkEvaluationContext row vals)) (sql_type e).
Proof.
  intros Ho Hrow. set (ctx := Eval.mkEvaluationContext row vals).
  induction e as [v s|i t s|c s|op e IH s|l IHl op r IHr s|e IH n s|f s|f a IH s]; cbn [typed has_aggregate bparams];
    intros Ht Ha Hp; try done.
  - cbn. unfold value_in. destruct v; cbn; auto.
  - apply Forall_cons in Hp as [(v & Hv & Hty) _]. cbn in *. rewrite Hv. cbn.
    unfold Eval.ensure_runtime_type. destruct t as [t|], (data_type v) as [d|] eqn:Hd; cbn; try (unfold value_in; rewrite Hd; by auto).
    rewrite bool_decide_eq_true_2 by naive_solver. cbn. unfold value_in. rewrite Hd. cbn. naive_solver.
  - cbn. apply (located_slot _ _ Ho), znth_Some in Ht as [H0 Hc]. destruct (Forall2_lookup_l _ _ _ _ _ Hrow Hc) as (v & Hv & Hf).
    assert (znth (values row) (bc_input_slot c) = Some v) as -> by (by apply znth_Some). cbn.
    unfold fits in Hf. unfold Eval.ensure_runtime_type, known.
    destruct (data_type v) as [d|] eqn:Hd; cbn;
      [rewrite bool_decide_eq_true_2 by done; cbn; unfold value_in; rewrite Hd; subst; by right|].
    unfold value_in. by rewrite Hd.
  - destruct Ht as [Ht Hh]. specialize (IH Ht Ha Hp). cbn [Eval.evaluate].
    eapply evaluates_operand; [done|exact Hh|done|]. intros v Hin Hof. destruct op; cbn.
    + destruct (truth_bool v s Hof) as (t & -> & Hu). cbn. destruct t; cbn; auto.
      unfold value_in. cbn. apply (value_in_null _ _ Hin). by apply Hu.
    + destruct v; destruct Hof; try done. unfold Eval.negate, i64_checked.
      destruct ((i64_min <=? - value) && (- value <=? i64_max)); cbn; [by right|done].
  - destruct Ht as (Htl & Htr & Hop). apply orb_false_iff in Ha as [Hal Har]. apply Forall_app in Hp as [Hpl Hpr].
    specialize (IHl Htl Hal Hpl). specialize (IHr Htr Har Hpr). cbn [Eval.evaluate sql_type].
    destruct op; cbn [is_comparison] in Hop; try destruct Hop as [Hhl Hhr].
    1: apply (connective_evaluates _ _ _ _ _ TvTrue true Tv.or); auto using or_unknown.
    1: apply (connective_evaluates _ _ _ _ _ TvFalse false Tv.and); auto using and_unknown.
    all: by apply compare_evaluates.
  - specialize (IH Ht Ha Hp). cbn. eapply evaluates_bind; [done|]. intros v _. cbn. by right.
Qed.

(** ** What the binder records about parameters *)

Fixpoint xparams (x : SqlExpr) : list Z :=
  match x with
  | XParameter i _ => [i]
  | XUnary _ x _ | XIsNull x _ _ | XAggregate _ x _ => xparams x
  | XBinary l _ r _ => xparams l ++ xparams r
  | _ => []
  end.

Definition spec_of (ps : list ParameterSpec) (i : Z) : option ParameterSpec :=
  List.find (λ p, ps_index p =? i) ps.

Definition recorded (ps : list ParameterSpec) (p : Z * option DataType) : Prop :=
  ∃ s, spec_of ps p.1 = Some s ∧ (p.2 = None ∨ ps_data_type s = p.2).

(** The specifications of the parameters outside [l] are left alone. *)
Definition frame (l : list Z) (ps ps' : list ParameterSpec) : Prop :=
  ∀ i, i ∉ l → spec_of ps' i = spec_of ps i.

Lemma frame_refl l ps : frame l ps ps.
Proof. done. Qed.

Lemma frame_trans l ps ps1 ps2 : frame l ps ps1 → frame l ps1 ps2 → frame l ps ps2.
Proof. intros H1 H2 i Hi. by rewrite H2, H1. Qed.

Lemma frame_mono l k ps ps' : (∀ i, i ∈ l → i ∈ k) → frame l ps ps' → frame k ps ps'.
Proof. intros Hl H i Hi. apply H. auto. Qed.

Lemma recorded_frame l ps ps' (ts : list (Z * option DataType)) :
  frame l ps ps' → (∀ i, i ∈ ts.*1 → i ∉ l) → Forall (recorded ps) ts → Forall (recorded ps') ts.
Proof.
  intros Hf Hd. rewrite !Forall_forall. intros H p Hp. destruct (H p Hp) as (s & Hs & ?). exists s. split; [|done].
  rewrite <- Hs. apply Hf, Hd. by apply list_elem_of_fmap_2.
Qed.

Lemma spec_of_update i f ps j : (∀ p, ps_index (f p) = ps_index p) →
  spec_of (update_parameter i f ps) j = (if j =? i then f <$> spec_of ps j else spec_of ps j).
Proof.
  intros Hf. induction ps as [|p ps IH]; cbn; [by destruct (j =? i)|]. unfold spec_of in *.
  destruct (Z.eqb_spec (ps_index p) i) as [Hi|Hi]; cbn [List.find]; rewrite ?Hf.
  - subst i. destruct (Z.eqb_spec (ps_index p) j) as [Hj|Hj].
    + subst j. by rewrite Z.eqb_refl.
    + rewrite (proj2 (Z.eqb_neq j _)) by congruence. done.
  - destruct (Z.eqb_spec (ps_index p) j) as [Hj|Hj]; [|done]. subst j. by rewrite (proj2 (Z.eqb_neq _ _) Hi).
Qed.

Lemma update_frame i f ps l : (∀ p, ps_index (f p) = ps_index p) → i ∈ l → frame l ps (update_parameter i f ps).
Proof.
  intros Hf Hi j Hj. rewrite spec_of_update by done. destruct (Z.eqb_spec j i) as [->|]; [by destruct Hj|done].
Qed.

Lemma recorded_required i ps p : recorded ps p → recorded (update_parameter i set_required ps) p.
Proof.
  intros (s & Hs & Ht). unfold recorded. rewrite spec_of_update by done. rewrite Hs.
  destruct (p.1 =? i); eexists; (split; [reflexivity|]); done.
Qed.

Lemma record_parameter_spec i t span ps u ps' :
  record_parameter i t span ps = Ok (u, ps') → frame [i] ps ps' ∧ recorded ps' (i, t).
Proof.
  unfold record_parameter. destruct (List.find _ ps) as [p|] eqn:Hp; fold (spec_of ps i) in Hp.
  - destruct (ps_data_type p) as [d|] eqn:Hd, t as [t|].
    + case_bool_decide; [|done]. intros [= <- <-]. split; [apply frame_refl|]. exists p. split; [done|]. right. cbn. congruence.
    + intros [= <- <-]. split; [apply frame_refl|]. exists p. split; [done|]. by left.
    + intros [= <- <-]. split; [apply update_frame; [done|left]|]. unfold recorded. rewrite spec_of_update by done.
      cbn. rewrite Z.eqb_refl, Hp. eexists. split; [reflexivity|]. by right.
    + intros [= <- <-]. split; [apply frame_refl|]. exists p. split; [done|]. by left.
  - intros [= <- <-]. split.
    + intros j Hj. unfold spec_of. rewrite find_app. cbn.
      rewrite (proj2 (Z.eqb_neq i j)) by (intros ->; apply Hj; left). by destruct (List.find _ ps).
    + exists (mkParameterSpec i t true). split; [|by right]. unfold spec_of. cbn. rewrite find_app. unfold spec_of in Hp. rewrite Hp. cbn.
      by rewrite Z.eqb_refl.
Qed.

(** ** The binder on expressions *)

Lemma binder_bind_Ok {A B} (m : binder A) (f : A → binder B) ps r :
  (m ≫= f) ps = Ok r ↔ ∃ a ps1, m ps = Ok (a, ps1) ∧ f a ps1 = Ok r.
Proof.
  unfold mbind, binder_bind. destruct (m ps) as [[a ps1]|e]; [|naive_solver]. split; [eauto|]. by intros (? & ? & [= <- <-] & ?).
Qed.

Lemma b_lift_Ok {A} (r : sqlresult A) ps a ps' : b_lift r ps = Ok (a, ps') ↔ r = Ok a ∧ ps' = ps.
Proof. unfold b_lift. destruct r; naive_solver. Qed.

Lemma binder_ret_Ok {A} (a b : A) ps ps' : mret (M := binder) a ps = Ok (b, ps') ↔ a = b ∧ ps' = ps.
Proof. unfold mret, binder_ret. naive_solver. Qed.

(** Expressions of unknown type. *)
Lemma unknown_forms e : st_data_type (sql_type e) = None → loose e = true ∨ ∃ i s, e = BParameter i None s.
Proof.
  unfold loose. destruct e as [v s|i t s|c s|op e s|l op r s|e n s|f s|f a s]; cbn; intros Ht; try done.
  - left. by destruct v.
  - subst t. eauto.
  - by destruct op.
  - left. destruct f; done.
  - left. destruct f; cbn in *; try done; by rewrite Ht.
Qed.

(** What [constrain_direct_parameter] does to an expression of unknown type. *)
Lemma constrain_spec tables e t ps e' ps' :
  constrain_direct_parameter e t ps = Ok (e', ps') → st_data_type (sql_type e) = None → typed tables e →
  typed tables e' ∧ has t e' ∧ has_aggregate e' = has_aggregate e ∧ (bparams e').*1 = (bparams e).*1
  ∧ frame (bparams e).*1 ps ps' ∧ (Forall (recorded ps) (bparams e) → Forall (recorded ps') (bparams e')).
Proof.
  intros Hc Hu Ht. destruct (unknown_forms e Hu) as [Hl|(i & s & ->)].
  - assert (constrain_direct_parameter e t = mret e) as Heq by (destruct e; done || by destruct Hl).
    rewrite Heq in Hc. apply binder_ret_Ok in Hc as [<- ->]. split_and!; try done. by right.
  - cbn in Hc. injection Hc as <- <-. split_and!; try done; [by left|apply update_frame; [done|left]|].
    cbn. intros [(p & Hp & _) _]%Forall_cons. constructor; [|done]. unfold recorded. rewrite spec_of_update by done. cbn in *.
    rewrite Z.eqb_refl, Hp. eexists. split; [reflexivity|]. by right.
Qed.

Record bind_spec (tables : list BoundTable) (x : SqlExpr) (expected : option DataType) (policy : AggregatePolicy)
    (ps : list ParameterSpec) (e : BoundExpr) (ps' : list ParameterSpec) : Prop := {
  bs_typed : typed tables e;
  bs_expected : ∀ t, expected = Some t → has t e;
  bs_scalar : policy = Forbidden → has_aggregate e = false;
  bs_params : (bparams e).*1 = xparams x;
  bs_frame : frame (xparams x) ps ps';
  bs_recorded : NoDup (xparams x) → Forall (recorded ps') (bparams e)
}.

Lemma enforce_spec tables x expected policy ps e ps1 e' ps' :
  bind_spec tables x None policy ps e ps1 → enforce_expected e expected ps1 = Ok (e', ps') →
  bind_spec tables x expected policy ps e' ps'.
Proof.
  intros [Ht _ Hs Hp Hf Hr] He. unfold enforce_expected in He. destruct expected as [t|].
  - destruct (st_data_type (sql_type e)) as [d|] eqn:Hd.
    + case_bool_decide; [|done]. apply binder_ret_Ok in He as [<- ->]. subst d. split; auto. intros ? [= <-]. by left.
    + destruct (constrain_spec tables e t ps1 e' ps' He Hd Ht) as (H1 & H2 & H3 & H4 & H5 & H6).
      split; [done|by intros ? [= <-]|by rewrite H3|by rewrite H4| |auto].
      eapply frame_trans; [done|]. by rewrite <- Hp.
  - apply binder_ret_Ok in He as [<- ->]. by split.
Qed.

Lemma unify_spec tables l r span ps l' r' ps' :
  unify_comparison_types l r span ps = Ok ((l', r'), ps') → typed tables l → typed tables r →
  typed tables l' ∧ typed tables r' ∧ comparable l' r'
  ∧ has_aggregate l' = has_aggregate l ∧ has_aggregate r' = has_aggregate r
  ∧ (bparams l').*1 = (bparams l).*1 ∧ (bparams r').*1 = (bparams r).*1
  ∧ frame ((bparams l).*1 ++ (bparams r).*1) ps ps'
  ∧ (NoDup ((bparams l).*1 ++ (bparams r).*1) → Forall (recorded ps) (bparams l) → Forall (recorded ps) (bparams r) →
     Forall (recorded ps') (bparams l') ∧ Forall (recorded ps') (bparams r')).
Proof.
  intros Hu Hl Hr. unfold unify_comparison_types in Hu.
  destruct (st_data_type (sql_type l)) as [tl|] eqn:Htl, (st_data_type (sql_type r)) as [tr|] eqn:Htr.
  - case_bool_decide; [|done]. apply binder_ret_Ok in Hu as [[= <- <-] ->]. subst. split_and!; auto using frame_refl.
    left. eauto.
  - apply binder_bind_Ok in Hu as (r1 & ps1 & Hc & [[= <- <-] ->]%binder_ret_Ok).
    destruct (constrain_spec tables r tl ps r1 ps1 Hc Htr Hr) as (H1 & H2 & H3 & H4 & H5 & H6).
    split_and!; auto.
    + destruct H2 as [?|?]; [left; eauto|right; by right].
    + eapply frame_mono; [|done]. intros. apply elem_of_app. by right.
    + intros Hnd Hrl Hrr. split; [|auto]. eapply recorded_frame; [done| |done].
      intros i Hi Hi'. by eapply NoDup_app in Hnd as (_ & Hnd & _); eapply Hnd.
  - apply binder_bind_Ok in Hu as (l1 & ps1 & Hc & [[= <- <-] ->]%binder_ret_Ok).
    destruct (constrain_spec tables l tr ps l1 ps1 Hc Htl Hl) as (H1 & H2 & H3 & H4 & H5 & H6).
    split_and!; auto.
    + destruct H2 as [?|?]; [left; eauto|right; by left].
    + eapply frame_mono; [|done]. intros. apply elem_of_app. by left.
    + intros Hnd Hrl Hrr. split; [auto|]. eapply recorded_frame; [done| |done].
      intros i Hi Hi'. apply NoDup_app in Hnd as (_ & Hnd & _). by eapply Hnd.
  - destruct (negb (is_null_literal l) && negb (is_null_literal r)) eqn:Hn; [done|].
    apply binder_ret_Ok in Hu as [[= <- <-] ->]. split_and!; auto using frame_refl.
    right. apply andb_false_iff in Hn as [Hn|Hn]; apply negb_false_iff in Hn; unfold loose; rewrite Hn; auto.
Qed.

(** The binder infers types, resolves columns to their slots and records the
    parameters. *)
Lemma bind_expr_spec scope x : ∀ expected policy ps e ps',
  bind_expr scope x expected policy ps = Ok (e, ps') → bind_spec (sc_tables scope) x expected policy ps e ps'.
Proof.
  induction x as [v s|i s|q n s|op x IH s|l IHl op r IHr s|x IH n s|f s|f x IH s]; intros expected policy ps e ps';
    cbn [bind_expr]; intros (b & ps1 & Hb & He)%binder_bind_Ok; (eapply enforce_spec; [|exact He]); clear He.
  - apply binder_ret_Ok in Hb as [<- ->]. split; try done; apply frame_refl.
  - apply binder_bind_Ok in Hb as (u & ps2 & Hr & [<- ->]%binder_ret_Ok).
    apply record_parameter_spec in Hr as [Hf Hr]. split; try done. by constructor.
  - apply binder_bind_Ok in Hb as (c & ps2 & [Hc ->]%b_lift_Ok & [<- ->]%binder_ret_Ok).
    split; try done. by eapply resolve_located.
  - apply binder_bind_Ok in Hb as (b' & ps2 & [Ht Hx Hs Hp Hf Hr]%IH & [<- ->]%binder_ret_Ok).
    split; try done. cbn. split; [done|]. apply Hx. by destruct op.
  - destruct (is_comparison op) eqn:Hop.
    + apply binder_bind_Ok in Hb as (l1 & ps2 & [Hlt _ Hls Hlp Hlf Hlr]%IHl & Hb).
      apply binder_bind_Ok in Hb as (r1 & ps3 & [Hrt _ Hrs Hrp Hrf Hrr]%IHr & Hb).
      apply binder_bind_Ok in Hb as ([l2 r2] & ps4 & Hu & [<- ->]%binder_ret_Ok).
      destruct (unify_spec _ _ _ _ _ _ _ _ Hu Hlt Hrt) as (H1 & H2 & H3 & H4 & H5 & H6 & H7 & H8 & H9).
      split; try done.
      * cbn. by rewrite Hop.
      * intros Hf. cbn. by rewrite H4, H5, Hls, Hrs.
      * cbn. by rewrite fmap_app, H6, H7, Hlp, Hrp.
      * cbn. rewrite Hlp, Hrp in H8. eapply frame_trans; [|done].
        eapply frame_trans; (eapply frame_mono; [|done]); intros; apply elem_of_app; auto.
      * cbn. intros Hnd. rewrite <- Hlp, <- Hrp in Hnd. pose proof Hnd as (Hndl & Hd & Hndr)%NoDup_app.
        rewrite Hlp in Hndl. rewrite Hrp in Hndr.
        apply Forall_app. apply H9; [done| |auto]. eapply recorded_frame; [exact Hrf| |auto].
        intros i Hi. rewrite <- Hrp. auto.
    + apply binder_bind_Ok in Hb as (l1 & ps2 & [Hlt Hlx Hls Hlp Hlf Hlr]%IHl & Hb).
      apply binder_bind_Ok in Hb as (r1 & ps3 & [Hrt Hrx Hrs Hrp Hrf Hrr]%IHr & [<- ->]%binder_ret_Ok).
      split; try done.
      * cbn. rewrite Hop. auto.
      * intros Hf. cbn. by rewrite Hls, Hrs.
      * cbn. by rewrite fmap_app, Hlp, Hrp.
      * cbn. eapply frame_trans; (eapply frame_mono; [|done]); intros; apply elem_of_app; auto.
      * cbn. intros (Hndl & Hd & Hndr)%NoDup_app. apply Forall_app. split; [|auto].
        eapply recorded_frame; [exact Hrf| |auto]. rewrite Hlp. auto.
  - apply binder_bind_Ok in Hb as (b' & ps2 & [Ht Hx Hs Hp Hf Hr]%IH & [<- ->]%binder_ret_Ok). by split.
  - destruct policy; [|by apply b_lift_Ok in Hb as [? _]]. apply binder_ret_Ok in Hb as [<- ->].
    split; try done; apply frame_refl.
  - destruct policy; [|by apply b_lift_Ok in Hb as [? _]].
    destruct (contains_aggregate x); [by apply b_lift_Ok in Hb as [? _]|].
    apply binder_bind_Ok in Hb as (b' & ps2 & [Ht Hx Hs Hp Hf Hr]%IH & [<- ->]%binder_ret_Ok).
    split; try done. cbn. auto.
Qed.
