(* ===== verification/SqlBinding.v ===== *)
(** * Type soundness of bound statements

    Every expression of a bound statement, evaluated on a row of the columns it
    is evaluated on and with parameters the validation let through, yields a
    value of its type; predicates yield truth values, and what INSERT and
    UPDATE store has the type of its column. *)

From Stdlib Require Import Ascii String.
From S2P Require Import Prelude CoreTypes SqlAst SqlCatalog SqlPlan SqlEval SqlBinder SqlTyping.

(** ** The expressions of a statement *)

(** An expression, the tables whose rows it is evaluated on, and the type its
    place requires. *)
Record entry : Type := mkEntry {
  en_tables : list BoundTable;
  en_required : option DataType;
  en_expr : BoundExpr
}.

Fixpoint plan_scope (plan : LogicalPlan) : list BoundTable :=
  match plan with
  | LScan table => [table]
  | LJoin l r _ => plan_scope l ++ plan_scope r
  | LFilter input _ | LAggregate input _ _ | LSort input _ | LLimit input _ | LProject input _ => plan_scope input
  end.

Fixpoint plan_exprs (plan : LogicalPlan) : list entry :=
  match plan with
  | LScan _ => []
  | LFilter input predicate => plan_exprs input ++ [mkEntry (plan_scope input) (Some Bool) predicate]
  | LJoin l r on => plan_exprs l ++ plan_exprs r ++ [mkEntry (plan_scope l ++ plan_scope r) (Some Bool) on]
  | LAggregate input group_by aggregates =>
      plan_exprs input ++ (mkEntry (plan_scope input) None <$> group_by ++ aggregates)
  | LSort input order_by => plan_exprs input ++ (mkEntry (plan_scope input) None <$> (bo_expr <$> order_by))
  | LLimit input limit => plan_exprs input ++ [mkEntry [] (Some Int64) limit]
  | LProject input expressions => plan_exprs input ++ (mkEntry (plan_scope input) None <$> (ne_expr <$> expressions))
  end.

Definition option_entries (tables : list BoundTable) (o : option BoundExpr) : list entry :=
  match o with Some e => [mkEntry tables (Some Bool) e] | None => [] end.

(** The scope of UPDATE and DELETE. *)
Definition own_scope (table : TableDef) : list BoundTable := sc_tables (ScopeOps.single table (td_name table) 0).

Fixpoint statement_exprs (s : BoundStatement) : list entry :=
  match s with
  | BsInsert table vals =>
      (λ p, mkEntry [] (Some (c_data_type (column_at table p.1))) p.2) <$> enumerate vals
  | BsUpdate table assignments selection =>
      ((λ a, mkEntry (own_scope table) (Some (c_data_type (column_at table a.1))) a.2) <$> assignments)
      ++ option_entries (own_scope table) selection
  | BsDelete table selection => option_entries (own_scope table) selection
  | BsQuery plan _ => plan_exprs plan
  | BsExplain inner => statement_exprs inner
  | _ => []
  end.

(** The parameters of a statement. *)
Definition option_params (o : option SqlExpr) : list Z := match o with Some x => xparams x | None => [] end.

Definition item_params (i : SelectItem) : list Z :=
  match i with Wildcard _ => [] | SelectExpr x _ => xparams x end.

Definition select_params (s : Select) : list Z :=
  (sel_joins s ≫= λ j, xparams (j_on j)) ++ option_params (sel_selection s) ++ (sel_group_by s ≫= xparams)
  ++ (sel_projection s ≫= item_params) ++ (sel_order_by s ≫= λ o, xparams o.1) ++ option_params (sel_limit s).

Fixpoint statement_params (s : SqlStatement) : list Z :=
  match s with
  | StInsert _ _ vals => vals ≫= xparams
  | StUpdate _ assignments selection => (assignments ≫= λ a, xparams a.2) ++ option_params selection
  | StDelete _ selection => option_params selection
  | StSelect s => select_params s
  | StExplain inner _ => statement_params inner
  | _ => []
  end.

(** The largest parts of an expression without aggregates, and the arguments
    of its aggregates: what evaluation is applied to. *)
Fixpoint scalar_parts (e : BoundExpr) : list BoundExpr :=
  if has_aggregate e then
    match e with
    | BUnary _ e _ | BIsNull e _ _ => scalar_parts e
    | BBinary l _ r _ => scalar_parts l ++ scalar_parts r
    | BAggregate _ a _ => [a]
    | _ => []
    end
  else [e].

(** ** Good expressions *)

Record good (d : list Z) (ps : list ParameterSpec) (p : entry) : Prop := {
  go_tables : offsets_from 0 (en_tables p);
  go_typed : typed (en_tables p) (en_expr p);
  go_required : ∀ t, en_required p = Some t → has t (en_expr p) ∧ has_aggregate (en_expr p) = false;
  go_recorded : Forall (recorded ps) (bparams (en_expr p));
  go_known : ∀ i, i ∈ (bparams (en_expr p)).*1 → i ∈ d
}.

Definition goods (d : list Z) (ps : list ParameterSpec) (es : list entry) : Prop := Forall (good d ps) es.

Lemma goods_app d ps es fs : goods d ps (es ++ fs) ↔ goods d ps es ∧ goods d ps fs.
Proof. apply Forall_app. Qed.

Lemma goods_subset d ps es fs : (∀ p, p ∈ fs → p ∈ es) → goods d ps es → goods d ps fs.
Proof. unfold goods. rewrite !Forall_forall. auto. Qed.

Lemma goods_frame d l ps ps' es :
  NoDup (d ++ l) → frame l ps ps' → goods d ps es → goods (d ++ l) ps' es.
Proof.
  intros (_ & Hd & _)%NoDup_app Hf Hg. eapply Forall_impl; [exact Hg|]. intros p [H0 H1 H2 H3 H4]. split; auto.
  - eapply recorded_frame; [done| |done]. auto.
  - intros i Hi. apply elem_of_app. auto.
Qed.

Lemma goods_same d ps ps' es :
  (∀ p, recorded ps p → recorded ps' p) → goods d ps es → goods d ps' es.
Proof. intros Hr Hg. eapply Forall_impl; [exact Hg|]. intros p [H0 H1 H2 H3 H4]. split; auto. eapply Forall_impl; eauto. Qed.

(** A binder step that binds the parameters [l] and makes the expressions [es],
    after the expressions [need]. *)
Definition binds_after {A} (need : list entry) (l : list Z) (es : A → list entry) (m : binder A) : Prop :=
  ∀ ps a ps' d acc, (∀ p, p ∈ need → p ∈ acc) → m ps = Ok (a, ps') → NoDup (d ++ l) → goods d ps acc →
    goods (d ++ l) ps' (acc ++ es a).

Abbreviation binds := (binds_after []).

Lemma need_nil (acc : list entry) p : p ∈ [] → p ∈ acc.
Proof. by intros ?%elem_of_nil. Qed.

Lemma binds_weaken {A} need l (es : A → list entry) m : binds l es m → binds_after need l es m.
Proof. intros H ps a ps' d acc _. apply H. intros p Hp. by apply elem_of_nil in Hp. Qed.

Lemma binds_ret {A} (a : A) (es : A → list entry) : es a = [] → binds [] es (mret a).
Proof. intros He ps a' ps' d acc _ [-> ->]%binder_ret_Ok. by rewrite He, !app_nil_r. Qed.

Lemma binds_map {A B} need (f : A → binder B) (l : A → list Z) (es : B → list entry) xs :
  (∀ x, x ∈ xs → binds_after need (l x) es (f x)) → binds_after need (xs ≫= l) (λ ys, ys ≫= es) (b_map f xs).
Proof.
  intros Hf ps ys ps' d acc Hneed Hm. revert ps ys d acc Hneed Hm.
  induction xs as [|x xs IH]; intros ps ys d acc Hneed Hm Hnd Hg; cbn [b_map] in Hm.
  - apply binder_ret_Ok in Hm as [<- ->]. cbn. by rewrite !app_nil_r.
  - apply binder_bind_Ok in Hm as (y & ps1 & Hy & Hm). apply binder_bind_Ok in Hm as (ys' & ps2 & Hys & [<- ->]%binder_ret_Ok).
    change ((x :: xs) ≫= l) with (l x ++ (xs ≫= l)) in *. change ((y :: ys') ≫= es) with (es y ++ (ys' ≫= es)).
    rewrite !app_assoc in *.
    eapply (IH (λ x Hx, Hf x (list_elem_of_further _ _ _ Hx))); [|exact Hys|done|].
    { intros p Hp. apply elem_of_app. auto. }
    eapply Hf; [left|done|exact Hy|by apply NoDup_app in Hnd as [? _]|done].
Qed.

(** ** Scopes *)

Definition scope_wf (s : Scope) : Prop := offsets_from 0 (sc_tables s).

Lemma offsets_app n l t : offsets_from n l → bt_slot_offset t = n + zlen (l ≫= table_columns) → offsets_from n (l ++ [t]).
Proof.
  revert n. induction l as [|t' l IH]; intros n; cbn [app offsets_from].
  - intros _ Ht. unfold zlen in Ht. cbn in Ht. split; [lia|done].
  - intros [Hn Ho] Ht. split; [done|]. apply IH; [done|].
    change ((t' :: l) ≫= table_columns) with (table_columns t' ++ (l ≫= table_columns)) in Ht. rewrite zlen_app in Ht. lia.
Qed.

Lemma offsets_last n l t : offsets_from n (l ++ [t]) → bt_slot_offset t = n + zlen (l ≫= table_columns).
Proof.
  revert n. induction l as [|t' l IH]; intros n; cbn [app offsets_from].
  - intros [Hn _]. unfold zlen. cbn. lia.
  - intros [_ Ho%IH]. change ((t' :: l) ≫= table_columns) with (table_columns t' ++ (l ≫= table_columns)).
    rewrite zlen_app. lia.
Qed.

Lemma total_columns_spec s : scope_wf s → ScopeOps.total_columns s = zlen (sc_tables s ≫= table_columns).
Proof.
  unfold scope_wf, ScopeOps.total_columns. destruct s as [l]. cbn.
  induction l as [|t l _] using rev_ind; [done|]. rewrite last_snoc. intros Ho%offsets_last.
  rewrite Ho, bind_app, zlen_app. cbn. rewrite app_nil_r. unfold table_columns. lia.
Qed.

Lemma push_spec s t span s' : ScopeOps.push s t span = Ok s' → sc_tables s' = sc_tables s ++ [t].
Proof. unfold ScopeOps.push. intros (u & _ & <-%Ok_inj)%result_bind_Ok. done. Qed.

Lemma single_wf table alias : scope_wf (ScopeOps.single table alias 0).
Proof. done. Qed.

(** ** Predicates and values *)

(** One expression. *)
Lemma binds_in_scope s tables x expected policy :
  scope_wf s → tables = sc_tables s →
  binds (xparams x) (λ e, [mkEntry tables (match policy with Forbidden => expected | Allowed => None end) e])
    (bind_expr s x expected policy).
Proof.
  intros Hs -> ps e ps' d acc _ Hb Hnd Hg. destruct (bind_expr_spec s _ _ _ _ _ _ Hb) as [Ht Hx Hp' Hp Hf Hr].
  apply goods_app. split; [by eapply goods_frame|]. constructor; [|done]. split; cbn; [done|done| | |].
  - intros t Ht'. destruct policy; [done|]. auto.
  - apply Hr. by apply NoDup_app in Hnd as (_ & _ & ?).
  - intros i. rewrite Hp. intros. apply elem_of_app. auto.
Qed.

Lemma binds_predicate s tables context x :
  scope_wf s → tables = sc_tables s →
  binds (xparams x) (λ e, [mkEntry tables (Some Bool) e]) (bind_predicate s context x).
Proof.
  intros Hs Hc ps e ps' d acc Hneed Hb Hnd Hg. apply binder_bind_Ok in Hb as (b & ps1 & Hb & He).
  case_bool_decide; [|by apply b_lift_Ok in He as [? _]]. apply binder_ret_Ok in He as [<- ->].
  by apply (binds_in_scope s tables x (Some Bool) Forbidden Hs Hc ps b ps1).
Qed.

Lemma binds_selection s tables context o :
  scope_wf s → tables = sc_tables s →
  binds (option_params o) (option_entries tables) (b_option (bind_predicate s context) o).
Proof.
  intros Hs Hc. destruct o as [x|]; cbn [option_params b_option]; [|by apply binds_ret].
  intros ps e ps' d acc Hneed Hb Hnd Hg. apply binder_bind_Ok in Hb as (b & ps1 & Hb & [<- ->]%binder_ret_Ok).
  by apply (binds_predicate s tables context x Hs Hc ps b ps1).
Qed.

(** Requiring a value changes no type. *)
Lemma require_same e ps u ps' p : require_direct_parameter_value e ps = Ok (u, ps') → recorded ps p → recorded ps' p.
Proof.
  destruct e; cbn; intros [= <- <-]; auto. apply recorded_required.
Qed.

Lemma binds_value table s tables target x :
  scope_wf s → tables = sc_tables s →
  binds (xparams x) (λ e, [mkEntry tables (Some (c_data_type (column_at table target))) e]) (bind_value table s target x).
Proof.
  intros Hs Hc ps e ps' d acc Hneed Hb Hnd Hg. apply binder_bind_Ok in Hb as (b & ps1 & Hb & He).
  apply binder_bind_Ok in He as (u & ps2 & [_ ->]%b_lift_Ok & He).
  apply binder_bind_Ok in He as (u' & ps3 & Hr & [<- ->]%binder_ret_Ok).
  eapply goods_same; [|by apply (binds_in_scope s tables x _ Forbidden Hs Hc ps b ps1)].
  intros p Hp. destruct (nullable _); [by apply binder_ret_Ok in Hr as [_ ->]|]. by eapply require_same.
Qed.

Lemma binds_assignments table s tables l : scope_wf s → tables = sc_tables s → ∀ seen,
  binds (l ≫= λ a, xparams a.2) (λ asg, (λ a, mkEntry tables (Some (c_data_type (column_at table a.1))) a.2) <$> asg)
    (bind_assignments table s seen l).
Proof.
  intros Hs Hc. induction l as [|[column value] l IH]; intros seen; cbn [bind_assignments]; [by apply binds_ret|].
  intros ps a ps' d acc Hneed Hb Hnd Hg.
  apply binder_bind_Ok in Hb as (i & ps1 & [_ ->]%b_lift_Ok & Hb). apply binder_bind_Ok in Hb as (u & ps2 & [_ ->]%b_lift_Ok & Hb).
  apply binder_bind_Ok in Hb as (v & ps3 & Hv & Hb). apply binder_bind_Ok in Hb as (r & ps4 & Hr & [<- ->]%binder_ret_Ok).
  change (((column, value) :: l) ≫= _) with (xparams value ++ (l ≫= λ a, xparams a.2)) in *.
  rewrite app_assoc in Hnd. pose proof Hnd as [Hnd' _]%NoDup_app.
  pose proof (binds_value table s tables i value Hs Hc _ _ _ d acc Hneed Hv Hnd' Hg) as Hg'.
  epose proof (IH _ _ _ _ _ _ _ Hr Hnd Hg') as Hg''. rewrite <- !app_assoc in Hg''. exact Hg''.
  Unshelve. intros p Hp. by apply elem_of_nil in Hp.
Qed.

(** ** INSERT *)

Definition value_entry (table : TableDef) (i : Z) (e : BoundExpr) : entry :=
  mkEntry [] (Some (c_data_type (column_at table i))) e.

(** What [normalized] holds is good for the columns it stands at. *)
Definition normalized_good (table : TableDef) (d : list Z) (ps : list ParameterSpec) (l : list (option BoundExpr)) : Prop :=
  ∀ i e, l !! i = Some (Some e) → good d ps (value_entry table (Z.of_nat i) e).

Lemma bind_values_good table l : Forall (λ p : Z * SqlExpr, 0 ≤ p.1) l → ∀ n n' ps ps' d,
  bind_values table n l ps = Ok (n', ps') → NoDup (d ++ (l ≫= λ p, xparams p.2)) →
  normalized_good table d ps n → normalized_good table (d ++ (l ≫= λ p, xparams p.2)) ps' n'.
Proof.
  induction 1 as [|[target x] l Ht _ IH]; intros n n' ps ps' d Hb Hnd Hg; cbn [bind_values] in Hb.
  - apply binder_ret_Ok in Hb as [<- ->]. by rewrite app_nil_r.
  - apply binder_bind_Ok in Hb as (e & ps1 & He & Hb).
    change (((target, x) :: l) ≫= _) with (xparams x ++ (l ≫= λ p, xparams p.2)) in *.
    rewrite app_assoc in *. eapply IH; [exact Hb|done|]. pose proof Hnd as [Hnd' _]%NoDup_app.
    intros i e' Hi. destruct (decide (i = Z.to_nat target)) as [->|Hne].
    + apply list_lookup_insert_Some in Hi as [(_ & [= <-] & _)|[? _]]; [|done].
      pose proof (binds_value table ScopeOps.empty [] target x I eq_refl ps e ps1 d []
        (λ p Hp, Hp) He Hnd' (List.Forall_nil _)) as [Hgd _]%Forall_cons.
      cbn in Ht. by rewrite Z2Nat.id.
    + rewrite list_lookup_insert_ne in Hi by done. specialize (Hg _ _ Hi).
      epose proof (binds_value table ScopeOps.empty [] target x I eq_refl ps e ps1 d [value_entry table (Z.of_nat i) e']
        _ He Hnd' (List.Forall_cons _ _ _ Hg (List.Forall_nil _))) as [Hgd _]%Forall_cons. exact Hgd.
      Unshelve. intros p Hp. by apply elem_of_nil in Hp.
Qed.

Lemma insert_targets_nonneg table l : ∀ seen targets, insert_targets table seen l = Ok targets → Forall (λ i, 0 ≤ i) targets.
Proof.
  induction l as [|c l IH]; intros seen targets; cbn [insert_targets]; [intros [= <-]; constructor|].
  intros (i & Hi%ok_or_Ok & (u & _ & (ts & Hts & <-%Ok_inj)%result_bind_Ok)%result_bind_Ok)%result_bind_Ok.
  constructor; [|by eapply IH]. unfold find_column in Hi.
  destruct (List.find _ _) as [[j col]|] eqn:Hf; [|done]. cbn in Hi. injection Hi as <-.
  apply enumerate_find, znth_lt in Hf. lia.
Qed.

Lemma bind_insert_good catalog name cols vals ps s ps' :
  bind_insert catalog name cols vals ps = Ok (s, ps') → NoDup (vals ≫= xparams) →
  goods (vals ≫= xparams) ps' (statement_exprs s).
Proof.
  intros Hb Hnd. unfold bind_insert in Hb.
  apply binder_bind_Ok in Hb as (table & ps1 & [_ ->]%b_lift_Ok & Hb).
  apply binder_bind_Ok in Hb as (targets & ps2 & [Ht ->]%b_lift_Ok & Hb).
  apply binder_bind_Ok in Hb as (u & ps3 & [Hlen%ensure_Ok ->]%b_lift_Ok & Hb). apply Z.eqb_eq in Hlen.
  apply binder_bind_Ok in Hb as (n & ps4 & Hv & Hb).
  apply binder_bind_Ok in Hb as (values & ps5 & [Hfill ->]%b_lift_Ok & [<- ->]%binder_ret_Ok).
  assert (Forall (λ i, 0 ≤ i) targets) as Hpos.
  { destruct cols; [by eapply insert_targets_nonneg|]. injection Ht as <-. apply Forall_fmap, Forall_true. intros; cbn; lia. }
  assert ((zip targets vals ≫= λ p, xparams p.2) = vals ≫= xparams) as Hzip.
  { unfold zlen in Hlen. apply Nat2Z.inj in Hlen. clear -Hlen. revert vals Hlen.
    induction targets as [|t targets IH]; intros [|v vals] Hlen; cbn; try done. f_equal. apply IH. by injection Hlen. }
  apply (bind_values_good table _) with (d := []) in Hv; cbn [app].
  - rewrite Hzip in Hv. cbn [app] in Hv. apply mapM_result_Ok in Hfill. cbn [statement_exprs]. unfold goods, enumerate.
    apply Forall_fmap, Forall_lookup_2. intros k [i e] Hk. rewrite list_lookup_imap in Hk.
    destruct (values !! k) as [e'|] eqn:He; [|done]. injection Hk as <- <-. cbn.
    destruct (Forall2_lookup_r _ _ _ _ _ Hfill He) as ([i o] & Hi & Hf). unfold enumerate in Hi. rewrite list_lookup_imap in Hi.
    destruct (n !! k) as [o'|] eqn:Hn; [|done]. injection Hi as <- <-. unfold fill_value in Hf. cbn in Hf.
    destruct o' as [v|]; [injection Hf as <-; by apply Hv|].
    apply result_bind_Ok in Hf as (u' & _ & <-%Ok_inj). split; cbn; try done. intros t _. split; [by right|done].
    intros i Hi. by apply elem_of_nil in Hi.
  - apply Forall_lookup_2. intros k [i x] Hk. apply lookup_zip_Some in Hk as [Hk _]. by eapply (Forall_lookup_1 _ _ _ _ Hpos).
  - by rewrite Hzip.
  - intros i e Hi. apply lookup_replicate in Hi as [? _]. done.
Qed.

Lemma bind_update_good catalog name assignments selection ps s ps' :
  bind_update catalog name assignments selection ps = Ok (s, ps') →
  NoDup ((assignments ≫= λ a, xparams a.2) ++ option_params selection) →
  goods ((assignments ≫= λ a, xparams a.2) ++ option_params selection) ps' (statement_exprs s).
Proof.
  intros Hb Hnd. unfold bind_update in Hb. apply binder_bind_Ok in Hb as (table & ps1 & [_ ->]%b_lift_Ok & Hb).
  apply binder_bind_Ok in Hb as (asg & ps2 & Ha & Hb). apply binder_bind_Ok in Hb as (sel & ps3 & Hs & [<- ->]%binder_ret_Ok).
  pose proof (single_wf table (td_name table)) as Hwf.
  pose proof Hnd as [Hnd' _]%NoDup_app.
  pose proof (binds_assignments table _ _ _ Hwf eq_refl _ _ _ _ [] [] (λ p Hp, Hp) Ha Hnd' (List.Forall_nil _)) as Hg.
  exact (binds_selection _ _ _ _ Hwf eq_refl _ _ _ _ _ (need_nil _) Hs Hnd Hg).
Qed.

Lemma bind_delete_good catalog name selection ps s ps' :
  bind_delete catalog name selection ps = Ok (s, ps') → NoDup (option_params selection) →
  goods (option_params selection) ps' (statement_exprs s).
Proof.
  intros Hb Hnd. unfold bind_delete in Hb. apply binder_bind_Ok in Hb as (table & ps1 & [_ ->]%b_lift_Ok & Hb).
  apply binder_bind_Ok in Hb as (sel & ps3 & Hs & [<- ->]%binder_ret_Ok).
  exact (binds_selection _ _ _ _ (single_wf table (td_name table)) eq_refl
    _ _ _ [] [] (λ p Hp, Hp) Hs Hnd (List.Forall_nil _)).
Qed.

(** ** SELECT *)

Lemma push_wf s t span s' :
  scope_wf s → bt_slot_offset t = ScopeOps.total_columns s → ScopeOps.push s t span = Ok s' →
  scope_wf s' ∧ sc_tables s' = sc_tables s ++ [t].
Proof.
  intros Hs Ht Hp%push_spec. unfold scope_wf. rewrite Hp. split; [|done].
  apply offsets_app; [done|]. rewrite Ht, total_columns_spec by done. done.
Qed.

Lemma bind_table_source_offset catalog source n t : bind_table_source catalog source n = Ok t → bt_slot_offset t = n.
Proof. intros (table & _ & <-%Ok_inj)%result_bind_Ok. done. Qed.

Lemma bind_joins_good catalog joins : ∀ s plan ps s' plan' ps' d,
  bind_joins catalog s plan joins ps = Ok ((s', plan'), ps') → scope_wf s → plan_scope plan = sc_tables s →
  NoDup (d ++ (joins ≫= λ j, xparams (j_on j))) → goods d ps (plan_exprs plan) →
  scope_wf s' ∧ plan_scope plan' = sc_tables s' ∧ goods (d ++ (joins ≫= λ j, xparams (j_on j))) ps' (plan_exprs plan').
Proof.
  induction joins as [|j joins IH]; intros s plan ps s' plan' ps' d Hb Hs Hc Hnd Hg; cbn [bind_joins] in Hb.
  - apply binder_ret_Ok in Hb as [[= <- <-] ->]. by rewrite app_nil_r.
  - apply binder_bind_Ok in Hb as (r & ps1 & [Hr ->]%b_lift_Ok & Hb).
    apply binder_bind_Ok in Hb as (s1 & ps2 & [Hp ->]%b_lift_Ok & Hb).
    apply binder_bind_Ok in Hb as (on & ps3 & Hon & Hb).
    destruct (push_wf _ _ _ _ Hs (bind_table_source_offset _ _ _ _ Hr) Hp) as [Hs1 Hc1].
    change ((j :: joins) ≫= _) with (xparams (j_on j) ++ (joins ≫= λ j, xparams (j_on j))) in *.
    rewrite app_assoc in *. pose proof Hnd as [Hnd' _]%NoDup_app.
    eapply IH; [exact Hb|done| |done|].
    + cbn. by rewrite Hc1, Hc.
    + cbn [plan_exprs]. cbn [plan_scope]. rewrite Hc, <- Hc1. cbn [app].
      refine (binds_predicate s1 _ _ _ Hs1 eq_refl _ _ _ _ _ _ Hon Hnd' Hg). intros p Hp'. by apply elem_of_nil in Hp'.
Qed.

Definition plain_entries (tables : list BoundTable) (es : list BoundExpr) : list entry := mkEntry tables None <$> es.

Lemma binds_item s tables p :
  scope_wf s → tables = sc_tables s →
  binds (item_params p.2) (λ named, plain_entries tables (ne_expr <$> named)) (bind_item s p).
Proof.
  intros Hs Hc. destruct p as [pos [span|x alias]]; cbn [bind_item item_params snd]; intros ps named ps' d acc Hneed Hb Hnd Hg.
  - apply binder_ret_Ok in Hb as [<- ->]. rewrite app_nil_r. apply goods_app. split; [done|].
    unfold goods, plain_entries. rewrite <- list_fmap_compose. apply Forall_fmap, Forall_forall. intros ne Hin.
    apply list_elem_of_bind in Hin as (t & Hin & Ht). apply list_elem_of_fmap in Hin as ([i col] & -> & Hin).
    split; cbn; try done; [by subst tables| |by intros ? ?%elem_of_nil].
    subst tables. exists t. cbn. split_and!; try done.
    apply list_elem_of_lookup in Hin as [k Hk]. unfold enumerate in Hk. rewrite list_lookup_imap in Hk. fold (table_columns t) in Hk.
    destruct (table_columns t !! k) as [y|] eqn:Hy; [|done]. injection Hk as <- <-. apply znth_Some. rewrite Nat2Z.id. split; [lia|done].
  - apply binder_bind_Ok in Hb as (b & ps1 & Hb & [<- ->]%binder_ret_Ok).
    by apply (binds_in_scope s tables x None Allowed Hs Hc ps b ps1).
Qed.

Lemma good_set_span d ps tables r e span : good d ps (mkEntry tables r e) → good d ps (mkEntry tables r (b_set_span e span)).
Proof. intros [H0 H1 H2 H3 H4]. split; by destruct e. Qed.

Lemma binds_order s tables output o :
  scope_wf s → tables = sc_tables s →
  binds_after (plain_entries tables (ne_expr <$> output)) (xparams o.1) (λ b, plain_entries tables [bo_expr b])
    (bind_order s output o).
Proof.
  intros Hs Hc ps b ps' d acc Hneed Hb Hnd Hg. apply binder_bind_Ok in Hb as (e & ps1 & He & [<- ->]%binder_ret_Ok).
  destruct o as [x dir]. cbn [fst bo_expr] in *.
  assert (bind_expr s x None Allowed ps = Ok (e, ps1) → goods (d ++ xparams x) ps1 (acc ++ plain_entries tables [e])) as Hplain.
  { intros Hb. refine (binds_in_scope s tables x None Allowed Hs Hc ps e ps1 d acc _ Hb Hnd Hg). by intros ? ?%elem_of_nil. }
  unfold bind_order_expression in He. destruct x as [| |[q|] name span| | | | |]; try by apply Hplain.
  destruct (List.filter _ output) as [|named [|]] eqn:Hf; [by apply Hplain| |by apply b_lift_Ok in He as [? _]].
  apply binder_ret_Ok in He as [<- ->]. cbn [xparams]. rewrite app_nil_r. apply goods_app. split; [done|].
  constructor; [|done]. apply good_set_span. unfold goods in Hg. rewrite Forall_forall in Hg. apply Hg, Hneed.
  apply list_elem_of_fmap. exists (ne_expr named). split; [done|]. apply list_elem_of_fmap. exists named. split; [done|].
  assert (named ∈ List.filter (λ c, ident_matches name (ne_name c)) output) as Hin by (rewrite Hf; left).
  apply list_elem_of_In, filter_In in Hin as [Hin _]. by apply list_elem_of_In.
Qed.

(** The aggregates of an expression are good where it is. *)
Lemma collect_good d ps tables e a : good d ps (mkEntry tables None e) → a ∈ collect_aggregates e → good d ps (mkEntry tables None a).
Proof.
  intros [Ho Ht _ Hr Hk]. cbn in *.
  assert (typed tables e → a ∈ collect_aggregates e →
    typed tables a ∧ ∀ p, p ∈ bparams a → p ∈ bparams e) as Hsub.
  { clear. induction e as [v s|i t s|c s|op e IH s|l IHl op r IHr s|e IH n s|f s|f e IH s]; cbn;
      intros Ht Ha; try by apply elem_of_nil in Ha.
    - destruct Ht. by apply IH.
    - destruct Ht as (? & ? & _). apply elem_of_app in Ha as [Ha|Ha];
        [destruct (IHl ltac:(done) Ha)|destruct (IHr ltac:(done) Ha)]; (split; [done|]); intros; apply elem_of_app; auto.
    - by apply IH.
    - apply list_elem_of_singleton in Ha as ->. done.
    - apply list_elem_of_singleton in Ha as ->. done. }
  intros Ha. destruct (Hsub Ht Ha) as [Hta Hsub']. split; cbn; try done.
  - rewrite Forall_forall in *. auto.
  - intros i Hi. apply Hk. apply list_elem_of_fmap in Hi as (p & -> & Hp). apply list_elem_of_fmap. eauto.
Qed.

Lemma deduplicate_subset es e : e ∈ deduplicate_expressions es → e ∈ es.
Proof.
  unfold deduplicate_expressions. intros He.
  assert (∀ acc, e ∈ foldl (λ unique expression, if existsb (λ existing, same_expression existing expression) unique
             then unique else unique ++ [expression]) acc es → e ∈ acc ∨ e ∈ es) as Hall.
  { clear He. induction es as [|x es IH]; cbn; [auto|]. intros acc Hin%IH. destruct (existsb _ _).
    - destruct Hin; [by left|right; by right].
    - rewrite elem_of_app, list_elem_of_singleton, elem_of_cons in *. naive_solver. }
  destruct (Hall [] He) as [?%elem_of_nil|]; done.
Qed.

Lemma aggregate_plan_good d ps plan group_by output order_by plan' :
  aggregate_plan plan group_by output order_by = Ok plan' →
  goods d ps (plan_exprs plan) → goods d ps (plain_entries (plan_scope plan) group_by) →
  goods d ps (plain_entries (plan_scope plan) (ne_expr <$> output)) →
  goods d ps (plain_entries (plan_scope plan) (bo_expr <$> order_by)) →
  goods d ps (plan_exprs plan') ∧ plan_scope plan' = plan_scope plan.
Proof.
  unfold aggregate_plan. intros Ha Hp Hg Ho Hs. destruct (_ || _); [|by injection Ha as <-].
  apply result_bind_Ok in Ha as (u & _ & (u' & _ & <-%Ok_inj)%result_bind_Ok). split; [|done]. cbn [plan_exprs].
  apply goods_app. split; [done|]. rewrite fmap_app. apply goods_app. split; [done|].
  apply Forall_fmap, Forall_forall. intros a Hin%deduplicate_subset.
  unfold goods, plain_entries in Ho, Hs. rewrite Forall_fmap, Forall_forall in Ho, Hs.
  apply elem_of_app in Hin as [Hin|Hin]; apply list_elem_of_bind in Hin as (x & Hx & Hin).
  - eapply collect_good; [|done]. apply Ho. by apply list_elem_of_fmap_2.
  - eapply collect_good; [|done]. apply Hs. by apply list_elem_of_fmap_2.
Qed.

Lemma bind_limit_good plan limit ps plan' ps' d acc :
  bind_limit plan limit ps = Ok (plan', ps') → NoDup (d ++ option_params limit) → goods d ps (acc ++ plan_exprs plan) →
  goods (d ++ option_params limit) ps' (acc ++ plan_exprs plan') ∧ plan_scope plan' = plan_scope plan.
Proof.
  destruct limit as [x|]; cbn [bind_limit option_params]; intros Hb Hnd Hg.
  - apply binder_bind_Ok in Hb as (e & ps1 & He & Hb). apply binder_bind_Ok in Hb as (u & ps2 & [_ ->]%b_lift_Ok & Hb).
    apply binder_bind_Ok in Hb as (u' & ps3 & Hr & [<- ->]%binder_ret_Ok). split; [|done].
    eapply goods_same; [intros p; by eapply require_same|]. cbn [plan_exprs]. rewrite app_assoc.
    refine (binds_in_scope ScopeOps.empty [] x (Some Int64) Forbidden I eq_refl ps e ps1 d _ _ He Hnd Hg).
    by intros ? ?%elem_of_nil.
  - apply binder_ret_Ok in Hb as [<- ->]. by rewrite app_nil_r.
Qed.

Lemma fmap_bind_singletons {A B} (f : A → B) l : (l ≫= λ x, [f x]) = f <$> l.
Proof. induction l as [|x l IH]; [done|]. cbn. by f_equal. Qed.

Lemma bind_concat {A B} (f : A → B) (l : list (list A)) : (l ≫= λ x, f <$> x) = f <$> concat l.
Proof. induction l as [|x l IH]; [done|]. cbn [concat]. rewrite fmap_app, <- IH. done. Qed.

Lemma bind_imap {A B} (f : A → list B) (l : list A) : ∀ h : nat → A → Z * A,
  (∀ i x, (h i x).2 = x) → (imap h l ≫= λ p, f p.2) = l ≫= f.
Proof.
  induction l as [|x l IH]; intros h Hh; [done|].
  change (f (h O x).2 ++ (imap (h ∘ S) l ≫= λ p, f p.2) = f x ++ (l ≫= f)).
  rewrite Hh, (IH (h ∘ S)); [done|]. intros. apply Hh.
Qed.

Lemma bind_select_good catalog s ps b ps' :
  bind_select catalog s ps = Ok (b, ps') → NoDup (select_params s) → goods (select_params s) ps' (statement_exprs b).
Proof.
  intros Hb Hnd. unfold bind_select in Hb.
  apply binder_bind_Ok in Hb as (first & ps1 & [Hfirst ->]%b_lift_Ok & Hb).
  apply binder_bind_Ok in Hb as (s0 & ps2 & [Hpush ->]%b_lift_Ok & Hb).
  apply binder_bind_Ok in Hb as ([sc plan] & ps3 & Hj & Hb).
  apply binder_bind_Ok in Hb as (pred & ps4 & Hp & Hb).
  apply binder_bind_Ok in Hb as (group_by & ps5 & Hgb & Hb).
  apply binder_bind_Ok in Hb as (items & ps6 & Hi & Hb).
  apply binder_bind_Ok in Hb as (order_by & ps7 & Ho & Hb).
  apply binder_bind_Ok in Hb as (plan1 & ps8 & [Hagg ->]%b_lift_Ok & Hb).
  apply binder_bind_Ok in Hb as (plan2 & ps9 & Hl & [<- ->]%binder_ret_Ok).
  destruct (push_wf ScopeOps.empty first _ _ I (bind_table_source_offset _ _ _ _ Hfirst) Hpush) as [Hs0 Hc0].
  unfold select_params in *. rewrite !app_assoc in *.
  pose proof Hnd as [Hnd1 _]%NoDup_app. pose proof Hnd1 as [Hnd2 _]%NoDup_app. pose proof Hnd2 as [Hnd3 _]%NoDup_app.
  pose proof Hnd3 as [Hnd4 _]%NoDup_app. pose proof Hnd4 as [Hnd5 _]%NoDup_app.
  destruct (bind_joins_good catalog _ _ _ _ _ _ _ [] Hj Hs0 (eq_sym Hc0) Hnd5 (List.Forall_nil _)) as (Hwf & Hcols & G).
  cbn [app] in G. symmetry in Hcols.
  pose proof (binds_selection sc _ _ _ Hwf (eq_sym Hcols) _ _ _ _ _ (need_nil _) Hp Hnd4 G) as Gp. clear G Hp.
  set (plan0 := match pred with Some predicate => LFilter plan predicate | None => plan end) in *.
  assert (plan_exprs plan ++ option_entries (plan_scope plan) pred = plan_exprs plan0) as Hplan0
    by (by subst plan0; destruct pred; [|apply app_nil_r]).
  assert (plan_scope plan0 = sc_tables sc) as Hcols0 by (subst plan0; by destruct pred).
  rewrite Hplan0 in Gp.
  pose proof (binds_map [] _ xparams (λ e, [mkEntry (plan_scope plan0) None e]) _
    (λ x _, binds_in_scope sc _ x None Forbidden Hwf Hcols0) _ _ _ _ _ (need_nil _) Hgb Hnd3 Gp) as Gg. clear Gp Hgb.
  rewrite fmap_bind_singletons in Gg. fold (plain_entries (plan_scope plan0) group_by) in Gg.
  pose proof (λ H, binds_map [] _ (λ p, item_params p.2) (λ named, plain_entries (plan_scope plan0) (ne_expr <$> named)) _
    (λ x _, binds_item sc _ x Hwf Hcols0) _ _ _ _ _ (need_nil _) Hi H Gg) as Go. clear Gg Hi.
  unfold enumerate in Go. rewrite bind_imap in Go by done. specialize (Go Hnd2).
  assert ((items ≫= λ named, plain_entries (plan_scope plan0) (ne_expr <$> named))
          = plain_entries (plan_scope plan0) (ne_expr <$> concat items)) as Hitems.
  { unfold plain_entries. rewrite <- !list_fmap_compose, <- bind_concat. apply list_bind_ext; [|done]. intros x. by rewrite <- list_fmap_compose. }
  rewrite Hitems in Go. clear Hitems. set (output := concat items) in *.
  pose proof (λ H, binds_map (plain_entries (plan_scope plan0) (ne_expr <$> output)) _ (λ o, xparams o.1)
    (λ b, plain_entries (plan_scope plan0) [bo_expr b]) _ (λ x _, binds_order sc _ output x Hwf Hcols0)
    _ _ _ _ _ H Ho Hnd1 Go) as Gs.
  specialize (Gs ltac:(intros; apply elem_of_app; by right)). clear Go Ho.
  assert ((order_by ≫= λ b, plain_entries (plan_scope plan0) [bo_expr b])
          = plain_entries (plan_scope plan0) (bo_expr <$> order_by)) as Horder.
  { unfold plain_entries. rewrite <- list_fmap_compose, <- fmap_bind_singletons. by apply list_bind_ext. }
  cbn beta in Gs, Horder. rewrite Horder in Gs. clear Horder. rewrite !goods_app in Gs. destruct Gs as [[[Hgp Hgg] Hgo] Hgs].
  destruct (aggregate_plan_good _ _ _ _ _ _ _ Hagg Hgp Hgg Hgo Hgs) as [Hg1 Hc1].
  assert (goods ((((((sel_joins s ≫= λ j, xparams (j_on j)) ++ option_params (sel_selection s)) ++ (sel_group_by s ≫= xparams))
    ++ (sel_projection s ≫= item_params)) ++ (sel_order_by s ≫= λ o, xparams o.1))) ps7
    (plain_entries (plan_scope plan0) (ne_expr <$> output) ++ plan_exprs (if is_empty order_by then plan1 else LSort plan1 order_by))) as Hg2.
  { apply goods_app. split; [done|]. destruct (is_empty order_by); [done|]. cbn [plan_exprs]. apply goods_app. rewrite Hc1. by split. }
  destruct (bind_limit_good _ _ _ _ _ _ _ Hl Hnd Hg2) as [Hg3 Hc3]. cbn [statement_exprs plan_exprs].
  apply goods_app in Hg3 as [Ha Hb]. apply goods_app. split; [exact Hb|].
  rewrite Hc3. destruct (is_empty order_by); cbn [plan_scope]; rewrite Hc1; exact Ha.
Qed.

Lemma bind_statement_good catalog s : ∀ span ps b ps',
  bind_statement catalog s span ps = Ok (b, ps') → NoDup (statement_params s) →
  goods (statement_params s) ps' (statement_exprs b).
Proof.
  assert (∀ l ps, goods l ps []) as Hnil by constructor.
  induction s as [name cols|name table column|table cols vals|table asg sel|table sel|s| | | |inner IH isp];
    intros span ps b ps' Hb Hnd; cbn [bind_statement statement_params] in *.
  - apply b_lift_Ok in Hb as [(u & _ & (k & _ & <-%Ok_inj)%result_bind_Ok)%result_bind_Ok ->]. apply Hnil.
  - apply b_lift_Ok in Hb as [(u & _ & (k & _ & (i & _ & <-%Ok_inj)%result_bind_Ok)%result_bind_Ok)%result_bind_Ok ->]. apply Hnil.
  - by eapply bind_insert_good.
  - by eapply bind_update_good.
  - by eapply bind_delete_good.
  - by eapply bind_select_good.
  - apply binder_ret_Ok in Hb as [<- ->]. apply Hnil.
  - apply binder_ret_Ok in Hb as [<- ->]. apply Hnil.
  - apply binder_ret_Ok in Hb as [<- ->]. apply Hnil.
  - apply binder_bind_Ok in Hb as (b' & ps1 & Hb' & Hb). destruct (is_transaction b'); [by apply b_lift_Ok in Hb as [? _]|].
    apply binder_ret_Ok in Hb as [<- ->]. cbn. by eapply IH.
Qed.

(** ** Parameters *)

Lemma validated_parameter specs vals p :
  Eval.validate_specifications specs vals = Ok tt → p ∈ specs →
  ∃ v, znth vals (ps_index p) = Some v ∧ (ps_data_type p = None ∨ data_type v = None ∨ data_type v = ps_data_type p).
Proof.
  induction specs as [|q specs IH]; [by intros _ ?%elem_of_nil|]. cbn. intros (u & Hq & Hs)%result_bind_Ok.
  intros [->|Hin]%elem_of_cons; [|by apply IH]. clear IH Hs. unfold Eval.validate_parameter in Hq.
  apply result_bind_Ok in Hq as (v & Hv%ok_or_Ok & (u' & Ht & _)%result_bind_Ok). exists v. split; [done|].
  unfold Eval.ensure_runtime_type in Ht. destruct (ps_data_type q) as [t|]; [|by left]. destruct (data_type v); [|by right; left].
  apply ensure_Ok, bool_decide_eq_true in Ht. right. right. by subst.
Qed.

Lemma recorded_param_ok ps vals p :
  Eval.validate_parameters (sort_by (λ a b, cmp (ps_index a) (ps_index b)) ps) vals = Ok tt → recorded ps p → param_ok vals p.
Proof.
  intros (u & _ & Hs)%result_bind_Ok (s & Hs' & Ht). apply find_some in Hs' as [Hin Hi%Z.eqb_eq]. apply list_elem_of_In in Hin.
  destruct (validated_parameter _ _ s Hs) as (v & Hv & Hty); [by rewrite sort_by_perm|]. exists v. rewrite <- Hi. split; [done|].
  destruct Ht as [?|Ht]; [by left|]. rewrite Ht in Hty. naive_solver.
Qed.

Lemma scalar_part_good tables e part :
  typed tables e → part ∈ scalar_parts e →
  typed tables part ∧ has_aggregate part = false ∧ ∀ p, p ∈ bparams part → p ∈ bparams e.
Proof.
  assert (∀ e, typed tables e → has_aggregate e = false → part ∈ [e] →
    typed tables part ∧ has_aggregate part = false ∧ ∀ p, p ∈ bparams part → p ∈ bparams e) as Hself.
  { intros e' ? ? ->%list_elem_of_singleton. done. }
  induction e as [v s|i t s|c s|op e IH s|l IHl op r IHr s|e IH n s|f s|f e IH s]; cbn [scalar_parts has_aggregate]; intros Ht Hp;
    try (by apply Hself); try (destruct (_ : bool) eqn:Ha in Hp; [|by apply Hself]); cbn [typed bparams] in *.
  - destruct Ht. by apply IH.
  - destruct Ht as (? & ? & _). apply elem_of_app in Hp as [Hp|Hp];
      [destruct (IHl ltac:(done) Hp) as (? & ? & ?)|destruct (IHr ltac:(done) Hp) as (? & ? & ?)]; split_and!; try done;
      intros; apply elem_of_app; auto.
  - by apply IH.
  - by apply elem_of_nil in Hp.
  - destruct Ht. by apply Hself.
Qed.

(** C5: type soundness of the SQL front end.  Bind a statement whose parameters
    are numbered apart, and let the parameter values pass validation.  Then
    every expression of the bound statement, on every row that fits the columns
    it is evaluated on, evaluates to a value of its inferred type, NULL only
    where the type is nullable, or stops with the one error left to run time,
    the overflow of a 64-bit negation; predicates give truth values, LIMIT an
    integer, and the values INSERT and UPDATE store have the types of their
    columns. *)
Theorem bind_type_sound catalog s span out vals :
  bind catalog (s, span) = Ok out → NoDup (statement_params s) →
  Eval.validate_parameters (bo_parameters out) vals = Ok tt →
  ∀ p row, p ∈ statement_exprs (bo_statement out) → row_fits (en_tables p ≫= table_columns) row →
    (∀ part, part ∈ scalar_parts (en_expr p) →
       evaluates (Eval.evaluate part (Eval.mkEvaluationContext row vals)) (sql_type part))
    ∧ (∀ t, en_required p = Some t →
       match Eval.evaluate (en_expr p) (Eval.mkEvaluationContext row vals) with
       | Ok v => of_type t v
       | Err e => overflow_error e
       end).
Proof.
  intros ([b ps] & Hb & <-%Ok_inj)%result_bind_Ok Hnd Hv p row Hp Hrow. cbn in *.
  pose proof (bind_statement_good _ _ _ _ _ _ Hb Hnd) as Hg. unfold goods in Hg. rewrite Forall_forall in Hg.
  destruct (Hg p Hp) as [Ho Ht Hreq Hrec _].
  assert (Forall (param_ok vals) (bparams (en_expr p))) as Hparams
    by (eapply Forall_impl; [exact Hrec|]; intros q; by apply recorded_param_ok).
  split.
  - intros part Hpart. destruct (scalar_part_good _ _ _ Ht Hpart) as (Htp & Hap & Hbp).
    eapply evaluate_typed; [done..|]. rewrite Forall_forall in *. auto.
  - intros t Hr. destruct (Hreq t Hr) as [Hh Ha]. pose proof (evaluate_typed _ _ _ _ Ho Hrow Ht Ha Hparams) as He.
    destruct (Eval.evaluate _ _) as [v|] eqn:Hev; [|done]. by eapply has_value.
Qed.
