(* ===== verification/DbExecutor.v ===== *)
(** * The statement executor: [crates/aster-db/src/executor.rs], [error.rs], [catalog.rs]

    Bound statements run on a transaction of the engine, which they change in
    place: a statement that fails half way leaves in it what it has staged so
    far. *)

From Stdlib Require Import Ascii String.
From S2P Require Import Prelude StorageBytes StoragePage CoreTypes CoreCodec EngineExpr EngineCatalog EngineTxn EngineState SqlAst SqlCatalog SqlPlan SqlEval SqlBinder.

Inductive DatabaseError : Type :=
| DbSql (e : SqlError)
| DbEngine (e : EngineError)
| DbStorage (e : StorageError)
| DbIo (reason : string)
| TransactionNotFound (id : Z)
| TransactionControl (reason : string)
| TransactionAborted (reason : AbortReason)
| RequestRejected (rejection : RequestRejection)
| ResourceLimit (reason : string)
| Corruption (reason : string)
| DbInvariant (reason : string).

Abbreviation dbresult := (result DatabaseError).

(** [?] with the conversions of [From]. *)
Definition from_sql {A} (r : sqlresult A) : dbresult A := map_err DbSql r.
Definition from_engine {A} (r : result EngineError A) : dbresult A := map_err DbEngine r.
Definition from_core {A} (r : result CoreError A) : dbresult A := from_engine (core r).

(** Computations that change a state in place, failing ones included: what
    takes a [&mut] and returns a [Result]. *)
Definition dbio (S A : Type) : Type := S → dbresult A * S.

#[export] Instance dbio_ret {S} : MRet (dbio S) := λ A a s, (Ok a, s).
#[export] Instance dbio_bind {S} : MBind (dbio S) := λ A B f m s,
  match m s with
  | (Ok a, s) => f a s
  | (Err e, s) => (Err e, s)
  end.

Definition db_lift {S A} (r : dbresult A) : dbio S A := λ s, (r, s).
Definition db_err {S A} (e : DatabaseError) : dbio S A := λ s, (Err e, s).

Definition db_read {S A} (f : S → dbresult A) : dbio S A := λ s, (f s, s).

Fixpoint db_foldM {S A B} (f : B → A → dbio S B) (b : B) (l : list A) : dbio S B :=
  match l with
  | [] => mret b
  | a :: l => b ← f b a; db_foldM f b l
  end.

(** A method of the engine that takes [&mut Transaction]: each of them stages its
    change last, so one that fails has not touched the transaction. *)
Definition on_engine {A} (m : Transaction → result EngineError (Transaction * A)) : dbio Transaction A := λ x,
  match m x with
  | Ok (x', a) => (Ok a, x')
  | Err e => (Err (DbEngine e), x)
  end.

(** A computation on a local variable, which an error that is passed on drops. *)
Definition on_local {S A} (m : dbio S A) (s : S) : dbresult (S * A) :=
  match m s with
  | (Ok a, s') => Ok (s', a)
  | (Err e, _) => Err e
  end.

Definition MAX_RESULT_ROWS : Z := 16384.
Definition MAX_INTERMEDIATE_ROWS : Z := 1000000.

(** ** The catalog of a transaction *)

Definition table_def (t : TableMeta) : TableDef := mkTableDef (t_id t) (t_name t) (t_schema t).
Definition index_def (i : IndexMeta) : IndexDef := mkIndexDef (i_id i) (i_name i) (i_table_id i) (i_column i).

Definition staged_tables (l : list CatalogMutation) : list TableDef :=
  omap (λ m, match m with CreateTable t => Some (table_def t) | CreateIndex _ => None end) l.
Definition staged_indexes (l : list CatalogMutation) : list IndexDef :=
  omap (λ m, match m with CreateIndex i => Some (index_def i) | CreateTable _ => None end) l.

(** [EngineCatalog::new]: what is committed, and what the transaction staged. *)
Definition engine_catalog (engine : Engine) (transaction : option Transaction) : SqlCatalog :=
  let mutations := match transaction with Some x => x_catalog_mutations x | None => [] end in
  list_catalog
    (sort_by (λ a b, cmp (td_id a) (td_id b))
       ((table_def ∘ snd <$> btree_map_iter (tables (catalog engine))) ++ staged_tables mutations))
    (sort_by (λ a b, cmp (ix_id a) (ix_id b))
       ((index_def ∘ snd <$> btree_map_iter (indexes (catalog engine))) ++ staged_indexes mutations)).

Module Exec.
Inductive StatementOutput : Type :=
| OutQuery (columns : list string) (rows : list Row)
| OutMutation (affected_rows : Z)
| OutExplain (plan : string).

Record ExecRow : Type := mkExecRow {
  xr_row : Row;
  xr_aggregates : list (BoundExpr * Value)
}.

Definition plain (row : Row) : ExecRow := mkExecRow row [].

(** ** Expressions over rows and computed aggregates *)

Fixpoint contains_aggregate (expression : BoundExpr) : bool :=
  match expression with
  | BAggregateStar _ _ | BAggregate _ _ _ => true
  | BUnary _ expr _ | BIsNull expr _ _ => contains_aggregate expr
  | BBinary left_ _ right_ _ => contains_aggregate left_ || contains_aggregate right_
  | BLiteral _ _ | BParameter _ _ _ | BColumn _ _ => false
  end.

Fixpoint same_expression (left_ right_ : BoundExpr) : bool :=
  match left_, right_ with
  | BLiteral l _, BLiteral r _ => bool_decide (l = r)
  | BParameter l _ _, BParameter r _ _ => l =? r
  | BColumn l _, BColumn r _ => (bc_table_id l =? bc_table_id r) && (bc_column_index l =? bc_column_index r)
  | BUnary lop l _, BUnary rop r _ => bool_decide (lop = rop) && same_expression l r
  | BBinary la lop lb _, BBinary ra rop rb _ =>
      bool_decide (lop = rop) && same_expression la ra && same_expression lb rb
  | BIsNull l ln _, BIsNull r rn _ => bool_decide (ln = rn) && same_expression l r
  | BAggregateStar lf _, BAggregateStar rf _ => bool_decide (lf = rf)
  | BAggregate lf l _, BAggregate rf r _ => bool_decide (lf = rf) && same_expression l r
  | _, _ => false
  end.

Definition type_error (operation : string) (value : Value) (span : Span) : DatabaseError :=
  DbSql (mkSqlError SqlTypeError ("cannot " +:+ operation +:+ " " +:+ type_name value) span).

Definition truth (value : Value) (span : Span) : dbresult TruthValue :=
  match value with
  | VBool false => Ok TvFalse
  | VBool true => Ok TvTrue
  | VNull => Ok TvUnknown
  | other => Err (type_error "use as a predicate" other span)
  end.

Definition compare (left_ : Value) (operator : SqlBinaryOp) (right_ : Value) (span : Span) : dbresult Value :=
  ordering ← map_err (λ e, DbSql (mkSqlError SqlTypeError (CoreError_to_string e) span)) (checked_cmp left_ right_);
  match ordering with
  | None => Ok VNull
  | Some ordering => Ok (VBool (Eval.holds operator ordering))
  end.

Definition negate (value : Value) (span : Span) : dbresult Value :=
  match value with
  | VNull => Ok VNull
  | VInt64 value =>
      value ← ok_or (i64_checked (- value)) (DbSql (mkSqlError ConstraintError "INT64 negation overflow" span));
      Ok (VInt64 value)
  | other => Err (type_error "negate" other span)
  end.

Section Run.
Variable parameters : list Value.

Fixpoint evaluate_exec (expression : BoundExpr) (row : ExecRow) : dbresult Value :=
  if negb (contains_aggregate expression) then
    from_sql (Eval.evaluate expression (Eval.mkEvaluationContext (xr_row row) parameters))
  else
    match expression with
    | BAggregateStar _ _ | BAggregate _ _ _ =>
        ok_or (snd <$> List.find (λ p, same_expression p.1 expression) (xr_aggregates row))
          (DbInvariant "aggregate value was not computed")
    | BUnary op expr span =>
        value ← evaluate_exec expr row;
        match op with
        | SqlNot => t ← truth value span; Ok (Tv.into_value (Tv.not t))
        | SqlNegate => negate value span
        end
    | BBinary left_ op right_ span =>
        left_ ← evaluate_exec left_ row;
        match op with
        | SqlAnd =>
            left_ ← truth left_ span;
            if bool_decide (left_ = TvFalse) then Ok (VBool false) else
            right_ ← evaluate_exec right_ row;
            right_ ← truth right_ span;
            Ok (Tv.into_value (Tv.and left_ right_))
        | SqlOr =>
            left_ ← truth left_ span;
            if bool_decide (left_ = TvTrue) then Ok (VBool true) else
            right_ ← evaluate_exec right_ row;
            right_ ← truth right_ span;
            Ok (Tv.into_value (Tv.or left_ right_))
        | comparison =>
            right_ ← evaluate_exec right_ row;
            compare left_ comparison right_ span
        end
    | BIsNull expr negated _ =>
        value ← evaluate_exec expr row;
        Ok (VBool (if negated then negb (is_null value) else is_null value))
    | BLiteral _ _ | BParameter _ _ _ | BColumn _ _ =>
        Err (DbInvariant "aggregate expression traversal reached an unexpected scalar leaf")
    end.

Definition predicate_exec (expression : BoundExpr) (row : ExecRow) : dbresult bool :=
  if negb (contains_aggregate expression) then
    from_sql (Eval.predicate_matches expression (Eval.mkEvaluationContext (xr_row row) parameters))
  else
    value ← evaluate_exec expression row;
    t ← truth value (b_span expression);
    Ok (bool_decide (t = TvTrue)).

Definition ensure_intermediate_bound (rows : list ExecRow) : dbresult unit :=
  ensure (negb (MAX_INTERMEDIATE_ROWS <? zlen rows))
    (ResourceLimit ("physical plan produced " +:+ pretty (zlen rows) +:+ " intermediate rows; maximum is "
                    +:+ pretty MAX_INTERMEDIATE_ROWS)).

(** ** Joins *)

Definition combine_rows (left_ right_ : ExecRow) : ExecRow :=
  mkExecRow (mkRow (values (xr_row left_) ++ values (xr_row right_))) (xr_aggregates left_ ++ xr_aggregates right_).

Fixpoint plan_tables (plan : PhysicalPlan) : gset Z :=
  match plan with
  | PSeqScan table | PIndexScan table _ _ => {[td_id (bt_table table)]}
  | PFilter input _ | PHashAggregate input _ _ | PSort input _ | PLimit input _ | PProject input _ => plan_tables input
  | PJoin left_ right_ _ _ => plan_tables left_ ∪ plan_tables right_
  end.

Definition hash_join_keys (on : BoundExpr) (right_plan : PhysicalPlan) : option (BoundExpr * Z) :=
  match on with
  | BBinary left_ SqlEq right_ _ =>
      let right_tables := plan_tables right_plan in
      match left_, right_ with
      | BColumn left_column _, BColumn right_column _ =>
          if bool_decide (bc_table_id right_column ∈ right_tables)
             && negb (bool_decide (bc_table_id left_column ∈ right_tables))
          then Some (left_, bc_column_index right_column)
          else if bool_decide (bc_table_id left_column ∈ right_tables)
                  && negb (bool_decide (bc_table_id right_column ∈ right_tables))
          then Some (right_, bc_column_index left_column)
          else None
      | _, _ => None
      end
  | _ => None
  end.

(** One candidate pair. *)
Definition join_pair (on : BoundExpr) (outer : ExecRow) (output : list ExecRow) (inner : ExecRow)
    : dbresult (list ExecRow) :=
  let joined := combine_rows outer inner in
  matches_ ← predicate_exec on joined;
  if matches_ : bool then
    let output := output ++ [joined] in
    _ ← ensure_intermediate_bound output;
    Ok output
  else Ok output.

Definition bucket_row (right_column : Z) (buckets : gmap bytes (list ExecRow)) (row : ExecRow)
    : dbresult (gmap bytes (list ExecRow)) :=
  value ← ok_or (znth (values (xr_row row)) right_column) (DbInvariant "hash-join inner column is outside row");
  if is_null value then Ok buckets else
  key ← from_core (Codec.encode_value value);
  Ok (<[key := default [] (buckets !! key) ++ [row]]> buckets).

Definition probe_row (on left_key : BoundExpr) (buckets : gmap bytes (list ExecRow)) (output : list ExecRow)
    (outer : ExecRow) : dbresult (list ExecRow) :=
  value ← evaluate_exec left_key outer;
  if is_null value then Ok output else
  key ← from_core (Codec.encode_value value);
  match buckets !! key with
  | Some candidates => foldM (join_pair on outer) output candidates
  | None => Ok output
  end.

Definition uses_buckets (algorithm : JoinAlgorithm) : bool :=
  match algorithm with Hash | IndexNestedLoop _ _ => true | NestedLoop => false end.

(** [right_] is what [execute_plan] makes of [right_plan], looked at after the
    left rows. *)
Definition execute_join (left_ : list ExecRow) (right_ : dbresult (list ExecRow)) (right_plan : PhysicalPlan)
    (on : BoundExpr) (algorithm : JoinAlgorithm) : dbresult (list ExecRow) :=
  match (if uses_buckets algorithm then hash_join_keys on right_plan else None) with
  | Some (left_key, right_column) =>
      right_ ← right_;
      buckets ← foldM (bucket_row right_column) ∅ right_;
      foldM (probe_row on left_key buckets) [] left_
  | None =>
      right_ ← right_;
      foldM (λ output outer, foldM (join_pair on outer) output right_) [] left_
  end.

(** ** Aggregates *)

Definition sum_row (argument : BoundExpr) (span : Span) (sum : option Z) (row : ExecRow) : dbresult (option Z) :=
  value ← evaluate_exec argument row;
  match value with
  | VNull => Ok sum
  | VInt64 value =>
      total ← ok_or (i64_checked (default 0 sum + value)) (DbSql (mkSqlError ConstraintError "INT64 SUM overflow" span));
      Ok (Some total)
  | other => Err (type_error "SUM" other span)
  end.

(** [value.checked_cmp(current).ok().flatten()] *)
Definition cmp_ok (left_ right_ : Value) : option comparison :=
  match checked_cmp left_ right_ with Ok o => o | Err _ => None end.

Definition select_row (wanted : comparison) (argument : BoundExpr) (selected : option Value) (row : ExecRow)
    : dbresult (option Value) :=
  value ← evaluate_exec argument row;
  if is_null value then Ok selected else
  let replace :=
    match selected with
    | None => true
    | Some current => bool_decide (cmp_ok value current = Some wanted)
    end in
  Ok (if replace then Some value else selected).

Definition count_value (count : Z) : dbresult Value :=
  count ← ok_or (i64_checked count) (ResourceLimit "COUNT exceeds INT64");
  Ok (VInt64 count).

Definition compute_aggregate (expression : BoundExpr) (rows : list ExecRow) : dbresult Value :=
  match expression with
  | BAggregateStar AggCount _ => count_value (zlen rows)
  | BAggregate AggCount argument _ =>
      vals ← mapM_result (evaluate_exec argument) rows;
      count_value (zlen (List.filter (λ value, negb (is_null value)) vals))
  | BAggregateStar AggSum _ => Err (DbInvariant "SUM is missing its argument")
  | BAggregate AggSum argument span =>
      sum ← foldM (sum_row argument span) None rows;
      Ok (match sum with Some sum => VInt64 sum | None => VNull end)
  | BAggregateStar (AggMin | AggMax) _ => Err (DbInvariant "MIN/MAX is missing its argument")
  | BAggregate AggMin argument _ =>
      selected ← foldM (select_row Lt argument) None rows;
      Ok (default VNull selected)
  | BAggregate AggMax argument _ =>
      selected ← foldM (select_row Gt argument) None rows;
      Ok (default VNull selected)
  | _ => Err (DbInvariant "aggregate plan contains a scalar expression")
  end.

Definition group_row (group_by : list BoundExpr) (groups : gmap bytes (list ExecRow)) (row : ExecRow)
    : dbresult (gmap bytes (list ExecRow)) :=
  vals ← mapM_result (λ expression, evaluate_exec expression row) group_by;
  key ← from_core (Codec.encode_row (mkRow vals));
  Ok (<[key := default [] (groups !! key) ++ [row]]> groups).

Definition aggregate_group (aggregates : list BoundExpr) (rows : list ExecRow) : dbresult ExecRow :=
  let representative := match rows with row :: _ => xr_row row | [] => mkRow [] end in
  computed ← mapM_result (λ aggregate, value ← compute_aggregate aggregate rows; Ok (aggregate, value)) aggregates;
  Ok (mkExecRow representative computed).

Definition aggregate_rows (input : list ExecRow) (group_by aggregates : list BoundExpr) : dbresult (list ExecRow) :=
  groups ← foldM (group_row group_by) ∅ input;
  let groups := if bool_decide (groups = ∅) && is_empty group_by then {[ [] := [] ]} else groups in
  mapM_result (aggregate_group aggregates) (snd <$> btree_map_iter groups).

(** ** Sorting *)

Definition compare_sort_values (left_ right_ : Value) : comparison :=
  match left_, right_ with
  | VNull, VNull => Eq
  | VNull, _ => Gt
  | _, VNull => Lt
  | _, _ => default Eq (cmp_ok left_ right_)
  end.

Fixpoint compare_keys (order_by : list BoundOrder) (left_ right_ : list Value) : comparison :=
  match left_, right_, order_by with
  | l :: left_, r :: right_, order :: order_by =>
      let comparison := compare_sort_values l r in
      let comparison := match bo_direction order with Asc => comparison | Desc => CompOpp comparison end in
      match comparison with
      | Eq => compare_keys order_by left_ right_
      | _ => comparison
      end
  | _, _, _ => Eq
  end.

Definition sort_rows (input : list ExecRow) (order_by : list BoundOrder) : dbresult (list ExecRow) :=
  keyed ← mapM_result (λ row, keys ← mapM_result (λ order, evaluate_exec (bo_expr order) row) order_by; Ok (row, keys)) input;
  Ok (fst <$> sort_by (λ left_ right_, compare_keys order_by left_.2 right_.2) keyed).

(** ** Plans *)

Definition filter_row (predicate : BoundExpr) (row : ExecRow) : dbresult (list ExecRow) :=
  matches_ ← predicate_exec predicate row;
  Ok (if matches_ : bool then [row] else []).

Definition limit_value (limit : BoundExpr) : dbresult Z :=
  value ← evaluate_exec limit (plain (mkRow []));
  match value with
  | VInt64 value =>
      if 0 <=? value then ok_or (usize_try_from value) (ResourceLimit "LIMIT does not fit this platform")
      else Err (DbSql (mkSqlError ConstraintError "LIMIT must evaluate to a non-negative INT64" (b_span limit)))
  | _ => Err (DbSql (mkSqlError ConstraintError "LIMIT must evaluate to a non-negative INT64" (b_span limit)))
  end.

Definition project_row (expressions : list NamedExpr) (row : ExecRow) : dbresult ExecRow :=
  vals ← mapM_result (λ expression, evaluate_exec (ne_expr expression) row) expressions;
  Ok (plain (mkRow vals)).

Section Plans.
Variable engine : Engine.
Variable transaction : Transaction.

Fixpoint execute_plan (plan : PhysicalPlan) : dbresult (list ExecRow) :=
  rows ←
    match plan with
    | PSeqScan table =>
        rows ← from_engine (scan_table engine transaction (td_id (bt_table table)));
        Ok (List.map plain rows)
    | PIndexScan table index constraint =>
        value ← evaluate_exec (ic_value constraint) (plain (mkRow []));
        rows ← from_engine
          (if bool_decide (ic_operator constraint = SqlEq) && negb (is_null value)
           then scan_secondary engine transaction (ix_id index) value
           else scan_table engine transaction (td_id (bt_table table)));
        Ok (List.map plain rows)
    | PFilter input predicate =>
        rows ← execute_plan input;
        kept ← mapM_result (filter_row predicate) rows;
        Ok (concat kept)
    | PJoin left_ right_ on algorithm =>
        rows ← execute_plan left_;
        execute_join rows (execute_plan right_) right_ on algorithm
    | PHashAggregate input group_by aggregates =>
        rows ← execute_plan input;
        aggregate_rows rows group_by aggregates
    | PSort input order_by =>
        rows ← execute_plan input;
        sort_rows rows order_by
    | PLimit input limit =>
        rows ← execute_plan input;
        limit ← limit_value limit;
        Ok (ztake limit rows)
    | PProject input expressions =>
        rows ← execute_plan input;
        mapM_result (project_row expressions) rows
    end;
  _ ← ensure_intermediate_bound rows;
  Ok rows.
End Plans.

(** ** Statements *)

Definition primary_key_column (table : TableDef) : dbresult Z :=
  ok_or (fst <$> List.find (λ p, primary_key p.2) (enumerate (columns (td_schema table))))
    (DbInvariant ("table `" +:+ td_name table +:+ "` has no primary key")).

Definition unwrap_or_false (r : dbresult bool) : bool := match r with Ok b => b | Err _ => false end.

(** Whether a row is passed over: the predicate is not TRUE.  An error of the
    predicate is raised by the second evaluation. *)
Definition skips (selection : option BoundExpr) (exec : ExecRow) : dbresult bool :=
  match selection with
  | None => Ok false
  | Some predicate =>
      if negb (unwrap_or_false (predicate_exec predicate exec)) then
        _ ← predicate_exec predicate exec;
        Ok true
      else Ok false
  end.

Definition assign (exec : ExecRow) (updated : Row) (a : Z * BoundExpr) : dbresult Row :=
  value ← evaluate_exec a.2 exec;
  _ ← ensure (bool_decide (is_Some (znth (values updated) a.1)))
        (DbInvariant ("UPDATE target column " +:+ pretty a.1 +:+ " is outside row"));
  Ok (mkRow (<[Z.to_nat a.1 := value]> (values updated))).

Definition key_of (primary_key : Z) (row : Row) : dbresult Value :=
  ok_or (znth (values row) primary_key) (DbInvariant "primary-key slot is outside row").

Definition update_one (engine : Engine) (table : TableDef) (primary_key : Z) (assignments : list (Z * BoundExpr))
    (selection : option BoundExpr) (affected : Z) (original : Row) : dbio Transaction Z :=
  let exec := plain original in
  skip ← db_lift (skips selection exec);
  if skip : bool then mret affected else
  updated ← db_lift (foldM (assign exec) original assignments);
  key ← db_lift (key_of primary_key original);
  changed ← on_engine (λ x, update engine x (td_id table) key updated);
  mret (if changed : bool then affected + 1 else affected).

Definition delete_one (engine : Engine) (table : TableDef) (primary_key : Z) (selection : option BoundExpr)
    (affected : Z) (row : Row) : dbio Transaction Z :=
  skip ← db_lift (skips selection (plain row));
  if skip : bool then mret affected else
  key ← db_lift (key_of primary_key row);
  changed ← on_engine (λ x, delete_row engine x (td_id table) key);
  mret (if changed : bool then affected + 1 else affected).

Definition execute_bound (engine : Engine) (statement : BoundStatement) (physical_plan : option PhysicalPlan)
    : dbio Transaction StatementOutput :=
  match statement with
  | BsCreateTable name schema =>
      _ ← on_engine (λ x, create_table engine x name schema);
      mret (OutMutation 0)
  | BsCreateIndex name table column_index =>
      _ ← on_engine (λ x, create_index engine x name (td_id table) column_index);
      mret (OutMutation 0)
  | BsInsert table vals =>
      vals ← db_lift (mapM_result (λ expression, evaluate_exec expression (plain (mkRow []))) vals);
      _ ← on_engine (λ x, x ← insert_row engine x (td_id table) (mkRow vals); Ok (x, tt));
      mret (OutMutation 1)
  | BsUpdate table assignments selection =>
      rows ← db_read (λ x, from_engine (scan_table engine x (td_id table)));
      primary_key ← db_lift (primary_key_column table);
      affected ← db_foldM (update_one engine table primary_key assignments selection) 0 rows;
      mret (OutMutation affected)
  | BsDelete table selection =>
      rows ← db_read (λ x, from_engine (scan_table engine x (td_id table)));
      primary_key ← db_lift (primary_key_column table);
      affected ← db_foldM (delete_one engine table primary_key selection) 0 rows;
      mret (OutMutation affected)
  | BsQuery _ output =>
      plan ← db_lift (ok_or physical_plan (DbInvariant "query has no optimized physical plan"));
      rows ← db_read (λ x, execute_plan engine x plan);
      _ ← db_lift (ensure (negb (MAX_RESULT_ROWS <? zlen rows))
            (ResourceLimit ("query produced " +:+ pretty (zlen rows) +:+ " rows; maximum is "
                            +:+ pretty MAX_RESULT_ROWS)));
      mret (OutQuery (List.map ne_name output) (List.map xr_row rows))
  | BsExplain _ => db_err (DbInvariant "EXPLAIN must be handled before execution")
  | BsTransaction _ => db_err (DbInvariant "transaction control must be handled by Database")
  end.
End Run.

Definition explain_statement (statement : BoundStatement) (physical_plan : option PhysicalPlan)
    : dbresult StatementOutput :=
  description ←
    match statement with
    | BsQuery _ _ =>
        plan ← ok_or physical_plan (DbInvariant "EXPLAIN query has no physical plan");
        Ok (Plan.explain_physical plan)
    | BsCreateTable name _ => Ok ("CreateTable name=" +:+ name +:+ Plan.newline)
    | BsCreateIndex name table _ => Ok ("CreateIndex name=" +:+ name +:+ " table=" +:+ td_name table +:+ Plan.newline)
    | BsInsert table _ => Ok ("Insert table=" +:+ td_name table +:+ Plan.newline)
    | BsUpdate table _ _ => Ok ("Update table=" +:+ td_name table +:+ Plan.newline)
    | BsDelete table _ => Ok ("Delete table=" +:+ td_name table +:+ Plan.newline)
    | BsExplain _ | BsTransaction _ => Err (DbInvariant "invalid nested EXPLAIN target")
    end;
  Ok (OutExplain description).
End Exec.
