(* ===== verification/DbOptimize.v ===== *)
(** * The optimizer and the executor

    The reference meaning of a logical plan is its execution without indexes
    and hash tables: sequential scans and nested loops.  The optimized plan
    returns the same rows. *)

From Stdlib Require Import Ascii String.
From S2P Require Import Prelude StorageBytes StoragePage CoreTypes CoreCodec EngineExpr EngineCatalog EngineTxn EngineState EngineChains EngineInv EngineCommit EngineSteps EngineProps EngineReads EngineLive SqlAst SqlCatalog SqlPlan SqlEval SqlBinder SqlTyping SqlBinding DbExecutor.
Import Exec.

(** ** The reference *)

Fixpoint reference (plan : LogicalPlan) : PhysicalPlan :=
  match plan with
  | LScan table => PSeqScan table
  | LFilter input predicate => PFilter (reference input) predicate
  | LJoin left_ right_ on => PJoin (reference left_) (reference right_) on NestedLoop
  | LAggregate input group_by aggregates => PHashAggregate (reference input) group_by aggregates
  | LSort input order_by => PSort (reference input) order_by
  | LLimit input limit => PLimit (reference input) limit
  | LProject input expressions => PProject (reference input) expressions
  end.

(** The same result, or the one error that index keys and hash keys add: a value
    above the size limit of encoded values. *)
Definition agrees {A} (a : A) (r : dbresult A) : Prop :=
  r = Ok a ∨ ∃ m, r = Err (DbEngine (Core (LimitExceeded m))).

Lemma agrees_Ok {A} (a : A) : agrees a (Ok a).
Proof. by left. Qed.

Lemma agrees_bind {A B} (a : A) (r : dbresult A) (f : A → dbresult B) (b : B) :
  agrees a r → agrees b (f a) → agrees b (r ≫= f).
Proof. intros [->|[m ->]] Hf; [done|]. right. by exists m. Qed.

Lemma encode_value_agrees v : (∃ k, from_core (Codec.encode_value v) = Ok k) ∨
  ∃ m, from_core (Codec.encode_value v) = Err (DbEngine (Core (LimitExceeded m))).
Proof.
  assert (∀ l, (∃ b, Codec.encode_bytes l = Ok b) ∨ ∃ m, Codec.encode_bytes l = Err (LimitExceeded m)) as Hb.
  { intros l. unfold Codec.encode_bytes, ensure. destruct (MAX_VALUE_BYTES <? zlen l); cbn; [by right; eexists|].
    destruct (u32_try_from (zlen l)); cbn; [by left; eexists|by right; eexists]. }
  destruct v as [|z|[]|s|l]; cbn; try (by left; eexists).
  - destruct (Hb (as_bytes s)) as [[b ->]|[m ->]]; [by left; eexists|by right; eexists].
  - destruct (Hb l) as [[b ->]|[m ->]]; [by left; eexists|by right; eexists].
Qed.

(** ** Predicates that are TRUE *)

Lemma cmp_equal a b : checked_cmp a b = Ok (Some Eq) → a = b ∧ is_null a = false.
Proof.
  intros H. pose proof (value_order_checked_cmp _ _ _ H) as Ho. apply value_order_eq in Ho as <-. split; [done|].
  by destruct a.
Qed.

Lemma equality_true l r s ctx :
  Eval.evaluate (BBinary l SqlEq r s) ctx = Ok (VBool true) →
  ∃ v, Eval.evaluate l ctx = Ok v ∧ Eval.evaluate r ctx = Ok v ∧ is_null v = false.
Proof.
  cbn [Eval.evaluate]. intros (v & Hv & (w & Hw & Hc)%result_bind_Ok)%result_bind_Ok. unfold Eval.compare in Hc.
  apply result_bind_Ok in Hc as ([o|] & Ho & Hc); [|done]. destruct (checked_cmp v w) as [o'|] eqn:Hcmp; [|done].
  injection Ho as ->. injection Hc as Ht. destruct o; try done. apply cmp_equal in Hcmp as [<- Hn]. eauto.
Qed.

Lemma conjunction_true l r s ctx :
  Eval.evaluate (BBinary l SqlAnd r s) ctx = Ok (VBool true) →
  Eval.evaluate l ctx = Ok (VBool true) ∧ Eval.evaluate r ctx = Ok (VBool true).
Proof.
  cbn [Eval.evaluate]. intros (v & -> & (a & Ha & Hr)%result_bind_Ok)%result_bind_Ok.
  case_bool_decide; [done|]. apply result_bind_Ok in Hr as (w & -> & (b & Hb & Ho)%result_bind_Ok).
  injection Ho as Ho. unfold Eval.truth in Ha, Hb.
  destruct v as [|z|[]|t|t]; try done; destruct w as [|z'|[]|t'|t']; try done; injection Ha as <-; injection Hb as <-; done.
Qed.

Lemma contains_has e : contains_aggregate e = has_aggregate e.
Proof. induction e; cbn; congruence. Qed.

Lemma predicate_true vals p row :
  has_aggregate p = false → predicate_exec vals p row = Ok true →
  Eval.evaluate p (Eval.mkEvaluationContext (xr_row row) vals) = Ok (VBool true).
Proof.
  intros Ha. unfold predicate_exec. rewrite contains_has, Ha. cbn [negb]. unfold from_sql, Eval.predicate_matches.
  destruct (Eval.evaluate p _) as [v|]; [|done]. cbn. unfold Eval.truth.
  by destruct v as [|z|[]|s|l].
Qed.

(** ** Rows left out *)

Lemma filter_rows_skip vals p (keep : ExecRow → bool) rows kept :
  mapM_result (filter_row vals p) rows = Ok kept →
  (∀ row, row ∈ rows → keep row = false → predicate_exec vals p row ≠ Ok true) →
  ∃ kept', mapM_result (filter_row vals p) (List.filter keep rows) = Ok kept' ∧ concat kept' = concat kept.
Proof.
  revert kept. induction rows as [|row rows IH]; intros kept; cbn [mapM_result List.filter]; [intros <-%Ok_inj; eauto|].
  intros (k & Hk & (ks & Hks & <-%Ok_inj)%result_bind_Ok)%result_bind_Ok Hskip.
  destruct (IH ks Hks) as (kept' & Hkept & Hc); [intros; apply Hskip; [by right|done]|].
  destruct (keep row) eqn:Hkeep.
  - exists (k :: kept'). cbn [mapM_result]. rewrite Hk, Hkept. cbn. split; [done|]. by rewrite Hc.
  - exists kept'. split; [done|]. cbn [concat]. rewrite Hc. unfold filter_row in Hk.
    apply result_bind_Ok in Hk as ([] & Hp & <-%Ok_inj); [|done]. by apply Hskip in Hp; [|left|].
Qed.

Lemma join_pairs_skip vals on outer (keep : ExecRow → bool) inner : ∀ out out',
  foldM (join_pair vals on outer) out inner = Ok out' →
  (∀ row, row ∈ inner → keep row = false → predicate_exec vals on (combine_rows outer row) ≠ Ok true) →
  foldM (join_pair vals on outer) out (List.filter keep inner) = Ok out'.
Proof.
  induction inner as [|row inner IH]; intros out out'; cbn [foldM List.filter]; [done|].
  intros (out1 & Hp & Hf)%result_bind_Ok Hskip.
  specialize (IH _ _ Hf (λ r Hr, Hskip r (list_elem_of_further _ _ _ Hr))).
  destruct (keep row) eqn:Hk.
  - cbn [foldM]. rewrite Hp. done.
  - unfold join_pair in Hp. apply result_bind_Ok in Hp as ([] & Hb & Ho).
    + by apply Hskip in Hb; [|left|].
    + by injection Ho as ->.
Qed.

Lemma bounded_filter (keep : ExecRow → bool) rows :
  ensure_intermediate_bound rows = Ok tt → ensure_intermediate_bound (List.filter keep rows) = Ok tt.
Proof.
  unfold ensure_intermediate_bound. rewrite !ensure_Ok, !negb_true_iff, !Z.ltb_ge. unfold zlen.
  pose proof (filter_length_le keep rows). lia.
Qed.

(** ** The chosen index *)

Definition constant (v : BoundExpr) : Prop :=
  match v with BLiteral _ _ | BParameter _ _ _ => True | _ => False end.

Lemma constant_eval v ctx ctx' :
  constant v → Eval.ctx_parameters ctx = Eval.ctx_parameters ctx' → Eval.evaluate v ctx = Eval.evaluate v ctx'.
Proof. destruct v; cbn; try done. by intros _ ->. Qed.

Lemma column_eval c s ctx v : Eval.evaluate (BColumn c s) ctx = Ok v → znth (values (Eval.ctx_row ctx)) (bc_input_slot c) = Some v.
Proof. cbn. intros (w & Hw%ok_or_Ok & (u & _ & <-%Ok_inj)%result_bind_Ok)%result_bind_Ok. done. Qed.

Lemma sargable_spec p c op v :
  Plan.sargable p = Some (c, op, v) →
  constant v ∧ (∀ i, i ∈ bparams v → i ∈ bparams p) ∧ (∀ tables, typed tables p → located tables c)
  ∧ ∀ ctx, op = SqlEq → Eval.evaluate p ctx = Ok (VBool true) →
      ∃ w, Eval.evaluate v ctx = Ok w ∧ znth (values (Eval.ctx_row ctx)) (bc_input_slot c) = Some w.
Proof.
  destruct p as [| | | |l o r s| | |]; try done. cbn [Plan.sargable]. destruct (is_comparison o) eqn:Ho; [|done].
  assert (∀ ctx, o = SqlEq → Eval.evaluate (BBinary l o r s) ctx = Ok (VBool true) →
    ∃ v, Eval.evaluate l ctx = Ok v ∧ Eval.evaluate r ctx = Ok v) as Heq.
  { intros ctx -> (w & ? & ? & _)%equality_true. eauto. }
  assert (Plan.reverse_comparison o = SqlEq → o = SqlEq) as Hrev by (by destruct o).
  destruct l as [v0 s0|i0 t0 s0|c0 s0| | | | |], r as [v1 s1|i1 t1 s1|c1 s1| | | | |]; try done;
    try (destruct (is_null _); [done|]); intros [= <- <- <-];
    (split; [done|]; split; [set_solver|]; split; [by intros tables (? & ? & _)|]);
    intros ctx Hop Ht; destruct (Heq ctx ltac:(auto) Ht) as (w & Hl & Hr); exists w;
    (split; [done|]); by eapply column_eval.
Qed.

Lemma choose_conjunct_spec catalog t p ix c :
  Plan.choose_conjunct catalog t p = Some (ix, c) →
  ix ∈ indexes_for_table catalog (td_id (bt_table t)) ∧ constant (ic_value c)
  ∧ (∀ i, i ∈ bparams (ic_value c) → i ∈ bparams p)
  ∧ (typed [t] p → bt_slot_offset t = 0 → ic_operator c = SqlEq → ∀ ctx, Eval.evaluate p ctx = Ok (VBool true) →
     ∃ w, Eval.evaluate (ic_value c) ctx = Ok w ∧ znth (values (Eval.ctx_row ctx)) (ix_column_index ix) = Some w).
Proof.
  unfold Plan.choose_conjunct. intros ([[col op] v] & Hs & Hc)%bind_Some.
  destruct (Z.eqb_spec (bc_table_id col) (td_id (bt_table t))) as [Hid|]; [|done].
  apply bind_Some in Hc as (ix' & Hf & [= -> <-]). apply find_some in Hf as [Hin Hcol%Z.eqb_eq]. apply list_elem_of_In in Hin.
  destruct (sargable_spec _ _ _ _ Hs) as (H1 & H2 & H3 & H4). cbn. split_and!; try done.
  intros Hty H0 -> ctx Ht. destruct (H4 ctx eq_refl Ht) as (w & Hw & Hn). exists w. split; [done|].
  destruct (H3 _ Hty) as (t' & Ht'%list_elem_of_singleton & _ & Hslot & _). subst t'. rewrite Hslot, H0 in Hn. by rewrite Hcol.
Qed.

Lemma choose_index_spec catalog t p ix c :
  Plan.choose_index catalog t p = Some (ix, c) →
  ix ∈ indexes_for_table catalog (td_id (bt_table t)) ∧ constant (ic_value c)
  ∧ (∀ i, i ∈ bparams (ic_value c) → i ∈ bparams p)
  ∧ (typed [t] p → bt_slot_offset t = 0 → ic_operator c = SqlEq → ∀ ctx, Eval.evaluate p ctx = Ok (VBool true) →
     ∃ w, Eval.evaluate (ic_value c) ctx = Ok w ∧ znth (values (Eval.ctx_row ctx)) (ix_column_index ix) = Some w).
Proof.
  induction p as [v s|i ty s|cl s|op p IH s|l IHl op r IHr s|p IH n s|f s|f a IH s]; cbn [Plan.choose_index];
    try apply choose_conjunct_spec.
  destruct op; try apply choose_conjunct_spec.
  destruct (Plan.choose_index catalog t l) as [[ix' c']|].
  - intros [= -> ->]. destruct (IHl eq_refl) as (H1 & H2 & H3 & H4). split_and!; try done.
    + intros i Hi. apply elem_of_app. auto.
    + intros (Hl & _ & _) H0 Hop ctx [Htl _]%conjunction_true. auto.
  - intros Hr. destruct (IHr Hr) as (H1 & H2 & H3 & H4). split_and!; try done.
    + intros i Hi. apply elem_of_app. auto.
    + intros (_ & Ht & _) H0 Hop ctx [_ Htr]%conjunction_true. auto.
Qed.

Section Plans.
Variable vals : list Value.
Variable e : Engine.
Variable x : Transaction.
Hypothesis Hwf : engine_wf e.
Hypothesis Hst : staged_ok e x.

(** ** What scans return *)

Lemma read_row_fits k row tb :
  read_key e x k = Some row → table_for_transaction e x (k_table_id k) = Ok tb → row_fits (columns (t_schema tb)) row.
Proof.
  intros Hr Htb. rewrite read_key_row_at in Hr. unfold Txn.overlay in Hr.
  destruct (x_writes x !! k) as [w|] eqn:Hw; cbn in Hr.
  - destruct (so_writes _ _ Hst _ _ Hw) as (t & Ht & _ & Hm).
    pose proof (tw_writes _ (so_wf _ _ Hst) _ _ Hw) as Hk.
    assert (w_table_id w = k_table_id k) as Hid.
    { unfold logical_key, Key.new in Hk. by apply result_bind_Ok in Hk as (b & _ & <-%Ok_inj). }
    rewrite Hid, Htb in Ht. apply Ok_inj in Ht as <-. destruct (w_mutation w); [|done]. injection Hr as ->.
    destruct Hm as [Hv _]. by apply validate_row_ok in Hv as [_ ?].
  - unfold row_at in Hr. apply bind_Some in Hr as (v & Hv & Hrow). apply bind_Some in Hv as (vs & Hvs & Hv).
    apply List.find_some in Hv as [Hin _]. apply list_elem_of_In in Hin.
    destruct (ew_rows _ Hwf _ _ _ _ Hvs Hin Hrow) as (t & pk & Ht & Hval & _).
    destruct (table_for_transaction_origin e x _ tb (ew_catalog _ Hwf) Htb) as [Hid [Hc|Hstaged]].
    + rewrite Ht in Hc. injection Hc as <-. by apply validate_row_ok in Hval as [_ ?].
    + destruct (mr_tables _ _ (so_ready _ _ Hst) _ Hstaged) as [_ Hnone _]. rewrite Hid, Ht in Hnone. done.
Qed.

Lemma scan_rows_fit t rows tb :
  scan_table e x t = Ok rows → table_for_transaction e x t = Ok tb → Forall (row_fits (columns (t_schema tb))) rows.
Proof.
  intros (u & _ & (tb' & _ & <-%Ok_inj)%result_bind_Ok)%result_bind_Ok Htb. apply Forall_forall. intros row Hin.
  apply list_elem_of_omap in Hin as (k & Hk%elem_of_btree_set_iter & Hr). apply (read_row_fits k row tb Hr).
  rewrite <- Htb. f_equal. unfold keys_of_writes in Hk. set_solver.
Qed.

(** ** Catalogs of the engine *)

Definition known_table (t : BoundTable) : Prop :=
  ∃ tb, table_for_transaction e x (td_id (bt_table t)) = Ok tb ∧ t_schema tb = td_schema (bt_table t).

Lemma planning_index id ix :
  ix ∈ indexes_for_table (engine_catalog e None) id →
  ∃ i, indexes (catalog e) !! i_id i = Some i ∧ ix = index_def i ∧ i_table_id i = id.
Proof.
  cbn. rewrite app_nil_r. intros Hin. apply list_elem_of_In, filter_In in Hin as [Hin Hid%Z.eqb_eq].
  apply list_elem_of_In in Hin. rewrite sort_by_perm in Hin. apply list_elem_of_fmap in Hin as ([k i] & -> & Hi%elem_of_btree_map_iter).
  cbn in *. destruct (cat_indexes _ (ew_catalog _ Hwf) _ _ Hi) as [Hk _]. exists i. by rewrite Hk.
Qed.

Lemma binding_table name td alias n :
  resolve_table (engine_catalog e (Some x)) name = Some td → known_table (mkBoundTable td alias n).
Proof.
  cbn. intros [Hin _]%find_some. apply list_elem_of_In in Hin. rewrite sort_by_perm in Hin.
  unfold known_table. cbn. apply elem_of_app in Hin as [Hin|Hin].
  - apply list_elem_of_fmap in Hin as ([k t] & -> & Hi%elem_of_btree_map_iter). cbn.
    destruct (cat_tables _ (ew_catalog _ Hwf) _ _ Hi) as [Hk _]. exists t. split; [|done].
    unfold table_for_transaction, Cat.table. rewrite Hk.
    destruct (Txn.staged_table x k) as [u|] eqn:Hs; [|by rewrite Hi].
    apply staged_table_Some in Hs as [Hu Hid]. destruct (mr_tables _ _ (so_ready _ _ Hst) _ Hu) as [_ Hnone _].
    rewrite Hid, Hi in Hnone. done.
  - apply list_elem_of_omap in Hin as (m & Hm & Htd). destruct m as [t|]; [|done]. injection Htd as <-. cbn.
    exists t. split; [|done]. unfold table_for_transaction.
    rewrite (proj2 (staged_table_iff x t (so_wf _ _ Hst)) Hm). done.
Qed.

(** ** Index scans *)

(** An expression with its place, and its parameters in range. *)
Definition entry_ok (p : entry) : Prop :=
  offsets_from 0 (en_tables p) ∧ typed (en_tables p) (en_expr p)
  ∧ (∀ t, en_required p = Some t → has t (en_expr p) ∧ has_aggregate (en_expr p) = false)
  ∧ Forall (param_ok vals) (bparams (en_expr p)).

Lemma constant_exec v row :
  constant v → Forall (param_ok vals) (bparams v) →
  ∃ w, evaluate_exec vals v row = Ok w ∧ ∀ r, Eval.evaluate v (Eval.mkEvaluationContext r vals) = Ok w.
Proof.
  destruct v as [v s|i t s| | | | | |]; cbn; try done; [eauto|]. intros _ [(w & Hw & Ht) _]%Forall_cons. exists w.
  cbn in Hw. rewrite Hw. cbn. cbn in Ht.
  assert (Eval.ensure_runtime_type w t s = Ok tt) as ->; [|done]. unfold Eval.ensure_runtime_type.
  destruct t as [t|]; [|done]. destruct (data_type w) as [d|]; [|done]. rewrite bool_decide_eq_true_2 by naive_solver. done.
Qed.

Lemma map_filter_plain (f : Row → bool) rows :
  List.map plain (List.filter f rows) = List.filter (λ r, f (xr_row r)) (List.map plain rows).
Proof. induction rows as [|r rows IH]; cbn; [done|]. destruct (f r); cbn; by rewrite IH. Qed.

Lemma execute_bounded plan rows : execute_plan vals e x plan = Ok rows → ensure_intermediate_bound rows = Ok tt.
Proof. destruct plan; cbn [execute_plan]; intros (r & _ & ([] & Hb & <-%Ok_inj)%result_bind_Ok)%result_bind_Ok; done. Qed.

Lemma seq_scan_rows t rows :
  execute_plan vals e x (PSeqScan t) = Ok rows →
  ∃ all, scan_table e x (td_id (bt_table t)) = Ok all ∧ rows = List.map plain all.
Proof.
  cbn [execute_plan]. intros (r & (all & Hall & <-%Ok_inj)%result_bind_Ok & (u & _ & <-%Ok_inj)%result_bind_Ok)%result_bind_Ok.
  exists all. split; [|done]. unfold from_engine in Hall. destruct (scan_table e x _); [|done]. by injection Hall as ->.
Qed.

Lemma index_scan_agrees t p ix c rows kept :
  Plan.choose_index (engine_catalog e None) t p = Some (ix, c) → entry_ok (mkEntry [t] (Some Bool) p) →
  execute_plan vals e x (PSeqScan t) = Ok rows → mapM_result (filter_row vals p) rows = Ok kept →
  ∃ rows', agrees rows' (execute_plan vals e x (PIndexScan t ix c))
    ∧ ∃ kept', mapM_result (filter_row vals p) rows' = Ok kept' ∧ concat kept' = concat kept.
Proof.
  intros Hc (Ho & Hty & Hreq & Hpar) Hscan Hkept. cbn in Ho, Hty, Hreq, Hpar. destruct Ho as [Ho _].
  destruct (Hreq Bool eq_refl) as [_ Hagg]. destruct (choose_index_spec _ _ _ _ _ Hc) as (Hin & Hconst & Hsub & Htrue).
  destruct (constant_exec (ic_value c) (plain (mkRow [])) Hconst) as (w & Hw & Hw').
  { rewrite Forall_forall in *. auto. }
  pose proof (execute_bounded _ _ Hscan) as Hbound. destruct (seq_scan_rows _ _ Hscan) as (all & Hall & ->).
  cbn [execute_plan]. rewrite Hw. cbn [mbind result_bind].
  destruct (bool_decide (ic_operator c = SqlEq) && negb (is_null w)) eqn:Hb.
  - bool_prop. destruct (planning_index _ _ Hin) as (i & Hi & -> & Hid). cbn [ix_id index_def].
    rewrite (scan_secondary_filter e x i w all Hwf Hi (so_read _ _ Hst) ltac:(done) ltac:(by rewrite Hid)).
    exists (List.map plain (List.filter (row_matches i w) all)). split.
    + destruct (encode_value_agrees w) as [[k Hk]|[m Hm]]; unfold from_core, from_engine in *.
      * destruct (core (Codec.encode_value w)) as [b|]; [|done]. left. cbn.
        rewrite map_filter_plain, bounded_filter by done. done.
      * right. exists m. destruct (core (Codec.encode_value w)); [done|]. cbn in *. by injection Hm as ->.
    + rewrite map_filter_plain. apply filter_rows_skip; [done|]. intros row _ Hkeep Hp.
      apply predicate_true in Hp; [|done]. destruct (Htrue Hty Ho ltac:(done) _ Hp) as (w' & Hv & Hn).
      rewrite Hw' in Hv. injection Hv as <-. unfold row_matches in Hkeep. bool_prop. done.
  - exists (List.map plain all). split; [|eauto]. left. rewrite Hall. cbn. by rewrite Hbound.
Qed.

(** ** Hash joins *)

(** The rows of the bucket [key]. *)
Definition in_bucket (column : Z) (key : bytes) (row : ExecRow) : bool :=
  match znth (values (xr_row row)) column with
  | Some v =>
      negb (is_null v) && match Codec.encode_value v with Ok k => bool_decide (k = key) | Err _ => false end
  | None => false
  end.

Lemma buckets_spec column rows : Forall (λ r, is_Some (znth (values (xr_row r)) column)) rows → ∀ b0,
  (∃ b, foldM (bucket_row column) b0 rows = Ok b
     ∧ ∀ k, default [] (b !! k) = default [] (b0 !! k) ++ List.filter (in_bucket column k) rows)
  ∨ ∃ m, foldM (bucket_row column) b0 rows = Err (DbEngine (Core (LimitExceeded m))).
Proof.
  induction 1 as [|r rows [v Hv] _ IH]; intros b0; cbn [foldM].
  { left. exists b0. split; [done|]. intros k. by rewrite app_nil_r. }
  assert (bucket_row column b0 r = if is_null v then Ok b0 else
    key ← from_core (Codec.encode_value v); Ok (<[key := default [] (b0 !! key) ++ [r]]> b0)) as -> by (unfold bucket_row; by rewrite Hv).
  assert (∀ k, List.filter (in_bucket column k) (r :: rows) =
    (if in_bucket column k r then [r] else []) ++ List.filter (in_bucket column k) rows) as Hcons
    by (intros k; cbn; by destruct (in_bucket column k r)).
  destruct (is_null v) eqn:Hn; cbn [mbind result_bind].
  - destruct (IH b0) as [(b & Hb & Hk)|[m Hm]]; [left|right; eauto]. exists b. split; [done|]. intros k.
    rewrite Hcons. unfold in_bucket at 1. rewrite Hv, Hn. cbn. apply Hk.
  - destruct (encode_value_agrees v) as [[key Hkey]|[m Hm]]; [rewrite Hkey|right; rewrite Hm; by eexists].
    cbn [mbind result_bind]. destruct (IH (<[key := default [] (b0 !! key) ++ [r]]> b0)) as [(b & Hb & Hk)|[m Hm]]; [left|right; eauto].
    exists b. split; [done|]. intros k. rewrite Hk, Hcons. unfold in_bucket at 2. rewrite Hv, Hn.
    assert (Codec.encode_value v = Ok key) as -> by (destruct (Codec.encode_value v); [by injection Hkey as ->|done]). cbn.
    destruct (decide (k = key)) as [->|Hne].
    + rewrite lookup_insert_eq, bool_decide_eq_true_2 by done. cbn. by rewrite <- app_assoc.
    + rewrite lookup_insert_ne, bool_decide_eq_false_2 by congruence. done.
Qed.

(** A column of the scope evaluates on its rows. *)
Lemma column_evaluates tables row c s :
  offsets_from 0 tables → row_fits (tables ≫= table_columns) row → located tables c →
  ∃ v, Eval.evaluate (BColumn c s) (Eval.mkEvaluationContext row vals) = Ok v
       ∧ znth (values row) (bc_input_slot c) = Some v.
Proof.
  intros Ho Hrow Hc. apply (located_slot _ _ Ho), znth_Some in Hc as [H0 Hc].
  destruct (Forall2_lookup_l _ _ _ _ _ Hrow Hc) as (v & Hv & Hf).
  assert (znth (values row) (bc_input_slot c) = Some v) as Hn by (by apply znth_Some). exists v. split; [|done].
  cbn. rewrite Hn. cbn. unfold Eval.ensure_runtime_type, fits in *.
  destruct (data_type v); [|done]. by rewrite bool_decide_eq_true_2.
Qed.

(** One outer row: the pairs of its bucket are the pairs that can match. *)
Lemma probe_agrees on key column buckets right_ outer v out out' :
  evaluate_exec vals key outer = Ok v →
  (∀ k, default [] (buckets !! k) = List.filter (in_bucket column k) right_) →
  (∀ inner, inner ∈ right_ → predicate_exec vals on (combine_rows outer inner) = Ok true →
     is_null v = false ∧ znth (values (xr_row inner)) column = Some v) →
  foldM (join_pair vals on outer) out right_ = Ok out' →
  agrees out' (probe_row vals on key buckets out outer).
Proof.
  intros Hv Hb Htrue Hf. unfold probe_row. rewrite Hv. cbn [mbind result_bind]. destruct (is_null v) eqn:Hn.
  - left. pose proof (join_pairs_skip vals on outer (λ _, false) _ _ _ Hf) as Hskip.
    rewrite <- Hskip; [|intros inner Hin _ [? _]%(Htrue _ Hin); congruence].
    clear. by induction right_.
  - destruct (encode_value_agrees v) as [[k Hk]|[m Hm]]; [rewrite Hk|right; rewrite Hm; by eexists].
    cbn [mbind result_bind]. left.
    assert (foldM (join_pair vals on outer) out (default [] (buckets !! k)) = Ok out') as Hfold.
    { rewrite Hb. apply join_pairs_skip; [done|]. intros inner Hin Hkeep [_ Hp]%(Htrue _ Hin).
      unfold in_bucket in Hkeep. rewrite Hp, Hn in Hkeep. destruct (Codec.encode_value v); [|done].
      injection Hk as ->. cbn in Hkeep. by rewrite bool_decide_eq_true_2 in Hkeep. }
    destruct (buckets !! k) as [l|]; [done|]. exact Hfold.
Qed.

Lemma probes_agree on key column buckets right_ left_ :
  (∀ outer, outer ∈ left_ → ∃ v, evaluate_exec vals key outer = Ok v ∧
     ∀ inner, inner ∈ right_ → predicate_exec vals on (combine_rows outer inner) = Ok true →
       is_null v = false ∧ znth (values (xr_row inner)) column = Some v) →
  (∀ k, default [] (buckets !! k) = List.filter (in_bucket column k) right_) → ∀ out rows,
  foldM (λ output outer, foldM (join_pair vals on outer) output right_) out left_ = Ok rows →
  agrees rows (foldM (probe_row vals on key buckets) out left_).
Proof.
  intros Hl Hb. induction left_ as [|outer left_ IH]; intros out rows; cbn [foldM]; [intros <-%Ok_inj; apply agrees_Ok|].
  intros (out1 & Hp & Hf)%result_bind_Ok. destruct (Hl outer ltac:(left)) as (v & Hv & Htrue).
  eapply agrees_bind; [by eapply probe_agrees|]. apply IH; [|done]. intros o Ho. apply Hl. by right.
Qed.

Definition table_ids (tables : list BoundTable) : list Z := (λ t, td_id (bt_table t)) <$> tables.

Lemma located_left tables t c : located (tables ++ [t]) c → bc_table_id c ≠ td_id (bt_table t) → located tables c.
Proof.
  intros (t' & [Hin|Hin%list_elem_of_singleton]%elem_of_app & Hid & H) Hne; [by exists t'|by subst t'].
Qed.

Lemma located_right tables t c :
  NoDup (table_ids (tables ++ [t])) → located (tables ++ [t]) c → bc_table_id c = td_id (bt_table t) →
  bc_input_slot c = bt_slot_offset t + bc_column_index c ∧ znth (table_columns t) (bc_column_index c) = Some (bc_column c).
Proof.
  unfold table_ids. rewrite fmap_app. intros (_ & Hd & _)%NoDup_app (t' & Hin & Hid & Hs & Hn) Heq.
  apply elem_of_app in Hin as [Hin|Hin%list_elem_of_singleton]; [|by subst t'].
  destruct (Hd (td_id (bt_table t))); [|by left]. rewrite <- Heq, Hid. apply list_elem_of_fmap. eauto.
Qed.

Lemma row_fits_length cols row : row_fits cols row → zlen (values row) = zlen cols.
Proof. intros H%Forall2_length. unfold zlen. by rewrite H. Qed.

(** What an equality of a column of the left side and one of the right table
    says about the two rows. *)
Lemma equality_pair tables t l r s lc rc outer inner :
  offsets_from 0 (tables ++ [t]) → located tables lc →
  bc_input_slot rc = bt_slot_offset t + bc_column_index rc → 0 ≤ bc_column_index rc →
  row_fits (tables ≫= table_columns) (xr_row outer) →
  (∃ sl sr, l = BColumn lc sl ∧ r = BColumn rc sr) ∨ (∃ sl sr, l = BColumn rc sl ∧ r = BColumn lc sr) →
  predicate_exec vals (BBinary l SqlEq r s) (combine_rows outer inner) = Ok true →
  ∃ v, is_null v = false ∧ znth (values (xr_row outer)) (bc_input_slot lc) = Some v
       ∧ znth (values (xr_row inner)) (bc_column_index rc) = Some v.
Proof.
  intros Ho Hlc Hrc H0 Hrow Hlr Hp. pose proof (offsets_last _ _ _ Ho) as Hoff.
  apply predicate_true in Hp; [|by destruct Hlr as [(? & ? & -> & ->)|(? & ? & -> & ->)]].
  apply equality_true in Hp as (v & Hl & Hr & Hn). exists v. split; [done|].
  assert (znth (values (xr_row outer) ++ values (xr_row inner)) (bc_input_slot lc) = Some v
    ∧ znth (values (xr_row outer) ++ values (xr_row inner)) (bc_input_slot rc) = Some v) as [H1 H2].
  { destruct Hlr as [(? & ? & -> & ->)|(? & ? & -> & ->)]; apply column_eval in Hl, Hr; done. }
  pose proof (row_fits_length _ _ Hrow) as Hlen.
  assert (offsets_from 0 tables) as Ho' by (clear -Ho; revert Ho; generalize 0; induction tables; intros n; cbn; [done|]; intros [? ?]; auto).
  pose proof (znth_lt _ _ _ (located_slot _ _ Ho' Hlc)) as Hlt.
  rewrite znth_app_l in H1 by lia. rewrite znth_app_r in H2 by lia. split; [done|].
  rewrite <- H2. f_equal. lia.
Qed.

Lemma hash_join_agrees tables t on key column left_ right_ rows :
  hash_join_keys on (PSeqScan t) = Some (key, column) →
  offsets_from 0 (tables ++ [t]) → offsets_from 0 tables → NoDup (table_ids (tables ++ [t])) → typed (tables ++ [t]) on →
  Forall (λ r, row_fits (tables ≫= table_columns) (xr_row r)) left_ →
  Forall (λ r, row_fits (table_columns t) (xr_row r)) right_ →
  foldM (λ output outer, foldM (join_pair vals on outer) output right_) [] left_ = Ok rows →
  agrees rows (buckets ← foldM (bucket_row column) ∅ right_; foldM (probe_row vals on key buckets) [] left_).
Proof.
  intros Hk Ho Ho' Hnd Hty Hl Hr Hf.
  assert (∃ lc rc s l r sp, key = BColumn lc s ∧ column = bc_column_index rc ∧ on = BBinary l SqlEq r sp
    ∧ ((∃ sl sr, l = BColumn lc sl ∧ r = BColumn rc sr) ∨ (∃ sl sr, l = BColumn rc sl ∧ r = BColumn lc sr))
    ∧ located (tables ++ [t]) lc ∧ located (tables ++ [t]) rc
    ∧ bc_table_id lc ≠ td_id (bt_table t) ∧ bc_table_id rc = td_id (bt_table t))
    as (lc & rc & s & l & r & sp & -> & -> & -> & Hlr & Hlc & Hrc & Hne & Heq).
  { destruct on as [| | | |l op r sp| | |]; try done. cbn [hash_join_keys plan_tables] in Hk. destruct op; try done.
    destruct l as [| |lc sl| | | | |], r as [| |rc sr| | | | |]; try done. destruct Hty as (Hlc & Hrc & _). cbn in Hlc, Hrc.
    repeat case_bool_decide; cbn in Hk; try done; injection Hk as <- <-;
      first [by exists lc, rc; eexists _, _, _, _; split_and!; try done; [left; eauto|set_solver..]
            |by exists rc, lc; eexists _, _, _, _; split_and!; try done; [right; eauto|set_solver..]]. }
  apply located_left in Hlc; [|done]. apply located_right in Hrc as [Hslot Hcol]; [|done..].
  destruct (buckets_spec (bc_column_index rc) right_) with (b0 := ∅ : gmap bytes (list ExecRow)) as [(b & Hb & Hbs)|[m Hm]].
  - eapply Forall_impl; [exact Hr|]. intros row Hrow. apply znth_Some in Hcol as [H0 Hcol].
    destruct (Forall2_lookup_l _ _ _ _ _ Hrow Hcol) as (v & Hv & _). exists v. by apply znth_Some.
  - rewrite Hb. cbn [mbind result_bind]. eapply probes_agree; [|exact Hbs|exact Hf].
    intros outer Hin. rewrite Forall_forall in Hl. specialize (Hl _ Hin).
    destruct (column_evaluates tables (xr_row outer) lc s Ho' Hl Hlc) as (v & Hv & Hn).
    exists v. split; [cbn in *; by rewrite Hv|]. intros inner _ Hp.
    apply znth_lt in Hcol as Hlt. destruct (equality_pair tables t l r sp lc rc outer inner) as (v' & ? & Hn' & ?); try done; [lia|].
    rewrite Hn in Hn'. injection Hn' as <-. done.
  - rewrite Hm. right. by eexists.
Qed.

(** ** Plans *)

(** Scans, joins and filters: the rows are the rows of the scope. *)
Fixpoint raw (plan : LogicalPlan) : Prop :=
  match plan with
  | LScan _ => True
  | LFilter input _ => raw input
  | LJoin l r _ => raw l ∧ raw r
  | _ => False
  end.

(** The plans the binder makes: joins add one table at a time. *)
Fixpoint plan_wf (plan : LogicalPlan) : Prop :=
  match plan with
  | LScan t => known_table t
  | LJoin l r _ => plan_wf l ∧ raw l ∧ ∃ t, r = LScan t ∧ known_table t
  | LFilter input _ | LAggregate input _ _ | LSort input _ | LLimit input _ | LProject input _ => plan_wf input
  end.

Lemma seq_scan_fits t rows :
  known_table t → execute_plan vals e x (PSeqScan t) = Ok rows → Forall (λ r, row_fits (table_columns t) (xr_row r)) rows.
Proof.
  intros (tb & Htb & Hs) (all & Hall & ->)%seq_scan_rows. unfold table_columns. rewrite <- Hs.
  apply (scan_rows_fit _ _ _ Hall) in Htb. by apply Forall_fmap.
Qed.

Lemma filter_rows_Forall (P : ExecRow → Prop) p rows kept :
  Forall P rows → mapM_result (filter_row vals p) rows = Ok kept → Forall P (concat kept).
Proof.
  intros HP. revert kept. induction HP as [|r rows Hr _ IH]; intros kept; cbn [mapM_result]; [intros <-%Ok_inj; constructor|].
  intros (k & Hk & (ks & Hks & <-%Ok_inj)%result_bind_Ok)%result_bind_Ok. cbn [concat]. apply Forall_app. split; [|by apply IH].
  unfold filter_row in Hk. apply result_bind_Ok in Hk as ([] & _ & <-%Ok_inj); by repeat constructor.
Qed.

Lemma join_pairs_Forall (P : ExecRow → Prop) on outer inner : ∀ out out',
  (∀ r, r ∈ inner → P (combine_rows outer r)) → Forall P out →
  foldM (join_pair vals on outer) out inner = Ok out' → Forall P out'.
Proof.
  induction inner as [|r inner IH]; intros out out' HP Hout; cbn [foldM]; [by intros <-%Ok_inj|].
  intros (out1 & Hp & Hf)%result_bind_Ok. eapply (IH out1); [intros; apply HP; by right| |done].
  unfold join_pair in Hp. apply result_bind_Ok in Hp as ([] & _ & Ho).
  - apply result_bind_Ok in Ho as (u & _ & <-%Ok_inj). apply Forall_app. split; [done|]. constructor; [|done]. apply HP. left.
  - by injection Ho as <-.
Qed.

Lemma nested_loop_fits cols cols' on left_ right_ : ∀ out rows,
  Forall (λ r, row_fits cols (xr_row r)) left_ → Forall (λ r, row_fits cols' (xr_row r)) right_ →
  Forall (λ r, row_fits (cols ++ cols') (xr_row r)) out →
  foldM (λ output outer, foldM (join_pair vals on outer) output right_) out left_ = Ok rows →
  Forall (λ r, row_fits (cols ++ cols') (xr_row r)) rows.
Proof.
  induction left_ as [|o left_ IH]; intros out rows Hl Hr Hout; cbn [foldM]; [by intros <-%Ok_inj|].
  apply Forall_cons in Hl as [Ho Hl]. intros (out1 & Hp & Hf)%result_bind_Ok. eapply IH; [done|done| |exact Hf].
  eapply join_pairs_Forall; [|exact Hout|exact Hp]. intros r Hin. rewrite Forall_forall in Hr.
  unfold row_fits. cbn. apply Forall2_app; [done|]. by apply Hr.
Qed.

(** A step over an agreeing input. *)
Lemma step_agrees (input' : PhysicalPlan) (f : list ExecRow → dbresult (list ExecRow)) rows0 rows :
  agrees rows0 (execute_plan vals e x input') → f rows0 = Ok rows → ensure_intermediate_bound rows = Ok tt →
  agrees rows (rows ← (rows ← execute_plan vals e x input'; f rows); _ ← ensure_intermediate_bound rows; Ok rows).
Proof.
  intros Ha Hf Hb. eapply agrees_bind; [eapply agrees_bind; [exact Ha|]; rewrite Hf; apply agrees_Ok|].
  rewrite Hb. apply agrees_Ok.
Qed.

(** Splitting an execution into its input, its step and its bound. *)
Lemma execute_step (r : dbresult (list ExecRow)) (f : list ExecRow → dbresult (list ExecRow)) rows :
  (rows ← (rows ← r; f rows); _ ← ensure_intermediate_bound rows; Ok rows) = Ok rows →
  ∃ rows0, r = Ok rows0 ∧ f rows0 = Ok rows ∧ ensure_intermediate_bound rows = Ok tt.
Proof.
  intros (rows' & (rows0 & Hr & Hf)%result_bind_Ok & ([] & Hb & <-%Ok_inj)%result_bind_Ok)%result_bind_Ok. eauto.
Qed.

Lemma offsets_prefix n l k : offsets_from n (l ++ k) → offsets_from n l.
Proof. revert n. induction l as [|t l IH]; intros n; cbn; [done|]. intros [? ?]. auto. Qed.

(** The goal of the induction over plans. *)
Definition optimized_ok (plan : LogicalPlan) : Prop :=
  ∀ rows, execute_plan vals e x (reference plan) = Ok rows →
    agrees rows (execute_plan vals e x (Plan.optimize (engine_catalog e None) plan))
    ∧ (raw plan → Forall (λ r, row_fits (plan_scope plan ≫= table_columns) (xr_row r)) rows).

Lemma filter_optimized input predicate :
  plan_wf input → entry_ok (mkEntry (plan_scope input) (Some Bool) predicate) → optimized_ok input →
  optimized_ok (LFilter input predicate).
Proof.
  intros Hw He IH rows. cbn [reference execute_plan]. intros (rows0 & H0 & Hf & Hb)%execute_step.
  destruct (IH _ H0) as [Ha Hfit]. apply result_bind_Ok in Hf as (kept & Hkept & <-%Ok_inj). split.
  - assert (agrees (concat kept) (execute_plan vals e x (PFilter (Plan.optimize (engine_catalog e None) input) predicate))) as Hplain.
    { eapply step_agrees; [exact Ha| |exact Hb]. by rewrite Hkept. }
    cbn [Plan.optimize]. destruct input as [t| | | | | |]; try exact Hplain.
    destruct (Plan.choose_index _ t predicate) as [[ix c]|] eqn:Hc; [|exact Hplain].
    destruct (index_scan_agrees t predicate ix c rows0 kept Hc He H0 Hkept) as (rows' & Ha' & kept' & Hk' & Hcc).
    refine (step_agrees (PIndexScan t ix c) (λ rows, kept ← mapM_result (filter_row vals predicate) rows; Ok (concat kept))
              _ _ Ha' _ Hb). rewrite Hk'. cbn. by rewrite Hcc.
  - intros Hr. eapply filter_rows_Forall; [by apply Hfit|done].
Qed.

Lemma join_optimized l t on :
  known_table t → raw l → optimized_ok l → offsets_from 0 (plan_scope l ++ [t]) → NoDup (table_ids (plan_scope l ++ [t])) →
  typed (plan_scope l ++ [t]) on → optimized_ok (LJoin l (LScan t) on).
Proof.
  intros Ht Hraw IH Ho Hnd Hty rows. cbn [reference]. intros Hex.
  assert (∃ left_ right_, execute_plan vals e x (reference l) = Ok left_ ∧ execute_plan vals e x (PSeqScan t) = Ok right_
    ∧ foldM (λ output outer, foldM (join_pair vals on outer) output right_) [] left_ = Ok rows
    ∧ ensure_intermediate_bound rows = Ok tt) as (left_ & right_ & Hl & Hr & Hf & Hb).
  { change (execute_plan vals e x (PJoin ?a ?b ?c NestedLoop)) with
      (rows ← (rows ← execute_plan vals e x a; execute_join vals rows (execute_plan vals e x b) b c NestedLoop);
       _ ← ensure_intermediate_bound rows; Ok rows) in Hex.
    apply execute_step in Hex as (left_ & Hl & Hj & Hb). unfold execute_join in Hj. cbn [uses_buckets] in Hj.
    apply result_bind_Ok in Hj as (right_ & Hr & Hf). eauto 10. }
  destruct (IH _ Hl) as [Ha Hfit]. specialize (Hfit Hraw). pose proof (seq_scan_fits t right_ Ht Hr) as Hfit'. split.
  - cbn [Plan.optimize]. set (algorithm := Plan.choose_join_algorithm _ _ _).
    change (execute_plan vals e x (PJoin ?a ?b on algorithm)) with
      (rows ← (rows ← execute_plan vals e x a; execute_join vals rows (execute_plan vals e x b) b on algorithm);
       _ ← ensure_intermediate_bound rows; Ok rows).
    eapply agrees_bind; [|rewrite Hb; apply agrees_Ok]. eapply agrees_bind; [exact Ha|]. unfold execute_join.
    rewrite Hr. cbn [mbind result_bind]. destruct (uses_buckets algorithm); [|rewrite Hf; apply agrees_Ok].
    destruct (hash_join_keys on (PSeqScan t)) as [[key column]|] eqn:Hk; [|rewrite Hf; apply agrees_Ok].
    eapply hash_join_agrees; try done. by eapply offsets_prefix.
  - intros _. cbn [plan_scope]. rewrite bind_app. cbn. rewrite app_nil_r. by eapply nested_loop_fits.
Qed.

Lemma optimize_agrees plan :
  plan_wf plan → Forall entry_ok (plan_exprs plan) → offsets_from 0 (plan_scope plan) → NoDup (table_ids (plan_scope plan)) →
  optimized_ok plan.
Proof.
  induction plan as [t|input IH p|l IHl r IHr on|input IH g a|input IH o|input IH li|input IH ex]; cbn [plan_wf plan_exprs plan_scope];
    intros Hw He Ho Hnd.
  - intros rows Hr. split; [by left|]. intros _. cbn. rewrite app_nil_r. by apply seq_scan_fits.
  - apply Forall_app in He as [He [Hp _]%Forall_cons]. apply filter_optimized; auto.
  - destruct Hw as (Hwl & Hraw & t & -> & Ht). apply Forall_app in He as [Hel He]. cbn [plan_exprs app] in He.
    apply Forall_cons in He as [(_ & Hty & _) _]. cbn in Hty. cbn [plan_scope] in *.
    apply join_optimized; try done. apply IHl; try done; [by eapply offsets_prefix|].
    unfold table_ids in Hnd. rewrite fmap_app in Hnd. by apply NoDup_app in Hnd as [? _].
  - apply Forall_app in He as [He _]. specialize (IH Hw He Ho Hnd). intros rows (rows0 & H0 & Hf & Hb)%execute_step.
    split; [|done]. destruct (IH _ H0) as [Ha _]. by eapply step_agrees.
  - apply Forall_app in He as [He _]. specialize (IH Hw He Ho Hnd). intros rows (rows0 & H0 & Hf & Hb)%execute_step.
    split; [|done]. destruct (IH _ H0) as [Ha _]. by eapply step_agrees.
  - apply Forall_app in He as [He _]. specialize (IH Hw He Ho Hnd). intros rows (rows0 & H0 & Hf & Hb)%execute_step.
    split; [|done]. destruct (IH _ H0) as [Ha _]. by eapply step_agrees.
  - apply Forall_app in He as [He _]. specialize (IH Hw He Ho Hnd). intros rows (rows0 & H0 & Hf & Hb)%execute_step.
    split; [|done]. destruct (IH _ H0) as [Ha _]. by eapply step_agrees.
Qed.

(** ** Plans of the binder *)

Abbreviation binding_catalog := (engine_catalog e (Some x)).

Lemma table_source_known source n t : bind_table_source binding_catalog source n = Ok t → known_table t.
Proof. intros (table & Ht%ok_or_Ok & <-%Ok_inj)%result_bind_Ok. by eapply binding_table. Qed.

(** The plan before grouping. *)
Record from_ok (plan : LogicalPlan) : Prop := {
  fo_wf : plan_wf plan;
  fo_raw : raw plan;
  fo_offsets : offsets_from 0 (plan_scope plan)
}.

Lemma bind_joins_from joins : ∀ s plan ps s' plan' ps',
  bind_joins binding_catalog s plan joins ps = Ok ((s', plan'), ps') → scope_wf s → plan_scope plan = sc_tables s →
  from_ok plan → from_ok plan'.
Proof.
  induction joins as [|j joins IH]; intros s plan ps s' plan' ps' Hb Hs Hc Hf; cbn [bind_joins] in Hb.
  - apply binder_ret_Ok in Hb as [[= <- <-] ->]. done.
  - apply binder_bind_Ok in Hb as (r & ps1 & [Hr ->]%b_lift_Ok & Hb).
    apply binder_bind_Ok in Hb as (s1 & ps2 & [Hp ->]%b_lift_Ok & Hb).
    apply binder_bind_Ok in Hb as (on & ps3 & Hon & Hb).
    destruct (push_wf _ _ _ _ Hs (bind_table_source_offset _ _ _ _ Hr) Hp) as [Hs1 Hc1].
    assert (plan_scope (LJoin plan (LScan r) on) = sc_tables s1) as Hsc by (cbn; by rewrite Hc1, Hc).
    eapply IH; [exact Hb|done|exact Hsc|]. apply table_source_known in Hr. split; [|by split; [apply Hf|]|by rewrite Hsc].
    split; [apply Hf|]. split; [apply Hf|]. eauto.
Qed.

(** Grouping, ordering, limiting and projecting keep the tables. *)
Lemma bind_select_from select ps plan output ps' :
  bind_select binding_catalog select ps = Ok (BsQuery plan output, ps') → plan_wf plan ∧ offsets_from 0 (plan_scope plan).
Proof.
  intros Hb. unfold bind_select in Hb.
  apply binder_bind_Ok in Hb as (first & ps1 & [Hfirst ->]%b_lift_Ok & Hb).
  apply binder_bind_Ok in Hb as (s0 & ps2 & [Hpush ->]%b_lift_Ok & Hb).
  apply binder_bind_Ok in Hb as ([sc plan0] & ps3 & Hj & Hb).
  apply binder_bind_Ok in Hb as (pred & ps4 & _ & Hb). apply binder_bind_Ok in Hb as (group_by & ps5 & _ & Hb).
  apply binder_bind_Ok in Hb as (items & ps6 & _ & Hb). apply binder_bind_Ok in Hb as (order_by & ps7 & _ & Hb).
  apply binder_bind_Ok in Hb as (plan1 & ps8 & [Hagg ->]%b_lift_Ok & Hb).
  apply binder_bind_Ok in Hb as (plan2 & ps9 & Hl & [[= <- _] _]%binder_ret_Ok).
  destruct (push_wf ScopeOps.empty first _ _ I (bind_table_source_offset _ _ _ _ Hfirst) Hpush) as [Hs0 Hc0].
  destruct (bind_joins_from _ _ _ _ _ _ _ Hj Hs0 (eq_sym Hc0)) as [Hw _ Ho].
  { split; [by eapply table_source_known|done|]. change (offsets_from 0 (sc_tables ScopeOps.empty ++ [first])). by rewrite <- Hc0. }
  cbn [plan_wf plan_scope].
  assert (plan_wf plan1 ∧ offsets_from 0 (plan_scope plan1)) as H1.
  { unfold aggregate_plan in Hagg. destruct (_ || _); [|by injection Hagg as <-; destruct pred].
    apply result_bind_Ok in Hagg as (u & _ & (u' & _ & <-%Ok_inj)%result_bind_Ok). by destruct pred. }
  destruct (sel_limit select) as [limit|]; cbn [bind_limit] in Hl.
  - apply binder_bind_Ok in Hl as (? & ? & _ & Hl). apply binder_bind_Ok in Hl as (? & ? & _ & Hl).
    apply binder_bind_Ok in Hl as (? & ? & _ & [<- _]%binder_ret_Ok). by destruct (is_empty order_by).
  - apply binder_ret_Ok in Hl as [<- _]. by destruct (is_empty order_by).
Qed.

Lemma bind_query_from s span ps plan output ps' :
  bind_statement binding_catalog s span ps = Ok (BsQuery plan output, ps') → plan_wf plan ∧ offsets_from 0 (plan_scope plan).
Proof.
  destruct s as [name cols|name table column|table cols vs|table asg sel|table sel|s| | | |inner isp]; cbn [bind_statement]; intros Hb.
  - apply b_lift_Ok in Hb as [(u & _ & (k & _ & [=])%result_bind_Ok)%result_bind_Ok _].
  - apply b_lift_Ok in Hb as [(u & _ & (k & _ & (i & _ & [=])%result_bind_Ok)%result_bind_Ok)%result_bind_Ok _].
  - repeat apply binder_bind_Ok in Hb as (? & ? & _ & Hb). by apply binder_ret_Ok in Hb as [[=] _].
  - repeat apply binder_bind_Ok in Hb as (? & ? & _ & Hb). by apply binder_ret_Ok in Hb as [[=] _].
  - repeat apply binder_bind_Ok in Hb as (? & ? & _ & Hb). by apply binder_ret_Ok in Hb as [[=] _].
  - by eapply bind_select_from.
  - by apply binder_ret_Ok in Hb as [[=] _].
  - by apply binder_ret_Ok in Hb as [[=] _].
  - by apply binder_ret_Ok in Hb as [[=] _].
  - apply binder_bind_Ok in Hb as (b' & ps1 & _ & Hb). destruct (is_transaction b'); [by apply b_lift_Ok in Hb as [? _]|].
    by apply binder_ret_Ok in Hb as [[=] _].
Qed.

Lemma good_entry d ps p :
  Eval.validate_parameters (sort_by (λ a b, cmp (ps_index a) (ps_index b)) ps) vals = Ok tt → good d ps p → entry_ok p.
Proof.
  intros Hv [H0 H1 H2 H3 _]. split_and!; try done. eapply Forall_impl; [exact H3|]. intros q. by apply recorded_param_ok.
Qed.
End Plans.

(** C4: the optimizer is sound for a transaction on the latest state.  Take a
    transaction whose snapshot is the last applied index, with whatever it has
    staged ([staged_ok]), and bind a query against the tables it sees, with
    parameters numbered apart and values that pass validation, over distinct
    tables.  Whenever sequential scans and nested loops compute [rows],
    the optimized plan, with its index scans and hash joins chosen from the
    committed indexes, computes the same rows in the same order; the one error
    it may add is the size limit of the keys it encodes.  (For an older snapshot
    an index committed since may miss rows: see [DbExamples].) *)
Theorem optimize_sound e x s span out plan output vals rows :
  engine_wf e → staged_ok e x →
  bind (engine_catalog e (Some x)) (s, span) = Ok out → bo_statement out = BsQuery plan output →
  NoDup (statement_params s) → Eval.validate_parameters (bo_parameters out) vals = Ok tt →
  NoDup (table_ids (plan_scope plan)) →
  execute_plan vals e x (reference plan) = Ok rows →
  execute_plan vals e x (Plan.optimize (engine_catalog e None) plan) = Ok rows
  ∨ ∃ m, execute_plan vals e x (Plan.optimize (engine_catalog e None) plan) = Err (DbEngine (Core (LimitExceeded m))).
Proof.
  intros Hwf Hst ([b ps] & Hb & <-%Ok_inj)%result_bind_Ok Hq Hnd Hv Hids Hrows. cbn in *. subst b.
  destruct (bind_query_from e x Hwf Hst _ _ _ _ _ _ Hb) as [Hw Ho].
  pose proof (bind_statement_good _ _ _ _ _ _ Hb Hnd) as Hg.
  destruct (optimize_agrees vals e x Hwf Hst plan Hw) with (rows := rows) as [Ha _]; try done.
  eapply Forall_impl; [exact Hg|]. intros p. by apply good_entry.
Qed.
