(* ===== verification/DbDatabase.v ===== *)
(** * The database: [crates/aster-db/src/database.rs]

    A [Database] joins the SQL front end, the engine and persistence.  Every
    public method holds the one lock for the whole of its body, so each is one
    step on the shared state; it returns a result and the database it leaves,
    also when it fails.  Persistence is an interface: [persist_state],
    [install_state], [checkpoint] and [status] of [persistence.rs]. *)

From Stdlib Require Import Ascii String.
From S2P Require Import Prelude StorageBytes StoragePage StorageIo StorageWal StoragePager CoreTypes CoreCodec EngineExpr EngineCatalog EngineTxn EngineState EngineRecords SqlAst SqlLexer SqlParser SqlCatalog SqlPlan SqlEval SqlBinder DbExecutor.
Import Exec.

(** ** Records of requests *)

Record DurableRequestRecord : Type := mkDurableRequestRecord {
  dr_sequence : Z;
  dr_fingerprint : bytes;
  dr_result : CommitResult;
  dr_affected_rows : Z
}.

#[export] Instance DurableRequestRecord_eq_dec : EqDecision DurableRequestRecord.
Proof. solve_decision. Defined.

#[export] Instance Catalog_eq_dec : EqDecision Catalog.
Proof. solve_decision. Defined.
#[export] Instance EngineStats_eq_dec : EqDecision EngineStats.
Proof. solve_decision. Defined.
#[export] Instance PrimarySnapshotEntry_eq_dec : EqDecision PrimarySnapshotEntry.
Proof. solve_decision. Defined.
#[export] Instance SecondarySnapshotEntry_eq_dec : EqDecision SecondarySnapshotEntry.
Proof. solve_decision. Defined.
#[export] Instance ClientSnapshotEntry_eq_dec : EqDecision ClientSnapshotEntry.
Proof. solve_decision. Defined.
#[export] Instance EngineSnapshot_eq_dec : EqDecision EngineSnapshot.
Proof. solve_decision. Defined.

Abbreviation DurableRequests := (gmap bytes DurableRequestRecord).

(** One turn of the loop: the engine's record of the client says the same. *)
Definition validate_request (engine : Engine) (p : bytes * DurableRequestRecord) : dbresult unit :=
  let '(client_id, request) := p in
  engine_record ← ok_or (clients engine !! client_id)
    (Corruption "request fingerprint has no matching engine client record");
  ensure (negb (negb (dr_sequence request =? r_sequence engine_record)
                || negb (bool_decide (dr_fingerprint request = r_request_hash engine_record))
                || negb (bool_decide (dr_result request = r_result engine_record))))
    (Corruption "request fingerprint disagrees with engine client result").

Definition validate_durable_requests (engine : Engine) (requests : DurableRequests) : dbresult unit :=
  let client_count := Z.of_nat (size (clients engine)) in
  let len := Z.of_nat (size requests) in
  _ ← ensure (client_count =? len)
        (Corruption ("engine has " +:+ pretty client_count +:+ " client records but snapshot has "
                     +:+ pretty len +:+ " request records"));
  _ ← mapM_result (validate_request engine) (btree_map_iter requests);
  Ok tt.

(** ** Persistence *)

Record PersistenceStatus : Type := mkPersistenceStatus {
  pst_superblock : Superblock;
  pst_database_pages : Z;
  pst_wal_bytes : Z;
  pst_recovery : RecoveryReport
}.

Class Persistence (P : Type) := {
  persist_state : Engine → DurableRequests → dbio P unit;
  install_state : Engine → DurableRequests → dbio P unit;
  persist_checkpoint : dbio P Checkpoint;
  persist_status : dbio P PersistenceStatus
}.

(** ** Data *)

Definition STANDALONE_LEADER_TERM : Z := 1.
Definition REPLICATED_MUTATION_FORMAT : Z := 1.
Definition DATABASE_SNAPSHOT_FORMAT : Z := 1.
Definition MAX_REPLICATED_COMMAND_BYTES : Z := 8 * 1024 * 1024.
Definition DEFAULT_MAX_ACTIVE_TRANSACTIONS : Z := 4096.
Definition MAX_SNAPSHOT_BYTES : Z := 256 * 1024 * 1024.

Record QueryResult : Type := mkQueryResult {
  qr_columns : list string;
  qr_rows : list Row;
  qr_affected_rows : Z;
  qr_applied_index : Z
}.

Record TransactionInfo : Type := mkTransactionInfo {
  ti_transaction_id : Z;
  ti_read_ts : Z
}.

Record CommitInfo : Type := mkCommitInfo {
  ci_commit_index : Z;
  ci_affected_rows : Z;
  ci_schema_epoch : Z;
  ci_applied_index : Z
}.

Record CheckpointInfo : Type := mkCheckpointInfo {
  cki_applied_index : Z;
  cki_checkpoint_lsn : Z;
  cki_through_lsn : Z
}.

Record DatabaseSnapshot : Type := mkDatabaseSnapshot {
  dsn_applied_index : Z;
  dsn_state_hash : bytes;
  dsn_bytes : bytes
}.

Record DatabaseStatus : Type := mkDatabaseStatus {
  ds_applied_index : Z;
  ds_schema_epoch : Z;
  ds_retained_floor : Z;
  ds_active_transactions : Z;
  ds_database_pages : Z;
  ds_wal_bytes : Z;
  ds_checkpoint_lsn : Z;
  ds_root_page : option Z;
  ds_recovery_groups_examined : Z;
  ds_recovery_groups_replayed : Z;
  ds_recovery_pages_replayed : Z
}.

Inductive ExecutionResult : Type :=
| ErQuery (r : QueryResult)
| ErTransaction (i : TransactionInfo)
| ErCommitted (i : CommitInfo)
| ErRolledBack
| ErExplain (plan : string) (applied_index : Z).

Inductive MutationPreparation : Type :=
| Propose (bytes_ : bytes)
| Replay (r : ExecutionResult).

Record ReplicatedMutation : Type := mkReplicatedMutation {
  rm_format : Z;
  rm_attempt : TxnAttempt;
  rm_fingerprint : bytes;
  rm_affected_rows : Z
}.

Record DatabaseSnapshotEnvelope : Type := mkDatabaseSnapshotEnvelope {
  env_format : Z;
  env_engine : EngineSnapshot;
  env_requests : list (bytes * DurableRequestRecord)
}.

Record DatabaseState : Type := mkDatabaseState {
  st_engine : Engine;
  st_active : gmap Z Transaction;
  st_requests : DurableRequests
}.

Definition with_engine (e : Engine) (s : DatabaseState) : DatabaseState := mkDatabaseState e (st_active s) (st_requests s).
Definition with_active (a : gmap Z Transaction) (s : DatabaseState) : DatabaseState :=
  mkDatabaseState (st_engine s) a (st_requests s).

(** ** Helpers *)

Definition usize_to_u64 (value : Z) (label : string) : dbresult Z :=
  ok_or (if value <=? u64_max then Some value else None) (ResourceLimit (label +:+ " exceeds u64")).

Definition commit_info_from_result (result : CommitResult) (applied_index : Z) : dbresult CommitInfo :=
  match result with
  | Committed commit_index affected_rows schema_epoch =>
      affected_rows ← usize_to_u64 affected_rows "affected row count";
      Ok (mkCommitInfo commit_index affected_rows schema_epoch applied_index)
  | Aborted _ reason => Err (TransactionAborted reason)
  end.

Definition replay_record (requests : DurableRequests) (client_id : bytes) (sequence : Z) (fingerprint : bytes)
    : dbresult (option DurableRequestRecord) :=
  match requests !! client_id with
  | None => Ok None
  | Some record =>
      if negb (dr_sequence record =? sequence) then Ok None else
      _ ← ensure (bool_decide (dr_fingerprint record = fingerprint))
            (RequestRejected (SequenceHashMismatch sequence));
      Ok (Some record)
  end.

(** The rows of a mutation: none. *)
Definition mutation_result (affected_rows applied_index : Z) : ExecutionResult :=
  ErQuery (mkQueryResult [] [] affected_rows applied_index).

Definition mutation_result_from_record (record : DurableRequestRecord) (applied_index : Z) : dbresult ExecutionResult :=
  _ ← commit_info_from_result (dr_result record) applied_index;
  Ok (mutation_result (dr_affected_rows record) applied_index).

Definition replicated_outcome (outcome : ApplyOutcome) (affected_rows applied_index : Z) : dbresult ExecutionResult :=
  match outcome with
  | Applied result | Duplicate result =>
      _ ← commit_info_from_result result applied_index;
      Ok (mutation_result affected_rows applied_index)
  | Rejected rejection => Err (RequestRejected rejection)
  | NoopOutcome => Err (DbInvariant "replicated transaction decoded as a Raft no-op")
  end.

Definition validate_durable_replay (requests : DurableRequests) (client_id : bytes) (sequence : Z)
    (fingerprint : bytes) (affected_rows : Z) (outcome : ApplyOutcome) : dbresult unit :=
  match outcome with
  | Applied result | Duplicate result =>
      record ← ok_or (requests !! client_id) (Corruption "durable replicated apply has no request fingerprint");
      ensure (negb (negb (dr_sequence record =? sequence)
                    || negb (bool_decide (dr_fingerprint record = fingerprint))
                    || negb (dr_affected_rows record =? affected_rows)
                    || negb (bool_decide (dr_result record = result))))
        (Corruption "durable replicated request metadata disagrees with replay")
  | Rejected _ => Ok tt
  | NoopOutcome => Err (Corruption "transaction replay found a durable Raft no-op")
  end.

Definition statement_output (output : StatementOutput) (applied_index : Z) : dbresult ExecutionResult :=
  match output with
  | OutQuery columns rows => Ok (ErQuery (mkQueryResult columns rows 0 applied_index))
  | OutMutation affected_rows =>
      affected_rows ← usize_to_u64 affected_rows "affected row count";
      Ok (mutation_result affected_rows applied_index)
  | OutExplain plan => Ok (ErExplain plan applied_index)
  end.

Definition is_mutating_statement (statement : SqlStatement) : bool :=
  match statement with
  | StCreateTable _ _ | StCreateIndex _ _ _ | StInsert _ _ _ | StUpdate _ _ _ | StDelete _ _ => true
  | _ => false
  end.

Definition physical_plan (statement : BoundStatement) (catalog : SqlCatalog) : option PhysicalPlan :=
  match statement with
  | BsQuery plan _ => Some (Plan.optimize catalog plan)
  | _ => None
  end.

(** ** Statements *)

Definition prepare_and_execute_output (engine : Engine) (parsed : SqlStatement * Span) (parameters : list Value)
    : dbio Transaction StatementOutput :=
  binding_catalog ← db_read (λ transaction, Ok (engine_catalog engine (Some transaction)));
  bound ← db_lift (from_sql (bind binding_catalog parsed));
  _ ← db_lift (from_sql (Eval.validate_parameters (bo_parameters bound) parameters));
  _ ← db_lift (ensure (negb (is_transaction (bo_statement bound)))
         (TransactionControl "transaction control must be dispatched before execution"));
  let planning_catalog := engine_catalog engine None in
  match bo_statement bound with
  | BsExplain inner =>
      _ ← db_lift (ensure (negb (is_transaction inner)) (TransactionControl "EXPLAIN does not accept transaction control"));
      db_lift (explain_statement inner (physical_plan inner planning_catalog))
  | statement => execute_bound parameters engine statement (physical_plan statement planning_catalog)
  end.

Definition prepare_and_execute (engine : Engine) (parsed : SqlStatement * Span) (parameters : list Value)
    : dbio Transaction ExecutionResult :=
  output ← prepare_and_execute_output engine parsed parameters;
  db_lift (statement_output output (last_applied engine)).

Section Fingerprints.
Context `{Sha256}.

Definition put_fingerprint_bytes (output value : bytes) : dbresult bytes :=
  length ← ok_or (if zlen value <=? u64_max then Some (zlen value) else None)
    (ResourceLimit "request fingerprint input is too large");
  Ok (output ++ to_be_bytes 8 length ++ value).

(** "ASTDBREQ", 1, "SQL" *)
Definition SQL_TAG : bytes := [65; 83; 84; 68; 66; 82; 69; 81; 1; 83; 81; 76].
(** "ASTDBREQ", 1, "COMMIT" *)
Definition COMMIT_TAG : bytes := [65; 83; 84; 68; 66; 82; 69; 81; 1; 67; 79; 77; 77; 73; 84].
(** "ASTRAFTNOOP", 1 *)
Definition NOOP_TAG : bytes := [65; 83; 84; 82; 65; 70; 84; 78; 79; 79; 80; 1].

Definition sql_fingerprint (sql : list Z) (parameters : list Value) : dbresult bytes :=
  encoded ← put_fingerprint_bytes SQL_TAG (sql ≫= encode_utf8);
  parameters ← from_core (Codec.encode_row (mkRow parameters));
  encoded ← put_fingerprint_bytes encoded parameters;
  Ok (sha256 encoded).

Definition commit_fingerprint (transaction_id : Z) : bytes := sha256 (COMMIT_TAG ++ to_be_bytes 8 transaction_id).

Definition raft_noop_hash (index term : Z) : bytes := sha256 (NOOP_TAG ++ to_be_bytes 8 index ++ to_be_bytes 8 term).
End Fingerprints.

(** ** The facade *)

Section Database.
Context {P : Type} {Hpers : Persistence P} {Hsha : Sha256} {Huni : UnicodeTables}.
Context {Hcmd : SerdeJson ReplicatedMutation} {Henv : SerdeJson DatabaseSnapshotEnvelope}.

Record Database : Type := mkDatabase {
  db_state : DatabaseState;
  db_persistence : P;
  max_active_transactions : Z
}.

Abbreviation db := (dbio Database).

Definition get_state : db DatabaseState := λ d, (Ok (db_state d), d).
Definition put_state (s : DatabaseState) : db unit := λ d,
  (Ok tt, mkDatabase s (db_persistence d) (max_active_transactions d)).

Definition on_persistence {A} (m : dbio P A) : db A := λ d,
  let '(r, p) := m (db_persistence d) in (r, mkDatabase (db_state d) p (max_active_transactions d)).

(** [match m { .. }]: the result of [m] as a value. *)
Definition db_try {A} (m : db A) : db (dbresult A) := λ d, let '(r, d) := m d in (Ok r, d).

Definition begin_transaction : db TransactionInfo :=
  s ← get_state;
  limit ← (λ d, (Ok (max_active_transactions d), d));
  _ ← db_lift (ensure (negb (limit <=? Z.of_nat (size (st_active s))))
         (ResourceLimit ("active transaction limit " +:+ pretty limit +:+ " reached")));
  '(engine, transaction) ← db_lift (from_engine (begin (st_engine s)));
  _ ← put_state (mkDatabaseState engine (<[x_id transaction := transaction]> (st_active s)) (st_requests s));
  _ ← db_lift (ensure (negb (bool_decide (is_Some (st_active s !! x_id transaction))))
         (DbInvariant ("transaction id " +:+ pretty (x_id transaction) +:+ " was reused while active")));
  mret (mkTransactionInfo (x_id transaction) (x_read_ts transaction)).

Definition publish_candidate (candidate : Engine) (outcome : ApplyOutcome) (client_id : bytes) (sequence : Z)
    (fingerprint : bytes) (affected_rows : Z) : db unit :=
  s ← get_state;
  candidate_requests ←
    match outcome with
    | Applied result =>
        mret (<[client_id := mkDurableRequestRecord sequence fingerprint result affected_rows]> (st_requests s))
    | Duplicate result =>
        match st_requests s !! client_id with
        | Some existing =>
            _ ← db_lift (ensure (negb (negb (dr_sequence existing =? sequence)
                                       || negb (bool_decide (dr_fingerprint existing = fingerprint))
                                       || negb (bool_decide (dr_result existing = result))))
                   (DbInvariant "engine duplicate disagrees with durable request fingerprint"));
            mret (st_requests s)
        | None =>
            mret (<[client_id := mkDurableRequestRecord sequence fingerprint result affected_rows]> (st_requests s))
        end
    | Rejected _ => mret (st_requests s)
    | NoopOutcome => db_err (DbInvariant "transaction publication received a Raft no-op")
    end;
  _ ← on_persistence (persist_state candidate candidate_requests);
  put_state (mkDatabaseState candidate (st_active s) candidate_requests).

Definition apply_transaction (transaction : Transaction) (client_id : bytes) (sequence : Z) (fingerprint : bytes)
    (affected_rows : Z) : db ApplyOutcome :=
  s ← get_state;
  let attempt := Txn.into_attempt transaction (mkClientRequestId client_id sequence) STANDALONE_LEADER_TERM in
  command_hash ← db_lift (from_engine (Attempt.command_hash attempt));
  apply_index ← db_lift (ok_or (checked_add (last_applied (st_engine s)) 1) (DbInvariant "applied index overflow"));
  '(candidate, outcome) ←
    db_lift (from_engine (apply_with_request_hash (st_engine s) apply_index command_hash fingerprint attempt));
  _ ← publish_candidate candidate outcome client_id sequence fingerprint affected_rows;
  mret outcome.

Definition commit (client_id : bytes) (sequence transaction_id : Z) : db CommitInfo :=
  s ← get_state;
  let fingerprint := commit_fingerprint transaction_id in
  match st_active s !! transaction_id with
  | None =>
      record ← db_lift (replay_record (st_requests s) client_id sequence fingerprint);
      match record with
      | Some record => db_lift (commit_info_from_result (dr_result record) (last_applied (st_engine s)))
      | None => db_err (TransactionNotFound transaction_id)
      end
  | Some transaction =>
      _ ← put_state (with_active (delete transaction_id (st_active s)) s);
      affected_rows ← db_lift (usize_to_u64 (Z.of_nat (size (x_writes transaction))) "affected row count");
      outcome ← db_try (apply_transaction transaction client_id sequence fingerprint affected_rows);
      s ← get_state;
      let restore := put_state (with_active (<[transaction_id := transaction]> (st_active s)) s) in
      match outcome with
      | Ok (Applied result) | Ok (Duplicate result) =>
          db_lift (commit_info_from_result result (last_applied (st_engine s)))
      | Ok (Rejected rejection) => _ ← restore; db_err (RequestRejected rejection)
      | Ok NoopOutcome => _ ← restore; db_err (DbInvariant "transaction commit produced a Raft no-op")
      | Err error => _ ← restore; db_err error
      end
  end.

Definition rollback (transaction_id : Z) : db unit :=
  s ← get_state;
  _ ← db_lift (ok_or (st_active s !! transaction_id) (TransactionNotFound transaction_id));
  put_state (with_active (delete transaction_id (st_active s)) s).

Definition checkpoint : db CheckpointInfo :=
  s ← get_state;
  checkpoint ← on_persistence persist_checkpoint;
  _ ← db_lift (ensure (cp_applied_index checkpoint =? last_applied (st_engine s))
         (DbInvariant ("checkpoint index " +:+ pretty (cp_applied_index checkpoint) +:+ " disagrees with engine "
                       +:+ pretty (last_applied (st_engine s)))));
  mret (mkCheckpointInfo (cp_applied_index checkpoint) (cp_end_lsn checkpoint) (cp_through_lsn checkpoint)).

Definition create_snapshot : db DatabaseSnapshot :=
  s ← get_state;
  _ ← db_lift (ensure (bool_decide (st_active s = ∅))
         (ResourceLimit "cannot snapshot while explicit transactions are active"));
  checkpoint ← on_persistence persist_checkpoint;
  _ ← db_lift (ensure (cp_applied_index checkpoint =? last_applied (st_engine s))
         (DbInvariant "snapshot checkpoint disagrees with engine applied index"));
  _ ← db_lift (validate_durable_requests (st_engine s) (st_requests s));
  state_hash ← db_lift (ok_or (last_apply_hash (st_engine s)) (DbInvariant "cannot snapshot the unapplied genesis state"));
  let envelope := mkDatabaseSnapshotEnvelope DATABASE_SNAPSHOT_FORMAT (snapshot (st_engine s))
                    (btree_map_iter (st_requests s)) in
  bytes ← db_lift (map_err (λ error, DbInvariant ("database snapshot encode failed: " +:+ error)) (to_vec envelope));
  _ ← db_lift (ensure (negb (MAX_SNAPSHOT_BYTES <? zlen bytes))
         (ResourceLimit ("database snapshot is " +:+ pretty (zlen bytes) +:+ " bytes; maximum is "
                         +:+ pretty MAX_SNAPSHOT_BYTES)));
  mret (mkDatabaseSnapshot (last_applied (st_engine s)) state_hash bytes).

(** The loop over the requests of a snapshot. *)
Definition load_request (requests : DurableRequests) (p : bytes * DurableRequestRecord) : dbresult DurableRequests :=
  _ ← ensure (bool_decide (requests !! p.1 = None))
        (Corruption "database snapshot contains a duplicate client record");
  Ok (<[p.1 := p.2]> requests).

Definition decode_database_snapshot (bytes : bytes) : dbresult (Engine * DurableRequests) :=
  _ ← ensure (negb (bool_decide (bytes = []) || (MAX_SNAPSHOT_BYTES <? zlen bytes)))
        (ResourceLimit ("database snapshot length " +:+ pretty (zlen bytes) +:+ " is outside 1..="
                        +:+ pretty MAX_SNAPSHOT_BYTES +:+ " bytes"));
  envelope ← map_err (λ error, Corruption ("database snapshot decode failed: " +:+ error))
    (from_slice bytes : result string DatabaseSnapshotEnvelope);
  _ ← ensure (env_format envelope =? DATABASE_SNAPSHOT_FORMAT)
        (Corruption ("unsupported database snapshot format " +:+ pretty (env_format envelope)));
  engine ← from_engine (from_snapshot (env_engine envelope));
  requests ← foldM load_request ∅ (env_requests envelope);
  _ ← validate_durable_requests engine requests;
  Ok (engine, requests).

Definition install_decoded_snapshot (engine : Engine) (requests : DurableRequests) : db unit :=
  s ← get_state;
  _ ← db_lift (ensure (bool_decide (st_active s = ∅))
         (ResourceLimit "cannot install a snapshot while explicit transactions are active"));
  match last_applied engine ?= last_applied (st_engine s) with
  | Lt => db_err (Corruption ("snapshot index " +:+ pretty (last_applied engine) +:+ " is behind local database index "
                              +:+ pretty (last_applied (st_engine s))))
  | Eq =>
      db_lift (ensure (bool_decide (snapshot engine = snapshot (st_engine s)) && bool_decide (requests = st_requests s))
        (Corruption "snapshot at the local applied index has different state"))
  | Gt =>
      _ ← on_persistence (install_state engine requests);
      put_state (mkDatabaseState engine (st_active s) requests)
  end.

Definition install_snapshot (bytes : bytes) : db unit :=
  '(engine, requests) ← db_lift (decode_database_snapshot bytes);
  install_decoded_snapshot engine requests.

Definition install_snapshot_at (expected_index : Z) (bytes : bytes) : db unit :=
  '(engine, requests) ← db_lift (decode_database_snapshot bytes);
  _ ← db_lift (ensure (last_applied engine =? expected_index)
         (Corruption ("database snapshot index " +:+ pretty (last_applied engine) +:+ " disagrees with Raft boundary "
                      +:+ pretty expected_index)));
  install_decoded_snapshot engine requests.

Definition status : db DatabaseStatus :=
  s ← get_state;
  storage ← on_persistence persist_status;
  _ ← db_lift (ensure (last_applied (st_engine s) =? sb_applied_index (pst_superblock storage))
         (DbInvariant "shared engine and durable pager have different applied indices"));
  active ← db_lift (ok_or (if Z.of_nat (size (st_active s)) <=? u64_max then Some (Z.of_nat (size (st_active s))) else None)
             (ResourceLimit "active transaction count exceeds u64"));
  examined ← db_lift (usize_to_u64 (groups_examined (pst_recovery storage)) "recovery group count");
  replayed ← db_lift (usize_to_u64 (groups_replayed (pst_recovery storage)) "replayed group count");
  pages ← db_lift (usize_to_u64 (pages_replayed (pst_recovery storage)) "replayed page count");
  mret (mkDatabaseStatus (last_applied (st_engine s)) (c_schema_epoch (catalog (st_engine s)))
    (retained_floor (st_engine s)) active (pst_database_pages storage) (pst_wal_bytes storage)
    (checkpoint_lsn (pst_superblock storage)) (root_directory (pst_superblock storage)) examined replayed pages).

Definition prepare_replicated_mutation (leader_term : Z) (client_id : bytes) (sequence : Z) (sql : list Z)
    (parameters : list Value) : db MutationPreparation :=
  parsed ← db_lift (from_sql (parse_statement sql));
  _ ← db_lift (ensure (is_mutating_statement parsed.1)
         (TransactionControl "replicated proposals accept autocommit DDL/DML only"));
  fingerprint ← db_lift (sql_fingerprint sql parameters);
  s ← get_state;
  record ← db_lift (replay_record (st_requests s) client_id sequence fingerprint);
  match record with
  | Some record =>
      result ← db_lift (mutation_result_from_record record (last_applied (st_engine s)));
      mret (Replay result)
  | None =>
      transaction ← db_lift (from_engine (prepare_transaction (st_engine s)));
      '(transaction, output) ← db_lift (on_local (prepare_and_execute_output (st_engine s) parsed parameters) transaction);
      affected_rows ← db_lift (match output with
                               | OutMutation affected_rows => Ok affected_rows
                               | _ => Err (DbInvariant "replicated mutation prepared a non-mutation output")
                               end);
      affected_rows ← db_lift (usize_to_u64 affected_rows "affected row count");
      let command := mkReplicatedMutation REPLICATED_MUTATION_FORMAT
                       (Txn.into_attempt transaction (mkClientRequestId client_id sequence) leader_term)
                       fingerprint affected_rows in
      bytes ← db_lift (map_err (λ error, DbInvariant ("replicated command encode failed: " +:+ error)) (to_vec command));
      _ ← db_lift (ensure (negb (MAX_REPLICATED_COMMAND_BYTES <? zlen bytes))
             (ResourceLimit ("replicated command is " +:+ pretty (zlen bytes) +:+ " bytes; maximum is "
                             +:+ pretty MAX_REPLICATED_COMMAND_BYTES)));
      mret (Propose bytes)
  end.

(** The affected rows a replicated apply reports: those of the durable record. *)
Definition response_rows (requests : DurableRequests) (client_id : bytes) (sequence : Z) (fingerprint : bytes)
    (affected_rows : Z) (outcome : ApplyOutcome) : dbresult Z :=
  match outcome with
  | Applied _ | Duplicate _ =>
      record ← ok_or (match requests !! client_id with
                      | Some record =>
                          if (dr_sequence record =? sequence) && bool_decide (dr_fingerprint record = fingerprint)
                          then Some record else None
                      | None => None
                      end) (DbInvariant "successful replicated apply has no matching durable request record");
      Ok (dr_affected_rows record)
  | Rejected _ | NoopOutcome => Ok affected_rows
  end.

Definition apply_replicated (index : Z) (bytes : bytes) : db ExecutionResult :=
  _ ← db_lift (ensure (negb (MAX_REPLICATED_COMMAND_BYTES <? zlen bytes))
         (ResourceLimit ("replicated command is " +:+ pretty (zlen bytes) +:+ " bytes; maximum is "
                         +:+ pretty MAX_REPLICATED_COMMAND_BYTES)));
  command ← db_lift (map_err (λ error, Corruption ("replicated command decode failed: " +:+ error))
    (from_slice bytes : result string ReplicatedMutation));
  _ ← db_lift (ensure (rm_format command =? REPLICATED_MUTATION_FORMAT)
         (Corruption ("unsupported replicated command format " +:+ pretty (rm_format command))));
  let client_id := client_id (request (rm_attempt command)) in
  let sequence := sequence (request (rm_attempt command)) in
  let apply_hash := sha256 bytes in
  s ← get_state;
  _ ← db_lift (ensure (negb (index <? last_applied (st_engine s)))
         (Corruption ("replicated apply index " +:+ pretty index +:+ " is behind durable database index "
                      +:+ pretty (last_applied (st_engine s)))));
  '(candidate, outcome) ← db_lift (from_engine
     (apply_with_request_hash (st_engine s) index apply_hash (rm_fingerprint command) (rm_attempt command)));
  _ ← (if index =? last_applied (st_engine s) then
         db_lift (validate_durable_replay (st_requests s) client_id sequence (rm_fingerprint command)
                    (rm_affected_rows command) outcome)
       else publish_candidate candidate outcome client_id sequence (rm_fingerprint command) (rm_affected_rows command));
  s ← get_state;
  affected_rows ← db_lift (response_rows (st_requests s) client_id sequence (rm_fingerprint command)
                    (rm_affected_rows command) outcome);
  db_lift (replicated_outcome outcome affected_rows index).

Definition apply_raft_noop (index term : Z) : db unit :=
  let hash := raft_noop_hash index term in
  s ← get_state;
  _ ← db_lift (ensure (negb (index <? last_applied (st_engine s)))
         (Corruption ("Raft no-op index " +:+ pretty index +:+ " is behind durable database index "
                      +:+ pretty (last_applied (st_engine s)))));
  '(candidate, outcome) ← db_lift (from_engine (apply_noop (st_engine s) index hash));
  _ ← db_lift (ensure (bool_decide (outcome = NoopOutcome)) (DbInvariant "Raft no-op produced a transaction outcome"));
  if last_applied (st_engine s) <? index then
    _ ← on_persistence (persist_state candidate (st_requests s));
    put_state (with_engine candidate s)
  else mret tt.

Definition execute_in_transaction (transaction_id : Z) (parsed : SqlStatement * Span) (parameters : list Value)
    : db ExecutionResult :=
  s ← get_state;
  original ← db_lift (ok_or (st_active s !! transaction_id) (TransactionNotFound transaction_id));
  _ ← put_state (with_active (delete transaction_id (st_active s)) s);
  let '(result, staged) := prepare_and_execute (st_engine s) parsed parameters original in
  s ← get_state;
  match result with
  | Ok result =>
      _ ← put_state (with_active (<[transaction_id := staged]> (st_active s)) s);
      mret result
  | Err error =>
      _ ← put_state (with_active (<[transaction_id := original]> (st_active s)) s);
      db_err error
  end.

Definition execute_autocommit (client_id : bytes) (sequence : Z) (sql : list Z) (parsed : SqlStatement * Span)
    (parameters : list Value) : db ExecutionResult :=
  s ← get_state;
  fingerprint ← db_lift (sql_fingerprint sql parameters);
  record ← db_lift (if is_mutating_statement parsed.1
                    then replay_record (st_requests s) client_id sequence fingerprint else Ok None);
  match record with
  | Some record => db_lift (mutation_result_from_record record (last_applied (st_engine s)))
  | None =>
      '(engine, transaction) ← db_lift (from_engine (begin (st_engine s)));
      _ ← put_state (with_engine engine s);
      '(transaction, output) ← db_lift (on_local (prepare_and_execute_output engine parsed parameters) transaction);
      if Txn.is_read_only transaction then db_lift (statement_output output (last_applied engine)) else
      affected_rows ← db_lift (match output with
                               | OutMutation affected_rows => usize_to_u64 affected_rows "affected row count"
                               | _ => Err (DbInvariant "read-only output unexpectedly staged a mutation")
                               end);
      outcome ← apply_transaction transaction client_id sequence fingerprint affected_rows;
      s ← get_state;
      match outcome with
      | Applied result | Duplicate result =>
          info ← db_lift (commit_info_from_result result (last_applied (st_engine s)));
          mret (mutation_result affected_rows (ci_applied_index info))
      | Rejected rejection => db_err (RequestRejected rejection)
      | NoopOutcome => db_err (DbInvariant "autocommit transaction produced a Raft no-op")
      end
  end.

(** BEGIN, COMMIT and ROLLBACK accept no parameters. *)
Definition no_parameters (statement : string) (parameters : list Value) : dbresult unit :=
  ensure (is_empty parameters) (TransactionControl (statement +:+ " does not accept parameters")).

Definition execute (client_id : bytes) (sequence : Z) (transaction_id : option Z) (sql : list Z)
    (parameters : list Value) : db ExecutionResult :=
  parsed ← db_lift (from_sql (parse_statement sql));
  match parsed.1 with
  | StBegin =>
      _ ← db_lift (ensure (bool_decide (transaction_id = None))
             (TransactionControl "BEGIN cannot run inside an active transaction"));
      _ ← db_lift (no_parameters "BEGIN" parameters);
      info ← begin_transaction;
      mret (ErTransaction info)
  | StCommit =>
      transaction_id ← db_lift (ok_or transaction_id (TransactionControl "COMMIT requires an active transaction id"));
      _ ← db_lift (no_parameters "COMMIT" parameters);
      info ← commit client_id sequence transaction_id;
      mret (ErCommitted info)
  | StRollback =>
      transaction_id ← db_lift (ok_or transaction_id (TransactionControl "ROLLBACK requires an active transaction id"));
      _ ← db_lift (no_parameters "ROLLBACK" parameters);
      _ ← rollback transaction_id;
      mret ErRolledBack
  | _ =>
      match transaction_id with
      | Some transaction_id => execute_in_transaction transaction_id parsed parameters
      | None => execute_autocommit client_id sequence sql parsed parameters
      end
  end.

Definition execute_read_only (client_id : bytes) (sequence : Z) (sql : list Z) (parameters : list Value)
    : db ExecutionResult :=
  parsed ← db_lift (from_sql (parse_statement sql));
  _ ← db_lift (ensure (match parsed.1 with StSelect _ | StExplain _ _ => true | _ => false end)
         (TransactionControl "linearizable read path accepts SELECT or EXPLAIN only"));
  execute client_id sequence None sql parameters.
End Database.

Arguments Database : clear implicits.
