(* ===== verification/DbProps.v ===== *)
(** * The database keeps its promises

    Every operation keeps the shared state consistent; what is acknowledged is
    durable; requests take effect once; statements are atomic; prepared
    commands commit; snapshots carry the state over. *)

From Stdlib Require Import Ascii String.
From S2P Require Import Prelude StorageBytes StoragePage StorageIo StorageWal StoragePager CoreTypes CoreCodec EngineExpr EngineCatalog EngineTxn EngineState EngineRecords EngineChains EngineInv EngineCommit EngineSteps EngineProps EngineReads EngineLive SqlAst SqlLexer SqlParser SqlCatalog SqlPlan SqlEval SqlBinder DbExecutor DbDatabase.
Import Exec.

(** ** Operations with effects *)

Section Effects.
Context {S : Type}.

(** What holds of the result and the state after. *)
Definition wp {A} (m : dbio S A) (Q : dbresult A → S → Prop) (s : S) : Prop := Q (m s).1 (m s).2.

Lemma db_wp_bind {A B} (m : dbio S A) (f : A → dbio S B) Q s :
  wp m (λ r s', match r with Ok a => wp (f a) Q s' | Err e => Q (Err e) s' end) s → wp (m ≫= f) Q s.
Proof. unfold wp, mbind, dbio_bind. by destruct (m s) as [[a|e] s']. Qed.

Lemma db_wp_ret {A} (a : A) Q s : Q (Ok a) s → wp (mret a) Q s.
Proof. done. Qed.

Lemma db_wp_lift {A} (r : dbresult A) Q s : Q r s → wp (db_lift r) Q s.
Proof. done. Qed.

Lemma db_wp_lift_bind {A B} (r : dbresult A) (f : A → dbio S B) Q s :
  (∀ a, r = Ok a → wp (f a) Q s) → (∀ e, r = Err e → Q (Err e) s) → wp (db_lift r ≫= f) Q s.
Proof. intros Ho He. apply db_wp_bind, db_wp_lift. destruct r; eauto. Qed.

Lemma db_wp_run {A} (m : dbio S A) (Q : dbresult A → S → Prop) s r s' : m s = (r, s') → wp m Q s → Q r s'.
Proof. unfold wp. by intros ->. Qed.

Lemma db_wp_mono {A} (m : dbio S A) (Q Q' : dbresult A → S → Prop) s : (∀ r s', Q r s' → Q' r s') → wp m Q s → wp m Q' s.
Proof. unfold wp. auto. Qed.

(** Running a successful sequence. *)
Lemma dbio_bind_Ok {A B} (m : dbio S A) (f : A → dbio S B) s b s' :
  (m ≫= f) s = (Ok b, s') ↔ ∃ a s1, m s = (Ok a, s1) ∧ f a s1 = (Ok b, s').
Proof. unfold mbind, dbio_bind. destruct (m s) as [[a|e] s1]; naive_solver. Qed.

Lemma db_lift_Ok {A} (r : dbresult A) (s : S) a s' : db_lift r s = (Ok a, s') ↔ r = Ok a ∧ s' = s.
Proof. unfold db_lift. naive_solver. Qed.

Lemma dbio_run {A B} (m : dbio S A) (f : A → dbio S B) s a s1 : m s = (Ok a, s1) → (m ≫= f) s = f a s1.
Proof. unfold mbind, dbio_bind. by intros ->. Qed.
End Effects.

(** ** Requests and client records *)

Definition request_matches (r : DurableRequestRecord) (k : ClientRecord) : Prop :=
  dr_sequence r = r_sequence k ∧ dr_fingerprint r = r_request_hash k ∧ dr_result r = r_result k.

(** The durable requests are the engine's client records, with row counts. *)
Definition requests_agree (e : Engine) (requests : DurableRequests) : Prop :=
  ∀ c, match requests !! c, clients e !! c with
       | Some r, Some k => request_matches r k
       | None, None => True
       | _, _ => False
       end.

Lemma validate_request_Ok e c r :
  validate_request e (c, r) = Ok tt ↔ ∃ k, clients e !! c = Some k ∧ request_matches r k.
Proof.
  unfold validate_request. destruct (clients e !! c) as [k|]; cbn; [|naive_solver]. rewrite ensure_Ok, negb_true_iff.
  rewrite !orb_false_iff, !negb_false_iff, Z.eqb_eq, !bool_decide_eq_true. unfold request_matches. naive_solver.
Qed.

Lemma requests_agree_dom e requests : requests_agree e requests → dom requests = dom (clients e).
Proof.
  intros Ha. apply set_eq. intros c. rewrite !elem_of_dom. specialize (Ha c).
  destruct (requests !! c), (clients e !! c); naive_solver.
Qed.

Lemma validate_durable_requests_Ok e requests :
  validate_durable_requests e requests = Ok tt ↔ requests_agree e requests.
Proof.
  unfold validate_durable_requests. split.
  - intros (u & Hs%ensure_Ok & (us & Hv%mapM_result_Ok & _)%result_bind_Ok)%result_bind_Ok. bool_prop.
    assert (∀ c r, requests !! c = Some r → ∃ k, clients e !! c = Some k ∧ request_matches r k) as Hall.
    { intros c r Hr%elem_of_btree_map_iter. apply list_elem_of_lookup in Hr as [i Hi].
      destruct (Forall2_lookup_l _ _ _ _ _ Hv Hi) as ([] & _ & Hok). by apply validate_request_Ok. }
    assert (dom requests ≡ dom (clients e)) as Hd.
    { apply set_subseteq_size_equiv; [|rewrite !size_dom; lia].
      intros c. rewrite !elem_of_dom. intros [r Hr]. destruct (Hall _ _ Hr) as (k & Hk & _). eauto. }
    intros c. destruct (requests !! c) as [r|] eqn:Hr.
    + destruct (Hall _ _ Hr) as (k & -> & ?). done.
    + destruct (clients e !! c) as [k|] eqn:Hk; [|done]. apply not_elem_of_dom in Hr. apply Hr, Hd. by eapply elem_of_dom_2.
  - intros Ha. rewrite <- !size_dom, (requests_agree_dom _ _ Ha), Z.eqb_refl. cbn.
    destruct (mapM_result_all (validate_request e) (btree_map_iter requests)) as [us ->]; [|done].
    intros [c r] Hr%elem_of_btree_map_iter. exists tt. apply validate_request_Ok. specialize (Ha c). rewrite Hr in Ha.
    destruct (clients e !! c); [eauto|done].
Qed.

(** ** What statements do to a transaction *)

(** Anything that staging tables, indexes and rows keeps, a statement keeps. *)
Section Statements.
Variable e : Engine.
Variable R : Transaction → Prop.
Hypothesis R_table : ∀ x name schema x' id, R x → create_table e x name schema = Ok (x', id) → R x'.
Hypothesis R_index : ∀ x name t col x' id, R x → create_index e x name t col = Ok (x', id) → R x'.
Hypothesis R_dml : ∀ x d x' b, R x → run_dml e x d = Ok (x', b) → R x'.

Lemma from_engine_Ok {A} (r : result EngineError A) a : from_engine r = Ok a ↔ r = Ok a.
Proof. destruct r; cbn; naive_solver. Qed.

(** A computation that keeps [R], whether it succeeds or fails. *)
Definition keeps {A} (m : dbio Transaction A) : Prop := ∀ x, R x → R (m x).2.

Lemma keeps_bind {A B} (m : dbio Transaction A) (f : A → dbio Transaction B) :
  keeps m → (∀ a, keeps (f a)) → keeps (m ≫= f).
Proof.
  intros Hm Hf x Hx. specialize (Hm x Hx). unfold mbind, dbio_bind. destruct (m x) as [[a|err] x1]; [by apply Hf|done].
Qed.

Lemma keeps_lift {A} (r : dbresult A) : keeps (db_lift r).
Proof. by intros x. Qed.

Lemma keeps_read {A} (f : Transaction → dbresult A) : keeps (db_read f).
Proof. by intros x. Qed.

Lemma keeps_ret {A} (a : A) : keeps (mret a).
Proof. by intros x. Qed.

Lemma keeps_engine {A} (m : Transaction → result EngineError (Transaction * A)) :
  (∀ x x' a, R x → m x = Ok (x', a) → R x') → keeps (on_engine m).
Proof. intros Hm x Hx. unfold on_engine. destruct (m x) as [[x' a]|err] eqn:E; [by eapply Hm|done]. Qed.

Lemma keeps_foldM {A B} (f : B → A → dbio Transaction B) l : (∀ b a, keeps (f b a)) → ∀ b, keeps (db_foldM f b l).
Proof.
  intros Hf. induction l as [|a l IH]; intros b; cbn [db_foldM]; [apply keeps_ret|]. by apply keeps_bind.
Qed.

Ltac keep := repeat first [apply keeps_lift | apply keeps_read | apply keeps_ret | apply keeps_foldM; intros ? ?
  | apply keeps_bind; [|intros ?] | progress case_match].

Lemma update_one_keeps vals t pk asg sel n row : keeps (update_one vals e t pk asg sel n row).
Proof. unfold update_one. keep. apply keeps_engine. intros x x' b. apply (R_dml _ (DUpdate (td_id t) _ _)). Qed.

Lemma delete_one_keeps vals t pk sel n row : keeps (delete_one vals e t pk sel n row).
Proof. unfold delete_one. keep. apply keeps_engine. intros x x' b. apply (R_dml _ (DDelete (td_id t) _)). Qed.

Lemma execute_bound_keeps vals s plan : keeps (execute_bound vals e s plan).
Proof.
  destruct s as [name schema|name t col|t vs|t asg sel|t sel|p out|c|inner]; cbn [execute_bound]; [..|by intros x|by intros x].
  - apply keeps_bind; [|intros ?; apply keeps_ret]. apply keeps_engine. eauto.
  - apply keeps_bind; [|intros ?; apply keeps_ret]. apply keeps_engine. eauto.
  - apply keeps_bind; [apply keeps_lift|]. intros vs'. apply keeps_bind; [|intros ?; apply keeps_ret]. apply keeps_engine.
    intros x x' [] Hx (x1 & H1 & [= ->])%result_bind_Ok.
    eapply (R_dml _ (DInsert (td_id t) (mkRow vs'))); [done|]. cbn. by rewrite H1.
  - apply keeps_bind; [apply keeps_read|intros rows]. apply keeps_bind; [apply keeps_lift|intros pk].
    apply keeps_bind; [apply keeps_foldM; intros ? ?; apply update_one_keeps|intros n; apply keeps_ret].
  - apply keeps_bind; [apply keeps_read|intros rows]. apply keeps_bind; [apply keeps_lift|intros pk].
    apply keeps_bind; [apply keeps_foldM; intros ? ?; apply delete_one_keeps|intros n; apply keeps_ret].
  - keep.
Qed.

(** Whatever becomes of the statement, the transaction it leaves has [R]. *)
Lemma prepare_and_execute_keeps parsed vals : keeps (prepare_and_execute_output e parsed vals).
Proof.
  unfold prepare_and_execute_output. apply keeps_bind; [apply keeps_read|intros c]. do 3 (apply keeps_bind; [apply keeps_lift|intros ?]).
  destruct (bo_statement _); try apply execute_bound_keeps. apply keeps_bind; [apply keeps_lift|intros ?; apply keeps_lift].
Qed.

Lemma statement_keeps x parsed vals x' output :
  R x → on_local (prepare_and_execute_output e parsed vals) x = Ok (x', output) → R x'.
Proof.
  intros Hx. unfold on_local. pose proof (prepare_and_execute_keeps parsed vals x Hx) as Hk.
  destruct (prepare_and_execute_output e parsed vals x) as [[o|err] x1]; [|done]. by intros [= <- <-].
Qed.
End Statements.

(** The identity and the snapshot of a transaction. *)
Definition same_snapshot (x x' : Transaction) : Prop := x_id x' = x_id x ∧ x_read_ts x' = x_read_ts x.

Lemma stage_write_snapshot x w x' : Txn.stage_write x w = Ok x' → same_snapshot x x'.
Proof. intros (k & _ & <-%Ok_inj)%result_bind_Ok. done. Qed.

Lemma run_dml_snapshot e x d x' b : run_dml e x d = Ok (x', b) → same_snapshot x x'.
Proof.
  destruct d; cbn [run_dml]; intros Hr.
  - apply result_bind_Ok in Hr as (x1 & H1 & [= <- <-]).
    apply result_bind_Ok in H1 as (pk & _ & (ex & _ & (u & _ & Hw)%result_bind_Ok)%result_bind_Ok). by eapply stage_write_snapshot.
  - apply result_bind_Ok in Hr as (x1 & H1 & [= <- <-]).
    apply result_bind_Ok in H1 as (pk & _ & Hw). by eapply stage_write_snapshot.
  - apply result_bind_Ok in Hr as ([row'|] & _ & Hr); [|by injection Hr as <- <-].
    apply result_bind_Ok in Hr as (k & _ & (u & _ & (x1 & Hw & [= <- <-])%result_bind_Ok)%result_bind_Ok). by eapply stage_write_snapshot.
  - apply result_bind_Ok in Hr as ([row'|] & _ & Hr); [|by injection Hr as <- <-].
    apply result_bind_Ok in Hr as (x1 & Hw & [= <- <-]). by eapply stage_write_snapshot.
Qed.

Lemma create_table_snapshot e x name schema x' id : create_table e x name schema = Ok (x', id) → same_snapshot x x'.
Proof.
  intros (u & _ & (i & _ & (t & _ & (u' & _ & [= <- <-])%result_bind_Ok)%result_bind_Ok)%result_bind_Ok)%result_bind_Ok. done.
Qed.

Lemma create_index_snapshot e x name t col x' id : create_index e x name t col = Ok (x', id) → same_snapshot x x'.
Proof.
  intros (u & _ & (tb & _ & (i & _ & (ix & _ & (u' & _ & [= <- <-])%result_bind_Ok)%result_bind_Ok)%result_bind_Ok)%result_bind_Ok)%result_bind_Ok.
  done.
Qed.

Lemma statement_snapshot e x parsed vals x' output :
  prepare_and_execute e parsed vals x = (output, x') → same_snapshot x x'.
Proof.
  intros Hp. assert (same_snapshot x (prepare_and_execute_output e parsed vals x).2) as Hk;
    [|unfold prepare_and_execute, mbind, dbio_bind in Hp;
      destruct (prepare_and_execute_output e parsed vals x) as [[o|err] x1]; by injection Hp as _ <-].
  apply (prepare_and_execute_keeps e (same_snapshot x)); [..|done].
  - intros x1 name schema x2 id [H1 H2] [H3 H4]%create_table_snapshot. split; congruence.
  - intros x1 name t col x2 id [H1 H2] [H3 H4]%create_index_snapshot. split; congruence.
  - intros x1 d x2 b [H1 H2] [H3 H4]%run_dml_snapshot. split; congruence.
Qed.

(** ** Persistence *)

(** What the invariant below asks of persistence, as an assumption: [stored] is
    what opening the files again would load, and a failed call leaves the old
    state or the new one, it is not known which.  For [FilePersistence],
    [DbDurable] proves the corresponding facts about calls on files at rest with
    well-formed engines: a call that succeeds leaves the new state, a failed
    install or checkpoint one of the two, and so does a failed [persist_state]
    when no checkpoint was taken since the last apply. *)
Class PersistenceLaws (P : Type) `{Persistence P} := {
  stored : P → Engine * DurableRequests;
  persist_spec e r p :
    let '(res, p') := persist_state e r p in
    match res with Ok _ => stored p' = (e, r) | Err _ => stored p' = stored p ∨ stored p' = (e, r) end;
  install_spec e r p :
    let '(res, p') := install_state e r p in
    match res with Ok _ => stored p' = (e, r) | Err _ => stored p' = stored p ∨ stored p' = (e, r) end;
  checkpoint_spec p : stored (persist_checkpoint p).2 = stored p;
  status_spec p : stored (persist_status p).2 = stored p
}.

Section Invariant.
Context {P : Type} {Hpers : Persistence P} {Hlaws : PersistenceLaws P} {Hsha : Sha256} {Huni : UnicodeTables}.
Context {Hcmd : SerdeJson ReplicatedMutation} {Henv : SerdeJson DatabaseSnapshotEnvelope}.

Abbreviation db := (dbio (Database P)).
Abbreviation engine d := (st_engine (db_state d)).
Abbreviation active d := (st_active (db_state d)).
Abbreviation requests d := (st_requests (db_state d)).

(** An open transaction is known under its own id, ids are not used twice, and
    it reads a snapshot that exists. *)
Definition active_ok (e : Engine) (id : Z) (x : Transaction) : Prop :=
  x_id x = id ∧ id < next_txn_id e ∧ x_read_ts x ≤ last_applied e.

Record db_ok (d : Database P) : Prop := {
  ok_requests : requests_agree (engine d) (requests d);
  ok_active : map_Forall (active_ok (engine d)) (active d);
  ok_limit : Z.of_nat (size (active d)) ≤ max_active_transactions d
}.

(** Engines that differ in the next transaction id only: opening a transaction
    is not persisted. *)
Definition same_engine (e e' : Engine) : Prop := set_next_txn_id 0 e = set_next_txn_id 0 e'.

Definition same_published (d d' : Database P) : Prop :=
  same_engine (engine d) (engine d') ∧ requests d = requests d'.

Definition in_sync (d : Database P) : Prop :=
  same_engine (stored (db_persistence d)).1 (engine d) ∧ (stored (db_persistence d)).2 = requests d.

Definition is_Err {A} (r : dbresult A) : Prop := match r with Ok _ => False | Err _ => True end.

(** Nothing was published and nothing was written. *)
Definition quiet (d d' : Database P) : Prop :=
  same_published d d' ∧ stored (db_persistence d') = stored (db_persistence d).

(** After an operation: in sync, or it failed and the shared state is as before. *)
Definition durable {A} (d : Database P) (r : dbresult A) (d' : Database P) : Prop :=
  in_sync d → in_sync d' ∨ (is_Err r ∧ same_published d d').

Definition post {A} (d : Database P) (r : dbresult A) (d' : Database P) : Prop := db_ok d' ∧ durable d r d'.

Lemma quiet_refl d : quiet d d.
Proof. done. Qed.

Lemma quiet_sync d d' : quiet d d' → in_sync d → in_sync d'.
Proof.
  intros [[He Hr] Hs] [H1 H2]. unfold in_sync. rewrite Hs, <- Hr. split; [|done]. unfold same_engine in *. congruence.
Qed.

Lemma quiet_post {A} d (r : dbresult A) d' : db_ok d' → quiet d d' → post d r d'.
Proof. intros Hk Hq. split; [done|]. intros Hs. left. by eapply quiet_sync. Qed.

(** ** Applying *)

Lemma evaluate_next_txn e n a e1 r : evaluate_and_apply e n a = (e1, r) → next_txn_id e1 = next_txn_id e.
Proof.
  rewrite evaluate_and_apply_eq. destruct (validate_attempt_for_apply e a) as [[c ixs]|]; [|by intros [= <- _]].
  destruct (mapM_result _ _); by intros [= <- _].
Qed.

(** What applying a new entry does to the records of clients. *)
Lemma apply_new e i h rh a e' o :
  apply_with_request_hash e i h rh a = Ok (e', o) → i ≠ last_applied e →
  last_applied e' = last_applied e + 1 ∧ next_txn_id e' = next_txn_id e
  ∧ match o with
    | Applied r => clients e' = <[client_id (request a) := mkClientRecord (sequence (request a)) rh r]> (clients e)
    | Duplicate r => clients e' = clients e
        ∧ clients e !! client_id (request a) = Some (mkClientRecord (sequence (request a)) rh r)
    | Rejected _ => clients e' = clients e
    | NoopOutcome => False
    end.
Proof.
  intros [(Hi & _)|(Hi & _ & e1 & Hnow & ->)]%apply_inv Hne; [done|]. destruct Hnow as [e1 r Had Hev|r Had|r Had]; cbn.
  - rewrite (evaluate_clients _ _ _ _ _ Hev), (evaluate_next_txn _ _ _ _ _ Hev). done.
  - split_and!; try done. unfold admit_request in Had. destruct (clients e !! client_id (request a)) as [k|]; [|by destruct (_ =? _)].
    destruct (Z.compare_spec (sequence (request a)) (r_sequence k)) as [Heq|?|?]; [|done|by destruct (_ =? _)].
    case_bool_decide; [|done]. injection Had as <-. subst. rewrite Heq. by destruct k.
  - done.
Qed.

Lemma requests_agree_insert e e' requests c s fp r n :
  requests_agree e requests → clients e' = <[c := mkClientRecord s fp r]> (clients e) →
  requests_agree e' (<[c := mkDurableRequestRecord s fp r n]> requests).
Proof.
  intros Ha Hc c'. rewrite Hc. destruct (decide (c = c')) as [<-|Hne].
  - by rewrite !lookup_insert_eq.
  - rewrite !lookup_insert_ne by done. apply Ha.
Qed.

Lemma requests_agree_same e e' requests : requests_agree e requests → clients e' = clients e → requests_agree e' requests.
Proof. intros Ha Hc c. rewrite Hc. apply Ha. Qed.

Lemma active_grows e e' (m : gmap Z Transaction) :
  map_Forall (active_ok e) m → next_txn_id e ≤ next_txn_id e' → last_applied e ≤ last_applied e' →
  map_Forall (active_ok e') m.
Proof. intros Hm H1 H2 id x Hx. destruct (Hm id x Hx) as (? & ? & ?). split_and!; [done|lia..]. Qed.

(** Publishing: the same open transactions over a later engine. *)
Definition advanced {A} (d : Database P) (r : dbresult A) (d' : Database P) : Prop :=
  post d r d' ∧ active d' = active d ∧ max_active_transactions d' = max_active_transactions d
  ∧ next_txn_id (engine d) ≤ next_txn_id (engine d') ∧ last_applied (engine d) ≤ last_applied (engine d').

Lemma quiet_advanced {A} d (r : dbresult A) : db_ok d → advanced d r d.
Proof. intros Hk. split_and!; try done. by apply quiet_post. Qed.

(** Writing a candidate and making it the shared state. *)
Lemma persist_advanced d candidate rq :
  db_ok d → requests_agree candidate rq → next_txn_id (engine d) = next_txn_id candidate →
  last_applied (engine d) ≤ last_applied candidate →
  wp (_ ← on_persistence (persist_state candidate rq); put_state (mkDatabaseState candidate (active d) rq))
     (advanced d) d.
Proof.
  intros [Hr Ha Hl] Hrq Hn Hla. unfold wp, mbind, dbio_bind, on_persistence.
  pose proof (persist_spec candidate rq (db_persistence d)) as Hs.
  destruct (persist_state candidate rq (db_persistence d)) as [[[]|err] p]; cbn.
  - split_and!; try done; [|cbn; lia]. split.
    + split; cbn; [done| |done]. eapply active_grows; [done|lia|done].
    + intros _. left. unfold in_sync. cbn. by rewrite Hs.
  - split_and!; try done. split; [done|]. intros _. right. done.
Qed.

Lemma publish_advanced d i h fp a candidate o rows :
  db_ok d → apply_with_request_hash (engine d) i h fp a = Ok (candidate, o) → i ≠ last_applied (engine d) →
  wp (publish_candidate candidate o (client_id (request a)) (sequence (request a)) fp rows) (advanced d) d.
Proof.
  intros Hk Hx Hne. destruct (apply_new _ _ _ _ _ _ _ Hx Hne) as (Hla & Hn & Ho).
  assert (∀ rq, requests_agree candidate rq →
    wp (_ ← on_persistence (persist_state candidate rq); put_state (mkDatabaseState candidate (active d) rq)) (advanced d) d) as Hp
    by (intros rq Hrq; apply persist_advanced; [done|done|done|lia]).
  unfold publish_candidate. apply db_wp_bind. change (wp get_state ?Q d) with (Q (Ok (db_state d)) d). cbn beta iota.
  apply db_wp_bind. destruct o as [r|r|r|]; [|..|done].
  - apply db_wp_ret, Hp. by eapply requests_agree_insert; [apply Hk|].
  - destruct Ho as [Hc Hrec]. pose proof (ok_requests _ Hk (client_id (request a))) as Hm. rewrite Hrec in Hm.
    destruct (requests d !! client_id (request a)) as [rec|]; [|done]. destruct Hm as (H1 & H2 & H3). cbn in *.
    apply db_wp_lift_bind; [|intros err _; by apply quiet_advanced]. intros _ _. apply db_wp_ret, Hp.
    by eapply requests_agree_same; [apply Hk|].
  - apply db_wp_ret, Hp. by eapply requests_agree_same; [apply Hk|].
Qed.

Lemma advanced_result {A B} d (r : dbresult A) (r' : dbresult B) d' :
  (is_Err r → is_Err r') → advanced d r d' → advanced d r' d'.
Proof. intros He ((Hk & Hd) & Hr). split; [|done]. split; [done|]. intros Hs. destruct (Hd Hs) as [?|[? ?]]; [by left|right; auto]. Qed.

(** Reading and replacing the shared state. *)
Lemma db_wp_get {A} (f : DatabaseState → db A) Q d : wp (f (db_state d)) Q d → wp (get_state ≫= f) Q d.
Proof. done. Qed.

Lemma db_wp_put {A} s (f : unit → db A) Q d :
  wp (f tt) Q (mkDatabase s (db_persistence d) (max_active_transactions d)) → wp (put_state s ≫= f) Q d.
Proof. done. Qed.

Lemma apply_transaction_advanced d x c n fp rows :
  db_ok d → wp (apply_transaction x c n fp rows) (advanced d) d.
Proof.
  intros Hk. unfold apply_transaction. apply db_wp_get.
  apply db_wp_lift_bind; [|intros err _; by apply quiet_advanced]. intros hash _.
  apply db_wp_lift_bind; [|intros err _; by apply quiet_advanced]. intros i Hi%ok_or_Ok%checked_add_Some.
  apply db_wp_lift_bind; [|intros err _; by apply quiet_advanced]. intros [candidate o] Hx%from_engine_Ok.
  apply db_wp_bind. eapply db_wp_mono; [|exact (publish_advanced d i hash fp _ candidate o rows Hk Hx ltac:(lia))].
  intros [[]|err] d' Ha; [apply db_wp_ret|]; (eapply advanced_result; [|exact Ha]; done).
Qed.

(** The database with other open transactions. *)
Definition with_open (m : gmap Z Transaction) (d : Database P) : Database P :=
  mkDatabase (with_active m (db_state d)) (db_persistence d) (max_active_transactions d).

Lemma with_open_ok m d :
  db_ok d → map_Forall (active_ok (engine d)) m → Z.of_nat (size m) ≤ max_active_transactions d → db_ok (with_open m d).
Proof. by intros [Hr _ _] Hm Hs. Qed.

Lemma delete_open_ok d id : db_ok d → db_ok (with_open (delete id (active d)) d).
Proof.
  intros Hk. apply with_open_ok; [done|by apply map_Forall_delete, Hk|]. pose proof (ok_limit _ Hk).
  rewrite map_size_delete. destruct (active d !! id); cbn; lia.
Qed.

(** Putting a transaction back under its id, after the database advanced. *)
Lemma reopen_ok d d' id x x' :
  db_ok d → active d !! id = Some x → same_snapshot x x' → db_ok d' → active d' = delete id (active d) →
  max_active_transactions d' = max_active_transactions d →
  next_txn_id (engine d) ≤ next_txn_id (engine d') → last_applied (engine d) ≤ last_applied (engine d') →
  db_ok (with_open (<[id := x']> (active d')) d').
Proof.
  intros Hk Hx [Hid Hts] Hk' Ha Hm Hn Hl. destruct (ok_active _ Hk _ _ Hx) as (H1 & H2 & H3). apply with_open_ok; [done|..].
  - apply map_Forall_insert_2; [|apply Hk']. split_and!; [congruence|lia|lia].
  - rewrite Ha, map_size_insert_None by apply lookup_delete_eq. rewrite Hm. pose proof (ok_limit _ Hk).
    rewrite map_size_delete, Hx. pose proof (map_size_ne_0_lookup_2 (active d) id ltac:(eauto)). lia.
Qed.

Lemma post_with_open {A} d (r : dbresult A) d' m m' :
  durable (with_open m d) r d' → db_ok (with_open m' d') → post d r (with_open m' d').
Proof. intros Hd Hk. split; [done|]. intros Hs. destruct (Hd Hs) as [?|[? ?]]; [by left|by right]. Qed.

Lemma commit_post d c n id : db_ok d → wp (commit c n id) (post d) d.
Proof.
  intros Hk. unfold commit. apply db_wp_get. destruct (active d !! id) as [x|] eqn:Hx.
  - apply db_wp_put. set (d1 := mkDatabase _ _ _).
    assert (d1 = with_open (delete id (active d)) d) as Hd1 by done. clearbody d1.
    assert (db_ok d1) as Hk1 by (subst; by apply delete_open_ok).
    assert (quiet d d1) as Hq by (by subst).
    apply db_wp_lift_bind; [|intros err _; by apply quiet_post]. intros rows _.
    apply db_wp_bind. pose proof (apply_transaction_advanced d1 x c n (commit_fingerprint id) rows Hk1) as Ha.
    unfold wp, db_try in Ha |- *. destruct (apply_transaction x c n (commit_fingerprint id) rows d1) as [o d2]. cbn in Ha |- *.
    destruct Ha as ([Hk2 Hd2] & Hact & Hmax & Hn & Hl).
    assert (∀ {B} (r : dbresult B), (is_Err o → is_Err r) → post d r d2) as Hdone.
    { intros B r Hr. split; [done|]. intros Hs. subst d1. destruct (Hd2 Hs) as [?|[? ?]]; [by left|right; auto]. }
    assert (∀ {B} (r : dbresult B), (is_Err o → is_Err r) → post d r (with_open (<[id := x]> (active d2)) d2)) as Hback.
    { intros B r Hr. subst d1. destruct (Hdone B r Hr) as [_ Hd']. split; [|exact Hd'].
      eapply (reopen_ok d); eauto. done. }
    destruct o as [[r|r|r|]|err]; cbn; first [by apply Hdone|by apply Hback].
  - apply db_wp_lift_bind; [|intros err _; by apply quiet_post]. intros [rec|] _; by apply quiet_post.
Qed.

Lemma rollback_post d id : db_ok d → wp (rollback id) (post d) d.
Proof.
  intros Hk. unfold rollback. apply db_wp_get, db_wp_lift_bind; [|intros err _; by apply quiet_post]. intros x _.
  apply (quiet_post d (Ok tt)); [by apply (delete_open_ok d)|done].
Qed.

Lemma begin_inv e e' x :
  begin e = Ok (e', x) →
  e' = set_next_txn_id (next_txn_id e + 1) e ∧ x = Txn.new (next_txn_id e) (last_applied e) (c_schema_epoch (catalog e)).
Proof.
  intros (u & _ & (u1 & _ & (u2 & _ & (nx & [-> _]%ok_or_Ok%checked_add_Some & [= <- <-])%result_bind_Ok)%result_bind_Ok)%result_bind_Ok)%result_bind_Ok.
  done.
Qed.

Lemma begin_post d : db_ok d → wp begin_transaction (post d) d.
Proof.
  intros Hk. unfold begin_transaction. apply db_wp_get. apply db_wp_bind. cbn [wp fst snd].
  apply db_wp_lift_bind; [|intros err _; by apply quiet_post]. intros _ Hlim%ensure_Ok.
  apply db_wp_lift_bind; [|intros err _; by apply quiet_post]. intros [e' x] [-> ->]%from_engine_Ok%begin_inv.
  apply db_wp_put. cbn [x_id x_read_ts Txn.new].
  assert (∀ {A} (r : dbresult A), post d r (mkDatabase (mkDatabaseState (set_next_txn_id (next_txn_id (engine d) + 1) (engine d))
    (<[next_txn_id (engine d) := Txn.new (next_txn_id (engine d)) (last_applied (engine d)) (c_schema_epoch (catalog (engine d)))]> (active d))
    (requests d)) (db_persistence d) (max_active_transactions d))) as Hpost.
  { intros A r. apply quiet_post; [|done]. split; cbn.
    - apply Hk.
    - apply map_Forall_insert_2; [split_and!; cbn; (done || lia)|]. eapply active_grows; [apply Hk|cbn; lia|done].
    - bool_prop. rewrite map_size_insert_None; [lia|]. apply eq_None_not_Some. intros [x Hx].
      destruct (ok_active _ Hk _ _ Hx) as (_ & Hlt & _). lia. }
  apply db_wp_lift_bind; [intros _ _; apply db_wp_ret|intros err _]; apply Hpost.
Qed.

Lemma db_ok_persistence d p : db_ok d → db_ok (mkDatabase (db_state d) p (max_active_transactions d)).
Proof. by intros [? ? ?]. Qed.

(** A read of persistence changes neither state. *)
Lemma on_persistence_quiet {A B} (m : dbio P A) (f : A → db B) d :
  (∀ p, stored (m p).2 = stored p) → db_ok d → (∀ a d', db_ok d' → quiet d d' → wp (f a) (post d) d') →
  wp (on_persistence m ≫= f) (post d) d.
Proof.
  intros Hm Hk Hf. apply db_wp_bind. unfold wp at 1, on_persistence. specialize (Hm (db_persistence d)).
  destruct (m (db_persistence d)) as [r p]. cbn in Hm |- *. set (d' := mkDatabase _ _ _).
  assert (db_ok d') as Hk' by (by apply db_ok_persistence). assert (quiet d d') as Hq by done.
  destruct r; [by apply Hf|by apply quiet_post].
Qed.

Lemma checkpoint_post d : db_ok d → wp checkpoint (post d) d.
Proof.
  intros Hk. unfold checkpoint. apply db_wp_get, on_persistence_quiet; [apply checkpoint_spec|done|]. intros cp d' Hk' Hq.
  apply db_wp_lift_bind; [intros _ _; apply db_wp_ret|intros err _]; by apply quiet_post.
Qed.

Lemma status_post d : db_ok d → wp status (post d) d.
Proof.
  intros Hk. unfold status. apply db_wp_get, on_persistence_quiet; [apply status_spec|done|]. intros st d' Hk' Hq.
  do 5 (apply db_wp_lift_bind; [intros ? _|intros err _; by apply quiet_post]). apply db_wp_ret. by apply quiet_post.
Qed.

Lemma create_snapshot_post d : db_ok d → wp create_snapshot (post d) d.
Proof.
  intros Hk. unfold create_snapshot. apply db_wp_get.
  apply db_wp_lift_bind; [intros _ _|intros err _; by apply quiet_post].
  apply on_persistence_quiet; [apply checkpoint_spec|done|]. intros cp d' Hk' Hq.
  do 5 (apply db_wp_lift_bind; [intros ? _|intros err _; by apply quiet_post]). apply db_wp_ret. by apply quiet_post.
Qed.

Lemma decode_snapshot_agree b e rq : decode_database_snapshot b = Ok (e, rq) → requests_agree e rq.
Proof.
  intros (u & _ & (env & _ & (u1 & _ & (e' & _ & (rq' & _ & ([] & Hv & [= <- <-])%result_bind_Ok)%result_bind_Ok)%result_bind_Ok)%result_bind_Ok)%result_bind_Ok)%result_bind_Ok.
  by apply validate_durable_requests_Ok.
Qed.

Lemma install_decoded_post d e rq : db_ok d → requests_agree e rq → wp (install_decoded_snapshot e rq) (post d) d.
Proof.
  intros Hk Hrq. unfold install_decoded_snapshot. apply db_wp_get.
  apply db_wp_lift_bind; [intros _ Ha%ensure_Ok|intros err _; by apply quiet_post]. bool_prop.
  destruct (_ ?= _); [apply db_wp_lift; by apply quiet_post|by apply (quiet_post d)|].
  apply db_wp_bind. unfold wp at 1, on_persistence. pose proof (install_spec e rq (db_persistence d)) as Hs.
  destruct (install_state e rq (db_persistence d)) as [[[]|err] p]; cbn.
  - split; [split; cbn; [done| |]|].
    + rewrite Ha. apply map_Forall_empty.
    + rewrite Ha, map_size_empty. pose proof (ok_limit _ Hk). lia.
    + intros _. left. unfold in_sync. cbn. by rewrite Hs.
  - split; [by apply db_ok_persistence|]. intros _. by right.
Qed.

Lemma install_post d b : db_ok d → wp (install_snapshot b) (post d) d.
Proof.
  intros Hk. unfold install_snapshot. apply db_wp_lift_bind; [intros [e rq] Hd|intros err _; by apply quiet_post].
  apply install_decoded_post; [done|]. by eapply decode_snapshot_agree.
Qed.

Lemma install_at_post d i b : db_ok d → wp (install_snapshot_at i b) (post d) d.
Proof.
  intros Hk. unfold install_snapshot_at. apply db_wp_lift_bind; [intros [e rq] Hd|intros err _; by apply quiet_post].
  apply db_wp_lift_bind; [intros _ _|intros err _; by apply quiet_post].
  apply install_decoded_post; [done|]. by eapply decode_snapshot_agree.
Qed.

Lemma prepare_post d term c n sql vals : db_ok d → wp (prepare_replicated_mutation term c n sql vals) (λ r d', d' = d) d.
Proof.
  intros Hk. unfold prepare_replicated_mutation.
  do 3 (apply db_wp_lift_bind; [intros ? _|done]). apply db_wp_get. apply db_wp_lift_bind; [intros [rec|] _|done].
  - by apply db_wp_lift_bind.
  - apply db_wp_lift_bind; [intros ? _|done]. apply db_wp_lift_bind; [intros [x o] _|done].
    by do 4 (apply db_wp_lift_bind; [intros ? _|done]).
Qed.

Lemma apply_replicated_post d i b : db_ok d → wp (apply_replicated i b) (post d) d.
Proof.
  intros Hk. unfold apply_replicated. do 3 (apply db_wp_lift_bind; [intros ? _|intros err _; by apply quiet_post]).
  apply db_wp_get. apply db_wp_lift_bind; [intros ? _|intros err _; by apply quiet_post].
  apply db_wp_lift_bind; [intros [candidate o] Hx%from_engine_Ok|intros err _; by apply quiet_post].
  destruct (Z.eqb_spec i (last_applied (engine d))) as [Hi|Hi].
  - apply db_wp_lift_bind; [intros ? _|intros err _; by apply quiet_post].
    apply db_wp_get, db_wp_lift_bind; [intros ? _|intros err _]; by apply quiet_post.
  - apply db_wp_bind. eapply db_wp_mono; [|exact (publish_advanced d i _ _ _ candidate o _ Hk Hx Hi)].
    intros r d' Ha. cbn beta.
    assert (∀ r' : dbresult ExecutionResult, (is_Err r → is_Err r') → post d r' d') as Hpost
      by (intros r' Hr; apply (advanced_result _ _ r' _ Hr Ha)).
    destruct r as [[]|err]; [|by apply Hpost].
    apply db_wp_get, db_wp_lift_bind; [intros rows _; apply db_wp_lift|intros err _]; by apply Hpost.
Qed.

Lemma apply_noop_clients e i h e' o :
  apply_noop e i h = Ok (e', o) → last_applied e < i →
  clients e' = clients e ∧ next_txn_id e' = next_txn_id e ∧ last_applied e' = i.
Proof.
  unfold apply_noop. destruct (Z.eqb_spec i (last_applied e)) as [->|]; [lia|].
  intros (x & _ & (u & _ & [= <- <-])%result_bind_Ok)%result_bind_Ok. done.
Qed.

Lemma noop_post d i t : db_ok d → wp (apply_raft_noop i t) (post d) d.
Proof.
  intros Hk. unfold apply_raft_noop. apply db_wp_get. apply db_wp_lift_bind; [intros ? _|intros err _; by apply quiet_post].
  apply db_wp_lift_bind; [intros [e' o] Hx%from_engine_Ok|intros err _; by apply quiet_post].
  apply db_wp_lift_bind; [intros ? _|intros err _; by apply quiet_post].
  destruct (Z.ltb_spec (last_applied (engine d)) i) as [Hlt|]; [|by apply (quiet_post d (Ok tt))].
  destruct (apply_noop_clients _ _ _ _ _ Hx Hlt) as (Hc & Hn & Hl).
  eapply db_wp_mono; [|apply (persist_advanced d e' (requests d))]; [intros r d' Ha; apply Ha|done| |done|lia].
  eapply requests_agree_same; [apply Hk|done].
Qed.

Lemma execute_in_transaction_post d id parsed vals : db_ok d → wp (execute_in_transaction id parsed vals) (post d) d.
Proof.
  intros Hk. unfold execute_in_transaction. apply db_wp_get.
  apply db_wp_lift_bind; [intros x Hx%ok_or_Ok|intros err _; by apply quiet_post]. apply db_wp_put.
  assert (∀ x', same_snapshot x x' → db_ok (with_open (<[id := x']> (delete id (active d))) d)) as Hre.
  { intros x' Hxx. refine (reopen_ok d (with_open (delete id (active d)) d) id x x' Hk Hx Hxx (delete_open_ok d id Hk) eq_refl eq_refl _ _); done. }
  destruct (prepare_and_execute (engine d) parsed vals x) as [r x'] eqn:Hp. apply db_wp_get.
  destruct r as [r|err]; apply db_wp_put; apply quiet_post; try done; cbn.
  - apply Hre. by eapply statement_snapshot.
  - by apply Hre.
Qed.

Lemma execute_autocommit_post d c n sql parsed vals : db_ok d → wp (execute_autocommit c n sql parsed vals) (post d) d.
Proof.
  intros Hk. unfold execute_autocommit. apply db_wp_get. apply db_wp_lift_bind; [intros fp _|intros err _; by apply quiet_post].
  apply db_wp_lift_bind; [intros [rec|] _|intros err _; by apply quiet_post].
  - apply db_wp_lift. by apply quiet_post.
  - apply db_wp_lift_bind; [intros [e' x] [-> ->]%from_engine_Ok%begin_inv|intros err _; by apply quiet_post]. apply db_wp_put.
    set (d1 := mkDatabase _ _ _). assert (quiet d d1) as Hq by done.
    assert (db_ok d1) as Hk1. { split; [apply Hk| |apply Hk]. eapply active_grows; [apply Hk|cbn; lia|done]. }
    apply db_wp_lift_bind; [intros [x' o] _|intros err _; by apply quiet_post].
    destruct (Txn.is_read_only x'); [apply db_wp_lift; by apply quiet_post|].
    apply db_wp_lift_bind; [intros rows _|intros err _; by apply quiet_post]. apply db_wp_bind.
    eapply db_wp_mono; [|exact (apply_transaction_advanced d1 x' c n fp rows Hk1)]. intros r d2 ((Hk2 & Hd) & _).
    assert (∀ {B} (r' : dbresult B), (is_Err r → is_Err r') → post d r' d2) as Hpost.
    { intros B r' Hr. split; [done|]. intros Hs. destruct (Hd (quiet_sync _ _ Hq Hs)) as [?|[? ?]]; [by left|right; auto]. }
    cbn beta. destruct r as [o2|err]; [|by apply Hpost]. apply db_wp_get. destruct o2 as [r|r|r|]; try by apply (Hpost).
    + apply db_wp_lift_bind; [intros info _; apply db_wp_ret|intros err _]; by apply Hpost.
    + apply db_wp_lift_bind; [intros info _; apply db_wp_ret|intros err _]; by apply Hpost.
Qed.

(** ** Every operation *)

Inductive operation : Type :=
| OpBegin
| OpExecute (client_id : bytes) (sequence : Z) (transaction_id : option Z) (sql : list Z) (parameters : list Value)
| OpReadOnly (client_id : bytes) (sequence : Z) (sql : list Z) (parameters : list Value)
| OpCommit (client_id : bytes) (sequence transaction_id : Z)
| OpRollback (transaction_id : Z)
| OpCheckpoint
| OpCreateSnapshot
| OpInstall (bytes_ : bytes)
| OpInstallAt (index : Z) (bytes_ : bytes)
| OpStatus
| OpPrepare (leader_term : Z) (client_id : bytes) (sequence : Z) (sql : list Z) (parameters : list Value)
| OpApply (index : Z) (bytes_ : bytes)
| OpNoop (index term : Z).

(** Running it, whatever it answers. *)
Definition discard {A} (m : db A) : db unit := _ ← m; mret tt.

Definition run_op (op : operation) : db unit :=
  match op with
  | OpBegin => discard begin_transaction
  | OpExecute c n tx sql vals => discard (execute c n tx sql vals)
  | OpReadOnly c n sql vals => discard (execute_read_only c n sql vals)
  | OpCommit c n id => discard (commit c n id)
  | OpRollback id => discard (rollback id)
  | OpCheckpoint => discard checkpoint
  | OpCreateSnapshot => discard create_snapshot
  | OpInstall b => discard (install_snapshot b)
  | OpInstallAt i b => discard (install_snapshot_at i b)
  | OpStatus => discard status
  | OpPrepare term c n sql vals => discard (prepare_replicated_mutation term c n sql vals)
  | OpApply i b => discard (apply_replicated i b)
  | OpNoop i t => discard (apply_raft_noop i t)
  end.

Lemma map_post {A B} (m : db A) (f : A → B) d : wp m (post d) d → wp (a ← m; mret (f a)) (post d) d.
Proof.
  intros Hm. apply db_wp_bind. eapply db_wp_mono; [|exact Hm]. intros [a|err] d' Hp; [apply db_wp_ret|]; exact Hp.
Qed.

Lemma execute_post d c n tx sql vals : db_ok d → wp (execute c n tx sql vals) (post d) d.
Proof.
  intros Hk. unfold execute. apply db_wp_lift_bind; [intros parsed _|intros err _; by apply quiet_post].
  assert (wp match tx with
             | Some id => execute_in_transaction id parsed vals
             | None => execute_autocommit c n sql parsed vals
             end (post d) d) as Hrun by (destruct tx; [by apply execute_in_transaction_post|by apply execute_autocommit_post]).
  destruct parsed.1; try exact Hrun.
  - do 2 (apply db_wp_lift_bind; [intros _ _|intros err _; by apply quiet_post]). by apply map_post, begin_post.
  - do 2 (apply db_wp_lift_bind; [intros ? _|intros err _; by apply quiet_post]). by apply map_post, commit_post.
  - do 2 (apply db_wp_lift_bind; [intros ? _|intros err _; by apply quiet_post]).
    by apply (map_post (rollback _) (λ _, ErRolledBack)), rollback_post.
Qed.

Lemma run_op_post d op : db_ok d → wp (run_op op) (post d) d.
Proof.
  intros Hk. destruct op; apply (map_post _ (λ _, tt)).
  - by apply begin_post.
  - by apply execute_post.
  - unfold execute_read_only. do 2 (apply db_wp_lift_bind; [intros ? _|intros err _; by apply quiet_post]). by apply execute_post.
  - by apply commit_post.
  - by apply rollback_post.
  - by apply checkpoint_post.
  - by apply create_snapshot_post.
  - by apply install_post.
  - by apply install_at_post.
  - by apply status_post.
  - eapply db_wp_mono; [|by apply prepare_post]. intros r d' ->. by apply quiet_post.
  - by apply apply_replicated_post.
  - by apply noop_post.
Qed.

(** One operation after the other. *)
Definition run_ops (ops : list operation) (d : Database P) : Database P := foldl (λ d op, (run_op op d).2) d ops.

(** C22: consistency of the shared state.  From a database whose request records
    agree with the engine and that has no open transaction, as opening leaves
    it, every sequence of operations (whatever their arguments, and whether they
    succeed or fail) keeps: the durable request records are exactly the engine's
    client records; every open transaction is kept under its own id, below the
    next id to be given out, and reads an applied snapshot; and no more
    transactions are open than allowed. *)
Theorem database_consistent ops d :
  requests_agree (engine d) (requests d) → active d = ∅ → 0 ≤ max_active_transactions d → db_ok (run_ops ops d).
Proof.
  intros Hr Ha Hm. assert (db_ok d) as Hk.
  { split; [done|rewrite Ha; apply map_Forall_empty|by rewrite Ha]. }
  clear Hr Ha Hm. unfold run_ops. revert d Hk. induction ops as [|op ops IH]; intros d Hk; cbn [foldl]; [done|].
  apply IH. apply (run_op_post d op Hk).
Qed.

(** C11: acknowledged changes are durable.  Take a database whose files hold its
    shared state.  After any operation the files hold the new shared state, or
    the operation reported an error and the shared engine and request records
    are as before: no client is told of a change, and no later statement sees
    one, that a restart could lose. *)
Theorem acknowledged_is_durable op d r d' :
  db_ok d → in_sync d → run_op op d = (r, d') →
  in_sync d' ∨ (is_Err r ∧ same_published d d').
Proof. intros Hk Hs Hrun. by apply (db_wp_run _ _ _ _ _ Hrun (run_op_post d op Hk)). Qed.

(** ** Statements are atomic *)

Definition is_control (s : SqlStatement) : bool :=
  match s with StBegin | StCommit | StRollback => true | _ => false end.

Lemma execute_statement c n tx sql vals d parsed :
  parse_statement sql = Ok parsed → is_control parsed.1 = false →
  execute c n tx sql vals d
  = match tx with
    | Some id => execute_in_transaction id parsed vals d
    | None => execute_autocommit c n sql parsed vals d
    end.
Proof.
  intros Hp Hc. unfold execute. rewrite Hp. cbn [from_sql map_err].
  rewrite (dbio_run (db_lift (Ok parsed)) _ d parsed d) by done. destruct parsed.1; by destruct tx.
Qed.

(** C25: statements inside a transaction are atomic.  The statement runs on a copy
    of the transaction, which it changes row by row.  When it fails, wherever it
    stops (binding, a constraint, an overflow, the last row of an UPDATE), the
    whole database, the transaction included, is as it was, whatever the copy
    holds by then; when it succeeds, the copy as the statement left it takes the
    place of the transaction, with the same id and snapshot, and nothing else
    changes. *)
Theorem statement_atomic c n id sql vals d r d' parsed :
  parse_statement sql = Ok parsed → is_control parsed.1 = false →
  execute c n (Some id) sql vals d = (r, d') →
  match active d !! id with
  | None => r = Err (TransactionNotFound id) ∧ d' = d
  | Some x =>
      let '(outcome, staged) := prepare_and_execute (engine d) parsed vals x in
      r = outcome
      ∧ match outcome with
        | Ok _ => same_snapshot x staged ∧ d' = with_open (<[id := staged]> (active d)) d
        | Err _ => d' = d
        end
  end.
Proof.
  intros Hp Hc. rewrite (execute_statement _ _ _ _ _ _ parsed) by done. unfold execute_in_transaction.
  destruct d as [[e act rq] p m]. rewrite (dbio_run get_state _ _ (mkDatabaseState e act rq) (mkDatabase (mkDatabaseState e act rq) p m)) by done.
  cbn [st_active db_state st_engine]. destruct (act !! id) as [x|] eqn:Hx; [|by intros [= <- <-]].
  unfold mbind, dbio_bind, put_state, get_state, db_err, mret, dbio_ret, db_lift. cbn.
  destruct (prepare_and_execute e parsed vals x) as [[o|err] staged] eqn:Hs; intros [= <- <-]; (split; [done|]).
  - split; [by eapply statement_snapshot|]. unfold with_open, with_active. cbn. by rewrite insert_delete_eq.
  - unfold with_active. cbn. by rewrite insert_delete_id.
Qed.

(** ** Retries *)

(** The same answer at a later applied index. *)
Definition answered_at (i : Z) (r : ExecutionResult) : ExecutionResult :=
  match r with
  | ErQuery q => ErQuery (mkQueryResult (qr_columns q) (qr_rows q) (qr_affected_rows q) i)
  | r => r
  end.

Lemma replay_record_None rq c n fp rec : replay_record rq c n fp = Ok None → rq !! c = Some rec → dr_sequence rec ≠ n.
Proof.
  unfold replay_record. intros Hr Hc. rewrite Hc in Hr. destruct (Z.eqb_spec (dr_sequence rec) n); [|done]. cbn in Hr.
  by apply result_bind_Ok in Hr as (u & _ & [=]).
Qed.

Lemma replay_record_Some rq c n fp rec :
  replay_record rq c n fp = Ok (Some rec) ↔ rq !! c = Some rec ∧ dr_sequence rec = n ∧ dr_fingerprint rec = fp.
Proof.
  unfold replay_record. destruct (rq !! c) as [rec'|]; [|naive_solver].
  destruct (Z.eqb_spec (dr_sequence rec') n); cbn [negb]; [|naive_solver]. unfold ensure. case_bool_decide; cbn; naive_solver.
Qed.

Lemma commit_info_index res i j info : commit_info_from_result res i = Ok info → is_Err (commit_info_from_result res j) → False.
Proof. destruct res; cbn; [|done]. by destruct (usize_to_u64 _ _). Qed.

(** A published outcome that answers the client leaves its record. *)
Lemma publish_record d candidate o c n fp rows d' :
  publish_candidate candidate o c n fp rows d = (Ok tt, d') →
  engine d' = candidate ∧
  match o with
  | Applied res => requests d' !! c = Some (mkDurableRequestRecord n fp res rows)
  | Duplicate res => (∃ rec, requests d !! c = Some rec ∧ requests d' !! c = Some rec
                       ∧ dr_sequence rec = n ∧ dr_fingerprint rec = fp ∧ dr_result rec = res)
                     ∨ requests d' !! c = Some (mkDurableRequestRecord n fp res rows)
  | Rejected _ => requests d' = requests d
  | NoopOutcome => False
  end.
Proof.
  unfold publish_candidate. intros (s & d0 & [= <- <-] & Hp)%dbio_bind_Ok.
  apply dbio_bind_Ok in Hp as (rq & d1 & Ho & Hp). apply dbio_bind_Ok in Hp as (u & d2 & Hpersist & [= <-]). cbn.
  split; [done|]. destruct o as [res|res|rej|].
  - injection Ho as <- <-. by rewrite lookup_insert_eq.
  - destruct (requests d !! c) as [rec|] eqn:Hc.
    + apply dbio_bind_Ok in Ho as (u' & d3 & [He%ensure_Ok ->]%db_lift_Ok & [= <- <-]). left. exists rec. bool_prop. split_and!; congruence.
    + injection Ho as <- <-. right. by rewrite lookup_insert_eq.
  - by injection Ho as <- <-.
  - done.
Qed.

Lemma apply_transaction_record x c n fp rows d o d' :
  apply_transaction x c n fp rows d = (Ok o, d') →
  ∃ candidate, publish_candidate candidate o c n fp rows d = (Ok tt, d').
Proof.
  unfold apply_transaction. intros (s & d0 & [= <- <-] & Ha)%dbio_bind_Ok.
  apply dbio_bind_Ok in Ha as (h & d1 & [_ ->]%db_lift_Ok & Ha). apply dbio_bind_Ok in Ha as (i & d2 & [_ ->]%db_lift_Ok & Ha).
  apply dbio_bind_Ok in Ha as ([candidate o'] & d3 & [_ ->]%db_lift_Ok & Ha).
  apply dbio_bind_Ok in Ha as ([] & d4 & Hp & [= <- <-]). eauto.
Qed.

Lemma mutating_not_control s : is_mutating_statement s = true → is_control s = false.
Proof. by destruct s. Qed.

(** An answered statement and the record it left. *)
Lemma autocommit_record c n sql parsed vals d r d' rec :
  is_mutating_statement parsed.1 = true → execute_autocommit c n sql parsed vals d = (Ok r, d') →
  requests d' !! c = Some rec → dr_sequence rec = n →
  ∃ fp info, sql_fingerprint sql vals = Ok fp ∧ dr_fingerprint rec = fp
    ∧ commit_info_from_result (dr_result rec) (last_applied (engine d')) = Ok info
    ∧ r = mutation_result (dr_affected_rows rec) (last_applied (engine d')).
Proof.
  intros Hm. unfold execute_autocommit. rewrite Hm. intros (s & d0 & [= <- <-] & Ha)%dbio_bind_Ok Hrec Hn.
  apply dbio_bind_Ok in Ha as (fp & d1 & [Hfp ->]%db_lift_Ok & Ha).
  apply dbio_bind_Ok in Ha as ([rec'|] & d2 & [Hrep ->]%db_lift_Ok & Ha).
  - apply replay_record_Some in Hrep as (Hc & _ & Hf). apply db_lift_Ok in Ha as [Ha ->].
    rewrite Hc in Hrec. injection Hrec as <-. apply result_bind_Ok in Ha as (info & Hi & <-%Ok_inj). eauto 10.
  - apply dbio_bind_Ok in Ha as ([e' x] & d3 & [_ ->]%db_lift_Ok & Ha). apply dbio_bind_Ok in Ha as (u & d4 & [= _ <-] & Ha).
    apply dbio_bind_Ok in Ha as ([x' o] & d5 & [_ ->]%db_lift_Ok & Ha).
    assert (∀ rec, requests d !! c = Some rec → dr_sequence rec ≠ n) as Hno by (intros ?; by eapply replay_record_None).
    destruct (Txn.is_read_only x').
    + apply db_lift_Ok in Ha as [_ ->]. by destruct (Hno rec Hrec).
    + apply dbio_bind_Ok in Ha as (rows & d6 & [_ ->]%db_lift_Ok & Ha). apply dbio_bind_Ok in Ha as (o2 & d7 & Ht & Ha).
      apply dbio_bind_Ok in Ha as (s & d8 & [= <- <-] & Ha). apply apply_transaction_record in Ht as [cand [_ Hp]%publish_record].
      assert (∀ res, requests d7 !! c = Some (mkDurableRequestRecord n fp res rows) →
        (info ← db_lift (commit_info_from_result res (last_applied (engine d7)));
         mret (mutation_result rows (ci_applied_index info))) d7 = (Ok r, d') →
        ∃ fp0 info, sql_fingerprint sql vals = Ok fp0 ∧ dr_fingerprint rec = fp0
          ∧ commit_info_from_result (dr_result rec) (last_applied (engine d')) = Ok info
          ∧ r = mutation_result (dr_affected_rows rec) (last_applied (engine d'))) as Hdone.
      { intros res Hres (info & d8 & [Hi ->]%db_lift_Ok & [= <- <-])%dbio_bind_Ok. rewrite Hres in Hrec. injection Hrec as <-.
        exists fp, info. split_and!; try done. cbn. f_equal. destruct res; [|done]. cbn in Hi.
        by apply result_bind_Ok in Hi as (k & _ & <-%Ok_inj). }
      destruct o2 as [res|res|rej|]; [by apply (Hdone res)| |done|done].
      destruct Hp as [(rec2 & Hc & _ & Hs & _)|Hp]; [|by apply (Hdone res)]. by destruct (Hno rec2).
Qed.

(** The first byte of a character's encoding says how many there are. *)
Lemma encode_utf8_prefix_free a b r r' :
  char_ok a → char_ok b → encode_utf8 a ++ r = encode_utf8 b ++ r' → a = b ∧ r = r'.
Proof.
  unfold char_ok, encode_utf8. intros Ha Hb.
  assert (∀ x k n, 0 ≤ x < k * n → 0 < n → 0 ≤ x / n < k) as Hq by (intros; split; [apply Z.div_pos; lia|apply Z.div_lt_upper_bound; lia]).
  pose proof (Z.div_mod a 64 ltac:(done)). pose proof (Z.div_mod b 64 ltac:(done)).
  pose proof (Z.div_mod (a / 64) 64 ltac:(done)) as Ea. pose proof (Z.div_mod (b / 64) 64 ltac:(done)) as Eb.
  pose proof (Z.div_mod (a / 4096) 64 ltac:(done)) as Ea'. pose proof (Z.div_mod (b / 4096) 64 ltac:(done)) as Eb'.
  rewrite Z.div_div in Ea, Eb, Ea', Eb' by done. change (64 * 64) with 4096 in *. change (4096 * 64) with 262144 in *.
  destruct (Z.ltb_spec a 128), (Z.ltb_spec b 128); [by intros [= ->]|..];
  [pose proof (Hq b 32768 64); pose proof (Hq b 512 4096); pose proof (Hq b 8 262144)
  |pose proof (Hq a 32768 64); pose proof (Hq a 512 4096); pose proof (Hq a 8 262144)
  |pose proof (Hq a 32 64); pose proof (Hq b 32 64); pose proof (Hq a 16 4096); pose proof (Hq b 16 4096);
   pose proof (Hq a 8 262144); pose proof (Hq b 8 262144)];
  repeat match goal with |- context [?x <? ?n] => destruct (Z.ltb_spec x n) end; cbn [app]; intros [=]; first [exfalso; lia | split; [lia|done]].
Qed.

Lemma utf8_inj l k : Forall char_ok l → Forall char_ok k → l ≫= encode_utf8 = k ≫= encode_utf8 → l = k.
Proof.
  intros Hl. revert k. induction Hl as [|a l Ha Hl IH]; intros k Hk; destruct Hk as [|b k Hb Hk]; cbn.
  - done.
  - unfold encode_utf8. by repeat case_match.
  - unfold encode_utf8. by repeat case_match.
  - intros [-> Hr]%encode_utf8_prefix_free; [|done|done]. f_equal. by apply IH.
Qed.

(** What a fingerprint is the digest of. *)
Definition fingerprint_input (sql : list Z) (vals : list Value) : dbresult bytes :=
  encoded ← put_fingerprint_bytes SQL_TAG (sql ≫= encode_utf8);
  row ← from_core (Codec.encode_row (mkRow vals));
  put_fingerprint_bytes encoded row.

Lemma sql_fingerprint_input sql vals : sql_fingerprint sql vals = sha256 <$> fingerprint_input sql vals.
Proof.
  unfold sql_fingerprint, fingerprint_input. destruct (put_fingerprint_bytes SQL_TAG _) as [x|]; [|done]. cbn.
  destruct (from_core _) as [row|]; [|done]. cbn. by destruct (put_fingerprint_bytes x row).
Qed.

Lemma put_fingerprint_Ok o v l : put_fingerprint_bytes o v = Ok l ↔ zlen v ≤ u64_max ∧ l = o ++ to_be_bytes 8 (zlen v) ++ v.
Proof. unfold put_fingerprint_bytes. destruct (Z.leb_spec (zlen v) u64_max); cbn; naive_solver lia. Qed.

(** It determines the text and the parameters. *)
Lemma fingerprint_input_inj sql vals sql' vals' l :
  Forall char_ok sql → Forall char_ok sql' → Forall value_ok vals → Forall value_ok vals' →
  fingerprint_input sql vals = Ok l → fingerprint_input sql' vals' = Ok l → sql' = sql ∧ vals' = vals.
Proof.
  unfold fingerprint_input. intros Hs Hs' Hv Hv'.
  intros (x & [Hx ->]%put_fingerprint_Ok & (row & Hrow & [Hr ->]%put_fingerprint_Ok)%result_bind_Ok)%result_bind_Ok.
  intros (x' & [Hx' ->]%put_fingerprint_Ok & (row' & Hrow' & [Hr' E]%put_fingerprint_Ok)%result_bind_Ok)%result_bind_Ok.
  rewrite <- !app_assoc in E. apply app_inv_head in E.
  pose proof (zlen_nonneg (sql ≫= encode_utf8)). pose proof (zlen_nonneg (sql' ≫= encode_utf8)).
  pose proof (zlen_nonneg row). pose proof (zlen_nonneg row'). change u64_max with 18446744073709551615 in *.
  apply to_be_bytes_inj in E as [Hl E]; [|change (256 ^ Z.of_nat 8) with 18446744073709551616; lia..].
  apply app_zlen_inj in E as [Ht E]; [|done]. apply to_be_bytes_inj in E as [_ ->]; [|change (256 ^ Z.of_nat 8) with 18446744073709551616; lia..].
  split; [symmetry; by apply utf8_inj|]. unfold from_core, from_engine, core in Hrow, Hrow'.
  destruct (Codec.encode_row (mkRow vals)) as [b|] eqn:Hb; [|done]. destruct (Codec.encode_row (mkRow vals')) as [b'|] eqn:Hb'; [|done].
  cbn in Hrow, Hrow'. apply Ok_inj in Hrow, Hrow'. subst b b'.
  assert (mkRow vals = mkRow vals') as [= ->] by (by eapply CoreCodec.encode_row_inj). done.
Qed.

(** Two requests SHA-256 does not tell apart. *)
Definition fingerprint_collision (sql : list Z) (vals : list Value) (sql' : list Z) (vals' : list Value) : Prop :=
  ∃ x y, fingerprint_input sql vals = Ok x ∧ fingerprint_input sql' vals' = Ok y ∧ x ≠ y ∧ sha256 x = sha256 y.

Lemma other_fingerprint sql vals sql' vals' fp fp' :
  Forall char_ok sql → Forall char_ok sql' → Forall value_ok vals → Forall value_ok vals' → sql' ≠ sql ∨ vals' ≠ vals →
  sql_fingerprint sql vals = Ok fp → sql_fingerprint sql' vals' = Ok fp' → fp' ≠ fp ∨ fingerprint_collision sql vals sql' vals'.
Proof.
  intros Hs Hs' Hv Hv' Hne Hf Hf'. destruct (decide (fp' = fp)) as [->|]; [right|by left].
  rewrite sql_fingerprint_input in Hf, Hf'.
  destruct (fingerprint_input sql vals) as [x|] eqn:Hx; [|done]. destruct (fingerprint_input sql' vals') as [y|] eqn:Hy; [|done].
  apply Ok_inj in Hf, Hf'. exists x, y. split_and!; try done; [|congruence]. intros <-.
  destruct (fingerprint_input_inj sql vals sql' vals' x) as [-> ->]; try done. by destruct Hne.
Qed.

(** C16: a retried mutation is answered from its record.  Suppose an autocommit
    mutation was answered and its request record is durable.  Then in every
    later database that still has this record, the same client repeating the
    same sequence number, statement and parameters gets the same answer, at the
    then applied index, and nothing changes.  The same sequence number with any
    other mutating statement text, or with other parameters, is refused and
    nothing changes (unless SHA-256 maps the two encoded requests to one
    digest). *)
Theorem autocommit_retry c n sql vals parsed d r d' d'' rec :
  parse_statement sql = Ok parsed → is_mutating_statement parsed.1 = true →
  execute c n None sql vals d = (Ok r, d') → requests d' !! c = Some rec → dr_sequence rec = n →
  requests d'' !! c = Some rec → Forall char_ok sql → Forall value_ok vals →
  execute c n None sql vals d'' = (Ok (answered_at (last_applied (engine d'')) r), d'')
  ∧ ∀ sql' vals' parsed', parse_statement sql' = Ok parsed' → is_mutating_statement parsed'.1 = true →
      Forall char_ok sql' → Forall value_ok vals' → sql' ≠ sql ∨ vals' ≠ vals →
      execute c n None sql' vals' d''
        = (match sql_fingerprint sql' vals' with
           | Ok _ => Err (RequestRejected (SequenceHashMismatch n))
           | Err too_large => Err too_large
           end, d'')
      ∨ fingerprint_collision sql vals sql' vals'.
Proof.
  intros Hp Hm He Hrec Hn Hc Hchars Hvals. rewrite (execute_statement _ _ _ _ _ _ parsed) in He by (done || by apply mutating_not_control).
  destruct (autocommit_record _ _ _ _ _ _ _ _ _ Hm He Hrec Hn) as (fp & info & Hfp & Hf & Hi & ->). split.
  - rewrite (execute_statement _ _ _ _ _ _ parsed) by (done || by apply mutating_not_control).
    unfold execute_autocommit. rewrite Hm, Hfp.
    assert (replay_record (requests d'') c n fp = Ok (Some rec)) as Hr by (by apply replay_record_Some).
    unfold mbind, dbio_bind, get_state, db_lift. cbn. rewrite Hr. unfold mutation_result_from_record.
    destruct (dr_result rec); [|done]. cbn in Hi |- *. destruct (usize_to_u64 _ _); done.
  - intros sql' vals' parsed' Hp' Hm' Hchars' Hvals' Hne.
    rewrite (execute_statement _ _ _ _ _ _ parsed') by (done || by apply mutating_not_control).
    unfold execute_autocommit. rewrite Hm'. destruct (sql_fingerprint sql' vals') as [fp'|err] eqn:Hfp'; [|by left].
    destruct (other_fingerprint sql vals sql' vals' fp fp') as [Hd|?]; try done; [left|by right].
    unfold mbind, dbio_bind, get_state, db_lift. cbn.
    unfold replay_record. rewrite Hc, Hn, Z.eqb_refl. cbn [negb]. unfold ensure. rewrite bool_decide_false by congruence. done.
Qed.

(** ** Replicated commands *)

(** The client's next sequence number. *)
Definition next_sequence (e : Engine) (c : bytes) (n : Z) : Prop :=
  match clients e !! c with None => n = 1 | Some k => n = r_sequence k + 1 ∧ n ≤ u64_max end.

Lemma next_sequence_new e c n fp : next_sequence e c n → admit_request e (mkClientRequestId c n) fp = AdmitNew.
Proof.
  unfold next_sequence, admit_request. cbn. destruct (clients e !! c) as [k|]; [|intros ->; done]. intros [-> Hmax].
  destruct (Z.compare_spec (r_sequence k + 1) (r_sequence k)); [lia|lia|]. unfold saturating_add.
  rewrite Z.min_r by lia. by rewrite Z.eqb_refl.
Qed.

Lemma statement_staged e x parsed vals x' o :
  engine_wf e → ids_available (catalog e) → staged_ok e x →
  on_local (prepare_and_execute_output e parsed vals) x = Ok (x', o) → staged_ok e x'.
Proof.
  intros Hwf Hids Hx. apply (statement_keeps e (staged_ok e)); [..|done].
  - intros. by eapply create_table_ok.
  - intros. by eapply create_index_ok.
  - intros. by eapply run_dml_ok.
Qed.

(** The statement as the leader ran it: on a transaction of its own, which then
    holds what the statement staged. *)
Definition statement_staged_by (e : Engine) (sql : list Z) (vals : list Value) (x : Transaction) (rows : Z) : Prop :=
  ∃ parsed x0, parse_statement sql = Ok parsed ∧ prepare_transaction e = Ok x0
    ∧ on_local (prepare_and_execute_output e parsed vals) x0 = Ok (x, OutMutation rows).

(** What a proposed command holds. *)
Lemma prepared_command `{!SerdeJsonOk ReplicatedMutation} term c n sql vals (d : Database P) b d1 :
  prepare_replicated_mutation term c n sql vals d = (Ok (Propose b), d1) →
  engine_wf (engine d) → ids_available (catalog (engine d)) →
  ∃ x fp rows, staged_ok (engine d) x ∧ zlen b ≤ MAX_REPLICATED_COMMAND_BYTES
    ∧ statement_staged_by (engine d) sql vals x rows ∧ sql_fingerprint sql vals = Ok fp
    ∧ from_slice b = Ok (mkReplicatedMutation REPLICATED_MUTATION_FORMAT
        (Txn.into_attempt x (mkClientRequestId c n) term) fp rows).
Proof.
  unfold prepare_replicated_mutation. intros (parsed & d0 & [Hp ->]%db_lift_Ok & Ha)%dbio_bind_Ok Hwf Hids.
  apply dbio_bind_Ok in Ha as (u & d2 & [_ ->]%db_lift_Ok & Ha). apply dbio_bind_Ok in Ha as (fp & d3 & [Hfp ->]%db_lift_Ok & Ha).
  apply dbio_bind_Ok in Ha as (s & d4 & [= <- <-] & Ha). apply dbio_bind_Ok in Ha as ([rec|] & d5 & [_ ->]%db_lift_Ok & Ha).
  { by apply dbio_bind_Ok in Ha as (? & ? & _ & [=]). }
  apply dbio_bind_Ok in Ha as (x & d6 & [Hx%from_engine_Ok ->]%db_lift_Ok & Ha).
  apply dbio_bind_Ok in Ha as ([x' o] & d7 & [Hs ->]%db_lift_Ok & Ha).
  apply dbio_bind_Ok in Ha as (rows & d8 & [Ho ->]%db_lift_Ok & Ha). apply dbio_bind_Ok in Ha as (rows' & d9 & [Hr ->]%db_lift_Ok & Ha).
  apply dbio_bind_Ok in Ha as (b' & d10 & [Hb ->]%db_lift_Ok & Ha).
  apply dbio_bind_Ok in Ha as (u' & d11 & [Hlen%ensure_Ok ->]%db_lift_Ok & [= -> _]).
  unfold usize_to_u64 in Hr. destruct (rows <=? u64_max); [|done]. cbn in Hr. apply Ok_inj in Hr as <-.
  exists x', fp, rows. split_and!.
  - eapply statement_staged; [done|done|by apply prepare_ok|done].
  - bool_prop. done.
  - exists parsed, x. destruct o; try done. apply Ok_inj in Ho as <-. split_and!; try done.
    by destruct (parse_statement sql); [apply Ok_inj in Hp as <-|].
  - done.
  - destruct (to_vec _) as [b''|] eqn:Hv in Hb; [|done]. injection Hb as ->. by apply from_slice_to_vec.
Qed.

(** Publishing an applied outcome, by what persistence answers. *)
Lemma publish_applied d candidate res c n fp rows :
  publish_candidate candidate (Applied res) c n fp rows d
  = let requests' := <[c := mkDurableRequestRecord n fp res rows]> (requests d) in
    let '(persisted, p) := persist_state candidate requests' (db_persistence d) in
    match persisted with
    | Ok _ => (Ok tt, mkDatabase (mkDatabaseState candidate (active d) requests') p (max_active_transactions d))
    | Err err => (Err err, mkDatabase (db_state d) p (max_active_transactions d))
    end.
Proof.
  unfold publish_candidate, mbind, dbio_bind, get_state, on_persistence. cbn.
  by destruct (persist_state _ _ _) as [[[]|err] p].
Qed.

(** C17: a prepared command commits on every replica.  A leader that prepares a
    mutation leaves its own database untouched.  Take a replica with the
    leader's engine, whatever else it has open, and let the request carry the
    client's next sequence number (and the applied index, the schema epoch, the
    identifiers and the number of writes stay below 64 bits).  Applying the
    command at the next index then evaluates, never aborts: the candidate state
    is the leader's engine with exactly what the leader's statement staged
    committed, and the client's request recorded with the result and the row
    count.  The replica hands this state to its persistence; when persistence
    accepts it, the answer is success and the candidate is the shared state,
    and when persistence reports an error, that error is the answer and the
    shared state is as before. *)
Theorem replicated_mutation_commits `{!SerdeJsonOk ReplicatedMutation} term c n sql vals (d : Database P) b d1 (d' : Database P) :
  prepare_replicated_mutation term c n sql vals d = (Ok (Propose b), d1) → db_ok d →
  engine_wf (engine d) → ids_available (catalog (engine d)) → c_schema_epoch (catalog (engine d)) < u64_max →
  last_applied (engine d) < u64_max → next_sequence (engine d) c n →
  (∀ m, from_slice b = Ok m → zlen (writes (rm_attempt m)) ≤ u64_max) →
  engine d' = engine d →
  let next := last_applied (engine d) + 1 in
  d1 = d ∧ ∃ x fp rows e' k epoch,
    statement_staged_by (engine d) sql vals x rows ∧ sql_fingerprint sql vals = Ok fp
    ∧ apply_with_request_hash (engine d) next (sha256 b) fp (Txn.into_attempt x (mkClientRequestId c n) term)
      = Ok (e', Applied (Committed next k epoch))
    ∧ let requests' := <[c := mkDurableRequestRecord n fp (Committed next k epoch) rows]> (requests d') in
      let '(persisted, p) := persist_state e' requests' (db_persistence d') in
      apply_replicated next b d'
      = match persisted with
        | Ok _ => (Ok (mutation_result rows next), mkDatabase (mkDatabaseState e' (active d') requests') p (max_active_transactions d'))
        | Err err => (Err err, mkDatabase (db_state d') p (max_active_transactions d'))
        end.
Proof.
  intros Hprep Hk Hwf Hids Hep Hmax Hnext Hlen Heng next. split; [apply (db_wp_run _ _ _ _ _ Hprep (prepare_post d term c n sql vals Hk))|].
  destruct (prepared_command _ _ _ _ _ _ _ _ Hprep Hwf Hids) as (x & fp & rows & Hst & Hb & Hstmt & Hfp & Hm).
  specialize (Hlen _ Hm). cbn in Hlen.
  destruct (staged_applies (engine d) x (mkClientRequestId c n) term (sha256 b) fp Hwf Hep Hmax Hst (next_sequence_new _ _ _ fp Hnext))
    as (e' & ep & Hx).
  set (k := zlen (writes _)) in Hx. exists x, fp, rows, e', k, ep. split_and!; [done|done|exact Hx|]. cbv zeta.
  pose proof (publish_applied d' e' (Committed next k ep) c n fp rows) as Hpub. cbv zeta in Hpub.
  destruct (persist_state e' _ (db_persistence d')) as [persisted p].
  assert (∀ r d2, publish_candidate e' (Applied (Committed next k ep)) c n fp rows d' = (r, d2) →
    apply_replicated next b d' = (_ ← (λ _, (r, d2)); s ← get_state;
      affected_rows ← db_lift (response_rows (st_requests s) c n fp rows (Applied (Committed next k ep)));
      db_lift (replicated_outcome (Applied (Committed next k ep)) affected_rows next)) d') as Hrun.
  { intros r d2 Hr. unfold apply_replicated, ensure. destruct (Z.ltb_spec MAX_REPLICATED_COMMAND_BYTES (zlen b)); [lia|].
    rewrite Hm. unfold mbind, dbio_bind, db_lift, get_state. cbn -[Txn.into_attempt apply_with_request_hash publish_candidate]. rewrite Heng.
    destruct (Z.ltb_spec next (last_applied (engine d))); [lia|].
    cbn -[Txn.into_attempt apply_with_request_hash publish_candidate]. unfold next. rewrite Hx.
    cbn -[Txn.into_attempt apply_with_request_hash publish_candidate]. destruct (Z.eqb_spec (last_applied (engine d) + 1) (last_applied (engine d))); [lia|].
    cbn [client_id sequence request Txn.into_attempt]. fold next. rewrite Hr. done. }
  destruct persisted as [u|err].
  - rewrite (Hrun _ _ Hpub). unfold mbind, dbio_bind, db_lift, get_state. cbn. rewrite lookup_insert_eq. cbn.
    rewrite Z.eqb_refl, bool_decide_true by done. cbn. unfold usize_to_u64.
    destruct (Z.leb_spec k u64_max) as [_|Hgt]; [reflexivity|]. by apply Z.lt_nge in Hgt.
  - by rewrite (Hrun _ _ Hpub).
Qed.

(** ** Snapshots *)

Lemma load_requests rq : foldM load_request ∅ (btree_map_iter rq) = Ok rq.
Proof.
  rewrite <- (list_fmap_id (btree_map_iter rq)). apply (foldM_rebuild load_request (λ p, p)).
  intros m c r Hc Hnone. unfold load_request. cbn. by rewrite bool_decide_true.
Qed.

(** A snapshot decodes to the state it was made of. *)
Lemma snapshot_decodes `{!SerdeJsonOk DatabaseSnapshotEnvelope} (d : Database P) snap d1 :
  create_snapshot d = (Ok snap, d1) → engine_wf (engine d) →
  decode_database_snapshot (dsn_bytes snap) = Ok (engine d, requests d) ∧ dsn_applied_index snap = last_applied (engine d)
  ∧ is_Some (last_apply_hash (engine d)).
Proof.
  unfold create_snapshot. intros (s & d0 & [= <- <-] & Ha)%dbio_bind_Ok Hwf.
  apply dbio_bind_Ok in Ha as (u & d2 & [_ ->]%db_lift_Ok & Ha). apply dbio_bind_Ok in Ha as (cp & d3 & _ & Ha).
  apply dbio_bind_Ok in Ha as (u1 & d4 & [_ ->]%db_lift_Ok & Ha). apply dbio_bind_Ok in Ha as ([] & d5 & [Hv ->]%db_lift_Ok & Ha).
  apply dbio_bind_Ok in Ha as (h & d6 & [Hh%ok_or_Ok ->]%db_lift_Ok & Ha). apply dbio_bind_Ok in Ha as (b & d7 & [Hb ->]%db_lift_Ok & Ha).
  apply dbio_bind_Ok in Ha as (u2 & d8 & [Hlen%ensure_Ok ->]%db_lift_Ok & [= <- _]). cbn. split; [|by eauto].
  destruct (to_vec _) as [b'|] eqn:Ht in Hb; [|done]. injection Hb as ->. unfold decode_database_snapshot, ensure.
  rewrite bool_decide_false by (by eapply to_vec_not_empty). apply negb_true_iff in Hlen. rewrite Hlen. cbn.
  rewrite (from_slice_to_vec _ _ Ht).
  cbn -[from_snapshot snapshot load_request]. rewrite from_snapshot_snapshot by done.
  cbn -[load_request]. rewrite load_requests. cbn. by rewrite Hv.
Qed.

(** C24: snapshots carry the database over.  A snapshot made by one database
    decodes, and a database that is behind and has no open transaction, installing
    it at the index the snapshot names, hands the engine (rows, indexes, catalog,
    client records, history kept) and the request records of the first to its
    persistence.  When persistence accepts them, they are its shared state, and
    installing the same snapshot again changes nothing; when persistence reports
    an error, that error is the answer and the shared state is as before. *)
Theorem snapshot_transfers `{!SerdeJsonOk DatabaseSnapshotEnvelope} (d : Database P) snap d1 (d2 : Database P) :
  create_snapshot d = (Ok snap, d1) → engine_wf (engine d) →
  active d2 = ∅ → last_applied (engine d2) < last_applied (engine d) →
  let install := install_snapshot_at (dsn_applied_index snap) (dsn_bytes snap) in
  let '(installed, p) := install_state (engine d) (requests d) (db_persistence d2) in
  match installed with
  | Ok _ =>
      let d3 := mkDatabase (mkDatabaseState (engine d) ∅ (requests d)) p (max_active_transactions d2) in
      install d2 = (Ok tt, d3) ∧ install d3 = (Ok tt, d3)
  | Err err => install d2 = (Err err, mkDatabase (db_state d2) p (max_active_transactions d2))
  end.
Proof.
  intros Hs Hwf Ha Hlt install. destruct (snapshot_decodes _ _ _ Hs Hwf) as (Hd & Hi & Hh).
  assert (∀ d' : Database P, active d' = ∅ → install d' = install_decoded_snapshot (engine d) (requests d) d') as Hinst.
  { intros d' Ha'. unfold install, install_snapshot_at. rewrite Hd, Hi. unfold mbind at 1, dbio_bind at 1, db_lift at 1. cbn -[install_decoded_snapshot].
    rewrite Z.eqb_refl. reflexivity. }
  destruct (install_state (engine d) (requests d) (db_persistence d2)) as [r p] eqn:Hp.
  assert (install d2 = match r with
    | Ok _ => (Ok tt, mkDatabase (mkDatabaseState (engine d) ∅ (requests d)) p (max_active_transactions d2))
    | Err err => (Err err, mkDatabase (db_state d2) p (max_active_transactions d2))
    end) as H2.
  { rewrite Hinst by done. unfold install_decoded_snapshot, mbind, dbio_bind, get_state, db_lift, on_persistence, ensure.
    cbn. rewrite Ha, bool_decide_true by done. cbn. rewrite (proj2 (Z.compare_gt_iff _ _) Hlt), Hp. by destruct r as [[]|]. }
  destruct r as [u|err]; [|done]. split; [done|]. rewrite Hinst by done.
  unfold install_decoded_snapshot, mbind, dbio_bind, get_state, db_lift, on_persistence, ensure.
  cbn. by rewrite Z.compare_refl, !bool_decide_true.
Qed.
End Invariant.
