(* ===== verification/DbExamples.v ===== *)
(** * The database on concrete statements

    A database in memory: persistence keeps the last published engine and
    requests, SHA-256 is a toy digest, and commands are held in a table in
    place of JSON.  The statements below are ASCII. *)

From Stdlib Require Import Ascii String.
From S2P Require Import Prelude StorageBytes StoragePage StorageIo StorageWal StoragePager CoreTypes CoreCodec EngineExpr EngineCatalog EngineTxn EngineState EngineRecords EngineInv EngineSteps EngineProps EngineReads EngineLive EngineExamples SqlAst SqlLexer SqlParser SqlCatalog SqlPlan SqlEval SqlBinder SqlTyping SqlBinding DbExecutor DbOptimize DbDatabase DbProps.
Import Exec.

#[local] Instance no_unicode : UnicodeTables :=
  Build_UnicodeTables (λ _, false) (λ _, false) (λ _, false) (λ _, true).
#[local] Instance toy_digest : Sha256 := λ l, replicate 32 (foldl (λ a x, (a * 31 + x) mod 65521) 7 l).

(** ** Persistence in memory *)

Record MemoryState : Type := mkMemoryState {
  ms_engine : Engine;
  ms_requests : DurableRequests
}.

#[local] Instance memory_persistence : Persistence MemoryState := {|
  persist_state e r := λ p,
    if last_applied e =? last_applied (ms_engine p) + 1 then (Ok tt, mkMemoryState e r)
    else (Err (DbInvariant "candidate engine is at the wrong index"), p);
  install_state e r := λ p, (Ok tt, mkMemoryState e r);
  persist_checkpoint := λ p,
    (Ok (mkCheckpoint 0 0 (last_applied (ms_engine p)) (default [] (last_apply_hash (ms_engine p))) 0), p);
  persist_status := λ p,
    (Ok (mkPersistenceStatus (mkSuper 0 1 (last_applied (ms_engine p)) [] 0 2 None) 0 0 empty_report), p)
|}.

Definition genesis : Database MemoryState :=
  mkDatabase (mkDatabaseState Engine_default ∅ ∅) (mkMemoryState Engine_default ∅) 16.

Definition client_a : bytes := replicate 16 1.
Definition client_b : bytes := replicate 16 2.

Definition run (d : Database MemoryState) (c : bytes) (n : Z) (tx : option Z) (sql : string)
    : dbresult ExecutionResult * Database MemoryState :=
  execute c n tx (chars sql) [] d.

Definition after (d : Database MemoryState) (c : bytes) (n : Z) (tx : option Z) (sql : string) : Database MemoryState :=
  (run d c n tx sql).2.

Definition rows_of (r : dbresult ExecutionResult) : option (list (list Value)) :=
  match r with Ok (ErQuery q) => Some (values <$> qr_rows q) | _ => None end.

Definition d1 := after genesis client_a 1 None "CREATE TABLE t (id INT64 PRIMARY KEY, age INT64)".
Definition d2 := after d1 client_a 2 None "INSERT INTO t VALUES (1, 30)".
Definition d3 := after d2 client_a 3 None "INSERT INTO t VALUES (2, 40)".

(** ** Snapshots and new indexes *)

(** Client B opens a transaction, then client A commits an index. *)
Definition d4 := after d3 client_b 1 None "BEGIN".
Definition d5 := after d4 client_a 4 None "CREATE INDEX t_age ON t (age)".

(** A snapshot loses rows when an index is created.  A transaction that found
    a row by its column no longer finds it after another client commits an index
    on that column, although a scan of the same transaction still shows it: the
    plan uses the new index, whose entries are later than the snapshot. *)
Example stale_snapshot_misses_rows :
  rows_of (run d4 client_b 1 (Some 4) "SELECT id FROM t WHERE age = 30").1 = Some [[VInt64 1]]
  ∧ rows_of (run d5 client_b 1 (Some 4) "SELECT id FROM t").1 = Some [[VInt64 1]; [VInt64 2]]
  ∧ rows_of (run d5 client_b 1 (Some 4) "SELECT id FROM t WHERE age = 30").1 = Some [].
Proof. vm_compute. auto. Qed.

(** ** Two uses of one table *)

Definition j1 := after genesis client_a 1 None "CREATE TABLE t (id INT64 PRIMARY KEY, y INT64)".
Definition j2 := after j1 client_a 2 None "CREATE TABLE u (id INT64 PRIMARY KEY, x INT64)".
Definition j3 := after j2 client_a 3 None "INSERT INTO t VALUES (1, 7)".
Definition j4 := after j3 client_a 4 None "INSERT INTO t VALUES (2, 8)".
Definition j5 := after j4 client_a 5 None "INSERT INTO u VALUES (1, 7)".

(** The join condition of the third table compares columns of the first two: it
    keeps or drops all rows of [c] together.  Written with [=] one of the two is
    lost. *)
Example self_join_drops_rows :
  rows_of (run j5 client_a 6 None "SELECT a.id, c.id FROM t a JOIN u b ON b.id = a.id JOIN t c ON b.x = a.y").1 = Some [[VInt64 1; VInt64 1]]
  ∧ rows_of (run j5 client_a 6 None "SELECT a.id, c.id FROM t a JOIN u b ON b.id = a.id JOIN t c ON b.x <= a.y").1
    = Some [[VInt64 1; VInt64 1]; [VInt64 1; VInt64 2]].
Proof. vm_compute. auto. Qed.

(** The sums of 7 and of 8. *)
Example self_join_sums_one_side :
  rows_of (run j5 client_a 6 None "SELECT SUM(a.y), SUM(c.y) FROM t a JOIN t c ON a.id < c.id").1 = Some [[VInt64 7; VInt64 7]].
Proof. vm_compute. auto. Qed.

(** [c.y] is neither grouped nor aggregated. *)
Example ungrouped_column_accepted :
  rows_of (run j5 client_a 6 None "SELECT c.y, COUNT(*) FROM t a JOIN t c ON a.id <= c.id GROUP BY a.y").1 = Some [[VInt64 7; VInt64 2]; [VInt64 8; VInt64 1]].
Proof. vm_compute. auto. Qed.

(** ** Commands of a replicated log *)

#[local] Instance ReplicatedMutation_eq_dec : EqDecision ReplicatedMutation.
Proof. solve_decision. Defined.

(** A codec for the commands of a list: the position of the command. *)
Definition table_json {A} `{EqDecision A} (l : list A) : SerdeJson A := {|
  to_vec a := match list_find (eq a) l with
              | Some (i, _) => if Z.of_nat i <? 256 then Ok [Z.of_nat i] else Err "too many values"
              | None => Err "unknown value"
              end;
  from_slice b := match b with
                  | [i] => match znth l i with Some a => Ok a | None => Err "unknown position" end
                  | _ => Err "not a position"
                  end
|}.

Lemma table_json_ok {A} `{EqDecision A} (l : list A) : @SerdeJsonOk A (table_json l).
Proof.
  split; intros a b; cbn; (destruct (list_find (eq a) l) as [[i a']|] eqn:Hf; [|done]);
    (destruct (Z.ltb_spec (Z.of_nat i) 256); [|done]); intros [= <-]; [|done|by constructor; [unfold byte_ok; lia|]].
  apply list_find_Some in Hf as (Hi & <- & _). unfold znth. destruct (Z.ltb_spec (Z.of_nat i) 0); [lia|].
  by rewrite Nat2Z.id, Hi.
Qed.

(** What [prepare_replicated_mutation] proposes. *)
Definition command (d : Database MemoryState) (term : Z) (c : bytes) (n : Z) (sql : string) : ReplicatedMutation :=
  let e := st_engine (db_state d) in
  match parse_statement (chars sql), prepare_transaction e, sql_fingerprint (chars sql) [] with
  | Ok parsed, Ok x, Ok fingerprint =>
      match on_local (prepare_and_execute_output e parsed []) x with
      | Ok (x, OutMutation n_rows) =>
          mkReplicatedMutation 1 (Txn.into_attempt x (mkClientRequestId c n) term) fingerprint n_rows
      | _ => mkReplicatedMutation 0 (Txn.into_attempt x (mkClientRequestId c n) term) fingerprint 0
      end
  | _, _, _ => mkReplicatedMutation 0 (Txn.into_attempt (Txn.new 0 0 0) (mkClientRequestId c n) term) [] 0
  end.

Definition applies (l : list ReplicatedMutation) (index position : Z) (d : Database MemoryState)
    : dbresult ExecutionResult * Database MemoryState :=
  apply_replicated (Hcmd := table_json l) index [position] d.

Definition touch : string := "UPDATE t SET v = 'b' WHERE id = 1".
Definition m1 := command genesis 1 client_a 1 "CREATE TABLE t (id INT64 PRIMARY KEY, v TEXT)".
Definition r1 := (applies [m1] 1 0 genesis).2.
(** The update as the first leader prepared it: no row. *)
Definition m2 := command r1 2 client_b 1 touch.
Definition m3 := command r1 2 client_a 2 "INSERT INTO t VALUES (1, 'a')".
Definition r2 := (applies [m1; m2; m3] 2 2 r1).2.
(** The retry as the second leader prepared it: one row. *)
Definition m4 := command r2 3 client_b 1 touch.
Definition commands := [m1; m2; m3; m4].
Definition r3 := (applies commands 3 1 r2).2.
Definition r4 := (applies commands 4 3 r3).2.

(** The retry is answered with the result of the first attempt; the same entry
    replayed at its index is called corrupt. *)
Example retry_replay_is_corruption :
  (applies commands 4 3 r3).1 = Ok (mutation_result 0 4)
  ∧ (applies commands 4 3 r4).1 = Err (Corruption "durable replicated request metadata disagrees with replay").
Proof. vm_compute. auto. Qed.

(** ** The hypotheses of the theorems hold *)

Definition some_plan : LogicalPlan := LScan (mkBoundTable (mkTableDef 0 EmptyString (mkSchema [])) EmptyString 0).
Definition parsed (sql : string) : SqlStatement * Span := force (parse_statement (chars sql)) (StBegin, span_default).
Definition bound (e : Engine) (x : Transaction) (sql : string) : BindOutput :=
  force (bind (engine_catalog e (Some x)) (parsed sql)) (mkBindOutput (BsTransaction TsBegin) []).
Definition plan_of (s : BoundStatement) : LogicalPlan := match s with BsQuery plan _ => plan | _ => some_plan end.
Definition output_of (s : BoundStatement) : list NamedExpr := match s with BsQuery _ output => output | _ => [] end.

Definition by_age : string := "SELECT id FROM users WHERE age = ? AND id < 9".
Definition by_age_bound : BindOutput := bound e1 (prepared e1) by_age.
Definition by_age_plan : LogicalPlan := plan_of (bo_statement by_age_bound).

Example index_chosen :
  Plan.explain_physical (Plan.optimize (engine_catalog e1 None) by_age_plan)
  = "Project" +:+ Plan.newline +:+ "  Filter" +:+ Plan.newline
    +:+ "    IndexScan table=users index=users_age" +:+ Plan.newline.
Proof. vm_compute. reflexivity. Qed.

Definition age_30 : list Value := [VInt64 30].
Definition found : list ExecRow := [plain (mkRow [VInt64 1])].

Lemma optimize_sound_witness :
  execute_plan age_30 e1 (prepared e1) (Plan.optimize (engine_catalog e1 None) by_age_plan) = Ok found
  ∨ ∃ m, execute_plan age_30 e1 (prepared e1) (Plan.optimize (engine_catalog e1 None) by_age_plan)
         = Err (DbEngine (Core (LimitExceeded m))).
Proof.
  apply (optimize_sound e1 (prepared e1) (parsed by_age).1 (parsed by_age).2 by_age_bound by_age_plan
    (output_of (bo_statement by_age_bound)) age_30 found e1_wf).
  - apply prepare_ok. vm_compute. reflexivity.
  - vm_compute. reflexivity.
  - vm_compute. reflexivity.
  - by_evaluation.
  - vm_compute. reflexivity.
  - by_evaluation.
  - vm_compute. reflexivity.
Defined.

(** An UPDATE that negates a column. *)
Definition negate_age : string := "UPDATE users SET age = -age WHERE id = ?".
Definition negate_age_bound : BindOutput := bound e1 (prepared e1) negate_age.
Definition negated : entry :=
  default (mkEntry [] None (BLiteral VNull span_default)) (head (statement_exprs (bo_statement negate_age_bound))).

Lemma bind_type_sound_witness :
  (∀ part, part ∈ scalar_parts (en_expr negated) →
     evaluates (Eval.evaluate part (Eval.mkEvaluationContext (user 1 30) [VInt64 1])) (sql_type part))
  ∧ (∀ t, en_required negated = Some t →
     match Eval.evaluate (en_expr negated) (Eval.mkEvaluationContext (user 1 30) [VInt64 1]) with
     | Ok v => of_type t v
     | Err e => overflow_error e
     end).
Proof.
  apply (bind_type_sound (engine_catalog e1 (Some (prepared e1))) (parsed negate_age).1 (parsed negate_age).2
    negate_age_bound [VInt64 1]).
  - vm_compute. reflexivity.
  - by_evaluation.
  - vm_compute. reflexivity.
  - vm_compute. left.
  - vm_compute. repeat constructor; vm_compute; auto.
Defined.

(** *** Databases *)

(** Characters, decided. *)
#[local] Instance char_ok_dec c : Decision (char_ok c).
Proof. unfold char_ok. solve_decision. Defined.

#[local] Instance memory_laws : PersistenceLaws MemoryState.
Proof.
  refine {| stored := λ p, (ms_engine p, ms_requests p) |}; intros; cbn; try done.
  destruct (last_applied e =? _); cbn; auto.
Defined.

Definition users_requests : DurableRequests := {[client 1 := mkDurableRequestRecord 1 (hash 1) (Committed 1 1 1) 1]}.
Definition users_db : Database MemoryState :=
  mkDatabase (mkDatabaseState e1 ∅ users_requests) (mkMemoryState e1 users_requests) 16.

Lemma users_agree : requests_agree e1 users_requests.
Proof. apply validate_durable_requests_Ok. vm_compute. reflexivity. Qed.

Lemma users_ok : db_ok users_db.
Proof. split; [apply users_agree|apply map_Forall_empty|vm_compute; discriminate]. Qed.

Lemma users_sync : in_sync users_db.
Proof. done. Qed.

(** What the leader of [users_db] proposes for an INSERT. *)
Definition new_user : string := "INSERT INTO users VALUES (2, 31)".
Definition new_user_command : ReplicatedMutation := command users_db 1 (client 1) 2 new_user.
Definition users_envelope : DatabaseSnapshotEnvelope :=
  mkDatabaseSnapshotEnvelope 1 (snapshot e1) (btree_map_iter users_requests).

#[local] Instance DatabaseSnapshotEnvelope_eq_dec : EqDecision DatabaseSnapshotEnvelope.
Proof. solve_decision. Defined.
#[local] Instance command_json : SerdeJson ReplicatedMutation := table_json [new_user_command].
#[local] Instance envelope_json : SerdeJson DatabaseSnapshotEnvelope := table_json [users_envelope].
#[local] Instance command_json_ok : SerdeJsonOk ReplicatedMutation.
Proof. apply table_json_ok. Qed.
#[local] Instance envelope_json_ok : SerdeJsonOk DatabaseSnapshotEnvelope.
Proof. apply table_json_ok. Qed.

Definition insert_op : operation := OpExecute (client 1) 2 None (chars new_user) [].

Lemma database_consistent_witness :
  db_ok (run_ops [insert_op; OpBegin; OpCommit (client 2) 1 2; OpCreateSnapshot; OpNoop 3 1; OpStatus] users_db).
Proof. apply database_consistent; [apply users_agree|reflexivity|vm_compute; discriminate]. Defined.

Lemma acknowledged_is_durable_witness :
  in_sync (run_op insert_op users_db).2
  ∨ (is_Err (run_op insert_op users_db).1 ∧ same_published users_db (run_op insert_op users_db).2).
Proof.
  apply (acknowledged_is_durable insert_op users_db (run_op insert_op users_db).1); [apply users_ok|apply users_sync|].
  apply surjective_pairing.
Defined.

Definition force_err {A} (r : dbresult A) : DatabaseError := match r with Ok _ => DbInvariant EmptyString | Err e => e end.

(** A transaction in which a statement fails on its second row: the first one
    is changed in the copy by then. *)
Definition open_db : Database MemoryState := (run_op OpBegin users_db).2.
Definition full_db : Database MemoryState :=
  (execute (client 2) 1 (Some 1) (chars "INSERT INTO users VALUES (2, ?)") [VInt64 i64_min] open_db).2.
Definition reversal : string := "UPDATE users SET age = -age".
Definition reversal_run := execute (client 2) 1 (Some 1) (chars reversal) [] full_db.
Definition reversal_txn : Transaction := default no_txn (st_active (db_state full_db) !! 1).
Definition reversal_copy := prepare_and_execute e1 (parsed reversal) [] reversal_txn.

Example reversal_fails :
  is_Err reversal_run.1 ∧ is_Err reversal_copy.1
  ∧ let row x := read_key e1 x (mkLogicalKey 1 (Codec.encode_ordered (VInt64 1))) in
    (row reversal_txn, row reversal_copy.2) = (Some (user 1 30), Some (user 1 (-30))).
Proof. vm_compute. auto. Qed.

Lemma statement_atomic_witness : reversal_run.2 = full_db.
Proof.
  pose proof (statement_atomic (client 2) 1 1 (chars reversal) [] full_db reversal_run.1 reversal_run.2 (parsed reversal)
    ltac:(vm_compute; reflexivity) ltac:(vm_compute; reflexivity) (surjective_pairing _)) as H.
  assert (st_active (db_state full_db) !! 1 = Some reversal_txn) as E by (vm_compute; reflexivity). rewrite E in H.
  assert (prepare_and_execute (st_engine (db_state full_db)) (parsed reversal) [] reversal_txn = (Err (force_err reversal_copy.1), reversal_copy.2))
    as E' by (vm_compute; reflexivity).
  rewrite E' in H. exact (proj2 H).
Defined.

(** The INSERT, another client's statement, and the retry. *)
Definition inserted := execute (client 1) 2 None (chars new_user) [] users_db.
Definition later := execute (client 2) 1 None (chars "DELETE FROM users WHERE id = 2") [] inserted.2.
Definition inserted_record : DurableRequestRecord :=
  default (mkDurableRequestRecord 0 [] (Committed 0 0 0) 0) (st_requests (db_state inserted.2) !! client 1).
Definition one_row : ExecutionResult := mutation_result 1 2.

Lemma autocommit_retry_witness :
  execute (client 1) 2 None (chars new_user) [] later.2
    = (Ok (answered_at (last_applied (st_engine (db_state later.2))) one_row), later.2)
  ∧ ∀ sql' vals' parsed', parse_statement sql' = Ok parsed' → is_mutating_statement parsed'.1 = true →
      Forall char_ok sql' → Forall value_ok vals' → sql' ≠ chars new_user ∨ vals' ≠ [] →
      execute (client 1) 2 None sql' vals' later.2
        = (match sql_fingerprint sql' vals' with
           | Ok _ => Err (RequestRejected (SequenceHashMismatch 2))
           | Err too_large => Err too_large
           end, later.2)
      ∨ fingerprint_collision (chars new_user) [] sql' vals'.
Proof.
  apply (autocommit_retry (client 1) 2 (chars new_user) [] (parsed new_user) users_db one_row inserted.2 later.2 inserted_record).
  - vm_compute. reflexivity.
  - vm_compute. reflexivity.
  - vm_compute. reflexivity.
  - vm_compute. reflexivity.
  - vm_compute. reflexivity.
  - vm_compute. reflexivity.
  - by_evaluation.
  - constructor.
Defined.

Lemma replicated_mutation_commits_witness :
  users_db = users_db ∧ ∃ x fp rows e' k epoch,
    statement_staged_by e1 (chars new_user) [] x rows ∧ sql_fingerprint (chars new_user) [] = Ok fp
    ∧ apply_with_request_hash e1 2 (sha256 [0]) fp (Txn.into_attempt x (mkClientRequestId (client 1) 2) 1)
      = Ok (e', Applied (Committed 2 k epoch))
    ∧ let requests' := <[client 1 := mkDurableRequestRecord 2 fp (Committed 2 k epoch) rows]> users_requests in
      let '(persisted, p) := persist_state e' requests' (mkMemoryState e1 users_requests) in
      apply_replicated 2 [0] users_db
      = match persisted with
        | Ok _ => (Ok (mutation_result rows 2), mkDatabase (mkDatabaseState e' ∅ requests') p 16)
        | Err err => (Err err, mkDatabase (db_state users_db) p 16)
        end.
Proof.
  apply (replicated_mutation_commits 1 (client 1) 2 (chars new_user) [] users_db [0] users_db users_db).
  - vm_compute. reflexivity.
  - apply users_ok.
  - apply e1_wf.
  - split; by_evaluation.
  - vm_compute. reflexivity.
  - vm_compute. reflexivity.
  - vm_compute. split; [reflexivity|discriminate].
  - intros m Hm. vm_compute in Hm. injection Hm as <-. vm_compute. discriminate.
  - reflexivity.
Defined.

Definition users_snapshot : DatabaseSnapshot := mkDatabaseSnapshot 1 (hash 1) [0].

Lemma snapshot_transfers_witness :
  let d3 := mkDatabase (mkDatabaseState e1 ∅ users_requests) (mkMemoryState e1 users_requests) 16 in
  install_snapshot_at 1 [0] genesis = (Ok tt, d3) ∧ install_snapshot_at 1 [0] d3 = (Ok tt, d3).
Proof.
  assert (create_snapshot users_db = (Ok users_snapshot, users_db)) as Hs by (vm_compute; reflexivity).
  assert (last_applied (st_engine (db_state genesis)) < last_applied (st_engine (db_state users_db))) as Hlt by (vm_compute; reflexivity).
  exact (snapshot_transfers users_db users_snapshot users_db genesis Hs e1_wf eq_refl Hlt).
Defined.
