(* ===== verification/DbRecords.v ===== *)
(** * The record tree: how snapshot records are stored

    The codec of persistence.rs: a record is a byte string, cut into chunks
    under keys made of its digest and the number of the chunk.  The chunks of a
    set of records, in the order of their keys, decode to those records. *)

From Stdlib Require Import Ascii String.
From S2P Require Import Prelude StorageBytes StoragePage StorageIo StorageWal StorageGroups StoragePager BtreeNode BtreeOps BtreeTree CoreTypes CoreCodec EngineExpr EngineCatalog EngineTxn EngineState EngineRecords SqlAst DbExecutor DbDatabase.

Definition string_bytes (s : string) : bytes := (λ c, Z.of_nat (nat_of_ascii c)) <$> list_ascii_of_string s.

Definition RECORD_MAGIC : bytes := string_bytes "ASTREC" ++ [0; 1].
Definition PHYSICAL_KEY_MAGIC : bytes := string_bytes "ASTKEY" ++ [0; 1].
Definition PHYSICAL_KEY_BYTES : Z := zlen PHYSICAL_KEY_MAGIC + 32 + 4.
Definition RECORD_HEADER_BYTES : Z := zlen RECORD_MAGIC + 1 + 4 + 8.
Definition REQUEST_RECORD_KIND : Z := 240.
Definition CHUNK_BYTES : Z := 1024.
Definition MAX_PHYSICAL_ENTRIES : Z := (MAX_SNAPSHOT_BYTES + CHUNK_BYTES - 1) / CHUNK_BYTES + 4096.

Definition encode_record (record : SnapshotRecord) : dbresult bytes :=
  key_length ← ok_or (u32_try_from (zlen (sr_key record))) (ResourceLimit "snapshot key exceeds u32");
  let value_length := zlen (sr_value record) in
  _ ← ok_or (bytes ← checked_add RECORD_HEADER_BYTES (zlen (sr_key record)); checked_add bytes (zlen (sr_value record)))
        (ResourceLimit "snapshot record size overflow");
  Ok (RECORD_MAGIC ++ [sr_kind record] ++ to_be_bytes 4 key_length ++ to_be_bytes 8 value_length
      ++ sr_key record ++ sr_value record).

Definition decode_record (encoded : bytes) : dbresult SnapshotRecord :=
  _ ← ensure (negb ((zlen encoded <? RECORD_HEADER_BYTES)
                    || negb (bool_decide (ztake (zlen RECORD_MAGIC) encoded = RECORD_MAGIC))))
        (Corruption "snapshot record header is invalid");
  let kind := default 0 (znth encoded (zlen RECORD_MAGIC)) in
  let key_length := from_be_bytes (bytes_get encoded (zlen RECORD_MAGIC + 1) 4) in
  let value_length := from_be_bytes (bytes_get encoded (zlen RECORD_MAGIC + 5) 8) in
  key_end ← ok_or (checked_add RECORD_HEADER_BYTES key_length) (Corruption "snapshot key extent overflow");
  value_end ← ok_or (checked_add key_end value_length) (Corruption "snapshot value extent overflow");
  _ ← ensure (value_end =? zlen encoded) (Corruption "snapshot record lengths disagree with payload");
  Ok (mkRecord kind (bytes_get encoded RECORD_HEADER_BYTES (key_end - RECORD_HEADER_BYTES))
        (bytes_get encoded key_end (value_end - key_end))).

Definition physical_key (digest : bytes) (chunk_index : Z) : bytes :=
  PHYSICAL_KEY_MAGIC ++ digest ++ to_be_bytes 4 chunk_index.

Definition parse_physical_key (key : bytes) : dbresult (bytes * Z) :=
  _ ← ensure (negb (negb (zlen key =? PHYSICAL_KEY_BYTES)
                    || negb (bool_decide (ztake (zlen PHYSICAL_KEY_MAGIC) key = PHYSICAL_KEY_MAGIC))))
        (Corruption "snapshot tree contains an unknown physical key");
  Ok (bytes_get key (zlen PHYSICAL_KEY_MAGIC) 32, from_be_bytes (zdrop (zlen PHYSICAL_KEY_MAGIC + 32) key)).

(** [slice::chunks] *)
Fixpoint chunks_loop (fuel : nat) (n : nat) (l : bytes) : list bytes :=
  match fuel, l with
  | S fuel, _ :: _ => take n l :: chunks_loop fuel n (drop n l)
  | _, _ => []
  end.
Definition chunks (n : Z) (l : bytes) : list bytes := chunks_loop (length l) (Z.to_nat n) l.

(** [enumerate] *)
Definition enumerate {A} (l : list A) : list (Z * A) := imap (λ i a, (Z.of_nat i, a)) l.

(** The loop over the chunks of one record. *)
Definition insert_chunk (digest : bytes) (output : gmap bytes bytes) (c : Z * bytes) : dbresult (gmap bytes bytes) :=
  chunk_index ← ok_or (u32_try_from c.1) (ResourceLimit "snapshot record has too many chunks");
  let key := physical_key digest chunk_index in
  _ ← ensure (bool_decide (output !! key = None)) (DbInvariant "duplicate physical snapshot chunk");
  let output := <[key := c.2]> output in
  _ ← ensure (negb (MAX_PHYSICAL_ENTRIES <? Z.of_nat (size output)))
        (ResourceLimit ("snapshot needs more than " +:+ pretty MAX_PHYSICAL_ENTRIES +:+ " B+ tree entries"));
  Ok output.

Section Codec.
Context `{Sha256}.

Definition insert_record (st : gmap bytes bytes * Z * gset bytes) (record : SnapshotRecord)
    : dbresult (gmap bytes bytes * Z * gset bytes) :=
  let '(output, total_bytes, digests) := st in
  encoded ← encode_record record;
  total_bytes ← ok_or (checked_add total_bytes (zlen encoded)) (ResourceLimit "snapshot byte count overflow");
  _ ← ensure (negb (MAX_SNAPSHOT_BYTES <? total_bytes))
        (ResourceLimit ("canonical snapshot is " +:+ pretty total_bytes +:+ " bytes; maximum is " +:+ pretty MAX_SNAPSHOT_BYTES));
  let digest := sha256 encoded in
  _ ← ensure (bool_decide (digest ∉ digests)) (DbInvariant "two logical snapshot records have the same digest");
  output ← foldM (insert_chunk digest) output (enumerate (chunks CHUNK_BYTES encoded));
  Ok (output, total_bytes, {[digest]} ∪ digests).

Definition encode_records (records : list SnapshotRecord) : dbresult (gmap bytes bytes) :=
  st ← foldM insert_record (∅, 0, ∅) records;
  Ok st.1.1.

(** One entry of the loop of [validate_physical_map]. *)
Definition validate_entry (previous : option (bytes * Z)) (e : bytes * bytes) : dbresult (option (bytes * Z)) :=
  current ← parse_physical_key e.1;
  _ ← ensure (negb (is_empty e.2 || (CHUNK_BYTES <? zlen e.2)))
        (Corruption ("snapshot chunk has invalid length " +:+ pretty (zlen e.2)));
  _ ← ensure (negb match previous with
                   | Some (previous_digest, previous_index) =>
                       bool_decide (current.1 = previous_digest)
                       && negb (current.2 =? Z.min u32_max (previous_index + 1))
                   | None => false
                   end)
        (Corruption "snapshot chunks are not contiguous");
  Ok (Some current).

Definition validate_physical_map (physical : gmap bytes bytes) : dbresult unit :=
  _ ← ensure (negb (MAX_PHYSICAL_ENTRIES <? Z.of_nat (size physical)))
        (Corruption ("snapshot tree has " +:+ pretty (Z.of_nat (size physical)) +:+ " entries; maximum is "
                     +:+ pretty MAX_PHYSICAL_ENTRIES));
  _ ← foldM validate_entry None (btree_map_iter physical);
  Ok tt.

Definition group_entry (grouped : gmap bytes (list (Z * bytes))) (e : bytes * bytes)
    : dbresult (gmap bytes (list (Z * bytes))) :=
  p ← parse_physical_key e.1;
  Ok (<[p.1 := default [] (grouped !! p.1) ++ [(p.2, e.2)]]> grouped).

(** The loop over the chunks of one group; [expected] counts them. *)
Definition join_chunk (st : bytes * Z) (c : Z * (Z * bytes)) : dbresult (bytes * Z) :=
  let '(encoded, total_bytes) := st in
  let '(index, (actual, chunk)) := c in
  expected ← ok_or (u32_try_from index) (Corruption "snapshot chunk index overflow");
  _ ← ensure (actual =? expected)
        (Corruption ("snapshot record chunk gap: expected " +:+ pretty expected +:+ ", found " +:+ pretty actual));
  total_bytes ← ok_or (checked_add total_bytes (zlen chunk)) (Corruption "snapshot byte count overflow");
  _ ← ensure (negb (MAX_SNAPSHOT_BYTES <? total_bytes))
        (Corruption ("snapshot exceeds " +:+ pretty MAX_SNAPSHOT_BYTES +:+ " byte limit"));
  Ok (encoded ++ chunk, total_bytes).

Definition decode_group (st : list SnapshotRecord * Z) (g : bytes * list (Z * bytes))
    : dbresult (list SnapshotRecord * Z) :=
  let '(records, total_bytes) := st in
  let '(digest, chunks) := g in
  r ← foldM join_chunk ([], total_bytes) (enumerate chunks);
  let '(encoded, total_bytes) := r in
  _ ← ensure (bool_decide (sha256 encoded = digest)) (Corruption "snapshot record digest mismatch");
  record ← decode_record encoded;
  Ok (records ++ [record], total_bytes).

(** The derived order of [SnapshotRecord]. *)
Definition record_cmp (left right : SnapshotRecord) : comparison :=
  cmp (sr_kind left, (sr_key left, sr_value left)) (sr_kind right, (sr_key right, sr_value right)).

Definition decode_records (physical : gmap bytes bytes) : dbresult (list SnapshotRecord) :=
  _ ← validate_physical_map physical;
  grouped ← foldM group_entry ∅ (btree_map_iter physical);
  st ← foldM decode_group ([], 0) (btree_map_iter grouped);
  Ok (sort_by record_cmp st.1).
End Codec.

(** ** Records *)

Lemma bytes_get_split (a b c : bytes) off len :
  off = zlen a → len = zlen b → bytes_get (a ++ b ++ c) off len = b.
Proof.
  intros -> ->. unfold bytes_get, ztake, zdrop, zlen. rewrite !Nat2Z.id, drop_app_length. apply take_app_length.
Qed.

Lemma encode_record_Ok r b :
  encode_record r = Ok b →
  zlen (sr_key r) ≤ u32_max ∧ RECORD_HEADER_BYTES + zlen (sr_key r) + zlen (sr_value r) ≤ u64_max
  ∧ b = RECORD_MAGIC ++ [sr_kind r] ++ to_be_bytes 4 (zlen (sr_key r)) ++ to_be_bytes 8 (zlen (sr_value r)) ++ sr_key r ++ sr_value r
  ∧ zlen b = RECORD_HEADER_BYTES + zlen (sr_key r) + zlen (sr_value r).
Proof.
  unfold encode_record. intros (kl & Hkl & Hr)%result_bind_Ok. apply ok_or_Ok in Hkl. unfold u32_try_from in Hkl.
  case_match eqn:Hle; [|done]. injection Hkl as <-. bool_prop.
  apply result_bind_Ok in Hr as (n & Hn & <-%Ok_inj). apply ok_or_Ok in Hn.
  apply bind_Some in Hn as (n' & (-> & _)%checked_add_Some & (-> & Hle2)%checked_add_Some).
  split_and!; [lia|done|done|]. change RECORD_HEADER_BYTES with 21.
  unfold zlen. rewrite !length_app, !length_to_be_bytes. change (length RECORD_MAGIC) with 8%nat. cbn [length]. lia.
Qed.

Lemma record_codec r b : encode_record r = Ok b → decode_record b = Ok r.
Proof.
  intros (Hk & Hsz & Hb & Hlen)%encode_record_Ok. unfold decode_record.
  pose proof (zlen_nonneg (sr_key r)) as Hk0. pose proof (zlen_nonneg (sr_value r)) as Hv0.
  assert (zlen RECORD_MAGIC = 8) as HM by done. assert (RECORD_HEADER_BYTES = 21) as HH by done.
  rewrite (proj2 (Z.ltb_ge _ _)) by lia.
  assert (ztake (zlen RECORD_MAGIC) b = RECORD_MAGIC) as ->.
  { rewrite Hb. unfold ztake, zlen. rewrite Nat2Z.id. apply take_app_length. }
  rewrite bool_decide_eq_true_2 by done. cbn [negb orb ensure]. rewrite Ok_bind.
  assert (znth b (zlen RECORD_MAGIC) = Some (sr_kind r)) as ->.
  { rewrite Hb, znth_app_r by lia. by rewrite Z.sub_diag. }
  assert (bytes_get b (zlen RECORD_MAGIC + 1) 4 = to_be_bytes 4 (zlen (sr_key r))) as ->.
  { rewrite Hb. rewrite (app_assoc RECORD_MAGIC). apply bytes_get_split; [done|]. unfold zlen. by rewrite length_to_be_bytes. }
  assert (bytes_get b (zlen RECORD_MAGIC + 5) 8 = to_be_bytes 8 (zlen (sr_value r))) as ->.
  { rewrite Hb. rewrite (app_assoc RECORD_MAGIC), (app_assoc (RECORD_MAGIC ++ _)).
    apply bytes_get_split; [|unfold zlen; by rewrite length_to_be_bytes].
    unfold zlen. rewrite !length_app, length_to_be_bytes. cbn [length]. lia. }
  rewrite !from_to_be_bytes. rewrite !Z.mod_small by (unfold u32_max, u64_max in *; cbn; lia).
  assert (checked_add RECORD_HEADER_BYTES (zlen (sr_key r)) = Some (RECORD_HEADER_BYTES + zlen (sr_key r))) as ->
    by (apply checked_add_Some; lia).
  cbn [ok_or default]. rewrite Ok_bind.
  assert (checked_add (RECORD_HEADER_BYTES + zlen (sr_key r)) (zlen (sr_value r))
    = Some (RECORD_HEADER_BYTES + zlen (sr_key r) + zlen (sr_value r))) as -> by (apply checked_add_Some; lia).
  cbn [ok_or]. rewrite Ok_bind. rewrite Hlen, Z.eqb_refl. cbn [ensure]. rewrite Ok_bind. f_equal.
  set (head := RECORD_MAGIC ++ [sr_kind r] ++ to_be_bytes 4 (zlen (sr_key r)) ++ to_be_bytes 8 (zlen (sr_value r))).
  assert (zlen head = RECORD_HEADER_BYTES) as Hh by (unfold head, zlen; by rewrite !length_app, !length_to_be_bytes).
  assert (b = head ++ sr_key r ++ sr_value r) as -> by (rewrite Hb; unfold head; by rewrite <- !app_assoc).
  rewrite bytes_get_split by lia. rewrite (app_assoc head), <- (app_nil_r (sr_value r)).
  rewrite bytes_get_split; [|rewrite zlen_app; lia|rewrite app_nil_r; lia]. by destruct r.
Qed.

(** ** Chunks *)

Lemma chunks_loop_spec fuel n l : (0 < n)%nat → (length l ≤ fuel)%nat →
  concat (chunks_loop fuel n l) = l ∧ Forall (λ c, c ≠ [] ∧ (length c ≤ n)%nat) (chunks_loop fuel n l).
Proof.
  intros Hn. revert l. induction fuel as [|fuel IH]; intros [|x l] Hl; cbn [length] in Hl; [done|lia|done|].
  cbn [chunks_loop concat]. destruct (IH (drop n (x :: l))) as [-> Hf].
  { rewrite length_drop. cbn [length]. lia. }
  rewrite take_drop. split; [done|]. constructor; [|done]. split; [destruct n; [lia|done]|]. rewrite length_take. lia.
Qed.

Lemma chunks_spec l :
  concat (chunks CHUNK_BYTES l) = l ∧ Forall (λ c, c ≠ [] ∧ zlen c ≤ CHUNK_BYTES) (chunks CHUNK_BYTES l).
Proof.
  destruct (chunks_loop_spec (length l) (Z.to_nat CHUNK_BYTES) l) as [Hc Hf]; [unfold CHUNK_BYTES; lia|done|].
  split; [done|]. eapply Forall_impl; [exact Hf|]. intros c [? Hl]. split; [done|]. unfold zlen, CHUNK_BYTES in *. lia.
Qed.

Lemma chunks_nonempty l : l ≠ [] → chunks CHUNK_BYTES l ≠ [].
Proof. intros Hl Hc. apply Hl. rewrite <- (proj1 (chunks_spec l)), Hc. done. Qed.

(** [enumerate], counting from [k]. *)
Fixpoint number {A} (k : Z) (l : list A) : list (Z * A) :=
  match l with [] => [] | a :: l => (k, a) :: number (k + 1) l end.

Lemma enumerate_number {A} (l : list A) : enumerate l = number 0 l.
Proof.
  unfold enumerate. enough (∀ k, imap (λ i a, (k + Z.of_nat i, a)) l = number k l) as Hk.
  { rewrite <- (Hk 0). by apply imap_ext. }
  induction l as [|a l IH]; intros k; [done|]. cbn [number]. rewrite imap_cons. f_equal; [f_equal; lia|].
  rewrite <- IH. apply imap_ext. intros i x _. unfold compose. f_equal. lia.
Qed.

(** ** Physical keys *)

Lemma parse_key d i : zlen d = 32 → 0 ≤ i ≤ u32_max → parse_physical_key (physical_key d i) = Ok (d, i).
Proof.
  intros Hd Hi. unfold parse_physical_key, physical_key.
  assert (zlen (PHYSICAL_KEY_MAGIC ++ d ++ to_be_bytes 4 i) = PHYSICAL_KEY_BYTES) as Hl.
  { rewrite !zlen_app, Hd. unfold zlen at 2. by rewrite length_to_be_bytes. }
  rewrite Hl, Z.eqb_refl.
  assert (ztake (zlen PHYSICAL_KEY_MAGIC) (PHYSICAL_KEY_MAGIC ++ d ++ to_be_bytes 4 i) = PHYSICAL_KEY_MAGIC) as ->.
  { unfold ztake, zlen. rewrite Nat2Z.id. apply take_app_length. }
  rewrite bool_decide_eq_true_2 by done. cbn [negb orb ensure]. rewrite Ok_bind. rewrite bytes_get_split by done.
  do 2 f_equal. unfold zdrop. replace (Z.to_nat (zlen PHYSICAL_KEY_MAGIC + 32)) with (length (PHYSICAL_KEY_MAGIC ++ d))
    by (rewrite length_app; unfold zlen in *; lia).
  rewrite app_assoc, drop_app_length, from_to_be_bytes, Z.mod_small; [done|]. unfold u32_max in Hi. cbn. lia.
Qed.

Lemma physical_key_lt d d' i i' :
  zlen d = zlen d' → 0 ≤ i ≤ u32_max → 0 ≤ i' ≤ u32_max →
  cmp_lt d d' ∨ d = d' ∧ i < i' → cmp_lt (physical_key d i) (physical_key d' i').
Proof.
  intros Hd Hi Hi' Hlt. unfold cmp_lt, cmp, compare_list, physical_key.
  rewrite list_cmp_app_l. rewrite list_cmp_app by (unfold zlen in Hd; lia).
  destruct Hlt as [Hlt|[-> Hlt]].
  - unfold cmp_lt, cmp, compare_list in Hlt. by rewrite Hlt.
  - change (list_cmp d' d') with (cmp d' d'). rewrite cmp_refl.
    rewrite list_cmp_to_be_bytes by (unfold u32_max in *; cbn; lia). by apply Z.compare_lt_iff.
Qed.

Lemma NoDup_sorted_keys {K V} `{Countable K, !Compare K, !CompareLaws K} (l : list (K * V)) :
  StronglySorted (λ p q, cmp_lt p.1 q.1) l → NoDup l.*1.
Proof.
  induction 1 as [|p l Hl IH Hp]; rewrite ?fmap_cons; constructor; [|done].
  intros (q & Hq & Hin)%list_elem_of_fmap. rewrite Forall_forall in Hp. specialize (Hp q Hin). rewrite Hq in Hp. by apply cmp_lt_irrefl in Hp.
Qed.

(** A map whose entries are given in order. *)
Lemma btree_map_iter_list {K V} `{Countable K, !Compare K, !CompareLaws K} (l : list (K * V)) :
  StronglySorted (λ p q, cmp_lt p.1 q.1) l → btree_map_iter (list_to_map l : gmap K V) = l.
Proof.
  intros Hl. pose proof (NoDup_sorted_keys l Hl) as Hnd.
  eapply (StronglySorted_unique_strong (λ p q, cmp_lt p.1 q.1)); [|apply btree_map_iter_sorted|done|].
  - intros p q _ _ Hpq Hqp. exfalso. apply (cmp_lt_irrefl p.1). by etrans.
  - unfold btree_map_iter. rewrite merge_sort_Permutation. by apply map_to_list_to_map.
Qed.

(** ** The chunks of a set of records *)

Section Physical.
Context `{Sha256} {Hsha : Sha256Ok}.

(** The entries of one record, chunks counted from [k]. *)
Definition block_from (d : bytes) (k : Z) (cs : list bytes) : list (bytes * bytes) :=
  (λ c, (physical_key d c.1, c.2)) <$> number k cs.

Definition block (encoded : bytes) : list (bytes * bytes) :=
  block_from (sha256 encoded) 0 (chunks CHUNK_BYTES encoded).

Lemma block_from_cons d k c cs : block_from d k (c :: cs) = (physical_key d k, c) :: block_from d (k + 1) cs.
Proof. done. Qed.

Lemma elem_of_number {A} (l : list A) k j a : (j, a) ∈ number k l → k ≤ j < k + zlen l ∧ a ∈ l.
Proof.
  revert k. induction l as [|x l IH]; intros k; cbn [number]; [by intros ?%not_elem_of_nil|]. rewrite zlen_cons.
  pose proof (zlen_nonneg l). intros [[= -> ->]|[? ?]%IH]%elem_of_cons; (split; [lia|]); [left|by right].
Qed.

(** The keys of a block from [k] on follow those before. *)
Lemma block_from_after d k k' cs e :
  0 ≤ k' < k → k + zlen cs ≤ u32_max + 1 → e ∈ block_from d k cs → cmp_lt (physical_key d k') e.1.
Proof.
  intros Hk Hl ([j c] & -> & [Hj _]%elem_of_number)%list_elem_of_fmap. apply physical_key_lt; cbn [fst]; [done|lia|lia|].
  right. split; [done|lia].
Qed.

Lemma block_from_sorted d k cs : 0 ≤ k → k + zlen cs ≤ u32_max + 1 →
  StronglySorted (λ p q, cmp_lt p.1 q.1) (block_from d k cs).
Proof.
  revert k. induction cs as [|c cs IH]; intros k Hk; [constructor|]. rewrite zlen_cons, block_from_cons. intros Hl.
  constructor; [apply IH; lia|]. apply Forall_forall. intros e He. cbn [fst].
  eapply (block_from_after d (k + 1)); [| |done]; lia.
Qed.

(** What [encode_records] has checked of one record. *)
Record stored_record (r : SnapshotRecord) (e : bytes) : Prop := {
  st_encoded : encode_record r = Ok e;
  st_chunks : zlen (chunks CHUNK_BYTES e) ≤ u32_max + 1
}.

Lemma insert_chunks d k cs out out' :
  foldM (insert_chunk d) out (number k cs) = Ok out' → 0 ≤ k ≤ u32_max + 1 →
  out' = list_to_map (block_from d k cs) ∪ out ∧ k + zlen cs ≤ u32_max + 1
  ∧ (Z.of_nat (size out) ≤ MAX_PHYSICAL_ENTRIES → Z.of_nat (size out') ≤ MAX_PHYSICAL_ENTRIES).
Proof.
  revert k out. induction cs as [|c cs IH]; intros k out; cbn [number foldM].
  { intros <-%Ok_inj ?. split_and!; [|change (zlen (@nil bytes)) with 0; lia|done]. symmetry. apply (left_id_L ∅ (∪)). }
  intros (out1 & Hins & Hf)%result_bind_Ok Hk. unfold insert_chunk in Hins. cbn [fst snd] in Hins.
  apply result_bind_Ok in Hins as (i & Hi%ok_or_Ok & Hins). unfold u32_try_from in Hi. case_match eqn:Hle; [|done].
  injection Hi as <-. apply result_bind_Ok in Hins as (_ & Hnew%ensure_Ok & Hins).
  apply result_bind_Ok in Hins as (_ & Hsz%ensure_Ok & <-%Ok_inj). bool_prop.
  apply IH in Hf as (-> & Hc & Hs); [|lia]. rewrite zlen_cons. split_and!; [|lia|].
  - rewrite block_from_cons. change (list_to_map ((physical_key d k, c) :: block_from d (k + 1) cs))
      with (<[physical_key d k := c]> (list_to_map (block_from d (k + 1) cs) : gmap bytes bytes)).
    rewrite <- insert_union_l. symmetry. apply insert_union_r. apply not_elem_of_list_to_map_1.
    intros (e & Heq & He)%list_elem_of_fmap. apply (cmp_lt_irrefl (physical_key d k)). rewrite Heq at 2.
    eapply (block_from_after d (k + 1)); [| |done]; lia.
  - intros _. apply Hs. lia.
Qed.

Lemma encode_not_empty r e : encode_record r = Ok e → e ≠ [].
Proof. intros (_ & _ & -> & _)%encode_record_Ok. done. Qed.

Lemma insert_records out total digs rs out' total' digs' :
  foldM insert_record (out, total, digs) rs = Ok (out', total', digs') →
  Z.of_nat (size out) ≤ MAX_PHYSICAL_ENTRIES → total ≤ MAX_SNAPSHOT_BYTES →
  ∃ es, Forall2 stored_record rs es ∧ NoDup (sha256 <$> es) ∧ (∀ e, e ∈ es → sha256 e ∉ digs)
    ∧ out' = list_to_map (flat_map block (reverse es)) ∪ out
    ∧ total' = total + foldr Z.add 0 (zlen <$> es) ∧ total' ≤ MAX_SNAPSHOT_BYTES
    ∧ Z.of_nat (size out') ≤ MAX_PHYSICAL_ENTRIES.
Proof.
  revert out total digs. induction rs as [|r rs IH]; intros out total digs; cbn [foldM].
  { intros [= <- <- <-]%Ok_inj Hs Ht. exists []. split_and!; [constructor|constructor|by intros ? ?%not_elem_of_nil| |cbn; lia|done|done].
    symmetry. apply (left_id_L ∅ (∪)). }
  intros ([[out1 total1] digs1] & Hins & Hf)%result_bind_Ok Hs Ht. unfold insert_record in Hins.
  apply result_bind_Ok in Hins as (e & He & Hins). apply result_bind_Ok in Hins as (t & (-> & _)%ok_or_Ok%checked_add_Some & Hins).
  apply result_bind_Ok in Hins as (_ & Hmax%ensure_Ok & Hins). apply result_bind_Ok in Hins as (_ & Hdig%ensure_Ok & Hins).
  apply result_bind_Ok in Hins as (o & Ho & [= <- <- <-]%Ok_inj). rewrite enumerate_number in Ho. bool_prop.
  apply insert_chunks in Ho as (-> & Hch & Hsz); [|unfold u32_max; lia].
  apply IH in Hf as (es & Hf & Hnd & Hnew & -> & -> & Hmax' & Hsz'); [|by apply Hsz|lia].
  exists (e :: es). split_and!; [|..|done|done].
  - constructor; [|done]. by split.
  - rewrite fmap_cons. apply NoDup_cons. split; [|done]. intros (e' & Heq & He')%list_elem_of_fmap.
    apply (Hnew e' He'). rewrite <- Heq. set_solver.
  - intros e' [->|He']%elem_of_cons; [done|]. specialize (Hnew e' He'). set_solver.
  - rewrite reverse_cons, flat_map_app, list_to_map_app, <- (assoc_L (∪)). do 2 f_equal. cbn [flat_map]. by rewrite app_nil_r.
  - rewrite fmap_cons. cbn [foldr]. lia.
Qed.

Definition chunks_ok (e : bytes) : Prop := zlen (chunks CHUNK_BYTES e) ≤ u32_max + 1 ∧ e ≠ [].

Lemma block_key e x : chunks_ok x → e ∈ block x → ∃ j c, e = (physical_key (sha256 x) j, c) ∧ 0 ≤ j ≤ u32_max.
Proof.
  intros [Hx _] ([j c] & -> & [Hj _]%elem_of_number)%list_elem_of_fmap. exists j, c. split; [done|lia].
Qed.

Lemma blocks_sorted es :
  StronglySorted (λ a b, cmp_lt (sha256 a) (sha256 b)) es → Forall chunks_ok es →
  StronglySorted (λ p q, cmp_lt p.1 q.1) (flat_map block es).
Proof.
  induction 1 as [|x es Hs IH Hx]; [constructor|]. intros [[Hc Hne] Hf]%Forall_cons. cbn [flat_map].
  apply StronglySorted_app. split_and!; [|by apply block_from_sorted|by apply IH].
  intros p q Hp (y & Hy & Hq)%elem_of_flat_map. rewrite Forall_forall in Hx, Hf.
  apply block_key in Hp as (j & c & -> & Hj); [|done]. apply block_key in Hq as (j' & c' & -> & Hj'); [|by apply Hf].
  apply physical_key_lt; cbn [fst]; [by rewrite !sha256_len|done|done|]. left. by apply Hx.
Qed.

(** *** Validation *)

Definition chunk_ok (c : bytes) : Prop := c ≠ [] ∧ zlen c ≤ CHUNK_BYTES.

Lemma validate_block d k cs prev :
  zlen d = 32 → 0 ≤ k → k + zlen cs ≤ u32_max + 1 → Forall chunk_ok cs →
  match prev with Some (pd, pi) => pd ≠ d ∨ pi + 1 = k | None => True end →
  ∃ p, foldM validate_entry prev (block_from d k cs) = Ok p ∧ (p = prev ∨ ∃ j, p = Some (d, j)).
Proof.
  intros Hd. revert k prev. induction cs as [|c cs IH]; intros k prev Hk; [intros; exists prev; by split; [|left]|].
  rewrite zlen_cons, block_from_cons. pose proof (zlen_nonneg cs) as Hl0. intros Hl [[Hne Hc] Hf]%Forall_cons Hprev. cbn [foldM].
  assert (validate_entry prev (physical_key d k, c) = Ok (Some (d, k))) as ->.
  { unfold validate_entry. cbn [fst snd]. rewrite parse_key by lia. rewrite Ok_bind. cbn [fst snd].
    assert (is_empty c = false) as -> by by destruct c. rewrite (proj2 (Z.ltb_ge _ _)) by lia. cbn [orb negb ensure]. rewrite Ok_bind.
    assert (match prev with Some (pd, pi) => bool_decide (d = pd) && negb (k =? Z.min u32_max (pi + 1)) | None => false end = false) as ->; [|done].
    destruct prev as [[pd pi]|]; [|done]. destruct Hprev as [Hp|<-]; [by rewrite bool_decide_eq_false_2|].
    rewrite Z.min_r by lia. by rewrite Z.eqb_refl, andb_false_r. }
  rewrite Ok_bind. destruct (IH (k + 1) (Some (d, k))) as (p & Hp & Hd'); [lia|lia|done|by right|].
  exists p. split; [done|]. right. destruct Hd' as [->|?]; [by exists k|done].
Qed.

Lemma validate_blocks es prev :
  NoDup (sha256 <$> es) → Forall chunks_ok es →
  (∀ x, x ∈ es → match prev with Some (pd, _) => pd ≠ sha256 x | None => True end) →
  ∃ p, foldM validate_entry prev (flat_map block es) = Ok p.
Proof.
  revert prev. induction es as [|x es IH]; intros prev; [by exists prev|]. rewrite fmap_cons. cbn [flat_map].
  intros [Hn Hnd]%NoDup_cons [[Hc _] Hf]%Forall_cons Hp. rewrite foldM_app.
  destruct (validate_block (sha256 x) 0 (chunks CHUNK_BYTES x) prev) as (p & Hv & Hp').
  - apply sha256_len.
  - done.
  - done.
  - apply chunks_spec.
  - specialize (Hp x ltac:(left)). destruct prev as [[pd pi]|]; [by left|done].
  - change (block x) with (block_from (sha256 x) 0 (chunks CHUNK_BYTES x)). rewrite Hv, Ok_bind. apply IH; [done|done|]. intros y Hy. destruct Hp' as [->|[j ->]].
    + apply Hp. by right.
    + intros Heq. apply Hn. rewrite Heq. by apply list_elem_of_fmap_2.
Qed.

(** *** Grouping *)

Definition chunk_group (e : bytes) : bytes * list (Z * bytes) := (sha256 e, number 0 (chunks CHUNK_BYTES e)).

Lemma group_block d k cs acc G :
  zlen d = 32 → 0 ≤ k → k + zlen cs ≤ u32_max + 1 →
  foldM group_entry (<[d := acc]> G) (block_from d k cs) = Ok (<[d := acc ++ number k cs]> G).
Proof.
  intros Hd. revert k acc. induction cs as [|c cs IH]; intros k acc Hk; [by rewrite app_nil_r|].
  rewrite zlen_cons, block_from_cons. pose proof (zlen_nonneg cs). intros Hl. cbn [foldM number].
  unfold group_entry at 2. cbn [fst snd]. rewrite parse_key by lia. rewrite Ok_bind. cbn [fst snd].
  rewrite lookup_insert_eq, insert_insert_eq. cbn [default]. rewrite Ok_bind, IH by lia. by rewrite <- app_assoc.
Qed.

Lemma group_blocks es G :
  NoDup (sha256 <$> es) → Forall chunks_ok es → (∀ x, x ∈ es → G !! sha256 x = None) →
  foldM group_entry G (flat_map block es) = Ok (list_to_map (chunk_group <$> reverse es) ∪ G).
Proof.
  revert G. induction es as [|x es IH]; intros G; [intros; cbn; by rewrite (left_id_L ∅ (∪))|].
  rewrite fmap_cons. cbn [flat_map]. intros [Hn Hnd]%NoDup_cons [[Hc Hne] Hf]%Forall_cons HG. rewrite foldM_app.
  assert (foldM group_entry G (block x) = Ok (<[sha256 x := number 0 (chunks CHUNK_BYTES x)]> G)) as ->.
  { unfold block. pose proof (chunks_nonempty x Hne) as Hcn. destruct (chunks CHUNK_BYTES x) as [|c cs] eqn:Ech; [done|].
    rewrite zlen_cons in Hc. pose proof (zlen_nonneg cs). rewrite block_from_cons. cbn [foldM]. unfold group_entry at 2. cbn [fst snd].
    rewrite parse_key by (apply sha256_len || (unfold u32_max; lia)). rewrite Ok_bind. cbn [fst snd].
    rewrite (HG x ltac:(left)). cbn [default app]. rewrite Ok_bind, group_block by (apply sha256_len || lia). done. }
  rewrite Ok_bind, IH; [|done|done|].
  - rewrite reverse_cons, fmap_app, list_to_map_app, <- (assoc_L (∪)). do 2 f_equal. by rewrite insert_union_singleton_l.
  - intros y Hy. rewrite lookup_insert_ne; [apply HG; by right|]. intros Heq. apply Hn. rewrite Heq. by apply list_elem_of_fmap_2.
Qed.

(** *** Joining *)

Lemma join_chunks k cs acc total :
  0 ≤ k → k + zlen cs ≤ u32_max + 1 → 0 ≤ total → total + zlen (concat cs) ≤ MAX_SNAPSHOT_BYTES →
  foldM join_chunk (acc, total) (number k (number k cs)) = Ok (acc ++ concat cs, total + zlen (concat cs)).
Proof.
  revert k acc total. induction cs as [|c cs IH]; intros k acc total Hk; cbn [number concat foldM].
  { intros _ _ _. by rewrite app_nil_r, Z.add_0_r. }
  rewrite zlen_cons, zlen_app. pose proof (zlen_nonneg cs). pose proof (zlen_nonneg c). pose proof (zlen_nonneg (concat cs)).
  intros Hl Ht Hmax. unfold join_chunk at 2. unfold u32_try_from.
  rewrite (proj2 (Z.leb_le _ _)) by lia. cbn [ok_or]. rewrite Ok_bind, Z.eqb_refl. cbn [ensure]. rewrite Ok_bind.
  assert (checked_add total (zlen c) = Some (total + zlen c)) as ->
    by (apply checked_add_Some; split; [done|unfold MAX_SNAPSHOT_BYTES, u64_max in *; lia]).
  cbn [ok_or]. rewrite Ok_bind. rewrite (proj2 (Z.ltb_ge _ _)) by lia. cbn [negb ensure]. rewrite Ok_bind.
  rewrite Ok_bind, IH by lia. rewrite <- app_assoc. do 2 f_equal. lia.
Qed.

Lemma decode_groups rs es recs total :
  Forall2 stored_record rs es → 0 ≤ total → total + foldr Z.add 0 (zlen <$> es) ≤ MAX_SNAPSHOT_BYTES →
  foldM decode_group (recs, total) (chunk_group <$> es) = Ok (recs ++ rs, total + foldr Z.add 0 (zlen <$> es)).
Proof.
  intros Hf. revert recs total. induction Hf as [|r e rs es [Hr Hc] Hf IH]; intros recs total Ht.
  { intros _. cbn. by rewrite app_nil_r, Z.add_0_r. }
  rewrite !fmap_cons. cbn [foldr foldM chunk_group]. intros Hmax. pose proof (zlen_nonneg e).
  assert (0 ≤ foldr Z.add 0 (zlen <$> es)) as Hpos.
  { clear. induction es as [|x es IH]; cbn; [lia|]. pose proof (zlen_nonneg x). cbn in IH. lia. }
  assert (decode_group (recs, total) (chunk_group e) = Ok (recs ++ [r], total + zlen e)) as ->; [|rewrite Ok_bind].
  { unfold decode_group, chunk_group. rewrite enumerate_number. destruct (chunks_spec e) as [Hcat _].
    rewrite join_chunks by (rewrite ?Hcat; lia). rewrite Hcat, Ok_bind. cbn [app].
    rewrite bool_decide_eq_true_2 by done. cbn [ensure]. by rewrite Ok_bind, (record_codec _ _ Hr), Ok_bind. }
  rewrite IH by lia. rewrite <- app_assoc. do 2 f_equal. lia.
Qed.

(** *** The whole map *)

(** What [encode_records] writes, in the order of the keys. *)
Lemma encode_records_spec rs m :
  encode_records rs = Ok m →
  ∃ rs' es, rs' ≡ₚ rs ∧ Forall2 stored_record rs' es ∧ NoDup (sha256 <$> es) ∧ Forall chunks_ok es
    ∧ StronglySorted (λ a b, cmp_lt (sha256 a) (sha256 b)) es
    ∧ btree_map_iter m = flat_map block es ∧ foldr Z.add 0 (zlen <$> es) ≤ MAX_SNAPSHOT_BYTES
    ∧ Z.of_nat (size m) ≤ MAX_PHYSICAL_ENTRIES.
Proof.
  intros ([[out total] digs] & Hf & <-%Ok_inj)%result_bind_Ok.
  apply insert_records in Hf as (es0 & Hst & Hnd & _ & -> & -> & Hmax & Hsz); [|by vm_compute|by vm_compute].
  cbn [fst]. rewrite (right_id_L ∅ (∪)) in *.
  set (es := merge_sort (λ a b, cmp_le (sha256 a) (sha256 b)) es0).
  assert (es0 ≡ₚ es) as Hes by (symmetry; apply merge_sort_Permutation).
  destruct (Permutation_Forall2 Hes (proj1 (Forall2_flip _ _ _) Hst)) as (rs' & Hrs & Hst'%Forall2_flip).
  assert (NoDup (sha256 <$> es)) as Hnd' by (by rewrite <- Hes).
  assert (Forall chunks_ok es) as Hck.
  { clear -Hst'. induction Hst' as [|r e rs es [Hr Hc] _ IH]; constructor; [|done]. split; [done|by eapply encode_not_empty]. }
  assert (StronglySorted (λ a b, cmp_lt (sha256 a) (sha256 b)) es) as Hsorted.
  { apply strongly_sorted_strict; [done|]. apply StronglySorted_merge_sort;
      [intros ? ? ?; apply cmp_le_transitive|intros ? ?; apply cmp_le_total]. }
  pose proof (blocks_sorted es Hsorted Hck) as Hb.
  assert (list_to_map (flat_map block (reverse es0)) = (list_to_map (flat_map block es) : gmap bytes bytes)) as Hmap.
  { apply list_to_map_proper.
    - assert (flat_map block (reverse es0) ≡ₚ flat_map block es) as ->; [|by eapply (NoDup_sorted_keys _ Hb)].
      apply Permutation_flat_map. by rewrite reverse_Permutation.
    - apply Permutation_flat_map. by rewrite reverse_Permutation. }
  rewrite Hmap in Hsz |- *. exists rs', es. split_and!; try done.
  - by apply btree_map_iter_list.
  - enough (foldr Z.add 0 (zlen <$> es) = foldr Z.add 0 (zlen <$> es0)) by lia.
    apply foldr_permutation_proper'; [..|by rewrite Hes]; try apply _; intros; lia.
Qed.

Lemma decode_encoded_map rs m : encode_records rs = Ok m → ∃ rs', decode_records m = Ok rs' ∧ rs' ≡ₚ rs.
Proof.
  intros (rs' & es & Hp & Hst & Hnd & Hck & Hs & Hit & Hmax & Hsz)%encode_records_spec.
  unfold decode_records, validate_physical_map. rewrite (proj2 (Z.ltb_ge _ _)) by lia. cbn [negb ensure]. rewrite Ok_bind, Hit.
  destruct (validate_blocks es None Hnd Hck) as [p ->]; [done|]. rewrite !Ok_bind.
  rewrite group_blocks; [|done|done|by intros; apply lookup_empty]. rewrite Ok_bind.
  assert (list_to_map (chunk_group <$> reverse es) ∪ ∅ = (list_to_map (chunk_group <$> es) : gmap bytes _)) as ->.
  { rewrite (right_id_L ∅ (∪)). apply list_to_map_proper; [|by rewrite reverse_Permutation].
    rewrite <- list_fmap_compose. change (fst ∘ chunk_group) with (λ e, sha256 e). by rewrite reverse_Permutation. }
  rewrite btree_map_iter_list; cycle 1.
  { clear -Hs. induction Hs as [|e es Hs IH He]; rewrite ?fmap_cons; constructor; [done|]. by apply Forall_fmap. }
  rewrite (decode_groups rs' es) by (done || lia). rewrite Ok_bind. cbn [fst app]. eexists. split; [done|].
  by rewrite sort_by_perm.
Qed.
End Physical.
