(* ===== verification/DbFiles.v ===== *)
(** * [FilePersistence]: the database in its files

    The operations of persistence.rs over any devices: the state of the
    database is a set of records, kept as chunks in a B+ tree whose pages the
    durable pager writes.  Replacing the state changes the tree on staged copies
    of its pages and hands them to the pager in one group.  Loops of the tree take a
    [limit]; [None] means that it was reached. *)

From Stdlib Require Import Ascii String.
From S2P Require Import Prelude StorageBytes StoragePage StorageIo StorageWal StoragePager BtreeNode BtreeOps CoreTypes CoreCodec EngineExpr EngineCatalog EngineTxn EngineState EngineRecords SqlAst DbExecutor DbDatabase DbRecords.

(** ** Operations on the files *)

Definition fio (S A : Type) : Type := S → option (dbresult A * S).

#[export] Instance fio_ret {S} : MRet (fio S) := λ A a s, Some (Ok a, s).
#[export] Instance fio_bind {S} : MBind (fio S) := λ A B f m s,
  match m s with
  | Some (Ok a, s) => f a s
  | Some (Err e, s) => Some (Err e, s)
  | None => None
  end.

Definition f_lift {S A} (r : dbresult A) : fio S A := λ s, Some (r, s).
Definition f_err {S A} (e : DatabaseError) : fio S A := λ s, Some (Err e, s).
(** A storage operation, [?] turning its error into [DatabaseError::Storage]. *)
Definition f_io {S A} (m : io S A) : fio S A := λ s, let '(r, s) := m s in Some (map_err DbStorage r, s).
Definition f_tree {S A} (m : proc S A) : fio S A := λ s,
  match m s with Some (r, s) => Some (map_err DbStorage r, s) | None => None end.

Fixpoint f_each {S A} (f : A → fio S unit) (l : list A) : fio S unit :=
  match l with
  | [] => mret tt
  | a :: l => _ ← f a; f_each f l
  end.

(** [into_iter().collect::<BTreeMap<_, _>>()] *)
Definition collect_map (l : list entry) : gmap bytes bytes := foldl (λ m e, <[e.1 := e.2]> m) ∅ l.

(** ** Staged pages *)

Record StagedPageState (S : Type) : Type := mkStaged {
  sp_disk : S;
  sp_pages : gmap Z Page;
  sp_next_page_id : Z;
  sp_finished : bool
}.
Arguments mkStaged {S} _ _ _ _.
Arguments sp_disk {S} _.
Arguments sp_pages {S} _.
Arguments sp_next_page_id {S} _.
Arguments sp_finished {S} _.

Module StagedPageStore.
Section StagedPageStore.
Context {S : Type} `{Disk S}.

Definition new (disk : S) (next_page_id : Z) : StagedPageState S := mkStaged disk ∅ next_page_id false.

Definition on_disk {A} (m : io S A) : io (StagedPageState S) A := λ s,
  let '(r, d) := m (sp_disk s) in (r, mkStaged d (sp_pages s) (sp_next_page_id s) (sp_finished s)).

Definition finish : fio (StagedPageState S) (list Page * Z) := λ s,
  if sp_finished s then Some (Err (DbInvariant "staged page store was already consumed"), s)
  else Some (Ok ((btree_map_iter (sp_pages s)).*2, sp_next_page_id s), mkStaged (sp_disk s) ∅ (sp_next_page_id s) true).

Definition load (page_id : Z) : io (StagedPageState S) Page := λ s,
  match sp_pages s !! page_id with
  | Some page => (Ok page, s)
  | None =>
      (l ← on_disk (read_page page_id);
       page ← io_lift (page_decode l);
       _ ← io_ensure (StoragePage.page_id page =? page_id) (wrong_page page_id (StoragePage.page_id page));
       mret page) s
  end.

Definition insert_page (page : Page) : io (StagedPageState S) unit := λ s,
  if sp_finished s then (Err (SInvariant "cannot save after staged page store is consumed"), s)
  else (Ok tt, mkStaged (sp_disk s) (<[page_id page := page]> (sp_pages s)) (sp_next_page_id s) (sp_finished s)).

Definition save (page : Page) : io (StagedPageState S) unit :=
  _ ← io_lift (page_validate page);
  insert_page page.

Definition allocate (_ : PageKind) : io (StagedPageState S) Z := λ s,
  if sp_finished s then (Err (SInvariant "cannot allocate after staged page store is consumed"), s)
  else match checked_add (sp_next_page_id s) 1 with
       | Some next => (Ok (sp_next_page_id s), mkStaged (sp_disk s) (sp_pages s) next (sp_finished s))
       | None => (Err (SInvariant "page id space exhausted"), s)
       end.
End StagedPageStore.
End StagedPageStore.

#[export] Instance staged_page_store {S} `{Disk S} : PageStore (StagedPageState S) := {|
  ps_load := StagedPageStore.load;
  ps_save := StagedPageStore.save;
  ps_allocate := StagedPageStore.allocate
|}.

(** ** Records of the state *)

Section Records.
Context `{SerdeJson DurableRequestRecord}.
Context `{SerdeJson SnapshotMeta, SerdeJson Catalog, SerdeJson PrimarySnapshotEntry, SerdeJson SecondarySnapshotEntry, SerdeJson ClientSnapshotEntry}.

Definition encode_request_record (p : bytes * DurableRequestRecord) : dbresult SnapshotRecord :=
  value ← map_err (λ error, DbInvariant ("request record encode failed: " +:+ error)) (to_vec p.2);
  Ok (mkRecord REQUEST_RECORD_KIND p.1 value).

Definition encode_request_records (requests : DurableRequests) : dbresult (list SnapshotRecord) :=
  mapM_result encode_request_record (btree_map_iter requests).

Definition state_records (engine : Engine) (requests : DurableRequests) : dbresult (list SnapshotRecord) :=
  _ ← validate_durable_requests engine requests;
  records ← from_engine (to_records (snapshot engine));
  request_records ← encode_request_records requests;
  Ok (records ++ request_records).

Definition decode_request_record (requests : DurableRequests) (record : SnapshotRecord) : dbresult DurableRequests :=
  _ ← ensure (negb (negb (sr_kind record =? REQUEST_RECORD_KIND) || negb (zlen (sr_key record) =? 16)))
        (Corruption "durable request record has an invalid kind or key");
  request ← map_err (λ error, Corruption ("request record decode failed: " +:+ error)) (from_slice (sr_value record));
  _ ← ensure (bool_decide (requests !! sr_key record = None)) (Corruption "duplicate durable request fingerprint");
  Ok (<[sr_key record := request]> requests).

Definition decode_request_records (records : list SnapshotRecord) (engine : Engine) : dbresult DurableRequests :=
  requests ← foldM decode_request_record ∅ records;
  _ ← validate_durable_requests engine requests;
  Ok requests.

(** The state the entries of the tree stand for. *)
Definition decode_state `{Sha256} (physical : gmap bytes bytes) : dbresult (Engine * DurableRequests) :=
  records ← decode_records physical;
  let engine_records := List.filter (λ record, negb (sr_kind record =? REQUEST_RECORD_KIND)) records in
  let request_records := List.filter (λ record, sr_kind record =? REQUEST_RECORD_KIND) records in
  snapshot ← from_engine (from_records engine_records);
  engine ← from_engine (from_snapshot snapshot);
  requests ← decode_request_records request_records engine;
  Ok (engine, requests).
End Records.

(** ** The files *)

Record FilePersistence (S : Type) : Type := mkFiles {
  fp_devices : S;
  fp_superblock : Superblock;
  fp_recovery : RecoveryReport
}.
Arguments mkFiles {S} _ _ _.
Arguments fp_devices {S} _.
Arguments fp_superblock {S} _.
Arguments fp_recovery {S} _.

Section Files.
Context {S : Type} `{!WalIo S} `{!Disk S} `{Sha256}.
Context `{SerdeJson DurableRequestRecord}.
Context `{SerdeJson SnapshotMeta, SerdeJson Catalog, SerdeJson PrimarySnapshotEntry, SerdeJson SecondarySnapshotEntry, SerdeJson ClientSnapshotEntry}.
Context (limit : nat).

(** Work on a staged copy of the pages. *)
Definition with_staged {A} (m : fio (StagedPageState S) A) : fio (FilePersistence S) A := λ self,
  match m (StagedPageStore.new (fp_devices self) (next_page_id (fp_superblock self))) with
  | Some (r, s) => Some (r, mkFiles (sp_disk s) (fp_superblock self) (fp_recovery self))
  | None => None
  end.

Definition on_devices {A} (m : io S A) : fio (FilePersistence S) A := λ self,
  let '(r, s) := m (fp_devices self) in
  Some (map_err DbStorage r, mkFiles s (fp_superblock self) (fp_recovery self)).

(** The superblock the pager keeps. *)
Definition get_superblock : fio (FilePersistence S) Superblock := λ self, Some (Ok (fp_superblock self), self).
Definition get_recovery : fio (FilePersistence S) RecoveryReport := λ self, Some (Ok (fp_recovery self), self).
Definition put_superblock (sb : Superblock) : fio (FilePersistence S) unit := λ self,
  Some (Ok tt, mkFiles (fp_devices self) sb (fp_recovery self)).

Definition remove_key (root : Z) (key : bytes) : fio (StagedPageState S) unit :=
  removed ← f_tree (btree_delete limit root key);
  f_lift (ensure (bool_decide (is_Some removed)) (DbInvariant "B+ tree key disappeared during snapshot replacement")).

Definition put_entry (root : Z) (e : entry) : fio (StagedPageState S) unit :=
  _ ← f_tree (btree_insert limit root e.1 e.2); mret tt.

Definition wrong_count (validation : ValidationReport) (expected : gmap bytes bytes) : DatabaseError :=
  DbInvariant ("B+ tree has " +:+ pretty (Z.of_nat (v_entries validation)) +:+ " entries after replacement, expected "
               +:+ pretty (Z.of_nat (size expected))).

Definition wrong_snapshot_count (validation : ValidationReport) (expected : gmap bytes bytes) : DatabaseError :=
  DbInvariant ("snapshot tree has " +:+ pretty (Z.of_nat (v_entries validation)) +:+ " entries, expected "
               +:+ pretty (Z.of_nat (size expected))).

(** The tree of [persist_state], from opening it to its staged pages. *)
Definition replace_tree (root_directory : option Z) (expected : gmap bytes bytes)
    : fio (StagedPageState S) (ValidationReport * Z * list Page * Z) :=
  root ← match root_directory with
         | Some root => f_tree (btree_open limit root)
         | None => f_tree btree_create
         end;
  entries ← f_tree (btree_range limit root [] None);
  let current := collect_map entries in
  _ ← f_lift (validate_physical_map current);
  _ ← f_each (remove_key root) (List.filter (λ key, bool_decide (expected !! key = None)) (btree_map_iter current).*1);
  _ ← f_each (put_entry root) (List.filter (λ e, negb (bool_decide (current !! e.1 = Some e.2))) (btree_map_iter expected));
  validation ← f_tree (btree_validate limit root);
  _ ← f_lift (ensure (v_entries validation =? size expected)%nat (wrong_count validation expected));
  '(pages, next_page_id) ← StagedPageStore.finish;
  mret (validation, root, pages, next_page_id).

Definition persist_state (engine : Engine) (requests : DurableRequests) : fio (FilePersistence S) ValidationReport :=
  superblock ← get_superblock;
  expected_index ← f_lift (ok_or (checked_add (sb_applied_index superblock) 1) (DbInvariant "applied index overflow"));
  _ ← f_lift (ensure (last_applied engine =? expected_index)
        (DbInvariant ("candidate engine is at index " +:+ pretty (last_applied engine)
                      +:+ ", durable pager expects " +:+ pretty expected_index)));
  state_hash ← f_lift (ok_or (last_apply_hash engine) (DbInvariant "applied engine has no command hash"));
  records ← f_lift (state_records engine requests);
  expected ← f_lift (encode_records records);
  '(validation, root, pages, next_page_id) ← with_staged (replace_tree (root_directory superblock) expected);
  _ ← f_lift (ensure (negb (is_empty pages)) (DbInvariant "advancing an apply index produced no durable page images"));
  '(_, superblock) ← on_devices (pager_apply superblock (last_applied engine) state_hash pages next_page_id (Some root));
  _ ← put_superblock superblock;
  mret validation.

(** The tree of [install_state]. *)
Definition build_tree (expected : gmap bytes bytes) : fio (StagedPageState S) (ValidationReport * Z * list Page * Z) :=
  root ← f_tree btree_create;
  _ ← f_each (put_entry root) (btree_map_iter expected);
  validation ← f_tree (btree_validate limit root);
  _ ← f_lift (ensure (v_entries validation =? size expected)%nat (wrong_snapshot_count validation expected));
  '(pages, next_page_id) ← StagedPageStore.finish;
  mret (validation, root, pages, next_page_id).

Definition install_state (engine : Engine) (requests : DurableRequests) : fio (FilePersistence S) ValidationReport :=
  _ ← f_lift (validate_durable_requests engine requests);
  superblock ← get_superblock;
  _ ← f_lift (ensure (negb (last_applied engine <=? sb_applied_index superblock))
        (DbInvariant ("installed snapshot index " +:+ pretty (last_applied engine)
                      +:+ " must be newer than durable index " +:+ pretty (sb_applied_index superblock))));
  state_hash ← f_lift (ok_or (last_apply_hash engine) (DbInvariant "snapshot engine has no apply hash"));
  records ← f_lift (state_records engine requests);
  expected ← f_lift (encode_records records);
  '(validation, root, pages, next_page_id) ← with_staged (build_tree expected);
  superblock ← on_devices (StoragePager.install_snapshot superblock (last_applied engine) state_hash pages next_page_id root);
  _ ← put_superblock superblock;
  mret validation.

Definition files_checkpoint : fio (FilePersistence S) Checkpoint :=
  superblock ← get_superblock;
  '(marker, superblock) ← on_devices (pager_checkpoint superblock);
  _ ← put_superblock superblock;
  mret marker.

Definition files_status : fio (FilePersistence S) PersistenceStatus :=
  scan ← on_devices wal_scan;
  superblock ← get_superblock;
  database_pages ← on_devices page_count;
  recovery ← get_recovery;
  mret (mkPersistenceStatus superblock database_pages (safe_append_offset scan) recovery).

(** Read the tree at [root] through a page store on the disk. *)
Definition scan_tree (root : Z) : fio (DiskPageState S) (gmap bytes bytes) :=
  root ← f_tree (btree_open limit root);
  entries ← f_tree (btree_range limit root [] None);
  mret (collect_map entries).

Definition on_disk_store {A} (m : fio (DiskPageState S) A) (next : Z) : fio (FilePersistence S) A := λ self,
  match m (mkDiskPages (fp_devices self) next) with
  | Some (r, s) => Some (r, mkFiles (dp_disk s) (fp_superblock self) (fp_recovery self))
  | None => None
  end.

Definition read_tree (root : Z) : fio (FilePersistence S) (gmap bytes bytes) :=
  next ← on_devices DiskPageStore.open;
  on_disk_store (scan_tree root) next.

Definition load_state : fio (FilePersistence S) (Engine * DurableRequests) :=
  superblock ← get_superblock;
  if (sb_applied_index superblock =? 0) && bool_decide (root_directory superblock = None)
  then mret (Engine_default, ∅) else
  if sb_applied_index superblock =? 0
  then f_err (Corruption "genesis superblock unexpectedly names a snapshot tree") else
  match root_directory superblock with
  | None => f_err (Corruption "applied database has no snapshot-tree root")
  | Some root =>
      physical ← read_tree root;
      '(engine, requests) ← f_lift (decode_state physical);
      _ ← f_lift (ensure (last_applied engine =? sb_applied_index superblock)
            (Corruption ("engine snapshot index " +:+ pretty (last_applied engine) +:+ " disagrees with superblock "
                         +:+ pretty (sb_applied_index superblock))));
      _ ← f_lift (ensure (bool_decide (last_apply_hash engine = Some (sb_state_hash superblock)))
            (Corruption "engine snapshot hash disagrees with superblock"));
      mret (engine, requests)
  end.

(** [open], once the two files are open. *)
Definition files_open : S → option (dbresult (FilePersistence S * Engine * DurableRequests) * S) := λ s,
  match f_io pager_open s with
  | Some (Ok (superblock, recovery), s) =>
      match load_state (mkFiles s superblock recovery) with
      | Some (Ok (engine, requests), self) => Some (Ok (self, engine, requests), fp_devices self)
      | Some (Err e, self) => Some (Err e, fp_devices self)
      | None => None
      end
  | Some (Err e, s) => Some (Err e, s)
  | None => None
  end.
End Files.
