(* ===== verification/DbState.v ===== *)
(** * The database state as records

    What is written of an engine and of the requests it has answered is read back
    as the same engine and requests, whatever the order of the records. *)

From S2P Require Import Prelude StorageBytes StoragePage StorageIo StorageWal StorageGroups StoragePager BtreeNode BtreeOps BtreeTree BtreeSearch CoreTypes CoreCodec EngineExpr EngineCatalog EngineTxn EngineState EngineChains EngineInv EngineCommit EngineSteps EngineRecords SqlAst DbExecutor DbDatabase DbRecords DbFiles.

(** The widths the source gives: byte strings, 16-byte client identifiers,
    32-byte hashes. *)
Record state_typed (e : Engine) (requests : DurableRequests) : Prop := {
  ty_ids : ids_typed e;
  ty_primary : ∀ k l, primary e !! k = Some l → Forall byte_ok (k_primary_key k);
  ty_secondary : ∀ k l, secondary e !! k = Some l → Forall byte_ok (s_value k) ∧ Forall byte_ok (s_primary_key k);
  ty_clients : ∀ c r, clients e !! c = Some r → Forall byte_ok c;
  ty_requests : ∀ c r, requests !! c = Some r → zlen c = 16 ∧ Forall byte_ok c;
  ty_hash : ∀ h, last_apply_hash e = Some h → zlen h = 32 ∧ Forall byte_ok h
}.

Lemma filter_Permutation {A} (f : A → bool) l l' : l ≡ₚ l' → List.filter f l ≡ₚ List.filter f l'.
Proof.
  induction 1 as [|x l l' _ IH|x y l|l l' l'' _ IH1 _ IH2]; cbn; [done| | |by etrans].
  - destruct (f x); [by constructor|done].
  - destruct (f x), (f y); try done. apply Permutation_swap.
Qed.

Lemma filter_all {A} (f : A → bool) l : Forall (λ a, f a = true) l → List.filter f l = l.
Proof. induction 1 as [|a l Ha _ IH]; cbn; [done|]. by rewrite Ha, IH. Qed.

Section State.
Context `{Sha256} {Hsha : Sha256Ok}.
Context `{SerdeJson DurableRequestRecord}.
Context `{SerdeJson SnapshotMeta, SerdeJson Catalog, SerdeJson PrimarySnapshotEntry, SerdeJson SecondarySnapshotEntry, SerdeJson ClientSnapshotEntry}.
Context {Jr : SerdeJsonOk DurableRequestRecord}.
Context {Jm : SerdeJsonOk SnapshotMeta} {Jc : SerdeJsonOk Catalog} {Jp : SerdeJsonOk PrimarySnapshotEntry}.
Context {Js : SerdeJsonOk SecondarySnapshotEntry} {Jl : SerdeJsonOk ClientSnapshotEntry}.

(** ** Requests *)

Definition request_record (p : bytes * DurableRequestRecord) (r : SnapshotRecord) : Prop :=
  sr_kind r = REQUEST_RECORD_KIND ∧ sr_key r = p.1 ∧ to_vec p.2 = Ok (sr_value r).

Lemma encode_request_records_Ok requests rs :
  encode_request_records requests = Ok rs → Forall2 request_record (btree_map_iter requests) rs.
Proof.
  intros Hf%mapM_result_Ok. eapply Forall2_impl; [exact Hf|]. intros [c r] rec Hr. unfold encode_request_record in Hr.
  cbn [fst snd] in Hr. destruct (to_vec r) as [b|err] eqn:Hv; [|done]. apply Ok_inj in Hr as <-. done.
Qed.

Lemma decode_requests ps rs requests :
  Forall2 request_record ps rs → Forall (λ p, zlen p.1 = 16) ps → NoDup ps.*1 → (∀ p, p ∈ ps → requests !! p.1 = None) →
  foldM decode_request_record requests rs = Ok (list_to_map ps ∪ requests).
Proof.
  intros Hf. revert requests. induction Hf as [|[c q] r ps rs (Hk & Hkey & Hv) _ IH]; intros requests.
  { intros _ _ _. cbn. by rewrite (left_id_L ∅ (∪)). }
  intros [Hl Hls]%Forall_cons. rewrite fmap_cons. intros [Hn Hnd]%NoDup_cons Hnew. cbn [fst snd] in *.
  cbn [foldM]. unfold decode_request_record at 2. rewrite Hk, Z.eqb_refl, Hkey, Hl. cbn [Z.eqb Pos.eqb negb orb ensure].
  rewrite Ok_bind, (from_slice_to_vec q _ Hv). cbn [map_err]. rewrite Ok_bind.
  rewrite bool_decide_eq_true_2 by (apply (Hnew (c, q)); left). cbn [ensure]. rewrite Ok_bind, Ok_bind, IH; [|done|done|].
  - f_equal. change (list_to_map ((c, q) :: ps)) with (<[c := q]> (list_to_map ps : DurableRequests)).
    rewrite <- insert_union_l. symmetry. apply insert_union_r. by apply not_elem_of_list_to_map_1.
  - intros p Hp. rewrite lookup_insert_ne; [apply Hnew; by right|]. intros ->. apply Hn. by apply list_elem_of_fmap_2.
Qed.

Lemma decode_encoded_requests e requests rs rs' :
  validate_durable_requests e requests = Ok tt → (∀ c r, requests !! c = Some r → zlen c = 16) →
  encode_request_records requests = Ok rs → rs' ≡ₚ rs → decode_request_records rs' e = Ok requests.
Proof.
  intros Hval Hlen Hf%encode_request_records_Ok Hperm.
  destruct (Permutation_Forall2 (symmetry Hperm) (proj1 (Forall2_flip _ _ _) Hf)) as (ps & Hps & Hf'%Forall2_flip).
  assert (btree_map_iter requests ≡ₚ map_to_list requests) as Hiter by apply merge_sort_Permutation.
  rewrite Hps in Hiter.
  assert (list_to_map ps = requests) as Hmap.
  { rewrite <- (list_to_map_to_list requests). apply list_to_map_proper; [|done]. rewrite Hiter. apply NoDup_fst_map_to_list. }
  unfold decode_request_records. rewrite (decode_requests ps); [|done|..].
  - rewrite Ok_bind, (right_id_L ∅ (∪)), Hmap, Hval. done.
  - rewrite Hiter. apply Forall_forall. intros [c r] Hr%elem_of_map_to_list. by eapply Hlen.
  - rewrite Hiter. apply NoDup_fst_map_to_list.
  - intros; apply lookup_empty.
Qed.

(** ** The whole state *)

Lemma to_records_kinds s rs : to_records s = Ok rs → Forall (λ r, (sr_kind r =? REQUEST_RECORD_KIND) = false) rs.
Proof.
  intros (l & Hl & ->)%to_records_parts. rewrite sort_by_perm. apply Forall_forall. intros r Hr.
  apply list_elem_of_lookup in Hr as [i Hi]. destruct (Forall2_lookup_r _ _ _ _ _ Hl Hi) as (p & _ & Hp).
  apply part_record_kind in Hp as [-> _]. by destruct p.
Qed.

Lemma request_kinds ps rs : Forall2 request_record ps rs → Forall (λ r, (sr_kind r =? REQUEST_RECORD_KIND) = true) rs.
Proof. induction 1 as [|p r ps rs (Hk & _) _ IH]; constructor; [by rewrite Hk|done]. Qed.

Lemma state_records_Ok e requests rs :
  state_records e requests = Ok rs →
  ∃ rs1 rs2, rs = rs1 ++ rs2 ∧ to_records (snapshot e) = Ok rs1 ∧ encode_request_records requests = Ok rs2
    ∧ validate_durable_requests e requests = Ok tt.
Proof.
  intros ([] & Hv & Hr)%result_bind_Ok. apply result_bind_Ok in Hr as (rs1 & R1 & Hr).
  apply result_bind_Ok in Hr as (rs2 & R2 & <-%Ok_inj). unfold from_engine, map_err in R1.
  destruct (to_records (snapshot e)) as [rs1'|] eqn:Ht; [|done]. apply Ok_inj in R1 as ->. by exists rs1, rs2.
Qed.

Lemma decode_stored_state e requests rs m :
  engine_wf e → state_typed e requests → state_records e requests = Ok rs → encode_records rs = Ok m →
  decode_state m = Ok (e, requests).
Proof.
  intros Hwf Hty (rs1 & rs2 & -> & R1 & R2 & Hval)%state_records_Ok (rs' & Hd & Hp)%decode_encoded_map.
  unfold decode_state. rewrite Hd, Ok_bind. pose proof (to_records_kinds _ _ R1) as Hk1.
  pose proof (request_kinds _ _ (encode_request_records_Ok _ _ R2)) as Hk2.
  destruct (from_records_perm e rs1 (List.filter (λ r, negb (sr_kind r =? REQUEST_RECORD_KIND)) rs') Hwf (ty_ids _ _ Hty) R1)
    as (s & -> & Hs).
  { rewrite (filter_Permutation _ _ _ Hp), List.filter_app, filter_all, filter_none, app_nil_r; [done|..];
      (eapply Forall_impl; [eassumption|]; by intros r ->). }
  cbn [from_engine map_err]. rewrite Ok_bind, (from_snapshot_perm e s Hwf Hs). cbn [from_engine map_err]. rewrite Ok_bind.
  rewrite (decode_encoded_requests e requests rs2); [done|done|by intros c r Hr; apply (ty_requests _ _ Hty c r)|done|].
  by rewrite (filter_Permutation _ _ _ Hp), List.filter_app, filter_none, filter_all.
Qed.

(** ** The entries of the tree *)

Definition record_ok (r : SnapshotRecord) : Prop := byte_ok (sr_kind r) ∧ Forall byte_ok (sr_key r) ∧ Forall byte_ok (sr_value r).

(** What an entry of the tree is: a key of one length and a chunk. *)
Definition entry_typed (k v : bytes) : Prop :=
  zlen k = PHYSICAL_KEY_BYTES ∧ Forall byte_ok k ∧ Forall byte_ok v ∧ zlen v ≤ CHUNK_BYTES.

Lemma snapshot_record_typed {T} `{SerdeJsonOk T} kind key (v : T) r :
  byte_ok kind → Forall byte_ok key → snapshot_record kind key v = Ok r → record_ok r.
Proof. intros Hk Hkey (b & Hb & -> & _)%snapshot_record_Ok. split_and!; [done|done|]. by eapply to_vec_bytes. Qed.

Definition part_bytes (p : part) : Prop :=
  match p with
  | PPrimary entry => Forall byte_ok (pe_primary_key entry)
  | PSecondary entry => Forall byte_ok (s_value (se_key entry)) ∧ Forall byte_ok (s_primary_key (se_key entry))
  | PClient entry => Forall byte_ok (ce_client_id entry)
  | _ => True
  end.

Lemma part_record_typed p r : part_bytes p → part_record p = Ok r → record_ok r.
Proof.
  assert (∀ kind, 0 ≤ kind < 256 → byte_ok kind) as Hb by (intros; unfold byte_ok; lia).
  destruct p as [m|k|e|e|e]; cbn [part_record part_bytes]; intros Hp Hr.
  - by eapply snapshot_record_typed in Hr.
  - by eapply snapshot_record_typed in Hr.
  - apply result_bind_Ok in Hr as (key & Hk & Hr). eapply snapshot_record_typed in Hr; [done|done|].
    apply result_bind_Ok in Hk as (_ & _ & <-%Ok_inj). repeat apply Forall_app_2; auto using to_be_bytes_ok.
  - destruct Hp as [Hv Hk']. apply result_bind_Ok in Hr as (key & Hk & Hr). eapply snapshot_record_typed in Hr; [done|done|].
    apply result_bind_Ok in Hk as (_ & _ & Hk). apply result_bind_Ok in Hk as (_ & _ & <-%Ok_inj).
    repeat apply Forall_app_2; auto using to_be_bytes_ok.
  - by eapply snapshot_record_typed in Hr.
Qed.

Lemma parts_bytes e requests : state_typed e requests → Forall part_bytes (parts (snapshot e)).
Proof.
  intros [_ Hp Hs Hc _ _]. unfold parts. constructor; [done|]. constructor; [done|]. rewrite !Forall_app, !Forall_fmap.
  split_and!; apply Forall_forall.
  - intros x ([k l] & -> & Hk%elem_of_btree_map_iter)%list_elem_of_fmap. by eapply Hp.
  - intros x ([k l] & -> & Hk%elem_of_btree_map_iter)%list_elem_of_fmap. by eapply Hs.
  - intros x ([k l] & -> & Hk%elem_of_btree_map_iter)%list_elem_of_fmap. by eapply Hc.
Qed.

Lemma state_records_typed e requests rs : state_typed e requests → state_records e requests = Ok rs → Forall record_ok rs.
Proof.
  intros Hty (rs1 & rs2 & -> & (l & Hl & ->)%to_records_parts & R2%encode_request_records_Ok & _)%state_records_Ok.
  apply Forall_app_2.
  - rewrite sort_by_perm. pose proof (parts_bytes _ _ Hty) as Hb. clear -Hl Hb Jm Jc Jp Js Jl.
    induction Hl as [|p r ps l Hp _ IH]; [constructor|]. apply Forall_cons in Hb as [? ?]. constructor; [by eapply part_record_typed|by apply IH].
  - assert (Forall (λ p : bytes * DurableRequestRecord, Forall byte_ok p.1) (btree_map_iter requests)) as Hb.
    { apply Forall_forall. intros [c r] Hr%elem_of_btree_map_iter. by eapply (ty_requests _ _ Hty). }
    clear -R2 Hb Jr. induction R2 as [|p r ps l (Hk & Hkey & Hv) _ IH]; [constructor|]. apply Forall_cons in Hb as [? ?].
    constructor; [|by apply IH]. split_and!; [rewrite Hk; unfold byte_ok, REQUEST_RECORD_KIND; lia|by rewrite Hkey|].
    by eapply to_vec_bytes.
Qed.

Lemma magic_bytes : Forall byte_ok RECORD_MAGIC.
Proof. vm_compute. repeat constructor; discriminate. Qed.
Lemma key_magic_bytes : Forall byte_ok PHYSICAL_KEY_MAGIC.
Proof. vm_compute. repeat constructor; discriminate. Qed.

Lemma encoded_bytes r b : record_ok r → encode_record r = Ok b → Forall byte_ok b.
Proof.
  intros (Hk & Hkey & Hv) (_ & _ & -> & _)%encode_record_Ok.
  apply Forall_app_2; [apply magic_bytes|]. constructor; [done|]. repeat apply Forall_app_2; auto using to_be_bytes_ok.
Qed.

Lemma encode_records_typed rs m : Forall record_ok rs → encode_records rs = Ok m → map_Forall entry_typed m.
Proof.
  intros Hrs (rs' & es & Hp & Hst & _ & Hck & _ & Hit & _ & _)%encode_records_spec k v Hv.
  rewrite <- Hp in Hrs. apply elem_of_btree_map_iter in Hv. rewrite Hit in Hv.
  apply elem_of_flat_map in Hv as (b & Hb & Hv). apply list_elem_of_fmap in Hv as ([j c] & [= -> ->] & Hj).
  apply elem_of_number in Hj as [Hj Hc]. apply list_elem_of_lookup in Hb as [i Hi].
  destruct (Forall2_lookup_r _ _ _ _ _ Hst Hi) as (r & Hr & [He _]).
  assert (Forall byte_ok b) as Hbytes.
  { eapply encoded_bytes; [|done]. rewrite Forall_lookup in Hrs. by eapply Hrs. }
  destruct (chunks_spec b) as [Hcat Hcs]. rewrite Forall_forall in Hcs. destruct (Hcs c Hc) as [_ Hlen].
  cbn [fst snd]. split_and!; [| | |done].
  - unfold physical_key. rewrite !zlen_app, sha256_len. unfold zlen at 2. by rewrite length_to_be_bytes.
  - unfold physical_key. apply Forall_app_2; [apply key_magic_bytes|]. apply Forall_app_2; auto using to_be_bytes_ok, sha256_bytes.
  - apply Forall_forall. intros x Hx. rewrite Forall_forall in Hbytes. apply Hbytes. rewrite <- Hcat.
    apply list_elem_of_In, in_concat. exists c. by rewrite <- !list_elem_of_In.
Qed.

(** C23: what is written of a database state is read back as that state.  The
    records of a well-formed engine and of the requests it has answered, cut into
    chunks under their digests, pass the validation of the tree and decode,
    whatever order the tree returns them in, to the same engine and requests;
    every chunk has a key of one length and is small enough for the tree. *)
Theorem state_roundtrip e requests rs m :
  engine_wf e → state_typed e requests → state_records e requests = Ok rs → encode_records rs = Ok m →
  decode_state m = Ok (e, requests) ∧ validate_physical_map m = Ok tt ∧ map_Forall entry_typed m.
Proof.
  intros Hwf Hty Hrs Hm. pose proof (decode_stored_state e requests rs m Hwf Hty Hrs Hm) as Hd. split_and!; [done| |].
  - unfold decode_state in Hd. apply result_bind_Ok in Hd as (rs' & Hd & _).
    unfold decode_records in Hd. by apply result_bind_Ok in Hd as ([] & Hv & _).
  - eapply encode_records_typed; [|done]. by eapply state_records_typed.
Qed.
End State.
