(* ===== verification/DbPages.v ===== *)
(** * Trees on the pages of the database

    The page stores [FilePersistence] gives the B+ tree keep the contract of
    [PageStoreLaws] on any devices: [StagedPageStore] reads through to the disk
    and keeps what is written to itself; [DiskPageStore] reads the disk.
    [disk_tree] says which map the pages of a disk hold, and the pages a staged
    store hands out turn the map of the disk into the map of the store, stamped
    as the pager writes them. *)

From S2P Require Import Prelude StorageBytes StoragePage StorageIo StorageWal StorageGroups StoragePager StorageLaws StorageReplay StorageApply BtreeNode BtreeOps BtreeTree BtreeStore BtreeSteps BtreeSearch BtreeInsert BtreeDelete BtreeProps CoreTypes CoreCodec EngineExpr EngineCatalog EngineTxn EngineState EngineRecords SqlAst DbExecutor DbDatabase DbRecords DbFiles.

(** ** Stamped pages *)

(** The pager changes the position and the epoch of a page alone. *)
Record same_body (p q : Page) : Prop := {
  sb_ok_l : page_ok p;
  sb_ok_r : page_ok q;
  sb_get o n : 0 ≤ o → 0 ≤ n → o + n ≤ PAGE_SIZE → o + n ≤ 16 ∨ 32 ≤ o ∧ o + n ≤ 44 ∨ 48 ≤ o →
    bytes_get (page_bytes q) o n = bytes_get (page_bytes p) o n
}.

Section SameBody.
Context (p q : Page) (Hpq : same_body p q).

Lemma same_range o n : 48 ≤ o → 0 ≤ n → bytes_range q o n = bytes_range p o n.
Proof.
  intros Ho Hn. unfold bytes_range. destruct (checked_add o n) as [stop|] eqn:Hc; [|done].
  apply checked_add_Some in Hc as [-> _]. cbn [ok_or]. rewrite !Ok_bind. f_equal.
  destruct (sb_ok_l _ _ Hpq) as [Hl _]. destruct (sb_ok_r _ _ Hpq) as [Hl' _].
  unfold slice_get. rewrite Hl, Hl'. destruct (_ && _) eqn:Hb; [|done]. bool_prop.
  f_equal. apply (sb_get _ _ Hpq); lia.
Qed.

Lemma same_get_u16 o : 48 ≤ o → node_get_u16 q o = node_get_u16 p o.
Proof. intros Ho. unfold node_get_u16. by rewrite same_range by lia. Qed.

Lemma same_get_u64 o : 48 ≤ o → node_get_u64 q o = node_get_u64 p o.
Proof. intros Ho. unfold node_get_u64. by rewrite same_range by lia. Qed.

(** A read past the header moves the cursor on. *)
Definition reads_on {A} (m : Page → sresult (A * Z)) (good : A → Prop) : Prop :=
  m q = m p ∧ ∀ v c, m p = Ok (v, c) → good v ∧ 48 ≤ c.

Lemma reads_u16 c stop : 48 ≤ c → reads_on (λ x, read_u16_at x c stop) (λ v, 0 ≤ v).
Proof.
  intros Hc. unfold reads_on, read_u16_at. rewrite same_get_u16 by done. split; [done|]. intros v c' Hr.
  apply result_bind_Ok in Hr as (next & (-> & _)%ok_or_Ok%checked_add_Some & Hr).
  apply result_bind_Ok in Hr as (_ & _ & Hr). apply result_bind_Ok in Hr as (x & Hx & [= <- <-]%Ok_inj).
  split; [|lia]. unfold node_get_u16 in Hx. apply result_bind_Ok in Hx as (l & Hl & <-%Ok_inj).
  apply from_le_bytes_bound. unfold bytes_range in Hl. apply result_bind_Ok in Hl as (stop' & _ & Hs%ok_or_Ok).
  unfold slice_get in Hs. case_match; [|done]. injection Hs as <-. destruct (sb_ok_l _ _ Hpq) as [_ Hb].
  unfold ztake, zdrop. by apply Forall_take, Forall_drop.
Qed.

Lemma reads_u64 c stop : 48 ≤ c → reads_on (λ x, read_u64_at x c stop) (λ _, True).
Proof.
  intros Hc. unfold reads_on, read_u64_at. rewrite same_get_u64 by done. split; [done|]. intros v c' Hr.
  apply result_bind_Ok in Hr as (next & (-> & _)%ok_or_Ok%checked_add_Some & Hr).
  apply result_bind_Ok in Hr as (_ & _ & Hr). apply result_bind_Ok in Hr as (x & Hx & [= <- <-]%Ok_inj). split; [done|lia].
Qed.

Lemma reads_bytes c n stop : 48 ≤ c → 0 ≤ n → reads_on (λ x, read_bytes_at x c n stop) (λ _, True).
Proof.
  intros Hc Hn. unfold reads_on, read_bytes_at. rewrite same_range by done. split; [done|]. intros v c' Hr.
  apply result_bind_Ok in Hr as (next & (-> & _)%ok_or_Ok%checked_add_Some & Hr).
  apply result_bind_Ok in Hr as (_ & _ & Hr). apply result_bind_Ok in Hr as (x & Hx & [= <- <-]%Ok_inj). split; [done|lia].
Qed.

Lemma reads_bind {A B} (m : Page → sresult (A * Z)) (good : A → Prop) (f g : A * Z → sresult B) :
  reads_on m good → (∀ v c, good v → 48 ≤ c → f (v, c) = g (v, c)) → (m q ≫= f) = (m p ≫= g).
Proof.
  intros [-> Hm] Hf. destruct (m p) as [[v c]|e]; [|done]. rewrite !Ok_bind. destruct (Hm v c eq_refl). by apply Hf.
Qed.

Lemma reads_entries c stop n : 48 ≤ c → read_entries q c stop n = read_entries p c stop n.
Proof.
  revert c. induction n as [|n IH]; intros c Hc; [done|]. cbn [read_entries].
  apply (reads_bind _ _ _ _ (reads_u16 c stop Hc)). intros k c1 Hk Hc1.
  apply (reads_bind _ _ _ _ (reads_u16 c1 stop Hc1)). intros v c2 Hv Hc2.
  apply (reads_bind _ _ _ _ (reads_bytes c2 k stop Hc2 Hk)). intros key c3 _ Hc3.
  apply (reads_bind _ _ _ _ (reads_bytes c3 v stop Hc3 Hv)). intros value c4 _ Hc4. by rewrite IH.
Qed.

Lemma reads_children c stop n : 48 ≤ c → read_children q c stop n = read_children p c stop n.
Proof.
  revert c. induction n as [|n IH]; intros c Hc; [done|]. cbn [read_children].
  apply (reads_bind _ _ _ _ (reads_u16 c stop Hc)). intros k c1 Hk Hc1.
  apply (reads_bind _ _ _ _ (reads_bytes c1 k stop Hc1 Hk)). intros key c2 _ Hc2.
  apply (reads_bind _ _ _ _ (reads_u64 c2 stop Hc2)). intros child c3 _ Hc3. by rewrite IH.
Qed.

Lemma same_page_byte i : 0 ≤ i < 16 → page_byte q i = page_byte p i.
Proof.
  intros Hi. pose proof (sb_get _ _ Hpq i 1 ltac:(lia) ltac:(lia) ltac:(unfold PAGE_SIZE; lia) ltac:(lia)) as Hg.
  destruct (sb_ok_l _ _ Hpq) as [Hl _]. destruct (sb_ok_r _ _ Hpq) as [Hl' _].
  rewrite !page_byte_get, Hg by (rewrite ?Hl, ?Hl'; unfold PAGE_SIZE; lia). done.
Qed.
End SameBody.

Lemma same_decode p q : same_body p q → page_valid p → page_valid q → decode_node q = decode_node p.
Proof.
  intros Hpq Hp Hq. unfold decode_node.
  assert (∀ x, page_valid x → page_validate x = Ok tt) as Hv by (intros x Hx; apply page_validate_spec; split; apply Hx).
  rewrite !Hv by done. rewrite !Ok_bind. rewrite !(same_get_u64 p q Hpq), !(same_get_u16 p q Hpq) by (unfold PAGE_HEADER_SIZE; lia).
  assert (page_id q = page_id p) as -> by (unfold page_id, get_u64; by rewrite (sb_get _ _ Hpq) by (unfold PAGE_SIZE; lia)).
  assert (page_kind q = page_kind p) as -> by (unfold page_kind; by rewrite (same_page_byte p q Hpq) by lia).
  assert (h_lower (page_header q) = h_lower (page_header p)) as ->
    by (cbn; unfold get_u16; by rewrite (sb_get _ _ Hpq) by (unfold PAGE_SIZE; lia)).
  destruct (node_get_u64 p PAGE_HEADER_SIZE) as [par|]; [|done]. rewrite !Ok_bind.
  destruct (node_get_u16 p (PAGE_HEADER_SIZE + 24)) as [n|]; [|done]. rewrite !Ok_bind.
  rewrite (reads_entries p q Hpq) by (unfold NODE_DATA; lia).
  destruct (page_kind p); try done. destruct (ensure _ _); [|done]. rewrite !Ok_bind.
  apply (reads_bind p q _ _ _ _ (reads_u64 p q Hpq NODE_DATA _ ltac:(unfold NODE_DATA; lia))). intros first c _ Hc.
  by rewrite (reads_children p q Hpq).
Qed.

Lemma stamp_same p l e : page_valid p → same_body p (stamp p l e).
Proof.
  intros [Ho Hs _]. destruct (stamp_valid p l e Ho Hs) as [Ho' _ _]. split; [done|done|]. intros. by apply stamp_get.
Qed.

Lemma decode_stamped p l e : page_valid p → decode_node (stamp p l e) = decode_node p.
Proof. intros Hp. apply same_decode; [by apply stamp_same|done|]. destruct Hp. by apply stamp_valid. Qed.

(** ** The tree of a disk *)

Definition on_disk (m : gmap Z bytes) (id : Z) (p : Page) : Prop :=
  m !! id = Some (page_bytes p) ∧ page_valid p ∧ page_id p = id.

(** The pages of the disk [m] hold the nodes [N]. *)
Definition disk_holds (m : gmap Z bytes) (N : gmap Z Node) (nx : Z) : Prop :=
  ∀ i n, N !! i = Some n →
    2 ≤ i < nx ∧ node_id n = i ∧ node_ok n ∧ node_size n ≤ NODE_CAP ∧ ∃ p, on_disk m i p ∧ decode_node p = Ok n.

Definition disk_tree (m : gmap Z bytes) (nx root : Z) (mp : gmap bytes bytes) : Prop :=
  2 ≤ nx ≤ u64_max ∧ ∃ N t, disk_holds m N nx ∧ rep N root t ∧ contents t = mp.

Lemma disk_tree_ext m m' nx root mp :
  (∀ id, 2 ≤ id < nx → m !! id = m' !! id) → disk_tree m nx root mp → disk_tree m' nx root mp.
Proof.
  intros Hm (Hnx & N & t & HN & Hrep & Hc). split; [done|]. exists N, t. split_and!; [|done|done].
  intros i n Hn. destruct (HN i n Hn) as (Hi & ? & ? & ? & p & [Hp ?] & ?). split_and!; [lia|lia|done..|].
  exists p. split; [|done]. split; [|done]. by rewrite <- Hm.
Qed.

(** The pages of the nodes [N]. *)
Definition pages_of (m : gmap Z bytes) (N : gmap Z Node) : gmap Z Page := map_imap (λ i _, mkPage <$> m !! i) N.

Lemma pages_of_holds m N nx :
  disk_holds m N nx →
  holds (Hbase := 2) (pages_of m N) N nx ∧ ∀ id p, pages_of m N !! id = Some p → id < nx ∧ on_disk m id p.
Proof.
  intros HN. unfold pages_of. split.
  - intros i n Hn. destruct (HN i n Hn) as (? & ? & ? & ? & p & [Hp ?] & ?). split_and!; [done..|].
    exists p. split; [|done]. rewrite map_lookup_imap, Hn. cbn. rewrite Hp. by destruct p.
  - intros i q Hq. rewrite map_lookup_imap in Hq. apply bind_Some in Hq as (n & Hn & Hq).
    destruct (HN i n Hn) as ([? ?] & ? & ? & ? & p & [Hp Hv] & ?). rewrite Hp in Hq. injection Hq as <-. by destruct p.
Qed.

(** ** The page stores of [FilePersistence] *)

Section Stores.
Context {S : Type} `{!WalIo S} `{!Disk S} {laws : StorageLaws S}.

Lemma read_on_disk s id p :
  on_disk (v_pages (view s)) id p → ∃ s', read_page id s = (Ok (page_bytes p), s') ∧ view s' = view s.
Proof.
  intros (Hp & _). destruct (read_page id s) as [r s'] eqn:Hr. apply read_page_law in Hr as [Hv Hr]. rewrite Hp in Hr. subst r.
  by exists s'.
Qed.

(** The devices, and the first identifier that was free. *)
Context (v0 : View) (n0 : Z) {Hbase : PageBase}.

(** A page of the store is staged, or still what the disk has. *)
Record staged_has (s : StagedPageState S) (P : gmap Z Page) (nx : Z) : Prop := {
  sh_view : view (sp_disk s) = v0;
  sh_open : sp_finished s = false;
  sh_next : sp_next_page_id s = nx;
  sh_range : 2 ≤ page_base ≤ n0 ∧ n0 ≤ nx ≤ u64_max;
  sh_staged : map_Forall (λ id p, page_valid p ∧ page_id p = id ∧ allocated nx id) (sp_pages s);
  sh_pages : ∀ id p, P !! id = Some p →
    sp_pages s !! id = Some p ∨ sp_pages s !! id = None ∧ id < n0 ∧ on_disk (v_pages v0) id p
}.

#[local] Program Instance staged_reads : PageStoreReads (StagedPageState S) := {|
  ps_has := staged_has;
  ps_full := SInvariant "page id space exhausted"
|}.
Next Obligation. intros s P nx [_ _ _ ? _ _]. lia. Qed.
Next Obligation.
  intros s P nx id p Hs Hp. pose proof Hs as [Hv Ho Hn Hr Hst HP]. cbn. unfold StagedPageStore.load.
  destruct (HP id p Hp) as [Hin|(Hout & _ & Hd)]; [rewrite Hin; by eauto|]. rewrite Hout.
  unfold mbind, io_bind, StagedPageStore.on_disk. rewrite <- Hv in Hd. destruct (read_on_disk _ _ _ Hd) as (d & -> & Hvd).
  destruct Hd as (_ & Hval & Hid). unfold io_lift. rewrite (page_valid_decode p Hval). unfold io_ensure, io_lift, ensure.
  rewrite Hid, Z.eqb_refl. eexists. split; [done|]. split; cbn; try done. congruence.
Qed.

#[local] Program Instance staged_laws : PageStoreLaws (StagedPageState S) := {| pl_reads := staged_reads |}.
Next Obligation.
  intros s P nx p [Hv Ho Hn Hr Hst HP] Hval Hid. cbn. unfold StagedPageStore.save, mbind, io_bind, io_lift.
  assert (page_validate p = Ok tt) as -> by (apply page_validate_spec; split; apply Hval).
  unfold StagedPageStore.insert_page. rewrite Ho. eexists. split; [done|]. split; cbn; try done.
  - by apply map_Forall_insert_2.
  - intros id q [[<- <-]|[Hne Hq]]%lookup_insert_Some; [left; by rewrite lookup_insert_eq|].
    rewrite lookup_insert_ne by done. by apply HP.
Qed.
Next Obligation.
  intros s P nx k [Hv Ho Hn Hr Hst HP] Hlt. cbn. unfold StagedPageStore.allocate. rewrite Ho, Hn. unfold checked_add.
  rewrite (proj2 (Z.leb_le _ _)) by lia. eexists. split; [done|]. split; cbn; try done; [lia|].
  eapply map_Forall_impl; [exact Hst|]. intros id p (? & ? & ?). unfold allocated in *. split_and!; [done|done|lia|lia].
Qed.
Next Obligation.
  intros s P nx k Hs ->. pose proof Hs as [Hv Ho Hn Hr Hst HP]. exists s. split; [|done]. cbn.
  unfold StagedPageStore.allocate. rewrite Ho, Hn. unfold checked_add. by rewrite (proj2 (Z.leb_gt _ _)) by lia.
Qed.

(** Reading the disk. *)
#[local] Program Instance disk_reads : PageStoreReads (DiskPageState S) (Hbase := 2) := {|
  ps_has s P nx := view (dp_disk s) = v0 ∧ 2 ≤ nx ≤ u64_max ∧ ∀ id p, P !! id = Some p → on_disk (v_pages v0) id p;
  ps_full := SInvariant "page identifier space exhausted"
|}.
Next Obligation. intros s P nx (_ & ? & _). unfold page_base. lia. Qed.
Next Obligation.
  intros s P nx id p (Hv & Hnx & HP) Hp. specialize (HP id p Hp) as Hd. cbn. unfold DiskPageStore.load, mbind, io_bind, DiskPageStore.on_disk.
  rewrite <- Hv in Hd. destruct (read_on_disk _ _ _ Hd) as (d & -> & Hvd). destruct Hd as (_ & Hval & Hid).
  unfold io_lift. rewrite (page_valid_decode p Hval). unfold io_ensure, io_lift, ensure. rewrite Hid, Z.eqb_refl.
  eexists. split; [done|]. split_and!; cbn; [congruence|lia|lia|done].
Qed.

Lemma disk_tree_reads s nx next root mp :
  view s = v0 → disk_tree (v_pages v0) nx root mp → tree_map (Hbase := 2) (mkDiskPages s next) root mp.
Proof.
  intros Hv (Hnx & N & t & HN & Hrep & Hc). destruct (pages_of_holds _ _ _ HN) as [Hh Hd].
  exists (pages_of (v_pages v0) N), N, nx, t. split_and!; [|done..]. split_and!; [done|lia|lia|]. intros id p Hp. by apply Hd.
Qed.

Lemma new_staged s : view s = v0 → 2 ≤ page_base ≤ n0 → n0 ≤ u64_max → staged_has (StagedPageStore.new s n0) ∅ n0.
Proof. intros Hv Hb Hn. split; cbn; try done; lia. Qed.

(** ** Handing the staged pages to the pager *)

(** [qs] are the pages [ps] as the pager writes them. *)
Definition stamps (ps qs : list Page) : Prop := Forall2 (λ p q, ∃ l e, q = stamp p l e) ps qs.

Lemma stamps_ids ps qs : stamps ps qs → Forall page_valid ps → page_id <$> qs = page_id <$> ps.
Proof.
  induction 1 as [|p q ps qs (l & e & ->) _ IH]; intros Hv; [done|]. apply Forall_cons in Hv as [[? ? _] Hv].
  rewrite !fmap_cons, IH by done. by rewrite stamp_id.
Qed.

Lemma staged_tree_disk s P N nx root t ps qs :
  staged_has s P nx → holds P N nx → rep N root t → ps ≡ₚ (btree_map_iter (sp_pages s)).*2 → stamps ps qs →
  disk_tree (overlay qs (v_pages v0)) nx root (contents t).
Proof.
  intros [_ _ _ Hr Hst HP] HN Hrep Hps Hq. split; [lia|]. exists N, t. split_and!; [|done|done].
  assert (∀ p, p ∈ ps ↔ ∃ id, sp_pages s !! id = Some p) as Hin.
  { intros p. rewrite Hps, list_elem_of_fmap. setoid_rewrite <- elem_of_btree_map_iter. split.
    - intros ([id q] & -> & Hq'). by exists id.
    - intros [id Hid]. by exists (id, p). }
  assert (Forall page_valid ps) as Hval.
  { apply Forall_forall. intros p [id Hp]%Hin. by apply (Hst id p Hp). }
  assert (NoDup (page_id <$> ps)) as Hnd.
  { rewrite Hps, <- list_fmap_compose.
    rewrite (list_fmap_ext _ fst);
      [unfold btree_map_iter; rewrite (fmap_Permutation fst _ _ (merge_sort_Permutation _ _)); apply NoDup_fst_map_to_list|]. intros i [id p] Hi%list_elem_of_lookup_2%elem_of_btree_map_iter.
    by destruct (Hst id p Hi) as (_ & ? & _). }
  pose proof (stamps_ids _ _ Hq Hval) as Hids.
  intros i n Hn. destruct (HN i n Hn) as (Hi & ? & ? & ? & p & Hp & Hd). unfold allocated in Hi. split_and!; [lia|lia|done..|].
  destruct (HP i p Hp) as [Hs|(Hs & _ & Hdisk)].
  - destruct (Hst i p Hs) as (Hv & Hid & _). assert (p ∈ ps) as [j Hj]%list_elem_of_lookup by (apply Hin; by exists i).
    destruct (Forall2_lookup_l _ _ _ _ _ Hq Hj) as (q & Hqj & l & e & ->). exists (stamp p l e).
    rewrite decode_stamped by done. split; [|done]. destruct Hv as [Ho Hsh _].
    split_and!; [|by apply stamp_valid|by rewrite stamp_id].
    rewrite <- Hid, <- (stamp_id p l e) by done. apply overlay_image; [by rewrite Hids|]. by eapply list_elem_of_lookup_2.
  - exists p. split; [|done]. destruct Hdisk as [Hm ?]. split; [|done]. rewrite overlay_other; [done|].
    rewrite Hids. intros (q & Hqi & [id Hqs]%Hin)%list_elem_of_fmap. destruct (Hst id q Hqs) as (_ & ? & _). congruence.
Qed.
End Stores.

Lemma disk_tree_staged {S} `{!WalIo S} `{!Disk S} {laws : StorageLaws S} (s : S) n0 root mp :
  disk_tree (v_pages (view s)) n0 root mp →
  tree_map (Hreads := staged_reads (view s) n0 (Hbase := 2)) (StagedPageStore.new s n0) root mp.
Proof.
  intros (Hnx & N & t & HN & Hrep & Hc). destruct (pages_of_holds _ _ _ HN) as [Hh Hd].
  exists (pages_of (v_pages (view s)) N), N, n0, t. split_and!; [|done..]. split; cbn; try done; [unfold page_base; lia|].
  intros id p Hp. right. split; [apply lookup_empty|]. by apply Hd.
Qed.
