(* ===== verification/DbDurable.v ===== *)
(** * The state of the database survives crashes

    [FilePersistence] on any devices that keep the storage contract: what
    [persist_state] and [install_state] leave in the files, wherever they are
    interrupted, opens as the state before or the state after, and as the state
    after when they returned. *)

From S2P Require Import Prelude StorageBytes StoragePage StorageIo StorageWal StorageScan StorageGroups StoragePager StorageLaws StorageReplay StorageRecovery StorageApply StorageInstall StorageProps BtreeNode BtreeOps BtreeTree BtreeStore BtreeSteps BtreeSearch BtreeInsert BtreeDelete BtreeProps CoreTypes CoreCodec EngineExpr EngineCatalog EngineTxn EngineState EngineChains EngineInv EngineCommit EngineSteps EngineRecords SqlAst DbExecutor DbDatabase DbRecords DbFiles DbState DbPages.

(** ** Operations that return *)

Definition fwp {S A} (m : fio S A) (s : S) (Q : A → S → Prop) (E : DatabaseError → S → Prop) : Prop :=
  ∃ r s', m s = Some (r, s') ∧ match r with Ok a => Q a s' | Err e => E e s' end.

Lemma fwp_ret {S A} (a : A) (s : S) (Q : A → S → Prop) E : Q a s → fwp (mret a) s Q E.
Proof. intros HQ. by eexists _, _. Qed.

Lemma fwp_bind {S A B} (m : fio S A) (f : A → fio S B) s Q E :
  fwp m s (λ a s', fwp (f a) s' Q E) E → fwp (m ≫= f) s Q E.
Proof.
  intros (r & s' & Hm & Hr). unfold fwp, mbind, fio_bind. rewrite Hm. destruct r as [a|e]; [done|]. by eexists _, _.
Qed.

Lemma fwp_lift {S A} (r : dbresult A) (s : S) (Q : A → S → Prop) (E : DatabaseError → S → Prop) :
  (∀ a, r = Ok a → Q a s) → (∀ e, r = Err e → E e s) → fwp (f_lift r) s Q E.
Proof. intros HQ HE. exists r, s. split; [done|]. destruct r; auto. Qed.

Lemma fwp_lift_Ok {S A} (a : A) (s : S) (Q : A → S → Prop) E : Q a s → fwp (f_lift (Ok a)) s Q E.
Proof. intros HQ. by eexists _, _. Qed.

Lemma fwp_tree {S A} (m : proc S A) s r s' (Q : A → S → Prop) (E : DatabaseError → S → Prop) :
  m s = Some (r, s') → match r with Ok a => Q a s' | Err e => E (DbStorage e) s' end → fwp (f_tree m) s Q E.
Proof. intros Hm Hr. unfold fwp, f_tree. rewrite Hm. eexists _, _. split; [done|]. by destruct r. Qed.

Lemma fwp_mono {S A} (m : fio S A) s (Q Q' : A → S → Prop) (E E' : DatabaseError → S → Prop) :
  fwp m s Q E → (∀ a s', Q a s' → Q' a s') → (∀ e s', E e s' → E' e s') → fwp m s Q' E'.
Proof. intros (r & s' & Hm & Hr) HQ HE. exists r, s'. split; [done|]. destruct r; auto. Qed.

Lemma fwp_known {S A} (m : fio S A) s Q E :
  fwp m s Q E → fwp m s (λ a s', m s = Some (Ok a, s') ∧ Q a s') E.
Proof. intros (r & s' & Hm & Hr). exists r, s'. split; [done|]. by destruct r. Qed.

(** ** Entries collected in a map *)

Lemma collect_map_list l : NoDup l.*1 → collect_map l = list_to_map l.
Proof.
  intros Hnd. unfold collect_map. enough (∀ acc : gmap bytes bytes, foldl (λ m e, <[e.1 := e.2]> m) acc l = list_to_map (reverse l) ∪ acc) as Hf.
  { rewrite Hf, (right_id_L ∅ (∪)). apply list_to_map_proper; [|by rewrite reverse_Permutation].
    by rewrite (fmap_Permutation fst _ _ (reverse_Permutation l)). }
  clear Hnd. induction l as [|[k v] l IH]; intros acc; cbn [foldl]; [symmetry; apply (left_id_L ∅ (∪))|].
  rewrite IH, reverse_cons, list_to_map_app, <- (assoc_L (∪)). f_equal. cbn. by rewrite insert_union_singleton_l.
Qed.

Lemma collect_map_range (es : list entry) (m : gmap bytes bytes) :
  ksorted es → (∀ k v, (k, v) ∈ es ↔ m !! k = Some v ∧ in_range [] None (k, v) = true) → collect_map es = m.
Proof.
  intros Hs%ksorted_keys Hes. rewrite collect_map_list by done. apply map_eq. intros k. apply option_eq. intros v.
  rewrite <- elem_of_list_to_map, Hes by done. split; [by intros [? _]|]. intros Hv. split; [done|].
  unfold in_range. by destruct k.
Qed.

(** ** The staged tree *)

Definition page_ids_exhausted : DatabaseError := DbStorage (SInvariant "page id space exhausted").

Lemma typed_small m : map_Forall entry_typed m → small_entries PHYSICAL_KEY_BYTES m.
Proof.
  intros Hm k v Hv. destruct (Hm k v Hv) as (Hk & _ & _ & Hl). split; [done|]. unfold entry_size. cbn [fst snd]. rewrite Hk.
  change ENTRY_CAP with 1333. change PHYSICAL_KEY_BYTES with 44. unfold CHUNK_BYTES in Hl. lia.
Qed.

Section Staged.
Context {S : Type} `{!WalIo S} `{!Disk S} {laws : StorageLaws S}.
Context (limit : nat) (Hlimit : u64_max ≤ Z.of_nat limit).
Context (v0 : View) (n0 : Z) {Hbase : PageBase}.
#[local] Existing Instance staged_reads.
#[local] Existing Instance staged_laws.
Local Abbreviation holds_tree := (tree_map (Hreads := staged_reads v0 n0)).

(** A refusal leaves the devices alone. *)
Definition refused (e : DatabaseError) (s : StagedPageState S) : Prop :=
  view (sp_disk s) = v0 ∧ e = page_ids_exhausted.

Lemma fwp_remove s root m key :
  holds_tree s root m → map_Forall entry_typed m → is_Some (m !! key) →
  fwp (remove_key limit root key) s (λ _ s', holds_tree s' root (delete key m)) refused.
Proof.
  intros Hs Hm [v Hv]. unfold remove_key. apply fwp_bind.
  destruct (delete_run (Hlaws := staged_laws v0 n0) limit Hlimit False False s root m key Hs) as (r & s' & Ho & Hr).
  { right. by eapply small_no_longer, typed_small. }
  eapply fwp_tree; [exact Ho|]. destruct r as [old|e]; [|by destruct Hr as [[[[] _]|[[] _]] _]].
  destruct Hr as [-> Hs']. rewrite Hv. by apply fwp_lift_Ok.
Qed.

Lemma fwp_put s root m k v :
  holds_tree s root m → map_Forall entry_typed m → entry_typed k v →
  fwp (put_entry limit root (k, v)) s (λ _ s', holds_tree s' root (<[k := v]> m)) refused.
Proof.
  intros Hs Hm Hkv. unfold put_entry. apply fwp_bind. cbn [fst snd].
  assert (small_entries PHYSICAL_KEY_BYTES {[k := v]}) as Hsm.
  { apply typed_small. intros k' v' [<- <-]%lookup_singleton_Some. done. }
  destruct (Hsm k v) as [_ Hsz]; [apply lookup_singleton_eq|]. destruct Hkv as (Hk & Hkb & Hvb & Hl).
  destruct (insert_run (Hlaws := staged_laws v0 n0) limit Hlimit True False PHYSICAL_KEY_BYTES s root m k v I Hs) as (r & s' & Ho & Hr).
  { by apply (small_insertable PHYSICAL_KEY_BYTES). }
  { right. split; [by apply typed_small|done]. }
  eapply fwp_tree; [exact Ho|]. destruct r as [old|e]; [by apply fwp_ret, Hr|].
  destruct Hr as [[[_ ->]|[[] _]] (P & nx & [Hv _ _ _ _ _])]. done.
Qed.

Lemma fwp_removes keys s root m :
  holds_tree s root m → map_Forall entry_typed m → NoDup keys → (∀ k, k ∈ keys → is_Some (m !! k)) →
  fwp (f_each (remove_key limit root) keys) s
    (λ _ s', ∃ m', holds_tree s' root m' ∧ map_Forall entry_typed m'
       ∧ ∀ k, m' !! k = if bool_decide (k ∈ keys) then None else m !! k) refused.
Proof.
  revert s m. induction keys as [|key keys IH]; intros s m Hs Hm Hnd Hin; cbn [f_each].
  { apply fwp_ret. exists m. split_and!; [done|done|]. intros k. rewrite bool_decide_eq_false_2; [done|]. apply not_elem_of_nil. }
  apply NoDup_cons in Hnd as [Hn Hnd]. apply fwp_bind. eapply fwp_mono; [apply fwp_remove; [done|done|]|..|done].
  { apply Hin. left. }
  intros [] s1 Hs1. eapply fwp_mono; [apply IH; [done| |done|]|..|done].
  - by apply map_Forall_delete.
  - intros k Hk. rewrite lookup_delete_ne; [apply Hin; by right|]. intros E. by rewrite E in Hn.
  - intros [] s2 (m' & Hs2 & Hm' & Hl). exists m'. split_and!; [done|done|]. intros k. rewrite Hl.
    destruct (decide (k = key)) as [->|Hne].
    + rewrite lookup_delete_eq. rewrite (bool_decide_eq_true_2 (key ∈ key :: keys)) by left. by destruct (bool_decide _).
    + rewrite lookup_delete_ne by done. by rewrite (bool_decide_ext (k ∈ key :: keys) (k ∈ keys)) by set_solver.
Qed.

Lemma fwp_puts es s root m :
  holds_tree s root m → map_Forall entry_typed m → Forall (λ e, entry_typed e.1 e.2) es → NoDup es.*1 →
  fwp (f_each (put_entry limit root) es) s
    (λ _ s', ∃ m', holds_tree s' root m' ∧ map_Forall entry_typed m' ∧ m' = list_to_map es ∪ m) refused.
Proof.
  revert s m. induction es as [|[k v] es IH]; intros s m Hs Hm Hf Hnd; cbn [f_each].
  { apply fwp_ret. exists m. split_and!; [done|done|]. symmetry. apply (left_id_L ∅ (∪)). }
  apply Forall_cons in Hf as [Hkv Hf]. rewrite fmap_cons in Hnd. apply NoDup_cons in Hnd as [Hn Hnd]. cbn [fst snd] in *.
  apply fwp_bind. eapply fwp_mono; [by apply fwp_put|..|done]. intros [] s1 Hs1.
  eapply fwp_mono; [apply IH; [done|by apply map_Forall_insert_2|done|done]|..|done].
  intros [] s2 (m' & Hs2 & Hm' & ->). eexists. split_and!; [done|done|].
  change (list_to_map ((k, v) :: es)) with (<[k := v]> (list_to_map es : gmap bytes bytes)).
  rewrite <- insert_union_l. symmetry. apply insert_union_r. by apply not_elem_of_list_to_map_1.
Qed.

Lemma fwp_range s root m E :
  holds_tree s root m →
  fwp (f_tree (btree_range limit root [] None)) s (λ es s', holds_tree s' root m ∧ collect_map es = m) E.
Proof.
  intros Hs. destruct (range_run limit Hlimit s root m [] None Hs) as (es & s' & Ho & Hs' & Hso & Hes).
  eapply fwp_tree; [exact Ho|]. split; [done|]. by apply collect_map_range.
Qed.

(** What a staged tree with the entries [m] hands to the pager. *)
Record staged_out (root : Z) (m : gmap bytes bytes) (pages : list Page) (next : Z) : Prop := {
  so_valid : Forall page_valid pages;
  so_ids : Forall (λ p, allocated next (page_id p)) pages;
  so_nodup : NoDup (page_id <$> pages);
  so_next : 2 ≤ page_base ≤ n0 ∧ n0 ≤ next ≤ u64_max;
  so_root : allocated next root;
  so_home : root ∈ page_id <$> pages ∨ root < n0;
  so_tree ps qs : ps ≡ₚ pages → stamps ps qs → disk_tree (overlay qs (v_pages v0)) next root m
}.

Lemma rep_root_page P N nx root t : holds P N nx → rep N root t → allocated nx root ∧ ∃ p, P !! root = Some p.
Proof.
  intros HN Hrep. destruct (rep_owns _ _ _ Hrep) as [_ Hf]. pose proof (rep_root _ _ _ Hrep) as <-.
  assert (∃ b, has_body N (tid t) b) as (b & n & Hn & _).
  { destruct t; cbn in Hf; apply Forall_cons in Hf as [Hf _]; by eexists. }
  destruct (HN _ _ Hn) as (? & _ & _ & _ & p & Hp & _). split; [done|by exists p].
Qed.

Lemma fwp_finish s root m E :
  holds_tree s root m →
  fwp StagedPageStore.finish s
    (λ r s', view (sp_disk s') = v0 ∧ staged_out root m r.1 r.2 ∧ r = ((btree_map_iter (sp_pages s)).*2, sp_next_page_id s)) E.
Proof.
  intros (P & N & nx & t & Hs & HN & Hrep & <-). pose proof Hs as [Hv Ho Hn Hr Hst HP].
  assert (∀ p, p ∈ (btree_map_iter (sp_pages s)).*2 → page_valid p ∧ allocated nx (page_id p)) as Hpages.
  { intros p ([id q] & -> & Hq%elem_of_btree_map_iter)%list_elem_of_fmap. destruct (Hst id q Hq) as (? & Hid & ?). cbn [snd]. by rewrite Hid. }
  exists (Ok ((btree_map_iter (sp_pages s)).*2, nx)). eexists. unfold StagedPageStore.finish. rewrite Ho, Hn.
  split; [done|]. split_and!; [done|split|done]; cbn [fst snd].
  - apply Forall_forall. intros p Hp. by apply Hpages.
  - apply Forall_forall. intros p Hp. by apply Hpages.
  - rewrite <- list_fmap_compose. rewrite (list_fmap_ext _ fst);
      [unfold btree_map_iter; rewrite (fmap_Permutation fst _ _ (merge_sort_Permutation _ _)); apply NoDup_fst_map_to_list|].
    intros i [id p] Hi%list_elem_of_lookup_2%elem_of_btree_map_iter. by destruct (Hst id p Hi) as (_ & ? & _).
  - done.
  - by apply (rep_root_page _ _ _ _ _ HN Hrep).
  - destruct (rep_root_page _ _ _ _ _ HN Hrep) as (_ & p & Hp). destruct (HP _ _ Hp) as [Hs'|(_ & ? & _)]; [left|by right].
    apply list_elem_of_fmap. exists p. destruct (Hst _ _ Hs') as (_ & ? & _). split; [done|].
    apply list_elem_of_fmap. exists (root, p). split; [done|]. by apply elem_of_btree_map_iter.
  - intros ps qs Hps Hq. by eapply staged_tree_disk.
Qed.

Lemma fwp_validate s root m E :
  holds_tree s root m →
  fwp (f_tree (btree_validate limit root)) s (λ report s', holds_tree s' root m ∧ v_entries report = size m) E.
Proof.
  intros Hs. destruct (validate_run limit Hlimit s root m Hs) as (report & s' & Ho & Hs' & Hsz & _).
  eapply fwp_tree; [exact Ho|]. done.
Qed.

Lemma fwp_create s nx P :
  staged_has v0 n0 s P nx →
  fwp (f_tree btree_create) s (λ root s', root = nx ∧ holds_tree s' root ∅) refused.
Proof.
  intros Hs. destruct (btree_create_empty (Hlaws := staged_laws v0 n0) s P nx Hs) as (r & s' & Ho & Hr).
  eapply fwp_tree; [exact Ho|]. destruct r as [root|e]; [done|]. destruct Hr as [-> (P' & nx' & [Hv _ _ _ _ _])]. done.
Qed.

Lemma fwp_open s root m E :
  holds_tree s root m → fwp (f_tree (btree_open limit root)) s (λ r s', r = root ∧ holds_tree s' root m) E.
Proof.
  intros Hs. destruct (open_run limit Hlimit s root m Hs) as (s' & Ho & Hs'). eapply fwp_tree; [exact Ho|]. done.
Qed.
End Staged.

(** ** Replacing the entries of a tree *)

(** Removing what is not wanted and putting what differs. *)
Lemma replaced_map (old expected m1 : gmap bytes bytes) :
  let keys := List.filter (λ key, bool_decide (expected !! key = None)) (btree_map_iter old).*1 in
  let es := List.filter (λ e, negb (bool_decide (old !! e.1 = Some e.2))) (btree_map_iter expected) in
  (∀ k, m1 !! k = if bool_decide (k ∈ keys) then None else old !! k) → NoDup es.*1 → list_to_map es ∪ m1 = expected.
Proof.
  intros keys es Hm1 Hnd.
  assert (∀ k, k ∈ keys ↔ is_Some (old !! k) ∧ expected !! k = None) as Hkeys.
  { intros k. unfold keys. rewrite list_elem_of_In, filter_In, <- list_elem_of_In, list_elem_of_fmap, bool_decide_eq_true.
    split; intros [Ho He]; (split; [|done]).
    - destruct Ho as ([k' v] & -> & Hv%elem_of_btree_map_iter). by exists v.
    - destruct Ho as [v Hv]. exists (k, v). by rewrite elem_of_btree_map_iter. }
  assert (∀ k v, (k, v) ∈ es ↔ expected !! k = Some v ∧ old !! k ≠ Some v) as Hes.
  { intros k v. unfold es. rewrite list_elem_of_In, filter_In, <- list_elem_of_In, elem_of_btree_map_iter. cbn [fst snd].
    by rewrite negb_true_iff, bool_decide_eq_false. }
  apply map_eq. intros k. destruct (expected !! k) as [v|] eqn:He.
  - destruct (decide (old !! k = Some v)) as [Ho|Ho].
    + rewrite lookup_union_r; [|apply not_elem_of_list_to_map_1; intros ([k' v'] & -> & [? ?]%Hes)%list_elem_of_fmap; cbn in *; congruence].
      rewrite Hm1, bool_decide_eq_false_2; [done|]. intros [_ ?]%Hkeys. congruence.
    + apply lookup_union_Some_l, elem_of_list_to_map; [done|]. by apply Hes.
  - rewrite lookup_union_r; [|apply not_elem_of_list_to_map_1; intros ([k' v'] & -> & [? ?]%Hes)%list_elem_of_fmap; cbn in *; congruence].
    rewrite Hm1. destruct (old !! k) eqn:Ho; [|by destruct (bool_decide _)]. rewrite bool_decide_eq_true_2; [done|].
    apply Hkeys. by split; [eexists|].
Qed.

Lemma filter_keys_NoDup {V} (f : bytes * V → bool) (l : list (bytes * V)) : NoDup l.*1 → NoDup (List.filter f l).*1.
Proof.
  induction l as [|e l IH]; cbn; [done|]. intros [Hn Hnd]%NoDup_cons. destruct (f e); [|by apply IH].
  rewrite fmap_cons. apply NoDup_cons. split; [|by apply IH].
  intros (x & Hx & Hin)%list_elem_of_fmap. apply Hn. rewrite Hx. apply list_elem_of_fmap_2.
  apply list_elem_of_In, filter_In in Hin as [Hin _]. by apply list_elem_of_In.
Qed.

Lemma filter_sub_NoDup {A} (f : A → bool) (l : list A) : NoDup l → NoDup (List.filter f l).
Proof.
  induction l as [|a l IH]; cbn; [done|]. intros [Hn Hnd]%NoDup_cons. destruct (f a); [|by apply IH].
  apply NoDup_cons. split; [|by apply IH]. intros [Hin _]%list_elem_of_In%filter_In. by apply Hn, list_elem_of_In.
Qed.

Lemma iter_keys_NoDup (m : gmap bytes bytes) : NoDup (btree_map_iter m).*1.
Proof.
  unfold btree_map_iter. rewrite (fmap_Permutation fst _ _ (merge_sort_Permutation _ _)). apply NoDup_fst_map_to_list.
Qed.

Section Trees.
Context {S : Type} `{!WalIo S} `{!Disk S} {laws : StorageLaws S} `{Sha256}.
Context (limit : nat) (Hlimit : u64_max ≤ Z.of_nat limit).

(** The pages of a disk hold one map at a root. *)
Lemma disk_tree_unique (s : S) nx nx' root m m' :
  disk_tree (v_pages (view s)) nx root m → disk_tree (v_pages (view s)) nx' root m' → m = m'.
Proof.
  intros Hm Hm'. apply (disk_tree_reads (view s) s nx 0) in Hm; [|done]. apply (disk_tree_reads (view s) s nx' 0) in Hm'; [|done].
  destruct (range_run (Hreads := disk_reads (view s)) limit Hlimit _ _ _ [] None Hm) as (es & s1 & Ho & _ & Hs & Hes).
  destruct (range_run (Hreads := disk_reads (view s)) limit Hlimit _ _ _ [] None Hm') as (es' & s1' & Ho' & _ & Hs' & Hes').
  rewrite Ho in Ho'. injection Ho' as <- <-. rewrite <- (collect_map_range es m), <- (collect_map_range es m'); done.
Qed.

(** The entries a superblock's root stands for. *)
Definition current_tree (pages : gmap Z bytes) (nx : Z) (root : option Z) (m : gmap bytes bytes) : Prop :=
  match root with Some root => disk_tree pages nx root m | None => m = ∅ end.

Lemma fwp_opened (s : S) n0 root_dir old :
  2 ≤ n0 ≤ u64_max → current_tree (v_pages (view s)) n0 root_dir old →
  fwp (match root_dir with
       | Some root => f_tree (btree_open limit root)
       | None => f_tree btree_create
       end) (StagedPageStore.new s n0)
    (λ root s', tree_map (Hreads := staged_reads (view s) n0 (Hbase := 2)) s' root old ∧ default n0 root_dir = root)
    (refused (view s)).
Proof.
  intros Hn Hcur. destruct root_dir as [root|]; cbn [current_tree default] in *.
  - eapply fwp_mono; [apply (fwp_open limit Hlimit (view s) n0 (Hbase := 2))|..|done]; [by apply disk_tree_staged|].
    intros r s' [-> Hs']. done.
  - subst old. eapply fwp_mono; [eapply (fwp_create (view s) n0 (Hbase := 2)), new_staged; unfold page_base; done || lia|..|done].
    intros r s' [-> Hs']. done.
Qed.

Definition tree_result : Type := ValidationReport * Z * list Page * Z.

Lemma fwp_replace_tree (s : S) n0 root_dir old expected :
  2 ≤ n0 ≤ u64_max → current_tree (v_pages (view s)) n0 root_dir old → validate_physical_map old = Ok tt →
  map_Forall entry_typed old → map_Forall entry_typed expected →
  fwp (replace_tree limit root_dir expected) (StagedPageStore.new s n0)
    (λ (r : tree_result) s', let '(validation, root, pages, next) := r in
       view (sp_disk s') = view s ∧ staged_out (view s) n0 (Hbase := 2) root expected pages next
       ∧ v_entries validation = size expected ∧ (root_dir = None ∨ old ≠ expected → pages ≠ []))
    (refused (view s)).
Proof.
  intros Hn Hcur Hval Hold Hexp. unfold replace_tree.
  apply fwp_bind. eapply fwp_mono; [by apply fwp_opened|..|done]. intros root s1 [Hs1 Hroot].
  apply fwp_bind. eapply fwp_mono; [apply (fwp_range limit Hlimit (view s) n0 (Hbase := 2)); exact Hs1|..|done].
  intros es s2 [Hs2 Hes]. rewrite Hes. apply fwp_bind. rewrite Hval. apply fwp_lift_Ok. clear es Hes.
  apply fwp_bind. eapply fwp_mono; [apply (fwp_removes limit Hlimit (view s) n0 (Hbase := 2)); [exact Hs2|done|..]|..|done].
  { apply filter_sub_NoDup, iter_keys_NoDup. }
  { intros k [Hk _]%list_elem_of_In%filter_In. apply list_elem_of_In, list_elem_of_fmap in Hk as ([k' v] & -> & Hv%elem_of_btree_map_iter).
    by exists v. }
  intros [] s3 (m1 & Hs3 & Hm1 & Hl). apply fwp_bind.
  assert (NoDup (List.filter (λ e, negb (bool_decide (old !! e.1 = Some e.2))) (btree_map_iter expected)).*1) as Hnd
    by apply filter_keys_NoDup, iter_keys_NoDup.
  eapply fwp_mono; [apply (fwp_puts limit Hlimit (view s) n0 (Hbase := 2)); [exact Hs3|done| |exact Hnd]|..|done].
  { apply Forall_forall. intros [k v] [Hk _]%list_elem_of_In%filter_In. apply list_elem_of_In, elem_of_btree_map_iter in Hk.
    by apply Hexp. }
  intros [] s4 (m2 & Hs4 & _ & ->). rewrite (replaced_map old expected m1 Hl Hnd) in Hs4.
  apply fwp_bind. eapply fwp_mono; [apply (fwp_validate limit Hlimit (view s) n0 (Hbase := 2)); exact Hs4|..|done].
  intros validation s5 [Hs5 Hsz]. apply fwp_bind. rewrite (proj2 (Nat.eqb_eq _ _) Hsz). apply fwp_lift_Ok.
  apply fwp_bind. eapply fwp_mono; [apply (fwp_finish (view s) n0 (Hbase := 2)); exact Hs5|..|done].
  intros [pages next] s6 (Hv & Hout & _). apply fwp_ret. split_and!; [done|done|done|]. intros Hwhy ->.
  pose proof (so_tree _ _ _ _ _ _ Hout [] [] (Permutation_refl _) ltac:(constructor)) as Hdisk.
  destruct Hwhy as [->|Hne].
  - cbn [default] in Hroot. subst root. destruct (so_home _ _ _ _ _ _ Hout) as [?%elem_of_nil|?]; [done|lia].
  - destruct root_dir as [r|]; cbn [default current_tree] in *; subst.
    + apply Hne. by eapply disk_tree_unique.
    + destruct (so_home _ _ _ _ _ _ Hout) as [?%elem_of_nil|?]; [done|lia].
Qed.

Lemma fwp_build_tree (s : S) n0 expected :
  2 ≤ n0 ≤ u64_max → map_Forall entry_typed expected →
  fwp (build_tree limit expected) (StagedPageStore.new s n0)
    (λ (r : tree_result) s', let '(validation, root, pages, next) := r in
       view (sp_disk s') = view s ∧ staged_out (view s) n0 (Hbase := n0) root expected pages next
       ∧ v_entries validation = size expected ∧ root ∈ page_id <$> pages)
    (refused (view s)).
Proof.
  intros Hn Hexp. unfold build_tree. apply fwp_bind.
  eapply fwp_mono; [eapply (fwp_create (view s) n0 (Hbase := n0)), new_staged; unfold page_base; done || lia|..|done].
  intros root s1 [-> Hs1]. apply fwp_bind.
  eapply fwp_mono; [apply (fwp_puts limit Hlimit (view s) n0 (Hbase := n0)); [exact Hs1|done| |apply iter_keys_NoDup]|..|done].
  { apply Forall_forall. intros [k v] Hk%elem_of_btree_map_iter. by apply Hexp. }
  intros [] s4 (m2 & Hs4 & _ & ->).
  assert (list_to_map (btree_map_iter expected) ∪ ∅ = expected) as Hmap.
  { rewrite (right_id_L ∅ (∪)). rewrite <- (list_to_map_to_list expected) at 2.
    apply list_to_map_proper; [apply iter_keys_NoDup|apply merge_sort_Permutation]. }
  rewrite Hmap in Hs4.
  apply fwp_bind. eapply fwp_mono; [apply (fwp_validate limit Hlimit (view s) n0 (Hbase := n0)); exact Hs4|..|done].
  intros validation s5 [Hs5 Hsz]. apply fwp_bind. rewrite (proj2 (Nat.eqb_eq _ _) Hsz). apply fwp_lift_Ok.
  apply fwp_bind. eapply fwp_mono; [apply (fwp_finish (view s) n0 (Hbase := n0)); exact Hs5|..|done].
  intros [pages next] s6 (Hv & Hout & _). apply fwp_ret. split_and!; [done|done|done|].
  destruct (so_home _ _ _ _ _ _ Hout); [done|lia].
Qed.
End Trees.

(** ** The state in the files *)

Section States.
Context `{Sha256} {Hsha : Sha256Ok}.
Context `{SerdeJson DurableRequestRecord}.
Context `{SerdeJson SnapshotMeta, SerdeJson Catalog, SerdeJson PrimarySnapshotEntry, SerdeJson SecondarySnapshotEntry, SerdeJson ClientSnapshotEntry}.
Context {Jr : SerdeJsonOk DurableRequestRecord}.
Context {Jm : SerdeJsonOk SnapshotMeta} {Jc : SerdeJsonOk Catalog} {Jp : SerdeJsonOk PrimarySnapshotEntry}.
Context {Js : SerdeJsonOk SecondarySnapshotEntry} {Jl : SerdeJsonOk ClientSnapshotEntry}.

(** The entries of a state. *)
Record stored (e : Engine) (requests : DurableRequests) (m : gmap bytes bytes) : Prop := {
  sd_wf : engine_wf e;
  sd_typed : state_typed e requests;
  sd_records : ∃ rs, state_records e requests = Ok rs ∧ encode_records rs = Ok m
}.

(** The database [a] holds the state: nothing at first, then a tree of its
    entries, with the index and the hash of the engine. *)
Inductive db_state (a : Db) : Engine → DurableRequests → Prop :=
| db_genesis : d_index a = 0 → d_root a = None → db_state a Engine_default ∅
| db_stored e requests root m :
    0 < d_index a → d_root a = Some root → d_index a = last_applied e → last_apply_hash e = Some (d_hash a) →
    stored e requests m → disk_tree (d_pages a) (d_next a) root m → db_state a e requests.

Lemma db_state_equiv a b e requests : db_equiv a b → db_state a e requests → db_state b e requests.
Proof.
  intros [E1 E2 E3 E4 E5] [Hi Hr|e' rq' root m Hi Hr Hl Hh Hs Ht]; [left; congruence|].
  apply (db_stored b e' rq' root m); [lia|congruence|lia|congruence|done|]. rewrite <- E3. by apply (disk_tree_ext (d_pages a)).
Qed.

Lemma stored_typed e requests m : stored e requests m → map_Forall entry_typed m.
Proof. intros [_ Hty (rs & Hrs & Hm)]. eapply encode_records_typed; [|done]. by eapply state_records_typed. Qed.

Lemma stored_decodes e requests m : stored e requests m → decode_state m = Ok (e, requests).
Proof. intros [Hwf Hty (rs & Hrs & Hm)]. by eapply decode_stored_state. Qed.

Lemma stored_valid e requests m : stored e requests m → validate_physical_map m = Ok tt.
Proof.
  intros Hs%stored_decodes. unfold decode_state in Hs. apply result_bind_Ok in Hs as (rs & Hs & _).
  unfold decode_records in Hs. by apply result_bind_Ok in Hs as ([] & Hs & _).
Qed.

(** Two states with the same entries are the same. *)
Lemma stored_inj e requests e' requests' m : stored e requests m → stored e' requests' m → e = e' ∧ requests = requests'.
Proof. intros Hs%stored_decodes Hs'%stored_decodes. rewrite Hs in Hs'. by injection Hs'. Qed.

Section Files.
Context {S : Type} `{!WalIo S} `{!Disk S} {laws : StorageLaws S}.
Context (limit : nat) (Hlimit : u64_max ≤ Z.of_nat limit).

(** The files are at rest and hold the state. *)
Definition files_hold (self : FilePersistence S) (e : Engine) (requests : DurableRequests) : Prop :=
  ∃ a, quiescent (view (fp_devices self)) (fp_superblock self) a ∧ db_state a e requests.

Lemma fwp_read_tree (self : FilePersistence S) nx root m E :
  disk_tree (v_pages (view (fp_devices self))) nx root m →
  fwp (read_tree limit root) self
    (λ r self', r = m ∧ view (fp_devices self') = view (fp_devices self) ∧ fp_superblock self' = fp_superblock self) E.
Proof.
  intros Hm. unfold read_tree. apply fwp_bind. unfold fwp at 1, on_devices, DiskPageStore.open, mbind at 1, io_bind at 1.
  destruct (page_count (fp_devices self)) as [r d] eqn:Hc. apply page_count_law in Hc as [Hv [n ->]]. cbn.
  eexists _, _. split; [done|]. cbn. set (self1 := mkFiles d _ _).
  assert (tree_map (Hreads := disk_reads (view d)) (mkDiskPages d (Z.max n 2)) root m) as Ht
    by (apply (disk_tree_reads _ d nx); [done|]; by rewrite Hv).
  destruct (open_run (Hreads := disk_reads (view d)) limit Hlimit _ _ _ Ht) as (s1 & Ho1 & Ht1).
  destruct (range_run (Hreads := disk_reads (view d)) limit Hlimit _ _ _ [] None Ht1) as (es & s2 & Ho2 & Ht2 & Hs & Hes).
  unfold fwp, on_disk_store, scan_tree, mbind, fio_bind, f_tree. cbn [fp_devices self1]. rewrite Ho1. cbn [map_err].
  rewrite Ho2. cbn [map_err]. eexists _, _. split; [done|]. cbn. split_and!; [by apply collect_map_range| |done].
  destruct Ht2 as (P & N & nx' & t & (Hv2 & _) & _). by rewrite Hv2.
Qed.

Lemma fwp_load_state (self : FilePersistence S) a e requests E :
  quiescent (view (fp_devices self)) (fp_superblock self) a → db_state a e requests →
  fwp (load_state limit) self
    (λ r self', r = (e, requests) ∧ view (fp_devices self') = view (fp_devices self) ∧ fp_superblock self' = fp_superblock self) E.
Proof.
  intros (_ & -> & _) Hst. unfold load_state. apply fwp_bind. eexists _, _. split; [done|]. cbn beta iota.
  destruct Hst as [Hi Hr|e rq root m Hi Hr Hl Hh Hs Ht]; cbn [db_of d_index d_root d_hash d_next d_pages] in *.
  - rewrite Hi, Hr, Z.eqb_refl, bool_decide_eq_true_2 by done. by apply fwp_ret.
  - rewrite (proj2 (Z.eqb_neq _ _)) by lia. cbn [andb]. rewrite Hr. apply fwp_bind.
    eapply fwp_mono; [by eapply fwp_read_tree|..|done]. intros r self1 (-> & Hv & Hsb). apply fwp_bind.
    rewrite (stored_decodes _ _ _ Hs). apply fwp_lift_Ok. apply fwp_bind. rewrite Hl, Z.eqb_refl. apply fwp_lift_Ok.
    apply fwp_bind. rewrite Hh, bool_decide_eq_true_2 by done. apply fwp_lift_Ok. by apply fwp_ret.
Qed.

(** What opening the files that may be found gives: the state, in files that
    hold it; or one of the devices failed, and what is found after that still has the state. *)
Definition reopens (t : S) (e : Engine) (requests : DurableRequests) : Prop :=
  ∃ r t', files_open limit t = Some (r, t') ∧
    match r with
    | Ok (self, e', requests') => e' = e ∧ requests' = requests ∧ files_hold self e requests
    | Err _ => may_fail ∧ ∀ v, crashed (view t') v → ∃ b, db_state b e requests ∧ recoverable (v_log v) (v_pages v) b
    end.

Lemma reopen_arrives t b e requests : db_state b e requests → open_arrives b t → reopens t e requests.
Proof.
  intros Hb Ho. unfold reopens, files_open, f_io, open_arrives in *.
  destruct (pager_open t) as [[[sb rep]|err] t1]; cbn [map_err].
  - destruct Ho as (a & Hq & Ha). apply (db_state_equiv _ _ _ _ Ha) in Hb.
    destruct (fwp_load_state (mkFiles t1 sb rep) a e requests (λ _ _, False) Hq Hb) as (r & self & Hl & Hr). rewrite Hl.
    destruct r as [r|]; [|done]. destruct Hr as (-> & Hv & Hsb). eexists _, _. split; [done|]. split_and!; [done|done|].
    exists a. rewrite Hv, Hsb. done.
  - destruct Ho as [Hf Hrec]. eexists _, _. split; [done|]. split; [done|]. intros v Hv. exists b. split; [done|by apply Hrec].
Qed.

(** ** [persist_state] *)

(** The state [persist_state] is given follows the one in the files and fits
    the limits of its records. *)
Record persistable (sb : Superblock) (e : Engine) (requests : DurableRequests) (m : gmap bytes bytes) : Prop := {
  pb_index : last_applied e = sb_applied_index sb + 1;
  pb_stored : stored e requests m
}.

(** What [persist_state] hands to the pager. *)
Definition staged_group (self : FilePersistence S) (e : Engine) (requests : DurableRequests) : option tree_result :=
  match rs ← state_records e requests; encode_records rs with
  | Ok expected =>
      match replace_tree limit (root_directory (fp_superblock self)) expected
              (StagedPageStore.new (fp_devices self) (next_page_id (fp_superblock self))) with
      | Some (Ok r, _) => Some r
      | _ => None
      end
  | Err _ => None
  end.

(** Every crash finds one of the two states. *)
Definition either_found (v : View) (e0 : Engine) (requests0 : DurableRequests) (e : Engine) (requests : DurableRequests) : Prop :=
  ∀ c m, log_survives v c → pages_survive v m →
    ∃ b, (db_state b e0 requests0 ∨ db_state b e requests) ∧ recoverable c m b.

(** What a stopped call leaves behind. *)
Definition stopped (self self' : FilePersistence S) e0 requests0 e requests : Prop :=
  fp_superblock self' = fp_superblock self ∧ either_found (view (fp_devices self')) e0 requests0 e requests.

Lemma quiescent_found v sb a e requests e' requests' :
  quiescent v sb a → db_state a e requests → either_found v e requests e' requests'.
Proof. intros Hq Ha c m Hc Hm. exists a. split; [by left|]. by apply (quiescent_crash _ _ _ Hq). Qed.

Lemma fwp_on_devices {A} (m : io S A) (self : FilePersistence S) P Q :
  wp m (fp_devices self) P Q →
  fwp (on_devices m) self (λ a self', P a (fp_devices self') ∧ fp_superblock self' = fp_superblock self)
    (λ _ self', Q (view (fp_devices self')) ∧ fp_superblock self' = fp_superblock self).
Proof. unfold wp, fwp, on_devices. destruct (m (fp_devices self)) as [[a|err] s]; cbn; intros Hw; by eexists _, _. Qed.

Lemma fwp_with_staged {A} (m : fio (StagedPageState S) A) (self : FilePersistence S) Q E :
  fwp m (StagedPageStore.new (fp_devices self) (next_page_id (fp_superblock self))) Q E →
  fwp (with_staged m) self
    (λ a self', ∃ s, Q a s ∧ fp_devices self' = sp_disk s ∧ fp_superblock self' = fp_superblock self)
    (λ err self', ∃ s, E err s ∧ fp_devices self' = sp_disk s ∧ fp_superblock self' = fp_superblock self).
Proof.
  intros (r & s & Hm & Hr). unfold fwp, with_staged. rewrite Hm. eexists _, _. split; [done|]. destruct r; by exists s.
Qed.

(** The tree the files have. *)
Lemma current_state sb pages e0 requests0 :
  db_state (db_of sb pages) e0 requests0 →
  ∃ old, current_tree pages (next_page_id sb) (root_directory sb) old ∧ map_Forall entry_typed old
    ∧ validate_physical_map old = Ok tt
    ∧ (root_directory sb = None ∨ last_applied e0 = sb_applied_index sb ∧ stored e0 requests0 old).
Proof.
  intros [Hi Hr|e rq root m Hi Hr Hl Hh Hs Ht]; cbn [db_of d_index d_root d_hash d_next d_pages] in *; rewrite Hr.
  - exists ∅. split_and!; [done|done|done|by left].
  - exists m. split_and!; [done|by eapply stored_typed|by eapply stored_valid|by right].
Qed.

Lemma stored_stamped n idx pages : stamps (sort_pages pages) (stamped n idx (sort_pages pages)).
Proof.
  generalize (sort_pages pages). intros ps. revert n. induction ps as [|p ps IH]; intros n; cbn; constructor; [by eexists _, _|apply IH].
Qed.

Lemma applied_state n e requests m hash root pages next mp :
  0 < last_applied e → last_apply_hash e = Some hash → stored e requests m →
  (∀ ps qs, ps ≡ₚ pages → stamps ps qs → disk_tree (overlay qs mp) next root m) →
  db_state (db_apply (committed n (apply_group (last_applied e) hash pages next (Some root))) mp) e requests.
Proof.
  intros Hi Hh Hs Ht. apply (db_stored _ e requests root m); try done. cbn [db_apply committed d_pages d_next ca_pages ca_next_page_id].
  apply (Ht (sort_pages pages)); [apply sort_pages_perm|apply stored_stamped].
Qed.

Section Persist.
Context (self : FilePersistence S) (e0 : Engine) (requests0 : DurableRequests) (e : Engine) (requests : DurableRequests).
Context (Hgen : generation (fp_superblock self) < u64_max).
Context (Hlog : zlen (v_log (view (fp_devices self))) ≤ 2 ^ 63).
Context (Hwf : engine_wf e) (Hty : state_typed e requests).
Context (Hbound : ∀ report root pages next, staged_group self e requests = Some (report, root, pages, next) → zlen pages ≤ u32_max).
Let sb := fp_superblock self.

(** No checkpoint was taken since the last apply, or no device fails. *)
Definition undisturbed : Prop := checkpoint_lsn (fp_superblock self) = 0 ∨ ¬ may_fail (S := S).

(** How a call that fails ends. *)
Definition persist_stopped (err : DatabaseError) (self' : FilePersistence S) : Prop :=
  fp_superblock self' = fp_superblock self
  ∧ (undisturbed → either_found (view (fp_devices self')) e0 requests0 e requests)
  ∧ ∀ m, persistable sb e requests m → err = page_ids_exhausted ∨ may_fail.

Lemma persist_refused a err : quiescent (view (fp_devices self)) sb a → db_state a e0 requests0 →
  (∀ m, ¬ persistable sb e requests m) → persist_stopped err self.
Proof.
  intros Hq Ha Hno. split_and!; [done|intros _; by eapply quiescent_found|intros m Hm; by destruct (Hno m)].
Qed.

Lemma persist_args hash root m pages next :
  last_applied e = sb_applied_index sb + 1 → last_apply_hash e = Some hash → sb_ok sb →
  staged_out (view (fp_devices self)) (next_page_id sb) (Hbase := 2) root m pages next → zlen pages ≤ u32_max →
  apply_args (zlen (v_log (view (fp_devices self)))) sb (last_applied e) hash pages next (Some root).
Proof.
  intros Hi Hh Hok [Hv Hids Hnd Hnx Hr _ _] Hcount. unfold allocated, page_base in *.
  pose proof (ew_applied _ Hwf). pose proof (sbok_index _ Hok). split; try done.
  - unfold u64_ok in *. lia.
  - by apply (ty_hash _ _ Hty).
  - lia.
  - intros r [= <-]. lia.
  - unfold BEGIN_FRAME, IMAGE_FRAME, COMMIT_FRAME. change u32_max with 4294967295 in Hcount. change u64_max with 18446744073709551615.
    change (2 ^ 63) with 9223372036854775808 in Hlog. lia.
Qed.

Lemma fwp_apply_staged self1 hash root m pages next (report : ValidationReport) :
  view (fp_devices self1) = view (fp_devices self) → fp_superblock self1 = sb →
  quiescent (view (fp_devices self)) sb (db_of sb (v_pages (view (fp_devices self)))) →
  db_state (db_of sb (v_pages (view (fp_devices self)))) e0 requests0 →
  last_applied e = sb_applied_index sb + 1 → last_apply_hash e = Some hash → stored e requests m →
  staged_out (view (fp_devices self)) (next_page_id sb) (Hbase := 2) root m pages next → zlen pages ≤ u32_max →
  fwp ('(_, superblock) ← on_devices (pager_apply sb (last_applied e) hash pages next (Some root));
       _ ← put_superblock superblock; mret report) self1
    (λ report self', files_hold self' e requests ∧ checkpoint_lsn (fp_superblock self') = 0
       ∧ sb_applied_index (fp_superblock self') = last_applied e) persist_stopped.
Proof.
  intros Hv1 Hsb1 Hq Ha Hi Hh Hs Hout Hcount. pose proof Hq as (_ & _ & sc & _ & Hrw).
  pose proof (cur_ok _ _ (rw_current _ _ _ _ _ _ Hrw)) as Hok. pose proof (sbok_index _ Hok) as Hidx.
  pose proof (persist_args hash root m pages next Hi Hh Hok Hout Hcount) as Hargs. rewrite <- Hv1 in Hargs.
  assert (db_state (db_apply (committed (zlen (v_log (view (fp_devices self1)))) (apply_group (last_applied e) hash pages next (Some root)))
    (v_pages (view (fp_devices self)))) e requests) as Hnew.
  { eapply applied_state; [unfold u64_ok in *; lia|done|done|]. apply (so_tree _ _ _ _ _ _ Hout). }
  apply fwp_bind. eapply fwp_mono; [apply fwp_on_devices;
    apply (wp_apply sb (db_of sb (v_pages (view (fp_devices self)))) (last_applied e) hash pages next (Some root) (fp_devices self1)
      (λ r s', quiescent (view s') r.2 (db_of r.2 (v_pages (view s'))) ∧ db_state (db_of r.2 (v_pages (view s'))) e requests
         ∧ checkpoint_lsn r.2 = 0 ∧ sb_applied_index r.2 = last_applied e)
      (λ v, may_fail ∧ (undisturbed → either_found v e0 requests0 e requests)))|..]; try done.
  - by rewrite Hv1.
  - intros s' Hq' Heq. split_and!; [done| |done|done]. eapply db_state_equiv; [exact Heq|]. exact Hnew.
  - intros v [Hf|Hbig] Hrec; [|lia]. split; [done|]. intros [Hck|Hno]; [|done]. intros c m' Hc Hm'.
    destruct (Hrec Hck c m' Hc Hm') as [Hr|Hr].
    + eexists. split; [by left|exact Hr].
    + eexists. split; [right; exact Hnew|exact Hr].
  - intros [g sb'] self2 [(Hq' & Hst & Hck & Hidx') _]. cbn [snd] in *. apply fwp_bind. eexists _, _. split; [done|]. cbn beta iota.
    apply fwp_ret. cbn [fp_devices fp_superblock]. split_and!; [by eexists|done|done].
  - intros err self2 [[Hf Hfound] Hsb2]. split_and!; [by rewrite Hsb2, Hsb1|done|intros; by right].
Qed.

Lemma fwp_persist :
  files_hold self e0 requests0 →
  fwp (persist_state limit e requests) self
    (λ report self', files_hold self' e requests ∧ checkpoint_lsn (fp_superblock self') = 0
       ∧ sb_applied_index (fp_superblock self') = last_applied e) persist_stopped.
Proof.
  intros (a & Hq & Ha). pose proof Hq as (_ & -> & sc & _ & Hrw). pose proof (cur_ok _ _ (rw_current _ _ _ _ _ _ Hrw)) as Hok. fold sb in Hq, Ha, Hok |- *.
  pose proof (sbok_next _ Hok) as Hnx. pose proof (sbok_index _ Hok) as Hidx.
  destruct (current_state _ _ _ _ Ha) as (old & Hcur & Hold & Hval & Hwhy).
  unfold persist_state. apply fwp_bind. eexists _, _. split; [done|]. cbn beta iota. fold sb.
  assert (∀ err, (∀ m, ¬ persistable sb e requests m) → persist_stopped err self) as Hrefuse
    by (intros err Hno; by eapply persist_refused).
  apply fwp_bind, fwp_lift; cycle 1.
  { intros err Hn. apply Hrefuse. intros m [Hi _]. pose proof (ew_applied _ Hwf) as Hle.
    rewrite (proj2 (checked_add_Some _ _ (last_applied e))) in Hn by lia. done. }
  intros expected_index (-> & _)%ok_or_Ok%checked_add_Some. apply fwp_bind, fwp_lift; cycle 1.
  { intros err Hn. apply Hrefuse. intros m [Hi _]. by rewrite Hi, Z.eqb_refl in Hn. }
  intros [] Hi%ensure_Ok%Z.eqb_eq. apply fwp_bind.
  assert (is_Some (last_apply_hash e)) as [hash Hh].
  { pose proof (ew_meta _ Hwf) as Hm. rewrite (proj2 (Z.eqb_neq _ _)) in Hm by (unfold u64_ok in *; lia). apply Hm. }
  rewrite Hh. apply fwp_lift_Ok. apply fwp_bind, fwp_lift; cycle 1.
  { intros err Hn. apply Hrefuse. intros m [_ [_ _ (rs & Hrs & _)]]. by rewrite Hrs in Hn. }
  intros rs Hrs. apply fwp_bind, fwp_lift; cycle 1.
  { intros err Hn. apply Hrefuse. intros m [_ [_ _ (rs' & Hrs' & Hm)]]. rewrite Hrs in Hrs'. apply Ok_inj in Hrs' as <-. by rewrite Hm in Hn. }
  intros expected Hexp. assert (stored e requests expected) as Hs by (split; [done|done|by exists rs]).
  apply fwp_bind.
  eapply fwp_mono; [apply fwp_with_staged, fwp_known; fold sb;
    by apply (fwp_replace_tree limit Hlimit (fp_devices self) (next_page_id sb) (root_directory sb) old expected Hnx Hcur Hval Hold (stored_typed _ _ _ Hs))|..].
  - intros [[[report root] pages] next] self1 (s1 & (Hrun & Hv1 & Hout & _ & Hne) & Hd1 & Hsb1).
    apply fwp_bind. assert (negb (is_empty pages) = true) as ->.
    { assert (pages ≠ []) as Hp; [|by destruct pages]. apply Hne. destruct Hwhy as [?|[Hl0 Hs0]]; [by left|right].
      intros ->. destruct (stored_inj _ _ _ _ _ Hs0 Hs) as [-> _]. lia. }
    apply fwp_lift_Ok. eapply (fwp_apply_staged self1 hash root expected); try done; [congruence|].
    apply (Hbound report root pages next). unfold staged_group. rewrite Hrs, Ok_bind, Hexp. unfold sb in Hrun. by rewrite Hrun.
  - intros err self1 (s1 & [Hv1 ->] & Hd1 & Hsb1). split_and!; [done| |intros; by left].
    intros _. rewrite Hd1, Hv1. by eapply quiescent_found.
Qed.
End Persist.

(** ** [install_state] *)

Lemma installed_stamps idx pages : stamps (sort_pages pages) (installed idx pages).
Proof.
  unfold installed. generalize (sort_pages pages). intros ps. induction ps as [|p ps IH]; cbn; constructor; [by eexists _, _|done].
Qed.

Lemma installed_state e requests m hash root pages next mp :
  0 < last_applied e → last_apply_hash e = Some hash → stored e requests m →
  (∀ ps qs, ps ≡ₚ pages → stamps ps qs → disk_tree (overlay qs mp) next root m) →
  db_state (db_install (last_applied e) hash pages next root mp) e requests.
Proof.
  intros Hi Hh Hs Ht. apply (db_stored _ e requests root m); try done. cbn [db_install d_pages d_next].
  apply (Ht (sort_pages pages)); [apply sort_pages_perm|apply installed_stamps].
Qed.

Section Install.
Context (self : FilePersistence S) (e0 : Engine) (requests0 : DurableRequests) (e : Engine) (requests : DurableRequests).
Context (Hgen : generation (fp_superblock self) < u64_max).
Context (Hwf : engine_wf e) (Hty : state_typed e requests).
Let sb := fp_superblock self.

(** The snapshot is ahead of the files and fits the limits of its records. *)
Record installable (m : gmap bytes bytes) : Prop := {
  ib_index : sb_applied_index sb < last_applied e;
  ib_stored : stored e requests m
}.

Definition install_stopped (err : DatabaseError) (self' : FilePersistence S) : Prop :=
  stopped self self' e0 requests0 e requests ∧ ∀ m, installable m → err = page_ids_exhausted ∨ may_fail.

Lemma fwp_install_staged self1 hash root m pages next (report : ValidationReport) :
  view (fp_devices self1) = view (fp_devices self) → fp_superblock self1 = sb →
  quiescent (view (fp_devices self)) sb (db_of sb (v_pages (view (fp_devices self)))) →
  db_state (db_of sb (v_pages (view (fp_devices self)))) e0 requests0 →
  sb_applied_index sb < last_applied e → last_apply_hash e = Some hash → stored e requests m →
  staged_out (view (fp_devices self)) (next_page_id sb) (Hbase := next_page_id sb) root m pages next → root ∈ page_id <$> pages →
  fwp (superblock ← on_devices (StoragePager.install_snapshot sb (last_applied e) hash pages next root);
       _ ← put_superblock superblock; mret report) self1
    (λ report self', files_hold self' e requests ∧ checkpoint_lsn (fp_superblock self') = 0
       ∧ sb_applied_index (fp_superblock self') = last_applied e) install_stopped.
Proof.
  intros Hv1 Hsb1 Hq Ha Hi Hh Hs Hout Hroot. pose proof Hq as (_ & _ & sc & _ & Hrw).
  pose proof (cur_ok _ _ (rw_current _ _ _ _ _ _ Hrw)) as Hok. pose proof (sbok_index _ Hok) as Hidx.
  assert (install_args sb (last_applied e) hash pages next root) as Hargs.
  { destruct Hout as [Hv Hids Hnd Hnx Hr _ _]. unfold allocated, page_base in *. pose proof (ew_applied _ Hwf).
    split; try done; [unfold u64_ok in *; lia|by apply (ty_hash _ _ Hty)|lia]. }
  assert (db_state (db_install (last_applied e) hash pages next root (v_pages (view (fp_devices self)))) e requests) as Hnew.
  { eapply installed_state; [unfold u64_ok in *; lia|done|done|]. apply (so_tree _ _ _ _ _ _ Hout). }
  apply fwp_bind. eapply fwp_mono; [apply fwp_on_devices;
    apply (wp_install sb (db_of sb (v_pages (view (fp_devices self)))) (last_applied e) hash pages next root (fp_devices self1)
      (λ sb' s', quiescent (view s') sb' (db_of sb' (v_pages (view s'))) ∧ db_state (db_of sb' (v_pages (view s'))) e requests
         ∧ checkpoint_lsn sb' = 0 ∧ sb_applied_index sb' = last_applied e)
      (λ v, may_fail ∧ either_found v e0 requests0 e requests))|..]; try done.
  - by rewrite Hv1.
  - intros s' Hq' Heq. split_and!; [done| |done|done]. eapply db_state_equiv; [exact Heq|]. exact Hnew.
  - intros v Hf Hrec. split; [done|]. intros c m' Hc Hm'. destruct (Hrec c m' Hc Hm') as [Hr|Hr].
    + eexists. split; [by left|exact Hr].
    + eexists. split; [right; exact Hnew|exact Hr].
  - intros sb' self2 [(Hq' & Hst & Hck & Hidx') _]. apply fwp_bind. eexists _, _. split; [done|]. cbn beta iota.
    apply fwp_ret. cbn [fp_devices fp_superblock]. split_and!; [by eexists|done|done].
  - intros err self2 [[Hf Hfound] Hsb2]. split; [|intros; by right]. split; [by rewrite Hsb2, Hsb1|done].
Qed.

Lemma fwp_install :
  files_hold self e0 requests0 →
  fwp (install_state limit e requests) self
    (λ report self', files_hold self' e requests ∧ checkpoint_lsn (fp_superblock self') = 0
       ∧ sb_applied_index (fp_superblock self') = last_applied e) install_stopped.
Proof.
  intros (a & Hq & Ha). pose proof Hq as (_ & -> & sc & _ & Hrw). pose proof (cur_ok _ _ (rw_current _ _ _ _ _ _ Hrw)) as Hok. fold sb in Hq, Ha, Hok |- *.
  pose proof (sbok_next _ Hok) as Hnx. pose proof (sbok_index _ Hok) as Hidx.
  assert (∀ err, (∀ m, ¬ installable m) → install_stopped err self) as Hrefuse.
  { intros err Hno. split; [|intros m Hm; by destruct (Hno m)]. split; [done|]. by eapply quiescent_found. }
  unfold install_state. apply fwp_bind, fwp_lift; cycle 1.
  { intros err Hn. apply Hrefuse. intros m [_ [_ _ (rs & (? & ? & _ & _ & _ & Hv)%state_records_Ok & _)]]. by rewrite Hv in Hn. }
  intros [] _. apply fwp_bind. eexists _, _. split; [done|]. cbn beta iota. fold sb. apply fwp_bind, fwp_lift; cycle 1.
  { intros err Hn. apply Hrefuse. intros m [Hi _]. by rewrite (proj2 (Z.leb_gt _ _) Hi) in Hn. }
  intros [] Hi%ensure_Ok%negb_true_iff%Z.leb_gt. apply fwp_bind.
  assert (is_Some (last_apply_hash e)) as [hash Hh].
  { pose proof (ew_meta _ Hwf) as Hm. rewrite (proj2 (Z.eqb_neq _ _)) in Hm by (unfold u64_ok in *; lia). apply Hm. }
  rewrite Hh. apply fwp_lift_Ok. apply fwp_bind, fwp_lift; cycle 1.
  { intros err Hn. apply Hrefuse. intros m [_ [_ _ (rs & Hrs & _)]]. by rewrite Hrs in Hn. }
  intros rs Hrs. apply fwp_bind, fwp_lift; cycle 1.
  { intros err Hn. apply Hrefuse. intros m [_ [_ _ (rs' & Hrs' & Hm)]]. rewrite Hrs in Hrs'. apply Ok_inj in Hrs' as <-. by rewrite Hm in Hn. }
  intros expected Hexp. assert (stored e requests expected) as Hs by (split; [done|done|by exists rs]).
  apply fwp_bind. eapply fwp_mono; [apply fwp_with_staged; fold sb;
    by apply (fwp_build_tree limit Hlimit (fp_devices self) (next_page_id sb) expected Hnx (stored_typed _ _ _ Hs))|..].
  - intros [[[report root] pages] next] self1 (s1 & (Hv1 & Hout & _ & Hroot) & Hd1 & Hsb1).
    eapply (fwp_install_staged self1 hash root expected); try done. congruence.
  - intros err self1 (s1 & [Hv1 ->] & Hd1 & Hsb1). split; [|intros; by left]. split; [done|].
    rewrite Hd1, Hv1. by eapply quiescent_found.
Qed.
End Install.
End Files.

(** ** Theorems *)

Section Theorems.
(** The devices the call runs on, and those the files are opened on after it. *)
Context {S : Type} `{!WalIo S} `{!Disk S} {laws : StorageLaws S}.
Context {T : Type} `{!WalIo T} `{!Disk T} {laws' : StorageLaws T}.
Context (limit : nat) (Hlimit : u64_max ≤ Z.of_nat limit).

Lemma found_reopens v e0 requests0 e requests (t : T) :
  either_found v e0 requests0 e requests → crashed v (view t) → zlen (v_log (view t)) ≤ u64_max →
  reopens limit t e0 requests0 ∨ reopens limit t e requests.
Proof.
  intros Hv Hc Hl. destruct (crashed_opens v (λ b, db_state b e0 requests0 ∨ db_state b e requests) t Hv Hc Hl) as (b & [Hb|Hb] & Ho);
    [left|right]; by apply (reopen_arrives limit Hlimit t b).
Qed.

Lemma hold_reopens (self : FilePersistence S) e requests (t : T) :
  files_hold self e requests → crashed (view (fp_devices self)) (view t) → zlen (v_log (view t)) ≤ u64_max →
  reopens limit t e requests.
Proof.
  intros (a & Hq & Ha) Hc Hl.
  destruct (found_reopens _ _ _ e requests t (quiescent_found _ _ _ _ _ _ _ Hq Ha) Hc Hl); done.
Qed.

(** Files at rest that hold a state open as that state, whatever a crash
    leaves of them. *)
Theorem reopen_same_state (self : FilePersistence S) e requests (t : T) :
  files_hold self e requests → crashed (view (fp_devices self)) (view t) → zlen (v_log (view t)) ≤ u64_max →
  reopens limit t e requests.
Proof. apply hold_reopens. Qed.

(** C2: [persist_state] is durable and atomic.  On files at rest that hold one
    state it returns.  When it returns success the files are at rest and hold the
    new state, engine and request records both, whatever checkpoint they named
    before, and opening what a crash leaves of them, torn pages and a torn log
    tail included, loads it.  When it fails, opening what a crash leaves loads
    the old state or the new one, provided no checkpoint was taken since the
    last apply (the superblock names none) or the devices themselves did not
    fail.  The log stays below 2^63 bytes, and a group has at most 2^32 - 1
    pages. *)
Theorem persist_atomic (self : FilePersistence S) e0 requests0 e requests :
  files_hold self e0 requests0 → generation (fp_superblock self) < u64_max →
  zlen (v_log (view (fp_devices self))) ≤ 2 ^ 63 → engine_wf e → state_typed e requests →
  (∀ report root pages next, staged_group limit self e requests = Some (report, root, pages, next) → zlen pages ≤ u32_max) →
  ∃ r self', persist_state limit e requests self = Some (r, self')
    ∧ (is_ok r = true → files_hold self' e requests ∧ checkpoint_lsn (fp_superblock self') = 0)
    ∧ ∀ t : T, crashed (view (fp_devices self')) (view t) → zlen (v_log (view t)) ≤ u64_max →
        if is_ok r then reopens limit t e requests
        else undisturbed self → reopens limit t e requests ∨ reopens limit t e0 requests0.
Proof.
  intros Hold Hgen Hlog Hwf Hty Hbound.
  destruct (fwp_persist limit Hlimit self e0 requests0 e requests Hgen Hlog Hwf Hty Hbound Hold) as (r & self' & Hrun & Hr).
  exists r, self'. split; [done|]. destruct r as [report|err]; cbn [is_ok].
  - destruct Hr as (Hhold & Hck' & _). split; [done|]. intros t Hc Hl. by eapply hold_reopens.
  - destruct Hr as (_ & Hfound & _). split; [done|]. intros t Hc Hl Hun.
    destruct (found_reopens _ _ _ _ _ t (Hfound Hun) Hc Hl); [by right|by left].
Qed.

(** C18: [persist_state] accepts every state that is next in line and whose
    records encode, checkpointed files included: rewriting the tree never fails
    on the way, and on devices that do not fail it returns success unless page
    identifiers run out. *)
Theorem persist_succeeds (self : FilePersistence S) e0 requests0 e requests m :
  files_hold self e0 requests0 → generation (fp_superblock self) < u64_max →
  zlen (v_log (view (fp_devices self))) ≤ 2 ^ 63 → persistable (fp_superblock self) e requests m →
  (∀ report root pages next, staged_group limit self e requests = Some (report, root, pages, next) → zlen pages ≤ u32_max) →
  ∃ r self', persist_state limit e requests self = Some (r, self')
    ∧ match r with
      | Ok _ => files_hold self' e requests ∧ sb_applied_index (fp_superblock self') = last_applied e
      | Err err => err = page_ids_exhausted ∨ may_fail (S := S)
      end.
Proof.
  intros Hold Hgen Hlog Hp Hbound. pose proof Hp as [_ [Hwf Hty _]].
  destruct (fwp_persist limit Hlimit self e0 requests0 e requests Hgen Hlog Hwf Hty Hbound Hold) as (r & self' & Hrun & Hr).
  exists r, self'. split; [done|]. destruct r as [report|err]; [by destruct Hr as (? & _ & ?)|].
  destruct Hr as (_ & _ & Hwhy). by eapply Hwhy.
Qed.

(** [checkpoint] keeps the state, whether it returns or is stopped. *)
Theorem files_checkpoint_safe (self : FilePersistence S) e requests :
  files_hold self e requests → at_last_group (view (fp_devices self)) (fp_superblock self) →
  zlen (v_log (view (fp_devices self))) + 88 ≤ u64_max → generation (fp_superblock self) < u64_max →
  ∃ r self', files_checkpoint self = Some (r, self')
    ∧ (if is_ok r then files_hold self' e requests else may_fail (S := S))
    ∧ ∀ t : T, crashed (view (fp_devices self')) (view t) → zlen (v_log (view t)) ≤ u64_max → reopens limit t e requests.
Proof.
  intros (a & Hq & Ha) Hat Hroom Hgen.
  assert (fwp files_checkpoint self (λ _ self', files_hold self' e requests)
    (λ _ self', may_fail (S := S) ∧ either_found (view (fp_devices self')) e requests e requests)) as (r & self' & Hrun & Hr).
  { unfold files_checkpoint. apply fwp_bind. eexists _, _. split; [done|]. cbn beta iota. apply fwp_bind.
    eapply fwp_mono; [apply fwp_on_devices;
      apply (wp_checkpoint (fp_superblock self) a (fp_devices self)
        (λ r s', ∃ a', quiescent (view s') r.2 a' ∧ db_state a' e requests)
        (λ v, may_fail (S := S) ∧ either_found v e requests e requests))|..]; try done.
    - intros mk s' Hq' Heq _. eexists. split; [done|]. by eapply db_state_equiv.
    - intros v [Hf Hrec]. split; [done|]. intros c m Hc Hm. exists a. split; [by left|by apply Hrec].
    - intros [mk sb] self1 [Hs _]. apply fwp_bind. eexists _, _. split; [done|]. cbn beta iota. by apply fwp_ret.
    - by intros err self1 [? _]. }
  exists r, self'. split; [done|]. destruct r as [mk|err]; cbn [is_ok].
  - split; [done|]. intros t Hc Hl. by eapply hold_reopens.
  - destruct Hr as [Hf Hfound]. split; [done|]. intros t Hc Hl. by destruct (found_reopens _ _ _ _ _ t Hfound Hc Hl).
Qed.

(** C19: [install_state] is atomic and durable: a snapshot from any later index
    replaces the state of the files, and wherever it is stopped, opening what a
    crash leaves loads the old state or the snapshot, and the snapshot once it
    has returned.  A snapshot that is ahead and encodes is refused only when page
    identifiers run out or a device fails. *)
Theorem install_atomic (self : FilePersistence S) e0 requests0 e requests :
  files_hold self e0 requests0 → generation (fp_superblock self) < u64_max → engine_wf e → state_typed e requests →
  ∃ r self', install_state limit e requests self = Some (r, self')
    ∧ (is_ok r = true → files_hold self' e requests ∧ checkpoint_lsn (fp_superblock self') = 0)
    ∧ (∀ m err, r = Err err → installable self e requests m → err = page_ids_exhausted ∨ may_fail (S := S))
    ∧ ∀ t : T, crashed (view (fp_devices self')) (view t) → zlen (v_log (view t)) ≤ u64_max →
        reopens limit t e requests ∨ is_ok r = false ∧ reopens limit t e0 requests0.
Proof.
  intros Hold Hgen Hwf Hty.
  destruct (fwp_install limit Hlimit self e0 requests0 e requests Hgen Hwf Hty Hold) as (r & self' & Hrun & Hr).
  exists r, self'. split; [done|]. destruct r as [report|err]; cbn [is_ok].
  - destruct Hr as (Hhold & Hck' & _). split_and!; [done|done|]. intros t Hc Hl. left. by eapply hold_reopens.
  - destruct Hr as [[_ Hfound] Hwhy]. split_and!; [done|by intros m err' [= <-] Hm; eapply Hwhy|]. intros t Hc Hl.
    destruct (found_reopens _ _ _ _ _ t Hfound Hc Hl); [by right|by left].
Qed.
End Theorems.
End States.
