(* ===== verification/DbRestart.v ===== *)
(** * The limit of the file operations does not matter

    What [FilePersistence] does within a limit it does within any larger one. *)

From S2P Require Import Prelude StorageBytes StoragePage StorageIo StorageWal StoragePager BtreeNode BtreeOps BtreeFuel CoreTypes CoreCodec EngineExpr EngineCatalog EngineTxn EngineState EngineRecords SqlAst DbExecutor DbDatabase DbRecords DbFiles StorageScan StorageGroups StorageLaws StorageReplay StorageRecovery StorageApply StorageInstall StorageProps StorageExamples BtreeTree BtreeStore BtreeSearch BtreeProps EngineInv EngineSteps EngineExamples DbExamples DbState DbPages DbDurable.

Definition fio_le {S A} (m m' : fio S A) : Prop := ∀ s r, m s = Some r → m' s = Some r.

#[export] Instance fio_le_preorder {S A} : PreOrder (@fio_le S A).
Proof. split; [by intros m s r|]. intros m m' m'' H H' s r Hm. auto. Qed.

Lemma f_le_bind {S A B} (m m' : fio S A) (f f' : A → fio S B) :
  fio_le m m' → (∀ a, fio_le (f a) (f' a)) → fio_le (m ≫= f) (m' ≫= f').
Proof.
  intros Hm Hf s r. unfold mbind, fio_bind. destruct (m s) as [[x s']|] eqn:E; [|done]. rewrite (Hm _ _ E).
  destruct x; [apply Hf|done].
Qed.

Lemma f_le_tree {S A} (m m' : proc S A) : proc_le m m' → fio_le (f_tree m) (f_tree m').
Proof. intros Hm s r. unfold f_tree. destruct (m s) as [[x s']|] eqn:E; [|done]. by rewrite (Hm _ _ E). Qed.

Lemma f_le_each {S A} (f f' : A → fio S unit) l : (∀ a, fio_le (f a) (f' a)) → fio_le (f_each f l) (f_each f' l).
Proof. intros Hf. induction l as [|a l IH]; [done|]. cbn [f_each]. by apply f_le_bind. Qed.

Section Limit.
Context {S : Type} `{!WalIo S} `{!Disk S} `{Sha256}.
Context (l l' : nat) (Hl : (l ≤ l')%nat).

Lemma le_remove_key root key : fio_le (remove_key l root key) (remove_key l' root key).
Proof. unfold remove_key. apply f_le_bind; [by apply f_le_tree, le_delete|done]. Qed.

Lemma le_put_entry root e : fio_le (put_entry l root e) (put_entry l' root e).
Proof. unfold put_entry. apply f_le_bind; [by apply f_le_tree, le_insert|done]. Qed.

Lemma le_replace_tree root expected : fio_le (replace_tree l root expected) (replace_tree l' root expected).
Proof.
  unfold replace_tree. apply f_le_bind; [destruct root; [by apply f_le_tree, le_open|done]|]. intros r.
  apply f_le_bind; [by apply f_le_tree, le_range|]. intros es. apply f_le_bind; [done|]. intros [].
  apply f_le_bind; [apply f_le_each; intros; apply le_remove_key|]. intros [].
  apply f_le_bind; [apply f_le_each; intros; apply le_put_entry|]. intros [].
  apply f_le_bind; [by apply f_le_tree, le_validate|done].
Qed.

Lemma le_build_tree expected : fio_le (build_tree l expected) (build_tree l' expected).
Proof.
  unfold build_tree. apply f_le_bind; [done|]. intros r. apply f_le_bind; [apply f_le_each; intros; apply le_put_entry|]. intros [].
  apply f_le_bind; [by apply f_le_tree, le_validate|done].
Qed.
End Limit.

(** ** A database that stops and starts again

    The memory devices, a database of one table in them, and the hypotheses of
    the durability theorems checked on it.  SHA-256 is a stand-in digest and
    JSON a table of the values that occur. *)

#[local] Instance SnapshotMeta_eq_dec : EqDecision SnapshotMeta.
Proof. solve_decision. Defined.

#[local] Instance json_meta : SerdeJson SnapshotMeta := table_json [snapshot_meta (snapshot e1); snapshot_meta (snapshot e2)].
#[local] Instance json_catalog : SerdeJson Catalog := table_json [catalog e1].
#[local] Instance json_primary : SerdeJson PrimarySnapshotEntry := table_json (f_primary (snapshot e1) ++ f_primary (snapshot e2)).
#[local] Instance json_secondary : SerdeJson SecondarySnapshotEntry := table_json (f_secondary (snapshot e1) ++ f_secondary (snapshot e2)).
#[local] Instance json_client : SerdeJson ClientSnapshotEntry := table_json (f_clients (snapshot e1) ++ f_clients (snapshot e2)).
#[local] Instance json_request : SerdeJson DurableRequestRecord := table_json ((btree_map_iter users_requests).*2).

Definition demo_entries : gmap bytes bytes := force (rs ← state_records e1 users_requests; encode_records rs) ∅.

Example demo_encodes : is_ok (rs ← state_records e1 users_requests; encode_records rs) = true ∧ size demo_entries = 6%nat.
Proof. vm_compute. auto. Qed.

#[local] Instance json_meta_ok : SerdeJsonOk SnapshotMeta.
Proof. apply table_json_ok. Qed.
#[local] Instance json_catalog_ok : SerdeJsonOk Catalog.
Proof. apply table_json_ok. Qed.
#[local] Instance json_primary_ok : SerdeJsonOk PrimarySnapshotEntry.
Proof. apply table_json_ok. Qed.
#[local] Instance json_secondary_ok : SerdeJsonOk SecondarySnapshotEntry.
Proof. apply table_json_ok. Qed.
#[local] Instance json_client_ok : SerdeJsonOk ClientSnapshotEntry.
Proof. apply table_json_ok. Qed.
#[local] Instance json_request_ok : SerdeJsonOk DurableRequestRecord.
Proof. apply table_json_ok. Qed.

(** Bytes, decided. *)
#[local] Instance byte_ok_dec b : Decision (byte_ok b).
Proof. unfold byte_ok. apply _. Defined.

Lemma e1_typed : state_typed e1 users_requests.
Proof.
  assert (map_Forall (λ k _, 0 ≤ k_table_id k ≤ u64_max ∧ Forall byte_ok (k_primary_key k)) (primary e1)) as Hp by by_evaluation.
  assert (map_Forall (λ k _, (0 ≤ s_index_id k ≤ u64_max) ∧ Forall byte_ok (s_value k) ∧ Forall byte_ok (s_primary_key k)) (secondary e1))
    as Hs by by_evaluation.
  assert (map_Forall (λ c _, Forall byte_ok c) (clients e1)) as Hc by by_evaluation.
  assert (map_Forall (λ c _, zlen c = 16 ∧ Forall byte_ok c) users_requests) as Hr by by_evaluation.
  split.
  - split; [intros k l Hk; apply (Hp k l Hk)|intros k l Hk; apply (Hs k l Hk)].
  - intros k l Hk. apply (Hp k l Hk).
  - intros k l Hk. apply (Hs k l Hk).
  - exact Hc.
  - exact Hr.
  - intros h Hh. vm_compute in Hh. injection Hh as <-. split; [done|]. by_evaluation.
Qed.

Lemma state_roundtrip_witness : decode_state demo_entries = Ok (e1, users_requests).
Proof.
  destruct (state_records e1 users_requests) as [rs|] eqn:Hrs; [|vm_compute in Hrs; discriminate].
  assert (encode_records rs = Ok demo_entries) as Hm.
  { pose proof (proj1 demo_encodes) as Hd. unfold demo_entries. rewrite Hrs in Hd |- *.
    rewrite Ok_bind in Hd |- *. destruct (encode_records rs); [reflexivity|discriminate]. }
  exact (proj1 (state_roundtrip e1 users_requests rs demo_entries e1_wf e1_typed Hrs Hm)).
Defined.

(** A machine that may do four more updates: it stops inside the apply. *)
Definition stopping : Machine true := boot (view opened) 4.
Definition empty_files : FilePersistence (Machine true) := mkFiles stopping fresh_super empty_report.

Lemma empty_files_hold : files_hold empty_files Engine_default ∅.
Proof.
  exists (db_of fresh_super (v_pages (view stopping))). split; [|by left].
  cbn [fp_devices empty_files]. unfold stopping. rewrite view_boot. apply opened_quiescent.
Qed.

Lemma staged_group_more {S} `{!WalIo S} `{!Disk S} l l' (self : FilePersistence S) e requests x :
  (l ≤ l')%nat → staged_group l self e requests = Some x → staged_group l' self e requests = Some x.
Proof.
  intros Hl. unfold staged_group. destruct (_ ≫= _) as [expected|]; [|done].
  destruct (replace_tree l _ _ _) as [[r s]|] eqn:Hr; [|done]. by rewrite (le_replace_tree l l' Hl _ _ _ _ Hr).
Qed.

(** The state is one leaf of six entries. *)
Definition one_leaf (r : option tree_result) : Prop :=
  match r with
  | Some (report, root, pages, next) => (report, root, page_id <$> pages, next) = (mkValidation 1 1 1 6, 2, [2], 3)
  | None => False
  end.

Example demo_group : one_leaf (staged_group 20 empty_files e1 users_requests).
Proof. vm_compute. reflexivity. Qed.
Lemma one_leaf_bounded {S} `{!WalIo S} `{!Disk S} (self : FilePersistence S) e requests l x :
  (20 ≤ l)%nat → staged_group 20 self e requests = x → one_leaf x →
  ∀ report root pages next, staged_group l self e requests = Some (report, root, pages, next) → zlen pages ≤ u32_max.
Proof.
  intros Hl E Hone report root pages next Hg. destruct x as [x|]; [|done].
  rewrite (staged_group_more 20 l self e requests x Hl E) in Hg. injection Hg as ->. injection Hone as _ _ Hp _.
  destruct pages as [|p [|]]; done.
Qed.

Lemma limit_20 : (20 ≤ pages_limit)%nat.
Proof. pose proof pages_limit_ok as Hl. revert Hl. generalize pages_limit. intros l Hl. change u64_max with 18446744073709551615 in Hl. lia. Qed.

Lemma persist_atomic_witness :
  ∃ r self', DbFiles.persist_state pages_limit e1 users_requests empty_files = Some (r, self')
    ∧ ∀ t : Machine false, crashed (view (fp_devices self')) (view t) → zlen (v_log (view t)) ≤ u64_max →
        if is_ok r then reopens pages_limit t e1 users_requests
        else undisturbed empty_files → reopens pages_limit t e1 users_requests ∨ reopens pages_limit t Engine_default ∅.
Proof.
  destruct (persist_atomic (T := Machine false) pages_limit pages_limit_ok empty_files Engine_default ∅ e1 users_requests
    empty_files_hold ltac:(vm_compute; reflexivity)
    ltac:(cbn [fp_devices empty_files]; unfold stopping; rewrite view_boot, (proj2 opened_quiescent); vm_compute; discriminate)
    e1_wf e1_typed (one_leaf_bounded _ _ _ _ _ limit_20 eq_refl demo_group)) as (r & self' & Hrun & _ & Hcrash).
  exists r, self'. split; [exact Hrun|exact Hcrash].
Defined.

Lemma e1_persistable : persistable fresh_super e1 users_requests demo_entries.
Proof.
  split; [vm_compute; reflexivity|]. split; [apply e1_wf|apply e1_typed|].
  destruct (state_records e1 users_requests) as [rs|] eqn:Hrs; [|by vm_compute in Hrs]. exists rs. split; [done|].
  unfold demo_entries. rewrite Hrs, Ok_bind. destruct (encode_records rs) as [m|] eqn:Hm; [done|].
  pose proof (proj1 demo_encodes) as Hd. by rewrite Hrs, Ok_bind, Hm in Hd.
Qed.

Lemma persist_succeeds_witness :
  ∃ r self', DbFiles.persist_state pages_limit e1 users_requests empty_files = Some (r, self')
    ∧ match r with
      | Ok _ => files_hold self' e1 users_requests ∧ sb_applied_index (fp_superblock self') = 1
      | Err err => err = page_ids_exhausted ∨ may_fail (S := Machine true)
      end.
Proof.
  exact (persist_succeeds pages_limit pages_limit_ok empty_files Engine_default ∅ e1 users_requests demo_entries
    empty_files_hold ltac:(vm_compute; reflexivity)
    ltac:(cbn [fp_devices empty_files]; unfold stopping; rewrite view_boot, (proj2 opened_quiescent); vm_compute; discriminate)
    e1_persistable (one_leaf_bounded _ _ _ _ _ limit_20 eq_refl demo_group)).
Defined.

Lemma install_atomic_witness :
  ∃ r self', DbFiles.install_state pages_limit e1 users_requests empty_files = Some (r, self')
    ∧ ∀ t : Machine false, crashed (view (fp_devices self')) (view t) → zlen (v_log (view t)) ≤ u64_max →
        reopens pages_limit t e1 users_requests ∨ is_ok r = false ∧ reopens pages_limit t Engine_default ∅.
Proof.
  destruct (install_atomic (T := Machine false) pages_limit pages_limit_ok empty_files Engine_default ∅ e1 users_requests
    empty_files_hold ltac:(vm_compute; reflexivity) e1_wf e1_typed) as (r & self' & Hrun & _ & _ & Hcrash).
  exists r, self'. split; [exact Hrun|exact Hcrash].
Defined.

Lemma reopen_same_state_witness : reopens pages_limit (boot (bounded := false) (StorageExamples.found stopping) 0) Engine_default ∅.
Proof.
  apply (reopen_same_state pages_limit pages_limit_ok empty_files).
  - exact empty_files_hold.
  - rewrite view_boot. apply found_crashed.
  - rewrite view_boot. vm_compute. discriminate.
Defined.
